(* ===== verification/_CoqProject ===== *)
-Q . S2P
Prelude.v
Radix.v
External.v
Float.v
Primitives.v
Identity.v
Releases.v
InboundFilter.v
Monitors.v
Sessions.v
Event.v
Normalizer.v
JsonValue.v
Grouping.v
Issues.v
Finalizer.v
Payload.v
Processor.v
Pipeline.v
Dispatcher.v
Explore.v
Query.v
Envelope.v
Effects.v
Auth.v
LoginLimiter.v
IdentityService.v
IdentityTheory.v
Writers.v
EventWriter.v
Signals.v
Metrics.v
SignalWriters.v
BatchWriters.v
MetricWriter.v
IpAddr.v
DebugIds.v
Blobs.v
Scrub.v
IngestSignals.v
IngestChecks.v
IngestMetrics.v
IngestReplays.v
IngestFeedback.v
Ingest.v
IngestService.v
IngestTheory.v
Scheduler.v
Uptime.v
ProjectCache.v
Projects.v
Deletion.v
NotificationRules.v
NotificationDelivery.v
NotificationAlerts.v
NotificationAdmin.v
Search.v
ReplayWriter.v
ReleaseService.v
BlobCleanup.v
Artifacts.v
ArtifactService.v
ArtifactRetention.v
DebugFiles.v
