(* ===== verification/Prelude.v ===== *)
(** * Metric: verification of the Rust core

    Metric is an error-monitoring server: SDKs send Sentry envelopes, the
    server stores raw events, a pipeline of workers groups them into issues,
    and queries, monitors, sessions and notifications read the results.  This
    library translates the domain and application crates to Rocq functions and
    proves what the code is meant to guarantee.

    ** Parts of the program and their files

    The path of an event, in the order the program runs it:
    - [Envelope]: [crates/sentry-protocol/src/lib.rs], the wire format: framing
      of items, their lanes, limits, DSNs and authentication headers;
    - [InboundFilter]: [domain/src/inbound_filter.rs], the compiled drop rules
      of a project and their matchers;
    - [Dispatcher]: [application/src/dispatcher.rs], the bounded queue over the
      durable backlog, refill, backlog guard, cancelled tasks and shutdown with the
      deadline of its drain, as a step relation;
    - [Processor]: [application/src/processor.rs], one event through the stages
      (load, normalize, symbolicate, group, prepare, finalize) under deadlines,
      and what is written after a failure;
    - [Event]: [domain/src/event.rs], [symbolication.rs], the normalized event;
    - [Grouping]: [domain/src/grouping.rs], the components of an event, the
      grouping key and the issue identity;
    - [Issues]: [domain/src/issue.rs], [application/src/issues.rs], title,
      culprit and release of an occurrence;
    - [Finalizer]: [application/src/finalizer.rs], the preparation of one event
      and the checks of a batch before the store is called; [Payload]: the JSON
      projection of [normalizer.rs] and the payload the finalizer stores.
    Beside that path:
    - [Primitives]: [domain/src/lib.rs], identifiers, bounded texts, event keys;
    - [Identity]: every identity derived with BLAKE3, as the bytes it hashes;
    - [Sessions]: [domain/src/sessions.rs], the merge of session updates and the
      sketch of distinct users;
    - [Monitors]: [domain/src/monitors.rs], crontab schedules, uptime
      configurations, monitors and runs;
    - [Explore]: [domain/src/explore.rs], [application/src/explore.rs], queries
      over datasets, their validation, cost and execution;
    - [Query]: [application/src/query.rs], the text query language and its
      translation to [Explore] expressions.
    - [Effects]: services as programs: trees of calls to the ports, a program
      logic that quantifies over every answer, and executions;
    - [Auth], [LoginLimiter], [IdentityService], [IdentityTheory]:
      [domain/src/auth.rs] and [application/src/auth.rs], credentials,
      permissions, the login limiter and every method of the identity service;
    - [Normalizer]: [application/src/normalizer.rs], raw JSON to the normalized
      event under the limits; [Pipeline] instantiates the stages of [Processor]
      with [Normalizer], [Grouping], [Issues] and [Finalizer];
    - [Writers]: the micro-batching actor, over an abstract store;
      [EventWriter] ([writer.rs]) and [SignalWriters] ([span_writer.rs],
      [log_writer.rs]) are its instances, [BatchWriters] ([session_writer.rs],
      [monitor_writer.rs]) and [MetricWriter] ([metric_writer.rs]) the actors
      whose commands are lists or maps of updates;
    - [Signals]: [domain/src/signals.rs]; [Metrics]: [domain/src/metrics.rs].
    The ingestion of a request, [application/src/ingest.rs] with the values it
    makes:
    - [Scrub], [IpAddr]: secrets and addresses are taken out of a payload;
    - [IngestSignals]: logs, spans and transactions; [IngestChecks]: sessions and
      check-ins; [IngestMetrics]: metric containers; [IngestReplays]:
      [domain/src/replays.rs] and replays; [IngestFeedback]:
      [domain/src/feedback.rs] and user feedback;
    - [Ingest]: requests, authentication, the limiters, the primary event,
      attachments and minidumps, the errors of the ports; [IngestService]: the
      service as programs; [IngestTheory]: what it guarantees.
    - [JsonValue] holds the accessors of [serde_json::Value], [Radix] the number
      parsers and printers of the standard library;
    - [Releases]: [domain/src/releases.rs]; [Blobs]: [domain/src/blob.rs] and the
      identities of [archive.rs]; [DebugIds]: [domain/src/debug_files.rs].
    Services beside the ingestion:
    - [Scheduler] ([application/src/scheduler.rs]): the maintenance tasks and
      the interleaved callers of [run_due_once]; [Uptime] ([uptime.rs]): a run of
      uptime checks, its turns by host and its checks in flight;
    - [ProjectCache], [Projects] ([application/src/projects.rs]): the
      authorization cache with its lookups and commands interleaved, and the
      commands of the service.  The call [Cached] of [Projects] is a lookup of
      [ProjectCache] and [Invalidate] its command;
    - [Deletion] ([domain/src/deletion.rs], [application/src/deletion.rs]): requests
      and cancellation as programs, the registry of work as a step relation; the
      calls [FenceAndDrain] and [InvalidateKeys] are the drains of that relation
      and the commands of [ProjectCache];
    - [NotificationRules] ([domain/src/notifications.rs]), [NotificationDelivery],
      [NotificationAlerts] and [NotificationAdmin]
      ([application/src/notifications.rs]): rules and destinations, expansion and
      delivery, alerts of monitors and aggregates (over [Query] and [Explore]),
      administration (over [IdentityService]).
    - [Search] ([application/src/search.rs]): error searches over the parsed
      queries of [Query], their cursors and the anchors given to the store.
    - [ReplayWriter] ([application/src/replay_writer.rs]): recordings stored as
      objects before their metadata, and the sweep of orphans;
      [ReleaseService] ([application/src/releases.rs]): releases and deploys.
    - [BlobCleanup] ([application/src/blob_cleanup.rs]): the removal of objects no
      event refers to; [Artifacts] ([domain/src/artifacts.rs] and the validation of
      source bundles), [ArtifactService] ([application/src/artifacts.rs]),
      [ArtifactRetention] ([artifact_retention.rs]): bundles assembled, bound,
      retained and collected; [DebugFiles] ([debug_files.rs]): native debug files
      with their locks and cleanup.
    [Prelude] holds the shared notions (results, checked and saturating
    integers, byte strings with the string methods of the standard library,
    big-endian encodings, the [rust] rewrite database and the tactics
    [bool_prop], [lia]-based closers); [External] the interfaces of third-party
    code; [Float] the binary64 numbers.

    ** Conventions

    A Rust function is a Rocq function with the same name (a method is prefixed
    by its type where the name is ambiguous).  [Result] is [result], an error
    enum an inductive type with the constructors of the source.  An unsigned or
    signed integer is its value in [Z] and each checked, wrapping or saturating
    operation is written out; [String] and [Vec<u8>] are lists of byte values;
    a [BTreeMap] is its entries in key order where the order is observable, a
    [HashSet] or [HashMap] a [gset] or [gmap].  A slice index that may panic and
    a loop that may run out of fuel give [None], and the theorems show that
    neither happens.  An asynchronous function is cut at its await points into
    steps ([Dispatcher]) or takes what the runtime lets it observe as arguments
    ([Processor]).

    Third-party code (BLAKE3, [url], [time], the JSON decoder, the storage
    adapters seen through the traits of [ports]) is a type class or an argument;
    the hypotheses about it are named and each has an instance in a witness.

    ** What the theorems show

    - Exactness of parsers and matchers: [Envelope.envelope_iff_frames],
      [Query.query_parse_iff_grammar], [InboundFilter.kmp_search_correct],
      [InboundFilter.compiled_policy_refines_rules], [Monitors.parse_field_selects].
    - Identities: equal hashed bytes come from equal values
      ([Grouping.grouping_preimage_injective], [Identity.framed_identity_injective],
      [Query.normalized_query_injective]).
    - Pipeline: an event without an SDK fingerprint is grouped unless one of its
      components is too long, which only a long module identity or derived name
      can be ([Grouping.group_default_total]), and prepared
      ([Issues.prepare_issue_total]); a failed
      event is retried boundedly ([Processor.failure_decision]).
    - Concurrency: in every reachable state of the dispatcher an event is
      scheduled once and the queue keeps its bound; a drain ends, with nothing
      scheduled but work that its deadline or a cancelled task took away
      ([Dispatcher.dispatcher_schedules_once], [Dispatcher.drain_completes]).
    - Convergence of session updates, cost bounds of queries, the next run of a
      crontab, round trips of stored forms.
    - Programs over ports, for every answer of the ports: what a request may
      call and what its success means, a membership whose role the store did not
      report excepted ([IdentityTheory.operations_are_authorized],
      [IdentityTheory.mutate_membership_fails_open],
      [IdentityTheory.login_checked]); writers answer each command at most once
      and only with what the store said, lose nothing on shutdown but what a late
      drain interrupted ([EventWriter.event_writer_answers_once],
      [SignalWriters.signal_writers_answer_once],
      [BatchWriters.batch_writers_answer_slices],
      [MetricWriter.metric_writer_merges_and_answers]), and admit a request of
      records whole or not at all ([SignalWriters.records_admitted_whole]).
    - Ingestion: nothing is stored for a request that is not authorised, and what
      is stored and counted is what its project allows ([IngestTheory.ingest_guarded],
      [IngestTheory.minidump_guarded]); scrubbed values hold no secret
      ([Scrub.scrub_removes_secrets]); the normalizers of the items keep what
      they promise ([IngestSignals.spans_well_formed],
      [IngestMetrics.metric_container_folded], [IngestReplays.replay_recording_exact],
      [IngestFeedback.feedback_recorded], [IngestChecks.check_in_recorded]); the
      limiter bounds every minute ([Ingest.limiter_bounds_minutes]).  The fuel of
      [IngestService.copy_minidump] is enough with two more than the limit has
      bytes, unless the source answers with empty chunks without end.
    - Names of stored objects and debug identifiers are read back
      ([Blobs.blob_keys_identify], [DebugIds.debug_id_codec]).
    - The limits of normalized events ([Normalizer.normalize_within_limits]) and
      the composition of the stages ([Pipeline.accepted_event_processed]).
    - Projects: a command invalidates what it changed before it returns, an import
      fails closed ([Projects.commands_invalidate], [Projects.import_fails_closed]),
      and the cache is current but for a lookup that joins an older load
      ([ProjectCache.project_cache_current], [ProjectCache.stale_lookup_is_cached],
      [ProjectCache.dropped_lookups_exhaust]).
    - Background work: tasks and checks are claimed once and bounded
      ([Scheduler.scheduler_runs_exclusively], [Uptime.checks_bounded_and_complete],
      [Uptime.uptime_run_stores_checked]); a fenced project has no work left after
      its drain, which may miss its wake-up ([Deletion.fence_excludes_work],
      [Deletion.drain_misses_wake_up]).
    - Notifications: each claim is settled once within its attempts and delays
      ([NotificationDelivery.deliver_claim_settles],
      [NotificationDelivery.attempts_bounded], [NotificationDelivery.delivery_retry_bounds]),
      each delivery of a transition is made once ([NotificationDelivery.expansion_exact]),
      alerts keep their storm limit and cooldown ([NotificationAlerts.storm_limited],
      [NotificationAlerts.cooldown_kept]), their filters mean what
      [NotificationAlerts.alert_filter_meaning] says, and nothing is administered
      before it is authorized ([NotificationAdmin.admin_authorized_first]).
    - Search: a page is exactly the next matching events and its cursor leads to
      the rest ([Search.search_page_exact], [Search.cursor_roundtrip]); some
      accepted queries find nothing or always fail
      ([Search.accepted_values_match_nothing], [Search.wide_search_fails]).
    - Replays and releases: each recording is answered with the outcome of its own
      calls, metadata follows the object ([ReplayWriter.replay_writer_answers_once],
      [ReplayWriter.accepted_recording_recognised]), a sweep removes the orphans of
      its first page only ([ReplayWriter.sweep_removes_first_orphans]); a release
      is reached with its permission and in the caller's organization
      ([ReleaseService.release_service_authorized]).
    - Stored files: what is published is the validated content of all chunks, each
      read to its end, its object stored first; the reads end with fuel for the
      bytes of the limit unless an object answers with empty parts ([ArtifactService.assembly_publishes_content],
      [DebugFiles.debug_assembly_publishes_content], there under the lock of the
      file), a validated bundle keeps the limits ([Artifacts.validated_bundle_bounded]);
      objects are deleted under a lease ([ArtifactService.gc_deletes_under_lease]),
      when nothing refers to them, over both stores of the repository ([BlobCleanup.blob_cleanup_exact],
      [DebugFiles.debug_cleanup_deletes_orphans]), and a binding is removed only when
      it is old, not among the newest and its release idle
      ([ArtifactRetention.retention_keeps]).

    ** Fuel

    Recursion of the source that is not structural has a fuel argument: the
    item loop of an envelope takes the length of the body (every item consumes
    a byte), the query parser one more than the number of tokens (every nested
    call consumes a token), the glob matcher a product of the two lengths, the
    crontab scan the number of minutes the source itself scans.  Each is proved
    to be enough.

    ** Not modelled

    The storage adapters (Mongo, Postgres, object storage) are queries run by a
    database that is not part of the source; the HTTP server is configuration,
    routing and wiring of third-party crates; symbolication calls third-party
    libraries.  Records that only carry data between the application and an
    adapter are modelled where an operation reads them.  The floating-point
    estimate of the user sketch and the rendering of floats are not modelled.
    Telemetry counters, histograms and [Debug] output have no definition.
    Left for later, since they hold no state the modelled parts depend on: the
    dashboards ([application/src/dashboards.rs]), the archive format
    ([archive.rs]), the read model of issues ([issues.rs] beyond the commands of
    [Issues]), the native API and the incident capsule, which shape requests and
    answers over the stores.  The background tasks that call a modelled method on
    every tick have no definition beyond that method.
*)
From stdpp Require Import base list numbers strings pretty gmap sorting.
From Stdlib Require Import ZArith Lia.

#[global] Open Scope Z_scope.

(** ** Results: [Result<A, E>] of the source *)

Inductive result (E A : Type) : Type :=
| Ok (a : A)
| Err (e : E).
Arguments Ok {E A} a.
Arguments Err {E A} e.

#[global] Instance result_ret {E} : MRet (result E) := λ A a, Ok a.
#[global] Instance result_bind {E} : MBind (result E) :=
  λ A B f r, match r with Ok a => f a | Err e => Err e end.
#[global] Instance result_fmap {E} : FMap (result E) :=
  λ A B f r, match r with Ok a => Ok (f a) | Err e => Err e end.
#[global] Instance result_eq_dec {E A} `{EqDecision E, EqDecision A} :
  EqDecision (result E A).
Proof. solve_decision. Defined.

(** [option::ok_or], [Result::ok], [Result::map_err] and [is_ok]. *)
Definition ok_or {E A} (e : E) (o : option A) : result E A :=
  match o with Some a => Ok a | None => Err e end.
Definition ok {E A} (r : result E A) : option A :=
  match r with Ok a => Some a | Err _ => None end.
Definition map_err {E F A} (f : E → F) (r : result E A) : result F A :=
  match r with Ok a => Ok a | Err e => Err (f e) end.
Definition is_ok {E A} (r : result E A) : bool :=
  match r with Ok _ => true | Err _ => false end.
Definition is_err {E A} (r : result E A) : bool := negb (is_ok r).
Definition is_some {A} (o : option A) : bool :=
  match o with Some _ => true | None => false end.
Definition is_none {A} (o : option A) : bool := negb (is_some o).
Definition is_some_and {A} (f : A → bool) (o : option A) : bool :=
  match o with Some a => f a | None => false end.
Definition is_none_or {A} (f : A → bool) (o : option A) : bool :=
  match o with Some a => f a | None => true end.
Definition unwrap_or {A} (d : A) (o : option A) : A :=
  match o with Some a => a | None => d end.
(** [Option::or]. *)
Definition option_or {A} (x y : option A) : option A :=
  match x with Some _ => x | None => y end.

(** [if bad { return Err(e) }] of the source. *)
Definition guard_err {E} (bad : bool) (e : E) : result E unit :=
  if bad then Err e else Ok tt.

(** ** Machine integers

    An integer of the source is its value in [Z]; the width shows in the
    checked and saturating operations. *)

Definition U8_MAX : Z := 255.
Definition U16_MAX : Z := 65535.
Definition U32_MAX : Z := 4294967295.
Definition U64_MAX : Z := 18446744073709551615.
Definition I32_MIN : Z := -2147483648.
Definition I32_MAX : Z := 2147483647.
Definition I64_MIN : Z := -9223372036854775808.
Definition I64_MAX : Z := 9223372036854775807.

Definition in_range (lo hi x : Z) : bool := (lo <=? x) && (x <=? hi).
(** [checked_*]: the exact result when it is representable. *)
Definition checked (lo hi x : Z) : option Z :=
  if in_range lo hi x then Some x else None.
(** [saturating_*]: the exact result clamped to the type. *)
Definition saturate (lo hi x : Z) : Z := Z.max lo (Z.min hi x).

Definition checked_i64 := checked I64_MIN I64_MAX.
Definition checked_u64 := checked 0 U64_MAX.
Definition checked_u32 := checked 0 U32_MAX.
Definition sat_i64 := saturate I64_MIN I64_MAX.
(** Two's complement, as a release build computes. *)
Definition wrap_i64 (x : Z) : Z := (x - I64_MIN) mod 2 ^ 64 + I64_MIN.
Definition sat_u64 := saturate 0 U64_MAX.
Definition sat_u32 := saturate 0 U32_MAX.

(** *** Durations

    A [Duration] is its nanoseconds. *)

Abbreviation duration := Z.
Definition NANOS_PER_MILLI : Z := 1000000.
Definition DURATION_MAX : Z := U64_MAX * 1000000000 + 999999999.
Definition duration_checked_mul (d : duration) (k : Z) : option duration :=
  checked 0 DURATION_MAX (d * k).

Definition as_millis (d : duration) : Z := d / NANOS_PER_MILLI.

(** ** Bytes and strings

    A byte is a [Z] in [0, 256).  A Rust [str] is the list of its UTF-8
    bytes, so [str::len] is [length]. *)

Abbreviation bytes := (list Z).
Abbreviation str := (list Z).

Definition is_byte (b : Z) : Prop := 0 ≤ b < 256.
Definition len {A} (l : list A) : Z := Z.of_nat (length l).

(** The bytes of an ASCII literal of the source. *)
Definition lit (s : string) : str :=
  map (λ c, Z.of_N (Ascii.N_of_ascii c)) (String.list_ascii_of_string s).

Definition is_ascii_digit (b : Z) : bool := in_range 48 57 b.
Definition is_ascii_lowercase (b : Z) : bool := in_range 97 122 b.
Definition is_ascii_uppercase (b : Z) : bool := in_range 65 90 b.
Definition is_ascii_alphabetic (b : Z) : bool :=
  is_ascii_lowercase b || is_ascii_uppercase b.
Definition is_ascii_alphanumeric (b : Z) : bool :=
  is_ascii_alphabetic b || is_ascii_digit b.
Definition is_ascii_hexdigit (b : Z) : bool :=
  is_ascii_digit b || in_range 97 102 b || in_range 65 70 b.
Definition is_ascii_control (b : Z) : bool := in_range 0 31 b || (b =? 127).
(** [u8::is_ascii_whitespace]: space, tab, LF, FF, CR. *)
Definition is_ascii_whitespace (b : Z) : bool :=
  (b =? 32) || (b =? 9) || (b =? 10) || (b =? 12) || (b =? 13).
Definition ascii_lower (b : Z) : Z := if is_ascii_uppercase b then b + 32 else b.
Definition to_ascii_lowercase (s : str) : str := map ascii_lower s.

(** *** Characters

    [utf8_chunks s] groups a lead byte with its continuation bytes: one chunk
    per [char] of a valid UTF-8 string. *)

Definition is_cont (b : Z) : bool := in_range 128 191 b.

Fixpoint utf8_go (s : bytes) : bytes * list bytes :=
  match s with
  | [] => ([], [])
  | b :: s' =>
      let '(pre, cs) := utf8_go s' in
      if is_cont b then (b :: pre, cs) else ([], (b :: pre) :: cs)
  end.

Definition utf8_chunks (s : bytes) : list bytes :=
  let '(pre, cs) := utf8_go s in
  match pre with [] => cs | _ => pre :: cs end.

(** The scalar value of one chunk. *)
Definition scalar (c : bytes) : Z :=
  match c with
  | [a] => a
  | [a; b] => (a mod 32) * 64 + b mod 64
  | [a; b; c] => (a mod 16) * 4096 + (b mod 64) * 64 + c mod 64
  | [a; b; c; d] =>
      (a mod 8) * 262144 + (b mod 64) * 4096 + (c mod 64) * 64 + d mod 64
  | _ => 65533
  end.

(** [char::is_control]: general category Cc. *)
Definition is_control (c : bytes) : bool :=
  let x := scalar c in in_range 0 31 x || in_range 127 159 x.

(** [char::is_whitespace]: the Unicode White_Space property. *)
Definition is_whitespace (c : bytes) : bool :=
  let x := scalar c in
  in_range 9 13 x || (x =? 32) || (x =? 133) || (x =? 160) || (x =? 5760)
  || in_range 8192 8202 x || (x =? 8232) || (x =? 8233) || (x =? 8239)
  || (x =? 8287) || (x =? 12288).

(** [s.chars().any(char::is_control)]. *)
Definition any_control (s : str) : bool := existsb is_control (utf8_chunks s).

(** [str::is_char_boundary]. *)
Definition is_char_boundary (s : str) (i : nat) : bool :=
  match i with
  | O => true
  | _ => match s !! i with
         | Some b => negb (is_cont b)
         | None => Nat.eqb i (length s)
         end
  end.

(** *** The [str] methods the source uses *)

Fixpoint drop_while {A} (p : A → bool) (l : list A) : list A :=
  match l with
  | [] => []
  | x :: l' => if p x then drop_while p l' else l
  end.

(** The longest prefix whose elements satisfy [p], and the rest. *)
Fixpoint span {A} (p : A → bool) (l : list A) : list A * list A :=
  match l with
  | [] => ([], [])
  | x :: l' => if p x then let '(a, b) := span p l' in (x :: a, b) else ([], l)
  end.

(** [iter().map(f).sum()] without overflow. *)
Definition sum_map {A} (f : A → Z) (l : list A) : Z := foldr (λ x acc, f x + acc) 0 l.

Definition trim_by {A} (p : A → bool) (l : list A) : list A :=
  reverse (drop_while p (reverse (drop_while p l))).

(** [str::trim]. *)
Definition trim (s : str) : str := concat (trim_by is_whitespace (utf8_chunks s)).

(** [str::strip_prefix]. *)
Fixpoint strip_prefix (p s : bytes) : option bytes :=
  match p, s with
  | [], _ => Some s
  | x :: p', y :: s' => if x =? y then strip_prefix p' s' else None
  | _, [] => None
  end.

Definition starts_with (p s : bytes) : bool := is_some (strip_prefix p s).
Definition ends_with (p s : bytes) : bool := starts_with (reverse p) (reverse s).

(** [str::contains] of a string: some suffix starts with it. *)
Fixpoint str_contains (p s : bytes) : bool :=
  starts_with p s || match s with [] => false | _ :: s' => str_contains p s' end.

(** [str::split] by a predicate on ASCII characters: [n] separators give
    [n + 1] parts. *)
Fixpoint split_by (p : Z → bool) (s : bytes) : list bytes :=
  match s with
  | [] => [[]]
  | b :: s' =>
      if p b then [] :: split_by p s'
      else match split_by p s' with
           | [] => [[b]]
           | w :: ws => (b :: w) :: ws
           end
  end.
Definition split_on (c : Z) : bytes → list bytes := split_by (λ b, b =? c).

(** [str::split_once] and [str::rsplit_once] by one ASCII character. *)
Fixpoint split_once (c : Z) (s : bytes) : option (bytes * bytes) :=
  match s with
  | [] => None
  | b :: s' =>
      if b =? c then Some ([], s')
      else match split_once c s' with
           | Some (l, r) => Some (b :: l, r)
           | None => None
           end
  end.
Definition rsplit_once (c : Z) (s : bytes) : option (bytes * bytes) :=
  match split_once c (reverse s) with
  | Some (r, l) => Some (reverse l, reverse r)
  | None => None
  end.

Definition non_empty {A} (l : list A) : bool :=
  match l with [] => false | _ => true end.
Definition is_empty {A} (l : list A) : bool := negb (non_empty l).
(** [matches!(value, "a" | "b")]. *)
Definition one_of (l : list string) (name : str) : bool :=
  existsb (λ s, bool_decide (name = lit s)) l.

(** [str::split_ascii_whitespace] and [str::split_whitespace]. *)
Definition split_ascii_whitespace (s : bytes) : list bytes :=
  List.filter non_empty (split_by is_ascii_whitespace s).

Fixpoint split_chunks (p : bytes → bool) (cs : list bytes) : list (list bytes) :=
  match cs with
  | [] => [[]]
  | c :: cs' =>
      if p c then [] :: split_chunks p cs'
      else match split_chunks p cs' with
           | [] => [[c]]
           | w :: ws => (c :: w) :: ws
           end
  end.
Definition split_whitespace (s : str) : list str :=
  map (@concat Z) (List.filter non_empty (split_chunks is_whitespace (utf8_chunks s))).

(** [[&str]::join]. *)
Fixpoint join (sep : bytes) (l : list bytes) : bytes :=
  match l with
  | [] => []
  | [w] => w
  | w :: l' => w ++ sep ++ join sep l'
  end.

(** [Vec::dedup]: of neighbours that are equal one is kept. *)
Fixpoint dedup {A} `{EqDecision A} (l : list A) : list A :=
  match l with
  | [] => []
  | x :: l' =>
      match l' with
      | [] => [x]
      | y :: _ => if decide (x = y) then dedup l' else x :: dedup l'
      end
  end.

(** *** Numbers in text *)

Definition digit_value (b : Z) : option Z :=
  if is_ascii_digit b then Some (b - 48)
  else if in_range 97 102 b then Some (b - 87)
  else if in_range 65 70 b then Some (b - 55)
  else None.

Fixpoint digits_value (radix acc : Z) (s : bytes) : option Z :=
  match s with
  | [] => Some acc
  | b :: s' =>
      match digit_value b with
      | Some d => if d <? radix then digits_value radix (acc * radix + d) s' else None
      | None => None
      end
  end.

(** [from_str_radix] of an unsigned type with greatest value [hi]: an
    optional [+], then one digit at least; overflow is an error. *)
Definition parse_unsigned (radix hi : Z) (s : bytes) : option Z :=
  let s := match s with 43 :: s' => s' | _ => s end in
  if is_empty s then None
  else match digits_value radix 0 s with
       | Some v => if v <=? hi then Some v else None
       | None => None
       end.

(** [parse] of a signed type: also an optional [-]. *)
Definition parse_signed (lo hi : Z) (s : bytes) : option Z :=
  match s with
  | 45 :: s' =>
      if is_empty s' then None
      else match digits_value 10 0 s' with
           | Some v => if lo <=? - v then Some (- v) else None
           | None => None
           end
  | _ => parse_unsigned 10 hi s
  end.

Definition parse_u8 := parse_unsigned 10 U8_MAX.
Definition parse_u64 := parse_unsigned 10 U64_MAX.
Definition parse_i64 := parse_signed I64_MIN I64_MAX.

(** [to_string] of an integer, and [{:x}]. *)
Definition to_dec (z : Z) : str := lit (pretty z).
Definition hex_digit (d : Z) : Z := if d <? 10 then 48 + d else 87 + d.

Fixpoint to_hex_go (fuel : nat) (n : Z) (acc : bytes) : bytes :=
  match fuel with
  | O => acc
  | S f =>
      let acc := hex_digit (n mod 16) :: acc in
      if n <? 16 then acc else to_hex_go f (n / 16) acc
  end.
(** [format!("{:x}")] of a [u64]: at most sixteen digits. *)
Definition to_hex (n : Z) : str := to_hex_go 16 n [].

(** [hex::encode] and [hex::decode]. *)
Fixpoint hex_encode (bs : bytes) : str :=
  match bs with
  | [] => []
  | b :: bs' => hex_digit (b / 16) :: hex_digit (b mod 16) :: hex_encode bs'
  end.

Fixpoint hex_decode (s : bytes) : option bytes :=
  match s with
  | [] => Some []
  | h :: l :: s' =>
      match digit_value h, digit_value l, hex_decode s' with
      | Some a, Some b, Some r => Some (a * 16 + b :: r)
      | _, _, _ => None
      end
  | [_] => None
  end.

(** *** Big-endian encodings *)

Fixpoint be_bytes (n : nat) (v : Z) : bytes :=
  match n with
  | O => []
  | S n' => (v / 256 ^ Z.of_nat n') mod 256 :: be_bytes n' v
  end.

Fixpoint be_val_go (acc : Z) (bs : bytes) : Z :=
  match bs with
  | [] => acc
  | b :: bs' => be_val_go (acc * 256 + b) bs'
  end.
Definition be_val : bytes → Z := be_val_go 0.
(** [iN::from_be_bytes] of [N = 8 * n] bits. *)
Definition be_signed (n : nat) (bs : bytes) : Z :=
  let u := be_val bs in
  if u <? 256 ^ Z.of_nat n / 2 then u else u - 256 ^ Z.of_nat n.

(** A byte string with its length in [k] bytes before it. *)
Definition frame (k : nat) (v : bytes) : bytes := be_bytes k (len v) ++ v.

(** ** Automation *)

Create HintDb rust discriminated.
Create Rewrite HintDb rust.
#[export] Hint Constants Opaque : rust.
#[export] Hint Variables Opaque : rust.

(** Boolean tests of the source as propositions. *)
Ltac bool_prop :=
  repeat match goal with
  | H : _ && _ = true |- _ => apply andb_true_iff in H as [? ?]
  | H : _ || _ = false |- _ => apply orb_false_iff in H as [? ?]
  | H : negb _ = true |- _ => apply negb_true_iff in H
  | H : negb _ = false |- _ => apply negb_false_iff in H
  | H : in_range _ _ _ = true |- _ => unfold in_range in H
  | H : (_ <=? _) = true |- _ => apply Z.leb_le in H
  | H : (_ <=? _) = false |- _ => apply Z.leb_gt in H
  | H : (_ <? _) = true |- _ => apply Z.ltb_lt in H
  | H : (_ <? _) = false |- _ => apply Z.ltb_ge in H
  | H : (_ =? _) = true |- _ => apply Z.eqb_eq in H
  | H : (_ =? _) = false |- _ => apply Z.eqb_neq in H
  | H : bool_decide _ = true |- _ => apply bool_decide_eq_true in H
  | H : bool_decide _ = false |- _ => apply bool_decide_eq_false in H
  end.

(** Case analysis on the first test of the goal. *)
Ltac case_test :=
  match goal with
  | |- context [if ?b then _ else _] =>
      lazymatch type of b with
      | bool => let E := fresh "E" in destruct b eqn:E
      end
  end.

(** Case analysis on a test or a match of a hypothesis. *)
Ltac case_in H :=
  match type of H with
  | context [match ?x with _ => _ end] =>
      lazymatch x with
      | context [match _ with _ => _ end] => fail
      | _ => let E := fresh "E" in destruct x eqn:E; try discriminate H
      end
  end.
Ltac inv_cases H := repeat case_in H; simplify_eq.

(** ** Lemmas on results and options *)

Lemma bind_Ok {E A B} (r : result E A) (f : A → result E B) b :
  (r ≫= f) = Ok b ↔ ∃ a, r = Ok a ∧ f a = Ok b.
Proof. destruct r; cbn; split; naive_solver. Qed.

(** One step of a monadic computation that succeeded. *)
Tactic Notation "bind_ok" hyp(H) "as" simple_intropattern(p) :=
  rewrite bind_Ok in H; destruct H as p.

Lemma bind_Err {E A B} (r : result E A) (f : A → result E B) e :
  (r ≫= f) = Err e ↔ r = Err e ∨ ∃ a, r = Ok a ∧ f a = Err e.
Proof. destruct r; cbn; split; naive_solver. Qed.

Lemma guard_err_Ok {E} b (e : E) : guard_err b e = Ok tt ↔ b = false.
Proof. destruct b; cbn; naive_solver. Qed.

Lemma guard_bind_Ok {E B} b (e : E) (r : result E B) v :
  (guard_err b e ≫= λ _, r) = Ok v ↔ b = false ∧ r = Ok v.
Proof. destruct b; cbn; naive_solver. Qed.

Lemma ok_or_Ok {E A} (e : E) (o : option A) a : ok_or e o = Ok a ↔ o = Some a.
Proof. destruct o; cbn; naive_solver. Qed.

Lemma ok_or_Err {E A} (e e' : E) (o : option A) :
  ok_or e o = Err e' ↔ o = None ∧ e = e'.
Proof. destruct o; cbn; naive_solver. Qed.

Lemma map_err_Ok {E F A} (f : E → F) (r : result E A) a :
  map_err f r = Ok a ↔ r = Ok a.
Proof. destruct r; cbn; naive_solver. Qed.

Lemma is_some_true {A} (o : option A) : is_some o = true ↔ is_Some o.
Proof. destruct o; cbn; rewrite ?is_Some_alt; naive_solver. Qed.

(** Inversion of a computation that returned [Ok]. *)
Ltac inv_ok :=
  repeat match goal with
  | H : (guard_err _ _ ≫= _) = Ok _ |- _ => apply guard_bind_Ok in H as [? H]
  | H : (_ ≫= _) = Ok _ |- _ => apply bind_Ok in H as (? & ? & H)
  | H : ok_or _ _ = Ok _ |- _ => apply ok_or_Ok in H
  | H : map_err _ _ = Ok _ |- _ => apply map_err_Ok in H
  | H : guard_err _ _ = Ok _ |- _ =>
      apply guard_err_Ok in H || (destruct (guard_err _ _))
  | H : Ok _ = Ok _ |- _ => injection H as H; subst
  | H : Err _ = Ok _ |- _ => discriminate H
  end.

(** ** Lemmas on machine integers *)

Lemma in_range_true lo hi x : in_range lo hi x = true ↔ lo ≤ x ≤ hi.
Proof. unfold in_range. rewrite andb_true_iff, !Z.leb_le. done. Qed.

Lemma in_range_false lo hi x : in_range lo hi x = false ↔ x < lo ∨ hi < x.
Proof. unfold in_range. rewrite andb_false_iff, !Z.leb_gt. lia. Qed.

Lemma checked_Some lo hi x y : checked lo hi x = Some y ↔ y = x ∧ lo ≤ x ≤ hi.
Proof.
  unfold checked. destruct (in_range lo hi x) eqn:E.
  - apply in_range_true in E. naive_solver.
  - apply in_range_false in E. split; [done|]. intros [_ ?]. lia.
Qed.

Lemma checked_None lo hi x : checked lo hi x = None ↔ x < lo ∨ hi < x.
Proof.
  unfold checked. destruct (in_range lo hi x) eqn:E.
  - apply in_range_true in E. split; [done|lia].
  - apply in_range_false in E. naive_solver.
Qed.

Lemma checked_exact lo hi x : lo ≤ x ≤ hi → checked lo hi x = Some x.
Proof. intros. by apply checked_Some. Qed.

Lemma saturate_bounds lo hi x : lo ≤ hi → lo ≤ saturate lo hi x ≤ hi.
Proof. unfold saturate. lia. Qed.

Lemma saturate_exact lo hi x : lo ≤ x ≤ hi → saturate lo hi x = x.
Proof. unfold saturate. lia. Qed.

Lemma saturate_mono lo hi x y : x ≤ y → saturate lo hi x ≤ saturate lo hi y.
Proof. unfold saturate. lia. Qed.

(** ** Lemmas on lists *)

Lemma len_nonneg {A} (l : list A) : 0 ≤ len l.
Proof. unfold len. lia. Qed.
Lemma len_app {A} (l k : list A) : len (l ++ k) = len l + len k.
Proof. unfold len. rewrite length_app. lia. Qed.
Lemma len_cons {A} (x : A) l : len (x :: l) = 1 + len l.
Proof. unfold len. cbn. lia. Qed.
Lemma sum_map_app {A} (f : A → Z) l k : sum_map f (l ++ k) = sum_map f l + sum_map f k.
Proof. unfold sum_map. induction l; cbn [app foldr]; lia. Qed.
Lemma sum_map_nil {A} (f : A → Z) : sum_map f [] = 0.
Proof. done. Qed.
Lemma sum_map_cons {A} (f : A → Z) x l : sum_map f (x :: l) = f x + sum_map f l.
Proof. done. Qed.
Lemma len_nil {A} : len (@nil A) = 0.
Proof. done. Qed.
#[export] Hint Rewrite @len_app @len_cons @len_nil @sum_map_app @sum_map_nil @sum_map_cons : rust.

Lemma is_empty_true {A} (l : list A) : is_empty l = true ↔ l = [].
Proof. destruct l; cbn; naive_solver. Qed.
Lemma non_empty_true {A} (l : list A) : non_empty l = true ↔ l ≠ [].
Proof. destruct l; cbn; naive_solver. Qed.

Lemma existsb_false {A} (p : A → bool) l :
  existsb p l = false ↔ ∀ x, x ∈ l → p x = false.
Proof.
  induction l as [|y l IH]; cbn; [set_solver|].
  rewrite orb_false_iff, IH. set_solver.
Qed.

Lemma forallb_true {A} (p : A → bool) l :
  forallb p l = true ↔ ∀ x, x ∈ l → p x = true.
Proof.
  rewrite forallb_forall. split; intros H x; specialize (H x).
  - by rewrite list_elem_of_In.
  - by rewrite <- list_elem_of_In.
Qed.

(** Two lists with equal-length heads are equal componentwise. *)
Lemma app_inj_len {A} (a b c d : list A) :
  length a = length c → a ++ b = c ++ d → a = c ∧ b = d.
Proof. intros Hl H. by apply app_inj_1. Qed.

(** ** Lemmas on strings *)

Lemma strip_prefix_Some p s r : strip_prefix p s = Some r ↔ s = p ++ r.
Proof.
  revert s; induction p as [|x p IH]; intros s; cbn; [naive_solver|].
  destruct s as [|y s]; [naive_solver|].
  destruct (Z.eqb_spec x y) as [->|]; [rewrite IH|]; naive_solver.
Qed.

Lemma starts_with_true p s : starts_with p s = true ↔ ∃ r, s = p ++ r.
Proof.
  unfold starts_with. rewrite is_some_true. split.
  - intros [r H]. exists r. by apply strip_prefix_Some.
  - intros [r H]. exists r. by apply strip_prefix_Some.
Qed.

Lemma ends_with_true p s : ends_with p s = true ↔ ∃ r, s = r ++ p.
Proof.
  unfold ends_with. rewrite starts_with_true. split; intros [r H].
  - exists (reverse r). apply (f_equal reverse) in H.
    by rewrite reverse_app, !reverse_involutive in H.
  - exists (reverse r). by rewrite H, reverse_app.
Qed.

Lemma str_contains_true p s : str_contains p s = true ↔ ∃ l r, s = l ++ p ++ r.
Proof.
  induction s as [|y s IH]; cbn; rewrite orb_true_iff, starts_with_true; [|rewrite IH].
  - split.
    + intros [[r Hr]|]; [by exists [], r|done].
    + intros (l & r & H). symmetry in H. apply app_nil in H as [-> H].
      left. exists r. done.
  - split.
    + intros [[r Hr]|(l & r & ->)]; [by exists [], r|by exists (y :: l), r].
    + intros (l & r & H). destruct l as [|z l]; cbn in H; [left|right]; naive_solver.
Qed.

Lemma split_by_not_nil p s : split_by p s ≠ [].
Proof. destruct s; cbn; repeat case_match; done. Qed.

Lemma join_cons sep w l : l ≠ [] → join sep (w :: l) = w ++ sep ++ join sep l.
Proof. by destruct l. Qed.

(** Splitting at a separator loses nothing. *)
Lemma join_split_on c s : join [c] (split_on c s) = s.
Proof.
  unfold split_on. induction s as [|b s IH]; [done|]. cbn.
  destruct (Z.eqb_spec b c) as [->|].
  - rewrite join_cons by apply split_by_not_nil. by rewrite IH.
  - pose proof (split_by_not_nil (λ b, b =? c) s).
    destruct (split_by _ s) as [|w [|w' ws]]; [done| |]; cbn in *; by rewrite IH.
Qed.

(** The parts hold no separator. *)
Lemma split_by_parts p s w b : w ∈ split_by p s → b ∈ w → p b = false.
Proof.
  revert w; induction s as [|x s IH]; intros w Hw Hb; cbn in Hw.
  - apply list_elem_of_singleton in Hw as ->. by apply not_elem_of_nil in Hb.
  - destruct (p x) eqn:E.
    + apply elem_of_cons in Hw as [->|Hw]; [|by apply (IH w)].
      by apply not_elem_of_nil in Hb.
    + destruct (split_by p s) as [|w' ws] eqn:Es.
      * apply list_elem_of_singleton in Hw as ->.
        by apply list_elem_of_singleton in Hb as ->.
      * apply elem_of_cons in Hw as [->|Hw].
        -- apply elem_of_cons in Hb as [->|Hb]; [done|].
           apply (IH w'); [left|done].
        -- apply (IH w); [by right|done].
Qed.

Lemma split_once_Some c s l r :
  split_once c s = Some (l, r) ↔ s = l ++ c :: r ∧ c ∉ l.
Proof.
  revert l; induction s as [|b s IH]; intros l; cbn.
  - split; [done|]. intros [H _]. by destruct l.
  - destruct (Z.eqb_spec b c) as [->|Hne].
    + split; [intros [= <- <-]; set_solver|].
      intros [H Hn]. destruct l as [|z l]; cbn in H; [naive_solver|].
      injection H as -> _. set_solver.
    + destruct (split_once c s) as [[l' r']|].
      * split.
        -- intros [= <- ->]. destruct (proj1 (IH l') eq_refl) as [-> Hn].
           split; [done|]. set_solver.
        -- intros [H Hn]. destruct l as [|z l]; cbn in H; [naive_solver|].
           injection H as -> H. assert (Some (l', r') = Some (l, r)) as [= -> ->]; [|done].
           apply IH. set_solver.
      * split; [done|]. intros [H Hn]. destruct l as [|z l]; cbn in H; [naive_solver|].
        injection H as -> H. assert (None = Some (l, r)); [|done]. apply IH. set_solver.
Qed.

Lemma utf8_go_concat s : let '(pre, cs) := utf8_go s in pre ++ concat cs = s.
Proof.
  induction s as [|b s IH]; cbn; [done|].
  destruct (utf8_go s) as [pre cs]. destruct (is_cont b); cbn; by rewrite IH.
Qed.

Lemma utf8_chunks_concat s : concat (utf8_chunks s) = s.
Proof.
  unfold utf8_chunks. pose proof (utf8_go_concat s) as H.
  destruct (utf8_go s) as [pre cs]. by destruct pre.
Qed.

(** ** Lemmas on encodings *)

Lemma hex_digit_value d : 0 ≤ d < 16 → digit_value (hex_digit d) = Some d.
Proof.
  intros Hd. unfold hex_digit, digit_value, is_ascii_digit.
  destruct (Z.ltb_spec d 10).
  - rewrite (proj2 (in_range_true 48 57 (48 + d))) by lia. f_equal. lia.
  - rewrite (proj2 (in_range_false 48 57 (87 + d))) by lia.
    rewrite (proj2 (in_range_true 97 102 (87 + d))) by lia. f_equal. lia.
Qed.

Lemma hex_digit_lower d : 0 ≤ d < 16 → is_ascii_hexdigit (hex_digit d) = true.
Proof.
  intros Hd. unfold hex_digit, is_ascii_hexdigit, is_ascii_digit.
  destruct (Z.ltb_spec d 10).
  - rewrite (proj2 (in_range_true 48 57 (48 + d))) by lia. done.
  - rewrite (proj2 (in_range_true 97 102 (87 + d))) by lia. by rewrite orb_true_r.
Qed.

Lemma hex_decode_encode bs : Forall is_byte bs → hex_decode (hex_encode bs) = Some bs.
Proof.
  induction 1 as [|b bs Hb _ IH]; [done|]. cbn -[hex_digit digit_value]. unfold is_byte in Hb.
  assert (0 ≤ b / 16 < 16).
  { split; [apply Z.div_pos; lia|apply Z.div_lt_upper_bound; lia]. }
  rewrite !hex_digit_value by (apply Z.mod_pos_bound || done; lia).
  rewrite IH. do 2 f_equal. pose proof (Z.div_mod b 16). lia.
Qed.

Lemma length_hex_encode bs : length (hex_encode bs) = (2 * length bs)%nat.
Proof. induction bs; cbn; lia. Qed.

Lemma hex_encode_hexdigits bs b :
  Forall is_byte bs → b ∈ hex_encode bs → is_ascii_hexdigit b = true.
Proof.
  induction 1 as [|x bs Hx _ IH]; cbn -[hex_digit]; [set_solver|]. unfold is_byte in Hx.
  assert (0 ≤ x / 16 < 16).
  { split; [apply Z.div_pos; lia|apply Z.div_lt_upper_bound; lia]. }
  rewrite !elem_of_cons. intros [->|[->|?]]; [| |by apply IH];
    apply hex_digit_lower; [done|apply Z.mod_pos_bound; lia].
Qed.

(** Decoding succeeds on an even number of hexadecimal digits and gives bytes. *)
Lemma digit_value_hex b : is_ascii_hexdigit b = true →
  ∃ d, digit_value b = Some d ∧ 0 ≤ d < 16.
Proof.
  unfold is_ascii_hexdigit, digit_value. intros H.
  destruct (is_ascii_digit b) eqn:E1.
  { unfold is_ascii_digit in E1. apply in_range_true in E1. eexists; split; [done|lia]. }
  destruct (in_range 97 102 b) eqn:E2.
  { apply in_range_true in E2. eexists; split; [done|lia]. }
  destruct (in_range 65 70 b) eqn:E3; [|done].
  apply in_range_true in E3. eexists; split; [done|lia].
Qed.

Lemma hex_decode_total n s :
  length s = (2 * n)%nat → (∀ b, b ∈ s → is_ascii_hexdigit b = true) →
  ∃ bs, hex_decode s = Some bs ∧ length bs = n ∧ Forall is_byte bs.
Proof.
  revert s; induction n as [|n IH]; intros s Hl Hs.
  - destruct s; [|done]. by exists [].
  - destruct s as [|h [|l s]]; [done|cbn in Hl; lia|].
    destruct (IH s) as (bs & Hd & Hn & Hb); [cbn in Hl; lia|set_solver|].
    destruct (digit_value_hex h) as (a & Ha & ?); [set_solver|].
    destruct (digit_value_hex l) as (c & Hc & ?); [set_solver|].
    exists (a * 16 + c :: bs). cbn. rewrite Ha, Hc, Hd. split_and!; [done|lia|].
    constructor; [unfold is_byte; lia|done].
Qed.

Lemma length_be_bytes n v : length (be_bytes n v) = n.
Proof. induction n; cbn; lia. Qed.

Lemma be_bytes_is_byte n v : Forall is_byte (be_bytes n v).
Proof.
  induction n; cbn; constructor; [|done]. apply Z.mod_pos_bound. lia.
Qed.

Lemma be_val_go_be_bytes n v acc :
  be_val_go acc (be_bytes n v) = acc * 256 ^ Z.of_nat n + v mod 256 ^ Z.of_nat n.
Proof.
  revert acc; induction n as [|n IH]; intros acc.
  - cbn. rewrite Z.mod_1_r. lia.
  - rewrite Nat2Z.inj_succ, Z.pow_succ_r by lia. cbn [be_bytes be_val_go]. rewrite IH.
    rewrite (Z.mul_comm 256), (Z.rem_mul_r v) by lia. lia.
Qed.

Lemma be_val_be_bytes n v : be_val (be_bytes n v) = v mod 256 ^ Z.of_nat n.
Proof. unfold be_val. rewrite be_val_go_be_bytes. lia. Qed.

Lemma be_bytes_inj n v w :
  0 ≤ v < 256 ^ Z.of_nat n → 0 ≤ w < 256 ^ Z.of_nat n →
  be_bytes n v = be_bytes n w → v = w.
Proof.
  intros ?? H. apply (f_equal be_val) in H. rewrite !be_val_be_bytes in H.
  by rewrite !Z.mod_small in H.
Qed.

Lemma be_signed_be_bytes n v :
  (0 < n)%nat → - (256 ^ Z.of_nat n / 2) ≤ v < 256 ^ Z.of_nat n / 2 →
  be_signed n (be_bytes n v) = v.
Proof.
  intros Hn Hv. unfold be_signed. rewrite be_val_be_bytes.
  assert (H2 : 256 ^ Z.of_nat n = 2 * (256 ^ Z.of_nat n / 2)).
  { apply Z.div_exact; [done|]. destruct n; [lia|].
    rewrite Nat2Z.inj_succ, Z.pow_succ_r by lia.
    replace (256 * 256 ^ Z.of_nat n) with ((128 * 256 ^ Z.of_nat n) * 2) by lia.
    apply Z.mod_mul. lia. }
  set (M := 256 ^ Z.of_nat n / 2) in *. rewrite H2.
  destruct (Z.ltb_spec (v mod (2 * M)) M) as [Hlt|Hge].
  - destruct (decide (0 ≤ v)); [apply Z.mod_small; lia|].
    rewrite <- (Z.mod_unique v (2 * M) (-1) (v + 2 * M)) in Hlt; lia.
  - destruct (decide (0 ≤ v)); [rewrite Z.mod_small in Hge; lia|].
    rewrite <- (Z.mod_unique v (2 * M) (-1) (v + 2 * M)); lia.
Qed.

(** Signed values have different encodings. *)
Lemma be_bytes_signed_inj n v w :
  (0 < n)%nat →
  - (256 ^ Z.of_nat n / 2) ≤ v < 256 ^ Z.of_nat n / 2 →
  - (256 ^ Z.of_nat n / 2) ≤ w < 256 ^ Z.of_nat n / 2 →
  be_bytes n v = be_bytes n w → v = w.
Proof.
  intros Hn Hv Hw H. apply (f_equal (be_signed n)) in H.
  by rewrite !be_signed_be_bytes in H.
Qed.

Lemma be_val_go_app acc l k : be_val_go acc (l ++ k) = be_val_go (be_val_go acc l) k.
Proof. revert acc; induction l; cbn; done. Qed.

Lemma be_val_bound bs : Forall is_byte bs → 0 ≤ be_val bs < 256 ^ len bs.
Proof.
  unfold be_val, len. induction bs as [|b bs IH] using rev_ind; intros H; [cbn; lia|].
  apply Forall_app in H as [H Hb]. specialize (IH H).
  rewrite Forall_singleton in Hb. unfold is_byte in Hb.
  rewrite be_val_go_app, length_app. cbn [be_val_go length].
  rewrite Nat2Z.inj_add, Z.pow_add_r by lia. change (256 ^ Z.of_nat 1) with 256.
  lia.
Qed.

(** Fixed-width big-endian decoding followed by encoding is the identity. *)
Lemma be_bytes_be_val bs : Forall is_byte bs → be_bytes (length bs) (be_val bs) = bs.
Proof.
  induction bs as [|b bs IH]; intros H; [done|].
  apply Forall_cons in H as [Hb H]. unfold is_byte in Hb. specialize (IH H).
  pose proof (be_val_bound bs H) as Hv. unfold len in Hv.
  assert (E : be_val (b :: bs) = b * 256 ^ Z.of_nat (length bs) + be_val bs).
  { unfold be_val. cbn [be_val_go]. replace (0 * 256 + b) with b by lia.
    assert (G : ∀ l acc, be_val_go acc l = acc * 256 ^ Z.of_nat (length l) + be_val_go 0 l).
    { clear. induction l as [|x l IH] using rev_ind; intros acc; [cbn; lia|].
      rewrite !be_val_go_app, (IH acc), length_app. cbn [be_val_go length].
      rewrite Nat2Z.inj_add, Z.pow_add_r by lia. change (256 ^ Z.of_nat 1) with 256. lia. }
    apply G. }
  rewrite E. cbn [length be_bytes]. f_equal.
  - rewrite Z.div_add_l, Z.div_small by lia. rewrite Z.add_0_r. by apply Z.mod_small.
  - etrans; [|exact IH]. clear -Hv.
    assert (G : ∀ n k v, be_bytes n (k * 256 ^ Z.of_nat n + v) = be_bytes n v).
    { intros n. induction n as [|n IHn]; intros k v; [done|]. cbn [be_bytes].
      rewrite Nat2Z.inj_succ, Z.pow_succ_r by lia.
      replace (k * (256 * 256 ^ Z.of_nat n) + v)
        with ((k * 256) * 256 ^ Z.of_nat n + v) by lia.
      rewrite IHn. f_equal. rewrite Z.div_add_l by lia.
      rewrite Z.add_comm. apply Z.mod_add. lia. }
    apply G.
Qed.

(** Framing is injective and a frame determines where it ends. *)
Lemma frame_app_inj k a b r1 r2 :
  len a < 256 ^ Z.of_nat k → len b < 256 ^ Z.of_nat k →
  frame k a ++ r1 = frame k b ++ r2 → a = b ∧ r1 = r2.
Proof.
  unfold frame. intros Ha Hb H. rewrite <- !app_assoc in H.
  apply app_inj_len in H as [Hl H]; [|by rewrite !length_be_bytes].
  apply be_bytes_inj in Hl; [|split; [apply len_nonneg|done]..].
  unfold len in Hl. apply app_inj_len in H; [done|lia].
Qed.

Lemma length_frame k v : length (frame k v) = (k + length v)%nat.
Proof. unfold frame. by rewrite length_app, length_be_bytes. Qed.

Lemma lit_inj s t : lit s = lit t → s = t.
Proof.
  unfold lit. revert t; induction s as [|c s IH]; intros [|d t]; cbn; try done.
  intros [= Hc Ht]. apply N2Z.inj in Hc. f_equal; [|by apply IH].
  by rewrite <- (Ascii.ascii_N_embedding c), Hc, Ascii.ascii_N_embedding.
Qed.

Lemma to_dec_inj x y : to_dec x = to_dec y → x = y.
Proof. unfold to_dec. intros H. apply lit_inj in H. by apply (inj pretty). Qed.

(** ** Words *)

Fixpoint joined (l : list bytes) : nat :=
  match l with [] => 0%nat | w :: l' => (length w + 1 + joined l')%nat end.

Lemma length_join_single c l : length (join [c] l) = (joined l - 1)%nat.
Proof.
  induction l as [|w l IH]; [done|]. destruct (decide (l = [])) as [->|Hl]; [cbn; lia|].
  rewrite join_cons by done. rewrite !length_app, IH. cbn [joined length].
  assert (0 < joined l)%nat by (destruct l; cbn; [done|lia]). lia.
Qed.

Lemma joined_split_by p s : joined (split_by p s) = (length s + 1)%nat.
Proof.
  induction s as [|b s IH]; [done|]. cbn. destruct (p b); cbn; [lia|].
  destruct (split_by p s) eqn:E; [by apply split_by_not_nil in E|]. cbn in *. lia.
Qed.

Lemma joined_filter p l : (joined (List.filter p l) ≤ joined l)%nat.
Proof. induction l as [|w l IH]; cbn; [lia|]. destruct (p w); cbn; lia. Qed.

(** Rejoining the words of a text never makes it longer. *)
Lemma length_join_words c s :
  (length (join [c] (split_ascii_whitespace s)) ≤ length s)%nat.
Proof.
  rewrite length_join_single. unfold split_ascii_whitespace.
  pose proof (joined_filter non_empty (split_by is_ascii_whitespace s)) as H.
  rewrite joined_split_by in H. lia.
Qed.

Lemma split_by_word p w : (∀ b, b ∈ w → p b = false) → split_by p w = [w].
Proof.
  induction w as [|b w IH]; intros H; [done|]. cbn.
  rewrite (H b) by set_solver. rewrite IH by set_solver. done.
Qed.

Lemma split_by_app p w c s :
  p c = true → (∀ b, b ∈ w → p b = false) → split_by p (w ++ c :: s) = w :: split_by p s.
Proof.
  intros Hc. induction w as [|b w IH]; intros H; cbn; [by rewrite Hc|].
  rewrite (H b) by set_solver. rewrite IH by set_solver. done.
Qed.

Lemma split_by_join p c l :
  p c = true → l ≠ [] → (∀ w b, w ∈ l → b ∈ w → p b = false) → split_by p (join [c] l) = l.
Proof.
  intros Hc. induction l as [|w l IH]; intros Hl H; [done|].
  destruct (decide (l = [])) as [->|Hne].
  - cbn. apply split_by_word. set_solver.
  - rewrite join_cons by done. cbn [app]. rewrite split_by_app by set_solver.
    rewrite IH by set_solver. done.
Qed.

Lemma filter_id {A} (p : A → bool) l : (∀ x, x ∈ l → p x = true) → List.filter p l = l.
Proof.
  induction l as [|x l IH]; intros H; [done|]. cbn. rewrite (H x) by set_solver.
  rewrite IH by set_solver. done.
Qed.

(** The words of a text are recovered after they are joined by one blank. *)
Lemma split_ascii_whitespace_join s :
  split_ascii_whitespace s ≠ [] →
  split_ascii_whitespace (join [32] (split_ascii_whitespace s)) = split_ascii_whitespace s.
Proof.
  intros Hne.
  assert (Hw : ∀ w, w ∈ split_ascii_whitespace s →
    w ∈ split_by is_ascii_whitespace s ∧ non_empty w = true).
  { intros w Hw. unfold split_ascii_whitespace in Hw.
    apply list_elem_of_In, filter_In in Hw as [? ?]. by rewrite list_elem_of_In. }
  unfold split_ascii_whitespace at 1. rewrite split_by_join; [|done|done|].
  - apply filter_id. naive_solver.
  - intros w b Hin Hb. eapply split_by_parts; [by apply Hw|done].
Qed.

(** ** Lengths *)

Lemma drop_while_suffix {A} (p : A → bool) l : ∃ k, l = k ++ drop_while p l.
Proof.
  induction l as [|x l [k IH]]; [by exists []|]. cbn.
  destruct (p x); [exists (x :: k); cbn; by rewrite <- IH|by exists []].
Qed.

Lemma span_app {A} (p : A → bool) l : l = (span p l).1 ++ (span p l).2.
Proof.
  induction l as [|x l IH]; [done|]. cbn [span]. destruct (p x); [|done].
  destruct (span p l) as [a b]. cbn in *. by f_equal.
Qed.
Lemma span_all {A} (p : A → bool) l x : x ∈ (span p l).1 → p x = true.
Proof.
  induction l as [|y l IH]; cbn [span]; [by intros ?%not_elem_of_nil|].
  destruct (p y) eqn:E; [|by intros ?%not_elem_of_nil].
  destruct (span p l) as [a b]. cbn in *. intros [->|?]%elem_of_cons; auto.
Qed.
(** A word before a separator is what [span] gives back. *)
Lemma span_word {A} (p : A → bool) w l :
  (∀ x, x ∈ w → p x = true) → (∀ x l', l = x :: l' → p x = false) →
  span p (w ++ l) = (w, l).
Proof.
  intros Hw Hl. induction w as [|x w IH]; cbn [app span].
  - destruct l as [|x l]; [done|]. cbn [span]. by rewrite (Hl x l).
  - rewrite Hw by apply list_elem_of_here. rewrite IH; [done|].
    intros y Hy. apply Hw. by apply list_elem_of_further.
Qed.

Lemma trim_by_infix {A} (p : A → bool) l : ∃ a b, l = a ++ trim_by p l ++ b.
Proof.
  unfold trim_by. destruct (drop_while_suffix p l) as [a Ha].
  destruct (drop_while_suffix p (reverse (drop_while p l))) as [b Hb].
  exists a, (reverse b). rewrite Ha at 1. f_equal.
  apply (f_equal reverse) in Hb. by rewrite reverse_involutive, reverse_app in Hb.
Qed.

Lemma drop_while_head {A} (p : A → bool) l x k : drop_while p l = x :: k → p x = false.
Proof. induction l as [|y l IH]; cbn; [done|]. destruct (p y) eqn:E; [done|]. by intros [= -> ->]. Qed.
Lemma drop_while_id {A} (p : A → bool) l : (∀ x k, l = x :: k → p x = false) → drop_while p l = l.
Proof. destruct l as [|x l]; cbn; [done|]. intros H. by rewrite (H x l). Qed.
Lemma trim_by_idem {A} (p : A → bool) l : trim_by p (trim_by p l) = trim_by p l.
Proof.
  unfold trim_by. destruct (drop_while_suffix p (reverse (drop_while p l))) as [b Hb].
  set (m := drop_while p (reverse (drop_while p l))) in *.
  assert (drop_while p (reverse m) = reverse m) as ->.
  { apply drop_while_id. intros x k E. apply (f_equal reverse) in Hb.
    rewrite reverse_involutive, reverse_app, E in Hb. by eapply drop_while_head. }
  rewrite reverse_involutive. f_equal. apply drop_while_id. intros x k E. by eapply drop_while_head.
Qed.

(** Chunks are what [utf8_go] finds again in their concatenation. *)
Definition lead_chunk (c : bytes) : Prop := ∃ b t, c = b :: t ∧ is_cont b = false ∧ Forall (λ x, is_cont x = true) t.
Lemma utf8_go_chunks s : let '(pre, cs) := utf8_go s in
  Forall (λ x, is_cont x = true) pre ∧ Forall lead_chunk cs.
Proof.
  induction s as [|b s IH]; cbn; [by split|]. destruct (utf8_go s) as [pre cs]. destruct IH as [Hp Hc].
  destruct (is_cont b) eqn:E; split; try done; constructor; try done. by exists b, pre.
Qed.
Lemma utf8_go_concat_chunks pre cs : Forall (λ x, is_cont x = true) pre → Forall lead_chunk cs →
  utf8_go (pre ++ concat cs) = (pre, cs).
Proof.
  intros Hp Hc. induction Hp as [|b pre Hb Hp IH]; cbn [app utf8_go].
  - induction Hc as [|c cs (b & t & -> & Hb & Ht) Hc IH]; [done|]. cbn.
    assert (utf8_go (t ++ concat cs) = (t, cs)) as ->.
    { clear -Ht IH. induction Ht as [|x t Hx Ht IHt]; [done|]. cbn. by rewrite IHt, Hx. }
    by rewrite Hb.
  - by rewrite IH, Hb.
Qed.
Lemma utf8_chunks_infix s a l b : utf8_chunks s = a ++ l ++ b → utf8_chunks (concat l) = l.
Proof.
  unfold utf8_chunks at 1. pose proof (utf8_go_chunks s) as H. destruct (utf8_go s) as [pre cs].
  destruct H as [Hp Hc]. intros E.
  assert (Forall lead_chunk l ∨ ∃ k, l = pre :: k ∧ pre ≠ [] ∧ Forall lead_chunk k) as Hl.
  { destruct pre as [|x pre].
    - rewrite E in Hc. apply Forall_app in Hc as [_ Hc]. apply Forall_app in Hc as [Hc _]. by left.
    - destruct a as [|y a].
      + destruct l as [|y l]; [left; constructor|]. injection E as <- ->. right. exists l.
        split; [done|]. split; [done|]. by apply Forall_app in Hc as [Hc _].
      + injection E as <- ->. left. apply Forall_app in Hc as [_ Hc]. by apply Forall_app in Hc as [Hc _]. }
  unfold utf8_chunks. destruct Hl as [Hl|(k & -> & Hn & Hk)].
  - pose proof (utf8_go_concat_chunks [] l) as Hg. cbn [app] in Hg. by rewrite Hg.
  - cbn [concat]. rewrite utf8_go_concat_chunks by done. by destruct pre.
Qed.
Lemma trim_trim s : trim (trim s) = trim s.
Proof.
  unfold trim. destruct (trim_by_infix is_whitespace (utf8_chunks s)) as (a & b & E).
  erewrite utf8_chunks_infix by exact E. by rewrite trim_by_idem.
Qed.

Lemma length_trim s : (length (trim s) ≤ length s)%nat.
Proof.
  unfold trim. destruct (trim_by_infix is_whitespace (utf8_chunks s)) as (a & b & E).
  pose proof (utf8_chunks_concat s) as H. rewrite E, !concat_app in H.
  rewrite <- H at 2. rewrite !length_app. lia.
Qed.

Lemma length_lowercase s : length (to_ascii_lowercase s) = length s.
Proof. apply length_map. Qed.

Lemma joined_drop n l : (joined (drop n l) ≤ joined l)%nat.
Proof.
  revert l; induction n as [|n IH]; intros [|w l]; cbn [drop joined]; try lia.
  specialize (IH l). lia.
Qed.

Lemma pretty_go_length k : ∀ x s,
  (x < 10 ^ N.of_nat k)%N →
  (String.length (pretty_N_go x s) ≤ k + String.length s)%nat.
Proof.
  induction k as [|k IH]; intros x s Hx.
  - assert (x = 0%N) as -> by (cbn in Hx; lia). rewrite pretty_N_go_0. lia.
  - destruct (decide (x = 0)%N) as [->|Hne]; [rewrite pretty_N_go_0; lia|].
    rewrite pretty_N_go_step by lia.
    assert (Hd : (x / 10 < 10 ^ N.of_nat k)%N).
    { apply N.Div0.div_lt_upper_bound. rewrite Nat2N.inj_succ, N.pow_succ_r in Hx by lia. lia. }
    pose proof (IH (x / 10)%N (String (pretty_N_char (x mod 10)) s) Hd) as H.
    cbn [String.length] in H. lia.
Qed.

Lemma length_lit s : length (lit s) = String.length s.
Proof. unfold lit. rewrite length_map. induction s; cbn; [done|]. by rewrite IHs. Qed.

(** A number of at most [k] digits prints in at most [k] characters. *)
Lemma length_to_dec k z :
  (0 < k)%nat → 0 ≤ z < 10 ^ Z.of_nat k → (length (to_dec z) ≤ k)%nat.
Proof.
  intros Hk Hz. unfold to_dec. rewrite length_lit. destruct z as [|q|q]; [cbn; lia| |lia].
  change (pretty (Z.pos q)) with (pretty (N.pos q)). unfold pretty, pretty_N.
  destruct (decide (N.pos q = 0%N)) as [E|_]; [done|].
  pose proof (pretty_go_length k (N.pos q) ""%string) as H. cbn [String.length] in H.
  rewrite Nat.add_0_r in H. apply H.
  apply N2Z.inj_lt. rewrite N2Z.inj_pow, nat_N_Z. cbn [Z.of_N]. lia.
Qed.

Lemma length_to_hex_go fuel : ∀ n acc,
  (length (to_hex_go fuel n acc) ≤ fuel + length acc)%nat.
Proof.
  induction fuel as [|f IH]; intros n acc; cbn [to_hex_go]; [lia|].
  destruct (n <? 16); cbn [length]; [lia|].
  specialize (IH (n / 16) (hex_digit (n mod 16) :: acc)). cbn [length] in IH. lia.
Qed.

Lemma length_to_hex n : (length (to_hex n) ≤ 16)%nat.
Proof. apply (length_to_hex_go 16 n []). Qed.

(** ** Sorted lists without repetitions *)

Lemma dedup_cons `{EqDecision A} (x y : A) l :
  dedup (x :: y :: l) = if decide (x = y) then dedup (y :: l) else x :: dedup (y :: l).
Proof. done. Qed.
Lemma elem_of_dedup `{EqDecision A} (x : A) l : x ∈ dedup l ↔ x ∈ l.
Proof.
  induction l as [|y [|z l] IH]; [done|done|]. rewrite dedup_cons. destruct (decide (y = z)) as [->|];
    rewrite ?elem_of_cons, IH, ?elem_of_cons; naive_solver.
Qed.
Lemma length_dedup `{EqDecision A} (l : list A) : (length (dedup l) ≤ length l)%nat.
Proof. induction l as [|y [|z l] IH]; [done|done|]. rewrite dedup_cons. destruct (decide (y = z)); cbn in *; lia. Qed.
Lemma NoDup_dedup `{EqDecision A} R `{!AntiSymm (=) R} (l : list A) :
  StronglySorted R l → NoDup (dedup l).
Proof.
  induction l as [|y [|z l] IH]; intros Hs; [constructor|by apply NoDup_singleton|].
  inversion_clear Hs as [|? ? Hs' Hy]. rewrite dedup_cons. destruct (decide (y = z)) as [->|Hne]; [by apply IH|].
  constructor; [|by apply IH]. rewrite elem_of_dedup. intros Hin.
  inversion_clear Hs' as [|? ? Hs'' Hz]. rewrite Forall_forall in Hz. rewrite Forall_cons in Hy.
  apply elem_of_cons in Hin as [?|Hin]; [done|]. apply Hne, (anti_symm R); [apply Hy|by apply Hz].
Qed.
Lemma dedup_id `{EqDecision A} (l : list A) : NoDup l → dedup l = l.
Proof.
  induction l as [|y [|z l] IH]; [done|done|]. intros Hn. inversion_clear Hn as [|? ? Hy Hn'].
  rewrite dedup_cons. rewrite decide_False by set_solver. f_equal. by apply IH.
Qed.
Lemma dedup_length_NoDup `{EqDecision A} R `{!AntiSymm (=) R} (l : list A) : StronglySorted R l →
  length (dedup l) = length l ↔ NoDup l.
Proof.
  intros Hs. split; [|by intros Hn; rewrite dedup_id].
  assert (∀ l : list A, length (dedup l) = length l → dedup l = l) as Hid.
  { clear. induction l as [|y [|z l] IH]; [done|done|]. pose proof (length_dedup (z :: l)) as Hl.
    rewrite dedup_cons. destruct (decide (y = z)); intros E; [cbn [length] in *; lia|].
    f_equal. apply IH. cbn [length] in E. by injection E. }
  intros E. apply Hid in E. rewrite <- E. by eapply NoDup_dedup.
Qed.

Lemma filter_filter_and {A} (p q : A → bool) l : List.filter p (List.filter q l) = List.filter (λ x, q x && p x) l.
Proof. induction l as [|x l IH]; [done|]. cbn. destruct (q x); cbn; [destruct (p x); by rewrite IH|done]. Qed.
Lemma filter_ext_elem {A} (p q : A → bool) l : (∀ x, x ∈ l → p x = q x) → List.filter p l = List.filter q l.
Proof. intros H. apply List.filter_ext_in. intros x Hx. by apply H, list_elem_of_In. Qed.
