(* ===== verification/Radix.v ===== *)
(** * Numbers in text

    The digits of a number, the loop that prints them and the laws between
    printing and [from_str_radix]: what is printed in decimal, in
    hexadecimal, padded with zeros or in base 36 is read as the number. *)
From stdpp Require Import base list numbers strings pretty.
From Stdlib Require Import ZArith Lia.
From S2P Require Import Prelude.

(** A text of digits and the number it writes. *)
Definition digits (radix : Z) (ds : list Z) : Prop := Forall (λ d, 0 ≤ d < radix) ds.
Definition digits_number (radix acc : Z) (ds : list Z) : Z := foldl (λ acc d, acc * radix + d) acc ds.

(** [while value > 0 { output.push(value % radix); value /= radix }], reversed. *)
Fixpoint radix_go (fuel : nat) (radix n : Z) (acc : list Z) : list Z :=
  match fuel with
  | O => acc
  | S fuel => if 0 <? n then radix_go fuel radix (n / radix) (n mod radix :: acc) else acc
  end.
(** As many rounds as the number has bits are enough. *)
Definition radix_digits (radix n : Z) : list Z := radix_go (Z.to_nat (Z.log2 n + 1)) radix n [].

(** [char::to_digit] in base 36. *)
Definition digit36_value (b : Z) : option Z :=
  if is_ascii_digit b then Some (b - 48)
  else if is_ascii_lowercase b then Some (b - 87)
  else if is_ascii_uppercase b then Some (b - 55)
  else None.
Fixpoint value36 (acc : Z) (s : bytes) : option Z :=
  match s with
  | [] => Some acc
  | b :: s => d ← digit36_value b; value36 (acc * 36 + d) s
  end.
(** [i32::from_str_radix(s, 36)]. *)
Definition parse_i32_base36 (s : bytes) : option Z :=
  match s with
  | 45 :: s =>
      if is_empty s then None
      else v ← value36 0 s; if I32_MIN <=? - v then Some (- v) else None
  | _ =>
      let s := match s with 43 :: s => s | _ => s end in
      if is_empty s then None
      else v ← value36 0 s; if v <=? I32_MAX then Some v else None
  end.
Definition parse_i32 := parse_signed I32_MIN I32_MAX.
Definition parse_u32 := parse_unsigned 10 U32_MAX.
(** [{:0w}] of a number that is not negative. *)
Definition pad_zeros (width : nat) (s : str) : str := replicate (width - length s) 48 ++ s.

(** ** The digits of a number *)

Lemma digits_number_app radix acc l k :
  digits_number radix acc (l ++ k) = digits_number radix (digits_number radix acc l) k.
Proof. apply foldl_app. Qed.
Lemma digits_number_acc radix acc ds :
  digits_number radix acc ds = acc * radix ^ len ds + digits_number radix 0 ds.
Proof.
  revert acc. induction ds as [|d ds IH]; intros acc.
  - unfold len. cbn. lia.
  - cbn [digits_number foldl]. change (foldl _ ?a ds) with (digits_number radix a ds).
    rewrite IH, (IH (0 * radix + d)), len_cons, Z.pow_add_r by (done || apply len_nonneg). nia.
Qed.
Lemma digits_number_nonneg radix acc ds :
  0 ≤ radix → digits radix ds → 0 ≤ acc → 0 ≤ digits_number radix acc ds.
Proof.
  intros Hr H. revert acc. induction H as [|d ds Hd _ IH]; intros acc Ha; cbn; [done|].
  apply IH. nia.
Qed.
Lemma radix_go_app fuel radix n acc : radix_go fuel radix n acc = radix_go fuel radix n [] ++ acc.
Proof.
  revert n acc. induction fuel as [|fuel IH]; intros n acc; cbn; [done|].
  destruct (0 <? n); [|done]. rewrite IH, (IH _ [_]), <- (assoc_L (++)). done.
Qed.
Lemma radix_go_step radix fuel n : 0 < n →
  radix_go (S fuel) radix n [] = radix_go fuel radix (n / radix) [] ++ [n mod radix].
Proof. intros Hn. cbn. replace (0 <? n) with true by lia. apply radix_go_app. Qed.
Lemma radix_go_digits radix fuel n : 0 < radix → digits radix (radix_go fuel radix n []).
Proof.
  intros Hr. revert n. induction fuel as [|fuel IH]; intros n; [constructor|].
  destruct (Z.ltb_spec 0 n); [|cbn; replace (0 <? n) with false by lia; constructor].
  rewrite radix_go_step by done. apply Forall_app; split; [apply IH|].
  constructor; [by apply Z.mod_pos_bound|constructor].
Qed.
Lemma radix_go_number radix fuel n : 2 ≤ radix → 0 ≤ n < 2 ^ Z.of_nat fuel →
  digits_number radix 0 (radix_go fuel radix n []) = n.
Proof.
  intros Hr. revert n. induction fuel as [|fuel IH]; intros n Hn; [cbn in *; lia|].
  destruct (Z.ltb_spec 0 n); [|cbn; replace (0 <? n) with false by lia; cbn; lia].
  rewrite Nat2Z.inj_succ, Z.pow_succ_r in Hn by lia.
  rewrite radix_go_step, digits_number_app, IH;
    [|split; [apply Z.div_pos; lia|apply Z.div_lt_upper_bound; nia]|done].
  cbn. pose proof (Z.div_mod n radix). lia.
Qed.
Lemma length_radix_go radix fuel n : (length (radix_go fuel radix n []) ≤ fuel)%nat.
Proof.
  revert n. induction fuel as [|fuel IH]; intros n; [done|]. destruct (Z.ltb_spec 0 n).
  - rewrite radix_go_step, length_app by done. cbn. specialize (IH (n / radix)). lia.
  - cbn. replace (0 <? n) with false by lia. cbn. lia.
Qed.
(** The number of digits of a number below [radix ^ k]. *)
Lemma radix_go_log radix n : 2 ≤ radix → 0 < n → n < radix ^ Z.of_nat (Z.to_nat (Z.log2 n + 1)).
Proof.
  intros Hr Hn. pose proof (Z.log2_spec n Hn) as H. pose proof (Z.log2_nonneg n).
  rewrite Z2Nat.id by lia. replace (Z.log2 n + 1) with (Z.succ (Z.log2 n)) by lia.
  apply (Z.lt_le_trans _ (2 ^ Z.succ (Z.log2 n))); [lia|]. apply Z.pow_le_mono_l. lia.
Qed.
Lemma radix_go_stable radix f g n : 2 ≤ radix → 0 ≤ n < radix ^ Z.of_nat f → n < radix ^ Z.of_nat g →
  radix_go f radix n [] = radix_go g radix n [].
Proof.
  intros Hr. revert g n. induction f as [|f IH]; intros g n Hf Hg.
  - assert (n = 0) as -> by (cbn in Hf; lia). by destruct g.
  - destruct (Z.eq_dec n 0) as [->|Hne]; [by destruct g|].
    destruct g as [|g]; [cbn in Hg; lia|]. rewrite !Nat2Z.inj_succ, !Z.pow_succ_r in * by lia.
    rewrite !radix_go_step by lia. f_equal. apply IH.
    + split; [apply Z.div_pos; lia|apply Z.div_lt_upper_bound; lia].
    + apply Z.div_lt_upper_bound; lia.
Qed.
Lemma length_radix_digits radix k n : 2 ≤ radix → 0 < n < radix ^ Z.of_nat k →
  (0 < length (radix_digits radix n) ≤ k)%nat.
Proof.
  intros Hr Hn. unfold radix_digits.
  rewrite (radix_go_stable radix _ k); [|done|split; [lia|apply radix_go_log; lia]|lia].
  split; [|apply length_radix_go]. destruct k as [|k]; [cbn in Hn; lia|].
  rewrite radix_go_step, length_app by lia. cbn. lia.
Qed.
Lemma radix_digits_ok radix n : 2 ≤ radix → 0 ≤ n →
  digits radix (radix_digits radix n) ∧ digits_number radix 0 (radix_digits radix n) = n.
Proof.
  intros Hr Hn. split; [apply radix_go_digits; lia|]. apply radix_go_number; [done|].
  destruct (Z.eq_dec n 0) as [->|Hne]; [cbn; lia|].
  pose proof (Z.log2_spec n). rewrite Z2Nat.id by (pose proof (Z.log2_nonneg n); lia).
  replace (Z.log2 n + 1) with (Z.succ (Z.log2 n)) by lia. lia.
Qed.
Lemma radix_digits_not_nil radix n : 2 ≤ radix → 0 < n → radix_digits radix n ≠ [].
Proof.
  intros Hr Hn E. destruct (radix_digits_ok radix n) as [_ H]; [done|lia|].
  rewrite E in H. cbn in H. lia.
Qed.

(** ** Reading digits *)

Lemma hex_digit_not_sign d : 0 ≤ d < 36 → hex_digit d ≠ 43 ∧ hex_digit d ≠ 45.
Proof. unfold hex_digit. intros Hd. destruct (Z.ltb_spec d 10); lia. Qed.
Lemma digits_value_map radix acc ds : radix ≤ 16 → digits radix ds →
  digits_value radix acc (map hex_digit ds) = Some (digits_number radix acc ds).
Proof.
  intros Hr H. revert acc. induction H as [|d ds Hd _ IH]; intros acc; [done|].
  cbn -[digit_value hex_digit]. rewrite hex_digit_value by lia. by replace (d <? radix) with true by lia.
Qed.
Lemma digit36_hex_digit d : 0 ≤ d < 36 → digit36_value (hex_digit d) = Some d.
Proof.
  intros Hd. assert (d ∈ seqZ 0 36) as Hin by (apply elem_of_seqZ; lia). cbn in Hin.
  repeat (apply elem_of_cons in Hin as [->|Hin]; [done|]). by apply elem_of_nil in Hin.
Qed.
Lemma value36_map acc ds : digits 36 ds →
  value36 acc (map hex_digit ds) = Some (digits_number 36 acc ds).
Proof.
  intros H. revert acc. induction H as [|d ds Hd _ IH]; intros acc; [done|].
  cbn -[digit36_value hex_digit]. rewrite digit36_hex_digit by done. apply IH.
Qed.
(** A digit is no sign. *)
Lemma not_plus {A} b (x y : A) : b ≠ 43 → match b with 43 => x | _ => y end = y.
Proof. intros Hb. destruct b as [|p|p]; try done. by repeat (destruct p as [p|p|]; try done). Qed.
Lemma not_minus {A} b (x y : A) : b ≠ 45 → match b with 45 => x | _ => y end = y.
Proof. intros Hb. destruct b as [|p|p]; try done. by repeat (destruct p as [p|p|]; try done). Qed.
Lemma parse_unsigned_digits radix hi ds : radix ≤ 16 → digits radix ds → ds ≠ [] →
  digits_number radix 0 ds ≤ hi →
  parse_unsigned radix hi (map hex_digit ds) = Some (digits_number radix 0 ds).
Proof.
  intros Hr H Hne Hhi. unfold parse_unsigned. destruct ds as [|d ds]; [done|].
  inversion H as [|? ? Hd _]; subst. destruct (hex_digit_not_sign d) as [H1 H2]; [lia|].
  cbn [map]. rewrite not_plus by done.
  change (hex_digit d :: map hex_digit ds) with (map hex_digit (d :: ds)).
  rewrite digits_value_map by done. cbn [is_empty map]. by replace (_ <=? hi) with true by lia.
Qed.
Lemma parse_signed_digits lo hi ds : digits 10 ds → ds ≠ [] → digits_number 10 0 ds ≤ hi →
  parse_signed lo hi (map hex_digit ds) = Some (digits_number 10 0 ds).
Proof.
  intros H Hne Hhi. unfold parse_signed. destruct ds as [|d ds]; [done|].
  inversion H as [|? ? Hd _]; subst. destruct (hex_digit_not_sign d) as [H1 H2]; [lia|].
  cbn [map]. rewrite not_minus by done.
  by apply (parse_unsigned_digits 10 hi (d :: ds)).
Qed.
Lemma parse_i32_base36_digits ds : digits 36 ds → ds ≠ [] → digits_number 36 0 ds ≤ I32_MAX →
  parse_i32_base36 (map hex_digit ds) = Some (digits_number 36 0 ds).
Proof.
  intros H Hne Hhi. unfold parse_i32_base36. destruct ds as [|d ds]; [done|].
  inversion H as [|? ? Hd _]; subst. destruct (hex_digit_not_sign d) as [H1 H2]; [lia|].
  cbn [map]. rewrite not_minus by done.
  rewrite not_plus by done.
  change (hex_digit d :: map hex_digit ds) with (map hex_digit (d :: ds)).
  rewrite value36_map by done. cbn [is_empty map mbind option_bind].
  by replace (_ <=? I32_MAX) with true by lia.
Qed.

(** ** Printed numbers *)

(** A printed number has a digit. *)
Definition number_digits (radix n : Z) : list Z := if n =? 0 then [0] else radix_digits radix n.
Lemma number_digits_ok radix n : 2 ≤ radix → 0 ≤ n →
  digits radix (number_digits radix n) ∧ number_digits radix n ≠ []
  ∧ digits_number radix 0 (number_digits radix n) = n.
Proof.
  intros Hr Hn. unfold number_digits. destruct (Z.eqb_spec n 0) as [->|Hne].
  - split_and!; [constructor; [lia|constructor]|done..].
  - destruct (radix_digits_ok radix n Hr Hn). split_and!; [done| |done].
    apply radix_digits_not_nil; lia.
Qed.
Lemma lit_pretty_char x s : (x < 10)%N →
  lit (String (pretty_N_char x) s) = hex_digit (Z.of_N x) :: lit s.
Proof.
  intros Hx. assert (x ∈ [0;1;2;3;4;5;6;7;8;9]%N) as Hin by (rewrite !elem_of_cons; lia).
  repeat (apply elem_of_cons in Hin as [->|Hin]; [done|]). by apply elem_of_nil in Hin.
Qed.
Lemma lit_pretty_go fuel x s : Z.of_N x < 2 ^ Z.of_nat fuel →
  lit (pretty_N_go x s) = map hex_digit (radix_go fuel 10 (Z.of_N x) []) ++ lit s.
Proof.
  revert x s. induction fuel as [|fuel IH]; intros x s Hx.
  - assert (x = 0)%N as -> by (cbn in Hx; lia). by rewrite pretty_N_go_0.
  - destruct (N.eq_dec x 0) as [->|Hne]; [by rewrite pretty_N_go_0|].
    rewrite pretty_N_go_step by lia. rewrite Nat2Z.inj_succ, Z.pow_succ_r in Hx by lia.
    rewrite IH by (rewrite N2Z.inj_div; apply Z.div_lt_upper_bound; lia).
    rewrite lit_pretty_char by (apply N.mod_lt; lia).
    rewrite radix_go_step by lia. rewrite map_app, <- (assoc_L (++)), N2Z.inj_div, N2Z.inj_mod.
    done.
Qed.
Lemma to_dec_digits z : 0 ≤ z → to_dec z = map hex_digit (number_digits 10 z).
Proof.
  intros Hz. unfold to_dec, number_digits. destruct (Z.eqb_spec z 0) as [->|Hne]; [done|].
  destruct z as [|p|p]; [done| |lia]. change (pretty (Z.pos p)) with (pretty (N.pos p)).
  unfold pretty, pretty_N. destruct (decide (N.pos p = 0%N)) as [E|_]; [done|].
  rewrite (lit_pretty_go (Z.to_nat (Z.log2 (Z.pos p) + 1))).
  - by rewrite app_nil_r.
  - pose proof (Z.log2_spec (Z.pos p)). rewrite Z2Nat.id by (pose proof (Z.log2_nonneg (Z.pos p)); lia).
    cbn [Z.of_N]. replace (Z.log2 (Z.pos p) + 1) with (Z.succ (Z.log2 (Z.pos p))) by lia. lia.
Qed.
Lemma to_hex_go_digits fuel n acc : 0 < n < 16 ^ Z.of_nat fuel →
  to_hex_go fuel n (map hex_digit acc) = map hex_digit (radix_go fuel 16 n acc).
Proof.
  revert n acc. induction fuel as [|fuel IH]; intros n acc Hn; [cbn in Hn; lia|].
  rewrite Nat2Z.inj_succ, Z.pow_succ_r in Hn by lia. cbn [to_hex_go radix_go].
  replace (0 <? n) with true by lia. destruct (Z.ltb_spec n 16).
  - assert (n / 16 = 0) as -> by (apply Z.div_small; lia). by destruct fuel.
  - rewrite <- IH; [done|]. split; [apply Z.div_str_pos; lia|apply Z.div_lt_upper_bound; lia].
Qed.

(** Zeros before a number do not change it. *)
Lemma digits_number_zeros radix n ds : digits_number radix 0 (replicate n 0 ++ ds) = digits_number radix 0 ds.
Proof. rewrite digits_number_app. f_equal. induction n; cbn; [done|]. by rewrite Z.mul_0_l. Qed.
Lemma pad_zeros_digits width ds :
  pad_zeros width (map hex_digit ds) = map hex_digit (replicate (width - length ds) 0 ++ ds).
Proof.
  unfold pad_zeros. rewrite map_app, length_map. f_equal. generalize (width - length ds)%nat as n.
  induction n; cbn; [done|]. by f_equal.
Qed.
Lemma pad_zeros_inj width x y : 0 ≤ x → 0 ≤ y →
  pad_zeros width (to_dec x) = pad_zeros width (to_dec y) → x = y.
Proof.
  intros Hx Hy. rewrite !to_dec_digits, !pad_zeros_digits by done. intros H.
  destruct (number_digits_ok 10 x) as (Dx & _ & Nx), (number_digits_ok 10 y) as (Dy & _ & Ny);
    try lia.
  apply (f_equal (digits_value 10 0)) in H.
  rewrite !digits_value_map, !digits_number_zeros, Nx, Ny in H; [by simplify_eq|lia| |lia|];
    (apply Forall_app; split; [by apply Forall_replicate|done]).
Qed.

(** What is printed is read. *)
Lemma parse_signed_to_dec lo hi z : 0 ≤ z ≤ hi → parse_signed lo hi (to_dec z) = Some z.
Proof.
  intros Hz. destruct (number_digits_ok 10 z) as (Hd & Hne & Hn); [lia..|].
  rewrite to_dec_digits by lia. rewrite <- Hn at 2. apply parse_signed_digits; [done..|lia].
Qed.
Lemma parse_unsigned_to_dec hi z : 0 ≤ z ≤ hi → parse_unsigned 10 hi (to_dec z) = Some z.
Proof.
  intros Hz. destruct (number_digits_ok 10 z) as (Hd & Hne & Hn); [lia..|].
  rewrite to_dec_digits by lia. rewrite <- Hn at 2. apply parse_unsigned_digits; [lia|done..|lia].
Qed.
Lemma parse_i32_to_dec z : 0 ≤ z ≤ I32_MAX → parse_i32 (to_dec z) = Some z.
Proof. apply parse_signed_to_dec. Qed.
Lemma parse_u32_to_dec z : 0 ≤ z ≤ U32_MAX → parse_u32 (to_dec z) = Some z.
Proof. apply parse_unsigned_to_dec. Qed.

Lemma to_hex_digits n : 0 ≤ n < 2 ^ 64 → to_hex n = map hex_digit (number_digits 16 n).
Proof.
  intros Hn. unfold to_hex, number_digits. destruct (Z.eqb_spec n 0) as [->|Hne]; [done|].
  change (@nil Z) with (map hex_digit []). rewrite to_hex_go_digits by (cbn; lia). f_equal.
  apply radix_go_stable; [done|cbn; lia|]. apply radix_go_log; lia.
Qed.
Lemma parse_hex_to_hex hi n : 0 ≤ n ≤ hi → n < 2 ^ 64 → parse_unsigned 16 hi (to_hex n) = Some n.
Proof.
  intros Hn Hm. destruct (number_digits_ok 16 n) as (Hd & Hne & Hv); [lia..|].
  rewrite to_hex_digits by lia. rewrite <- Hv at 2. apply parse_unsigned_digits; [lia|done..|lia].
Qed.
Lemma parse_hex_padded width hi n : 0 ≤ n ≤ hi → n < 2 ^ 64 →
  parse_unsigned 16 hi (pad_zeros width (to_hex n)) = Some n.
Proof.
  intros Hn Hm. destruct (number_digits_ok 16 n) as (Hd & Hne & Hv); [lia..|].
  rewrite to_hex_digits, pad_zeros_digits by lia.
  rewrite parse_unsigned_digits; rewrite ?digits_number_zeros, ?Hv; try done; [| |lia].
  - apply Forall_app; split; [|done]. apply Forall_replicate. lia.
  - destruct (number_digits 16 n); [done|]. by destruct (width - _)%nat.
Qed.
