(* ===== verification/External.v ===== *)
(** * Interfaces of third-party code

    The [url], [time], [base64], [uuid] and [flate2] crates are not part of the repository: each is a
    type class whose methods are the calls the source makes.  No definition is
    made up for them; the theorems that need documented behaviour of a method
    state it as a hypothesis. *)
From stdpp Require Import base list numbers strings.
From Stdlib Require Import ZArith.
From S2P Require Import Prelude.

(** [url::Url]: parsing, the component getters and the setters the source calls.  A
    setter returns [None] where the method returns [Err(())]. *)
Class UrlApi (Url : Type) := {
  url_parse : str → option Url;
  url_scheme : Url → str;
  url_host_str : Url → option str;
  url_username : Url → str;
  url_password : Url → option str;
  url_query : Url → option str;
  url_fragment : Url → option str;
  url_port_or_known_default : Url → option Z;
  url_path : Url → str;
  url_path_segments : Url → option (list str);
  url_query_pairs : Url → list (str * str);
  url_clear_query : Url → Url;
  url_append_pair : Url → str → str → Url;
  url_clear_password : Url → option Url;
  url_set_username : Url → str → option Url;
  url_to_string : Url → str;
  url_remove_query : Url → Url;
  url_remove_fragment : Url → Url;
}.
(** [Url::cannot_be_a_base]. *)
Class UrlBaseApi (Url : Type) := url_cannot_be_a_base : Url → bool.

(** [time::Weekday], Sunday first, and the fields of [time::OffsetDateTime]. *)
Inductive Weekday := Sunday | Monday | Tuesday | Wednesday | Thursday | Friday | Saturday.

Record OffsetDateTime := {
  dt_weekday : Weekday;
  dt_month : Z;
  dt_day : Z;
  dt_hour : Z;
  dt_minute : Z;
}.

(** [OffsetDateTime::from_unix_timestamp]: [None] outside the calendar's range. *)
Class TimeApi := from_unix_timestamp : Z → option OffsetDateTime.

(** [base64::engine::general_purpose::URL_SAFE_NO_PAD]. *)
Class Base64Api := {
  base64_encode : bytes → str;
  base64_decode : str → option bytes;
}.
(** What the documentation says of it: decoding undoes encoding, and the text of
    sixteen bytes is 22 characters of the URL-safe alphabet. *)
Class Base64Laws `{!Base64Api} : Prop := {
  base64_decode_encode bs : Forall is_byte bs → base64_decode (base64_encode bs) = Some bs;
  base64_length bs : length bs = 16%nat → length (base64_encode bs) = 22%nat;
  base64_alphabet bs b : Forall is_byte bs → b ∈ base64_encode bs →
    is_ascii_alphanumeric b || (b =? 45) || (b =? 95) = true;
}.

(** [uuid::Uuid::parse_str(s).ok()], as its sixteen bytes. *)
Class UuidApi := uuid_parse : str → option bytes.
(** [OffsetDateTime::parse(s, &Rfc3339)], as [unix_timestamp_nanos]. *)
Class Rfc3339Api := rfc3339_nanos : str → option Z.
(** [flate2::read::ZlibDecoder]: the first bytes of what a stream decompresses to,
    at most as many as asked for. *)
Class ZlibApi := zlib_read : bytes → Z → option bytes.
