(* ===== verification/Float.v ===== *)
(** * Binary64 numbers

    The [f64] of the source is a binary64 [spec_float] of the Standard Library.
    [parse_f64] is [str::parse::<f64>]: the grammar of [f64::from_str] and the
    correctly rounded quotient of the exact decimal. *)
From stdpp Require Import base list numbers strings.
From Stdlib Require Import ZArith Lia SpecFloat.
From S2P Require Import Prelude.

Abbreviation f64 := spec_float.

Definition f64_is_finite (x : f64) : bool :=
  match x with S754_zero _ | S754_finite _ _ _ => true | _ => false end.
(** [value as f64] of an integer: rounded to nearest. *)
Definition f64_of_i64 (z : Z) : f64 := binary_normalize 53 1024 z 0 false.
Definition f64_zero : f64 := S754_zero false.

(** Product and order of binary64 numbers. *)
Definition f64_mul : f64 → f64 → f64 := SFmul 53 1024.
Definition f64_ltb : f64 → f64 → bool := SFltb.
(** [value.round() as i64]: half away from zero, then a saturating cast, which
    sends NaN to 0. *)
Definition f64_round_i64 (x : f64) : Z :=
  match x with
  | S754_finite s m e =>
      let magnitude := if 0 <=? e then Z.pos m * 2 ^ e
                       else (2 * Z.pos m + 2 ^ (- e)) / (2 * 2 ^ (- e)) in
      sat_i64 (if s then - magnitude else magnitude)
  | S754_infinity s => if s then I64_MIN else I64_MAX
  | _ => 0
  end.

(** The binary64 number nearest to [numerator / denominator], ties to even. *)
Definition f64_of_ratio (sign : bool) (numerator denominator : Z) : f64 :=
  if numerator =? 0 then S754_zero sign
  else
    let '(m, e, l) := SFdiv_core_binary 53 1024 numerator 0 denominator 0 in
    binary_round_aux 53 1024 sign m e l.

(** [mantissa * 10 ^ exponent]. *)
Definition f64_of_decimal (sign : bool) (mantissa exponent : Z) : f64 :=
  if 0 <=? exponent then f64_of_ratio sign (mantissa * 10 ^ exponent) 1
  else f64_of_ratio sign mantissa (10 ^ (- exponent)).

(** The digits of an exponent; its value stops growing at 65536, far beyond
    the range of the numbers. *)
Fixpoint exponent_value (acc : Z) (s : bytes) : option Z :=
  match s with
  | [] => Some acc
  | b :: s' =>
      if is_ascii_digit b
      then exponent_value (if acc <? 65536 then acc * 10 + (b - 48) else acc) s'
      else None
  end.

Definition parse_exponent (s : bytes) : option Z :=
  let '(negative, digits) :=
    match s with
    | b :: s' => if b =? 45 then (true, s') else if b =? 43 then (false, s') else (false, s)
    | [] => (false, s)
    end in
  if is_empty digits then None
  else (λ e : Z, if negative : bool then - e else e) <$> exponent_value 0 digits.

(** The unsigned decimal [digits.digits e exponent]: mantissa and exponent. *)
Definition parse_decimal (s : bytes) : option (Z * Z) :=
  let '(integer, rest) := span is_ascii_digit s in
  let '(fraction, rest) :=
    match rest with
    | b :: rest' => if b =? 46 then span is_ascii_digit rest' else ([], rest)
    | [] => ([], rest)
    end in
  if is_empty (integer ++ fraction) then None
  else
    mantissa ← digits_value 10 0 (integer ++ fraction);
    exponent ← match rest with
               | [] => Some 0
               | b :: rest' => if (b =? 101) || (b =? 69) then parse_exponent rest' else None
               end;
    Some (mantissa, exponent - len fraction).

Definition parse_f64 (s : str) : option f64 :=
  let '(negative, body) :=
    match s with
    | b :: s' => if b =? 45 then (true, s') else if b =? 43 then (false, s') else (false, s)
    | [] => (false, s)
    end in
  match parse_decimal body with
  | Some (mantissa, exponent) => Some (f64_of_decimal negative mantissa exponent)
  | None =>
      let body := to_ascii_lowercase body in
      if bool_decide (body = lit "nan") then Some S754_nan
      else if bool_decide (body = lit "inf") || bool_decide (body = lit "infinity")
      then Some (S754_infinity negative)
      else None
  end.

(** ** Checks of the definition *)

Example parse_f64_half : parse_f64 (lit "-12.5e-1") = parse_f64 (lit "-1.25").
Proof. vm_compute. reflexivity. Qed.
Example parse_f64_tenth :
  parse_f64 (lit ".1") = Some (S754_finite false 7205759403792794 (-56)).
Proof. vm_compute. reflexivity. Qed.
Example parse_f64_limits :
  parse_f64 (lit "1e400") = Some (S754_infinity false)
  ∧ parse_f64 (lit "4e-324") = Some (S754_finite false 1 (-1074))
  ∧ parse_f64 (lit "1e-400") = Some (S754_zero false) ∧ parse_f64 (lit "1e") = None
  ∧ parse_f64 (lit ".") = None ∧ parse_f64 (lit "") = None.
Proof. vm_compute. done. Qed.
Example f64_round_examples :
  f64_round_i64 (f64_of_decimal true 25 (-1)) = -3
  ∧ f64_round_i64 (f64_of_decimal false 249 (-2)) = 2
  ∧ f64_round_i64 (f64_mul (f64_of_decimal false 1753200000125 (-3)) (f64_of_i64 1000))
    = 1753200000125.
Proof. vm_compute. done. Qed.

Lemma f64_round_i64_range x : I64_MIN ≤ f64_round_i64 x ≤ I64_MAX.
Proof.
  unfold f64_round_i64, sat_i64, saturate, I64_MIN, I64_MAX.
  destruct x as [| [] | |]; try lia; destruct s; lia.
Qed.

(** Quotient and weak order. *)
Definition f64_div : f64 → f64 → f64 := SFdiv 53 1024.
Definition f64_leb : f64 → f64 → bool := SFleb.
(** [value.round() as u64]. *)
Definition f64_round_u64 (x : f64) : Z :=
  match x with
  | S754_finite s m e =>
      let magnitude := if 0 <=? e then Z.pos m * 2 ^ e
                       else (2 * Z.pos m + 2 ^ (- e)) / (2 * 2 ^ (- e)) in
      sat_u64 (if s then - magnitude else magnitude)
  | S754_infinity s => if s then 0 else U64_MAX
  | _ => 0
  end.
Lemma f64_round_u64_range x : 0 ≤ f64_round_u64 x ≤ U64_MAX.
Proof.
  destruct x as [s|s| |s m e]; cbn [f64_round_u64]; [done|by destruct s|done|].
  apply saturate_bounds. unfold U64_MAX. lia.
Qed.

(** [value.round()], and the cast [value as i64]: towards zero, saturating. *)
Definition f64_round (x : f64) : f64 :=
  match x with
  | S754_finite s m e =>
      if 0 <=? e then x
      else
        let magnitude := (2 * Z.pos m + 2 ^ (- e)) / (2 * 2 ^ (- e)) in
        if magnitude =? 0 then S754_zero s else f64_of_i64 (if s then - magnitude else magnitude)
  | _ => x
  end.
Definition f64_to_i64 (x : f64) : Z :=
  match x with
  | S754_finite s m e =>
      let magnitude := if 0 <=? e then Z.pos m * 2 ^ e else Z.pos m / 2 ^ (- e) in
      sat_i64 (if s then - magnitude else magnitude)
  | S754_infinity s => if s then I64_MIN else I64_MAX
  | _ => 0
  end.
