(* ===== verification/Primitives.v ===== *)
(** * Foundation value types ([crates/domain/src/lib.rs])

    The bounded identifiers, byte sizes, timestamps, slugs, hexadecimal
    identifiers and the 20-byte event key, each with its validating
    constructor.  A validated newtype is its payload; the well-formedness the
    constructor establishes is a predicate here. *)
From stdpp Require Import base list numbers strings sets gmap.
From Stdlib Require Import ZArith Lia.
From S2P Require Import Prelude.

Definition MAX_ERROR_CODE_BYTES : Z := 64.
Definition MIN_TIMESTAMP_MILLIS : Z := -62135596800000.
Definition MAX_TIMESTAMP_MILLIS : Z := 253402300799999.

Inductive PrimitiveError :=
| PEmpty
| PControlCharacter
| PTooLong (actual maximum : Z)
| PAboveMaximum (actual maximum : Z)
| PInvalidByteSize
| PInvalidDuration
| PTimestampOutOfRange
| PInvalidErrorCode
| PInvalidProjectId
| PInvalidDsnKey
| PInvalidEventId
| PInvalidOrganizationId
| PInvalidSlug.

#[global] Instance primitive_error_eq_dec : EqDecision PrimitiveError.
Proof. solve_decision. Defined.

(** [BoundedId::<MAX_BYTES>::new]. *)
Definition bounded_id_new (max_bytes : Z) (value : str) : result PrimitiveError str :=
  guard_err (is_empty value) PEmpty ≫= λ _,
  guard_err (max_bytes <? len value) (PTooLong (len value) max_bytes) ≫= λ _,
  guard_err (any_control value) PControlCharacter ≫= λ _,
  Ok value.

(** [ByteSize::<MAX_BYTES>::new]. *)
Definition byte_size_new (max_bytes bytes : Z) : result PrimitiveError Z :=
  if max_bytes <? bytes then Err (PAboveMaximum bytes max_bytes) else Ok bytes.

Fixpoint span_digits (s : bytes) : bytes * bytes :=
  match s with
  | [] => ([], [])
  | b :: s' =>
      if is_ascii_digit b then let '(d, r) := span_digits s' in (b :: d, r)
      else ([], s)
  end.

Definition byte_unit (unit : str) : option Z :=
  if bool_decide (unit = []) || bool_decide (unit = lit "b") then Some 1
  else if bool_decide (unit = lit "kb") then Some 1000
  else if bool_decide (unit = lit "mb") then Some 1000000
  else if bool_decide (unit = lit "gb") then Some 1000000000
  else if bool_decide (unit = lit "kib") then Some 1024
  else if bool_decide (unit = lit "mib") then Some 1048576
  else if bool_decide (unit = lit "gib") then Some 1073741824
  else None.

(** [ByteSize::from_str]: [value.find(non-digit)] splits number and unit. *)
Definition byte_size_from_str (max_bytes : Z) (value : str) : result PrimitiveError Z :=
  let '(number, unit) := span_digits (trim value) in
  ok_or PInvalidByteSize (parse_u64 number) ≫= λ number,
  ok_or PInvalidByteSize (byte_unit (to_ascii_lowercase (trim unit))) ≫= λ multiplier,
  ok_or PInvalidByteSize (checked_u64 (number * multiplier)) ≫= λ bytes,
  byte_size_new max_bytes bytes.

(** [BoundedDuration::<MAX_MILLIS>::new]: [as_millis] is a [u128]. *)
Definition bounded_duration_new (max_millis millis : Z) : result PrimitiveError Z :=
  ok_or PInvalidDuration (checked_u64 millis) ≫= λ millis,
  if max_millis <? millis then Err (PAboveMaximum millis max_millis) else Ok millis.

(** [Timestamp::from_unix_millis]; a timestamp is its [i64] milliseconds. *)
Abbreviation Timestamp := Z.
Definition from_unix_millis (value : Z) : result PrimitiveError Timestamp :=
  if in_range MIN_TIMESTAMP_MILLIS MAX_TIMESTAMP_MILLIS value then Ok value
  else Err PTimestampOutOfRange.
Definition timestamp_valid (t : Timestamp) : Prop :=
  MIN_TIMESTAMP_MILLIS ≤ t ≤ MAX_TIMESTAMP_MILLIS.

(** [ErrorCode::new]. *)
Definition error_code_new (value : str) : result PrimitiveError str :=
  let valid := non_empty value && (len value <=? MAX_ERROR_CODE_BYTES)
    && forallb (λ b, is_ascii_lowercase b || is_ascii_digit b
                     || (b =? 46) || (b =? 95) || (b =? 45)) value in
  if valid then Ok value else Err PInvalidErrorCode.

(** [ProjectId::new] of an [i32], [OrganizationId::new] of a [u64]. *)
Abbreviation ProjectId := Z.
Definition project_id_new (value : Z) : result PrimitiveError ProjectId :=
  if negb (value =? 0) && (0 <? value) then Ok value else Err PInvalidProjectId.
Definition project_id_valid (p : ProjectId) : Prop := 0 < p ≤ I32_MAX.

Definition organization_id_new (value : Z) : result PrimitiveError Z :=
  if negb (value =? 0) && (value <=? I64_MAX) then Ok value
  else Err PInvalidOrganizationId.

(** [bytes.windows(2).any(|pair| pair == b"--")]. *)
Fixpoint double_hyphen (s : bytes) : bool :=
  match s with
  | a :: (b :: _) as t => ((a =? 45) && (b =? 45)) || double_hyphen t
  | _ => false
  end.

(** [Slug::new]: an index into an empty slice is not reached, since [&&]
    stops at the first false test. *)
Definition slug_new (value : str) : result PrimitiveError str :=
  let valid :=
    match value with
    | [] => false
    | first :: _ =>
        (len value <=? 63)
        && is_ascii_alphanumeric first
        && is_ascii_alphanumeric (List.last value 0)
        && forallb (λ b, is_ascii_lowercase b || is_ascii_digit b || (b =? 45)) value
        && negb (double_hyphen value)
    end in
  if valid then Ok value else Err PInvalidSlug.

(** [parse_ingest_project_id]. *)
Definition parse_ingest_project_id (value : str) : result PrimitiveError Z :=
  if is_empty value || (20 <? len value) || negb (forallb is_ascii_digit value)
  then Err PInvalidProjectId
  else match parse_u64 value with
       | Some id => if 0 <? id then Ok id else Err PInvalidProjectId
       | None => Err PInvalidProjectId
       end.

(** [parse_hex_identifier]: sixteen bytes from 32 hexadecimal digits. *)
Definition parse_hex_identifier (value : str) : option bytes :=
  if negb (len value =? 32) || negb (forallb is_ascii_hexdigit value) then None
  else hex_decode value.

Definition dsn_key_parse (value : str) : result PrimitiveError bytes :=
  ok_or PInvalidDsnKey (parse_hex_identifier value).
Definition event_id_parse (value : str) : result PrimitiveError bytes :=
  ok_or PInvalidEventId (parse_hex_identifier value).
(** [Display] of [DsnKey] and [EventId]. *)
Definition id_to_string (id : bytes) : str := hex_encode id.

Definition id16_valid (id : bytes) : Prop := length id = 16%nat ∧ Forall is_byte id.

(** [EventKey]: four bytes of project, sixteen of event. *)
Definition event_key_new (project_id : ProjectId) (event_id : bytes) : bytes :=
  be_bytes 4 project_id ++ event_id.

Definition event_key_from_bytes (value : bytes) : result PrimitiveError bytes :=
  project_id_new (be_signed 4 (take 4 value)) ≫= λ _, Ok value.

(** [EventKey::project_id]: the [expect] is [None] here. *)
Definition event_key_project_id (key : bytes) : option ProjectId :=
  ok (project_id_new (be_signed 4 (take 4 key))).
Definition event_key_event_id (key : bytes) : bytes := drop 4 key.
Definition event_key_valid (key : bytes) : Prop :=
  length key = 20%nat ∧ Forall is_byte key ∧ is_ok (event_key_from_bytes key) = true.

(** *** Policy data of a project *)

Inductive IpScrubPolicy := IpHmac | IpKeep | IpRemove | IpTruncate.
Inductive ProjectAcceptanceState :=
| PActive | PDisabled | PPendingDelete | PPurging | PDeleted.
Inductive ProjectKeyState := KActive | KDisabled | KSuspendedByDeletion.

#[global] Instance acceptance_state_eq_dec : EqDecision ProjectAcceptanceState.
Proof. solve_decision. Defined.
#[global] Instance key_state_eq_dec : EqDecision ProjectKeyState.
Proof. solve_decision. Defined.

Record ProjectIngestLimits := {
  max_event_bytes : Z;
  max_events_per_second : option Z;
  burst : option Z;
}.
Definition ingest_limits_default : ProjectIngestLimits :=
  {| max_event_bytes := 1024 * 1024; max_events_per_second := None; burst := None |}.

(** An accepted event, and the pending one a worker receives
    ([crates/domain/src/processing.rs]). *)
Record AcceptedEvent := {
  ae_project_id : ProjectId;
  ae_event_id : bytes;
  ae_received_at : Timestamp;
  ae_policy_revision : Z;
  ae_payload : bytes;
}.

Record PendingEvent := {
  pe_event : AcceptedEvent;
  pe_attempts : Z;
}.
Definition pending_fresh (event : AcceptedEvent) : PendingEvent :=
  {| pe_event := event; pe_attempts := 0 |}.
Definition pending_key (p : PendingEvent) : bytes :=
  event_key_new (ae_project_id (pe_event p)) (ae_event_id (pe_event p)).

(** ** Lemmas *)

Lemma from_unix_millis_Ok v t : from_unix_millis v = Ok t ↔ t = v ∧ timestamp_valid v.
Proof.
  unfold from_unix_millis, timestamp_valid. destruct (in_range _ _ v) eqn:E.
  - apply in_range_true in E. naive_solver.
  - apply in_range_false in E. split; [done|]. lia.
Qed.

Lemma from_unix_millis_Err v e :
  from_unix_millis v = Err e ↔ ¬ timestamp_valid v ∧ e = PTimestampOutOfRange.
Proof.
  unfold from_unix_millis, timestamp_valid. destruct (in_range _ _ v) eqn:E.
  - apply in_range_true in E. naive_solver.
  - apply in_range_false in E. split; [intros [= <-]; split; [lia|done]|naive_solver].
Qed.

Lemma from_unix_millis_valid v : timestamp_valid v → from_unix_millis v = Ok v.
Proof. intros. by apply from_unix_millis_Ok. Qed.

Lemma project_id_new_Ok v p : project_id_new v = Ok p ↔ p = v ∧ 0 < v.
Proof.
  unfold project_id_new. destruct (Z.eqb_spec v 0), (Z.ltb_spec 0 v); cbn;
    split; try done; try lia; naive_solver.
Qed.

Lemma parse_hex_identifier_Some value id :
  parse_hex_identifier value = Some id → id16_valid id.
Proof.
  unfold parse_hex_identifier. intros H. inv_cases H. bool_prop.
  destruct (hex_decode_total 16 value) as (bs & Hbs & Hl & Hb).
  - unfold len in *. lia.
  - by apply forallb_true.
  - by simplify_eq.
Qed.

Lemma id_to_string_parse id :
  id16_valid id → parse_hex_identifier (id_to_string id) = Some id.
Proof.
  intros [Hl Hb]. unfold parse_hex_identifier, id_to_string, len.
  rewrite length_hex_encode, Hl. cbn -[hex_encode].
  rewrite (proj2 (forallb_true _ _)) by (intros; by eapply hex_encode_hexdigits).
  by apply hex_decode_encode.
Qed.

Lemma project_bytes_signed p : project_id_valid p → be_signed 4 (be_bytes 4 p) = p.
Proof.
  unfold project_id_valid, I32_MAX. intros. apply be_signed_be_bytes; [lia|].
  change (256 ^ Z.of_nat 4 / 2) with 2147483648. lia.
Qed.

Lemma event_key_project_new p e :
  project_id_valid p → event_key_project_id (event_key_new p e) = Some p.
Proof.
  intros Hp. unfold event_key_project_id, event_key_new.
  rewrite take_app_length' by (by rewrite length_be_bytes).
  rewrite project_bytes_signed by done.
  rewrite (proj2 (project_id_new_Ok p p)); [done|]. unfold project_id_valid in Hp. lia.
Qed.

Lemma event_key_event_new p e : event_key_event_id (event_key_new p e) = e.
Proof. unfold event_key_event_id, event_key_new. by rewrite drop_app_length' by (by rewrite length_be_bytes). Qed.

Lemma be_signed_id n bs : (0 < n)%nat → length bs = n → Forall is_byte bs →
  be_bytes n (be_signed n bs) = bs.
Proof.
  intros Hn <- Hb. unfold be_signed. case_match; [by apply be_bytes_be_val|].
  assert (G : ∀ m v, be_bytes m (v - 256 ^ Z.of_nat m) = be_bytes m v).
  { intros m v. pose proof (be_bytes_is_byte m (v - 256 ^ Z.of_nat m)) as H1.
    pose proof (be_bytes_is_byte m v) as H2.
    rewrite <- (be_bytes_be_val _ H1), <- (be_bytes_be_val _ H2), !length_be_bytes,
      !be_val_be_bytes.
    f_equal. replace (v - 256 ^ Z.of_nat m) with (v + (-1) * 256 ^ Z.of_nat m) by lia.
    apply Z.mod_add. lia. }
  rewrite G. by apply be_bytes_be_val.
Qed.

(** ** Theorems *)

(** Event keys round trip: a key built from a valid project and a
    16-byte event passes [from_bytes] and gives both back, and every 20-byte
    value [from_bytes] accepts is the key of the project and event it
    reports; so distinct (project, event) pairs have distinct keys. *)
Theorem event_key_roundtrip :
  (∀ p e, project_id_valid p → id16_valid e →
     event_key_valid (event_key_new p e) ∧
     event_key_project_id (event_key_new p e) = Some p ∧
     event_key_event_id (event_key_new p e) = e) ∧
  (∀ key, event_key_valid key →
     ∃ p, event_key_project_id key = Some p ∧
       event_key_new p (event_key_event_id key) = key).
Proof.
  split.
  - intros p e Hp [Hl Hb]. pose proof (event_key_project_new p e Hp) as Hproj.
    split_and!; [|done|apply event_key_event_new].
    split_and!.
    + unfold event_key_new. rewrite length_app, length_be_bytes. lia.
    + apply Forall_app. split; [apply be_bytes_is_byte|done].
    + unfold event_key_from_bytes. unfold event_key_project_id in Hproj.
      by destruct (project_id_new _).
  - intros key (Hl & Hb & Hok). unfold event_key_from_bytes in Hok.
    unfold event_key_project_id. destruct (project_id_new _) as [p|] eqn:E; [|done].
    exists p. split; [done|]. apply project_id_new_Ok in E as [-> _].
    unfold event_key_new, event_key_event_id.
    rewrite (be_signed_id 4); [apply take_drop|lia| |by apply Forall_take].
    rewrite length_take. lia.
Qed.

(** Event identifiers and DSN keys round trip through their wire form:
    what [Display] prints parses back to the same identifier, and parsing
    accepts only 32 hexadecimal digits and yields sixteen bytes. *)
Theorem hex_identifier_roundtrip :
  (∀ id, id16_valid id → event_id_parse (id_to_string id) = Ok id
                         ∧ dsn_key_parse (id_to_string id) = Ok id) ∧
  (∀ value, is_ok (event_id_parse value) = true ↔
     length value = 32%nat ∧ ∀ b, b ∈ value → is_ascii_hexdigit b = true) ∧
  (∀ value id, event_id_parse value = Ok id → id16_valid id).
Proof.
  split_and!.
  - intros id Hid. unfold event_id_parse, dsn_key_parse. by rewrite id_to_string_parse.
  - intros value. unfold event_id_parse, parse_hex_identifier. rewrite <- forallb_true.
    destruct (Z.eqb_spec (len value) 32) as [Hl|Hl]; cbn; unfold len in Hl.
    + destruct (forallb _ _) eqn:Ef; cbn.
      * destruct (hex_decode_total 16 value) as (bs & -> & _); [lia|by apply forallb_true|].
        cbn. split; [|done]. intros _. split; [lia|done].
      * split; [done|]. by intros [_ ?].
    + split; [done|]. intros [? _]. lia.
  - intros value id H. unfold event_id_parse in H. apply ok_or_Ok in H.
    by eapply parse_hex_identifier_Some.
Qed.
