(* ===== verification/Identity.v ===== *)
(** * Derived identities

    Every stored identity of Metric is a prefix of a BLAKE3 digest of a byte
    string built from a domain tag and the parts of the identity
    ([domain/src/finalization.rs], [issue.rs], [notifications.rs],
    [monitors.rs], [sessions.rs], [metrics.rs], [archive.rs]).  BLAKE3 is third-party code: the class
    [Blake3] is the parameter the definitions use, and the theorems are about
    the byte strings that are hashed, so they need no assumption on it. *)
From stdpp Require Import base list numbers strings sets gmap.
From Stdlib Require Import ZArith Lia.
From S2P Require Import Prelude Primitives.

(** The digest function: 32 bytes for any input. *)
Class Blake3 := blake3 : bytes → bytes.

(** [hash_part]: the length in eight bytes, then the value. *)
Definition hash_part (value : bytes) : bytes := frame 8 value.

(** The hasher's input of [derive_digest]. *)
Definition derive_input (domain : bytes) (values : list bytes) : bytes :=
  hash_part domain ++ concat (map hash_part values).

(** The hasher's input of [hash16] ([monitors.rs]): the domain is not framed. *)
Definition hash16_input (domain : bytes) (parts : list bytes) : bytes :=
  domain ++ concat (map hash_part parts).

Section derived.
Context `{Blake3}.

Definition derive_digest (domain : bytes) (values : list bytes) : bytes :=
  blake3 (derive_input domain values).
Definition derive_id (domain : bytes) (values : list bytes) : bytes :=
  take 16 (derive_digest domain values).
Definition token (domain : bytes) (values : list bytes) : Z :=
  be_signed 8 (take 8 (derive_digest domain values)).
Definition hash16 (domain : bytes) (parts : list bytes) : bytes :=
  take 16 (blake3 (hash16_input domain parts)).

(** [finalization.rs] *)
Definition derive_release_id (organization_id : Z) (exact_version : str) : bytes :=
  derive_id (lit "release-id/v1") [be_bytes 8 organization_id; exact_version].
Definition derive_environment_id (project_id : ProjectId) (exact_name : str) : bytes :=
  derive_id (lit "environment-id/v1") [be_bytes 4 project_id; exact_name].
Definition derive_hour_bucket_id (project_id : ProjectId) (issue_id : bytes)
    (bucket_start : Timestamp) : bytes :=
  derive_id (lit "issue-hour/v1")
    [be_bytes 4 project_id; issue_id; be_bytes 8 bucket_start].
Definition token_environment (value : str) : Z := token (lit "search/environment/v1") [value].
Definition token_release (value : str) : Z := token (lit "search/release/v1") [value].
Definition token_user_id (value : str) : Z := token (lit "search/user-id/v1") [value].
Definition token_tag_pair (key value : str) : Z :=
  token (lit "search/tag-pair/v1") [key; value].

(** [issue.rs] and [notifications.rs] *)
Definition notification_transition_id (project_id : ProjectId) (issue_id : bytes)
    (kind : Z) (event_id : bytes) : bytes :=
  derive_id (lit "issue-notification/v1")
    [be_bytes 4 project_id; issue_id; [kind]; event_id].
Definition notification_delivery_id (transition_id rule_id action_id : bytes) : bytes :=
  derive_id (lit "notification-delivery/v1") [transition_id; rule_id; action_id].

(** [monitors.rs] *)
Definition monitor_id_derive (project_id : ProjectId) (slug environment : str) : bytes :=
  hash16 (lit "metric/cron-monitor/v1") [be_bytes 4 project_id; slug; environment].
Definition monitor_id_derive_uptime (project_id : ProjectId) (slug environment : str) : bytes :=
  hash16 (lit "metric/uptime-monitor/v1") [be_bytes 4 project_id; slug; environment].
Definition monitor_run_sdk (monitor_id check_in_id : bytes) : bytes :=
  hash16 (lit "metric/cron-run/sdk/v1") [monitor_id; check_in_id].
Definition monitor_run_missed (monitor_id : bytes) (scheduled_for : Timestamp) : bytes :=
  hash16 (lit "metric/cron-run/missed/v1") [monitor_id; be_bytes 8 scheduled_for].
Definition monitor_run_uptime (monitor_id : bytes) (scheduled_for : Timestamp) : bytes :=
  hash16 (lit "metric/uptime-run/v1") [monitor_id; be_bytes 8 scheduled_for].

(** The fixed-width inputs of [issue.rs] ([activity_id]) and [sessions.rs]. *)
Definition activity_input (project_id : ProjectId) (issue_id : bytes) (kind : Z)
    (idempotency_material : bytes) : bytes :=
  lit "issue-activity/v1" ++ be_bytes 4 project_id ++ issue_id ++ [kind]
  ++ idempotency_material.
Definition activity_id (project_id : ProjectId) (issue_id : bytes) (kind : Z)
    (idempotency_material : bytes) : bytes :=
  take 16 (blake3 (activity_input project_id issue_id kind idempotency_material)).
Definition regression_activity_id (project_id : ProjectId) (issue_id event_id : bytes) : bytes :=
  activity_id project_id issue_id 6 event_id.

Definition session_input (project_id : ProjectId) (sdk_session_id : bytes) : bytes :=
  lit "metric/session-id/v1" ++ be_bytes 4 project_id ++ sdk_session_id.
Definition session_id_derive (project_id : ProjectId) (sdk_session_id : bytes) : bytes :=
  take 16 (blake3 (session_input project_id sdk_session_id)).

(** [MetricSeries::id]: the parts are separated by a zero byte. *)
Definition series_input (project_id : ProjectId) (name kind unit : str)
    (tags : list (str * str)) : bytes :=
  lit "application-metric-series/v1" ++ be_bytes 4 project_id ++ name
  ++ [0] ++ kind ++ [0] ++ unit
  ++ concat (map (λ kv, [0] ++ kv.1 ++ [0] ++ kv.2) tags).
Definition series_id (project_id : ProjectId) (name kind unit : str)
    (tags : list (str * str)) : bytes :=
  take 16 (blake3 (series_input project_id name kind unit tags)).

End derived.

(** [hour_start]: the [expect] is the [None] of an out-of-range hour. *)
Definition HOUR_MILLIS : Z := 60 * 60 * 1000.
Definition hour_start (timestamp : Timestamp) : option Timestamp :=
  ok (from_unix_millis (timestamp / HOUR_MILLIS * HOUR_MILLIS)).

(** ** The identities as data *)

(** One constructor per derivation that frames its domain. *)
Inductive framed_identity :=
| FRelease (organization_id : Z) (exact_version : str)
| FEnvironment (project_id : ProjectId) (exact_name : str)
| FHourBucket (project_id : ProjectId) (issue_id : bytes) (bucket_start : Timestamp)
| FTokenEnvironment (value : str)
| FTokenRelease (value : str)
| FTokenUserId (value : str)
| FTokenTagPair (key value : str)
| FTransition (project_id : ProjectId) (issue_id : bytes) (kind : Z) (event_id : bytes)
| FDelivery (transition_id rule_id action_id : bytes).

Definition framed_domain (i : framed_identity) : string :=
  match i with
  | FRelease _ _ => "release-id/v1"
  | FEnvironment _ _ => "environment-id/v1"
  | FHourBucket _ _ _ => "issue-hour/v1"
  | FTokenEnvironment _ => "search/environment/v1"
  | FTokenRelease _ => "search/release/v1"
  | FTokenUserId _ => "search/user-id/v1"
  | FTokenTagPair _ _ => "search/tag-pair/v1"
  | FTransition _ _ _ _ => "issue-notification/v1"
  | FDelivery _ _ _ => "notification-delivery/v1"
  end.

Definition framed_parts (i : framed_identity) : list bytes :=
  match i with
  | FRelease o v => [be_bytes 8 o; v]
  | FEnvironment p n => [be_bytes 4 p; n]
  | FHourBucket p i t => [be_bytes 4 p; i; be_bytes 8 t]
  | FTokenEnvironment v | FTokenRelease v | FTokenUserId v => [v]
  | FTokenTagPair k v => [k; v]
  | FTransition p i k e => [be_bytes 4 p; i; [k]; e]
  | FDelivery t r a => [t; r; a]
  end.

Definition framed_input (i : framed_identity) : bytes :=
  derive_input (lit (framed_domain i)) (framed_parts i).

(** The field ranges the source's types guarantee. *)
Definition str_valid (s : str) : Prop := len s < 2 ^ 64.
Definition framed_valid (i : framed_identity) : Prop :=
  match i with
  | FRelease o v => 0 < o ≤ I64_MAX ∧ str_valid v
  | FEnvironment p n => project_id_valid p ∧ str_valid n
  | FHourBucket p i t => project_id_valid p ∧ id16_valid i ∧ timestamp_valid t
  | FTokenEnvironment v | FTokenRelease v | FTokenUserId v => str_valid v
  | FTokenTagPair k v => str_valid k ∧ str_valid v
  | FTransition p i k e => project_id_valid p ∧ id16_valid i ∧ id16_valid e
  | FDelivery t r a => id16_valid t ∧ id16_valid r ∧ id16_valid a
  end.

(** The identities of [monitors.rs]. *)
Inductive monitor_identity :=
| MCron (project_id : ProjectId) (slug environment : str)
| MUptime (project_id : ProjectId) (slug environment : str)
| MRunSdk (monitor_id check_in_id : bytes)
| MRunMissed (monitor_id : bytes) (scheduled_for : Timestamp)
| MRunUptime (monitor_id : bytes) (scheduled_for : Timestamp).

Definition monitor_input (i : monitor_identity) : bytes :=
  match i with
  | MCron p s e => hash16_input (lit "metric/cron-monitor/v1") [be_bytes 4 p; s; e]
  | MUptime p s e => hash16_input (lit "metric/uptime-monitor/v1") [be_bytes 4 p; s; e]
  | MRunSdk m c => hash16_input (lit "metric/cron-run/sdk/v1") [m; c]
  | MRunMissed m t => hash16_input (lit "metric/cron-run/missed/v1") [m; be_bytes 8 t]
  | MRunUptime m t => hash16_input (lit "metric/uptime-run/v1") [m; be_bytes 8 t]
  end.

Definition monitor_valid (i : monitor_identity) : Prop :=
  match i with
  | MCron p s e | MUptime p s e => project_id_valid p ∧ str_valid s ∧ str_valid e
  | MRunSdk m c => id16_valid m ∧ id16_valid c
  | MRunMissed m t | MRunUptime m t => id16_valid m ∧ timestamp_valid t
  end.

(** ** Lemmas *)

(** The number of the parts is not needed: a frame is never empty. *)
Lemma hash_parts_inj l1 l2 :
  Forall str_valid l1 → Forall str_valid l2 →
  concat (map hash_part l1) = concat (map hash_part l2) → l1 = l2.
Proof.
  revert l2; induction l1 as [|x l1 IH]; intros [|y l2] H1 H2 H; try done.
  apply Forall_cons in H1 as [Hx H1]. apply Forall_cons in H2 as [Hy H2].
  cbn [map concat] in H. apply frame_app_inj in H as [-> H]; [|done..].
  f_equal. by apply IH.
Qed.

Lemma derive_input_inj d1 d2 l1 l2 :
  str_valid d1 → str_valid d2 → Forall str_valid l1 → Forall str_valid l2 →
  derive_input d1 l1 = derive_input d2 l2 → d1 = d2 ∧ l1 = l2.
Proof.
  unfold derive_input. intros ???? H. apply frame_app_inj in H as [-> H]; [|done..].
  split; [done|]. by apply hash_parts_inj.
Qed.

Lemma str_valid_short s : (length s <= 64)%nat → str_valid s.
Proof.
  unfold str_valid, len. intros H. change (2 ^ 64) with 18446744073709551616. lia.
Qed.

Lemma str_valid_be n v : (n <= 64)%nat → str_valid (be_bytes n v).
Proof. intros. apply str_valid_short. by rewrite length_be_bytes. Qed.

Lemma str_valid_id16 i : id16_valid i → str_valid i.
Proof. intros [Hl _]. apply str_valid_short. lia. Qed.

#[export] Hint Resolve str_valid_be str_valid_id16 : rust.

Lemma project_bytes_inj p q :
  project_id_valid p → project_id_valid q → be_bytes 4 p = be_bytes 4 q → p = q.
Proof.
  intros Hp Hq H. apply (f_equal (be_signed 4)) in H. by rewrite !project_bytes_signed in H.
Qed.

Lemma i64_bytes_inj v w :
  I64_MIN ≤ v ≤ I64_MAX → I64_MIN ≤ w ≤ I64_MAX → be_bytes 8 v = be_bytes 8 w → v = w.
Proof.
  unfold I64_MIN, I64_MAX. intros.
  apply (be_bytes_signed_inj 8); [lia| | |done];
    change (256 ^ Z.of_nat 8 / 2) with 9223372036854775808; lia.
Qed.

Lemma timestamp_i64 t : timestamp_valid t → I64_MIN ≤ t ≤ I64_MAX.
Proof.
  unfold timestamp_valid, MIN_TIMESTAMP_MILLIS, MAX_TIMESTAMP_MILLIS, I64_MIN, I64_MAX. lia.
Qed.

Lemma framed_parts_valid i : framed_valid i → Forall str_valid (framed_parts i).
Proof.
  destruct i; cbn; intros Hv; destruct_and?; repeat constructor; eauto with rust lia;
    try (apply str_valid_short; cbn; lia); try (apply str_valid_be; lia).
Qed.

Lemma hour_start_spec t :
  timestamp_valid t →
  ∃ h, hour_start t = Some h ∧ timestamp_valid h ∧ h ≤ t < h + HOUR_MILLIS ∧ h mod HOUR_MILLIS = 0.
Proof.
  unfold hour_start, HOUR_MILLIS. intros Ht.
  change (60 * 60 * 1000) with 3600000.
  pose proof (Z.div_mod t 3600000 ltac:(lia)).
  pose proof (Z.mod_pos_bound t 3600000 ltac:(lia)).
  assert (timestamp_valid (t / 3600000 * 3600000)).
  { unfold timestamp_valid, MIN_TIMESTAMP_MILLIS, MAX_TIMESTAMP_MILLIS in *. split; [|lia].
    assert (-17259888 ≤ t / 3600000); [|lia]. apply Z.div_le_lower_bound; lia. }
  rewrite from_unix_millis_valid by done. eexists; split; [done|].
  split_and!; [done..|lia|lia|]. apply Z.mod_mul. lia.
Qed.

(** Equal lists of encoded parts are componentwise equal. *)
Lemma parts_cons_inj (x y : bytes) l k : x :: l = y :: k → x = y ∧ l = k.
Proof. by intros [= -> ->]. Qed.

Ltac parts_inj H :=
  repeat match type of H with
  | _ :: _ = _ :: _ =>
      let E := fresh "E" in apply parts_cons_inj in H as [E H];
      first
        [ apply project_bytes_inj in E; [subst|tauto..]
        | apply i64_bytes_inj in E;
            [subst|unfold I64_MIN; lia || (apply timestamp_i64; tauto)..]
        | simplify_eq E | subst ]
  end; congruence.

(** ** Theorems *)

(** Two of the framed identities (releases, environments, hourly buckets,
    search tokens, notification transitions and deliveries) hash the same
    bytes only if they are the same identity: kinds never mix and no two
    choices of parts run together. *)
Theorem framed_identity_injective i j :
  framed_valid i → framed_valid j → framed_input i = framed_input j → i = j.
Proof.
  intros Hi Hj H. unfold framed_input in H.
  apply derive_input_inj in H as [Hd Hp]; try (by apply framed_parts_valid);
    [|by apply str_valid_short; destruct i; cbn; lia
     |by apply str_valid_short; destruct j; cbn; lia].
  apply lit_inj in Hd.
  destruct i, j; cbn in Hd; try discriminate Hd; cbn [framed_parts framed_valid] in Hp, Hi, Hj;
    parts_inj Hp.
Qed.

Lemma framed_identity_injective_witness :
  framed_valid (FTokenTagPair (lit "a") (lit "bc")) ∧
  framed_valid (FTokenTagPair (lit "ab") (lit "c")) ∧
  framed_input (FTokenTagPair (lit "a") (lit "bc"))
    ≠ framed_input (FTokenTagPair (lit "ab") (lit "c")).
Proof.
  assert (H1 : framed_valid (FTokenTagPair (lit "a") (lit "bc"))) by (split; reflexivity).
  assert (H2 : framed_valid (FTokenTagPair (lit "ab") (lit "c"))) by (split; reflexivity).
  split; [exact H1|]. split; [exact H2|]. intros E.
  discriminate (framed_identity_injective _ _ H1 H2 E).
Defined.

(** The monitor and monitor-run identities never collide before hashing:
    the cron, uptime and run domains are not prefixes of one another and the
    framed parts are recovered from the bytes. *)
Theorem monitor_identity_injective i j :
  monitor_valid i → monitor_valid j → monitor_input i = monitor_input j → i = j.
Proof.
  intros Hi Hj H.
  assert (Hcase : ∀ d l1 l2, Forall str_valid l1 → Forall str_valid l2 →
    hash16_input d l1 = hash16_input d l2 → l1 = l2).
  { intros d l1 l2 ?? E. apply app_inv_head in E. by apply hash_parts_inj. }
  destruct i, j; cbn in Hi, Hj; destruct_and?;
    (cbn in H; discriminate H) ||
    (apply Hcase in H;
      [|repeat constructor; eauto with rust; apply str_valid_be; lia..];
      parts_inj H).
Qed.

Lemma monitor_identity_injective_witness :
  monitor_valid (MCron 7 (lit "nightly") (lit "production")) ∧
  monitor_valid (MUptime 7 (lit "nightly") (lit "production")) ∧
  monitor_input (MCron 7 (lit "nightly") (lit "production"))
    ≠ monitor_input (MUptime 7 (lit "nightly") (lit "production")).
Proof.
  assert (H1 : monitor_valid (MCron 7 (lit "nightly") (lit "production"))).
  { repeat split; try reflexivity; discriminate. }
  assert (H2 : monitor_valid (MUptime 7 (lit "nightly") (lit "production"))).
  { repeat split; try reflexivity; discriminate. }
  split; [exact H1|]. split; [exact H2|]. intros E.
  discriminate (monitor_identity_injective _ _ H1 H2 E).
Defined.

(** The hour of a valid timestamp is computed without failing, is itself
    a valid timestamp on the hour, and the timestamp lies in that hour. *)
Theorem hour_start_total t :
  timestamp_valid t →
  ∃ h, hour_start t = Some h ∧ timestamp_valid h ∧ h ≤ t < h + HOUR_MILLIS
       ∧ h mod HOUR_MILLIS = 0.
Proof. apply hour_start_spec. Qed.

Lemma hour_start_total_witness :
  timestamp_valid (-62135596800000 + 5) ∧
  ∃ h, hour_start (-62135596800000 + 5) = Some h ∧ timestamp_valid h
    ∧ h ≤ -62135596800000 + 5 < h + HOUR_MILLIS ∧ h mod HOUR_MILLIS = 0.
Proof.
  assert (H : timestamp_valid (-62135596800000 + 5)).
  { unfold timestamp_valid, MIN_TIMESTAMP_MILLIS, MAX_TIMESTAMP_MILLIS. lia. }
  split; [exact H|]. exact (hour_start_total _ H).
Defined.
