(* ===== verification/Releases.v ===== *)
(** * Releases and deploys

    [domain/src/releases.rs]: the bounds of what a client may state of a release
    or a deploy, and the identities of both. *)
From stdpp Require Import base list numbers strings sets sorting.
From Stdlib Require Import ZArith Lia.
From S2P Require Import Prelude Primitives Identity.

Definition MAX_RELEASE_PROJECTS : Z := 256.
Definition MAX_RELEASE_REPOSITORIES : Z := 16.
Definition MAX_RELEASE_VERSION_BYTES : Z := 200.
Definition MAX_RELEASE_REFERENCE_BYTES : Z := 200.
Definition MAX_RELEASE_URL_BYTES : Z := 2048.
Definition MAX_DEPLOY_ENVIRONMENT_BYTES : Z := 64.
Definition MAX_DEPLOY_NAME_BYTES : Z := 200.

Inductive ReleaseValueError := ReleaseInvalid.
Abbreviation checked_unit := (result ReleaseValueError unit).

Definition validate_required (value : str) (maximum : Z) : checked_unit :=
  guard_err (is_empty value || (maximum <? len value)) ReleaseInvalid.
Definition validate_optional (value : option str) (maximum : Z) : checked_unit :=
  match value with Some value => validate_required value maximum | None => Ok tt end.
Definition validate_version (value : str) : checked_unit :=
  validate_required value MAX_RELEASE_VERSION_BYTES.
Definition validate_projects (projects : list ProjectId) : checked_unit :=
  if is_empty projects || (MAX_RELEASE_PROJECTS <? len projects) then Err ReleaseInvalid
  else
    let sorted := dedup (merge_sort Z.le projects) in
    guard_err (negb (len sorted =? len projects)) ReleaseInvalid.

Record RepositoryReference := {
  rr_repository : str;
  rr_commit_from : option str;
  rr_commit_to : option str;
}.
Record CreateRelease := {
  cr_organization_id : Z;
  cr_project_ids : list ProjectId;
  cr_version : str;
  cr_url : option str;
  cr_reference : option str;
  cr_repositories : list RepositoryReference;
  cr_created_at : Timestamp;
}.
Definition validate_repository (repository : RepositoryReference) : checked_unit :=
  _ ← validate_required (rr_repository repository) MAX_RELEASE_REFERENCE_BYTES;
  _ ← validate_optional (rr_commit_from repository) MAX_RELEASE_REFERENCE_BYTES;
  validate_optional (rr_commit_to repository) MAX_RELEASE_REFERENCE_BYTES.
Fixpoint validate_repositories (repositories : list RepositoryReference) : checked_unit :=
  match repositories with
  | [] => Ok tt
  | repository :: repositories =>
      _ ← validate_repository repository; validate_repositories repositories
  end.
Definition create_release_validate `{!Blake3} (r : CreateRelease) : result ReleaseValueError bytes :=
  _ ← validate_version (cr_version r);
  _ ← validate_projects (cr_project_ids r);
  _ ← validate_optional (cr_url r) MAX_RELEASE_URL_BYTES;
  _ ← validate_optional (cr_reference r) MAX_RELEASE_REFERENCE_BYTES;
  if MAX_RELEASE_REPOSITORIES <? len (cr_repositories r) then Err ReleaseInvalid
  else
    _ ← validate_repositories (cr_repositories r);
    Ok (derive_release_id (cr_organization_id r) (cr_version r)).

Record FinalizeRelease := {
  fr_organization_id : Z;
  fr_release_id : bytes;
  fr_released_at : Timestamp;
}.
Record CreateDeploy := {
  cd_deploy_id : bytes;
  cd_organization_id : Z;
  cd_release_id : bytes;
  cd_project_ids : list ProjectId;
  cd_environment : str;
  cd_name : option str;
  cd_url : option str;
  cd_started_at : Timestamp;
  cd_finished_at : option Timestamp;
  cd_created_at : Timestamp;
}.
Definition create_deploy_validate (d : CreateDeploy) : checked_unit :=
  _ ← validate_projects (cd_project_ids d);
  _ ← validate_required (cd_environment d) MAX_DEPLOY_ENVIRONMENT_BYTES;
  _ ← validate_optional (cd_name d) MAX_DEPLOY_NAME_BYTES;
  _ ← validate_optional (cd_url d) MAX_RELEASE_URL_BYTES;
  guard_err (is_some_and (λ finished, finished <? cd_started_at d) (cd_finished_at d)) ReleaseInvalid.

Record ReleaseRecord := {
  rel_id : bytes;
  rel_organization_id : Z;
  rel_version : str;
  rel_project_ids : list ProjectId;
  rel_created_at : Timestamp;
  rel_activity_at : Timestamp;
  rel_released_at : option Timestamp;
  rel_first_seen : option Timestamp;
  rel_last_seen : option Timestamp;
  rel_first_event_id : option bytes;
  rel_latest_event_id : option bytes;
  rel_url : option str;
  rel_reference : option str;
  rel_repositories : list RepositoryReference;
  rel_explicit : bool;
}.
Record DeployRecord := {
  dep_id : bytes;
  dep_release_id : bytes;
  dep_project_ids : list ProjectId;
  dep_environment : str;
  dep_name : option str;
  dep_url : option str;
  dep_started_at : Timestamp;
  dep_finished_at : option Timestamp;
  dep_created_at : Timestamp;
}.

Definition deploy_id_input (organization_id : Z) (release_id operation_id : bytes) : bytes :=
  lit "metric/deploy-id/v1" ++ be_bytes 8 organization_id ++ release_id ++ operation_id.
Definition derive_deploy_id `{!Blake3} (organization_id : Z) (release_id operation_id : bytes) : bytes :=
  take 16 (blake3 (deploy_id_input organization_id release_id operation_id)).

(** ** Lemmas *)

Lemma validate_required_Ok value maximum :
  validate_required value maximum = Ok tt ↔ value ≠ [] ∧ len value ≤ maximum.
Proof.
  unfold validate_required. rewrite guard_err_Ok, orb_false_iff, Z.ltb_ge.
  unfold is_empty. rewrite negb_false_iff, non_empty_true. done.
Qed.
Lemma validate_optional_Ok value maximum :
  validate_optional value maximum = Ok tt ↔ ∀ v, value = Some v → v ≠ [] ∧ len v ≤ maximum.
Proof.
  destruct value as [v|]; cbn; [|done]. rewrite validate_required_Ok.
  split; [intros Hv ? [= <-]; done|intros Hv; by apply Hv].
Qed.
Lemma validate_projects_Ok projects :
  validate_projects projects = Ok tt ↔
  projects ≠ [] ∧ len projects ≤ MAX_RELEASE_PROJECTS ∧ NoDup projects.
Proof.
  unfold validate_projects. unfold is_empty. destruct (non_empty projects) eqn:En.
  - apply non_empty_true in En. cbn [negb orb].
    destruct (Z.ltb_spec MAX_RELEASE_PROJECTS (len projects)); [split; [done|lia]|].
    cbv zeta. rewrite guard_err_Ok, negb_false_iff, Z.eqb_eq. unfold len in *.
    assert (StronglySorted Z.le (merge_sort Z.le projects)) as Hs by (apply StronglySorted_merge_sort; apply _).
    pose proof (dedup_length_NoDup Z.le _ Hs) as Hd.
    rewrite (merge_sort_Permutation Z.le projects) in Hd at 2 3. split.
    + intros Hl. split_and!; [done..|]. apply Hd. lia.
    + intros (_ & _ & Hn). apply Hd in Hn. lia.
  - cbn. split; [done|]. intros [Hne _]. apply non_empty_true in Hne. congruence.
Qed.
