(* ===== verification/InboundFilter.v ===== *)
(** * Project inbound filters ([crates/domain/src/inbound_filter.rs])

    The rule data, the compilation of a policy into per-signal matchers, the
    Knuth-Morris-Pratt and glob matchers, and the match of one event.  A
    function that indexes a slice returns [option]: [None] is a panic, or a
    loop that used up its fuel.  The theorems show neither happens. *)
From stdpp Require Import base list numbers strings sets gmap.
From Stdlib Require Import ZArith Lia.
From S2P Require Import Prelude.

Definition MAX_INBOUND_FILTER_RULES : Z := 32.
Definition MAX_INBOUND_FILTER_PATTERN_BYTES : Z := 256.
Definition MAX_COMPILED_INBOUND_FILTER_BYTES : Z := 8 * 1024.
(** [size_of::<usize>()] and [size_of::<i64>()] of a 64-bit target. *)
Definition SIZE_OF_USIZE : Z := 8.
Definition SIZE_OF_I64 : Z := 8.

Inductive InboundFilterSignal := SError | SLog | STransaction | SSpan.

Inductive InboundFilterField :=
| Release | Environment | Service | Message | ExceptionType | Logger
| RequestHost | RequestPath | Severity | Name | Operation | Status | Duration.

Inductive InboundFilterOperation := OpExact | OpPrefix | OpSuffix | OpContains | OpGlob.

#[global] Instance signal_eq_dec : EqDecision InboundFilterSignal.
Proof. solve_decision. Defined.
#[global] Instance field_eq_dec : EqDecision InboundFilterField.
Proof. solve_decision. Defined.
#[global] Instance operation_eq_dec : EqDecision InboundFilterOperation.
Proof. solve_decision. Defined.

Definition signal_as_str (s : InboundFilterSignal) : str :=
  match s with
  | SError => lit "error" | SLog => lit "log"
  | STransaction => lit "transaction" | SSpan => lit "span"
  end.

Definition field_as_str (f : InboundFilterField) : str :=
  match f with
  | Release => lit "release" | Environment => lit "environment"
  | Service => lit "service" | Message => lit "message"
  | ExceptionType => lit "exception_type" | Logger => lit "logger"
  | RequestHost => lit "request_host" | RequestPath => lit "request_path"
  | Severity => lit "severity" | Name => lit "name"
  | Operation => lit "operation" | Status => lit "status"
  | Duration => lit "duration"
  end.

Definition operation_as_str (o : InboundFilterOperation) : str :=
  match o with
  | OpExact => lit "exact" | OpPrefix => lit "prefix" | OpSuffix => lit "suffix"
  | OpContains => lit "contains" | OpGlob => lit "glob"
  end.

Definition accepted_by (f : InboundFilterField) (s : InboundFilterSignal) : bool :=
  match f with
  | Release | Environment | Service => true
  | Message => match s with SError | SLog => true | _ => false end
  | ExceptionType | Logger | RequestHost | RequestPath =>
      match s with SError => true | _ => false end
  | Severity => match s with SLog => true | _ => false end
  | Name | Operation | Status | Duration =>
      match s with STransaction | SSpan => true | _ => false end
  end.

Record InboundFilterRule := {
  r_signal : InboundFilterSignal;
  r_field : InboundFilterField;
  r_operation : InboundFilterOperation;
  r_pattern : str;
}.

Inductive InboundFilterError :=
| TooManyRules | FieldUnavailable | InvalidPattern | InvalidDuration
| InvalidDurationOperation | PolicyTooLarge.

Inductive CompiledMatcher :=
| CExact (pattern : str)
| CPrefix (pattern : str)
| CSuffix (pattern : str)
| CContains (pattern : bytes) (prefix : list nat)
| CGlob (pattern : str)
| CDuration (millis : Z).

Record CompiledInboundFilterRule := {
  c_signal : InboundFilterSignal;
  c_field : InboundFilterField;
  c_matcher : CompiledMatcher;
}.

Record CompiledInboundFilterPolicy := {
  p_error : list CompiledInboundFilterRule;
  p_log : list CompiledInboundFilterRule;
  p_transaction : list CompiledInboundFilterRule;
  p_span : list CompiledInboundFilterRule;
}.

Definition policy_default : CompiledInboundFilterPolicy :=
  {| p_error := []; p_log := []; p_transaction := []; p_span := [] |}.

(** ** Knuth-Morris-Pratt *)

(** [while matched > 0 && byte != pattern[matched] { matched = prefix[matched - 1] }] *)
Fixpoint kmp_while (fuel : nat) (pattern : bytes) (prefix : list nat)
    (byte : Z) (matched : nat) : option nat :=
  match fuel with
  | O => None
  | S f =>
      match matched with
      | O => Some O
      | S m =>
          c ← pattern !! matched;
          if byte =? c then Some matched
          else k ← prefix !! m; kmp_while f pattern prefix byte k
      end
  end.

(** One step of either loop: fall back, then extend the match. *)
Definition kmp_advance (pattern : bytes) (prefix : list nat) (byte : Z)
    (matched : nat) : option nat :=
  m ← kmp_while (S (length pattern)) pattern prefix byte matched;
  c ← pattern !! m;
  Some (if byte =? c then S m else m).

Fixpoint kmp_prefix_loop (pattern : bytes) (indices : list nat)
    (prefix : list nat) (matched : nat) : option (list nat) :=
  match indices with
  | [] => Some prefix
  | index :: rest =>
      byte ← pattern !! index;
      matched' ← kmp_advance pattern prefix byte matched;
      kmp_prefix_loop pattern rest (<[index := matched']> prefix) matched'
  end.

Definition kmp_prefix (pattern : bytes) : option (list nat) :=
  kmp_prefix_loop pattern (seq 1 (length pattern - 1))
    (replicate (length pattern) 0%nat) 0.

Fixpoint kmp_contains_loop (value : bytes) (pattern : bytes) (prefix : list nat)
    (matched : nat) : option bool :=
  match value with
  | [] => Some false
  | byte :: rest =>
      matched' ← kmp_advance pattern prefix byte matched;
      if Nat.eqb matched' (length pattern) then Some true
      else kmp_contains_loop rest pattern prefix matched'
  end.

Definition kmp_contains (value pattern : bytes) (prefix : list nat) : option bool :=
  kmp_contains_loop value pattern prefix 0.

(** ** Globs *)

Definition STAR : Z := 42.
Definition QUESTION : Z := 63.

(** The state of the matching loop, with the code's variables. *)
Record GlobState := {
  pattern_index : nat;
  value_index : nat;
  star : option nat;
  star_value : nat;
}.

Definition glob_test (pattern value : bytes) (pi vi : nat) : bool :=
  match pattern !! pi, value !! vi with
  | Some p, Some v => (p =? QUESTION) || (p =? v)
  | _, _ => false
  end.

(** One iteration; [None] is the [return false] of the last branch. *)
Definition glob_step (pattern value : bytes) (s : GlobState) : option GlobState :=
  if glob_test pattern value (pattern_index s) (value_index s) then
    Some {| pattern_index := S (pattern_index s); value_index := S (value_index s);
            star := star s; star_value := star_value s |}
  else if bool_decide (pattern !! pattern_index s = Some STAR) then
    Some {| pattern_index := S (pattern_index s); value_index := value_index s;
            star := Some (pattern_index s); star_value := value_index s |}
  else match star s with
       | Some star_index =>
           Some {| pattern_index := S star_index; value_index := S (star_value s);
                   star := star s; star_value := S (star_value s) |}
       | None => None
       end.

Fixpoint glob_trailing (pattern : bytes) : bool :=
  match pattern with
  | [] => true
  | c :: rest => (c =? STAR) && glob_trailing rest
  end.

Fixpoint glob_loop (fuel : nat) (pattern value : bytes) (s : GlobState) : option bool :=
  match fuel with
  | O => None
  | S f =>
      if Nat.ltb (value_index s) (length value) then
        match glob_step pattern value s with
        | Some s' => glob_loop f pattern value s'
        | None => Some false
        end
      else Some (glob_trailing (drop (pattern_index s) pattern))
  end.

(** Enough iterations for every pattern and value: see [glob_fuel_enough]. *)
Definition glob_fuel (pattern value : bytes) : nat :=
  length value * (length pattern + 2) + length pattern + 2.

Definition glob_start : GlobState :=
  {| pattern_index := 0; value_index := 0; star := None; star_value := 0 |}.

Definition glob_matches (pattern value : bytes) : option bool :=
  glob_loop (glob_fuel pattern value) pattern value glob_start.

(** ** Compilation *)

Definition compile_matcher (f : InboundFilterField) (o : InboundFilterOperation)
    (pattern : str) : option (result InboundFilterError CompiledMatcher) :=
  if bool_decide (f = Duration) then
    Some (match parse_i64 pattern with
          | Some millis => Ok (CDuration millis)
          | None => Err InvalidDuration
          end)
  else match o with
  | OpExact => Some (Ok (CExact pattern))
  | OpPrefix => Some (Ok (CPrefix pattern))
  | OpSuffix => Some (Ok (CSuffix pattern))
  | OpContains => prefix ← kmp_prefix pattern; Some (Ok (CContains pattern prefix))
  | OpGlob => Some (Ok (CGlob pattern))
  end.

Definition compiled_bytes (m : CompiledMatcher) : Z :=
  match m with
  | CExact p | CPrefix p | CSuffix p | CGlob p => len p
  | CContains p prefix => len p + len prefix * SIZE_OF_USIZE
  | CDuration _ => SIZE_OF_I64
  end.

Definition policy_rules (p : CompiledInboundFilterPolicy) (s : InboundFilterSignal) :
    list CompiledInboundFilterRule :=
  match s with
  | SError => p_error p | SLog => p_log p
  | STransaction => p_transaction p | SSpan => p_span p
  end.

(** [self.rules_mut(signal).push(rule)]. *)
Definition rules_push (p : CompiledInboundFilterPolicy) (s : InboundFilterSignal)
    (r : CompiledInboundFilterRule) : CompiledInboundFilterPolicy :=
  match s with
  | SError => {| p_error := p_error p ++ [r]; p_log := p_log p;
                 p_transaction := p_transaction p; p_span := p_span p |}
  | SLog => {| p_error := p_error p; p_log := p_log p ++ [r];
               p_transaction := p_transaction p; p_span := p_span p |}
  | STransaction => {| p_error := p_error p; p_log := p_log p;
                       p_transaction := p_transaction p ++ [r]; p_span := p_span p |}
  | SSpan => {| p_error := p_error p; p_log := p_log p;
                p_transaction := p_transaction p; p_span := p_span p ++ [r] |}
  end.

(** The tests of the loop body before a rule is compiled. *)
Definition rule_error (r : InboundFilterRule) : option InboundFilterError :=
  if negb (accepted_by (r_field r) (r_signal r)) then Some FieldUnavailable
  else if is_empty (r_pattern r)
          || (MAX_INBOUND_FILTER_PATTERN_BYTES <? len (r_pattern r))
          || any_control (r_pattern r) then Some InvalidPattern
  else if bool_decide (r_field r = Duration)
          && negb (bool_decide (r_operation r = OpExact)) then Some InvalidDurationOperation
  else None.

Fixpoint compile_rules (rules : list InboundFilterRule) (total : Z)
    (compiled : CompiledInboundFilterPolicy) :
    option (result InboundFilterError CompiledInboundFilterPolicy) :=
  match rules with
  | [] => Some (Ok compiled)
  | r :: rest =>
      match rule_error r with
      | Some e => Some (Err e)
      | None =>
          m ← compile_matcher (r_field r) (r_operation r) (r_pattern r);
          match m with
          | Err e => Some (Err e)
          | Ok matcher =>
              match checked_u64 (total + compiled_bytes matcher) with
              | None => Some (Err PolicyTooLarge)
              | Some total' =>
                  if MAX_COMPILED_INBOUND_FILTER_BYTES <? total' then
                    Some (Err PolicyTooLarge)
                  else compile_rules rest total'
                    (rules_push compiled (r_signal r)
                      {| c_signal := r_signal r; c_field := r_field r;
                         c_matcher := matcher |})
              end
          end
      end
  end.

Definition compile (rules : list InboundFilterRule) :
    option (result InboundFilterError CompiledInboundFilterPolicy) :=
  if MAX_INBOUND_FILTER_RULES <? len rules then Some (Err TooManyRules)
  else compile_rules rules 0 policy_default.

(** [InboundFilterPolicy::new]: the rules are kept when they compile. *)
Definition policy_new (rules : list InboundFilterRule) :
    option (result InboundFilterError (list InboundFilterRule)) :=
  c ← compile rules;
  Some (match c with Ok _ => Ok rules | Err e => Err e end).

(** ** Matching an event *)

Record InboundFilterFields := {
  f_signal : InboundFilterSignal;
  f_release : option str; f_environment : option str; f_service : option str;
  f_message : option str; f_exception_type : option str; f_logger : option str;
  f_request_host : option str; f_request_path : option str;
  f_severity : option str; f_name : option str; f_operation : option str;
  f_status : option str; f_duration_ms : option Z;
}.

Definition fields_empty (s : InboundFilterSignal) : InboundFilterFields :=
  {| f_signal := s; f_release := None; f_environment := None; f_service := None;
     f_message := None; f_exception_type := None; f_logger := None;
     f_request_host := None; f_request_path := None; f_severity := None;
     f_name := None; f_operation := None; f_status := None; f_duration_ms := None |}.

Definition field_text (fs : InboundFilterFields) (f : InboundFilterField) : option str :=
  match f with
  | Release => f_release fs | Environment => f_environment fs
  | Service => f_service fs | Message => f_message fs
  | ExceptionType => f_exception_type fs | Logger => f_logger fs
  | RequestHost => f_request_host fs | RequestPath => f_request_path fs
  | Severity => f_severity fs | Name => f_name fs
  | Operation => f_operation fs | Status => f_status fs
  | Duration => None
  end.

Record InboundFilterMatch := {
  m_signal : InboundFilterSignal;
  m_field : InboundFilterField;
}.

Definition matcher_matches (m : CompiledMatcher) (value : str) : option bool :=
  match m with
  | CExact p => Some (bool_decide (value = p))
  | CPrefix p => Some (starts_with p value)
  | CSuffix p => Some (ends_with p value)
  | CContains p prefix => kmp_contains value p prefix
  | CGlob p => glob_matches p value
  | CDuration _ => Some false
  end.

Definition matches_duration (m : CompiledMatcher) (value : Z) : bool :=
  match m with CDuration expected => expected =? value | _ => false end.

Definition rule_matches (r : CompiledInboundFilterRule) (fs : InboundFilterFields) :
    option bool :=
  if bool_decide (c_field r = Duration) then
    Some (is_some_and (matches_duration (c_matcher r)) (f_duration_ms fs))
  else match field_text fs (c_field r) with
       | Some value => matcher_matches (c_matcher r) value
       | None => Some false
       end.

(** [iter().find(..)]: the predicate runs until it first holds. *)
Fixpoint find_rule (fs : InboundFilterFields) (rules : list CompiledInboundFilterRule) :
    option (option CompiledInboundFilterRule) :=
  match rules with
  | [] => Some None
  | r :: rest =>
      b ← rule_matches r fs;
      if (b : bool) then Some (Some r) else find_rule fs rest
  end.

Definition matches (p : CompiledInboundFilterPolicy) (fs : InboundFilterFields) :
    option (option InboundFilterMatch) :=
  match find_rule fs (policy_rules p (f_signal fs)) with
  | Some (Some r) => Some (Some {| m_signal := c_signal r; m_field := c_field r |})
  | Some None => Some None
  | None => None
  end.

Definition policy_is_empty (p : CompiledInboundFilterPolicy) : bool :=
  is_empty (p_error p) && is_empty (p_log p)
  && is_empty (p_transaction p) && is_empty (p_span p).

Definition has_signal (p : CompiledInboundFilterPolicy) (s : InboundFilterSignal) : bool :=
  negb (is_empty (policy_rules p s)).

Definition has_field (p : CompiledInboundFilterPolicy) (s : InboundFilterSignal)
    (f : InboundFilterField) : bool :=
  existsb (λ r, bool_decide (c_field r = f)) (policy_rules p s).

(** ** Reference semantics *)

(** A glob: [*] is any byte string, [?] any byte. *)
Fixpoint glob_spec (pattern : bytes) : bytes → bool :=
  match pattern with
  | [] => λ v, is_empty v
  | c :: rest =>
      if c =? STAR then
        fix any (v : bytes) : bool :=
          glob_spec rest v || match v with [] => false | _ :: v' => any v' end
      else λ v, match v with
                | [] => false
                | x :: v' => ((c =? QUESTION) || (c =? x)) && glob_spec rest v'
                end
  end.

(** What a rule says of a value, without compilation. *)
Definition operation_spec (o : InboundFilterOperation) (pattern value : str) : bool :=
  match o with
  | OpExact => bool_decide (value = pattern)
  | OpPrefix => starts_with pattern value
  | OpSuffix => ends_with pattern value
  | OpContains => str_contains pattern value
  | OpGlob => unwrap_or false (glob_matches pattern value)
  end.

Definition rule_spec (fs : InboundFilterFields) (r : InboundFilterRule) : bool :=
  if bool_decide (r_field r = Duration) then
    match parse_i64 (r_pattern r), f_duration_ms fs with
    | Some expected, Some value => expected =? value
    | _, _ => false
    end
  else is_some_and (operation_spec (r_operation r) (r_pattern r))
         (field_text fs (r_field r)).

(** The first rule of the event's signal that holds. *)
Fixpoint policy_spec (fs : InboundFilterFields) (rules : list InboundFilterRule) :
    option InboundFilterMatch :=
  match rules with
  | [] => None
  | r :: rest =>
      if bool_decide (r_signal r = f_signal fs) && rule_spec fs r
      then Some {| m_signal := r_signal r; m_field := r_field r |}
      else policy_spec fs rest
  end.

(** ** Correctness of the prefix function and of the search *)

Section kmp.
Context (p : bytes).

(** The first [k] bytes of the pattern are the last [k] of [t]. *)
Definition suffix_at (t : bytes) (k : nat) : Prop :=
  (k ≤ length p)%nat ∧ ∃ u, t = u ++ take k p.

(** [k] is the longest of the lengths below [n] that [suffix_at] allows. *)
Definition longest_below (n : nat) (t : bytes) (k : nat) : Prop :=
  (k < n)%nat ∧ suffix_at t k ∧ ∀ j, (j < n)%nat → suffix_at t j → (j ≤ k)%nat.

(** The first [n] entries of the table are the longest proper borders. *)
Definition table_ok (n : nat) (prefix : list nat) : Prop :=
  length prefix = length p ∧
  ∀ i, (i < n)%nat → ∃ k, prefix !! i = Some k ∧ longest_below (S i) (take (S i) p) k.

Lemma suffix_at_0 t : suffix_at t 0.
Proof. split; [lia|]. exists t. by rewrite take_0, app_nil_r. Qed.

(** Of two suffixes the shorter is a suffix of the longer. *)
Lemma suffix_at_nested t i j :
  (j ≤ i)%nat → suffix_at t i → suffix_at t j → suffix_at (take i p) j.
Proof.
  intros Hji [Hi [u Hu]] [Hj [v Hv]]. split; [done|].
  assert (Hlen : (length u ≤ length v)%nat).
  { apply (f_equal length) in Hu as Lu. apply (f_equal length) in Hv as Lv.
    rewrite length_app, length_take in Lu, Lv. lia. }
  exists (drop (length u) v).
  rewrite <- drop_app_le by done. rewrite <- Hv, Hu. by rewrite drop_app_length.
Qed.

Lemma suffix_at_trans t i j :
  suffix_at t i → suffix_at (take i p) j → suffix_at t j.
Proof.
  intros [Hi [u Hu]] [Hj [v Hv]]. split; [done|].
  exists (u ++ v). by rewrite <- app_assoc, <- Hv.
Qed.

Lemma suffix_at_snoc t c k :
  suffix_at (t ++ [c]) (S k) ↔ suffix_at t k ∧ p !! k = Some c.
Proof.
  split.
  - intros [Hk [u Hu]].
    destruct (lookup_lt_is_Some_2 p k) as [x Hx]; [lia|].
    rewrite (take_S_r p k x Hx), app_assoc in Hu. apply app_inj_tail in Hu as [-> ->].
    split; [|done]. split; [lia|]. by exists u.
  - intros [[Hk [u ->]] Hc]. split; [apply lookup_lt_Some in Hc; lia|].
    exists u. by rewrite (take_S_r p k c Hc), app_assoc.
Qed.

(** The fallback loop stops at the longest candidate that the byte extends, or at 0. *)
Lemma kmp_while_spec prefix t c n matched fuel :
  (matched < fuel)%nat → (matched < length p)%nat → (matched ≤ n)%nat →
  table_ok n prefix → suffix_at t matched →
  (∀ j, (j < length p)%nat → suffix_at t j → p !! j = Some c → (j ≤ matched)%nat) →
  ∃ m, kmp_while fuel p prefix c matched = Some m ∧
    (m ≤ matched)%nat ∧ suffix_at t m ∧
    (m = 0%nat ∨ p !! m = Some c) ∧
    (∀ j, (j < length p)%nat → suffix_at t j → p !! j = Some c → (j ≤ m)%nat).
Proof.
  revert matched; induction fuel as [|f IH]; intros matched Hf Hm Hn Ht Hs Hmax; [lia|].
  destruct matched as [|m]; cbn.
  { exists 0%nat. split_and!; naive_solver. }
  destruct (lookup_lt_is_Some_2 p (S m)) as [x Hx]; [done|]. rewrite Hx. cbn.
  destruct (Z.eqb_spec c x) as [->|Hne].
  { exists (S m). split_and!; naive_solver. }
  destruct (proj2 Ht m) as (k & Hk & Hkm & Hks & Hkmax); [lia|]. rewrite Hk. cbn.
  destruct (IH k) as (r & Hr & Hrk & Hrest); try done; try lia.
  - by apply suffix_at_trans with (S m).
  - intros j Hj Hjs Hjc. assert (j ≠ S m) by naive_solver.
    assert (j ≤ S m)%nat by eauto.
    apply Hkmax; [lia|]. apply suffix_at_nested with t; [lia|done..].
  - exists r. split_and!; [done|lia|naive_solver..].
Qed.

(** One step keeps "longest suffix below the pattern length". *)
Lemma kmp_advance_spec prefix t c n matched :
  (matched < length p)%nat → (matched ≤ n)%nat →
  table_ok n prefix → suffix_at t matched →
  (∀ j, (j < length p)%nat → suffix_at t j → (j ≤ matched)%nat) →
  ∃ m, kmp_advance p prefix c matched = Some m ∧ (m ≤ S matched)%nat ∧
    longest_below (S (length p)) (t ++ [c]) m.
Proof.
  intros Hm Hn Ht Hs Hmax. unfold kmp_advance.
  destruct (kmp_while_spec prefix t c n matched (S (length p)))
    as (m & Hw & Hle & Hms & Hcase & Hmmax); try done; [lia|naive_solver|].
  rewrite Hw. cbn.
  destruct (lookup_lt_is_Some_2 p m) as [x Hx]; [lia|]. rewrite Hx. cbn.
  destruct (Z.eqb_spec c x) as [->|Hne].
  - exists (S m). split; [done|]. split; [lia|]. split; [lia|].
    split; [by apply suffix_at_snoc|].
    intros [|j] Hj Hjs; [lia|]. apply suffix_at_snoc in Hjs as [??].
    specialize (Hmmax j). assert (j < length p)%nat by lia. naive_solver lia.
  - assert (m = 0%nat) as -> by naive_solver.
    exists 0%nat. split; [done|]. split; [lia|]. split; [lia|].
    split; [apply suffix_at_0|].
    intros [|j] Hj Hjs; [lia|]. apply suffix_at_snoc in Hjs as [? Hjc].
    assert (j ≤ 0)%nat by (apply Hmmax; [lia|done..]).
    assert (j = 0%nat) as -> by lia. naive_solver.
Qed.

(** A proper border of [take (S i) p] is a suffix of its tail. *)
Lemma border_tail i j :
  (i < length p)%nat →
  longest_below (S (length p)) (drop 1 (take (S i) p)) j →
  longest_below (S i) (take (S i) p) j.
Proof.
  intros Hi (Hj & Hs & Hmax).
  destruct (take (S i) p) as [|x t] eqn:E.
  { apply (f_equal length) in E. rewrite length_take in E. cbn [length] in E. lia. }
  assert (Hlt : length t = i).
  { apply (f_equal length) in E. rewrite length_take in E. cbn [length] in E. lia. }
  cbn in *. split; [|split].
  - destruct Hs as [? [u Hu]]. apply (f_equal length) in Hu.
    rewrite length_app, length_take in Hu. rewrite drop_0 in Hu. lia.
  - destruct Hs as [? [u Hu]]. rewrite drop_0 in Hu. split; [lia|].
    exists (x :: u). cbn. by rewrite Hu at 1.
  - intros k Hk [? [u Hu]]. apply Hmax; [lia|]. split; [done|].
    destruct u as [|y u]; cbn in Hu.
    + apply (f_equal length) in Hu. rewrite length_take in Hu. cbn [length] in Hu. lia.
    + injection Hu as _ Hu. exists u. by rewrite drop_0.
Qed.

Lemma table_ok_insert n prefix k :
  table_ok n prefix → (n < length p)%nat →
  longest_below (S n) (take (S n) p) k → table_ok (S n) (<[n := k]> prefix).
Proof.
  intros [Hl Ht] Hn Hk. split; [by rewrite length_insert|].
  intros i Hi. destruct (decide (i = n)) as [->|Hne].
  - exists k. split; [|done]. apply list_lookup_insert_eq. lia.
  - rewrite list_lookup_insert_ne by done. apply Ht. lia.
Qed.

Lemma kmp_prefix_loop_spec count start prefix matched :
  (1 ≤ start)%nat → (start + count = length p)%nat → table_ok start prefix →
  (matched < start)%nat →
  longest_below (S (length p)) (drop 1 (take start p)) matched →
  ∃ table, kmp_prefix_loop p (seq start count) prefix matched = Some table ∧
    table_ok (length p) table.
Proof.
  revert start prefix matched.
  induction count as [|count IH]; intros start prefix matched H1 Hlen Ht Hlt Hm;
    cbn [seq kmp_prefix_loop].
  { exists prefix. split; [done|]. by replace (length p) with start by lia. }
  destruct (lookup_lt_is_Some_2 p start) as [c Hc]; [lia|]. rewrite Hc. cbn [mbind option_bind].
  destruct Hm as (? & Hs & Hmax).
  destruct (kmp_advance_spec prefix (drop 1 (take start p)) c start matched)
    as (m & Ha & Hle & Hm); try done; [lia|lia|naive_solver lia|].
  rewrite Ha. cbn [mbind option_bind].
  assert (Etake : drop 1 (take (S start) p) = drop 1 (take start p) ++ [c]).
  { rewrite (take_S_r p start c Hc). rewrite drop_app_le; [done|].
    rewrite length_take. lia. }
  rewrite <- Etake in Hm.
  apply IH; [lia|lia| |lia|done].
  apply table_ok_insert; [done|lia|]. apply border_tail; [lia|done].
Qed.

Lemma kmp_prefix_spec :
  p ≠ [] → ∃ table, kmp_prefix p = Some table ∧ table_ok (length p) table.
Proof.
  intros Hp. assert (0 < length p)%nat by (destruct p; [done|cbn; lia]).
  unfold kmp_prefix. apply kmp_prefix_loop_spec; [lia|lia| |lia|].
  - split; [by rewrite length_replicate|]. intros i Hi. exists 0%nat.
    split; [by apply lookup_replicate_2; lia|]. split; [lia|].
    split; [apply suffix_at_0|lia].
  - split; [lia|]. split; [apply suffix_at_0|].
    intros j Hj [? [u Hu]]. apply (f_equal length) in Hu.
    rewrite length_drop, length_app, !length_take in Hu. lia.
Qed.

Lemma suffix_at_full t : suffix_at t (length p) ↔ ∃ u, t = u ++ p.
Proof.
  unfold suffix_at. rewrite take_ge by done. naive_solver.
Qed.

(** The search has read [t]; it says whether the pattern occurs in what is to come. *)
Lemma kmp_contains_loop_spec prefix value t matched :
  p ≠ [] → table_ok (length p) prefix → (matched < length p)%nat →
  suffix_at t matched →
  (∀ j, (j ≤ length p)%nat → suffix_at t j → (j ≤ matched)%nat) →
  ∃ b, kmp_contains_loop value p prefix matched = Some b ∧
    (b = true ↔ ∃ l r, value = l ++ r ∧ l ≠ [] ∧ suffix_at (t ++ l) (length p)).
Proof.
  intros Hp Ht. revert t matched.
  induction value as [|c value IH]; intros t matched Hm Hs Hmax;
    cbn [kmp_contains_loop].
  { exists false. split; [done|]. split; [done|]. intros (l & r & H & Hl & _).
    symmetry in H. by apply app_nil in H as [-> _]. }
  destruct (kmp_advance_spec prefix t c (length p) matched) as (m & Ha & Hle & Hml & Hms & Hmm);
    try done; [lia|naive_solver lia|].
  rewrite Ha. cbn [mbind option_bind]. destruct (Nat.eqb_spec m (length p)) as [->|Hne].
  { exists true. split; [done|]. split; [|done]. intros _. by exists [c], value. }
  destruct (IH (t ++ [c]) m) as (b & Hb & Hspec); [lia|done|naive_solver lia|].
  exists b. split; [done|]. rewrite Hspec. split.
  - intros (l & r & -> & Hl & Hsl). exists (c :: l), r.
    split; [done|]. split; [done|]. by rewrite <- app_assoc in Hsl.
  - intros (l & r & Hv & Hl & Hsl). destruct l as [|c' l]; [done|].
    cbn in Hv. injection Hv as <- ->. destruct l as [|d l].
    + exfalso. apply Hmm in Hsl; lia.
    + exists (d :: l), r. split; [done|]. split; [done|]. by rewrite <- app_assoc.
Qed.

Lemma kmp_contains_spec prefix value :
  p ≠ [] → table_ok (length p) prefix →
  kmp_contains value p prefix = Some (str_contains p value).
Proof.
  intros Hp Ht. assert (0 < length p)%nat by (destruct p; [done|cbn; lia]).
  unfold kmp_contains.
  destruct (kmp_contains_loop_spec prefix value [] 0) as (b & Hb & Hspec); try done.
  - apply suffix_at_0.
  - intros j _ [? [u Hu]]. symmetry in Hu. apply app_nil in Hu as [_ Hu].
    apply (f_equal length) in Hu. rewrite length_take in Hu. cbn [length] in Hu. lia.
  - rewrite Hb. f_equal. apply eq_true_iff_eq. rewrite Hspec, str_contains_true. split.
    + intros (l & r & -> & Hl & Hs). apply suffix_at_full in Hs as [u Hu]. cbn in Hu.
      exists u, r. by rewrite Hu, app_assoc.
    + intros (l & r & ->). exists (l ++ p), r. rewrite app_assoc.
      split; [done|]. split; [|by apply suffix_at_full; exists l].
      intros [_ Hnil]%app_nil. done.
Qed.

End kmp.

(** ** The glob loop returns, and is right on values without [*] *)

Section glob.
Context (p v : bytes).

(** What every iteration keeps: the remembered star is before the pattern
    position and the value position is not before the star's. *)
Definition glob_wf (s : GlobState) : Prop :=
  (pattern_index s ≤ length p)%nat ∧ (value_index s ≤ length v)%nat ∧
  (star_value s ≤ value_index s)%nat ∧
  ∀ i, star s = Some i → (i < pattern_index s)%nat ∧ p !! i = Some STAR.

Definition glob_measure (s : GlobState) : nat :=
  (length v - star_value s) * (length p + 2) + (length p - pattern_index s).

Lemma glob_test_true pi vi :
  glob_test p v pi vi = true ↔
  ∃ c x, p !! pi = Some c ∧ v !! vi = Some x ∧ (c = QUESTION ∨ c = x).
Proof.
  unfold glob_test. destruct (p !! pi) as [c|], (v !! vi) as [x|]; try naive_solver.
  rewrite orb_true_iff, !Z.eqb_eq. naive_solver.
Qed.

Lemma glob_step_wf s s' :
  glob_wf s → (value_index s < length v)%nat → glob_step p v s = Some s' →
  glob_wf s' ∧ (glob_measure s' < glob_measure s)%nat.
Proof.
  intros (Hp & Hv & Hsv & Hstar) Hlt. unfold glob_step, glob_wf, glob_measure.
  destruct (glob_test _ _ _ _) eqn:E; [|case_bool_decide as E2; [|destruct (star s) as [i|] eqn:E3]].
  - intros [= <-]; cbn. apply glob_test_true in E as (c & x & Hc & _).
    apply lookup_lt_Some in Hc. split_and!; try lia. intros i Hi.
    specialize (Hstar i Hi). split; [lia|tauto].
  - intros [= <-]; cbn. apply lookup_lt_Some in E2 as Hc. split.
    + split_and!; try lia. intros i [= <-]. split; [lia|done].
    + nia.
  - intros [= <-]; cbn. destruct (Hstar i) as [Hi HS]; [done|]. split.
    + split_and!; try lia. intros j [= <-]. split; [lia|done].
    + assert (length v - star_value s = S (length v - S (star_value s)))%nat as -> by lia.
      lia.
  - done.
Qed.

Lemma glob_loop_returns fuel s :
  glob_wf s → (glob_measure s < fuel)%nat → ∃ b, glob_loop fuel p v s = Some b.
Proof.
  revert s; induction fuel as [|f IH]; intros s Hwf Hm; [lia|]. cbn [glob_loop].
  destruct (Nat.ltb_spec (value_index s) (length v)); [|by eauto].
  destruct (glob_step p v s) as [s'|] eqn:E; [|by eauto].
  destruct (glob_step_wf s s') as [??]; [done..|]. apply IH; [done|lia].
Qed.

Lemma glob_fuel_enough : (glob_measure glob_start < glob_fuel p v)%nat.
Proof. unfold glob_measure, glob_fuel; cbn. lia. Qed.

Lemma glob_start_wf : glob_wf glob_start.
Proof. unfold glob_wf; cbn. split_and!; try lia. done. Qed.

(** A pattern segment without stars consumes as many bytes as it has. *)
Lemma glob_spec_segment seg rest w :
  STAR ∉ seg → glob_spec (seg ++ rest) w = true →
  (length seg ≤ length w)%nat ∧ glob_spec rest (drop (length seg) w) = true.
Proof.
  revert w; induction seg as [|c seg IH]; intros w Hns H; cbn in *; [by split; [lia|]|].
  destruct (Z.eqb_spec c STAR) as [->|]; [set_solver|].
  destruct w as [|x w]; [done|]. apply andb_true_iff in H as [_ H].
  apply IH in H as [??]; [|set_solver]. cbn. split; [lia|done].
Qed.

Lemma glob_spec_star rest w :
  glob_spec (STAR :: rest) w = true ↔
  ∃ k, (k ≤ length w)%nat ∧ glob_spec rest (drop k w) = true.
Proof.
  cbn [glob_spec]. rewrite Z.eqb_refl.
  induction w as [|x w IH]; rewrite orb_true_iff.
  - split; [intros [?|?]; [by exists 0%nat|done]|].
    intros (k & Hk & H). rewrite drop_nil in H. by left.
  - rewrite IH. split.
    + intros [H|(k & Hk & H)]; [exists 0%nat|exists (S k)]; cbn; split; done || lia.
    + intros ([|k] & Hk & H); cbn in *; [by left|right]. exists k. split; [lia|done].
Qed.

(** The pending alternatives of a state: the current one, or a later start
    for the remembered star. *)
Definition glob_pending (s : GlobState) : Prop :=
  glob_spec (drop (pattern_index s) p) (drop (value_index s) v) = true ∨
  ∃ i k, star s = Some i ∧ (star_value s < k)%nat ∧ (k ≤ length v)%nat ∧
    glob_spec (drop (S i) p) (drop k v) = true.

(** Since the remembered star the pattern has no other star, and pattern and
    value have advanced together. *)
Definition glob_aligned (s : GlobState) : Prop :=
  ∀ i, star s = Some i →
    (STAR ∉ take (pattern_index s - S i) (drop (S i) p)) ∧
    (value_index s - star_value s = pattern_index s - S i)%nat.

(** A later start for an earlier star is covered by the current star. *)
Lemma pending_segment s i k :
  glob_wf s → glob_aligned s → star s = Some i → (star_value s < k)%nat →
  (k ≤ length v)%nat → glob_spec (drop (S i) p) (drop k v) = true →
  ∃ k', (value_index s < k')%nat ∧ (k' ≤ length v)%nat ∧
    glob_spec (drop (pattern_index s) p) (drop k' v) = true.
Proof.
  intros (Hp & Hv & Hsv & Hstar) Hal Hi Hk Hkv H.
  destruct (Hal i Hi) as [Hns Hlen]. destruct (Hstar i Hi) as [Hip _].
  rewrite <- (take_drop (pattern_index s - S i) (drop (S i) p)) in H.
  apply glob_spec_segment in H as [Hl H]; [|done].
  rewrite length_take, !length_drop in Hl. rewrite length_take, length_drop in H.
  rewrite !drop_drop in H.
  replace (S i + (pattern_index s - S i))%nat with (pattern_index s) in H by lia.
  exists (k + (pattern_index s - S i))%nat.
  replace (Nat.min (pattern_index s - S i) (length p - S i))
    with (pattern_index s - S i)%nat in H, Hl by lia.
  split_and!; [lia|lia|done].
Qed.

Lemma glob_pending_step_match s :
  glob_wf s → glob_aligned s → STAR ∉ v →
  glob_test p v (pattern_index s) (value_index s) = true →
  let s' := {| pattern_index := S (pattern_index s); value_index := S (value_index s);
               star := star s; star_value := star_value s |} in
  glob_aligned s' ∧ (glob_pending s ↔ glob_pending s').
Proof.
  intros (Hp & Hv & Hsv & Hstar) Hal Hns Ht s'.
  apply glob_test_true in Ht as (c & x & Hc & Hx & Hcx).
  assert (Hxs : x ≠ STAR) by (intros ->; apply Hns; by eapply list_elem_of_lookup_2).
  assert (Hcs : c ≠ STAR) by (unfold STAR, QUESTION in *; naive_solver lia).
  split.
  - intros i Hi. cbn [s' star pattern_index value_index star_value] in *.
    destruct (Hal i Hi) as [Hseg Hlen].
    destruct (Hstar i Hi) as [Hip _]. split; [|lia].
    replace (S (pattern_index s) - S i)%nat with (S (pattern_index s - S i)) by lia.
    rewrite (take_S_r _ _ c).
    + rewrite elem_of_app, list_elem_of_singleton. naive_solver.
    + rewrite lookup_drop. by replace (S i + (pattern_index s - S i))%nat
        with (pattern_index s) by lia.
  - unfold glob_pending; cbn. rewrite (drop_S p c _ Hc), (drop_S v x _ Hx). cbn.
    rewrite (proj2 (Z.eqb_neq c STAR)) by done.
    rewrite andb_true_iff, orb_true_iff, !Z.eqb_eq. naive_solver.
Qed.

Lemma glob_pending_step_star s :
  glob_wf s → glob_aligned s → p !! pattern_index s = Some STAR →
  let s' := {| pattern_index := S (pattern_index s); value_index := value_index s;
               star := Some (pattern_index s); star_value := value_index s |} in
  glob_aligned s' ∧ (glob_pending s ↔ glob_pending s').
Proof.
  intros Hwf Hal Hc s'. pose proof Hwf as (Hp & Hv & Hsv & Hstar). split.
  - intros i Hi. cbn in *. simplify_eq. rewrite Nat.sub_diag, take_0. split; [apply not_elem_of_nil|lia].
  - unfold glob_pending; cbn [pattern_index value_index star star_value s'].
    assert (Hexp : glob_spec (drop (pattern_index s) p) (drop (value_index s) v) = true ↔
      ∃ k, (value_index s ≤ k ≤ length v)%nat ∧
        glob_spec (drop (S (pattern_index s)) p) (drop k v) = true).
    { rewrite (drop_S p _ _ Hc), glob_spec_star. split.
      - intros (k & Hk & H). rewrite length_drop in Hk. rewrite drop_drop in H.
        exists (value_index s + k)%nat. split; [lia|done].
      - intros (k & Hk & H). exists (k - value_index s)%nat. rewrite length_drop, drop_drop.
        split; [lia|]. by replace (value_index s + (k - value_index s))%nat with k by lia. }
    rewrite Hexp. split.
    + intros [(k & Hk & H)|(i & k & Hi & Hk & Hkv & H)].
      * destruct (decide (k = value_index s)) as [->|]; [by left|].
        right. exists (pattern_index s), k. split_and!; [done|lia|lia|done].
      * destruct (pending_segment s i k) as (k' & Hk' & Hkv' & H'); try done.
        assert (Hst : ∃ k, (value_index s ≤ k ≤ length v)%nat ∧
          glob_spec (drop (S (pattern_index s)) p) (drop k v) = true).
        { rewrite (drop_S p _ _ Hc) in H'. apply glob_spec_star in H' as (q & Hq & H').
          rewrite length_drop in Hq. rewrite drop_drop in H'.
          exists (k' + q)%nat. split; [lia|done]. }
        destruct Hst as (q & Hq & Hst).
        destruct (decide (q = value_index s)) as [->|]; [by left|].
        right. exists (pattern_index s), q. split_and!; [done|lia|lia|done].
    + intros [H|(i & k & [= <-] & Hk & Hkv & H)]; left.
      * exists (value_index s). split; [lia|done].
      * exists k. split; [lia|done].
Qed.

Lemma glob_pending_step_back s i :
  glob_wf s → glob_aligned s → (value_index s < length v)%nat →
  glob_test p v (pattern_index s) (value_index s) = false →
  p !! pattern_index s ≠ Some STAR → star s = Some i →
  let s' := {| pattern_index := S i; value_index := S (star_value s);
               star := star s; star_value := S (star_value s) |} in
  glob_aligned s' ∧ (glob_pending s ↔ glob_pending s').
Proof.
  intros Hwf Hal Hlt Ht Hns Hi s'. pose proof Hwf as (Hp & Hv & Hsv & Hstar). split.
  - intros j Hj. cbn in *. assert (j = i) as -> by congruence.
    rewrite Nat.sub_diag, take_0. split; [apply not_elem_of_nil|lia].
  - unfold glob_pending; cbn [pattern_index value_index star star_value s'].
    assert (Hno : glob_spec (drop (pattern_index s) p) (drop (value_index s) v) = false).
    { destruct (lookup_lt_is_Some_2 v (value_index s)) as [x Hx]; [done|].
      rewrite (drop_S v _ _ Hx). destruct (p !! pattern_index s) as [c|] eqn:Hc.
      - rewrite (drop_S p _ _ Hc). cbn. rewrite (proj2 (Z.eqb_neq c STAR)) by congruence.
        unfold glob_test in Ht. rewrite Hc, Hx in Ht. by rewrite Ht.
      - rewrite drop_ge by (by apply lookup_ge_None_1). done. }
    rewrite Hno. split.
    + intros [|(j & k & Hj & Hk & Hkv & H)]; [done|].
      assert (j = i) as -> by congruence.
      destruct (decide (k = S (star_value s))) as [->|]; [by left|].
      right. exists i, k. split_and!; [done|lia|done|done].
    + intros [H|(j & k & Hj & Hk & Hkv & H)]; right;
        [exists i, (S (star_value s))|exists j, k]; split_and!; done || lia.
Qed.

Lemma glob_trailing_spec q : glob_trailing q = glob_spec q [].
Proof.
  induction q as [|c q IH]; [done|]. cbn. destruct (c =? STAR); [|done].
  cbn. by rewrite IH, orb_false_r.
Qed.

Lemma glob_loop_spec fuel s b :
  STAR ∉ v → glob_wf s → glob_aligned s → glob_loop fuel p v s = Some b →
  b = true ↔ glob_pending s.
Proof.
  intros Hns. revert s; induction fuel as [|f IH]; intros s Hwf Hal Hb; [done|]. cbn [glob_loop] in Hb.
  destruct (Nat.ltb_spec (value_index s) (length v)) as [Hlt|Hge].
  - destruct (glob_step p v s) as [s'|] eqn:E.
    + destruct (glob_step_wf s s') as [Hwf' _]; [done..|]. unfold glob_step in E.
      destruct (glob_test _ _ _ _) eqn:Et; [|case_bool_decide as E2; [|destruct (star s) as [i|] eqn:E3]].
      * destruct (glob_pending_step_match s) as [? Hiff]; [done..|].
        injection E as <-. rewrite Hiff. by apply IH.
      * destruct (glob_pending_step_star s) as [? Hiff]; [done..|].
        injection E as <-. rewrite Hiff. by apply IH.
      * destruct (glob_pending_step_back s i) as [? Hiff]; [done..|].
        injection E as <-. rewrite Hiff, E3. rewrite E3 in *. by apply IH.
      * done.
    + injection Hb as <-. split; [done|]. unfold glob_step in E.
      destruct (glob_test _ _ _ _) eqn:Et; [done|]. case_bool_decide as E2; [done|].
      destruct (star s) as [i|] eqn:E3; [done|].
      intros [H|(i & ? & ? & _)]; [|congruence].
      destruct (lookup_lt_is_Some_2 v (value_index s)) as [x Hx]; [done|].
      rewrite (drop_S v _ _ Hx) in H. destruct (p !! pattern_index s) as [c|] eqn:Hc.
      * rewrite (drop_S p _ _ Hc) in H. cbn in H.
        rewrite (proj2 (Z.eqb_neq c STAR)) in H by congruence.
        unfold glob_test in Et. rewrite Hc, Hx in Et. by rewrite Et in H.
      * by rewrite drop_ge in H by (by apply lookup_ge_None_1).
  - injection Hb as <-. rewrite glob_trailing_spec. unfold glob_pending.
    rewrite (drop_ge v) by lia. split; [by left|].
    intros [H|(i & k & Hi & Hk & Hkv & H)]; [done|].
    destruct (pending_segment s i k) as (k' & ? & ? & _); try done. lia.
Qed.

End glob.

(** ** Compilation *)

(** A matcher that [compile_matcher] can produce for a rule. *)
Definition matcher_of (r : InboundFilterRule) (m : CompiledMatcher) : Prop :=
  compile_matcher (r_field r) (r_operation r) (r_pattern r) = Some (Ok m).

(** The compiled size of a rule, from its pattern alone. *)
Definition rule_bytes (r : InboundFilterRule) : Z :=
  if bool_decide (r_field r = Duration) then SIZE_OF_I64
  else match r_operation r with
       | OpContains => len (r_pattern r) * (1 + SIZE_OF_USIZE)
       | _ => len (r_pattern r)
       end.

Definition policy_bytes (rules : list InboundFilterRule) : Z :=
  foldr (λ r n, rule_bytes r + n) 0 rules.
Arguments policy_bytes : simpl never.

Lemma policy_bytes_cons r rules : policy_bytes (r :: rules) = rule_bytes r + policy_bytes rules.
Proof. done. Qed.

(** The conditions under which a rule compiles. *)
Definition rule_valid (r : InboundFilterRule) : bool :=
  accepted_by (r_field r) (r_signal r)
  && non_empty (r_pattern r) && (len (r_pattern r) <=? 256)
  && negb (any_control (r_pattern r))
  && (negb (bool_decide (r_field r = Duration))
      || bool_decide (r_operation r = OpExact) && is_some (parse_i64 (r_pattern r))).

Lemma rule_valid_error r :
  rule_valid r = is_none (rule_error r)
    && (negb (bool_decide (r_field r = Duration)) || is_some (parse_i64 (r_pattern r))).
Proof.
  unfold rule_valid, rule_error, MAX_INBOUND_FILTER_PATTERN_BYTES.
  rewrite (Z.leb_antisym 256 (len (r_pattern r))). unfold is_empty.
  destruct (accepted_by _ _), (non_empty _), (256 <? _), (any_control _),
    (bool_decide (r_field r = Duration)), (bool_decide (r_operation r = OpExact)),
    (is_some _); done.
Qed.

Lemma rule_error_None r : rule_error r = None →
  r_pattern r ≠ [] ∧ len (r_pattern r) ≤ 256 ∧ accepted_by (r_field r) (r_signal r) = true.
Proof.
  unfold rule_error, MAX_INBOUND_FILTER_PATTERN_BYTES. intros H. inv_cases H. bool_prop.
  split_and!; [|lia|done]. destruct (r_pattern r); done.
Qed.

Lemma compile_matcher_total f o pat :
  pat ≠ [] → ∃ m, compile_matcher f o pat = Some m ∧
    (is_ok m = negb (bool_decide (f = Duration)) || is_some (parse_i64 pat)).
Proof.
  intros Hp. unfold compile_matcher. destruct (bool_decide (f = Duration)).
  - eexists; split; [done|]. by destruct (parse_i64 pat).
  - destruct o; try (by eexists).
    destruct (kmp_prefix_spec pat Hp) as (t & -> & _). cbn. by eexists.
Qed.

Lemma compile_matcher_bytes r m :
  r_pattern r ≠ [] → matcher_of r m → compiled_bytes m = rule_bytes r.
Proof.
  unfold matcher_of, compile_matcher, rule_bytes. intros Hp H.
  destruct (bool_decide (r_field r = Duration)).
  - by destruct (parse_i64 (r_pattern r)); simplify_eq/=.
  - destruct (r_operation r); try (by simplify_eq/=).
    destruct (kmp_prefix_spec _ Hp) as (t & E & Ht). rewrite E in H. simplify_eq/=.
    destruct Ht as [Hl _]. unfold len. rewrite Hl. lia.
Qed.

Lemma rule_bytes_nonneg r : 0 ≤ rule_bytes r.
Proof.
  unfold rule_bytes, SIZE_OF_I64, SIZE_OF_USIZE. pose proof (len_nonneg (r_pattern r)).
  repeat case_match; lia.
Qed.

Lemma policy_bytes_nonneg rules : 0 ≤ policy_bytes rules.
Proof.
  induction rules as [|r rules IH]; [done|]. rewrite policy_bytes_cons.
  pose proof (rule_bytes_nonneg r). lia.
Qed.

(** A compiled rule decides what the rule says. *)
Lemma rule_matches_spec r m fs :
  r_pattern r ≠ [] → matcher_of r m →
  rule_matches {| c_signal := r_signal r; c_field := r_field r; c_matcher := m |} fs
  = Some (rule_spec fs r).
Proof.
  unfold matcher_of, compile_matcher, rule_matches, rule_spec. cbn. intros Hp H.
  destruct (bool_decide (r_field r = Duration)).
  - destruct (parse_i64 (r_pattern r)) as [x|]; simplify_eq/=.
    by destruct (f_duration_ms fs).
  - destruct (field_text fs (r_field r)) as [value|]; [|done].
    destruct (r_operation r); simplify_eq/=; try done.
    + destruct (kmp_prefix_spec _ Hp) as (t & E & Ht). rewrite E in H. simplify_eq/=.
      by rewrite kmp_contains_spec.
    + destruct (glob_loop_returns (r_pattern r) value (glob_fuel (r_pattern r) value) glob_start)
        as [b Hb]; [apply glob_start_wf|apply glob_fuel_enough|].
      unfold glob_matches. by rewrite Hb.
Qed.

Lemma rules_push_lookup c s r s' :
  policy_rules (rules_push c s r) s' =
  policy_rules c s' ++ (if bool_decide (s = s') then [r] else []).
Proof. by destruct s, s'; cbn; rewrite ?app_nil_r. Qed.

(** [compile_rules] appends, per signal, the compiled rules in their order. *)
Lemma compile_rules_Ok rules total c c' :
  0 ≤ total ≤ MAX_COMPILED_INBOUND_FILTER_BYTES →
  compile_rules rules total c = Some (Ok c') →
  ∃ ms, Forall2 matcher_of rules ms ∧ Forall (λ r, rule_error r = None) rules ∧
    total + policy_bytes rules ≤ MAX_COMPILED_INBOUND_FILTER_BYTES ∧
    ∀ s, policy_rules c' s = policy_rules c s ++
      concat (zip_with (λ r m,
        if bool_decide (r_signal r = s)
        then [{| c_signal := r_signal r; c_field := r_field r; c_matcher := m |}]
        else []) rules ms).
Proof.
  revert total c; induction rules as [|r rules IH]; intros total c Ht H; cbn in H.
  { simplify_eq. exists []. split_and!; try constructor.
    - change (policy_bytes []) with 0. lia.
    - intros s. by rewrite app_nil_r. }
  destruct (rule_error r) eqn:Er; [done|].
  destruct (compile_matcher _ _ _) as [[m|]|] eqn:Em; try done. cbn in H.
  destruct (checked_u64 _) as [total'|] eqn:Ec; [|done].
  destruct (_ <? _) eqn:El in H; [done|]. bool_prop.
  apply checked_Some in Ec as [-> Hr].
  apply IH in H as (ms & Hms & Hval & Hsum & Hrules); [|lia].
  destruct (rule_error_None r Er) as (Hp & _ & _).
  exists (m :: ms). split_and!; try (by constructor).
  - rewrite (compile_matcher_bytes r m) in * by done. rewrite policy_bytes_cons. lia.
  - intros s. rewrite Hrules, rules_push_lookup. cbn. by rewrite <- app_assoc.
Qed.


Lemma find_rule_spec rules ms fs :
  Forall2 matcher_of rules ms → Forall (λ r, rule_error r = None) rules →
  ∃ o, find_rule fs (concat (zip_with (λ r m,
    if bool_decide (r_signal r = f_signal fs)
    then [{| c_signal := r_signal r; c_field := r_field r; c_matcher := m |}]
    else []) rules ms)) = Some o ∧
  ((λ r, {| m_signal := c_signal r; m_field := c_field r |}) <$> o) = policy_spec fs rules.
Proof.
  intros Hms. induction Hms as [|r m rules ms Hm Hms IH]; intros Hv; cbn.
  { by exists None. }
  apply Forall_cons in Hv as [Hr Hv]. destruct (rule_error_None r Hr) as (Hp & _ & _).
  destruct (IH Hv) as (o & Ho & Hspec).
  destruct (bool_decide (r_signal r = f_signal fs)); cbn; [|by exists o].
  rewrite (rule_matches_spec r m fs) by done. cbn.
  destruct (rule_spec fs r); [|by exists o]. by eexists.
Qed.

(** Whether the rules compile, as a test of the rules alone. *)
Definition rules_acceptable (rules : list InboundFilterRule) : bool :=
  (len rules <=? MAX_INBOUND_FILTER_RULES) && forallb rule_valid rules
  && (policy_bytes rules <=? MAX_COMPILED_INBOUND_FILTER_BYTES).

Lemma compile_rules_total rules total c :
  0 ≤ total ≤ MAX_COMPILED_INBOUND_FILTER_BYTES →
  ∃ res, compile_rules rules total c = Some res ∧
    is_ok res = forallb rule_valid rules
      && (total + policy_bytes rules <=? MAX_COMPILED_INBOUND_FILTER_BYTES).
Proof.
  unfold MAX_COMPILED_INBOUND_FILTER_BYTES.
  revert total c; induction rules as [|r rules IH]; intros total c Ht;
    cbn [compile_rules forallb].
  { eexists; split; [done|]. cbn. symmetry. apply Z.leb_le. change (policy_bytes []) with 0. lia. }
  rewrite policy_bytes_cons.
  pose proof (rule_bytes_nonneg r). pose proof (policy_bytes_nonneg rules).
  rewrite rule_valid_error. destruct (rule_error r) eqn:Er; [by eexists|].
  destruct (rule_error_None r Er) as (Hp & Hlen & _).
  destruct (compile_matcher_total (r_field r) (r_operation r) (r_pattern r) Hp)
    as (m & Hm & Hok). rewrite Hm. cbn. rewrite <- Hok.
  destruct m as [m|e]; [|by eexists]. cbn.
  rewrite (compile_matcher_bytes r m) by done.
  assert (rule_bytes r ≤ 2304).
  { unfold rule_bytes, SIZE_OF_I64, SIZE_OF_USIZE. repeat case_match; lia. }
  unfold checked_u64, U64_MAX. rewrite checked_exact by lia.
  destruct (_ <? _) eqn:El; bool_prop; unfold MAX_COMPILED_INBOUND_FILTER_BYTES in *.
  - eexists; split; [done|]. cbn. symmetry. apply andb_false_iff. right.
    apply Z.leb_gt. lia.
  - destruct (IH (total + rule_bytes r) (rules_push c (r_signal r)
      {| c_signal := r_signal r; c_field := r_field r; c_matcher := m |}))
      as (res & Hres & Hiff); [lia|].
    exists res. split; [done|]. rewrite Hiff. by rewrite Z.add_assoc.
Qed.

Lemma compile_total rules :
  ∃ res, compile rules = Some res ∧ is_ok res = rules_acceptable rules.
Proof.
  unfold compile, rules_acceptable. rewrite Z.leb_antisym.
  destruct (MAX_INBOUND_FILTER_RULES <? len rules); [by eexists|].
  apply (compile_rules_total rules 0 policy_default).
  unfold MAX_COMPILED_INBOUND_FILTER_BYTES. lia.
Qed.

(** ** Theorems *)

(** For every non-empty pattern the prefix table is computed, and the
    search with it answers exactly whether the pattern occurs in the value;
    no index is out of range and the fallback loop ends. *)
Theorem kmp_search_correct (pattern : bytes) :
  pattern ≠ [] →
  ∃ table, kmp_prefix pattern = Some table ∧
    ∀ value, kmp_contains value pattern table = Some (str_contains pattern value).
Proof.
  intros Hp. destruct (kmp_prefix_spec pattern Hp) as (t & Ht & Hok).
  exists t. split; [done|]. intros value. by apply kmp_contains_spec.
Qed.

Lemma kmp_search_correct_witness :
  lit "abab" ≠ [] ∧
  ∃ table, kmp_prefix (lit "abab") = Some table ∧
    ∀ value, kmp_contains value (lit "abab") table = Some (str_contains (lit "abab") value).
Proof. split; [done|]. apply (kmp_search_correct (lit "abab")). done. Defined.

(** Glob matching always returns, and on a value that has no [*] byte it
    returns what the glob denotes. *)
Theorem glob_matches_correct (pattern value : bytes) :
  (∃ b, glob_matches pattern value = Some b) ∧
  ((STAR ∉ value) → glob_matches pattern value = Some (glob_spec pattern value)).
Proof.
  destruct (glob_loop_returns pattern value (glob_fuel pattern value) glob_start)
    as [b Hb]; [apply glob_start_wf|apply glob_fuel_enough|].
  split; [by exists b|]. intros Hns. unfold glob_matches. rewrite Hb. f_equal.
  apply eq_true_iff_eq.
  rewrite (glob_loop_spec pattern value (glob_fuel pattern value) glob_start b Hns);
    try done; [|apply glob_start_wf].
  unfold glob_pending; cbn. rewrite !drop_0. naive_solver.
Qed.

Lemma glob_matches_correct_witness :
  (STAR ∉ lit "release-1.2") ∧
  glob_matches (lit "rel*1.?") (lit "release-1.2")
  = Some (glob_spec (lit "rel*1.?") (lit "release-1.2")).
Proof.
  assert (H : STAR ∉ lit "release-1.2").
  { apply (bool_decide_unpack (STAR ∉ lit "release-1.2")). vm_compute. exact I. }
  split; [exact H|].
  destruct (glob_matches_correct (lit "rel*1.?") (lit "release-1.2")) as [_ G].
  exact (G H).
Defined.

(** A value that holds a [*] can be refused by a pattern that denotes it:
    the loop tests for an equal byte before it tests for a wildcard, so the
    wildcard is consumed as a literal and never remembered. *)
Theorem glob_star_consumed_as_literal :
  glob_matches (lit "*") (lit "*a") = Some false ∧ glob_spec (lit "*") (lit "*a") = true.
Proof. split; vm_compute; reflexivity. Qed.

(** C25. When a policy compiles, matching an event with the compiled policy
    never panics and reports the first rule of the event's signal, in the
    order of the policy, that holds of the event. *)
Theorem compiled_policy_refines_rules rules c fs :
  compile rules = Some (Ok c) → matches c fs = Some (policy_spec fs rules).
Proof.
  unfold compile. intros H. destruct (_ <? _) in H; [done|].
  apply compile_rules_Ok in H as (ms & Hms & Hv & _ & Hrules);
    [|unfold MAX_COMPILED_INBOUND_FILTER_BYTES; lia].
  unfold matches. rewrite Hrules. replace (policy_rules policy_default _)
    with (@nil CompiledInboundFilterRule) by (by destruct (f_signal fs)). cbn [app].
  destruct (find_rule_spec rules ms fs Hms Hv) as (o & -> & <-). by destruct o.
Qed.

Definition sample_rules : list InboundFilterRule :=
  [ {| r_signal := SLog; r_field := Message; r_operation := OpContains;
       r_pattern := lit "health" |};
    {| r_signal := SSpan; r_field := Duration; r_operation := OpExact;
       r_pattern := lit "-5" |} ].

Lemma compiled_policy_refines_rules_witness :
  match compile sample_rules with
  | Some (Ok c) => matches c (fields_empty SLog) = Some (policy_spec (fields_empty SLog) sample_rules)
  | _ => False
  end.
Proof.
  destruct (compile sample_rules) as [[c|e]|] eqn:E.
  - exact (compiled_policy_refines_rules sample_rules c (fields_empty SLog) E).
  - vm_compute in E. discriminate E.
  - vm_compute in E. discriminate E.
Defined.

(** Compilation never panics, and accepts exactly the policies of at most
    32 rules, each well formed (its field exists for its signal, its pattern is
    non-empty, at most 256 bytes and free of control characters, a duration
    rule is exact and an [i64]), whose compiled size is at most 8 KiB. *)
Theorem compile_accepts_exactly rules :
  ∃ res, compile rules = Some res ∧ is_ok res = rules_acceptable rules.
Proof. apply compile_total. Qed.
