(* ===== verification/Monitors.v ===== *)
(** * Cron and uptime monitors

    [domain/src/monitors.rs]: run statuses, uptime endpoints, headers and
    configurations, interval and crontab schedules, monitor definitions and
    runs with their validation.  [Url] and the calendar are the parameters of
    [External]; [Result] errors are [MonitorValueError]. *)
From stdpp Require Import base list numbers strings sets gmap.
From Stdlib Require Import ZArith Lia.
From S2P Require Import Prelude External Primitives.

Definition MAX_MONITOR_SLUG_BYTES : Z := 64.
Definition MAX_MONITOR_NAME_BYTES : Z := 128.
Definition MAX_MONITOR_ENVIRONMENT_BYTES : Z := 64.
Definition MAX_MONITOR_SCHEDULE_BYTES : Z := 128.
Definition MAX_MONITOR_INTERVAL_MINUTES : Z := 366 * 24 * 60.
Definition MAX_MONITOR_MARGIN_SECONDS : Z := 24 * 60 * 60.
Definition MAX_MONITOR_RUNTIME_SECONDS : Z := 7 * 24 * 60 * 60.
Definition MAX_UPTIME_ENDPOINT_BYTES : Z := 2048.
Definition MAX_UPTIME_HEADERS : Z := 16.
Definition MAX_UPTIME_HEADER_NAME_BYTES : Z := 64.
Definition MAX_UPTIME_HEADER_VALUE_BYTES : Z := 2048.
Definition MAX_UPTIME_HEADERS_BYTES : Z := 8 * 1024.
Definition MAX_UPTIME_TIMEOUT_SECONDS : Z := 120.
Definition MAX_UPTIME_REDIRECTS : Z := 3.

Inductive MonitorValueError :=
| InvalidText | InvalidSchedule | InvalidConfig | InvalidStatus | InvalidRun
| InvalidTime | InvalidEndpoint | InvalidHeader.
#[export] Instance MonitorValueError_eq_dec : EqDecision MonitorValueError.
Proof. solve_decision. Defined.

(** ** Statuses *)

Inductive MonitorRunStatus := InProgress | Success | Error | Timeout | Missed.
#[export] Instance MonitorRunStatus_eq_dec : EqDecision MonitorRunStatus.
Proof. solve_decision. Defined.

Definition run_status_as_str (s : MonitorRunStatus) : str :=
  lit match s with
  | InProgress => "in_progress"
  | Success => "success"
  | Error => "error"
  | Timeout => "timeout"
  | Missed => "missed"
  end.

Definition is_terminal (s : MonitorRunStatus) : bool :=
  match s with InProgress => false | _ => true end.

Definition run_status_parse (value : str) : result MonitorValueError MonitorRunStatus :=
  if bool_decide (value = lit "in_progress") then Ok InProgress
  else if bool_decide (value = lit "ok") || bool_decide (value = lit "success") then Ok Success
  else if bool_decide (value = lit "error") then Ok Error
  else if bool_decide (value = lit "timeout") then Ok Timeout
  else if bool_decide (value = lit "missed") then Ok Missed
  else Err InvalidStatus.

Inductive MonitorRunSource := Sdk | Scheduler.
#[export] Instance MonitorRunSource_eq_dec : EqDecision MonitorRunSource.
Proof. solve_decision. Defined.

Inductive UptimeMethod := Get | Head.
Definition uptime_method_as_str (m : UptimeMethod) : str :=
  lit match m with Get => "GET" | Head => "HEAD" end.
Definition uptime_method_parse (value : str) : result MonitorValueError UptimeMethod :=
  if bool_decide (value = lit "GET") || bool_decide (value = lit "get") then Ok Get
  else if bool_decide (value = lit "HEAD") || bool_decide (value = lit "head") then Ok Head
  else Err InvalidConfig.

Inductive UptimeFailure :=
| Dns | ForbiddenAddress | Connect | FTimeout | Redirect | TooManyRedirects
| ResponseTooLarge | UnexpectedStatus.
#[export] Instance UptimeFailure_eq_dec : EqDecision UptimeFailure.
Proof. solve_decision. Defined.

Definition uptime_failure_as_str (f : UptimeFailure) : str :=
  lit match f with
  | Dns => "dns"
  | ForbiddenAddress => "forbidden_address"
  | Connect => "connect"
  | FTimeout => "timeout"
  | Redirect => "redirect"
  | TooManyRedirects => "too_many_redirects"
  | ResponseTooLarge => "response_too_large"
  | UnexpectedStatus => "unexpected_status"
  end.

Definition uptime_failure_parse (value : str) : result MonitorValueError UptimeFailure :=
  if bool_decide (value = lit "dns") then Ok Dns
  else if bool_decide (value = lit "forbidden_address") then Ok ForbiddenAddress
  else if bool_decide (value = lit "connect") then Ok Connect
  else if bool_decide (value = lit "timeout") then Ok FTimeout
  else if bool_decide (value = lit "redirect") then Ok Redirect
  else if bool_decide (value = lit "too_many_redirects") then Ok TooManyRedirects
  else if bool_decide (value = lit "response_too_large") then Ok ResponseTooLarge
  else if bool_decide (value = lit "unexpected_status") then Ok UnexpectedStatus
  else Err InvalidRun.

(** ** Uptime endpoints and headers *)

(** An [UptimeEndpoint] is its text; [endpoint_new] is the constructor. *)
Abbreviation UptimeEndpoint := str.

Section endpoint.
Context {Url : Type} `{UrlApi Url}.

Definition endpoint_new (value : str) : result MonitorValueError UptimeEndpoint :=
  if is_empty value || (MAX_UPTIME_ENDPOINT_BYTES <? len value) || any_control value
  then Err InvalidEndpoint
  else match url_parse value with
       | None => Err InvalidEndpoint
       | Some parsed =>
           if negb (bool_decide (url_scheme parsed = lit "http")
                    || bool_decide (url_scheme parsed = lit "https"))
              || is_none (url_host_str parsed)
              || non_empty (url_username parsed)
              || is_some (url_password parsed)
              || is_some (url_fragment parsed)
           then Err InvalidEndpoint
           else Ok value
       end.

Definition host_key (endpoint : UptimeEndpoint) : result MonitorValueError str :=
  parsed ← ok_or InvalidEndpoint (url_parse endpoint);
  host ← ok_or InvalidEndpoint (url_host_str parsed);
  port ← ok_or InvalidEndpoint (url_port_or_known_default parsed);
  Ok (to_ascii_lowercase host ++ lit ":" ++ to_dec port).

Definition redacted (endpoint : UptimeEndpoint) : str :=
  match url_parse endpoint with
  | None => lit "<invalid-url>"
  | Some parsed =>
      url_to_string
        (if is_some (url_query parsed)
         then foldl (λ u key, url_append_pair u key (lit "<redacted>"))
                (url_clear_query parsed) (map fst (url_query_pairs parsed))
         else parsed)
  end.

End endpoint.

Definition sealed_header_value_new (value : bytes) : result MonitorValueError bytes :=
  if is_empty value || (MAX_UPTIME_HEADER_VALUE_BYTES + 64 <? len value)
  then Err InvalidHeader else Ok value.

Definition sensitive_uptime_header (name : str) : bool :=
  one_of ["authorization"; "proxy-authorization"; "cookie"; "set-cookie"; "x-api-key";
          "x-auth-token"] name
  || str_contains (lit "token") name
  || str_contains (lit "secret") name
  || str_contains (lit "api-key") name.

Definition forbidden_uptime_header (name : str) : bool :=
  one_of ["host"; "content-length"; "transfer-encoding"; "connection"; "keep-alive"; "te";
          "trailer"; "upgrade"; "forwarded"; "via"] name
  || starts_with (lit "proxy-") name
  || starts_with (lit "x-forwarded-") name.

Record UptimeHeader := {
  h_name : str;
  h_value : bytes;
  h_sensitive : bool;
}.

Definition header_validate (h : UptimeHeader) : result MonitorValueError unit :=
  if is_empty (h_name h)
     || (MAX_UPTIME_HEADER_NAME_BYTES <? len (h_name h))
     || negb (forallb (λ b, is_ascii_lowercase b || is_ascii_digit b || (b =? 45)) (h_name h))
     || forbidden_uptime_header (h_name h)
     || negb (Bool.eqb (h_sensitive h) (sensitive_uptime_header (h_name h)))
  then Err InvalidHeader else Ok tt.

Record UptimeMonitorConfig := {
  u_endpoint : UptimeEndpoint;
  u_method : UptimeMethod;
  u_expected_status_min : Z;
  u_expected_status_max : Z;
  u_timeout_seconds : Z;
  u_max_redirects : Z;
  u_headers : list UptimeHeader;
}.

(** The loop over the headers with its set of names and its byte total. *)
Fixpoint headers_total (names : gset str) (total : Z) (headers : list UptimeHeader)
    : result MonitorValueError Z :=
  match headers with
  | [] => Ok total
  | h :: headers' =>
      match header_validate h with
      | Err e => Err e
      | Ok _ =>
          if bool_decide (h_name h ∈ names) then Err InvalidHeader
          else
            match checked_u64 (total + len (h_name h)) with
            | None => Err InvalidHeader
            | Some value =>
                match checked_u64 (value + len (h_value h)) with
                | None => Err InvalidHeader
                | Some total' => headers_total ({[h_name h]} ∪ names) total' headers'
                end
            end
      end
  end.

Definition uptime_config_validate (c : UptimeMonitorConfig) : result MonitorValueError unit :=
  if (MAX_UPTIME_HEADERS <? len (u_headers c))
     || negb (in_range 100 599 (u_expected_status_min c))
     || negb (in_range (u_expected_status_min c) 599 (u_expected_status_max c))
     || negb (in_range 1 MAX_UPTIME_TIMEOUT_SECONDS (u_timeout_seconds c))
     || (MAX_UPTIME_REDIRECTS <? u_max_redirects c)
  then Err InvalidConfig
  else
    total ← headers_total ∅ 0 (u_headers c);
    if MAX_UPTIME_HEADERS_BYTES + len (u_headers c) * 64 <? total
    then Err InvalidHeader else Ok tt.

(** ** Schedules *)

(** [a..=b] stepped by [step]. *)
Definition step_range (start stop step : Z) : list Z :=
  map (λ i, start + Z.of_nat i * step) (seq 0 (Z.to_nat ((stop - start) / step + 1))).

Definition set_bit (bits number : Z) : Z := Z.lor bits (Z.shiftl 1 number).
Definition contains (bits value : Z) : bool := negb (Z.land bits (Z.shiftl 1 value) =? 0).

(** One item of a field: [base] or [base/step], its bounds checked. *)
Definition parse_item (item : str) (minimum maximum : Z)
    : result MonitorValueError (Z * Z * Z) :=
  if is_empty item then Err InvalidSchedule
  else
    let '(base, step) :=
      match split_once 47 item with
      | None => (item, 1)
      | Some (base, step) => (base, unwrap_or 0 (parse_u8 step))
      end in
    if step =? 0 then Err InvalidSchedule
    else
      '(start, stop) ←
        (if bool_decide (base = lit "*") then Ok (minimum, maximum)
         else match split_once 45 base with
              | Some (start, stop) =>
                  start ← ok_or InvalidSchedule (parse_u8 start);
                  stop ← ok_or InvalidSchedule (parse_u8 stop);
                  Ok (start, stop)
              | None =>
                  exact ← ok_or InvalidSchedule (parse_u8 base);
                  Ok (exact, exact)
              end);
      if (start <? minimum) || (maximum <? stop) || (stop <? start)
      then Err InvalidSchedule
      else Ok (start, stop, step).

(** The loop over the items, with the bits so far. *)
Fixpoint parse_items (bits : Z) (items : list str) (minimum maximum : Z)
    : result MonitorValueError Z :=
  match items with
  | [] => Ok bits
  | item :: items' =>
      '(start, stop, step) ← parse_item item minimum maximum;
      parse_items (foldl set_bit bits (step_range start stop step)) items' minimum maximum
  end.

Definition parse_field (value : str) (minimum maximum : Z) : result MonitorValueError Z :=
  bits ← parse_items 0 (split_on 44 value) minimum maximum;
  if negb (bits =? 0) then Ok bits else Err InvalidSchedule.

Record CompiledCrontab := {
  c_minute : Z;
  c_hour : Z;
  c_day : Z;
  c_month : Z;
  c_weekday : Z;
  c_day_wildcard : bool;
  c_weekday_wildcard : bool;
}.

Inductive MonitorSchedule :=
| Interval (minutes : Z)
| Crontab (expression : str) (compiled : CompiledCrontab).

Definition schedule_interval (minutes : Z) : result MonitorValueError MonitorSchedule :=
  if negb (in_range 1 MAX_MONITOR_INTERVAL_MINUTES minutes)
  then Err InvalidSchedule else Ok (Interval minutes).

Definition schedule_crontab (expression : str) : result MonitorValueError MonitorSchedule :=
  if is_empty expression || (MAX_MONITOR_SCHEDULE_BYTES <? len expression)
  then Err InvalidSchedule
  else
    match split_ascii_whitespace expression with
    | [p0; p1; p2; p3; p4] as parts =>
        let normalized := join (lit " ") parts in
        minute ← parse_field p0 0 59;
        hour ← parse_field p1 0 23;
        day ← parse_field p2 1 31;
        month ← parse_field p3 1 12;
        weekday ← parse_field p4 0 6;
        Ok (Crontab normalized
          {| c_minute := minute; c_hour := hour; c_day := day; c_month := month;
             c_weekday := weekday;
             c_day_wildcard := bool_decide (p2 = lit "*");
             c_weekday_wildcard := bool_decide (p4 = lit "*") |})
    | _ => Err InvalidSchedule
    end.

Definition schedule_kind (s : MonitorSchedule) : str :=
  match s with Interval _ => lit "interval" | Crontab _ _ => lit "crontab" end.
Definition schedule_value (s : MonitorSchedule) : str :=
  match s with Interval minutes => to_dec minutes | Crontab expression _ => expression end.

Definition add_millis (value : Timestamp) (delta : Z) : result MonitorValueError Timestamp :=
  sum ← ok_or InvalidTime (checked_i64 (value + delta));
  map_err (λ _, InvalidTime) (from_unix_millis sum).

Definition weekday_number (w : Weekday) : Z :=
  match w with
  | Sunday => 0 | Monday => 1 | Tuesday => 2 | Wednesday => 3 | Thursday => 4
  | Friday => 5 | Saturday => 6
  end.

(** The test of the loop of [CompiledCrontab::next_after]. *)
Definition cron_matches (c : CompiledCrontab) (value : OffsetDateTime) : bool :=
  let weekday := weekday_number (dt_weekday value) in
  let day_matches := contains (c_day c) (dt_day value) && contains (c_weekday c) weekday in
  let cron_day_matches :=
    if c_day_wildcard c || c_weekday_wildcard c then day_matches
    else contains (c_day c) (dt_day value) || contains (c_weekday c) weekday in
  contains (c_minute c) (dt_minute value)
  && contains (c_hour c) (dt_hour value)
  && contains (c_month c) (dt_month value)
  && cron_day_matches.

(** The last offset of the loop, in minutes: two years. *)
Definition CRON_HORIZON : Z := 2 * 366 * 24 * 60.

Section schedules.
Context `{TimeApi}.

(** [fuel] iterations of the loop, the first at [offset]. *)
Fixpoint cron_scan (c : CompiledCrontab) (next_minute : Z) (fuel : nat) (offset : Z)
    : result MonitorValueError Timestamp :=
  match fuel with
  | O => Err InvalidSchedule
  | S fuel' =>
      shift ← ok_or InvalidTime (checked_i64 (offset * 60));
      candidate_seconds ← ok_or InvalidTime (checked_i64 (next_minute + shift));
      value ← ok_or InvalidTime (from_unix_timestamp candidate_seconds);
      if cron_matches c value then
        millis ← ok_or InvalidTime (checked_i64 (candidate_seconds * 1000));
        map_err (λ _, InvalidTime) (from_unix_millis millis)
      else cron_scan c next_minute fuel' (offset + 1)
  end.

Definition cron_next_after (c : CompiledCrontab) (after : Timestamp)
    : result MonitorValueError Timestamp :=
  let seconds := after / 1000 in
  next ← ok_or InvalidTime (checked_i64 (seconds / 60 + 1));
  next_minute ← ok_or InvalidTime (checked_i64 (next * 60));
  cron_scan c next_minute (Z.to_nat (CRON_HORIZON + 1)) 0.

Definition schedule_next_after (s : MonitorSchedule) (after : Timestamp)
    : result MonitorValueError Timestamp :=
  match s with
  | Interval minutes =>
      delta ← ok_or InvalidTime (checked_i64 (minutes * 60000));
      add_millis after delta
  | Crontab _ compiled => cron_next_after compiled after
  end.

End schedules.

(** ** Configurations, definitions and runs *)

Record MonitorConfig := {
  mc_schedule : MonitorSchedule;
  mc_checkin_margin_seconds : Z;
  mc_max_runtime_seconds : Z;
}.

Definition config_validate (c : MonitorConfig) : result MonitorValueError unit :=
  if (MAX_MONITOR_MARGIN_SECONDS <? mc_checkin_margin_seconds c)
     || (mc_max_runtime_seconds c =? 0)
     || (MAX_MONITOR_RUNTIME_SECONDS <? mc_max_runtime_seconds c)
  then Err InvalidConfig else Ok tt.

Definition missed_at (c : MonitorConfig) (scheduled_for : Timestamp)
    : result MonitorValueError Timestamp :=
  add_millis scheduled_for (mc_checkin_margin_seconds c * 1000).
Definition timeout_at (c : MonitorConfig) (started_at : Timestamp)
    : result MonitorValueError Timestamp :=
  add_millis started_at (mc_max_runtime_seconds c * 1000).

Definition validate_text (value : str) (maximum : Z) : result MonitorValueError unit :=
  if is_empty value || (maximum <? len value) || any_control value
  then Err InvalidText else Ok tt.

Record MonitorDefinition := {
  md_id : bytes;
  md_project_id : ProjectId;
  md_slug : str;
  md_name : str;
  md_environment_id : bytes;
  md_environment : str;
  md_enabled : bool;
  md_managed_by_web : bool;
  md_revision : Z;
  md_config : MonitorConfig;
  md_uptime : option UptimeMonitorConfig;
  md_next_expected_at : Timestamp;
  md_last_run_id : option bytes;
  md_last_status : option MonitorRunStatus;
  md_last_check_in_at : option Timestamp;
  md_created_at : Timestamp;
  md_updated_at : Timestamp;
}.

Definition definition_validate (d : MonitorDefinition) : result MonitorValueError unit :=
  _ ← validate_text (md_slug d) MAX_MONITOR_SLUG_BYTES;
  _ ← validate_text (md_name d) MAX_MONITOR_NAME_BYTES;
  _ ← validate_text (md_environment d) MAX_MONITOR_ENVIRONMENT_BYTES;
  _ ← config_validate (md_config d);
  _ ← guard_err (is_some_and (λ u, is_err (uptime_config_validate u)) (md_uptime d))
        InvalidConfig;
  _ ← guard_err ((md_revision d =? 0) || (md_updated_at d <? md_created_at d)) InvalidConfig;
  Ok tt.

Definition is_uptime (d : MonitorDefinition) : bool := is_some (md_uptime d).

Record MonitorRun := {
  mr_id : bytes;
  mr_project_id : ProjectId;
  mr_monitor_id : bytes;
  mr_check_in_id : option bytes;
  mr_status : MonitorRunStatus;
  mr_source : MonitorRunSource;
  mr_scheduled_for : option Timestamp;
  mr_started_at : Timestamp;
  mr_finished_at : option Timestamp;
  mr_duration_ms : option Z;
  mr_received_at : Timestamp;
  mr_release_id : option bytes;
  mr_timeout_at : option Timestamp;
  mr_delete_at : option Timestamp;
  mr_http_status : option Z;
  mr_uptime_failure : option UptimeFailure;
}.

Definition run_validate (r : MonitorRun) : result MonitorValueError unit :=
  if negb (Bool.eqb (is_some (mr_finished_at r)) (is_terminal (mr_status r)))
     || is_some_and (λ value, value <? mr_started_at r) (mr_finished_at r)
     || is_some_and (λ value, I64_MAX <? value) (mr_duration_ms r)
     || negb (Bool.eqb (bool_decide (mr_source r = Sdk)) (is_some (mr_check_in_id r)))
     || is_some_and (λ status, negb (in_range 100 599 status)) (mr_http_status r)
     || ((is_some (mr_http_status r) || is_some (mr_uptime_failure r))
         && (negb (bool_decide (mr_source r = Scheduler)) || negb (is_terminal (mr_status r))))
  then Err InvalidRun else Ok tt.

Record MonitorUpdate := {
  mu_definition : option MonitorDefinition;
  mu_run : MonitorRun;
}.

Definition update_validate (u : MonitorUpdate) : result MonitorValueError unit :=
  _ ← run_validate (mu_run u);
  match mu_definition u with
  | Some definition =>
      _ ← definition_validate definition;
      guard_err (negb (bool_decide (md_id definition = mr_monitor_id (mu_run u)))
                 || negb (bool_decide (md_project_id definition = mr_project_id (mu_run u))))
        InvalidRun
  | None => Ok tt
  end.

(** ** Lemmas *)

Lemma testbit_set_bit bits number n :
  0 ≤ number → 0 ≤ n →
  Z.testbit (set_bit bits number) n = Z.testbit bits n || (n =? number).
Proof.
  intros. unfold set_bit. rewrite Z.lor_spec, Z.shiftl_1_l, Z.pow2_bits_eqb by done.
  by rewrite (Z.eqb_sym number n).
Qed.

Lemma contains_testbit bits value : 0 ≤ value → contains bits value = Z.testbit bits value.
Proof.
  intros Hv. unfold contains. rewrite Z.shiftl_1_l.
  destruct (Z.testbit bits value) eqn:E.
  - apply negb_true_iff, Z.eqb_neq. intros H.
    apply (f_equal (λ z, Z.testbit z value)) in H.
    by rewrite Z.land_spec, E, Z.pow2_bits_true, Z.bits_0 in H.
  - apply negb_false_iff, Z.eqb_eq. apply Z.bits_inj'. intros n Hn.
    rewrite Z.land_spec, Z.pow2_bits_eqb, Z.bits_0 by done.
    destruct (Z.eqb_spec value n) as [<-|]; [by rewrite E|by rewrite andb_false_r].
Qed.

Lemma testbit_set_bits l : ∀ bits n,
  Forall (λ x, 0 ≤ x) l → 0 ≤ n →
  Z.testbit (foldl set_bit bits l) n = true ↔ Z.testbit bits n = true ∨ n ∈ l.
Proof.
  induction l as [|x l IH]; intros bits n Hl Hn; cbn [foldl]; [set_solver|].
  apply Forall_cons in Hl as [Hx Hl].
  rewrite IH by done. rewrite testbit_set_bit, orb_true_iff, Z.eqb_eq by done. set_solver.
Qed.

Lemma step_range_spec start stop step n :
  0 < step → start ≤ stop →
  n ∈ step_range start stop step ↔ start ≤ n ≤ stop ∧ (n - start) mod step = 0.
Proof.
  intros Hs Hle. unfold step_range. rewrite list_elem_of_fmap.
  pose proof (Z.div_pos (stop - start) step ltac:(lia) Hs).
  split.
  - intros (i & -> & Hi). apply elem_of_seq in Hi.
    assert (Z.of_nat i ≤ (stop - start) / step) by lia.
    pose proof (Z.mul_div_le (stop - start) step Hs).
    split; [nia|]. replace (start + Z.of_nat i * step - start) with (Z.of_nat i * step) by lia.
    apply Z.mod_mul. lia.
  - intros [Hn Hm]. apply Z.mod_divide in Hm as [k Hk]; [|lia].
    assert (0 ≤ k) by nia. exists (Z.to_nat k). split; [lia|].
    apply elem_of_seq. assert (k ≤ (stop - start) / step); [|lia].
    apply Z.div_le_lower_bound; lia.
Qed.

Lemma digits_value_nonneg radix s : ∀ acc v,
  0 ≤ radix → 0 ≤ acc → digits_value radix acc s = Some v → 0 ≤ v.
Proof.
  induction s as [|b s IH]; intros acc v Hr Ha H; cbn in H; [naive_solver|].
  destruct (digit_value b) as [d|] eqn:Ed; [|done].
  destruct (Z.ltb_spec d radix); [|done].
  apply IH in H; [done..|]. assert (0 ≤ d); [|nia].
  unfold digit_value, is_ascii_digit in Ed. inv_cases Ed; bool_prop; lia.
Qed.

Lemma parse_unsigned_bounds radix hi s v :
  0 ≤ radix → parse_unsigned radix hi s = Some v → 0 ≤ v ≤ hi.
Proof.
  unfold parse_unsigned. intros Hr H. destruct (is_empty _); [done|].
  destruct (digits_value radix 0 _) as [x|] eqn:E; [|done].
  apply digits_value_nonneg in E; [|lia..].
  destruct (Z.leb_spec x hi); naive_solver.
Qed.

(** An accepted item names a non-empty stepped range inside the field. *)
Lemma parse_item_Ok item lo hi start stop step :
  parse_item item lo hi = Ok (start, stop, step) →
  lo ≤ start ≤ stop ∧ stop ≤ hi ∧ 0 < step.
Proof.
  unfold parse_item. destruct (is_empty item); [done|].
  destruct (match split_once 47 item with None => _ | Some _ => _ end) as [base k] eqn:Ek.
  destruct (Z.eqb_spec k 0) as [|Hk]; [done|]. intros H.
  apply bind_Ok in H as ((s & e) & _ & H).
  destruct (_ || _) eqn:E; [done|]. simplify_eq H. intros. subst.
  bool_prop. split_and!; [lia..|].
  assert (0 ≤ step); [|lia].
  destruct (split_once 47 item) as [[b t]|]; simplify_eq; [|lia].
  destruct (parse_u8 t) as [v|] eqn:Ev; cbn; [|lia].
  unfold parse_u8 in Ev. apply parse_unsigned_bounds in Ev; lia.
Qed.

Lemma parse_item_Err item lo hi e : parse_item item lo hi = Err e → e = InvalidSchedule.
Proof.
  unfold parse_item. destruct (is_empty item); [naive_solver|].
  destruct (match split_once 47 item with None => _ | Some _ => _ end) as [base k].
  destruct (k =? 0); [naive_solver|]. intros H.
  apply bind_Err in H as [H|([s t] & _ & H)].
  - case_bool_decide; [done|]. destruct (split_once 45 base) as [[a b]|].
    + apply bind_Err in H as [H|(x & _ & H)]; [by apply ok_or_Err in H as [_ ->]|].
      apply bind_Err in H as [H|(y & _ & H)]; [by apply ok_or_Err in H as [_ ->]|done].
    + apply bind_Err in H as [H|(x & _ & H)]; [by apply ok_or_Err in H as [_ ->]|done].
  - destruct (_ || _); naive_solver.
Qed.

(** The number [n] is one an item of the list selects. *)
Definition selected (items : list str) (lo hi n : Z) : Prop :=
  ∃ item start stop step, item ∈ items ∧ parse_item item lo hi = Ok (start, stop, step)
    ∧ start ≤ n ≤ stop ∧ (n - start) mod step = 0.

Lemma parse_items_spec items lo hi : ∀ bits,
  0 ≤ lo →
  (∃ bits', parse_items bits items lo hi = Ok bits'
    ∧ (∀ item, item ∈ items → is_ok (parse_item item lo hi) = true)
    ∧ ∀ n, 0 ≤ n →
        (Z.testbit bits' n = true ↔ Z.testbit bits n = true ∨ selected items lo hi n))
  ∨ (parse_items bits items lo hi = Err InvalidSchedule
     ∧ ∃ item, item ∈ items ∧ parse_item item lo hi = Err InvalidSchedule).
Proof.
  induction items as [|item items IH]; intros bits Hlo.
  { left. exists bits. split_and!; [done|set_solver|]. intros n _. split; [by left|].
    intros [?|(i & ? & ? & ? & Hi & _)]; [done|set_solver]. }
  cbn [parse_items]. destruct (parse_item item lo hi) as [[[s e] k]|err] eqn:E; cbn [mbind result_bind].
  2:{ right. apply parse_item_Err in E as E'. subst err. split; [done|]. exists item. set_solver. }
  destruct (IH (foldl set_bit bits (step_range s e k)) Hlo)
    as [(bits' & Hp & Hall & Hb)|(Hp & i & Hi & Hi')].
  2:{ right. split; [done|]. exists i. set_solver. }
  left. exists bits'. split; [done|].
  pose proof (parse_item_Ok _ _ _ _ _ _ E) as (? & ? & ?).
  split. { intros i Hi. apply elem_of_cons in Hi as [->|Hi]; [by rewrite E|by apply Hall]. }
  intros n Hn. rewrite Hb by done. rewrite testbit_set_bits; [|
    apply Forall_forall; intros x Hx; apply step_range_spec in Hx; lia|done].
  rewrite step_range_spec by lia. unfold selected.
  split.
  - intros [[?|?]|(i & s' & e' & k' & ? & ? & ?)]; [by left|right|right].
    + exists item, s, e, k. set_solver.
    + exists i, s', e', k'. set_solver.
  - intros [?|(i & s' & e' & k' & Hi & Hi' & ?)]; [by left; left|].
    apply elem_of_cons in Hi as [->|Hi]; [rewrite E in Hi'; simplify_eq; by left; right|].
    right. by exists i, s', e', k'.
Qed.

Lemma parse_field_spec value lo hi :
  0 ≤ lo →
  match parse_field value lo hi with
  | Ok bits =>
      (∀ item, item ∈ split_on 44 value → is_ok (parse_item item lo hi) = true)
      ∧ ∀ n, 0 ≤ n → (contains bits n = true ↔ selected (split_on 44 value) lo hi n)
  | Err e =>
      e = InvalidSchedule
      ∧ ∃ item, item ∈ split_on 44 value ∧ parse_item item lo hi = Err InvalidSchedule
  end.
Proof.
  intros Hlo. unfold parse_field.
  destruct (parse_items_spec (split_on 44 value) lo hi 0 Hlo)
    as [(bits & Hp & Hall & Hb)|(Hp & Hx)]; rewrite Hp; cbn [mbind result_bind]; [|done].
  assert (Hsel : ∀ n, 0 ≤ n → contains bits n = true ↔ selected (split_on 44 value) lo hi n).
  { intros n Hn. rewrite contains_testbit, Hb, Z.bits_0 by done. naive_solver. }
  destruct (Z.eqb_spec bits 0) as [->|]; cbn [negb]; [exfalso|done].
  pose proof (split_by_not_nil (λ b, b =? 44) value) as Hne. unfold split_on in *.
  destruct (split_by _ value) as [|item l] eqn:El; [done|].
  specialize (Hall item ltac:(set_solver)).
  destruct (parse_item item lo hi) as [[[s e] k]|] eqn:E; [|done].
  pose proof (parse_item_Ok _ _ _ _ _ _ E) as (? & ? & ?).
  assert (contains 0 s = true); [|done].
  apply Hsel; [lia|]. exists item, s, e, k. split_and!; [set_solver|done|lia|lia|].
  by rewrite Z.sub_diag, Z.mod_0_l by lia.
Qed.

Section cron.
Context `{TimeApi}.

(** The instant [offset] minutes after the first candidate. *)
Definition candidate (next_minute offset : Z) : Z := next_minute + offset * 60.

(** Why a candidate stops the scan with [InvalidTime]: its instant is outside the
    calendar, or it matches and is outside the timestamps. *)
Definition unrepresentable (c : CompiledCrontab) (t : Z) : Prop :=
  from_unix_timestamp t = None
  ∨ ∃ v, from_unix_timestamp t = Some v ∧ cron_matches c v = true
         ∧ is_ok (from_unix_millis (t * 1000)) = false.

Definition matching (c : CompiledCrontab) (t : Z) : Prop :=
  ∃ v, from_unix_timestamp t = Some v ∧ cron_matches c v = true.
Definition passed_over (c : CompiledCrontab) (t : Z) : Prop :=
  ∃ v, from_unix_timestamp t = Some v ∧ cron_matches c v = false.

Lemma cron_scan_spec c next_minute fuel : ∀ offset,
  - 10 ^ 15 ≤ next_minute ≤ 10 ^ 15 → 0 ≤ offset → offset + Z.of_nat fuel ≤ 10 ^ 7 →
  match cron_scan c next_minute fuel offset with
  | Ok t => ∃ k, offset ≤ k < offset + Z.of_nat fuel ∧ t = candidate next_minute k * 1000
        ∧ matching c (candidate next_minute k) ∧ timestamp_valid t
        ∧ ∀ j, offset ≤ j < k → passed_over c (candidate next_minute j)
  | Err InvalidSchedule =>
      ∀ j, offset ≤ j < offset + Z.of_nat fuel → passed_over c (candidate next_minute j)
  | Err InvalidTime => ∃ k, offset ≤ k < offset + Z.of_nat fuel
        ∧ unrepresentable c (candidate next_minute k)
        ∧ ∀ j, offset ≤ j < k → passed_over c (candidate next_minute j)
  | Err _ => False
  end.
Proof.
  change (10 ^ 15) with 1000000000000000. change (10 ^ 7) with 10000000.
  induction fuel as [|fuel IH]; intros offset Hn Ho Hf; cbn [cron_scan]; [lia|].
  unfold checked_i64. rewrite checked_exact by (unfold I64_MIN, I64_MAX; lia).
  cbn [ok_or mbind result_bind].
  rewrite checked_exact by (unfold I64_MIN, I64_MAX; lia). cbn [ok_or mbind result_bind].
  change (next_minute + offset * 60) with (candidate next_minute offset).
  destruct (from_unix_timestamp (candidate next_minute offset)) as [v|] eqn:Ev;
    cbn [ok_or mbind result_bind].
  2:{ exists offset. split; [lia|]. split; [by left|lia]. }
  destruct (cron_matches c v) eqn:Em.
  - rewrite checked_exact by (unfold candidate, I64_MIN, I64_MAX; lia).
    cbn [ok_or mbind result_bind].
    destruct (from_unix_millis (candidate next_minute offset * 1000)) as [t|e] eqn:Et; cbn [map_err].
    + apply from_unix_millis_Ok in Et as [-> ?]. exists offset.
      split_and!; [lia|lia|done|by exists v|done|lia].
    + exists offset. split; [lia|]. split; [|lia]. right. exists v. by rewrite Et.
  - specialize (IH (offset + 1) Hn ltac:(lia) ltac:(lia)).
    assert (Hpass : passed_over c (candidate next_minute offset)) by by exists v.
    destruct (cron_scan c next_minute fuel (offset + 1)) as [t|[]]; try done.
    + destruct IH as (k & Hk & ? & ? & ? & Hj). exists k. split_and!; [lia|lia|done..|].
      intros j Hj'. destruct (decide (j = offset)) as [->|]; [done|apply Hj; lia].
    + intros j Hj'. destruct (decide (j = offset)) as [->|]; [done|apply IH; lia].
    + destruct IH as (k & Hk & ? & Hj). exists k. split_and!; [lia|lia|done|].
      intros j Hj'. destruct (decide (j = offset)) as [->|]; [done|apply Hj; lia].
Qed.

(** The window of the scan, in seconds: whole minutes after [after]. *)
Definition in_window (after s : Z) : Prop :=
  s mod 60 = 0 ∧ after < s * 1000 ∧ s * 1000 ≤ after + CRON_HORIZON * 60000.

Lemma minute_candidate after s :
  s mod 60 = 0 → after < s * 1000 →
  let next_minute := (after / 1000 / 60 + 1) * 60 in
  ∃ k, 0 ≤ k ∧ s = candidate next_minute k.
Proof.
  intros Hs Ha next_minute. subst next_minute. rewrite Z.div_div by lia.
  change (1000 * 60) with 60000. pose proof (Z.div_mod after 60000 ltac:(lia)).
  pose proof (Z.mod_pos_bound after 60000 ltac:(lia)).
  pose proof (Z.div_mod s 60 ltac:(lia)).
  exists (s / 60 - (after / 60000 + 1)). unfold candidate. lia.
Qed.

Lemma next_minute_bounds after :
  let next_minute := (after / 1000 / 60 + 1) * 60 in
  after < next_minute * 1000 ≤ after + 60000 ∧ next_minute mod 60 = 0.
Proof.
  cbv zeta. rewrite Z.div_div by lia. change (1000 * 60) with 60000.
  pose proof (Z.div_mod after 60000 ltac:(lia)).
  pose proof (Z.mod_pos_bound after 60000 ltac:(lia)).
  split; [lia|]. apply Z.mod_mul. lia.
Qed.

Lemma cron_next_after_spec c after :
  timestamp_valid after →
  match cron_next_after c after with
  | Ok t => ∃ s, t = s * 1000 ∧ s mod 60 = 0 ∧ after < t ∧ timestamp_valid t ∧ matching c s
        ∧ ∀ s', s' mod 60 = 0 → after < s' * 1000 → s' < s → passed_over c s'
  | Err InvalidSchedule => ∀ s, in_window after s → passed_over c s
  | Err InvalidTime => ∃ s, s mod 60 = 0 ∧ after < s * 1000 ∧ unrepresentable c s
        ∧ ∀ s', s' mod 60 = 0 → after < s' * 1000 → s' < s → passed_over c s'
  | Err _ => False
  end.
Proof.
  intros Ha. unfold in_window. pose proof (next_minute_bounds after) as [Hb Hm].
  pose proof (minute_candidate after) as Hc. cbv zeta in *. unfold cron_next_after.
  unfold timestamp_valid, MIN_TIMESTAMP_MILLIS, MAX_TIMESTAMP_MILLIS in Ha.
  assert (- 10 ^ 15 ≤ (after / 1000 / 60 + 1) * 60 ≤ 10 ^ 15).
  { change (10 ^ 15) with 1000000000000000. lia. }
  unfold checked_i64. rewrite checked_exact by (unfold I64_MIN, I64_MAX; lia).
  cbn [ok_or mbind result_bind].
  rewrite checked_exact by (unfold I64_MIN, I64_MAX; lia). cbn [ok_or mbind result_bind].
  set (next_minute := (after / 1000 / 60 + 1) * 60) in *.
  assert (Hk : ∀ k, 0 ≤ k → candidate next_minute k mod 60 = 0
                     ∧ after < candidate next_minute k * 1000).
  { intros k Hk. unfold candidate. rewrite Z.mod_add by lia. lia. }
  assert (Hf : ∃ fuel, fuel = Z.to_nat (CRON_HORIZON + 1)) by by eexists.
  destruct Hf as [fuel Hf]. rewrite <- Hf.
  assert (Hf' : Z.of_nat fuel = CRON_HORIZON + 1).
  { rewrite Hf. apply Z2Nat.id. unfold CRON_HORIZON. lia. }
  clear Hf. unfold CRON_HORIZON in *.
  pose proof (cron_scan_spec c next_minute fuel 0) as Hs.
  specialize (Hs ltac:(done) ltac:(lia)).
  rewrite Hf' in Hs. specialize (Hs ltac:(change (10 ^ 7) with 10000000; lia)).
  assert (Hj : ∀ k s', (∀ j, 0 ≤ j < k → passed_over c (candidate next_minute j)) →
    s' mod 60 = 0 → after < s' * 1000 → s' < candidate next_minute k → passed_over c s').
  { intros k s' Hj ?? Hlt. destruct (Hc s') as (j & ? & ->); [done..|]. apply Hj.
    unfold candidate in Hlt. lia. }
  destruct (cron_scan _ _ _ _) as [t|[]]; try done.
  - destruct Hs as (k & Hk0 & -> & ? & ? & Hpass). exists (candidate next_minute k).
    destruct (Hk k ltac:(lia)). split_and!; try done. intros. by eapply Hj.
  - intros s (Hs0 & Hs1 & Hs2). destruct (Hc s) as (j & ? & ->); [done..|]. apply Hs.
    unfold candidate in Hs2. lia.
  - destruct Hs as (k & Hk0 & ? & Hpass). exists (candidate next_minute k).
    destruct (Hk k ltac:(lia)). split_and!; try done. intros. by eapply Hj.
Qed.
End cron.

Lemma schedule_crontab_Ok e s :
  schedule_crontab e = Ok s →
  ∃ p0 p1 p2 p3 p4 c, split_ascii_whitespace e = [p0; p1; p2; p3; p4]
    ∧ s = Crontab (join (lit " ") [p0; p1; p2; p3; p4]) c ∧ len e ≤ MAX_MONITOR_SCHEDULE_BYTES.
Proof.
  unfold schedule_crontab. destruct (_ || _) eqn:E; [done|].
  destruct (split_ascii_whitespace e) as [|p0 [|p1 [|p2 [|p3 [|p4 [|]]]]]]; try done.
  intros H. repeat (apply bind_Ok in H as (? & _ & H)). simplify_eq H. intros <-.
  bool_prop. by eexists p0, p1, p2, p3, p4, _.
Qed.

(** The schedule is a function of the words only. *)
Lemma schedule_crontab_words e e' :
  split_ascii_whitespace e = split_ascii_whitespace e' →
  e ≠ [] → e' ≠ [] → len e ≤ MAX_MONITOR_SCHEDULE_BYTES → len e' ≤ MAX_MONITOR_SCHEDULE_BYTES →
  schedule_crontab e = schedule_crontab e'.
Proof.
  unfold schedule_crontab. intros Hw He He' Hl Hl'. rewrite Hw.
  destruct (is_empty e) eqn:E1; [by apply is_empty_true in E1|].
  destruct (is_empty e') eqn:E2; [by apply is_empty_true in E2|].
  destruct (Z.ltb_spec MAX_MONITOR_SCHEDULE_BYTES (len e)); [lia|].
  destruct (Z.ltb_spec MAX_MONITOR_SCHEDULE_BYTES (len e')); [lia|]. done.
Qed.

(** The names of the validated headers are new and different, each header is
    valid, and the total is exact. *)
Definition header_bytes (h : UptimeHeader) : Z := len (h_name h) + len (h_value h).

Lemma headers_total_Ok headers : ∀ names total total',
  headers_total names total headers = Ok total' →
  NoDup (map h_name headers)
  ∧ (∀ h, h ∈ headers → header_validate h = Ok tt ∧ (h_name h ∉ names))
  ∧ total' = total + foldr (λ h acc, header_bytes h + acc) 0 headers.
Proof.
  induction headers as [|h hs IH]; intros names total total' H; cbn [headers_total] in H.
  { injection H as <-. split_and!; [constructor|set_solver|cbn; lia]. }
  destruct (header_validate h) as [[]|] eqn:Ev; [|done].
  case_bool_decide as Hn; [done|].
  destruct (checked_u64 (total + _)) as [v|] eqn:E1; [|done].
  destruct (checked_u64 (v + _)) as [v'|] eqn:E2; [|done].
  apply checked_Some in E1 as [-> _]. apply checked_Some in E2 as [-> _].
  apply IH in H as (Hnd & Hall & ->). split_and!.
  - cbn [map]. constructor; [|done]. intros Hin. apply list_elem_of_fmap in Hin as (x & E & Hx).
    apply Hall in Hx as [_ Hx]. set_solver.
  - intros x Hx. apply elem_of_cons in Hx as [->|Hx]; [done|].
    apply Hall in Hx. set_solver.
  - cbn [foldr]. unfold header_bytes. lia.
Qed.

(** A calendar of January 1970 only: a concrete instance of the parameter. *)
Definition january_1970 : TimeApi := λ s,
  let day := s / 86400 in
  if in_range 0 30 day then
    Some {| dt_weekday := match (day + 4) mod 7 with
                          | 0 => Sunday | 1 => Monday | 2 => Tuesday | 3 => Wednesday
                          | 4 => Thursday | 5 => Friday | _ => Saturday end;
            dt_month := 1; dt_day := day + 1;
            dt_hour := s mod 86400 / 3600; dt_minute := s mod 3600 / 60 |}
  else None.

(** ** Theorems *)

(** A cron field is accepted exactly when every comma-separated item is
    well formed, and then a number is in the compiled bit set iff one of the
    items selects it: it lies in the item's range at a multiple of its step
    from the start.  The only error is [InvalidSchedule]. *)
Theorem parse_field_selects value lo hi :
  0 ≤ lo →
  match parse_field value lo hi with
  | Ok bits =>
      (∀ item, item ∈ split_on 44 value → is_ok (parse_item item lo hi) = true)
      ∧ ∀ n, 0 ≤ n → (contains bits n = true ↔ selected (split_on 44 value) lo hi n)
  | Err e =>
      e = InvalidSchedule
      ∧ ∃ item, item ∈ split_on 44 value ∧ parse_item item lo hi = Err InvalidSchedule
  end.
Proof. apply parse_field_spec. Qed.

Lemma parse_field_selects_witness :
  0 ≤ 1 ∧ parse_field (lit "1-9/4,20") 1 31 = Ok (2 ^ 1 + 2 ^ 5 + 2 ^ 9 + 2 ^ 20)
  ∧ ∀ n, 0 ≤ n → (contains (2 ^ 1 + 2 ^ 5 + 2 ^ 9 + 2 ^ 20) n = true
                   ↔ selected (split_on 44 (lit "1-9/4,20")) 1 31 n).
Proof.
  pose proof (parse_field_selects (lit "1-9/4,20") 1 31 ltac:(lia)) as H.
  change (parse_field (lit "1-9/4,20") 1 31) with (@Ok MonitorValueError Z 1049122) in H.
  split; [lia|]. split; [reflexivity|]. exact (proj2 H).
Defined.

(** C26. The next run of a crontab is strictly later than the instant it is
    asked for, on a whole minute, matches the schedule, and no earlier minute
    matches.  [InvalidSchedule] means no minute of the two-year window
    matches; [InvalidTime] means the calendar or the timestamps end before a
    match.  No other error occurs and the scan always terminates. *)
Theorem cron_next_after_earliest `{TimeApi} c after :
  timestamp_valid after →
  match cron_next_after c after with
  | Ok t => ∃ s, t = s * 1000 ∧ s mod 60 = 0 ∧ after < t ∧ timestamp_valid t ∧ matching c s
        ∧ ∀ s', s' mod 60 = 0 → after < s' * 1000 → s' < s → passed_over c s'
  | Err InvalidSchedule => ∀ s, in_window after s → passed_over c s
  | Err InvalidTime => ∃ s, s mod 60 = 0 ∧ after < s * 1000 ∧ unrepresentable c s
        ∧ ∀ s', s' mod 60 = 0 → after < s' * 1000 → s' < s → passed_over c s'
  | Err _ => False
  end.
Proof. apply cron_next_after_spec. Qed.

(** "30 4 1 * 0" read at the epoch, a Thursday: half past four on the first. *)
Definition sample_crontab : CompiledCrontab :=
  {| c_minute := 2 ^ 30; c_hour := 2 ^ 4; c_day := 2 ^ 1; c_month := 8190; c_weekday := 1;
     c_day_wildcard := false; c_weekday_wildcard := false |}.

Lemma cron_next_after_earliest_witness :
  timestamp_valid 59999
  ∧ @cron_next_after january_1970 sample_crontab 59999 = Ok 16200000
  ∧ ∃ s, 16200000 = s * 1000 ∧ s mod 60 = 0 ∧ 59999 < 16200000 ∧ timestamp_valid 16200000
        ∧ @matching january_1970 sample_crontab s
        ∧ ∀ s', s' mod 60 = 0 → 59999 < s' * 1000 → s' < s →
            @passed_over january_1970 sample_crontab s'.
Proof.
  assert (Hv : timestamp_valid 59999).
  { unfold timestamp_valid, MIN_TIMESTAMP_MILLIS, MAX_TIMESTAMP_MILLIS. lia. }
  assert (E : @cron_next_after january_1970 sample_crontab 59999 = Ok 16200000)
    by (vm_compute; reflexivity).
  split; [exact Hv|]. split; [exact E|].
  pose proof (@cron_next_after_earliest january_1970 sample_crontab 59999 Hv) as H.
  rewrite E in H. exact H.
Defined.

(** The stored text of an accepted crontab (its words joined by single
    blanks) is accepted again and compiles to the same schedule. *)
Theorem crontab_value_reparses e s :
  schedule_crontab e = Ok s → schedule_crontab (schedule_value s) = Ok s.
Proof.
  intros H. pose proof (schedule_crontab_Ok _ _ H) as (p0 & p1 & p2 & p3 & p4 & c & Hw & -> & Hl).
  cbn [schedule_value]. rewrite <- H, <- Hw. change (lit " ") with [32].
  assert (Hne : split_ascii_whitespace e ≠ []) by by rewrite Hw.
  apply schedule_crontab_words.
  - by apply split_ascii_whitespace_join.
  - intros E. apply (f_equal split_ascii_whitespace) in E.
    rewrite split_ascii_whitespace_join in E by done. by rewrite Hw in E.
  - intros ->. by cbn in Hw.
  - pose proof (length_join_words 32 e). unfold len in *. lia.
  - done.
Qed.

Lemma crontab_value_reparses_witness :
  ∃ s, schedule_crontab (lit " */15  0 1,15 *	1-5 ") = Ok s
    ∧ schedule_value s = lit "*/15 0 1,15 * 1-5" ∧ schedule_crontab (schedule_value s) = Ok s.
Proof.
  eexists. split; [vm_compute; reflexivity|]. split; [reflexivity|].
  apply (crontab_value_reparses (lit " */15  0 1,15 *	1-5 ")). vm_compute. reflexivity.
Defined.

(** A validated uptime configuration has at most sixteen headers with
    different names, none forbidden and each marked sensitive exactly when its
    name is, a bounded byte total, and status, timeout and redirect limits in
    range. *)
Theorem uptime_config_validated c :
  uptime_config_validate c = Ok tt →
  len (u_headers c) ≤ MAX_UPTIME_HEADERS
  ∧ NoDup (map h_name (u_headers c))
  ∧ (∀ h, h ∈ u_headers c → forbidden_uptime_header (h_name h) = false
       ∧ h_sensitive h = sensitive_uptime_header (h_name h) ∧ h_name h ≠ [])
  ∧ foldr (λ h acc, header_bytes h + acc) 0 (u_headers c)
      ≤ MAX_UPTIME_HEADERS_BYTES + len (u_headers c) * 64
  ∧ 100 ≤ u_expected_status_min c ≤ u_expected_status_max c ∧ u_expected_status_max c ≤ 599
  ∧ 1 ≤ u_timeout_seconds c ≤ MAX_UPTIME_TIMEOUT_SECONDS
  ∧ u_max_redirects c ≤ MAX_UPTIME_REDIRECTS.
Proof.
  unfold uptime_config_validate. destruct (_ || _) eqn:E; [done|]. intros H.
  apply bind_Ok in H as (total & Ht & H).
  destruct (Z.ltb_spec (MAX_UPTIME_HEADERS_BYTES + len (u_headers c) * 64) total); [done|].
  apply headers_total_Ok in Ht as (Hnd & Hall & ->).
  bool_prop. split_and!; try done; try lia.
  intros h Hh. apply Hall in Hh as [Hv _]. unfold header_validate in Hv.
  destruct (_ || _) eqn:Eh in Hv; [done|]. bool_prop. split_and!; [done| |].
  - by apply eqb_prop.
  - intros En. by rewrite En in *.
Qed.

Definition sample_uptime : UptimeMonitorConfig :=
  {| u_endpoint := lit "https://example.com/health"; u_method := Get;
     u_expected_status_min := 200; u_expected_status_max := 399; u_timeout_seconds := 10;
     u_max_redirects := 3;
     u_headers := [ {| h_name := lit "x-service-token"; h_value := [1; 2]; h_sensitive := true |};
                    {| h_name := lit "accept"; h_value := [3]; h_sensitive := false |} ] |}.

Lemma uptime_config_validated_witness :
  uptime_config_validate sample_uptime = Ok tt
  ∧ NoDup (map h_name (u_headers sample_uptime)).
Proof.
  assert (H : uptime_config_validate sample_uptime = Ok tt) by (vm_compute; reflexivity).
  split; [exact H|]. exact (proj1 (proj2 (uptime_config_validated _ H))).
Defined.
