(* ===== verification/Sessions.v ===== *)
(** * Application sessions and release health

    [domain/src/sessions.rs]: the session state lattice, the merge of a session
    update into the stored record, and the fixed-size sketch of distinct
    users. *)
From stdpp Require Import base list numbers strings sets gmap.
From Stdlib Require Import ZArith Lia.
From S2P Require Import Prelude Primitives.

Definition USER_SKETCH_BYTES : nat := 128%nat.

Inductive SessionState := SOk | SExited | SCrashed | SAbnormal.
#[export] Instance SessionState_eq_dec : EqDecision SessionState.
Proof. solve_decision. Defined.

Inductive SessionValueError := SInvalidIdentity | SInvalidTime | SInvalidState | SConflict.

Definition state_code (s : SessionState) : Z :=
  match s with SOk => 0 | SExited => 1 | SCrashed => 2 | SAbnormal => 3 end.
Definition state_from_code (code : Z) : result SessionValueError SessionState :=
  match code with
  | 0 => Ok SOk | 1 => Ok SExited | 2 => Ok SCrashed | 3 => Ok SAbnormal
  | _ => Err SInvalidState
  end.
Definition state_is_terminal (s : SessionState) : bool :=
  match s with SOk => false | _ => true end.
Definition precedence (s : SessionState) : Z :=
  match s with SOk => 0 | SExited => 1 | SAbnormal => 2 | SCrashed => 3 end.

Record SessionUpdate := {
  su_id : bytes;
  su_project_id : ProjectId;
  su_release_id : bytes;
  su_environment_id : bytes;
  su_started_at : Timestamp;
  su_updated_at : Timestamp;
  su_state : SessionState;
  su_sequence : option Z;
  su_duration_ms : option Z;
  su_user_digest : option bytes;
}.

Record SessionRecord := {
  sr_id : bytes;
  sr_project_id : ProjectId;
  sr_release_id : bytes;
  sr_environment_id : bytes;
  sr_started_at : Timestamp;
  sr_last_update : Timestamp;
  sr_state : SessionState;
  sr_sequence : option Z;
  sr_finished_at : option Timestamp;
  sr_duration_ms : option Z;
  sr_user_digest : option bytes;
}.
#[export] Instance SessionRecord_eq_dec : EqDecision SessionRecord.
Proof. solve_decision. Defined.

Definition session_update_validate (u : SessionUpdate) : result SessionValueError unit :=
  if (su_updated_at u <? su_started_at u)
     || is_some_and (λ value, I64_MAX <? value) (su_duration_ms u)
  then Err SInvalidTime else Ok tt.

(** [finished_at.and(duration)]. *)
Definition option_and {A B} (x : option A) (y : option B) : option B :=
  match x with Some _ => y | None => None end.
(** [cond.then_some(x)]. *)
Definition then_some {A} (b : bool) (x : A) : option A := if b then Some x else None.

Definition record_from_update (u : SessionUpdate) : result SessionValueError SessionRecord :=
  _ ← session_update_validate u;
  let finished_at := then_some (state_is_terminal (su_state u)) (su_updated_at u) in
  Ok {| sr_id := su_id u; sr_project_id := su_project_id u;
        sr_release_id := su_release_id u; sr_environment_id := su_environment_id u;
        sr_started_at := su_started_at u; sr_last_update := su_updated_at u;
        sr_state := su_state u; sr_sequence := su_sequence u;
        sr_finished_at := finished_at;
        sr_duration_ms := option_and finished_at (su_duration_ms u);
        sr_user_digest := su_user_digest u |}.

(** The conflict test of [merge]. *)
Definition conflicts (r : SessionRecord) (u : SessionUpdate) : bool :=
  negb (bool_decide (sr_id r = su_id u))
  || negb (sr_project_id r =? su_project_id u)
  || negb (bool_decide (sr_release_id r = su_release_id u))
  || negb (bool_decide (sr_environment_id r = su_environment_id u))
  || match sr_user_digest r, su_user_digest u with
     | Some l, Some i => negb (bool_decide (l = i))
     | _, _ => false
     end.

(** [stronger || same_newer]: the update decides the outcome. *)
Definition takes_outcome (r : SessionRecord) (u : SessionUpdate) : bool :=
  let existing_sequence := unwrap_or 0 (sr_sequence r) in
  let incoming_sequence := unwrap_or 0 (su_sequence u) in
  let stronger := precedence (sr_state r) <? precedence (su_state u) in
  let same_newer :=
    bool_decide (su_state u = sr_state r)
    && ((existing_sequence <? incoming_sequence)
        || ((incoming_sequence =? existing_sequence)
            && (unwrap_or (sr_last_update r) (sr_finished_at r) <? su_updated_at u))) in
  stronger || same_newer.

Definition merge_sequence (x y : option Z) : option Z :=
  match x, y with
  | Some l, Some i => Some (Z.max l i)
  | _, _ => option_or x y
  end.

(** The record [merge] leaves behind. *)
Definition merged (r : SessionRecord) (u : SessionUpdate) : SessionRecord :=
  let takes := takes_outcome r u in
  let finished_at := then_some (state_is_terminal (su_state u)) (su_updated_at u) in
  {| sr_id := sr_id r; sr_project_id := sr_project_id r;
     sr_release_id := sr_release_id r; sr_environment_id := sr_environment_id r;
     sr_started_at := Z.min (sr_started_at r) (su_started_at u);
     sr_last_update := Z.max (sr_last_update r) (su_updated_at u);
     sr_state := if takes then su_state u else sr_state r;
     sr_sequence := merge_sequence (sr_sequence r) (su_sequence u);
     sr_finished_at := if takes then finished_at else sr_finished_at r;
     sr_duration_ms :=
       if takes then option_and finished_at (su_duration_ms u) else sr_duration_ms r;
     sr_user_digest := option_or (sr_user_digest r) (su_user_digest u) |}.

(** [merge]: the new record and whether it changed. *)
Definition session_merge (r : SessionRecord) (u : SessionUpdate)
    : result SessionValueError (SessionRecord * bool) :=
  _ ← session_update_validate u;
  if conflicts r u then Err SConflict
  else let r' := merged r u in Ok (r', negb (bool_decide (r' = r))).

(** ** User sketches *)

(** The bytes of a [UserSketch]. *)
Abbreviation UserSketch := (list Z).

Definition sketch_default : UserSketch := replicate USER_SKETCH_BYTES 0.

(** [u16::from_be_bytes([digest[0], digest[1]]) % 1024]. *)
Definition sketch_index (digest : bytes) : nat :=
  Z.to_nat (be_val (take 2 digest) mod (Z.of_nat USER_SKETCH_BYTES * 8)).

Definition sketch_insert (s : UserSketch) (digest : bytes) : UserSketch :=
  let index := sketch_index digest in
  alter (λ byte, Z.lor byte (Z.shiftl 1 (Z.of_nat (index mod 8)))) (index / 8)%nat s.

Definition sketch_merge (s other : UserSketch) : UserSketch := zip_with Z.lor s other.

(** Bit [i] of the sketch. *)
Definition sketch_bit (s : UserSketch) (i : nat) : bool :=
  match s !! (i / 8)%nat with
  | Some byte => Z.testbit byte (Z.of_nat (i mod 8))
  | None => false
  end.

#[global] Arguments sketch_insert : simpl never.
#[global] Arguments sketch_bit : simpl never.

(** ** Lemmas *)

Lemma precedence_inj s t : precedence s = precedence t → s = t.
Proof. by destruct s, t. Qed.

Lemma session_merge_Ok r u r' b :
  session_merge r u = Ok (r', b) ↔
  session_update_validate u = Ok tt ∧ conflicts r u = false ∧ r' = merged r u
  ∧ b = negb (bool_decide (merged r u = r)).
Proof.
  unfold session_merge. destruct (session_update_validate u) as [[]|]; cbn [mbind result_bind];
    [|naive_solver].
  destruct (conflicts r u); naive_solver.
Qed.

(** What taking the outcome means in numbers. *)
Lemma takes_outcome_true r u :
  takes_outcome r u = true ↔
  precedence (sr_state r) < precedence (su_state u)
  ∨ su_state u = sr_state r
    ∧ (unwrap_or 0 (sr_sequence r) < unwrap_or 0 (su_sequence u)
       ∨ unwrap_or 0 (su_sequence u) = unwrap_or 0 (sr_sequence r)
         ∧ unwrap_or (sr_last_update r) (sr_finished_at r) < su_updated_at u).
Proof.
  unfold takes_outcome.
  rewrite orb_true_iff, andb_true_iff, orb_true_iff, andb_true_iff, !Z.ltb_lt, Z.eqb_eq,
    bool_decide_eq_true. done.
Qed.

Lemma takes_outcome_precedence r u :
  precedence (sr_state (merged r u)) = Z.max (precedence (sr_state r)) (precedence (su_state u)).
Proof.
  cbn. destruct (takes_outcome r u) eqn:E.
  - apply takes_outcome_true in E as [?|[-> _]]; lia.
  - assert (¬ precedence (sr_state r) < precedence (su_state u)); [|lia].
    intros Hlt. assert (takes_outcome r u = true) as E'; [|congruence].
    apply takes_outcome_true. by left.
Qed.

Lemma unwrap_merge_sequence x y :
  (∀ a, x = Some a → 0 ≤ a) → (∀ a, y = Some a → 0 ≤ a) →
  unwrap_or 0 (merge_sequence x y) = Z.max (unwrap_or 0 x) (unwrap_or 0 y).
Proof.
  intros Hx Hy. destruct x as [a|], y as [b|]; cbn;
    try specialize (Hx _ eq_refl); try specialize (Hy _ eq_refl); lia.
Qed.

(** A second delivery never takes the outcome again. *)
Lemma takes_outcome_again r u :
  (∀ a, su_sequence u = Some a → 0 ≤ a) → (∀ a, sr_sequence r = Some a → 0 ≤ a) →
  takes_outcome (merged r u) u = false.
Proof.
  intros Hu Hr. destruct (takes_outcome (merged r u) u) eqn:E; [exfalso|done].
  apply takes_outcome_true in E. rewrite takes_outcome_precedence in E.
  destruct E as [?|[Hs E]]; [lia|].
  change (sr_sequence (merged r u)) with (merge_sequence (sr_sequence r) (su_sequence u)) in E.
  rewrite unwrap_merge_sequence in E by done.
  destruct E as [?|[Heq Ht]]; [lia|]. cbn in Hs, Ht.
  destruct (takes_outcome r u) eqn:E1.
  - destruct (state_is_terminal (su_state u)); cbn in Ht; lia.
  - assert (takes_outcome r u = true) as E'; [|congruence].
    apply takes_outcome_true. right. split; [done|].
    destruct (decide (unwrap_or 0 (sr_sequence r) < unwrap_or 0 (su_sequence u))); [by left|].
    right. split; [lia|]. destruct (sr_finished_at r); cbn in *; lia.
Qed.

Lemma merge_sequence_idem x y : merge_sequence (merge_sequence x y) y = merge_sequence x y.
Proof. destruct x, y; cbn; f_equal; lia. Qed.

Lemma conflicts_false r u :
  conflicts r u = false ↔
  sr_id r = su_id u ∧ sr_project_id r = su_project_id u ∧ sr_release_id r = su_release_id u
  ∧ sr_environment_id r = su_environment_id u
  ∧ ∀ a b, sr_user_digest r = Some a → su_user_digest u = Some b → a = b.
Proof.
  unfold conflicts. rewrite !orb_false_iff, !negb_false_iff, Z.eqb_eq, !bool_decide_eq_true.
  destruct (sr_user_digest r), (su_user_digest u);
    rewrite ?negb_false_iff, ?bool_decide_eq_true; naive_solver.
Qed.

Lemma sketch_bit_insert s digest i :
  length s = USER_SKETCH_BYTES →
  sketch_bit (sketch_insert s digest) i = sketch_bit s i || (i =? sketch_index digest)%nat.
Proof.
  intros Hl. unfold sketch_bit, sketch_insert.
  set (k := sketch_index digest).
  assert (Hk : (k < 1024)%nat).
  { unfold k, sketch_index.
    pose proof (Z.mod_pos_bound (be_val (take 2 digest)) 1024 ltac:(lia)).
    change (Z.of_nat USER_SKETCH_BYTES * 8) with 1024. lia. }
  pose proof (Nat.div_mod_eq i 8). pose proof (Nat.div_mod_eq k 8).
  destruct (decide ((i / 8) = (k / 8))%nat) as [E|E].
  - rewrite E, list_lookup_alter_eq.
    destruct (s !! (k / 8)%nat) as [byte|] eqn:Eb; cbn [fmap option_fmap option_map].
    + rewrite Z.lor_spec, Z.shiftl_1_l, Z.pow2_bits_eqb by lia. f_equal.
      destruct (Nat.eqb_spec i k) as [->|Hne]; [apply Z.eqb_refl|].
      apply Z.eqb_neq. lia.
    + apply lookup_ge_None in Eb. rewrite Hl in Eb. unfold USER_SKETCH_BYTES in Eb.
      pose proof (Nat.Div0.div_lt_upper_bound k 8 128 ltac:(lia)). lia.
  - rewrite list_lookup_alter_ne by done.
    destruct (Nat.eqb_spec i k) as [->|Hne]; [done|]. by rewrite orb_false_r.
Qed.

Lemma length_sketch_insert s digest : length (sketch_insert s digest) = length s.
Proof. apply length_alter. Qed.

Lemma length_sketch_inserts l : ∀ s, length (foldl sketch_insert s l) = length s.
Proof. induction l; intros s; cbn; [done|]. by rewrite IHl, length_sketch_insert. Qed.

Lemma sketch_bit_inserts l : ∀ s i,
  length s = USER_SKETCH_BYTES →
  sketch_bit (foldl sketch_insert s l) i
  = sketch_bit s i || existsb (λ d, (i =? sketch_index d)%nat) l.
Proof.
  induction l as [|d l IH]; intros s i Hl; cbn; [by rewrite orb_false_r|].
  rewrite IH by by rewrite length_sketch_insert.
  by rewrite sketch_bit_insert, orb_assoc by done.
Qed.

Lemma sketch_bit_merge s t i :
  length s = length t → sketch_bit (sketch_merge s t) i = sketch_bit s i || sketch_bit t i.
Proof.
  intros Hl. unfold sketch_bit, sketch_merge. rewrite lookup_zip_with.
  destruct (s !! (i / 8)%nat) as [a|] eqn:Ea, (t !! (i / 8)%nat) as [b|] eqn:Eb; cbn.
  - apply Z.lor_spec.
  - apply lookup_lt_Some in Ea. apply lookup_ge_None in Eb. lia.
  - apply lookup_lt_Some in Eb. apply lookup_ge_None in Ea. lia.
  - done.
Qed.

Lemma sketch_bit_default i : sketch_bit sketch_default i = false.
Proof.
  unfold sketch_bit, sketch_default.
  destruct (decide ((i / 8) < USER_SKETCH_BYTES)%nat).
  - rewrite lookup_replicate_2 by done. apply Z.bits_0.
  - rewrite lookup_ge_None_2; [done|]. rewrite length_replicate. lia.
Qed.

Lemma merge_sequence_comm3 r x y :
  merge_sequence (merge_sequence r x) y = merge_sequence (merge_sequence r y) x.
Proof. destruct r, x, y; cbn; f_equal; lia. Qed.

(** Sequence numbers are unsigned. *)
Definition sequence_valid (s : option Z) : Prop := ∀ a, s = Some a → 0 ≤ a.

Definition sample_update (state : SessionState) (sequence updated_at : Z) : SessionUpdate :=
  {| su_id := [1]; su_project_id := 7; su_release_id := [2]; su_environment_id := [3];
     su_started_at := 100; su_updated_at := updated_at; su_state := state;
     su_sequence := Some sequence; su_duration_ms := None; su_user_digest := None |}.

Definition sample_record : SessionRecord :=
  {| sr_id := [1]; sr_project_id := 7; sr_release_id := [2]; sr_environment_id := [3];
     sr_started_at := 100; sr_last_update := 200; sr_state := SExited; sr_sequence := Some 1;
     sr_finished_at := Some 200; sr_duration_ms := None; sr_user_digest := None |}.

(** ** Theorems *)

(** A successful merge keeps the identity of the session, never moves its
    start later or its last update earlier, gives it the stronger of the two
    states and the greater sequence, never forgets a user, and its flag says
    exactly whether the record changed. *)
Theorem session_merge_monotone r u r' changed :
  session_merge r u = Ok (r', changed) →
  (sr_id r', sr_project_id r', sr_release_id r', sr_environment_id r')
    = (sr_id r, sr_project_id r, sr_release_id r, sr_environment_id r)
  ∧ sr_started_at r' = Z.min (sr_started_at r) (su_started_at u)
  ∧ sr_last_update r' = Z.max (sr_last_update r) (su_updated_at u)
  ∧ precedence (sr_state r') = Z.max (precedence (sr_state r)) (precedence (su_state u))
  ∧ (∀ a, sr_sequence r = Some a ∨ su_sequence u = Some a →
       ∃ b, sr_sequence r' = Some b ∧ a ≤ b)
  ∧ (∀ d, sr_user_digest r = Some d ∨ su_user_digest u = Some d → sr_user_digest r' = Some d)
  ∧ (changed = true ↔ r' ≠ r).
Proof.
  intros H. apply session_merge_Ok in H as (_ & Hc & -> & ->).
  split_and!; try done.
  - apply takes_outcome_precedence.
  - intros a Ha. cbn. destruct (sr_sequence r) as [x|], (su_sequence u) as [y|]; cbn;
      destruct Ha as [[= ->]|[= ->]]; eexists; split; (done || lia).
  - apply conflicts_false in Hc as (_ & _ & _ & _ & Hd). intros d Hd'. cbn.
    destruct (sr_user_digest r) as [x|], (su_user_digest u) as [y|]; cbn;
      destruct Hd' as [[= ->]|[= ->]]; try done. f_equal. by apply Hd.
  - rewrite negb_true_iff, bool_decide_eq_false. done.
Qed.

Lemma session_merge_monotone_witness :
  ∃ r', session_merge sample_record (sample_update SCrashed 2 300) = Ok (r', true)
    ∧ sr_last_update r' = 300 ∧ precedence (sr_state r') = 3.
Proof.
  eexists. assert (E : session_merge sample_record (sample_update SCrashed 2 300)
    = Ok (merged sample_record (sample_update SCrashed 2 300), true)) by reflexivity.
  split; [exact E|].
  pose proof (session_merge_monotone _ _ _ _ E) as (_ & _ & H & Hp & _).
  split; [exact H|exact Hp].
Defined.

(** C29. Delivering the same update again is accepted and changes nothing. *)
Theorem session_merge_idempotent r u r' changed :
  sequence_valid (su_sequence u) → sequence_valid (sr_sequence r) →
  session_merge r u = Ok (r', changed) →
  session_merge r' u = Ok (r', false).
Proof.
  intros Hu Hr H. apply session_merge_Ok in H as (Hv & Hc & -> & ->).
  assert (E : merged (merged r u) u = merged r u).
  { pose proof (takes_outcome_again r u Hu Hr) as Ht.
    unfold merged at 1. rewrite Ht. apply conflicts_false in Hc as (_ & _ & _ & _ & Hd).
    cbn. rewrite merge_sequence_idem. unfold merged. f_equal; try lia.
    destruct (sr_user_digest r), (su_user_digest u); done. }
  apply session_merge_Ok. rewrite E. split_and!; [done| |done|].
  - apply conflicts_false in Hc as (? & ? & ? & ? & Hd). apply conflicts_false.
    split_and!; try done. cbn. intros a b Ha Hb. rewrite Hb in Ha.
    destruct (sr_user_digest r); cbn in Ha; naive_solver.
  - rewrite bool_decide_eq_true_2; done.
Qed.

Lemma session_merge_idempotent_witness :
  ∃ r', session_merge sample_record (sample_update SExited 2 300) = Ok (r', true)
    ∧ session_merge r' (sample_update SExited 2 300) = Ok (r', false).
Proof.
  eexists. assert (E : session_merge sample_record (sample_update SExited 2 300)
    = Ok (merged sample_record (sample_update SExited 2 300), true)) by reflexivity.
  split; [exact E|].
  refine (session_merge_idempotent _ _ _ _ _ _ E); intros a [= <-]; lia.
Defined.

(** Two updates merged in either order leave the same start, last
    update, state, sequence and, when no user conflicts, the same user. *)
Theorem session_merge_core_commutes r u v r1 r2 r12 r21 b1 b2 b12 b21 :
  session_merge r u = Ok (r1, b1) → session_merge r1 v = Ok (r12, b12) →
  session_merge r v = Ok (r2, b2) → session_merge r2 u = Ok (r21, b21) →
  sr_started_at r12 = sr_started_at r21 ∧ sr_last_update r12 = sr_last_update r21
  ∧ sr_state r12 = sr_state r21 ∧ sr_sequence r12 = sr_sequence r21
  ∧ sr_user_digest r12 = sr_user_digest r21.
Proof.
  intros H1 H12 H2 H21. apply session_merge_Ok in H1 as (_ & Hc1 & -> & _).
  apply session_merge_Ok in H12 as (_ & Hc12 & -> & _).
  apply session_merge_Ok in H2 as (_ & Hc2 & -> & _).
  apply session_merge_Ok in H21 as (_ & Hc21 & -> & _).
  split_and!; [cbn; lia|cbn; lia| | |].
  - apply precedence_inj. rewrite !takes_outcome_precedence. lia.
  - apply merge_sequence_comm3.
  - apply conflicts_false in Hc1 as (_ & _ & _ & _ & Hd1).
    apply conflicts_false in Hc12 as (_ & _ & _ & _ & Hd12).
    cbn in *. destruct (sr_user_digest r), (su_user_digest u), (su_user_digest v); cbn in *;
      try done. f_equal. by apply Hd12.
Qed.

Lemma session_merge_core_commutes_witness :
  ∃ r12 r21,
    session_merge (merged sample_record (sample_update SOk 5 300))
      (sample_update SExited 3 400) = Ok (r12, true)
    ∧ session_merge (merged sample_record (sample_update SExited 3 400))
        (sample_update SOk 5 300) = Ok (r21, true)
    ∧ sr_state r12 = sr_state r21.
Proof.
  eexists. eexists.
  assert (E1 : session_merge sample_record (sample_update SOk 5 300)
    = Ok (merged sample_record (sample_update SOk 5 300), true)) by reflexivity.
  assert (E2 : session_merge sample_record (sample_update SExited 3 400)
    = Ok (merged sample_record (sample_update SExited 3 400), true)) by reflexivity.
  assert (E12 : session_merge (merged sample_record (sample_update SOk 5 300))
      (sample_update SExited 3 400) =
    Ok (merged (merged sample_record (sample_update SOk 5 300)) (sample_update SExited 3 400),
        true)) by reflexivity.
  assert (E21 : session_merge (merged sample_record (sample_update SExited 3 400))
      (sample_update SOk 5 300) =
    Ok (merged (merged sample_record (sample_update SExited 3 400)) (sample_update SOk 5 300),
        true)) by reflexivity.
  split; [exact E12|]. split; [exact E21|].
  exact (proj1 (proj2 (proj2 (session_merge_core_commutes _ _ _ _ _ _ _ _ _ _ _
    E1 E12 E2 E21)))).
Defined.

(** The finishing time does depend on the order: an open update with a
    higher sequence raises the stored sequence without taking the outcome, and
    then an exit update with a lower sequence is ignored, while in the other
    order it is applied. *)
Theorem session_merge_finish_depends_on_order :
  let u := sample_update SOk 5 300 in
  let v := sample_update SExited 3 400 in
  sr_finished_at (merged (merged sample_record u) v) = Some 200
  ∧ sr_finished_at (merged (merged sample_record v) u) = Some 400.
Proof. split; reflexivity. Qed.

(** Merging the sketches of two groups of users is the sketch of all of
    them, whatever the order or repetition: a bit is set iff some user of
    either group maps to it. *)
Theorem user_sketch_union l k i :
  let sketch := foldl sketch_insert sketch_default in
  sketch_bit (sketch_merge (sketch l) (sketch k)) i = sketch_bit (sketch (l ++ k)) i
  ∧ (sketch_bit (sketch (l ++ k)) i = true ↔ ∃ d, (d ∈ l ∨ d ∈ k) ∧ sketch_index d = i)
  ∧ length (sketch_merge (sketch l) (sketch k)) = USER_SKETCH_BYTES.
Proof.
  cbv zeta. assert (Hd : length sketch_default = USER_SKETCH_BYTES) by apply length_replicate.
  split_and!.
  - rewrite sketch_bit_merge by by rewrite !length_sketch_inserts.
    by rewrite !sketch_bit_inserts, sketch_bit_default, existsb_app by done.
  - rewrite sketch_bit_inserts, sketch_bit_default by done. cbn [orb].
    rewrite existsb_exists. split.
    + intros (d & Hin & E). apply Nat.eqb_eq in E. exists d.
      split; [|done]. apply list_elem_of_In in Hin. by apply elem_of_app in Hin.
    + intros (d & Hin & <-). exists d. rewrite Nat.eqb_refl. split; [|done].
      apply list_elem_of_In. by apply elem_of_app.
  - unfold sketch_merge. by rewrite length_zip_with, !length_sketch_inserts, Hd.
Qed.
