(* ===== verification/Event.v ===== *)
(** * Normalized events and symbolication results

    The data of [domain/src/event.rs] and [domain/src/symbolication.rs]: the
    wire-independent event a worker groups, and what symbolication derived for
    it.  A [BTreeMap] with text keys is its entries in key order. *)
From stdpp Require Import base list numbers strings.
From Stdlib Require Import ZArith Lia.
From S2P Require Import Prelude Primitives.

(** [CanonicalValue]: a number keeps its canonical spelling. *)
Inductive CanonicalValue :=
| VNull
| VBool (b : bool)
| VNumber (spelling : str)
| VString (s : str)
| VArray (items : list CanonicalValue)
| VObject (fields : list (str * CanonicalValue)).

(** [BTreeMap::get] on the entries. *)
Fixpoint map_get {A} (m : list (str * A)) (key : str) : option A :=
  match m with
  | [] => None
  | (k, v) :: m' => if bool_decide (k = key) then Some v else map_get m' key
  end.

Inductive EventPlatform :=
| POther | PJavaScript | PNode | PPython | PJava | PDotNet | PGo | PRust | PPhp | PRuby
| PCocoa | PNative | PDart | PCustom (value : str).

Definition platform_as_str (p : EventPlatform) : str :=
  match p with
  | POther => lit "other" | PJavaScript => lit "javascript" | PNode => lit "node"
  | PPython => lit "python" | PJava => lit "java" | PDotNet => lit "csharp"
  | PGo => lit "go" | PRust => lit "rust" | PPhp => lit "php" | PRuby => lit "ruby"
  | PCocoa => lit "cocoa" | PNative => lit "native" | PDart => lit "dart"
  | PCustom value => value
  end.

Inductive EventLevel := LDebug | LInfo | LWarning | LError | LFatal.
Definition level_as_str (l : EventLevel) : str :=
  lit match l with
  | LDebug => "debug" | LInfo => "info" | LWarning => "warning" | LError => "error"
  | LFatal => "fatal"
  end.

Record NormalizedFrame := {
  f_filename : option str;
  f_absolute_path : option str;
  f_function : option str;
  f_module : option str;
  f_package : option str;
  f_instruction_address : option str;
  f_symbol_address : option str;
  f_line : option Z;
  f_column : option Z;
  f_in_app : option bool;
  f_context_line : option str;
  f_pre_context : list str;
  f_post_context : list str;
  f_variables : list (str * CanonicalValue);
  f_unknown : list (str * CanonicalValue);
}.

Record NormalizedException := {
  x_ty : option str;
  x_value : option str;
  x_module : option str;
  x_thread_id : option str;
  x_mechanism : option CanonicalValue;
  x_stacktrace : list NormalizedFrame;
  x_raw_stacktrace : list NormalizedFrame;
  x_unknown : list (str * CanonicalValue);
}.

Record NormalizedTag := {
  t_key : str;
  t_value : str;
}.

Record NormalizedBreadcrumb := {
  b_timestamp : option Timestamp;
  b_ty : option str;
  b_category : option str;
  b_level : option EventLevel;
  b_message : option str;
  b_data : list (str * CanonicalValue);
  b_unknown : list (str * CanonicalValue);
}.

Record NormalizedEventBody := {
  e_occurred_at : Timestamp;
  e_platform : EventPlatform;
  e_level : EventLevel;
  e_logger : option str;
  e_message : option str;
  e_transaction : option str;
  e_release : option str;
  e_dist : option str;
  e_environment : option str;
  e_fingerprint : list str;
  e_exceptions : list NormalizedException;
  e_stacktrace : list NormalizedFrame;
  e_tags : list NormalizedTag;
  e_request : option CanonicalValue;
  e_user : option CanonicalValue;
  e_contexts : list (str * CanonicalValue);
  e_breadcrumbs : list NormalizedBreadcrumb;
  e_unknown : list (str * CanonicalValue);
}.

Inductive NormalizationDiagnosticCode :=
| DInvalidTimestamp | DInvalidFieldType | DInvalidLevel | DCollectionTruncated
| DStringTruncated | DDuplicateTag | DUnknownFieldsTruncated.
Definition diagnostic_as_str (c : NormalizationDiagnosticCode) : str :=
  lit match c with
  | DInvalidTimestamp => "invalid_timestamp"
  | DInvalidFieldType => "invalid_field_type"
  | DInvalidLevel => "invalid_level"
  | DCollectionTruncated => "collection_truncated"
  | DStringTruncated => "string_truncated"
  | DDuplicateTag => "duplicate_tag"
  | DUnknownFieldsTruncated => "unknown_fields_truncated"
  end.

Record NormalizationDiagnostic := {
  nd_code : NormalizationDiagnosticCode;
  nd_path : str;
}.

Record NormalizedEvent := {
  ne_project_id : ProjectId;
  ne_event_id : bytes;
  ne_received_at : Timestamp;
  ne_policy_revision : Z;
  ne_body : NormalizedEventBody;
  ne_diagnostics : list NormalizationDiagnostic;
}.

(** ** Symbolication *)

Inductive SymbolicationKind := SkNotRequired | SkNative | SkJavaScript.

Inductive RawTraceOrigin := OEvent | OException (index : Z) | OExceptionRaw (index : Z).
#[export] Instance RawTraceOrigin_eq_dec : EqDecision RawTraceOrigin.
Proof. solve_decision. Defined.

Record RawStacktrace := {
  rs_origin : RawTraceOrigin;
  rs_frames : list NormalizedFrame;
}.

Record SymbolicatedFrame := {
  sf_original_index : Z;
  sf_function : option str;
  sf_filename : option str;
  sf_module : option str;
  sf_line : option Z;
  sf_column : option Z;
  sf_context_line : option str;
  sf_pre_context : list str;
  sf_post_context : list str;
}.

Record SymbolicatedStacktrace := {
  ss_origin : RawTraceOrigin;
  ss_frames : list SymbolicatedFrame;
}.

Inductive SymbolicationStatus :=
| StNotRequired | StComplete | StPartial | StMissing | StMalformed | StTimeout
| StUnavailable | StCancelled.

Inductive SymbolicationDisposition := DContinue | DRetryable | DFinalizeRaw.

Inductive SymbolicationDiagnosticCode :=
| BackendPartial | MissingDebugFile | MalformedDebugFile | MalformedBackendResponse
| RequestLimitExceeded | BackendTimeout | BackendUnavailable | SCancelled
| BaselineBackendDisabled.

Record SymbolicationResult := {
  sy_kind : SymbolicationKind;
  sy_status : SymbolicationStatus;
  sy_disposition : SymbolicationDisposition;
  sy_raw : list RawStacktrace;
  sy_derived : list SymbolicatedStacktrace;
  sy_missing_debug_ids : list str;
  sy_diagnostics : list SymbolicationDiagnosticCode;
}.
