(* ===== verification/Normalizer.v ===== *)
(** * The event normalizer

    [application/src/normalizer.rs]: from the JSON of an accepted event to the
    bounded event the workers group, with its diagnostics, its limits on depth
    and nodes, and its timestamps.  The JSON decoder and its numbers are
    third-party code: the class [JsonApi].  A [Map] of serde_json is its entries
    in key order. *)
From stdpp Require Import base list numbers strings sets.
From Stdlib Require Import ZArith Lia SpecFloat Sorted.
From S2P Require Import Prelude Float Primitives Event.

Definition HARD_MAX_DEPTH : Z := 32.
Definition HARD_MAX_NODES : Z := 65536.
Definition HARD_MAX_COLLECTION : Z := 4096.
Definition HARD_MAX_DIAGNOSTICS : Z := 256.
Definition HARD_MAX_STRING_BYTES : Z := 1024 * 1024.
Definition MAX_RELEASE_BYTES : Z := 200.
Definition MAX_DIST_BYTES : Z := 64.
Definition MAX_ENVIRONMENT_BYTES : Z := 64.
Definition MAX_PLATFORM_BYTES : Z := 64.
Definition MAX_LOGGER_BYTES : Z := 256.
Definition MAX_MESSAGE_BYTES : Z := 8 * 1024.
Definition MAX_FIELD_BYTES : Z := 2 * 1024.
Definition MAX_CONTEXT_LINE_BYTES : Z := 4 * 1024.
Definition MAX_TAG_KEY_BYTES : Z := 200.
Definition MAX_TAG_VALUE_BYTES : Z := 200.

Record NormalizerLimits := {
  nl_max_depth : Z;
  nl_max_nodes : Z;
  nl_max_diagnostics : Z;
  nl_max_exceptions : Z;
  nl_max_frames : Z;
  nl_max_tags : Z;
  nl_max_breadcrumbs : Z;
  nl_max_fingerprint : Z;
  nl_max_unknown_fields : Z;
  nl_max_object_fields : Z;
  nl_max_array_items : Z;
  nl_max_string_bytes : Z;
}.
Definition limits_default : NormalizerLimits :=
  {| nl_max_depth := 16; nl_max_nodes := 16384; nl_max_diagnostics := 64;
     nl_max_exceptions := 64; nl_max_frames := 512; nl_max_tags := 200;
     nl_max_breadcrumbs := 100; nl_max_fingerprint := 32; nl_max_unknown_fields := 128;
     nl_max_object_fields := 256; nl_max_array_items := 512;
     nl_max_string_bytes := 16 * 1024 |}.

(** [NormalizerLimits::validate]: [values[3..11]] are the collections. *)
Definition limits_validate (l : NormalizerLimits) : bool :=
  let values := [nl_max_depth l; nl_max_nodes l; nl_max_diagnostics l; nl_max_exceptions l;
                 nl_max_frames l; nl_max_tags l; nl_max_breadcrumbs l; nl_max_fingerprint l;
                 nl_max_unknown_fields l; nl_max_object_fields l; nl_max_array_items l;
                 nl_max_string_bytes l] in
  negb (existsb (Z.eqb 0) values
        || (HARD_MAX_DEPTH <? nl_max_depth l)
        || (HARD_MAX_NODES <? nl_max_nodes l)
        || (HARD_MAX_DIAGNOSTICS <? nl_max_diagnostics l)
        || existsb (λ v, HARD_MAX_COLLECTION <? v) (take 8 (drop 3 values))
        || (HARD_MAX_STRING_BYTES <? nl_max_string_bytes l)).

Inductive NormalizationError :=
| NInvalidJson | NInvalidRoot | NTooComplex | NIdentityFieldTooLarge.

(** ** JSON values *)

Inductive JValue (N : Type) : Type :=
| JNull
| JBool (b : bool)
| JNumber (n : N)
| JString (s : str)
| JArray (items : list (JValue N))
| JObject (fields : list (str * JValue N)).
Arguments JNull {N}.
Arguments JBool {N} b.
Arguments JNumber {N} n.
Arguments JString {N} s.
Arguments JArray {N} items.
Arguments JObject {N} fields.

Class JsonApi (N : Type) := {
  json_from_slice : bytes → option (JValue N);
  number_to_string : N → str;
  number_as_f64 : N → option f64;
  number_as_u64 : N → option Z;
}.

(** ** Timestamps *)

Definition byte_at (s : str) (i : nat) (p : Z → bool) : bool := is_some_and p (s !! i).

(** [parse_digits]: the bytes at [start] are ASCII digits, so the slice is on
    character boundaries. *)
Definition parse_digits (value : str) (start length_ : nat) : result PrimitiveError Z :=
  let digits := take length_ (drop start value) in
  if (length digits =? length_)%nat && forallb is_ascii_digit digits
  then ok_or PTimestampOutOfRange (parse_unsigned 10 U32_MAX digits)
  else Err PTimestampOutOfRange.

Definition leap_year (year : Z) : bool :=
  (Z.rem year 4 =? 0) && (negb (Z.rem year 100 =? 0) || (Z.rem year 400 =? 0)).
Definition days_in_month (year month : Z) : Z :=
  if (month =? 4) || (month =? 6) || (month =? 9) || (month =? 11) then 30
  else if month =? 2 then if leap_year year then 29 else 28
  else 31.

(** The divisions of the source truncate. *)
Definition days_from_civil (year month day : Z) : Z :=
  let year := year - (if month <=? 2 then 1 else 0) in
  let era := Z.quot (if 0 <=? year then year else year - 399) 400 in
  let year_of_era := year - era * 400 in
  let day_of_year :=
    Z.quot (153 * (month + (if 2 <? month then -3 else 9)) + 2) 5 + day - 1 in
  let day_of_era :=
    year_of_era * 365 + Z.quot year_of_era 4 - Z.quot year_of_era 100 + day_of_year in
  era * 146097 + day_of_era - 719468.

(** The fraction of a second, in milliseconds, and the position after it. *)
Definition parse_fraction (value : str) (cursor : nat) : result PrimitiveError (Z * nat) :=
  if byte_at value cursor (Z.eqb 46) then
    let '(fraction, _) := span is_ascii_digit (drop (S cursor) value) in
    if is_empty fraction then Err PTimestampOutOfRange
    else
      let first_three := take 3 fraction in
      millis ← ok_or PTimestampOutOfRange (parse_i64 first_three);
      Ok (millis * 10 ^ (3 - len first_three), (S cursor + length fraction)%nat)
  else Ok (0, cursor).

Definition parse_offset (value : str) (cursor : nat) : result PrimitiveError Z :=
  if byte_at value cursor (λ b, (b =? 90) || (b =? 122)) && (S cursor =? length value)%nat
  then Ok 0
  else if byte_at value cursor (λ b, (b =? 43) || (b =? 45))
          && (cursor + 6 =? length value)%nat && byte_at value (cursor + 3) (Z.eqb 58)
  then
    hours ← parse_digits value (cursor + 1) 2;
    minutes ← parse_digits value (cursor + 4) 2;
    if (23 <? hours) || (59 <? minutes) then Err PTimestampOutOfRange
    else
      let offset := hours * 3600 + minutes * 60 in
      Ok (if byte_at value cursor (Z.eqb 45) then - offset else offset)
  else Err PTimestampOutOfRange.

Definition parse_rfc3339_millis (value : str) : result PrimitiveError Z :=
  if (length value <? 20)%nat
     || negb (byte_at value 4 (Z.eqb 45)) || negb (byte_at value 7 (Z.eqb 45))
     || negb (byte_at value 10 (λ b, (b =? 84) || (b =? 116) || (b =? 32)))
     || negb (byte_at value 13 (Z.eqb 58)) || negb (byte_at value 16 (Z.eqb 58))
  then Err PTimestampOutOfRange
  else
    year ← parse_digits value 0 4;
    month ← parse_digits value 5 2;
    day ← parse_digits value 8 2;
    hour ← parse_digits value 11 2;
    minute ← parse_digits value 14 2;
    second ← parse_digits value 17 2;
    if negb (in_range 1 12 month) || (day =? 0) || (days_in_month year month <? day)
       || (23 <? hour) || (59 <? minute) || (59 <? second)
    then Err PTimestampOutOfRange
    else
      '(millis, cursor) ← parse_fraction value 19;
      offset ← parse_offset value cursor;
      days ← ok_or PTimestampOutOfRange (checked_i64 (days_from_civil year month day * 86400));
      seconds ← ok_or PTimestampOutOfRange
        (checked_i64 (days + (hour * 3600 + minute * 60 + second)));
      seconds ← ok_or PTimestampOutOfRange (checked_i64 (seconds - offset));
      total ← ok_or PTimestampOutOfRange (checked_i64 (seconds * 1000));
      ok_or PTimestampOutOfRange (checked_i64 (total + millis)).

(** [BTreeMap<String, _>::insert]: the entries stay in key order; the flag says
    whether the key was there. *)
Fixpoint str_ltb (a b : str) : bool :=
  match a, b with
  | [], [] => false
  | [], _ => true
  | _, [] => false
  | x :: a, y :: b => (x <? y) || ((x =? y) && str_ltb a b)
  end.
Fixpoint btree_insert {A} (m : list (str * A)) (key : str) (value : A)
    : list (str * A) * bool :=
  match m with
  | [] => ([(key, value)], false)
  | (k, v) :: m' =>
      if bool_decide (k = key) then ((key, value) :: m', true)
      else if str_ltb key k then ((key, value) :: m, false)
      else let '(m', known) := btree_insert m' key value in ((k, v) :: m', known)
  end.

(** Induction over a JSON value and the values inside it. *)
Section jvalue_induction.
Context {N : Type} (P : JValue N → Prop).
Context (Hnull : P JNull) (Hbool : ∀ b, P (JBool b)) (Hnumber : ∀ n, P (JNumber n)).
Context (Hstring : ∀ s, P (JString s)) (Harray : ∀ items, Forall P items → P (JArray items)).
Context (Hobject : ∀ fields, Forall (λ kv, P kv.2) fields → P (JObject fields)).
Fixpoint jvalue_induction (v : JValue N) : P v :=
  match v with
  | JNull => Hnull
  | JBool b => Hbool b
  | JNumber n => Hnumber n
  | JString s => Hstring s
  | JArray items =>
      Harray items ((fix go l : Forall P l :=
        match l with
        | [] => @List.Forall_nil _ _
        | x :: l' => @List.Forall_cons _ _ x l' (jvalue_induction x) (go l')
        end) items)
  | JObject fields =>
      Hobject fields ((fix go l : Forall (λ kv, P kv.2) l :=
        match l with
        | [] => @List.Forall_nil _ _
        | (k, x) :: l' => @List.Forall_cons _ _ (k, x) l' (jvalue_induction x) (go l')
        end) fields)
  end.
End jvalue_induction.

Section normalizer.
Context {N : Type} `{!JsonApi N}.
Abbreviation Value := (JValue N).

(** [None]: no timestamp; [Err]: an invalid one. *)
Definition parse_timestamp (value : Value) : option (result unit Timestamp) :=
  match value with
  | JNumber number =>
      seconds ← number_as_f64 number;
      if negb (f64_is_finite seconds) then Some (Err tt)
      else
        let millis := f64_mul seconds (f64_of_i64 1000) in
        if f64_ltb millis (f64_of_i64 I64_MIN) || f64_ltb (f64_of_i64 I64_MAX) millis
        then Some (Err tt)
        else Some (map_err (λ _, tt) (from_unix_millis (f64_round_i64 millis)))
  | JString value => Some (map_err (λ _, tt) (parse_rfc3339_millis value ≫= from_unix_millis))
  | _ => Some (Err tt)
  end.

(** ** The context and its monad *)

Record Context_ := {
  cx_nodes : Z;
  cx_diagnostics : list NormalizationDiagnostic;
}.
Definition context_new : Context_ := {| cx_nodes := 0; cx_diagnostics := [] |}.

(** A function of the source with [context: &mut Context]. *)
Definition norm (A : Type) : Type := Context_ → result NormalizationError (A * Context_).
#[export] Instance norm_ret : MRet norm := λ A a c, Ok (a, c).
#[export] Instance norm_bind : MBind norm := λ A B f m c,
  match m c with Ok (a, c) => f a c | Err e => Err e end.
Definition fail {A} (e : NormalizationError) : norm A := λ _, Err e.
Definition lift {A} (r : result NormalizationError A) : norm A := λ c,
  match r with Ok a => Ok (a, c) | Err e => Err e end.

Context (limits : NormalizerLimits).

Definition visit (depth : Z) : norm unit := λ c,
  let nodes := sat_u64 (cx_nodes c + 1) in
  if (nl_max_depth limits <? depth) || (nl_max_nodes limits <? nodes) then Err NTooComplex
  else Ok (tt, {| cx_nodes := nodes; cx_diagnostics := cx_diagnostics c |}).

Definition code_eqb (a b : NormalizationDiagnosticCode) : bool :=
  match a, b with
  | DInvalidTimestamp, DInvalidTimestamp | DInvalidFieldType, DInvalidFieldType
  | DInvalidLevel, DInvalidLevel | DCollectionTruncated, DCollectionTruncated
  | DStringTruncated, DStringTruncated | DDuplicateTag, DDuplicateTag
  | DUnknownFieldsTruncated, DUnknownFieldsTruncated => true
  | _, _ => false
  end.
Definition diagnostic (code : NormalizationDiagnosticCode) (path : string) : norm unit := λ c,
  let known := existsb (λ d, code_eqb (nd_code d) code && bool_decide (nd_path d = lit path))
                 (cx_diagnostics c) in
  if (len (cx_diagnostics c) <? nl_max_diagnostics limits) && negb known
  then Ok (tt, {| cx_nodes := cx_nodes c;
                  cx_diagnostics := cx_diagnostics c
                                    ++ [{| nd_code := code; nd_path := lit path |}] |})
  else Ok (tt, c).
(** [if test { context.diagnostic(..) }]. *)
Definition diagnose (test : bool) (code : NormalizationDiagnosticCode) (path : string)
    : norm unit := if test then diagnostic code path else mret tt.

(** [iter().take(n).map(f).collect()] with a context. *)
Definition traverse {A B} (f : A → norm B) : nat → list A → norm (list B) :=
  fix go n l {struct l} :=
    match l, n with
    | x :: l', S n' => y ← f x; ys ← go n' l'; mret (y :: ys)
    | _, _ => mret []
    end.
(** [filter_map] with a context. *)
Definition filter_map {A B} (f : A → norm (option B)) : nat → list A → norm (list B) :=
  fix go n l {struct l} :=
    match l, n with
    | x :: l', S n' =>
        y ← f x; ys ← go n' l';
        mret match y with Some y => y :: ys | None => ys end
    | _, _ => mret []
    end.

(** ** Fields *)

Definition identity_string (root : list (str * Value)) (key : string) (maximum : Z)
    : result NormalizationError (option str) :=
  match map_get root (lit key) with
  | Some (JString value) =>
      if is_empty value then Ok None
      else if len value <=? maximum then Ok (Some value)
      else Err NIdentityFieldTooLarge
  | _ => Ok None
  end.

(** [truncate_utf8]: back to a character boundary. *)
Fixpoint boundary_before (s : str) (end_ : nat) : nat :=
  if is_char_boundary s end_ then end_
  else match end_ with O => O | S e => boundary_before s e end.
Definition truncate_utf8 (value : str) (maximum : Z) : str :=
  take (boundary_before value (Nat.min (Z.to_nat maximum) (length value))) value.

Definition value_string (value : Value) (maximum : Z) (path : string) : norm (option str) :=
  match value with
  | JNull => mret None
  | JString value =>
      if is_empty value then mret None
      else
        let maximum := Z.min maximum (nl_max_string_bytes limits) in
        if len value <=? maximum then mret (Some value)
        else _ ← diagnostic DStringTruncated path; mret (Some (truncate_utf8 value maximum))
  | _ => _ ← diagnostic DInvalidFieldType path; mret None
  end.
Definition optional_string (root : list (str * Value)) (key : string) (maximum : Z)
    (path : string) : norm (option str) :=
  match map_get root (lit key) with
  | Some value => value_string value maximum path
  | None => mret None
  end.

Definition bounded_scalar_string (value : Value) (maximum : Z) (path : string)
    : norm (option str) :=
  match value with
  | JString value =>
      if len value <=? maximum then mret (Some value)
      else _ ← diagnostic DStringTruncated path; mret None
  | JNumber value =>
      let value := number_to_string value in
      mret (if len value <=? maximum then Some value else None)
  | JBool value => mret (Some (lit (if value then "true" else "false")))
  | _ => mret None
  end.

Definition message_field (value : option Value) (path : string) : norm (option str) :=
  match value with
  | None => mret None
  | Some (JObject entry) =>
      match option_or (map_get entry (lit "formatted")) (map_get entry (lit "message")) with
      | Some value => value_string value MAX_MESSAGE_BYTES path
      | None => mret None
      end
  | Some value => value_string value MAX_MESSAGE_BYTES path
  end.
Definition normalize_message (root : list (str * Value)) : norm (option str) :=
  message ← message_field (map_get root (lit "message")) "message";
  match message with
  | Some message => mret (Some message)
  | None => message_field (map_get root (lit "logentry")) "logentry"
  end.

Definition platform_of (value : str) : EventPlatform :=
  let named s := bool_decide (value = lit s) in
  if named "other" then POther
  else if named "javascript" then PJavaScript
  else if named "node" then PNode
  else if named "python" then PPython
  else if named "java" || named "android" then PJava
  else if named "csharp" || named "dotnet" then PDotNet
  else if named "go" then PGo
  else if named "rust" then PRust
  else if named "php" then PPhp
  else if named "ruby" then PRuby
  else if named "cocoa" || named "objc" || named "swift" then PCocoa
  else if named "native" || named "c" || named "cpp" then PNative
  else if named "dart" || named "flutter" then PDart
  else PCustom value.
Definition normalize_platform (value : option Value) : norm EventPlatform :=
  match value with
  | None => mret POther
  | Some value =>
      value ← value_string value MAX_PLATFORM_BYTES "platform";
      mret match value with Some value => platform_of value | None => POther end
  end.

Definition level_of (value : str) : option EventLevel :=
  let named s := bool_decide (value = lit s) in
  if named "debug" then Some LDebug
  else if named "info" || named "log" then Some LInfo
  else if named "warning" || named "warn" then Some LWarning
  else if named "error" then Some LError
  else if named "fatal" then Some LFatal
  else None.
Definition normalize_level (value : option Value) (path : string) : norm (option EventLevel) :=
  match value with
  | None => mret None
  | Some (JString value) =>
      match level_of value with
      | Some level => mret (Some level)
      | None => _ ← diagnostic DInvalidLevel path; mret None
      end
  | Some _ => _ ← diagnostic DInvalidFieldType path; mret None
  end.

Definition normalize_string_array (value : option Value) (maximum string_maximum : Z)
    (path : string) : norm (list str) :=
  match value with
  | None => mret []
  | Some (JArray values) =>
      _ ← diagnose (maximum <? len values) DCollectionTruncated path;
      filter_map (λ value, value_string value string_maximum path) (Z.to_nat maximum) values
  | Some _ => _ ← diagnostic DInvalidFieldType path; mret []
  end.

(** ** Nested values *)

Fixpoint canonicalize (value : Value) (depth : Z) (path : string) : norm CanonicalValue :=
  _ ← visit depth;
  match value with
  | JNull => mret VNull
  | JBool b => mret (VBool b)
  | JNumber n => mret (VNumber (number_to_string n))
  | JString s =>
      _ ← diagnose (nl_max_string_bytes limits <? len s) DStringTruncated path;
      mret (VString (truncate_utf8 s (nl_max_string_bytes limits)))
  | JArray values =>
      _ ← diagnose (nl_max_array_items limits <? len values) DCollectionTruncated path;
      items ← traverse (λ v, canonicalize v (depth + 1) path)
                (Z.to_nat (nl_max_array_items limits)) values;
      mret (VArray items)
  | JObject values =>
      _ ← diagnose (nl_max_object_fields limits <? len values) DCollectionTruncated path;
      fields ← traverse (λ kv, v ← canonicalize kv.2 (depth + 1) path; mret (kv.1, v))
                 (Z.to_nat (nl_max_object_fields limits)) values;
      mret (VObject fields)
  end.
Definition canonicalize_field (path : string) (kv : str * Value)
    : norm (str * CanonicalValue) := v ← canonicalize kv.2 1 path; mret (kv.1, v).

Definition normalize_optional_object (value : option Value) (path : string)
    : norm (option CanonicalValue) :=
  match value with
  | None | Some JNull => mret None
  | Some (JObject fields) => v ← canonicalize (JObject fields) 0 path; mret (Some v)
  | Some _ => _ ← diagnostic DInvalidFieldType path; mret None
  end.
Definition normalize_named_object (value : option Value) (path : string)
    : norm (list (str * CanonicalValue)) :=
  match value with
  | None | Some JNull => mret []
  | Some (JObject object) =>
      _ ← diagnose (nl_max_object_fields limits <? len object) DCollectionTruncated path;
      traverse (canonicalize_field path) (Z.to_nat (nl_max_object_fields limits)) object
  | Some _ => _ ← diagnostic DInvalidFieldType path; mret []
  end.
Definition normalize_unknown (object : list (str * Value)) (known : list string) (path : string)
    : norm (list (str * CanonicalValue)) :=
  let unknown := List.filter (λ kv, negb (existsb (λ k, bool_decide (kv.1 = lit k)) known))
                   object in
  _ ← diagnose (nl_max_unknown_fields limits <? len unknown) DUnknownFieldsTruncated path;
  traverse (canonicalize_field path) (Z.to_nat (nl_max_unknown_fields limits)) unknown.

Definition as_object (value : Value) : option (list (str * Value)) :=
  match value with JObject fields => Some fields | _ => None end.
Definition as_array (value : Value) : option (list Value) :=
  match value with JArray items => Some items | _ => None end.
Definition as_str (value : Value) : option str :=
  match value with JString s => Some s | _ => None end.
(** The list under [key] of an object, or the value itself. *)
Definition inner_values (value : Value) (key : string) : Value :=
  unwrap_or value (as_object value ≫= λ fields, map_get fields (lit key)).

(** ** Frames and exceptions *)

Definition FRAME_FIELDS : list string :=
  ["filename"; "abs_path"; "function"; "module"; "package"; "instruction_addr"; "symbol_addr";
   "lineno"; "colno"; "in_app"; "context_line"; "pre_context"; "post_context"; "vars"]%string.
Definition normalize_frame (frame : list (str * Value)) : norm NormalizedFrame :=
  filename ← optional_string frame "filename" MAX_FIELD_BYTES "frame.filename";
  absolute_path ← optional_string frame "abs_path" MAX_FIELD_BYTES "frame.abs_path";
  function ← optional_string frame "function" MAX_FIELD_BYTES "frame.function";
  module ← optional_string frame "module" MAX_FIELD_BYTES "frame.module";
  package ← optional_string frame "package" MAX_FIELD_BYTES "frame.package";
  instruction ← optional_string frame "instruction_addr" MAX_FIELD_BYTES "frame.instruction_addr";
  symbol ← optional_string frame "symbol_addr" MAX_FIELD_BYTES "frame.symbol_addr";
  context_line ← optional_string frame "context_line" MAX_CONTEXT_LINE_BYTES "frame.context_line";
  pre_context ← normalize_string_array (map_get frame (lit "pre_context")) 32
                  MAX_CONTEXT_LINE_BYTES "frame.pre_context";
  post_context ← normalize_string_array (map_get frame (lit "post_context")) 32
                   MAX_CONTEXT_LINE_BYTES "frame.post_context";
  variables ← normalize_named_object (map_get frame (lit "vars")) "frame.vars";
  unknown ← normalize_unknown frame FRAME_FIELDS "frame.unknown";
  let integer key := match map_get frame (lit key) with
                     | Some (JNumber n) => number_as_u64 n
                     | _ => None
                     end in
  mret {| f_filename := filename; f_absolute_path := absolute_path; f_function := function;
          f_module := module; f_package := package; f_instruction_address := instruction;
          f_symbol_address := symbol; f_line := integer "lineno"%string;
          f_column := integer "colno"%string;
          f_in_app := match map_get frame (lit "in_app") with
                      | Some (JBool b) => Some b
                      | _ => None
                      end;
          f_context_line := context_line; f_pre_context := pre_context;
          f_post_context := post_context; f_variables := variables; f_unknown := unknown |}.

Definition normalize_stacktrace (value : option Value) (path : string)
    : norm (list NormalizedFrame) :=
  match value with
  | None => mret []
  | Some value =>
      match as_array (inner_values value "frames") with
      | None => _ ← diagnostic DInvalidFieldType path; mret []
      | Some values =>
          _ ← diagnose (nl_max_frames limits <? len values) DCollectionTruncated path;
          let frames := omap as_object (take (Z.to_nat (nl_max_frames limits)) values) in
          traverse normalize_frame (length frames) frames
      end
  end.

Definition EXCEPTION_FIELDS : list string :=
  ["type"; "value"; "module"; "thread_id"; "mechanism"; "stacktrace"; "raw_stacktrace"]%string.
Definition normalize_exception (exception : list (str * Value)) : norm NormalizedException :=
  thread_id ← match map_get exception (lit "thread_id") with
              | Some value => bounded_scalar_string value MAX_FIELD_BYTES "exception.thread_id"
              | None => mret None
              end;
  ty ← optional_string exception "type" MAX_FIELD_BYTES "exception.type";
  value ← optional_string exception "value" MAX_MESSAGE_BYTES "exception.value";
  module ← optional_string exception "module" MAX_FIELD_BYTES "exception.module";
  mechanism ← match map_get exception (lit "mechanism") with
              | Some value => v ← canonicalize value 1 "exception.mechanism"; mret (Some v)
              | None => mret None
              end;
  stacktrace ← normalize_stacktrace (map_get exception (lit "stacktrace")) "exception.stacktrace";
  raw_stacktrace ← normalize_stacktrace (map_get exception (lit "raw_stacktrace"))
                     "exception.raw_stacktrace";
  unknown ← normalize_unknown exception EXCEPTION_FIELDS "exception.unknown";
  mret {| x_ty := ty; x_value := value; x_module := module; x_thread_id := thread_id;
          x_mechanism := mechanism; x_stacktrace := stacktrace;
          x_raw_stacktrace := raw_stacktrace; x_unknown := unknown |}.

Definition normalize_exceptions (value : option Value) : norm (list NormalizedException) :=
  match value with
  | None => mret []
  | Some value =>
      match as_array (inner_values value "values") with
      | None => _ ← diagnostic DInvalidFieldType "exception"; mret []
      | Some values =>
          _ ← diagnose (nl_max_exceptions limits <? len values) DCollectionTruncated
                "exception.values";
          let exceptions := omap as_object (take (Z.to_nat (nl_max_exceptions limits)) values) in
          traverse normalize_exception (length exceptions) exceptions
      end
  end.

(** ** Tags *)

(** The loop over the entries of an object. *)
Fixpoint tags_of_object (tags : list (str * str)) (fields : list (str * Value))
    : norm (list (str * str)) :=
  match fields with
  | [] => mret tags
  | (key, value) :: fields =>
      value ← bounded_scalar_string value MAX_TAG_VALUE_BYTES "tags";
      tags_of_object
        (match value with Some value => (btree_insert tags key value).1 | None => tags end) fields
  end.
Definition tag_pair (value : Value) : option (str * str) :=
  pair ← as_array value;
  key ← head pair ≫= as_str;
  value ← (pair !! 1%nat) ≫= as_str;
  Some (key, value).
(** The loop over the pairs of an array, with the duplicate flag. *)
Fixpoint tags_of_array (tags : list (str * str)) (duplicate : bool) (values : list Value)
    : norm (list (str * str) * bool) :=
  match values with
  | [] => mret (tags, duplicate)
  | value :: values =>
      match tag_pair value with
      | None => tags_of_array tags duplicate values
      | Some (key, value) =>
          if is_empty key || (MAX_TAG_KEY_BYTES <? len key) || (MAX_TAG_VALUE_BYTES <? len value)
          then _ ← diagnostic DStringTruncated "tags"; tags_of_array tags duplicate values
          else
            let '(tags, known) := btree_insert tags key value in
            tags_of_array tags (duplicate || known) values
      end
  end.
Definition checked_tag (kv : str * str) : norm (option NormalizedTag) :=
  if is_empty kv.1 || (MAX_TAG_KEY_BYTES <? len kv.1) || (MAX_TAG_VALUE_BYTES <? len kv.2)
  then _ ← diagnostic DStringTruncated "tags"; mret None
  else mret (Some {| t_key := kv.1; t_value := kv.2 |}).
Definition normalize_tags (value : option Value) : norm (list NormalizedTag) :=
  match value with
  | None => mret []
  | Some value =>
      r ← match value with
          | JObject fields => tags ← tags_of_object [] fields; mret (tags, false)
          | JArray values => tags_of_array [] false values
          | _ => _ ← diagnostic DInvalidFieldType "tags"; mret ([], false)
          end;
      _ ← diagnose r.2 DDuplicateTag "tags";
      _ ← diagnose (nl_max_tags limits <? len r.1) DCollectionTruncated "tags";
      filter_map checked_tag (Z.to_nat (nl_max_tags limits)) r.1
  end.

(** ** Breadcrumbs *)

Definition BREADCRUMB_FIELDS : list string :=
  ["timestamp"; "type"; "category"; "level"; "message"; "data"]%string.
Definition normalize_breadcrumb (breadcrumb : list (str * Value)) : norm NormalizedBreadcrumb :=
  timestamp ← match map_get breadcrumb (lit "timestamp") ≫= parse_timestamp with
              | None => mret None
              | Some (Ok t) => mret (Some t)
              | Some (Err _) => _ ← diagnostic DInvalidTimestamp "breadcrumb.timestamp"; mret None
              end;
  ty ← optional_string breadcrumb "type" MAX_FIELD_BYTES "breadcrumb.type";
  category ← optional_string breadcrumb "category" MAX_FIELD_BYTES "breadcrumb.category";
  level ← normalize_level (map_get breadcrumb (lit "level")) "breadcrumb.level";
  message ← optional_string breadcrumb "message" MAX_MESSAGE_BYTES "breadcrumb.message";
  data ← normalize_named_object (map_get breadcrumb (lit "data")) "breadcrumb.data";
  unknown ← normalize_unknown breadcrumb BREADCRUMB_FIELDS "breadcrumb.unknown";
  mret {| b_timestamp := timestamp; b_ty := ty; b_category := category; b_level := level;
          b_message := message; b_data := data; b_unknown := unknown |}.
Definition normalize_breadcrumbs (value : option Value) : norm (list NormalizedBreadcrumb) :=
  match value with
  | None => mret []
  | Some value =>
      match as_array (inner_values value "values") with
      | None => _ ← diagnostic DInvalidFieldType "breadcrumbs"; mret []
      | Some values =>
          _ ← diagnose (nl_max_breadcrumbs limits <? len values) DCollectionTruncated
                "breadcrumbs";
          let breadcrumbs := omap as_object (take (Z.to_nat (nl_max_breadcrumbs limits)) values) in
          traverse normalize_breadcrumb (length breadcrumbs) breadcrumbs
      end
  end.

(** ** The event *)

Definition EVENT_FIELDS : list string :=
  ["event_id"; "timestamp"; "platform"; "level"; "logger"; "message"; "logentry"; "transaction";
   "release"; "dist"; "environment"; "fingerprint"; "exception"; "stacktrace"; "tags"; "request";
   "user"; "contexts"; "breadcrumbs"]%string.

Definition event_timestamp (root : list (str * Value)) (received_at : Timestamp)
    : norm Timestamp :=
  match map_get root (lit "timestamp") ≫= parse_timestamp with
  | Some (Ok timestamp) => mret timestamp
  | None =>
      _ ← diagnose (is_some (map_get root (lit "timestamp"))) DInvalidTimestamp "timestamp";
      mret received_at
  | Some (Err _) => _ ← diagnostic DInvalidTimestamp "timestamp"; mret received_at
  end.

Definition normalize_root (root : list (str * Value)) (received_at : Timestamp)
    : norm NormalizedEventBody :=
  occurred_at ← event_timestamp root received_at;
  release ← lift (identity_string root "release" MAX_RELEASE_BYTES);
  dist ← lift (identity_string root "dist" MAX_DIST_BYTES);
  environment ← lift (identity_string root "environment" MAX_ENVIRONMENT_BYTES);
  platform ← normalize_platform (map_get root (lit "platform"));
  level ← normalize_level (map_get root (lit "level")) "level";
  logger ← optional_string root "logger" MAX_LOGGER_BYTES "logger";
  message ← normalize_message root;
  transaction ← optional_string root "transaction" MAX_FIELD_BYTES "transaction";
  fingerprint ← normalize_string_array (map_get root (lit "fingerprint"))
                  (nl_max_fingerprint limits) MAX_FIELD_BYTES "fingerprint";
  exceptions ← normalize_exceptions (map_get root (lit "exception"));
  stacktrace ← normalize_stacktrace (map_get root (lit "stacktrace")) "stacktrace";
  tags ← normalize_tags (map_get root (lit "tags"));
  request ← normalize_optional_object (map_get root (lit "request")) "request";
  user ← normalize_optional_object (map_get root (lit "user")) "user";
  contexts ← normalize_named_object (map_get root (lit "contexts")) "contexts";
  breadcrumbs ← normalize_breadcrumbs (map_get root (lit "breadcrumbs"));
  unknown ← normalize_unknown root EVENT_FIELDS "unknown";
  mret {| e_occurred_at := occurred_at; e_platform := platform;
          e_level := unwrap_or LError level; e_logger := logger; e_message := message;
          e_transaction := transaction; e_release := release; e_dist := dist;
          e_environment := environment; e_fingerprint := fingerprint;
          e_exceptions := exceptions; e_stacktrace := stacktrace; e_tags := tags;
          e_request := request; e_user := user; e_contexts := contexts;
          e_breadcrumbs := breadcrumbs; e_unknown := unknown |}.

Definition normalize (event : AcceptedEvent) : result NormalizationError NormalizedEvent :=
  value ← ok_or NInvalidJson (json_from_slice (ae_payload event));
  root ← ok_or NInvalidRoot (as_object value);
  '(body, context) ← normalize_root root (ae_received_at event) context_new;
  Ok {| ne_project_id := ae_project_id event; ne_event_id := ae_event_id event;
        ne_received_at := ae_received_at event; ne_policy_revision := ae_policy_revision event;
        ne_body := body; ne_diagnostics := cx_diagnostics context |}.

End normalizer.

(** ** Bounds of a normalized event *)

Fixpoint value_nodes (v : CanonicalValue) : Z :=
  match v with
  | VArray items => 1 + sum_map value_nodes items
  | VObject fields => 1 + sum_map (λ kv, value_nodes kv.2) fields
  | _ => 1
  end.
(** The value fits under [depth] more levels, its lists and texts in the limits. *)
Fixpoint value_bounded (limits : NormalizerLimits) (depth : Z) (v : CanonicalValue) : Prop :=
  depth ≤ nl_max_depth limits ∧
  match v with
  | VString s => len s ≤ nl_max_string_bytes limits
  | VArray items =>
      len items ≤ nl_max_array_items limits
      ∧ foldr (λ v acc, value_bounded limits (depth + 1) v ∧ acc) True items
  | VObject fields =>
      len fields ≤ nl_max_object_fields limits
      ∧ foldr (λ kv acc, value_bounded limits (depth + 1) kv.2 ∧ acc) True fields
  | _ => True
  end.
Definition fields_nodes (fields : list (str * CanonicalValue)) : Z :=
  sum_map (λ kv, value_nodes kv.2) fields.
Definition fields_bounded (limits : NormalizerLimits) (maximum : Z)
    (fields : list (str * CanonicalValue)) : Prop :=
  len fields ≤ maximum ∧ Forall (λ kv, value_bounded limits 1 kv.2) fields.

Definition text_bounded (maximum : Z) (s : str) : Prop := len s ≤ maximum.
Definition opt_bounded (maximum : Z) (o : option str) : Prop :=
  ∀ s, o = Some s → text_bounded maximum s.
(** The bound of a text of the event: that of its field, and the configured one for
    all texts ([value_string]).  Thread identifiers, tags, the release, the
    distribution and the environment have the bound of their field alone. *)
Definition fit (limits : NormalizerLimits) (maximum : Z) : Z := Z.min maximum (nl_max_string_bytes limits).
Definition number_bounded (o : option Z) : Prop := ∀ n, o = Some n → 0 ≤ n ≤ U64_MAX.

Record frame_bounded (limits : NormalizerLimits) (f : NormalizedFrame) : Prop := {
  fb_filename : opt_bounded (fit limits MAX_FIELD_BYTES) (f_filename f);
  fb_absolute_path : opt_bounded (fit limits MAX_FIELD_BYTES) (f_absolute_path f);
  fb_function : opt_bounded (fit limits MAX_FIELD_BYTES) (f_function f);
  fb_module : opt_bounded (fit limits MAX_FIELD_BYTES) (f_module f);
  fb_package : opt_bounded (fit limits MAX_FIELD_BYTES) (f_package f);
  fb_instruction : opt_bounded (fit limits MAX_FIELD_BYTES) (f_instruction_address f);
  fb_symbol : opt_bounded (fit limits MAX_FIELD_BYTES) (f_symbol_address f);
  fb_line : number_bounded (f_line f);
  fb_column : number_bounded (f_column f);
  fb_context_line : opt_bounded (fit limits MAX_CONTEXT_LINE_BYTES) (f_context_line f);
  fb_pre : len (f_pre_context f) ≤ 32
           ∧ Forall (text_bounded (fit limits MAX_CONTEXT_LINE_BYTES)) (f_pre_context f);
  fb_post : len (f_post_context f) ≤ 32
            ∧ Forall (text_bounded (fit limits MAX_CONTEXT_LINE_BYTES)) (f_post_context f);
  fb_variables : fields_bounded limits (nl_max_object_fields limits) (f_variables f);
  fb_unknown : fields_bounded limits (nl_max_unknown_fields limits) (f_unknown f);
}.
Definition frame_nodes (f : NormalizedFrame) : Z :=
  fields_nodes (f_variables f) + fields_nodes (f_unknown f).
Definition frames_bounded (limits : NormalizerLimits) (fs : list NormalizedFrame) : Prop :=
  len fs ≤ nl_max_frames limits ∧ Forall (frame_bounded limits) fs.

Definition opt_nodes (o : option CanonicalValue) : Z :=
  match o with Some v => value_nodes v | None => 0 end.
Record exception_bounded (limits : NormalizerLimits) (x : NormalizedException) : Prop := {
  xb_ty : opt_bounded (fit limits MAX_FIELD_BYTES) (x_ty x);
  xb_value : opt_bounded (fit limits MAX_MESSAGE_BYTES) (x_value x);
  xb_module : opt_bounded (fit limits MAX_FIELD_BYTES) (x_module x);
  xb_thread_id : opt_bounded MAX_FIELD_BYTES (x_thread_id x);
  xb_mechanism : ∀ v, x_mechanism x = Some v → value_bounded limits 1 v;
  xb_stacktrace : frames_bounded limits (x_stacktrace x);
  xb_raw_stacktrace : frames_bounded limits (x_raw_stacktrace x);
  xb_unknown : fields_bounded limits (nl_max_unknown_fields limits) (x_unknown x);
}.
Definition exception_nodes (x : NormalizedException) : Z :=
  opt_nodes (x_mechanism x) + sum_map frame_nodes (x_stacktrace x)
  + sum_map frame_nodes (x_raw_stacktrace x) + fields_nodes (x_unknown x).

Record breadcrumb_bounded (limits : NormalizerLimits) (b : NormalizedBreadcrumb) : Prop := {
  bb_ty : opt_bounded (fit limits MAX_FIELD_BYTES) (b_ty b);
  bb_category : opt_bounded (fit limits MAX_FIELD_BYTES) (b_category b);
  bb_message : opt_bounded (fit limits MAX_MESSAGE_BYTES) (b_message b);
  bb_data : fields_bounded limits (nl_max_object_fields limits) (b_data b);
  bb_unknown : fields_bounded limits (nl_max_unknown_fields limits) (b_unknown b);
  bb_timestamp : ∀ t, b_timestamp b = Some t → timestamp_valid t;
}.
Definition breadcrumb_nodes (b : NormalizedBreadcrumb) : Z :=
  fields_nodes (b_data b) + fields_nodes (b_unknown b).

Definition tag_bounded (t : NormalizedTag) : Prop :=
  t_key t ≠ [] ∧ len (t_key t) ≤ MAX_TAG_KEY_BYTES ∧ len (t_value t) ≤ MAX_TAG_VALUE_BYTES.
(** Tags in key order: no key twice. *)
Definition tags_sorted (ts : list NormalizedTag) : Prop :=
  StronglySorted (λ a b, str_ltb (t_key a) (t_key b) = true) ts.

Record body_bounded (limits : NormalizerLimits) (received_at : Timestamp)
    (b : NormalizedEventBody) : Prop := {
  eb_occurred_at : e_occurred_at b = received_at ∨ timestamp_valid (e_occurred_at b);
  eb_platform : ∀ v, e_platform b = PCustom v → text_bounded (fit limits MAX_PLATFORM_BYTES) v;
  eb_logger : opt_bounded (fit limits MAX_LOGGER_BYTES) (e_logger b);
  eb_message : opt_bounded (fit limits MAX_MESSAGE_BYTES) (e_message b);
  eb_transaction : opt_bounded (fit limits MAX_FIELD_BYTES) (e_transaction b);
  eb_release : ∀ v, e_release b = Some v → v ≠ [] ∧ len v ≤ MAX_RELEASE_BYTES;
  eb_dist : ∀ v, e_dist b = Some v → v ≠ [] ∧ len v ≤ MAX_DIST_BYTES;
  eb_environment : ∀ v, e_environment b = Some v → v ≠ [] ∧ len v ≤ MAX_ENVIRONMENT_BYTES;
  eb_fingerprint : len (e_fingerprint b) ≤ nl_max_fingerprint limits
                   ∧ Forall (text_bounded (fit limits MAX_FIELD_BYTES)) (e_fingerprint b);
  eb_exceptions : len (e_exceptions b) ≤ nl_max_exceptions limits
                  ∧ Forall (exception_bounded limits) (e_exceptions b);
  eb_stacktrace : frames_bounded limits (e_stacktrace b);
  eb_tags : len (e_tags b) ≤ nl_max_tags limits ∧ Forall tag_bounded (e_tags b)
            ∧ tags_sorted (e_tags b);
  eb_request : ∀ v, e_request b = Some v → value_bounded limits 0 v;
  eb_user : ∀ v, e_user b = Some v → value_bounded limits 0 v;
  eb_contexts : fields_bounded limits (nl_max_object_fields limits) (e_contexts b);
  eb_breadcrumbs : len (e_breadcrumbs b) ≤ nl_max_breadcrumbs limits
                   ∧ Forall (breadcrumb_bounded limits) (e_breadcrumbs b);
  eb_unknown : fields_bounded limits (nl_max_unknown_fields limits) (e_unknown b);
}.
Definition body_nodes (b : NormalizedEventBody) : Z :=
  sum_map exception_nodes (e_exceptions b) + sum_map frame_nodes (e_stacktrace b)
  + opt_nodes (e_request b) + opt_nodes (e_user b) + fields_nodes (e_contexts b)
  + sum_map breadcrumb_nodes (e_breadcrumbs b) + fields_nodes (e_unknown b).

(** ** The logic of the context *)

(** *** Sorted keys *)

Definition key_sorted {A} (m : list (str * A)) : Prop :=
  StronglySorted (λ a b, str_ltb a.1 b.1 = true) m.
Lemma str_ltb_trans a b c : str_ltb a b = true → str_ltb b c = true → str_ltb a c = true.
Proof.
  revert b c. induction a as [|x a IH]; intros [|y b] [|z c]; cbn; try done.
  rewrite !orb_true_iff, !andb_true_iff, !Z.ltb_lt, !Z.eqb_eq.
  intros [?|[-> ?]] [?|[-> ?]]; [left; lia..|right; eauto].
Qed.
Lemma str_ltb_total a b : str_ltb a b = false → a ≠ b → str_ltb b a = true.
Proof.
  revert b. induction a as [|x a IH]; intros [|y b]; cbn; try done.
  rewrite orb_false_iff, andb_false_iff, orb_true_iff, andb_true_iff, !Z.ltb_lt, Z.ltb_ge,
    Z.eqb_neq, Z.eqb_eq.
  intros [? Hab] Hne. destruct (decide (x = y)) as [->|]; [|left; lia].
  right. split; [done|]. apply IH; [by destruct Hab|congruence].
Qed.

Lemma btree_insert_in {A} (m : list (str * A)) key value kv :
  kv ∈ (btree_insert m key value).1 → kv = (key, value) ∨ kv ∈ m.
Proof.
  induction m as [|[k v] m IH]; cbn; [set_solver|].
  destruct (bool_decide _); [set_solver|]. destruct (str_ltb key k); [set_solver|].
  destruct (btree_insert m key value) as [m' known]. cbn in *. set_solver.
Qed.
Lemma btree_insert_sorted {A} (m : list (str * A)) key value :
  key_sorted m → key_sorted (btree_insert m key value).1.
Proof.
  unfold key_sorted. induction m as [|[k v] m IH]; cbn.
  - intros _. by repeat constructor.
  - intros [Hm Hk]%StronglySorted_inv. case_bool_decide as Ek; [subst; by constructor|].
    destruct (str_ltb key k) eqn:El.
    + constructor; [by constructor|]. constructor; [done|]. eapply Forall_impl; [done|].
      intros x Hx. by eapply str_ltb_trans.
    + pose proof (btree_insert_in m key value) as Hin.
      destruct (btree_insert m key value) as [m' known]. cbn in *. constructor; [by apply IH|].
      rewrite Forall_forall in *. intros x [->|Hx]%Hin; [|by apply Hk].
      by apply str_ltb_total.
Qed.

Section bounds.
Context {N : Type} `{!JsonApi N} (limits : NormalizerLimits).
Context (Hlimits : limits_validate limits = true).

Definition diagnostics_ok (ds : list NormalizationDiagnostic) : Prop :=
  len ds ≤ nl_max_diagnostics limits ∧ NoDup (map (λ d, (nd_code d, nd_path d)) ds).
Definition context_ok (c : Context_) : Prop :=
  0 ≤ cx_nodes c ≤ nl_max_nodes limits ∧ diagnostics_ok (cx_diagnostics c).

(** A computation that succeeds keeps the context within its limits and gives a
    result [a] after visiting [n] nodes with [Q a n]. *)
Definition yields {A} (m : norm A) (Q : A → Z → Prop) : Prop :=
  ∀ c a c', context_ok c → m c = Ok (a, c') → context_ok c' ∧ Q a (cx_nodes c' - cx_nodes c).

(** The limits are positive, as [usize] that are not zero. *)
Context (Hpositive : Forall (λ v, 0 < v)
  [nl_max_depth limits; nl_max_nodes limits; nl_max_diagnostics limits; nl_max_exceptions limits;
   nl_max_frames limits; nl_max_tags limits; nl_max_breadcrumbs limits; nl_max_fingerprint limits;
   nl_max_unknown_fields limits; nl_max_object_fields limits; nl_max_array_items limits;
   nl_max_string_bytes limits]).
Lemma limits_nodes : 0 ≤ nl_max_nodes limits ≤ HARD_MAX_NODES.
Proof.
  unfold limits_validate in Hlimits. rewrite !Forall_cons in Hpositive.
  apply negb_true_iff in Hlimits. bool_prop. lia.
Qed.
Lemma take_len {A} (k : Z) (l : list A) : 0 < k → (length l ≤ Z.to_nat k)%nat → len l ≤ k.
Proof. unfold len. lia. Qed.

Lemma yields_ret {A} (a : A) (Q : A → Z → Prop) : Q a 0 → yields (mret a) Q.
Proof. intros HQ c a' c' Hc [= <- <-]. by rewrite Z.sub_diag. Qed.
Lemma yields_bind {A B} (m : norm A) (f : A → norm B) (Q : B → Z → Prop) :
  yields m (λ a n, yields (f a) (λ b n', Q b (n + n'))) → yields (m ≫= f) Q.
Proof.
  intros Hm c b c' Hc E. unfold mbind, norm_bind in E. destruct (m c) as [[a c1]|] eqn:E1; [|done].
  destruct (Hm _ _ _ Hc E1) as [Hc1 Hf]. destruct (Hf _ _ _ Hc1 E) as [Hc' HQ].
  split; [done|]. replace (cx_nodes c' - cx_nodes c)
    with (cx_nodes c1 - cx_nodes c + (cx_nodes c' - cx_nodes c1)) by lia. done.
Qed.
Lemma yields_mono {A} (m : norm A) (Q Q' : A → Z → Prop) :
  yields m Q → (∀ a n, Q a n → Q' a n) → yields m Q'.
Proof. intros Hm HQ c a c' Hc E. destruct (Hm _ _ _ Hc E). auto. Qed.
Lemma yields_fail {A} e (Q : A → Z → Prop) : yields (fail e) Q.
Proof. by intros c a c' _ [=]. Qed.
Lemma yields_lift {A} r (Q : A → Z → Prop) : (∀ a, r = Ok a → Q a 0) → yields (lift r) Q.
Proof.
  intros HQ c a c' Hc E. unfold lift in E. destruct r as [a0|]; [|done].
  injection E as <- <-. rewrite Z.sub_diag. auto.
Qed.
Lemma yields_visit depth (Q : unit → Z → Prop) :
  (depth ≤ nl_max_depth limits → Q tt 1) → yields (visit limits depth) Q.
Proof.
  intros HQ c a c' [Hc Hd] E. unfold visit in E. destruct (_ || _) eqn:Eb; [done|].
  bool_prop. injection E as <- <-. cbn.
  pose proof limits_nodes as Hn. unfold HARD_MAX_NODES in Hn.
  assert (sat_u64 (cx_nodes c + 1) = cx_nodes c + 1) as Es
    by (unfold sat_u64, saturate, U64_MAX in *; lia).
  rewrite Es in *. replace (cx_nodes c + 1 - cx_nodes c) with 1 by lia.
  split; [|auto]. split; cbn; [lia|done].
Qed.
Lemma yields_diagnostic code path (Q : unit → Z → Prop) :
  Q tt 0 → yields (diagnostic limits code path) Q.
Proof.
  intros HQ c a c' [Hc [Hl Hd]] E. unfold diagnostic in E.
  destruct (_ && _) eqn:Eb; injection E as <- <-; cbn; rewrite Z.sub_diag;
    (split; [|done]); [|by split].
  bool_prop. split; [done|]. cbn. split.
  - unfold len in *. rewrite length_app. cbn. lia.
  - rewrite map_app. apply NoDup_app. split_and!; [done| |apply NoDup_singleton].
    intros x Hx Hin. apply list_elem_of_singleton in Hin as ->.
    apply list_elem_of_fmap in Hx as (d & [= Hcode Hpath] & Hx).
    assert (existsb (λ d, code_eqb (nd_code d) code && bool_decide (nd_path d = lit path))
              (cx_diagnostics c) = true) as Hk; [|congruence].
    apply existsb_exists. exists d. split; [by apply list_elem_of_In|].
    rewrite <- Hcode, <- Hpath, bool_decide_true by done. by destruct code.
Qed.
Lemma yields_diagnose test code path (Q : unit → Z → Prop) :
  Q tt 0 → yields (diagnose limits test code path) Q.
Proof. intros HQ. destruct test; [by apply yields_diagnostic|by apply yields_ret]. Qed.

Lemma yields_traverse {A B} (f : A → norm B) (P : B → Prop) (cost : B → Z) k l :
  (∀ x, x ∈ l → yields (f x) (λ b n, P b ∧ n = cost b)) →
  yields (traverse f k l) (λ bs n, Forall P bs ∧ n = sum_map cost bs
                                   ∧ (length bs ≤ k)%nat ∧ (length bs ≤ length l)%nat).
Proof.
  revert k. induction l as [|x l IH]; intros [|k] Hf;
    try (apply yields_ret; split_and!; [constructor|done|cbn; lia..]).
  apply yields_bind. eapply yields_mono; [apply Hf; set_solver|].
  intros b n [Hb ->]. apply yields_bind.
  eapply yields_mono; [apply IH; set_solver|]. intros bs n' (Hbs & -> & Hk & Hl).
  apply yields_ret. split_and!; [by constructor| |cbn; lia..].
  change (sum_map cost (b :: bs)) with (cost b + sum_map cost bs). lia.
Qed.

Lemma yields_filter_map {A B} (f : A → norm (option B)) (P : B → Prop) k l :
  (∀ x, x ∈ l → yields (f x) (λ o n, n = 0 ∧ ∀ b, o = Some b → P b)) →
  yields (filter_map f k l) (λ bs n, n = 0 ∧ Forall P bs ∧ (length bs ≤ k)%nat).
Proof.
  revert k. induction l as [|x l IH]; intros [|k] Hf;
    try (apply yields_ret; split_and!; [done|constructor|cbn; lia]).
  apply yields_bind. eapply yields_mono; [apply Hf; set_solver|].
  intros o n [-> Ho]. apply yields_bind.
  eapply yields_mono; [apply IH; set_solver|]. intros bs n' (-> & Hbs & Hk).
  apply yields_ret. destruct o as [b|]; split_and!; try done; cbn; try lia.
  constructor; [by apply Ho|done].
Qed.

(** ** Texts *)

Lemma boundary_before_le s e : (boundary_before s e ≤ e)%nat.
Proof.
  induction e as [|e IH]; cbn [boundary_before]; destruct (is_char_boundary _ _); lia.
Qed.
Lemma truncate_len s maximum : 0 ≤ maximum → len (truncate_utf8 s maximum) ≤ maximum.
Proof.
  intros Hm. unfold truncate_utf8, len. rewrite length_take.
  pose proof (boundary_before_le s (Nat.min (Z.to_nat maximum) (length s))). lia.
Qed.
Lemma string_bytes_pos : 0 < nl_max_string_bytes limits.
Proof. rewrite !Forall_cons in Hpositive. tauto. Qed.

Lemma yields_value_string (value : JValue N) maximum path : 0 ≤ maximum →
  yields (value_string limits value maximum path)
    (λ o n, n = 0 ∧ opt_bounded (fit limits maximum) o).
Proof.
  intros Hm. pose proof string_bytes_pos. destruct value; cbn [value_string];
    try (apply yields_bind, yields_diagnostic, yields_ret; by split).
  - by apply yields_ret.
  - destruct (is_empty s); [by apply yields_ret|].
    destruct (Z.leb_spec (len s) (Z.min maximum (nl_max_string_bytes limits))).
    + apply yields_ret. split; [done|]. intros v [= <-]. unfold text_bounded, fit. lia.
    + apply yields_bind, yields_diagnostic, yields_ret. split; [done|]. intros v [= <-].
      unfold text_bounded, fit.
      pose proof (truncate_len s (Z.min maximum (nl_max_string_bytes limits))). lia.
Qed.
Lemma yields_optional_string (root : list (str * JValue N)) key maximum path : 0 ≤ maximum →
  yields (optional_string limits root key maximum path) (λ o n, n = 0 ∧ opt_bounded (fit limits maximum) o).
Proof.
  intros Hm. unfold optional_string. destruct (map_get root (lit key)).
  - by apply yields_value_string.
  - by apply yields_ret.
Qed.
Lemma yields_scalar (value : JValue N) maximum path : 0 ≤ maximum → 5 ≤ maximum →
  yields (bounded_scalar_string limits value maximum path)
    (λ o n, n = 0 ∧ opt_bounded maximum o).
Proof.
  intros Hm H5. unfold opt_bounded, text_bounded.
  destruct value; cbn [bounded_scalar_string]; try (by apply yields_ret).
  - apply yields_ret. split; [done|]. intros v [= <-].
    destruct b; [change (len (lit "true")) with 4|change (len (lit "false")) with 5]; lia.
  - apply yields_ret. split; [done|]. intros v. destruct (Z.leb_spec (len (number_to_string n)) maximum);
      [by intros [= <-]|done].
  - destruct (Z.leb_spec (len s) maximum).
    + apply yields_ret. split; [done|]. by intros v [= <-].
    + by apply yields_bind, yields_diagnostic, yields_ret.
Qed.
Lemma yields_message (root : list (str * JValue N)) :
  yields (normalize_message limits root) (λ o n, n = 0 ∧ opt_bounded (fit limits MAX_MESSAGE_BYTES) o).
Proof.
  assert (∀ (value : option (JValue N)) path, yields (message_field limits value path)
    (λ o n, n = 0 ∧ opt_bounded (fit limits MAX_MESSAGE_BYTES) o)) as Hf.
  { intros [[]|] path; cbn [message_field]; try (by apply yields_value_string);
      [|by apply yields_ret].
    destruct (option_or _ _); [by apply yields_value_string|by apply yields_ret]. }
  apply yields_bind. eapply yields_mono; [apply Hf|]. intros [m|] n [-> Hm]; [|apply Hf].
  by apply yields_ret.
Qed.
Lemma yields_platform (value : option (JValue N)) :
  yields (normalize_platform limits value)
    (λ p n, n = 0 ∧ ∀ v, p = PCustom v → text_bounded (fit limits MAX_PLATFORM_BYTES) v).
Proof.
  destruct value as [value|]; cbn [normalize_platform]; [|by apply yields_ret].
  apply yields_bind. eapply yields_mono; [by apply (yields_value_string _ MAX_PLATFORM_BYTES)|].
  intros [v|] n [-> Hv]; apply yields_ret; (split; [done|]); [|done].
  intros w Hw. apply Hv. unfold platform_of in Hw. inv_cases Hw. done.
Qed.
Lemma yields_level (value : option (JValue N)) path :
  yields (normalize_level limits value path) (λ _ n, n = 0).
Proof.
  destruct value as [[]|]; cbn [normalize_level];
    try (by apply yields_ret); try (by apply yields_bind, yields_diagnostic, yields_ret).
  destruct (level_of s); [by apply yields_ret|by apply yields_bind, yields_diagnostic, yields_ret].
Qed.
Lemma yields_string_array (value : option (JValue N)) maximum string_maximum path :
  0 < maximum → 0 ≤ string_maximum →
  yields (normalize_string_array limits value maximum string_maximum path)
    (λ l n, n = 0 ∧ len l ≤ maximum ∧ Forall (text_bounded (fit limits string_maximum)) l).
Proof.
  intros Hm Hs. assert (len (@nil str) ≤ maximum ∧ Forall (text_bounded (fit limits string_maximum)) [])
    as Hnil by (split; [unfold len; cbn; lia|constructor]).
  destruct value as [[]|]; cbn [normalize_string_array]; try (by apply yields_ret);
    try (by apply yields_bind, yields_diagnostic, yields_ret).
  apply yields_bind, yields_diagnose.
  eapply yields_mono; [apply (yields_filter_map _ (text_bounded (fit limits string_maximum)))|].
  - intros x _. eapply yields_mono; [by apply yields_value_string|]. by intros o n [-> Ho].
  - cbn. intros l n (-> & Hl & Hk). split_and!; [done|by apply take_len|done].
Qed.

(** ** Nested values *)

Lemma value_bounded_array depth items : depth ≤ nl_max_depth limits →
  len items ≤ nl_max_array_items limits → Forall (value_bounded limits (depth + 1)) items →
  value_bounded limits depth (VArray items).
Proof.
  intros Hd Hl Hi. cbn. split_and!; [done..|]. clear Hl. induction Hi; by cbn.
Qed.
Lemma value_bounded_object depth fields : depth ≤ nl_max_depth limits →
  len fields ≤ nl_max_object_fields limits →
  Forall (λ kv, value_bounded limits (depth + 1) kv.2) fields →
  value_bounded limits depth (VObject fields).
Proof.
  intros Hd Hl Hi. cbn. split_and!; [done..|]. clear Hl. induction Hi; by cbn.
Qed.

Lemma limit_positive (v : Z) : v ∈ [nl_max_exceptions limits; nl_max_frames limits;
  nl_max_tags limits; nl_max_breadcrumbs limits; nl_max_fingerprint limits;
  nl_max_unknown_fields limits; nl_max_object_fields limits; nl_max_array_items limits] → 0 < v.
Proof. rewrite Forall_forall in Hpositive. intros Hv. apply Hpositive. set_solver. Qed.
Ltac positive := apply limit_positive; set_solver.

Lemma yields_canonicalize (v : JValue N) : ∀ depth path,
  yields (canonicalize limits v depth path)
    (λ b n, value_bounded limits depth b ∧ n = value_nodes b).
Proof.
  induction v as [|b|m|s|items IH|fields IH] using jvalue_induction; intros depth path;
    cbn [canonicalize]; apply yields_bind, yields_visit; intros Hd;
    try (by apply yields_ret).
  - apply yields_bind, yields_diagnose, yields_ret. split; [|done]. cbn. split; [done|].
    apply truncate_len. pose proof string_bytes_pos. lia.
  - apply yields_bind, yields_diagnose, yields_bind.
    rewrite Forall_forall in IH.
    eapply yields_mono; [apply (yields_traverse _ (value_bounded limits (depth + 1)) value_nodes)|].
    { intros x Hx. by apply IH. }
    intros bs n (Hbs & -> & Hk & _). apply yields_ret. split.
    + apply value_bounded_array; [done| |done]. apply take_len; [positive|done].
    + cbn. lia.
  - apply yields_bind, yields_diagnose, yields_bind.
    rewrite Forall_forall in IH.
    eapply yields_mono; [apply (yields_traverse _
      (λ kv, value_bounded limits (depth + 1) kv.2) (λ kv, value_nodes kv.2))|].
    { intros x Hx. apply yields_bind. eapply yields_mono; [by apply IH|].
      intros b n [Hb ->]. apply yields_ret. cbn. by rewrite Z.add_0_r. }
    intros bs n (Hbs & -> & Hk & _). apply yields_ret. split.
    + apply value_bounded_object; [done| |done]. apply take_len; [positive|done].
    + cbn. lia.
Qed.

(** One step of a sequence, whose result the tactic [t] describes. *)
Tactic Notation "step" tactic3(t) "as" simple_intropattern(p) :=
  apply yields_bind; eapply yields_mono; [solve [t]|intros ? ? p].

Lemma yields_fields path k (l : list (str * JValue N)) maximum :
  0 < maximum → (k = Z.to_nat maximum) →
  yields (traverse (canonicalize_field limits path) k l)
    (λ fs n, fields_bounded limits maximum fs ∧ n = fields_nodes fs).
Proof.
  intros Hm ->. eapply yields_mono; [apply (yields_traverse _
    (λ kv, value_bounded limits 1 kv.2) (λ kv, value_nodes kv.2))|].
  - intros kv _. step (apply yields_canonicalize) as [Hv ->].
    apply yields_ret. cbn. by rewrite Z.add_0_r.
  - intros fs n (Hf & -> & Hk & _). split; [|done]. split; [by apply take_len|done].
Qed.
Lemma fields_bounded_nil maximum : 0 < maximum → fields_bounded limits maximum [].
Proof. intros. split; [unfold len; cbn; lia|constructor]. Qed.
Lemma yields_named_object (value : option (JValue N)) path :
  yields (normalize_named_object limits value path)
    (λ fs n, fields_bounded limits (nl_max_object_fields limits) fs ∧ n = fields_nodes fs).
Proof.
  assert (0 < nl_max_object_fields limits) as Hp by positive.
  pose proof (fields_bounded_nil _ Hp).
  destruct value as [[]|]; cbn [normalize_named_object]; try (by apply yields_ret);
    try (by apply yields_bind, yields_diagnostic, yields_ret).
  by apply yields_bind, yields_diagnose, yields_fields.
Qed.
Lemma yields_unknown (object : list (str * JValue N)) known path :
  yields (normalize_unknown limits object known path)
    (λ fs n, fields_bounded limits (nl_max_unknown_fields limits) fs ∧ n = fields_nodes fs).
Proof. apply yields_bind, yields_diagnose, yields_fields; [positive|done]. Qed.
Lemma yields_optional_object (value : option (JValue N)) path :
  yields (normalize_optional_object limits value path)
    (λ o n, (∀ v, o = Some v → value_bounded limits 0 v) ∧ n = opt_nodes o).
Proof.
  destruct value as [[]|]; cbn [normalize_optional_object]; try (by apply yields_ret);
    try (by apply yields_bind, yields_diagnostic, yields_ret).
  step (apply yields_canonicalize) as [Hv ->]. apply yields_ret.
  split; [by intros w [= <-]|]. cbn. lia.
Qed.

(** ** Frames, exceptions, breadcrumbs *)

Context (Hu64 : ∀ (n : N) v, number_as_u64 n = Some v → 0 ≤ v ≤ U64_MAX).

Lemma yields_frame (frame : list (str * JValue N)) :
  yields (normalize_frame limits frame) (λ f n, frame_bounded limits f ∧ n = frame_nodes f).
Proof.
  assert (∀ key, number_bounded match map_get frame key with
                                | Some (JNumber n) => number_as_u64 n | _ => None end) as Hnum.
  { intros key v Hv. destruct (map_get frame key) as [[]|]; try done. by eapply Hu64. }
  unfold normalize_frame.
  step (by apply yields_optional_string) as [-> Hfilename].
  step (by apply yields_optional_string) as [-> Habsolute].
  step (by apply yields_optional_string) as [-> Hfunction].
  step (by apply yields_optional_string) as [-> Hmodule].
  step (by apply yields_optional_string) as [-> Hpackage].
  step (by apply yields_optional_string) as [-> Hinstruction].
  step (by apply yields_optional_string) as [-> Hsymbol].
  step (by apply yields_optional_string) as [-> Hline].
  step (by apply yields_string_array) as (-> & Hpre).
  step (by apply yields_string_array) as (-> & Hpost).
  step (apply yields_named_object) as [Hvars ->].
  step (apply yields_unknown) as [Hunknown ->].
  apply yields_ret. split; [constructor; cbn; auto|]. unfold frame_nodes. cbn [f_variables f_unknown]. lia.
Qed.

Lemma length_omap_le {A B} (f : A → option B) l : (length (omap f l) ≤ length l)%nat.
Proof. induction l as [|x l IH]; cbn; [lia|]. destruct (f x); cbn; lia. Qed.
(** The list of objects under a key: what each object yields, in the limit. *)
Lemma yields_objects {B} (f : list (str * JValue N) → norm B) (P : B → Prop) (cost : B → Z)
    maximum values test path : 0 < maximum →
  (∀ o, yields (f o) (λ b n, P b ∧ n = cost b)) →
  yields (_ ← diagnose limits test DCollectionTruncated path;
          let objects := omap as_object (take (Z.to_nat maximum) values) in
          traverse f (length objects) objects)
    (λ bs n, (len bs ≤ maximum ∧ Forall P bs) ∧ n = sum_map cost bs).
Proof.
  intros Hm Hf. apply yields_bind, yields_diagnose.
  eapply yields_mono; [by apply (yields_traverse _ P cost)|].
  intros bs n (Hbs & -> & _ & Hl). split; [|done]. split; [|done].
  pose proof (length_omap_le (as_object (N := N)) (take (Z.to_nat maximum) values)) as Ho.
  rewrite length_take in Ho. apply take_len; [done|]. lia.
Qed.
Lemma yields_stacktrace (value : option (JValue N)) path :
  yields (normalize_stacktrace limits value path)
    (λ fs n, frames_bounded limits fs ∧ n = sum_map frame_nodes fs).
Proof.
  assert (frames_bounded limits []) as Hnil.
  { assert (0 < nl_max_frames limits) by positive. split; [unfold len; cbn; lia|constructor]. }
  destruct value as [value|]; cbn [normalize_stacktrace]; [|by apply yields_ret].
  destruct (as_array _) as [values|]; [|by apply yields_bind, yields_diagnostic, yields_ret].
  apply yields_objects; [positive|apply yields_frame].
Qed.

Lemma yields_exception (exception : list (str * JValue N)) :
  yields (normalize_exception limits exception)
    (λ x n, exception_bounded limits x ∧ n = exception_nodes x).
Proof.
  unfold normalize_exception.
  step (instantiate (1 := λ o n, n = 0 ∧ opt_bounded MAX_FIELD_BYTES o);
        destruct (map_get exception (lit "thread_id"));
        [by apply yields_scalar|by apply yields_ret]) as [-> Hthread].
  step (by apply yields_optional_string) as [-> Hty].
  step (by apply yields_optional_string) as [-> Hvalue].
  step (by apply yields_optional_string) as [-> Hmodule].
  step (instantiate (1 := λ o n, (∀ v, o = Some v → value_bounded limits 1 v) ∧ n = opt_nodes o);
        destruct (map_get exception (lit "mechanism")); [|by apply yields_ret];
        step (apply yields_canonicalize) as [Hv ->]; apply yields_ret;
        split; [by intros w [= <-]|cbn; lia]) as [Hmechanism ->].
  step (apply yields_stacktrace) as [Hframes ->].
  step (apply yields_stacktrace) as [Hraw ->].
  step (apply yields_unknown) as [Hunknown ->].
  apply yields_ret. split; [by constructor|]. unfold exception_nodes.
  cbn [x_mechanism x_stacktrace x_raw_stacktrace x_unknown]. lia.
Qed.
Lemma parsed_timestamp_valid (value : JValue N) t :
  parse_timestamp value = Some (Ok t) → timestamp_valid t.
Proof.
  assert (∀ (r : result PrimitiveError Z), map_err (λ _, tt) r = Ok t → r = Ok t) as Hok
    by (intros []; cbn; congruence).
  unfold parse_timestamp. intros E. destruct value as [| |number|s| |]; try done.
  - destruct (number_as_f64 number); [|done]. cbn in E.
    destruct (negb _); [done|]. destruct (_ || _); [done|]. injection E as E%Hok.
    by apply from_unix_millis_Ok in E as [-> ?].
  - injection E as E%Hok. apply bind_Ok in E as (m & _ & E).
    by apply from_unix_millis_Ok in E as [-> ?].
Qed.
Lemma yields_breadcrumb (breadcrumb : list (str * JValue N)) :
  yields (normalize_breadcrumb limits breadcrumb)
    (λ b n, breadcrumb_bounded limits b ∧ n = breadcrumb_nodes b).
Proof.
  unfold normalize_breadcrumb.
  step (instantiate (1 := λ o n, n = 0 ∧ ∀ t, o = Some t → timestamp_valid t);
        destruct (_ ≫= parse_timestamp) as [[t|]|] eqn:E;
        [|by apply yields_bind, yields_diagnostic, yields_ret|by apply yields_ret];
        apply yields_ret; split; [done|]; intros ? [= <-];
        apply bind_Some in E as (v & _ & E); by eapply parsed_timestamp_valid) as [-> Htime].
  step (by apply yields_optional_string) as [-> Hty].
  step (by apply yields_optional_string) as [-> Hcategory].
  step (apply yields_level) as ->.
  step (by apply yields_optional_string) as [-> Hmessage].
  step (apply yields_named_object) as [Hdata ->].
  step (apply yields_unknown) as [Hunknown ->].
  apply yields_ret. split; [constructor; cbn; auto|]. unfold breadcrumb_nodes.
  cbn [b_data b_unknown]. lia.
Qed.
Lemma yields_exceptions (value : option (JValue N)) :
  yields (normalize_exceptions limits value)
    (λ xs n, (len xs ≤ nl_max_exceptions limits ∧ Forall (exception_bounded limits) xs)
             ∧ n = sum_map exception_nodes xs).
Proof.
  assert (0 < nl_max_exceptions limits) as Hp by positive.
  destruct value as [value|]; cbn [normalize_exceptions];
    [destruct (as_array _) as [values|]; [by apply yields_objects, yields_exception|
       apply yields_bind, yields_diagnostic]|];
    (apply yields_ret; split; [|done]; split; [unfold len; cbn; lia|constructor]).
Qed.
Lemma yields_breadcrumbs (value : option (JValue N)) :
  yields (normalize_breadcrumbs limits value)
    (λ bs n, (len bs ≤ nl_max_breadcrumbs limits ∧ Forall (breadcrumb_bounded limits) bs)
             ∧ n = sum_map breadcrumb_nodes bs).
Proof.
  assert (0 < nl_max_breadcrumbs limits) as Hp by positive.
  destruct value as [value|]; cbn [normalize_breadcrumbs];
    [destruct (as_array _) as [values|]; [by apply yields_objects, yields_breadcrumb|
       apply yields_bind, yields_diagnostic]|];
    (apply yields_ret; split; [|done]; split; [unfold len; cbn; lia|constructor]).
Qed.

(** ** Tags *)

Lemma tags_of_object_sorted tags (fields : list (str * JValue N)) : key_sorted tags →
  yields (tags_of_object limits tags fields) (λ tags n, n = 0 ∧ key_sorted tags).
Proof.
  revert tags. induction fields as [|[key value] fields IH]; intros tags Ht; cbn [tags_of_object].
  - by apply yields_ret.
  - step (by apply yields_scalar) as [-> _]. apply IH.
    destruct a; [by apply btree_insert_sorted|done].
Qed.
Lemma tags_of_array_sorted (values : list (JValue N)) : ∀ tags duplicate, key_sorted tags →
  yields (tags_of_array limits tags duplicate values) (λ r n, n = 0 ∧ key_sorted r.1).
Proof.
  induction values as [|value values IH]; intros tags duplicate Ht; cbn [tags_of_array].
  - by apply yields_ret.
  - destruct (tag_pair value) as [[k v]|]; [|by apply IH].
    destruct (_ || _); [by apply yields_bind, yields_diagnostic, IH|].
    pose proof (btree_insert_sorted tags k v Ht) as Hs.
    destruct (btree_insert tags k v) as [tags' known]. by apply IH.
Qed.
Lemma yields_checked_tag (kv : str * str) :
  yields (checked_tag limits kv)
    (λ o n, n = 0 ∧ ∀ t, o = Some t → tag_bounded t ∧ (t_key t, t_value t) = kv).
Proof.
  destruct kv as [key value]. unfold checked_tag. cbn [fst snd]. destruct (_ || _) eqn:Eb.
  - by apply yields_bind, yields_diagnostic, yields_ret.
  - apply yields_ret. split; [done|]. intros t [= <-]. bool_prop.
    split; [|done]. split_and!; cbn; [by destruct key|lia..].
Qed.
Lemma yields_checked_tags k (l : list (str * str)) : key_sorted l →
  yields (filter_map (checked_tag limits) k l)
    (λ ts n, n = 0 ∧ (length ts ≤ k)%nat ∧ Forall tag_bounded ts ∧ tags_sorted ts
             ∧ ∀ t, t ∈ ts → (t_key t, t_value t) ∈ l).
Proof.
  revert k. induction l as [|kv l IH]; intros [|k] Hl;
    try (apply yields_ret; split_and!; [done|cbn; lia|constructor|constructor|set_solver]).
  apply StronglySorted_inv in Hl as [Hl Hk]. rewrite Forall_forall in Hk.
  cbn [filter_map]. step (apply yields_checked_tag) as [-> Ho].
  step (by apply IH) as (-> & Hlen & Ht & Hs & Hin). apply yields_ret.
  destruct a as [t|]; cbn; [|split_and!; [done|lia|done..|set_solver]].
  destruct (Ho t eq_refl) as [Hb Hkv]. split_and!; [done|lia|by constructor| |].
  - constructor; [done|]. rewrite Forall_forall. intros t' Ht'.
    specialize (Hk _ (Hin t' Ht')). by rewrite <- Hkv in Hk.
  - intros t' [->|Ht']%elem_of_cons; [rewrite Hkv; left|right; by apply Hin].
Qed.
Lemma yields_tags (value : option (JValue N)) :
  yields (normalize_tags limits value)
    (λ ts n, n = 0 ∧ len ts ≤ nl_max_tags limits ∧ Forall tag_bounded ts ∧ tags_sorted ts).
Proof.
  assert (0 < nl_max_tags limits) as Hp by positive.
  destruct value as [value|]; cbn [normalize_tags].
  - step (instantiate (1 := λ r n, n = 0 ∧ key_sorted r.1);
          assert (key_sorted (@nil (str * str))) by constructor;
          destruct value; try (by apply yields_bind, yields_diagnostic, yields_ret);
          [by apply tags_of_array_sorted|];
          step (by apply tags_of_object_sorted) as [-> Ht]; by apply yields_ret) as [-> Ht].
    apply yields_bind, yields_diagnose, yields_bind, yields_diagnose.
    eapply yields_mono; [by apply yields_checked_tags|].
    intros ts n (-> & Hlen & Hts & Hs & _). split_and!; [done| |done..]. by apply take_len.
  - apply yields_ret. split_and!; [done|unfold len; cbn; lia|constructor|constructor].
Qed.

(** ** The event *)

Lemma yields_identity_string (root : list (str * JValue N)) key maximum :
  yields (lift (identity_string root key maximum))
    (λ o n, n = 0 ∧ ∀ v, o = Some v → v ≠ [] ∧ len v ≤ maximum).
Proof.
  apply yields_lift. unfold identity_string. intros o E. split; [done|]. intros v ->.
  destruct (map_get root (lit key)) as [[| | |s| |]|]; try done.
  destruct (is_empty s) eqn:Ee; [done|]. destruct (Z.leb_spec (len s) maximum); [|done].
  injection E as ->. split; [by destruct v|done].
Qed.
Lemma yields_event_timestamp (root : list (str * JValue N)) received_at :
  yields (event_timestamp limits root received_at)
    (λ t n, n = 0 ∧ (t = received_at ∨ timestamp_valid t)).
Proof.
  unfold event_timestamp. destruct (_ ≫= parse_timestamp) as [[t|e]|] eqn:E.
  - apply yields_ret. split; [done|]. right. apply bind_Some in E as (v & _ & E).
    by eapply parsed_timestamp_valid.
  - apply yields_bind, yields_diagnostic, yields_ret. auto.
  - apply yields_bind, yields_diagnose, yields_ret. auto.
Qed.
Lemma yields_root (root : list (str * JValue N)) received_at :
  yields (normalize_root limits root received_at)
    (λ b n, body_bounded limits received_at b ∧ n = body_nodes b).
Proof.
  unfold normalize_root.
  step (apply yields_event_timestamp) as [-> Htime].
  step (apply yields_identity_string) as [-> Hrelease].
  step (apply yields_identity_string) as [-> Hdist].
  step (apply yields_identity_string) as [-> Henvironment].
  step (apply yields_platform) as [-> Hplatform].
  step (apply yields_level) as ->.
  step (by apply yields_optional_string) as [-> Hlogger].
  step (apply yields_message) as [-> Hmessage].
  step (by apply yields_optional_string) as [-> Htransaction].
  step (apply yields_string_array; [positive|done]) as (-> & Hfingerprint).
  step (apply yields_exceptions) as [Hexceptions ->].
  step (apply yields_stacktrace) as [Hstacktrace ->].
  step (apply yields_tags) as [-> Htags].
  step (apply yields_optional_object) as [Hrequest ->].
  step (apply yields_optional_object) as [Huser ->].
  step (apply yields_named_object) as [Hcontexts ->].
  step (apply yields_breadcrumbs) as [Hbreadcrumbs ->].
  step (apply yields_unknown) as [Hunknown ->].
  apply yields_ret. split; [constructor; cbn; auto|]. unfold body_nodes.
  cbn [e_exceptions e_stacktrace e_request e_user e_contexts e_breadcrumbs e_unknown]. lia.
Qed.

Lemma normalize_ok event e :
  normalize limits event = Ok e →
  body_bounded limits (ae_received_at event) (ne_body e)
  ∧ body_nodes (ne_body e) ≤ nl_max_nodes limits
  ∧ diagnostics_ok (ne_diagnostics e)
  ∧ (ne_project_id e, ne_event_id e, ne_received_at e, ne_policy_revision e)
    = (ae_project_id event, ae_event_id event, ae_received_at event, ae_policy_revision event).
Proof.
  unfold normalize. intros E. apply bind_Ok in E as (v & _ & E).
  apply bind_Ok in E as (root & _ & E). apply bind_Ok in E as ([body c] & E & [= <-]).
  assert (context_ok context_new) as Hnew.
  { split; cbn; [pose proof limits_nodes; lia|]. split; [|constructor].
    rewrite !Forall_cons in Hpositive. unfold len. cbn. lia. }
  destruct (yields_root _ _ _ _ _ Hnew E) as [[Hnodes Hd] [Hb Hn]]. cbn in Hn |- *.
  split_and!; [done|lia|done|done].
Qed.
End bounds.

(** ** What a normalized event keeps *)

(** The limits are [usize]. *)
Definition limits_usize (l : NormalizerLimits) : Prop :=
  Forall (λ v, 0 ≤ v)
    [nl_max_depth l; nl_max_nodes l; nl_max_diagnostics l; nl_max_exceptions l; nl_max_frames l;
     nl_max_tags l; nl_max_breadcrumbs l; nl_max_fingerprint l; nl_max_unknown_fields l;
     nl_max_object_fields l; nl_max_array_items l; nl_max_string_bytes l].
Lemma limits_positive l : limits_validate l = true → limits_usize l →
  Forall (λ v, 0 < v)
    [nl_max_depth l; nl_max_nodes l; nl_max_diagnostics l; nl_max_exceptions l; nl_max_frames l;
     nl_max_tags l; nl_max_breadcrumbs l; nl_max_fingerprint l; nl_max_unknown_fields l;
     nl_max_object_fields l; nl_max_array_items l; nl_max_string_bytes l].
Proof.
  unfold limits_validate, limits_usize. set (values := [_; _; _; _; _; _; _; _; _; _; _; _]).
  intros H Hu. bool_prop. rewrite Forall_forall in *. intros v Hv.
  assert (v ≠ 0); [|specialize (Hu v Hv); lia]. intros ->.
  assert (existsb (Z.eqb 0) values = true); [|congruence].
  apply existsb_exists. exists 0. split; [by apply list_elem_of_In|done].
Qed.

(** C15. An event the normalizer accepts keeps its limits: each text the smaller of
    the bound of its field and the configured bound on texts, but thread
    identifiers, tags, the release, the distribution and the environment the bound
    of their field alone; each list its configured length; nested values their
    depth, widths and texts (their keys are not bounded); the whole event its number
    of nodes; and the diagnostics, which are distinct, theirs.  Tags are sorted and
    distinct, and the event keeps the identity of the accepted one. *)
Theorem normalize_within_limits {N} `{!JsonApi N} limits event e :
  (∀ (n : N) v, number_as_u64 n = Some v → 0 ≤ v ≤ U64_MAX) →
  limits_validate limits = true → limits_usize limits →
  normalize limits event = Ok e →
  body_bounded limits (ae_received_at event) (ne_body e)
  ∧ body_nodes (ne_body e) ≤ nl_max_nodes limits
  ∧ diagnostics_ok limits (ne_diagnostics e)
  ∧ (ne_project_id e, ne_event_id e, ne_received_at e, ne_policy_revision e)
    = (ae_project_id event, ae_event_id event, ae_received_at event, ae_policy_revision event).
Proof. intros Hu Hl Hs. apply normalize_ok; [done|by apply limits_positive|done]. Qed.

(** A decoder that knows one document. *)
Definition sample_json : JsonApi Z := {|
  json_from_slice payload :=
    if bool_decide (payload = lit "{}") then Some (JObject [
      (lit "exception", JObject [(lit "values", JArray [JObject [
         (lit "stacktrace", JObject [(lit "frames", JArray [JObject [
            (lit "function", JString (lit "main")); (lit "lineno", JNumber 7)]])]);
         (lit "type", JString (lit "Error"))]])]);
      (lit "future", JObject [(lit "a", JNumber 1)]);
      (lit "level", JString (lit "warn"));
      (lit "tags", JArray [JArray [JString (lit "z"); JString (lit "1")];
                           JArray [JString (lit "a"); JString (lit "2")]])]) else None;
  number_to_string := to_dec;
  number_as_f64 n := Some (f64_of_i64 n);
  number_as_u64 n := if in_range 0 U64_MAX n then Some n else None |}.
Definition sample_accepted : AcceptedEvent :=
  {| ae_project_id := 1; ae_event_id := repeat 0 16; ae_received_at := 5;
     ae_policy_revision := 1; ae_payload := lit "{}" |}.
Lemma normalize_within_limits_witness :
  ∃ e, normalize (JsonApi0 := sample_json) limits_default sample_accepted = Ok e
       ∧ map t_key (e_tags (ne_body e)) = [lit "a"; lit "z"]
       ∧ body_bounded limits_default 5 (ne_body e).
Proof.
  destruct (normalize (JsonApi0 := sample_json) limits_default sample_accepted) as [e|] eqn:E;
    [|vm_compute in E; discriminate].
  exists e. split; [reflexivity|]. split; [vm_compute in E; injection E as <-; reflexivity|].
  refine (proj1 (normalize_within_limits (JsonApi0 := sample_json) limits_default sample_accepted
                   e _ _ _ E)).
  - intros n v. cbn. destruct (in_range 0 U64_MAX n) eqn:Er; [|discriminate].
    intros [= <-]. apply in_range_true. exact Er.
  - reflexivity.
  - repeat constructor; vm_compute; congruence.
Defined.

(** ** The calendar *)

(** The days of the years before [year], and of the months before [month]. *)
Fixpoint days_before_year (year : nat) : Z :=
  match year with
  | O => 0
  | S y => days_before_year y + (if leap_year (Z.of_nat y) then 366 else 365)
  end.
Definition days_before_month (year month : Z) : Z :=
  sum_map (days_in_month year) (map Z.of_nat (seq 1 (Z.to_nat month - 1))).
(** Days since 1970-01-01: 719528 days after 0000-01-01. *)
Definition calendar_days (year month day : Z) : Z :=
  days_before_year (Z.to_nat year) + days_before_month year month + (day - 1) - 719528.

Lemma leap_year_mod y : 0 ≤ y →
  leap_year y = (y mod 4 =? 0) && (negb (y mod 100 =? 0) || (y mod 400 =? 0)).
Proof. intros. unfold leap_year. by rewrite !Z.rem_mod_nonneg by lia. Qed.
(** The days before the year after [year]. *)
Definition elapsed_days (year : Z) : Z := 365 * year + year / 4 - year / 100 + year / 400.
Lemma elapsed_days_step year : 0 ≤ year →
  elapsed_days year = elapsed_days (year - 1) + (if leap_year year then 366 else 365).
Proof.
  intros Hy. rewrite leap_year_mod by done. unfold elapsed_days.
  destruct (Z.eqb_spec (year mod 4) 0), (Z.eqb_spec (year mod 100) 0),
    (Z.eqb_spec (year mod 400) 0); cbn [andb orb negb]; Z.to_euclidean_division_equations; lia.
Qed.
Lemma elapsed_days_eras year : -1 ≤ year →
  let era := Z.quot (if 0 <=? year then year else year - 399) 400 in
  let year_of_era := year - era * 400 in
  era * 146097 + (year_of_era * 365 + Z.quot year_of_era 4 - Z.quot year_of_era 100)
  = elapsed_days year.
Proof.
  intros Hy. unfold elapsed_days. destruct (Z.leb_spec 0 year); cbn zeta.
  - rewrite !Z.quot_div_nonneg by (Z.to_euclidean_division_equations; lia).
    Z.to_euclidean_division_equations; lia.
  - assert (year = -1) as -> by lia. done.
Qed.
Lemma days_before_year_elapsed n : days_before_year n = elapsed_days (Z.of_nat n - 1) + 366.
Proof.
  induction n as [|n IH]; [done|]. cbn [days_before_year]. rewrite IH, Nat2Z.inj_succ.
  replace (Z.succ (Z.of_nat n) - 1) with (Z.of_nat n) by lia.
  rewrite (elapsed_days_step (Z.of_nat n)) by lia. lia.
Qed.
Lemma days_before_month_offset year month : 1 ≤ month ≤ 12 →
  days_before_month year month
  = Z.quot (153 * (month + (if 2 <? month then -3 else 9)) + 2) 5 + 60
    - (if month <=? 2 then 366 else if leap_year year then 0 else 1).
Proof.
  intros Hm. assert (month ∈ [1;2;3;4;5;6;7;8;9;10;11;12]) as Hin by (rewrite !elem_of_cons; lia).
  unfold days_before_month, days_in_month.
  repeat (apply elem_of_cons in Hin as [->|Hin]); [..|by apply not_elem_of_nil in Hin];
    destruct (leap_year year); reflexivity.
Qed.
Lemma days_from_civil_calendar year month day : 0 ≤ year → 1 ≤ month ≤ 12 →
  days_from_civil year month day = calendar_days year month day.
Proof.
  intros Hy Hm. unfold calendar_days.
  rewrite days_before_year_elapsed, Z2Nat.id, days_before_month_offset by done.
  unfold days_from_civil. set (y := year - _). set (month_days := Z.quot _ 5).
  pose proof (elapsed_days_eras y ltac:(subst y; destruct (_ <=? _); lia)) as He. cbn zeta in *.
  enough (elapsed_days y = elapsed_days (year - 1) + 366
          - (if month <=? 2 then 366 else if leap_year year then 0 else 1)) by lia.
  pose proof (elapsed_days_step year Hy) as Hs. subst y.
  destruct (month <=? 2); [lia|]. rewrite Z.sub_0_r. destruct (leap_year year); lia.
Qed.

(** The text [YYYY-MM-DDTHH:MM:SSZ] of an instant. *)
Definition digits2 (n : Z) : str := [48 + n / 10; 48 + n mod 10].
Definition digits4 (n : Z) : str := digits2 (n / 100) ++ digits2 (n mod 100).
Definition rfc3339_utc (year month day hour minute second : Z) : str :=
  digits4 year ++ [45] ++ digits2 month ++ [45] ++ digits2 day ++ [84] ++ digits2 hour ++ [58]
  ++ digits2 minute ++ [58] ++ digits2 second ++ [90].

Lemma parse_digits_at value start length_ d : take length_ (drop start value) = d →
  length d = length_ → parse_digits value start length_ = parse_digits d 0 length_.
Proof. intros H Hl. unfold parse_digits. rewrite drop_0, H, take_ge by lia. done. Qed.
Lemma digit_char d : 0 ≤ d < 10 →
  is_ascii_digit (48 + d) = true ∧ digit_value (48 + d) = Some d ∧ (48 + d =? 43) = false.
Proof.
  intros Hd. unfold digit_value, is_ascii_digit, in_range.
  replace ((48 <=? 48 + d) && (48 + d <=? 57)) with true by (symmetry; lia).
  split_and!; [done|by rewrite Z.add_simpl_l|lia].
Qed.
Lemma digits_all (ds : list Z) acc : Forall (λ d, 0 ≤ d < 10) ds →
  forallb is_ascii_digit (map (λ d, 48 + d) ds) = true
  ∧ digits_value 10 acc (map (λ d, 48 + d) ds) = Some (foldl (λ acc d, acc * 10 + d) acc ds).
Proof.
  intros H. revert acc. induction H as [|d ds Hd _ IH]; intros acc; [done|]. cbn.
  destruct (digit_char d Hd) as (H1 & H2 & _). rewrite H1, H2.
  replace (d <? 10) with true by lia. apply IH.
Qed.
(** A text of digits is read as the number it writes. *)
Lemma parse_digits_map ds n : Forall (λ d, 0 ≤ d < 10) ds → ds ≠ [] →
  foldl (λ acc d, acc * 10 + d) 0 ds = n → 0 ≤ n ≤ U32_MAX →
  parse_digits (map (λ d, 48 + d) ds) 0 (length ds) = Ok n.
Proof.
  intros H Hne Hn Hmax. destruct (digits_all ds 0 H) as [H1 H2]. unfold parse_digits.
  rewrite drop_0, take_ge, length_map, Nat.eqb_refl, H1 by (rewrite length_map; lia).
  unfold parse_unsigned. destruct ds as [|d ds]; [done|]. cbn [map andb] in *.
  assert (∀ A (x y : A), match 48 + d with 43 => x | _ => y end = y) as H43.
  { inversion_clear H as [|? ? Hd _]. intros A x y.
    assert (d ∈ [0;1;2;3;4;5;6;7;8;9]) as Hin by (rewrite !elem_of_cons; lia).
    repeat (apply elem_of_cons in Hin as [->|Hin]; [done|]). by apply elem_of_nil in Hin. }
  rewrite H43. cbn [is_empty]. rewrite H2, Hn. replace (n <=? U32_MAX) with true by lia. done.
Qed.
Lemma parse_digits2 n : 0 ≤ n < 100 → parse_digits (digits2 n) 0 2 = Ok n.
Proof.
  intros Hn. apply (parse_digits_map [n / 10; n mod 10]); [|done|cbn|unfold U32_MAX; lia].
  - repeat constructor; Z.to_euclidean_division_equations; lia.
  - Z.to_euclidean_division_equations; lia.
Qed.
Lemma parse_digits4 n : 0 ≤ n < 10000 → parse_digits (digits4 n) 0 4 = Ok n.
Proof.
  intros Hn. apply (parse_digits_map [n / 100 / 10; (n / 100) mod 10; n mod 100 / 10; (n mod 100) mod 10]);
    [|done|cbn|unfold U32_MAX; lia].
  - repeat constructor; Z.to_euclidean_division_equations; lia.
  - Z.to_euclidean_division_equations; lia.
Qed.

Lemma calendar_days_bounded year month day : 0 ≤ year ≤ 9999 → 1 ≤ month ≤ 12 → 1 ≤ day ≤ 31 →
  -1000000 ≤ calendar_days year month day ≤ 5000000.
Proof.
  intros. unfold calendar_days.
  rewrite days_before_year_elapsed, Z2Nat.id, days_before_month_offset by lia.
  unfold elapsed_days. destruct (2 <? month), (month <=? 2), (leap_year year);
    Z.to_euclidean_division_equations; lia.
Qed.

(** A UTC instant written [YYYY-MM-DDTHH:MM:SSZ], on a day of the Gregorian
    calendar, is read as the milliseconds since 1970 that counting the days of
    the years and months gives. *)
Theorem rfc3339_reads_calendar year month day hour minute second :
  0 ≤ year ≤ 9999 → 1 ≤ month ≤ 12 → 1 ≤ day ≤ days_in_month year month →
  0 ≤ hour ≤ 23 → 0 ≤ minute ≤ 59 → 0 ≤ second ≤ 59 →
  parse_rfc3339_millis (rfc3339_utc year month day hour minute second)
  = Ok (1000 * (86400 * calendar_days year month day + 3600 * hour + 60 * minute + second)).
Proof.
  intros Hy Hm Hd Hh Hmi Hs.
  assert (days_in_month year month ≤ 31) as Hmax
    by (unfold days_in_month; destruct (_ || _), (month =? 2), (leap_year year); lia).
  pose proof (calendar_days_bounded year month day ltac:(lia) ltac:(lia) ltac:(lia)) as Hc.
  unfold parse_rfc3339_millis.
  rewrite (parse_digits_at _ 0 4 (digits4 year)), (parse_digits_at _ 5 2 (digits2 month)),
    (parse_digits_at _ 8 2 (digits2 day)), (parse_digits_at _ 11 2 (digits2 hour)),
    (parse_digits_at _ 14 2 (digits2 minute)), (parse_digits_at _ 17 2 (digits2 second)) by done.
  rewrite parse_digits4, !parse_digits2 by lia.
  cbn [mbind result_bind].
  assert (∀ v, -10 ^ 15 ≤ v ≤ 10 ^ 15 → checked_i64 v = Some v) as Hchecked.
  { intros v Hv. unfold checked_i64, checked. destruct (in_range _ _ v) eqn:E; [done|].
    apply in_range_false in E. unfold I64_MIN, I64_MAX in *. lia. }
  rewrite (proj2 (in_range_true 1 12 month)), (proj2 (Z.eqb_neq day 0)) by lia.
  rewrite (proj2 (Z.ltb_ge (days_in_month year month) day)), (proj2 (Z.ltb_ge 23 hour)),
    (proj2 (Z.ltb_ge 59 minute)), (proj2 (Z.ltb_ge 59 second)) by lia.
  cbn [negb orb].
  change (parse_fraction _ 19) with (@Ok PrimitiveError _ (0, 19%nat)). cbn [mbind result_bind].
  change (parse_offset _ 19) with (@Ok PrimitiveError _ 0). cbn [mbind result_bind].
  rewrite days_from_civil_calendar, Hchecked by lia. cbn [ok_or mbind result_bind].
  do 3 (rewrite Hchecked by lia; cbn [ok_or mbind result_bind]).
  rewrite Hchecked by lia. cbn. f_equal. lia.
Qed.
Lemma rfc3339_reads_calendar_witness :
  parse_rfc3339_millis (lit "2024-02-29T23:59:59Z") = Ok 1709251199000.
Proof.
  refine (eq_trans (rfc3339_reads_calendar 2024 2 29 23 59 59 _ _ _ _ _ _) _);
    [..|vm_compute; reflexivity]; vm_compute; split; congruence.
Defined.
