(* ===== verification/JsonValue.v ===== *)
(** * Access to JSON values

    The methods of [serde_json::Value] the ingestion of records uses, on the
    values of [Normalizer], and the interfaces of the encoder, of the streaming
    decoder and of the numbers the code makes. *)
From stdpp Require Import base list numbers strings.
From Stdlib Require Import ZArith Lia SpecFloat.
From S2P Require Import Prelude Float Event Normalizer.

(** [serde_json::to_vec]. *)
Class JsonPrint (N : Type) := json_to_vec : JValue N → option bytes.
(** [Deserializer::from_slice] used as a stream, to its end: the entries of an
    object in the order of the text, repeated names included, and the number of
    elements of an array.  An entry is [None] when it is no [Value] although it
    is well formed. *)
Class JsonStream (N : Type) := {
  json_entries : bytes → option (list (str * option (JValue N)));
  json_array_len : bytes → option Z;
}.

(** [Value::from]: numbers made by the code. *)
Class JsonBuild (N : Type) := {
  number_of_u64 : Z → N;
  number_of_i64 : Z → N;
  value_of_f64 : f64 → JValue N;
}.

Section json.
Context {N : Type} `{!JsonApi N}.
Abbreviation Value := (JValue N).

Definition get (value : Value) (key : string) : option Value :=
  match value with JObject fields => map_get fields (lit key) | _ => None end.
Definition as_bool (value : Value) : option bool :=
  match value with JBool b => Some b | _ => None end.
Definition as_u64 (value : Value) : option Z :=
  match value with JNumber n => number_as_u64 n | _ => None end.
Definition as_f64 (value : Value) : option f64 :=
  match value with JNumber n => number_as_f64 n | _ => None end.
Definition as_u32 (value : Value) : option Z :=
  n ← as_u64 value; if n <=? U32_MAX then Some n else None.
Definition is_null (value : Value) : bool := match value with JNull => true | _ => false end.

(** [Value::pointer]: an index has no sign and no leading zero. *)
Definition parse_index (token : str) : option nat :=
  if starts_with [43] token || (starts_with [48] token && negb (len token =? 1)) then None
  else Z.to_nat <$> parse_u64 token.
Definition pointer_step (value : Value) (token : string) : option Value :=
  match value with
  | JObject fields => map_get fields (lit token)
  | JArray values => i ← parse_index (lit token); values !! i
  | _ => None
  end.
Definition pointer (value : Value) (tokens : list string) : option Value :=
  foldl (λ v token, v ≫= λ v, pointer_step v token) (Some value) tokens.

(** [Map::insert] and [Map::remove]. *)
Definition map_insert (fields : list (str * Value)) (key : string) (value : Value)
    : list (str * Value) := (btree_insert fields (lit key) value).1.
Definition map_remove (fields : list (str * Value)) (key : string) : list (str * Value) :=
  List.filter (λ kv, negb (bool_decide (kv.1 = lit key))) fields.

(** [json!({..})]. *)
Definition json_object (fields : list (string * Value)) : Value :=
  JObject (foldl (λ object kv, map_insert object kv.1 kv.2) [] fields).

Lemma get_object value key v : get value key = Some v → ∃ fields, value = JObject fields.
Proof. destruct value; try done. eauto. Qed.
End json.
