(* ===== verification/Grouping.v ===== *)
(** * Event grouping

    [domain/src/grouping.rs]: the versioned grouping key, the selection of the
    components of an event (SDK fingerprint, exception stack, native stack,
    message), their normalisation, the encoding that is hashed and the issue
    identity derived from it. *)
From stdpp Require Import base list numbers strings sets gmap.
From Stdlib Require Import ZArith Lia.
From S2P Require Import Prelude Primitives Identity Event.

Definition REVISION_1 : Z := 1.
Definition MAX_COMPONENTS : Z := 64.
Definition MAX_COMPONENT_BYTES : nat := (2 * 1024)%nat.
Definition MAX_GROUPING_FRAMES : nat := 8%nat.
Definition MAX_EXCEPTION_TYPES : nat := 8%nat.
Definition DEFAULT_FINGERPRINT : str := lit "{{ default }}".

(** ** Keys *)

Record GroupingKey := {
  gk_revision : Z;
  gk_digest : bytes;
}.
#[export] Instance GroupingKey_eq_dec : EqDecision GroupingKey.
Proof. solve_decision. Defined.

Inductive GroupingKeyError := InvalidLength | InvalidRevision.

Definition grouping_key_parse (bs : bytes) : result GroupingKeyError GroupingKey :=
  if negb (len bs =? 34) then Err InvalidLength
  else
    let revision := be_val (take 2 bs) in
    if revision =? 0 then Err InvalidRevision
    else Ok {| gk_revision := revision; gk_digest := drop 2 bs |}.

Definition grouping_key_to_bytes (k : GroupingKey) : bytes :=
  be_bytes 2 (gk_revision k) ++ gk_digest k.

Definition grouping_key_valid (k : GroupingKey) : Prop :=
  0 < gk_revision k ≤ U16_MAX ∧ length (gk_digest k) = 32%nat ∧ Forall is_byte (gk_digest k).

Inductive GroupingStrategy := SdkFingerprint | ExceptionStack | NativeStack | Message.
#[export] Instance GroupingStrategy_eq_dec : EqDecision GroupingStrategy.
Proof. solve_decision. Defined.

Definition strategy_as_str (s : GroupingStrategy) : str :=
  lit match s with
  | SdkFingerprint => "sdk_fingerprint"
  | ExceptionStack => "exception_stack"
  | NativeStack => "native_stack"
  | Message => "message"
  end.

Definition strategy_domain (s : GroupingStrategy) : bytes :=
  lit match s with
  | SdkFingerprint => "sdk_fingerprint/v1"
  | ExceptionStack => "exception_stack/v1"
  | NativeStack => "native_stack/v1"
  | Message => "message/v1"
  end.

Inductive GroupingComponentKind :=
| GSdkFingerprint | GDefaultStrategy | GDefaultDigest | GExceptionType | GFrame
| GFrameFunction | GFrameModule | GFramePath | GFrameLine | GNativeModule
| GNativeRelativeAddress | GLogger | GMessage.

Definition component_code (k : GroupingComponentKind) : Z :=
  match k with
  | GSdkFingerprint => 1 | GDefaultStrategy => 2 | GDefaultDigest => 3
  | GExceptionType => 4 | GFrame => 5 | GFrameFunction => 6 | GFrameModule => 7
  | GFramePath => 8 | GFrameLine => 9 | GNativeModule => 10
  | GNativeRelativeAddress => 11 | GLogger => 12 | GMessage => 13
  end.

Record GroupingComponent := {
  gc_kind : GroupingComponentKind;
  gc_value : str;
}.

Record GroupingResult := {
  gr_key : GroupingKey;
  gr_issue_id : bytes;
  gr_strategy : GroupingStrategy;
  gr_summary : str;
  gr_components : list GroupingComponent;
}.

Inductive GroupingError := UnsupportedRevision | InputLimitExceeded.

Record Selected := {
  sel_strategy : GroupingStrategy;
  sel_components : list GroupingComponent;
  sel_summary : str;
}.

(** ** Normalisation of values *)

Definition normalize_identifier (value : str) : str := to_ascii_lowercase (trim value).

Definition replace_byte (a b : Z) (s : bytes) : bytes := map (λ x, if x =? a then b else x) s.

(** The last [n] elements. *)
Definition last_n {A} (n : nat) (l : list A) : list A := drop (length l - n) l.

Definition normalize_path (value : str) : str :=
  let normalized := replace_byte 92 47 value in
  let without_query :=
    unwrap_or normalized (head (split_by (λ b, (b =? 63) || (b =? 35)) normalized)) in
  let parts := List.filter non_empty (split_on 47 without_query) in
  to_ascii_lowercase (join (lit "/") (last_n 2 parts)).

(** The loop of [truncate_utf8]: down to a character boundary. *)
Fixpoint boundary_down (value : str) (stop : nat) : nat :=
  if is_char_boundary value stop then stop
  else match stop with O => O | S stop' => boundary_down value stop' end.

Definition truncate_utf8 (value : str) (maximum : nat) : str :=
  take (boundary_down value (Nat.min maximum (length value))) value.

Definition uuid_byte (indexed : nat * Z) : bool :=
  let '(index, byte) := indexed in
  if ((index =? 8) || (index =? 13) || (index =? 18) || (index =? 23))%nat
  then byte =? 45 else is_ascii_hexdigit byte.

Definition is_uuid (value : str) : bool :=
  (length value =? 36)%nat && forallb uuid_byte (zip (seq 0 (length value)) value).

Definition is_address (value : str) : bool :=
  is_some_and (λ digits, (6 <=? length digits)%nat && forallb is_ascii_hexdigit digits)
    (option_or (strip_prefix (lit "0x") value) (strip_prefix (lit "0X") value)).

Definition normalize_message_token (token : str) : str :=
  let trimmed :=
    trim_by (λ b, negb (is_ascii_alphanumeric b) && negb (b =? 45)) token in
  if is_uuid trimmed then lit "{uuid}"
  else if is_address token then lit "{address}"
  else if (6 <=? length trimmed)%nat && forallb is_ascii_digit trimmed then lit "{number}"
  else if (16 <=? length trimmed)%nat && forallb is_ascii_alphanumeric trimmed
          && existsb is_ascii_alphabetic trimmed && existsb is_ascii_digit trimmed
  then lit "{id}"
  else to_ascii_lowercase token.

Definition normalize_message (value : str) : str :=
  truncate_utf8 (join (lit " ") (map normalize_message_token (split_whitespace value)))
    MAX_COMPONENT_BYTES.

(** ** Frames *)

Inductive FrameIdentity :=
| Raw (function module path : option str) (line : option Z)
| Derived (function module path : option str) (line : option Z).

Definition frame_fields (f : FrameIdentity)
    : option str * option str * option str * option Z :=
  match f with
  | Raw function module path line | Derived function module path line =>
      (function, module, path, line)
  end.

Definition raw_identity (frame : NormalizedFrame) : option FrameIdentity :=
  let significant :=
    is_none (f_instruction_address frame)
    && is_none (f_symbol_address frame)
    && negb (bool_decide (f_in_app frame = Some false))
    && (is_some (f_function frame) || is_some (f_module frame)
        || is_some (f_filename frame) || is_some (f_absolute_path frame)) in
  if significant then
    Some (Raw (normalize_identifier <$> f_function frame)
              (normalize_identifier <$> f_module frame)
              (normalize_path <$> option_or (f_filename frame) (f_absolute_path frame))
              (if is_none (f_function frame) then f_line frame else None))
  else None.

Definition derived_identity (frame : SymbolicatedFrame) : option FrameIdentity :=
  let significant :=
    is_some (sf_function frame) || is_some (sf_module frame) || is_some (sf_filename frame) in
  if significant then
    Some (Derived (normalize_identifier <$> sf_function frame)
                  (normalize_identifier <$> sf_module frame)
                  (normalize_path <$> sf_filename frame)
                  (if is_none (sf_function frame) then sf_line frame else None))
  else None.

(** The table of derived frames by the index of their raw frame: a later one
    replaces an earlier one, an index past the end is left out. *)
Definition derived_by_index (n : nat) (derived : list SymbolicatedFrame)
    : list (option SymbolicatedFrame) :=
  foldl (λ slots frame, <[Z.to_nat (sf_original_index frame) := Some frame]> slots)
    (replicate n None) derived.

Definition significant_frames (raw : list NormalizedFrame)
    (derived : option (list SymbolicatedFrame)) : list FrameIdentity :=
  let by_index := derived_by_index (length raw) (unwrap_or [] derived) in
  take MAX_GROUPING_FRAMES
    (omap (λ rd : NormalizedFrame * option SymbolicatedFrame,
       match rd.2 with
       | Some derived => derived_identity derived
       | None => raw_identity rd.1
       end) (reverse (zip raw by_index))).

Definition component (kind : GroupingComponentKind) (value : str) : GroupingComponent :=
  {| gc_kind := kind; gc_value := value |}.

Definition opt_component (kind : GroupingComponentKind) (value : option str)
    : list GroupingComponent :=
  match value with Some value => [component kind value] | None => [] end.

(** The components of one frame of [append_frame_components]. *)
Definition frame_components (index : nat) (frame : FrameIdentity) : list GroupingComponent :=
  let '(function, module, path, line) := frame_fields frame in
  component GFrame (to_dec (Z.of_nat index))
  :: opt_component GFrameFunction function ++ opt_component GFrameModule module
     ++ opt_component GFramePath path ++ opt_component GFrameLine (to_dec <$> line).

Definition append_frame_components (components : list GroupingComponent)
    (frames : list FrameIdentity) : list GroupingComponent :=
  components ++ concat (imap frame_components frames).

Definition derived_frames (symbolication : option SymbolicationResult)
    (origin : RawTraceOrigin) : option (list SymbolicatedFrame) :=
  match symbolication with
  | None => None
  | Some result =>
      match sy_status result with
      | StComplete | StPartial =>
          ss_frames <$> List.find (λ trace, bool_decide (ss_origin trace = origin))
                          (sy_derived result)
      | _ => None
      end
  end.

(** All frames of the exceptions, then those of the event. *)
Definition all_frames (body : NormalizedEventBody) : list NormalizedFrame :=
  concat (map x_stacktrace (e_exceptions body)) ++ e_stacktrace body.

Definition exception_types (body : NormalizedEventBody) : list str :=
  reverse (take MAX_EXCEPTION_TYPES (omap x_ty (reverse (e_exceptions body)))).

Definition exception_selected (types : list str) (frames : list FrameIdentity) : Selected :=
  {| sel_strategy := ExceptionStack;
     sel_components :=
       append_frame_components (map (component GExceptionType) types) frames;
     sel_summary :=
       lit "exception stack with " ++ to_dec (len types) ++ lit " type(s) and "
       ++ to_dec (len frames) ++ lit " significant frame(s)" |}.

(** The loop over the exceptions, newest first. *)
Fixpoint first_exception_stack (types : list str)
    (symbolication : option SymbolicationResult)
    (exceptions : list (nat * NormalizedException)) : option Selected :=
  match exceptions with
  | [] => None
  | (index, exception) :: exceptions' =>
      let frames := significant_frames (x_stacktrace exception)
        (derived_frames symbolication (OException (Z.of_nat index))) in
      if is_empty frames then first_exception_stack types symbolication exceptions'
      else Some (exception_selected types frames)
  end.

Definition exception_stack (body : NormalizedEventBody)
    (symbolication : option SymbolicationResult) : option Selected :=
  if existsb (λ frame, is_some (f_instruction_address frame)
                       || is_some (f_symbol_address frame)) (all_frames body)
  then None
  else
    let types := exception_types body in
    match first_exception_stack types symbolication
            (reverse (zip (seq 0 (length (e_exceptions body))) (e_exceptions body))) with
    | Some selected => Some selected
    | None =>
        let frames := significant_frames (e_stacktrace body)
          (derived_frames symbolication OEvent) in
        if is_empty frames then None
        else Some {| sel_strategy := ExceptionStack;
                     sel_components :=
                       append_frame_components (map (component GExceptionType) types) frames;
                     sel_summary :=
                       lit "event stack with " ++ to_dec (len frames)
                       ++ lit " significant frame(s)" |}
    end.

(** ** Native stacks *)

Record NativeModule := {
  nm_identity : str;
  nm_base : Z;
  nm_size : option Z;
}.

Definition module_contains (m : NativeModule) (address : Z) : bool :=
  (nm_base m <=? address)
  && is_none_or (λ stop, address <? stop)
       (match nm_size m with
        | Some size => checked_u64 (nm_base m + size)
        | None => None
        end).

Definition canonical_string (value : option CanonicalValue) : option str :=
  match value with Some (VString value) => Some value | _ => None end.
Definition canonical_u64 (value : option CanonicalValue) : option Z :=
  match value with Some (VNumber value) => parse_u64 value | _ => None end.

Definition parse_hex_address (value : str) : option Z :=
  let value := unwrap_or value (strip_prefix (lit "0x") value) in
  if negb (is_empty value) then parse_unsigned 16 U64_MAX value else None.

Definition native_module (image : CanonicalValue) : option NativeModule :=
  match image with
  | VObject image =>
      identity ← option_or (canonical_string (map_get image (lit "debug_id")))
                           (canonical_string (map_get image (lit "code_id")));
      base ← (canonical_string (map_get image (lit "image_addr")) ≫= parse_hex_address);
      Some {| nm_identity := normalize_identifier identity; nm_base := base;
              nm_size := canonical_u64 (map_get image (lit "image_size")) |}
  | _ => None
  end.

(** [sort_by_key]: a stable insertion. *)
Fixpoint insert_module (m : NativeModule) (l : list NativeModule) : list NativeModule :=
  match l with
  | [] => [m]
  | x :: l' => if nm_base m <=? nm_base x then m :: l else x :: insert_module m l'
  end.
Definition sort_modules (l : list NativeModule) : list NativeModule :=
  foldr insert_module [] l.

Definition native_modules (body : NormalizedEventBody) : list NativeModule :=
  match map_get (e_unknown body) (lit "debug_meta") with
  | Some (VObject debug_meta) =>
      match map_get debug_meta (lit "images") with
      | Some (VArray images) => sort_modules (omap native_module images)
      | _ => []
      end
  | _ => []
  end.

(** The module and relative address of one frame: the last module by base that
    holds the address. *)
Definition native_pair (modules : list NativeModule) (frame : NormalizedFrame)
    : option (str * Z) :=
  match f_instruction_address frame ≫= parse_hex_address with
  | None => None
  | Some address =>
      (λ m, (nm_identity m, address - nm_base m))
      <$> List.find (λ m, module_contains m address) (reverse modules)
  end.

Definition native_stack (body : NormalizedEventBody) : option Selected :=
  let modules := native_modules body in
  if is_empty modules then None
  else
    let pairs :=
      take MAX_GROUPING_FRAMES (omap (native_pair modules) (reverse (all_frames body))) in
    if is_empty pairs then None
    else
      Some {| sel_strategy := NativeStack;
              sel_components :=
                opt_component GExceptionType
                  (head (omap x_ty (reverse (e_exceptions body))))
                ++ concat (map (λ p : str * Z,
                     [component GNativeModule p.1;
                      component GNativeRelativeAddress (to_hex p.2)]) pairs);
              sel_summary :=
                lit "native stack with " ++ to_dec (len pairs)
                ++ lit " module-relative frame(s)" |}.

(** ** Selection *)

Definition message_strategy (body : NormalizedEventBody) : Selected :=
  let message :=
    match normalize_message <$> e_message body with
    | Some value => if non_empty value then value else lit "<empty error>"
    | None => lit "<empty error>"
    end in
  {| sel_strategy := Message;
     sel_components :=
       opt_component GLogger (normalize_identifier <$> e_logger body)
       ++ [component GMessage message];
     sel_summary := lit "logger and normalized message" |}.

Definition select_default (body : NormalizedEventBody)
    (symbolication : option SymbolicationResult) : Selected :=
  match exception_stack body symbolication with
  | Some selected => selected
  | None =>
      match native_stack body with
      | Some selected => selected
      | None => message_strategy body
      end
  end.

(** The hasher's input of [key_for]: the strategy, the revision, and each
    component's kind and framed value. *)
Definition key_input (revision : Z) (strategy : GroupingStrategy)
    (components : list GroupingComponent) : bytes :=
  frame 4 (strategy_domain strategy) ++ frame 4 (be_bytes 2 revision)
  ++ concat (map (λ c, component_code (gc_kind c) :: frame 4 (gc_value c)) components).

Definition issue_input (project_id : ProjectId) (key : GroupingKey) : bytes :=
  frame 4 (lit "issue-id/v1") ++ frame 4 (be_bytes 4 project_id)
  ++ frame 4 (grouping_key_to_bytes key).

Definition validate_components (components : list GroupingComponent)
    : result GroupingError unit :=
  if is_empty components || (MAX_COMPONENTS <? len components)
     || existsb (λ c, Z.of_nat MAX_COMPONENT_BYTES <? len (gc_value c)) components
  then Err InputLimitExceeded else Ok tt.

Section group.
Context `{Blake3}.

Definition key_for (revision : Z) (strategy : GroupingStrategy)
    (components : list GroupingComponent) : GroupingKey :=
  {| gk_revision := revision; gk_digest := blake3 (key_input revision strategy components) |}.

Definition derive_issue_id (project_id : ProjectId) (key : GroupingKey) : bytes :=
  take 16 (blake3 (issue_input project_id key)).
Definition verify_issue_id (project_id : ProjectId) (key : GroupingKey) (issue_id : bytes)
    : bool := bool_decide (derive_issue_id project_id key = issue_id).

Definition select_fingerprint (body : NormalizedEventBody)
    (symbolication : option SymbolicationResult) : Selected :=
  let default := select_default body symbolication in
  let default_key := key_for REVISION_1 (sel_strategy default) (sel_components default) in
  {| sel_strategy := SdkFingerprint;
     sel_components :=
       concat (map (λ value,
         if bool_decide (value = DEFAULT_FINGERPRINT) then
           [component GDefaultStrategy (strategy_as_str (sel_strategy default));
            component GDefaultDigest (hex_encode (gk_digest default_key))]
         else [component GSdkFingerprint value]) (e_fingerprint body));
     sel_summary :=
       lit "SDK fingerprint with " ++ to_dec (len (e_fingerprint body))
       ++ lit " component(s)" |}.

Definition group_revision_1 (project_id : ProjectId) (body : NormalizedEventBody)
    (symbolication : option SymbolicationResult) : result GroupingError GroupingResult :=
  let selected :=
    if is_empty (e_fingerprint body) then select_default body symbolication
    else select_fingerprint body symbolication in
  _ ← validate_components (sel_components selected);
  let key := key_for REVISION_1 (sel_strategy selected) (sel_components selected) in
  Ok {| gr_key := key; gr_issue_id := derive_issue_id project_id key;
        gr_strategy := sel_strategy selected; gr_summary := sel_summary selected;
        gr_components := sel_components selected |}.

Definition group (project_id : ProjectId) (pinned_revision : Z) (body : NormalizedEventBody)
    (symbolication : option SymbolicationResult) : result GroupingError GroupingResult :=
  if negb (in_range 0 U16_MAX pinned_revision) then Err UnsupportedRevision
  else if negb (pinned_revision =? REVISION_1) then Err UnsupportedRevision
  else group_revision_1 project_id body symbolication.

End group.

(** ** Lemmas: lengths of components *)

Definition field_ok (s : str) : Prop := (length s ≤ MAX_COMPONENT_BYTES)%nat.
Definition opt_ok (s : option str) : Prop := ∀ v, s = Some v → field_ok v.
Definition line_ok (l : option Z) : Prop := ∀ v, l = Some v → 0 ≤ v ≤ U64_MAX.
Definition identity_ok (f : FrameIdentity) : Prop :=
  let '(function, module, path, line) := frame_fields f in
  opt_ok function ∧ opt_ok module ∧ opt_ok path ∧ line_ok line.
Definition frame_ok (f : NormalizedFrame) : Prop :=
  opt_ok (f_function f) ∧ opt_ok (f_module f) ∧ opt_ok (f_filename f)
  ∧ opt_ok (f_absolute_path f) ∧ line_ok (f_line f).
Definition derived_ok (f : SymbolicatedFrame) : Prop :=
  opt_ok (sf_function f) ∧ opt_ok (sf_module f) ∧ opt_ok (sf_filename f) ∧ line_ok (sf_line f).
Definition component_ok (c : GroupingComponent) : Prop := field_ok (gc_value c).

#[local] Opaque MAX_COMPONENT_BYTES.

Lemma field_ok_le s t : (length s ≤ length t)%nat → field_ok t → field_ok s.
Proof. unfold field_ok. lia. Qed.

Lemma field_ok_short s : (length s ≤ 64)%nat → field_ok s.
Proof. unfold field_ok. change MAX_COMPONENT_BYTES with 2048%nat. lia. Qed.

Lemma normalize_identifier_le s : (length (normalize_identifier s) ≤ length s)%nat.
Proof. unfold normalize_identifier. rewrite length_lowercase. apply length_trim. Qed.

Lemma head_split_le p s w : head (split_by p s) = Some w → (length w ≤ length s)%nat.
Proof.
  pose proof (joined_split_by p s) as H. destruct (split_by p s); [done|].
  cbn in *. intros [= ->]. lia.
Qed.

Lemma normalize_path_le s : (length (normalize_path s) ≤ length s)%nat.
Proof.
  unfold normalize_path. rewrite length_lowercase. change (lit "/") with [47].
  rewrite length_join_single. unfold last_n.
  set (norm := replace_byte 92 47 s).
  assert (Hn : length norm = length s) by apply length_map.
  destruct (head (split_by _ norm)) as [w|] eqn:Ew; cbn [unwrap_or].
  - apply head_split_le in Ew. etrans; [apply Nat.sub_le_mono_r, joined_drop|].
    pose proof (joined_filter non_empty (split_on 47 w)) as Hf. unfold split_on in *.
    rewrite joined_split_by in Hf. lia.
  - etrans; [apply Nat.sub_le_mono_r, joined_drop|].
    pose proof (joined_filter non_empty (split_on 47 norm)) as Hf. unfold split_on in *.
    rewrite joined_split_by in Hf. lia.
Qed.

Lemma opt_ok_fmap f s : (∀ v, (length (f v) ≤ length v)%nat) → opt_ok s → opt_ok (f <$> s).
Proof.
  intros Hf Hs v Hv. apply fmap_Some in Hv as (w & -> & ->).
  apply (field_ok_le _ w); [apply Hf|by apply Hs].
Qed.

Lemma raw_identity_ok f i : frame_ok f → raw_identity f = Some i → identity_ok i.
Proof.
  intros (Hf & Hm & Hn & Hp & Hl). unfold raw_identity. destruct (_ && _); [|done].
  intros [= <-]. cbn. split_and!.
  - apply opt_ok_fmap; [apply normalize_identifier_le|done].
  - apply opt_ok_fmap; [apply normalize_identifier_le|done].
  - apply opt_ok_fmap; [apply normalize_path_le|]. by destruct (f_filename f).
  - by destruct (is_none (f_function f)).
Qed.

Lemma derived_identity_ok f i : derived_ok f → derived_identity f = Some i → identity_ok i.
Proof.
  intros (Hf & Hm & Hn & Hl). unfold derived_identity. destruct (_ || _); [|done].
  intros [= <-]. cbn. split_and!.
  - apply opt_ok_fmap; [apply normalize_identifier_le|done].
  - apply opt_ok_fmap; [apply normalize_identifier_le|done].
  - apply opt_ok_fmap; [apply normalize_path_le|done].
  - by destruct (is_none (sf_function f)).
Qed.

Lemma Forall_foldl_insert {A} (P : A → Prop) f (g : SymbolicatedFrame → A) l : ∀ slots,
  Forall P slots → (∀ x, x ∈ l → P (g x)) →
  Forall P (foldl (λ slots x, <[f x := g x]> slots) slots l).
Proof.
  induction l as [|x l IH]; intros slots Hs Hl; cbn; [done|].
  apply IH; [|set_solver]. apply Forall_insert; [done|]. apply Hl. set_solver.
Qed.

Lemma Forall_omap {A B} (P : B → Prop) (f : A → option B) l :
  (∀ x y, x ∈ l → f x = Some y → P y) → Forall P (omap f l).
Proof.
  intros H. apply Forall_forall. intros y Hy.
  apply list_elem_of_omap in Hy as (x & Hx & E). by apply (H x).
Qed.

Lemma significant_frames_ok raw derived :
  Forall frame_ok raw → (∀ l, derived = Some l → Forall derived_ok l) →
  Forall identity_ok (significant_frames raw derived)
  ∧ (length (significant_frames raw derived) ≤ MAX_GROUPING_FRAMES)%nat.
Proof.
  intros Hr Hd. unfold significant_frames. split; [|rewrite length_take; lia].
  apply Forall_take. apply Forall_omap. intros [r d] i Hin Hi.
  rewrite elem_of_reverse in Hin.
  apply elem_of_zip_l in Hin as Hr'. apply elem_of_zip_r in Hin as Hd'. cbn [fst snd] in *.
  destruct d as [d|]; [|apply raw_identity_ok with r; [by eapply Forall_forall in Hr|done]].
  apply derived_identity_ok with d; [|done].
  assert (Hall : Forall (λ o, ∀ x, o = Some x → derived_ok x)
    (derived_by_index (length raw) (unwrap_or [] derived))).
  { unfold derived_by_index.
    apply (Forall_foldl_insert (λ o, ∀ x, o = Some x → derived_ok x)).
    - apply Forall_replicate. done.
    - intros x Hx y [= <-]. destruct derived as [l|]; cbn in Hx; [|set_solver].
      eapply Forall_forall; [by apply Hd|done]. }
  rewrite Forall_forall in Hall. by apply (Hall _ Hd').
Qed.

Lemma frame_components_ok index f :
  Z.of_nat index < 1000 → identity_ok f →
  Forall component_ok (frame_components index f) ∧ (length (frame_components index f) ≤ 5)%nat.
Proof.
  intros Hi. unfold frame_components, identity_ok.
  destruct (frame_fields f) as [[[function module] path] line]. intros (Hf & Hm & Hp & Hl).
  assert (Ho : ∀ k v, opt_ok v →
    Forall component_ok (opt_component k v) ∧ (length (opt_component k v) ≤ 1)%nat).
  { intros k [v|] Hv; cbn; [|split; [constructor|lia]].
    split; [|lia]. constructor; [by apply Hv|constructor]. }
  assert (Hline : opt_ok (to_dec <$> line)).
  { intros v Hv. apply fmap_Some in Hv as (n & -> & ->). specialize (Hl n eq_refl).
    unfold U64_MAX in Hl. apply field_ok_short.
    pose proof (length_to_dec 20 n ltac:(lia)) as H.
    change (10 ^ Z.of_nat 20) with 100000000000000000000 in H. lia. }
  destruct (Ho GFrameFunction _ Hf), (Ho GFrameModule _ Hm), (Ho GFramePath _ Hp),
    (Ho GFrameLine _ Hline). split.
  - constructor.
    { unfold component_ok; cbn. apply field_ok_short.
      pose proof (length_to_dec 3 (Z.of_nat index) ltac:(lia)) as H'.
      change (10 ^ Z.of_nat 3) with 1000 in H'. lia. }
    rewrite !Forall_app. tauto.
  - cbn [length]. rewrite !length_app. lia.
Qed.

Lemma imap_frames_ok frames : ∀ k,
  (k + length frames ≤ 100)%nat → Forall identity_ok frames →
  Forall component_ok (concat (imap (λ i, frame_components (k + i)) frames))
  ∧ (length (concat (imap (λ i, frame_components (k + i)) frames)) ≤ 5 * length frames)%nat
  ∧ (frames ≠ [] → concat (imap (λ i, frame_components (k + i)) frames) ≠ []).
Proof.
  induction frames as [|f fs IH]; intros k Hk Hf; [split_and!; [constructor|done|done]|].
  apply Forall_cons in Hf as [Hf Hfs]. cbn [imap concat length] in *.
  destruct (IH (S k)) as (H1 & H2 & _); [lia|done|].
  destruct (frame_components_ok (k + 0) f) as [H3 H4]; [lia|done|].
  assert (E : imap ((λ i, frame_components (k + i)%nat) ∘ S) fs
              = imap (λ i, frame_components (S k + i)) fs).
  { apply imap_ext. intros i x _. unfold compose.
    replace (k + S i)%nat with (S k + i)%nat by lia. done. }
  rewrite E.
  split_and!.
  - by apply Forall_app.
  - rewrite length_app. lia.
  - intros _ E'. apply app_nil in E' as [E' _]. unfold frame_components in E'.
    by destruct (frame_fields f) as [[[? ?] ?] ?].
Qed.

Lemma append_frame_components_ok types frames :
  Forall field_ok types → (length types ≤ 8)%nat →
  Forall identity_ok frames → (length frames ≤ 8)%nat → frames ≠ [] →
  let cs := append_frame_components (map (component GExceptionType) types) frames in
  Forall component_ok cs ∧ (length cs ≤ 48)%nat ∧ cs ≠ [].
Proof.
  intros Ht Htl Hf Hfl Hne. unfold append_frame_components.
  destruct (imap_frames_ok frames 0) as (H1 & H2 & H3); [lia|done|].
  rewrite (imap_ext (λ i, frame_components (0 + i)) frame_components) in H1, H2, H3 by done.
  cbv zeta. split_and!.
  - apply Forall_app; split; [|done]. apply Forall_map. done.
  - rewrite length_app, length_map. lia.
  - intros E. apply app_nil in E as [_ E]. by apply H3.
Qed.

(** ** Lemmas: the default strategies stay inside the limits *)

(** Every text a component is made of has the length of a field, every line is an
    unsigned integer.  The normalizer guarantees it of every text but the
    identities of native modules, which are nested texts with a limit of their own
    ([Pipeline.long_module_identity_fails]). *)
Definition body_ok (body : NormalizedEventBody) : Prop :=
  opt_ok (e_logger body)
  ∧ (∀ x, x ∈ e_exceptions body → opt_ok (x_ty x) ∧ Forall frame_ok (x_stacktrace x))
  ∧ Forall frame_ok (e_stacktrace body)
  ∧ (∀ m, m ∈ native_modules body → field_ok (nm_identity m)).
Definition symbolication_ok (symbolication : option SymbolicationResult) : Prop :=
  ∀ r, symbolication = Some r → ∀ t, t ∈ sy_derived r → Forall derived_ok (ss_frames t).
Definition selected_ok (s : Selected) : Prop :=
  Forall component_ok (sel_components s) ∧ (length (sel_components s) ≤ 48)%nat
  ∧ sel_components s ≠ [].

Lemma derived_frames_ok sym origin l :
  symbolication_ok sym → derived_frames sym origin = Some l → Forall derived_ok l.
Proof.
  intros Hs. unfold derived_frames. destruct sym as [r|]; [|done]. intros H.
  assert (Hin : ∃ t, t ∈ sy_derived r ∧ ss_frames t = l).
  { destruct (sy_status r); try done; apply fmap_Some in H as (t & Ht & ->);
      apply find_some in Ht as [Ht _]; exists t; by rewrite list_elem_of_In. }
  destruct Hin as (t & Ht & <-). by apply (Hs r).
Qed.

Lemma exception_types_ok body :
  body_ok body →
  Forall field_ok (exception_types body) ∧ (length (exception_types body) ≤ 8)%nat.
Proof.
  intros (_ & Hx & _). unfold exception_types. rewrite length_reverse, length_take.
  split; [|unfold MAX_EXCEPTION_TYPES; lia].
  apply Forall_reverse, Forall_take, Forall_omap. intros x ty Hin Hty.
  rewrite elem_of_reverse in Hin. by apply (Hx x).
Qed.

Lemma first_exception_stack_ok types sym l s :
  Forall field_ok types → (length types ≤ 8)%nat → symbolication_ok sym →
  (∀ i x, (i, x) ∈ l → Forall frame_ok (x_stacktrace x)) →
  first_exception_stack types sym l = Some s → selected_ok s.
Proof.
  intros Ht Htl Hs. induction l as [|[i x] l IH]; intros Hl; cbn; [done|].
  destruct (is_empty _) eqn:E; [apply IH; set_solver|]. intros [= <-].
  destruct (significant_frames_ok (x_stacktrace x)
    (derived_frames sym (OException (Z.of_nat i)))) as [H1 H2].
  { apply (Hl i). set_solver. }
  { intros l'. by apply derived_frames_ok. }
  apply append_frame_components_ok; try done.
  intros E'. by rewrite E' in E.
Qed.

Lemma exception_stack_ok body sym s :
  body_ok body → symbolication_ok sym → exception_stack body sym = Some s → selected_ok s.
Proof.
  intros Hb Hs. pose proof (exception_types_ok body Hb) as [Ht Htl].
  destruct Hb as (_ & Hx & Hst & _). unfold exception_stack. destruct (existsb _ _); [done|].
  destruct (first_exception_stack _ _ _) as [s'|] eqn:E.
  - intros [= <-]. apply first_exception_stack_ok in E; try done.
    intros i x Hin. rewrite elem_of_reverse in Hin. apply elem_of_zip_r in Hin. by apply Hx.
  - destruct (is_empty _) eqn:E'; [done|]. intros [= <-].
    destruct (significant_frames_ok (e_stacktrace body) (derived_frames sym OEvent))
      as [H1 H2]; [done|intros l'; by apply derived_frames_ok|].
    apply append_frame_components_ok; try done.
    intros E''. by rewrite E'' in E'.
Qed.

Lemma native_pair_ok modules f p :
  (∀ m, m ∈ modules → field_ok (nm_identity m)) → native_pair modules f = Some p →
  field_ok p.1.
Proof.
  intros Hm. unfold native_pair. destruct (_ ≫= _) as [a|]; [|done]. intros H.
  apply fmap_Some in H as (m & Hf & ->). apply find_some in Hf as [Hin _].
  apply list_elem_of_In in Hin. rewrite elem_of_reverse in Hin. by apply Hm.
Qed.

Lemma pairs_components_ok (pairs : list (str * Z)) :
  Forall (λ p, field_ok p.1) pairs →
  let cs := concat (map (λ p : str * Z,
    [component GNativeModule p.1; component GNativeRelativeAddress (to_hex p.2)]) pairs) in
  Forall component_ok cs ∧ length cs = (2 * length pairs)%nat.
Proof.
  cbv zeta. induction 1 as [|p ps Hp _ [IH1 IH2]]; [by split|]. cbn [map concat app].
  split; [|cbn [length]; lia]. constructor; [done|]. constructor; [|done].
  apply field_ok_short. pose proof (length_to_hex p.2). cbn [gc_value component]. lia.
Qed.

Lemma native_stack_ok body s : body_ok body → native_stack body = Some s → selected_ok s.
Proof.
  intros (_ & Hx & _ & Hm). unfold native_stack. destruct (is_empty (native_modules body)); [done|].
  destruct (is_empty (take _ _)) eqn:E; [done|]. intros [= <-]. unfold selected_ok.
  cbn [sel_components].
  match type of E with is_empty ?p = _ => set (pairs := p) in * end.
  assert (Hp : Forall (λ p, field_ok p.1) pairs).
  { apply Forall_take, Forall_omap. intros f p _. by apply native_pair_ok. }
  assert (Hl : (length pairs ≤ 8)%nat).
  { unfold pairs. rewrite length_take. unfold MAX_GROUPING_FRAMES. lia. }
  destruct (pairs_components_ok pairs Hp) as [H1 H2]. cbv zeta in *.
  assert (Hty : opt_ok (head (omap x_ty (reverse (e_exceptions body))))).
  { intros v Hv. apply head_Some_elem_of, list_elem_of_omap in Hv as (x & Hin & Hty).
    rewrite elem_of_reverse in Hin. by apply (Hx x). }
  split_and!.
  - apply Forall_app; split; [|done].
    destruct (head _); cbn; constructor; [by apply Hty|constructor].
  - rewrite length_app, H2. destruct (head _); cbn [opt_component length]; lia.
  - intros E'. apply app_nil in E' as [_ E']. apply (f_equal length) in E'.
    rewrite H2 in E'. destruct pairs; [done|cbn in E'; lia].
Qed.

Lemma boundary_down_le v stop : (boundary_down v stop ≤ stop)%nat.
Proof. induction stop; cbn [boundary_down]; repeat case_match; lia. Qed.

Lemma boundary_down_boundary v stop : is_char_boundary v (boundary_down v stop) = true.
Proof.
  induction stop as [|stop IH]; cbn [boundary_down]; [done|].
  destruct (is_char_boundary v (S stop)) eqn:E; [done|apply IH].
Qed.

Lemma boundary_down_greatest v stop i :
  (boundary_down v stop < i ≤ stop)%nat → is_char_boundary v i = false.
Proof.
  induction stop as [|stop IH]; cbn [boundary_down]; intros Hi; [cbn in Hi; lia|].
  destruct (is_char_boundary v (S stop)) eqn:E; [lia|].
  destruct (decide (i = S stop)) as [->|]; [done|apply IH; lia].
Qed.

Lemma truncate_utf8_le v n : (length (truncate_utf8 v n) ≤ n)%nat.
Proof.
  unfold truncate_utf8. rewrite length_take.
  pose proof (boundary_down_le v (Nat.min n (length v))). lia.
Qed.

Lemma message_strategy_ok body : body_ok body → selected_ok (message_strategy body).
Proof.
  intros (Hl & _). unfold selected_ok, message_strategy. cbn [sel_components].
  match goal with |- context [component GMessage ?m] => set (message := m) end.
  assert (Hm : field_ok message).
  { unfold message. destruct (e_message body) as [m|]; cbn; [|by apply field_ok_short; cbn; lia].
    destruct (non_empty _); [|by apply field_ok_short; cbn; lia]. apply truncate_utf8_le. }
  assert (Hg : opt_ok (normalize_identifier <$> e_logger body)).
  { apply opt_ok_fmap; [apply normalize_identifier_le|done]. }
  split_and!.
  - apply Forall_app; split; [|by constructor].
    destruct (normalize_identifier <$> e_logger body) as [g|]; cbn; [|constructor].
    constructor; [by apply Hg|constructor].
  - rewrite length_app. destruct (normalize_identifier <$> e_logger body); cbn; lia.
  - intros E. by apply app_nil in E as [_ E].
Qed.

Lemma select_default_ok body sym :
  body_ok body → symbolication_ok sym → selected_ok (select_default body sym).
Proof.
  intros Hb Hs. unfold select_default.
  destruct (exception_stack body sym) eqn:E1; [by eapply exception_stack_ok|].
  destruct (native_stack body) eqn:E2; [by eapply native_stack_ok|].
  by apply message_strategy_ok.
Qed.

(** *** The shape of the components, whatever their texts *)

Definition selected_short (s : Selected) : Prop :=
  (length (sel_components s) ≤ 48)%nat ∧ sel_components s ≠ [].
Lemma length_opt_component k v : (length (opt_component k v) ≤ 1)%nat.
Proof. destruct v; cbn; lia. Qed.
Lemma frame_components_short index f :
  (1 ≤ length (frame_components index f) ≤ 5)%nat.
Proof.
  unfold frame_components. destruct (frame_fields f) as [[[function module] path] line].
  cbn [length]. rewrite !length_app. pose proof (length_opt_component GFrameFunction function).
  pose proof (length_opt_component GFrameModule module). pose proof (length_opt_component GFramePath path).
  pose proof (length_opt_component GFrameLine (to_dec <$> line)). lia.
Qed.
Lemma imap_frames_short frames : ∀ k,
  (length frames ≤ length (concat (imap (λ i, frame_components (k + i)) frames)) ≤ 5 * length frames)%nat.
Proof.
  induction frames as [|f fs IH]; intros k; [done|]. cbn [imap concat length]. rewrite length_app.
  pose proof (frame_components_short (k + 0) f). specialize (IH (S k)).
  rewrite (imap_ext _ (λ i, frame_components (S k + i))); [lia|].
  intros i x _. unfold compose. by replace (k + S i)%nat with (S k + i)%nat by lia.
Qed.
Lemma append_frame_components_short types frames summary strategy :
  (length types ≤ 8)%nat → (length frames ≤ 8)%nat → is_empty frames = false →
  selected_short {| sel_strategy := strategy; sel_summary := summary;
    sel_components := append_frame_components (map (component GExceptionType) types) frames |}.
Proof.
  intros Ht Hf Hne. unfold selected_short, append_frame_components. cbn [sel_components].
  pose proof (imap_frames_short frames 0) as Hi. rewrite (imap_ext _ frame_components) in Hi by done.
  split; [rewrite length_app, length_map; lia|]. intros E. apply (f_equal length) in E.
  rewrite length_app in E. destruct frames; cbn [length] in *; [done|lia].
Qed.
Lemma significant_frames_short raw derived : (length (significant_frames raw derived) ≤ 8)%nat.
Proof. unfold significant_frames. rewrite length_take. unfold MAX_GROUPING_FRAMES. lia. Qed.
Lemma exception_types_short body : (length (exception_types body) ≤ 8)%nat.
Proof. unfold exception_types. rewrite length_reverse, length_take. unfold MAX_EXCEPTION_TYPES. lia. Qed.
Lemma first_exception_stack_short types sym l s :
  (length types ≤ 8)%nat → first_exception_stack types sym l = Some s → selected_short s.
Proof.
  intros Ht. induction l as [|[i x] l IH]; cbn; [done|]. destruct (is_empty _) eqn:E; [done|].
  intros [= <-]. by apply append_frame_components_short; [|apply significant_frames_short|].
Qed.
Lemma exception_stack_short body sym s : exception_stack body sym = Some s → selected_short s.
Proof.
  unfold exception_stack. destruct (existsb _ _); [done|]. pose proof (exception_types_short body) as Ht.
  destruct (first_exception_stack _ _ _) as [s'|] eqn:E.
  - intros [= <-]. by eapply first_exception_stack_short.
  - destruct (is_empty _) eqn:E'; [done|]. intros [= <-].
    by apply append_frame_components_short; [|apply significant_frames_short|].
Qed.
Lemma native_stack_short body s : native_stack body = Some s → selected_short s.
Proof.
  unfold native_stack. destruct (is_empty (native_modules body)); [done|].
  destruct (is_empty (take _ _)) eqn:E; [done|]. intros [= <-]. unfold selected_short. cbn [sel_components].
  match type of E with is_empty ?p = _ => set (pairs := p) in * end.
  assert (length pairs ≤ 8)%nat by (unfold pairs; rewrite length_take; unfold MAX_GROUPING_FRAMES; lia).
  pose proof (length_opt_component GExceptionType (head (omap x_ty (reverse (e_exceptions body))))).
  assert (length (concat (map (λ p : str * Z, [component GNativeModule p.1; component GNativeRelativeAddress (to_hex p.2)]) pairs))
          = 2 * length pairs)%nat as Hl by (clear; induction pairs; cbn in *; lia).
  split; [rewrite length_app, Hl; lia|]. intros E'. apply (f_equal length) in E'. rewrite length_app, Hl in E'.
  destruct pairs; [done|cbn in E'; lia].
Qed.
Lemma select_default_short body sym : selected_short (select_default body sym).
Proof.
  unfold select_default.
  destruct (exception_stack body sym) eqn:E1; [by eapply exception_stack_short|].
  destruct (native_stack body) eqn:E2; [by eapply native_stack_short|].
  unfold selected_short, message_strategy. cbn [sel_components]. rewrite length_app.
  pose proof (length_opt_component GLogger (normalize_identifier <$> e_logger body)). cbn [length].
  split; [lia|]. intros E. by apply app_nil in E as [_ E].
Qed.

Lemma validate_components_Ok cs :
  validate_components cs = Ok tt ↔
  cs ≠ [] ∧ len cs ≤ MAX_COMPONENTS ∧ Forall component_ok cs.
Proof.
  unfold validate_components, component_ok, field_ok, len.
  destruct (is_empty cs) eqn:E1; cbn [orb].
  { apply is_empty_true in E1. naive_solver. }
  assert (cs ≠ []) by (intros ->; done).
  destruct (Z.ltb_spec MAX_COMPONENTS (Z.of_nat (length cs))); cbn [orb].
  { split; [done|]. intros (_ & ? & _). lia. }
  destruct (existsb _ _) eqn:E2.
  - split; [done|]. intros (_ & _ & Hf). apply existsb_exists in E2 as (c & Hin & Hc).
    apply list_elem_of_In in Hin. rewrite Forall_forall in Hf. specialize (Hf c Hin).
    bool_prop. lia.
  - split; [|done]. intros _. split_and!; [done|lia|].
    apply Forall_forall. intros c Hc. rewrite existsb_false in E2. specialize (E2 c Hc).
    bool_prop. lia.
Qed.

Lemma first_exception_stack_strategy types sym l s :
  first_exception_stack types sym l = Some s → sel_strategy s = ExceptionStack.
Proof.
  induction l as [|[i x] l IH]; cbn [first_exception_stack]; [done|].
  case_match; [done|]. by intros [= <-].
Qed.

Lemma select_default_strategy body sym : sel_strategy (select_default body sym) ≠ SdkFingerprint.
Proof.
  unfold select_default.
  destruct (exception_stack body sym) as [s|] eqn:E.
  { unfold exception_stack in E. destruct (existsb _ _); [done|].
    destruct (first_exception_stack _ _ _) as [s'|] eqn:E'.
    - injection E as ->. apply first_exception_stack_strategy in E'. congruence.
    - destruct (is_empty _); [done|]. by injection E as <-. }
  destruct (native_stack body) as [s|] eqn:E2; [|done].
  unfold native_stack in E2. destruct (is_empty _); [done|].
  destruct (is_empty _); [done|]. by injection E2 as <-.
Qed.

(** ** Lemmas: the encoding *)

Lemma component_code_inj k k' : component_code k = component_code k' → k = k'.
Proof. by destruct k, k'. Qed.

Lemma strategy_domain_inj s s' : strategy_domain s = strategy_domain s' → s = s'.
Proof. by destruct s, s'. Qed.

Lemma cons_split {A} (x y : A) l k : x :: l = y :: k → x = y ∧ l = k.
Proof. by intros [= -> ->]. Qed.

Lemma components_input_inj cs : ∀ cs',
  Forall component_ok cs → Forall component_ok cs' →
  concat (map (λ c, component_code (gc_kind c) :: frame 4 (gc_value c)) cs)
  = concat (map (λ c, component_code (gc_kind c) :: frame 4 (gc_value c)) cs') → cs = cs'.
Proof.
  induction cs as [|c cs IH]; intros [|c' cs'] H1 H2 H; try done.
  apply Forall_cons in H1 as [Hc H1]. apply Forall_cons in H2 as [Hc' H2].
  cbn [map concat] in H. rewrite <- !app_comm_cons in H. apply cons_split in H as [Hk H].
  apply component_code_inj in Hk.
  assert (Hlen : ∀ v, field_ok v → len v < 256 ^ Z.of_nat 4).
  { intros v Hv. unfold field_ok, len in *. change (256 ^ Z.of_nat 4) with 4294967296.
    change MAX_COMPONENT_BYTES with 2048%nat in Hv. lia. }
  apply frame_app_inj in H as [Hv H]; [|by apply Hlen..].
  f_equal; [|by apply IH]. destruct c, c'; cbn in *. congruence.
Qed.

Lemma strategy_domain_len s : len (strategy_domain s) < 256 ^ Z.of_nat 4.
Proof. by destruct s. Qed.

Lemma key_input_inj r r' s s' cs cs' :
  0 ≤ r ≤ U16_MAX → 0 ≤ r' ≤ U16_MAX → Forall component_ok cs → Forall component_ok cs' →
  key_input r s cs = key_input r' s' cs' → r = r' ∧ s = s' ∧ cs = cs'.
Proof.
  unfold key_input, U16_MAX. intros Hr Hr' Hc Hc' H.
  apply frame_app_inj in H as [Hs H]; [|apply strategy_domain_len..].
  apply strategy_domain_inj in Hs.
  apply frame_app_inj in H as [Hv H]; [|by unfold len; rewrite length_be_bytes..].
  apply be_bytes_inj in Hv; [|change (256 ^ Z.of_nat 2) with 65536; lia..].
  apply components_input_inj in H; done.
Qed.

Lemma grouping_key_bytes_inj k k' :
  grouping_key_valid k → grouping_key_valid k' →
  grouping_key_to_bytes k = grouping_key_to_bytes k' → k = k'.
Proof.
  unfold grouping_key_to_bytes, grouping_key_valid, U16_MAX.
  intros (Hr1 & Hl1 & _) (Hr2 & Hl2 & _) E. apply app_inj_len in E as [Hr Hd];
    [|by rewrite !length_be_bytes].
  apply be_bytes_inj in Hr; [|change (256 ^ Z.of_nat 2) with 65536; lia..].
  destruct k, k'; cbn in *. congruence.
Qed.

Lemma length_key_bytes k : grouping_key_valid k → length (grouping_key_to_bytes k) = 34%nat.
Proof.
  intros (_ & H & _). unfold grouping_key_to_bytes. by rewrite length_app, length_be_bytes, H.
Qed.

Lemma issue_input_inj p p' k k' :
  project_id_valid p → project_id_valid p' → grouping_key_valid k → grouping_key_valid k' →
  issue_input p k = issue_input p' k' → p = p' ∧ k = k'.
Proof.
  unfold issue_input. intros Hp Hp' Hk Hk' H.
  apply frame_app_inj in H as [_ H]; [|done..].
  apply frame_app_inj in H as [He H]; [|by unfold len; rewrite length_be_bytes..].
  apply project_bytes_inj in He; [|done..].
  rewrite <- (app_nil_r (frame 4 (grouping_key_to_bytes k))) in H.
  rewrite <- (app_nil_r (frame 4 (grouping_key_to_bytes k'))) in H.
  apply frame_app_inj in H as [H _]; [|by unfold len; rewrite length_key_bytes..].
  by apply grouping_key_bytes_inj in H.
Qed.

Lemma group_default_spec `{Blake3} project_id body symbolication :
  e_fingerprint body = [] → body_ok body → symbolication_ok symbolication →
  ∃ r, group project_id 1 body symbolication = Ok r
    ∧ gr_strategy r ≠ SdkFingerprint
    ∧ gr_components r = sel_components (select_default body symbolication)
    ∧ verify_issue_id project_id (gr_key r) (gr_issue_id r) = true.
Proof.
  intros Hf Hb Hs. destruct (select_default_ok body symbolication Hb Hs) as (Hc & Hl & Hne).
  unfold group. change (negb (in_range 0 U16_MAX 1)) with false.
  change (negb (1 =? REVISION_1)) with false. cbn iota. unfold group_revision_1.
  rewrite Hf. cbn [is_empty non_empty negb].
  assert (E : validate_components (sel_components (select_default body symbolication)) = Ok tt).
  { apply validate_components_Ok. split_and!; [done| |done]. unfold len, MAX_COMPONENTS. lia. }
  rewrite E. cbn [mbind result_bind]. eexists. split; [done|]. cbn.
  split_and!; [apply select_default_strategy|done|].
  unfold verify_issue_id. by apply bool_decide_eq_true_2.
Qed.

Lemma group_default_ok `{Blake3} project_id body symbolication :
  e_fingerprint body = [] → body_ok body → symbolication_ok symbolication →
  ∃ r, group project_id 1 body symbolication = Ok r
    ∧ verify_issue_id project_id (gr_key r) (gr_issue_id r) = true.
Proof. intros. destruct (group_default_spec project_id body symbolication); naive_solver. Qed.

(** ** Lemmas: message tokens *)

Lemma ascii_lower_cases b :
  (is_ascii_uppercase b = true ∧ ascii_lower b = b + 32)
  ∨ (is_ascii_uppercase b = false ∧ ascii_lower b = b).
Proof. unfold ascii_lower. destruct (is_ascii_uppercase b); auto. Qed.

(** A test of ASCII classes, decided by ranges. *)
Ltac ascii_class b :=
  destruct (ascii_lower_cases b) as [[E ->]|[E ->]]; [|done];
  unfold is_ascii_uppercase in E; apply in_range_true in E;
  unfold is_ascii_alphanumeric, is_ascii_hexdigit, is_ascii_alphabetic, is_ascii_lowercase,
    is_ascii_uppercase, is_ascii_digit, in_range;
  repeat match goal with
  | |- context [?x <=? ?y] => destruct (Z.leb_spec x y)
  | |- context [?x =? ?y] => destruct (Z.eqb_spec x y)
  end; cbn; try done; lia.

Lemma lower_alphanumeric b : is_ascii_alphanumeric (ascii_lower b) = is_ascii_alphanumeric b.
Proof. ascii_class b. Qed.
Lemma lower_hexdigit b : is_ascii_hexdigit (ascii_lower b) = is_ascii_hexdigit b.
Proof. ascii_class b. Qed.
Lemma lower_digit b : is_ascii_digit (ascii_lower b) = is_ascii_digit b.
Proof. ascii_class b. Qed.
Lemma lower_alphabetic b : is_ascii_alphabetic (ascii_lower b) = is_ascii_alphabetic b.
Proof. ascii_class b. Qed.
Lemma lower_dash b : (ascii_lower b =? 45) = (b =? 45).
Proof. ascii_class b. Qed.
Lemma ascii_lower_idem b : ascii_lower (ascii_lower b) = ascii_lower b.
Proof.
  destruct (ascii_lower_cases b) as [[E ->]|[E ->]]; [|by unfold ascii_lower; rewrite E].
  unfold is_ascii_uppercase in E. apply in_range_true in E.
  unfold ascii_lower, is_ascii_uppercase. by rewrite (proj2 (in_range_false 65 90 (b + 32))) by lia.
Qed.

Lemma lowercase_idem s : to_ascii_lowercase (to_ascii_lowercase s) = to_ascii_lowercase s.
Proof.
  unfold to_ascii_lowercase. rewrite map_map. apply map_ext. apply ascii_lower_idem.
Qed.

Lemma forallb_lower p s :
  (∀ b, p (ascii_lower b) = p b) → forallb p (to_ascii_lowercase s) = forallb p s.
Proof.
  intros Hp. unfold to_ascii_lowercase. induction s as [|b s IH]; [done|].
  cbn. by rewrite Hp, IH.
Qed.
Lemma existsb_lower p s :
  (∀ b, p (ascii_lower b) = p b) → existsb p (to_ascii_lowercase s) = existsb p s.
Proof.
  intros Hp. unfold to_ascii_lowercase. induction s as [|b s IH]; [done|].
  cbn. by rewrite Hp, IH.
Qed.

Lemma drop_while_lower p s :
  (∀ b, p (ascii_lower b) = p b) →
  drop_while p (to_ascii_lowercase s) = to_ascii_lowercase (drop_while p s).
Proof.
  intros Hp. unfold to_ascii_lowercase. induction s as [|b s IH]; [done|].
  cbn. rewrite Hp. by destruct (p b).
Qed.

Lemma reverse_lower s : reverse (to_ascii_lowercase s) = to_ascii_lowercase (reverse s).
Proof. symmetry. exact (fmap_reverse ascii_lower s). Qed.

Lemma trim_by_lower p s :
  (∀ b, p (ascii_lower b) = p b) →
  trim_by p (to_ascii_lowercase s) = to_ascii_lowercase (trim_by p s).
Proof.
  intros Hp. unfold trim_by.
  by rewrite drop_while_lower, reverse_lower, drop_while_lower, reverse_lower.
Qed.

Lemma uuid_bytes_lower s : ∀ k,
  forallb uuid_byte (zip (seq k (length s)) (to_ascii_lowercase s))
  = forallb uuid_byte (zip (seq k (length s)) s).
Proof.
  unfold to_ascii_lowercase. induction s as [|b s IH]; intros k; [done|].
  cbn [length seq map]. unfold zip in *. cbn [zip_with forallb]. f_equal; [|apply IH].
  unfold uuid_byte. destruct (_ || _); [apply lower_dash|apply lower_hexdigit].
Qed.

Lemma is_uuid_lower s : is_uuid (to_ascii_lowercase s) = is_uuid s.
Proof. unfold is_uuid. by rewrite length_lowercase, uuid_bytes_lower. Qed.

Lemma is_address_lower s : is_address (to_ascii_lowercase s) = is_address s.
Proof.
  unfold is_address. destruct s as [|a [|b s]]; [done| |].
  { cbn [to_ascii_lowercase map lit strip_prefix]. cbn.
    destruct (ascii_lower a); cbn; repeat case_match; done. }
  assert (Ha : (48 =? ascii_lower a) = (48 =? a)).
  { rewrite !(Z.eqb_sym 48). ascii_class a. }
  assert (Hb : (120 =? ascii_lower b) = (120 =? b) || (88 =? b)).
  { rewrite !(Z.eqb_sym 120), (Z.eqb_sym 88).
    destruct (ascii_lower_cases b) as [[E ->]|[E ->]]; unfold is_ascii_uppercase in E;
      [apply in_range_true in E|apply in_range_false in E];
      repeat match goal with |- context [?x =? ?y] => destruct (Z.eqb_spec x y) end;
      cbn; done || lia. }
  assert (Hb' : (88 =? ascii_lower b) = false).
  { rewrite (Z.eqb_sym 88).
    destruct (ascii_lower_cases b) as [[E ->]|[E ->]]; unfold is_ascii_uppercase in E;
      [apply in_range_true in E|apply in_range_false in E]; apply Z.eqb_neq; lia. }
  change (lit "0x") with [48; 120]. change (lit "0X") with [48; 88].
  cbn [to_ascii_lowercase map strip_prefix]. rewrite Ha, Hb, Hb'.
  change (map ascii_lower s) with (to_ascii_lowercase s).
  destruct (48 =? a); [|done]. destruct (120 =? b); cbn [orb].
  - cbn [option_or is_some_and strip_prefix]. rewrite length_lowercase.
    by rewrite (forallb_lower _ s lower_hexdigit).
  - destruct (88 =? b); cbn [option_or is_some_and]; [|done].
    rewrite length_lowercase. by rewrite (forallb_lower _ s lower_hexdigit).
Qed.

(** ** Theorems *)

(** A stored grouping key parses back to itself; a byte string parses
    only when it has 34 bytes and a revision other than zero, and then it is
    the encoding of the key. *)
Theorem grouping_key_roundtrip :
  (∀ k, grouping_key_valid k → grouping_key_parse (grouping_key_to_bytes k) = Ok k)
  ∧ (∀ bs k, Forall is_byte bs → grouping_key_parse bs = Ok k →
       grouping_key_valid k ∧ grouping_key_to_bytes k = bs).
Proof.
  split.
  - intros k Hk. unfold grouping_key_parse, len. rewrite length_key_bytes by done.
    cbn [Z.of_nat Z.eqb negb]. change (negb (Z.of_nat 34 =? 34)) with false. cbn iota.
    destruct Hk as (Hr & _ & _). unfold grouping_key_to_bytes, U16_MAX in *.
    rewrite take_app_length', drop_app_length' by by rewrite length_be_bytes.
    rewrite be_val_be_bytes. change (256 ^ Z.of_nat 2) with 65536. rewrite Z.mod_small by lia.
    destruct (Z.eqb_spec (gk_revision k) 0); [lia|]. by destruct k.
  - intros bs k Hb. unfold grouping_key_parse. destruct (Z.eqb_spec (len bs) 34) as [Hl|]; [|done].
    cbn [negb]. destruct (Z.eqb_spec (be_val (take 2 bs)) 0) as [|Hne]; [done|]. intros [= <-].
    unfold len in Hl. assert (Hl2 : length (take 2 bs) = 2%nat) by (rewrite length_take; lia).
    assert (Hb2 : Forall is_byte (take 2 bs)) by by apply Forall_take.
    pose proof (be_val_bound _ Hb2) as Hv. unfold len in Hv. rewrite Hl2 in Hv.
    change (256 ^ Z.of_nat 2) with 65536 in Hv. split.
    + split_and!; cbn; [lia|unfold U16_MAX; lia|rewrite length_drop; lia|by apply Forall_drop].
    + unfold grouping_key_to_bytes. cbn [gk_revision gk_digest]. rewrite <- Hl2 at 1.
      rewrite be_bytes_be_val by done. apply take_drop.
Qed.

(** C2. Two groupings hash the same bytes only if they have the same revision,
    the same strategy and the same components in the same order, and two issue
    identities only if they have the same project and the same key. *)
Theorem grouping_preimage_injective :
  (∀ r r' s s' cs cs', 0 ≤ r ≤ U16_MAX → 0 ≤ r' ≤ U16_MAX →
     validate_components cs = Ok tt → validate_components cs' = Ok tt →
     key_input r s cs = key_input r' s' cs' → r = r' ∧ s = s' ∧ cs = cs')
  ∧ (∀ p p' k k', project_id_valid p → project_id_valid p' →
     grouping_key_valid k → grouping_key_valid k' →
     issue_input p k = issue_input p' k' → p = p' ∧ k = k').
Proof.
  split.
  - intros r r' s s' cs cs' Hr Hr' Hc Hc'.
    apply validate_components_Ok in Hc as (_ & _ & Hc).
    apply validate_components_Ok in Hc' as (_ & _ & Hc'). by apply key_input_inj.
  - apply issue_input_inj.
Qed.

(** C1. An event without an SDK fingerprint always selects between one and 48
    components at revision 1, and is grouped by them exactly when each fits in a
    component; otherwise the one error is that the input is too large.  They
    always fit when the texts of the event, native module identities included,
    and those the symbolicator derived have the length of a field. *)
Theorem group_default_total `{Blake3} project_id body symbolication :
  e_fingerprint body = [] →
  let components := sel_components (select_default body symbolication) in
  1 ≤ len components ≤ 48
  ∧ ((∃ r, group project_id 1 body symbolication = Ok r
        ∧ gr_strategy r ≠ SdkFingerprint ∧ gr_components r = components)
     ↔ Forall component_ok components)
  ∧ (¬ Forall component_ok components → group project_id 1 body symbolication = Err InputLimitExceeded)
  ∧ (body_ok body → symbolication_ok symbolication → Forall component_ok components).
Proof.
  intros Hf components. destruct (select_default_short body symbolication) as [Hl Hne]. fold components in Hl, Hne.
  assert (1 ≤ len components ≤ 48) as Hlen by (unfold len; destruct components; [done|cbn [length] in *; lia]).
  assert (group project_id 1 body symbolication = group_revision_1 project_id body symbolication) as -> by done.
  unfold group_revision_1. rewrite Hf. cbn [is_empty non_empty negb]. fold components.
  assert (validate_components components = Ok tt ↔ Forall component_ok components) as Hv.
  { rewrite validate_components_Ok. unfold MAX_COMPONENTS. split; [tauto|]. intros ?. split_and!; [done|lia|done]. }
  split_and!; [lia|lia| | |].
  - rewrite <- Hv. destruct (validate_components components) as [[]|e]; [|split; [by intros (? & ? & _)|done]].
    split; [done|]. intros _. eexists. split; [done|]. split; [apply select_default_strategy|done].
  - intros Hn. destruct (validate_components components) as [[]|e] eqn:E; [destruct Hn; by apply Hv|].
    unfold validate_components in E. destruct (_ || _); [|done]. by injection E as <-.
  - intros Hb Hs. by destruct (select_default_ok body symbolication Hb Hs).
Qed.

(** A grouping result is at revision 1 only, keeps the component limits,
    its key is the digest of exactly the components it explains, and its issue
    identity verifies for its project. *)
Theorem group_sound `{Blake3} project_id revision body symbolication r :
  group project_id revision body symbolication = Ok r →
  revision = 1
  ∧ 1 ≤ len (gr_components r) ≤ MAX_COMPONENTS
  ∧ (∀ c, c ∈ gr_components r → (length (gc_value c) ≤ MAX_COMPONENT_BYTES)%nat)
  ∧ gr_key r = key_for 1 (gr_strategy r) (gr_components r)
  ∧ verify_issue_id project_id (gr_key r) (gr_issue_id r) = true
  ∧ (gr_strategy r = SdkFingerprint → e_fingerprint body ≠ []).
Proof.
  unfold group. destruct (negb (in_range _ _ _)); [done|].
  destruct (Z.eqb_spec revision REVISION_1) as [->|]; [|done]. cbn [negb].
  unfold group_revision_1. intros Hr. apply bind_Ok in Hr as ([] & Hv & Hr).
  apply validate_components_Ok in Hv as (Hne & Hl & Hc). injection Hr as <-. cbn.
  split_and!; try done.
  - destruct (sel_components _); [done|]. rewrite len_cons. pose proof (len_nonneg l). lia.
  - by apply Forall_forall.
  - unfold verify_issue_id. by apply bool_decide_eq_true_2.
  - destruct (e_fingerprint body); [|done]. cbn [is_empty non_empty negb].
    intros Hs _. by apply select_default_strategy in Hs.
Qed.

(** Truncating a text keeps a prefix of at most the given bytes that ends
    at a character boundary, and the longest such. *)
Theorem truncate_utf8_longest_prefix value maximum :
  ∃ n, truncate_utf8 value maximum = take n value
    ∧ (n ≤ maximum)%nat ∧ (n ≤ length value)%nat ∧ is_char_boundary value n = true
    ∧ ∀ i, (n < i)%nat → (i ≤ maximum)%nat → (i ≤ length value)%nat →
        is_char_boundary value i = false.
Proof.
  unfold truncate_utf8. set (stop := Nat.min maximum (length value)).
  exists (boundary_down value stop). pose proof (boundary_down_le value stop).
  split_and!; [done|lia|lia|apply boundary_down_boundary|].
  intros i ???. apply (boundary_down_greatest _ stop). lia.
Qed.

(** Normalising a message token is idempotent: the placeholders are not
    rewritten again, and what is only lowered stays what it is. *)
Theorem normalize_message_token_idempotent token :
  normalize_message_token (normalize_message_token token) = normalize_message_token token.
Proof.
  unfold normalize_message_token at 2 3.
  destruct (is_uuid _) eqn:E1; [reflexivity|].
  destruct (is_address token) eqn:E2; [reflexivity|].
  destruct (_ && _) eqn:E3; [reflexivity|].
  destruct (_ && _) eqn:E4 in |- *; [reflexivity|].
  unfold normalize_message_token.
  rewrite trim_by_lower by (intros b; by rewrite lower_alphanumeric, lower_dash).
  rewrite is_uuid_lower, is_address_lower, length_lowercase, E1, E2.
  rewrite (forallb_lower _ _ lower_digit), E3.
  rewrite (forallb_lower _ _ lower_alphanumeric), (existsb_lower _ _ lower_alphabetic),
    (existsb_lower _ _ lower_digit), E4.
  apply lowercase_idem.
Qed.

(** ** Witnesses *)

(** A concrete digest: the first 32 bytes, padded. *)
Definition toy_digest : Blake3 := λ input, take 32 (input ++ replicate 32 0).

Definition sample_frame (function : str) : NormalizedFrame :=
  {| f_filename := Some (lit "/srv/build/src/inner.py?v=1"); f_absolute_path := None;
     f_function := Some function; f_module := None; f_package := None;
     f_instruction_address := None; f_symbol_address := None; f_line := Some 42;
     f_column := None; f_in_app := Some true; f_context_line := None; f_pre_context := [];
     f_post_context := []; f_variables := []; f_unknown := [] |}.

Definition sample_body : NormalizedEventBody :=
  {| e_occurred_at := 0; e_platform := PPython; e_level := LError;
     e_logger := Some (lit "service"); e_message := Some (lit "failed"); e_transaction := None;
     e_release := None; e_dist := None; e_environment := None; e_fingerprint := [];
     e_exceptions :=
       [ {| x_ty := Some (lit "RuntimeError"); x_value := None; x_module := None;
            x_thread_id := None; x_mechanism := None;
            x_stacktrace := [sample_frame (lit "outer"); sample_frame (lit " Inner ")];
            x_raw_stacktrace := []; x_unknown := [] |} ];
     e_stacktrace := []; e_tags := []; e_request := None; e_user := None; e_contexts := [];
     e_breadcrumbs := []; e_unknown := [] |}.

Lemma sample_frame_ok f : (length f ≤ 64)%nat → frame_ok (sample_frame f).
Proof.
  intros Hf. unfold frame_ok, opt_ok, line_ok. cbn.
  split_and!; intros v [= <-]; try (by apply field_ok_short);
    try (apply field_ok_short; cbn; lia); unfold U64_MAX; lia.
Qed.

Lemma sample_body_ok : body_ok sample_body.
Proof.
  unfold body_ok. split_and!.
  - intros v [= <-]. apply field_ok_short. cbn. lia.
  - intros x Hx. apply list_elem_of_singleton in Hx as ->. split.
    + intros v [= <-]. apply field_ok_short. cbn. lia.
    + constructor; [apply sample_frame_ok; cbn; lia|].
      constructor; [apply sample_frame_ok; cbn; lia|constructor].
  - constructor.
  - intros m Hm. by apply not_elem_of_nil in Hm.
Qed.

Lemma group_default_total_witness :
  body_ok sample_body ∧ symbolication_ok None ∧
  ∃ r, @group toy_digest 7 1 sample_body None = Ok r
    ∧ gr_strategy r ≠ SdkFingerprint
    ∧ gr_components r = sel_components (select_default sample_body None).
Proof.
  assert (Hs : symbolication_ok None) by (intros r E; discriminate E).
  split; [exact sample_body_ok|]. split; [exact Hs|].
  destruct (@group_default_total toy_digest 7 sample_body None eq_refl) as (_ & Hiff & _ & Hfit).
  exact (proj2 Hiff (Hfit sample_body_ok Hs)).
Defined.

Lemma group_sound_witness :
  ∃ r, @group toy_digest 7 1 sample_body None = Ok r
    ∧ gr_components r =
        [component GExceptionType (lit "RuntimeError");
         component GFrame (lit "0"); component GFrameFunction (lit "inner");
         component GFramePath (lit "src/inner.py");
         component GFrame (lit "1"); component GFrameFunction (lit "outer");
         component GFramePath (lit "src/inner.py")]
    ∧ @verify_issue_id toy_digest 7 (gr_key r) (gr_issue_id r) = true.
Proof.
  destruct (@group toy_digest 7 1 sample_body None) as [r|e] eqn:E;
    [|vm_compute in E; discriminate E].
  exists r. split; [reflexivity|]. split.
  - vm_compute in E. injection E as E. rewrite <- E. reflexivity.
  - exact (proj1 (proj2 (proj2 (proj2 (proj2 (@group_sound toy_digest 7 1 sample_body None r E)))))).
Defined.

Lemma grouping_key_roundtrip_witness :
  grouping_key_valid {| gk_revision := 1; gk_digest := replicate 32 255 |}
  ∧ grouping_key_parse (grouping_key_to_bytes {| gk_revision := 1; gk_digest := replicate 32 255 |})
    = Ok {| gk_revision := 1; gk_digest := replicate 32 255 |}.
Proof.
  assert (Hv : grouping_key_valid {| gk_revision := 1; gk_digest := replicate 32 255 |}).
  { split; [unfold U16_MAX; cbn; lia|]. split; [reflexivity|].
    cbn. repeat constructor; lia. }
  split; [exact Hv|]. exact (proj1 grouping_key_roundtrip _ Hv).
Defined.

Lemma grouping_preimage_injective_witness :
  key_input 1 Message [component GLogger (lit "ab"); component GMessage (lit "c")]
  ≠ key_input 1 Message [component GLogger (lit "a"); component GMessage (lit "bc")].
Proof.
  intros E.
  assert (H : 0 ≤ 1 ≤ U16_MAX) by (unfold U16_MAX; lia).
  destruct (proj1 grouping_preimage_injective 1 1 Message Message
    [component GLogger (lit "ab"); component GMessage (lit "c")]
    [component GLogger (lit "a"); component GMessage (lit "bc")] H H) as (_ & _ & E');
    [reflexivity|reflexivity|exact E|].
  discriminate E'.
Defined.
