(* ===== verification/Issues.v ===== *)
(** * Issue occurrences

    [domain/src/issue.rs] (bounded texts, actors) and
    [application/src/issues.rs]: the summary of an event, its title and
    culprit, and the occurrence that is handed to the issue store. *)
From stdpp Require Import base list numbers strings sets gmap.
From Stdlib Require Import ZArith Lia.
From S2P Require Import Prelude Primitives Identity Event Grouping.

Definition MAX_ISSUE_TITLE_BYTES : Z := 512.
Definition MAX_ISSUE_CULPRIT_BYTES : Z := 256.
Definition MAX_ISSUE_RELEASE_BYTES : Z := 200.
Definition MAX_ISSUE_SEARCH_BYTES : Z := 512.
Definition MAX_ISSUE_SEARCH_RESULTS : Z := 100.

Inductive IssueValueError := IEmpty | ITooLong | IInvalidSearchLimit.

(** The constructor of [bounded_issue_text!]. *)
Definition issue_text_new (maximum : Z) (value : str) : result IssueValueError str :=
  if is_empty value then Err IEmpty
  else if maximum <? len value then Err ITooLong
  else Ok value.

Inductive ActorKind := AUser | AApiCredential | ASystem.
#[export] Instance ActorKind_eq_dec : EqDecision ActorKind.
Proof. solve_decision. Defined.
Definition actor_code (k : ActorKind) : Z :=
  match k with AUser => 1 | AApiCredential => 2 | ASystem => 3 end.
Definition actor_from_code (code : Z) : option ActorKind :=
  match code with
  | 1 => Some AUser | 2 => Some AApiCredential | 3 => Some ASystem | _ => None
  end.

Record ActorRef := {
  ar_kind : ActorKind;
  ar_id : bytes;
}.
Definition actor_to_bytes (a : ActorRef) : bytes := actor_code (ar_kind a) :: ar_id a.
(** The argument has seventeen bytes, so the slice conversion succeeds. *)
Definition actor_from_bytes (bs : bytes) : option ActorRef :=
  match bs with
  | [] => None
  | code :: id =>
      kind ← actor_from_code code;
      Some {| ar_kind := kind; ar_id := id |}
  end.

Record IssueSearchQuery := {
  iq_text : str;
  iq_limit : Z;
}.
Definition issue_search_new (text : str) (limit : Z)
    : result IssueValueError IssueSearchQuery :=
  if is_empty text then Err IEmpty
  else if MAX_ISSUE_SEARCH_BYTES <? len text then Err ITooLong
  else if negb (in_range 1 MAX_ISSUE_SEARCH_RESULTS limit) then Err IInvalidSearchLimit
  else Ok {| iq_text := text; iq_limit := limit |}.

Record IssueOccurrence := {
  io_project_id : ProjectId;
  io_issue_id : bytes;
  io_grouping_key : GroupingKey;
  io_event_id : bytes;
  io_occurred_at : Timestamp;
  io_received_at : Timestamp;
  io_release : option str;
  io_title : str;
  io_culprit : option str;
  io_strategy : GroupingStrategy;
  io_explanation : str * list GroupingComponent;
  io_increment : Z;
}.

Inductive IssueServiceError :=
| IInvalidGroupingIdentity | IInvalidSummary | IIdentityCollision | INotFound
| IInvalidData | IUnavailable.

(** ** Summaries *)

(** The loop of [normalize_summary]: [output] is the characters so far. *)
Fixpoint summary_loop (maximum : Z) (output : list bytes) (pending_space : bool)
    (characters : list bytes) : list bytes :=
  match characters with
  | [] => output
  | character :: characters' =>
      if is_whitespace character || is_control character then
        summary_loop maximum output (non_empty output) characters'
      else
        let required := (if pending_space then 1 else 0) + len character in
        if maximum <? len (concat output) + required then output
        else
          let output := if pending_space then output ++ [[32]] else output in
          summary_loop maximum (output ++ [character]) false characters'
  end.

Definition normalize_summary (value : str) (maximum : Z) : str :=
  let output := concat (summary_loop maximum [] false (utf8_chunks value)) in
  if is_empty output then lit "Error event" else output.

Definition frame_summary (frame : NormalizedFrame) : option str :=
  option_or (option_or (option_or (f_function frame) (f_module frame)) (f_filename frame))
    (f_absolute_path frame).

Definition select_frame (frames : list NormalizedFrame) : option NormalizedFrame :=
  let newest := reverse frames in
  option_or
    (option_or
       (List.find (λ frame, bool_decide (f_in_app frame = Some true)
                            && is_some (frame_summary frame)) newest)
       (List.find (λ frame, negb (bool_decide (f_in_app frame = Some false))
                            && is_some (frame_summary frame)) newest))
    (List.find (λ frame, is_some (frame_summary frame)) newest).

Definition title_candidate (body : NormalizedEventBody) : str :=
  let exception :=
    last (e_exceptions body) ≫= λ exception,
      match x_ty exception, x_value exception with
      | Some ty, Some value => Some (ty ++ lit ": " ++ value)
      | Some ty, None => Some ty
      | None, Some value => Some value
      | None, None => None
      end in
  unwrap_or (lit "Error event")
    (option_or (option_or exception (e_message body)) (e_logger body)).

Definition build_title (body : NormalizedEventBody) : result IssueServiceError str :=
  map_err (λ _, IInvalidSummary)
    (issue_text_new MAX_ISSUE_TITLE_BYTES
       (normalize_summary (title_candidate body) MAX_ISSUE_TITLE_BYTES)).

Definition build_culprit (body : NormalizedEventBody)
    : result IssueServiceError (option str) :=
  let exception_frames :=
    unwrap_or [] (x_stacktrace <$> last (e_exceptions body)) in
  let frame := option_or (select_frame exception_frames) (select_frame (e_stacktrace body)) in
  match frame ≫= frame_summary with
  | None => Ok None
  | Some value =>
      culprit ← map_err (λ _, IInvalidSummary)
        (issue_text_new MAX_ISSUE_CULPRIT_BYTES
           (normalize_summary value MAX_ISSUE_CULPRIT_BYTES));
      Ok (Some culprit)
  end.

Definition issue_release (release : option str) : result IssueServiceError (option str) :=
  match release with
  | None => Ok None
  | Some release =>
      release ← map_err (λ _, IInvalidSummary)
        (issue_text_new MAX_ISSUE_RELEASE_BYTES release);
      Ok (Some release)
  end.

Definition prepare_issue_occurrence `{Blake3} (event : NormalizedEvent)
    (grouping : GroupingResult) : result IssueServiceError IssueOccurrence :=
  if negb (verify_issue_id (ne_project_id event) (gr_key grouping) (gr_issue_id grouping))
  then Err IInvalidGroupingIdentity
  else
    release ← issue_release (e_release (ne_body event));
    title ← build_title (ne_body event);
    culprit ← build_culprit (ne_body event);
    Ok {| io_project_id := ne_project_id event; io_issue_id := gr_issue_id grouping;
          io_grouping_key := gr_key grouping; io_event_id := ne_event_id event;
          io_occurred_at := e_occurred_at (ne_body event);
          io_received_at := ne_received_at event; io_release := release; io_title := title;
          io_culprit := culprit; io_strategy := gr_strategy grouping;
          io_explanation := (gr_summary grouping, gr_components grouping);
          io_increment := 1 |}.

(** ** Lemmas *)

(** A text character of a summary. *)
Definition plain (character : bytes) : Prop :=
  is_whitespace character = false ∧ is_control character = false.

(** Words of plain characters with one blank between them. *)
Inductive summary_shape : list bytes → Prop :=
| ShapeNil : summary_shape []
| ShapeChar output character :
    summary_shape output → plain character → summary_shape (output ++ [character])
| ShapeSpace output character :
    summary_shape output → output ≠ [] → plain character →
    summary_shape (output ++ [[32]; character]).

Lemma summary_loop_spec maximum characters : ∀ output pending_space,
  summary_shape output → (pending_space = true → output ≠ []) →
  len (concat output) ≤ Z.max maximum 0 →
  let result := summary_loop maximum output pending_space characters in
  summary_shape result ∧ len (concat result) ≤ Z.max maximum 0.
Proof.
  induction characters as [|c cs IH]; intros output pending Hs Hp Hl; cbn [summary_loop]; [done|].
  destruct (is_whitespace c || is_control c) eqn:E.
  { apply IH; [done| |done]. by destruct output. }
  apply orb_false_iff in E as [Ew Ec].
  destruct (Z.ltb_spec maximum (len (concat output) + ((if pending then 1 else 0) + len c)));
    [done|].
  pose proof (len_nonneg (concat output)). pose proof (len_nonneg c).
  destruct pending; cbn iota in *; apply IH; try done.
  - rewrite <- app_assoc. apply ShapeSpace; [done|by apply Hp|done].
  - rewrite !concat_app, !len_app. cbn [concat]. rewrite !app_nil_r, len_cons, len_nil. lia.
  - by apply ShapeChar.
  - rewrite concat_app, len_app. cbn [concat]. rewrite app_nil_r. lia.
Qed.

Lemma normalize_summary_bounds value maximum :
  11 ≤ maximum →
  normalize_summary value maximum ≠ [] ∧ len (normalize_summary value maximum) ≤ maximum.
Proof.
  intros Hm. unfold normalize_summary.
  destruct (summary_loop_spec maximum (utf8_chunks value) [] false ShapeNil) as [_ Hl];
    [done|cbn [concat]; rewrite len_nil; lia|].
  destruct (is_empty _) eqn:E.
  - split; [done|]. change (len (lit "Error event")) with 11. lia.
  - split; [|lia]. intros E'. by rewrite E' in E.
Qed.

Lemma issue_text_new_Ok maximum value :
  value ≠ [] → len value ≤ maximum → issue_text_new maximum value = Ok value.
Proof.
  intros Hne Hl. unfold issue_text_new. destruct (is_empty value) eqn:E.
  { by apply is_empty_true in E. }
  destruct (Z.ltb_spec maximum (len value)); [lia|done].
Qed.

Lemma build_title_Ok body :
  ∃ title, build_title body = Ok title ∧ title ≠ [] ∧ len title ≤ MAX_ISSUE_TITLE_BYTES.
Proof.
  unfold build_title.
  destruct (normalize_summary_bounds (title_candidate body) MAX_ISSUE_TITLE_BYTES) as [Hn Hl];
    [done|].
  rewrite issue_text_new_Ok by done. cbn. eauto.
Qed.

Lemma build_culprit_Ok body :
  ∃ culprit, build_culprit body = Ok culprit
    ∧ ∀ c, culprit = Some c → c ≠ [] ∧ len c ≤ MAX_ISSUE_CULPRIT_BYTES.
Proof.
  unfold build_culprit. destruct (_ ≫= frame_summary) as [value|]; [|by eexists].
  destruct (normalize_summary_bounds value MAX_ISSUE_CULPRIT_BYTES) as [Hn Hl]; [done|].
  rewrite issue_text_new_Ok by done. cbn. eexists. split; [done|]. by intros c [= <-].
Qed.

(** What the normalizer guarantees of a release. *)
Definition release_ok (release : option str) : Prop :=
  ∀ r, release = Some r → r ≠ [] ∧ len r ≤ MAX_ISSUE_RELEASE_BYTES.

Lemma issue_release_Ok release : release_ok release → issue_release release = Ok release.
Proof.
  intros H. unfold issue_release. destruct release as [r|]; [|done].
  destruct (H r eq_refl). by rewrite issue_text_new_Ok.
Qed.

Lemma prepare_issue_Ok `{Blake3} event grouping :
  verify_issue_id (ne_project_id event) (gr_key grouping) (gr_issue_id grouping) = true →
  release_ok (e_release (ne_body event)) →
  ∃ o, prepare_issue_occurrence event grouping = Ok o
    ∧ io_project_id o = ne_project_id event ∧ io_event_id o = ne_event_id event
    ∧ io_received_at o = ne_received_at event
    ∧ io_occurred_at o = e_occurred_at (ne_body event)
    ∧ io_issue_id o = gr_issue_id grouping ∧ io_grouping_key o = gr_key grouping
    ∧ io_release o = e_release (ne_body event)
    ∧ io_title o ≠ [] ∧ len (io_title o) ≤ MAX_ISSUE_TITLE_BYTES
    ∧ (∀ c, io_culprit o = Some c → c ≠ [] ∧ len c ≤ MAX_ISSUE_CULPRIT_BYTES).
Proof.
  intros Hv Hr. unfold prepare_issue_occurrence. rewrite Hv. cbn [negb].
  rewrite issue_release_Ok by done. cbn [mbind result_bind].
  destruct (build_title_Ok (ne_body event)) as (title & -> & ? & ?). cbn [mbind result_bind].
  destruct (build_culprit_Ok (ne_body event)) as (culprit & -> & ?). cbn [mbind result_bind].
  eexists. split; [done|]. cbn. split_and!; done.
Qed.

(** ** Theorems *)

(** Preparing an occurrence fails only when the issue identity does not
    verify for the project, or the release is not a bounded text: the title
    and the culprit always satisfy their bounds, whatever the event says, and
    the occurrence carries the identities and times of the event. *)
Theorem prepare_issue_total `{Blake3} event grouping :
  verify_issue_id (ne_project_id event) (gr_key grouping) (gr_issue_id grouping) = true →
  release_ok (e_release (ne_body event)) →
  ∃ o, prepare_issue_occurrence event grouping = Ok o
    ∧ io_project_id o = ne_project_id event ∧ io_event_id o = ne_event_id event
    ∧ io_received_at o = ne_received_at event
    ∧ io_occurred_at o = e_occurred_at (ne_body event)
    ∧ io_issue_id o = gr_issue_id grouping ∧ io_grouping_key o = gr_key grouping
    ∧ io_release o = e_release (ne_body event)
    ∧ io_title o ≠ [] ∧ len (io_title o) ≤ MAX_ISSUE_TITLE_BYTES
    ∧ (∀ c, io_culprit o = Some c → c ≠ [] ∧ len c ≤ MAX_ISSUE_CULPRIT_BYTES).
Proof. apply prepare_issue_Ok. Qed.

Definition sample_normalized : NormalizedEvent :=
  {| ne_project_id := 7; ne_event_id := replicate 16 1; ne_received_at := 5;
     ne_policy_revision := 1; ne_body := sample_body; ne_diagnostics := [] |}.

Definition sample_grouping : GroupingResult :=
  let key := {| gk_revision := 1; gk_digest := replicate 32 9 |} in
  {| gr_key := key; gr_issue_id := @derive_issue_id toy_digest 7 key; gr_strategy := Message;
     gr_summary := []; gr_components := [] |}.

Lemma prepare_issue_total_witness :
  @verify_issue_id toy_digest 7 (gr_key sample_grouping) (gr_issue_id sample_grouping) = true
  ∧ ∃ o, @prepare_issue_occurrence toy_digest sample_normalized sample_grouping = Ok o
    ∧ io_project_id o = 7 ∧ io_event_id o = replicate 16 1.
Proof.
  assert (Hv : @verify_issue_id toy_digest 7 (gr_key sample_grouping)
    (gr_issue_id sample_grouping) = true) by (vm_compute; reflexivity).
  split; [exact Hv|].
  destruct (@prepare_issue_total toy_digest sample_normalized sample_grouping Hv)
    as (o & Ho & Hp & He & _); [intros r E; discriminate E|].
  exists o. split; [exact Ho|]. split; [exact Hp|exact He].
Defined.

(** A summary is made of plain characters with single blanks between
    words: no control character or line break survives, it starts and ends
    with a plain character and keeps its byte limit. *)
Theorem normalize_summary_shape value maximum :
  11 ≤ maximum →
  ∃ characters, normalize_summary value maximum = concat characters
    ∧ summary_shape characters ∧ characters ≠ []
    ∧ len (normalize_summary value maximum) ≤ maximum.
Proof.
  intros Hm. destruct (normalize_summary_bounds value maximum Hm) as [Hn Hl].
  unfold normalize_summary in *.
  destruct (summary_loop_spec maximum (utf8_chunks value) [] false ShapeNil) as [Hs _];
    [done|cbn [concat]; rewrite len_nil; lia|].
  destruct (is_empty _) eqn:E.
  - exists (map (λ b, [b]) (lit "Error event")). split_and!; [done| |done|done].
    change (map (λ b, [b]) (lit "Error event"))
      with ((((((((((([] ++ [[69]]) ++ [[114]]) ++ [[114]]) ++ [[111]]) ++ [[114]])
             ++ [[32]; [101]]) ++ [[118]]) ++ [[101]]) ++ [[110]]) ++ [[116]])).
    repeat first [apply ShapeChar | apply ShapeNil | apply ShapeSpace | split; reflexivity
                 | discriminate].
  - eexists. split_and!; [done|done| |done]. intros E'. by rewrite E' in E.
Qed.

Lemma normalize_summary_shape_witness :
  normalize_summary (32 :: lit "a" ++ [10; 9] ++ lit "bc  " ++ [0]) 11 = lit "a bc"
  ∧ ∃ characters, lit "a bc" = concat characters ∧ summary_shape characters.
Proof.
  assert (E : normalize_summary (32 :: lit "a" ++ [10; 9] ++ lit "bc  " ++ [0]) 11 = lit "a bc")
    by (vm_compute; reflexivity).
  split; [exact E|].
  destruct (normalize_summary_shape (32 :: lit "a" ++ [10; 9] ++ lit "bc  " ++ [0]) 11
    ltac:(lia)) as (cs & Hc & Hs & _).
  exists cs. rewrite E in Hc. split; [exact Hc|exact Hs].
Defined.
