(* ===== verification/Finalizer.v ===== *)
(** * Finalization of processed events

    [application/src/finalizer.rs] with the values of
    [domain/src/finalization.rs]: the preparation of one event, the checks of
    a batch before it reaches the store, and the pipeline from a normalized
    event to a batch the store accepts.  The JSON text of a processed event is
    an argument ([payload]). *)
From stdpp Require Import base list numbers strings sets gmap.
From Stdlib Require Import ZArith Lia Sorted.
From S2P Require Import Prelude Primitives Identity Event Grouping Issues.

Definition MAX_SEARCH_TOKENS_PER_EVENT : Z := 16.
Definition HARD_MAX_BATCH_EVENTS : Z := 10000.
Definition HARD_MAX_PROCESSED_BODY_BYTES : Z := 4 * 1024 * 1024.
Definition HARD_MAX_RETENTION : duration := 10 * 365 * 24 * 60 * 60 * 1000000000.

Inductive FinalizerError :=
| FInvalidConfig | FInvalidBatch | FDuplicateEvent | FInvalidIdentity | FOutputTooLarge
| FIdentityCollision | FUnavailable.

Record FinalizerConfig := {
  fc_max_batch_events : Z;
  fc_max_processed_body_bytes : Z;
  fc_event_retention : duration;
  fc_hourly_retention : duration;
  fc_archive_events : bool;
  fc_max_implicit_releases_per_project_day : Z;
  fc_max_implicit_environments_per_project : Z;
}.

Definition finalizer_config_default : FinalizerConfig :=
  {| fc_max_batch_events := 256; fc_max_processed_body_bytes := 2 * 1024 * 1024;
     fc_event_retention := 30 * 24 * 60 * 60 * 1000000000;
     fc_hourly_retention := 400 * 24 * 60 * 60 * 1000000000; fc_archive_events := false;
     fc_max_implicit_releases_per_project_day := 1000;
     fc_max_implicit_environments_per_project := 100 |}.

Definition finalizer_config_validate (c : FinalizerConfig)
    : result FinalizerError FinalizerConfig :=
  let valid :=
    in_range 1 HARD_MAX_BATCH_EVENTS (fc_max_batch_events c)
    && in_range 1 HARD_MAX_PROCESSED_BODY_BYTES (fc_max_processed_body_bytes c)
    && negb (fc_event_retention c =? 0)
    && (fc_event_retention c <=? HARD_MAX_RETENTION)
    && negb (fc_hourly_retention c =? 0)
    && (fc_hourly_retention c <=? HARD_MAX_RETENTION)
    && (0 <? fc_max_implicit_releases_per_project_day c)
    && (0 <? fc_max_implicit_environments_per_project c) in
  if valid then Ok c else Err FInvalidConfig.

Record FinalizeEvent := {
  fe_project_id : ProjectId;
  fe_event_id : bytes;
  fe_received_at : Timestamp;
  fe_occurred_at : Timestamp;
  fe_level : EventLevel;
  fe_platform : EventPlatform;
  fe_issue : IssueOccurrence;
  fe_environment : option str;
  fe_search_tokens : list Z;
  fe_payload : bytes;
}.
Definition finalize_key (e : FinalizeEvent) : bytes :=
  event_key_new (fe_project_id e) (fe_event_id e).

(** ** Search tokens *)

(** [BTreeSet::insert] on the sorted elements. *)
Fixpoint token_insert (x : Z) (l : list Z) : list Z :=
  match l with
  | [] => [x]
  | y :: l' => if x <? y then x :: l else if x =? y then l else y :: token_insert x l'
  end.
Definition token_insert_opt (x : option Z) (l : list Z) : list Z :=
  match x with Some x => token_insert x l | None => l end.

Definition user_id (user : CanonicalValue) : option str :=
  match user with
  | VObject fields =>
      match map_get fields (lit "id") with
      | Some (VString value) | Some (VNumber value) => Some value
      | _ => None
      end
  | _ => None
  end.

Section finalizer.
Context `{Blake3}.

Definition search_tokens (event : NormalizedEvent) : list Z :=
  let body := ne_body event in
  token_insert_opt (token_user_id <$> (e_user body ≫= user_id))
    (token_insert_opt (token_environment <$> e_environment body)
       (token_insert_opt (token_release <$> e_release body) [])).

(** ** One event *)

(** [payload b] is [processed_payload] with source context ([true]) or without. *)
Definition prepare (c : FinalizerConfig) (payload : bool → result FinalizerError bytes)
    (event : NormalizedEvent) (grouping : GroupingResult) (issue : IssueOccurrence)
    : result FinalizerError FinalizeEvent :=
  if negb (bool_decide (io_issue_id issue = gr_issue_id grouping))
     || negb (bool_decide (io_grouping_key issue = gr_key grouping))
  then Err FInvalidIdentity
  else
    first ← payload true;
    text ← (if fc_max_processed_body_bytes c <? len first then payload false else Ok first);
    if fc_max_processed_body_bytes c <? len text then Err FOutputTooLarge
    else
      let tokens := search_tokens event in
      if MAX_SEARCH_TOKENS_PER_EVENT <? len tokens then Err FOutputTooLarge
      else
        Ok {| fe_project_id := ne_project_id event; fe_event_id := ne_event_id event;
              fe_received_at := ne_received_at event;
              fe_occurred_at := e_occurred_at (ne_body event);
              fe_level := e_level (ne_body event); fe_platform := e_platform (ne_body event);
              fe_issue := issue; fe_environment := e_environment (ne_body event);
              fe_search_tokens := tokens; fe_payload := text |}.

End finalizer.

(** ** A batch *)

(** The test [any(|token| !tokens.insert(token))]. *)
Fixpoint repeated (seen : gset Z) (tokens : list Z) : bool :=
  match tokens with
  | [] => false
  | token :: tokens' => bool_decide (token ∈ seen) || repeated ({[token]} ∪ seen) tokens'
  end.

Definition validate_event (event : FinalizeEvent) (max_body_bytes : Z)
    : result FinalizerError unit :=
  let identity_matches :=
    (fe_project_id event =? io_project_id (fe_issue event))
    && bool_decide (fe_event_id event = io_event_id (fe_issue event))
    && (fe_received_at event =? io_received_at (fe_issue event))
    && (fe_occurred_at event =? io_occurred_at (fe_issue event)) in
  if negb identity_matches then Err FInvalidIdentity
  else if (max_body_bytes <? len (fe_payload event))
          || (MAX_SEARCH_TOKENS_PER_EVENT <? len (fe_search_tokens event))
  then Err FOutputTooLarge
  else if repeated ∅ (fe_search_tokens event) then Err FInvalidIdentity
  else Ok tt.

(** The loop of [finalize] over the events. *)
Fixpoint validate_batch (keys : gset bytes) (max_body_bytes : Z)
    (events : list FinalizeEvent) : result FinalizerError unit :=
  match events with
  | [] => Ok tt
  | event :: events' =>
      if bool_decide (finalize_key event ∈ keys) then Err FDuplicateEvent
      else
        _ ← validate_event event max_body_bytes;
        validate_batch ({[finalize_key event]} ∪ keys) max_body_bytes events'
  end.

Record FinalizeResult := {
  fr_requested : Z;
  fr_pending : Z;
  fr_finalized : Z;
  fr_skipped_completed : Z;
}.
Inductive FinalizationStoreError := FsInvalidData | FsIdentityCollision | FsUnavailable.
Definition map_store_error (e : FinalizationStoreError) : FinalizerError :=
  match e with
  | FsInvalidData => FInvalidIdentity
  | FsIdentityCollision => FIdentityCollision
  | FsUnavailable => FUnavailable
  end.

(** [finalize]: the result, and whether the notification signal is raised. *)
Definition finalize (c : FinalizerConfig)
    (store : list FinalizeEvent → result FinalizationStoreError FinalizeResult)
    (events : list FinalizeEvent) : result FinalizerError (FinalizeResult * bool) :=
  if is_empty events || (fc_max_batch_events c <? len events) then Err FInvalidBatch
  else
    _ ← validate_batch ∅ (fc_max_processed_body_bytes c) events;
    result ← map_err map_store_error (store events);
    Ok (result, 0 <? fr_finalized result).

(** ** Lemmas *)

Lemma token_insert_elem x y l : y ∈ token_insert x l ↔ y = x ∨ y ∈ l.
Proof.
  induction l as [|z l IH]; cbn; [set_solver|].
  destruct (x <? z); [set_solver|]. destruct (Z.eqb_spec x z) as [->|]; set_solver.
Qed.

Lemma token_insert_sorted x l :
  StronglySorted Z.lt l → StronglySorted Z.lt (token_insert x l).
Proof.
  induction 1 as [|y l Hl IH Hy]; cbn.
  { constructor; constructor. }
  destruct (Z.ltb_spec x y).
  - constructor; [by constructor|]. constructor; [done|].
    eapply Forall_impl; [exact Hy|]. intros. lia.
  - destruct (Z.eqb_spec x y) as [->|]; [by constructor|].
    constructor; [done|]. apply Forall_forall. intros z Hz.
    rewrite Forall_forall in Hy. apply token_insert_elem in Hz as [->|Hz]; [lia|by apply Hy].
Qed.

Lemma length_token_insert x l : len (token_insert x l) ≤ 1 + len l.
Proof.
  induction l as [|y l IH]; cbn [token_insert]; autorewrite with rust; [lia|].
  destruct (x <? y); autorewrite with rust; [lia|].
  destruct (x =? y); autorewrite with rust; lia.
Qed.

Lemma sorted_not_repeated l : ∀ seen,
  StronglySorted Z.lt l → (∀ x, x ∈ l → x ∉ seen) → repeated seen l = false.
Proof.
  induction l as [|x l IH]; intros seen Hs Hd; [done|]. cbn.
  inversion Hs as [|? ? Hl Hx]; subst.
  rewrite bool_decide_eq_false_2 by (apply Hd; set_solver). cbn. apply IH; [done|].
  intros y Hy. rewrite elem_of_union, elem_of_singleton. rewrite Forall_forall in Hx.
  specialize (Hx y Hy). intros [->|?]; [lia|]. apply (Hd y); set_solver.
Qed.

Section tokens.
Context `{Blake3}.

Lemma token_insert_opt_ok x l :
  StronglySorted Z.lt l →
  StronglySorted Z.lt (token_insert_opt x l) ∧ len (token_insert_opt x l) ≤ 1 + len l.
Proof.
  intros Hs. destruct x as [x|]; cbn; [|split; [done|lia]].
  split; [by apply token_insert_sorted|apply length_token_insert].
Qed.

Lemma search_tokens_ok event :
  StronglySorted Z.lt (search_tokens event) ∧ len (search_tokens event) ≤ 3.
Proof.
  unfold search_tokens.
  destruct (token_insert_opt_ok (token_release <$> e_release (ne_body event)) [])
    as [H1 L1]; [constructor|]. rewrite len_nil in L1.
  destruct (token_insert_opt_ok (token_environment <$> e_environment (ne_body event)) _ H1)
    as [H2 L2].
  destruct (token_insert_opt_ok (token_user_id <$> (e_user (ne_body event) ≫= user_id)) _ H2)
    as [H3 L3].
  split; [exact H3|lia].
Qed.

Lemma prepare_Ok c payload event grouping issue e :
  prepare c payload event grouping issue = Ok e →
  fe_issue e = issue ∧ io_issue_id issue = gr_issue_id grouping
  ∧ io_grouping_key issue = gr_key grouping
  ∧ fe_project_id e = ne_project_id event ∧ fe_event_id e = ne_event_id event
  ∧ fe_received_at e = ne_received_at event ∧ fe_occurred_at e = e_occurred_at (ne_body event)
  ∧ fe_search_tokens e = search_tokens event
  ∧ len (fe_payload e) ≤ fc_max_processed_body_bytes c.
Proof.
  unfold prepare. destruct (_ || _) eqn:E; [done|]. intros Hp.
  apply bind_Ok in Hp as (first & _ & Hp). apply bind_Ok in Hp as (text & _ & Hp).
  destruct (Z.ltb_spec (fc_max_processed_body_bytes c) (len text)); [done|].
  destruct (_ <? len _) in Hp; [done|]. injection Hp as <-.
  apply orb_false_iff in E as [E1 E2]. apply negb_false_iff in E1, E2. bool_prop.
  cbn. split_and!; done.
Qed.

Lemma prepared_validates c payload event grouping issue e :
  prepare c payload event grouping issue = Ok e →
  io_project_id issue = ne_project_id event → io_event_id issue = ne_event_id event →
  io_received_at issue = ne_received_at event →
  io_occurred_at issue = e_occurred_at (ne_body event) →
  validate_event e (fc_max_processed_body_bytes c) = Ok tt.
Proof.
  intros Hp H1 H2 H3 H4. apply prepare_Ok in Hp as (Ei & _ & _ & E1 & E2 & E3 & E4 & Et & Hl).
  destruct (search_tokens_ok event) as [Hs Hlen].
  unfold validate_event. rewrite Ei, E1, E2, E3, E4, H1, H2, H3, H4, Et, !Z.eqb_refl.
  rewrite bool_decide_eq_true_2 by done. cbn [andb negb].
  destruct (Z.ltb_spec (fc_max_processed_body_bytes c) (len (fe_payload e))); [lia|].
  destruct (Z.ltb_spec MAX_SEARCH_TOKENS_PER_EVENT (len (search_tokens event)));
    [unfold MAX_SEARCH_TOKENS_PER_EVENT in *; lia|].
  cbn [orb]. by rewrite sorted_not_repeated by (done || set_solver).
Qed.

Lemma prepare_total c payload event grouping issue :
  io_issue_id issue = gr_issue_id grouping → io_grouping_key issue = gr_key grouping →
  (∃ text, payload false = Ok text ∧ len text ≤ fc_max_processed_body_bytes c) →
  is_ok (payload true) = true →
  ∃ e, prepare c payload event grouping issue = Ok e.
Proof.
  intros H1 H2 (text & Ht & Hl) Hok. unfold prepare.
  rewrite !bool_decide_eq_true_2 by done. cbn [negb orb].
  destruct (payload true) as [first|]; [|done]. cbn [mbind result_bind].
  destruct (search_tokens_ok event) as [_ Hlen].
  assert (Hs : (MAX_SEARCH_TOKENS_PER_EVENT <? len (search_tokens event)) = false).
  { apply Z.ltb_ge. unfold MAX_SEARCH_TOKENS_PER_EVENT. lia. }
  destruct (Z.ltb_spec (fc_max_processed_body_bytes c) (len first)).
  - rewrite Ht. cbn [mbind result_bind].
    destruct (Z.ltb_spec (fc_max_processed_body_bytes c) (len text)); [lia|].
    rewrite Hs. by eexists.
  - cbn [mbind result_bind].
    destruct (Z.ltb_spec (fc_max_processed_body_bytes c) (len first)); [lia|].
    rewrite Hs. by eexists.
Qed.
End tokens.

Lemma validate_batch_Ok max events : ∀ keys,
  validate_batch keys max events = Ok tt →
  NoDup (map finalize_key events)
  ∧ (∀ e, e ∈ events → finalize_key e ∉ keys)
  ∧ (∀ e, e ∈ events → validate_event e max = Ok tt).
Proof.
  induction events as [|e es IH]; intros keys Hv.
  { split_and!; [constructor|by intros e ?%not_elem_of_nil..]. }
  cbn [validate_batch] in Hv. case_bool_decide as Hk; [done|].
  apply bind_Ok in Hv as ([] & He & Hv). apply IH in Hv as (Hn & Hd & Ha).
  split_and!.
  - cbn [map]. constructor; [|done]. intros Hin.
    apply list_elem_of_fmap in Hin as (x & E & Hx). apply (Hd x Hx).
    apply elem_of_union_l, elem_of_singleton. done.
  - intros x Hx. apply elem_of_cons in Hx as [->|Hx]; [done|]. specialize (Hd x Hx).
    by apply not_elem_of_union in Hd as [_ Hd].
  - intros x Hx. apply elem_of_cons in Hx as [->|Hx]; [done|by apply Ha].
Qed.

(** ** Theorems *)

(** From a normalized event to the store, without a hole: an event that
    keeps the normalizer's limits and has no SDK fingerprint is grouped, its
    occurrence is prepared, its finalization is prepared as soon as its text
    without source context fits, and what results passes every check of the
    batch. *)
Theorem pipeline_accepts `{Blake3} c payload event symbolication :
  e_fingerprint (ne_body event) = [] → body_ok (ne_body event) →
  symbolication_ok symbolication → release_ok (e_release (ne_body event)) →
  is_ok (payload true) = true →
  (∃ text, payload false = Ok text ∧ len text ≤ fc_max_processed_body_bytes c) →
  ∃ grouping issue e,
    group (ne_project_id event) 1 (ne_body event) symbolication = Ok grouping
    ∧ prepare_issue_occurrence event grouping = Ok issue
    ∧ prepare c payload event grouping issue = Ok e
    ∧ finalize_key e = event_key_new (ne_project_id event) (ne_event_id event)
    ∧ validate_batch ∅ (fc_max_processed_body_bytes c) [e] = Ok tt.
Proof.
  intros Hf Hb Hs Hr Ht Hp.
  destruct (group_default_ok (ne_project_id event) (ne_body event) symbolication Hf Hb Hs)
    as (grouping & Hg & Hv).
  destruct (prepare_issue_Ok event grouping Hv Hr)
    as (issue & Hi & I1 & I2 & I3 & I4 & I5 & I6 & _).
  destruct (prepare_total c payload event grouping issue I5 I6 Hp Ht) as [e He].
  exists grouping, issue, e. split_and!; try done.
  - apply prepare_Ok in He as (_ & _ & _ & E1 & E2 & _). unfold finalize_key. by rewrite E1, E2.
  - cbn [validate_batch]. rewrite bool_decide_eq_false_2 by apply not_elem_of_empty.
    rewrite (prepared_validates _ _ _ _ _ _ He) by done. done.
Qed.

(** The store is called only with a batch that is not empty, within the
    configured size, of distinct events each of which validates; otherwise the
    error is one of the checks and the store is not called. *)
Theorem finalize_checks_batch c store events :
  match finalize c store events with
  | Ok (result, signalled) =>
      store events = Ok result ∧ events ≠ [] ∧ len events ≤ fc_max_batch_events c
      ∧ NoDup (map finalize_key events)
      ∧ (∀ e, e ∈ events → validate_event e (fc_max_processed_body_bytes c) = Ok tt)
      ∧ (signalled = true ↔ 0 < fr_finalized result)
  | Err e =>
      (events = [] ∨ fc_max_batch_events c < len events) ∧ e = FInvalidBatch
      ∨ validate_batch ∅ (fc_max_processed_body_bytes c) events = Err e
      ∨ ∃ se, store events = Err se ∧ e = map_store_error se
  end.
Proof.
  unfold finalize. destruct (is_empty events) eqn:E1; cbn [orb].
  { left. split; [left; by apply is_empty_true|done]. }
  destruct (Z.ltb_spec (fc_max_batch_events c) (len events)).
  { left. split; [by right|done]. }
  destruct (validate_batch ∅ _ events) as [[]|e] eqn:Ev; cbn [mbind result_bind].
  2:{ right. by left. }
  destruct (store events) as [result|se] eqn:Es; cbn [map_err mbind result_bind].
  2:{ right. right. by exists se. }
  apply validate_batch_Ok in Ev as (Hn & _ & Ha). split_and!; try done.
  - by intros ->.
  - apply Z.ltb_lt.
Qed.

Lemma pipeline_accepts_witness :
  ∃ grouping issue e,
    @group toy_digest 7 1 (ne_body sample_normalized) None = Ok grouping
    ∧ @prepare_issue_occurrence toy_digest sample_normalized grouping = Ok issue
    ∧ @prepare toy_digest finalizer_config_default (λ _, Ok [123; 125]) sample_normalized
        grouping issue = Ok e
    ∧ finalize_key e = event_key_new 7 (replicate 16 1)
    ∧ validate_batch ∅ (fc_max_processed_body_bytes finalizer_config_default) [e] = Ok tt.
Proof.
  refine (@pipeline_accepts toy_digest finalizer_config_default (λ _, Ok [123; 125])
    sample_normalized None eq_refl sample_body_ok _ _ eq_refl _).
  - intros r E. discriminate E.
  - intros r E. discriminate E.
  - exists [123; 125]. split; [reflexivity|]. unfold len. cbn. lia.
Defined.
