(* ===== verification/Payload.v ===== *)
(** * The processed payload

    The JSON projection of a normalized event ([application/src/normalizer.rs])
    and the payload the finalizer stores ([application/src/finalizer.rs]): the
    event with its diagnostics and what symbolication derived under [_metric]. *)
From stdpp Require Import base list numbers strings.
From Stdlib Require Import ZArith Lia.
From S2P Require Import Prelude Float Primitives Event Normalizer JsonValue Finalizer.

(** ** The words of the symbolication result *)

Definition symbolication_kind_as_str (k : SymbolicationKind) : string :=
  match k with SkNotRequired => "not_required" | SkNative => "native" | SkJavaScript => "javascript" end.
Definition symbolication_status_as_str (s : SymbolicationStatus) : string :=
  match s with
  | StNotRequired => "not_required" | StComplete => "complete" | StPartial => "partial"
  | StMissing => "missing" | StMalformed => "malformed" | StTimeout => "timeout"
  | StUnavailable => "unavailable" | StCancelled => "cancelled"
  end.
Definition disposition_as_str (d : SymbolicationDisposition) : string :=
  match d with DContinue => "continue" | DRetryable => "retryable" | DFinalizeRaw => "finalize_raw" end.
Definition symbolication_diagnostic_as_str (c : SymbolicationDiagnosticCode) : string :=
  match c with
  | BackendPartial => "backend_partial" | MissingDebugFile => "missing_debug_file"
  | MalformedDebugFile => "malformed_debug_file"
  | MalformedBackendResponse => "malformed_backend_response"
  | RequestLimitExceeded => "request_limit_exceeded" | BackendTimeout => "backend_timeout"
  | BackendUnavailable => "backend_unavailable" | SCancelled => "cancelled"
  | BaselineBackendDisabled => "baseline_backend_disabled"
  end.

Section payload.
Context {N : Type} `{!JsonApi N, !JsonBuild N, !JsonPrint N}.
Abbreviation Value := (JValue N).
Abbreviation Map := (list (str * Value)).

(** ** The projection of the body *)

Fixpoint canonical_to_value (value : CanonicalValue) : Value :=
  match value with
  | VNull => JNull
  | VBool b => JBool b
  | VNumber spelling => unwrap_or JNull (json_from_slice spelling)
  | VString s => JString s
  | VArray items => JArray (map canonical_to_value items)
  | VObject fields => JObject (map (λ kv, (kv.1, canonical_to_value kv.2)) fields)
  end.
Definition canonical_map_to_json_map (values : list (str * CanonicalValue)) : Map :=
  map (λ kv, (kv.1, canonical_to_value kv.2)) values.
Definition canonical_map_to_value (values : list (str * CanonicalValue)) : Value :=
  JObject (canonical_map_to_json_map values).

(** One insertion after another, each under a condition. *)
Abbreviation inserting := (Map → Map).
Definition insert_value (key : string) (value : Value) : inserting := λ root, map_insert root key value.
Definition insert_when (condition : bool) (key : string) (value : Value) : inserting :=
  if condition then insert_value key value else λ root, root.
Definition insert_some {A} (key : string) (json : A → Value) (value : option A) : inserting :=
  match value with Some value => insert_value key (json value) | None => λ root, root end.
Definition insert_optional (key : string) (value : option str) : inserting := insert_some key JString value.
Definition insert_all (steps : list inserting) (root : Map) : Map := foldl (λ root step, step root) root steps.

Definition json_seconds (instant : Timestamp) : Value := value_of_f64 (f64_div (f64_of_i64 instant) (f64_of_i64 1000)).
Definition json_u64 (n : Z) : Value := JNumber (number_of_u64 n).
Definition json_strings (values : list str) : Value := JArray (map JString values).

Definition frame_to_value (frame : NormalizedFrame) : Value :=
  JObject (insert_all
    [insert_optional "filename" (f_filename frame); insert_optional "abs_path" (f_absolute_path frame);
     insert_optional "function" (f_function frame); insert_optional "module" (f_module frame);
     insert_optional "package" (f_package frame);
     insert_optional "instruction_addr" (f_instruction_address frame);
     insert_optional "symbol_addr" (f_symbol_address frame);
     insert_some "lineno" json_u64 (f_line frame); insert_some "colno" json_u64 (f_column frame);
     insert_some "in_app" JBool (f_in_app frame); insert_optional "context_line" (f_context_line frame);
     insert_when (non_empty (f_pre_context frame)) "pre_context" (json_strings (f_pre_context frame));
     insert_when (non_empty (f_post_context frame)) "post_context" (json_strings (f_post_context frame));
     insert_when (non_empty (f_variables frame)) "vars" (canonical_map_to_value (f_variables frame))]
    (canonical_map_to_json_map (f_unknown frame))).
Definition frames_to_value (frames : list NormalizedFrame) : Value :=
  json_object [("frames"%string, JArray (map frame_to_value frames))].
Definition exception_to_value (exception : NormalizedException) : Value :=
  JObject (insert_all
    [insert_optional "type" (x_ty exception); insert_optional "value" (x_value exception);
     insert_optional "module" (x_module exception); insert_optional "thread_id" (x_thread_id exception);
     insert_some "mechanism" canonical_to_value (x_mechanism exception);
     insert_when (non_empty (x_stacktrace exception)) "stacktrace" (frames_to_value (x_stacktrace exception));
     insert_when (non_empty (x_raw_stacktrace exception)) "raw_stacktrace"
       (frames_to_value (x_raw_stacktrace exception))]
    (canonical_map_to_json_map (x_unknown exception))).
Definition breadcrumb_to_value (breadcrumb : NormalizedBreadcrumb) : Value :=
  JObject (insert_all
    [insert_some "timestamp" json_seconds (b_timestamp breadcrumb); insert_optional "type" (b_ty breadcrumb);
     insert_optional "category" (b_category breadcrumb);
     insert_some "level" (λ level, JString (level_as_str level)) (b_level breadcrumb);
     insert_optional "message" (b_message breadcrumb);
     insert_when (non_empty (b_data breadcrumb)) "data" (canonical_map_to_value (b_data breadcrumb))]
    (canonical_map_to_json_map (b_unknown breadcrumb))).
Definition platform_is_other (p : EventPlatform) : bool := match p with POther => true | _ => false end.
Definition level_is_error (l : EventLevel) : bool := match l with LError => true | _ => false end.
Definition tag_to_value (tag : NormalizedTag) : Value := JArray [JString (t_key tag); JString (t_value tag)].
Definition body_to_map (body : NormalizedEventBody) : Map :=
  let root := insert_all
    [insert_value "timestamp" (json_seconds (e_occurred_at body));
     insert_when (negb (platform_is_other (e_platform body))) "platform" (JString (platform_as_str (e_platform body)));
     insert_when (negb (level_is_error (e_level body))) "level" (JString (level_as_str (e_level body)));
     insert_optional "logger" (e_logger body); insert_optional "message" (e_message body);
     insert_optional "transaction" (e_transaction body); insert_optional "release" (e_release body);
     insert_optional "dist" (e_dist body); insert_optional "environment" (e_environment body);
     insert_when (non_empty (e_fingerprint body)) "fingerprint" (json_strings (e_fingerprint body));
     insert_when (non_empty (e_exceptions body)) "exception"
       (json_object [("values"%string, JArray (map exception_to_value (e_exceptions body)))]);
     insert_when (non_empty (e_stacktrace body)) "stacktrace" (frames_to_value (e_stacktrace body));
     insert_when (non_empty (e_tags body)) "tags" (JArray (map tag_to_value (e_tags body)));
     insert_some "request" canonical_to_value (e_request body);
     insert_some "user" canonical_to_value (e_user body);
     insert_when (non_empty (e_contexts body)) "contexts" (canonical_map_to_value (e_contexts body));
     insert_when (non_empty (e_breadcrumbs body)) "breadcrumbs"
       (json_object [("values"%string, JArray (map breadcrumb_to_value (e_breadcrumbs body)))])] [] in
  foldl (λ root kv, (btree_insert root kv.1 (canonical_to_value kv.2)).1) root (e_unknown body).
Definition body_to_value (body : NormalizedEventBody) : Value := JObject (body_to_map body).
(** [Normalizer::canonical_json]; [None]: it panics. *)
Definition canonical_json (body : NormalizedEventBody) : option bytes := json_to_vec (body_to_value body).

(** ** The payload *)

Definition origin_value (origin : RawTraceOrigin) : Value :=
  match origin with
  | OEvent => json_object [("kind"%string, JString (lit "event"))]
  | OException index => json_object [("kind"%string, JString (lit "exception")); ("index"%string, json_u64 index)]
  | OExceptionRaw index =>
      json_object [("kind"%string, JString (lit "exception_raw")); ("index"%string, json_u64 index)]
  end.
Definition frame_value (include_source_context : bool) (frame : SymbolicatedFrame) : Value :=
  JObject (insert_all
    ([insert_value "original_index" (json_u64 (sf_original_index frame));
      insert_optional "function" (sf_function frame); insert_optional "filename" (sf_filename frame);
      insert_optional "module" (sf_module frame)]
     ++ (if include_source_context then
           [insert_optional "context_line" (sf_context_line frame);
            insert_when (non_empty (sf_pre_context frame)) "pre_context" (json_strings (sf_pre_context frame));
            insert_when (non_empty (sf_post_context frame)) "post_context" (json_strings (sf_post_context frame))]
         else [])
     ++ [insert_some "line" json_u64 (sf_line frame); insert_some "column" json_u64 (sf_column frame)]) []).
Definition metric_value (event : NormalizedEvent) (symbolication : SymbolicationResult) (include_source_context : bool) : Value :=
  json_object
    [("normalization"%string, JArray (map (λ d, json_object [("code"%string, JString (diagnostic_as_str (nd_code d)));
                                                              ("path"%string, JString (nd_path d))]) (ne_diagnostics event)));
     ("symbolication"%string, json_object
       [("kind"%string, JString (lit (symbolication_kind_as_str (sy_kind symbolication))));
        ("status"%string, JString (lit (symbolication_status_as_str (sy_status symbolication))));
        ("disposition"%string, JString (lit (disposition_as_str (sy_disposition symbolication))));
        ("derived"%string, JArray (map (λ trace, json_object
           [("origin"%string, origin_value (ss_origin trace));
            ("frames"%string, JArray (map (frame_value include_source_context) (ss_frames trace)))])
           (sy_derived symbolication)));
        ("missing_debug_ids"%string, json_strings (sy_missing_debug_ids symbolication));
        ("diagnostics"%string, JArray (map (λ d, JString (lit (symbolication_diagnostic_as_str d)))
           (sy_diagnostics symbolication)))])].
Definition processed_value (event : NormalizedEvent) (symbolication : SymbolicationResult) (include_source_context : bool) : Value :=
  JObject (map_insert (body_to_map (ne_body event)) "_metric" (metric_value event symbolication include_source_context)).
Definition processed_payload (event : NormalizedEvent) (symbolication : SymbolicationResult) (include_source_context : bool)
    : result FinalizerError bytes :=
  ok_or FInvalidIdentity (json_to_vec (processed_value event symbolication include_source_context)).

(** What the documentation of [to_vec] says: it fails only on values that refuse
    to be serialized and on maps without text keys, and a [Value] is neither. *)
Definition prints_values : Prop := ∀ value : Value, is_Some (json_to_vec value).
Lemma processed_payload_Ok event symbolication include :
  prints_values → ∃ text, processed_payload event symbolication include = Ok text.
Proof.
  intros Hp. unfold processed_payload. destruct (Hp (processed_value event symbolication include)) as [text ->]. by exists text.
Qed.
End payload.
