(* ===== verification/Processor.v ===== *)
(** * The event processor

    [application/src/processor.rs] with the codes of
    [domain/src/processing.rs]: the stages of one event under their deadlines,
    the mapping of errors, the retry schedule and what a failure records.
    A future is what the runtime shows of it ([async]): a value at an instant,
    no value, or the cancellation first. *)
From stdpp Require Import base list numbers strings sets gmap.
From Stdlib Require Import ZArith Lia.
From S2P Require Import Prelude Primitives Identity Event Normalizer Grouping Issues Finalizer.

Definition HARD_MAX_CONCURRENCY : Z := 4096.
Definition HARD_MAX_ATTEMPTS : Z := 100.
Definition HARD_MAX_DURATION : duration := 10 * 60 * 1000000000.

Record ProcessorConfig := {
  pc_max_concurrency : Z;
  pc_max_attempts : Z;
  pc_retry_base : duration;
  pc_retry_max : duration;
  pc_stage_timeout : duration;
  pc_total_timeout : duration;
  pc_state_timeout : duration;
}.

Definition processor_config_default : ProcessorConfig :=
  {| pc_max_concurrency := 32; pc_max_attempts := 5; pc_retry_base := 1000000000;
     pc_retry_max := 300 * 1000000000; pc_stage_timeout := 15 * 1000000000;
     pc_total_timeout := 60 * 1000000000; pc_state_timeout := 5 * 1000000000 |}.

Definition processor_config_validate (c : ProcessorConfig) : result unit ProcessorConfig :=
  let durations :=
    [pc_retry_base c; pc_retry_max c; pc_stage_timeout c; pc_total_timeout c;
     pc_state_timeout c] in
  let valid :=
    in_range 1 HARD_MAX_CONCURRENCY (pc_max_concurrency c)
    && in_range 1 HARD_MAX_ATTEMPTS (pc_max_attempts c)
    && forallb (λ d, negb (d =? 0) && (d <=? HARD_MAX_DURATION)) durations
    && (pc_retry_base c <=? pc_retry_max c)
    && (pc_stage_timeout c <=? pc_total_timeout c)
    && (pc_state_timeout c <=? pc_total_timeout c) in
  if valid then Ok c else Err tt.

(** ** Error codes *)

Inductive ProcessingErrorCode :=
| ProjectUnavailable | ProjectNotFound | ProjectFenced | ErrorCapabilityDisabled
| ProjectInvalidData | CodeCancelled | TotalDeadline | StageDeadline
| NormalizationInvalidJson | NormalizationInvalidRoot | NormalizationTooComplex
| NormalizationIdentityTooLarge | SymbolicationRetryable | GroupingUnsupportedRevision
| GroupingInputLimit | IssueInvalidIdentity | IssueInvalidSummary | FinalizerInvalidData
| FinalizerIdentityCollision | FinalizerUnavailable | RetryExhausted.
#[export] Instance ProcessingErrorCode_eq_dec : EqDecision ProcessingErrorCode.
Proof. solve_decision. Defined.

Definition code_stored (c : ProcessingErrorCode) : Z :=
  match c with
  | ProjectUnavailable => 1 | ProjectNotFound => 2 | ProjectFenced => 3
  | ErrorCapabilityDisabled => 4 | ProjectInvalidData => 5 | CodeCancelled => 6
  | TotalDeadline => 7 | StageDeadline => 8
  | NormalizationInvalidJson => 10 | NormalizationInvalidRoot => 11
  | NormalizationTooComplex => 12 | NormalizationIdentityTooLarge => 13
  | SymbolicationRetryable => 20
  | GroupingUnsupportedRevision => 30 | GroupingInputLimit => 31
  | IssueInvalidIdentity => 40 | IssueInvalidSummary => 41
  | FinalizerInvalidData => 50 | FinalizerIdentityCollision => 51
  | FinalizerUnavailable => 52
  | RetryExhausted => 60
  end.

Definition code_as_str (c : ProcessingErrorCode) : str :=
  lit match c with
  | ProjectUnavailable => "project_unavailable"
  | ProjectNotFound => "project_not_found"
  | ProjectFenced => "project_fenced"
  | ErrorCapabilityDisabled => "error_capability_disabled"
  | ProjectInvalidData => "project_invalid_data"
  | CodeCancelled => "cancelled"
  | TotalDeadline => "total_deadline"
  | StageDeadline => "stage_deadline"
  | NormalizationInvalidJson => "normalization_invalid_json"
  | NormalizationInvalidRoot => "normalization_invalid_root"
  | NormalizationTooComplex => "normalization_too_complex"
  | NormalizationIdentityTooLarge => "normalization_identity_too_large"
  | SymbolicationRetryable => "symbolication_retryable"
  | GroupingUnsupportedRevision => "grouping_unsupported_revision"
  | GroupingInputLimit => "grouping_input_limit"
  | IssueInvalidIdentity => "issue_invalid_identity"
  | IssueInvalidSummary => "issue_invalid_summary"
  | FinalizerInvalidData => "finalizer_invalid_data"
  | FinalizerIdentityCollision => "finalizer_identity_collision"
  | FinalizerUnavailable => "finalizer_unavailable"
  | RetryExhausted => "retry_exhausted"
  end.

Inductive StageFailureClass := Temporary | Permanent.
#[export] Instance StageFailureClass_eq_dec : EqDecision StageFailureClass.
Proof. solve_decision. Defined.

Record StageFailure := {
  sf_class : StageFailureClass;
  sf_code : ProcessingErrorCode;
}.
Definition temporary (code : ProcessingErrorCode) : StageFailure :=
  {| sf_class := Temporary; sf_code := code |}.
Definition permanent (code : ProcessingErrorCode) : StageFailure :=
  {| sf_class := Permanent; sf_code := code |}.

Inductive ProcessingProjectError := PpNotFound | PpInvalidData | PpUnavailable.
Definition map_project_error (e : ProcessingProjectError) : StageFailure :=
  match e with
  | PpNotFound => permanent ProjectNotFound
  | PpInvalidData => permanent ProjectInvalidData
  | PpUnavailable => temporary ProjectUnavailable
  end.

Definition map_normalization_error (e : NormalizationError) : StageFailure :=
  permanent match e with
  | NInvalidJson => NormalizationInvalidJson
  | NInvalidRoot => NormalizationInvalidRoot
  | NTooComplex => NormalizationTooComplex
  | NIdentityFieldTooLarge => NormalizationIdentityTooLarge
  end.

Definition map_grouping_error (e : GroupingError) : StageFailure :=
  permanent match e with
  | UnsupportedRevision => GroupingUnsupportedRevision
  | InputLimitExceeded => GroupingInputLimit
  end.

Definition map_issue_error (e : IssueServiceError) : StageFailure :=
  permanent match e with
  | IInvalidGroupingIdentity => IssueInvalidIdentity
  | IInvalidSummary => IssueInvalidSummary
  | IIdentityCollision | INotFound | IInvalidData | IUnavailable => IssueInvalidIdentity
  end.

Definition map_finalizer_error (e : FinalizerError) : StageFailure :=
  match e with
  | FUnavailable => temporary FinalizerUnavailable
  | FIdentityCollision => permanent FinalizerIdentityCollision
  | FInvalidConfig | FInvalidBatch | FDuplicateEvent | FInvalidIdentity | FOutputTooLarge =>
      permanent FinalizerInvalidData
  end.

(** ** Stages *)

Record ProcessingProject := {
  pp_project_id : ProjectId;
  pp_state : ProjectAcceptanceState;
  pp_error_events_enabled : bool;
  pp_grouping_revision : Z;
  pp_debug_file_revision : Z;
  pp_artifact_revision : Z;
}.

(** What the runtime shows of a future: a value at an instant, no value, or the
    cancellation of the processor before either. *)
Inductive async (T : Type) :=
| Completes (value : T) (at_instant : Z)
| NeverCompletes
| CancelledFirst.
Arguments Completes {T} value at_instant.
Arguments NeverCompletes {T}.
Arguments CancelledFirst {T}.

Definition run_stage {T} (started : Z) (stage_timeout : duration) (total_deadline : Z)
    (future : async T) : result StageFailure T :=
  let stage_deadline := Z.min (started + stage_timeout) total_deadline in
  let deadline_failure :=
    if stage_deadline =? total_deadline then temporary TotalDeadline
    else temporary StageDeadline in
  match future with
  | CancelledFirst => Err (temporary CodeCancelled)
  | Completes value now => if stage_deadline <=? now then Err deadline_failure else Ok value
  | NeverCompletes => Err deadline_failure
  end.

Definition should_retry_symbolication (disposition : SymbolicationDisposition)
    (completed_attempts maximum_attempts : Z) : bool :=
  match disposition with
  | DRetryable => sat_u32 (completed_attempts + 1) <? maximum_attempts
  | _ => false
  end.

(** The stages the processor is given; [issue] is what issue preparation hands
    to the finalizer.  Each stage comes with the instant it starts at. *)
Class Stages (issue : Type) := {
  stage_project : ProjectId → Z * async (result ProcessingProjectError ProcessingProject);
  stage_normalize : AcceptedEvent → Z * async (result StageFailure NormalizedEvent);
  stage_symbolicate : NormalizedEvent → Z → Z → Z * async (result StageFailure SymbolicationResult);
  stage_group :
    NormalizedEvent → SymbolicationResult → Z → Z * async (result StageFailure GroupingResult);
  stage_prepare : NormalizedEvent → GroupingResult → Z * async (result StageFailure issue);
  stage_finalize :
    NormalizedEvent → SymbolicationResult → GroupingResult → issue
    → Z * async (result StageFailure unit);
}.

Section execute.
Context {issue : Type} `{Stages issue}.

(** [run_stage(..).await??]. *)
Definition staged {T} (c : ProcessorConfig) (total_deadline : Z)
    (stage : Z * async (result StageFailure T)) : result StageFailure T :=
  r ← run_stage (fst stage) (pc_stage_timeout c) total_deadline (snd stage); r.

Definition execute (c : ProcessorConfig) (pending : PendingEvent) (total_deadline : Z)
    : result StageFailure unit :=
  let event := pe_event pending in
  let load := stage_project (ae_project_id event) in
  loaded ← run_stage (fst load) (pc_stage_timeout c) total_deadline (snd load);
  project ← map_err map_project_error loaded;
  if negb (pp_project_id project =? ae_project_id event) then Err (permanent ProjectInvalidData)
  else if negb (bool_decide (pp_state project = PActive)) then Err (permanent ProjectFenced)
  else if negb (pp_error_events_enabled project) then Err (permanent ErrorCapabilityDisabled)
  else
    normalized ← staged c total_deadline (stage_normalize event);
    symbolication ← staged c total_deadline
      (stage_symbolicate normalized (pp_debug_file_revision project)
         (pp_artifact_revision project));
    if should_retry_symbolication (sy_disposition symbolication) (pe_attempts pending)
         (pc_max_attempts c)
    then Err (temporary SymbolicationRetryable)
    else
      grouping ← staged c total_deadline
        (stage_group normalized symbolication (pp_grouping_revision project));
      prepared ← staged c total_deadline (stage_prepare normalized grouping);
      _ ← staged c total_deadline (stage_finalize normalized symbolication grouping prepared);
      Ok tt.

End execute.

(** ** Retries and failures *)

(** [1_u32.checked_shl(exponent).unwrap_or(u32::MAX)]. *)
Definition retry_multiplier (exponent : Z) : Z :=
  if exponent <? 32 then Z.shiftl 1 exponent mod 2 ^ 32 else U32_MAX.

Definition retry_delay (c : ProcessorConfig) (attempts : Z) : duration :=
  let exponent := Z.min (sat_u32 (attempts - 1)) 31 in
  Z.min (unwrap_or (pc_retry_max c)
           (duration_checked_mul (pc_retry_base c) (retry_multiplier exponent)))
    (pc_retry_max c).

Definition retry_at (now : Timestamp) (attempts : Z) (c : ProcessorConfig)
    : option Timestamp :=
  millis ← checked_i64 (as_millis (retry_delay c attempts));
  at_millis ← checked_i64 (now + millis);
  ok (from_unix_millis at_millis).

Inductive ProcessingFailureDisposition := RetryAt (at_time : Timestamp) | PermanentlyFailed.
Record ProcessingFailure := {
  pf_key : bytes;
  pf_expected_attempts : Z;
  pf_new_attempts : Z;
  pf_code : ProcessingErrorCode;
  pf_disposition : ProcessingFailureDisposition;
}.
Inductive ProcessingStateChange := Updated | StaleOrCompletedChange.

Inductive ProcessorOutcome :=
| Processed | RetryScheduled | OPermanentlyFailed | StaleOrCompleted | StateUnavailable.
Definition outcome_name (o : ProcessorOutcome) : str :=
  lit match o with
  | Processed => "processed"
  | RetryScheduled => "retry"
  | OPermanentlyFailed => "failed"
  | StaleOrCompleted => "stale"
  | StateUnavailable => "state_unavailable"
  end.

(** The update [write_failure] records, and its outcome; the store answers
    within the state timeout ([Some]) or not, an error of the store is [None] too. *)
Definition failure_update (pending : PendingEvent) (failure : StageFailure) (new_attempts : Z)
    (retry : option Timestamp) : ProcessingFailure :=
  {| pf_key := pending_key pending; pf_expected_attempts := pe_attempts pending;
     pf_new_attempts := new_attempts; pf_code := sf_code failure;
     pf_disposition := match retry with Some t => RetryAt t | None => PermanentlyFailed end |}.

Definition write_failure (record : ProcessingFailure → option ProcessingStateChange)
    (update : ProcessingFailure) : ProcessorOutcome :=
  match record update with
  | Some Updated =>
      match pf_disposition update with
      | RetryAt _ => RetryScheduled
      | PermanentlyFailed => OPermanentlyFailed
      end
  | Some StaleOrCompletedChange => StaleOrCompleted
  | None => StateUnavailable
  end.

(** What [persist_failure] decides to record. *)
Definition decide_failure (c : ProcessorConfig) (now : Timestamp) (pending : PendingEvent)
    (failure : StageFailure) : ProcessingFailure :=
  match checked_u32 (pe_attempts pending + 1) with
  | None => failure_update pending (permanent RetryExhausted) U32_MAX None
  | Some new_attempts =>
      let exhausted := pc_max_attempts c <=? new_attempts in
      let class :=
        if exhausted && bool_decide (sf_class failure = Temporary) then Permanent
        else sf_class failure in
      match class with
      | Temporary =>
          match retry_at now new_attempts c with
          | Some at_time => failure_update pending failure new_attempts (Some at_time)
          | None => failure_update pending (permanent RetryExhausted) new_attempts None
          end
      | Permanent => failure_update pending failure new_attempts None
      end
  end.

Definition persist_failure (c : ProcessorConfig) (now : Timestamp)
    (record : ProcessingFailure → option ProcessingStateChange) (pending : PendingEvent)
    (failure : StageFailure) : ProcessorOutcome :=
  write_failure record (decide_failure c now pending failure).

(** [process]: the permit, then the stages, then the failure.  A permit is
    acquired, refused by the deadline or lost to the cancellation. *)
Definition process {issue} `{Stages issue} (c : ProcessorConfig) (now : Timestamp) (started : Z)
    (permit : async unit) (record : ProcessingFailure → option ProcessingStateChange)
    (pending : PendingEvent) : ProcessorOutcome :=
  let total_deadline := started + pc_total_timeout c in
  match permit with
  | CancelledFirst => persist_failure c now record pending (temporary CodeCancelled)
  | NeverCompletes => persist_failure c now record pending (temporary TotalDeadline)
  | Completes _ _ =>
      match execute c pending total_deadline with
      | Ok _ => Processed
      | Err failure => persist_failure c now record pending failure
      end
  end.

(** ** Lemmas *)

Lemma retry_multiplier_pow e : 0 ≤ e ≤ 31 → retry_multiplier e = 2 ^ e.
Proof.
  intros He. unfold retry_multiplier. destruct (Z.ltb_spec e 32); [|lia].
  rewrite Z.shiftl_1_l. apply Z.mod_small. split; [apply Z.pow_nonneg; lia|].
  apply Z.pow_lt_mono_r; lia.
Qed.

Lemma processor_config_Ok c c' :
  processor_config_validate c = Ok c' →
  c' = c ∧ 1 ≤ pc_max_attempts c ≤ HARD_MAX_ATTEMPTS
  ∧ pc_retry_base c ≠ 0 ∧ pc_retry_base c ≤ pc_retry_max c ≤ HARD_MAX_DURATION.
Proof.
  unfold processor_config_validate. destruct (_ && _) eqn:E; [|done]. intros [= <-].
  bool_prop. cbn [forallb] in *. bool_prop. split_and!; try done; lia.
Qed.

(** The delay doubles with every attempt up to the greatest one. *)
Lemma retry_delay_value c attempts :
  0 < pc_retry_base c ≤ pc_retry_max c → pc_retry_max c ≤ HARD_MAX_DURATION →
  1 ≤ attempts ≤ U32_MAX →
  retry_delay c attempts = Z.min (pc_retry_base c * 2 ^ Z.min (attempts - 1) 31) (pc_retry_max c).
Proof.
  unfold retry_delay, HARD_MAX_DURATION, U32_MAX. intros Hb Hm Ha.
  unfold sat_u32. rewrite saturate_exact by (unfold U32_MAX; lia).
  rewrite retry_multiplier_pow by lia.
  assert (Hp : 0 < 2 ^ Z.min (attempts - 1) 31 ≤ 2 ^ 31).
  { split; [apply Z.pow_pos_nonneg; lia|apply Z.pow_le_mono_r; lia]. }
  change (2 ^ 31) with 2147483648 in Hp.
  unfold duration_checked_mul. rewrite checked_exact; [done|].
  unfold DURATION_MAX, U64_MAX. nia.
Qed.

Lemma retry_delay_bounds c attempts :
  0 < pc_retry_base c ≤ pc_retry_max c → pc_retry_max c ≤ HARD_MAX_DURATION →
  1 ≤ attempts ≤ U32_MAX →
  pc_retry_base c ≤ retry_delay c attempts ≤ pc_retry_max c.
Proof.
  intros Hb Hm Ha. rewrite retry_delay_value by done.
  assert (0 < 2 ^ Z.min (attempts - 1) 31) by (apply Z.pow_pos_nonneg; lia). nia.
Qed.

Lemma retry_delay_mono c a b :
  0 < pc_retry_base c ≤ pc_retry_max c → pc_retry_max c ≤ HARD_MAX_DURATION →
  1 ≤ a → a ≤ b → b ≤ U32_MAX → retry_delay c a ≤ retry_delay c b.
Proof.
  intros Hb Hm Ha Hab Hu. rewrite !retry_delay_value by lia.
  assert (2 ^ Z.min (a - 1) 31 ≤ 2 ^ Z.min (b - 1) 31) by (apply Z.pow_le_mono_r; lia). nia.
Qed.

(** A representable instant ten minutes ahead makes every retry representable. *)
Lemma retry_at_Some c now attempts :
  0 < pc_retry_base c ≤ pc_retry_max c → pc_retry_max c ≤ HARD_MAX_DURATION →
  1 ≤ attempts ≤ U32_MAX → timestamp_valid now → timestamp_valid (now + 600000) →
  retry_at now attempts c = Some (now + as_millis (retry_delay c attempts)).
Proof.
  intros Hb Hm Ha Hn Hn'. pose proof (retry_delay_bounds c attempts Hb Hm Ha) as Hd.
  unfold HARD_MAX_DURATION in Hm. unfold retry_at, as_millis, NANOS_PER_MILLI.
  assert (Hms : 0 ≤ retry_delay c attempts / 1000000 ≤ 600000).
  { split; [apply Z.div_pos; lia|]. apply Z.div_le_upper_bound; lia. }
  unfold timestamp_valid, MIN_TIMESTAMP_MILLIS, MAX_TIMESTAMP_MILLIS in *.
  unfold checked_i64. rewrite checked_exact by (unfold I64_MIN, I64_MAX; lia).
  cbn [mbind option_bind].
  rewrite checked_exact by (unfold I64_MIN, I64_MAX; lia). cbn [mbind option_bind].
  rewrite from_unix_millis_valid; [done|].
  unfold timestamp_valid, MIN_TIMESTAMP_MILLIS, MAX_TIMESTAMP_MILLIS. lia.
Qed.

Lemma decide_failure_permanent c now pending failure :
  sf_class failure = Permanent ∨ pc_max_attempts c ≤ pe_attempts pending + 1 →
  pf_disposition (decide_failure c now pending failure) = PermanentlyFailed.
Proof.
  intros Hf. unfold decide_failure. destruct (checked_u32 _) as [n|] eqn:En; [|done].
  apply checked_Some in En as [-> _].
  destruct (sf_class failure) eqn:Ec.
  - destruct Hf as [?|Hle]; [done|].
    destruct (Z.leb_spec (pc_max_attempts c) (pe_attempts pending + 1)); [|lia].
    rewrite bool_decide_eq_true_2 by done. done.
  - by destruct (_ && _).
Qed.

Lemma run_stage_Ok {T} started timeout total (future : async T) v :
  run_stage started timeout total future = Ok v ↔
  ∃ now, future = Completes v now ∧ now < started + timeout ∧ now < total.
Proof.
  unfold run_stage. destruct future as [w now| |].
  - destruct (Z.leb_spec (Z.min (started + timeout) total) now).
    + split; [by destruct (_ =? _)|]. intros (now' & [= -> ->] & ? & ?). lia.
    + split; [intros [= ->]; exists now; split_and!; [done|lia|lia]|].
      by intros (now' & [= -> ->] & _).
  - split; [by destruct (_ =? _)|]. by intros (? & ? & _).
  - split; [done|]. by intros (? & ? & _).
Qed.

(** A stage gave its value in time. *)
Definition in_time {T} (c : ProcessorConfig) (total_deadline : Z) (stage : Z * async T) (v : T)
    : Prop :=
  ∃ now, snd stage = Completes v now ∧ now < fst stage + pc_stage_timeout c
         ∧ now < total_deadline.

Lemma staged_Ok {T} c total (stage : Z * async (result StageFailure T)) v :
  staged c total stage = Ok v ↔ in_time c total stage (Ok v).
Proof.
  unfold staged, in_time. rewrite bind_Ok. setoid_rewrite run_stage_Ok. naive_solver.
Qed.

(** One failed attempt that the store schedules again. *)
Definition retried (c : ProcessorConfig) (p p' : PendingEvent) : Prop :=
  ∃ now failure at_time, pf_disposition (decide_failure c now p failure) = RetryAt at_time
    ∧ p' = {| pe_event := pe_event p;
              pe_attempts := pf_new_attempts (decide_failure c now p failure) |}.

Lemma retried_step c p p' :
  retried c p p' →
  pe_attempts p' = pe_attempts p + 1 ∧ pe_attempts p' < pc_max_attempts c
  ∧ pe_event p' = pe_event p.
Proof.
  intros (now & failure & t & Hd & ->). cbn [pe_event pe_attempts].
  assert (Hlt : pe_attempts p + 1 < pc_max_attempts c).
  { destruct (Z.ltb_spec (pe_attempts p + 1) (pc_max_attempts c)); [done|].
    rewrite decide_failure_permanent in Hd; [done|by right]. }
  unfold decide_failure in *. destruct (checked_u32 (pe_attempts p + 1)) as [n|] eqn:En; [|done].
  apply checked_Some in En as [-> _].
  destruct (if _ && _ then Permanent else sf_class failure); [|done].
  destruct (retry_at now (pe_attempts p + 1) c); [|done]. cbn. done.
Qed.

Lemma retried_steps c n p p' :
  nsteps (retried c) n p p' →
  pe_attempts p' = pe_attempts p + Z.of_nat n ∧ pe_event p' = pe_event p.
Proof.
  intros Hs. induction Hs as [p|n p q p' Hpq _ [IH1 IH2]]; [split; [lia|done]|].
  apply retried_step in Hpq as (Ha & _ & He). split; [lia|congruence].
Qed.

(** ** Theorems *)

(** C36. An event is processed exactly when every stage gives its value
    before its own deadline and the total one, each from what the earlier
    stages gave: the project is the event's, active and accepting errors,
    symbolication is not one to retry, and the finalizer succeeds last. *)
Theorem execute_succeeds_iff {issue} `{Stages issue} c pending total_deadline :
  execute c pending total_deadline = Ok tt ↔
  ∃ project normalized symbolication grouping prepared,
    in_time c total_deadline (stage_project (ae_project_id (pe_event pending))) (Ok project)
    ∧ pp_project_id project = ae_project_id (pe_event pending)
    ∧ pp_state project = PActive ∧ pp_error_events_enabled project = true
    ∧ in_time c total_deadline (stage_normalize (pe_event pending)) (Ok normalized)
    ∧ in_time c total_deadline
        (stage_symbolicate normalized (pp_debug_file_revision project)
           (pp_artifact_revision project)) (Ok symbolication)
    ∧ should_retry_symbolication (sy_disposition symbolication) (pe_attempts pending)
        (pc_max_attempts c) = false
    ∧ in_time c total_deadline
        (stage_group normalized symbolication (pp_grouping_revision project)) (Ok grouping)
    ∧ in_time c total_deadline (stage_prepare normalized grouping) (Ok prepared)
    ∧ in_time c total_deadline
        (stage_finalize normalized symbolication grouping prepared) (Ok tt).
Proof.
  unfold execute. split.
  - intros He. apply bind_Ok in He as (loaded & Hl & He).
    apply run_stage_Ok in Hl. apply bind_Ok in He as (project & Hp & He).
    apply map_err_Ok in Hp. subst loaded.
    destruct (Z.eqb_spec (pp_project_id project) (ae_project_id (pe_event pending))); [|done].
    cbn [negb] in He. case_bool_decide; [|done]. cbn [negb] in He.
    destruct (pp_error_events_enabled project) eqn:Een; [|done]. cbn [negb] in He.
    apply bind_Ok in He as (normalized & Hn%staged_Ok & He).
    apply bind_Ok in He as (symbolication & Hs%staged_Ok & He).
    destruct (should_retry_symbolication _ _ _) eqn:Er; [done|].
    apply bind_Ok in He as (grouping & Hg%staged_Ok & He).
    apply bind_Ok in He as (prepared & Hi%staged_Ok & He).
    apply bind_Ok in He as ([] & Hf%staged_Ok & _).
    exists project, normalized, symbolication, grouping, prepared. split_and!; done.
  - intros (project & normalized & symbolication & grouping & prepared & Hl & Hid & Hst & Hen
            & Hn & Hs & Hr & Hg & Hi & Hf).
    unfold in_time in Hl. apply run_stage_Ok in Hl. rewrite Hl. cbn [map_err mbind result_bind].
    rewrite Hid, Z.eqb_refl, Hen, bool_decide_eq_true_2 by done. cbn [negb].
    apply staged_Ok in Hn, Hs, Hg, Hi, Hf.
    rewrite Hn. cbn [mbind result_bind]. rewrite Hs. cbn [mbind result_bind]. rewrite Hr, Hg.
    cbn [mbind result_bind]. rewrite Hi. cbn [mbind result_bind]. by rewrite Hf.
Qed.

(** What a failure records: one attempt more than the event had, and a
    retry exactly when the failure is temporary and attempts are left; the
    retry is then due after the base delay doubled with every attempt, never
    beyond the greatest delay. *)
Theorem failure_decision c now pending failure :
  processor_config_validate c = Ok c → 0 < pc_retry_base c →
  0 ≤ pe_attempts pending < U32_MAX → timestamp_valid now → timestamp_valid (now + 600000) →
  let update := decide_failure c now pending failure in
  let attempts := pe_attempts pending + 1 in
  pf_key update = pending_key pending
  ∧ pf_expected_attempts update = pe_attempts pending
  ∧ pf_new_attempts update = attempts
  ∧ pf_code update = sf_code failure
  ∧ pf_disposition update =
      if bool_decide (sf_class failure = Temporary ∧ attempts < pc_max_attempts c)
      then RetryAt (now + as_millis (Z.min (pc_retry_base c * 2 ^ Z.min (attempts - 1) 31)
                                       (pc_retry_max c)))
      else PermanentlyFailed.
Proof.
  intros Hc Hb Ha Hn Hn'. apply processor_config_Ok in Hc as (_ & Hmax & _ & Hr1 & Hr2).
  cbv zeta.
  assert (Hretry : retry_at now (pe_attempts pending + 1) c
    = Some (now + as_millis (Z.min (pc_retry_base c * 2 ^ Z.min (pe_attempts pending + 1 - 1) 31)
                               (pc_retry_max c)))).
  { rewrite retry_at_Some by (done || (unfold U32_MAX in *; lia)).
    by rewrite retry_delay_value by (unfold U32_MAX in *; lia). }
  unfold decide_failure. unfold checked_u32. rewrite checked_exact by (unfold U32_MAX in *; lia).
  destruct (sf_class failure) eqn:Ec.
  - destruct (Z.leb_spec (pc_max_attempts c) (pe_attempts pending + 1)).
    + rewrite bool_decide_eq_true_2 by done. cbn.
      rewrite bool_decide_eq_false_2 by lia. done.
    + cbn [andb]. rewrite Hretry. rewrite bool_decide_eq_true_2 by done. done.
  - rewrite (bool_decide_eq_false_2 (Permanent = Temporary)) by done. rewrite andb_false_r.
    rewrite bool_decide_eq_false_2 by naive_solver. done.
Qed.

(** An event is retried fewer times than the configured attempts: every
    chain of failures ends in a permanent failure. *)
Theorem retries_are_bounded c n p p' :
  nsteps (retried c) n p p' →
  pe_attempts p' = pe_attempts p + Z.of_nat n ∧ pe_event p' = pe_event p
  ∧ (0 ≤ pe_attempts p → (0 < n)%nat → Z.of_nat n < pc_max_attempts c).
Proof.
  intros Hs. destruct (retried_steps c n p p' Hs) as [Ha He]. split_and!; [done|done|].
  intros H0 Hn. destruct n as [|n]; [lia|]. apply nsteps_inv_r in Hs as (q & _ & Hq).
  apply retried_step in Hq. lia.
Qed.

(** A symbolication that can be retried never fails an event for good:
    as long as it asks for a retry one is granted, and at the last attempt it
    does not ask. *)
Theorem symbolication_retry_granted c now pending disposition :
  processor_config_validate c = Ok c → 0 < pc_retry_base c →
  0 ≤ pe_attempts pending → timestamp_valid now → timestamp_valid (now + 600000) →
  (should_retry_symbolication disposition (pe_attempts pending) (pc_max_attempts c) = true →
   ∃ at_time, pf_disposition (decide_failure c now pending (temporary SymbolicationRetryable))
              = RetryAt at_time)
  ∧ (pc_max_attempts c ≤ pe_attempts pending + 1 →
     should_retry_symbolication disposition (pe_attempts pending) (pc_max_attempts c) = false).
Proof.
  intros Hc Hb Ha Hn Hn'. apply processor_config_Ok in Hc as (_ & Hmax & _ & Hr1 & Hr2).
  unfold HARD_MAX_ATTEMPTS in Hmax. unfold should_retry_symbolication. split.
  - destruct disposition; try done. intros Hlt. apply Z.ltb_lt in Hlt.
    assert (Hle : pe_attempts pending + 1 < pc_max_attempts c).
    { unfold sat_u32, saturate, U32_MAX in Hlt. lia. }
    unfold decide_failure, checked_u32. rewrite checked_exact by (unfold U32_MAX; lia).
    destruct (Z.leb_spec (pc_max_attempts c) (pe_attempts pending + 1)); [lia|]. cbn [andb].
    cbn [sf_class temporary]. rewrite retry_at_Some by (done || (unfold U32_MAX; lia)). by eexists.
  - intros Hle. destruct disposition; try done. apply Z.ltb_ge.
    unfold sat_u32, saturate, U32_MAX. lia.
Qed.

(** ** Witnesses *)

Definition sample_pending (attempts : Z) : PendingEvent :=
  {| pe_event := {| ae_project_id := 42; ae_event_id := repeat 1 16; ae_received_at := 0;
                    ae_policy_revision := 1; ae_payload := [] |};
     pe_attempts := attempts |}.

Lemma now_valid : timestamp_valid 0 ∧ timestamp_valid (0 + 600000).
Proof. unfold timestamp_valid, MIN_TIMESTAMP_MILLIS, MAX_TIMESTAMP_MILLIS. lia. Qed.

Lemma failure_decision_witness :
  pf_disposition (decide_failure processor_config_default 0 (sample_pending 2)
    (temporary StageDeadline)) = RetryAt 4000
  ∧ pf_new_attempts (decide_failure processor_config_default 0 (sample_pending 2)
      (temporary StageDeadline)) = 3.
Proof.
  destruct (failure_decision processor_config_default 0 (sample_pending 2)
    (temporary StageDeadline)) as (_ & _ & Hn & _ & Hd);
    [reflexivity|cbn; lia|unfold U32_MAX; cbn; lia|apply now_valid|apply now_valid|].
  split; [rewrite Hd; reflexivity|rewrite Hn; reflexivity].
Defined.

Lemma retries_are_bounded_witness :
  nsteps (retried processor_config_default) 1 (sample_pending 3) (sample_pending 4)
  ∧ 1 < pc_max_attempts processor_config_default.
Proof.
  assert (Hs : nsteps (retried processor_config_default) 1 (sample_pending 3) (sample_pending 4)).
  { eapply nsteps_l; [|apply nsteps_O]. exists 0, (temporary StageDeadline), 8000.
    split; vm_compute; reflexivity. }
  split; [exact Hs|].
  refine (proj2 (proj2 (retries_are_bounded processor_config_default 1 _ _ Hs)) _ _);
    [cbn; lia|lia].
Defined.

Lemma symbolication_retry_granted_witness :
  should_retry_symbolication DRetryable 3 (pc_max_attempts processor_config_default) = true
  ∧ ∃ at_time, pf_disposition (decide_failure processor_config_default 0 (sample_pending 3)
      (temporary SymbolicationRetryable)) = RetryAt at_time.
Proof.
  split; [reflexivity|].
  refine (proj1 (symbolication_retry_granted processor_config_default 0 (sample_pending 3)
    DRetryable eq_refl _ _ (proj1 now_valid) (proj2 now_valid)) eq_refl); cbn; lia.
Defined.
