(* ===== verification/Pipeline.v ===== *)
(** * The worker's pipeline

    [application/src/processor.rs]: the stages of a worker, each the service of
    its own file, and what a whole run does with an accepted event: decoded and
    bounded by the normalizer, grouped, prepared as an issue occurrence and
    handed to the finalizer. *)
From stdpp Require Import base list numbers strings sets gmap.
From Stdlib Require Import ZArith Lia.
From S2P Require Import Prelude External Float Primitives Identity Event Normalizer JsonValue.
From S2P Require Import Grouping Issues Finalizer Payload Processor.

(** ** The stages *)

Inductive StageName :=
| ProjectStage | NormalizerStage | SymbolicationStage | GrouperStage | IssueServiceStage
| FinalizerStage.

Section stages.
Context `{Blake3} {N : Type} `{!JsonApi N, !JsonBuild N, !JsonPrint N}.
Context (limits : NormalizerLimits) (fc : FinalizerConfig).
(** The instants a stage starts and ends at, and the services that are not pure:
    the project store, the symbolicator and the store of finalized events. *)
Context (started finished : StageName → Z).
Context (project_store : ProjectId → result ProcessingProjectError ProcessingProject).
Context (symbolicate : NormalizedEvent → Z → Z → SymbolicationResult).
Context (store : list FinalizeEvent → result FinalizationStoreError FinalizeResult).

Definition at_stage {T} (stage : StageName) (value : T) : Z * async T :=
  (started stage, Completes value (finished stage)).

Definition normalize_stage (event : AcceptedEvent) : result StageFailure NormalizedEvent :=
  map_err map_normalization_error (normalize limits event).
Definition group_stage (event : NormalizedEvent) (symbolication : SymbolicationResult)
    (revision : Z) : result StageFailure GroupingResult :=
  map_err map_grouping_error
    (group (ne_project_id event) revision (ne_body event) (Some symbolication)).
Definition prepare_stage (event : NormalizedEvent) (grouping : GroupingResult)
    : result StageFailure IssueOccurrence :=
  map_err map_issue_error (prepare_issue_occurrence event grouping).
Definition finalize_stage (event : NormalizedEvent) (symbolication : SymbolicationResult)
    (grouping : GroupingResult) (issue : IssueOccurrence) : result StageFailure unit :=
  prepared ← map_err map_finalizer_error
               (prepare fc (processed_payload (N := N) event symbolication) event grouping issue);
  _ ← map_err map_finalizer_error (finalize fc store [prepared]);
  Ok tt.

#[export] Instance worker_stages : Stages IssueOccurrence := {|
  stage_project id := at_stage ProjectStage (project_store id);
  stage_normalize event := at_stage NormalizerStage (normalize_stage event);
  stage_symbolicate event debug_files artifacts :=
    at_stage SymbolicationStage (Ok (symbolicate event debug_files artifacts));
  stage_group event symbolication revision :=
    at_stage GrouperStage (group_stage event symbolication revision);
  stage_prepare event grouping := at_stage IssueServiceStage (prepare_stage event grouping);
  stage_finalize event symbolication grouping issue :=
    at_stage FinalizerStage (finalize_stage event symbolication grouping issue);
|}.

(** Every stage ends before its own deadline and the one of the run. *)
Definition stages_in_time (c : ProcessorConfig) (total_deadline : Z) : Prop :=
  ∀ stage, finished stage < Z.min (started stage + pc_stage_timeout c) total_deadline.

End stages.

(** ** The limits of the normalizer are those of the grouper *)

(** The identities of native modules are nested texts, cut at the limit of
    texts and not at that of fields. *)
Definition modules_ok (body : NormalizedEventBody) : Prop :=
  ∀ m, m ∈ native_modules body → field_ok (nm_identity m).

Lemma field_of_len s : len s ≤ MAX_FIELD_BYTES → field_ok s.
Proof. unfold field_ok, len, MAX_FIELD_BYTES, MAX_COMPONENT_BYTES. lia. Qed.
Lemma opt_of_bounded limits maximum o : maximum ≤ MAX_FIELD_BYTES → opt_bounded (fit limits maximum) o → opt_ok o.
Proof. intros Hm Ho v Hv. apply field_of_len. specialize (Ho v Hv). unfold text_bounded, fit in Ho. lia. Qed.
Lemma frame_of_bounded limits f : frame_bounded limits f → frame_ok f.
Proof.
  intros []. unfold frame_ok. split_and!; try (by eapply opt_of_bounded). done.
Qed.
Lemma frames_of_bounded limits fs : frames_bounded limits fs → Forall frame_ok fs.
Proof. intros [_ Hf]. eapply Forall_impl; [done|]. apply frame_of_bounded. Qed.
Lemma body_of_bounded limits received_at body :
  body_bounded limits received_at body → modules_ok body → body_ok body.
Proof.
  intros [] Hm. unfold body_ok. split_and!; [|..|done].
  - eapply opt_of_bounded; [|done]. done.
  - intros x Hx. destruct eb_exceptions as [_ Hxs]. rewrite Forall_forall in Hxs.
    destruct (Hxs x Hx). split; [by eapply opt_of_bounded|by eapply frames_of_bounded].
  - by eapply frames_of_bounded.
Qed.
Lemma release_of_bounded limits received_at body :
  body_bounded limits received_at body → release_ok (e_release body).
Proof. intros [] r Hr. by apply eb_release. Qed.

(** The payload without source context, the smaller of the two, is within the
    configured size. *)
Definition payload_fits {N : Type} `{!JsonApi N, !JsonBuild N, !JsonPrint N} (fc : FinalizerConfig)
    (event : NormalizedEvent) (symbolication : SymbolicationResult) : Prop :=
  ∀ text, processed_payload (N := N) event symbolication false = Ok text →
    len text ≤ fc_max_processed_body_bytes fc.

(** ** The run *)

Section run.
Context `{Blake3} {N : Type} `{!JsonApi N, !JsonBuild N, !JsonPrint N} (limits : NormalizerLimits) (fc : FinalizerConfig).
Context (started finished : StageName → Z).
Context (project_store : ProjectId → result ProcessingProjectError ProcessingProject).
Context (symbolicate : NormalizedEvent → Z → Z → SymbolicationResult).
Context (store : list FinalizeEvent → result FinalizationStoreError FinalizeResult).
Context (c : ProcessorConfig) (total_deadline : Z).
Context (Htime : stages_in_time started finished c total_deadline).

Lemma run_stage_in_time {T} stage (value : T) :
  run_stage (started stage) (pc_stage_timeout c) total_deadline (Completes value (finished stage))
  = Ok value.
Proof. unfold run_stage. specialize (Htime stage). by rewrite (proj2 (Z.leb_gt _ _) Htime). Qed.
Lemma staged_in_time {T} stage (value : result StageFailure T) :
  staged c total_deadline (at_stage started finished stage value) = value.
Proof. unfold staged, at_stage. cbn [fst snd]. by rewrite run_stage_in_time. Qed.

(** The last three stages, after the normalizer and the symbolicator. *)
Lemma normalized_event_finalized event symbolication received_at :
  body_bounded limits received_at (ne_body event) → modules_ok (ne_body event) →
  e_fingerprint (ne_body event) = [] → symbolication_ok (Some symbolication) →
  1 ≤ fc_max_batch_events fc →
  prints_values (N := N) → payload_fits fc event symbolication →
  (∀ prepared, is_ok (store [prepared]) = true) →
  ∃ grouping issue,
    group_stage event symbolication 1 = Ok grouping
    ∧ prepare_stage event grouping = Ok issue
    ∧ finalize_stage (N := N) fc store event symbolication grouping issue = Ok tt.
Proof.
  intros Hb Hm Hf Hs Hbatch Hprint Hfits Hstore.
  destruct (group_default_ok (ne_project_id event) (ne_body event) (Some symbolication) Hf)
    as (grouping & Hg & Hv); [by eapply body_of_bounded|done|].
  destruct (prepare_issue_Ok event grouping Hv)
    as (issue & Hi & I1 & I2 & I3 & I4 & I5 & I6 & _); [by eapply release_of_bounded|].
  destruct (processed_payload_Ok event symbolication true Hprint) as [full Hfull].
  destruct (processed_payload_Ok event symbolication false Hprint) as [text Htext].
  destruct (prepare_total fc (processed_payload (N := N) event symbolication) event grouping issue
              I5 I6) as [e He]; [exists text; split; [done|by apply Hfits]|by rewrite Hfull|].
  exists grouping, issue. unfold group_stage, prepare_stage, finalize_stage.
  rewrite Hg, Hi, He. split_and!; [done..|]. cbn [map_err mbind result_bind].
  unfold finalize. cbn [is_empty orb].
  destruct (Z.ltb_spec (fc_max_batch_events fc) (len [e])) as [Hl|_]; [unfold len in Hl; cbn in Hl; lia|].
  cbn [validate_batch]. rewrite bool_decide_eq_false_2 by apply not_elem_of_empty.
  rewrite (prepared_validates _ _ _ _ _ _ He) by done. cbn [mbind result_bind].
  specialize (Hstore e). destruct (store [e]); [done|discriminate Hstore].
Qed.
End run.

(** C5. The run of a worker, end to end: an accepted event of an active project
    that takes error events at grouping revision 1 is grouped, prepared and
    finalized without a failure, when the normalizer takes its JSON, it has no SDK
    fingerprint, its native module identities and the names the symbolicator
    derived have the length of a field, the symbolication is not to be retried, its
    processed payload without source context is within the configured size, every
    stage is in time, and the store of finalized events answers without an error. *)
Theorem accepted_event_processed `{Blake3} {N} `{!JsonApi N, !JsonBuild N, !JsonPrint N} limits fc started finished
    project_store symbolicate store c pending total_deadline project normalized :
  let worker := worker_stages limits fc started finished project_store symbolicate store in
  let symbolication := symbolicate normalized (pp_debug_file_revision project)
                         (pp_artifact_revision project) in
  (∀ (n : N) v, number_as_u64 n = Some v → 0 ≤ v ≤ U64_MAX) →
  limits_validate limits = true → limits_usize limits →
  stages_in_time started finished c total_deadline →
  project_store (ae_project_id (pe_event pending)) = Ok project →
  pp_project_id project = ae_project_id (pe_event pending) →
  pp_state project = PActive → pp_error_events_enabled project = true →
  pp_grouping_revision project = 1 →
  normalize limits (pe_event pending) = Ok normalized →
  e_fingerprint (ne_body normalized) = [] → modules_ok (ne_body normalized) →
  should_retry_symbolication (sy_disposition symbolication) (pe_attempts pending)
    (pc_max_attempts c) = false →
  symbolication_ok (Some symbolication) → 1 ≤ fc_max_batch_events fc →
  prints_values (N := N) → payload_fits fc normalized symbolication →
  (∀ prepared, is_ok (store [prepared]) = true) →
  @execute _ worker c pending total_deadline = Ok tt.
Proof.
  intros worker symbolication Hnum Hlimits Husize Htime Hproject Hid Hactive Henabled Hrevision
    Hnormal Hfingerprint Hmodules Hretry Hsym Hbatch Hprint Hfits Hstore.
  destruct (normalize_ok limits Hlimits (limits_positive _ Hlimits Husize) Hnum _ _ Hnormal)
    as (Hbody & _).
  destruct (normalized_event_finalized limits fc store normalized symbolication
              _ Hbody Hmodules Hfingerprint Hsym Hbatch Hprint Hfits Hstore)
    as (grouping & issue & Hg & Hi & Hf).
  unfold execute. subst worker. cbn [stage_project stage_normalize stage_symbolicate stage_group
    stage_prepare stage_finalize worker_stages]. cbn [at_stage fst snd].
  rewrite (run_stage_in_time _ _ _ _ Htime), Hproject. cbn [map_err mbind result_bind].
  rewrite Hid, Z.eqb_refl, Henabled, bool_decide_eq_true_2 by done. cbn [negb].
  rewrite !(staged_in_time _ _ _ _ Htime). unfold normalize_stage. rewrite Hnormal.
  cbn [map_err mbind result_bind]. rewrite !(staged_in_time _ _ _ _ Htime).
  cbn [map_err mbind result_bind]. fold symbolication. rewrite Hretry, Hrevision.
  rewrite !(staged_in_time _ _ _ _ Htime), Hg. cbn [mbind result_bind].
  rewrite !(staged_in_time _ _ _ _ Htime), Hi. cbn [mbind result_bind].
  by rewrite !(staged_in_time _ _ _ _ Htime), Hf.
Qed.

Definition sample_project : ProcessingProject :=
  {| pp_project_id := 1; pp_state := PActive; pp_error_events_enabled := true;
     pp_grouping_revision := 1; pp_debug_file_revision := 0; pp_artifact_revision := 0 |}.
Definition sample_symbolication : SymbolicationResult :=
  {| sy_kind := SkNotRequired; sy_status := StNotRequired; sy_disposition := DContinue;
     sy_raw := []; sy_derived := []; sy_missing_debug_ids := []; sy_diagnostics := [] |}.
Definition sample_store (events : list FinalizeEvent)
    : result FinalizationStoreError FinalizeResult :=
  Ok {| fr_requested := len events; fr_pending := len events; fr_finalized := len events;
        fr_skipped_completed := 0 |}.

(** A printer and numbers for the witnesses. *)
Definition sample_print : JsonPrint Z := λ _, Some (lit "{}").
Definition sample_build : JsonBuild Z :=
  {| number_of_u64 := λ n, n; number_of_i64 := λ n, n; value_of_f64 := λ _, JNull |}.

Lemma accepted_event_processed_witness :
  @execute _ (@worker_stages toy_digest Z sample_json sample_build sample_print limits_default finalizer_config_default
                (λ _, 0) (λ _, 1) (λ _, Ok sample_project) (λ _ _ _, sample_symbolication) sample_store)
    processor_config_default {| pe_event := sample_accepted; pe_attempts := 0 |} 10 = Ok tt.
Proof.
  destruct (normalize (JsonApi0 := sample_json) limits_default sample_accepted) as [e|] eqn:E;
    [|vm_compute in E; discriminate].
  apply (@accepted_event_processed toy_digest Z sample_json sample_build sample_print limits_default finalizer_config_default
    (λ _, 0) (λ _, 1) (λ _, Ok sample_project) (λ _ _ _, sample_symbolication) sample_store processor_config_default
    {| pe_event := sample_accepted; pe_attempts := 0 |} 10 sample_project e); try reflexivity.
  - intros n v. cbn. destruct (in_range 0 U64_MAX n) eqn:Er; [|discriminate].
    intros [= <-]. apply in_range_true. exact Er.
  - repeat constructor; vm_compute; congruence.
  - intros stage. vm_compute. reflexivity.
  - exact E.
  - vm_compute in E. injection E as <-. reflexivity.
  - vm_compute in E. injection E as <-. intros m Hm. vm_compute in Hm. inversion Hm.
  - intros r [= <-] t Ht. inversion Ht.
  - vm_compute. congruence.
  - intros value. eexists. reflexivity.
  - intros text [= <-]. vm_compute. congruence.
Defined.

(** A document with one native frame in a module of a long identity. *)
Definition module_json (identity : str) : JsonApi Z := {|
  json_from_slice _ := Some (JObject [
    (lit "debug_meta", JObject [(lit "images", JArray [JObject [
       (lit "code_id", JString identity); (lit "image_addr", JString (lit "0x1000"))]])]);
    (lit "stacktrace", JObject [(lit "frames", JArray [JObject [
       (lit "instruction_addr", JString (lit "0x1010"))]])])]);
  number_to_string := to_dec;
  number_as_f64 n := Some (f64_of_i64 n);
  number_as_u64 n := if in_range 0 U64_MAX n then Some n else None |}.

(** The identity of a native module is cut at the limit of nested texts and
    not at the one of fields: with the default limits an event whose module
    identity has 2049 bytes is normalized and then fails for good, whatever the
    symbolicator says, because its grouping input is too large. *)
Theorem long_module_identity_fails `{Blake3, !JsonBuild Z, !JsonPrint Z} fc started finished symbolicate store c
    total_deadline :
  stages_in_time started finished c total_deadline →
  (∀ e d a, should_retry_symbolication (sy_disposition (symbolicate e d a)) 0 (pc_max_attempts c)
            = false) →
  @execute _ (worker_stages (JsonApi0 := module_json (repeat 97 2049)) limits_default fc
                started finished (λ _, Ok sample_project) symbolicate store)
    c {| pe_event := sample_accepted; pe_attempts := 0 |} total_deadline
  = Err (permanent GroupingInputLimit).
Proof.
  intros Htime Hretry. set (json := module_json (repeat 97 2049)).
  destruct (normalize (JsonApi0 := json) limits_default sample_accepted) as [e|] eqn:He;
    [|vm_compute in He; discriminate].
  assert (∀ sym, group (ne_project_id e) 1 (ne_body e) (Some sym) = Err InputLimitExceeded) as Hg.
  { intros sym. vm_compute in He. injection He as <-. vm_compute. done. }
  unfold execute. cbn [stage_project stage_normalize stage_symbolicate stage_group worker_stages
    pe_event pe_attempts]. cbn [at_stage fst snd].
  rewrite (run_stage_in_time _ _ _ _ Htime). cbn [map_err mbind result_bind].
  rewrite (bool_decide_eq_true_2 (pp_state sample_project = PActive)) by done.
  change (negb (pp_project_id _ =? _)) with false. cbn [negb pp_error_events_enabled sample_project].
  rewrite !(staged_in_time _ _ _ _ Htime). unfold normalize_stage. rewrite He.
  cbn [map_err mbind result_bind]. rewrite !(staged_in_time _ _ _ _ Htime).
  cbn [map_err mbind result_bind]. rewrite Hretry. unfold group_stage.
  rewrite Hg. cbn [map_err mbind result_bind]. by rewrite !(staged_in_time _ _ _ _ Htime).
Qed.
Lemma long_module_identity_fails_witness :
  @execute _ (@worker_stages toy_digest Z (module_json (repeat 97 2049)) sample_build sample_print limits_default
                finalizer_config_default (λ _, 0) (λ _, 1) (λ _, Ok sample_project)
                (λ _ _ _, sample_symbolication) sample_store)
    processor_config_default {| pe_event := sample_accepted; pe_attempts := 0 |} 10
  = Err (permanent GroupingInputLimit).
Proof.
  refine (@long_module_identity_fails toy_digest sample_build sample_print finalizer_config_default (λ _, 0) (λ _, 1)
            (λ _ _ _, sample_symbolication) sample_store processor_config_default 10 _ _).
  - intros stage. vm_compute. reflexivity.
  - intros e d a. reflexivity.
Defined.
