(* ===== verification/Dispatcher.v ===== *)
(** * The in-process dispatcher

    [application/src/dispatcher.rs]: the bounded queue over the durable
    backlog, the set of scheduled keys, the backlog guard, refill and shutdown.
    The mutex-protected set, the channel and the worker set are one state; an
    offer is two steps (reserving the key, sending the event), because other
    threads run between them. *)
From stdpp Require Import base list numbers strings sets gmap.
From Stdlib Require Import ZArith Lia.
From S2P Require Import Prelude Primitives.

Record DispatcherConfig := {
  dc_queue_capacity : Z;
  dc_worker_concurrency : Z;
  dc_low_watermark : Z;
  dc_refill_target : Z;
  dc_refill_batch_size : Z;
  dc_poll_interval : duration;
  dc_metrics_interval : duration;
  dc_source_timeout : duration;
  dc_shutdown_drain : duration;
  dc_max_pending_events : option Z;
  dc_max_oldest_pending_age : option duration;
}.

Definition config_default : DispatcherConfig :=
  {| dc_queue_capacity := 4096; dc_worker_concurrency := 32; dc_low_watermark := 1024;
     dc_refill_target := 3072; dc_refill_batch_size := 512;
     dc_poll_interval := 100 * NANOS_PER_MILLI; dc_metrics_interval := 5000 * NANOS_PER_MILLI;
     dc_source_timeout := 5000 * NANOS_PER_MILLI; dc_shutdown_drain := 10000 * NANOS_PER_MILLI;
     dc_max_pending_events := None;
     dc_max_oldest_pending_age := Some (3600000 * NANOS_PER_MILLI) |}.

Inductive DispatcherStartError :=
| InvalidConfiguration | BacklogUnavailable | BacklogInvalidData.

Definition validate_config (c : DispatcherConfig) : result DispatcherStartError unit :=
  let valid :=
    in_range 1 100000 (dc_queue_capacity c)
    && in_range 1 4096 (dc_worker_concurrency c)
    && (dc_worker_concurrency c <=? dc_queue_capacity c)
    && (dc_low_watermark c <? dc_refill_target c)
    && (dc_refill_target c <=? dc_queue_capacity c)
    && in_range 1 (Z.min (dc_refill_target c) 32768) (dc_refill_batch_size c)
    && negb (dc_poll_interval c =? 0)
    && negb (dc_metrics_interval c =? 0)
    && negb (dc_source_timeout c =? 0)
    && negb (dc_shutdown_drain c =? 0) in
  let valid :=
    valid
    && is_none_or (λ maximum, 0 <? maximum) (dc_max_pending_events c)
    && is_none_or (λ maximum, negb (maximum =? 0)) (dc_max_oldest_pending_age c) in
  if valid then Ok tt else Err InvalidConfiguration.

(** ** The backlog guard *)

Record BacklogObservation := {
  bo_pending_count : Z;
  bo_oldest_pending_at : option Timestamp;
}.

Record BacklogGuard := {
  bg_critical : bool;
  bg_max_pending_events : option Z;
  bg_max_oldest_pending_age : option duration;
}.

Definition guard_new (c : DispatcherConfig) : BacklogGuard :=
  {| bg_critical := false; bg_max_pending_events := dc_max_pending_events c;
     bg_max_oldest_pending_age := dc_max_oldest_pending_age c |}.

Definition observed_age (o : BacklogObservation) (now : Timestamp) : duration :=
  match bo_oldest_pending_at o with
  | None => 0
  | Some oldest => Z.max (sat_i64 (now - oldest)) 0 * NANOS_PER_MILLI
  end.

Definition guard_crossed (g : BacklogGuard) (o : BacklogObservation) (now : Timestamp) : bool :=
  is_some_and (λ maximum, maximum <=? bo_pending_count o) (bg_max_pending_events g)
  || is_some_and (λ maximum, maximum <=? observed_age o now) (bg_max_oldest_pending_age g).

Definition guard_recovered (g : BacklogGuard) (o : BacklogObservation) (now : Timestamp)
    : bool :=
  is_none_or (λ maximum, bo_pending_count o <=? sat_u64 (maximum * 4) / 5)
    (bg_max_pending_events g)
  && is_none_or
       (λ maximum, observed_age o now <=? unwrap_or maximum (duration_checked_mul maximum 4) / 5)
       (bg_max_oldest_pending_age g).

Definition guard_observe (g : BacklogGuard) (o : BacklogObservation) (now : Timestamp)
    : BacklogGuard :=
  {| bg_critical :=
       if bg_critical g then negb (guard_recovered g o now) else guard_crossed g o now;
     bg_max_pending_events := bg_max_pending_events g;
     bg_max_oldest_pending_age := bg_max_oldest_pending_age g |}.

(** [observe_backlog]: an observation that times out or fails is [None]. *)
Definition observe_count_limit (g : BacklogGuard) : Z :=
  Z.max (unwrap_or 1000000 (bg_max_pending_events g)) 1.
Definition observe_backlog (g : BacklogGuard) (o : option BacklogObservation)
    (now : Timestamp) : BacklogGuard :=
  match o with Some o => guard_observe g o now | None => g end.

(** [BacklogGuardedEventSink::persist]: rejected, or passed on to the inner sink. *)
Inductive EventSinkError := SinkUnavailable | SinkAmbiguous.
Definition guarded_persist {O} (g : BacklogGuard) (inner : AcceptedEvent → result EventSinkError O)
    (event : AcceptedEvent) : result EventSinkError O :=
  if bg_critical g then Err SinkUnavailable else inner event.

(** ** The dispatcher state *)

Record Dispatcher := {
  d_inflight : list PendingEvent;  (** key reserved, not sent yet *)
  d_queue : list PendingEvent;     (** the channel, oldest first *)
  d_running : list bytes;          (** the keys of the spawned work *)
  d_keys : gset bytes;             (** the scheduled keys *)
  d_accepting : bool;
  d_cancelled : bool;              (** the shutdown signal *)
  d_closed : bool;                 (** [receiver.close()] *)
  d_lost : list bytes;             (** the keys of cancelled work: they stay scheduled *)
}.

Definition dispatcher_new : Dispatcher :=
  {| d_inflight := []; d_queue := []; d_running := []; d_keys := ∅; d_accepting := true;
     d_cancelled := false; d_closed := false; d_lost := [] |}.

Definition is_accepting (d : Dispatcher) : bool := d_accepting d && negb (d_cancelled d).
Definition queued_depth (d : Dispatcher) : Z := len (d_queue d).
Definition scheduled_keys (d : Dispatcher) : Z := Z.of_nat (size (d_keys d)).

(** The first half of [offer_pending_with_source]: its answer when it ends there. *)
Inductive Admission := Reserved | AnsweredOk | AnsweredErr (event : PendingEvent).

Definition offer_reserve (d : Dispatcher) (event : PendingEvent) : Dispatcher * Admission :=
  if negb (is_accepting d) then (d, AnsweredErr event)
  else if bool_decide (pending_key event ∈ d_keys d) then (d, AnsweredOk)
  else ({| d_inflight := d_inflight d ++ [event]; d_queue := d_queue d;
           d_running := d_running d; d_keys := {[pending_key event]} ∪ d_keys d;
           d_accepting := d_accepting d; d_cancelled := d_cancelled d;
           d_closed := d_closed d;
    d_lost := d_lost d |}, Reserved).

(** Leaving the reservation of the [i]-th offer in flight. *)
Definition without (i : nat) {A} (l : list A) : list A := take i l ++ drop (S i) l.

(** The second half: [try_send], and the key taken back when it fails. *)
Definition offer_send (c : DispatcherConfig) (d : Dispatcher) (i : nat) (event : PendingEvent)
    : Dispatcher * result PendingEvent unit :=
  if d_closed d || (dc_queue_capacity c <=? len (d_queue d)) then
    ({| d_inflight := without i (d_inflight d); d_queue := d_queue d; d_running := d_running d;
        d_keys := d_keys d ∖ {[pending_key event]}; d_accepting := d_accepting d;
        d_cancelled := d_cancelled d; d_closed := d_closed d;
    d_lost := d_lost d |}, Err event)
  else
    ({| d_inflight := without i (d_inflight d); d_queue := d_queue d ++ [event];
        d_running := d_running d; d_keys := d_keys d; d_accepting := d_accepting d;
        d_cancelled := d_cancelled d; d_closed := d_closed d;
    d_lost := d_lost d |}, Ok tt).

(** The whole call when nothing runs in between. *)
Definition offer_pending (c : DispatcherConfig) (d : Dispatcher) (event : PendingEvent)
    : Dispatcher * result PendingEvent unit :=
  match offer_reserve d event with
  | (d', AnsweredErr event) => (d', Err event)
  | (d', AnsweredOk) => (d', Ok tt)
  | (d', Reserved) => offer_send c d' (length (d_inflight d)) event
  end.

Definition offer (c : DispatcherConfig) (d : Dispatcher) (event : AcceptedEvent)
    : Dispatcher * result AcceptedEvent unit :=
  let '(d', r) := offer_pending c d (pending_fresh event) in (d', map_err pe_event r).

(** [spawn_work] of the oldest queued event. *)
Definition receive (c : DispatcherConfig) (d : Dispatcher) : option Dispatcher :=
  if len (d_running d) <? dc_worker_concurrency c then
    match d_queue d with
    | [] => None
    | event :: queue =>
        Some {| d_inflight := d_inflight d; d_queue := queue;
                d_running := d_running d ++ [pending_key event]; d_keys := d_keys d;
                d_accepting := d_accepting d; d_cancelled := d_cancelled d;
                d_closed := d_closed d;
    d_lost := d_lost d |}
    end
  else None.

(** How a task of the set ends: its handler returned or panicked ([catch_unwind]
    catches the panic), or the task was cancelled ([JoinError]). *)
Inductive WorkEnd := WorkDone (durable_completion : bool) | WorkCancelled.
(** [complete_work] of the [i]-th running task: the key of a cancelled one is not
    removed from the scheduled keys. *)
Definition complete_work (d : Dispatcher) (i : nat) (completed : WorkEnd) : option Dispatcher :=
  match d_running d !! i with
  | None => None
  | Some key =>
      match completed with
      | WorkDone _ =>
          Some {| d_inflight := d_inflight d; d_queue := d_queue d;
                  d_running := without i (d_running d); d_keys := d_keys d ∖ {[key]};
                  d_accepting := d_accepting d; d_cancelled := d_cancelled d;
                  d_closed := d_closed d; d_lost := d_lost d |}
      | WorkCancelled =>
          Some {| d_inflight := d_inflight d; d_queue := d_queue d;
                  d_running := without i (d_running d); d_keys := d_keys d;
                  d_accepting := d_accepting d; d_cancelled := d_cancelled d;
                  d_closed := d_closed d; d_lost := d_lost d ++ [key] |}
      end
  end.

(** The end of the loop of [run_dispatcher]: no more offers, the channel closed. *)
Definition begin_drain (d : Dispatcher) : Dispatcher :=
  {| d_inflight := d_inflight d; d_queue := d_queue d; d_running := d_running d;
     d_keys := d_keys d; d_accepting := false; d_cancelled := d_cancelled d;
     d_closed := true; d_lost := d_lost d |}.
Definition cancel (d : Dispatcher) : Dispatcher :=
  {| d_inflight := d_inflight d; d_queue := d_queue d; d_running := d_running d;
     d_keys := d_keys d; d_accepting := d_accepting d; d_cancelled := true;
     d_closed := d_closed d;
    d_lost := d_lost d |}.

(** The deadline of [drain_dispatcher]: the tasks are aborted and joined without
    [complete_work], the loop returns and drops the channel with what is queued. *)
Definition abort_drain (d : Dispatcher) : Dispatcher :=
  {| d_inflight := d_inflight d; d_queue := []; d_running := []; d_keys := d_keys d;
     d_accepting := d_accepting d; d_cancelled := d_cancelled d; d_closed := d_closed d;
     d_lost := d_lost d ++ map pending_key (d_queue d) ++ d_running d |}.
(** [timeout_at] is reached with work running: an empty set is joined at once. *)
Definition drain_waits (d : Dispatcher) : bool := d_closed d && negb (is_empty (d_running d)).

(** *** Refill *)

(** How many events [refill_once] asks the source for, if it asks. *)
Definition refill_wanted (c : DispatcherConfig) (d : Dispatcher) : option Z :=
  let depth := queued_depth d in
  if dc_refill_target c <=? depth then None
  else Some (Z.min (Z.max 0 (dc_refill_target c - depth)) (dc_refill_batch_size c)).

Inductive EventBacklogError := EUnavailable | EInvalidData.

(** The answer of [load_due] under its timeout. *)
Inductive LoadOutcome :=
| Loaded (events : list PendingEvent)
| LoadFailed (e : EventBacklogError)
| LoadTimedOut.

Definition refill_once (c : DispatcherConfig) (d : Dispatcher) (loaded : LoadOutcome)
    (startup : bool) : Dispatcher * result DispatcherStartError unit :=
  match refill_wanted c d with
  | None => (d, Ok tt)
  | Some _ =>
      match loaded with
      | Loaded events => (foldl (λ d event, fst (offer_pending c d event)) d events, Ok tt)
      | LoadFailed EInvalidData => (d, if startup then Err BacklogInvalidData else Ok tt)
      | LoadFailed EUnavailable | LoadTimedOut =>
          (d, if startup then Err BacklogUnavailable else Ok tt)
      end
  end.

(** The refill tick of [run_dispatcher]: its result is ignored. *)
Definition refill_tick (c : DispatcherConfig) (d : Dispatcher) (loaded : LoadOutcome)
    : Dispatcher :=
  if queued_depth d <=? dc_low_watermark c then fst (refill_once c d loaded false) else d.

(** [start]: the first refill must succeed. *)
Definition dispatcher_start (c : DispatcherConfig) (loaded : LoadOutcome)
    : result DispatcherStartError Dispatcher :=
  _ ← validate_config c;
  let '(d, r) := refill_once c dispatcher_new loaded true in
  _ ← r;
  Ok d.

(** ** The interleavings *)

Inductive step (c : DispatcherConfig) : Dispatcher → Dispatcher → Prop :=
| StepReserve d event : step c d (fst (offer_reserve d event))
| StepSend d i event :
    d_inflight d !! i = Some event → step c d (fst (offer_send c d i event))
| StepReceive d d' : receive c d = Some d' → step c d d'
| StepComplete d i completed d' : complete_work d i completed = Some d' → step c d d'
| StepRefill d loaded : d_closed d = false → step c d (refill_tick c d loaded)
| StepCancel d : step c d (cancel d)
| StepDrain d : d_cancelled d = true → step c d (begin_drain d)
| StepDeadline d : drain_waits d = true → step c d (abort_drain d).

Definition reachable (c : DispatcherConfig) (d : Dispatcher) : Prop :=
  ∃ loaded d0, dispatcher_start c loaded = Ok d0 ∧ rtc (step c) d0 d.

(** Every key in flight, queued, running or of cancelled work. *)
Definition placed (d : Dispatcher) : list bytes :=
  map pending_key (d_inflight d) ++ map pending_key (d_queue d) ++ d_running d ++ d_lost d.

Record invariant (c : DispatcherConfig) (d : Dispatcher) : Prop := {
  inv_nodup : NoDup (placed d);
  inv_keys : ∀ k, k ∈ d_keys d ↔ k ∈ placed d;
  inv_queue : len (d_queue d) ≤ dc_queue_capacity c;
  inv_running : len (d_running d) ≤ dc_worker_concurrency c;
}.

(** What is left to do once the channel is closed. *)
Definition work_left (d : Dispatcher) : nat :=
  (length (d_inflight d) + 2 * length (d_queue d) + length (d_running d))%nat.

(** ** Lemmas *)

Lemma without_perm {A} (l : list A) i x : l !! i = Some x → l ≡ₚ x :: without i l.
Proof.
  intros H. unfold without. rewrite <- (take_drop_middle l i x H) at 1.
  symmetry. apply Permutation_middle.
Qed.

Lemma length_without {A} (l : list A) i x :
  l !! i = Some x → length l = S (length (without i l)).
Proof. intros H. apply without_perm, Permutation_length in H. done. Qed.

Lemma validate_config_Ok c :
  validate_config c = Ok tt →
  1 ≤ dc_queue_capacity c ∧ 1 ≤ dc_worker_concurrency c
  ∧ dc_worker_concurrency c ≤ dc_queue_capacity c
  ∧ dc_low_watermark c < dc_refill_target c ≤ dc_queue_capacity c
  ∧ 1 ≤ dc_refill_batch_size c
  ∧ (∀ m, dc_max_pending_events c = Some m → 0 < m)
  ∧ (∀ m, dc_max_oldest_pending_age c = Some m → m ≠ 0).
Proof.
  unfold validate_config. destruct (_ && _) eqn:E; [|done]. intros _. bool_prop.
  split_and!; try lia.
  - intros m Hm. rewrite Hm in *. cbn in *. bool_prop. lia.
  - intros m Hm. rewrite Hm in *. cbn in *. by bool_prop.
Qed.

Lemma invariant_same_placed c d d' :
  invariant c d → placed d' ≡ₚ placed d → d_keys d' = d_keys d →
  len (d_queue d') ≤ dc_queue_capacity c → len (d_running d') ≤ dc_worker_concurrency c →
  invariant c d'.
Proof.
  intros [Hn Hk _ _] Hp He Hq Hr. split; [by rewrite Hp| |done..].
  intros k. by rewrite He, Hp.
Qed.

Lemma invariant_removed c d d' key :
  invariant c d → placed d ≡ₚ key :: placed d' → d_keys d' = d_keys d ∖ {[key]} →
  len (d_queue d') ≤ dc_queue_capacity c → len (d_running d') ≤ dc_worker_concurrency c →
  invariant c d'.
Proof.
  intros [Hn Hk _ _] Hp He Hq Hr. rewrite Hp in Hn. apply NoDup_cons in Hn as [Hni Hn].
  split; [done| |done..]. intros k. rewrite He, elem_of_difference, Hk, Hp.
  rewrite elem_of_cons, elem_of_singleton. split; [tauto|].
  intros Hin. split; [by right|]. by intros ->.
Qed.

Lemma invariant_reserve c d event :
  invariant c d → invariant c (fst (offer_reserve d event)).
Proof.
  intros Hi. unfold offer_reserve. destruct (negb (is_accepting d)); [done|].
  case_bool_decide as Hin; [done|]. destruct Hi as [Hn Hk Hq Hr]. cbn [fst].
  assert (Hp : placed {| d_inflight := d_inflight d ++ [event]; d_queue := d_queue d;
      d_running := d_running d; d_keys := {[pending_key event]} ∪ d_keys d;
      d_accepting := d_accepting d; d_cancelled := d_cancelled d; d_closed := d_closed d;
    d_lost := d_lost d |}
    ≡ₚ pending_key event :: placed d).
  { unfold placed. cbn [d_inflight d_queue d_running]. rewrite map_app, <- !app_assoc.
    cbn [map app]. by rewrite <- Permutation_middle. }
  split; cbn [d_queue d_running d_keys]; [| |done..].
  - rewrite Hp. apply NoDup_cons. split; [|done]. by rewrite <- Hk.
  - intros k. rewrite Hp, elem_of_cons, elem_of_union, elem_of_singleton, Hk. done.
Qed.

Lemma invariant_send c d i event :
  invariant c d → d_inflight d !! i = Some event → invariant c (fst (offer_send c d i event)).
Proof.
  intros Hi Hl. pose proof (without_perm _ _ _ Hl) as Hw.
  apply (Permutation_map pending_key) in Hw. cbn [map] in Hw.
  unfold offer_send. destruct (d_closed d || _) eqn:E; cbn [fst].
  - eapply (invariant_removed c d _ (pending_key event)); [done| |done|apply Hi|apply Hi].
    unfold placed. cbn [d_inflight d_queue d_running]. by rewrite Hw.
  - apply orb_false_iff in E as [_ E]. bool_prop.
    eapply (invariant_same_placed c d); [done| |done| |apply Hi].
    + unfold placed. cbn [d_inflight d_queue d_running]. rewrite Hw, map_app, <- !app_assoc.
      cbn [map app]. rewrite <- Permutation_middle. rewrite <- Permutation_middle. done.
    + cbn [d_queue]. rewrite len_app, len_cons, len_nil. lia.
Qed.

Lemma invariant_receive c d d' : invariant c d → receive c d = Some d' → invariant c d'.
Proof.
  intros Hi. unfold receive. destruct (Z.ltb_spec (len (d_running d)) (dc_worker_concurrency c));
    [|done].
  destruct (d_queue d) as [|event queue] eqn:Eq; [done|]. intros [= <-].
  pose proof (inv_queue _ _ Hi) as Hq. rewrite Eq, len_cons in Hq.
  eapply (invariant_same_placed c d); [done| |done| |].
  - unfold placed. cbn [d_inflight d_queue d_running d_lost]. rewrite Eq. cbn [map].
    rewrite <- (app_assoc (d_running d)). cbn [app]. by rewrite <- !Permutation_middle.
  - cbn [d_queue]. lia.
  - cbn [d_running]. rewrite len_app, len_cons, len_nil. lia.
Qed.

Lemma invariant_complete c d i completed d' :
  invariant c d → complete_work d i completed = Some d' → invariant c d'.
Proof.
  intros Hi. unfold complete_work. destruct (d_running d !! i) as [key|] eqn:El; [|done].
  pose proof (without_perm _ _ _ El) as Hw. pose proof (length_without _ _ _ El) as Hlen.
  pose proof (inv_running _ _ Hi). unfold len in *. destruct completed as [durable|]; intros [= <-].
  - eapply (invariant_removed c d _ key); [done| |done|apply Hi|cbn [d_running]; unfold len; lia].
    unfold placed. cbn [d_inflight d_queue d_running d_lost]. rewrite Hw at 1. cbn [app].
    by rewrite <- !Permutation_middle.
  - eapply (invariant_same_placed c d); [done| |done|apply Hi|cbn [d_running]; unfold len; lia].
    unfold placed. cbn [d_inflight d_queue d_running d_lost]. do 2 apply Permutation_app_head.
    etrans; [|apply Permutation_app_tail; symmetry; exact Hw]. cbn [app].
    by rewrite app_assoc, <- Permutation_cons_append.
Qed.

Lemma invariant_abort c d : invariant c d → invariant c (abort_drain d).
Proof.
  intros Hi. pose proof (inv_queue _ _ Hi) as Hq. pose proof (inv_running _ _ Hi) as Hr.
  assert (∀ A (l : list A), 0 ≤ len l) as Hl by (intros; unfold len; lia).
  eapply (invariant_same_placed c d); [done| |done| |].
  - unfold placed, abort_drain. cbn [d_inflight d_queue d_running d_lost map app].
    apply Permutation_app_head. rewrite Permutation_app_comm. by rewrite <- app_assoc.
  - pose proof (Hl _ (d_queue d)). unfold abort_drain. cbn [d_queue]. rewrite len_nil. lia.
  - pose proof (Hl _ (d_running d)). unfold abort_drain. cbn [d_running]. rewrite len_nil. lia.
Qed.

Lemma invariant_offer c d event : invariant c d → invariant c (fst (offer_pending c d event)).
Proof.
  intros Hi. pose proof (invariant_reserve c d event Hi) as Hr. unfold offer_pending.
  destruct (offer_reserve d event) as [d' a] eqn:E. cbn [fst] in Hr.
  destruct a; [|done|done].
  apply invariant_send; [done|]. unfold offer_reserve in E.
  destruct (negb (is_accepting d)); [done|]. case_bool_decide; [done|].
  injection E as <-. cbn [d_inflight]. by apply list_lookup_middle.
Qed.

Lemma invariant_refill c d loaded startup :
  invariant c d → invariant c (fst (refill_once c d loaded startup)).
Proof.
  intros Hi. unfold refill_once. destruct (refill_wanted c d); [|done].
  destruct loaded as [events|[]|]; [|done..]. cbn [fst].
  revert d Hi; induction events as [|e es IH]; intros d Hi; [done|]. cbn [foldl].
  apply IH. by apply invariant_offer.
Qed.

Lemma invariant_step c d d' : invariant c d → step c d d' → invariant c d'.
Proof.
  intros Hi Hs. revert Hi. destruct Hs; intros Hi; [..|by destruct Hi|by destruct Hi|by apply invariant_abort].
  - by apply invariant_reserve.
  - by apply invariant_send.
  - by eapply invariant_receive.
  - by eapply invariant_complete.
  - unfold refill_tick. destruct (_ <=? _); [by apply invariant_refill|done].
Qed.

Lemma invariant_start c loaded d : dispatcher_start c loaded = Ok d → invariant c d.
Proof.
  unfold dispatcher_start. intros H. apply bind_Ok in H as ([] & Hv & H).
  apply validate_config_Ok in Hv as (Hv1 & Hv2 & _).
  assert (H0 : invariant c dispatcher_new).
  { split; unfold placed, len; cbn; [apply NoDup_nil_2|set_solver|lia|lia]. }
  pose proof (invariant_refill c dispatcher_new loaded true H0) as H1.
  destruct (refill_once _ _ _ _) as [d' r]. apply bind_Ok in H as (_ & _ & [= <-]). done.
Qed.

Lemma reachable_invariant c d : reachable c d → invariant c d.
Proof.
  intros (loaded & d0 & Hs & Hr). apply invariant_start in Hs.
  induction Hr as [|x y z Hxy _ IH]; [done|]. apply IH. by eapply invariant_step.
Qed.

(** Handling one step of the drain: an offer in flight answers, queued work
    starts, running work ends, the deadline passes. *)
Inductive drain_step (c : DispatcherConfig) : Dispatcher → Dispatcher → Prop :=
| DrainSend d i event :
    d_inflight d !! i = Some event → drain_step c d (fst (offer_send c d i event))
| DrainReceive d d' : receive c d = Some d' → drain_step c d d'
| DrainComplete d i completed d' : complete_work d i completed = Some d' → drain_step c d d'
| DrainDeadline d : drain_waits d = true → drain_step c d (abort_drain d).
(** A step that cancels no work. *)
Inductive orderly_step (c : DispatcherConfig) : Dispatcher → Dispatcher → Prop :=
| OrderlySend d i event :
    d_inflight d !! i = Some event → orderly_step c d (fst (offer_send c d i event))
| OrderlyReceive d d' : receive c d = Some d' → orderly_step c d d'
| OrderlyComplete d i durable d' : complete_work d i (WorkDone durable) = Some d' → orderly_step c d d'.

Lemma drain_step_step c d d' : drain_step c d d' → step c d d'.
Proof.
  intros []; [by apply StepSend|by apply StepReceive|by eapply StepComplete|by apply StepDeadline].
Qed.

Lemma drain_step_work c d d' :
  d_closed d = true → drain_step c d d' →
  (work_left d' < work_left d)%nat ∧ d_closed d' = true.
Proof.
  intros Hc Hs. revert Hc. destruct Hs as [d i event Hl|d d' Hr|d i completed d' Hr|d Hw]; intros Hc;
    unfold work_left.
  - unfold offer_send. rewrite Hc. cbn. apply length_without in Hl. split; [lia|done].
  - unfold receive in Hr. destruct (_ <? _); [|done].
    destruct (d_queue d) as [|e q] eqn:Eq; [done|]. injection Hr as <-. cbn.
    rewrite length_app. cbn. split; [lia|done].
  - unfold complete_work in Hr. destruct (d_running d !! i) eqn:El; [|done].
    apply length_without in El. destruct completed; injection Hr as <-; cbn; (split; [lia|done]).
  - unfold drain_waits in Hw. apply andb_true_iff in Hw as [_ Hw]. cbn. split; [|done].
    destruct (d_running d); cbn in *; [done|lia].
Qed.

Lemma orderly_drain_step c d d' : orderly_step c d d' → drain_step c d d' ∧ d_lost d' = d_lost d.
Proof.
  intros [d0 i event H|d0 d1 H|d0 i durable d1 H].
  - split; [by apply DrainSend|]. unfold offer_send. by destruct (_ || _).
  - split; [by apply DrainReceive|]. unfold receive in H. destruct (_ <? _); [|done].
    destruct (d_queue d0); [done|]. by injection H as <-.
  - split; [by eapply DrainComplete|]. unfold complete_work in H. destruct (d_running d0 !! i); [|done].
    by injection H as <-.
Qed.

(** Until everything is done some step is possible. *)
Lemma drain_progress c d :
  1 ≤ dc_worker_concurrency c → (0 < work_left d)%nat → ∃ d', orderly_step c d d'.
Proof.
  intros Hc Hw. destruct (d_running d) as [|key running] eqn:Er.
  - destruct (d_queue d) as [|event queue] eqn:Eq.
    + destruct (d_inflight d) as [|event l] eqn:El.
      { unfold work_left in Hw. rewrite Er, Eq, El in Hw. cbn in Hw. lia. }
      eexists. apply (OrderlySend c d 0 event). by rewrite El.
    + eexists. apply OrderlyReceive. unfold receive. rewrite Er, Eq, len_nil.
      destruct (Z.ltb_spec 0 (dc_worker_concurrency c)); [done|lia].
  - eexists. apply (OrderlyComplete c d 0 true). unfold complete_work. by rewrite Er.
Qed.

Lemma offer_reserve_idle d event :
  is_accepting d = true → (pending_key event ∉ d_keys d) →
  offer_reserve d event
  = ({| d_inflight := d_inflight d ++ [event]; d_queue := d_queue d;
        d_running := d_running d; d_keys := {[pending_key event]} ∪ d_keys d;
        d_accepting := d_accepting d; d_cancelled := d_cancelled d;
        d_closed := d_closed d;
    d_lost := d_lost d |}, Reserved).
Proof.
  intros Ha Hk. unfold offer_reserve. rewrite Ha. cbn [negb].
  by rewrite bool_decide_eq_false_2.
Qed.

Lemma without_last {A} (l : list A) x : without (length l) (l ++ [x]) = l.
Proof.
  unfold without. rewrite take_app_length, drop_ge by (rewrite length_app; cbn; lia).
  apply app_nil_r.
Qed.

Lemma sat_fifth maximum : 0 < maximum → sat_u64 (maximum * 4) / 5 < maximum.
Proof.
  intros Hm. apply Z.div_lt_upper_bound; [lia|].
  unfold sat_u64, saturate, U64_MAX. lia.
Qed.

Lemma duration_fifth maximum :
  0 < maximum → unwrap_or maximum (duration_checked_mul maximum 4) / 5 < maximum.
Proof.
  intros Hm. apply Z.div_lt_upper_bound; [lia|]. unfold duration_checked_mul.
  destruct (checked _ _ _) as [x|] eqn:E; cbn; [|lia].
  apply checked_Some in E as [-> _]. lia.
Qed.

(** The limits of a guard are positive, as [validate_config] requires. *)
Definition guard_valid (g : BacklogGuard) : Prop :=
  (∀ m, bg_max_pending_events g = Some m → 0 < m)
  ∧ (∀ m, bg_max_oldest_pending_age g = Some m → 0 < m).

Lemma crossed_not_recovered g o now :
  guard_valid g → guard_crossed g o now = true → guard_recovered g o now = false.
Proof.
  intros [Hp Ha]. unfold guard_crossed, guard_recovered. rewrite orb_true_iff.
  intros [H|H].
  - destruct (bg_max_pending_events g) as [m|]; [|done]. cbn in *. bool_prop.
    apply andb_false_iff. left. apply Z.leb_gt. pose proof (sat_fifth m (Hp m eq_refl)). lia.
  - destruct (bg_max_oldest_pending_age g) as [m|]; [|done]. cbn in *. bool_prop.
    apply andb_false_iff. right. apply Z.leb_gt.
    pose proof (duration_fifth m (Ha m eq_refl)). lia.
Qed.

Lemma drain_kept c d d' :
  invariant c d → d_closed d = true → rtc (drain_step c) d d' → invariant c d' ∧ d_closed d' = true.
Proof.
  intros Hi Hc Hs. induction Hs as [|x y z Hxy _ IH]; [done|]. apply IH.
  - eapply invariant_step; [done|]. by apply drain_step_step.
  - by apply (drain_step_work c x y).
Qed.
Lemma drain_terminates c d : d_closed d = true → sn (drain_step c) d.
Proof.
  remember (work_left d) as n eqn:En. revert d En. induction n as [n IH] using lt_wf_ind. intros d -> Hc.
  constructor. intros d' Hs. destruct (drain_step_work c d d' Hc Hs) as [Hlt Hc']. by eapply (IH (work_left d')).
Qed.
Lemma drained c d : invariant c d → 1 ≤ dc_worker_concurrency c → nf (drain_step c) d →
  d_inflight d = [] ∧ d_queue d = [] ∧ d_running d = [] ∧ ∀ k, k ∈ d_keys d ↔ k ∈ d_lost d.
Proof.
  intros Hi Hw Hn. assert (work_left d = 0%nat) as E.
  { destruct (decide (work_left d = 0)%nat); [done|]. destruct (drain_progress c d Hw) as [d' Hs]; [lia|].
    destruct Hn. exists d'. by apply orderly_drain_step. }
  unfold work_left in E. destruct (d_inflight d) eqn:E1, (d_queue d) eqn:E2, (d_running d) eqn:E3; cbn in E; try lia.
  split_and!; [done..|]. intros k. rewrite (inv_keys _ _ Hi). unfold placed. by rewrite E1, E2, E3.
Qed.
Lemma nothing_left c d : work_left d = 0%nat → nf (drain_step c) d.
Proof.
  unfold work_left. destruct (d_inflight d) eqn:E1, (d_queue d) eqn:E2, (d_running d) eqn:E3; cbn; try lia.
  intros _ [d' Hs]. destruct Hs as [d i event H|d d' H|d i completed d' H|d H].
  - by rewrite E1 in H.
  - unfold receive in H. rewrite E2 in H. by destruct (_ <? _).
  - unfold complete_work in H. by rewrite E3 in H.
  - unfold drain_waits in H. rewrite E3, andb_false_r in H. done.
Qed.
Lemma orderly_drain c d : d_closed d = true → 1 ≤ dc_worker_concurrency c →
  ∃ d', rtc (orderly_step c) d d' ∧ nf (drain_step c) d' ∧ d_lost d' = d_lost d.
Proof.
  intros Hc Hw. remember (work_left d) as n eqn:En. revert d En Hc. induction n as [n IH] using lt_wf_ind. intros d -> Hc.
  destruct (decide (work_left d = 0)%nat) as [E|E].
  - exists d. split; [done|]. split; [by apply nothing_left|done].
  - destruct (drain_progress c d Hw) as [d1 Hs]; [lia|]. destruct (orderly_drain_step c d d1 Hs) as [Hs' Hl].
    destruct (drain_step_work c d d1 Hc Hs') as [Hlt Hc'].
    destruct (IH (work_left d1) Hlt d1 eq_refl Hc') as (d' & Hr & Hn & Hl').
    exists d'. split; [by eapply rtc_l|]. split; [done|congruence].
Qed.

(** ** Theorems *)

(** C3. In every reachable state of the dispatcher, whatever the interleaving
    of offers, refills, workers, cancelled tasks and shutdown with its drain
    deadline, an event is in flight, queued or running at most once, and never
    again after its work was cancelled; the scheduled keys are exactly those of
    the placed events and of cancelled work, and the queue and the workers stay
    within their configured bounds. *)
Theorem dispatcher_schedules_once c d :
  reachable c d →
  NoDup (map pending_key (d_inflight d) ++ map pending_key (d_queue d) ++ d_running d ++ d_lost d)
  ∧ (∀ k, k ∈ d_keys d ↔ k ∈ map pending_key (d_inflight d)
                          ∨ k ∈ map pending_key (d_queue d) ∨ k ∈ d_running d ∨ k ∈ d_lost d)
  ∧ len (d_queue d) ≤ dc_queue_capacity c
  ∧ len (d_running d) ≤ dc_worker_concurrency c.
Proof.
  intros H. apply reachable_invariant in H as [Hn Hk Hq Hr]. split_and!; try done.
  intros k. rewrite Hk. unfold placed. by rewrite !elem_of_app.
Qed.

(** The answer of a whole offer: refused while not accepting; a no-op
    for a scheduled key; refused with the state restored when the channel is
    closed or full; and otherwise queued last with its key scheduled. *)
Theorem offer_outcome c d event :
  offer_pending c d event =
  if negb (is_accepting d) then (d, Err event)
  else if bool_decide (pending_key event ∈ d_keys d) then (d, Ok tt)
  else if d_closed d || (dc_queue_capacity c <=? len (d_queue d)) then (d, Err event)
  else ({| d_inflight := d_inflight d; d_queue := d_queue d ++ [event];
           d_running := d_running d; d_keys := {[pending_key event]} ∪ d_keys d;
           d_accepting := d_accepting d; d_cancelled := d_cancelled d;
           d_closed := d_closed d;
    d_lost := d_lost d |}, Ok tt).
Proof.
  unfold offer_pending. destruct (is_accepting d) eqn:Ea; cbn [negb].
  2:{ unfold offer_reserve. by rewrite Ea. }
  case_bool_decide as Hk.
  { unfold offer_reserve. rewrite Ea. cbn [negb]. by rewrite bool_decide_eq_true_2. }
  rewrite offer_reserve_idle by done. unfold offer_send. cbn [d_closed d_queue d_inflight].
  destruct (d_closed d || _); cbn; rewrite without_last; [|done].
  f_equal. destruct d as [inflight queue running keys ? ? ?]. cbn in *. f_equal.
  apply set_eq. set_solver.
Qed.

(** C37. Once the channel is closed every drain ends, its deadline and cancelled
    tasks included: each step shortens the work that is left. A drain that ends
    has nothing in flight, queued or running, and what is still scheduled is
    exactly the cancelled work. Until then a step that cancels nothing is
    possible, and a drain of such steps schedules nothing but what was cancelled
    before it. *)
Theorem drain_completes c d :
  reachable c d → d_closed d = true → 1 ≤ dc_worker_concurrency c →
  sn (drain_step c) d
  ∧ (∀ d', rtc (drain_step c) d d' → nf (drain_step c) d' →
       d_inflight d' = [] ∧ d_queue d' = [] ∧ d_running d' = [] ∧ ∀ k, k ∈ d_keys d' ↔ k ∈ d_lost d')
  ∧ ∃ d', rtc (orderly_step c) d d' ∧ nf (drain_step c) d' ∧ d_lost d' = d_lost d.
Proof.
  intros Hr Hc Hw. apply reachable_invariant in Hr. split_and!.
  - by apply drain_terminates.
  - intros d' Hs Hn. destruct (drain_kept c d d' Hr Hc Hs) as [Hi' _]. by apply (drained c).
  - by apply orderly_drain.
Qed.

(** The backlog guard has hysteresis: it turns critical exactly when a
    limit is reached and recovers exactly when every count and age is down to
    four fifths of its limit; an observation never both trips and releases it,
    so observing the same backlog again changes nothing. *)
Theorem guard_hysteresis g o now :
  guard_valid g →
  (bg_critical g = false → bg_critical (guard_observe g o now) = guard_crossed g o now)
  ∧ (bg_critical g = true → bg_critical (guard_observe g o now) = negb (guard_recovered g o now))
  ∧ (guard_crossed g o now = true → bg_critical (guard_observe g o now) = true)
  ∧ guard_observe (guard_observe g o now) o now = guard_observe g o now.
Proof.
  intros Hv. pose proof (crossed_not_recovered g o now Hv) as Hx.
  assert (Hc : ∀ b, guard_crossed {| bg_critical := b;
      bg_max_pending_events := bg_max_pending_events g;
      bg_max_oldest_pending_age := bg_max_oldest_pending_age g |} o now = guard_crossed g o now)
    by done.
  assert (Hr : ∀ b, guard_recovered {| bg_critical := b;
      bg_max_pending_events := bg_max_pending_events g;
      bg_max_oldest_pending_age := bg_max_oldest_pending_age g |} o now = guard_recovered g o now)
    by done.
  unfold guard_observe. cbn [bg_critical bg_max_pending_events bg_max_oldest_pending_age].
  rewrite Hc, Hr. split_and!.
  - by intros ->.
  - by intros ->.
  - intros E. destruct (bg_critical g); [by rewrite Hx|done].
  - f_equal. destruct (bg_critical g).
    + destruct (guard_recovered g o now) eqn:E; cbn [negb]; [|done].
      destruct (guard_crossed g o now); [by specialize (Hx eq_refl)|done].
    + destruct (guard_crossed g o now) eqn:E; [by rewrite Hx|done].
Qed.

(** ** Witnesses *)

Definition sample_event (n : Z) : PendingEvent :=
  pending_fresh {| ae_project_id := 42; ae_event_id := repeat n 16; ae_received_at := 0;
                   ae_policy_revision := 1; ae_payload := [] |}.

Definition sample_dispatcher : Dispatcher :=
  fst (refill_once config_default dispatcher_new (Loaded [sample_event 1; sample_event 1;
    sample_event 2]) true).

Lemma sample_started :
  dispatcher_start config_default (Loaded [sample_event 1; sample_event 1; sample_event 2])
  = Ok sample_dispatcher.
Proof. reflexivity. Qed.

Lemma sample_reachable : reachable config_default (begin_drain (cancel sample_dispatcher)).
Proof.
  exists (Loaded [sample_event 1; sample_event 1; sample_event 2]), sample_dispatcher.
  split; [apply sample_started|]. eapply rtc_l; [apply StepCancel|].
  eapply rtc_l; [by apply StepDrain|]. apply rtc_refl.
Qed.

Lemma sample_aborted_reachable :
  ∃ d, reachable config_default d ∧ d_queue d = [] ∧ d_running d = []
       ∧ d_lost d = [pending_key (sample_event 2); pending_key (sample_event 1)].
Proof.
  destruct (receive config_default (begin_drain (cancel sample_dispatcher))) as [d|] eqn:E; [|done].
  exists (abort_drain d). split; [|injection E as <-; done]. destruct sample_reachable as (loaded & d0 & Hs & Hr).
  exists loaded, d0. split; [done|]. eapply rtc_r; [eapply rtc_r; [exact Hr|by apply StepReceive]|].
  apply StepDeadline. by injection E as <-.
Qed.

Lemma dispatcher_schedules_once_witness :
  reachable config_default (begin_drain (cancel sample_dispatcher))
  ∧ len (d_queue (begin_drain (cancel sample_dispatcher))) = 2
  ∧ NoDup (placed (begin_drain (cancel sample_dispatcher))).
Proof.
  split; [exact sample_reachable|]. split; [reflexivity|].
  exact (proj1 (dispatcher_schedules_once _ _ sample_reachable)).
Defined.

Lemma drain_completes_witness :
  d_closed (begin_drain (cancel sample_dispatcher)) = true
  ∧ work_left (begin_drain (cancel sample_dispatcher)) = 4%nat
  ∧ ∃ d', rtc (orderly_step config_default) (begin_drain (cancel sample_dispatcher)) d'
          ∧ nf (drain_step config_default) d' ∧ d_lost d' = [].
Proof.
  split; [reflexivity|]. split; [reflexivity|].
  refine (proj2 (proj2 (drain_completes config_default _ sample_reachable eq_refl _))).
  cbn. lia.
Defined.

Lemma guard_hysteresis_witness :
  let g := {| bg_critical := false; bg_max_pending_events := Some 10;
              bg_max_oldest_pending_age := None |} in
  let o n := {| bo_pending_count := n; bo_oldest_pending_at := None |} in
  guard_valid g
  ∧ bg_critical (guard_observe g (o 10) 0) = true
  ∧ bg_critical (guard_observe (guard_observe g (o 10) 0) (o 9) 0) = true
  ∧ bg_critical (guard_observe (guard_observe g (o 10) 0) (o 8) 0) = false.
Proof.
  cbv zeta. assert (Hv : guard_valid {| bg_critical := false; bg_max_pending_events := Some 10;
              bg_max_oldest_pending_age := None |}).
  { split; [intros m [= <-]; lia|done]. }
  split; [exact Hv|]. split; [|split; reflexivity].
  refine (proj1 (proj2 (proj2 (guard_hysteresis _ _ 0 Hv))) _). reflexivity.
Defined.
