(* ===== verification/Explore.v ===== *)
(** * Unified Explore queries

    [domain/src/explore.rs] (datasets, fields, expressions, the normalized
    text) and [application/src/explore.rs] (validation and the deterministic
    cost of a plan).  A [f64] is a binary64 [spec_float] of the Standard
    Library; its decimal text is the argument [f64_display]. *)
From stdpp Require Import base list numbers strings sets gmap.
From Stdlib Require Import ZArith Lia SpecFloat.
From S2P Require Import Prelude Float Primitives.

Definition MAX_EXPLORE_PREDICATES : Z := 128.
Definition MAX_EXPLORE_AGGREGATES : Z := 4.
Definition MAX_EXPLORE_GROUPS : Z := 2.
Definition MAX_EXPLORE_ROWS : Z := 500.
Definition MAX_EXPLORE_EXPRESSION_NODES : Z := 256.
Definition MAX_EXPLORE_OR_ALTERNATIVES : Z := 64.
Definition MAX_RANGE_MILLIS : Z := 30 * 86400000.
Definition MAX_INTERVALS : Z := 1000.
Definition ALL_TIME_FROM_MILLIS : Z := 0.

(** ** Datasets and fields *)

Inductive ExploreDataset := Errors | Logs | Spans | Metrics.
#[export] Instance ExploreDataset_eq_dec : EqDecision ExploreDataset.
Proof. solve_decision. Defined.
Definition dataset_as_str (d : ExploreDataset) : str :=
  lit match d with
  | Errors => "errors" | Logs => "logs" | Spans => "spans" | Metrics => "metrics"
  end.

Inductive ExploreField :=
| FTimestamp | FReceivedAt | FLevel | FPlatform | FIssueId | FMessage | FEnvironment
| FRelease | FService | FTraceId | FSpanId | FDurationMs | FOperationClass | FOperation
| FStatus | FName | FIsSegment | FMetricKind | FUnit | FMetricCount | FMetricSum
| FMetricMin | FMetricMax.
#[export] Instance ExploreField_eq_dec : EqDecision ExploreField.
Proof. solve_decision. Defined.

Definition field_as_str (f : ExploreField) : str :=
  lit match f with
  | FTimestamp => "timestamp" | FReceivedAt => "received_at" | FLevel => "level"
  | FPlatform => "platform" | FIssueId => "issue_id" | FMessage => "message"
  | FEnvironment => "environment" | FRelease => "release" | FService => "service"
  | FTraceId => "trace_id" | FSpanId => "span_id" | FDurationMs => "duration_ms"
  | FOperationClass => "operation_class" | FOperation => "operation" | FStatus => "status"
  | FName => "name" | FIsSegment => "is_segment" | FMetricKind => "metric_kind"
  | FUnit => "unit" | FMetricCount => "metric_count" | FMetricSum => "metric_sum"
  | FMetricMin => "metric_min" | FMetricMax => "metric_max"
  end.

Definition field_accepted_by (f : ExploreField) (d : ExploreDataset) : bool :=
  match d with
  | Errors =>
      match f with FTimestamp | FReceivedAt | FLevel | FPlatform | FIssueId => true | _ => false end
  | Logs =>
      match f with
      | FTimestamp | FReceivedAt | FLevel | FMessage | FEnvironment | FRelease | FService
      | FTraceId | FSpanId => true
      | _ => false
      end
  | Spans =>
      match f with
      | FTimestamp | FReceivedAt | FDurationMs | FOperationClass | FEnvironment | FRelease
      | FService | FTraceId | FSpanId | FOperation | FStatus | FName | FIsSegment => true
      | _ => false
      end
  | Metrics =>
      match f with
      | FTimestamp | FReceivedAt | FName | FMetricKind | FUnit | FTraceId | FMetricCount
      | FMetricSum | FMetricMin | FMetricMax => true
      | _ => false
      end
  end.

Definition field_numeric (f : ExploreField) : bool :=
  match f with
  | FTimestamp | FReceivedAt | FDurationMs | FMetricCount | FMetricSum | FMetricMin
  | FMetricMax => true
  | _ => false
  end.

Definition groupable (f : ExploreField) (d : ExploreDataset) : bool :=
  match d, f with
  | Errors, (FLevel | FPlatform) | Logs, FLevel | Spans, (FOperationClass | FIsSegment)
  | Metrics, (FName | FMetricKind | FUnit) => true
  | _, _ => false
  end.

Definition maximum_group_cardinality (f : ExploreField) (d : ExploreDataset) : option Z :=
  match d, f with
  | Errors, FLevel => Some 5
  | Errors, FPlatform => Some 10
  | Logs, FLevel => Some 6
  | Spans, FOperationClass => Some 12
  | Spans, FIsSegment => Some 2
  | Metrics, FName => Some MAX_EXPLORE_ROWS
  | Metrics, FMetricKind => Some 3
  | Metrics, FUnit => Some 64
  | _, _ => None
  end.

(** ** Expressions *)

Inductive ExploreValue :=
| XString (value : str) | XNumber (value : f64) | XInteger (value : Z) | XBool (value : bool)
| XNull.

Inductive ExplorePredicateOp :=
| Exact | Contains | StartsWith | EndsWith | Present | Range | Greater | GreaterOrEqual
| Less | LessOrEqual.

Record ExplorePredicate := {
  ep_field : ExploreField;
  ep_op : ExplorePredicateOp;
  ep_value : option ExploreValue;
  ep_upper : option ExploreValue;
}.

Inductive ExploreExpression :=
| EPredicate (p : ExplorePredicate)
| ENot (value : ExploreExpression)
| EAnd (values : list ExploreExpression)
| EOr (values : list ExploreExpression).

Fixpoint predicate_count (e : ExploreExpression) : Z :=
  match e with
  | EPredicate _ => 1
  | ENot value => predicate_count value
  | EAnd values | EOr values => sum_map predicate_count values
  end.

Fixpoint node_count (e : ExploreExpression) : Z :=
  1 + match e with
      | EPredicate _ => 0
      | ENot value => node_count value
      | EAnd values | EOr values => sum_map node_count values
      end.

Fixpoint or_alternatives (e : ExploreExpression) : Z :=
  match e with
  | EPredicate _ => 0
  | ENot value => or_alternatives value
  | EAnd values => sum_map or_alternatives values
  | EOr values => sat_u64 (len values + sum_map or_alternatives values)
  end.

Inductive ExploreAggregateKind :=
| Count | Sum | Min | Max | Avg | P50 | P75 | P90 | P95 | P99.
#[export] Instance ExploreAggregateKind_eq_dec : EqDecision ExploreAggregateKind.
Proof. solve_decision. Defined.
Definition aggregate_as_str (k : ExploreAggregateKind) : str :=
  lit match k with
  | Count => "count" | Sum => "sum" | Min => "min" | Max => "max" | Avg => "avg"
  | P50 => "p50" | P75 => "p75" | P90 => "p90" | P95 => "p95" | P99 => "p99"
  end.

Record ExploreAggregate := {
  ea_kind : ExploreAggregateKind;
  ea_field : option ExploreField;
  ea_alias : str;
}.

Inductive ExploreInterval := Minute | FiveMinutes | Hour | Day.
Definition interval_millis (i : ExploreInterval) : Z :=
  match i with Minute => 60000 | FiveMinutes => 300000 | Hour => 3600000 | Day => 86400000 end.
Definition interval_as_str (i : ExploreInterval) : str :=
  lit match i with Minute => "1m" | FiveMinutes => "5m" | Hour => "1h" | Day => "1d" end.

Record ExploreCursor := {
  ec_time : Z;
  ec_id : bytes;
  ec_id_len : Z;
}.

Record ExploreQuery := {
  eq_dataset : ExploreDataset;
  eq_from : Timestamp;
  eq_until : Timestamp;
  eq_predicates : list ExplorePredicate;
  eq_expression : option ExploreExpression;
  eq_aggregates : list ExploreAggregate;
  eq_group_by : list ExploreField;
  eq_interval : option ExploreInterval;
  eq_cursor : option ExploreCursor;
  eq_limit : Z;
}.

Record ExplorePlan := {
  pl_project_id : ProjectId;
  pl_query : ExploreQuery;
  pl_normalized : str;
  pl_cost : Z;
  pl_maximum_time : duration;
}.

(** ** The normalized text *)

Definition op_as_str (op : ExplorePredicateOp) : str :=
  lit match op with
  | Exact => "eq" | Contains => "contains" | StartsWith => "starts_with"
  | EndsWith => "ends_with" | Present => "present" | Range => "range" | Greater => "gt"
  | GreaterOrEqual => "gte" | Less => "lt" | LessOrEqual => "lte"
  end.

(** The quotes and the reverse solidus are escaped. *)
Definition escape_byte (b : Z) : bytes := if (b =? 34) || (b =? 92) then [92; b] else [b].

Section normalize.
Context (f64_display : f64 → str).

Definition normalize_value (v : ExploreValue) : str :=
  match v with
  | XString value => [34] ++ concat (map escape_byte value) ++ [34]
  | XNumber value => f64_display value
  | XInteger value => to_dec value
  | XBool value => lit (if value then "true" else "false")
  | XNull => lit "null"
  end.

Definition normalize_opt (v : option ExploreValue) : str :=
  match v with Some v => normalize_value v | None => [] end.

Definition normalize_predicate (p : ExplorePredicate) : str :=
  field_as_str (ep_field p) ++ lit ":" ++ op_as_str (ep_op p) ++ lit ":"
  ++ normalize_opt (ep_value p) ++ lit ":" ++ normalize_opt (ep_upper p).

Fixpoint normalize_expression (e : ExploreExpression) : str :=
  match e with
  | EPredicate p => normalize_predicate p
  | ENot value => lit "not(" ++ normalize_expression value ++ lit ")"
  | EAnd values =>
      lit "and(" ++ concat (map (λ value, normalize_expression value ++ lit ",") values)
      ++ lit ")"
  | EOr values =>
      lit "or(" ++ concat (map (λ value, normalize_expression value ++ lit ",") values)
      ++ lit ")"
  end.

Definition normalize_query (q : ExploreQuery) : str :=
  (if is_some (eq_expression q) then lit "v2" else lit "v1")
  ++ lit "|" ++ dataset_as_str (eq_dataset q)
  ++ lit "|" ++ to_dec (eq_from q) ++ lit "|" ++ to_dec (eq_until q)
  ++ lit "|limit:" ++ to_dec (eq_limit q)
  ++ lit "|interval:" ++ match eq_interval q with Some i => interval_as_str i | None => lit "-" end
  ++ lit "|where:"
  ++ match eq_expression q with
     | Some expression => normalize_expression expression
     | None => concat (map (λ p, normalize_predicate p ++ lit ",") (eq_predicates q))
     end
  ++ lit "|aggregate:"
  ++ concat (map (λ a, aggregate_as_str (ea_kind a) ++ lit ":"
       ++ match ea_field a with Some f => field_as_str f | None => lit "-" end
       ++ lit ":" ++ ea_alias a ++ lit ",") (eq_aggregates q))
  ++ lit "|group:" ++ concat (map (λ f, field_as_str f ++ lit ",") (eq_group_by q)).

End normalize.

(** ** Validation *)

Definition effective_predicate_count (q : ExploreQuery) : Z :=
  match eq_expression q with
  | Some e => predicate_count e
  | None => len (eq_predicates q)
  end.

Definition text_searchable (f : ExploreField) : bool :=
  match f with
  | FMessage | FEnvironment | FRelease | FService | FOperation | FStatus | FName | FUnit => true
  | _ => false
  end.

Definition valid_hex (value : str) (length : Z) : bool :=
  (len value =? length) && forallb is_ascii_hexdigit value.

Definition value_matches (d : ExploreDataset) (f : ExploreField) (v : ExploreValue) : bool :=
  match f with
  | FTimestamp | FReceivedAt =>
      match v with XInteger value => is_ok (from_unix_millis value) | _ => false end
  | FDurationMs | FMetricCount =>
      match v with
      | XInteger value => 0 <=? value
      | XNumber value => f64_is_finite value && SFleb f64_zero value
      | _ => false
      end
  | FMetricSum | FMetricMin | FMetricMax =>
      match v with XInteger _ => true | XNumber value => f64_is_finite value | _ => false end
  | FIsSegment => match v with XBool _ => true | _ => false end
  | FTraceId | FIssueId => match v with XString value => valid_hex value 32 | _ => false end
  | FSpanId => match v with XString value => valid_hex value 16 | _ => false end
  | FLevel =>
      match d, v with
      | Errors, XString value =>
          one_of ["debug"; "info"; "warn"; "warning"; "error"; "fatal"] value
      | Logs, XString value =>
          one_of ["trace"; "debug"; "info"; "warn"; "warning"; "error"; "fatal"] value
      | _, _ => false
      end
  | FPlatform =>
      match v with
      | XString value =>
          one_of ["other"; "python"; "javascript"; "node"; "native"; "cocoa"; "java"; "php";
                     "ruby"; "dotnet"; "go"; "rust"] value
      | _ => false
      end
  | FOperationClass =>
      match v with
      | XString value =>
          one_of ["other"; "http.server"; "http.client"; "database"; "cache"; "queue"; "file";
                     "rpc"; "function"; "task"; "ui"; "resource"] value
      | _ => false
      end
  | FMetricKind =>
      match v with
      | XString value => one_of ["counter"; "gauge"; "distribution"] value
      | _ => false
      end
  | _ => match v with XString value => len value <=? 256 | _ => false end
  end.

Definition value_less_than (lower upper : ExploreValue) : bool :=
  match lower, upper with
  | XInteger lower, XInteger upper => lower <? upper
  | XNumber lower, XNumber upper => SFltb lower upper
  | XInteger lower, XNumber upper => SFltb (f64_of_i64 lower) upper
  | XNumber lower, XInteger upper => SFltb lower (f64_of_i64 upper)
  | _, _ => false
  end.

Definition valid_predicate (d : ExploreDataset) (operation : ExplorePredicateOp)
    (f : ExploreField) (value upper : option ExploreValue) : bool :=
  match operation with
  | Present => match value with Some (XBool _) => true | _ => false end && is_none upper
  | Exact => is_some_and (value_matches d f) value && is_none upper
  | Contains | StartsWith | EndsWith =>
      text_searchable f
      && match value with
         | Some (XString value) => negb (is_empty value) && (len value <=? 256)
         | _ => false
         end
      && is_none upper
  | Range =>
      field_numeric f && is_some_and (value_matches d f) value
      && is_some_and (value_matches d f) upper
      && match value, upper with
         | Some lower, Some upper => value_less_than lower upper
         | _, _ => false
         end
  | Greater | GreaterOrEqual | Less | LessOrEqual =>
      field_numeric f && is_some_and (value_matches d f) value && is_none upper
  end.

Definition valid_typed_predicate (d : ExploreDataset) (p : ExplorePredicate) : bool :=
  field_accepted_by (ep_field p) d
  && valid_predicate d (ep_op p) (ep_field p) (ep_value p) (ep_upper p).

Fixpoint valid_expression (d : ExploreDataset) (e : ExploreExpression) : bool :=
  match e with
  | EPredicate p => valid_typed_predicate d p
  | ENot value => valid_expression d value
  | EAnd values => forallb (valid_expression d) values
  | EOr values => negb (is_empty values) && forallb (valid_expression d) values
  end.

(** The loop over the aggregates, with the aliases so far. *)
Fixpoint valid_aggregates (d : ExploreDataset) (aliases : gset str)
    (aggregates : list ExploreAggregate) : bool :=
  match aggregates with
  | [] => true
  | a :: aggregates' =>
      match ea_kind a with
      | Count => is_none (ea_field a)
      | _ => is_some_and (λ f, field_accepted_by f d && field_numeric f) (ea_field a)
      end
      && negb (is_empty (ea_alias a)) && (len (ea_alias a) <=? 32)
      && forallb (λ b, is_ascii_lowercase b || is_ascii_digit b || (b =? 95)) (ea_alias a)
      && negb (bool_decide (ea_alias a ∈ aliases))
      && valid_aggregates d ({[ea_alias a]} ∪ aliases) aggregates'
  end.

(** ** Planning *)

Record ExploreConfig := {
  xc_maximum_cost : Z;
  xc_maximum_concurrency : Z;
  xc_query_timeout : duration;
}.
Definition explore_config_default : ExploreConfig :=
  {| xc_maximum_cost := 10000; xc_maximum_concurrency := 4;
     xc_query_timeout := 5 * 1000000000 |}.

Inductive ExploreError := InvalidQuery | CostExceeded | Capacity | Unavailable.
#[export] Instance ExploreError_eq_dec : EqDecision ExploreError.
Proof. solve_decision. Defined.
Definition explore_error_code (e : ExploreError) : str :=
  lit match e with
  | InvalidQuery => "explore_invalid_query"
  | CostExceeded => "explore_cost_exceeded"
  | Capacity => "explore_capacity"
  | Unavailable => "explore_unavailable"
  end.

Definition explore_service_new (c : ExploreConfig) : result ExploreError ExploreConfig :=
  if (xc_maximum_cost c =? 0) || (xc_maximum_concurrency c =? 0)
     || negb (in_range (100 * 1000000) (30 * 1000000000) (xc_query_timeout c))
  then Err InvalidQuery else Ok c.

Definition query_range (q : ExploreQuery) : Z := sat_i64 (eq_until q - eq_from q).

(** The first test of [plan]: the shape of the query. *)
Definition out_of_bounds (q : ExploreQuery) : bool :=
  let range := query_range q in
  let all_time := eq_from q =? ALL_TIME_FROM_MILLIS in
  (range <=? 0)
  || (negb all_time && (MAX_RANGE_MILLIS <? range))
  || (MAX_EXPLORE_PREDICATES <? effective_predicate_count q)
  || is_some_and (λ e, (MAX_EXPLORE_EXPRESSION_NODES <? node_count e)
                       || (MAX_EXPLORE_OR_ALTERNATIVES <? or_alternatives e)) (eq_expression q)
  || (MAX_EXPLORE_AGGREGATES <? len (eq_aggregates q))
  || (MAX_EXPLORE_GROUPS <? len (eq_group_by q))
  || (eq_limit q =? 0)
  || (MAX_EXPLORE_ROWS <? eq_limit q)
  || (is_empty (eq_aggregates q) && (non_empty (eq_group_by q) || is_some (eq_interval q)))
  || (non_empty (eq_aggregates q) && is_some (eq_cursor q)).

(** The validation of [plan]. *)
Definition validate_query (q : ExploreQuery) : bool :=
  negb (out_of_bounds q)
  && negb (is_some (eq_interval q) && is_empty (eq_aggregates q))
  && match eq_expression q with
     | Some e => valid_expression (eq_dataset q) e
     | None => forallb (valid_typed_predicate (eq_dataset q)) (eq_predicates q)
     end
  && forallb (λ f, groupable f (eq_dataset q)) (eq_group_by q)
  && valid_aggregates (eq_dataset q) ∅ (eq_aggregates q).

(** [u32::try_from(x).unwrap_or(u32::MAX)]. *)
Definition u32_or_max (x : Z) : Z := unwrap_or U32_MAX (checked_u32 x).

Definition costed_range (q : ExploreQuery) : Z := Z.min (query_range q) MAX_RANGE_MILLIS.

Definition interval_count (q : ExploreQuery) : Z :=
  match eq_interval q with
  | None => 1
  | Some i =>
      u32_or_max (sat_i64 (costed_range q + (interval_millis i - 1)) / interval_millis i)
  end.

Definition group_fanout (q : ExploreQuery) : Z :=
  foldl (λ fanout f, sat_u32 (fanout * unwrap_or U32_MAX
                                (maximum_group_cardinality f (eq_dataset q)))) 1 (eq_group_by q).

Definition aggregate_fanout (q : ExploreQuery) : Z :=
  sat_u32 (1 + u32_or_max (len (eq_aggregates q)) * 2).

Definition query_cost (q : ExploreQuery) : Z :=
  let range_hours := u32_or_max (sat_i64 (costed_range q + 3599999) / 3600000) in
  let predicate_cost :=
    sat_u32
      (sat_u32 (u32_or_max (effective_predicate_count q) * 40)
       + sat_u32 (match eq_expression q with
                  | Some e => u32_or_max (or_alternatives e)
                  | None => 0
                  end * 20)) in
  let row_cost :=
    if is_empty (eq_aggregates q) then u32_or_max (eq_limit q) else interval_count q in
  sat_u32 (sat_u32 (sat_u32 (100 + sat_u32 (range_hours * 2)) + predicate_cost)
           + sat_u32 (sat_u32 (row_cost * group_fanout q) * aggregate_fanout q)).

Definition plan (f64_display : f64 → str) (c : ExploreConfig) (project_id : ProjectId)
    (q : ExploreQuery) : result ExploreError ExplorePlan :=
  if negb (validate_query q) then Err InvalidQuery
  else if MAX_INTERVALS <? interval_count q then Err CostExceeded
  else if xc_maximum_cost c <? query_cost q then Err CostExceeded
  else Ok {| pl_project_id := project_id; pl_query := q;
             pl_normalized := normalize_query f64_display q; pl_cost := query_cost q;
             pl_maximum_time := xc_query_timeout c |}.

Inductive ExploreStoreError := XsInvalidData | XsUnavailable.
(** [execute]: a permit is free or the query is refused. *)
Definition execute {R} (permit : bool) (store : ExplorePlan → result ExploreStoreError R)
    (p : ExplorePlan) : result ExploreError R :=
  if negb permit then Err Capacity
  else map_err (λ e, match e with XsInvalidData => InvalidQuery | XsUnavailable => Unavailable end)
         (store p).

(** ** What a valid query is *)

Inductive expression_valid (d : ExploreDataset) : ExploreExpression → Prop :=
| ev_predicate p : valid_typed_predicate d p = true → expression_valid d (EPredicate p)
| ev_not e : expression_valid d e → expression_valid d (ENot e)
| ev_and es : Forall (expression_valid d) es → expression_valid d (EAnd es)
| ev_or es : es ≠ [] → Forall (expression_valid d) es → expression_valid d (EOr es).
Record aggregate_valid (d : ExploreDataset) (a : ExploreAggregate) : Prop := {
  av_field : match ea_kind a with
             | Count => ea_field a = None
             | _ => ∃ f, ea_field a = Some f ∧ field_accepted_by f d = true ∧ field_numeric f = true
             end;
  av_alias : 0 < len (ea_alias a) ≤ 32;
  av_chars : Forall (λ b, is_ascii_lowercase b || is_ascii_digit b || (b =? 95) = true) (ea_alias a);
}.
Record query_valid (q : ExploreQuery) : Prop := {
  qv_range : 0 < eq_until q - eq_from q;
  qv_bounded : eq_from q = ALL_TIME_FROM_MILLIS ∨ eq_until q - eq_from q ≤ MAX_RANGE_MILLIS;
  qv_predicates : effective_predicate_count q ≤ MAX_EXPLORE_PREDICATES;
  qv_expression : ∀ e, eq_expression q = Some e →
    node_count e ≤ MAX_EXPLORE_EXPRESSION_NODES ∧ or_alternatives e ≤ MAX_EXPLORE_OR_ALTERNATIVES;
  qv_widths : len (eq_aggregates q) ≤ MAX_EXPLORE_AGGREGATES ∧ len (eq_group_by q) ≤ MAX_EXPLORE_GROUPS;
  qv_limit : eq_limit q ≠ 0 ∧ eq_limit q ≤ MAX_EXPLORE_ROWS;
  qv_rows : eq_aggregates q = [] → eq_group_by q = [] ∧ eq_interval q = None;
  qv_cursor : eq_aggregates q ≠ [] → eq_cursor q = None;
  qv_typed : match eq_expression q with
             | Some e => expression_valid (eq_dataset q) e
             | None => Forall (λ p, valid_typed_predicate (eq_dataset q) p = true) (eq_predicates q)
             end;
  qv_groups : Forall (λ f, groupable f (eq_dataset q) = true) (eq_group_by q);
  qv_aggregates : Forall (aggregate_valid (eq_dataset q)) (eq_aggregates q);
  qv_aliases : NoDup (map ea_alias (eq_aggregates q));
}.
(** The intervals of the calendar that the range of the query meets. *)
Definition touched_intervals (q : ExploreQuery) : Z :=
  match eq_interval q with
  | None => 1
  | Some i => (eq_until q - 1) / interval_millis i - eq_from q / interval_millis i + 1
  end.

(** ** Lemmas *)

(** The cost without saturation; its intervals are those of the range capped at
    thirty days ([costed_range]). *)
Definition exact_interval_count (q : ExploreQuery) : Z :=
  match eq_interval q with
  | None => 1
  | Some i => (costed_range q + (interval_millis i - 1)) / interval_millis i
  end.
Definition exact_group_fanout (q : ExploreQuery) : Z :=
  foldl (λ fanout f, fanout * unwrap_or U32_MAX (maximum_group_cardinality f (eq_dataset q)))
    1 (eq_group_by q).
Definition exact_cost (q : ExploreQuery) : Z :=
  100 + 2 * ((costed_range q + 3599999) / 3600000)
  + (40 * effective_predicate_count q
     + 20 * match eq_expression q with Some e => or_alternatives e | None => 0 end)
  + (if is_empty (eq_aggregates q) then eq_limit q else exact_interval_count q)
    * exact_group_fanout q * (1 + 2 * len (eq_aggregates q)).

Lemma sum_map_nonneg {A} (f : A → Z) l : (∀ x, 0 ≤ f x) → 0 ≤ sum_map f l.
Proof.
  intros Hf. unfold sum_map. induction l as [|x l IH]; cbn [foldr]; [lia|].
  specialize (Hf x). lia.
Qed.

Fixpoint predicate_count_nonneg (e : ExploreExpression) : 0 ≤ predicate_count e.
Proof.
  destruct e as [p|e|es|es]; cbn [predicate_count]; [lia|apply predicate_count_nonneg| |];
    unfold sum_map; induction es as [|e es IH]; cbn [foldr]; try lia;
    pose proof (predicate_count_nonneg e); lia.
Qed.

Fixpoint or_alternatives_nonneg (e : ExploreExpression) : 0 ≤ or_alternatives e.
Proof.
  destruct e as [p|e|es|es]; cbn [or_alternatives]; [lia|apply or_alternatives_nonneg| |].
  - unfold sum_map. induction es as [|e es IH]; cbn [foldr]; [lia|]. pose proof (or_alternatives_nonneg e). lia.
  - unfold sat_u64. apply (saturate_bounds 0 U64_MAX). done.
Qed.

Lemma sat_u32_exact x : 0 ≤ x ≤ U32_MAX → sat_u32 x = x.
Proof. apply saturate_exact. Qed.
Lemma u32_or_max_exact x : 0 ≤ x ≤ U32_MAX → u32_or_max x = x.
Proof. intros. unfold u32_or_max, checked_u32. by rewrite checked_exact. Qed.
Lemma sat_i64_exact x : I64_MIN ≤ x ≤ I64_MAX → sat_i64 x = x.
Proof. apply saturate_exact. Qed.

Lemma interval_millis_pos i : 60000 ≤ interval_millis i ≤ 86400000.
Proof. destruct i; cbn; lia. Qed.

(** What a validated query is. *)
Lemma validate_query_true q :
  validate_query q = true →
  0 < costed_range q ≤ MAX_RANGE_MILLIS
  ∧ 0 ≤ effective_predicate_count q ≤ MAX_EXPLORE_PREDICATES
  ∧ (∀ e, eq_expression q = Some e →
       node_count e ≤ MAX_EXPLORE_EXPRESSION_NODES
       ∧ 0 ≤ or_alternatives e ≤ MAX_EXPLORE_OR_ALTERNATIVES)
  ∧ len (eq_aggregates q) ≤ MAX_EXPLORE_AGGREGATES ∧ len (eq_group_by q) ≤ MAX_EXPLORE_GROUPS
  ∧ eq_limit q ≠ 0 ∧ eq_limit q ≤ MAX_EXPLORE_ROWS
  ∧ (∀ f, f ∈ eq_group_by q → groupable f (eq_dataset q) = true).
Proof.
  unfold validate_query, out_of_bounds, costed_range. intros H. bool_prop.
  assert (Hp : 0 ≤ effective_predicate_count q).
  { unfold effective_predicate_count.
    destruct (eq_expression q); [apply predicate_count_nonneg|apply len_nonneg]. }
  split_and!; try done; try (unfold MAX_RANGE_MILLIS in *; lia).
  - intros He Hn. rewrite Hn in *. cbn [is_some_and] in *. bool_prop.
    pose proof (or_alternatives_nonneg He). lia.
  - by apply forallb_true.
Qed.

Lemma groupable_cardinality f d :
  groupable f d = true → ∃ n, maximum_group_cardinality f d = Some n ∧ 1 ≤ n ≤ 500.
Proof.
  destruct d, f; try discriminate; intros _; eexists; (split; [done|]);
    unfold MAX_EXPLORE_ROWS; lia.
Qed.

Lemma group_fanout_exact q :
  len (eq_group_by q) ≤ MAX_EXPLORE_GROUPS →
  (∀ f, f ∈ eq_group_by q → groupable f (eq_dataset q) = true) →
  group_fanout q = exact_group_fanout q ∧ 1 ≤ exact_group_fanout q ≤ 250000.
Proof.
  unfold group_fanout, exact_group_fanout, MAX_EXPLORE_GROUPS, len.
  intros Hl Hg. destruct (eq_group_by q) as [|a [|b [|? ?]]]; cbn [foldl length] in *; try lia.
  - destruct (groupable_cardinality a (eq_dataset q)) as (m & -> & ?); [set_solver|].
    cbn [unwrap_or]. rewrite sat_u32_exact by (unfold U32_MAX; lia). lia.
  - destruct (groupable_cardinality a (eq_dataset q)) as (m & -> & ?); [set_solver|].
    destruct (groupable_cardinality b (eq_dataset q)) as (n & -> & ?); [set_solver|].
    cbn [unwrap_or]. rewrite (sat_u32_exact (1 * m)) by (unfold U32_MAX; lia).
    rewrite sat_u32_exact by (unfold U32_MAX; nia). nia.
Qed.

Lemma interval_count_exact q :
  0 < costed_range q ≤ MAX_RANGE_MILLIS →
  interval_count q = exact_interval_count q ∧ 1 ≤ exact_interval_count q ≤ 43200.
Proof.
  unfold interval_count, exact_interval_count, MAX_RANGE_MILLIS.
  intros Hr. destruct (eq_interval q) as [i|]; [|lia].
  pose proof (interval_millis_pos i).
  rewrite sat_i64_exact by (unfold I64_MIN, I64_MAX; lia).
  assert (Hb : 1 ≤ (costed_range q + (interval_millis i - 1)) / interval_millis i ≤ 43200).
  { split; [apply Z.div_le_lower_bound; lia|].
    apply Z.lt_succ_r. apply Z.div_lt_upper_bound; [lia|]. nia. }
  rewrite u32_or_max_exact by (unfold U32_MAX; lia). lia.
Qed.

(** The row and group product of the cost. *)
Lemma product_bounds rows fanout aggregates :
  0 ≤ rows ≤ 1000 → 1 ≤ fanout ≤ 250000 → 0 ≤ aggregates ≤ 4 →
  0 ≤ rows * fanout ≤ 250000000 ∧ 0 ≤ rows * fanout * (1 + 2 * aggregates) ≤ 2250000000.
Proof. intros. nia. Qed.

Lemma query_cost_exact q :
  validate_query q = true → 0 ≤ eq_limit q → interval_count q ≤ MAX_INTERVALS →
  query_cost q = exact_cost q
  ∧ (if is_empty (eq_aggregates q) then eq_limit q else exact_interval_count q)
    * exact_group_fanout q ≤ exact_cost q.
Proof.
  intros Hv Hlim Hi. apply validate_query_true in Hv
    as (Hr & Hp & He & Ha & Hg & Hl0 & Hl & Hgr).
  destruct (group_fanout_exact q Hg Hgr) as [Egf Hgf].
  destruct (interval_count_exact q Hr) as [Eic Hic].
  unfold MAX_INTERVALS, MAX_EXPLORE_PREDICATES, MAX_EXPLORE_OR_ALTERNATIVES,
    MAX_EXPLORE_AGGREGATES, MAX_EXPLORE_ROWS in *.
  assert (Hor : 0 ≤ match eq_expression q with Some e => or_alternatives e | None => 0 end ≤ 64).
  { destruct (eq_expression q) as [e|]; [|lia]. destruct (He e eq_refl) as [_ ?]. lia. }
  assert (Eor : match eq_expression q with
                | Some e => u32_or_max (or_alternatives e) | None => 0 end
              = match eq_expression q with Some e => or_alternatives e | None => 0 end).
  { destruct (eq_expression q) as [e|]; [|done]. apply u32_or_max_exact. unfold U32_MAX. lia. }
  set (ors := match eq_expression q with Some e => or_alternatives e | None => 0 end) in *.
  set (rows := if is_empty (eq_aggregates q) then eq_limit q else exact_interval_count q).
  assert (Hrows : 0 ≤ rows ≤ 1000) by (unfold rows; destruct (is_empty _); lia).
  assert (Erows : (if is_empty (eq_aggregates q) then u32_or_max (eq_limit q)
                   else interval_count q) = rows).
  { unfold rows. destruct (is_empty _); [|done]. apply u32_or_max_exact. unfold U32_MAX. lia. }
  pose proof (len_nonneg (eq_aggregates q)) as Hag.
  destruct (product_bounds rows (exact_group_fanout q) (len (eq_aggregates q)))
    as [Hp1 Hp2]; [lia..|].
  unfold MAX_RANGE_MILLIS in Hr.
  assert (Hh : 0 ≤ (costed_range q + 3599999) / 3600000 ≤ 1000).
  { split; [apply Z.div_pos; lia|apply Z.div_le_upper_bound; lia]. }
  unfold query_cost, exact_cost. rewrite Eor, Erows, Egf. fold ors rows.
  rewrite sat_i64_exact by (unfold I64_MIN, I64_MAX; lia).
  rewrite (u32_or_max_exact ((costed_range q + 3599999) / 3600000)) by (unfold U32_MAX; lia).
  rewrite (u32_or_max_exact (effective_predicate_count q)) by (unfold U32_MAX; lia).
  unfold aggregate_fanout. rewrite (u32_or_max_exact (len _)) by (unfold U32_MAX; lia).
  rewrite (sat_u32_exact (1 + _)) by (unfold U32_MAX; lia).
  rewrite (sat_u32_exact (effective_predicate_count q * 40)) by (unfold U32_MAX; lia).
  rewrite (sat_u32_exact (ors * 20)) by (unfold U32_MAX; lia).
  rewrite (sat_u32_exact (effective_predicate_count q * 40 + ors * 20)) by (unfold U32_MAX; lia).
  rewrite (sat_u32_exact (rows * exact_group_fanout q)) by (unfold U32_MAX; lia).
  rewrite (sat_u32_exact ((costed_range q + 3599999) / 3600000 * 2)) by (unfold U32_MAX; lia).
  replace (1 + len (eq_aggregates q) * 2) with (1 + 2 * len (eq_aggregates q)) by lia.
  rewrite (sat_u32_exact (rows * exact_group_fanout q * _)) by (unfold U32_MAX; lia).
  rewrite (sat_u32_exact (100 + _)) by (unfold U32_MAX; lia).
  rewrite (sat_u32_exact (100 + _ + _)) by (unfold U32_MAX; lia).
  rewrite sat_u32_exact by (unfold U32_MAX; lia).
  split; [lia|]. nia.
Qed.

Lemma forallb_Forall {A} (p : A → bool) l : forallb p l = true ↔ Forall (λ x, p x = true) l.
Proof. rewrite forallb_forall, Forall_forall. split; intros H x Hx; apply H; by apply list_elem_of_In. Qed.
Lemma non_empty_nil {A} (l : list A) : is_empty l = true ↔ l = [].
Proof. by destruct l. Qed.
Fixpoint valid_expression_iff d (e : ExploreExpression) {struct e} :
  valid_expression d e = true ↔ expression_valid d e.
Proof.
  destruct e as [p|e|es|es]; cbn [valid_expression].
  - split; [apply ev_predicate|by inversion_clear 1].
  - pose proof (valid_expression_iff d e) as IH. split; [intros H%IH; by apply ev_not|inversion_clear 1; by apply IH].
  - assert (forallb (valid_expression d) es = true ↔ Forall (expression_valid d) es) as Hes.
    { induction es as [|e es IH]; cbn [forallb]; [by split|].
      pose proof (valid_expression_iff d e) as He. rewrite andb_true_iff, Forall_cons. tauto. }
    split; [intros H%Hes; by apply ev_and|inversion_clear 1; by apply Hes].
  - assert (forallb (valid_expression d) es = true ↔ Forall (expression_valid d) es) as Hes.
    { induction es as [|e es IH]; cbn [forallb]; [by split|].
      pose proof (valid_expression_iff d e) as He. rewrite andb_true_iff, Forall_cons. tauto. }
    rewrite andb_true_iff, Hes, negb_true_iff, <- not_true_iff_false, non_empty_nil.
    split; [intros [? ?]; by apply ev_or|by inversion_clear 1].
Qed.
Lemma valid_aggregates_iff d aggregates : ∀ aliases,
  valid_aggregates d aliases aggregates = true ↔
  Forall (aggregate_valid d) aggregates ∧ NoDup (map ea_alias aggregates)
  ∧ ∀ a, a ∈ map ea_alias aggregates → a ∉ aliases.
Proof.
  induction aggregates as [|a aggregates IH]; intros aliases; cbn [valid_aggregates map].
  { split; [intros _|done]. split_and!; [constructor|constructor|]. intros a Ha. by apply elem_of_nil in Ha. }
  assert (match ea_kind a with
          | Count => is_none (ea_field a)
          | _ => is_some_and (λ f, field_accepted_by f d && field_numeric f) (ea_field a)
          end
          && negb (is_empty (ea_alias a)) && (len (ea_alias a) <=? 32)
          && forallb (λ b, is_ascii_lowercase b || is_ascii_digit b || (b =? 95)) (ea_alias a) = true
          ↔ aggregate_valid d a) as Ha.
  { rewrite !andb_true_iff, forallb_Forall, Z.leb_le, negb_true_iff, <- not_true_iff_false, non_empty_nil.
    assert (match ea_kind a with
          | Count => is_none (ea_field a)
          | _ => is_some_and (λ f, field_accepted_by f d && field_numeric f) (ea_field a)
          end = true ↔ match ea_kind a with
             | Count => ea_field a = None
             | _ => ∃ f, ea_field a = Some f ∧ field_accepted_by f d = true ∧ field_numeric f = true
             end) as ->.
    { destruct (ea_kind a), (ea_field a) as [f|]; cbn; rewrite ?andb_true_iff; naive_solver. }
    assert (ea_alias a ≠ [] ↔ 0 < len (ea_alias a)) as ->.
    { destruct (ea_alias a) as [|b l]; [by split; [|unfold len; cbn; lia]|]. rewrite len_cons.
      pose proof (len_nonneg l). split; [lia|done]. }
    split; [intros [[[? ?] ?] ?]; by split|intros []; tauto]. }
  rewrite <- andb_assoc, andb_true_iff, Ha, andb_true_iff, negb_true_iff, bool_decide_eq_false, IH.
  rewrite Forall_cons, NoDup_cons. set_solver.
Qed.
Lemma saturated_range q :
  (query_range q ≤ 0 ↔ eq_until q - eq_from q ≤ 0)
  ∧ (query_range q ≤ MAX_RANGE_MILLIS ↔ eq_until q - eq_from q ≤ MAX_RANGE_MILLIS).
Proof. unfold query_range, sat_i64, saturate, I64_MIN, I64_MAX, MAX_RANGE_MILLIS. lia. Qed.
Lemma validate_query_iff q : validate_query q = true ↔ query_valid q.
Proof.
  destruct (saturated_range q) as [Hr0 Hr1]. unfold validate_query, out_of_bounds.
  rewrite !andb_true_iff, forallb_Forall, valid_aggregates_iff, !negb_true_iff, !orb_false_iff.
  rewrite Z.leb_gt, !Z.ltb_ge, Z.eqb_neq.
  assert (match eq_expression q with
          | Some e => valid_expression (eq_dataset q) e
          | None => forallb (valid_typed_predicate (eq_dataset q)) (eq_predicates q)
          end = true ↔ match eq_expression q with
             | Some e => expression_valid (eq_dataset q) e
             | None => Forall (λ p, valid_typed_predicate (eq_dataset q) p = true) (eq_predicates q)
             end) as -> by (destruct (eq_expression q); [apply valid_expression_iff|apply forallb_Forall]).
  assert (is_some_and (λ e, (MAX_EXPLORE_EXPRESSION_NODES <? node_count e)
                       || (MAX_EXPLORE_OR_ALTERNATIVES <? or_alternatives e)) (eq_expression q) = false
          ↔ ∀ e, eq_expression q = Some e →
              node_count e ≤ MAX_EXPLORE_EXPRESSION_NODES ∧ or_alternatives e ≤ MAX_EXPLORE_OR_ALTERNATIVES) as ->.
  { destruct (eq_expression q) as [e|]; cbn; [|done]. rewrite orb_false_iff, !Z.ltb_ge.
    split; [by intros H e' [= <-]|intros H; by apply H]. }
  assert (negb (eq_from q =? ALL_TIME_FROM_MILLIS) && (MAX_RANGE_MILLIS <? query_range q) = false
          ↔ eq_from q = ALL_TIME_FROM_MILLIS ∨ eq_until q - eq_from q ≤ MAX_RANGE_MILLIS) as ->.
  { rewrite andb_false_iff, negb_false_iff, Z.eqb_eq, Z.ltb_ge. by rewrite Hr1. }
  assert (is_empty (eq_aggregates q) && (non_empty (eq_group_by q) || is_some (eq_interval q)) = false
          ↔ (eq_aggregates q = [] → eq_group_by q = [] ∧ eq_interval q = None)) as ->.
  { destruct (eq_aggregates q), (eq_group_by q), (eq_interval q); cbn; naive_solver. }
  assert (non_empty (eq_aggregates q) && is_some (eq_cursor q) = false
          ↔ (eq_aggregates q ≠ [] → eq_cursor q = None)) as ->.
  { destruct (eq_aggregates q), (eq_cursor q); cbn; naive_solver. }
  split.
  - intros [[[[[[[[[[[[[A B] C] D] F] G] I] J] K] L] H2] H3] H4] (H5 & H6 & _)]. split; try done; lia.
  - intros []. split_and!; try done; try tauto; try lia.
    destruct (eq_interval q) eqn:Ei, (eq_aggregates q) eqn:Ea; try done.
    by destruct (qv_rows0 eq_refl).
Qed.
(** A range of at most thirty days meets at most one interval more than is paid. *)
Lemma touched_intervals_le q : 0 < eq_until q - eq_from q → query_range q ≤ MAX_RANGE_MILLIS →
  touched_intervals q ≤ exact_interval_count q + 1.
Proof.
  intros H0 H. apply saturated_range in H as H1. unfold touched_intervals, exact_interval_count, costed_range.
  destruct (eq_interval q) as [i|]; [|lia]. pose proof (interval_millis_pos i).
  rewrite Z.min_l by done. unfold query_range.
  rewrite sat_i64_exact by (unfold I64_MIN, I64_MAX, MAX_RANGE_MILLIS in *; lia).
  set (m := interval_millis i) in *. set (a := eq_from q) in *. set (b := eq_until q) in *.
  pose proof (Z.div_mod a m ltac:(lia)). pose proof (Z.mod_pos_bound a m ltac:(lia)).
  pose proof (Z.div_mod (b - 1) m ltac:(lia)). pose proof (Z.mod_pos_bound (b - 1) m ltac:(lia)).
  assert ((b - 1) / m - a / m ≤ (b - a + (m - 1)) / m); [|lia]. apply Z.div_le_lower_bound; [lia|]. nia.
Qed.

(** ** Theorems *)

(** C31. Planning is exact.  A query is refused as invalid exactly when it is not a
    [query_valid]: its range, widths, limit, typed predicates, groups and distinct
    aliases; a valid one is refused as too costly exactly when it has more than the
    permitted intervals or its cost, computed without saturation, is over the
    budget; no other refusal occurs.  An accepted plan carries the query, its
    project and that cost.  The intervals charged are those of the range capped at
    thirty days, so they bound the intervals a range of at most thirty days meets,
    up to the one more that an unaligned range meets; of a query over all time
    they say nothing. *)
Theorem plan_cost_exact f64_display c project_id q :
  0 ≤ eq_limit q →
  match plan f64_display c project_id q with
  | Ok p =>
      query_valid q ∧ pl_query p = q ∧ pl_project_id p = project_id
      ∧ pl_normalized p = normalize_query f64_display q ∧ pl_maximum_time p = xc_query_timeout c
      ∧ exact_interval_count q ≤ MAX_INTERVALS
      ∧ pl_cost p = exact_cost q ∧ exact_cost q ≤ xc_maximum_cost c
      ∧ (query_range q ≤ MAX_RANGE_MILLIS → touched_intervals q ≤ exact_interval_count q + 1)
  | Err InvalidQuery => ¬ query_valid q
  | Err CostExceeded =>
      query_valid q ∧ (MAX_INTERVALS < exact_interval_count q ∨ xc_maximum_cost c < exact_cost q)
  | Err _ => False
  end.
Proof.
  intros Hlim. unfold plan. destruct (validate_query q) eqn:Hv; cbn [negb].
  2:{ rewrite <- validate_query_iff. by rewrite Hv. }
  apply validate_query_iff in Hv as Hq. pose proof (validate_query_true q Hv) as (Hr & _).
  destruct (interval_count_exact q Hr) as [Eic Hic].
  destruct (Z.ltb_spec MAX_INTERVALS (interval_count q)) as [Hi|Hi].
  { split; [done|]. left. lia. }
  destruct (query_cost_exact q Hv Hlim Hi) as [Ec Hb].
  destruct (Z.ltb_spec (xc_maximum_cost c) (query_cost q)).
  { split; [done|]. right. lia. }
  cbn. rewrite Ec in *. split_and!; try done; try lia. apply touched_intervals_le, Hq.
Qed.

Definition sample_query : ExploreQuery :=
  {| eq_dataset := Metrics; eq_from := 1000; eq_until := 1000 + 86400000;
     eq_predicates := [ {| ep_field := FUnit; ep_op := Exact;
                           ep_value := Some (XString (lit "ms")); ep_upper := None |} ];
     eq_expression := None;
     eq_aggregates := [ {| ea_kind := Count; ea_field := None; ea_alias := lit "n" |} ];
     eq_group_by := [FMetricKind]; eq_interval := Some Hour; eq_cursor := None; eq_limit := 50 |}.

Lemma plan_cost_exact_witness :
  0 ≤ eq_limit sample_query
  ∧ ∃ p, plan (λ _, []) explore_config_default 7 sample_query = Ok p
      ∧ pl_cost p = exact_cost sample_query ∧ exact_cost sample_query = 404.
Proof.
  assert (Hl : 0 ≤ eq_limit sample_query) by (cbn; lia).
  split; [exact Hl|].
  pose proof (plan_cost_exact (λ _, []) explore_config_default 7 sample_query Hl) as H.
  destruct (plan (λ _, []) explore_config_default 7 sample_query) as [p|e] eqn:E;
    [|vm_compute in E; discriminate E].
  exists p. split; [reflexivity|]. split; [apply H|vm_compute; reflexivity].
Defined.
