(* ===== verification/Query.v ===== *)
(** * The query language

    [application/src/query.rs]: sources and fields, the tokenizer, the
    recursive-descent parser with its limits, the normalized text and the
    translation to Explore expressions.  A token list stands for the slice of
    tokens from the parser's position on.  The parser's only recursion is
    [parse_unary]; its first argument is the depth of calls that is allowed,
    and [None] means that the depth (or, in the loops, the length of the
    input) was not enough. *)
From stdpp Require Import base list numbers strings sets gmap.
From Stdlib Require Import ZArith Lia SpecFloat.
From S2P Require Import Prelude Float Primitives Explore.

Definition MAX_QUERY_BYTES : Z := 32 * 1024.
Definition MAX_QUERY_NODES : Z := 256.
Definition MAX_QUERY_PREDICATES : Z := 128.
Definition MAX_QUERY_OR_ALTERNATIVES : Z := 64.
Definition MAX_QUERY_NESTING : nat := 16%nat.

Inductive QueryError :=
| QSyntax | QCapabilityUnavailable | QLimitExceeded | QCostExceeded | QCapacity
| QInvalidCursor | QUnavailable.
#[export] Instance QueryError_eq_dec : EqDecision QueryError.
Proof. solve_decision. Defined.
Definition query_error_code (e : QueryError) : str :=
  lit match e with
  | QSyntax => "query_syntax_invalid"
  | QCapabilityUnavailable => "query_capability_unavailable"
  | QLimitExceeded => "query_limit_exceeded"
  | QCostExceeded => "query_cost_exceeded"
  | QCapacity => "query_capacity"
  | QInvalidCursor => "invalid_cursor"
  | QUnavailable => "query_unavailable"
  end.

(** ** Sources and fields *)

Inductive QuerySource :=
| QIssues | QErrors | QLogs | QTraces | QMetrics | QReplays | QFeedback | QReleases.
#[export] Instance QuerySource_eq_dec : EqDecision QuerySource.
Proof. solve_decision. Defined.
Definition source_as_str (s : QuerySource) : str :=
  lit match s with
  | QIssues => "issues" | QErrors => "errors" | QLogs => "logs" | QTraces => "traces"
  | QMetrics => "metrics" | QReplays => "replays" | QFeedback => "feedback"
  | QReleases => "releases"
  end.
Definition source_parse (value : str) : result QueryError QuerySource :=
  let named s := bool_decide (value = lit s) in
  if named "issues" then Ok QIssues
  else if named "errors" then Ok QErrors
  else if named "logs" then Ok QLogs
  else if named "traces" then Ok QTraces
  else if named "metrics" then Ok QMetrics
  else if named "replays" then Ok QReplays
  else if named "feedback" then Ok QFeedback
  else if named "releases" then Ok QReleases
  else Err QCapabilityUnavailable.

Inductive QueryField :=
| QEventId | QIssueId | QFeedbackId | QReplayId | QTimestamp | QReceivedAt | QTitle | QLevel
| QPlatform | QMessage | QEnvironment | QRelease | QService | QTraceId | QSpanId | QDurationMs
| QOperationClass | QOperation | QStatus | QName | QUrl | QUserId | QIsSegment | QMetricName
| QMetricKind | QUnit | QMetricCount | QMetricSum | QMetricMin | QMetricMax.
#[export] Instance QueryField_eq_dec : EqDecision QueryField.
Proof. solve_decision. Defined.
Definition query_field_name (f : QueryField) : string :=
  match f with
  | QEventId => "event.id" | QIssueId => "issue_id" | QFeedbackId => "feedback_id"
  | QReplayId => "replay_id" | QTimestamp => "timestamp" | QReceivedAt => "received_at"
  | QTitle => "title" | QLevel => "level" | QPlatform => "platform" | QMessage => "message"
  | QEnvironment => "environment" | QRelease => "release" | QService => "service"
  | QTraceId => "trace_id" | QSpanId => "span_id" | QDurationMs => "duration_ms"
  | QOperationClass => "operation_class" | QOperation => "operation" | QStatus => "status"
  | QName => "name" | QUrl => "url" | QUserId => "user.id" | QIsSegment => "is_segment"
  | QMetricName => "metric_name" | QMetricKind => "metric_kind" | QUnit => "unit"
  | QMetricCount => "metric_count" | QMetricSum => "metric_sum" | QMetricMin => "metric_min"
  | QMetricMax => "metric_max"
  end.
Definition query_field_as_str (f : QueryField) : str := lit (query_field_name f).

(** Names and aliases of [resolve_field]. *)
Definition resolve_field (value : str) : option QueryField :=
  let named s := bool_decide (value = lit s) in
  if named "event.id" || named "event_id" then Some QEventId
  else if named "issue" || named "issue_id" then Some QIssueId
  else if named "feedback" || named "feedback_id" then Some QFeedbackId
  else if named "replay" || named "replay_id" then Some QReplayId
  else if named "timestamp" then Some QTimestamp
  else if named "received_at" then Some QReceivedAt
  else if named "title" then Some QTitle
  else if named "level" then Some QLevel
  else if named "platform" then Some QPlatform
  else if named "msg" || named "message" then Some QMessage
  else if named "env" || named "environment" then Some QEnvironment
  else if named "rel" || named "release" || named "version" then Some QRelease
  else if named "svc" || named "service" then Some QService
  else if named "trace" || named "trace_id" then Some QTraceId
  else if named "span" || named "span_id" then Some QSpanId
  else if named "dur" || named "duration_ms" then Some QDurationMs
  else if named "operation_class" then Some QOperationClass
  else if named "op" || named "operation" then Some QOperation
  else if named "status" then Some QStatus
  else if named "name" then Some QName
  else if named "url" then Some QUrl
  else if named "user" || named "user.id" then Some QUserId
  else if named "is_segment" then Some QIsSegment
  else if named "metric" || named "metric_name" then Some QMetricName
  else if named "kind" || named "metric_kind" then Some QMetricKind
  else if named "unit" then Some QUnit
  else if named "metric_count" then Some QMetricCount
  else if named "metric_sum" then Some QMetricSum
  else if named "metric_min" then Some QMetricMin
  else if named "metric_max" then Some QMetricMax
  else None.

Definition query_field_accepted (source : QuerySource) (f : QueryField) : bool :=
  match source with
  | QIssues => match f with QIssueId | QTimestamp | QTitle | QStatus => true | _ => false end
  | QErrors =>
      match f with
      | QEventId | QIssueId | QTimestamp | QLevel | QPlatform | QEnvironment | QRelease
      | QUserId => true
      | _ => false
      end
  | QLogs =>
      match f with
      | QTimestamp | QReceivedAt | QLevel | QMessage | QEnvironment | QRelease | QService
      | QTraceId | QSpanId => true
      | _ => false
      end
  | QTraces =>
      match f with
      | QTimestamp | QReceivedAt | QDurationMs | QOperationClass | QEnvironment | QRelease
      | QService | QTraceId | QSpanId | QOperation | QStatus | QName | QIsSegment => true
      | _ => false
      end
  | QMetrics =>
      match f with
      | QTimestamp | QReceivedAt | QMetricName | QMetricKind | QUnit | QTraceId | QMetricCount
      | QMetricSum | QMetricMin | QMetricMax => true
      | _ => false
      end
  | QReplays =>
      match f with
      | QEventId | QReplayId | QTimestamp | QUrl | QEnvironment | QRelease | QTraceId => true
      | _ => false
      end
  | QFeedback =>
      match f with
      | QEventId | QFeedbackId | QTimestamp | QStatus | QMessage | QReplayId | QTraceId => true
      | _ => false
      end
  | QReleases => match f with QRelease | QTimestamp => true | _ => false end
  end.

Definition parse_query_field (source : QuerySource) (value : str) : result QueryError QueryField :=
  field ← ok_or QCapabilityUnavailable (resolve_field value);
  if query_field_accepted source field then Ok field else Err QCapabilityUnavailable.

(** ** Expressions *)

Inductive QueryOperator :=
| QEqual | QGreater | QGreaterOrEqual | QLess | QLessOrEqual | QContains.
#[export] Instance QueryOperator_eq_dec : EqDecision QueryOperator.
Proof. solve_decision. Defined.
Definition operator_name (o : QueryOperator) : string :=
  match o with
  | QEqual => "eq" | QGreater => "gt" | QGreaterOrEqual => "gte" | QLess => "lt"
  | QLessOrEqual => "lte" | QContains => "contains"
  end.
Definition operator_as_str (o : QueryOperator) : str := lit (operator_name o).

Record QueryPredicate := {
  qp_field : QueryField;
  qp_operator : QueryOperator;
  qp_value : str;
}.
#[export] Instance QueryPredicate_eq_dec : EqDecision QueryPredicate.
Proof. solve_decision. Defined.

Inductive QueryExpression :=
| QPredicate (p : QueryPredicate)
| QNot (value : QueryExpression)
| QAnd (values : list QueryExpression)
| QOr (values : list QueryExpression).

Definition escaped (value : str) : str := [34] ++ concat (map escape_byte value) ++ [34].

Fixpoint normalized (e : QueryExpression) : str :=
  match e with
  | QPredicate p =>
      query_field_as_str (qp_field p) ++ lit ":" ++ operator_as_str (qp_operator p) ++ lit ":"
      ++ escaped (qp_value p)
  | QNot value => lit "not(" ++ normalized value ++ lit ")"
  | QAnd values => lit "and(" ++ join (lit ",") (map normalized values) ++ lit ")"
  | QOr values => lit "or(" ++ join (lit ",") (map normalized values) ++ lit ")"
  end.

Fixpoint collect_predicates (e : QueryExpression) : list QueryPredicate :=
  match e with
  | QPredicate value => [value]
  | QNot value => collect_predicates value
  | QAnd values | QOr values => concat (map collect_predicates values)
  end.

Fixpoint matches_inner (predicate : QueryPredicate → bool) (e : QueryExpression) : bool :=
  match e with
  | QPredicate value => predicate value
  | QNot value => negb (matches_inner predicate value)
  | QAnd values => forallb (matches_inner predicate) values
  | QOr values => existsb (matches_inner predicate) values
  end.
Definition matches_expression (e : option QueryExpression) (predicate : QueryPredicate → bool)
    : bool := is_none_or (matches_inner predicate) e.

Record ParsedQuery := {
  pq_source : QuerySource;
  pq_expression : option QueryExpression;
  pq_normalized : str;
}.

(** ** Tokens *)

Inductive Token :=
| TPredicate (field value : str) | TBare (value : str) | TAnd | TOr | TBang | TLeft | TRight.
#[export] Instance Token_eq_dec : EqDecision Token.
Proof. solve_decision. Defined.

(** The loop of [read_quoted] after the opening quote: the value and the input
    after the closing quote.  The bytes of a character beyond ASCII pass none
    of the tests, so they are pushed one by one. *)
Fixpoint read_quoted_loop (value : str) (input : bytes) : result QueryError (str * bytes) :=
  match input with
  | [] => Err QSyntax
  | byte :: input' =>
      if byte =? 34 then if is_empty value then Err QSyntax else Ok (value, input')
      else
        let plain :=
          if is_ascii_control byte then Err QSyntax
          else read_quoted_loop (value ++ [byte]) input' in
        if byte =? 92 then
          match input' with
          | next :: input'' =>
              if (next =? 92) || (next =? 34) then read_quoted_loop (value ++ [next]) input''
              else plain
          | [] => plain
          end
        else plain
  end.
Definition read_quoted (input : bytes) : result QueryError (str * bytes) :=
  match input with
  | byte :: input' => if byte =? 34 then read_quoted_loop [] input' else Err QSyntax
  | [] => Err QSyntax
  end.

Definition word_byte (b : Z) : bool :=
  negb (is_ascii_whitespace b) && negb ((b =? 58) || (b =? 40) || (b =? 41) || (b =? 33)).
Definition value_byte (b : Z) : bool :=
  negb (is_ascii_whitespace b) && negb ((b =? 40) || (b =? 41)).

(** The value after the colon of a predicate. *)
Definition read_value (input : bytes) : result QueryError (str * bytes) :=
  if bool_decide (head input = Some 34) then read_quoted input
  else
    let '(value, rest) := span value_byte input in
    if is_empty value then Err QSyntax else Ok (value, rest).

(** One token at a byte that is no white space. *)
Definition read_token (byte : Z) (input : bytes) : result QueryError (Token * bytes) :=
  if byte =? 40 then Ok (TLeft, tail input)
  else if byte =? 41 then Ok (TRight, tail input)
  else if byte =? 33 then Ok (TBang, tail input)
  else if byte =? 34 then '(value, rest) ← read_quoted input; Ok (TBare value, rest)
  else
    let '(word, rest) := span word_byte input in
    if is_empty word then Err QSyntax
    else if bool_decide (head rest = Some 58) then
      '(value, rest) ← read_value (tail rest); Ok (TPredicate word value, rest)
    else if bool_decide (word = lit "AND") then Ok (TAnd, rest)
    else if bool_decide (word = lit "OR") then Ok (TOr, rest)
    else Ok (TBare word, rest).

Fixpoint tokenize_loop (fuel : nat) (output : list Token) (input : bytes)
    : option (result QueryError (list Token)) :=
  match input with
  | [] => Some (if is_empty output then Err QSyntax else Ok output)
  | byte :: input' =>
      match fuel with
      | O => None
      | S fuel =>
          if is_ascii_whitespace byte then tokenize_loop fuel output input'
          else match read_token byte input with
               | Err e => Some (Err e)
               | Ok (token, rest) => tokenize_loop fuel (output ++ [token]) rest
               end
      end
  end.
Definition tokenize (input : bytes) : option (result QueryError (list Token)) :=
  tokenize_loop (length input) [] input.

(** ** Predicates *)

Definition ordered_field (f : QueryField) : bool :=
  match f with
  | QTimestamp | QReceivedAt | QDurationMs | QMetricCount | QMetricSum | QMetricMin
  | QMetricMax => true
  | _ => false
  end.
Definition operator_accepted (f : QueryField) (o : QueryOperator) : bool :=
  match o with
  | QEqual => true
  | QGreater | QGreaterOrEqual | QLess | QLessOrEqual => ordered_field f
  | QContains =>
      match f with
      | QTitle | QMessage | QName | QOperation | QUrl | QMetricName => true
      | _ => false
      end
  end.

Definition split_operator (raw_value : str) : QueryOperator * str :=
  match strip_prefix (lit ">=") raw_value with
  | Some value => (QGreaterOrEqual, value)
  | None =>
  match strip_prefix (lit "<=") raw_value with
  | Some value => (QLessOrEqual, value)
  | None =>
  match strip_prefix (lit ">") raw_value with
  | Some value => (QGreater, value)
  | None =>
  match strip_prefix (lit "<") raw_value with
  | Some value => (QLess, value)
  | None =>
  match strip_prefix (lit "=") raw_value with
  | Some value => (QEqual, value)
  | None => (QEqual, raw_value)
  end end end end end.

Section parser.
(** [OffsetDateTime::parse] with [Rfc3339] of the [time] crate, as the
    timestamp in nanoseconds. *)
Context (rfc3339_nanos : str → option Z).

Definition value_ok (source : QuerySource) (f : QueryField) (value : str) : bool :=
  match f with
  | QEventId | QIssueId | QFeedbackId | QReplayId | QTraceId => valid_hex value 32
  | QSpanId => valid_hex value 16
  | QTimestamp | QReceivedAt => is_some (parse_i64 value) || is_some (rfc3339_nanos value)
  | QDurationMs | QMetricSum | QMetricMin | QMetricMax =>
      is_some_and f64_is_finite (parse_f64 value)
  | QMetricCount => is_some (parse_u64 value)
  | QIsSegment => one_of ["true"; "false"] value
  | QLevel =>
      match source with
      | QErrors => one_of ["debug"; "info"; "warn"; "warning"; "error"; "fatal"] value
      | QLogs => one_of ["trace"; "debug"; "info"; "warn"; "warning"; "error"; "fatal"] value
      | _ => false
      end
  | QStatus =>
      match source with
      | QIssues => one_of ["open"; "resolved"; "ignored"] value
      | QFeedback => one_of ["open"; "resolved"; "spam"] value
      | QTraces => len value <=? 256
      | _ => false
      end
  | QMetricKind => one_of ["counter"; "gauge"; "distribution"] value
  | _ => len value <=? 16 * 1024
  end.
Definition validate_value (source : QuerySource) (f : QueryField) (o : QueryOperator)
    (value : str) : result QueryError unit :=
  if bool_decide (o = QContains) then Ok tt
  else if value_ok source f value then Ok tt else Err QSyntax.

Definition parse_predicate (source : QuerySource) (raw_field raw_value : str)
    : result QueryError QueryPredicate :=
  field ← ok_or QCapabilityUnavailable (resolve_field raw_field);
  if negb (query_field_accepted source field) then Err QCapabilityUnavailable
  else
    let '(operator, value) := split_operator raw_value in
    if is_empty value || (16 * 1024 <? len value) || negb (operator_accepted field operator)
    then Err QSyntax
    else
      _ ← validate_value source field operator value;
      Ok {| qp_field := field; qp_operator := operator; qp_value := value |}.

(** ** The parser *)

Record Parser := {
  ps_tokens : list Token;
  ps_predicates : Z;
  ps_nodes : Z;
  ps_or_alternatives : Z;
}.
Definition advance (p : Parser) : Parser :=
  {| ps_tokens := tail (ps_tokens p); ps_predicates := ps_predicates p;
     ps_nodes := ps_nodes p; ps_or_alternatives := ps_or_alternatives p |}.

Abbreviation parsed := (result QueryError (QueryExpression * Parser)).

Definition node (p : Parser) (value : QueryExpression) : parsed :=
  let p := {| ps_tokens := ps_tokens p; ps_predicates := ps_predicates p;
              ps_nodes := ps_nodes p + 1; ps_or_alternatives := ps_or_alternatives p |} in
  if MAX_QUERY_NODES <? ps_nodes p then Err QLimitExceeded else Ok (value, p).

Definition predicate (p : Parser) (value : QueryPredicate) : parsed :=
  let p := {| ps_tokens := ps_tokens p; ps_predicates := ps_predicates p + 1;
              ps_nodes := ps_nodes p; ps_or_alternatives := ps_or_alternatives p |} in
  if MAX_QUERY_PREDICATES <? ps_predicates p then Err QLimitExceeded
  else node p (QPredicate value).

(** The alternatives are counted and the [Or] node is made. *)
Definition alternatives (p : Parser) (values : list QueryExpression) : parsed :=
  let p := {| ps_tokens := ps_tokens p; ps_predicates := ps_predicates p;
              ps_nodes := ps_nodes p;
              ps_or_alternatives := sat_u64 (ps_or_alternatives p + len values) |} in
  if MAX_QUERY_OR_ALTERNATIVES <? ps_or_alternatives p then Err QLimitExceeded
  else node p (QOr values).

Definition contains_predicate (f : QueryField) (value : str) : QueryPredicate :=
  {| qp_field := f; qp_operator := QContains; qp_value := value |}.
Definition default_expression (source : QuerySource) (p : Parser) (value : str) : parsed :=
  match source with
  | QIssues => predicate p (contains_predicate QTitle value)
  | QLogs => predicate p (contains_predicate QMessage value)
  | QTraces =>
      '(name, p) ← predicate p (contains_predicate QName value);
      '(operation, p) ← predicate p (contains_predicate QOperation value);
      alternatives p [name; operation]
  | QMetrics => predicate p (contains_predicate QMetricName value)
  | QReplays => predicate p (contains_predicate QUrl value)
  | QFeedback => predicate p (contains_predicate QMessage value)
  | QReleases =>
      predicate p {| qp_field := QRelease; qp_operator := QEqual; qp_value := value |}
  | QErrors => Err QCapabilityUnavailable
  end.

(** A result of the parser, or [None] when the depth was not enough. *)
Abbreviation attempt := (option parsed).
Definition then_ (a : attempt) (f : QueryExpression → Parser → attempt) : attempt :=
  match a with
  | None => None
  | Some (Err e) => Some (Err e)
  | Some (Ok (value, p)) => f value p
  end.

(** The end of [parse_and]. *)
Definition and_finish (values : list QueryExpression) (p : Parser) : attempt :=
  match values with
  | [] => Some (Err QSyntax)
  | [value] => Some (Ok (value, p))
  | _ => Some (node p (QAnd values))
  end.
(** [parse_and]: [unary] is [parse_unary] at this nesting. *)
Fixpoint and_loop (unary : Parser → attempt) (fuel : nat) (values : list QueryExpression)
    (p : Parser) : attempt :=
  let step p :=
    match fuel with
    | O => None
    | S fuel => then_ (unary p) (λ value p, and_loop unary fuel (values ++ [value]) p)
    end in
  match ps_tokens p with
  | [] | TOr :: _ | TRight :: _ => and_finish values p
  | TAnd :: rest =>
      if is_empty values then Some (Err QSyntax)
      else match rest with
           | [] | TAnd :: _ | TOr :: _ | TRight :: _ => Some (Err QSyntax)
           | _ => step (advance p)
           end
  | _ => step p
  end.
Definition parse_and (unary : Parser → attempt) (p : Parser) : attempt :=
  and_loop unary (length (ps_tokens p)) [] p.

(** The end of [parse_or]. *)
Definition or_finish (values : list QueryExpression) (p : Parser) : attempt :=
  match values with
  | [value] => Some (Ok (value, p))
  | _ => Some (alternatives p values)
  end.
(** [parse_or]. *)
Fixpoint or_loop (unary : Parser → attempt) (fuel : nat) (values : list QueryExpression)
    (p : Parser) : attempt :=
  match ps_tokens p with
  | TOr :: _ =>
      match fuel with
      | O => None
      | S fuel => then_ (parse_and unary (advance p))
                    (λ value p, or_loop unary fuel (values ++ [value]) p)
      end
  | _ => or_finish values p
  end.
Definition parse_or (unary : Parser → attempt) (p : Parser) : attempt :=
  then_ (parse_and unary p) (λ value p, or_loop unary (length (ps_tokens p)) [value] p).

Fixpoint parse_unary (depth : nat) (source : QuerySource) (nesting : nat) (p : Parser)
    : attempt :=
  match depth with
  | O => None
  | S depth =>
      match ps_tokens p with
      | TBang :: _ =>
          then_ (parse_unary depth source nesting (advance p))
            (λ value p, Some (node p (QNot value)))
      | TLeft :: _ =>
          if (MAX_QUERY_NESTING <=? nesting)%nat then Some (Err QLimitExceeded)
          else
            then_ (parse_or (parse_unary depth source (S nesting)) (advance p))
              (λ value p,
                match ps_tokens p with
                | TRight :: _ => Some (Ok (value, advance p))
                | _ => Some (Err QSyntax)
                end)
      | TPredicate field value :: _ =>
          Some (value ← parse_predicate source field value; predicate (advance p) value)
      | TBare value :: _ => Some (default_expression source (advance p) value)
      | _ => Some (Err QSyntax)
      end
  end.

Definition parser_new (tokens : list Token) : Parser :=
  {| ps_tokens := tokens; ps_predicates := 0; ps_nodes := 0; ps_or_alternatives := 0 |}.

(** [parse_or(0)] on all tokens. *)
Definition parse_tokens (depth : nat) (source : QuerySource) (tokens : list Token)
    : option (result QueryError QueryExpression) :=
  match parse_or (parse_unary depth source 0) (parser_new tokens) with
  | None => None
  | Some (Err e) => Some (Err e)
  | Some (Ok (value, p)) =>
      Some (if is_empty (ps_tokens p) then Ok value else Err QSyntax)
  end.

Definition normalized_query (source : QuerySource) (e : option QueryExpression) : str :=
  lit "v2|" ++ source_as_str source ++ lit "|"
  ++ match e with Some e => normalized e | None => lit "all" end.

Definition query_parse (source : QuerySource) (input : str)
    : option (result QueryError ParsedQuery) :=
  let input := trim input in
  let query e := {| pq_source := source; pq_expression := e;
                    pq_normalized := normalized_query source e |} in
  if MAX_QUERY_BYTES <? len input then Some (Err QLimitExceeded)
  else if is_empty input then Some (Ok (query None))
  else
    match tokenize input with
    | None => None
    | Some (Err e) => Some (Err e)
    | Some (Ok tokens) =>
        match parse_tokens (S (length tokens)) source tokens with
        | None => None
        | Some r => Some ((λ e, query (Some e)) <$> r)
        end
    end.

(** ** Explore expressions *)

Definition explore_field (f : QueryField) : option ExploreField :=
  match f with
  | QTimestamp => Some FTimestamp | QReceivedAt => Some FReceivedAt | QLevel => Some FLevel
  | QPlatform => Some FPlatform | QIssueId => Some FIssueId | QMessage => Some FMessage
  | QEnvironment => Some FEnvironment | QRelease => Some FRelease | QService => Some FService
  | QTraceId => Some FTraceId | QSpanId => Some FSpanId | QDurationMs => Some FDurationMs
  | QOperationClass => Some FOperationClass | QOperation => Some FOperation
  | QStatus => Some FStatus | QName => Some FName | QIsSegment => Some FIsSegment
  | QMetricName => Some FName | QMetricKind => Some FMetricKind | QUnit => Some FUnit
  | QMetricCount => Some FMetricCount | QMetricSum => Some FMetricSum
  | QMetricMin => Some FMetricMin | QMetricMax => Some FMetricMax
  | _ => None
  end.
Definition explore_op (o : QueryOperator) : ExplorePredicateOp :=
  match o with
  | QEqual => Exact | QGreater => Greater | QGreaterOrEqual => GreaterOrEqual | QLess => Less
  | QLessOrEqual => LessOrEqual | QContains => Contains
  end.

(** [str::parse::<bool>]. *)
Definition parse_bool (value : str) : option bool :=
  if bool_decide (value = lit "true") then Some true
  else if bool_decide (value = lit "false") then Some false else None.

Definition explore_value (f : ExploreField) (value : str) : result QueryError ExploreValue :=
  match f with
  | FTimestamp | FReceivedAt =>
      let millis := option_or (parse_i64 value)
        (nanos ← rfc3339_nanos value; checked_i64 (nanos / 1000000)) in
      ok_or QSyntax (XInteger <$> millis)
  | FDurationMs | FMetricSum | FMetricMin | FMetricMax =>
      match parse_f64 value with
      | Some x => if f64_is_finite x then Ok (XNumber x) else Err QSyntax
      | None => Err QSyntax
      end
  | FMetricCount => ok_or QSyntax (XInteger <$> parse_i64 value)
  | FIsSegment => ok_or QSyntax (XBool <$> parse_bool value)
  | _ => Ok (XString value)
  end.

Definition to_explore_predicate (d : ExploreDataset) (p : QueryPredicate)
    : result QueryError ExplorePredicate :=
  field ← ok_or QCapabilityUnavailable (explore_field (qp_field p));
  if negb (field_accepted_by field d) then Err QCapabilityUnavailable
  else
    value ← explore_value field (qp_value p);
    Ok {| ep_field := field; ep_op := explore_op (qp_operator p); ep_value := Some value;
          ep_upper := None |}.

(** The elements in order, the first error if there is one. *)
Definition collect {E A} (l : list (result E A)) : result E (list A) :=
  foldr (λ r acc, a ← r; l ← acc; Ok (a :: l)) (Ok []) l.

Fixpoint to_explore_expression (d : ExploreDataset) (e : QueryExpression)
    : result QueryError ExploreExpression :=
  match e with
  | QPredicate p => EPredicate <$> to_explore_predicate d p
  | QNot value => ENot <$> to_explore_expression d value
  | QAnd values => EAnd <$> collect (map (to_explore_expression d) values)
  | QOr values => EOr <$> collect (map (to_explore_expression d) values)
  end.

Definition explore_dataset (s : QuerySource) : option ExploreDataset :=
  match s with
  | QErrors => Some Errors | QLogs => Some Logs | QTraces => Some Spans
  | QMetrics => Some Metrics | _ => None
  end.
Definition explore_expression (q : ParsedQuery) : result QueryError (option ExploreExpression) :=
  d ← ok_or QCapabilityUnavailable (explore_dataset (pq_source q));
  match pq_expression q with
  | None => Ok None
  | Some e => Some <$> to_explore_expression d e
  end.

End parser.

(** ** Samples *)

Definition no_dates : str → option Z := λ _, None.
Definition sample_text : str :=
  lit "level:error AND (svc:api OR svc:worker) !env:development gone".
Example sample_normalized :
  option_map (λ r, pq_normalized <$> r) (query_parse no_dates QLogs sample_text)
  = Some (Ok (lit "v2|logs|and(level:eq:" ++ escaped (lit "error") ++ lit ",or(service:eq:"
              ++ escaped (lit "api") ++ lit ",service:eq:" ++ escaped (lit "worker")
              ++ lit "),not(environment:eq:" ++ escaped (lit "development")
              ++ lit "),message:contains:" ++ escaped (lit "gone") ++ lit ")")).
Proof. vm_compute. reflexivity. Qed.
Example sample_nesting :
  query_parse no_dates QLogs (replicate 17 40 ++ lit "level:error" ++ replicate 17 41)
  = Some (Err QLimitExceeded)
  ∧ is_ok (unwrap_or (Err QSyntax) (query_parse no_dates QLogs
             (replicate 16 40 ++ lit "level:error" ++ replicate 16 41))) = true.
Proof. vm_compute. done. Qed.

(** ** The grammar

    What the parser is to accept, without positions, counters or depth:
    [derives_unary n ts e] reads the whole of [ts] as the expression [e] under
    [n] parentheses, [derives_and] and [derives_or] as the operands of a
    conjunction and a disjunction. *)

Definition group (c : list QueryExpression → QueryExpression) (values : list QueryExpression)
    : QueryExpression :=
  match values with [value] => value | _ => c values end.

(** The expression of a bare word. *)
Definition bare_meaning (source : QuerySource) (value : str) : option QueryExpression :=
  match source with
  | QIssues => Some (QPredicate (contains_predicate QTitle value))
  | QLogs | QFeedback => Some (QPredicate (contains_predicate QMessage value))
  | QTraces => Some (QOr [QPredicate (contains_predicate QName value);
                          QPredicate (contains_predicate QOperation value)])
  | QMetrics => Some (QPredicate (contains_predicate QMetricName value))
  | QReplays => Some (QPredicate (contains_predicate QUrl value))
  | QReleases =>
      Some (QPredicate {| qp_field := QRelease; qp_operator := QEqual; qp_value := value |})
  | QErrors => None
  end.

Section grammar.
Context (rfc3339_nanos : str → option Z) (source : QuerySource).

Inductive derives_unary : nat → list Token → QueryExpression → Prop :=
| derives_not n ts e : derives_unary n ts e → derives_unary n (TBang :: ts) (QNot e)
| derives_group n ts values :
    (n < MAX_QUERY_NESTING)%nat → derives_or (S n) ts values →
    derives_unary n (TLeft :: ts ++ [TRight]) (group QOr values)
| derives_predicate n field value p :
    parse_predicate rfc3339_nanos source field value = Ok p →
    derives_unary n [TPredicate field value] (QPredicate p)
| derives_bare n value e :
    bare_meaning source value = Some e → derives_unary n [TBare value] e
with derives_and : nat → list Token → list QueryExpression → Prop :=
| derives_and_one n ts e : derives_unary n ts e → derives_and n ts [e]
| derives_and_more n ts e sep ts' es :
    derives_unary n ts e → sep = [] ∨ sep = [TAnd] → derives_and n ts' es →
    derives_and n (ts ++ sep ++ ts') (e :: es)
with derives_or : nat → list Token → list QueryExpression → Prop :=
| derives_or_one n ts es : derives_and n ts es → derives_or n ts [group QAnd es]
| derives_or_more n ts es ts' values :
    derives_and n ts es → derives_or n ts' values →
    derives_or n (ts ++ TOr :: ts') (group QAnd es :: values).

(** A whole query. *)
Definition derives (ts : list Token) (e : QueryExpression) : Prop :=
  ∃ values, derives_or 0 ts values ∧ e = group QOr values.

End grammar.

Scheme derives_unary_mut := Induction for derives_unary Sort Prop
  with derives_and_mut := Induction for derives_and Sort Prop
  with derives_or_mut := Induction for derives_or Sort Prop.
Combined Scheme derives_mutind from derives_unary_mut, derives_and_mut, derives_or_mut.

(** The sizes of an expression. *)
Definition query_predicates (e : QueryExpression) : Z := len (collect_predicates e).
Fixpoint query_nodes (e : QueryExpression) : Z :=
  1 + match e with
      | QPredicate _ => 0
      | QNot value => query_nodes value
      | QAnd values | QOr values => sum_map query_nodes values
      end.
Fixpoint query_alternatives (e : QueryExpression) : Z :=
  match e with
  | QPredicate _ => 0
  | QNot value => query_alternatives value
  | QAnd values => sum_map query_alternatives values
  | QOr values => len values + sum_map query_alternatives values
  end.
Definition within_limits (e : QueryExpression) : Prop :=
  query_predicates e ≤ MAX_QUERY_PREDICATES ∧ query_nodes e ≤ MAX_QUERY_NODES
  ∧ query_alternatives e ≤ MAX_QUERY_OR_ALTERNATIVES.

(** ** Lemmas: counters *)

Section expression_ind.
Context (P : QueryExpression → Prop)
  (HP : ∀ p, P (QPredicate p)) (HN : ∀ e, P e → P (QNot e))
  (HA : ∀ es, Forall P es → P (QAnd es)) (HO : ∀ es, Forall P es → P (QOr es)).
(** Induction with the elements of the lists. *)
Fixpoint query_expression_ind (e : QueryExpression) : P e :=
  let all := fix all (es : list QueryExpression) : Forall P es :=
    match es with
    | [] => List.Forall_nil P
    | e :: es => List.Forall_cons P e es (query_expression_ind e) (all es)
    end in
  match e with
  | QPredicate p => HP p
  | QNot e => HN e (query_expression_ind e)
  | QAnd es => HA es (all es)
  | QOr es => HO es (all es)
  end.
End expression_ind.

Lemma sum_map_Forall_nonneg {A} (f : A → Z) l : Forall (λ x, 0 ≤ f x) l → 0 ≤ sum_map f l.
Proof. unfold sum_map. induction 1; cbn [foldr]; lia. Qed.

Lemma len_concat_map {A B} (f : A → list B) l :
  len (concat (map f l)) = sum_map (λ x, len (f x)) l.
Proof.
  unfold sum_map. induction l as [|x l IH]; [done|].
  cbn [map concat foldr]. rewrite len_app. lia.
Qed.

Lemma query_alternatives_nonneg e : 0 ≤ query_alternatives e.
Proof.
  induction e as [p|e IH|es IH|es IH] using query_expression_ind;
    cbn [query_alternatives]; try lia; try apply sum_map_Forall_nonneg in IH; try done.
  pose proof (len_nonneg es). lia.
Qed.

(** The counters go from [p] to [p'] by the expressions [es], with [rest] left
    to read. *)
Definition charged (p : Parser) (es : list QueryExpression) (rest : list Token) (p' : Parser)
    : Prop :=
  ps_tokens p' = rest
  ∧ ps_predicates p' = ps_predicates p + sum_map query_predicates es
  ∧ ps_nodes p' = ps_nodes p + sum_map query_nodes es
  ∧ ps_or_alternatives p' = ps_or_alternatives p + sum_map query_alternatives es.
(** There is room for them. *)
Definition room (p : Parser) (es : list QueryExpression) : Prop :=
  ps_predicates p + sum_map query_predicates es ≤ MAX_QUERY_PREDICATES
  ∧ ps_nodes p + sum_map query_nodes es ≤ MAX_QUERY_NODES
  ∧ ps_or_alternatives p + sum_map query_alternatives es ≤ MAX_QUERY_OR_ALTERNATIVES.


Lemma query_predicates_group c es :
  c = QAnd ∨ c = QOr → query_predicates (c es) = sum_map query_predicates es.
Proof. intros [->| ->]; apply len_concat_map. Qed.
Lemma query_predicates_QPredicate p : query_predicates (QPredicate p) = 1.
Proof. done. Qed.
Lemma query_predicates_QNot e : query_predicates (QNot e) = query_predicates e.
Proof. done. Qed.

Lemma sum_map_nonneg_all f (l : list QueryExpression) : (∀ e, 0 ≤ f e) → 0 ≤ sum_map f l.
Proof. intros H. apply sum_map_Forall_nonneg, Forall_true. auto. Qed.
Lemma query_predicates_nonneg e : 0 ≤ query_predicates e.
Proof. apply len_nonneg. Qed.
Lemma query_nodes_pos e : 1 ≤ query_nodes e.
Proof.
  induction e as [p|e IH|es IH|es IH] using query_expression_ind; cbn [query_nodes]; try lia;
    apply (Forall_impl _ (λ e, 0 ≤ query_nodes e)) in IH; try lia;
    apply sum_map_Forall_nonneg in IH; lia.
Qed.

Lemma room_prefix p es es' : room p (es ++ es') → room p es.
Proof.
  unfold room. autorewrite with rust.
  pose proof (sum_map_nonneg_all query_predicates es' query_predicates_nonneg).
  pose proof (sum_map_nonneg_all query_alternatives es' query_alternatives_nonneg).
  assert (0 ≤ sum_map query_nodes es').
  { apply sum_map_nonneg_all. intros e. pose proof (query_nodes_pos e). lia. }
  lia.
Qed.

(** *** The operations that count *)

Lemma node_Ok p v e p' :
  node p v = Ok (e, p') ↔
  e = v ∧ ps_nodes p + 1 ≤ MAX_QUERY_NODES
  ∧ p' = {| ps_tokens := ps_tokens p; ps_predicates := ps_predicates p;
            ps_nodes := ps_nodes p + 1; ps_or_alternatives := ps_or_alternatives p |}.
Proof.
  unfold node. cbn. destruct (Z.ltb_spec MAX_QUERY_NODES (ps_nodes p + 1)).
  - split; [done|lia].
  - split; [by intros [= <- <-]|by intros (-> & _ & ->)].
Qed.

Lemma predicate_Ok p v e p' :
  predicate p v = Ok (e, p') ↔
  e = QPredicate v ∧ ps_predicates p + 1 ≤ MAX_QUERY_PREDICATES
  ∧ ps_nodes p + 1 ≤ MAX_QUERY_NODES
  ∧ p' = {| ps_tokens := ps_tokens p; ps_predicates := ps_predicates p + 1;
            ps_nodes := ps_nodes p + 1; ps_or_alternatives := ps_or_alternatives p |}.
Proof.
  unfold predicate. cbn. destruct (Z.ltb_spec MAX_QUERY_PREDICATES (ps_predicates p + 1)).
  - split; [done|lia].
  - rewrite node_Ok. cbn. split; [intros (-> & ? & ->)|intros (-> & ? & ? & ->)]; auto.
Qed.

Lemma alternatives_Ok p values e p' :
  0 ≤ ps_or_alternatives p →
  alternatives p values = Ok (e, p') ↔
  e = QOr values ∧ ps_nodes p + 1 ≤ MAX_QUERY_NODES
  ∧ ps_or_alternatives p + len values ≤ MAX_QUERY_OR_ALTERNATIVES
  ∧ p' = {| ps_tokens := ps_tokens p; ps_predicates := ps_predicates p;
            ps_nodes := ps_nodes p + 1;
            ps_or_alternatives := ps_or_alternatives p + len values |}.
Proof.
  intros Hp. pose proof (len_nonneg values).
  unfold alternatives, sat_u64, saturate, MAX_QUERY_OR_ALTERNATIVES. cbn.
  destruct (Z.ltb_spec 64 (Z.max 0 (Z.min U64_MAX (ps_or_alternatives p + len values)))) as [Hs|Hs].
  - split; [done|]. intros (_ & _ & ? & _). unfold U64_MAX in Hs. lia.
  - rewrite node_Ok. cbn.
    replace (Z.max 0 (Z.min U64_MAX (ps_or_alternatives p + len values)))
      with (ps_or_alternatives p + len values) by (unfold U64_MAX in *; lia).
    assert (ps_or_alternatives p + len values ≤ 64) by (unfold U64_MAX in Hs; lia).
    split; [intros (-> & ? & ->)|intros (-> & ? & ? & ->)]; auto.
Qed.

(** The alternatives counted so far are within the limit. *)
Definition alternatives_ok (p : Parser) : Prop :=
  0 ≤ ps_or_alternatives p ≤ MAX_QUERY_OR_ALTERNATIVES.
Ltac counters :=
  unfold charged, room, alternatives_ok in *; cbn [ps_tokens ps_predicates ps_nodes ps_or_alternatives query_nodes
    query_alternatives advance] in *;
  autorewrite with rust in *; cbn [query_nodes query_alternatives] in *;
  rewrite ?query_predicates_QPredicate, ?query_predicates_QNot in *;
  rewrite ?(query_predicates_group QAnd), ?(query_predicates_group QOr) in * by auto;
  autorewrite with rust in *; cbn [query_nodes query_alternatives] in *;
  rewrite ?query_predicates_QPredicate in *.

Lemma charged_alternatives p es rest p' :
  charged p es rest p' → room p es → alternatives_ok p → alternatives_ok p'.
Proof.
  unfold alternatives_ok. intros (_ & _ & _ & ->) (_ & _ & ?) ?.
  pose proof (sum_map_nonneg_all query_alternatives es query_alternatives_nonneg). lia.
Qed.

Lemma default_expression_Ok source p value e p' :
  alternatives_ok p → default_expression source p value = Ok (e, p') →
  bare_meaning source value = Some e ∧ charged p [e] (ps_tokens p) p' ∧ room p [e].
Proof.
  intros [Hp Hp2]. destruct source; cbn [default_expression bare_meaning];
    try (intros (-> & ? & ? & ->)%predicate_Ok; counters; split_and!; (done || lia)); [done|].
  intros ([x p1] & Hx & Hy)%bind_Ok. apply predicate_Ok in Hx as (-> & ? & ? & ->).
  apply bind_Ok in Hy as ([y p2] & Hy & Ho). apply predicate_Ok in Hy as (-> & ? & ? & ->).
  apply alternatives_Ok in Ho as (-> & ? & ? & ->); [|done]. counters. split_and!; (done || lia).
Qed.

Lemma default_expression_total source p value e :
  alternatives_ok p → bare_meaning source value = Some e → room p [e] →
  ∃ p', default_expression source p value = Ok (e, p').
Proof.
  intros [Hp Hp2]. destruct source; cbn [default_expression bare_meaning]; intros [= <-] Hr;
    try (eexists; apply predicate_Ok; counters; split_and!; (done || lia)).
  eexists. apply bind_Ok. eexists (_, _). split; [apply predicate_Ok; counters; split_and!; (done || lia)|].
  apply bind_Ok. eexists (_, _). split; [apply predicate_Ok; counters; split_and!; (done || lia)|].
  apply alternatives_Ok; counters; [done|]. split_and!; (done || lia).
Qed.

(** *** Soundness *)

Lemma then_Ok a f e p' :
  then_ a f = Some (Ok (e, p')) ↔ ∃ v p, a = Some (Ok (v, p)) ∧ f v p = Some (Ok (e, p')).
Proof. destruct a as [[[v p]|]|]; cbn; split; naive_solver. Qed.
Lemma then_None a f :
  then_ a f = None ↔ a = None ∨ ∃ v p, a = Some (Ok (v, p)) ∧ f v p = None.
Proof. destruct a as [[[v p]|]|]; cbn; split; naive_solver. Qed.

Lemma charged_trans p es rest p' es' rest' p'' :
  charged p es rest p' → charged p' es' rest' p'' → charged p (es ++ es') rest' p''.
Proof. counters. intros (? & ? & ? & ?) (? & ? & ? & ?). split_and!; (done || lia). Qed.
Lemma room_trans p es rest p' es' :
  charged p es rest p' → room p' es' → room p (es ++ es').
Proof. counters. lia. Qed.
Lemma charged_advance p es rest p' : charged (advance p) es rest p' → charged p es rest p'.
Proof. done. Qed.

Lemma room_limits p es p' rest :
  charged p es rest p' → room p es →
  ps_predicates p' ≤ MAX_QUERY_PREDICATES ∧ ps_nodes p' ≤ MAX_QUERY_NODES.
Proof. intros (_ & -> & -> & _) (? & ? & _). done. Qed.

Section soundness.
Context (rfc : str → option Z) (source : QuerySource).

Definition sound (n : nat) (unary : Parser → option (result QueryError (QueryExpression * Parser)))
    : Prop :=
  ∀ p e p', alternatives_ok p → ps_predicates p ≤ MAX_QUERY_PREDICATES →
  ps_nodes p ≤ MAX_QUERY_NODES → unary p = Some (Ok (e, p')) →
  ∃ ts rest, ps_tokens p = ts ++ rest ∧ derives_unary rfc source n ts e
    ∧ charged p [e] rest p' ∧ room p [e].

(** The loop after [values]: nothing more, or the rest of a conjunction. *)
Definition and_tail (n : nat) (values : list QueryExpression) (ts : list Token)
    (es : list QueryExpression) : Prop :=
  (values ≠ [] ∧ ts = [] ∧ es = [])
  ∨ ∃ sep ts', ts = sep ++ ts' ∧ (sep = [] ∨ sep = [TAnd] ∧ values ≠ [])
      ∧ derives_and rfc source n ts' es.

Lemma finish_and_Ok p0 values p e p' :
  charged p0 values (ps_tokens p) p → room p0 values →
  and_finish values p = Some (Ok (e, p')) →
  values ≠ [] ∧ e = group QAnd values ∧ charged p0 [e] (ps_tokens p) p' ∧ room p0 [e].
Proof.
  unfold and_finish. intros Hc Hr. destruct values as [|v [|w vs]]; [done| |].
  - by intros [= <- <-].
  - intros [= (-> & ? & ->)%node_Ok]. cbn [group].
    counters. split_and!; (done || lia).
Qed.

Lemma and_loop_sound n unary : sound n unary → ∀ fuel p0 values p e p',
  alternatives_ok p0 →
  charged p0 values (ps_tokens p) p → room p0 values →
  and_loop unary fuel values p = Some (Ok (e, p')) →
  ∃ ts es rest, ps_tokens p = ts ++ rest ∧ and_tail n values ts es
    ∧ e = group QAnd (values ++ es) ∧ charged p0 [e] rest p' ∧ room p0 [e].
Proof.
  intros Hs fuel. induction fuel as [|fuel IH]; intros p0 values p e p' H0 Hc Hr H.
  all: assert (Hfin : and_finish values p = Some (Ok (e, p')) →
    ∃ ts es rest, ps_tokens p = ts ++ rest ∧ and_tail n values ts es
      ∧ e = group QAnd (values ++ es) ∧ charged p0 [e] rest p' ∧ room p0 [e])
    by (intros (? & -> & ? & ?)%(finish_and_Ok p0); [|done..]; exists [], [], (ps_tokens p);
        rewrite app_nil_r; split_and!; [done|by left|done..]).
  { cbn [and_loop] in H. destruct (ps_tokens p) as [|[] rest]; try by apply Hfin.
    all: inv_cases H. }
  assert (Hstep : ∀ q sep, (sep = [] ∨ sep = [TAnd] ∧ values ≠ []) →
    ps_tokens p = sep ++ ps_tokens q → charged p0 values (ps_tokens q) q →
    then_ (unary q) (λ value q, and_loop unary fuel (values ++ [value]) q) = Some (Ok (e, p')) →
    ∃ ts es rest, ps_tokens p = ts ++ rest ∧ and_tail n values ts es
      ∧ e = group QAnd (values ++ es) ∧ charged p0 [e] rest p' ∧ room p0 [e]).
  { intros q sep Hsep Hq Hcq (v & r & Hu & Hl)%then_Ok.
    apply Hs in Hu as (ts & rest & Hts & Hd & Hcv & Hrv);
      [|by eapply charged_alternatives|by eapply room_limits..].
    assert (rest = ps_tokens r) as -> by (symmetry; apply Hcv).
    apply (IH p0) in Hl as (ts' & es & rest' & Hts' & Ht & He & ? & ?);
      [|done|by eapply charged_trans|by eapply room_trans].
    rewrite <- app_assoc in He.
    exists (sep ++ ts ++ ts'), (v :: es), rest'. split_and!; [|right|done..].
    - rewrite Hq, Hts, Hts'. by rewrite <- !app_assoc.
    - exists sep, (ts ++ ts'). split_and!; [done..|].
      destruct Ht as [(_ & -> & ->)|(sep' & ts'' & -> & Hsep' & Hd')].
      + rewrite app_nil_r. by apply derives_and_one.
      + apply derives_and_more; [done| |done]. destruct Hsep' as [?|[? _]]; auto. }
  cbn [and_loop] in H.
  destruct (ps_tokens p) as [|[] rest] eqn:Ep; try by apply Hfin.
  1-2,4-5: (apply (Hstep p []); [by left|by rewrite Ep|by rewrite Ep|done]).
  destruct (is_empty values) eqn:Hv; [done|].
  apply (Hstep (advance p) [TAnd]).
  - right. split; [done|]. by destruct values.
  - by cbn; rewrite Ep.
  - destruct Hc as (_ & ?). split; [done|]. done.
  - destruct rest as [|[] rest']; try discriminate H; exact H.
Qed.

Lemma charged_refl p : charged p [] (ps_tokens p) p.
Proof. counters. split_and!; (done || lia). Qed.
Lemma room_refl p e : room p [e] → room p [].
Proof. intros H. apply (room_prefix p [] [e]), H. Qed.

Lemma parse_and_sound n unary p e p' :
  sound n unary → alternatives_ok p → ps_predicates p ≤ MAX_QUERY_PREDICATES →
  ps_nodes p ≤ MAX_QUERY_NODES → parse_and unary p = Some (Ok (e, p')) →
  ∃ ts es rest, ps_tokens p = ts ++ rest ∧ derives_and rfc source n ts es
    ∧ e = group QAnd es ∧ charged p [e] rest p' ∧ room p [e].
Proof.
  intros Hs H0 Hp Hn H.
  apply (and_loop_sound n unary Hs _ p) in H
    as (ts & es & rest & Hts & [(? & _)|(sep & ts' & -> & [->|[_ ?]] & Hd)] & He & ? & ?);
    [done| |done|done|apply charged_refl|].
  - exists ts', es, rest. done.
  - unfold room. autorewrite with rust. destruct H0. lia.
Qed.

(** The loop of [parse_or] after [values]. *)
Definition or_tail (n : nat) (ts : list Token) (es : list QueryExpression) : Prop :=
  ts = [] ∧ es = [] ∨ ∃ ts', ts = TOr :: ts' ∧ derives_or rfc source n ts' es.

Lemma or_loop_sound n unary : sound n unary → ∀ fuel p0 values p e p',
  alternatives_ok p0 → values ≠ [] →
  charged p0 values (ps_tokens p) p → room p0 values →
  or_loop unary fuel values p = Some (Ok (e, p')) →
  ∃ ts es rest, ps_tokens p = ts ++ rest ∧ or_tail n ts es
    ∧ e = group QOr (values ++ es) ∧ charged p0 [e] rest p' ∧ room p0 [e].
Proof.
  intros Hs fuel. induction fuel as [|fuel IH]; intros p0 values p e p' H0 Hv Hc Hr H;
    cbn [or_loop] in H.
  all: destruct (decide (head (ps_tokens p) = Some TOr)) as [Eh|Eh];
    [destruct (ps_tokens p) as [|t rest] eqn:Ep; [done|]; injection Eh as ->|].
  2,4: assert (Hf : or_finish values p = Some (Ok (e, p')))
      by (destruct (ps_tokens p) as [|[] ?]; (done || exact H));
    exists [], [], (ps_tokens p); rewrite app_nil_r;
    (enough (e = group QOr values ∧ charged p0 [e] (ps_tokens p) p' ∧ room p0 [e])
      by (split; [done|]; split; [by left|done]));
    destruct values as [|v [|w vs]]; [done|by injection Hf as <- <-|];
    pose proof (charged_alternatives _ _ _ _ Hc Hr H0) as [? ?];
    injection Hf as (-> & ? & ? & ->)%alternatives_Ok; [|done]; cbn [group]; counters;
    split_and!; (done || lia).
  { done. }
  apply then_Ok in H as (v & q & Ha & Hl).
  pose proof (charged_alternatives _ _ _ _ Hc Hr H0) as Hp.
  pose proof (room_limits _ _ _ _ Hc Hr) as [? ?].
  apply (parse_and_sound n) in Ha as (ts & es & rest1 & Hts & Hd & -> & Hcv & Hrv); [|done..].
  apply charged_advance in Hcv. assert (rest1 = ps_tokens q) as -> by (symmetry; apply Hcv).
  apply (IH p0) in Hl as (ts' & vs & rest' & Hts' & Ht & He & ? & ?);
    [|done|by destruct values|by eapply charged_trans|by eapply room_trans].
  rewrite <- app_assoc in He. cbn [advance ps_tokens] in Hts. rewrite Ep in Hts. cbn in Hts.
  exists (TOr :: ts ++ ts'), (group QAnd es :: vs), rest'. split_and!; [|right|done..].
  - rewrite Hts, Hts'. cbn. by rewrite app_assoc.
  - exists (ts ++ ts'). split; [done|].
    destruct Ht as [(-> & ->)|(ts'' & -> & Hd')].
    + rewrite app_nil_r. by apply derives_or_one.
    + by apply derives_or_more.
Qed.

Lemma parse_or_sound n unary p e p' :
  sound n unary → alternatives_ok p → ps_predicates p ≤ MAX_QUERY_PREDICATES →
  ps_nodes p ≤ MAX_QUERY_NODES → parse_or unary p = Some (Ok (e, p')) →
  ∃ ts es rest, ps_tokens p = ts ++ rest ∧ derives_or rfc source n ts es
    ∧ e = group QOr es ∧ charged p [e] rest p' ∧ room p [e].
Proof.
  intros Hs H0 Hp Hn (v & q & Ha & Hl)%then_Ok.
  apply (parse_and_sound n) in Ha as (ts & es & rest & Hts & Hd & -> & Hc & Hr); [|done..].
  assert (rest = ps_tokens q) as -> by (symmetry; apply Hc).
  apply (or_loop_sound n unary Hs _ p) in Hl
    as (ts' & vs & rest' & Hts' & [(-> & ->)|(ts'' & -> & Hd')] & He & ? & ?); [..|done|done|done|done].
  - exists ts, [group QAnd es], rest'. split_and!; [by rewrite Hts, Hts'| |done..].
    by apply derives_or_one.
  - exists (ts ++ TOr :: ts''), (group QAnd es :: vs), rest'.
    split_and!; [by rewrite Hts, Hts', <- app_assoc| |done..]. by apply derives_or_more.
Qed.

Lemma charged_not p e rest q :
  charged p [e] rest q → ∀ x p', node q (QNot e) = Ok (x, p') →
  x = QNot e ∧ charged p [QNot e] rest p' ∧ (room p [e] → room p [QNot e]).
Proof.
  intros Hc x p' (-> & ? & ->)%node_Ok. split; [done|].
  counters. destruct Hc as (? & ? & ? & ?).
  split; [split_and!|intros (? & ? & ?); split_and!]; (done || lia).
Qed.

Lemma parse_unary_sound depth : ∀ n, sound n (parse_unary rfc depth source n).
Proof.
  induction depth as [|depth IH]; intros n p e p' H0 Hp Hn H; [done|].
  cbn [parse_unary] in H.
  destruct (ps_tokens p) as [|[field value|value| | | | |] rest] eqn:Ep; try done.
  - injection H as (v & Hv & (-> & ? & ? & ->)%predicate_Ok)%bind_Ok.
    exists [TPredicate field value], rest. split; [done|]. split; [by apply derives_predicate|].
    counters. rewrite Ep. split_and!; (done || lia).
  - injection H as H. apply default_expression_Ok in H as (? & Hc & Hr); [|done].
    cbn [advance ps_tokens] in Hc. rewrite Ep in Hc.
    exists [TBare value], rest. split_and!; [done|by apply derives_bare|done..].
  - apply then_Ok in H as (v & q & Hu & Hq). injection Hq as Hq.
    apply IH in Hu as (ts & rest' & Hts & Hd & Hc & Hr); [|done..].
    cbn [advance ps_tokens] in Hts. rewrite Ep in Hts. cbn in Hts.
    destruct (charged_not (advance p) _ _ _ Hc _ _ Hq) as (-> & ? & Hr').
    exists (TBang :: ts), rest'. split_and!; [by rewrite Hts|by apply derives_not|done|by apply Hr'].
  - destruct (MAX_QUERY_NESTING <=? n)%nat eqn:En; [done|]. apply Nat.leb_gt in En.
    apply then_Ok in H as (v & q & Ho & Hq).
    apply (parse_or_sound (S n)) in Ho as (ts & es & rest' & Hts & Hd & -> & Hc & Hr); [|done..].
    cbn [advance ps_tokens] in Hts. rewrite Ep in Hts. cbn in Hts.
    destruct (ps_tokens q) as [|[] rest''] eqn:Eq; try done. injection Hq as <- <-.
    assert (rest' = TRight :: rest'') as -> by (rewrite <- Eq; symmetry; apply Hc).
    exists (TLeft :: ts ++ [TRight]), rest''. split_and!; [|by apply derives_group| |done].
    + rewrite Hts. cbn. by rewrite <- app_assoc.
    + destruct Hc as (_ & ?). split; [|done]. cbn. by rewrite Eq.
Qed.

End soundness.

(** *** Totality: the depth and the fuel are enough *)

Definition fits (p : Parser) : Prop :=
  alternatives_ok p ∧ ps_predicates p ≤ MAX_QUERY_PREDICATES ∧ ps_nodes p ≤ MAX_QUERY_NODES.
Lemma fits_next p es rest p' : charged p es rest p' → room p es → fits p → fits p'.
Proof.
  intros Hc Hr [Ha _]. split; [by eapply charged_alternatives|by eapply room_limits].
Qed.
Lemma fits_new tokens : fits (parser_new tokens).
Proof. split; [split|split]; done. Qed.

Section complete.
Context (rfc : str → option Z) (source : QuerySource).

(** What an operand starts with. *)
Definition starter (t : Token) : Prop := t ≠ TAnd ∧ t ≠ TOr ∧ t ≠ TRight.
Definition starts (ts : list Token) : Prop := ∃ t ts', ts = t :: ts' ∧ starter t.
Lemma derives_starts :
  (∀ n ts e, derives_unary rfc source n ts e → starts ts)
  ∧ (∀ n ts es, derives_and rfc source n ts es → starts ts ∧ es ≠ [])
  ∧ (∀ n ts es, derives_or rfc source n ts es → starts ts ∧ es ≠ []).
Proof.
  apply derives_mutind; try (intros; eexists _, _; by split_and!); try (by intros; split_and!).
  - intros n ts e sep ts' es _ (t & ts1 & -> & ?) _ _ _. split; [|done]. eexists _, _. done.
  - by intros n ts es _ [? _].
  - intros n ts es ts' vs _ [(t & ts1 & -> & ?) _] _ _. split; [|done]. eexists _, _. done.
Qed.

Lemma sound_progress n unary p e p' :
  sound rfc source n unary → fits p → unary p = Some (Ok (e, p')) →
  (length (ps_tokens p') < length (ps_tokens p))%nat ∧ fits p'.
Proof.
  intros Hs Hf Hu. destruct Hf as (Ha & Hp & Hn).
  destruct (Hs p e p' Ha Hp Hn Hu) as (ts & rest & Hts & Hd & Hc & Hr).
  split; [|by eapply fits_next].
  destruct (proj1 derives_starts _ _ _ Hd) as (t & ts' & -> & _).
  destruct Hc as (-> & _). rewrite Hts. cbn. rewrite length_app. lia.
Qed.

Definition total (k : nat) (unary : Parser → option (result QueryError (QueryExpression * Parser)))
    : Prop :=
  ∀ p, fits p → (length (ps_tokens p) ≤ k)%nat → unary p ≠ None.

Lemma and_loop_total n k unary :
  sound rfc source n unary → total k unary → ∀ fuel values p,
  fits p → (length (ps_tokens p) ≤ fuel)%nat → (length (ps_tokens p) ≤ k)%nat →
  and_loop unary fuel values p ≠ None.
Proof.
  intros Hs Ht fuel. induction fuel as [|fuel IH]; intros values p Hf Hl Hk.
  { cbn [and_loop]. destruct (ps_tokens p); [|cbn in Hl; lia]. by destruct values as [|? []]. }
  assert (Hstep : ∀ q, fits q → (length (ps_tokens q) ≤ length (ps_tokens p))%nat →
    then_ (unary q) (λ value q, and_loop unary fuel (values ++ [value]) q) ≠ None).
  { intros q Hq Hql [Hn|(v & r & Hu & Hn)]%then_None.
    - apply (Ht q) in Hn; [done|done|lia].
    - apply (sound_progress n) in Hu as [? ?]; [|done..]. revert Hn. apply IH; [done|lia|lia]. }
  cbn [and_loop]. destruct (ps_tokens p) as [|[] rest] eqn:Ep;
    try (by destruct values as [|? []]); try (apply Hstep; [done|by rewrite Ep]).
  destruct (is_empty values); [done|].
  assert (then_ (unary (advance p)) (λ value q, and_loop unary fuel (values ++ [value]) q) ≠ None)
    by (apply Hstep; [exact Hf|cbn; rewrite Ep; cbn; lia]).
  by destruct rest as [|[] ?].
Qed.

Lemma parse_and_progress n unary p e p' :
  sound rfc source n unary → fits p → parse_and unary p = Some (Ok (e, p')) →
  (length (ps_tokens p') < length (ps_tokens p))%nat ∧ fits p'.
Proof.
  intros Hs Hf Hu. destruct Hf as (Ha & Hp & Hn).
  destruct (parse_and_sound rfc source n unary p e p' Hs Ha Hp Hn Hu)
    as (ts & es & rest & Hts & Hd & _ & Hc & Hr).
  split; [|by eapply fits_next].
  destruct (proj1 (proj1 (proj2 derives_starts) _ _ _ Hd)) as (t & ts' & -> & _).
  destruct Hc as (-> & _). rewrite Hts. cbn. rewrite length_app. lia.
Qed.

Lemma or_loop_total n k unary :
  sound rfc source n unary → total k unary → ∀ fuel values p,
  fits p → (length (ps_tokens p) ≤ fuel)%nat → (length (ps_tokens p) ≤ k)%nat →
  or_loop unary fuel values p ≠ None.
Proof.
  intros Hs Ht fuel. induction fuel as [|fuel IH]; intros values p Hf Hl Hk; cbn [or_loop].
  { destruct (ps_tokens p); [|cbn in Hl; lia]. by destruct values as [|? []]. }
  destruct (ps_tokens p) as [|[] rest] eqn:Ep; try (by destruct values as [|? []]).
  cbn in Hl, Hk. intros [Hn|(v & r & Hu & Hn)]%then_None.
  - revert Hn. apply (and_loop_total n k); [done|done|exact Hf|done|cbn; rewrite Ep; cbn; lia].
  - apply (parse_and_progress n) in Hu as [Hlt ?]; [|done|exact Hf].
    cbn in Hlt. rewrite Ep in Hlt. cbn in Hlt. revert Hn. apply IH; [done|lia|lia].
Qed.

Lemma parse_or_total n k unary p :
  sound rfc source n unary → total k unary → fits p → (length (ps_tokens p) ≤ k)%nat →
  parse_or unary p ≠ None.
Proof.
  intros Hs Ht Hf Hk [Hn|(v & r & Hu & Hn)]%then_None.
  - revert Hn. by apply (and_loop_total n k).
  - apply (parse_and_progress n) in Hu as [Hlt ?]; [|done..]. revert Hn.
    apply (or_loop_total n k); [done|done|done|lia|lia].
Qed.

Lemma parse_unary_total depth : ∀ n k, (k < depth)%nat →
  total k (parse_unary rfc depth source n).
Proof.
  induction depth as [|depth IH]; intros n k Hd p Hf Hk; [lia|]. cbn [parse_unary].
  destruct (ps_tokens p) as [|[] rest] eqn:Ep; try done; cbn in Hk.
  - intros [Hn|(v & r & _ & Hn)]%then_None; [|done].
    revert Hn. apply (IH _ (k - 1)%nat); [lia|exact Hf|cbn; rewrite Ep; cbn; lia].
  - destruct (MAX_QUERY_NESTING <=? n)%nat; [done|].
    intros [Hn|(v & r & _ & Hn)]%then_None.
    + revert Hn. apply (parse_or_total (S n) (k - 1));
        [apply parse_unary_sound|apply IH; lia|exact Hf|cbn; rewrite Ep; cbn; lia].
    + by destruct (ps_tokens r) as [|[] ?].
Qed.

(** *** Completeness *)

(** Where a conjunction and a disjunction end. *)
Definition stop_or (rest : list Token) : Prop :=
  rest = [] ∨ ∃ rest', rest = TRight :: rest'.
Definition stop_and (rest : list Token) : Prop :=
  stop_or rest ∨ ∃ rest', rest = TOr :: rest'.

Lemma room_group p es c : c = QAnd ∨ c = QOr → room p [group c es] → room p es.
Proof.
  intros Hc. destruct es as [|e [|e' es]]; [| done |].
  - intros H. apply (room_prefix p [] [group c []]), H.
  - destruct Hc as [->| ->]; cbn [group]; counters;
      pose proof (len_nonneg es); lia.
Qed.

Lemma and_finish_total p es rest q :
  charged p es rest q → es ≠ [] → room p [group QAnd es] →
  ∃ p', and_finish es q = Some (Ok (group QAnd es, p')) ∧ charged p [group QAnd es] rest p'.
Proof.
  intros Hc Hes Hr. destruct es as [|e [|e' es]]; [done|by exists q|].
  cbn [group and_finish] in *. eexists. split.
  - f_equal. apply node_Ok. split_and!; [done| |reflexivity]. counters. lia.
  - counters. destruct Hc as (? & ? & ? & ?). split_and!; (done || lia).
Qed.

Lemma or_finish_total p es rest q :
  fits p → charged p es rest q → es ≠ [] → room p [group QOr es] →
  ∃ p', or_finish es q = Some (Ok (group QOr es, p')) ∧ charged p [group QOr es] rest p'.
Proof.
  intros Hf Hc Hes Hr. destruct es as [|e [|e' es]]; [done|by exists q|].
  assert (Hq : alternatives_ok q).
  { eapply charged_alternatives; [done| |apply Hf]. by apply (room_group _ _ QOr); [right|]. }
  cbn [group or_finish] in *. eexists. split.
  - f_equal. apply alternatives_Ok; [apply Hq|]. split_and!; [done| | |reflexivity]; counters;
      pose proof (len_nonneg es); lia.
  - counters. destruct Hc as (? & ? & ? & ?). split_and!; (done || lia).
Qed.

(** What the completeness of the three levels says. *)
Definition unary_complete n ts e : Prop := ∀ depth p rest,
  (length ts ≤ depth)%nat → fits p → ps_tokens p = ts ++ rest → room p [e] →
  ∃ p', parse_unary rfc depth source n p = Some (Ok (e, p')) ∧ charged p [e] rest p'.
Definition and_complete n ts es : Prop := ∀ depth fuel sep values p rest,
  (length ts ≤ depth)%nat → (length (sep ++ ts) ≤ fuel)%nat →
  (sep = [] ∨ sep = [TAnd] ∧ values ≠ []) → ps_tokens p = sep ++ ts ++ rest → stop_and rest →
  fits p → room p es →
  ∃ p', and_loop (parse_unary rfc depth source n) fuel values p = and_finish (values ++ es) p'
    ∧ charged p es rest p'.
Definition or_complete n ts values : Prop := ∀ depth p rest,
  (length ts ≤ depth)%nat → ps_tokens p = ts ++ rest → stop_or rest → fits p →
  room p values →
  ∃ v vs p1 p', values = v :: vs
    ∧ parse_and (parse_unary rfc depth source n) p = Some (Ok (v, p1))
    ∧ charged p values rest p'
    ∧ ∀ fuel before, (length (ps_tokens p1) ≤ fuel)%nat →
        or_loop (parse_unary rfc depth source n) fuel before p1 = or_finish (before ++ vs) p'.

(** One iteration of the loop of [parse_and] in front of an operand. *)
Lemma and_loop_step unary fuel sep values p ts :
  starts ts → (sep = [] ∨ sep = [TAnd] ∧ values ≠ []) →
  ps_tokens p = sep ++ ts →
  ∃ q, ps_tokens q = ts ∧ charged p [] ts q
    ∧ and_loop unary (S fuel) values p
      = then_ (unary q) (λ value q, and_loop unary fuel (values ++ [value]) q).
Proof.
  intros (t & ts' & -> & Ht) Hsep Hp. destruct Hsep as [->|[-> Hv]].
  - exists p. split; [done|]. cbn [app] in Hp. split; [rewrite <- Hp; apply charged_refl|].
    cbn [and_loop]. rewrite Hp. cbn [app]. destruct Ht as (? & ? & ?). by destruct t.
  - exists (advance p). split; [by cbn; rewrite Hp|].
    split; [split; [by cbn; rewrite Hp|apply (charged_refl p)]|].
    cbn [and_loop]. rewrite Hp. cbn [app].
    assert (is_empty values = false) as -> by (by destruct values).
    destruct Ht as (? & ? & ?). by destruct t.
Qed.

Lemma and_loop_stop unary fuel values p :
  stop_and (ps_tokens p) → and_loop unary fuel values p = and_finish values p.
Proof.
  intros [[Hp|[r Hp]]|[r Hp]]; destruct fuel; cbn [and_loop]; by rewrite Hp.
Qed.
Lemma or_loop_stop unary fuel values p :
  stop_or (ps_tokens p) → or_loop unary fuel values p = or_finish values p.
Proof. intros [Hp|[r Hp]]; destruct fuel; cbn [or_loop]; by rewrite Hp. Qed.

Lemma fits_charged_nil p q rest : charged p [] rest q → fits p → fits q.
Proof.
  intros Hc Hf. eapply fits_next; [done| |done]. destruct Hf as (? & ? & ?). counters. lia.
Qed.
Lemma room_after p es es' rest q : charged p es rest q → room p (es ++ es') → room q es'.
Proof. counters. lia. Qed.

Lemma and_more_complete n ts e sep ts' es :
  derives_unary rfc source n ts e → unary_complete n ts e →
  sep = [] ∨ sep = [TAnd] → derives_and rfc source n ts' es → and_complete n ts' es →
  and_complete n (ts ++ sep ++ ts') (e :: es).
Proof.
  intros Hd Hu Hsep _ Ha depth fuel sep0 values p rest Hdep Hfuel Hsep0 Hp Hstop Hf Hr.
  rewrite !length_app in *. destruct (proj1 derives_starts _ _ _ Hd) as (t & ts1 & Hts & Ht).
  assert (length ts = S (length ts1)) as Hlen by (by rewrite Hts).
  destruct fuel as [|fuel]; [lia|].
  destruct (and_loop_step (parse_unary rfc depth source n) fuel sep0 values p
              ((ts ++ sep ++ ts') ++ rest)) as (q & Hq & Hcq & ->); [|done|done|].
  { exists t, (ts1 ++ sep ++ ts' ++ rest). rewrite Hts. cbn. by rewrite <- !app_assoc. }
  assert (fits q) as Hfq by (by eapply fits_charged_nil).
  assert (room q (e :: es)) as Hrq by (by eapply (room_after p [])).
  destruct (Hu depth q (sep ++ ts' ++ rest)) as (q' & -> & Hc); [lia|done| | |].
  { by rewrite Hq, <- !app_assoc. }
  { apply (room_prefix q [e] es), Hrq. }
  cbn [then_].
  destruct (Ha depth fuel sep (values ++ [e]) q' rest) as (p' & -> & Hc'); [lia| | | |done| | |].
  { rewrite length_app. lia. }
  { destruct Hsep as [->| ->]; [by left|right; split; [done|by destruct values]]. }
  { apply Hc. }
  { eapply fits_next; [done| |done]. apply (room_prefix q [e] es), Hrq. }
  { apply (room_after q [e] es _ _ Hc), Hrq. }
  exists p'. split; [by rewrite <- app_assoc|].
  apply (charged_trans p [] _ q (e :: es) rest p' Hcq).
  by apply (charged_trans q [e] _ q' es _ _ Hc).
Qed.

Lemma and_one_complete n ts e :
  derives_unary rfc source n ts e → unary_complete n ts e → and_complete n ts [e].
Proof.
  intros Hd Hu depth fuel sep0 values p rest Hdep Hfuel Hsep0 Hp Hstop Hf Hr.
  rewrite length_app in Hfuel. destruct (proj1 derives_starts _ _ _ Hd) as (t & ts1 & Hts & Ht).
  assert (length ts = S (length ts1)) as Hlen by (by rewrite Hts).
  destruct fuel as [|fuel]; [lia|].
  destruct (and_loop_step (parse_unary rfc depth source n) fuel sep0 values p (ts ++ rest))
    as (q & Hq & Hcq & ->); [|done|done|].
  { exists t, (ts1 ++ rest). by rewrite Hts. }
  destruct (Hu depth q rest) as (q' & -> & Hc);
    [lia|by eapply fits_charged_nil|done|by eapply (room_after p [])|].
  cbn [then_]. exists q'. split.
  - apply and_loop_stop. by destruct Hc as (-> & _).
  - by apply (charged_trans p [] _ q [e] rest q' Hcq).
Qed.

Lemma parse_and_complete n ts es depth p rest :
  derives_and rfc source n ts es → and_complete n ts es → (length ts ≤ depth)%nat →
  ps_tokens p = ts ++ rest → stop_and rest → fits p → room p [group QAnd es] →
  ∃ p', parse_and (parse_unary rfc depth source n) p = Some (Ok (group QAnd es, p'))
    ∧ charged p [group QAnd es] rest p'.
Proof.
  intros Hd Ha Hdep Hp Hstop Hf Hr.
  destruct (Ha depth (length (ps_tokens p)) [] [] p rest) as (q & Hl & Hc);
    [done|cbn; rewrite Hp, length_app; lia|by left|done|done|done|by apply (room_group _ _ QAnd); [left|]|].
  unfold parse_and. rewrite Hl. cbn [app].
  apply and_finish_total; [done| |done]. by destruct (proj1 (proj2 derives_starts) _ _ _ Hd).
Qed.

Lemma or_one_complete n ts es :
  derives_and rfc source n ts es → and_complete n ts es → or_complete n ts [group QAnd es].
Proof.
  intros Hd Ha depth p rest Hdep Hp Hstop Hf Hr.
  destruct (parse_and_complete n ts es depth p rest) as (p' & Hpa & Hc);
    [done..|by left|done|done|].
  exists (group QAnd es), [], p', p'. split_and!; [done|done| |].
  - exact Hc.
  - intros fuel before _. rewrite app_nil_r. apply or_loop_stop. by destruct Hc as (-> & _).
Qed.

Lemma or_more_complete n ts es ts' values :
  derives_and rfc source n ts es → and_complete n ts es →
  derives_or rfc source n ts' values → or_complete n ts' values →
  or_complete n (ts ++ TOr :: ts') (group QAnd es :: values).
Proof.
  intros Hd Ha _ Ho depth p rest Hdep Hp Hstop Hf Hr.
  rewrite length_app in Hdep. cbn in Hdep.
  destruct (parse_and_complete n ts es depth p (TOr :: ts' ++ rest)) as (p1 & Hpa & Hc);
    [done|done|lia|by rewrite Hp, <- app_assoc|by right; eexists|done| |].
  { apply (room_prefix p [group QAnd es] values), Hr. }
  assert (fits p1) as Hf1.
  { eapply fits_next; [done| |done]. apply (room_prefix p [group QAnd es] values), Hr. }
  destruct (Ho depth (advance p1) rest) as (v & vs & p2 & p' & -> & Hpa2 & Hc2 & Hl);
    [lia| |done|exact Hf1|apply (room_after p [group QAnd es] _ _ _ Hc), Hr|].
  { cbn. by destruct Hc as (-> & _). }
  exists (group QAnd es), (v :: vs), p1, p'. split_and!; [done|done| |].
  - apply charged_advance in Hc2. by apply (charged_trans p [_] _ p1 _ _ _ Hc).
  - intros fuel before Hfuel. destruct (parse_and_progress n (parse_unary rfc depth source n)
      (advance p1) v p2) as [Hlt _]; [apply parse_unary_sound|exact Hf1|done|].
    cbn [advance ps_tokens] in Hlt. destruct Hc as (Ht & _). rewrite Ht in Hlt, Hfuel.
    cbn in Hlt, Hfuel. destruct fuel as [|fuel]; [lia|].
    cbn [or_loop]. rewrite Ht, Hpa2. cbn [then_]. rewrite Hl by lia. by rewrite <- app_assoc.
Qed.

Lemma parse_or_complete n ts values depth p rest :
  or_complete n ts values → (length ts ≤ depth)%nat → ps_tokens p = ts ++ rest →
  stop_or rest → fits p → room p [group QOr values] →
  ∃ p', parse_or (parse_unary rfc depth source n) p = Some (Ok (group QOr values, p'))
    ∧ charged p [group QOr values] rest p'.
Proof.
  intros Ho Hdep Hp Hstop Hf Hr.
  destruct (Ho depth p rest) as (v & vs & p1 & p' & -> & Hpa & Hc & Hl);
    [done..|by apply (room_group _ _ QOr); [right|]|].
  unfold parse_or. rewrite Hpa. cbn [then_]. rewrite Hl by done. by apply or_finish_total.
Qed.

Lemma grammar_complete :
  (∀ n ts e, derives_unary rfc source n ts e → unary_complete n ts e)
  ∧ (∀ n ts es, derives_and rfc source n ts es → and_complete n ts es)
  ∧ (∀ n ts es, derives_or rfc source n ts es → or_complete n ts es).
Proof.
  apply derives_mutind; [..|exact and_one_complete| |exact or_one_complete|exact or_more_complete].
  - intros n ts e _ Hu [|depth] p rest Hdep Hf Hp Hr; cbn in Hdep; [lia|].
    cbn [parse_unary]. rewrite Hp. cbn [app].
    destruct (Hu depth (advance p) rest) as (q & -> & Hc); [lia|exact Hf|by cbn; rewrite Hp| |].
    { counters. lia. }
    cbn [then_]. eexists. split.
    + f_equal. apply node_Ok. split_and!; [done| |reflexivity]. counters. lia.
    + counters. destruct Hc as (? & ? & ? & ?). split_and!; (done || lia).
  - intros n ts values Hn _ Ho [|depth] p rest Hdep Hf Hp Hr; cbn in Hdep; [lia|].
    rewrite length_app in Hdep. cbn in Hdep. cbn [parse_unary]. rewrite Hp. cbn [app].
    rewrite (proj2 (Nat.leb_gt _ _) Hn).
    destruct (parse_or_complete (S n) ts values depth (advance p) (TRight :: rest))
      as (q & -> & Hc); [done|lia|by cbn; rewrite Hp; cbn; rewrite <- app_assoc| |exact Hf|exact Hr|].
    { right. by eexists. }
    cbn [then_]. destruct Hc as (Ht & Hc). rewrite Ht. eexists. split; [done|].
    split; [by cbn; rewrite Ht|exact Hc].
  - intros n field value v Hv [|depth] p rest Hdep Hf Hp Hr; cbn in Hdep; [lia|].
    cbn [parse_unary]. rewrite Hp. cbn [app]. rewrite Hv. cbn [mbind result_bind].
    eexists. split.
    + f_equal. apply predicate_Ok. split_and!; [done|..|reflexivity]; counters; lia.
    + counters. rewrite Hp. split_and!; (done || lia).
  - intros n value e Hv [|depth] p rest Hdep Hf Hp Hr; cbn in Hdep; [lia|].
    cbn [parse_unary]. rewrite Hp. cbn [app].
    assert (alternatives_ok (advance p)) as Ha by apply Hf.
    destruct (default_expression_total source (advance p) value e Ha Hv Hr) as [p' He].
    exists p'. rewrite He. split; [done|].
    apply default_expression_Ok in He as (_ & Hc & _); [|done].
    cbn in Hc. rewrite Hp in Hc. exact Hc.
  - intros n ts e sep ts' es Hd Hu Hsep Hd' Ha. by apply and_more_complete.
Qed.

End complete.

(** *** The whole parser *)

Lemma parse_tokens_Ok rfc source ts e :
  parse_tokens rfc (S (length ts)) source ts = Some (Ok e) ↔
  derives rfc source ts e ∧ within_limits e.
Proof.
  unfold parse_tokens. pose proof (fits_new ts) as Hf. split.
  - destruct (parse_or _ _) as [[[v p]|]|] eqn:Hp; [|done|done].
    destruct (is_empty (ps_tokens p)) eqn:He; [|done]. intros [= ->].
    apply is_empty_true in He. destruct Hf as (Ha & Hpr & Hn).
    apply (parse_or_sound rfc source 0) in Hp as (ts' & es & rest & Hts & Hd & -> & Hc & Hr);
      [|apply parse_unary_sound|done..].
    destruct Hc as (Hrest & _). rewrite He in Hrest. subst rest. rewrite app_nil_r in Hts.
    cbn in Hts. subst ts'. split; [by exists es|].
    unfold room in Hr. autorewrite with rust in Hr. cbn in Hr. unfold within_limits. lia.
  - intros [(es & Hd & ->) Hl].
    pose proof (proj2 (proj2 (grammar_complete rfc source)) _ _ _ Hd) as Ho.
    destruct (parse_or_complete rfc source 0 ts es (S (length ts)) (parser_new ts) [])
      as (p' & -> & Hc); [done|lia|by rewrite app_nil_r|by left|done| |].
    { unfold room. autorewrite with rust. cbn. unfold within_limits in Hl. lia. }
    destruct Hc as (-> & _). done.
Qed.

Lemma parse_tokens_total rfc source ts : parse_tokens rfc (S (length ts)) source ts ≠ None.
Proof.
  unfold parse_tokens.
  pose proof (parse_or_total rfc source 0 (length ts) (parse_unary rfc (S (length ts)) source 0)
    (parser_new ts) (parse_unary_sound _ _ _ _)) as Ht.
  destruct (parse_or _ _) as [[[v p]|]|]; [done|done|]. exfalso.
  apply Ht; [|apply fits_new|done|done]. by apply parse_unary_total; lia.
Qed.

Lemma read_quoted_loop_length n : ∀ value input r rest, (length input ≤ n)%nat →
  read_quoted_loop value input = Ok (r, rest) → (length rest < length input)%nat.
Proof.
  induction n as [|n IH]; intros value [|b input] r rest Hn; cbn [length] in *; try done; [lia|].
  cbn [read_quoted_loop].
  destruct (b =? 34). { destruct (is_empty value); [done|]. intros [= _ <-]. lia. }
  assert (∀ v, read_quoted_loop v input = Ok (r, rest) → (length rest < S (length input))%nat)
    as Hplain by (intros v Hv; apply IH in Hv; lia).
  destruct (b =? 92); [|by destruct (is_ascii_control b); [|apply Hplain]].
  destruct input as [|next input]; [by destruct (is_ascii_control b)|].
  destruct ((next =? 92) || (next =? 34)).
  - intros Hr. apply IH in Hr; cbn in Hn |- *; lia.
  - destruct (is_ascii_control b); [done|apply Hplain].
Qed.

Lemma read_quoted_length input r rest :
  read_quoted input = Ok (r, rest) → (length rest < length input)%nat.
Proof.
  destruct input as [|b input]; [done|]. cbn [read_quoted]. destruct (b =? 34); [|done].
  intros H. eapply read_quoted_loop_length in H; [|done]. cbn. lia.
Qed.

Lemma read_token_length byte input t rest :
  head input = Some byte →
  read_token byte input = Ok (t, rest) → (length rest < length input)%nat.
Proof.
  destruct input as [|b input]; [done|]. intros [= ->]. unfold read_token. cbn [tail].
  repeat case_test; try (intros [= <- <-]; cbn; lia); try done.
  - intros ([r rest'] & Hr & [= _ <-])%bind_Ok. by apply read_quoted_length in Hr.
  - pose proof (span_app word_byte (byte :: input)) as Hs.
    destruct (span word_byte (byte :: input)) as [w rest']. cbn [fst snd] in Hs.
    destruct w as [|x w]; [done|]. cbn [is_empty non_empty negb].
    assert (length rest' < length (byte :: input))%nat as Hlen
      by (rewrite Hs, length_app; cbn; lia).
    repeat case_test; try (by intros [= _ <-]).
    intros ([v rest''] & Hv & [= _ <-])%bind_Ok. unfold read_value in Hv.
    assert (length (tail rest') ≤ length rest')%nat by (destruct rest'; cbn; lia).
    destruct (bool_decide (head (tail rest') = Some 34)).
    + apply read_quoted_length in Hv. lia.
    + pose proof (span_app value_byte (tail rest')) as Hs'.
      destruct (span value_byte (tail rest')) as [v' r']. cbn [fst snd] in Hs'.
      destruct (is_empty v'); [done|]. injection Hv as _ <-.
      apply (f_equal length) in Hs'. rewrite length_app in Hs'. lia.
Qed.

Lemma tokenize_loop_total fuel : ∀ output input, (length input ≤ fuel)%nat →
  tokenize_loop fuel output input ≠ None.
Proof.
  induction fuel as [|fuel IH]; intros output [|b input]; cbn [length tokenize_loop]; try done;
    [lia|]. intros Hl.
  destruct (is_ascii_whitespace b); [apply IH; lia|].
  destruct (read_token b (b :: input)) as [[t rest]|] eqn:Hr; [|done].
  apply read_token_length in Hr; [|done]. cbn in Hr. apply IH. lia.
Qed.
Lemma tokenize_total input : tokenize input ≠ None.
Proof. by apply tokenize_loop_total. Qed.

(** *** The normalized text determines the expression *)

Definition not_in (seps : list Z) (b : Z) : bool := negb (existsb (Z.eqb b) seps).
(** A name, a separator and a rest, from their concatenation. *)
Lemma named_inj seps n n' b b' s s' :
  forallb (not_in seps) (lit n) = true → forallb (not_in seps) (lit n') = true →
  not_in seps b = false → not_in seps b' = false →
  lit n ++ b :: s = lit n' ++ b' :: s' → n = n' ∧ b = b' ∧ s = s'.
Proof.
  rewrite !forallb_true. intros Hn Hn' Hb Hb' E.
  pose proof (f_equal (span (not_in seps)) E) as Es.
  rewrite !span_word in Es; try (intros x Hx; by auto); try (intros x l' [= <- _]; done).
  injection Es as E1 -> E2. split; [by apply lit_inj|done].
Qed.

Lemma escape_value_inj v : ∀ v' s s',
  concat (map escape_byte v) ++ 34 :: s = concat (map escape_byte v') ++ 34 :: s' →
  v = v' ∧ s = s'.
Proof.
  induction v as [|b v IH]; intros [|b' v'] s s'; cbn [map concat]; unfold escape_byte.
  - intros E. cbn in E. by simplify_eq.
  - destruct (Z.eqb_spec b' 34), (Z.eqb_spec b' 92); cbn; intros E; simplify_eq.
  - destruct (Z.eqb_spec b 34), (Z.eqb_spec b 92); cbn; intros E; simplify_eq.
  - destruct (Z.eqb_spec b 34), (Z.eqb_spec b 92), (Z.eqb_spec b' 34), (Z.eqb_spec b' 92);
      cbn; intros E; simplify_eq; try (apply IH in E as [-> ->]; done);
      match goal with H : _ ++ _ = _ ++ _ |- _ => apply IH in H as [-> ->] end; done.
Qed.
Lemma escaped_inj v v' s s' : escaped v ++ s = escaped v' ++ s' → v = v' ∧ s = s'.
Proof.
  unfold escaped. rewrite <- !app_assoc. cbn. intros E. injection E as E.
  by apply escape_value_inj.
Qed.

Lemma query_field_name_inj f f' : query_field_name f = query_field_name f' → f = f'.
Proof. by destruct f, f'. Qed.
Lemma operator_name_inj o o' : operator_name o = operator_name o' → o = o'.
Proof. by destruct o, o'. Qed.

Definition prefix_free (e : QueryExpression) : Prop :=
  ∀ e' s s', normalized e ++ s = normalized e' ++ s' → e = e' ∧ s = s'.

(** The word, the separator and the body of a normalized expression. *)
Definition head_word (e : QueryExpression) : string :=
  match e with
  | QPredicate p => query_field_name (qp_field p)
  | QNot _ => "not" | QAnd _ => "and" | QOr _ => "or"
  end.
Definition head_mark (e : QueryExpression) : Z :=
  match e with QPredicate _ => 58 | _ => 40 end.
Definition body (e : QueryExpression) : str :=
  match e with
  | QPredicate p =>
      lit (operator_name (qp_operator p)) ++ 58 :: escaped (qp_value p)
  | QNot value => normalized value ++ [41]
  | QAnd values | QOr values => join [44] (map normalized values) ++ [41]
  end.
Lemma normalized_head e : normalized e = lit (head_word e) ++ head_mark e :: body e.
Proof. destruct e; cbn [normalized head_word head_mark body]; reflexivity. Qed.
Lemma head_word_plain e : forallb (not_in [58; 40]) (lit (head_word e)) = true.
Proof. destruct e as [[[] ? ?]| | |]; vm_compute; reflexivity. Qed.
Lemma normalized_first e : ∃ b s, normalized e = b :: s ∧ b ≠ 41.
Proof.
  destruct e as [[[] ? ?]| | |]; cbn; eexists _, _; (split; [reflexivity|done]).
Qed.

Lemma head_inj e e' s s' :
  normalized e ++ s = normalized e' ++ s' →
  head_word e = head_word e' ∧ head_mark e = head_mark e' ∧ body e ++ s = body e' ++ s'.
Proof.
  rewrite !normalized_head, <- !app_assoc. cbn [app].
  apply (named_inj [58; 40]); try apply head_word_plain; destruct e, e'; done.
Qed.

Lemma joined_inj es : Forall prefix_free es → ∀ es' s s',
  join [44] (map normalized es) ++ 41 :: s = join [44] (map normalized es') ++ 41 :: s' →
  es = es' ∧ s = s'.
Proof.
  induction 1 as [|e es He _ IH]; intros [|e' es'] s s'; cbn [map].
  - cbn. intros E. by simplify_eq.
  - destruct (normalized_first e') as (b & w & Hb & Hn).
    destruct es'; cbn [map join]; rewrite Hb; cbn; intros E; simplify_eq.
  - destruct (normalized_first e) as (b & w & Hb & Hn).
    destruct es; cbn [map join]; rewrite Hb; cbn; intros E; simplify_eq.
  - destruct es as [|e2 es], es' as [|e2' es'].
    + intros E. apply He in E as [-> E]. by simplify_eq.
    + cbn [map join]. rewrite <- app_assoc. intros E. by apply He in E as [_ E].
    + cbn [map join]. rewrite <- app_assoc. intros E. by apply He in E as [_ E].
    + rewrite !join_cons by done. rewrite <- !app_assoc. intros E.
      apply He in E as [-> E]. cbn [app] in E. injection E as E.
      apply (IH (e2' :: es')) in E as [E ->]. by rewrite E.
Qed.

Lemma normalized_prefix_free e : prefix_free e.
Proof.
  induction e as [p|e IH|es IH|es IH] using query_expression_ind; intros e' s s' E;
    apply head_inj in E as (Hw & Hm & Hb); destruct e' as [p'|e'|es'|es']; try done;
    cbn [body head_word] in *.
  - rewrite <- !app_assoc in Hb.
    apply (named_inj [58]) in Hb as (Ho & _ & Hv);
      [|by destruct p as [? [] ?]|by destruct p' as [? [] ?]|done|done].
    apply escaped_inj in Hv as [Hv ->]. apply query_field_name_inj in Hw.
    apply operator_name_inj in Ho. destruct p, p'. cbn in *. by subst.
  - rewrite <- !app_assoc in Hb. apply IH in Hb as [-> Hb]. by simplify_eq.
  - rewrite <- !app_assoc in Hb. by apply joined_inj in Hb as [-> ->].
  - rewrite <- !app_assoc in Hb. by apply joined_inj in Hb as [-> ->].
Qed.

(** *** Printing tokens *)

Definition render_token (t : Token) : str :=
  match t with
  | TPredicate field value => field ++ 58 :: escaped value
  | TBare value => escaped value
  | TAnd => lit "AND" | TOr => lit "OR" | TBang => [33] | TLeft => [40] | TRight => [41]
  end.
Definition render (ts : list Token) : str := concat (map (λ t, render_token t ++ [32]) ts).

(** Words that can be printed: a value is not empty and has no control
    character; a field name has no white space or mark and no quote in front. *)
Definition printable_value (v : str) : Prop :=
  v ≠ [] ∧ ∀ b, b ∈ v → is_ascii_control b = false.
Definition printable (t : Token) : Prop :=
  match t with
  | TPredicate field value =>
      field ≠ [] ∧ head field ≠ Some 34 ∧ (∀ b, b ∈ field → word_byte b = true)
      ∧ printable_value value
  | TBare value => printable_value value
  | _ => True
  end.

Lemma read_quoted_loop_escaped v : ∀ acc s, (∀ b, b ∈ v → is_ascii_control b = false) →
  acc ++ v ≠ [] →
  read_quoted_loop acc (concat (map escape_byte v) ++ 34 :: s) = Ok (acc ++ v, s).
Proof.
  induction v as [|b v IH]; intros acc s Hv Hne; cbn [map concat app].
  - rewrite app_nil_r in *. cbn. by destruct acc.
  - assert (is_ascii_control b = false) as Hb by (apply Hv, list_elem_of_here).
    assert (read_quoted_loop (acc ++ [b]) (concat (map escape_byte v) ++ 34 :: s)
            = Ok (acc ++ b :: v, s)) as Hl.
    { rewrite IH; [by rewrite <- app_assoc| |by destruct acc].
      intros x Hx. by apply Hv, list_elem_of_further. }
    unfold escape_byte. destruct (Z.eqb_spec b 34) as [->|H34]; [exact Hl|].
    destruct (Z.eqb_spec b 92) as [->|H92]; [exact Hl|].
    cbn [orb app read_quoted_loop].
    by rewrite (proj2 (Z.eqb_neq b 34) H34), (proj2 (Z.eqb_neq b 92) H92), Hb.
Qed.
Lemma read_quoted_escaped v s : printable_value v → read_quoted (escaped v ++ s) = Ok (v, s).
Proof.
  intros [Hne Hv]. unfold escaped. rewrite <- !app_assoc. cbn [app read_quoted].
  by apply (read_quoted_loop_escaped v [] s).
Qed.

Lemma word_byte_plain b : word_byte b = true →
  is_ascii_whitespace b = false ∧ b ≠ 58 ∧ b ≠ 40 ∧ b ≠ 41 ∧ b ≠ 33.
Proof. unfold word_byte. intros H. bool_prop. done. Qed.

Lemma read_token_word byte word s :
  head word = Some byte → byte ≠ 34 → (∀ b, b ∈ word → word_byte b = true) →
  (∀ x s', s = x :: s' → word_byte x = false) →
  read_token byte (word ++ s) =
    if bool_decide (head s = Some 58) then
      '(value, rest) ← read_value (tail s); Ok (TPredicate word value, rest)
    else if bool_decide (word = lit "AND") then Ok (TAnd, s)
    else if bool_decide (word = lit "OR") then Ok (TOr, s)
    else Ok (TBare word, s).
Proof.
  intros Hh Hq Hw Hs. destruct word as [|b word]; [done|]. injection Hh as ->.
  destruct (word_byte_plain byte) as (_ & _ & H1 & H2 & H3); [apply Hw, list_elem_of_here|].
  unfold read_token.
  rewrite (proj2 (Z.eqb_neq _ _) H1), (proj2 (Z.eqb_neq _ _) H2), (proj2 (Z.eqb_neq _ _) H3),
    (proj2 (Z.eqb_neq _ _) Hq).
  by rewrite (span_word word_byte (byte :: word) s).
Qed.

Lemma read_token_render t s : printable t →
  ∃ b w, render_token t = b :: w ∧ is_ascii_whitespace b = false
    ∧ read_token b (render_token t ++ 32 :: s) = Ok (t, 32 :: s).
Proof.
  destruct t as [field value|value| | | | |]; cbn [printable render_token];
    [| |intros _; eexists _, _; split; [reflexivity|]; split; [reflexivity|]; reflexivity..].
  - intros (Hne & Hh & Hf & Hv). destruct field as [|b field]; [done|].
    exists b, (field ++ 58 :: escaped value). split; [done|].
    split; [apply word_byte_plain, Hf, list_elem_of_here|].
    replace (((b :: field) ++ 58 :: escaped value) ++ 32 :: s)
      with ((b :: field) ++ 58 :: escaped value ++ 32 :: s) by (by rewrite <- app_assoc).
    rewrite read_token_word; [|done|cbn in Hh; congruence|done|by intros x s' [= <- _]].
    cbn [head tail]. rewrite bool_decide_eq_true_2 by done. unfold read_value.
    rewrite bool_decide_eq_true_2 by done. by rewrite read_quoted_escaped.
  - intros Hv. exists 34, (concat (map escape_byte value) ++ [34]).
    split; [done|]. split; [done|]. unfold read_token.
    change (34 =? 40) with false. change (34 =? 41) with false. change (34 =? 33) with false.
    change (34 =? 34) with true. cbn iota. by rewrite read_quoted_escaped.
Qed.

Lemma tokenize_loop_render ts : Forall printable ts → ∀ fuel output,
  (length (render ts) ≤ fuel)%nat →
  tokenize_loop fuel output (render ts)
  = Some (if is_empty (output ++ ts) then Err QSyntax else Ok (output ++ ts)).
Proof.
  induction 1 as [|t ts Ht _ IH]; intros fuel output Hl.
  - rewrite app_nil_r. by destruct fuel.
  - destruct (read_token_render t (render ts) Ht) as (b & w & Hb & Hs & Hr).
    unfold render in Hl |- *. cbn [map concat] in *. fold (render ts) in *.
    rewrite <- !app_assoc in *. cbn [app] in *. rewrite length_app in Hl. cbn in Hl.
    rewrite Hb in *. cbn [app length] in *. destruct fuel as [|[|fuel]]; [lia|lia|].
    cbn [tokenize_loop]. rewrite Hs, Hr. change (is_ascii_whitespace 32) with true. cbn iota.
    rewrite IH by lia. by rewrite <- app_assoc.
Qed.

(** *** Nested negations *)

Lemma tokenize_bangs k : ∀ fuel output s,
  (k ≤ fuel)%nat →
  tokenize_loop fuel output (replicate k 33 ++ s)
  = tokenize_loop (fuel - k) (output ++ replicate k TBang) s.
Proof.
  induction k as [|k IH]; intros fuel output s Hk; cbn [replicate app].
  - by rewrite app_nil_r, Nat.sub_0_r.
  - destruct fuel as [|fuel]; [lia|]. cbn [tokenize_loop].
    change (is_ascii_whitespace 33) with false. cbn iota.
    unfold read_token. change (33 =? 40) with false. change (33 =? 41) with false.
    change (33 =? 33) with true. cbn [tail]. rewrite IH by lia.
    f_equal. by rewrite <- app_assoc.
Qed.

Lemma parse_unary_bangs rfc source n d : ∀ p ts,
  ps_tokens p = replicate d TBang ++ ts → parse_unary rfc d source n p = None.
Proof.
  induction d as [|d IH]; intros p ts Hp; [done|]. cbn [parse_unary]. rewrite Hp. cbn [replicate app].
  erewrite (IH (advance p) ts); [done|]. cbn. by rewrite Hp.
Qed.

(** *** Lowering *)

Lemma collect_Ok {E A} (l : list (result E A)) l' :
  collect l = Ok l' ↔ Forall2 (λ r x, r = Ok x) l l'.
Proof.
  revert l'. induction l as [|r l IH]; intros l'; cbn [collect foldr].
  - split; [intros [= <-]; constructor|]. by inversion 1.
  - split.
    + intros (a & -> & (k & Hk & [= <-])%bind_Ok)%bind_Ok. constructor; [done|]. by apply IH.
    + inversion 1 as [|? a ? k -> Hk]; subst. apply IH in Hk. unfold collect in Hk.
      cbn [mbind result_bind]. by rewrite Hk.
Qed.

Lemma fmap_Ok {E A B} (f : A → B) (r : result E A) b :
  f <$> r = Ok b ↔ ∃ a, r = Ok a ∧ b = f a.
Proof. destruct r; cbn; split; naive_solver. Qed.

Lemma sum_map_Forall2 {A B} (f : A → Z) (g : B → Z) l k :
  Forall2 (λ x y, g y = f x) l k → sum_map g k = sum_map f l.
Proof. unfold sum_map. induction 1; cbn [foldr]; lia. Qed.

Lemma sum_map_le f (l : list QueryExpression) e :
  (∀ e, 0 ≤ f e) → e ∈ l → f e ≤ sum_map f l.
Proof.
  intros Hf. induction l as [|x l IH]; [by intros ?%not_elem_of_nil|].
  rewrite sum_map_cons. pose proof (sum_map_nonneg_all f l Hf). pose proof (Hf x).
  intros [->|He]%elem_of_cons; [lia|]. specialize (IH He). lia.
Qed.

Definition same_sizes (e : QueryExpression) (e' : ExploreExpression) : Prop :=
  predicate_count e' = query_predicates e ∧ node_count e' = query_nodes e
  ∧ (query_alternatives e ≤ U64_MAX → or_alternatives e' = query_alternatives e).

Lemma same_sizes_sums es es' : Forall2 same_sizes es es' →
  sum_map predicate_count es' = sum_map query_predicates es
  ∧ sum_map node_count es' = sum_map query_nodes es
  ∧ (sum_map query_alternatives es ≤ U64_MAX →
     sum_map or_alternatives es' = sum_map query_alternatives es).
Proof.
  intros H. split_and!.
  - apply sum_map_Forall2. eapply Forall2_impl; [done|]. by intros ?? [? _].
  - apply sum_map_Forall2. eapply Forall2_impl; [done|]. by intros ?? (_ & ? & _).
  - intros Hb. induction H as [|e e' es es' (_ & _ & He) _ IH]; [done|].
    rewrite !sum_map_cons in *. pose proof (query_alternatives_nonneg e).
    pose proof (sum_map_nonneg_all query_alternatives es query_alternatives_nonneg). lia.
Qed.

Lemma to_explore_sizes rfc d e : ∀ e', to_explore_expression rfc d e = Ok e' → same_sizes e e'.
Proof.
  assert (Hl : ∀ es es', Forall (λ e, ∀ e', to_explore_expression rfc d e = Ok e' → same_sizes e e') es →
    Forall2 (λ r x, r = Ok x) (map (to_explore_expression rfc d) es) es' →
    Forall2 same_sizes es es').
  { intros es es' Hes H. revert Hes. remember (map _ es) as rs eqn:Er. revert es Er.
    induction H as [|r x rs es' Hr _ IH]; intros [|e' es] [=]; subst; [constructor|].
    intros [He Hes]%Forall_cons. constructor; auto. }
  induction e as [p|e IH|es IH|es IH] using query_expression_ind; intros e';
    cbn [to_explore_expression].
  - intros (p' & _ & ->)%fmap_Ok. by split_and!.
  - intros (x & Hx & ->)%fmap_Ok. destruct (IH x Hx) as (? & ? & ?).
    unfold same_sizes. cbn. rewrite query_predicates_QNot. split_and!; [done|lia|done].
  - intros (xs & Hx & ->)%fmap_Ok. apply collect_Ok in Hx. apply (Hl es xs IH) in Hx.
    apply same_sizes_sums in Hx as (? & ? & ?). unfold same_sizes.
    cbn [predicate_count node_count or_alternatives query_nodes query_alternatives].
    rewrite (query_predicates_group QAnd) by auto. split_and!; [done|lia|done].
  - intros (xs & Hx & ->)%fmap_Ok. apply collect_Ok in Hx. apply (Hl es xs IH) in Hx.
    assert (len xs = len es) as Hlen by (unfold len; f_equal; symmetry; by eapply Forall2_length).
    apply same_sizes_sums in Hx as (? & ? & Ha). unfold same_sizes.
    cbn [predicate_count node_count or_alternatives query_nodes query_alternatives].
    rewrite (query_predicates_group QOr) by auto. split_and!; [done|lia|]. intros Hb.
    pose proof (sum_map_nonneg_all query_alternatives es query_alternatives_nonneg).
    pose proof (len_nonneg es). rewrite Ha, Hlen by lia. apply saturate_exact. lia.
Qed.

(** What the parser knows of every predicate it accepts. *)
Definition predicate_ok (rfc : str → option Z) (source : QuerySource) (p : QueryPredicate)
    : Prop :=
  query_field_accepted source (qp_field p) = true
  ∧ (qp_operator p = QContains ∧ operator_accepted (qp_field p) QContains = true
     ∨ value_ok rfc source (qp_field p) (qp_value p) = true).

Lemma parse_predicate_ok rfc source f v p :
  parse_predicate rfc source f v = Ok p → predicate_ok rfc source p.
Proof.
  unfold parse_predicate. intros (field & _ & H)%bind_Ok.
  destruct (query_field_accepted source field) eqn:Hf; [cbn [negb] in H|done].
  destruct (split_operator v) as [o value].
  destruct (is_empty value || _ || negb _) eqn:Hc; [done|]. bool_prop.
  apply bind_Ok in H as ([] & Hv & [= <-]). split; [done|]. cbn. unfold validate_value in Hv.
  destruct (bool_decide (o = QContains)) eqn:Ho; bool_prop; [left; by subst|right].
  by destruct (value_ok _ _ _ _).
Qed.

Lemma bare_predicates_ok rfc source v e :
  bare_meaning source v = Some e → source ≠ QReleases →
  Forall (predicate_ok rfc source) (collect_predicates e).
Proof.
  destruct source; cbn; intros [= <-] ?; try done;
    repeat constructor; cbn; auto.
Qed.

Lemma Forall_group P es c :
  c = QAnd ∨ c = QOr →
  Forall P (concat (map collect_predicates es)) → Forall P (collect_predicates (group c es)).
Proof.
  intros Hc. destruct es as [|e [|e' es]]; cbn [group].
  - by destruct Hc as [->| ->].
  - cbn. by rewrite app_nil_r.
  - by destruct Hc as [->| ->].
Qed.

Lemma derives_predicates_ok rfc source : source ≠ QReleases →
  (∀ n ts e, derives_unary rfc source n ts e →
     Forall (predicate_ok rfc source) (collect_predicates e))
  ∧ (∀ n ts es, derives_and rfc source n ts es →
     Forall (predicate_ok rfc source) (concat (map collect_predicates es)))
  ∧ (∀ n ts es, derives_or rfc source n ts es →
     Forall (predicate_ok rfc source) (concat (map collect_predicates es))).
Proof.
  intros Hs. apply derives_mutind; cbn [collect_predicates map concat]; try done.
  - intros n ts values _ _ IH. apply Forall_group; auto.
  - intros n f v p Hp. apply Forall_singleton. by eapply parse_predicate_ok.
  - intros n v e He. by eapply bare_predicates_ok.
  - intros n ts e _ IH. by rewrite app_nil_r.
  - intros n ts e sep ts' es _ IH _ _ IH'. by apply Forall_app.
  - intros n ts es _ IH. rewrite app_nil_r. apply Forall_group; auto.
  - intros n ts es ts' vs _ IH _ IH'. apply Forall_app. split; [|done]. apply Forall_group; auto.
Qed.

(** A count accepted as [u64] that is an [i64]. *)
Lemma parse_u64_i64 v n : parse_u64 v = Some n → n ≤ I64_MAX → is_some (parse_i64 v) = true.
Proof.
  intros Hu Hn. unfold parse_u64, parse_i64, parse_signed, parse_unsigned in *.
  destruct v as [|b v]; [done|].
  destruct (decide (b = 45)) as [->|Hb].
  { cbn in Hu. by destruct (is_empty v). }
  assert (∀ (A : Type) (x y : A), match b with 45 => x | _ => y end = y) as Hm.
  { intros. destruct b as [|p|p]; try done. by repeat (destruct p as [p|p|]; try done). }
  rewrite Hm. clear Hm.
  destruct (is_empty _); [done|]. destruct (digits_value _ _ _) as [m|]; [|done].
  destruct (m <=? U64_MAX); [|done]. injection Hu as ->.
  by rewrite (proj2 (Z.leb_le _ _) Hn).
Qed.

Definition dates_fit (rfc : str → option Z) : Prop :=
  ∀ v nanos, rfc v = Some nanos → I64_MIN ≤ nanos / 1000000 ≤ I64_MAX.
Definition count_fits (p : QueryPredicate) : Prop :=
  qp_field p = QMetricCount → ∀ n, parse_u64 (qp_value p) = Some n → n ≤ I64_MAX.

Lemma explore_value_total rfc source f f' o v :
  dates_fit rfc → explore_field f = Some f' → source ≠ QErrors →
  is_some (explore_dataset source) = true → query_field_accepted source f = true →
  (o = QContains ∧ operator_accepted f QContains = true ∨ value_ok rfc source f v = true) →
  (f = QMetricCount → ∀ n, parse_u64 v = Some n → n ≤ I64_MAX) →
  ∃ x, explore_value rfc f' v = Ok x.
Proof.
  intros Hd Hf Hs Hds Hacc Hv Hc.
  assert (Hdate : is_some (parse_i64 v) || is_some (rfc v) = true →
    ∃ x, ok_or QSyntax (XInteger <$> option_or (parse_i64 v)
           (nanos ← rfc v; checked_i64 (nanos / 1000000))) = Ok x).
  { destruct (parse_i64 v) as [z|]; [by eexists|]. cbn. destruct (rfc v) as [n|] eqn:Er; [|done].
    cbn. unfold checked_i64. rewrite checked_exact by (by eapply Hd). by eexists. }
  assert (Hfloat : is_some_and f64_is_finite (parse_f64 v) = true →
    ∃ x, match parse_f64 v with
         | Some x => if f64_is_finite x then Ok (XNumber x) else Err QSyntax
         | None => Err QSyntax end = Ok x).
  { destruct (parse_f64 v) as [x|]; cbn [is_some_and]; [|done]. intros ->. by eexists. }
  destruct f; cbn [explore_field] in Hf; simplify_eq; cbn [explore_value value_ok operator_accepted] in *;
    try (by eexists); destruct Hv as [[_ Hv]|Hv]; try done; auto.
  - unfold one_of in Hv. cbn [existsb] in Hv. unfold parse_bool.
    destruct (bool_decide (v = lit "true")); [by eexists|].
    destruct (bool_decide (v = lit "false")); [by eexists|done].
  - destruct (parse_u64 v) as [n|] eqn:Eu; [|done].
    pose proof (parse_u64_i64 v n Eu (Hc eq_refl n eq_refl)) as Hi.
    destruct (parse_i64 v); [by eexists|done].
Qed.

Lemma to_explore_predicate_total rfc source d p :
  dates_fit rfc → explore_dataset source = Some d → source ≠ QErrors →
  predicate_ok rfc source p → count_fits p →
  ∃ p', to_explore_predicate rfc d p = Ok p'.
Proof.
  intros Hr Hd Hs [Ha Hv] Hc. unfold to_explore_predicate.
  assert (∃ f', explore_field (qp_field p) = Some f' ∧ field_accepted_by f' d = true)
    as (f' & Hf & Hacc).
  { destruct source; try done; injection Hd as <-; destruct (qp_field p); try done;
      eexists; (split; [reflexivity|reflexivity]). }
  rewrite Hf. cbn [ok_or mbind result_bind]. rewrite Hacc. cbn [negb].
  destruct (explore_value_total rfc source _ f' (qp_operator p) (qp_value p) Hr Hf Hs)
    as [x ->]; [by rewrite Hd|done..|]. by eexists.
Qed.

Lemma to_explore_total rfc source d e :
  dates_fit rfc → explore_dataset source = Some d → source ≠ QErrors →
  Forall (predicate_ok rfc source) (collect_predicates e) →
  Forall count_fits (collect_predicates e) → ∃ e', to_explore_expression rfc d e = Ok e'.
Proof.
  intros Hr Hd Hs. revert e.
  assert (Hl : ∀ es, Forall (λ e, Forall (predicate_ok rfc source) (collect_predicates e) →
      Forall count_fits (collect_predicates e) → ∃ e', to_explore_expression rfc d e = Ok e') es →
    Forall (predicate_ok rfc source) (concat (map collect_predicates es)) →
    Forall count_fits (concat (map collect_predicates es)) →
    ∃ es', collect (map (to_explore_expression rfc d) es) = Ok es').
  { induction 1 as [|e es He _ IH]; cbn [map concat]; [by eexists|].
    intros [? ?]%Forall_app [? ?]%Forall_app. destruct He as [e' He]; [done..|].
    destruct IH as [es' Hes]; [done..|]. exists (e' :: es'). apply collect_Ok.
    constructor; [done|]. by apply collect_Ok. }
  intros e. induction e as [p|e IH|es IH|es IH] using query_expression_ind;
    cbn [to_explore_expression collect_predicates].
  - rewrite !Forall_singleton. intros Hp Hc.
    destruct (to_explore_predicate_total rfc source d p) as [p' ->]; try done. eexists. reflexivity.
  - intros Hp Hc. destruct IH as [e' ->]; [done..|]. eexists. reflexivity.
  - intros Hp Hc. destruct (Hl es) as [es' ->]; [done..|]. eexists. reflexivity.
  - intros Hp Hc. destruct (Hl es) as [es' ->]; [done..|]. eexists. reflexivity.
Qed.

Lemma query_parse_spec rfc source input q :
  query_parse rfc source input = Some (Ok q) ↔
  len (trim input) ≤ MAX_QUERY_BYTES ∧ pq_source q = source
  ∧ pq_normalized q = normalized_query source (pq_expression q)
  ∧ match pq_expression q with
    | None => trim input = []
    | Some e =>
        trim input ≠ []
        ∧ ∃ tokens, tokenize (trim input) = Some (Ok tokens)
            ∧ derives rfc source tokens e ∧ within_limits e
    end.
Proof.
  unfold query_parse. destruct (Z.ltb_spec MAX_QUERY_BYTES (len (trim input))) as [Hl|Hl].
  { split; [done|]. intros [? _]. lia. }
  destruct q as [s e n]. cbn [pq_source pq_expression pq_normalized].
  destruct (is_empty (trim input)) eqn:He.
  { apply is_empty_true in He. rewrite He in *. split.
    - intros [= <- <- <-]. done.
    - intros (_ & -> & -> & H). destruct e; [by destruct H|done]. }
  assert (trim input ≠ []) as Hne by (intros H; by rewrite H in He).
  destruct (tokenize (trim input)) as [[tokens|err]|] eqn:Ht.
  - destruct (parse_tokens rfc (S (length tokens)) source tokens) as [[e'|err]|] eqn:Hp.
    + apply parse_tokens_Ok in Hp as Hd. cbn [fmap result_fmap]. split.
      * intros [= <- <- <-]. split_and!; [done..|]. by exists tokens.
      * intros (_ & -> & -> & H). destruct e as [e|]; [|done].
        destruct H as (_ & ts & [= <-] & H). apply parse_tokens_Ok in H. by simplify_eq.
    + split; [done|]. intros (_ & _ & _ & H). destruct e as [e|]; [|done].
      destruct H as (_ & ts & [= <-] & H). apply parse_tokens_Ok in H. by simplify_eq.
    + by apply parse_tokens_total in Hp.
  - split; [done|]. intros (_ & _ & _ & H). destruct e; [|done]. by destruct H as (_ & ? & ? & _).
  - by apply tokenize_total in Ht.
Qed.

Lemma query_parse_total rfc source input : query_parse rfc source input ≠ None.
Proof.
  unfold query_parse. repeat case_test; try done.
  destruct (tokenize (trim input)) as [[tokens|]|] eqn:Ht; [|done|by apply tokenize_total in Ht].
  destruct (parse_tokens _ _ _ _) as [r|] eqn:Hp; [done|by apply parse_tokens_total in Hp].
Qed.

(** ** Theorems *)

(** C16. The parser always gives an answer, and it accepts exactly the grammar:
    a query is parsed to an expression if and only if its text, trimmed, is
    within the byte limit, its tokens derive that expression, with at most
    sixteen parentheses inside one another, and the expression is within the
    limits on predicates, nodes and alternatives. *)
Theorem query_parse_iff_grammar rfc source input :
  (∃ r, query_parse rfc source input = Some r)
  ∧ ∀ q, query_parse rfc source input = Some (Ok q) ↔
      len (trim input) ≤ MAX_QUERY_BYTES ∧ pq_source q = source
      ∧ pq_normalized q = normalized_query source (pq_expression q)
      ∧ match pq_expression q with
        | None => trim input = []
        | Some e =>
            trim input ≠ []
            ∧ ∃ tokens, tokenize (trim input) = Some (Ok tokens)
                ∧ derives rfc source tokens e ∧ within_limits e
        end.
Proof.
  split; [|intros q; apply query_parse_spec].
  destruct (query_parse rfc source input) as [r|] eqn:E; [by exists r|].
  by apply query_parse_total in E.
Qed.

(** The normalized text of a query determines its source and expression:
    two queries have the same text only if they are the same query. *)
Theorem normalized_query_injective source source' e e' :
  normalized_query source e = normalized_query source' e' → source = source' ∧ e = e'.
Proof.
  unfold normalized_query. intros H. apply app_inv_head in H.
  change (lit "|") with [124] in H. cbn [app] in H.
  assert (∃ n n', source_as_str source = lit n ∧ source_as_str source' = lit n'
    ∧ forallb (not_in [124]) (lit n) = true ∧ forallb (not_in [124]) (lit n') = true
    ∧ (n = n' → source = source')) as (n & n' & En & En' & Hn & Hn' & Hs).
  { unfold source_as_str. eexists _, _. split; [reflexivity|]. split; [reflexivity|].
    by destruct source, source'. }
  rewrite En, En' in H. apply (named_inj [124]) in H as (Hss & _ & H); [|done..].
  split; [by apply Hs|].
  assert (∀ x, lit "all" ≠ normalized x) as Hall.
  { intros x Hx. rewrite normalized_head in Hx.
    pose proof (f_equal (span (not_in [58; 40])) Hx) as E.
    rewrite span_word in E; [by vm_compute in E| |by destruct x; intros ? ? [= <- _]].
    intros y Hy. pose proof (head_word_plain x) as Hw. rewrite forallb_true in Hw. by apply Hw. }
  destruct e as [x|], e' as [x'|]; [|by destruct (Hall x)|by destruct (Hall x')|done].
  f_equal. apply (normalized_prefix_free x x' [] []). by rewrite !app_nil_r.
Qed.
Lemma normalized_query_injective_witness :
  ∃ q, query_parse no_dates QLogs sample_text = Some (Ok q)
    ∧ ∀ source e, normalized_query QLogs (pq_expression q) = normalized_query source e →
        source = QLogs ∧ e = pq_expression q.
Proof.
  eexists. split; [vm_compute; reflexivity|]. intros source e H.
  destruct (normalized_query_injective _ _ _ _ H) as [<- <-]. done.
Defined.

(** Tokens are recovered from their text: field names and values that can
    be printed (quoted, with the quote and the reverse solidus escaped), marks
    and keywords, separated by spaces. *)
Theorem tokenize_render ts :
  ts ≠ [] → Forall printable ts → tokenize (render ts) = Some (Ok ts).
Proof.
  intros Hne Hts. unfold tokenize. rewrite (tokenize_loop_render ts) by done. by destruct ts.
Qed.
Lemma tokenize_render_witness :
  tokenize (render [TBang; TLeft; TPredicate (lit "svc") (34 :: lit "a b\"); TOr;
                    TBare (lit "x(y"); TRight])
  = Some (Ok [TBang; TLeft; TPredicate (lit "svc") (34 :: lit "a b\"); TOr;
              TBare (lit "x(y"); TRight]).
Proof.
  apply tokenize_render; [discriminate|].
  repeat (apply List.Forall_cons || apply List.Forall_nil); cbn [printable]; try exact I;
    repeat split; try discriminate; intros b Hb; cbn in Hb;
    repeat (apply elem_of_cons in Hb as [->|Hb]; [reflexivity|]); by apply not_elem_of_nil in Hb.
Defined.

(** A parsed query over logs, traces or metrics always becomes an Explore
    expression of the same size, within the limits Explore sets on predicates,
    nodes and alternatives, as soon as its dates and counts fit 64 signed
    bits. *)
Theorem query_lowers_to_explore rfc source input q d :
  dates_fit rfc →
  query_parse rfc source input = Some (Ok q) →
  explore_dataset source = Some d → source ≠ QErrors →
  (∀ e, pq_expression q = Some e → Forall count_fits (collect_predicates e)) →
  match pq_expression q with
  | None => explore_expression rfc q = Ok None
  | Some e =>
      ∃ e', explore_expression rfc q = Ok (Some e')
        ∧ predicate_count e' = query_predicates e ∧ node_count e' = query_nodes e
        ∧ or_alternatives e' = query_alternatives e
        ∧ predicate_count e' ≤ MAX_EXPLORE_PREDICATES
        ∧ node_count e' ≤ MAX_EXPLORE_EXPRESSION_NODES
        ∧ or_alternatives e' ≤ MAX_EXPLORE_OR_ALTERNATIVES
  end.
Proof.
  intros Hr Hq Hd Hs Hc. apply query_parse_spec in Hq as (_ & Hsrc & _ & He).
  unfold explore_expression. rewrite Hsrc, Hd. cbn [ok_or mbind result_bind].
  destruct (pq_expression q) as [e|]; [|done].
  destruct He as (_ & ts & _ & (es & Hder & ->) & Hl1 & Hl2 & Hl3).
  assert (Forall (predicate_ok rfc source) (collect_predicates (group QOr es))) as Hok.
  { apply Forall_group; [auto|].
    by apply (derives_predicates_ok rfc source) in Hder; [|by intros ->]. }
  destruct (to_explore_total rfc source d _ Hr Hd Hs Hok (Hc _ eq_refl)) as [e' He'].
  destruct (to_explore_sizes rfc d _ e' He') as (H1 & H2 & H3).
  unfold MAX_QUERY_PREDICATES, MAX_QUERY_NODES, MAX_QUERY_OR_ALTERNATIVES in *.
  unfold MAX_EXPLORE_PREDICATES, MAX_EXPLORE_EXPRESSION_NODES, MAX_EXPLORE_OR_ALTERNATIVES.
  assert (or_alternatives e' = query_alternatives (group QOr es)) by (apply H3; unfold U64_MAX; lia).
  exists e'. rewrite He'. split; [done|]. lia.
Qed.
Lemma query_lowers_to_explore_witness :
  ∃ q e', query_parse no_dates QLogs sample_text = Some (Ok q)
    ∧ explore_expression no_dates q = Ok (Some e') ∧ node_count e' = 8.
Proof.
  destruct (query_parse no_dates QLogs sample_text) as [[q|]|] eqn:E;
    [|vm_compute in E; discriminate E..].
  assert (∃ e, pq_expression q = Some e
    ∧ forallb (λ p, negb (bool_decide (qp_field p = QMetricCount))) (collect_predicates e) = true
    ∧ query_nodes e = 8) as (e & He & Hcounts & Hn).
  { vm_compute in E. injection E as <-. eexists. repeat split. }
  pose proof (query_lowers_to_explore no_dates QLogs sample_text q Logs) as H.
  rewrite He in H. destruct H as (e' & He' & _ & Hn' & _).
  - intros v nanos Hv. discriminate Hv.
  - exact E.
  - reflexivity.
  - discriminate.
  - intros x [= <-]. rewrite List.forallb_forall in Hcounts. apply Forall_forall. intros p Hp Hf.
    apply list_elem_of_In, Hcounts in Hp. rewrite Hf in Hp. discriminate Hp.
  - exists q, e'. split; [reflexivity|]. split; [exact He'|]. by rewrite Hn'.
Defined.

(** The nesting limit counts parentheses only: for every depth there is a
    query of that many exclamation marks, without a parenthesis, for which
    that many nested calls of the parser are not enough, whatever the limits
    on the expression, which are tested after the calls return. *)
Theorem negation_depth_unbounded rfc source depth :
  tokenize (replicate depth 33 ++ lit "level:error")
  = Some (Ok (replicate depth TBang ++ [TPredicate (lit "level") (lit "error")]))
  ∧ parse_tokens rfc depth source
      (replicate depth TBang ++ [TPredicate (lit "level") (lit "error")]) = None.
Proof.
  split.
  - unfold tokenize. rewrite length_app, length_replicate, tokenize_bangs by lia.
    replace (_ + _ - depth)%nat with 11%nat by (rewrite length_lit; cbn; lia).
    cbn [tokenize_loop app]. destruct (replicate depth TBang); reflexivity.
  - unfold parse_tokens, parse_or, parse_and, parser_new. cbn [ps_tokens].
    destruct depth as [|d].
    + reflexivity.
    + cbn [replicate app length and_loop ps_tokens].
      by rewrite (parse_unary_bangs _ _ _ (S d) _ [TPredicate (lit "level") (lit "error")]).
Qed.
