(* ===== verification/Envelope.v ===== *)
(** * The Sentry wire format

    [sentry-protocol/src/lib.rs]: envelopes with their framing, limits and
    item lanes, store events, DSNs and authentication headers.  The JSON
    decoder of the wire headers is third-party code: the class [WireApi].  A
    position in the body is a [nat]; [None] of the item loop means that its
    fuel, the length of the body, was not enough. *)
From stdpp Require Import base list numbers strings sets gmap.
From Stdlib Require Import ZArith Lia.
From S2P Require Import Prelude External Primitives.

Definition MAX_HEADER_BYTES : Z := 8 * 1024.
Definition MAX_AUTH_BYTES : Z := 2 * 1024.
Definition MAX_CLIENT_REPORT_ENTRIES : Z := 100.
Definition MAX_CLIENT_REPORT_TEXT_BYTES : Z := 64.

Record EnvelopeLimits := {
  el_max_items : Z;
  el_max_event_bytes : Z;
  el_max_replay_bytes : Z;
}.
Record AttachmentLimits := {
  al_max_count : Z;
  al_max_item_bytes : Z;
  al_max_total_bytes : Z;
}.
Record DsnAuth := {
  da_key : bytes;
  da_project_id : Z;
}.

Inductive RawSignalKind := RLog | RTransaction | RSpan | RSession.
Record RawReplay := { rr_event : bytes; rr_recording : bytes }.
Record RawCheckIn := { rc_bytes : bytes }.
Record RawSignal := { rs_kind : RawSignalKind; rs_bytes : bytes }.
Record RawMetricContainer := { rm_item_count : Z; rm_bytes : bytes }.
Record RawAttachment := {
  ra_position : Z;
  ra_filename : str;
  ra_content_type : str;
  ra_attachment_type : str;
  ra_bytes : bytes;
}.
Record RawEvent := {
  re_header_event_id : option bytes;
  re_bytes : bytes;
}.

Inductive DisabledCategory :=
| DTransaction | DSession | DProfile | DReplay | DCheckIn | DSpan | DStatsd | DAttachment
| DOtherKnown.
Definition sentry_name (c : DisabledCategory) : str :=
  lit match c with
  | DTransaction => "transaction" | DSession => "session" | DProfile => "profile"
  | DReplay => "replay" | DCheckIn => "monitor" | DSpan => "span" | DStatsd => "metric_bucket"
  | DAttachment => "attachment" | DOtherKnown => "default"
  end.
Record DiscardedItem := {
  di_category : option DisabledCategory;
  di_reason : string;
}.

Record ParsedEnvelope := {
  en_event_id : option bytes;
  en_dsn : option DsnAuth;
  en_primary : option RawEvent;
  en_signals : list RawSignal;
  en_metrics : list RawMetricContainer;
  en_replays : list RawReplay;
  en_check_ins : list RawCheckIn;
  en_attachments : list RawAttachment;
  en_discarded : list DiscardedItem;
  en_client_report_quantity : Z;
}.

Inductive ProtocolErrorKind := Invalid | TooLarge.
Record ProtocolError := {
  pe_kind : ProtocolErrorKind;
  pe_code : string;
}.
Definition invalid (code : string) : ProtocolError := {| pe_kind := Invalid; pe_code := code |}.
Definition too_large (code : string) : ProtocolError := {| pe_kind := TooLarge; pe_code := code |}.

(** ** The wire headers *)

Record WireEnvelopeHeader := {
  wh_event_id : option str;
  wh_dsn : option str;
}.
Record WireItemHeader := {
  wi_kind : option str;
  wi_length : option Z;
  wi_event_id : option str;
  wi_filename : option str;
  wi_content_type : option str;
  wi_attachment_type : option str;
  wi_item_count : option Z;
}.
Record WireClientReportEntry := {
  wc_reason : str;
  wc_category : str;
  wc_quantity : Z;
}.

(** [serde_json::from_slice] at the three types ([None] for an error), and
    [url::form_urlencoded::parse]. *)
Class WireApi := {
  decode_envelope_header : bytes → option WireEnvelopeHeader;
  decode_item_header : bytes → option WireItemHeader;
  decode_client_report : bytes → option (list WireClientReportEntry);
  form_urlencoded_parse : bytes → list (str * str);
}.

(** ** Framing *)

(** [iter().position] of a byte. *)
Fixpoint position (b : Z) (l : bytes) : option nat :=
  match l with
  | [] => None
  | x :: l' => if x =? b then Some O else S <$> position b l'
  end.

Definition line_at (body : bytes) (start : nat) : result ProtocolError (bytes * nat) :=
  if (length body <? start)%nat then Err (invalid "invalid_framing")
  else
    let remaining := drop start body in
    newline ← ok_or (invalid "missing_header_newline") (position 10 remaining);
    if MAX_HEADER_BYTES <? Z.of_nat newline then Err (too_large "header_too_large")
    else Ok (take newline remaining, (start + newline + 1)%nat).

Definition lengthless_payload (body : bytes) (start : nat) (max_bytes : Z)
    : result ProtocolError (bytes * nat) :=
  if (length body <? start)%nat then Err (invalid "truncated_item")
  else
    let remaining := drop start body in
    let bounded := Z.min (len remaining) (sat_u64 (max_bytes + 1)) in
    match position 10 (take (Z.to_nat bounded) remaining) with
    | Some newline => Ok (take newline remaining, (start + newline + 1)%nat)
    | None =>
        if max_bytes <? len remaining then Err (too_large "lengthless_item_too_large")
        else Ok (remaining, length body)
    end.

(** The payload of an item whose header gives its length. *)
Definition sized_payload (body : bytes) (start : nat) (size : Z)
    : result ProtocolError (bytes * nat) :=
  payload_end ← ok_or (too_large "item_length_overflow") (checked_u64 (Z.of_nat start + size));
  if len body <? payload_end then Err (invalid "truncated_item")
  else
    let payload_end := Z.to_nat payload_end in
    let payload := take (payload_end - start) (drop start body) in
    if (payload_end <? length body)%nat then
      if negb (bool_decide (body !! payload_end = Some 10)) then
        Err (invalid "missing_item_separator")
      else Ok (payload, S payload_end)
    else Ok (payload, payload_end).

(** ** Identifiers, DSNs and authentication *)

Definition parse_wire_event_id (value : str) : result ProtocolError bytes :=
  match event_id_parse value with
  | Ok event_id => Ok event_id
  | Err _ =>
      if (len value =? 36)
         && forallb (λ ib : nat * Z,
              if existsb (Nat.eqb ib.1) [8; 13; 18; 23]%nat then ib.2 =? 45
              else is_ascii_hexdigit ib.2) (zip (seq 0 (length value)) value)
      then
        map_err (λ _, invalid "invalid_event_id")
          (event_id_parse (List.filter (λ b, negb (b =? 45)) value))
      else Err (invalid "invalid_event_id")
  end.
(** [Option::map] and [transpose]. *)
Definition transpose {A B E} (f : A → result E B) (o : option A) : result E (option B) :=
  match o with
  | Some a => Some <$> f a
  | None => Ok None
  end.
Definition parse_optional_event_id (value : option str) : result ProtocolError (option bytes) :=
  transpose parse_wire_event_id value.

Section dsn.
Context {Url : Type} `{!UrlApi Url}.

Definition parse_dsn (value : str) : result ProtocolError DsnAuth :=
  if MAX_AUTH_BYTES <? len value then Err (invalid "dsn_too_large")
  else
    dsn ← ok_or (invalid "invalid_dsn") (url_parse value);
    if negb (bool_decide (url_scheme dsn = lit "http") || bool_decide (url_scheme dsn = lit "https"))
    then Err (invalid "invalid_dsn_scheme")
    else
      key ← map_err (λ _, invalid "invalid_dsn_key") (dsn_key_parse (url_username dsn));
      project ← ok_or (invalid "missing_dsn_project") (url_path_segments dsn ≫= last);
      project_id ← map_err (λ _, invalid "invalid_dsn_project") (parse_ingest_project_id project);
      Ok {| da_key := key; da_project_id := project_id |}.

End dsn.

(** The loop of [parse_x_sentry_auth] over the fields, with the keys so far. *)
Fixpoint auth_keys (keys : gset bytes) (fields : list str) : result ProtocolError (gset bytes) :=
  match fields with
  | [] => Ok keys
  | field :: fields' =>
      match split_once 61 (trim field) with
      | None => Err (invalid "invalid_auth_field")
      | Some (name, value) =>
          if bool_decide (trim name = lit "sentry_key") then
            key ← map_err (λ _, invalid "invalid_dsn_key") (dsn_key_parse (trim value));
            auth_keys ({[key]} ∪ keys) fields'
          else auth_keys keys fields'
      end
  end.
Definition parse_x_sentry_auth (value : str) : result ProtocolError bytes :=
  if MAX_AUTH_BYTES <? len value then Err (invalid "auth_header_too_large")
  else
    fields ← ok_or (invalid "invalid_auth_scheme") (strip_prefix (lit "Sentry ") value);
    keys ← auth_keys ∅ (split_on 44 fields);
    match elements keys with
    | [key] => Ok key
    | _ => Err (invalid "missing_or_conflicting_dsn_key")
    end.

Section query_auth.
Context `{WireApi}.

Fixpoint query_keys (keys : gset bytes) (pairs : list (str * str))
    : result ProtocolError (gset bytes) :=
  match pairs with
  | [] => Ok keys
  | (name, value) :: pairs' =>
      if bool_decide (name = lit "sentry_key") then
        key ← map_err (λ _, invalid "invalid_dsn_key") (dsn_key_parse value);
        query_keys ({[key]} ∪ keys) pairs'
      else query_keys keys pairs'
  end.
Definition parse_query_auth (query : str) : result ProtocolError (option bytes) :=
  if MAX_AUTH_BYTES <? len query then Err (invalid "auth_query_too_large")
  else
    keys ← query_keys ∅ (form_urlencoded_parse query);
    match elements keys with
    | [] => Ok None
    | [key] => Ok (Some key)
    | _ => Err (invalid "conflicting_dsn_key")
    end.

(** ** Items *)

Fixpoint report_quantity (quantity : Z) (entries : list WireClientReportEntry)
    : result ProtocolError Z :=
  match entries with
  | [] => Ok quantity
  | entry :: entries' =>
      if (MAX_CLIENT_REPORT_TEXT_BYTES <? len (wc_reason entry))
         || (MAX_CLIENT_REPORT_TEXT_BYTES <? len (wc_category entry))
      then Err (too_large "client_report_field_too_large")
      else report_quantity (sat_u64 (quantity + wc_quantity entry)) entries'
  end.
Definition parse_client_report (payload : bytes) : result ProtocolError Z :=
  report ← ok_or (invalid "invalid_client_report") (decode_client_report payload);
  if MAX_CLIENT_REPORT_ENTRIES <? len report then Err (too_large "client_report_too_large")
  else report_quantity 0 report.

End query_auth.

Inductive ItemClass :=
| IEvent | ISignal (kind : RawSignalKind) | IMetric | IReplayEvent | IReplayRecording | ICheckIn
| IClientReport | IAttachment | IDisabled (category : DisabledCategory) | IUnknown.

Definition classify_item (kind : str) : ItemClass :=
  let named s := bool_decide (kind = lit s) in
  if named "event" || named "feedback" then IEvent
  else if named "client_report" then IClientReport
  else if named "log" then ISignal RLog
  else if named "transaction" then ISignal RTransaction
  else if named "session" then ISignal RSession
  else if named "sessions" then IDisabled DSession
  else if named "profile" || named "profile_chunk" then IDisabled DProfile
  else if named "replay_event" then IReplayEvent
  else if named "replay_recording" then IReplayRecording
  else if named "check_in" then ICheckIn
  else if named "span" then ISignal RSpan
  else if named "trace_metric" then IMetric
  else if named "statsd" || named "metric_buckets" then IDisabled DStatsd
  else if named "attachment" then IAttachment
  else if named "view_hierarchy" then IDisabled DAttachment
  else if named "form_data" || named "user_report" || named "security" then IDisabled DOtherKnown
  else IUnknown.

Definition bounded_metadata (value : str) (code : string) : result ProtocolError str :=
  if (256 <? len value) || any_control value then Err (too_large code) else Ok value.

(** The mutable variables of [parse_envelope_with_attachments]. *)
Record Lanes := {
  ln_primary : option RawEvent;
  ln_signals : list RawSignal;
  ln_metrics : list RawMetricContainer;
  ln_replay_events : list bytes;
  ln_replay_recordings : list bytes;
  ln_check_ins : list RawCheckIn;
  ln_attachments : list RawAttachment;
  ln_attachment_bytes : Z;
  ln_discarded : list DiscardedItem;
  ln_client_report_quantity : Z;
  ln_item_count : Z;
}.
Definition lanes_empty : Lanes :=
  {| ln_primary := None; ln_signals := []; ln_metrics := []; ln_replay_events := [];
     ln_replay_recordings := []; ln_check_ins := []; ln_attachments := [];
     ln_attachment_bytes := 0; ln_discarded := []; ln_client_report_quantity := 0;
     ln_item_count := 0 |}.

Definition set_primary (s : Lanes) (v : option RawEvent) : Lanes :=
  {| ln_primary := v; ln_signals := ln_signals s; ln_metrics := ln_metrics s;
     ln_replay_events := ln_replay_events s; ln_replay_recordings := ln_replay_recordings s;
     ln_check_ins := ln_check_ins s; ln_attachments := ln_attachments s;
     ln_attachment_bytes := ln_attachment_bytes s; ln_discarded := ln_discarded s;
     ln_client_report_quantity := ln_client_report_quantity s;
     ln_item_count := ln_item_count s |}.
Definition push_signal (s : Lanes) (v : RawSignal) : Lanes :=
  {| ln_primary := ln_primary s; ln_signals := ln_signals s ++ [v]; ln_metrics := ln_metrics s;
     ln_replay_events := ln_replay_events s; ln_replay_recordings := ln_replay_recordings s;
     ln_check_ins := ln_check_ins s; ln_attachments := ln_attachments s;
     ln_attachment_bytes := ln_attachment_bytes s; ln_discarded := ln_discarded s;
     ln_client_report_quantity := ln_client_report_quantity s;
     ln_item_count := ln_item_count s |}.
Definition push_metric (s : Lanes) (v : RawMetricContainer) : Lanes :=
  {| ln_primary := ln_primary s; ln_signals := ln_signals s; ln_metrics := ln_metrics s ++ [v];
     ln_replay_events := ln_replay_events s; ln_replay_recordings := ln_replay_recordings s;
     ln_check_ins := ln_check_ins s; ln_attachments := ln_attachments s;
     ln_attachment_bytes := ln_attachment_bytes s; ln_discarded := ln_discarded s;
     ln_client_report_quantity := ln_client_report_quantity s;
     ln_item_count := ln_item_count s |}.
Definition push_replay_event (s : Lanes) (v : bytes) : Lanes :=
  {| ln_primary := ln_primary s; ln_signals := ln_signals s; ln_metrics := ln_metrics s;
     ln_replay_events := ln_replay_events s ++ [v];
     ln_replay_recordings := ln_replay_recordings s;
     ln_check_ins := ln_check_ins s; ln_attachments := ln_attachments s;
     ln_attachment_bytes := ln_attachment_bytes s; ln_discarded := ln_discarded s;
     ln_client_report_quantity := ln_client_report_quantity s;
     ln_item_count := ln_item_count s |}.
Definition push_replay_recording (s : Lanes) (v : bytes) : Lanes :=
  {| ln_primary := ln_primary s; ln_signals := ln_signals s; ln_metrics := ln_metrics s;
     ln_replay_events := ln_replay_events s;
     ln_replay_recordings := ln_replay_recordings s ++ [v];
     ln_check_ins := ln_check_ins s; ln_attachments := ln_attachments s;
     ln_attachment_bytes := ln_attachment_bytes s; ln_discarded := ln_discarded s;
     ln_client_report_quantity := ln_client_report_quantity s;
     ln_item_count := ln_item_count s |}.
Definition push_check_in (s : Lanes) (v : RawCheckIn) : Lanes :=
  {| ln_primary := ln_primary s; ln_signals := ln_signals s; ln_metrics := ln_metrics s;
     ln_replay_events := ln_replay_events s; ln_replay_recordings := ln_replay_recordings s;
     ln_check_ins := ln_check_ins s ++ [v]; ln_attachments := ln_attachments s;
     ln_attachment_bytes := ln_attachment_bytes s; ln_discarded := ln_discarded s;
     ln_client_report_quantity := ln_client_report_quantity s;
     ln_item_count := ln_item_count s |}.
Definition push_attachment (s : Lanes) (v : RawAttachment) (attachment_bytes : Z) : Lanes :=
  {| ln_primary := ln_primary s; ln_signals := ln_signals s; ln_metrics := ln_metrics s;
     ln_replay_events := ln_replay_events s; ln_replay_recordings := ln_replay_recordings s;
     ln_check_ins := ln_check_ins s; ln_attachments := ln_attachments s ++ [v];
     ln_attachment_bytes := attachment_bytes; ln_discarded := ln_discarded s;
     ln_client_report_quantity := ln_client_report_quantity s;
     ln_item_count := ln_item_count s |}.
Definition push_discarded (s : Lanes) (v : DiscardedItem) : Lanes :=
  {| ln_primary := ln_primary s; ln_signals := ln_signals s; ln_metrics := ln_metrics s;
     ln_replay_events := ln_replay_events s; ln_replay_recordings := ln_replay_recordings s;
     ln_check_ins := ln_check_ins s; ln_attachments := ln_attachments s;
     ln_attachment_bytes := ln_attachment_bytes s; ln_discarded := ln_discarded s ++ [v];
     ln_client_report_quantity := ln_client_report_quantity s;
     ln_item_count := ln_item_count s |}.
Definition set_report_quantity (s : Lanes) (v : Z) : Lanes :=
  {| ln_primary := ln_primary s; ln_signals := ln_signals s; ln_metrics := ln_metrics s;
     ln_replay_events := ln_replay_events s; ln_replay_recordings := ln_replay_recordings s;
     ln_check_ins := ln_check_ins s; ln_attachments := ln_attachments s;
     ln_attachment_bytes := ln_attachment_bytes s; ln_discarded := ln_discarded s;
     ln_client_report_quantity := v; ln_item_count := ln_item_count s |}.
Definition count_item (s : Lanes) : Lanes :=
  {| ln_primary := ln_primary s; ln_signals := ln_signals s; ln_metrics := ln_metrics s;
     ln_replay_events := ln_replay_events s; ln_replay_recordings := ln_replay_recordings s;
     ln_check_ins := ln_check_ins s; ln_attachments := ln_attachments s;
     ln_attachment_bytes := ln_attachment_bytes s; ln_discarded := ln_discarded s;
     ln_client_report_quantity := ln_client_report_quantity s;
     ln_item_count := ln_item_count s + 1 |}.

Section envelope.
Context {Url : Type} `{!UrlApi Url} `{!WireApi}.
Context (limits : EnvelopeLimits) (attachment_limits : AttachmentLimits).

(** The attachment arm. *)
Definition take_attachment (s : Lanes) (h : WireItemHeader) (payload : bytes)
    : result ProtocolError Lanes :=
  if al_max_count attachment_limits =? 0 then
    Ok (push_discarded s {| di_category := Some DAttachment;
                            di_reason := "attachment_policy_disabled" |})
  else if al_max_count attachment_limits <=? len (ln_attachments s) then
    Err (too_large "too_many_attachments")
  else if al_max_item_bytes attachment_limits <? len payload then
    Err (too_large "attachment_too_large")
  else
    attachment_bytes ← ok_or (too_large "attachments_too_large")
      (checked_u64 (ln_attachment_bytes s + len payload));
    if al_max_total_bytes attachment_limits <? attachment_bytes then
      Err (too_large "attachments_too_large")
    else
      position ← ok_or (too_large "too_many_items") (checked_u32 (ln_item_count s));
      filename ← bounded_metadata (unwrap_or (lit "attachment") (wi_filename h))
        "attachment_filename_too_large";
      content_type ← bounded_metadata
        (unwrap_or (lit "application/octet-stream") (wi_content_type h))
        "attachment_content_type_too_large";
      attachment_type ← bounded_metadata
        (unwrap_or (lit "event.attachment") (wi_attachment_type h)) "attachment_type_too_large";
      Ok (push_attachment s {| ra_position := position; ra_filename := filename;
                               ra_content_type := content_type;
                               ra_attachment_type := attachment_type; ra_bytes := payload |}
            attachment_bytes).

(** The [match] on the class of an item. *)
Definition take_item (s : Lanes) (h : WireItemHeader) (payload : bytes)
    : result ProtocolError Lanes :=
  let bounded code (r : result ProtocolError Lanes) :=
    if el_max_event_bytes limits <? len payload then Err (too_large code) else r in
  match classify_item (unwrap_or (lit "event") (wi_kind h)) with
  | IEvent =>
      bounded "event_too_large"
        (if is_some (ln_primary s) then Err (invalid "multiple_primary_events")
         else
           event_id ← parse_optional_event_id (wi_event_id h);
           Ok (set_primary s (Some {| re_header_event_id := event_id; re_bytes := payload |})))
  | IClientReport =>
      quantity ← parse_client_report payload;
      Ok (set_report_quantity s (sat_u64 (ln_client_report_quantity s + quantity)))
  | IAttachment => take_attachment s h payload
  | ISignal kind =>
      bounded "signal_too_large" (Ok (push_signal s {| rs_kind := kind; rs_bytes := payload |}))
  | IMetric =>
      bounded "metric_container_too_large"
        (if negb (bool_decide (wi_content_type h
                    = Some (lit "application/vnd.sentry.items.trace-metric+json")))
         then Err (invalid "invalid_metric_content_type")
         else
           match wi_item_count h with
           | Some count =>
               if 0 <? count
               then Ok (push_metric s {| rm_item_count := count; rm_bytes := payload |})
               else Err (invalid "invalid_metric_item_count")
           | None => Err (invalid "invalid_metric_item_count")
           end)
  | IReplayEvent => bounded "replay_event_too_large" (Ok (push_replay_event s payload))
  | IReplayRecording =>
      if el_max_replay_bytes limits <? len payload
      then Err (too_large "replay_recording_too_large")
      else Ok (push_replay_recording s payload)
  | ICheckIn => bounded "check_in_too_large" (Ok (push_check_in s {| rc_bytes := payload |}))
  | IDisabled category =>
      Ok (push_discarded s {| di_category := Some category; di_reason := "feature_disabled" |})
  | IUnknown =>
      Ok (push_discarded s {| di_category := None; di_reason := "unknown_item_type" |})
  end.

(** One item at the cursor: its header, its payload and the next cursor. *)
Definition read_item (body : bytes) (cursor : nat)
    : result ProtocolError (WireItemHeader * bytes * nat) :=
  '(line, payload_start) ← line_at body cursor;
  h ← ok_or (invalid "invalid_item_header") (decode_item_header line);
  '(payload, next_cursor) ← match wi_length h with
                            | Some size => sized_payload body payload_start size
                            | None =>
                                lengthless_payload body payload_start (el_max_event_bytes limits)
                            end;
  Ok (h, payload, next_cursor).

Fixpoint item_loop (fuel : nat) (body : bytes) (cursor : nat) (s : Lanes)
    : option (result ProtocolError Lanes) :=
  if (length body <=? cursor)%nat then Some (Ok s)
  else
    match fuel with
    | O => None
    | S fuel =>
        let s := count_item s in
        if el_max_items limits <? ln_item_count s then Some (Err (too_large "too_many_items"))
        else
          match read_item body cursor with
          | Err e => Some (Err e)
          | Ok (h, payload, next_cursor) =>
              match take_item s h payload with
              | Err e => Some (Err e)
              | Ok s => item_loop fuel body next_cursor s
              end
          end
    end.

(** After the loop. *)
Definition finish (event_id : option bytes) (dsn : option DsnAuth) (s : Lanes)
    : result ProtocolError ParsedEnvelope :=
  if is_none (ln_primary s) && is_empty (ln_signals s) && is_empty (ln_metrics s)
     && is_empty (ln_replay_events s) && is_empty (ln_replay_recordings s)
     && is_empty (ln_check_ins s) && is_empty (ln_discarded s)
     && (ln_client_report_quantity s =? 0)
  then Err (invalid "empty_envelope")
  else if negb (len (ln_replay_events s) =? len (ln_replay_recordings s))
  then Err (invalid "incomplete_replay_pair")
  else Ok {| en_event_id := event_id; en_dsn := dsn; en_primary := ln_primary s;
             en_signals := ln_signals s; en_metrics := ln_metrics s;
             en_replays := zip_with (λ event recording,
               {| rr_event := event; rr_recording := recording |})
               (ln_replay_events s) (ln_replay_recordings s);
             en_check_ins := ln_check_ins s; en_attachments := ln_attachments s;
             en_discarded := ln_discarded s;
             en_client_report_quantity := ln_client_report_quantity s |}.

Definition parse_envelope_with_attachments (body : bytes)
    : option (result ProtocolError ParsedEnvelope) :=
  match
    '(line, cursor) ← line_at body 0;
    header ← ok_or (invalid "invalid_envelope_header") (decode_envelope_header line);
    event_id ← parse_optional_event_id (wh_event_id header);
    dsn ← transpose parse_dsn (wh_dsn header);
    Ok (event_id, dsn, cursor)
  with
  | Err e => Some (Err e)
  | Ok (event_id, dsn, cursor) =>
      match item_loop (length body) body cursor lanes_empty with
      | None => None
      | Some (Err e) => Some (Err e)
      | Some (Ok s) => Some (finish event_id dsn s)
      end
  end.

End envelope.

Definition no_attachments : AttachmentLimits :=
  {| al_max_count := 0; al_max_item_bytes := 0; al_max_total_bytes := 0 |}.
Definition parse_envelope {Url} `{!UrlApi Url, !WireApi} (limits : EnvelopeLimits)
    (body : bytes) : option (result ProtocolError ParsedEnvelope) :=
  parse_envelope_with_attachments limits no_attachments body.

Definition parse_store_event (body : bytes) (max_event_bytes : Z)
    : result ProtocolError RawEvent :=
  if max_event_bytes <? len body then Err (too_large "event_too_large")
  else if is_empty body then Err (invalid "empty_event")
  else Ok {| re_header_event_id := None; re_bytes := body |}.

(** ** What an envelope is

    [frames rest items]: the bytes [rest] are the items, each a header line, a
    payload and a line break, which may be missing after the last.  A payload
    whose header gives a length may hold any byte. *)

Definition header_line (line : bytes) : Prop := (10 ∉ line) ∧ len line ≤ MAX_HEADER_BYTES.

Section frames.
Context `{!WireApi} (limits : EnvelopeLimits).

Definition payload_fits (h : WireItemHeader) (payload : bytes) : Prop :=
  match wi_length h with
  | Some size => size = len payload
  | None => (10 ∉ payload) ∧ len payload ≤ el_max_event_bytes limits
  end.
Inductive frames : bytes → list (WireItemHeader * bytes) → Prop :=
| frames_nil : frames [] []
| frames_item line h payload sep rest items :
    header_line line → decode_item_header line = Some h → payload_fits h payload →
    sep = [10] ∨ sep = [] ∧ rest = [] → frames rest items →
    frames (line ++ 10 :: payload ++ sep ++ rest) ((h, payload) :: items).

(** The items taken in order, without positions. *)
Fixpoint route (attachment_limits : AttachmentLimits) (s : Lanes)
    (items : list (WireItemHeader * bytes)) : result ProtocolError Lanes :=
  match items with
  | [] => Ok s
  | (h, payload) :: items' =>
      let s := count_item s in
      if el_max_items limits <? ln_item_count s then Err (too_large "too_many_items")
      else s ← take_item limits attachment_limits s h payload; route attachment_limits s items'
  end.

End frames.

(** The lengths in wire headers are unsigned. *)
Definition lengths_unsigned `{!WireApi} : Prop :=
  ∀ line h size, decode_item_header line = Some h → wi_length h = Some size → 0 ≤ size.

(** ** Lemmas: framing *)

Lemma position_Some b l n :
  position b l = Some n ↔ ∃ pre post, l = pre ++ b :: post ∧ (b ∉ pre) ∧ length pre = n.
Proof.
  revert n. induction l as [|x l IH]; intros n; cbn [position].
  - split; [done|]. by intros ([|x pre] & post & E & _).
  - destruct (Z.eqb_spec x b) as [->|Hx].
    + split.
      * intros [= <-]. exists [], l. split_and!; [done|apply not_elem_of_nil|done].
      * intros ([|y pre] & post & E & Hn & <-); [done|].
        injection E as <- _. by destruct Hn; apply list_elem_of_here.
    + rewrite fmap_Some. setoid_rewrite IH. split.
      * intros (m & (pre & post & -> & Hn & <-) & ->). exists (x :: pre), post.
        split_and!; [done| |done]. apply not_elem_of_cons. auto.
      * intros ([|y pre] & post & E & Hn & <-); injection E as -> E; [done|]. rewrite E.
        apply not_elem_of_cons in Hn as [_ Hn]. cbn. eauto 10.
Qed.
Lemma position_None b l : position b l = None ↔ b ∉ l.
Proof.
  induction l as [|x l IH]; cbn [position]; [split; [intros _; apply not_elem_of_nil|done]|].
  rewrite not_elem_of_cons. destruct (Z.eqb_spec x b) as [->|Hx].
  - split; [done|naive_solver].
  - rewrite fmap_None, IH. naive_solver.
Qed.

Lemma first_split (b : Z) pre post pre' post' :
  b ∉ pre → b ∉ pre' → pre ++ b :: post = pre' ++ b :: post' → pre = pre' ∧ post = post'.
Proof.
  revert pre'. induction pre as [|x pre IH]; intros [|x' pre'] Hn Hn' E; cbn in E.
  - by simplify_eq.
  - injection E as <- _. by destruct Hn'; apply list_elem_of_here.
  - injection E as -> _. by destruct Hn; apply list_elem_of_here.
  - injection E as -> E. apply not_elem_of_cons in Hn as [_ Hn], Hn' as [_ Hn'].
    by destruct (IH pre' Hn Hn' E) as [-> ->].
Qed.

Lemma line_at_Ok body start line next :
  line_at body start = Ok (line, next) ↔
  (start ≤ length body)%nat ∧ header_line line
  ∧ ∃ post, drop start body = line ++ 10 :: post ∧ next = (start + length line + 1)%nat.
Proof.
  unfold line_at, header_line, len. destruct (Nat.ltb_spec (length body) start) as [Hs|Hs].
  { split; [done|]. lia. }
  destruct (position 10 (drop start body)) as [n|] eqn:Hp; cbn [ok_or mbind result_bind].
  - apply position_Some in Hp as (pre & post & Hd & Hn & <-). rewrite Hd.
    destruct (Z.ltb_spec MAX_HEADER_BYTES (Z.of_nat (length pre))) as [Hl|Hl].
    + split; [done|]. intros (_ & [Hn' Hl'] & post' & E & _).
      apply first_split in E as [-> _]; [lia|done|done].
    + rewrite take_app_length. split.
      * intros [= <- <-]. split_and!; [done..|]. by exists post.
      * intros (_ & [Hn' _] & post' & E & ->). by apply first_split in E as [-> _].
  - split; [done|]. apply position_None in Hp. intros (_ & _ & post & E & _).
    destruct Hp. rewrite E. apply elem_of_app. right. apply list_elem_of_here.
Qed.

Lemma lengthless_payload_Ok body start max payload next :
  (start ≤ length body)%nat → len body ≤ U64_MAX → 0 ≤ max →
  lengthless_payload body start max = Ok (payload, next) ↔
  ∃ sep rest, drop start body = payload ++ sep ++ rest ∧ (10 ∉ payload) ∧ len payload ≤ max
    ∧ (sep = [10] ∨ sep = [] ∧ rest = []) ∧ next = (start + length payload + length sep)%nat.
Proof.
  intros Hs Hb Hm. unfold lengthless_payload.
  rewrite (proj2 (Nat.ltb_ge _ _) Hs).
  remember (drop start body) as remaining eqn:Er.
  assert (length remaining = length body - start)%nat as Hlr by (by subst; rewrite length_drop).
  remember (Z.to_nat (Z.min (len remaining) (sat_u64 (max + 1)))) as bounded eqn:Eb.
  assert (Z.of_nat bounded = Z.min (len remaining) (max + 1)) as Hbounded.
  { subst bounded. unfold sat_u64, saturate, len in *. lia. }
  clear Eb. unfold len in *.
  destruct (position 10 (take bounded remaining)) as [n|] eqn:Hp.
  - apply position_Some in Hp as (pre & post & Ht & Hn & <-).
    assert (length pre < bounded)%nat as Hlt.
    { apply (f_equal length) in Ht. rewrite length_take, length_app in Ht. cbn in Ht. lia. }
    assert (remaining = pre ++ 10 :: post ++ drop bounded remaining) as Hd.
    { rewrite <- (take_drop bounded remaining) at 1. rewrite Ht. by rewrite <- app_assoc. }
    remember (post ++ drop bounded remaining) as tl. rewrite Hd, take_app_length. split.
    + intros [= <- <-]. exists [10], tl. split_and!; [done|done|lia|by left|cbn; lia].
    + intros (sep & rest & E & Hn' & _ & [->|[-> ->]] & ->).
      * apply (first_split 10) in E as [-> _]; [|done..]. repeat f_equal; cbn; lia.
      * cbn in E. rewrite app_nil_r in E. destruct Hn'. rewrite <- E. apply elem_of_app.
        right. apply list_elem_of_here.
  - apply position_None in Hp. destruct (Z.ltb_spec max (Z.of_nat (length remaining))) as [Hl|Hl].
    + split; [done|]. intros (sep & rest & E & Hn & Hpl & [->|[-> ->]] & _); destruct Hp.
      * rewrite E. rewrite take_app. apply elem_of_app. right.
        replace (bounded - length payload)%nat with (S (bounded - length payload - 1)).
        { apply list_elem_of_here. }
        apply (f_equal length) in E. rewrite !length_app in E. cbn in E. lia.
      * rewrite !app_nil_r in E. subst payload. lia.
    + rewrite take_ge in Hp by lia. split.
      * intros [= <- <-]. exists [], []. rewrite !app_nil_r. split_and!; try done; [by right|cbn; lia].
      * intros (sep & rest & E & Hn & _ & [->|[-> ->]] & ->).
        { destruct Hp. rewrite E. apply elem_of_app. right. apply list_elem_of_here. }
        rewrite !app_nil_r in E. subst payload. cbn. f_equal. f_equal. lia.
Qed.

Lemma sized_payload_Ok body start size payload next :
  (start ≤ length body)%nat → len body ≤ U64_MAX → 0 ≤ size →
  sized_payload body start size = Ok (payload, next) ↔
  ∃ sep rest, drop start body = payload ++ sep ++ rest ∧ size = len payload
    ∧ (sep = [10] ∨ sep = [] ∧ rest = []) ∧ next = (start + length payload + length sep)%nat.
Proof.
  intros Hs Hb Hz. unfold sized_payload, len in *.
  assert (Hsmall : ∀ sep rest, drop start body = payload ++ sep ++ rest →
    size = Z.of_nat (length payload) → Z.of_nat start + size ≤ Z.of_nat (length body)).
  { intros sep rest E ->. apply (f_equal length) in E.
    rewrite length_drop, !length_app in E. lia. }
  unfold checked_u64, checked. destruct (in_range 0 U64_MAX (Z.of_nat start + size)) eqn:Hr.
  2:{ split; [done|]. intros (sep & rest & E & Hl & _). specialize (Hsmall _ _ E Hl).
      unfold in_range in Hr. lia. }
  cbn [ok_or mbind result_bind].
  destruct (Z.ltb_spec (Z.of_nat (length body)) (Z.of_nat start + size)) as [Ht|Ht].
  { split; [done|]. intros (sep & rest & E & Hl & _). specialize (Hsmall _ _ E Hl). lia. }
  replace (Z.to_nat (Z.of_nat start + size)) with (start + Z.to_nat size)%nat by lia.
  remember (Z.to_nat size) as n eqn:En. assert (size = Z.of_nat n) as -> by lia. clear En.
  replace (start + n - start)%nat with n by lia.
  assert (drop start body !! n = body !! (start + n)%nat) as Hlk by (by rewrite lookup_drop).
  remember (drop start body) as remaining eqn:Er.
  assert (length remaining = length body - start)%nat as Hlr by (by subst; rewrite length_drop).
  assert (length (take n remaining) = n) as Htk by (rewrite length_take; lia).
  destruct (Nat.ltb_spec (start + n) (length body)) as [Hlt|Hge].
  - rewrite <- Hlk. destruct (decide (remaining !! n = Some 10)) as [H10|H10].
    + rewrite bool_decide_eq_true_2 by done. cbn [negb].
      assert (remaining = take n remaining ++ [10] ++ drop (S n) remaining) as Hd.
      { cbn. by rewrite take_drop_middle. }
      split.
      * intros [= <- <-]. exists [10], (drop (S n) remaining).
        split_and!; [done|lia|by left|rewrite Htk; cbn; lia].
      * intros (sep & rest & E & Hl & [->|[-> ->]] & ->).
        { assert (length payload = n) as Hp by lia. subst n.
          rewrite E, take_app_length. repeat f_equal; cbn; lia. }
        rewrite !app_nil_r in E. subst payload. lia.
    + rewrite bool_decide_eq_false_2 by done. cbn [negb]. split; [done|].
      intros (sep & rest & E & Hl & [->|[-> ->]] & _).
      * destruct H10. rewrite E. assert (n = length payload) as -> by lia.
        by rewrite lookup_app_r, Nat.sub_diag by lia.
      * rewrite !app_nil_r in E. subst payload. lia.
  - rewrite take_ge by lia. split.
    + intros [= <- <-]. exists [], []. rewrite !app_nil_r. split_and!; [done|lia|by right|cbn; lia].
    + intros (sep & rest & E & Hl & [->|[-> ->]] & ->).
      * apply (f_equal length) in E. rewrite !length_app in E. cbn in E. lia.
      * rewrite !app_nil_r in E. subst payload. cbn. f_equal. f_equal. lia.
Qed.

(** After a prefix of what is left. *)
Lemma drop_more (body pre post : bytes) start :
  drop start body = pre ++ post → drop (start + length pre) body = post.
Proof. intros E. by rewrite <- drop_drop, E, drop_app_length. Qed.
Lemma drop_bound (body pre post : bytes) start :
  (start ≤ length body)%nat → drop start body = pre ++ post →
  (start + length pre + length post = length body)%nat.
Proof. intros Hs E. apply (f_equal length) in E. rewrite length_drop, length_app in E. lia. Qed.
Lemma drop_line body cursor line post :
  (cursor ≤ length body)%nat → drop cursor body = line ++ 10 :: post →
  drop (cursor + length line + 1) body = post ∧ (cursor + length line + 1 ≤ length body)%nat.
Proof.
  intros Hc E. change (10 :: post) with ([10] ++ post) in E. rewrite app_assoc in E.
  pose proof (drop_bound _ _ _ _ Hc E) as Hb. apply drop_more in E.
  rewrite length_app, Nat.add_assoc in *. cbn in *. split; [done|lia].
Qed.

Section parser_lemmas.
Context {Url : Type} `{!UrlApi Url} `{!WireApi}.
Context (limits : EnvelopeLimits) (attachment_limits : AttachmentLimits).
Context (Hmax : 0 ≤ el_max_event_bytes limits) (Hlengths : lengths_unsigned).

Lemma read_payload_Ok body start h line payload next :
  len body ≤ U64_MAX → (start ≤ length body)%nat → decode_item_header line = Some h →
  match wi_length h with
  | Some size => sized_payload body start size
  | None => lengthless_payload body start (el_max_event_bytes limits)
  end = Ok (payload, next) ↔
  ∃ sep rest, drop start body = payload ++ sep ++ rest ∧ payload_fits limits h payload
    ∧ (sep = [10] ∨ sep = [] ∧ rest = []) ∧ next = (start + length payload + length sep)%nat.
Proof.
  intros Hb Hs Hd. unfold payload_fits. destruct (wi_length h) as [size|] eqn:Hl.
  - rewrite sized_payload_Ok; [|done|done|by eapply Hlengths]. done.
  - rewrite lengthless_payload_Ok by done. split; [intros (sep & rest & ? & ? & ? & ? & ?)|intros (sep & rest & ? & [? ?] & ? & ?)];
      by exists sep, rest.
Qed.

Lemma read_item_Ok body cursor h payload next :
  len body ≤ U64_MAX →
  read_item limits body cursor = Ok (h, payload, next) ↔
  (cursor ≤ length body)%nat ∧ ∃ line sep rest,
    drop cursor body = line ++ 10 :: payload ++ sep ++ rest
    ∧ header_line line ∧ decode_item_header line = Some h ∧ payload_fits limits h payload
    ∧ (sep = [10] ∨ sep = [] ∧ rest = [])
    ∧ next = (cursor + length line + 1 + length payload + length sep)%nat.
Proof.
  intros Hb. unfold read_item. split.
  - intros ([line start] & Hline & Hi)%bind_Ok. apply bind_Ok in Hi as (h' & Hd & Hi).
    apply ok_or_Ok in Hd. apply bind_Ok in Hi as ([payload' next'] & Hp & [= -> -> ->]).
    apply line_at_Ok in Hline as (Hc & Hh & post & Hdrop & ->).
    destruct (drop_line _ _ _ _ Hc Hdrop) as [Hpost Hstart].
    apply (read_payload_Ok _ _ _ line) in Hp as (sep & rest & E & Hf & Hsep & ->); [|done..].
    split; [done|]. exists line, sep, rest. by rewrite Hdrop, <- Hpost, E.
  - intros (Hc & line & sep & rest & Hdrop & Hh & Hd & Hf & Hsep & ->).
    destruct (drop_line _ _ _ _ Hc Hdrop) as [Hpost Hstart].
    apply bind_Ok. exists (line, (cursor + length line + 1)%nat).
    split; [apply line_at_Ok; split_and!; [done|apply Hh..|by eexists]|].
    apply bind_Ok. exists h. split; [by apply ok_or_Ok|].
    apply bind_Ok. eexists (payload, _). split; [|reflexivity].
    apply (read_payload_Ok _ _ _ line); [done..|]. by exists sep, rest.
Qed.

(** The cursor after an item is where the rest of the items starts. *)
Lemma next_cursor body cursor line payload sep rest :
  (cursor ≤ length body)%nat → drop cursor body = line ++ 10 :: payload ++ sep ++ rest →
  let next := (cursor + length line + 1 + length payload + length sep)%nat in
  drop next body = rest ∧ (cursor < next ≤ length body)%nat.
Proof.
  intros Hc Hdrop. destruct (drop_line _ _ _ _ Hc Hdrop) as [Hpost Hstart].
  rewrite app_assoc in Hpost. pose proof (drop_bound _ _ _ _ Hstart Hpost) as Hb.
  apply drop_more in Hpost. rewrite length_app, Nat.add_assoc in *. cbn zeta. split; [done|lia].
Qed.

Lemma frames_nil_inv items : frames limits [] items → items = [].
Proof. inversion 1 as [|line ? ? ? ? ? ? ? ? ? ? E]; [done|]. by destruct line. Qed.

Lemma item_loop_sound fuel : ∀ body cursor s s',
  len body ≤ U64_MAX → (cursor ≤ length body)%nat →
  item_loop limits attachment_limits fuel body cursor s = Some (Ok s') →
  ∃ items, frames limits (drop cursor body) items
    ∧ route limits attachment_limits s items = Ok s'.
Proof.
  induction fuel as [|fuel IH]; intros body cursor s s' Hb Hc Hi; cbn [item_loop] in Hi;
    destruct (Nat.leb_spec (length body) cursor) as [Hle|Hgt]; try done.
  1-2: (injection Hi as ->; exists []; rewrite drop_ge by done; split; [constructor|done]).
  destruct (el_max_items limits <? ln_item_count (count_item s)) eqn:Hn; [done|].
  destruct (read_item limits body cursor) as [[[h payload] next]|e] eqn:Hr; [|done].
  apply read_item_Ok in Hr as (_ & line & sep & rest & Hdrop & Hh & Hd & Hf & Hsep & ->); [|done].
  destruct (next_cursor _ _ _ _ _ _ Hc Hdrop) as [Hrest Hnext].
  destruct (take_item limits attachment_limits (count_item s) h payload) as [s1|e] eqn:Ht; [|done].
  apply IH in Hi as (items & Hfr & Hro); [|done|apply Hnext]. rewrite Hrest in Hfr.
  exists ((h, payload) :: items). split; [rewrite Hdrop; by constructor|].
  cbn [route]. rewrite Hn, Ht. exact Hro.
Qed.

Lemma item_loop_complete rest items : frames limits rest items → ∀ fuel body cursor s s',
  len body ≤ U64_MAX → (cursor ≤ length body)%nat → drop cursor body = rest →
  (length rest ≤ fuel)%nat → route limits attachment_limits s items = Ok s' →
  item_loop limits attachment_limits fuel body cursor s = Some (Ok s').
Proof.
  induction 1 as [|line h payload sep rest items Hh Hd Hf Hsep _ IH];
    intros fuel body cursor s s' Hb Hc Hdrop Hfuel Hro.
  - apply (f_equal length) in Hdrop. rewrite length_drop in Hdrop. cbn in Hdrop.
    injection Hro as ->. destruct fuel; cbn [item_loop];
      by rewrite (proj2 (Nat.leb_le _ _)) by lia.
  - destruct (next_cursor _ _ _ _ _ _ Hc Hdrop) as [Hrest Hnext].
    rewrite length_app in Hfuel. cbn in Hfuel. rewrite !length_app in Hfuel.
    destruct fuel as [|fuel]; [lia|]. cbn [item_loop].
    rewrite (proj2 (Nat.leb_gt _ _)) by lia. cbn [route] in Hro.
    destruct (el_max_items limits <? ln_item_count (count_item s)); [done|].
    apply bind_Ok in Hro as (s1 & Ht & Hro).
    assert (read_item limits body cursor
            = Ok (h, payload, (cursor + length line + 1 + length payload + length sep)%nat)) as ->.
    { apply read_item_Ok; [done|]. split; [done|]. by exists line, sep, rest. }
    rewrite Ht. apply IH; [done|apply Hnext|exact Hrest|lia|exact Hro].
Qed.

Lemma item_loop_total fuel : ∀ body cursor s,
  len body ≤ U64_MAX → (cursor ≤ length body)%nat → (length body - cursor ≤ fuel)%nat →
  item_loop limits attachment_limits fuel body cursor s ≠ None.
Proof.
  induction fuel as [|fuel IH]; intros body cursor s Hb Hc Hfuel; cbn [item_loop];
    destruct (Nat.leb_spec (length body) cursor) as [Hle|Hgt]; try done; [lia|].
  destruct (el_max_items limits <? _); [done|].
  destruct (read_item limits body cursor) as [[[h payload] next]|e] eqn:Hr; [|done].
  apply read_item_Ok in Hr as (_ & line & sep & rest & Hdrop & _ & _ & _ & _ & ->); [|done].
  destruct (next_cursor _ _ _ _ _ _ Hc Hdrop) as [_ Hnext].
  destruct (take_item _ _ _ _ _); [|done]. apply IH; [done|apply Hnext|lia].
Qed.

End parser_lemmas.

(** ** Lemmas: the lanes *)

Section lanes.
Context `{!WireApi} (limits : EnvelopeLimits) (attachment_limits : AttachmentLimits).

Definition attachment_ok (a : RawAttachment) : Prop :=
  len (ra_bytes a) ≤ al_max_item_bytes attachment_limits
  ∧ Forall (λ v, len v ≤ 256 ∧ any_control v = false)
      [ra_filename a; ra_content_type a; ra_attachment_type a].
Definition attachments_ok (attachments : list RawAttachment) : Prop :=
  Forall attachment_ok attachments ∧ NoDup (map ra_position attachments)
  ∧ (attachments ≠ [] → len attachments ≤ al_max_count attachment_limits
       ∧ sum_map (λ a, len (ra_bytes a)) attachments ≤ al_max_total_bytes attachment_limits).
Definition event_bounded (payload : bytes) : Prop := len payload ≤ el_max_event_bytes limits.

Record lanes_ok (s : Lanes) : Prop := {
  ok_primary : ∀ e, ln_primary s = Some e → event_bounded (re_bytes e);
  ok_signals : Forall (λ x, event_bounded (rs_bytes x)) (ln_signals s);
  ok_metrics : Forall (λ x, event_bounded (rm_bytes x) ∧ 0 < rm_item_count x) (ln_metrics s);
  ok_replay_events : Forall event_bounded (ln_replay_events s);
  ok_replay_recordings :
    Forall (λ x, len x ≤ el_max_replay_bytes limits) (ln_replay_recordings s);
  ok_check_ins : Forall (λ x, event_bounded (rc_bytes x)) (ln_check_ins s);
  ok_attachments : attachments_ok (ln_attachments s);
  ok_attachment_bytes :
    ln_attachment_bytes s = sum_map (λ a, len (ra_bytes a)) (ln_attachments s);
  ok_positions : Forall (λ a, ra_position a ≤ ln_item_count s) (ln_attachments s);
}.

(** How many items are in the lanes. *)
Definition lanes_size (s : Lanes) : Z :=
  (if is_some (ln_primary s) then 1 else 0) + len (ln_signals s) + len (ln_metrics s)
  + len (ln_replay_events s) + len (ln_replay_recordings s) + len (ln_check_ins s)
  + len (ln_attachments s) + len (ln_discarded s).
Definition is_report (h : WireItemHeader) : bool :=
  match classify_item (unwrap_or (lit "event") (wi_kind h)) with
  | IClientReport => true
  | _ => false
  end.
Definition report_count (items : list (WireItemHeader * bytes)) : Z :=
  sum_map (λ i : WireItemHeader * bytes, if is_report i.1 then 1 else 0) items.

Lemma bounded_metadata_Ok v code v' :
  bounded_metadata v code = Ok v' → v' = v ∧ len v ≤ 256 ∧ any_control v = false.
Proof.
  unfold bounded_metadata. destruct ((256 <? len v) || any_control v) eqn:E; [done|].
  intros [= <-]. by bool_prop.
Qed.

(** What one item does to the lanes, the count of items apart. *)
Definition took (s : Lanes) (h : WireItemHeader) (s' : Lanes) : Prop :=
  lanes_ok s' ∧ ln_item_count s' = ln_item_count s
  ∧ lanes_size s' = lanes_size s + (if is_report h then 0 else 1).

Ltac lanes :=
  cbn [push_attachment push_signal push_metric push_replay_event push_replay_recording
    push_check_in push_discarded set_primary set_report_quantity count_item
    ln_primary ln_signals ln_metrics ln_replay_events ln_replay_recordings ln_check_ins
    ln_attachments ln_attachment_bytes ln_discarded ln_client_report_quantity ln_item_count].
Ltac lane_size := unfold lanes_size; lanes; autorewrite with rust; lia.

Lemma push_attachment_ok s a :
  lanes_ok s → Forall (λ a, ra_position a < ln_item_count s) (ln_attachments s) →
  attachment_ok a → ra_position a = ln_item_count s →
  len (ln_attachments s) < al_max_count attachment_limits →
  ln_attachment_bytes s + len (ra_bytes a) ≤ al_max_total_bytes attachment_limits →
  lanes_ok (push_attachment s a (ln_attachment_bytes s + len (ra_bytes a))).
Proof.
  intros [] Hpos Ha Hpa Hc Ht. destruct ok_attachments0 as (Hall & Hnd & Hlim).
  constructor; lanes; try done.
  - unfold attachments_ok. rewrite map_app, sum_map_app, <- ok_attachment_bytes0, len_app.
    split_and!.
    + by apply Forall_app, conj, Forall_singleton.
    + apply NoDup_app. split_and!; [done| |apply NoDup_singleton].
      intros x (y & -> & Hy)%list_elem_of_fmap Hx%list_elem_of_singleton.
      rewrite Forall_forall in Hpos. specialize (Hpos y Hy). cbn in Hpos. lia.
    + intros _. unfold len in *. cbn. lia.
  - rewrite ok_attachment_bytes0. autorewrite with rust. lia.
  - apply Forall_app. split; [done|]. apply Forall_singleton. lia.
Qed.

Lemma take_attachment_ok s h payload s' :
  lanes_ok s → Forall (λ a, ra_position a < ln_item_count s) (ln_attachments s) →
  take_attachment attachment_limits s h payload = Ok s' →
  lanes_ok s' ∧ ln_item_count s' = ln_item_count s ∧ lanes_size s' = lanes_size s + 1.
Proof.
  intros Hok Hpos. unfold take_attachment. case_test.
  { intros [= <-]. split; [destruct Hok; by constructor|]. split; [done|lane_size]. }
  case_test; [done|]. case_test; [done|]. intros (total & Htot & H1)%bind_Ok.
  apply ok_or_Ok in Htot. apply checked_Some in Htot as [-> _].
  destruct (al_max_total_bytes attachment_limits <? ln_attachment_bytes s + len payload) eqn:Ht;
    [done|].
  apply bind_Ok in H1 as (position & Hp & H1). apply ok_or_Ok in Hp.
  apply checked_Some in Hp as [-> _].
  apply bind_Ok in H1 as (f & Hf%bounded_metadata_Ok & H1).
  apply bind_Ok in H1 as (c & Hc%bounded_metadata_Ok & H1).
  apply bind_Ok in H1 as (a & Ha%bounded_metadata_Ok & [= <-]).
  destruct Hf as (-> & Hf), Hc as (-> & Hc), Ha as (-> & Ha). bool_prop.
  split; [|split; [done|]].
  - apply push_attachment_ok; [done|done| |done|done|done]. split; [done|].
    repeat (apply List.Forall_cons; [done|]). apply List.Forall_nil.
  - lane_size.
Qed.

Lemma take_item_ok s h payload s' :
  lanes_ok s → Forall (λ a, ra_position a < ln_item_count s) (ln_attachments s) →
  take_item limits attachment_limits s h payload = Ok s' → took s h s'.
Proof.
  intros Hok Hpos Ht. unfold take_item in Ht. unfold took, is_report.
  destruct (classify_item (unwrap_or (lit "event") (wi_kind h)));
    try (destruct (el_max_event_bytes limits <? len payload) eqn:Hl; [done|]; bool_prop).
  - destruct (ln_primary s) as [e|] eqn:Hp; [done|]. cbn [is_some] in Ht.
    apply bind_Ok in Ht as (id & _ & [= <-]). split; [|split; [done|]].
    + destruct Hok. constructor; try done. by intros e [= <-].
    + unfold lanes_size. rewrite Hp. cbn. lia.
  - injection Ht as <-. split; [|split; [done|lane_size]]. destruct Hok. constructor; try done.
    by apply Forall_app, conj, Forall_singleton.
  - destruct (negb _); [done|]. destruct (wi_item_count h) as [count|]; [|done].
    destruct (Z.ltb_spec 0 count); [|done]. injection Ht as <-. split; [|split; [done|lane_size]].
    destruct Hok. constructor; try done. by apply Forall_app, conj, Forall_singleton.
  - injection Ht as <-. split; [|split; [done|lane_size]]. destruct Hok. constructor; try done.
    by apply Forall_app, conj, Forall_singleton.
  - destruct (el_max_replay_bytes limits <? len payload) eqn:Hl; [done|]. bool_prop.
    injection Ht as <-. split; [|split; [done|lane_size]]. destruct Hok. constructor; try done.
    by apply Forall_app, conj, Forall_singleton.
  - injection Ht as <-. split; [|split; [done|lane_size]]. destruct Hok. constructor; try done.
    by apply Forall_app, conj, Forall_singleton.
  - apply bind_Ok in Ht as (q & _ & [= <-]). split; [|split; [done|lane_size]].
    destruct Hok. by constructor.
  - by apply (take_attachment_ok s h payload).
  - injection Ht as <-. split; [|split; [done|lane_size]]. destruct Hok. by constructor.
  - injection Ht as <-. split; [|split; [done|lane_size]]. destruct Hok. by constructor.
Qed.

Lemma count_item_ok s : lanes_ok s →
  lanes_ok (count_item s)
  ∧ Forall (λ a, ra_position a < ln_item_count (count_item s)) (ln_attachments (count_item s)).
Proof.
  intros []. split; [constructor; try done|].
  - eapply Forall_impl; [exact ok_positions0|]. cbn. lia.
  - eapply Forall_impl; [exact ok_positions0|]. cbn. lia.
Qed.

Lemma route_ok items : ∀ s s', lanes_ok s → route limits attachment_limits s items = Ok s' →
  lanes_ok s' ∧ ln_item_count s' = ln_item_count s + len items
  ∧ (items ≠ [] → ln_item_count s' ≤ el_max_items limits)
  ∧ lanes_size s' + report_count items = lanes_size s + len items.
Proof.
  unfold report_count. induction items as [|[h payload] items IH]; intros s s' Hok; cbn [route].
  - intros [= <-]. autorewrite with rust. split_and!; [done|lia|done|lia].
  - destruct (el_max_items limits <? ln_item_count (count_item s)) eqn:Hn; [done|]. bool_prop.
    intros (s1 & Ht & Hr)%bind_Ok. destruct (count_item_ok s Hok) as [Hok1 Hpos].
    apply take_item_ok in Ht as (Hok2 & Hc & Hs); [|done..].
    apply IH in Hr as (Hok3 & Hc3 & Hl & Hs3); [|done].
    assert (lanes_size (count_item s) = lanes_size s) as Hcs by done.
    autorewrite with rust. cbn [fst]. cbn in Hc. split_and!; [done|lia| |].
    + intros _. destruct items as [|i items]; [|by apply Hl]. autorewrite with rust in Hc3.
      cbn in Hn. lia.
    + destruct (is_report h); lia.
Qed.

Lemma replays_bounded (P Q : bytes → Prop) l k : Forall P l → Forall Q k →
  Forall (λ x, P (rr_event x) ∧ Q (rr_recording x))
    (zip_with (λ event recording, {| rr_event := event; rr_recording := recording |}) l k).
Proof.
  intros Hl. revert k. induction Hl as [|x l Hx _ IH]; intros [|y k] Hk; cbn; try constructor.
  - by inversion Hk.
  - apply IH. by inversion Hk.
Qed.

Lemma lanes_empty_ok : lanes_ok lanes_empty.
Proof.
  constructor; cbn; try constructor; try done. split; [constructor|done].
Qed.

End lanes.

(** ** Theorems *)

Section theorems.
Context {Url : Type} `{!UrlApi Url} `{!WireApi}.
Context (limits : EnvelopeLimits) (attachment_limits : AttachmentLimits).
Context (Hmax : 0 ≤ el_max_event_bytes limits) (Hlengths : lengths_unsigned).

(** The header of an envelope and the items after it. *)
Definition envelope_of (body : bytes) (event_id : option bytes) (dsn : option DsnAuth)
    (items : list (WireItemHeader * bytes)) : Prop :=
  ∃ line header rest,
    body = line ++ 10 :: rest ∧ header_line line
    ∧ decode_envelope_header line = Some header
    ∧ parse_optional_event_id (wh_event_id header) = Ok event_id
    ∧ transpose parse_dsn (wh_dsn header) = Ok dsn
    ∧ frames limits rest items.

Lemma parse_envelope_spec body e : len body ≤ U64_MAX →
  parse_envelope_with_attachments limits attachment_limits body = Some (Ok e) ↔
  ∃ event_id dsn items s, envelope_of body event_id dsn items
    ∧ route limits attachment_limits lanes_empty items = Ok s ∧ finish event_id dsn s = Ok e.
Proof.
  intros Hb. unfold parse_envelope_with_attachments. split.
  - match goal with |- context [match ?r with Ok _ => _ | Err _ => _ end] =>
      destruct r as [[[event_id dsn] cursor]|err] eqn:E end; [|done].
    apply bind_Ok in E as ([line c] & Hline & E).
    apply line_at_Ok in Hline as (_ & Hh & rest & Hdrop & Hc). rewrite drop_0 in Hdrop.
    apply bind_Ok in E as (header & Hd & E). apply ok_or_Ok in Hd.
    apply bind_Ok in E as (id & Hid & E). apply bind_Ok in E as (d & Hdsn & E).
    injection E as -> -> ->.
    destruct (item_loop _ _ _ _ _ _) as [[s|err]|] eqn:Hl; [|done|done]. intros [= Hf].
    assert (cursor = (0 + length line + 1)%nat) as -> by lia.
    destruct (drop_line body 0 line rest) as [Hrest Hle]; [lia|by rewrite drop_0|].
    apply item_loop_sound in Hl as (items & Hfr & Hr); [|done..]. rewrite Hrest in Hfr.
    exists event_id, dsn, items, s. split; [|done]. by exists line, header, rest.
  - intros (event_id & dsn & items & s & (line & header & rest & -> & Hh & Hd & Hid & Hdsn & Hfr)
      & Hr & Hf).
    assert (line_at (line ++ 10 :: rest) 0 = Ok (line, (0 + length line + 1)%nat)) as ->.
    { apply line_at_Ok. split_and!; [lia|apply Hh..|]. by exists rest. }
    cbn [mbind result_bind]. rewrite Hd. cbn [ok_or mbind result_bind]. rewrite Hid.
    cbn [mbind result_bind]. rewrite Hdsn. cbn [mbind result_bind].
    destruct (drop_line (line ++ 10 :: rest) 0 line rest) as [Hrest Hle]; [lia|done|].
    rewrite (item_loop_complete limits attachment_limits Hmax Hlengths rest items Hfr _ _ _ _ s);
      [by rewrite Hf|done|done|done| |done].
    rewrite length_app. cbn. lia.
Qed.

Lemma parse_envelope_total body : len body ≤ U64_MAX →
  parse_envelope_with_attachments limits attachment_limits body ≠ None.
Proof.
  intros Hb. unfold parse_envelope_with_attachments.
  match goal with |- context [match ?r with Ok _ => _ | Err _ => _ end] =>
    destruct r as [[[event_id dsn] cursor]|err] eqn:E end; [|done].
  apply bind_Ok in E as ([line c] & Hline & E).
  apply line_at_Ok in Hline as (H0 & _ & rest & Hdrop & Hc).
  destruct (drop_line body 0 line rest H0 Hdrop) as [_ Hle].
  apply bind_Ok in E as (header & _ & E). apply bind_Ok in E as (id & _ & E).
  apply bind_Ok in E as (d & _ & E). injection E as -> -> ->.
  destruct (item_loop _ _ _ _ _ _) as [[s|err]|] eqn:Hl; [done|done|].
  apply item_loop_total in Hl; [done|done|done|done|lia|lia].
Qed.

(** C19. The envelope parser always answers, and what it accepts is exactly
    what the framing says: a header line, then items whose payloads are
    delimited by their stated length, or by a line break when none is stated,
    each given to its lane in order.  No byte of a payload of stated length
    influences the framing. *)
Theorem envelope_iff_frames body :
  len body ≤ U64_MAX →
  (∃ r, parse_envelope_with_attachments limits attachment_limits body = Some r)
  ∧ ∀ e, parse_envelope_with_attachments limits attachment_limits body = Some (Ok e) ↔
      ∃ event_id dsn items s, envelope_of body event_id dsn items
        ∧ route limits attachment_limits lanes_empty items = Ok s ∧ finish event_id dsn s = Ok e.
Proof.
  intros Hb. split; [|intros e; by apply parse_envelope_spec].
  destruct (parse_envelope_with_attachments limits attachment_limits body) as [r|] eqn:E;
    [by exists r|]. by apply parse_envelope_total in E.
Qed.

(** An accepted envelope keeps every limit: the number of items, the size
    of each payload, the number, size and total size of the attachments, whose
    positions are distinct and whose texts are short and without control
    characters; and every item that is no client report is in exactly one
    lane. *)
Theorem envelope_within_limits body e :
  len body ≤ U64_MAX →
  parse_envelope_with_attachments limits attachment_limits body = Some (Ok e) →
  ∃ event_id dsn items, envelope_of body event_id dsn items
    ∧ len items ≤ Z.max 0 (el_max_items limits)
    ∧ len items = report_count items + (if is_some (en_primary e) then 1 else 0)
        + len (en_signals e) + len (en_metrics e) + 2 * len (en_replays e)
        + len (en_check_ins e) + len (en_attachments e) + len (en_discarded e)
    ∧ (∀ x, en_primary e = Some x → event_bounded limits (re_bytes x))
    ∧ Forall (λ x, event_bounded limits (rs_bytes x)) (en_signals e)
    ∧ Forall (λ x, event_bounded limits (rm_bytes x) ∧ 0 < rm_item_count x) (en_metrics e)
    ∧ Forall (λ x, event_bounded limits (rr_event x)
                   ∧ len (rr_recording x) ≤ el_max_replay_bytes limits) (en_replays e)
    ∧ Forall (λ x, event_bounded limits (rc_bytes x)) (en_check_ins e)
    ∧ attachments_ok attachment_limits (en_attachments e).
Proof.
  intros Hb (event_id & dsn & items & s & He & Hr & Hf)%parse_envelope_spec; [|done].
  exists event_id, dsn, items. split; [done|].
  apply route_ok in Hr as ([] & Hc & Hl & Hs); [|apply lanes_empty_ok].
  unfold finish in Hf. destruct (is_none _ && _ && _ && _ && _ && _ && _ && _); [done|].
  destruct (negb _) eqn:Hrep; [done|]. injection Hf as <-. bool_prop. cbn [en_primary en_signals
    en_metrics en_replays en_check_ins en_attachments en_discarded].
  assert (length (ln_replay_events s) = length (ln_replay_recordings s)) as Hlen
    by (unfold len in *; lia).
  split_and!; try done.
  - destruct items as [|i items]; [unfold len; cbn; lia|]. cbn in Hc. specialize (Hl ltac:(done)). lia.
  - unfold lanes_size in Hs. cbn [lanes_empty ln_primary] in Hs.
    assert (len (zip_with (λ event recording, {| rr_event := event; rr_recording := recording |})
      (ln_replay_events s) (ln_replay_recordings s)) = len (ln_replay_events s)) as ->
      by (unfold len; rewrite length_zip_with; lia).
    cbn [is_some lanes_empty ln_signals ln_metrics ln_replay_events ln_replay_recordings
      ln_check_ins ln_attachments ln_discarded] in Hs. unfold len in *. cbn in Hs. lia.
  - by apply (replays_bounded _ (λ x, len x ≤ el_max_replay_bytes limits)).
Qed.

End theorems.

(** A wire format for the witnesses: an item header is a kind, a space and the
    length of the payload; the other texts decode to nothing. *)
Definition sample_header (line : bytes) : option WireItemHeader :=
  '(kind, size) ← split_once 32 line;
  size ← parse_u64 size;
  Some {| wi_kind := Some kind; wi_length := Some (Z.abs size); wi_event_id := None;
          wi_filename := None; wi_content_type := None; wi_attachment_type := None;
          wi_item_count := None |}.
#[local] Instance sample_wire : WireApi := {|
  decode_envelope_header _ := Some {| wh_event_id := None; wh_dsn := None |};
  decode_item_header := sample_header;
  decode_client_report _ := None;
  form_urlencoded_parse _ := [];
|}.
#[local] Instance sample_url : UrlApi unit := {|
  url_parse _ := None; url_scheme _ := []; url_host_str _ := None; url_username _ := [];
  url_password _ := None; url_query _ := None; url_fragment _ := None;
  url_port_or_known_default _ := None; url_path _ := []; url_path_segments _ := None; url_query_pairs _ := [];
  url_clear_query u := u; url_append_pair u _ _ := u; url_clear_password _ := None;
  url_set_username _ _ := None; url_to_string _ := []; url_remove_query u := u; url_remove_fragment u := u;
|}.
Definition sample_limits : EnvelopeLimits :=
  {| el_max_items := 3; el_max_event_bytes := 20; el_max_replay_bytes := 20 |}.
Definition sample_attachments : AttachmentLimits :=
  {| al_max_count := 1; al_max_item_bytes := 4; al_max_total_bytes := 4 |}.
(** The payload of the event holds a line break. *)
Definition sample_envelope : bytes :=
  lit "{}" ++ 10 :: lit "event 3" ++ 10 :: [97; 10; 98] ++ 10 :: lit "attachment 2" ++ 10
  :: [120; 121].

Lemma sample_lengths : lengths_unsigned.
Proof.
  intros line h size Hd Hs. cbn in Hd. unfold sample_header in Hd.
  destruct (split_once 32 line) as [[kind text]|]; [|done]. cbn in Hd.
  destruct (parse_u64 text) as [n|]; [|done]. cbn in Hd. injection Hd as <-.
  injection Hs as <-. apply Z.abs_nonneg.
Qed.

Lemma envelope_iff_frames_witness :
  ∃ e, parse_envelope_with_attachments sample_limits sample_attachments sample_envelope
       = Some (Ok e)
    ∧ re_bytes <$> en_primary e = Some [97; 10; 98]
    ∧ ∃ event_id dsn items s, envelope_of sample_limits sample_envelope event_id dsn items
        ∧ route sample_limits sample_attachments lanes_empty items = Ok s
        ∧ finish event_id dsn s = Ok e.
Proof.
  destruct (parse_envelope_with_attachments sample_limits sample_attachments sample_envelope)
    as [[e|]|] eqn:E; [|vm_compute in E; discriminate E..].
  exists e. split; [reflexivity|]. split; [vm_compute in E; injection E as <-; reflexivity|].
  apply (envelope_iff_frames sample_limits sample_attachments); [cbn; lia|exact sample_lengths| |exact E].
  vm_compute. discriminate.
Defined.

Lemma envelope_within_limits_witness :
  ∃ e, parse_envelope_with_attachments sample_limits sample_attachments sample_envelope
       = Some (Ok e)
    ∧ len (en_attachments e) = 1 ∧ attachments_ok sample_attachments (en_attachments e).
Proof.
  destruct (parse_envelope_with_attachments sample_limits sample_attachments sample_envelope)
    as [[e|]|] eqn:E; [|vm_compute in E; discriminate E..].
  exists e. split; [reflexivity|]. split; [vm_compute in E; injection E as <-; reflexivity|].
  destruct (envelope_within_limits sample_limits sample_attachments ltac:(cbn; lia)
    sample_lengths sample_envelope e ltac:(vm_compute; discriminate) E)
    as (? & ? & ? & _ & _ & _ & _ & _ & _ & _ & _ & H). exact H.
Defined.
