(* ===== verification/Effects.v ===== *)
(** * Services as programs over ports

    A service of the application crate calls the traits of [ports]: stores,
    the clock, the random source.  Its methods are programs: trees of calls, each
    continued by what the port answered.  The theorems about a program
    quantify over the answers, so they hold for every store, every failure,
    every timeout and every change other threads make between two calls.  A
    method whose future is dropped makes a prefix of its calls, which [sat]
    covers, since it speaks of every call as it is made. *)
From stdpp Require Import base list sets.
From S2P Require Import Prelude.

(** The calls of a group of ports, with the type of their answers. *)
Record signature := Signature { call :> Type; answer : call → Type }.
Arguments answer : clear implicits.

Inductive prog (E : signature) (A : Type) : Type :=
| Ret (a : A)
| Vis (c : call E) (k : answer E c → prog E A).
Arguments Ret {E A} a.
Arguments Vis {E A} c k.

#[global] Instance prog_ret {E} : MRet (prog E) := λ A a, Ret a.
#[global] Instance prog_bind {E} : MBind (prog E) := λ A B f,
  fix go p := match p with Ret a => f a | Vis c k => Vis c (λ x, go (k x)) end.

(** One call. *)
Definition perform {E} (c : call E) : prog E (answer E c) := Vis c Ret.

(** [future.await?]: the error of the call is the error of the method. *)
Definition attempt {E X A B} (p : prog E (result X A)) (f : A → prog E (result X B))
    : prog E (result X B) :=
  p ≫= λ r, match r with Ok a => f a | Err e => Ret (Err e) end.
(** [value?] of a result that is there. *)
Definition attempt_pure {E X A B} (r : result X A) (f : A → prog E (result X B))
    : prog E (result X B) :=
  match r with Ok a => f a | Err e => Ret (Err e) end.
(** [future.await.map_err(f)]. *)
Definition map_err_p {E X F A} (f : X → F) (p : prog E (result X A))
    : prog E (result F A) := p ≫= λ r, Ret (map_err f r).

Declare Scope prog_scope.
Delimit Scope prog_scope with prog.
Notation "x ←? y ; z" := (attempt y (λ x : _, z))
  (at level 20, y at level 100, z at level 200, only parsing) : prog_scope.
Notation "' x ←? y ; z" := (attempt y (λ x : _, z))
  (at level 20, x pattern, y at level 100, z at level 200, only parsing) : prog_scope.
Notation "x ←! y ; z" := (attempt_pure y (λ x : _, z))
  (at level 20, y at level 100, z at level 200, only parsing) : prog_scope.

(** An event is a call with its answer. *)
Definition event (E : signature) : Type := { c : call E & answer E c }.
Definition answered {E} (c : call E) (x : answer E c) (h : list (event E)) : Prop :=
  existT c x ∈ h.
Arguments answered {E} c x h : simpl never.

(** [exec p tr a]: answered as in [tr], the program returns [a]. *)
Fixpoint exec {E A} (p : prog E A) (tr : list (event E)) (a : A) : Prop :=
  match p with
  | Ret b => tr = [] ∧ a = b
  | Vis c k => ∃ x tr', tr = existT c x :: tr' ∧ exec (k x) tr' a
  end.

(** [sat guar post h p]: after the history [h], whatever the ports answer, each
    call of [p] satisfies [guar] of the history before it, and the value
    returned satisfies [post] of the whole history. *)
Fixpoint sat {E A} (guar : list (event E) → call E → Prop)
    (post : list (event E) → A → Prop) (h : list (event E)) (p : prog E A) : Prop :=
  match p with
  | Ret a => post h a
  | Vis c k => guar h c ∧ ∀ x, sat guar post (h ++ [existT c x]) (k x)
  end.

(** A handler answers a call from a state; [run] is the execution under it. *)
Definition handler (E : signature) (S : Type) := ∀ c : call E, S → S * answer E c.
Fixpoint run {E S A} (h : handler E S) (p : prog E A) (s : S) : S * list (event E) * A :=
  match p with
  | Ret a => (s, [], a)
  | Vis c k =>
      let '(s, x) := h c s in
      let '(s, tr, a) := run h (k x) s in (s, existT c x :: tr, a)
  end.

(** A world that answers a call the same way every time. *)
Definition oracle (E : signature) := ∀ c : call E, answer E c.
Fixpoint consult {E A} (o : oracle E) (p : prog E A) : A :=
  match p with
  | Ret a => a
  | Vis c k => consult o (k (o c))
  end.

(** ** The program logic *)

Section laws.
Context {E : signature}.
Implicit Types h tr : list (event E).

Lemma exec_bind {A B} (p : prog E A) (f : A → prog E B) tr b :
  exec (p ≫= f) tr b ↔ ∃ tr1 tr2 a, tr = tr1 ++ tr2 ∧ exec p tr1 a ∧ exec (f a) tr2 b.
Proof.
  revert tr. induction p as [a|c k IH]; intros tr.
  - cbn. split; [intros H; by exists [], tr, a|]. by intros (? & ? & ? & -> & [-> ->] & H).
  - split.
    + intros (x & tr' & -> & H). apply IH in H as (t1 & t2 & a & -> & H1 & H2).
      exists (existT c x :: t1), t2, a. split_and!; [done| |done]. by exists x, t1.
    + intros (t1 & t2 & a & -> & (x & t1' & -> & H1) & H2).
      exists x, (t1' ++ t2). split; [done|]. apply IH. by exists t1', t2, a.
Qed.

Lemma exec_attempt {X A B} (p : prog E (result X A)) (f : A → prog E (result X B)) tr r :
  exec (attempt p f) tr r ↔
    (∃ e, r = Err e ∧ exec p tr (Err e))
    ∨ ∃ tr1 tr2 a, tr = tr1 ++ tr2 ∧ exec p tr1 (Ok a) ∧ exec (f a) tr2 r.
Proof.
  unfold attempt. rewrite exec_bind. split.
  - intros (t1 & t2 & [a|e] & -> & H1 & H2); [right; by exists t1, t2, a|].
    destruct H2 as [-> ->]. left. exists e. by rewrite app_nil_r.
  - intros [(e & -> & H)|(t1 & t2 & a & -> & H1 & H2)].
    + exists tr, [], (Err e). by rewrite app_nil_r.
    + by exists t1, t2, (Ok a).
Qed.

Lemma sat_bind {A B} guar post h (p : prog E A) (f : A → prog E B) :
  sat guar post h (p ≫= f) ↔ sat guar (λ h a, sat guar post h (f a)) h p.
Proof.
  revert h. induction p as [a|c k IH]; intros h; [done|]. cbn.
  split; intros [? H]; (split; [done|]); intros x; by apply IH.
Qed.

Lemma sat_mono {A} (guar guar' : list (event E) → call E → Prop)
    (post post' : list (event E) → A → Prop) h p :
  (∀ h c, guar h c → guar' h c) → (∀ h a, post h a → post' h a) →
  sat guar post h p → sat guar' post' h p.
Proof.
  intros Hg Hp. revert h. induction p as [a|c k IH]; intros h; cbn; [auto|].
  intros [? H]. split; [auto|]. intros x. by apply IH.
Qed.

Lemma sat_attempt {X A B} guar post h (p : prog E (result X A))
    (f : A → prog E (result X B)) :
  sat guar post h (attempt p f) ↔
  sat guar (λ h r, match r with
                   | Ok a => sat guar post h (f a)
                   | Err e => post h (Err e) end) h p.
Proof.
  unfold attempt. rewrite sat_bind.
  split; apply sat_mono; try done; intros h' [a|e]; cbn; done.
Qed.

Lemma sat_attempt_pure {X A B} guar post h (r : result X A)
    (f : A → prog E (result X B)) :
  (∀ a, r = Ok a → sat guar post h (f a)) →
  (∀ e, r = Err e → post h (Err e)) →
  sat guar post h (attempt_pure r f).
Proof. destruct r; cbn; auto. Qed.

(** A history only grows. *)
Lemma sat_suffix {A} guar post h (p : prog E A) :
  sat guar post h p → sat guar (λ h' a, h `prefix_of` h' ∧ post h' a) h p.
Proof.
  intros H. assert (G : ∀ h0, h0 `prefix_of` h →
    sat guar (λ h' a, h0 `prefix_of` h' ∧ post h' a) h p); [|by apply G].
  revert h H. induction p as [a|c k IH]; intros h; cbn; [done|].
  intros [Hg H] h0 Hh. split; [done|]. intros x. apply IH; [done|].
  etrans; [done|]. by eexists.
Qed.

(** The logic is sound: an execution makes only guarded calls and returns a
    value that satisfies the postcondition. *)
Lemma sat_exec {A} guar post h (p : prog E A) tr a :
  sat guar post h p → exec p tr a →
  post (h ++ tr) a ∧ ∀ t1 c x t2, tr = t1 ++ existT c x :: t2 → guar (h ++ t1) c.
Proof.
  revert h tr. induction p as [b|c k IH]; intros h tr; cbn.
  - intros H [-> ->]. rewrite app_nil_r. split; [done|]. by intros [] ? ? ? [=].
  - intros [Hg H] (x & tr' & -> & Hx). destruct (IH x _ _ (H x) Hx) as [Hp Hc].
    rewrite <- app_assoc in Hp. split; [done|].
    intros [|e t1] c' x' t2 [= H1 H2].
    + rewrite app_nil_r. by subst c'.
    + subst. specialize (Hc _ _ _ _ eq_refl). by rewrite <- app_assoc in Hc.
Qed.

(** And complete for postconditions. *)
Lemma exec_sat {A} (post : list (event E) → A → Prop) h (p : prog E A) :
  (∀ tr a, exec p tr a → post (h ++ tr) a) → sat (λ _ _, True) post h p.
Proof.
  revert h. induction p as [b|c k IH]; intros h H; cbn.
  - specialize (H [] b). rewrite app_nil_r in H. by apply H.
  - split; [done|]. intros x. apply IH. intros tr a Hx. rewrite <- app_assoc.
    apply H. by exists x, tr.
Qed.

Lemma run_exec {S A} (h : handler E S) (p : prog E A) s :
  let '(_, tr, a) := run h p s in exec p tr a.
Proof.
  revert s. induction p as [a|c k IH]; intros s; cbn; [done|].
  destruct (h c s) as [s' x]. specialize (IH x s').
  destruct (run h (k x) s') as [[s'' tr] a]. by exists x, tr.
Qed.

Lemma run_bind {S A B} (h : handler E S) (p : prog E A) (f : A → prog E B) s :
  run h (p ≫= f) s =
    let '(s, t1, a) := run h p s in
    let '(s, t2, b) := run h (f a) s in (s, t1 ++ t2, b).
Proof.
  revert s. induction p as [a|c k IH]; intros s; cbn.
  - by destruct (run h (f a) s) as [[? ?] ?].
  - destruct (h c s) as [s' x]. change (mbind f (k x)) with (k x ≫= f). rewrite IH.
    destruct (run h (k x) s') as [[s'' t1] a].
    by destruct (run h (f a) s'') as [[? ?] ?].
Qed.

Lemma consult_bind {A B} (o : oracle E) (p : prog E A) (f : A → prog E B) :
  consult o (p ≫= f) = consult o (f (consult o p)).
Proof. induction p as [a|c k IH]; [done|]. apply IH. Qed.

Lemma consult_attempt {X A B} (o : oracle E) (p : prog E (result X A))
    (f : A → prog E (result X B)) :
  consult o (attempt p f) =
    match consult o p with Ok a => consult o (f a) | Err e => Err e end.
Proof. unfold attempt. rewrite consult_bind. by destruct (consult o p). Qed.

(** What a program returns is what some execution returns. *)
Lemma consult_exec {A} (o : oracle E) (p : prog E A) : ∃ tr, exec p tr (consult o p).
Proof.
  induction p as [a|c k IH]; [by exists []|]. destruct (IH (o c)) as [tr Htr].
  exists (existT c (o c) :: tr), (o c), tr. by split.
Qed.

End laws.

(** An answer once given stays in the history. *)
Lemma answered_app {E : signature} (c : call E) x h h' :
  answered c x h → answered c x (h ++ h').
Proof. unfold answered. set_solver. Qed.
Lemma answered_last {E : signature} (c : call E) x h :
  answered c x (h ++ [existT c x]).
Proof. unfold answered. set_solver. Qed.
Lemma answered_prefix {E : signature} (c : call E) x h h' :
  h `prefix_of` h' → answered c x h → answered c x h'.
Proof. intros [k ->]. apply answered_app. Qed.

#[export] Hint Resolve answered_app answered_last answered_prefix : rust.
