(* ===== verification/Auth.v ===== *)
(** * Identities, permissions and credentials

    [domain/src/auth.rs]: user and credential identifiers, e-mail addresses,
    roles and permissions with the permission set as a 32-bit word, the records
    of sessions, tokens and audit entries.  A secret or a digest is its 32
    bytes; Debug output is not modelled. *)
From stdpp Require Import base list numbers strings sets gmap.
From Stdlib Require Import ZArith Lia.
From S2P Require Import Prelude Primitives.

Definition MAX_AUDIT_METADATA : Z := 12.

Inductive AuthValueError :=
| AvInvalidIdentifier | AvInvalidEmail | AvUnknownScope | AvInvalidAuditMetadata.

(** [UserId] and [CredentialId]: a positive value below 2^63. *)
Abbreviation UserId := Z.
Abbreviation CredentialId := Z.
Abbreviation OrganizationId := Z.
Definition u63_id_new (value : Z) : result AuthValueError Z :=
  if negb (value =? 0) && (value <=? I64_MAX) then Ok value else Err AvInvalidIdentifier.
Definition user_id_new := u63_id_new.
Definition credential_id_new := u63_id_new.

Record EmailAddress := {
  em_display : str;
  em_canonical : str;
}.

Definition is_ascii (s : str) : bool := forallb (λ b, b <? 128) s.

Definition email_parse (display : str) : result AuthValueError EmailAddress :=
  let valid := non_empty display && (len display <=? 254) && is_ascii display
    && negb (existsb (λ b, is_ascii_control b || is_ascii_whitespace b) display) in
  if negb valid then Err AvInvalidEmail
  else
    match rsplit_once 64 display with
    | None => Err AvInvalidEmail
    | Some (localp, domain) =>
        if is_empty localp || is_empty domain || (64 <? len localp)
           || starts_with (lit ".") domain || ends_with (lit ".") domain
           || negb (existsb (Z.eqb 46) domain)
        then Err AvInvalidEmail
        else Ok {| em_display := display; em_canonical := to_ascii_lowercase display |}
    end.

(** [PasswordHash::new]. *)
Definition password_hash_new (value : str) : result AuthValueError str :=
  if is_empty value || (512 <? len value) || any_control value then Err AvInvalidIdentifier
  else Ok value.

(** ** Roles and permissions *)

Inductive OrganizationRole := ROwner | RAdmin | RMember | RViewer.
#[global] Instance role_eq_dec : EqDecision OrganizationRole.
Proof. solve_decision. Defined.

Definition role_name (r : OrganizationRole) : str :=
  lit match r with
      | ROwner => "owner" | RAdmin => "admin" | RMember => "member" | RViewer => "viewer"
      end.

Inductive Permission :=
| EventRead | IssueRead | IncidentExport | IssueWrite | ProjectRead | ProjectAdmin
| DebugFileRead | DebugFileWrite | DebugFileDelete | ArtifactRead | ArtifactWrite
| ArtifactDelete | ReleaseRead | ReleaseWrite | OrganizationAdmin | OrganizationOwner
| OrganizationDelete.
#[global] Instance permission_eq_dec : EqDecision Permission.
Proof. solve_decision. Defined.

(** [Permission::ALL]. *)
Definition permission_all : list Permission :=
  [EventRead; IssueRead; IncidentExport; IssueWrite; ProjectRead; ProjectAdmin;
   DebugFileRead; DebugFileWrite; DebugFileDelete; ArtifactRead; ArtifactWrite;
   ArtifactDelete; ReleaseRead; ReleaseWrite; OrganizationAdmin; OrganizationOwner;
   OrganizationDelete].

(** [permission as u8]: the discriminant of the [repr(u8)] enum. *)
Definition permission_code (p : Permission) : Z :=
  match p with
  | EventRead => 0 | IssueRead => 1 | IncidentExport => 2 | IssueWrite => 3
  | ProjectRead => 4 | ProjectAdmin => 5 | DebugFileRead => 6 | DebugFileWrite => 7
  | DebugFileDelete => 8 | ArtifactRead => 9 | ArtifactWrite => 10 | ArtifactDelete => 11
  | ReleaseRead => 12 | ReleaseWrite => 13 | OrganizationAdmin => 14
  | OrganizationOwner => 15 | OrganizationDelete => 16
  end.

Definition permission_scope (p : Permission) : str :=
  lit match p with
      | EventRead => "event:read" | IssueRead => "issue:read"
      | IncidentExport => "incident:export" | IssueWrite => "issue:write"
      | ProjectRead => "project:read" | ProjectAdmin => "project:admin"
      | DebugFileRead => "debug_file:read" | DebugFileWrite => "debug_file:write"
      | DebugFileDelete => "debug_file:delete" | ArtifactRead => "artifact:read"
      | ArtifactWrite => "artifact:write" | ArtifactDelete => "artifact:delete"
      | ReleaseRead => "release:read" | ReleaseWrite => "release:write"
      | OrganizationAdmin => "organization:admin" | OrganizationOwner => "organization:owner"
      | OrganizationDelete => "organization:delete"
      end.

Definition parse_scope (value : str) : result AuthValueError Permission :=
  ok_or AvUnknownScope
    (List.find (λ p, bool_decide (permission_scope p = value)) permission_all).

(** [PermissionSet(u32)]. *)
Abbreviation PermissionSet := Z.
Definition permission_set_empty : PermissionSet := 0.
Definition permission_bit (p : Permission) : Z := Z.shiftl 1 (permission_code p).
Definition permission_set_insert (s : PermissionSet) (p : Permission) : PermissionSet :=
  Z.lor s (permission_bit p).
Definition permission_set_contains (s : PermissionSet) (p : Permission) : bool :=
  negb (Z.land s (permission_bit p) =? 0).
(** [!other] of a [u32] flips its 32 bits. *)
Definition permission_set_is_subset_of (s other : PermissionSet) : bool :=
  Z.land s (Z.lxor other U32_MAX) =? 0.
Definition permission_set_intersect (s other : PermissionSet) : PermissionSet :=
  Z.land s other.
Definition from_permissions (ps : list Permission) : PermissionSet :=
  foldl permission_set_insert permission_set_empty ps.
Definition permission_set_iter (s : PermissionSet) : list Permission :=
  List.filter (permission_set_contains s) permission_all.

Definition from_role (role : OrganizationRole) : PermissionSet :=
  let set := foldl permission_set_insert permission_set_empty
    [EventRead; IssueRead; IncidentExport; ProjectRead; DebugFileRead; ArtifactRead;
     ReleaseRead] in
  let set := match role with
             | RMember | RAdmin | ROwner => permission_set_insert set IssueWrite
             | RViewer => set
             end in
  let set := match role with
             | RAdmin | ROwner =>
                 foldl permission_set_insert set
                   [ProjectAdmin; DebugFileWrite; DebugFileDelete; ArtifactWrite;
                    ArtifactDelete; ReleaseWrite; OrganizationAdmin]
             | _ => set
             end in
  if bool_decide (role = ROwner)
  then permission_set_insert (permission_set_insert set OrganizationOwner) OrganizationDelete
  else set.

(** ** Records *)

Inductive Actor := WebSessionActor | PersonalApiToken | Bootstrap.
#[global] Instance actor_eq_dec : EqDecision Actor.
Proof. solve_decision. Defined.

Record AuthContext := {
  cx_actor : Actor;
  cx_user_id : UserId;
  cx_organization_id : OrganizationId;
  cx_role : OrganizationRole;
  cx_permissions : PermissionSet;
  cx_credential_id : CredentialId;
}.

Record UserAccount := {
  us_id : UserId;
  us_email : EmailAddress;
  us_display_name : str;
  us_password_hash : option str;
  us_disabled_at : option Timestamp;
  us_created_at : Timestamp;
}.

Record OrganizationMembership := {
  mb_organization_id : OrganizationId;
  mb_user_id : UserId;
  mb_role : OrganizationRole;
  mb_created_at : Timestamp;
  mb_created_by : UserId;
}.

Record WebSession := {
  ws_id : CredentialId;
  ws_digest : bytes;
  ws_csrf_digest : bytes;
  ws_user_id : UserId;
  ws_created_at : Timestamp;
  ws_last_seen_at : Timestamp;
  ws_idle_expires_at : Timestamp;
  ws_absolute_expires_at : Timestamp;
  ws_revoked_at : option Timestamp;
}.

Record ApiToken := {
  at_id : CredentialId;
  at_digest : bytes;
  at_user_id : UserId;
  at_organization_id : OrganizationId;
  at_name : str;
  at_scopes : PermissionSet;
  at_created_at : Timestamp;
  at_expires_at : Timestamp;
  at_last_used_at : option Timestamp;
  at_revoked_at : option Timestamp;
}.

Inductive SetupPurpose := PurposeBootstrap | PurposePasswordSetup | PurposePasswordReset.

Record SetupToken := {
  su_id : CredentialId;
  su_digest : bytes;
  su_purpose : SetupPurpose;
  su_user_id : option UserId;
  su_created_at : Timestamp;
  su_expires_at : Timestamp;
  su_consumed_at : option Timestamp;
}.

Inductive AuditAction :=
| LoginSucceeded | PasswordSetup | PasswordReset | PasswordChanged | MembershipCreated
| MembershipInvitationReissued | MembershipRemoved | MembershipRoleChanged | UserDisabled
| UserEnabled | ApiTokenCreated | ApiTokenRevoked | ProjectCreated | ProjectKeyCreated
| ProjectKeyDisabled | ProjectPolicyChanged | ProjectDeletionRequested
| ProjectDeletionCancelled | IncidentCapsuleExported | NotificationDestinationUpserted
| AlertRuleUpserted | AlertRuleDeleted | NotificationDestinationDeleted | ReplayAccessed
| QueryExported.
#[global] Instance audit_action_eq_dec : EqDecision AuditAction.
Proof. solve_decision. Defined.

Definition audit_action_name (a : AuditAction) : str :=
  lit match a with
      | LoginSucceeded => "auth.login_succeeded"
      | PasswordSetup => "auth.password_setup"
      | PasswordReset => "auth.password_reset"
      | PasswordChanged => "auth.password_changed"
      | MembershipCreated => "membership.created"
      | MembershipInvitationReissued => "membership.invitation_reissued"
      | MembershipRemoved => "membership.removed"
      | MembershipRoleChanged => "membership.role_changed"
      | UserDisabled => "user.disabled"
      | UserEnabled => "user.enabled"
      | ApiTokenCreated => "api_token.created"
      | ApiTokenRevoked => "api_token.revoked"
      | ProjectCreated => "project.created"
      | ProjectKeyCreated => "project_key.created"
      | ProjectKeyDisabled => "project_key.disabled"
      | ProjectPolicyChanged => "project.policy_changed"
      | ProjectDeletionRequested => "project.deletion_requested"
      | ProjectDeletionCancelled => "project.deletion_cancelled"
      | IncidentCapsuleExported => "incident_capsule.exported"
      | NotificationDestinationUpserted => "notification_destination.upserted"
      | AlertRuleUpserted => "alert_rule.upserted"
      | AlertRuleDeleted => "alert_rule.deleted"
      | NotificationDestinationDeleted => "notification_destination.deleted"
      | ReplayAccessed => "replay.accessed"
      | QueryExported => "query.exported"
      end.

Inductive AuditMetadataKey :=
| KeyRole | KeyCredentialKind | KeyOutcome | KeyProjectId | KeySelectedEventCount
| KeyResultSizeClass.
#[global] Instance audit_key_eq_dec : EqDecision AuditMetadataKey.
Proof. solve_decision. Defined.
Definition audit_key_name (k : AuditMetadataKey) : str :=
  lit match k with
      | KeyRole => "role" | KeyCredentialKind => "credential_kind"
      | KeyOutcome => "outcome" | KeyProjectId => "project_id"
      | KeySelectedEventCount => "selected_event_count"
      | KeyResultSizeClass => "result_size_class"
      end.

Abbreviation AuditMetadata := (list (AuditMetadataKey * str)).
(** [AuditMetadata::new]: [unique.len() != values.len()] of the set of keys. *)
Definition audit_metadata_new (values : list (AuditMetadataKey * str))
    : result AuthValueError AuditMetadata :=
  let unique := remove_dups values.*1 in
  if (MAX_AUDIT_METADATA <? len values) || negb (len unique =? len values)
  then Err AvInvalidAuditMetadata else Ok values.

Record AuditRecord := {
  ad_request_id : str;
  ad_organization_id : OrganizationId;
  ad_actor : Actor;
  ad_actor_user_id : UserId;
  ad_action : AuditAction;
  ad_target_kind : string;
  ad_target_id : str;
  ad_timestamp : Timestamp;
  ad_metadata : AuditMetadata;
}.

Inductive MembershipMutationKind :=
| Create (role : OrganizationRole) | ChangeRole (role : OrganizationRole) | Remove.
#[global] Instance mutation_kind_eq_dec : EqDecision MembershipMutationKind.
Proof. solve_decision. Defined.

Record MembershipMutation := {
  mm_organization_id : OrganizationId;
  mm_user_id : UserId;
  mm_actor_user_id : UserId;
  mm_operation_id : CredentialId;
  mm_kind : MembershipMutationKind;
  mm_timestamp : Timestamp;
}.

Record BootstrapIdentity := {
  bi_operation_id : CredentialId;
  bi_token_digest : bytes;
  bi_organization_id : OrganizationId;
  bi_organization_slug : str;
  bi_organization_name : str;
  bi_user : UserAccount;
  bi_membership : OrganizationMembership;
  bi_timestamp : Timestamp;
}.

(** ** Lemmas *)

(** A permission set holds the bits of permissions only. *)
Definition set_typed (s : PermissionSet) : Prop := 0 ≤ s < 2 ^ 17.

Lemma permission_code_range p : 0 ≤ permission_code p < 17.
Proof. destruct p; cbn; lia. Qed.
Lemma permission_code_inj p q : permission_code p = permission_code q → p = q.
Proof. by destruct p, q. Qed.
Lemma permission_all_complete p : p ∈ permission_all.
Proof. apply list_elem_of_In. destruct p; cbn; tauto. Qed.
Lemma permission_code_surj n : 0 ≤ n < 17 → ∃ p, permission_code p = n.
Proof.
  intros Hn. assert (G : Forall (λ i, ∃ p, permission_code p = i) (seqZ 0 17)).
  { repeat constructor; eexists (nth _ permission_all EventRead);
      match goal with |- permission_code (nth ?n _ _) = ?k => unify n (Z.to_nat k); done end. }
  rewrite Forall_forall in G. apply G, elem_of_seqZ. lia.
Qed.

Lemma permission_bit_spec p n : 0 ≤ n →
  Z.testbit (permission_bit p) n = (n =? permission_code p).
Proof.
  intros Hn. pose proof (permission_code_range p). unfold permission_bit.
  rewrite Z.shiftl_1_l, Z.pow2_bits_eqb by lia. by rewrite Z.eqb_sym.
Qed.

Lemma permission_set_contains_testbit s p :
  permission_set_contains s p = Z.testbit s (permission_code p).
Proof.
  pose proof (permission_code_range p) as Hc. unfold permission_set_contains.
  destruct (Z.testbit s (permission_code p)) eqn:E.
  - apply negb_true_iff, Z.eqb_neq. intros H0.
    assert (Z.testbit (Z.land s (permission_bit p)) (permission_code p) = true) as G.
    { by rewrite Z.land_spec, E, permission_bit_spec, Z.eqb_refl by lia. }
    by rewrite H0, Z.bits_0 in G.
  - apply negb_false_iff, Z.eqb_eq. apply Z.bits_inj_iff'. intros n Hn.
    rewrite Z.land_spec, permission_bit_spec, Z.bits_0 by done.
    destruct (Z.eqb_spec n (permission_code p)) as [->|]; [by rewrite E|].
    apply andb_false_r.
Qed.

Lemma set_typed_bits s : set_typed s ↔ 0 ≤ s ∧ ∀ n, 17 ≤ n → Z.testbit s n = false.
Proof.
  unfold set_typed. split.
  - intros [H0 H1]. split; [done|]. intros n Hn.
    destruct (Z.eq_dec s 0) as [->|]; [apply Z.bits_0|].
    apply Z.bits_above_log2; [done|]. apply Z.lt_le_trans with 17; [|done].
    apply Z.log2_lt_pow2; lia.
  - intros [H0 H]. split; [done|]. destruct (Z.eq_dec s 0) as [->|]; [done|].
    apply Z.log2_lt_pow2; [lia|]. apply Z.nle_gt. intros Hl.
    specialize (H _ Hl). rewrite Z.bit_log2 in H by lia. done.
Qed.

Lemma insert_contains s p q : 
  permission_set_contains (permission_set_insert s p) q
    = permission_set_contains s q || bool_decide (p = q).
Proof.
  pose proof (permission_code_range q). rewrite !permission_set_contains_testbit.
  unfold permission_set_insert. rewrite Z.lor_spec, permission_bit_spec by lia. f_equal.
  destruct (Z.eqb_spec (permission_code q) (permission_code p)) as [E|E].
  - by apply permission_code_inj in E as ->; rewrite bool_decide_true.
  - rewrite bool_decide_false; [done|]. by intros ->.
Qed.

Lemma insert_typed s p : set_typed s → set_typed (permission_set_insert s p).
Proof.
  intros [H0 H]%set_typed_bits. apply set_typed_bits. pose proof (permission_code_range p).
  unfold permission_set_insert. split.
  - apply Z.lor_nonneg. split; [done|]. apply Z.shiftl_nonneg. lia.
  - intros n Hn. rewrite Z.lor_spec, H, permission_bit_spec by lia. cbn. lia.
Qed.

Lemma foldl_insert_contains ps s q :
  permission_set_contains (foldl permission_set_insert s ps) q
    = permission_set_contains s q || bool_decide (q ∈ ps).
Proof.
  revert s. induction ps as [|p ps IH]; intros s; cbn [foldl].
  - rewrite bool_decide_false by set_solver. by rewrite orb_false_r.
  - rewrite IH, insert_contains. apply eq_bool_prop_intro.
    rewrite !Is_true_true, !orb_true_iff, !bool_decide_eq_true, elem_of_cons. naive_solver.
Qed.

Lemma foldl_insert_typed ps s : set_typed s → set_typed (foldl permission_set_insert s ps).
Proof. revert s. induction ps; cbn; auto using insert_typed. Qed.

(** Two sets with the same permissions are the same word. *)
Lemma set_typed_ext s t : set_typed s → set_typed t →
  (∀ p, permission_set_contains s p = permission_set_contains t p) → s = t.
Proof.
  intros [Hs Hs']%set_typed_bits [Ht Ht']%set_typed_bits H.
  apply Z.bits_inj_iff'. intros n Hn. destruct (Z.lt_ge_cases n 17) as [Hl|Hl].
  - destruct (permission_code_surj n) as [p <-]; [done|]. by rewrite <- !permission_set_contains_testbit.
  - by rewrite Hs', Ht' by done.
Qed.

Lemma subset_spec s t : set_typed s → set_typed t →
  permission_set_is_subset_of s t = true ↔
  ∀ p, permission_set_contains s p = true → permission_set_contains t p = true.
Proof.
  intros [Hs Hs']%set_typed_bits Ht. unfold permission_set_is_subset_of. rewrite Z.eqb_eq.
  assert (HU : U32_MAX = Z.ones 32) by done. split.
  - intros H p Hp. rewrite permission_set_contains_testbit in *. pose proof (permission_code_range p).
    assert (Z.testbit (Z.land s (Z.lxor t U32_MAX)) (permission_code p) = false) as G
      by (rewrite H; apply Z.bits_0).
    rewrite Z.land_spec, Z.lxor_spec, Hp, HU, Z.ones_spec_low in G by lia.
    by destruct (Z.testbit t (permission_code p)).
  - intros H. apply Z.bits_inj_iff'. intros n Hn.
    rewrite Z.bits_0, Z.land_spec, Z.lxor_spec, HU.
    destruct (Z.lt_ge_cases n 17) as [Hl|Hl]; [|by rewrite Hs'].
    destruct (permission_code_surj n) as [p <-]; [done|].
    specialize (H p). rewrite !permission_set_contains_testbit in H. rewrite Z.ones_spec_low by lia.
    destruct (Z.testbit s _); [|done]. by rewrite H.
Qed.

Lemma intersect_contains s t p :
  permission_set_contains (permission_set_intersect s t) p
    = permission_set_contains s p && permission_set_contains t p.
Proof. rewrite !permission_set_contains_testbit. apply Z.land_spec. Qed.

Lemma intersect_typed s t : set_typed s → 0 ≤ t → set_typed (permission_set_intersect s t).
Proof.
  intros [Hs Hs']%set_typed_bits Ht. apply set_typed_bits. unfold permission_set_intersect.
  split; [apply Z.land_nonneg; tauto|]. intros n Hn. by rewrite Z.land_spec, Hs'.
Qed.

Lemma from_permissions_contains ps p :
  permission_set_contains (from_permissions ps) p = bool_decide (p ∈ ps).
Proof.
  unfold from_permissions. rewrite foldl_insert_contains, permission_set_contains_testbit.
  unfold permission_set_empty. by rewrite Z.bits_0.
Qed.
Lemma from_permissions_typed ps : set_typed (from_permissions ps).
Proof. by apply foldl_insert_typed. Qed.
Lemma from_role_typed r : set_typed (from_role r).
Proof. destruct r; vm_compute; split; done. Qed.

(** The roles that grant a permission. *)
Definition role_grants (r : OrganizationRole) (p : Permission) : bool :=
  match p with
  | EventRead | IssueRead | IncidentExport | ProjectRead | DebugFileRead | ArtifactRead
  | ReleaseRead => true
  | IssueWrite => bool_decide (r ≠ RViewer)
  | OrganizationOwner | OrganizationDelete => bool_decide (r = ROwner)
  | _ => bool_decide (r = RAdmin ∨ r = ROwner)
  end.
Lemma from_role_contains r p : permission_set_contains (from_role r) p = role_grants r p.
Proof. by destruct r, p. Qed.

Lemma iter_elem s p : p ∈ permission_set_iter s ↔ permission_set_contains s p = true.
Proof.
  unfold permission_set_iter. rewrite list_elem_of_In, filter_In, <- list_elem_of_In.
  split; [tauto|]. intros. split; [apply permission_all_complete|done].
Qed.

Lemma scope_inj p q : permission_scope p = permission_scope q → p = q.
Proof. by destruct p, q. Qed.

Lemma parse_scope_Ok value p : parse_scope value = Ok p ↔ permission_scope p = value.
Proof.
  unfold parse_scope. rewrite ok_or_Ok. split.
  - intros [_ H]%find_some. by apply bool_decide_eq_true in H.
  - intros <-. by destruct p.
Qed.

#[export] Hint Resolve from_permissions_typed from_role_typed intersect_typed : rust.

(** ** Theorems *)

(** C35. A permission set is a set of permissions: every set the operations make
    keeps the type (17 bits of the word), membership after building, inserting
    and intersecting is membership in the list, the union and the
    intersection, the subset test is inclusion, equal sets are equal words, and
    the printed scopes of a set parse back to it. *)
Theorem permission_set_typed_algebra :
  (∀ ps, set_typed (from_permissions ps)) ∧ (∀ r, set_typed (from_role r))
  ∧ (∀ s p, set_typed s → set_typed (permission_set_insert s p))
  ∧ (∀ s t, set_typed s → set_typed t → set_typed (permission_set_intersect s t))
  ∧ (∀ ps p, permission_set_contains (from_permissions ps) p = true ↔ p ∈ ps)
  ∧ (∀ s p q, permission_set_contains (permission_set_insert s p) q = true
              ↔ permission_set_contains s q = true ∨ p = q)
  ∧ (∀ s t p, permission_set_contains (permission_set_intersect s t) p = true
              ↔ permission_set_contains s p = true ∧ permission_set_contains t p = true)
  ∧ (∀ s t, set_typed s → set_typed t →
       (permission_set_is_subset_of s t = true
        ↔ ∀ p, permission_set_contains s p = true → permission_set_contains t p = true)
       ∧ ((∀ p, permission_set_contains s p = permission_set_contains t p) → s = t))
  ∧ (∀ s, set_typed s →
       from_permissions (omap (λ p, ok (parse_scope (permission_scope p)))
                              (permission_set_iter s)) = s).
Proof.
  split_and!; [apply from_permissions_typed|apply from_role_typed|apply insert_typed|..].
  - intros s t Hs [Ht _]. by apply intersect_typed.
  - intros ps p. by rewrite from_permissions_contains, bool_decide_eq_true.
  - intros s p q. by rewrite insert_contains, orb_true_iff, bool_decide_eq_true.
  - intros s t p. by rewrite intersect_contains, andb_true_iff.
  - intros s t Hs Ht. split; [by apply subset_spec|by apply set_typed_ext].
  - intros s Hs. apply set_typed_ext; [apply from_permissions_typed|done|]. intros p.
    rewrite from_permissions_contains.
    apply eq_bool_prop_intro. rewrite !Is_true_true, bool_decide_eq_true, <- iter_elem.
    rewrite list_elem_of_omap. split.
    + intros (q & Hq & Hs'). assert (parse_scope (permission_scope q) = Ok q) as E
        by by apply parse_scope_Ok. rewrite E in Hs'. by simplify_eq/=.
    + intros Hp. exists p. split; [done|].
      by rewrite (proj2 (parse_scope_Ok _ p) eq_refl).
Qed.
