(* ===== verification/LoginLimiter.v ===== *)
(** * The login rate limiter

    [LoginRateLimiter] of [application/src/auth.rs]: a fixed window of attempts
    per key in a map of bounded size, with a queue of (key, generation) that
    decides what is evicted.  The [while] loops that evict have a fuel, one more
    than the length of the queue; [None] means that it was not enough, and the
    theorems show that it is. *)
From stdpp Require Import base list numbers strings sets gmap.
From Stdlib Require Import ZArith Lia.
From S2P Require Import Prelude Primitives.

Record LoginRateLimitConfig := {
  rl_max_attempts : Z;
  rl_window : duration;
  rl_capacity : Z;
}.

Record RateEntry := {
  re_attempts : Z;
  re_window_end : Z;
  re_generation : Z;
}.

Record RateState := {
  rs_entries : gmap bytes RateEntry;
  rs_order : list (bytes * Z);
  rs_generation : Z;
  rs_capacity : Z;
}.

Definition rate_state_new (capacity : Z) : RateState :=
  {| rs_entries := ∅; rs_order := []; rs_generation := 1; rs_capacity := capacity |}.

(** [LoginRateLimiter::new]: [None] is [InvalidConfiguration]. *)
Definition limiter_new (config : LoginRateLimitConfig) : option RateState :=
  if (rl_max_attempts config =? 0) || (rl_window config =? 0) || (rl_capacity config <? 2)
  then None else Some (rate_state_new (rl_capacity config)).

Definition evict_oldest (s : RateState) : RateState :=
  match rs_order s with
  | [] => s
  | (key, generation) :: order =>
      {| rs_entries :=
           if is_some_and (λ e, re_generation e =? generation) (rs_entries s !! key)
           then delete key (rs_entries s) else rs_entries s;
         rs_order := order; rs_generation := rs_generation s; rs_capacity := rs_capacity s |}
  end.

(** [while test { self.evict_oldest() }]. *)
Fixpoint evict_while (fuel : nat) (test : RateState → bool) (s : RateState) : option RateState :=
  if test s then
    match fuel with O => None | S fuel => evict_while fuel test (evict_oldest s) end
  else Some s.

Definition entries_len (s : RateState) : Z := Z.of_nat (size (rs_entries s)).

(** [RateState::increment] up to the loops. *)
Definition window_millis (config : LoginRateLimitConfig) : Z :=
  unwrap_or I64_MAX (checked_i64 (as_millis (rl_window config))).
Definition counted_entry (s : RateState) (key : bytes) (now : Timestamp)
    (config : LoginRateLimitConfig) : RateEntry :=
  let fresh := {| re_attempts := 0; re_window_end := sat_i64 (now + window_millis config);
                  re_generation := rs_generation s |} in
  let entry := unwrap_or fresh (rs_entries s !! key) in
  let entry := if re_window_end entry <=? now then fresh else entry in
  {| re_attempts := sat_u32 (re_attempts entry + 1); re_window_end := re_window_end entry;
     re_generation := rs_generation s |}.

(** [wrapping_add(1).max(1)] of a [u64]. *)
Definition next_generation (generation : Z) : Z := Z.max 1 ((generation + 1) mod 2 ^ 64).

Definition increment (s : RateState) (key : bytes) (now : Timestamp)
    (config : LoginRateLimitConfig) : option (RateState * bool) :=
  let entry := counted_entry s key now config in
  let allowed := re_attempts entry <=? rl_max_attempts config in
  let s := {| rs_entries := <[key := entry]> (rs_entries s);
              rs_order := rs_order s ++ [(key, rs_generation s)];
              rs_generation := next_generation (rs_generation s);
              rs_capacity := rs_capacity s |} in
  s ← evict_while (S (length (rs_order s))) (λ s, rs_capacity s <? entries_len s) s;
  s ← evict_while (S (length (rs_order s)))
        (λ s, sat_u64 (rs_capacity s * 2) <? len (rs_order s)) s;
  Some (s, allowed).

(** [LoginRateLimiter::check], under the lock. *)
Definition limiter_check (config : LoginRateLimitConfig) (s : RateState)
    (account network : bytes) (now : Timestamp) : option (RateState * bool) :=
  '(s, account_allowed) ← increment s account now config;
  '(s, network_allowed) ← increment s network now config;
  Some (s, account_allowed && network_allowed).

(** [LoginRateLimiter::success]. *)
Definition limiter_success (s : RateState) (account : bytes) : RateState :=
  {| rs_entries := delete account (rs_entries s); rs_order := rs_order s;
     rs_generation := rs_generation s; rs_capacity := rs_capacity s |}.

(** The operations on the shared state, in the order the lock gives them. *)
Inductive LimiterOp :=
| Increment (key : bytes) (now : Timestamp)
| Success (key : bytes).

Definition limiter_op (config : LoginRateLimitConfig) (s : RateState) (op : LimiterOp)
    : option (RateState * option bool) :=
  match op with
  | Increment key now => '(s, allowed) ← increment s key now config; Some (s, Some allowed)
  | Success key => Some (limiter_success s key, None)
  end.
Fixpoint limiter_run (config : LoginRateLimitConfig) (s : RateState) (ops : list LimiterOp)
    : option (RateState * list (option bool)) :=
  match ops with
  | [] => Some (s, [])
  | op :: ops =>
      '(s, answer) ← limiter_op config s op;
      '(s, answers) ← limiter_run config s ops;
      Some (s, answer :: answers)
  end.

(** ** The specification: one fixed window per key, which may be forgotten *)

(** The counter of a key: no attempt counted, or the attempts of the window that
    ends at [window_end], the last of them [since] attempts at other keys ago. *)
Inductive Counter :=
| Absent
| Counted (attempts window_end since : Z).

(** The counter of [key] through one operation, with the answer it gives.  What
    happens to other keys concerns it in one way only: it is forgotten, never
    before as many attempts at other keys as the capacity since its last attempt,
    and at the latest after twice as many.  Their answers are not its own. *)
Inductive counter_step (config : LoginRateLimitConfig) (key : bytes)
    : Counter → LimiterOp → Counter → option bool → Prop :=
| cs_first now :
    counter_step config key Absent (Increment key now)
      (Counted 1 (sat_i64 (now + window_millis config)) 0) (Some (1 <=? rl_max_attempts config))
| cs_again attempts window_end since now : now < window_end →
    counter_step config key (Counted attempts window_end since) (Increment key now)
      (Counted (sat_u32 (attempts + 1)) window_end 0) (Some (sat_u32 (attempts + 1) <=? rl_max_attempts config))
| cs_over attempts window_end since now : window_end ≤ now →
    counter_step config key (Counted attempts window_end since) (Increment key now)
      (Counted 1 (sat_i64 (now + window_millis config)) 0) (Some (1 <=? rl_max_attempts config))
| cs_success counter : counter_step config key counter (Success key) Absent None
| cs_success_other counter k : k ≠ key → counter_step config key counter (Success k) counter None
| cs_absent_other k now answer : k ≠ key →
    counter_step config key Absent (Increment k now) Absent answer
| cs_kept attempts window_end since k now answer : k ≠ key → since + 1 < 2 * rl_capacity config →
    counter_step config key (Counted attempts window_end since) (Increment k now)
      (Counted attempts window_end (since + 1)) answer
| cs_forgotten attempts window_end since k now answer : k ≠ key → rl_capacity config ≤ since + 1 →
    counter_step config key (Counted attempts window_end since) (Increment k now) Absent answer.
Inductive counter_run (config : LoginRateLimitConfig) (key : bytes)
    : Counter → list LimiterOp → list (option bool) → Prop :=
| cr_nil counter : counter_run config key counter [] []
| cr_step counter counter' op answer ops answers :
    counter_step config key counter op counter' answer → counter_run config key counter' ops answers →
    counter_run config key counter (op :: ops) (answer :: answers).

(** ** The invariant *)

(** Every entry has its pair in the queue; the generations of the queue grow. *)
Record rate_ok (s : RateState) : Prop := {
  ok_pairs : ∀ key e, rs_entries s !! key = Some e → (key, re_generation e) ∈ rs_order s;
  ok_sorted : ∀ i j p q, (i < j)%nat → rs_order s !! i = Some p → rs_order s !! j = Some q →
                p.2 < q.2;
  ok_below : ∀ p, p ∈ rs_order s → p.2 < rs_generation s;
}.
Definition rate_bounded (s : RateState) : Prop :=
  entries_len s ≤ rs_capacity s ∧ len (rs_order s) ≤ 2 * rs_capacity s.

Lemma evict_oldest_ok s : rate_ok s → rate_ok (evict_oldest s).
Proof.
  intros [Hp Hs Hb]. unfold evict_oldest. destruct (rs_order s) as [|[k g] order] eqn:E.
  { by split; rewrite ?E. }
  split; cbn.
  - intros key e H. destruct (rs_entries s !! k) as [e'|] eqn:Ek; cbn in H.
    + destruct (Z.eqb_spec (re_generation e') g) as [Hg|Hg].
      * apply lookup_delete_Some in H as [Hne H]. apply Hp in H. set_solver.
      * pose proof (Hp _ _ H) as H'. apply elem_of_cons in H' as [[= -> <-]|H']; [|done].
        congruence.
    + pose proof (Hp _ _ H) as H'. apply elem_of_cons in H' as [[= -> <-]|H']; [|done].
      congruence.
  - intros i j p q Hij Hi Hj. apply (Hs (S i) (S j) p q); [lia|exact Hi|exact Hj].
  - intros p Hin. apply Hb. set_solver.
Qed.

Lemma evict_oldest_order s : rs_order (evict_oldest s) = tail (rs_order s).
Proof. unfold evict_oldest. by destruct (rs_order s) as [|[]] eqn:E; rewrite ?E. Qed.
Lemma evict_oldest_same s :
  rs_generation (evict_oldest s) = rs_generation s
  ∧ rs_capacity (evict_oldest s) = rs_capacity s.
Proof. unfold evict_oldest. by destruct (rs_order s) as [|[]] eqn:E; rewrite ?E. Qed.

(** An entry is evicted only with its own pair. *)
Lemma evict_oldest_lookup s key e : rate_ok s →
  rs_entries s !! key = Some e → (head (rs_order s) ≠ Some (key, re_generation e)) →
  rs_entries (evict_oldest s) !! key = Some e.
Proof.
  intros Hok H Hh. unfold evict_oldest. destruct (rs_order s) as [|[k g] order] eqn:E; [done|].
  cbn in *. destruct (rs_entries s !! k) as [e'|] eqn:Ek; cbn; [|done].
  destruct (Z.eqb_spec (re_generation e') g) as [Hg|Hg]; [|done].
  rewrite lookup_delete_ne; [done|]. intros ->. simplify_eq.
Qed.
Lemma evict_oldest_subset s key e :
  rs_entries (evict_oldest s) !! key = Some e → rs_entries s !! key = Some e.
Proof.
  unfold evict_oldest. destruct (rs_order s) as [|[k g] order]; [done|]. cbn.
  destruct (is_some_and _ _); [|done]. by intros [_ ?]%lookup_delete_Some.
Qed.

(** A key whose last attempt was [since] attempts ago. *)
Definition kept (s : RateState) (key : bytes) (e : RateEntry) (since : Z) : Prop :=
  rs_entries s !! key = Some e
  ∧ ∃ before after, rs_order s = before ++ (key, re_generation e) :: after ∧ len after = since.

Lemma evict_oldest_kept s key e since : rate_ok s →
  kept s key e since → since + 1 < len (rs_order s) → kept (evict_oldest s) key e since.
Proof.
  intros Hok (He & before & after & Ho & Hl) Hlt. split.
  - apply evict_oldest_lookup; [done..|]. rewrite Ho. destruct before as [|p before]; cbn.
    + rewrite Ho in Hlt. unfold len in *. cbn in Hlt. lia.
    + intros [= ->].
      assert (re_generation e < re_generation e); [|lia].
      apply (ok_sorted _ Hok 0%nat (S (length before)) (key, re_generation e)
               (key, re_generation e)); [lia|by rewrite Ho|].
      rewrite Ho. by apply (list_lookup_middle ((key, re_generation e) :: before)).
  - exists (tail before), after. split; [|done]. rewrite evict_oldest_order, Ho.
    destruct before; [|done]. rewrite Ho in Hlt. unfold len in *. cbn in Hlt. lia.
Qed.

Lemma entries_le_order s : rate_ok s → entries_len s ≤ len (rs_order s).
Proof.
  intros [Hp _ _]. unfold entries_len, len.
  assert (size (rs_entries s) ≤ length (rs_order s))%nat; [|lia].
  rewrite <- length_map_to_list, <- (length_fmap fst (map_to_list _)),
    <- (length_fmap fst (rs_order s)).
  apply submseteq_length, NoDup_submseteq; [apply NoDup_fst_map_to_list|].
  intros key (kv & -> & Hin%elem_of_map_to_list')%list_elem_of_fmap.
  apply list_elem_of_fmap. by exists (kv.1, re_generation kv.2); split; [|apply Hp].
Qed.

(** What is still there of a key after its oldest pairs are dropped. *)
Lemma kept_suffix s s' key e since : rate_ok s → rate_ok s' → rs_order s' `suffix_of` rs_order s →
  kept s key e since → rs_entries s' !! key = Some e → kept s' key e since.
Proof.
  intros Hok [Hp _ _] [dropped Hd] (_ & before & after & Ho & Hl) He. split; [done|].
  apply Hp in He as Hin. apply list_elem_of_split in Hin as (before' & after' & Ho').
  exists before', after'. split; [done|]. rewrite <- Hl.
  assert (length (dropped ++ before') = length before) as Hlen.
  { destruct (Nat.lt_trichotomy (length (dropped ++ before')) (length before)) as [Hlt|[|Hlt]]; [|done|];
      assert (re_generation e < re_generation e); [|lia| |lia].
    - apply (ok_sorted _ Hok (length (dropped ++ before')) (length before) (key, re_generation e) (key, re_generation e));
        [done| |rewrite Ho; by apply list_lookup_middle].
      rewrite Hd, Ho', app_assoc. by apply list_lookup_middle.
    - apply (ok_sorted _ Hok (length before) (length (dropped ++ before')) (key, re_generation e) (key, re_generation e));
        [done|rewrite Ho; by apply list_lookup_middle|].
      rewrite Hd, Ho', app_assoc. by apply list_lookup_middle. }
  rewrite Hd, Ho', app_assoc in Ho. apply app_inj_1 in Ho as [_ [= ->]]; [done|exact Hlen].
Qed.
(** The loops end: a test that only holds of a non-empty queue. *)
Lemma evict_while_ends test fuel : ∀ s,
  (∀ s', rs_capacity s' = rs_capacity s → rate_ok s' → test s' = true → rs_order s' ≠ []) →
  rate_ok s → (length (rs_order s) < fuel)%nat →
  ∃ s', evict_while fuel test s = Some s' ∧ rate_ok s' ∧ test s' = false
    ∧ rs_generation s' = rs_generation s ∧ rs_capacity s' = rs_capacity s
    ∧ rs_order s' `suffix_of` rs_order s
    ∧ (∀ key e, rs_entries s' !! key = Some e → rs_entries s !! key = Some e)
    ∧ (∀ key e since, kept s key e since →
         (∀ s'', rs_capacity s'' = rs_capacity s → rate_ok s'' → test s'' = true →
            since + 1 < len (rs_order s'')) →
         kept s' key e since).
Proof.
  induction fuel as [|fuel IH]; intros s Htest Hok Hf; [lia|].
  cbn [evict_while]. destruct (test s) eqn:E; [|by exists s].
  specialize (Htest s eq_refl Hok E) as Hne. destruct (evict_oldest_same s) as [Eg Ec].
  destruct (IH (evict_oldest s)) as (s' & Hs & Hok' & Ht & Hg & Hc & Hl & Hsub & Hk);
    [by rewrite Ec|by apply evict_oldest_ok| |].
  { rewrite evict_oldest_order. destruct (rs_order s); cbn in *; [done|lia]. }
  rewrite Eg in Hg. rewrite Ec in Hc.
  rewrite evict_oldest_order in Hl. exists s'. split_and!; try done.
  - etrans; [exact Hl|]. destruct (rs_order s) as [|p order]; [done|]. by exists [p].
  - intros key e H. by apply evict_oldest_subset, Hsub.
  - intros key e since Hkept Hbig. apply Hk.
    + apply evict_oldest_kept; [done..|]. by apply Hbig.
    + intros s'' Hc''. apply Hbig. by rewrite Hc'', Ec.
Qed.

(** ** One attempt *)

Section limiter.
Context (config : LoginRateLimitConfig).
Context (Hconfig : 2 ≤ rl_capacity config ≤ U64_MAX).

Definition state_ok (s : RateState) : Prop :=
  rate_ok s ∧ rate_bounded s ∧ rs_capacity s = rl_capacity config ∧ 0 < rs_generation s.

(** The state between the update and the loops. *)
Lemma pushed_ok s key entry : rate_ok s → 0 < rs_generation s < U64_MAX →
  re_generation entry = rs_generation s →
  rate_ok {| rs_entries := <[key := entry]> (rs_entries s);
             rs_order := rs_order s ++ [(key, rs_generation s)];
             rs_generation := next_generation (rs_generation s);
             rs_capacity := rs_capacity s |}.
Proof.
  intros [Hp Hs Hb] Hg He.
  assert (next_generation (rs_generation s) = rs_generation s + 1) as Hn.
  { unfold next_generation, U64_MAX in *. rewrite Z.mod_small by lia. lia. }
  split; cbn.
  - intros k e H. apply lookup_insert_Some in H as [[-> <-]|[_ H]].
    + rewrite He. set_solver.
    + apply Hp in H. set_solver.
  - intros i j p q Hij Hi Hj.
    apply lookup_app_Some in Hj as [Hj|[Hl Hj]].
    + rewrite lookup_app_l in Hi by (apply lookup_lt_Some in Hj; lia). by eapply Hs.
    + apply list_lookup_singleton_Some in Hj as [Hj <-]. cbn.
      rewrite lookup_app_l in Hi by lia. by apply Hb, list_elem_of_lookup_2 with i.
  - intros p [H|H]%elem_of_app; rewrite Hn.
    + apply Hb in H. lia.
    + apply list_elem_of_singleton in H as ->. cbn. lia.
Qed.

Lemma increment_spec s key now : state_ok s → rs_generation s < U64_MAX →
  let entry := counted_entry s key now config in
  ∃ s', increment s key now config = Some (s', re_attempts entry <=? rl_max_attempts config)
    ∧ state_ok s' ∧ rs_generation s' = rs_generation s + 1
    ∧ kept s' key entry 0
    ∧ (∀ k, k ≠ key → rs_entries s !! k = None → rs_entries s' !! k = None)
    ∧ (∀ k e since, k ≠ key → kept s k e since →
         kept s' k e (since + 1) ∧ since + 1 < 2 * rl_capacity config
         ∨ rs_entries s' !! k = None ∧ rl_capacity config ≤ since + 1).
Proof.
  intros (Hok & [Hb1 Hb2] & Hcap & Hg) Hlt. unfold increment.
  set (entry := counted_entry s key now config).
  assert (re_generation entry = rs_generation s) as He by done.
  match goal with |- context [evict_while _ _ ?x] => set (s1 := x) end.
  pose proof (pushed_ok s key entry Hok (conj Hg Hlt) He) as Hok1. fold s1 in Hok1.
  destruct (evict_while_ends (λ s, rs_capacity s <? entries_len s) (S (length (rs_order s1))) s1)
    as (s2 & -> & Hok2 & Ht2 & Hg2 & Hc2 & Hl2 & Hsub2 & Hk2); [|done|lia|].
  { intros s' Hc' Hs' Ht Hnil. bool_prop. pose proof (entries_le_order _ Hs') as Hle.
    rewrite Hc', Hnil in *. unfold entries_len, len in *. cbn in *. lia. }
  cbn [mbind option_bind].
  destruct (evict_while_ends (λ s, sat_u64 (rs_capacity s * 2) <? len (rs_order s))
              (S (length (rs_order s2))) s2)
    as (s3 & -> & Hok3 & Ht3 & Hg3 & Hc3 & Hl3 & Hsub3 & Hk3); [|done|lia|].
  { intros s' Hc' Hs' Ht Hnil. bool_prop. rewrite Hnil in Ht.
    unfold sat_u64, saturate, U64_MAX, len in *. cbn in *. lia. }
  cbn [mbind option_bind]. bool_prop.
  assert (rs_capacity s1 = rl_capacity config) as Hc1 by done.
  assert (rs_generation s1 = rs_generation s + 1) as Hg1.
  { cbn. unfold next_generation, U64_MAX in *. rewrite Z.mod_small by lia. lia. }
  rewrite Hc2, Hc1 in *.
  assert (entries_len s3 ≤ entries_len s2) as Hsize.
  { unfold entries_len. apply inj_le. rewrite <- !size_dom. apply subseteq_size.
    intros k [e Hk]%elem_of_dom. apply elem_of_dom. eauto. }
  exists s3. split_and!; [done| |lia| | |].
  - split_and!; [done| |lia|lia]. split; rewrite Hc3.
    + lia.
    + unfold sat_u64, saturate in *. lia.
  - apply Hk3; [apply Hk2|].
    + split; [apply lookup_insert_eq|]. by exists (rs_order s), [].
    + intros s'' Hc'' Hok'' Ht. bool_prop. pose proof (entries_le_order _ Hok''). lia.
    + intros s'' Hc'' Hok'' Ht. bool_prop. unfold sat_u64, saturate, U64_MAX in *. lia.
  - intros k Hne Hk. destruct (rs_entries s3 !! k) eqn:E; [|done].
    apply Hsub3, Hsub2 in E. cbn in E. rewrite lookup_insert_ne in E by done. congruence.
  - intros k e since Hne (Hke & before & after & Ho & Hl).
    assert (kept s1 k e (since + 1)) as Hkept.
    { split; [cbn; by rewrite lookup_insert_ne|].
      exists before, (after ++ [(key, rs_generation s)]). cbn. split.
      - by rewrite Ho, <- app_assoc.
      - unfold len in *. rewrite length_app. cbn. lia. }
    assert (rs_entries s3 !! k = Some e → kept s3 k e (since + 1)) as Hkept3.
    { intros He3. apply (kept_suffix s1); [done|done|by etrans|done|done]. }
    destruct (Z.ltb_spec (since + 1) (rl_capacity config)) as [Hsince|Hsince].
    + left. split; [|lia]. apply Hk3; [apply Hk2; [done|]|].
      * intros s'' Hc'' Hok'' Ht. bool_prop. pose proof (entries_le_order _ Hok''). lia.
      * intros s'' Hc'' Hok'' Ht. bool_prop. unfold sat_u64, saturate, U64_MAX in *. lia.
    + destruct (rs_entries s3 !! k) as [e'|] eqn:E; [|by right]. left.
      assert (e' = e) as ->.
      { apply Hsub3, Hsub2 in E. destruct Hkept as [Hk1 _]. rewrite E in Hk1. by injection Hk1. }
      specialize (Hkept3 eq_refl). split; [done|]. destruct Hkept3 as (_ & b3 & a3 & Ho3 & Hl3').
      assert (len (rs_order s3) ≤ 2 * rl_capacity config)
        by (unfold sat_u64, saturate, U64_MAX in *; lia).
      unfold len in *. rewrite Ho3, length_app in *. cbn [length] in *. lia.
Qed.

Definition tracks (s : RateState) (key : bytes) (counter : Counter) : Prop :=
  match counter with
  | Absent => rs_entries s !! key = None
  | Counted attempts window_end since =>
      ∃ e, kept s key e since ∧ re_attempts e = attempts ∧ re_window_end e = window_end
  end.

Lemma success_ok s key : state_ok s → state_ok (limiter_success s key).
Proof.
  intros ([Hp Hs Hb] & [Hb1 Hb2] & Hc & Hg). split_and!; [|split|done..].
  - split; cbn; [|done..]. intros k e [_ H]%lookup_delete_Some. by apply Hp.
  - etrans; [|exact Hb1]. unfold entries_len. cbn. apply inj_le.
    rewrite <- !size_dom. apply subseteq_size. set_solver.
  - done.
Qed.

(** One operation keeps the invariant and is a step of the counter of each key. *)
Lemma limiter_op_spec s key counter op : state_ok s → rs_generation s < U64_MAX → tracks s key counter →
  ∃ s' answer counter', limiter_op config s op = Some (s', answer)
    ∧ state_ok s' ∧ rs_generation s' ≤ rs_generation s + 1
    ∧ counter_step config key counter op counter' answer ∧ tracks s' key counter'.
Proof.
  intros Hok Hlt Ht. destruct op as [k now|k]; cbn [limiter_op].
  - destruct (increment_spec s k now Hok Hlt) as (s' & -> & Hok' & Hg & Hk & Hn & Hkeep).
    exists s', (Some (re_attempts (counted_entry s k now config) <=? rl_max_attempts config)).
    destruct (decide (k = key)) as [->|Hne].
    + destruct counter as [|a w since].
      * cbn in Ht. assert (re_attempts (counted_entry s key now config) = 1
          ∧ re_window_end (counted_entry s key now config) = sat_i64 (now + window_millis config))
          as [E1 E2].
        { unfold counted_entry. rewrite Ht. cbn. by destruct (_ <=? now). }
        eexists. split_and!; [done|done|lia|rewrite E1; apply cs_first|]. cbn. eauto 6.
      * destruct Ht as (e & [He _] & <- & <-).
        unfold counted_entry in *. rewrite He in *. cbn [unwrap_or] in *.
        destruct (Z.leb_spec (re_window_end e) now) as [Hover|Hin].
        -- eexists. split_and!; [done|done|lia|by apply cs_over|]. cbn. eauto 6.
        -- eexists. split_and!; [done|done|lia|by apply cs_again|]. cbn. eauto 6.
    + destruct counter as [|a w since].
      * exists Absent. split_and!; [done|done|lia|by apply cs_absent_other|by apply Hn].
      * destruct Ht as (e & Hke & <- & <-). destruct (Hkeep _ _ _ (not_eq_sym Hne) Hke) as [[Hke2 Hs]|[Hnone Hs]].
        -- eexists. split_and!; [done|done|lia|by apply cs_kept|]. cbn. eauto 6.
        -- exists Absent. split_and!; [done|done|lia|by apply cs_forgotten|done].
  - exists (limiter_success s k), None. destruct (decide (k = key)) as [->|Hne].
    + exists Absent. split_and!; [done|by apply success_ok|cbn; lia|apply cs_success|apply lookup_delete_eq].
    + exists counter. split_and!; [done|by apply success_ok|cbn; lia|by apply cs_success_other|].
      destruct counter as [|a w since]; cbn in *; [by rewrite lookup_delete_ne|].
      destruct Ht as (e & [He Ho] & Ha). exists e. split; [|done]. split; [|done]. cbn. by rewrite lookup_delete_ne.
Qed.

(** The limiter goes on, whatever is followed. *)
Lemma limiter_run_ok ops : ∀ s, state_ok s → rs_generation s + len ops ≤ U64_MAX →
  ∃ s' answers, limiter_run config s ops = Some (s', answers) ∧ state_ok s'
    ∧ ∀ key counter, tracks s key counter → counter_run config key counter ops answers.
Proof.
  induction ops as [|op ops IH]; intros s Hok Hlen; cbn [limiter_run].
  { exists s, []. split_and!; [done..|]. intros. constructor. }
  rewrite len_cons in Hlen. pose proof (len_nonneg ops) as Hops.
  assert (∃ s1 answer, limiter_op config s op = Some (s1, answer) ∧ state_ok s1
    ∧ rs_generation s1 ≤ rs_generation s + 1) as (s1 & answer & E & Hok1 & Hg1).
  { destruct op as [k now|k]; cbn [limiter_op].
    - destruct (increment_spec s k now Hok) as (s1 & -> & Hok1 & Hg1 & _); [lia|]. cbn. eexists _, _.
      split_and!; [done|done|lia].
    - eexists _, _. split_and!; [done|by apply success_ok|cbn; lia]. }
  rewrite E. cbn [mbind option_bind]. destruct (IH s1 Hok1) as (s2 & answers & -> & Hok2 & Hall); [lia|].
  exists s2, (answer :: answers). split_and!; [done..|]. intros key counter Ht.
  destruct (limiter_op_spec s key counter op Hok ltac:(lia) Ht) as (s1' & answer' & counter' & E' & _ & _ & Hs & Ht').
  rewrite E in E'. injection E' as <- <-. by apply (cr_step _ _ _ counter'); [|apply Hall].
Qed.

(** ** Theorems *)

(** C34. The limiter refines, for every key at once, one fixed-window counter per
    key that may be forgotten.  From a new limiter, through any sequence of fewer
    than 2^64 - 1 attempts and successes: no eviction loop runs out of work, the
    map never holds more entries than the capacity nor the queue more than twice
    as many, and every attempt is answered as the counter of its key answers it.
    A counter is forgotten, so that an exhausted key is allowed again, never
    before as many attempts at other keys as the capacity have followed its last
    attempt, and at the latest when twice as many have. *)
Theorem limiter_refines_counters ops :
  1 + len ops ≤ U64_MAX →
  ∃ s answers, limiter_run config (rate_state_new (rl_capacity config)) ops = Some (s, answers)
    ∧ entries_len s ≤ rl_capacity config ∧ len (rs_order s) ≤ 2 * rl_capacity config
    ∧ ∀ key, counter_run config key Absent ops answers.
Proof.
  intros Hlen. destruct (limiter_run_ok ops (rate_state_new (rl_capacity config)))
    as (s & answers & Hr & (_ & [Hb1 Hb2] & Hc & _) & Hall); [|done|].
  - split_and!; [split; cbn; try done; set_solver|split; unfold entries_len, len; cbn|done|done].
    + rewrite map_size_empty. lia.
    + lia.
  - rewrite Hc in *. exists s, answers. split_and!; [done..|]. intros key. by apply Hall.
Qed.

End limiter.

Definition sample_limiter : LoginRateLimitConfig :=
  {| rl_max_attempts := 2; rl_window := 60000 * NANOS_PER_MILLI; rl_capacity := 4 |}.
Lemma limiter_refines_counters_witness :
  let ops := [Increment [1] 0; Increment [1] 10; Increment [2] 20; Increment [1] 30] in
  let answers := [Some true; Some true; Some true; Some false] in
  (∃ s, limiter_run sample_limiter (rate_state_new 4) ops = Some (s, answers))
  ∧ counter_run sample_limiter [1] Absent ops answers ∧ counter_run sample_limiter [2] Absent ops answers.
Proof.
  intros ops answers.
  destruct (limiter_refines_counters sample_limiter ltac:(unfold U64_MAX; cbn; lia) ops
              ltac:(unfold U64_MAX, len; cbn; lia)) as (s & answers' & E & _ & _ & Hall).
  assert (answers' = answers) as -> by (revert E; vm_compute; congruence).
  split; [by exists s|]. split; apply Hall.
Defined.
(** What forgetting means: after attempts at as many other keys as the capacity, a
    key that was refused is allowed within the same window. *)
Example exhausted_key_allowed_again :
  let ops := [Increment [1] 0; Increment [1] 10; Increment [1] 20;
              Increment [2] 30; Increment [3] 30; Increment [4] 30; Increment [5] 30; Increment [1] 40] in
  snd <$> limiter_run sample_limiter (rate_state_new 4) ops
  = Some [Some true; Some true; Some false; Some true; Some true; Some true; Some true; Some true].
Proof. vm_compute. reflexivity. Qed.
