(* ===== verification/IdentityService.v ===== *)
(** * The identity service

    [IdentityService] of [application/src/auth.rs]: every method as a program
    ([Effects]) over the calls of the authentication store, the clock, the
    random source, the login limiter and the password hash.  A store call is
    answered within the deadline or not at all ([None], a timeout).  SHA-256
    and Argon2 are third-party code: the first is the class [Sha256], the
    second the calls [ArgonHash] and [ArgonVerify].  Counters of the [metrics]
    crate are not modelled. *)
From stdpp Require Import base list numbers strings sets gmap sorting.
From Stdlib Require Import ZArith Lia.
From S2P Require Import Prelude Primitives Effects Auth LoginLimiter Issues.

Class Sha256 := sha256 : bytes → bytes.

Definition MIN_PASSWORD_BYTES : Z := 12.
Definition MAX_PASSWORD_BYTES : Z := 1024.
Definition MIN_ARGON2_MEMORY_KIB : Z := 19 * 1024.
Definition MAX_ARGON2_MEMORY_KIB : Z := 1024 * 1024.
Definition MIN_ARGON2_ITERATIONS : Z := 2.
Definition MAX_ARGON2_ITERATIONS : Z := 20.
Definition MAX_ARGON2_PARALLELISM : Z := 16.

Record PasswordConfig := {
  pw_memory_kib : Z;
  pw_iterations : Z;
  pw_parallelism : Z;
  pw_max_concurrency : Z;
}.

Record AuthConfig := {
  au_identity_collision_retries : Z;
  au_session_idle_timeout : duration;
  au_session_absolute_timeout : duration;
  au_activity_touch_interval : duration;
  au_setup_token_timeout : duration;
  au_max_api_token_lifetime : duration;
  au_store_timeout : duration;
  au_password : PasswordConfig;
  au_login_rate_limit : LoginRateLimitConfig;
}.

Inductive AuthError :=
| InvalidConfiguration | InvalidCredentials | RateLimited | Forbidden | InvalidCredential
| AlreadyExists | IdentityCollision | CollisionExhausted | NotFound | ProjectDisabled
| ProjectDeletionPending | ProjectPurging | ProjectDeletedError | FinalOwner | BootstrapClosed
| InvalidPassword | InvalidTokenPolicy | RandomUnavailable | Unavailable.
#[global] Instance auth_error_eq_dec : EqDecision AuthError.
Proof. solve_decision. Defined.

Inductive AuthStoreError :=
| SeNotFound | SeAlreadyExists | SeIdentityCollision | SeBootstrapClosed | SeFinalOwner
| SeInvalidCredential | SeInvalidData | SeUnavailable.

Definition map_store_error (e : AuthStoreError) : AuthError :=
  match e with
  | SeNotFound => NotFound
  | SeAlreadyExists => AlreadyExists
  | SeIdentityCollision => IdentityCollision
  | SeBootstrapClosed => BootstrapClosed
  | SeFinalOwner => FinalOwner
  | SeInvalidCredential => InvalidCredential
  | SeInvalidData | SeUnavailable => Unavailable
  end.

Definition credential_error (e : AuthError) : AuthError :=
  match e with
  | NotFound | InvalidCredential => InvalidCredential
  | other => other
  end.

Definition auth_error_code (e : AuthError) : str :=
  lit match e with
      | InvalidConfiguration => "auth_invalid_configuration"
      | InvalidCredentials => "auth_invalid_credentials"
      | RateLimited => "auth_rate_limited"
      | Forbidden => "auth_forbidden"
      | InvalidCredential => "auth_invalid_credential"
      | AlreadyExists => "auth_identity_exists"
      | IdentityCollision => "auth_identity_collision"
      | CollisionExhausted => "auth_identity_collision_exhausted"
      | NotFound => "auth_identity_not_found"
      | ProjectDisabled => "project_disabled"
      | ProjectDeletionPending => "project_deletion_pending"
      | ProjectPurging => "project_purging"
      | ProjectDeletedError => "project_deleted"
      | FinalOwner => "auth_final_owner"
      | BootstrapClosed => "auth_bootstrap_closed"
      | InvalidPassword => "auth_invalid_password"
      | InvalidTokenPolicy => "auth_invalid_token_policy"
      | RandomUnavailable => "auth_random_unavailable"
      | Unavailable => "auth_unavailable"
      end.

(** [PasswordInput::new] and [PasswordInput::login]. *)
Definition password_input_new (value : str) : result AuthError str :=
  if (len value <? MIN_PASSWORD_BYTES) || (MAX_PASSWORD_BYTES <? len value) || any_control value
  then Err InvalidPassword else Ok value.
Definition password_input_login (value : str) : result AuthError str :=
  if is_empty value || (MAX_PASSWORD_BYTES <? len value) then Err InvalidCredentials
  else Ok value.

Record BootstrapRequest := {
  br_setup_secret : bytes;
  br_email : EmailAddress;
  br_user_display_name : str;
  br_password : str;
  br_organization_slug : str;
  br_organization_name : str;
  br_request_id : str;
}.
Record LoginRequest := {
  lr_email : str;
  lr_password : str;
  lr_organization_id : option OrganizationId;
  lr_client_network_digest : bytes;
  lr_request_id : str;
}.
Record IssuedWebSession := {
  iw_session : bytes;
  iw_csrf : bytes;
  iw_absolute_expires_at : Timestamp;
  iw_organization_id : OrganizationId;
}.
Record OrganizationIdentity := {
  og_id : OrganizationId;
  og_slug : str;
  og_display_name : str;
  og_created_at : Timestamp;
}.
Record UserOrganization := { uo_organization : OrganizationIdentity; uo_role : OrganizationRole }.
Record CreateOrganizationRequest := {
  cr_slug : str;
  cr_display_name : str;
  cr_request_id : str;
}.
Record IssuedApiToken := {
  ia_id : CredentialId;
  ia_secret : bytes;
  ia_expires_at : Timestamp;
}.
Record InviteUserRequest := {
  ir_email : EmailAddress;
  ir_display_name : str;
  ir_role : OrganizationRole;
  ir_request_id : str;
}.
Record CreateApiTokenRequest := {
  tr_name : str;
  tr_scopes : PermissionSet;
  tr_expires_at : Timestamp;
  tr_request_id : str;
}.
Record QueryExportAudit := {
  qx_request_id : str;
  qx_project_id : ProjectId;
  qx_source : str;
  qx_format : str;
  qx_outcome : str;
  qx_row_count : Z;
  qx_byte_count : Z;
}.

(** Projections of [domain/src/api.rs] the service passes on. *)
Record ApiTokenView := {
  av_id : CredentialId; av_name : str; av_scopes : list str; av_created_at : Timestamp;
  av_expires_at : Timestamp; av_last_used_at : option Timestamp;
}.
Record OrganizationMemberView := {
  ov_user_id : UserId; ov_email : str; ov_display_name : str; ov_role : OrganizationRole;
  ov_disabled_at : option Timestamp; ov_joined_at : Timestamp;
}.
Record AuditLogView := {
  lv_request_id : str; lv_actor : str; lv_actor_user_id : UserId; lv_action : str;
  lv_target_kind : str; lv_target_id : str; lv_timestamp : Timestamp;
  lv_metadata : list (str * str);
}.

(** ** The calls *)

Inductive BootstrapTokenInstall := TokenCreated | TokenAlreadyInstalled | TokenClosed.

Inductive ArgonAnswer := ArgonParamsInvalid | ArgonFailed | ArgonEncoded (encoded : str).

Inductive AuthCall :=
| Now
| FillBytes (n : nat)
| LoginCheck (account network : bytes) (now : Timestamp)
| LoginSuccess (account : bytes)
| HashPermit
| ArgonHash (config : PasswordConfig) (password : str) (salt : bytes)
| ArgonVerify (encoded password : str)
| InstallBootstrapToken (token : SetupToken)
| ConsumeBootstrap (identity : BootstrapIdentity)
| CreateOwnedOrganization (organization : OrganizationIdentity) (m : OrganizationMembership)
| CreateInvitedUser (user : UserAccount) (m : OrganizationMembership) (token : SetupToken)
| CreatePasswordSetupToken (token : SetupToken)
| ConsumePasswordSetup (digest : bytes) (now : Timestamp) (hash : str)
| LoadUserByEmail (email : EmailAddress)
| LoadUser (user : UserId)
| UpdatePasswordHash (user : UserId) (hash : str) (changed_at : Timestamp)
| LoadMembership (user : UserId) (organization : OrganizationId)
| ListUserMemberships (user : UserId) (limit : Z)
| MutateMembership (mutation : MembershipMutation)
| StoreSetUserDisabled (user : UserId) (at_ : option Timestamp) (operation : CredentialId)
| CreateSession (session : WebSession)
| LoadSession (digest : bytes)
| TouchSession (session : CredentialId) (seen idle : Timestamp)
| RevokeSession (digest : bytes) (at_ : Timestamp)
| RevokeUserSessions (user : UserId) (at_ : Timestamp)
| CreateApiToken (token : ApiToken)
| LoadApiToken (digest : bytes)
| TouchApiToken (token : CredentialId) (at_ : Timestamp)
| RevokeApiToken (token : CredentialId) (user : UserId) (organization : OrganizationId)
    (at_ : Timestamp)
| ProjectAccess (project : ProjectId)
| AppendAudit (record : AuditRecord)
| ListApiTokens (user : UserId) (organization : OrganizationId) (limit : Z)
| LoadOrganization (organization : OrganizationId)
| ListOrganizationMembers (organization : OrganizationId) (limit : Z)
| ListAuditLog (organization : OrganizationId) (limit : Z).

(** The answer of a store method within the deadline. *)
Abbreviation stored A := (option (result AuthStoreError A)).

Definition auth_answer (c : AuthCall) : Type :=
  match c with
  | Now => Timestamp
  | FillBytes _ => option bytes
  | LoginCheck _ _ _ => bool
  | LoginSuccess _ => unit
  | HashPermit => bool
  | ArgonHash _ _ _ => ArgonAnswer
  | ArgonVerify _ _ => option bool
  | InstallBootstrapToken _ => stored BootstrapTokenInstall
  | ConsumePasswordSetup _ _ _ => stored UserId
  | LoadUserByEmail _ | LoadUser _ => stored UserAccount
  | LoadMembership _ _ => stored OrganizationMembership
  | ListUserMemberships _ _ => stored (list OrganizationMembership)
  | LoadSession _ => stored WebSession
  | LoadApiToken _ => stored ApiToken
  | ProjectAccess _ => stored (OrganizationId * ProjectAcceptanceState)
  | ListApiTokens _ _ _ => stored (list ApiTokenView)
  | LoadOrganization _ => stored OrganizationIdentity
  | ListOrganizationMembers _ _ => stored (list OrganizationMemberView)
  | ListAuditLog _ _ => stored (list AuditLogView)
  | _ => stored unit
  end.
Canonical Structure AuthSig : signature := Signature AuthCall auth_answer.
Abbreviation auth A := (prog AuthSig (result AuthError A)).

(** ** Helpers *)

Open Scope prog_scope.

(** [IdentityService::call]: the deadline, then the error of the store. *)
Definition call_store {A} (future : prog AuthSig (stored A)) : auth A :=
  future ≫= λ answer,
    Ret (match answer with
         | None => Err Unavailable
         | Some r => map_err map_store_error r
         end).

Definition digest `{Sha256} (secret : bytes) : bytes := sha256 secret.
Definition account_rate_key `{Sha256} (email : str) : bytes := digest (to_ascii_lowercase email).

Definition constant_digest_eq (left right : bytes) : bool :=
  foldl (λ difference '(l, r), Z.lor difference (Z.lxor l r)) 0 (zip left right) =? 0.

Definition add_duration (t : Timestamp) (d : duration) : result AuthError Timestamp :=
  millis ← ok_or InvalidConfiguration (checked_i64 (as_millis d));
  map_err (λ _, InvalidConfiguration) (from_unix_millis (sat_i64 (t + millis))).
Definition duration_between (start end_ : Timestamp) : duration :=
  unwrap_or 0 (checked_u64 (sat_i64 (end_ - start))) * NANOS_PER_MILLI.
Definition elapsed_at_least (start end_ : Timestamp) (d : duration) : bool :=
  d <=? duration_between start end_.

(** [derived_u63]: eight bytes of a digest, without the top bit, at least 1. *)
Definition derived_u63 (d : bytes) (offset : nat) : Z :=
  Z.max (Z.land (be_val (take 8 (drop offset d))) I64_MAX) 1.
Definition derived_id (d : bytes) (offset : nat) : result AuthError CredentialId :=
  map_err (λ _, Unavailable) (credential_id_new (derived_u63 d offset)).

Definition require (context : AuthContext) (p : Permission) : result AuthError unit :=
  if permission_set_contains (cx_permissions context) p then Ok tt else Err Forbidden.

Definition context_for_membership (actor : Actor) (credential_id : CredentialId)
    (m : OrganizationMembership) (permissions : PermissionSet) : AuthContext :=
  {| cx_actor := actor; cx_user_id := mb_user_id m; cx_organization_id := mb_organization_id m;
     cx_role := mb_role m; cx_permissions := permissions; cx_credential_id := credential_id |}.

(** [AuditMetadataValue::new] and [AuditMetadata::new] of a list of texts; the
    [expect]s of the source are on constant values. *)
Definition metadata_of (values : list (AuditMetadataKey * str)) : result AuthError AuditMetadata :=
  if forallb (λ kv, is_ok (bounded_id_new 128 kv.2)) values
  then map_err (λ _, Forbidden) (audit_metadata_new values) else Err Forbidden.
Definition expect_metadata (values : list (AuditMetadataKey * str)) : AuditMetadata :=
  unwrap_or [] (ok (metadata_of values)).
Definition role_metadata (role : OrganizationRole) : AuditMetadata :=
  expect_metadata [(KeyRole, role_name role)].

Definition limiter_config_valid (c : LoginRateLimitConfig) : result AuthError unit :=
  match limiter_new c with Some _ => Ok tt | None => Err InvalidConfiguration end.

Definition validate_config (c : AuthConfig) : result AuthError unit :=
  let p := au_password c in
  let valid :=
    (0 <? au_identity_collision_retries c)
    && negb (au_session_idle_timeout c =? 0)
    && (au_session_idle_timeout c <=? au_session_absolute_timeout c)
    && negb (au_activity_touch_interval c =? 0)
    && (au_activity_touch_interval c <? au_session_idle_timeout c)
    && negb (au_setup_token_timeout c =? 0)
    && negb (au_max_api_token_lifetime c =? 0)
    && negb (au_store_timeout c =? 0)
    && (MIN_ARGON2_MEMORY_KIB <=? pw_memory_kib p)
    && (pw_memory_kib p <=? MAX_ARGON2_MEMORY_KIB)
    && (MIN_ARGON2_ITERATIONS <=? pw_iterations p)
    && (pw_iterations p <=? MAX_ARGON2_ITERATIONS)
    && (0 <? pw_parallelism p) && (pw_parallelism p <=? MAX_ARGON2_PARALLELISM)
    && (0 <? pw_max_concurrency p) && (pw_max_concurrency p <=? 64) in
  if negb valid then Err InvalidConfiguration
  else limiter_config_valid (au_login_rate_limit c).

Definition random_secret : auth bytes :=
  perform (FillBytes 32) ≫= λ r, Ret (ok_or RandomUnavailable r).
(** [(u64 & i64::MAX).max(1)]. *)
Definition random_u63 : auth Z :=
  r ← perform (FillBytes 8);
  bytes ←! ok_or RandomUnavailable r;
  Ret (Ok (Z.max (Z.land (be_val bytes) I64_MAX) 1)).
Definition random_id : auth CredentialId :=
  value ←? random_u63;
  Ret (map_err (λ _, RandomUnavailable) (credential_id_new value)).

(** A [for _ in 0..retries] loop whose body returns, or goes on after a
    collision. *)
Fixpoint retry {A} (retries : nat) (body : auth (option A)) : auth A :=
  match retries with
  | O => Ret (Err CollisionExhausted)
  | S retries =>
      step ←? body;
      match step with
      | Some a => Ret (Ok a)
      | None => retry retries body
      end
  end.
(** [match result { Ok => continuation, Err(IdentityCollision) => {}, Err(e) => return }]. *)
Definition on_created {A} (created : auth unit) (k : auth A) : auth (option A) :=
  created ≫= λ r,
    match r with
    | Ok _ => a ←? k; Ret (Ok (Some a))
    | Err IdentityCollision => Ret (Ok None)
    | Err e => Ret (Err e)
    end.

(** ** Passwords *)

(** The prefix of a current hash, [needs_upgrade] otherwise. *)
Definition current_prefix (c : PasswordConfig) : str :=
  lit "$argon2id$v=19$m=" ++ to_dec (pw_memory_kib c) ++ lit ",t=" ++ to_dec (pw_iterations c)
  ++ lit ",p=" ++ to_dec (pw_parallelism c) ++ lit "$".
Definition needs_upgrade (c : PasswordConfig) (encoded : str) : bool :=
  negb (starts_with (current_prefix c) encoded).

Definition argon_hashed (answer : ArgonAnswer) : result AuthError str :=
  match answer with
  | ArgonParamsInvalid => Err InvalidConfiguration
  | ArgonFailed => Err Unavailable
  | ArgonEncoded hash => map_err (λ _, Unavailable) (password_hash_new hash)
  end.
Definition password_hash (c : PasswordConfig) (password : str) : auth str :=
  permit ← perform HashPermit;
  if negb permit then Ret (Err Unavailable)
  else
    salt ← perform (FillBytes 16);
    salt ←! ok_or RandomUnavailable salt;
    perform (ArgonHash c password salt) ≫= λ answer, Ret (argon_hashed answer).
Definition password_verify (password encoded : str) : auth bool :=
  permit ← perform HashPermit;
  if negb permit then Ret (Err Unavailable)
  else perform (ArgonVerify encoded password) ≫= λ r, Ret (ok_or Unavailable r).

(** [PasswordEngine::new]: the hash that is verified when there is no user. *)
Definition DUMMY_PASSWORD : str := lit "metric-dummy-password".
Definition password_engine_new (c : PasswordConfig) : auth str :=
  perform (ArgonHash c DUMMY_PASSWORD (replicate 16 66)) ≫= λ answer, Ret (argon_hashed answer).

(** ** The service *)

Section service.
Context `{Sha256} (config : AuthConfig) (dummy_hash : str).

Let retries : nat := Z.to_nat (au_identity_collision_retries config).

Definition audit (context : AuthContext) (request_id : str) (action : AuditAction)
    (target_kind : string) (target_id : str) (metadata : AuditMetadata) : auth unit :=
  target_id ←! map_err (λ _, Unavailable) (bounded_id_new 128 target_id);
  now ← perform Now;
  call_store (perform (AppendAudit
    {| ad_request_id := request_id; ad_organization_id := cx_organization_id context;
       ad_actor := cx_actor context; ad_actor_user_id := cx_user_id context;
       ad_action := action; ad_target_kind := target_kind; ad_target_id := target_id;
       ad_timestamp := now; ad_metadata := metadata |})).

Definition setup_token (id : CredentialId) (secret : bytes) (purpose : SetupPurpose)
    (user_id : option UserId) (now expires_at : Timestamp) : SetupToken :=
  {| su_id := id; su_digest := digest secret; su_purpose := purpose; su_user_id := user_id;
     su_created_at := now; su_expires_at := expires_at; su_consumed_at := None |}.

Definition ensure_bootstrap_token : auth (option bytes) :=
  retry retries
    (id ←? random_id;
     secret ←? random_secret;
     now ← perform Now;
     expires_at ←! add_duration now (au_setup_token_timeout config);
     call_store (perform (InstallBootstrapToken
       (setup_token id secret PurposeBootstrap None now expires_at))) ≫= λ r,
       match r with
       | Ok TokenCreated => Ret (Ok (Some (Some secret)))
       | Ok TokenAlreadyInstalled => Ret (Ok (Some None))
       | Ok TokenClosed => Ret (Err BootstrapClosed)
       | Err IdentityCollision => Ret (Ok None)
       | Err e => Ret (Err e)
       end).

Definition bootstrap (request : BootstrapRequest) : auth AuthContext :=
  let token_digest := digest (br_setup_secret request) in
  operation_id ←! derived_id token_digest 0;
  organization_id ←! map_err (λ _, Unavailable)
    (organization_id_new (derived_u63 token_digest 8));
  user_id ←! map_err (λ _, Unavailable) (user_id_new (derived_u63 token_digest 16));
  now ← perform Now;
  hash ←? password_hash (au_password config) (br_password request);
  let user := {| us_id := user_id; us_email := br_email request;
                 us_display_name := br_user_display_name request;
                 us_password_hash := Some hash; us_disabled_at := None;
                 us_created_at := now |} in
  let membership := {| mb_organization_id := organization_id; mb_user_id := user_id;
                       mb_role := ROwner; mb_created_at := now; mb_created_by := user_id |} in
  _ ←? call_store (perform (ConsumeBootstrap
    {| bi_operation_id := operation_id; bi_token_digest := token_digest;
       bi_organization_id := organization_id;
       bi_organization_slug := br_organization_slug request;
       bi_organization_name := br_organization_name request;
       bi_user := user; bi_membership := membership; bi_timestamp := now |}));
  let context := {| cx_actor := Bootstrap; cx_user_id := user_id;
                    cx_organization_id := organization_id; cx_role := ROwner;
                    cx_permissions := from_role ROwner; cx_credential_id := operation_id |} in
  _ ←? audit context (br_request_id request) PasswordSetup "user" (to_dec user_id)
        (expect_metadata [(KeyRole, lit "owner")]);
  Ret (Ok context).

(** The least membership by creation and organization. *)
Definition membership_le (a b : OrganizationMembership) : Prop :=
  mb_created_at a < mb_created_at b
  ∨ mb_created_at a = mb_created_at b ∧ mb_organization_id a ≤ mb_organization_id b.
#[export] Instance membership_le_dec : RelDecision membership_le.
Proof. unfold membership_le. solve_decision. Defined.
Definition default_membership (user_id : UserId) : auth OrganizationMembership :=
  memberships ←? call_store (perform (ListUserMemberships user_id 100));
  Ret (ok_or InvalidCredentials (head (merge_sort membership_le memberships))).

Definition authoritative_identity (user_id : UserId) (organization_id : OrganizationId)
    : auth (UserAccount * OrganizationMembership) :=
  user ←? map_err_p credential_error (call_store (perform (LoadUser user_id)));
  membership ←? map_err_p credential_error
    (call_store (perform (LoadMembership user_id organization_id)));
  Ret (Ok (user, membership)).

Definition create_session (user_id : UserId) (organization_id : OrganizationId) (now : Timestamp)
    : auth (WebSession * IssuedWebSession) :=
  retry retries
    (id ←? random_id;
     secret ←? random_secret;
     csrf ←? random_secret;
     absolute_expires_at ←! add_duration now (au_session_absolute_timeout config);
     idle ←! add_duration now (au_session_idle_timeout config);
     let session := {| ws_id := id; ws_digest := digest secret; ws_csrf_digest := digest csrf;
                       ws_user_id := user_id; ws_created_at := now; ws_last_seen_at := now;
                       ws_idle_expires_at := Z.min idle absolute_expires_at;
                       ws_absolute_expires_at := absolute_expires_at;
                       ws_revoked_at := None |} in
     on_created (call_store (perform (CreateSession session)))
       (Ret (Ok (session, {| iw_session := secret; iw_csrf := csrf;
                             iw_absolute_expires_at := absolute_expires_at;
                             iw_organization_id := organization_id |})))).

(** The stored hash that a login verifies against. *)
Definition encoded_password (user : option UserAccount) : str :=
  unwrap_or dummy_hash (user ≫= us_password_hash).

Definition load_login_user (email : str) : auth (option UserAccount) :=
  match email_parse email with
  | Err _ => Ret (Ok None)
  | Ok email =>
      call_store (perform (LoadUserByEmail email)) ≫= λ r,
        Ret (match r with
             | Ok user => Ok (Some user)
             | Err NotFound => Ok None
             | Err e => Err e
             end)
  end.

Definition login_membership (user : UserAccount) (organization_id : option OrganizationId)
    : auth OrganizationMembership :=
  match organization_id with
  | Some organization_id =>
      call_store (perform (LoadMembership (us_id user) organization_id)) ≫= λ r,
        Ret (match r with
             | Ok membership => Ok membership
             | Err NotFound => Err InvalidCredentials
             | Err e => Err e
             end)
  | None => default_membership (us_id user)
  end.

(** [if needs_upgrade && let Ok(upgraded) = ..]: errors are ignored. *)
Definition upgrade_password (upgrade : bool) (password : str) (user_id : UserId) (now : Timestamp)
    : prog AuthSig unit :=
  if upgrade then
    r ← password_hash (au_password config) password;
    match r with
    | Ok upgraded => perform (UpdatePasswordHash user_id upgraded now) ≫= λ _, Ret tt
    | Err _ => Ret tt
    end
  else Ret tt.

Definition login (request : LoginRequest) : auth IssuedWebSession :=
  now ← perform Now;
  let account_key := account_rate_key (lr_email request) in
  allowed ← perform (LoginCheck account_key (lr_client_network_digest request) now);
  if negb allowed then Ret (Err RateLimited)
  else
    user ←? load_login_user (lr_email request);
    password ←! password_input_login (lr_password request);
    let encoded := encoded_password user in
    let upgrade := needs_upgrade (au_password config) encoded in
    password_valid ←? password_verify password encoded;
    match user with
    | Some user =>
        if password_valid && is_none (us_disabled_at user) then
          membership ←? login_membership user (lr_organization_id request);
          _ ← upgrade_password upgrade password (us_id user) now;
          _ ←? call_store (perform (RevokeUserSessions (us_id user) now));
          issued ←? create_session (us_id user) (mb_organization_id membership) now;
          let context := context_for_membership WebSessionActor (ws_id issued.1) membership
                           (from_role (mb_role membership)) in
          _ ←? audit context (lr_request_id request) LoginSucceeded "user" (to_dec (us_id user))
                (expect_metadata [(KeyCredentialKind, lit "web_session")]);
          _ ← perform (LoginSuccess account_key);
          Ret (Ok issued.2)
        else Ret (Err InvalidCredentials)
    | None => Ret (Err InvalidCredentials)
    end.

Definition authenticate_session (secret : bytes) (csrf : option bytes) (state_changing : bool)
    (organization_id : OrganizationId) : auth AuthContext :=
  now ← perform Now;
  session ←? map_err_p credential_error (call_store (perform (LoadSession (digest secret))));
  if is_some (ws_revoked_at session)
     || (ws_idle_expires_at session <=? now)
     || (ws_absolute_expires_at session <=? now)
     || (state_changing
         && negb (is_some_and (λ c, constant_digest_eq (digest c) (ws_csrf_digest session)) csrf))
  then Ret (Err InvalidCredential)
  else
    '(user, membership) ←? authoritative_identity (ws_user_id session) organization_id;
    if is_some (us_disabled_at user) then Ret (Err InvalidCredential)
    else
      let context := context_for_membership WebSessionActor (ws_id session) membership
                       (from_role (mb_role membership)) in
      if elapsed_at_least (ws_last_seen_at session) now (au_activity_touch_interval config) then
        idle ←! add_duration now (au_session_idle_timeout config);
        _ ← perform (TouchSession (ws_id session) now
                       (Z.min idle (ws_absolute_expires_at session)));
        Ret (Ok context)
      else Ret (Ok context).

Definition logout (secret : bytes) : auth unit :=
  now ← perform Now;
  map_err_p credential_error (call_store (perform (RevokeSession (digest secret) now))).

(** A setup token for a user, until it is stored; then the audit entry. *)
Definition issue_setup_token (context : AuthContext) (request_id : str) (purpose : SetupPurpose)
    (user_id : UserId) (action : AuditAction) (metadata : AuditMetadata) : auth bytes :=
  retry retries
    (secret ←? random_secret;
     now ← perform Now;
     id ←? random_id;
     expires_at ←! add_duration now (au_setup_token_timeout config);
     on_created
       (call_store (perform (CreatePasswordSetupToken
          (setup_token id secret purpose (Some user_id) now expires_at))))
       (_ ←? audit context request_id action "user" (to_dec user_id) metadata;
        Ret (Ok secret))).

Definition reissue_pending_invitation (context : AuthContext) (request : InviteUserRequest)
    (user : UserAccount) : auth (option bytes) :=
  if is_some (us_password_hash user) || is_some (us_disabled_at user)
  then Ret (Err AlreadyExists)
  else
    membership ←? call_store (perform (LoadMembership (us_id user) (cx_organization_id context)));
    _ ←! (if bool_decide (mb_role membership = ROwner)
          then require context OrganizationOwner else Ok tt);
    secret ←? issue_setup_token context (ir_request_id request) PurposePasswordSetup
      (us_id user) MembershipInvitationReissued (role_metadata (mb_role membership));
    Ret (Ok (Some secret)).

Definition grants_owner (kind : MembershipMutationKind) : bool :=
  bool_decide (kind = Create ROwner) || bool_decide (kind = ChangeRole ROwner).

Definition mutation_audit (kind : MembershipMutationKind) : AuditAction * AuditMetadata :=
  match kind with
  | Create role => (MembershipCreated, role_metadata role)
  | ChangeRole role => (MembershipRoleChanged, role_metadata role)
  | Remove => (MembershipRemoved, expect_metadata [])
  end.

Definition mutate_membership (context : AuthContext) (target : UserId)
    (kind : MembershipMutationKind) (request_id : str) : auth unit :=
  _ ←! require context OrganizationAdmin;
  touches_owner ←
    (if grants_owner kind then Ret true
     else
       call_store (perform (LoadMembership target (cx_organization_id context))) ≫= λ r,
         Ret (match r with
              | Ok membership => bool_decide (mb_role membership = ROwner)
              | Err _ => false
              end));
  _ ←! (if (touches_owner : bool) then require context OrganizationOwner else Ok tt);
  operation_id ←? random_id;
  now ← perform Now;
  _ ←? call_store (perform (MutateMembership
    {| mm_organization_id := cx_organization_id context; mm_user_id := target;
       mm_actor_user_id := cx_user_id context; mm_operation_id := operation_id;
       mm_kind := kind; mm_timestamp := now |}));
  let '(action, metadata) := mutation_audit kind in
  audit context request_id action "user" (to_dec target) metadata.

Definition invite_new_user (context : AuthContext) (request : InviteUserRequest)
    : auth (option bytes) :=
  retry retries
    (value ←? random_u63;
     user_id ←! map_err (λ _, RandomUnavailable) (user_id_new value);
     token_id ←? random_id;
     secret ←? random_secret;
     now ← perform Now;
     expires_at ←! add_duration now (au_setup_token_timeout config);
     let user := {| us_id := user_id; us_email := ir_email request;
                    us_display_name := ir_display_name request; us_password_hash := None;
                    us_disabled_at := None; us_created_at := now |} in
     let membership := {| mb_organization_id := cx_organization_id context;
                          mb_user_id := user_id; mb_role := ir_role request;
                          mb_created_at := now; mb_created_by := cx_user_id context |} in
     on_created
       (call_store (perform (CreateInvitedUser user membership
          (setup_token token_id secret PurposePasswordSetup (Some user_id) now expires_at))))
       (_ ←? audit context (ir_request_id request) MembershipCreated "user" (to_dec user_id)
              (role_metadata (ir_role request));
        Ret (Ok (Some secret)))).

Definition invite_user (context : AuthContext) (request : InviteUserRequest)
    : auth (option bytes) :=
  let create user := mutate_membership context (us_id user) (Create (ir_role request))
                       (ir_request_id request) in
  let load user := call_store (perform (LoadMembership (us_id user)
                                          (cx_organization_id context))) in
  _ ←! require context OrganizationAdmin;
  _ ←! (if bool_decide (ir_role request = ROwner)
        then require context OrganizationOwner else Ok tt);
  found ← call_store (perform (LoadUserByEmail (ir_email request)));
  match found with
  | Ok user =>
      if is_some (us_password_hash user) && is_none (us_disabled_at user) then
        load user ≫= λ r,
          match r with
          | Ok _ => Ret (Err AlreadyExists)
          | Err NotFound => _ ←? create user; Ret (Ok None)
          | Err e => Ret (Err e)
          end
      else if is_some (us_disabled_at user) then Ret (Err AlreadyExists)
      else
        load user ≫= λ r,
          match r with
          | Ok _ => reissue_pending_invitation context request user
          | Err NotFound =>
              _ ←? create user; reissue_pending_invitation context request user
          | Err e => Ret (Err e)
          end
  | Err NotFound => invite_new_user context request
  | Err e => Ret (Err e)
  end.

Definition setup_password (secret : bytes) (password : str)
    (organization_id : option OrganizationId) (request_id : str) : auth unit :=
  hash ←? password_hash (au_password config) password;
  now ← perform Now;
  user_id ←? map_err_p credential_error
    (call_store (perform (ConsumePasswordSetup (digest secret) now hash)));
  _ ←? call_store (perform (RevokeUserSessions user_id now));
  membership ←? match organization_id with
                | Some organization_id =>
                    call_store (perform (LoadMembership user_id organization_id))
                | None => default_membership user_id
                end;
  credential ←! map_err (λ _, Unavailable) (credential_id_new user_id);
  let context := context_for_membership Bootstrap credential membership
                   (from_role (mb_role membership)) in
  audit context request_id PasswordSetup "user" (to_dec user_id) (expect_metadata []).

Definition create_password_reset (context : AuthContext) (target : UserId) (request_id : str)
    : auth bytes :=
  _ ←! require context OrganizationAdmin;
  membership ←? call_store (perform (LoadMembership target (cx_organization_id context)));
  _ ←! (if bool_decide (mb_role membership = ROwner)
        then require context OrganizationOwner else Ok tt);
  issue_setup_token context request_id PurposePasswordReset target PasswordReset
    (expect_metadata []).

Definition change_password (context : AuthContext) (current replacement : str)
    (request_id : str) : auth unit :=
  if negb (bool_decide (cx_actor context = WebSessionActor)) then Ret (Err Forbidden)
  else
    '(user, membership) ←? authoritative_identity (cx_user_id context)
                             (cx_organization_id context);
    if is_some (us_disabled_at user) || negb (bool_decide (mb_role membership = cx_role context))
    then Ret (Err InvalidCredential)
    else
      match us_password_hash user with
      | None => Ret (Err InvalidCredentials)
      | Some encoded =>
          valid ←? password_verify current encoded;
          if negb valid then Ret (Err InvalidCredentials)
          else
            now ← perform Now;
            hash ←? password_hash (au_password config) replacement;
            _ ←? call_store (perform (UpdatePasswordHash (cx_user_id context) hash now));
            _ ←? call_store (perform (RevokeUserSessions (cx_user_id context) now));
            audit context request_id PasswordChanged "user" (to_dec (cx_user_id context))
              (expect_metadata [])
      end.

Definition create_api_token (context : AuthContext) (request : CreateApiTokenRequest)
    : auth IssuedApiToken :=
  if bool_decide (cx_actor context = Bootstrap)
     || negb (permission_set_is_subset_of (tr_scopes request) (cx_permissions context))
  then Ret (Err InvalidTokenPolicy)
  else
    now ← perform Now;
    if tr_expires_at request <=? now then Ret (Err InvalidTokenPolicy)
    else
      now ← perform Now;
      if au_max_api_token_lifetime config <? duration_between now (tr_expires_at request)
      then Ret (Err InvalidTokenPolicy)
      else
        retry retries
          (id ←? random_id;
           secret ←? random_secret;
           now ← perform Now;
           on_created
             (call_store (perform (CreateApiToken
                {| at_id := id; at_digest := digest secret; at_user_id := cx_user_id context;
                   at_organization_id := cx_organization_id context; at_name := tr_name request;
                   at_scopes := tr_scopes request; at_created_at := now;
                   at_expires_at := tr_expires_at request; at_last_used_at := None;
                   at_revoked_at := None |})))
             (_ ←? audit context (tr_request_id request) ApiTokenCreated "api_token" (to_dec id)
                    (expect_metadata []);
              Ret (Ok {| ia_id := id; ia_secret := secret;
                         ia_expires_at := tr_expires_at request |}))).

Definition authenticate_api_token (secret : bytes) : auth AuthContext :=
  now ← perform Now;
  token ←? map_err_p credential_error (call_store (perform (LoadApiToken (digest secret))));
  if is_some (at_revoked_at token) || (at_expires_at token <=? now)
  then Ret (Err InvalidCredential)
  else
    '(user, membership) ←? authoritative_identity (at_user_id token) (at_organization_id token);
    if is_some (us_disabled_at user) then Ret (Err InvalidCredential)
    else
      let context := context_for_membership PersonalApiToken (at_id token) membership
        (permission_set_intersect (from_role (mb_role membership)) (at_scopes token)) in
      if is_none_or (λ last, elapsed_at_least last now (au_activity_touch_interval config))
           (at_last_used_at token)
      then perform (TouchApiToken (at_id token) now) ≫= λ _, Ret (Ok context)
      else Ret (Ok context).

Definition revoke_api_token (context : AuthContext) (token_id : CredentialId) (request_id : str)
    : auth unit :=
  now ← perform Now;
  _ ←? call_store (perform (RevokeApiToken token_id (cx_user_id context)
                              (cx_organization_id context) now));
  audit context request_id ApiTokenRevoked "api_token" (to_dec token_id) (expect_metadata []).

Definition list_api_tokens (context : AuthContext) (limit : Z) : auth (list ApiTokenView) :=
  if negb (in_range 1 100 limit) then Ret (Err InvalidTokenPolicy)
  else call_store (perform (ListApiTokens (cx_user_id context) (cx_organization_id context) limit)).

Definition organization (context : AuthContext) : auth OrganizationIdentity :=
  call_store (perform (LoadOrganization (cx_organization_id context))).

Definition create_organization (context : AuthContext) (request : CreateOrganizationRequest)
    : auth OrganizationIdentity :=
  _ ←! require context OrganizationAdmin;
  retry retries
    (value ←? random_u63;
     organization_id ←! map_err (λ _, RandomUnavailable) (organization_id_new value);
     now ← perform Now;
     let organization := {| og_id := organization_id; og_slug := cr_slug request;
                            og_display_name := cr_display_name request;
                            og_created_at := now |} in
     let membership := {| mb_organization_id := organization_id;
                          mb_user_id := cx_user_id context; mb_role := ROwner;
                          mb_created_at := now; mb_created_by := cx_user_id context |} in
     let owner_context := {| cx_actor := cx_actor context; cx_user_id := cx_user_id context;
                             cx_organization_id := organization_id; cx_role := ROwner;
                             cx_permissions := from_role ROwner;
                             cx_credential_id := cx_credential_id context |} in
     on_created (call_store (perform (CreateOwnedOrganization organization membership)))
       (_ ←? audit owner_context (cr_request_id request) MembershipCreated "user"
              (to_dec (cx_user_id context)) (role_metadata ROwner);
        Ret (Ok organization))).

Fixpoint load_organizations (memberships : list OrganizationMembership)
    : auth (list UserOrganization) :=
  match memberships with
  | [] => Ret (Ok [])
  | m :: ms =>
      organization ←? call_store (perform (LoadOrganization (mb_organization_id m)));
      rest ←? load_organizations ms;
      Ret (Ok ({| uo_organization := organization; uo_role := mb_role m |} :: rest))
  end.
Definition list_user_organizations (context : AuthContext) (limit : Z)
    : auth (list UserOrganization) :=
  if negb (bool_decide (cx_actor context = WebSessionActor)) then Ret (Err Forbidden)
  else if negb (in_range 1 100 limit) then Ret (Err InvalidTokenPolicy)
  else
    memberships ←? call_store (perform (ListUserMemberships (cx_user_id context) limit));
    load_organizations memberships.

Definition list_organization_members (context : AuthContext) (limit : Z)
    : auth (list OrganizationMemberView) :=
  _ ←! require context OrganizationAdmin;
  if negb (in_range 1 100 limit) then Ret (Err InvalidTokenPolicy)
  else call_store (perform (ListOrganizationMembers (cx_organization_id context) limit)).

Definition list_audit_log (context : AuthContext) (limit : Z) : auth (list AuditLogView) :=
  _ ←! require context OrganizationAdmin;
  if negb (in_range 1 100 limit) then Ret (Err InvalidTokenPolicy)
  else call_store (perform (ListAuditLog (cx_organization_id context) limit)).

Definition record_project_audit (context : AuthContext) (request_id : str) (action : AuditAction)
    (target_kind : string) (target_id : str) : auth unit :=
  if negb (existsb (λ a, bool_decide (action = a))
             [ProjectCreated; ProjectKeyCreated; ProjectKeyDisabled; ProjectPolicyChanged;
              ProjectDeletionRequested; ProjectDeletionCancelled])
     || negb (existsb (String.eqb target_kind) ["project"; "project_key"; "project_deletion"]%string)
  then Ret (Err Forbidden)
  else audit context request_id action target_kind target_id (expect_metadata []).

Definition record_incident_capsule_audit (context : AuthContext) (request_id : str)
    (project_id : ProjectId) (issue_id : bytes) (selected_event_count : Z)
    (result_size_class : str) : auth unit :=
  if negb (permission_set_contains (cx_permissions context) IncidentExport)
     || (10 <? selected_event_count)
     || negb (existsb (λ s, bool_decide (result_size_class = lit s)) ["small"; "medium"; "large"]%string)
  then Ret (Err Forbidden)
  else
    metadata ←! metadata_of [(KeyProjectId, to_dec project_id);
                             (KeySelectedEventCount, to_dec selected_event_count);
                             (KeyResultSizeClass, result_size_class)];
    audit context request_id IncidentCapsuleExported "incident_capsule" (id_to_string issue_id)
      metadata.

Definition record_notification_audit (context : AuthContext) (request_id : str)
    (project_id : ProjectId) (action : AuditAction) (target_id : str) : auth unit :=
  target_kind ←! match action with
                 | NotificationDestinationUpserted | NotificationDestinationDeleted =>
                     Ok "notification_destination"%string
                 | AlertRuleUpserted | AlertRuleDeleted => Ok "alert_rule"%string
                 | _ => Err Forbidden
                 end;
  if negb (permission_set_contains (cx_permissions context) ProjectAdmin)
  then Ret (Err Forbidden)
  else
    metadata ←! metadata_of [(KeyProjectId, to_dec project_id)];
    audit context request_id action target_kind target_id metadata.

Definition export_size_class (byte_count : Z) : str :=
  if byte_count <? 1024 * 1024 then lit "small"
  else if byte_count <? 8 * 1024 * 1024 then lit "medium"
  else lit "large".
Definition record_query_export_audit (context : AuthContext) (export : QueryExportAudit)
    : auth unit :=
  if negb (permission_set_contains (cx_permissions context) IncidentExport)
     || negb (existsb (λ s, bool_decide (qx_outcome export = lit s))
                ["success"; "failed"; "capacity"; "timeout"]%string)
  then Ret (Err Forbidden)
  else
    let outcome := qx_outcome export ++ lit ":" ++ qx_source export ++ lit ":"
                   ++ qx_format export in
    metadata ←! metadata_of [(KeyProjectId, to_dec (qx_project_id export));
                             (KeyOutcome, outcome);
                             (KeySelectedEventCount, to_dec (qx_row_count export));
                             (KeyResultSizeClass, export_size_class (qx_byte_count export))];
    audit context (qx_request_id export) QueryExported "project"
      (to_dec (qx_project_id export)) metadata.

Definition record_replay_audit (context : AuthContext) (request_id : str)
    (project_id : ProjectId) (replay_id : bytes) : auth unit :=
  if negb (permission_set_contains (cx_permissions context) ProjectRead)
  then Ret (Err Forbidden)
  else
    metadata ←! metadata_of [(KeyProjectId, to_dec project_id)];
    audit context request_id ReplayAccessed "replay" (id_to_string replay_id) metadata.

Definition validate_issue_assignee (context : AuthContext) (assignee : ActorRef) : auth unit :=
  if negb (bool_decide (ar_kind assignee = AUser))
     || negb (bool_decide (take 8 (ar_id assignee) = replicate 8 0))
  then Ret (Err Forbidden)
  else
    user_id ←! map_err (λ _, Forbidden) (user_id_new (be_val (drop 8 (ar_id assignee))));
    '(user, _) ←? authoritative_identity user_id (cx_organization_id context);
    if is_some (us_disabled_at user) then Ret (Err Forbidden) else Ret (Ok tt).

Definition set_user_disabled (context : AuthContext) (target : UserId) (disabled : bool)
    (request_id : str) : auth unit :=
  _ ←! require context OrganizationAdmin;
  membership ←? call_store (perform (LoadMembership target (cx_organization_id context)));
  _ ←! (if bool_decide (mb_role membership = ROwner)
        then require context OrganizationOwner else Ok tt);
  now ← perform Now;
  operation_id ←? random_id;
  _ ←? call_store (perform (StoreSetUserDisabled target (if disabled then Some now else None)
                              operation_id));
  _ ←? (if disabled then call_store (perform (RevokeUserSessions target now))
        else Ret (Ok tt));
  audit context request_id (if disabled then UserDisabled else UserEnabled) "user"
    (to_dec target) (expect_metadata []).

Definition project_access (project_id : ProjectId)
    : auth (OrganizationId * ProjectAcceptanceState) :=
  call_store (perform (ProjectAccess project_id)).

Definition authorize_project (context : AuthContext) (project_id : ProjectId) (p : Permission)
    : auth unit :=
  '(organization_id, _) ←? project_access project_id;
  if negb (organization_id =? cx_organization_id context)
     || negb (permission_set_contains (cx_permissions context) p)
  then Ret (Err Forbidden) else Ret (Ok tt).

Definition authorize_project_mutation (context : AuthContext) (project_id : ProjectId)
    (p : Permission) : auth unit :=
  '(organization_id, state) ←? project_access project_id;
  if negb (organization_id =? cx_organization_id context)
     || negb (permission_set_contains (cx_permissions context) p)
  then Ret (Err Forbidden)
  else Ret (match state with
            | PActive => Ok tt
            | PDisabled => Err ProjectDisabled
            | PPendingDelete => Err ProjectDeletionPending
            | PPurging => Err ProjectPurging
            | PDeleted => Err ProjectDeletedError
            end).

End service.

(** [IdentityService::new]: the hash of the dummy password is computed once. *)
Definition identity_service_new (config : AuthConfig) : auth str :=
  _ ←! validate_config config;
  dummy ←? password_engine_new (au_password config);
  _ ←! limiter_config_valid (au_login_rate_limit config);
  Ret (Ok dummy).
