(* ===== verification/IdentityTheory.v ===== *)
(** * What the identity service guarantees

    The theorems about the programs of [IdentityService]: who may change what,
    what a login checks, which session or token authenticates, and the two
    places where the code grants more than it means to. *)
From stdpp Require Import base list numbers strings sets gmap sorting.
From Stdlib Require Import ZArith Lia.
From S2P Require Import Prelude Primitives Effects Auth LoginLimiter Issues IdentityService.

Open Scope prog_scope.

Abbreviation history := (list (event AuthSig)).

(** ** Rules for the building blocks of a method *)

(** Goals on histories: a prefix, or an answer that was given. *)
Ltac hist :=
  first [ assumption
        | apply answered_last
        | apply answered_app; hist
        | match goal with
          | H : _ `prefix_of` ?h |- answered _ _ ?h =>
              apply (answered_prefix _ _ _ _ H); clear H; hist
          end
        | reflexivity
        | eexists; rewrite <- ?app_assoc; reflexivity
        | etrans; [eassumption|]; hist ].

(** An error needs no audit entry. *)
Ltac failed := solve [cbn; intros; congruence].

Section rules.
Context (guar : history → AuthCall → Prop).
Implicit Types h : history.

Lemma sat_ret {A} (post : history → A → Prop) h a : post h a → sat guar post h (Ret a).
Proof. done. Qed.
Lemma sat_perform (c : AuthCall) (post : history → auth_answer c → Prop) h :
  guar h c → (∀ x, post (h ++ [existT c x]) x) → sat guar post h (perform (E := AuthSig) c).
Proof. intros. by split. Qed.

Lemma sat_store {A} post h (p : prog AuthSig (stored A)) :
  sat guar (λ h r, match r with
                   | Some (Ok a) => post h (Ok a)
                   | Some (Err e) => post h (Err (map_store_error e))
                   | None => post h (Err Unavailable)
                   end) h p →
  sat guar post h (call_store p).
Proof. intros H. apply sat_bind. eapply sat_mono; [done| |done]. by intros h' [[a|e]|]. Qed.

Lemma sat_map_err {A} post h (p : auth A) (f : AuthError → AuthError) :
  sat guar (λ h r, post h (map_err f r)) h p → sat guar post h (map_err_p f p).
Proof. intros H. by apply sat_bind. Qed.

(** A call the theorem does not restrict. *)
Definition silent (c : AuthCall) : Prop := ∀ h, guar h c.

(** A random value is one call, whatever comes of it. *)
Lemma sat_random_secret post h : guar h (FillBytes 32) →
  (∀ x r, post (h ++ [existT (P := auth_answer) (FillBytes 32) x]) r) →
  sat guar post h random_secret.
Proof. intros Hs Hp. split; [done|]. intros x. apply Hp. Qed.
Lemma sat_random_u63 post h : guar h (FillBytes 8) →
  (∀ x r, post (h ++ [existT (P := auth_answer) (FillBytes 8) x]) r) →
  sat guar post h random_u63.
Proof. intros Hs Hp. split; [done|]. intros [x|]; apply Hp. Qed.
Lemma sat_random_id post h : guar h (FillBytes 8) →
  (∀ x r, post (h ++ [existT (P := auth_answer) (FillBytes 8) x]) r) →
  sat guar post h random_id.
Proof. intros Hs Hp. apply sat_attempt, sat_random_u63; [done|]. intros x [v|e]; apply Hp. Qed.

Lemma sat_password_hash post h c password :
  silent HashPermit → silent (FillBytes 16) → (∀ salt, silent (ArgonHash c password salt)) →
  (∀ h' r, h `prefix_of` h' → post h' r) → sat guar post h (password_hash c password).
Proof.
  intros H1 H2 H3 H. split; [apply H1|]. intros []; cbn; [|apply H; hist].
  split; [apply H2|]. intros [salt|]; cbn; [|apply H; hist].
  split; [apply H3|]. intros x. apply H. hist.
Qed.

Lemma sat_password_verify post h password encoded :
  silent HashPermit → silent (ArgonVerify encoded password) →
  (∀ h' v, h `prefix_of` h' → answered (ArgonVerify encoded password) (Some v) h' →
     post h' (Ok v)) →
  (∀ h', h `prefix_of` h' → post h' (Err Unavailable)) →
  sat guar post h (password_verify password encoded).
Proof.
  intros H1 H2 H He. split; [apply H1|]. intros []; cbn; [|apply He; hist].
  split; [apply H2|]. intros [v|]; cbn.
  - apply H; hist.
  - apply He. hist.
Qed.

Lemma sat_retry {A} post n (body : auth (option A)) : ∀ h,
  (∀ h', h `prefix_of` h' →
     sat guar (λ h r, match r with
                      | Ok (Some a) => post h (Ok a)
                      | Ok None => True
                      | Err e => post h (Err e)
                      end) h' body) →
  (∀ h', h `prefix_of` h' → post h' (Err CollisionExhausted)) →
  sat guar post h (retry n body).
Proof.
  induction n as [|n IH]; intros h Hb He; cbn [retry]; [by apply He|].
  apply sat_attempt. eapply sat_mono; [done| |apply sat_suffix, Hb; done].
  intros h' [[a|]|e] [Hp H]; [done| |done].
  apply IH; intros h'' Hp'; [apply Hb|apply He]; hist.
Qed.

Lemma sat_on_created {A} post h (c : prog AuthSig (stored unit)) (k : auth A) :
  sat guar (λ h r,
    match r with
    | Some (Ok _) =>
        sat guar (λ h r, post h (match r with Ok a => Ok (Some a) | Err e => Err e end)) h k
    | Some (Err e) => post h (Ok None) ∧ ∀ e, post h (Err e)
    | None => post h (Err Unavailable)
    end) h c →
  sat guar post h (on_created (call_store c) k).
Proof.
  intros H. unfold on_created. apply sat_bind, sat_store.
  eapply sat_mono; [done| |exact H]. clear H.
  intros h' [[u|e]|]; [| |done].
  - intros H. apply sat_attempt. eapply sat_mono; [done| |exact H]. by intros h'' [a|e].
  - intros [H1 H2]. destruct e; cbn; auto.
Qed.

End rules.

#[export] Hint Extern 1 (silent _ _) => intros ?; exact I : rust.

(** ** Who may change what *)

Definition holds (context : AuthContext) (p : Permission) : Prop :=
  permission_set_contains (cx_permissions context) p = true.
(** The store reported the user's membership in the organization of the
    context, and the context may manage it. *)
Definition managed (context : AuthContext) (user : UserId) (h : history) : Prop :=
  holds context OrganizationAdmin
  ∧ ∃ m, answered (LoadMembership user (cx_organization_id context)) (Some (Ok m)) h
      ∧ (mb_role m = ROwner → holds context OrganizationOwner).
(** The store was asked for the membership and did not report one: it failed, had
    none or did not answer in time. *)
Definition unreported (context : AuthContext) (user : UserId) (h : history) : Prop :=
  ∃ x, answered (LoadMembership user (cx_organization_id context)) x h ∧ ∀ m, x ≠ Some (Ok m).
(** Nothing reported so far forbids to change the membership of the user. *)
Definition owner_checked (context : AuthContext) (user : UserId) (h : history) : Prop :=
  ∀ m, answered (LoadMembership user (cx_organization_id context)) (Some (Ok m)) h →
    mb_role m = ROwner → holds context OrganizationOwner.

(** What a context must hold for each call that changes or lists state.  An existing
    membership is changed when the context may manage the role the store reported;
    but [mutate_membership] also goes on when the store reported none
    (auth.rs:1311), whatever the role is: that case is the second one here, and
    [mutate_membership_fails_open] shows that it happens. *)
Definition permitted (context : AuthContext) (h : history) (c : AuthCall) : Prop :=
  match c with
  | MutateMembership m =>
      holds context OrganizationAdmin
      ∧ mm_organization_id m = cx_organization_id context
      ∧ mm_actor_user_id m = cx_user_id context
      ∧ (grants_owner (mm_kind m) = true → holds context OrganizationOwner)
      ∧ (grants_owner (mm_kind m) = false →
         managed context (mm_user_id m) h
         ∨ unreported context (mm_user_id m) h ∧ owner_checked context (mm_user_id m) h)
  | StoreSetUserDisabled user _ _ => managed context user h
  | CreatePasswordSetupToken t =>
      su_purpose t ≠ PurposeBootstrap
      ∧ ∃ user, su_user_id t = Some user ∧ managed context user h
  | RevokeUserSessions user _ => user = cx_user_id context ∨ managed context user h
  | CreateInvitedUser user m t =>
      holds context OrganizationAdmin ∧ mb_organization_id m = cx_organization_id context
      ∧ mb_user_id m = us_id user ∧ us_password_hash user = None
      ∧ su_user_id t = Some (us_id user) ∧ su_purpose t ≠ PurposeBootstrap
      ∧ (mb_role m = ROwner → holds context OrganizationOwner)
  | CreateOwnedOrganization o m =>
      holds context OrganizationAdmin ∧ mb_user_id m = cx_user_id context
      ∧ mb_organization_id m = og_id o
  | CreateApiToken t =>
      cx_actor context ≠ Bootstrap ∧ at_user_id t = cx_user_id context
      ∧ at_organization_id t = cx_organization_id context
      ∧ permission_set_is_subset_of (at_scopes t) (cx_permissions context) = true
  | RevokeApiToken _ user organization _ | ListApiTokens user organization _ =>
      user = cx_user_id context ∧ organization = cx_organization_id context
  | UpdatePasswordHash user _ _ =>
      user = cx_user_id context
      ∧ ∃ u old current, answered (LoadUser user) (Some (Ok u)) h
          ∧ us_password_hash u = Some old ∧ us_disabled_at u = None
          ∧ answered (ArgonVerify old current) (Some true) h
  | ListOrganizationMembers organization _ | ListAuditLog organization _ =>
      organization = cx_organization_id context ∧ holds context OrganizationAdmin
  | ListUserMemberships user _ => user = cx_user_id context
  | AppendAudit r => ad_actor_user_id r = cx_user_id context ∧ ad_actor r = cx_actor context
  | InstallBootstrapToken _ | ConsumeBootstrap _ | ConsumePasswordSetup _ _ _ | CreateSession _
  | TouchSession _ _ _ | RevokeSession _ _ | TouchApiToken _ _ => False
  | _ => True
  end.

(** The requests an authenticated context makes. *)
Inductive Operation :=
| OpInviteUser (request : InviteUserRequest)
| OpPasswordReset (target : UserId) (request_id : str)
| OpChangePassword (current replacement request_id : str)
| OpCreateApiToken (request : CreateApiTokenRequest)
| OpRevokeApiToken (token : CredentialId) (request_id : str)
| OpCreateOrganization (request : CreateOrganizationRequest)
| OpMutateMembership (target : UserId) (kind : MembershipMutationKind) (request_id : str)
| OpSetUserDisabled (target : UserId) (disabled : bool) (request_id : str)
| OpProjectAudit (request_id : str) (action : AuditAction) (kind : string) (target : str)
| OpIncidentAudit (request_id : str) (project : ProjectId) (issue : bytes) (count : Z) (size : str)
| OpNotificationAudit (request_id : str) (project : ProjectId) (action : AuditAction) (target : str)
| OpQueryExportAudit (export : QueryExportAudit)
| OpReplayAudit (request_id : str) (project : ProjectId) (replay : bytes)
| OpListApiTokens (limit : Z)
| OpListUserOrganizations (limit : Z)
| OpListOrganizationMembers (limit : Z)
| OpListAuditLog (limit : Z).

Definition discard {A} (p : auth A) : auth unit := _ ←? p; Ret (Ok tt).
Definition run_operation `{Sha256} (config : AuthConfig) (context : AuthContext) (op : Operation)
    : auth unit :=
  match op with
  | OpInviteUser request => discard (invite_user config context request)
  | OpPasswordReset target id => discard (create_password_reset config context target id)
  | OpChangePassword current replacement id =>
      change_password config context current replacement id
  | OpCreateApiToken request => discard (create_api_token config context request)
  | OpRevokeApiToken token id => revoke_api_token context token id
  | OpCreateOrganization request => discard (create_organization config context request)
  | OpMutateMembership target kind id => mutate_membership context target kind id
  | OpSetUserDisabled target disabled id => set_user_disabled context target disabled id
  | OpProjectAudit id action kind target => record_project_audit context id action kind target
  | OpIncidentAudit id project issue count size =>
      record_incident_capsule_audit context id project issue count size
  | OpNotificationAudit id project action target =>
      record_notification_audit context id project action target
  | OpQueryExportAudit export => record_query_export_audit context export
  | OpReplayAudit id project replay => record_replay_audit context id project replay
  | OpListApiTokens limit => discard (list_api_tokens context limit)
  | OpListUserOrganizations limit => discard (list_user_organizations context limit)
  | OpListOrganizationMembers limit => discard (list_organization_members context limit)
  | OpListAuditLog limit => discard (list_audit_log context limit)
  end.

(** The audit entry a successful request leaves: its identifier and actions. *)
Definition operation_audit (op : Operation) : option (str * list AuditAction) :=
  match op with
  | OpInviteUser request =>
      Some (ir_request_id request, [MembershipCreated; MembershipInvitationReissued])
  | OpPasswordReset _ id => Some (id, [PasswordReset])
  | OpChangePassword _ _ id => Some (id, [PasswordChanged])
  | OpCreateApiToken request => Some (tr_request_id request, [ApiTokenCreated])
  | OpRevokeApiToken _ id => Some (id, [ApiTokenRevoked])
  | OpCreateOrganization request => Some (cr_request_id request, [MembershipCreated])
  | OpMutateMembership _ kind id => Some (id, [(mutation_audit kind).1])
  | OpSetUserDisabled _ disabled id => Some (id, [if disabled then UserDisabled else UserEnabled])
  | OpProjectAudit id action _ _ | OpNotificationAudit id _ action _ => Some (id, [action])
  | OpIncidentAudit id _ _ _ _ => Some (id, [IncidentCapsuleExported])
  | OpQueryExportAudit export => Some (qx_request_id export, [QueryExported])
  | OpReplayAudit id _ _ => Some (id, [ReplayAccessed])
  | _ => None
  end.

(** An accepted entry of the audit log for the request. *)
Definition audited (context : AuthContext) (request_id : str) (actions : list AuditAction)
    (h : history) : Prop :=
  ∃ r, answered (AppendAudit r) (Some (Ok tt)) h ∧ ad_request_id r = request_id
    ∧ ad_actor_user_id r = cx_user_id context ∧ ad_action r ∈ actions.

(** The answer of the last event, if it is to load a membership. *)
Definition loaded (e : event AuthSig)
    : option (UserId * OrganizationId * stored OrganizationMembership) :=
  match e with
  | existT c x =>
      match c return auth_answer c
        → option (UserId * OrganizationId * stored OrganizationMembership) with
      | LoadMembership u o => λ x, Some (u, o, x)
      | _ => λ _, None
      end x
  end.
Lemma loaded_inj u o x u' o' x' :
  existT (P := auth_answer) (LoadMembership u o) x
    = existT (P := auth_answer) (LoadMembership u' o') x' → x = x'.
Proof. intros H%(f_equal loaded). cbn in H. congruence. Qed.
Lemma answered_snoc (c : AuthCall) x (h : history) e :
  answered (E := AuthSig) c x (h ++ [e]) ↔
  answered (E := AuthSig) c x h ∨ existT (P := auth_answer) c x = e.
Proof. unfold answered. rewrite elem_of_app, list_elem_of_singleton. done. Qed.

Lemma owner_checked_snoc context user h e : loaded e = None →
  owner_checked context user h → owner_checked context user (h ++ [e]).
Proof. intros He Hc m [H|<-]%answered_snoc; [by apply Hc|done]. Qed.

Definition asked (context : AuthContext) (user : UserId) (h : history) : Prop :=
  ∃ x, answered (LoadMembership user (cx_organization_id context)) x h.
Lemma asked_known context user h : holds context OrganizationAdmin → asked context user h →
  owner_checked context user h →
  managed context user h ∨ unreported context user h ∧ owner_checked context user h.
Proof.
  intros Ha (x & Hx) Hc. destruct x as [[m|e]|].
  - left. split; [done|]. exists m. split; [done|]. by apply Hc.
  - right. split; [by exists (Some (Err e))|done].
  - right. split; [by exists None|done].
Qed.
Lemma managed_prefix context user h h' : h `prefix_of` h' →
  managed context user h → managed context user h'.
Proof. intros Hp [Ha (m & Hm & Hr)]. split; [done|]. exists m. split; [hist|done]. Qed.

Section authorized.
Context `{Sha256} (config : AuthConfig) (context : AuthContext).
Implicit Types h : history.

(** The two obligations of an operation: its calls are permitted, and when it
    succeeds an audit entry was accepted. *)
Definition authorized {A} (request_id : str) (actions : list AuditAction) (h : history)
    (p : auth A) : Prop :=
  sat (permitted context)
    (λ h' r, h `prefix_of` h' ∧ (is_ok r = true → audited context request_id actions h')) h p.

Lemma audit_authorized c request_id action kind target metadata actions h :
  cx_user_id c = cx_user_id context → cx_actor c = cx_actor context → action ∈ actions →
  authorized request_id actions h (audit c request_id action kind target metadata).
Proof.
  intros Hu Ha Hin. apply sat_suffix, sat_attempt_pure; [|done].
  intros target' _. apply sat_bind, sat_perform; [done|]. intros now.
  apply sat_store, sat_perform; [done|]. intros [[[]|e]|]; [|intros [=]..]. intros _.
  eexists. split; [apply answered_last|]. done.
Qed.

Lemma require_sat {A} guar post h p (k : unit → auth A) :
  (holds context p → sat guar post h (k tt)) → post h (Err Forbidden) →
  sat guar post h (attempt_pure (require context p) k).
Proof. unfold require, holds. destruct (permission_set_contains _ _); cbn; auto. Qed.

(** [if owner { require(OrganizationOwner)? }]. *)
Lemma require_owner_sat {A} guar post h (P : Prop) `{Decision P} (k : unit → auth A) :
  ((P → holds context OrganizationOwner) → sat guar post h (k tt)) → post h (Err Forbidden) →
  sat guar post h
    (attempt_pure (if bool_decide P then require context OrganizationOwner else Ok tt) k).
Proof.
  intros Hk He. case_bool_decide; [apply require_sat; auto|]. apply Hk. tauto.
Qed.
Lemma require_if_sat {A} guar post h (b : bool) (k : unit → auth A) :
  ((b = true → holds context OrganizationOwner) → sat guar post h (k tt)) →
  post h (Err Forbidden) →
  sat guar post h (attempt_pure (if b then require context OrganizationOwner else Ok tt) k).
Proof. intros Hk He. destruct b; [apply require_sat; auto|]. by apply Hk. Qed.

Lemma mutate_membership_authorized target kind request_id h :
  owner_checked context target h ∨ grants_owner kind = true →
  authorized request_id [(mutation_audit kind).1] h
    (mutate_membership context target kind request_id).
Proof.
  intros Hpre. apply sat_suffix, require_sat; [|done]. intros Hadmin.
  apply sat_bind.
  eapply (sat_mono _ _ (λ h' (touches : bool),
    h `prefix_of` h' ∧ (touches = grants_owner kind ∨ grants_owner kind = false)
    ∧ (touches = false → owner_checked context target h')
    ∧ (grants_owner kind = false → asked context target h')
    ∧ (grants_owner kind = true → touches = true))); [done| |].
  2:{ destruct (grants_owner kind) eqn:Eg; [by split_and!; auto|].
      destruct Hpre as [Hpre|]; [|done].
      apply sat_bind, sat_store, sat_perform; [done|].
      intros [[m|e]|]; cbn; (split; [hist|]).
      - split; [auto|]. split; [|split; [intros _; eexists; apply answered_last|done]]. intros Hm m' H' Hr.
        apply answered_snoc in H' as [H'|H']; [by apply (Hpre m')|].
        apply loaded_inj in H' as [= ->]. by apply bool_decide_eq_false in Hm.
      - split; [auto|]. split; [|split; [intros _; eexists; apply answered_last|done]]. intros _ m' H' Hr.
        apply answered_snoc in H' as [H'|H']; [by apply (Hpre m')|]. by apply loaded_inj in H'.
      - split; [auto|]. split; [|split; [intros _; eexists; apply answered_last|done]]. intros _ m' H' Hr.
        apply answered_snoc in H' as [H'|H']; [by apply (Hpre m')|]. by apply loaded_inj in H'. }
  intros h1 touches (Hp1 & Ht & Hchk & Hask & Hg). apply require_if_sat; [|failed]. intros Howner.
  apply sat_attempt, sat_random_id; [done|]. intros x [operation|e]; [|failed].
  apply sat_bind, sat_perform; [done|]. intros now.
  apply sat_attempt, sat_store, sat_perform.
  - split_and!; [done..|auto|]. cbn. intros Ek. apply asked_known; [done| |].
    + destruct (Hask Ek) as (a & Ha). exists a. by do 2 apply answered_app.
    + do 2 (apply owner_checked_snoc; [done|]).
      destruct touches; [intros ???; by apply Howner|by apply Hchk].
  - intros [[[]|e]|]; [|failed..]. destruct (mutation_audit kind) as [action metadata].
    eapply sat_mono; [done| |by apply audit_authorized; try left]. intros h3 r [_ Hr]. done.
Qed.

(** What follows an accepted creation: the audit entry, then the value. *)
Lemma after_audit {B} post c request_id action kind target metadata h (b : B) :
  cx_user_id c = cx_user_id context → cx_actor c = cx_actor context →
  (∀ h', audited context request_id [action] h' → post h' (Ok b)) →
  (∀ h' e, post h' (Err e)) →
  sat (permitted context) post h
    (_ ←? audit c request_id action kind target metadata; Ret (Ok b)).
Proof.
  intros Hu Ha Hok He. apply sat_attempt.
  eapply sat_mono; [done| |apply (audit_authorized c request_id action); [done..|by left]].
  intros h' [[]|e] [_ Hr]; [|apply He]. by apply Hok, Hr.
Qed.

Lemma issue_setup_token_authorized request_id purpose user action metadata h :
  managed context user h → purpose ≠ PurposeBootstrap →
  authorized request_id [action] h
    (issue_setup_token config context request_id purpose user action metadata).
Proof.
  intros Hm Hpurpose. apply sat_suffix, sat_retry; [|failed]. intros h1 Hp1.
  apply sat_attempt, sat_random_secret; [done|]. intros x [secret|e]; [|failed].
  apply sat_bind, sat_perform; [done|]. intros now.
  apply sat_attempt, sat_random_id; [done|]. intros y [id|e]; [|failed].
  apply sat_attempt_pure; [|failed]. intros expires _.
  apply sat_on_created, sat_perform.
  - split; [done|]. exists user. split; [done|]. eapply managed_prefix; [|done]. hist.
  - intros [[[]|e]|]; [|split; [done|failed]|failed].
    by apply after_audit.
Qed.

Lemma reissue_authorized request user h :
  holds context OrganizationAdmin →
  authorized (ir_request_id request) [MembershipInvitationReissued] h
    (reissue_pending_invitation config context request user).
Proof.
  intros Hadmin. apply sat_suffix. unfold reissue_pending_invitation. case_test; [failed|].
  apply sat_attempt, sat_store, sat_perform; [done|]. intros [[m|e]|]; [|failed..].
  apply require_owner_sat; [|failed]. intros Howner. apply sat_attempt.
  eapply sat_mono; [done| |apply issue_setup_token_authorized; [|done]].
  - intros h' [secret|e] [_ Hr]; [|failed]. intros _. by apply Hr.
  - split; [done|]. exists m. split; [hist|done].
Qed.

Lemma invite_new_user_authorized request h :
  holds context OrganizationAdmin →
  (ir_role request = ROwner → holds context OrganizationOwner) →
  authorized (ir_request_id request) [MembershipCreated] h
    (invite_new_user config context request).
Proof.
  intros Hadmin Howner. apply sat_suffix, sat_retry; [|failed]. intros h1 Hp1.
  apply sat_attempt, sat_random_u63; [done|]. intros x [value|e]; [|failed].
  apply sat_attempt_pure; [|failed]. intros user_id _.
  apply sat_attempt, sat_random_id; [done|]. intros y [token|e]; [|failed].
  apply sat_attempt, sat_random_secret; [done|]. intros z [secret|e]; [|failed].
  apply sat_bind, sat_perform; [done|]. intros now.
  apply sat_attempt_pure; [|failed]. intros expires _.
  apply sat_on_created, sat_perform; [by split_and!|].
  intros [[[]|e]|]; [|split; [done|failed]|failed].
  by apply after_audit.
Qed.

Lemma audited_mono request_id actions actions' h :
  audited context request_id actions h → actions ⊆ actions' →
  audited context request_id actions' h.
Proof. intros (r & ? & ? & ? & ?) Hsub. exists r. split_and!; auto. Qed.

Lemma authorized_weaken {A} request_id actions h (p : auth A) post :
  authorized request_id actions h p →
  (∀ h' a, h `prefix_of` h' → audited context request_id actions h' → post h' (Ok a)) →
  (∀ h' e, post h' (Err e)) →
  sat (permitted context) post h p.
Proof.
  intros Hp Hok He. eapply sat_mono; [done| |exact Hp].
  intros h' [a|e] [Hpre Hr]; [|apply He]. apply Hok; [done|]. by apply Hr.
Qed.
(** The rest of an operation is an operation whose audit entry will do. *)
Ltac rest_authorized lem :=
  eapply authorized_weaken;
    [by apply lem; try left
    |by intros; (done || (cbn; intros; eapply audited_mono; [done|set_solver]))
    |failed].

Definition invite_actions : list AuditAction := [MembershipCreated; MembershipInvitationReissued].

Lemma invite_user_authorized request h : (∀ user, owner_checked context user h) →
  authorized (ir_request_id request) invite_actions h (invite_user config context request).
Proof.
  intros Hpre. apply sat_suffix, require_sat; [|failed]. intros Hadmin.
  apply require_owner_sat; [|failed]. intros Howner.
  apply sat_bind, sat_store, sat_perform; [done|]. intros [[user|e]|]; [| |failed].
  2:{ destruct e; try failed.
      rest_authorized invite_new_user_authorized. }
  assert (∀ h' r, h' = h ++ [existT (P := auth_answer) (LoadUserByEmail (ir_email request))
      (Some (Ok user))] →
    (∀ m, r ≠ Some (Ok m)) →
    authorized (ir_request_id request) [MembershipCreated]
      (h' ++ [existT (P := auth_answer) (LoadMembership (us_id user) (cx_organization_id context)) r])
      (mutate_membership context (us_id user) (Create (ir_role request)) (ir_request_id request)))
    as Hcreate.
  { intros h' r -> Hr.
    apply (mutate_membership_authorized _ (Create (ir_role request))). left.
    intros m [H'|H']%answered_snoc; [|by apply loaded_inj in H'; destruct (Hr m)].
    apply answered_snoc in H' as [H'|[=]]. by apply (Hpre (us_id user) m). }
  case_test; [|case_test; [failed|]];
    (apply sat_bind, sat_store, sat_perform; [done|]); intros [[m|e]|]; try failed.
  - destruct e; try failed. apply sat_attempt.
    rest_authorized Hcreate.
  - rest_authorized reissue_authorized.
  - destruct e; try failed. apply sat_attempt.
    eapply authorized_weaken; [by apply Hcreate| |failed].
    intros h' [] Hp _.
    rest_authorized reissue_authorized.
Qed.

Lemma create_password_reset_authorized target request_id h :
  authorized request_id [PasswordReset] h
    (create_password_reset config context target request_id).
Proof.
  apply sat_suffix, require_sat; [|failed]. intros Hadmin.
  apply sat_attempt, sat_store, sat_perform; [done|]. intros [[m|e]|]; [|failed..].
  apply require_owner_sat; [|failed]. intros Howner.
  eapply authorized_weaken; [apply issue_setup_token_authorized; [|done]|done|failed].
  split; [done|]. exists m. split; [hist|done].
Qed.

Lemma authoritative_sat post user_id organization_id h :
  (∀ u m h', h `prefix_of` h' →
     answered (LoadUser user_id) (Some (Ok u)) h' →
     answered (LoadMembership user_id organization_id) (Some (Ok m)) h' → post h' (Ok (u, m))) →
  (∀ h' e, post h' (Err e)) →
  sat (permitted context) post h (authoritative_identity user_id organization_id).
Proof.
  intros Hok He. apply sat_attempt, sat_map_err, sat_store, sat_perform; [done|].
  intros [[u|e]|]; [|apply He..].
  apply sat_attempt, sat_map_err, sat_store, sat_perform; [done|].
  intros [[m|e]|]; [|apply He..]. apply Hok; hist.
Qed.

Lemma change_password_authorized current replacement request_id h :
  authorized request_id [PasswordChanged] h
    (change_password config context current replacement request_id).
Proof.
  apply sat_suffix. unfold change_password. case_test; [failed|].
  apply sat_attempt, authoritative_sat; [|failed]. intros u m h1 Hp1 Hu Hm.
  case_test; [failed|]. apply orb_false_iff in E0 as [Hdis _].
  destruct (us_password_hash u) as [old|] eqn:Eold; [|failed].
  apply sat_attempt, sat_password_verify; [done..| |failed].
  intros h2 [] Hp2 Hv; [|failed]. cbn [negb].
  apply sat_bind, sat_perform; [done|]. intros now.
  apply sat_attempt, sat_password_hash; [done..|]. intros h3 [hash|e] Hp3; [|failed].
  apply sat_attempt, sat_store, sat_perform.
  { split; [done|]. exists u, old, current. split_and!; [hist|done| |hist].
    by destruct (us_disabled_at u). }
  intros [[[]|e]|]; [|failed..].
  apply sat_attempt, sat_store, sat_perform; [by left|]. intros [[[]|e]|]; [|failed..].
  rest_authorized audit_authorized.
Qed.

Lemma create_api_token_authorized request h :
  authorized (tr_request_id request) [ApiTokenCreated] h
    (create_api_token config context request).
Proof.
  apply sat_suffix. unfold create_api_token. case_test; [failed|]. bool_prop.
  apply sat_bind, sat_perform; [done|]. intros now1. case_test; [failed|].
  apply sat_bind, sat_perform; [done|]. intros now2. case_test; [failed|].
  apply sat_retry; [|failed]. intros h1 Hp1.
  apply sat_attempt, sat_random_id; [done|]. intros x [id|e]; [|failed].
  apply sat_attempt, sat_random_secret; [done|]. intros y [secret|e]; [|failed].
  apply sat_bind, sat_perform; [done|]. intros now3.
  apply sat_on_created, sat_perform; [by split_and!|].
  intros [[[]|e]|]; [|split; [done|failed]|failed]. by apply after_audit.
Qed.

Lemma revoke_api_token_authorized token request_id h :
  authorized request_id [ApiTokenRevoked] h (revoke_api_token context token request_id).
Proof.
  apply sat_suffix, sat_bind, sat_perform; [done|]. intros now.
  apply sat_attempt, sat_store, sat_perform; [done|]. intros [[[]|e]|]; [|failed..].
  rest_authorized audit_authorized.
Qed.

Lemma create_organization_authorized request h :
  authorized (cr_request_id request) [MembershipCreated] h
    (create_organization config context request).
Proof.
  apply sat_suffix, require_sat; [|failed]. intros Hadmin.
  apply sat_retry; [|failed]. intros h1 Hp1.
  apply sat_attempt, sat_random_u63; [done|]. intros x [value|e]; [|failed].
  apply sat_attempt_pure; [|failed]. intros organization_id _.
  apply sat_bind, sat_perform; [done|]. intros now.
  apply sat_on_created, sat_perform; [by split_and!|].
  intros [[[]|e]|]; [|split; [done|failed]|failed]. by apply after_audit.
Qed.

Lemma set_user_disabled_authorized target (disabled : bool) request_id h :
  authorized request_id [if disabled then UserDisabled else UserEnabled] h
    (set_user_disabled context target disabled request_id).
Proof.
  apply sat_suffix, require_sat; [|failed]. intros Hadmin.
  apply sat_attempt, sat_store, sat_perform; [done|]. intros [[m|e]|]; [|failed..].
  apply require_owner_sat; [|failed]. intros Howner.
  apply sat_bind, sat_perform; [done|]. intros now.
  apply sat_attempt, sat_random_id; [done|]. intros x [id|e]; [|failed].
  assert (∀ h' : history, (h ++ [existT (P := auth_answer)
      (LoadMembership target (cx_organization_id context)) (Some (Ok m))] : history) `prefix_of` h' →
    managed context target h') as Hman.
  { intros h' Hp. eapply managed_prefix; [exact Hp|]. split; [done|]. exists m. split; [hist|done]. }
  apply sat_attempt, sat_store, sat_perform; [apply Hman; hist|]. intros [[[]|e]|]; [|failed..].
  apply sat_attempt. destruct disabled.
  - apply sat_store, sat_perform; [right; apply Hman; hist|]. intros [[[]|e]|]; [|failed..].
    rest_authorized audit_authorized.
  - apply sat_ret. cbv beta iota. rest_authorized audit_authorized.
Qed.

Lemma discard_authorized {A} request_id actions h (p : auth A) :
  authorized request_id actions h p → authorized request_id actions h (discard p).
Proof.
  intros Hp. apply sat_attempt. eapply sat_mono; [done| |exact Hp]. intros h' [a|e]; by cbn.
Qed.

Lemma record_project_audit_authorized request_id action kind target h :
  authorized request_id [action] h (record_project_audit context request_id action kind target).
Proof.
  apply sat_suffix. unfold record_project_audit. case_test; [failed|].
  rest_authorized audit_authorized.
Qed.
(** The other records: a guard, the metadata, the entry. *)
Ltac record_authorized := case_test; [failed|]; apply sat_attempt_pure; [intros metadata _|failed];
  rest_authorized audit_authorized.
Lemma record_incident_authorized request_id project issue count size h :
  authorized request_id [IncidentCapsuleExported] h
    (record_incident_capsule_audit context request_id project issue count size).
Proof. apply sat_suffix. unfold record_incident_capsule_audit. record_authorized. Qed.
Lemma record_notification_authorized request_id project action target h :
  authorized request_id [action] h
    (record_notification_audit context request_id project action target).
Proof. apply sat_suffix, sat_attempt_pure; [intros kind _|failed]. record_authorized. Qed.
Lemma record_query_export_authorized export h :
  authorized (qx_request_id export) [QueryExported] h (record_query_export_audit context export).
Proof. apply sat_suffix. unfold record_query_export_audit. record_authorized. Qed.
Lemma record_replay_authorized request_id project replay h :
  authorized request_id [ReplayAccessed] h
    (record_replay_audit context request_id project replay).
Proof. apply sat_suffix. unfold record_replay_audit. record_authorized. Qed.

(** A list is read for the context's own user or organization. *)
Definition reads_own {A} (p : auth A) : Prop :=
  ∀ h, sat (permitted context) (λ _ _, True) h p.
Lemma load_organizations_own ms : reads_own (load_organizations ms).
Proof.
  induction ms as [|m ms IH]; intros h; [done|]. cbn [load_organizations].
  apply sat_attempt, sat_store, sat_perform; [done|]. intros [[o|e]|]; [|done..].
  apply sat_attempt. eapply sat_mono; [done| |apply IH]. by intros h' [].
Qed.
Lemma lists_own limit :
  reads_own (list_api_tokens context limit) ∧ reads_own (list_user_organizations context limit)
  ∧ reads_own (list_organization_members context limit)
  ∧ reads_own (list_audit_log context limit).
Proof.
  split_and!; intros h.
  - unfold list_api_tokens. case_test; [done|]. by apply sat_store, sat_perform; [|intros [[]|]].
  - unfold list_user_organizations. case_test; [done|]. case_test; [done|].
    apply sat_attempt, sat_store, sat_perform; [done|]. intros [[ms|e]|]; [|done..].
    apply load_organizations_own.
  - apply require_sat; [|done]. intros Ha. case_test; [done|].
    by apply sat_store, sat_perform; [|intros [[]|]].
  - apply require_sat; [|done]. intros Ha. case_test; [done|].
    by apply sat_store, sat_perform; [|intros [[]|]].
Qed.
Lemma reads_own_discard {A} (p : auth A) h :
  reads_own p → sat (permitted context) (λ _ _, True) h (discard p).
Proof. intros Hp. apply sat_attempt. eapply sat_mono; [done| |apply Hp]. by intros h' []. Qed.

(** C20. Whatever the store, the clock, the random source and the password hash
    answer, each call a request makes satisfies [permitted]: memberships and
    accounts only with the administrator's permission; the owner's permission to
    grant ownership, and to change who the store reported to be an owner.  A
    membership mutation alone also goes ahead when the store was asked for the
    role and reported none; disabling and password resets do not.  Tokens and
    passwords only of the context's own user, a password only after the current
    one was verified, a token only with scopes the context holds.  A request that
    succeeds has left an accepted audit entry of its own kind; of the audit of the
    four list requests nothing is stated. *)
Theorem operations_are_authorized op :
  sat (permitted context)
    (λ h r, match operation_audit op with
            | Some (request_id, actions) =>
                is_ok r = true → audited context request_id actions h
            | None => True
            end) [] (run_operation config context op).
Proof.
  pose proof lists_own as Hl.
  assert (∀ id actions (p : auth unit), authorized id actions [] p →
    sat (permitted context) (λ h r, is_ok r = true → audited context id actions h) [] p) as Hw.
  { intros id actions p Hp. eapply sat_mono; [done| |exact Hp]. by intros h r [_ ?]. }
  destruct op; cbn [operation_audit run_operation];
    try (apply reads_own_discard, Hl); apply Hw.
  - apply discard_authorized, invite_user_authorized. intros u m H'. by apply not_elem_of_nil in H'.
  - apply discard_authorized, create_password_reset_authorized.
  - apply change_password_authorized.
  - apply discard_authorized, create_api_token_authorized.
  - apply revoke_api_token_authorized.
  - apply discard_authorized, create_organization_authorized.
  - apply mutate_membership_authorized. left. intros m H'. by apply not_elem_of_nil in H'.
  - apply set_user_disabled_authorized.
  - apply record_project_audit_authorized.
  - apply record_incident_authorized.
  - apply record_notification_authorized.
  - apply record_query_export_authorized.
  - apply record_replay_authorized.
Qed.

End authorized.

(** ** Sign-in *)

Section login.
Context `{Sha256} (config : AuthConfig) (dummy_hash : str) (request : LoginRequest).
Implicit Types h : history.

(** What a login has established for a user at an instant. *)
Record verified (user : UserAccount) (now : Timestamp) (h : history) : Prop := {
  v_allowed : answered (LoginCheck (account_rate_key (lr_email request))
                          (lr_client_network_digest request) now) true h;
  v_email : ∃ e, email_parse (lr_email request) = Ok e
                 ∧ answered (LoadUserByEmail e) (Some (Ok user)) h;
  v_enabled : us_disabled_at user = None;
  v_password : answered (ArgonVerify (encoded_password dummy_hash (Some user))
                           (lr_password request)) (Some true) h;
}.
Lemma verified_prefix user now h h' : h `prefix_of` h' →
  verified user now h → verified user now h'.
Proof.
  intros Hp [H1 (e & He & H2) H3 H4]. split; [hist| |done|hist]. exists e. split; [done|hist].
Qed.

Definition login_permitted (h : history) (c : AuthCall) : Prop :=
  match c with
  | CreateSession s =>
      ∃ user now, verified user now h ∧ ws_user_id s = us_id user
        ∧ answered (RevokeUserSessions (us_id user) now) (Some (Ok tt)) h
        ∧ ws_created_at s = now ∧ ws_last_seen_at s = now ∧ ws_revoked_at s = None
        ∧ ws_idle_expires_at s ≤ ws_absolute_expires_at s
  | RevokeUserSessions u _ | UpdatePasswordHash u _ _ =>
      ∃ user now, verified user now h ∧ us_id user = u
  | LoginSuccess account =>
      account = account_rate_key (lr_email request)
      ∧ ∃ s, answered (CreateSession s) (Some (Ok tt)) h
  | AppendAudit r =>
      ad_action r = LoginSucceeded ∧ ∃ s, answered (CreateSession s) (Some (Ok tt)) h
  | Now | FillBytes _ | LoginCheck _ _ _ | HashPermit | ArgonHash _ _ _ | ArgonVerify _ _
  | LoadUserByEmail _ | LoadMembership _ _ | ListUserMemberships _ _ => True
  | _ => False
  end.

(** The session a login returns is stored under the digests of its secrets. *)
Definition session_issued (issued : IssuedWebSession) (h : history) : Prop :=
  ∃ s, answered (CreateSession s) (Some (Ok tt)) h
    ∧ ws_digest s = digest (iw_session issued) ∧ ws_csrf_digest s = digest (iw_csrf issued)
    ∧ ws_absolute_expires_at s = iw_absolute_expires_at issued.

Lemma create_session_sat user m now h post :
  verified user now h → answered (RevokeUserSessions (us_id user) now) (Some (Ok tt)) h →
  (∀ h' s issued, h `prefix_of` h' → answered (CreateSession s) (Some (Ok tt)) h' →
     session_issued issued h' → post h' (Ok (s, issued))) →
  (∀ h' e, post h' (Err e)) →
  sat login_permitted post h (create_session config (us_id user) m now).
Proof.
  intros Hv Hrev Hok He. apply sat_retry; [|intros; apply He]. intros h1 Hp1.
  apply sat_attempt, sat_random_id; [done|]. intros x [id|e]; [|apply He].
  apply sat_attempt, sat_random_secret; [done|]. intros y [secret|e]; [|apply He].
  apply sat_attempt, sat_random_secret; [done|]. intros z [csrf|e]; [|apply He].
  apply sat_attempt_pure; [|intros; apply He]. intros absolute _.
  apply sat_attempt_pure; [|intros; apply He]. intros idle _.
  apply sat_on_created, sat_perform.
  - exists user, now. split_and!; [|done|hist|done..|cbn; lia].
    eapply verified_prefix; [|done]. hist.
  - intros [[[]|e]|]; [|split; [done|intros; apply He]|apply He].
    apply sat_ret, Hok; [hist|hist|]. eexists. split; [hist|]. done.
Qed.

Lemma upgrade_sat upgrade password user now h post :
  verified user now h → (∀ h', h `prefix_of` h' → post h' tt) →
  sat login_permitted post h (upgrade_password config upgrade password (us_id user) now).
Proof.
  intros Hv Hok. unfold upgrade_password. destruct upgrade; [|by apply Hok].
  apply sat_bind, sat_password_hash; [done..|]. intros h' [hash|e] Hp; [|by apply Hok].
  apply sat_bind, sat_perform.
  - exists user, now. split; [|done]. by eapply verified_prefix.
  - intros x. apply Hok. hist.
Qed.

Lemma login_membership_sat user organization h post :
  (∀ h' r, h `prefix_of` h' → post h' r) →
  sat login_permitted post h (login_membership user organization).
Proof.
  intros Hok. destruct organization as [o|]; cbn [login_membership].
  - apply sat_bind, sat_store, sat_perform; [done|]. intros [[m|[]]|]; apply Hok; hist.
  - apply sat_attempt, sat_store, sat_perform; [done|]. intros [[m|e]|]; apply Hok; hist.
Qed.

(** C21. A session is created only for a login the limiter allowed, of an
    enabled user with that e-mail address, after the submitted password was
    verified against the stored hash (or the dummy hash when there is none), and
    after the user's earlier sessions were revoked; it expires when idle no later
    than absolutely.  Nothing else is changed but the hash of that user, and the
    attempt counter is cleared only after the session is stored.  A login that
    succeeds returns the secrets of a stored session. *)
Theorem login_checked :
  sat login_permitted
    (λ h r, match r with Ok issued => session_issued issued h | Err _ => True end) []
    (login config dummy_hash request).
Proof.
  apply sat_bind, sat_perform; [done|]. intros now.
  apply sat_bind, sat_perform; [done|]. intros [|]; [|done]. cbn [negb].
  apply sat_attempt.
  eapply (sat_mono login_permitted _ (λ h r, answered (LoginCheck (account_rate_key
      (lr_email request)) (lr_client_network_digest request) now) true h
    ∧ match r with
      | Ok (Some user) => ∃ e, email_parse (lr_email request) = Ok e
          ∧ answered (LoadUserByEmail e) (Some (Ok user)) h
      | _ => True
      end)); [done| |].
  2:{ unfold load_login_user. destruct (email_parse _) as [e|e]; [|split; [hist|done]].
      apply sat_bind, sat_store, sat_perform; [done|].
      intros [[u|[]]|]; (split; [hist|]); try done. exists e. split; [done|hist]. }
  intros h1 [user|e] [Hallowed Hu]; [|done]. apply sat_attempt_pure; [|done].
  intros password Hpw.
  assert (password = lr_password request) as ->.
  { unfold password_input_login in Hpw. by inv_cases Hpw. }
  apply sat_attempt, sat_password_verify; [done..| |done]. intros h2 valid Hp2 Hv.
  destruct user as [user|]; [|done]. destruct Hu as (e & He & Hload).
  destruct valid; [|done]. cbn [andb]. destruct (us_disabled_at user) eqn:Edis; [done|].
  cbn [is_none negb is_some].
  assert (verified user now h2) as Hver by (split; [hist|exists e; split; [done|hist]|done|done]).
  apply sat_attempt, login_membership_sat. intros h3 [m|e'] Hp3; [|done].
  apply sat_bind, upgrade_sat; [by eapply verified_prefix|]. intros h4 Hp4.
  assert (verified user now h4) as Hver4.
  { eapply verified_prefix; [|done]. by etrans. }
  apply sat_attempt, sat_store, sat_perform; [by exists user, now|].
  intros [[[]|e']|]; [|done..].
  apply sat_attempt, create_session_sat; [eapply verified_prefix; [|done]; hist|hist| |done].
  intros h5 s issued Hp5 Hs Hi. cbn [fst snd]. apply sat_attempt, sat_attempt_pure; [|done].
  intros target _. apply sat_bind, sat_perform; [done|]. intros now'.
  apply sat_store, sat_perform; [split; [done|]; exists s; hist|]. intros [[[]|e']|]; [|done..].
  apply sat_bind, sat_perform; [split; [done|]; exists s; hist|]. intros x. apply sat_ret.
  destruct Hi as (s' & Hs' & Hd). exists s'. split; [hist|done].
Qed.

End login.

(** ** Authentication *)

Definition digest32 (d : bytes) : Prop := length d = 32%nat ∧ Forall is_byte d.

Lemma fold_lor_zero (l : list (Z * Z)) acc :
  0 ≤ acc → Forall (λ p, 0 ≤ p.1 ∧ 0 ≤ p.2) l →
  foldl (λ difference '(l, r), Z.lor difference (Z.lxor l r)) acc l = 0 ↔
  acc = 0 ∧ Forall (λ p, p.1 = p.2) l.
Proof.
  revert acc. induction l as [|[x y] l IH]; intros acc Hacc Hl; cbn [foldl].
  { split; [intros ->; by split|by intros [? _]]. }
  apply Forall_cons in Hl as [[Hx Hy] Hl]. cbn in Hx, Hy.
  assert (0 ≤ Z.lxor x y) by (apply Z.lxor_nonneg; lia).
  rewrite IH by (try done; apply Z.lor_nonneg; lia). rewrite Forall_cons. cbn.
  split.
  - intros [[-> Hxy]%Z.lor_eq_0_iff H0]. by apply Z.lxor_eq in Hxy.
  - intros (-> & -> & H0). by rewrite Z.lxor_nilpotent.
Qed.

(** The comparison without early exit is equality. *)
Lemma constant_digest_eq_spec l r : digest32 l → digest32 r →
  constant_digest_eq l r = true ↔ l = r.
Proof.
  intros [Hl Hbl] [Hr Hbr]. unfold constant_digest_eq. rewrite Z.eqb_eq, fold_lor_zero.
  - split; [|intros ->].
    + intros [_ H]. assert (length l = length r) as Hlen by congruence. clear Hl Hr Hbl Hbr.
      revert r H Hlen. induction l as [|x l IH]; intros [|y r] H Hlen; try done.
      cbn in H. apply Forall_cons in H as [Hxy H]. cbn in Hxy. subst.
      f_equal. apply IH; [done|]. by injection Hlen.
    + split; [done|]. clear. induction r; by constructor.
  - done.
  - clear Hl Hr. revert r Hbr. induction l as [|x l IH]; intros [|y r] Hbr; try constructor.
    + apply Forall_cons in Hbl as [Hx _]. apply Forall_cons in Hbr as [Hy _].
      unfold is_byte in *. cbn. lia.
    + apply Forall_cons in Hbl as [_ Hbl]. apply Forall_cons in Hbr as [_ Hbr]. auto.
Qed.

Section authentication.
Context `{Sha256} (config : AuthConfig) (o : oracle AuthSig).
Context (Hsha : ∀ b, digest32 (sha256 b)).
Context (Hsessions : ∀ d s, o (LoadSession d) = Some (Ok s) → digest32 (ws_csrf_digest s)).

Context (Htokens : ∀ d t, o (LoadApiToken d) = Some (Ok t) → 0 ≤ at_scopes t).

Lemma consult_store {A} (p : prog AuthSig (stored A)) a :
  consult o (call_store p) = Ok a ↔ consult o p = Some (Ok a).
Proof. unfold call_store. rewrite consult_bind. destruct (consult o p) as [[]|]; naive_solver. Qed.
Lemma consult_credential {A} (p : prog AuthSig (stored A)) a :
  consult o (map_err_p credential_error (call_store p)) = Ok a ↔ consult o p = Some (Ok a).
Proof.
  unfold map_err_p. rewrite consult_bind. cbn. rewrite map_err_Ok. apply consult_store.
Qed.
Lemma consult_attempt_Ok {A B} (p : auth A) (f : A → auth B) b :
  consult o (attempt p f) = Ok b ↔
  ∃ a, consult o p = Ok a ∧ consult o (f a) = Ok b.
Proof. rewrite consult_attempt. destruct (consult o p); naive_solver. Qed.
Lemma consult_pure_Ok {A B} (r : result AuthError A) (f : A → auth B) b :
  consult o (attempt_pure r f) = Ok b ↔ ∃ a, r = Ok a ∧ consult o (f a) = Ok b.
Proof. destruct r; cbn; naive_solver. Qed.
Lemma consult_identity user organization u m :
  consult o (authoritative_identity user organization) = Ok (u, m) ↔
  o (LoadUser user) = Some (Ok u) ∧ o (LoadMembership user organization) = Some (Ok m).
Proof.
  unfold authoritative_identity. rewrite consult_attempt_Ok. setoid_rewrite consult_credential.
  setoid_rewrite consult_attempt_Ok. setoid_rewrite consult_credential. cbn.
  naive_solver.
Qed.

Lemma csrf_spec csrf s d : o (LoadSession d) = Some (Ok s) →
  is_some_and (λ c, constant_digest_eq (digest c) (ws_csrf_digest s)) csrf = true ↔
  ∃ c, csrf = Some c ∧ digest c = ws_csrf_digest s.
Proof.
  intros Hs. destruct csrf as [c|]; cbn; [|naive_solver].
  rewrite constant_digest_eq_spec; [naive_solver|apply Hsha|by eapply Hsessions].
Qed.

Lemma session_valid_spec csrf s d (state_changing : bool) now : o (LoadSession d) = Some (Ok s) →
  is_some (ws_revoked_at s) || (ws_idle_expires_at s <=? now)
    || (ws_absolute_expires_at s <=? now)
    || (state_changing
        && negb (is_some_and (λ c, constant_digest_eq (digest c) (ws_csrf_digest s)) csrf)) = false
  ↔ ws_revoked_at s = None ∧ now < ws_idle_expires_at s ∧ now < ws_absolute_expires_at s
    ∧ (state_changing = true → ∃ c, csrf = Some c ∧ digest c = ws_csrf_digest s).
Proof.
  intros Hs. rewrite <- (csrf_spec csrf s d Hs).
  rewrite !orb_false_iff, !Z.leb_gt, andb_false_iff, negb_false_iff.
  destruct (ws_revoked_at s), state_changing; cbn; naive_solver.
Qed.

(** A session authenticates exactly when it is stored under the digest of
    the secret, not revoked and not expired in either way, when, for a request
    that changes state, the second secret is the one stored with it, and when
    its user exists, is enabled and is a member of the organization; the context
    then has the member's role and exactly the role's permissions.  The only
    other refusal is a new idle expiry outside the calendar. *)
Theorem authenticate_session_iff secret csrf state_changing organization context :
  consult o (authenticate_session config secret csrf state_changing organization) = Ok context ↔
  ∃ s u m,
    o (LoadSession (digest secret)) = Some (Ok s) ∧ ws_revoked_at s = None
    ∧ o Now < ws_idle_expires_at s ∧ o Now < ws_absolute_expires_at s
    ∧ (state_changing = true → ∃ c, csrf = Some c ∧ digest c = ws_csrf_digest s)
    ∧ o (LoadUser (ws_user_id s)) = Some (Ok u) ∧ us_disabled_at u = None
    ∧ o (LoadMembership (ws_user_id s) organization) = Some (Ok m)
    ∧ (elapsed_at_least (ws_last_seen_at s) (o Now) (au_activity_touch_interval config) = true →
       is_ok (add_duration (o Now) (au_session_idle_timeout config)) = true)
    ∧ context = context_for_membership WebSessionActor (ws_id s) m (from_role (mb_role m)).
Proof.
  unfold authenticate_session. rewrite consult_bind, consult_attempt_Ok. cbn [consult perform].
  split.
  - intros (s & Hs%consult_credential & Hrun). cbn in Hs. exists s.
    case_in Hrun. pose proof E as Hv%(session_valid_spec csrf s (digest secret)); [|done].
    apply consult_attempt_Ok in Hrun as ([u m] & [Hu Hm]%consult_identity & Hrun).
    destruct (us_disabled_at u) eqn:Hd; cbn [is_some] in Hrun; [done|].
    exists u, m. destruct Hv as (? & ? & ? & ?). split_and!; try done.
    + intros He. rewrite He in Hrun. by destruct (add_duration _ _).
    + case_in Hrun; [|by injection Hrun].
      apply consult_pure_Ok in Hrun as (idle & _ & Hrun). by injection Hrun.
  - intros (s & u & m & Hs & H1 & H2 & H3 & H4 & Hu & Hd & Hm & Ht & ->). exists s.
    split; [by apply consult_credential|].
    rewrite (proj2 (session_valid_spec csrf s (digest secret) state_changing (o Now) Hs)) by done.
    apply consult_attempt_Ok. exists (u, m). split; [by apply consult_identity|].
    rewrite Hd. cbn [is_some]. case_test; [|done]. specialize (Ht eq_refl).
    by destruct (add_duration _ _).
Qed.

(** A personal token authenticates exactly when it is stored under the
    digest of the secret, not revoked and not expired, and its user exists, is
    enabled and is a member of the token's organization.  The context holds a
    permission exactly when both the member's present role and the token's
    scopes grant it. *)
Theorem authenticate_token_iff secret context :
  consult o (authenticate_api_token config secret) = Ok context ↔
  ∃ t u m,
    o (LoadApiToken (digest secret)) = Some (Ok t) ∧ at_revoked_at t = None
    ∧ o Now < at_expires_at t
    ∧ o (LoadUser (at_user_id t)) = Some (Ok u) ∧ us_disabled_at u = None
    ∧ o (LoadMembership (at_user_id t) (at_organization_id t)) = Some (Ok m)
    ∧ context = context_for_membership PersonalApiToken (at_id t) m (cx_permissions context)
    ∧ set_typed (cx_permissions context)
    ∧ ∀ p, permission_set_contains (cx_permissions context) p
           = role_grants (mb_role m) p && permission_set_contains (at_scopes t) p.
Proof.
  unfold authenticate_api_token. rewrite consult_bind, consult_attempt_Ok.
  cbn [consult perform]. split.
  - intros (t & Ht%consult_credential & Hrun). cbn in Ht. exists t.
    case_in Hrun. apply orb_false_iff in E as [Hrev Hexp].
    apply consult_attempt_Ok in Hrun as ([u m] & [Hu Hm]%consult_identity & Hrun).
    destruct (us_disabled_at u) eqn:Hd; cbn [is_some] in Hrun; [done|].
    assert (context = context_for_membership PersonalApiToken (at_id t) m
      (permission_set_intersect (from_role (mb_role m)) (at_scopes t))) as ->
      by (case_in Hrun; by injection Hrun).
    exists u, m. destruct (at_revoked_at t); [done|]. bool_prop. split_and!; try done.
    + apply intersect_typed; [apply from_role_typed|by eapply Htokens].
    + intros p. cbn. by rewrite intersect_contains, from_role_contains.
  - intros (t & u & m & Ht & Hrev & Hexp & Hu & Hd & Hm & -> & Hty & Hp). exists t.
    split; [by apply consult_credential|].
    rewrite Hrev, (proj2 (Z.leb_gt _ _)) by done. cbn [is_some orb].
    apply consult_attempt_Ok. exists (u, m). split; [by apply consult_identity|].
    rewrite Hd. cbn [is_some].
    assert (permission_set_intersect (from_role (mb_role m)) (at_scopes t) = cx_permissions context)
      as ->.
    { apply set_typed_ext; [|done|].
      - apply intersect_typed; [apply from_role_typed|by eapply Htokens].
      - intros p. by rewrite intersect_contains, from_role_contains, <- Hp. }
    by case_test.
Qed.

End authentication.

(** ** Two grants the code does not mean to make *)

Section findings.
Context `{Sha256} (config : AuthConfig) (dummy_hash : str) (o : oracle AuthSig).

(** A world where nothing fails: randomness, audit and session store answer,
    and the expiry of a new session is within the calendar. *)
Record healthy : Prop := {
  h_retries : 0 < au_identity_collision_retries config;
  h_random : ∀ n, is_some (o (FillBytes n)) = true;
  h_permit : o HashPermit = true;
  h_audit : ∀ r, o (AppendAudit r) = Some (Ok tt);
  h_sessions : ∀ s, o (CreateSession s) = Some (Ok tt);
  h_revoke : ∀ u t, o (RevokeUserSessions u t) = Some (Ok tt);
  h_idle : is_ok (add_duration (o Now) (au_session_idle_timeout config)) = true;
  h_absolute : is_ok (add_duration (o Now) (au_session_absolute_timeout config)) = true;
}.
Context (Ho : healthy).

Lemma consult_random_secret : ∃ b, consult o random_secret = Ok b.
Proof.
  cbn. pose proof (h_random Ho 32) as Hr. destruct (o (FillBytes 32)); [|done]. cbn. eauto.
Qed.
Lemma random_u63_range (b : bytes) : 1 ≤ Z.max (Z.land (be_val b) I64_MAX) 1 ≤ I64_MAX.
Proof.
  change I64_MAX with (Z.ones 63). rewrite Z.land_ones by lia.
  pose proof (Z.mod_pos_bound (be_val b) (2 ^ 63) ltac:(lia)).
  change (Z.ones 63) with (2 ^ 63 - 1). lia.
Qed.
Lemma consult_random_id : ∃ i, consult o random_id = Ok i.
Proof.
  cbn. pose proof (h_random Ho 8) as Hr. destruct (o (FillBytes 8)) as [b|]; [|done]. cbn.
  pose proof (random_u63_range b) as Hb. unfold credential_id_new, u63_id_new.
  set (v := Z.max _ _) in *.
  rewrite (proj2 (Z.eqb_neq v 0)), (proj2 (Z.leb_le v I64_MAX)) by lia. cbn. eauto.
Qed.
Lemma consult_create_session user organization :
  ∃ r, consult o (create_session config user organization (o Now)) = Ok r.
Proof.
  unfold create_session. destruct (Z.to_nat _) as [|n] eqn:En.
  { pose proof (h_retries Ho). lia. }
  cbn [retry]. rewrite !consult_attempt.
  destruct consult_random_id as [i ->]. rewrite !consult_attempt.
  destruct consult_random_secret as [b ->]. rewrite !consult_attempt.
  destruct consult_random_secret as [b' ->].
  destruct (add_duration (o Now) (au_session_absolute_timeout config)) eqn:E1;
    [|pose proof (h_absolute Ho) as E; by rewrite E1 in E].
  destruct (add_duration (o Now) (au_session_idle_timeout config)) eqn:E2;
    [|pose proof (h_idle Ho) as E; by rewrite E2 in E].
  cbn -[add_duration]. rewrite (h_sessions Ho). cbn. eauto.
Qed.
Lemma consult_audit c id action kind target metadata :
  is_ok (bounded_id_new 128 target) = true →
  consult o (audit c id action kind target metadata) = Ok tt.
Proof.
  intros Ht. unfold audit. destruct (bounded_id_new 128 target); [|done]. cbn.
  by rewrite (h_audit Ho).
Qed.

(** C39. An account without a password can be signed in to with the dummy
    password of the source: the login of a user that was invited and never chose
    a password is verified against the dummy hash, whose password is a constant
    of the program, and nothing refuses the login afterwards. *)
Theorem login_accepts_dummy_password user e m request :
  email_parse (lr_email request) = Ok e →
  o (LoadUserByEmail e) = Some (Ok user) →
  us_password_hash user = None → us_disabled_at user = None →
  is_ok (bounded_id_new 128 (to_dec (us_id user))) = true →
  lr_password request = DUMMY_PASSWORD →
  o (ArgonVerify dummy_hash DUMMY_PASSWORD) = Some true →
  o (LoginCheck (account_rate_key (lr_email request)) (lr_client_network_digest request)
       (o Now)) = true →
  lr_organization_id request = Some (mb_organization_id m) →
  o (LoadMembership (us_id user) (mb_organization_id m)) = Some (Ok m) →
  is_ok (consult o (login config dummy_hash request)) = true.
Proof.
  intros He Hu Hhash Hdis Hid Hpw Hverify Hallow Horg Hm. unfold login.
  rewrite consult_bind. cbn [consult perform]. rewrite consult_bind. cbn [consult perform].
  rewrite Hallow. cbn [negb]. rewrite consult_attempt.
  assert (consult o (load_login_user (lr_email request)) = Ok (Some user)) as ->.
  { unfold load_login_user. rewrite He. cbn. by rewrite Hu. }
  rewrite Hpw. change (password_input_login DUMMY_PASSWORD)
    with (@Ok AuthError _ DUMMY_PASSWORD). cbn [attempt_pure].
  rewrite consult_attempt.
  assert (encoded_password dummy_hash (Some user) = dummy_hash) as ->
    by (unfold encoded_password; cbn; by rewrite Hhash).
  assert (consult o (password_verify DUMMY_PASSWORD dummy_hash) = Ok true) as ->.
  { unfold password_verify. rewrite consult_bind. cbn [consult perform].
    rewrite (h_permit Ho). cbn [negb]. rewrite consult_bind. cbn [consult perform].
    by rewrite Hverify. }
  rewrite Hdis. cbn [andb is_none negb is_some]. rewrite consult_attempt.
  assert (consult o (login_membership user (lr_organization_id request)) = Ok m) as ->.
  { rewrite Horg. cbn. by rewrite Hm. }
  rewrite consult_bind, consult_attempt.
  assert (consult o (call_store (perform (RevokeUserSessions (us_id user) (o Now)))) = Ok tt)
    as -> by (cbn; by rewrite (h_revoke Ho)).
  rewrite consult_attempt.
  destruct (consult_create_session (us_id user) (mb_organization_id m)) as [[s issued] ->].
  rewrite consult_attempt, consult_audit by done. done.
Qed.

(** The check that only owners touch owners fails open: when the store
    cannot answer which role a member has, an administrator without the owner
    permission removes the member, whoever that is, although the same failure
    stops [set_user_disabled]. *)
Theorem mutate_membership_fails_open context target request_id :
  holds context OrganizationAdmin →
  (∀ m, o (MutateMembership m) = Some (Ok tt)) →
  o (LoadMembership target (cx_organization_id context)) = Some (Err SeUnavailable) →
  is_ok (bounded_id_new 128 (to_dec target)) = true →
  consult o (mutate_membership context target Remove request_id) = Ok tt
  ∧ consult o (set_user_disabled context target true request_id) = Err Unavailable.
Proof.
  intros Ha Hmut Hload Hid. unfold mutate_membership, set_user_disabled, require.
  rewrite Ha. cbn [attempt_pure]. split.
  - rewrite consult_bind. change (grants_owner Remove) with false. cbv iota.
    rewrite consult_bind. unfold call_store at 1. rewrite consult_bind. cbn [consult perform].
    rewrite Hload. cbn [attempt_pure map_err].
    rewrite consult_attempt. destruct consult_random_id as [i ->].
    rewrite consult_bind, consult_attempt. cbn [consult perform].
    assert (∀ mm, consult o (call_store (perform (MutateMembership mm))) = Ok tt) as ->
      by (intros mm; cbn; by rewrite Hmut).
    by apply consult_audit.
  - rewrite consult_attempt. unfold call_store at 1. rewrite consult_bind.
    cbn [consult perform]. by rewrite Hload.
Qed.

End findings.

(** ** Witnesses *)

#[local] Instance sample_sha : Sha256 :=
  λ b, take 32 (map (λ x, x mod 256) b ++ replicate 32 0).
Lemma sample_sha_32 b : digest32 (sha256 b).
Proof.
  unfold digest32, sha256, sample_sha. split.
  - rewrite length_take, length_app, length_replicate. lia.
  - apply Forall_take, Forall_app. split.
    + apply Forall_forall. intros x (y & -> & _)%list_elem_of_fmap. unfold is_byte.
      apply Z.mod_pos_bound. lia.
    + apply Forall_replicate. unfold is_byte. lia.
Qed.

Definition sample_email : str := lit "ada@example.org".
Definition sample_user (hash : option str) : UserAccount :=
  {| us_id := 5; us_email := {| em_display := sample_email; em_canonical := sample_email |};
     us_display_name := lit "Ada"; us_password_hash := hash; us_disabled_at := None;
     us_created_at := 0 |}.
Definition sample_member (role : OrganizationRole) : OrganizationMembership :=
  {| mb_organization_id := 9; mb_user_id := 5; mb_role := role; mb_created_at := 0;
     mb_created_by := 5 |}.
Definition sample_session : WebSession :=
  {| ws_id := 3; ws_digest := sha256 [1]; ws_csrf_digest := sha256 [2]; ws_user_id := 5;
     ws_created_at := 0; ws_last_seen_at := 0; ws_idle_expires_at := 5000;
     ws_absolute_expires_at := 9000; ws_revoked_at := None |}.
Definition sample_token : ApiToken :=
  {| at_id := 4; at_digest := sha256 [1]; at_user_id := 5; at_organization_id := 9;
     at_name := lit "ci"; at_scopes := from_permissions [IssueRead; OrganizationOwner];
     at_created_at := 0; at_expires_at := 5000; at_last_used_at := None;
     at_revoked_at := None |}.
Definition sample_oracle (hash : option str) (member : stored OrganizationMembership)
    : oracle AuthSig := λ c,
  match c return auth_answer c with
  | Now => 1000
  | FillBytes n => Some (replicate n 7)
  | LoginCheck _ _ _ | HashPermit => true
  | LoginSuccess _ => tt
  | ArgonHash _ password _ => ArgonEncoded password
  | ArgonVerify encoded password => Some (bool_decide (encoded = password))
  | InstallBootstrapToken _ => Some (Ok TokenCreated)
  | ConsumePasswordSetup _ _ _ => Some (Ok 5)
  | LoadUserByEmail _ | LoadUser _ => Some (Ok (sample_user hash))
  | LoadMembership _ _ => member
  | ListUserMemberships _ _ => Some (Ok [sample_member RAdmin])
  | LoadSession _ => Some (Ok sample_session)
  | LoadApiToken _ => Some (Ok sample_token)
  | ProjectAccess _ | LoadOrganization _ => Some (Err SeNotFound)
  | ListApiTokens _ _ _ | ListOrganizationMembers _ _ | ListAuditLog _ _ => Some (Ok [])
  | _ => Some (Ok tt)
  end.
Definition sample_config : AuthConfig :=
  let seconds n := n * 1000 * NANOS_PER_MILLI in
  {| au_identity_collision_retries := 16; au_session_idle_timeout := seconds 604800;
     au_session_absolute_timeout := seconds 2592000; au_activity_touch_interval := seconds 300;
     au_setup_token_timeout := seconds 86400; au_max_api_token_lifetime := seconds 31536000;
     au_store_timeout := seconds 5;
     au_password := {| pw_memory_kib := 19456; pw_iterations := 2; pw_parallelism := 1;
                       pw_max_concurrency := 2 |};
     au_login_rate_limit := {| rl_max_attempts := 5; rl_window := seconds 60;
                               rl_capacity := 10000 |} |}.
Lemma sample_healthy hash member : healthy sample_config (sample_oracle hash member).
Proof. by split. Qed.

Lemma authenticate_session_iff_witness :
  ∃ context,
    consult (sample_oracle None (Some (Ok (sample_member RMember))))
      (authenticate_session sample_config [1] (Some [2]) true 9) = Ok context
    ∧ cx_permissions context = from_role RMember.
Proof.
  exists (context_for_membership WebSessionActor 3 (sample_member RMember) (from_role RMember)).
  split; [|reflexivity].
  apply (authenticate_session_iff sample_config _ sample_sha_32).
  - intros d s [= <-]. apply sample_sha_32.
  - exists sample_session, (sample_user None), (sample_member RMember). split_and!; try done.
    intros _. by exists [2].
Defined.

Lemma authenticate_token_iff_witness :
  ∃ context,
    consult (sample_oracle None (Some (Ok (sample_member RMember))))
      (authenticate_api_token sample_config [1]) = Ok context
    ∧ permission_set_contains (cx_permissions context) IssueRead = true
    ∧ permission_set_contains (cx_permissions context) OrganizationOwner = false.
Proof.
  eexists {| cx_actor := PersonalApiToken; cx_user_id := 5; cx_organization_id := 9;
             cx_role := RMember; cx_permissions := from_permissions [IssueRead];
             cx_credential_id := 4 |}.
  split; [|split; reflexivity].
  apply (authenticate_token_iff sample_config).
  - intros d t [= <-]. vm_compute. discriminate.
  - exists sample_token, (sample_user None), (sample_member RMember).
    split_and!; try done. intros []; reflexivity.
Defined.

Lemma login_accepts_dummy_password_witness :
  is_ok (consult (sample_oracle None (Some (Ok (sample_member RMember))))
           (login sample_config DUMMY_PASSWORD
              {| lr_email := sample_email; lr_password := DUMMY_PASSWORD;
                 lr_organization_id := Some 9; lr_client_network_digest := [];
                 lr_request_id := lit "r" |})) = true.
Proof.
  eapply (login_accepts_dummy_password sample_config DUMMY_PASSWORD
            (sample_oracle None (Some (Ok (sample_member RMember))))
            (sample_healthy None (Some (Ok (sample_member RMember))))
            (sample_user None) _ (sample_member RMember));
    [vm_compute; reflexivity|reflexivity..].
Defined.

Lemma mutate_membership_fails_open_witness :
  let context := {| cx_actor := WebSessionActor; cx_user_id := 5; cx_organization_id := 9;
                    cx_role := RAdmin; cx_permissions := from_role RAdmin;
                    cx_credential_id := 3 |} in
  permission_set_contains (cx_permissions context) OrganizationOwner = false
  ∧ consult (sample_oracle None (Some (Err SeUnavailable)))
      (mutate_membership context 6 Remove (lit "r")) = Ok tt.
Proof.
  intros context. split; [reflexivity|].
  eapply (mutate_membership_fails_open sample_config _
            (sample_healthy None (Some (Err SeUnavailable))) context 6); reflexivity.
Defined.
