(* ===== verification/Writers.v ===== *)
(** * Micro-batching writers

    The actor the writers of [application] are instances of: it gathers the
    commands of a channel into bounded batches, stores each batch and answers
    every sender, drains on shutdown.  The channel, the timer, the store and the
    shutdown signal are ports: one call each, answered by the runtime
    ([Effects]).  A [Command] pairs what is stored with the one-shot channel of
    its sender.  What a writer adds (sizes, what it does with the answer of its
    store) is the class [WriterOps]; what a client may rely on is proved from
    the laws [WriterLaws].  Instances: [EventWriter], [SignalWriters]. *)
From stdpp Require Import base list numbers strings sets.
From Stdlib Require Import ZArith Lia.
From S2P Require Import Prelude Primitives Effects.

Open Scope prog_scope.

(** ** The calls of a writer *)

Inductive more_answer (C : Type) :=
| MoreCancelled | MoreDeadline | MoreReceived (command : option C).
Arguments MoreCancelled {C}.
Arguments MoreDeadline {C}.
Arguments MoreReceived {C} command.

Section calls.
(** What is stored for one command, what the store takes and answers, and what
    a sender is told. *)
Context {P B S R : Type}.

Record Command := {
  cm_item : P;
  cm_response : Z;
}.

Inductive WriterCall :=
| SelectFirst          (** [select! { shutdown.cancelled(), receiver.recv() }] *)
| SelectMore           (** the same with [sleep_until(deadline)] *)
| RecvBefore           (** [timeout_at(deadline, receiver.recv())] *)
| TryRecv
| CloseReceiver
| StopAccepting        (** [accepting.store(false)] *)
| IsCancelled          (** [shutdown.is_cancelled()] *)
| DrainOver            (** no time is left to drain *)
| StoreBatch (batch : B)   (** the store within the operation timeout *)
| StoreBefore (batch : B)  (** the same within the drain deadline *)
| Respond (command : Command) (reply : R)
| Offer (item : P).        (** the handoff to the dispatcher *)

(** [None]: cancelled, or past the deadline. *)
Definition writer_answer (c : WriterCall) : Type :=
  match c with
  | SelectFirst => option (option Command)
  | SelectMore => more_answer Command
  | RecvBefore => option (option Command)
  | TryRecv => option Command
  | CloseReceiver | StopAccepting => unit
  | IsCancelled | DrainOver => bool
  | StoreBatch _ => option S
  | StoreBefore _ => option (option S)
  | Respond _ _ => unit
  | Offer _ => bool
  end.
Definition WriterSig : signature := Signature WriterCall writer_answer.
Definition await (c : WriterCall) : prog WriterSig (writer_answer c) := perform (E := WriterSig) c.

(** A task that runs forever is followed for some turns of its loop; a paused
    one may hold a command. *)
Inductive task := Ended | Paused (carry : option Command).

End calls.
Arguments Command : clear implicits.
Arguments WriterCall : clear implicits.
Arguments WriterSig : clear implicits.
Arguments task : clear implicits.
Arguments Build_Command {P} cm_item cm_response.

(** ** The actor *)

(** [events] and [responses] are filled together: the commands. *)
Record Batch (P : Type) := {
  ba_commands : list (Command P);
  ba_bytes : Z;
}.
Arguments Build_Batch {P} ba_commands ba_bytes.
Arguments ba_commands {P} b : rename.
Arguments ba_bytes {P} b : rename.

Class WriterOps (P S R : Type) := {
  wo_max_documents : Z;
  wo_size : P → Z;
  wo_can_push : Batch P → Command P → bool;
  (** What follows the store: the answers. *)
  wo_flushed : list (Command P) → option S → prog (WriterSig P (list P) S R) unit;
  (** The answer to a command that is not stored. *)
  wo_unavailable : R;
  (** Whether a late drain also answers the command it carries. *)
  wo_answers_carry : bool;
}.

Section actor.
Context {P S R : Type} `{!WriterOps P S R}.
Abbreviation actor := (prog (WriterSig P (list P) S R)).

Definition batch_new (command : Command P) : Batch P :=
  {| ba_commands := [command]; ba_bytes := wo_size (cm_item command) |}.
Definition push (b : Batch P) (command : Command P) : Batch P :=
  {| ba_commands := ba_commands b ++ [command];
     ba_bytes := sat_u64 (ba_bytes b + wo_size (cm_item command)) |}.
Definition reject_command (command : Command P) : actor unit :=
  await (Respond command wo_unavailable).
Definition reject_carry (carry : option (Command P)) : actor unit :=
  match carry with Some command => reject_command command | None => mret tt end.

Definition flush_batch (b : Batch P) : actor unit :=
  r ← await (StoreBatch (map cm_item (ba_commands b))); wo_flushed (ba_commands b) r.
(** [timeout_at(deadline, flush_batch(..))]: [false] when the time ran out and
    the future was dropped with the batch, which it only does at the store. *)
Definition flush_batch_before (b : Batch P) : actor bool :=
  r ← await (StoreBefore (map cm_item (ba_commands b)));
  match r with
  | None => mret false
  | Some r => _ ← wo_flushed (ba_commands b) r; mret true
  end.

Fixpoint reject_queued (fuel : nat) : actor (task P) :=
  match fuel with
  | O => mret (Paused None)
  | Datatypes.S fuel =>
      command ← await TryRecv;
      match command with
      | Some command => _ ← reject_command command; reject_queued fuel
      | None => mret Ended
      end
  end.

(** The batch under construction while the channel has commands: [room] is what
    is left of [max_documents]. *)
Fixpoint drain_more (room : nat) (b : Batch P) : actor (Batch P * option (Command P)) :=
  match room with
  | O => mret (b, None)
  | Datatypes.S room =>
      command ← await TryRecv;
      match command with
      | Some command =>
          if wo_can_push b command then drain_more room (push b command)
          else mret (b, Some command)
      | None => mret (b, None)
      end
  end.
Fixpoint drain_writer (fuel : nat) (carry : option (Command P)) : actor (task P) :=
  match fuel with
  | O => mret (Paused carry)
  | Datatypes.S fuel =>
      first ← match carry with Some command => mret (Some command) | None => await TryRecv end;
      match first with
      | None => mret Ended
      | Some first =>
          '(b, carry) ← drain_more (Z.to_nat wo_max_documents - 1) (batch_new first);
          in_time ← flush_batch_before b;
          if (in_time : bool) then drain_writer fuel carry
          else _ ← (if wo_answers_carry then reject_carry carry else mret tt); reject_queued fuel
      end
  end.

(** [true]: shutdown was requested. *)
Fixpoint collect (room : nat) (b : Batch P) : actor (Batch P * option (Command P) * bool) :=
  match room with
  | O => mret (b, None, false)
  | Datatypes.S room =>
      more ← await SelectMore;
      match more with
      | MoreCancelled => _ ← await StopAccepting; mret (b, None, true)
      | MoreDeadline => mret (b, None, false)
      | MoreReceived (Some command) =>
          if wo_can_push b command then collect room (push b command)
          else mret (b, Some command, false)
      | MoreReceived None => mret (b, None, false)
      end
  end.
Fixpoint run_writer (fuel : nat) (carry : option (Command P)) : actor (task P) :=
  match fuel with
  | O => mret (Paused carry)
  | Datatypes.S fuel =>
      let batch first :=
        '(b, carry, shutdown_requested) ←
          collect (Z.to_nat wo_max_documents - 1) (batch_new first);
        _ ← flush_batch b;
        if (shutdown_requested : bool) then
          _ ← reject_carry carry; drain_writer fuel None
        else run_writer fuel carry in
      match carry with
      | Some first => batch first
      | None =>
          first ← await SelectFirst;
          match first with
          | None => _ ← await StopAccepting; drain_writer fuel None
          | Some None => _ ← await StopAccepting; mret Ended
          | Some (Some first) => batch first
          end
      end
  end.

End actor.

(** ** The ledger of a run *)

Section ledger.
Context {P B S R : Type}.
Abbreviation Sig := (WriterSig P B S R).
Abbreviation history := (list (event Sig)).
Implicit Types (h : history) (p a d : list (Command P)).

(** The command an event receives, the one it answers. *)
Definition received_of (e : event Sig) : option (Command P) :=
  let '(existT c x) := e in
  match c return writer_answer c → option (Command P) with
  | SelectFirst | RecvBefore => λ x, match x with Some o => o | None => None end
  | SelectMore => λ x, match x with MoreReceived o => o | _ => None end
  | TryRecv => λ x, x
  | _ => λ _, None
  end x.
Definition responded_of (e : event Sig) : option (Command P) :=
  match projT1 e with Respond command _ => Some command | _ => None end.
Definition received h : list (Command P) := omap received_of h.
Definition responded h : list (Command P) := omap responded_of h.

(** Nothing but [p] and [d] is left to answer; [d] is what was dropped. *)
Definition ledger h p d : Prop := received h ≡ₚ responded h ++ p ++ d.
(** Only a received command that still waits is answered. *)
Definition waits h (command : Command P) : Prop :=
  ∃ rest, received h ≡ₚ responded h ++ command :: rest.

Lemma omap_snoc {X Y} (f : X → option Y) l x :
  omap f (l ++ [x]) = omap f l ++ match f x with Some y => [y] | None => [] end.
Proof. rewrite omap_app. cbn. by destruct (f x). Qed.
Lemma ledger_received h e command p d :
  received_of e = Some command → responded_of e = None →
  ledger h p d → ledger (h ++ [e]) (p ++ [command]) d.
Proof.
  unfold ledger, received, responded. intros H1 H2 H.
  rewrite !omap_snoc, H1, H2, app_nil_r, H. rewrite <- !(assoc_L (++)).
  by rewrite (Permutation_app_comm d).
Qed.
Lemma ledger_silent h e p d :
  received_of e = None → responded_of e = None → ledger h p d → ledger (h ++ [e]) p d.
Proof.
  unfold ledger, received, responded. intros H1 H2 H. by rewrite !omap_snoc, H1, H2, !app_nil_r, H.
Qed.
Lemma ledger_respond h command reply p d :
  ledger h (command :: p) d →
  ledger (h ++ [existT (P := answer Sig) (Respond command reply) tt]) p d.
Proof.
  unfold ledger, received, responded. intros H. rewrite !omap_snoc. cbn. rewrite app_nil_r, H.
  cbn. by rewrite <- !(assoc_L (++)).
Qed.
Lemma ledger_waits h command p d : ledger h (command :: p) d → waits h command.
Proof. intros H. exists (p ++ d). apply H. Qed.
Lemma ledger_drop h p p' d : ledger h (p ++ p') d → ledger h p (p' ++ d).
Proof. unfold ledger. intros ->. by rewrite <- !(assoc_L (++)). Qed.
Lemma ledger_perm h p p' d : p ≡ₚ p' → ledger h p d → ledger h p' d.
Proof. unfold ledger. by intros -> ->. Qed.
Lemma ledger_start : ledger [] [] [].
Proof. unfold ledger. reflexivity. Qed.

(** The documents given to the store, in order. *)
Context (documents : B → list P).
Definition stored_of (e : event Sig) : list P :=
  match projT1 e with StoreBatch b | StoreBefore b => documents b | _ => [] end.
Definition stored h : list P := concat (map stored_of h).
(** What was stored and what is still to store, [a], come in the order received. *)
Definition in_order h a : Prop :=
  stored h ++ map cm_item a `sublist_of` map cm_item (received h).

Lemma stored_snoc h e : stored (h ++ [e]) = stored h ++ stored_of e.
Proof. unfold stored. rewrite map_app, concat_app. cbn. by rewrite app_nil_r. Qed.
Lemma received_snoc (h : history) (e : event Sig) :
  received (h ++ [e]) = received h ++ match received_of e with Some c => [c] | None => [] end.
Proof. apply omap_snoc. Qed.
Lemma in_order_received h e command a :
  received_of e = Some command → stored_of e = [] → in_order h a →
  in_order (h ++ [e]) (a ++ [command]).
Proof.
  unfold in_order. intros H1 H2 H. rewrite stored_snoc, received_snoc, H1, H2, app_nil_r.
  rewrite !map_app, (assoc_L (++)). by apply sublist_app.
Qed.
Lemma in_order_silent h e a :
  received_of e = None → stored_of e = [] → in_order h a → in_order (h ++ [e]) a.
Proof.
  unfold in_order. intros H1 H2 H. by rewrite stored_snoc, received_snoc, H1, H2, !app_nil_r.
Qed.
Lemma in_order_store h e (b a : list (Command P)) :
  received_of e = None → stored_of e = map cm_item b → in_order h (b ++ a) →
  in_order (h ++ [e]) a.
Proof.
  unfold in_order. intros H1 H2 H. rewrite stored_snoc, received_snoc, H1, H2, app_nil_r.
  by rewrite <- (assoc_L (++)), <- map_app.
Qed.
Lemma in_order_less h a a' : a' `sublist_of` a → in_order h a → in_order h a'.
Proof.
  unfold in_order. intros Ha H. etrans; [|done]. apply sublist_app; [done|].
  by apply fmap_sublist.
Qed.

End ledger.

(** ** Rules *)

Section rules.
Context {P B S R : Type} (documents : B → list P).
Abbreviation Sig := (WriterSig P B S R).
Abbreviation history := (list (event Sig)).
Context (guar : history → WriterCall P B R → Prop).
Implicit Types (h : history) (p a d : list (Command P)).

(** A store that the drain deadline interrupted: its batch may be lost. *)
Definition late h : Prop := ∃ b, answered (E := Sig) (StoreBefore b) None h.
(** [p] is to answer, [a] is to store, [d] was dropped. *)
Record inv h p d a : Prop := {
  inv_ledger : ledger h p d;
  inv_late : d ≠ [] → late h;
  inv_order : in_order documents h a;
}.
Lemma late_app h h' : late h → late (h ++ h').
Proof. intros [b Hb]. exists b. by apply answered_app. Qed.
Lemma inv_start : inv [] [] [] [].
Proof. split; [apply ledger_start|done|]. unfold in_order. reflexivity. Qed.
Lemma inv_silent h e p d a : received_of e = None → responded_of e = None →
  stored_of documents e = [] → inv h p d a → inv (h ++ [e]) p d a.
Proof.
  intros ??? []. split; [by apply ledger_silent|intros; by apply late_app, inv_late0|].
  by apply in_order_silent.
Qed.
Lemma inv_received h e command p d a : received_of e = Some command → responded_of e = None →
  stored_of documents e = [] → inv h p d a →
  inv (h ++ [e]) (p ++ [command]) d (a ++ [command]).
Proof.
  intros ??? []. split; [by apply ledger_received|intros; by apply late_app, inv_late0|].
  by apply in_order_received.
Qed.
Lemma inv_respond h command reply p d a : inv h (command :: p) d a →
  inv (h ++ [existT (P := answer Sig) (Respond command reply) tt]) p d a.
Proof.
  intros []. split; [by apply ledger_respond|intros; by apply late_app, inv_late0|].
  by apply in_order_silent.
Qed.
Lemma inv_store h e b p d a : received_of e = None → responded_of e = None →
  stored_of documents e = map cm_item b → inv h p d (b ++ a) → inv (h ++ [e]) p d a.
Proof.
  intros ??? []. split; [by apply ledger_silent|intros; by apply late_app, inv_late0|].
  by eapply in_order_store.
Qed.
Lemma inv_drop h p p' d a : late h → inv h (p ++ p') d a → inv h p (p' ++ d) a.
Proof. intros ? []. split; [by apply ledger_drop|done|done]. Qed.
Lemma inv_less h p d a a' : a' `sublist_of` a → inv h p d a → inv h p d a'.
Proof. intros ? []. split; [done..|by eapply in_order_less]. Qed.
Lemma inv_waits h command p d a : inv h (command :: p) d a → waits h command.
Proof. intros []. by eapply ledger_waits. Qed.

Lemma sat_call {A} (c : WriterCall P B R) (k : writer_answer c → prog Sig A) post h :
  guar h c → (∀ x, sat guar post (h ++ [existT (P := answer Sig) c x]) (k x)) →
  sat guar post h (await c ≫= k).
Proof. by split. Qed.

(** An error to each of a list of commands. *)
Lemma reject_all_sat (reject : list (Command P) → prog Sig unit) reply post p d a :
  (∀ cs, reject cs = match cs with
                     | [] => mret tt
                     | c :: cs => _ ← await (Respond c reply); reject cs end) →
  (∀ h command, waits h command → guar h (Respond command reply)) →
  ∀ cs h, inv h (cs ++ p) d a → (∀ h', inv h' p d a → post h' tt) →
  sat guar post h (reject cs).
Proof.
  intros Hr Hg cs. induction cs as [|c cs IH]; intros h Hi Hp; rewrite Hr; [by apply Hp|].
  apply sat_call; [by eapply Hg, inv_waits|]. intros []. by apply IH; [apply inv_respond|].
Qed.

End rules.


(** ** What a client may rely on *)

#[global] Arguments received : simpl never.

Section laws.
Context {P S R : Type} `{!WriterOps P S R}.
Abbreviation Sig := (WriterSig P (list P) S R).
Abbreviation history := (list (event Sig)).
Implicit Types (h : history) (p a d : list (Command P)).

(** The store was given this batch and answered [r]. *)
Definition store_answered h (batch : list P) (r : option S) : Prop :=
  answered (E := Sig) (StoreBatch batch) r h
  ∨ answered (E := Sig) (StoreBefore batch) (Some r) h.
Definition batch_within (max_bytes : Z) (batch : list P) : Prop :=
  batch ≠ [] ∧ len batch ≤ wo_max_documents
  ∧ (1 < len batch → sum_map wo_size batch ≤ max_bytes).
(** What each call of the actor satisfies: [told] relates a reply to the store's
    answers so far, [offered] an item that is handed on. *)
Definition writer_guar (max_bytes : Z) (told : history → P → R → Prop)
    (offered : history → P → Prop) h (c : WriterCall P (list P) R) : Prop :=
  match c with
  | Respond command reply => waits h command ∧ told h (cm_item command) reply
  | Offer item => offered h item
  | StoreBatch batch | StoreBefore batch => batch_within max_bytes batch
  | _ => True
  end.

End laws.

(** The laws of a writer. *)
Class WriterLaws {P S R} `{!WriterOps P S R} (max_bytes : Z)
    (told : list (event (WriterSig P (list P) S R)) → P → R → Prop)
    (offered : list (event (WriterSig P (list P) S R)) → P → Prop) := {
  wl_size item : 0 ≤ wo_size item ≤ U64_MAX;
  wl_documents : 1 ≤ wo_max_documents;
  wl_bytes : max_bytes < U64_MAX;
  wl_can_push b command : ba_commands b ≠ [] → wo_can_push b command = true →
    len (ba_commands b) < wo_max_documents
    ∧ sat_u64 (ba_bytes b + wo_size (cm_item command)) ≤ max_bytes;
  wl_unavailable h item : told h item wo_unavailable;
  wl_flushed cs r post h p d a :
    store_answered h (map cm_item cs) r → inv id h (cs ++ p) d a →
    (∀ h', inv id h' p d a → post h' tt) →
    sat (writer_guar max_bytes told offered) post h (wo_flushed cs r);
  wl_receives cs r h :
    sat (λ _ _, True) (λ h' _, received h' = received h) h (wo_flushed cs r);
}.

Section theory.
Context {P S R : Type} `{!WriterOps P S R} (max_bytes : Z).
Abbreviation Sig := (WriterSig P (list P) S R).
Abbreviation history := (list (event Sig)).
Context (told : history → P → R → Prop) (offered : history → P → Prop).
Context `{!WriterLaws max_bytes told offered}.
Abbreviation guar := (writer_guar max_bytes told offered).
Abbreviation inv := (inv (S := S) (R := R) id).
Implicit Types (h : history) (p a d : list (Command P)).

Definition batch_inv (b : Batch P) : Prop :=
  batch_within max_bytes (map cm_item (ba_commands b))
  ∧ ba_bytes b = Z.min U64_MAX (sum_map wo_size (map cm_item (ba_commands b))).

Lemma flush_batch_sat b post h p d a :
  batch_inv b → inv h (ba_commands b ++ p) d (ba_commands b ++ a) →
  (∀ h', inv h' p d a → post h' tt) → sat guar post h (flush_batch b).
Proof.
  intros Hb Hi Hp. apply sat_call; [apply Hb|]. intros r.
  eapply wl_flushed; [left; apply answered_last|by eapply inv_store|done].
Qed.
Lemma flush_batch_before_sat b post h p d a :
  batch_inv b → inv h (p ++ ba_commands b) d (ba_commands b ++ a) →
  (∀ h', inv h' p d a → post h' true) →
  (∀ h', late h' → inv h' (p ++ ba_commands b) d a → post h' false) →
  sat guar post h (flush_batch_before b).
Proof.
  intros Hb Hi Hp Hlate. apply sat_call; [apply Hb|]. intros r.
  assert (inv (h ++ [existT (P := answer Sig) (StoreBefore (map cm_item (ba_commands b))) r])
            (p ++ ba_commands b) d a) as Hi' by by eapply inv_store.
  destruct r as [r|].
  - apply sat_bind. eapply wl_flushed; [right; apply answered_last|destruct Hi' as [Hl ??]; split;
      [eapply ledger_perm; [|apply Hl]; apply Permutation_app_comm|done|done]|done].
  - apply Hlate; [|done]. eexists. apply answered_last.
Qed.

Lemma guar_reject h command : waits h command → guar h (Respond command wo_unavailable).
Proof. split; [done|]. apply wl_unavailable. Qed.
Lemma batch_new_inv command : batch_inv (batch_new command).
Proof.
  pose proof (wl_size (cm_item command)). pose proof wl_documents. split; cbn; [|lia].
  split_and!; [done|unfold len; cbn; lia|unfold len; cbn; lia].
Qed.
Lemma sum_len_nonneg (l : list P) : 0 ≤ sum_map wo_size l.
Proof. induction l as [|x l IH]; [done|]. rewrite sum_map_cons. pose proof (wl_size x). lia. Qed.
Lemma push_inv b command :
  batch_inv b → wo_can_push b command = true → batch_inv (push b command).
Proof.
  intros [(Hne & Hl & Hs) Hb] Hc.
  destruct (wl_can_push b command) as [Hd Hm]; [by destruct (ba_commands b)|done|].
  pose proof wl_bytes. rewrite Hb in *.
  pose proof (sum_len_nonneg (map cm_item (ba_commands b))).
  pose proof (wl_size (cm_item command)).
  unfold batch_inv, batch_within, push. cbn [ba_commands ba_bytes].
  rewrite map_app, sum_map_app, Hb. unfold sat_u64, saturate in *. unfold len in *.
  rewrite length_app, !length_map in *. cbn in *.
  split; [split_and!; [by destruct (ba_commands b)|lia|lia]|lia].
Qed.

(** A task holds its carry. *)
Definition held (carry : option (Command P)) : list (Command P) := option_list carry.
Definition task_held (t : task P) : list (Command P) :=
  match t with Ended => [] | Paused carry => held carry end.
(** What a task leaves: every command answered, held or dropped late. *)
Definition settled h (t : task P) : Prop := ∃ d, inv h (task_held t) d (task_held t).

Lemma reject_queued_sat fuel h d : inv h [] d [] →
  sat guar settled h (reject_queued fuel).
Proof.
  revert h. induction fuel as [|fuel IH]; intros h Hi; cbn [reject_queued]; [by exists d|].
  apply sat_call; [done|]. intros [command|].
  - split; [apply guar_reject; eapply inv_waits; by eapply (inv_received id h _ command [] d [])|].
    intros []. cbn. apply IH. eapply inv_respond, inv_less; [apply sublist_nil_l|].
    by apply (inv_received id h _ command [] d []).
  - exists d. by apply inv_silent.
Qed.

(** The shape both loops of a batch keep: [room] documents are left. *)
Definition gathered h (b : Batch P) (carry : option (Command P)) d : Prop :=
  batch_inv b ∧ inv h (ba_commands b ++ held carry) d (ba_commands b ++ held carry).
Lemma gathered_received h e b command d :
  received_of e = Some command → responded_of e = None → stored_of id e = [] →
  gathered h b None d →
  (wo_can_push b command = true →
   gathered (h ++ [e]) (push b command) None d)
  ∧ gathered (h ++ [e]) b (Some command) d.
Proof.
  intros H1 H2 H3 [Hb Hi]. cbn in Hi. rewrite app_nil_r in Hi.
  assert (inv (h ++ [e]) (ba_commands b ++ [command]) d (ba_commands b ++ [command])) as Hi'
    by by apply inv_received.
  split; [|by split]. intros Hc. split; [by apply push_inv|]. cbn. by rewrite app_nil_r.
Qed.
Lemma gathered_silent h e b d : received_of e = None → responded_of e = None →
  stored_of id e = [] → gathered h b None d → gathered (h ++ [e]) b None d.
Proof. intros ??? [Hb Hi]. split; [done|]. by apply inv_silent. Qed.

Lemma drain_more_sat room b post h d : gathered h b None d →
  (∀ h' b' carry, gathered h' b' carry d → post h' (b', carry)) →
  sat guar post h (drain_more room b).
Proof.
  revert b h. induction room as [|room IH]; intros b h Hg Hp; cbn [drain_more]; [by apply Hp|].
  apply sat_call; [done|]. intros [command|]; [|by apply Hp, gathered_silent].
  destruct (gathered_received h (existT (P := answer Sig) TryRecv (Some command)) b command d)
    as [H1 H2]; try done.
  destruct (wo_can_push b command) eqn:E; [by apply IH; [apply H1|]|by apply Hp].
Qed.
Lemma collect_sat room b post h d : gathered h b None d →
  (∀ h' b' carry shutdown, gathered h' b' carry d → post h' (b', carry, shutdown)) →
  sat guar post h (collect room b).
Proof.
  revert b h. induction room as [|room IH]; intros b h Hg Hp; cbn [collect]; [by apply Hp|].
  apply sat_call; [done|]. intros [| |[command|]];
    [|by apply Hp, gathered_silent| |by apply Hp, gathered_silent].
  - apply sat_call; [done|]. intros []. apply Hp. by do 2 (apply gathered_silent; [done..|]).
  - destruct (gathered_received h
      (existT (P := answer Sig) SelectMore (MoreReceived (Some command))) b command d)
      as [H1 H2]; try done.
    destruct (wo_can_push b command) eqn:E; [by apply IH; [apply H1|]|by apply Hp].
Qed.

Lemma gathered_new h command d : inv h [command] d [command] →
  gathered h (batch_new command) None d.
Proof. intros Hi. split; [apply batch_new_inv|done]. Qed.
(** What becomes of the carry of a late drain. *)
Lemma reject_carry_sat carry p d post h : late h →
  inv h (held carry ++ p) d (held carry) →
  (∀ h' p', late h' → inv h' p' d [] → post h' tt) →
  sat guar post h (if wo_answers_carry then reject_carry carry else mret tt).
Proof.
  intros Hlate Hi Hp.
  assert (inv h (held carry ++ p) d []) as Hi' by (eapply inv_less; [apply sublist_nil_l|done]).
  destruct wo_answers_carry; [|by eapply Hp]. destruct carry as [c|]; [|by eapply Hp].
  change (inv h (c :: p) d []) in Hi'.
  split; [by eapply guar_reject, inv_waits|]. intros []. eapply Hp; [by apply late_app|].
  by apply inv_respond.
Qed.
Lemma drain_writer_sat fuel carry h d : inv h (held carry) d (held carry) →
  sat guar settled h (drain_writer fuel carry).
Proof.
  revert carry h d. induction fuel as [|fuel IH]; intros carry h d Hi; cbn [drain_writer];
    [by exists d|].
  assert (∀ h first, inv h [first] d [first] →
    sat guar settled h
      ('(b, carry) ← drain_more (Z.to_nat wo_max_documents - 1)
                       (batch_new first);
       in_time ← flush_batch_before b;
       if (in_time : bool) then drain_writer fuel carry
       else _ ← (if wo_answers_carry then reject_carry carry else mret tt);
            reject_queued fuel)) as Hbatch.
  { clear h carry Hi. intros h first Hi. apply sat_bind. eapply drain_more_sat;
      [by apply gathered_new|]. intros h' b carry [Hb Hi'].
    apply sat_bind. eapply flush_batch_before_sat; [done| | |].
    - destruct Hi' as [Hl ??]. split; [eapply ledger_perm; [|apply Hl]; apply Permutation_app_comm|..];
        done.
    - intros h'' Hi''. by eapply IH.
    - intros h'' Hlate Hi''. apply sat_bind. eapply reject_carry_sat; [done|exact Hi''|].
      intros h3 p Hlate3 Hi3. eapply reject_queued_sat.
      eapply (inv_drop id h3 []); [done|exact Hi3]. }
  destruct carry as [first|]; [by apply Hbatch|].
  apply sat_call; [done|]. intros [first|]; cbn.
  - apply Hbatch. by apply (inv_received id h _ first [] d []).
  - exists d. by apply inv_silent.
Qed.
Lemma run_writer_sat fuel carry h d : inv h (held carry) d (held carry) →
  sat guar settled h (run_writer fuel carry).
Proof.
  revert carry h d. induction fuel as [|fuel IH]; intros carry h d Hi; cbn [run_writer];
    [by exists d|]. cbn zeta.
  assert (∀ h first, inv h [first] d [first] →
    sat guar settled h
      ('(b, carry, shutdown_requested) ←
         collect (Z.to_nat wo_max_documents - 1)
           (batch_new first);
       _ ← flush_batch b;
       if (shutdown_requested : bool) then
           _ ← reject_carry carry; drain_writer fuel None
       else run_writer fuel carry)) as Hbatch.
  { clear h carry Hi. intros h first Hi. apply sat_bind. eapply collect_sat;
      [by apply gathered_new|]. intros h' b carry shutdown [Hb Hi'].
    apply sat_bind. eapply flush_batch_sat; [done..|]. intros h'' Hi''.
    destruct shutdown; [|by eapply IH].
    destruct carry as [command|]; [|by eapply drain_writer_sat].
    split; [by eapply guar_reject, inv_waits|]. intros []. eapply drain_writer_sat.
    eapply inv_less; [apply sublist_nil_l|]. by apply inv_respond. }
  destruct carry as [first|]; [by apply Hbatch|].
  apply sat_call; [done|]. intros [[first|]|].
  - apply Hbatch. by apply (inv_received id h _ first [] d []).
  - apply sat_call; [done|]. intros []. exists d. by do 2 (apply inv_silent; [done..|]).
  - apply sat_call; [done|]. intros []. eapply drain_writer_sat.
    by do 2 (apply inv_silent; [done..|]).
Qed.


End theory.

(** ** Draining ends *)

Section drain.
Context {P S R : Type} `{!WriterOps P S R} (max_bytes : Z).
Abbreviation Sig := (WriterSig P (list P) S R).
Abbreviation history := (list (event Sig)).
Abbreviation anything := (λ (_ : history) (_ : call Sig), True).
Implicit Types (h : history).
Context (told : history → P → R → Prop) (offered : history → P → Prop).
Context `{!WriterLaws max_bytes told offered}.

Lemma received_silent h c x : received_of (existT (P := answer Sig) c x) = None →
  received (h ++ [existT (P := answer Sig) c x]) = received h.
Proof. intros H. etrans; [apply received_snoc|]. by rewrite H, app_nil_r. Qed.
Lemma received_add h c x command :
  received_of (existT (P := answer Sig) c x) = Some command →
  length (received (h ++ [existT (P := answer Sig) c x])) = (length (received h) + 1)%nat.
Proof.
  intros H. etrans; [apply f_equal, received_snoc|]. rewrite H, length_app. cbn. lia.
Qed.

Lemma drain_more_receives room b h :
  sat anything (λ h' r, length (received h') + length (ba_commands b)
                        = length (received h) + length (ba_commands r.1) + length (held r.2)
                        ∧ length (ba_commands b) ≤ length (ba_commands r.1))%nat
    h (drain_more room b).
Proof.
  revert b h. induction room as [|room IH]; intros b h; cbn [drain_more]; [cbn; lia|].
  split; [done|]. intros [command|]; cbn; [|rewrite received_silent by done; cbn; lia].
  destruct (wo_can_push b command).
  - eapply sat_mono; [done| |apply IH]. intros h' r. rewrite (received_add _ _ _ command) by done.
    cbn. rewrite length_app. cbn. lia.
  - cbn [sat mret prog_ret fst snd]. rewrite (received_add _ _ _ command) by done. cbn. lia.
Qed.

(** A drain that is still at work after [n] turns received [n] commands. *)
Definition worked (n : nat) (carry : option (Command P)) h h' (t : task P) : Prop :=
  ∀ carry', t = Paused carry' →
  (n + length (received h) + length (held carry') ≤ length (received h') + length (held carry))%nat.
Lemma reject_queued_works fuel h :
  sat anything (worked fuel None h) h (reject_queued fuel).
Proof.
  revert h. induction fuel as [|fuel IH]; intros h; cbn [reject_queued];
    [intros c [= <-]; cbn; lia|].
  split; [done|]. intros [command|]; cbn; [|by intros c].
  split; [done|]. intros []. eapply sat_mono; [done| |apply IH].
  intros h' t Hw c Hc. specialize (Hw c Hc). rewrite received_silent, (received_add _ _ _ command) in Hw by done.
  cbn in Hw. lia.
Qed.
Lemma reject_carry_receives carry h :
  sat anything (λ h' _, received h' = received h) h
    (if wo_answers_carry then reject_carry carry else mret tt).
Proof.
  destruct wo_answers_carry, carry; try done. split; [done|]. intros []. cbn.
  by apply received_silent.
Qed.
Lemma drain_writer_works fuel carry h :
  sat anything (worked fuel carry h) h (drain_writer fuel carry).
Proof.
  revert carry h. induction fuel as [|fuel IH]; intros carry h; cbn [drain_writer];
    [intros c [= <-]; lia|].
  assert (∀ first h0, (length (received h0) = length (received h) + 1 - length (held carry))%nat →
    (length (held carry) ≤ 1)%nat →
    sat anything (worked (Datatypes.S fuel) carry h) h0
      ('(b, carry) ← drain_more (Z.to_nat wo_max_documents - 1)
                       (batch_new first);
       in_time ← flush_batch_before b;
       if (in_time : bool) then drain_writer fuel carry
       else _ ← (if wo_answers_carry then reject_carry carry else mret tt);
            reject_queued fuel)) as Hbatch.
  { intros first h0 Hh0 Hc. apply sat_bind. eapply sat_mono; [done| |apply drain_more_receives].
    intros h1 [b carry1] [Hn Hb]. cbn in Hn, Hb. split; [done|]. intros [r|]; cbn.
    - apply sat_bind. apply sat_bind. eapply sat_mono; [done| |apply wl_receives].
      intros h2 ? Hr. rewrite received_silent in Hr by done. cbn.
      eapply sat_mono; [done| |apply IH]. intros h3 t Hw c Hc'. specialize (Hw c Hc').
      rewrite Hr in Hw. lia.
    - apply sat_bind. eapply sat_mono; [done| |apply reject_carry_receives]. intros h2 ? Hr.
      rewrite received_silent in Hr by done. cbn.
      eapply sat_mono; [done| |apply reject_queued_works]. intros h3 t Hw c Hc'.
      specialize (Hw c Hc'). rewrite Hr in Hw. cbn in Hw. lia. }
  destruct carry as [first|]; [apply Hbatch; cbn; lia|].
  split; [done|]. intros [first|]; cbn; [|by intros c].
  apply Hbatch; [|cbn; lia]. rewrite (received_add _ _ _ first) by done. cbn. lia.
Qed.

(** As many turns as commands are left in the channel, and one to see that there
    is none, always suffice. *)
Lemma drain_ends fuel :
  sat anything (λ h t, (length (received h) < fuel)%nat → t = Ended) [] (drain_writer fuel None).
Proof.
  eapply sat_mono; [done| |apply drain_writer_works]. intros h [|carry] Hw Hl; [done|].
  specialize (Hw carry eq_refl). cbn in Hw. lia.
Qed.
End drain.
