(* ===== verification/EventWriter.v ===== *)
(** * The event writer

    [application/src/writer.rs]: the micro-batching actor ([Writers]) that makes
    accepted events durable, hands the new ones to the dispatcher and answers
    every sender, and the sink in front of it. *)
From stdpp Require Import base list numbers strings sets.
From Stdlib Require Import ZArith Lia.
From S2P Require Import Prelude Primitives Effects Dispatcher Writers.

Open Scope prog_scope.

Inductive DurableOutcome := Accepted | DuplicateOutcome.
Inductive EventWriteStatus := Inserted | DuplicateStatus | RejectedStatus.
Inductive EventStoreError := StoreUnavailable | StoreAmbiguous.
Inductive EventPrepareError := PrepareInvalidEvent | PrepareTooLarge.

Record EventWriterConfig := {
  ew_channel_capacity : Z;
  ew_max_wait : duration;
  ew_max_documents : Z;
  ew_max_bytes : Z;
  ew_operation_timeout : duration;
  ew_shutdown_drain : duration;
}.
Definition event_writer_default : EventWriterConfig :=
  {| ew_channel_capacity := 512; ew_max_wait := 20 * NANOS_PER_MILLI; ew_max_documents := 250;
     ew_max_bytes := 8 * 1024 * 1024; ew_operation_timeout := 10000 * NANOS_PER_MILLI;
     ew_shutdown_drain := 10000 * NANOS_PER_MILLI |}.
Definition validate_event_writer (c : EventWriterConfig) : bool :=
  (0 <? ew_channel_capacity c) && in_range 100 500 (ew_max_documents c)
  && (0 <? ew_max_bytes c) && negb (ew_max_wait c =? 0)
  && negb (ew_operation_timeout c =? 0) && negb (ew_shutdown_drain c =? 0).

Abbreviation EventReply := (result EventSinkError DurableOutcome).
Abbreviation EventStatuses := (result EventStoreError (list EventWriteStatus)).

(** ** The sink *)

(** The calls of [persist]: [accepting] and the shutdown signal, the encoder of
    the store, the channel, and the one-shot answer ([None]: it was dropped). *)
Inductive SinkCall (P : Type) :=
| IsAccepting | IsShutdown | Prepare (event : AcceptedEvent) | Send (prepared : P) | AwaitReply.
Arguments IsAccepting {P}.
Arguments IsShutdown {P}.
Arguments Prepare {P} event.
Arguments Send {P} prepared.
Arguments AwaitReply {P}.
Definition sink_answer {P} (c : SinkCall P) : Type :=
  match c with
  | IsAccepting | IsShutdown => bool
  | Prepare _ => result EventPrepareError P
  | Send _ => bool
  | AwaitReply => option EventReply
  end.
Definition SinkSig (P : Type) : signature := Signature (SinkCall P) sink_answer.

Definition writer_is_accepting {P} : prog (SinkSig P) bool :=
  accepting ← perform (E := SinkSig P) IsAccepting;
  if (accepting : bool) then
    cancelled ← perform (E := SinkSig P) IsShutdown; mret (negb cancelled)
  else mret false.
Definition persist {P} (event : AcceptedEvent) : prog (SinkSig P) EventReply :=
  accepting ← writer_is_accepting;
  if negb accepting then mret (Err SinkUnavailable)
  else
    prepared ← perform (E := SinkSig P) (Prepare event);
    match prepared with
    | Err _ => mret (Err SinkUnavailable)
    | Ok prepared =>
        sent ← perform (E := SinkSig P) (Send prepared);
        if negb (sent : bool) then mret (Err SinkUnavailable)
        else
          received ← perform (E := SinkSig P) AwaitReply;
          match received with
          | Some reply => mret reply
          | None => mret (Err SinkUnavailable)
          end
    end.

(** ** The actor *)

Section event_writer.
(** [PreparedEvent] of the store. *)
Context {P : Type} (encoded_len : P → Z) (config : EventWriterConfig).
Abbreviation Sig := (WriterSig P (list P) EventStatuses EventReply).
Abbreviation actor := (prog Sig).

Definition can_push (b : Batch P) (command : Command P) : bool :=
  (len (ba_commands b) <? ew_max_documents config)
  && (is_empty (ba_commands b)
      || (sat_u64 (ba_bytes b + encoded_len (cm_item command)) <=? ew_max_bytes config)).

Definition respond (command : Command P) (reply : EventReply) : actor unit :=
  await (Respond command reply).
Fixpoint reject_batch (commands : list (Command P)) (error : EventSinkError) : actor unit :=
  match commands with
  | [] => mret tt
  | command :: commands => _ ← respond command (Err error); reject_batch commands error
  end.
(** The zip of the documents with their statuses. *)
Fixpoint answer_batch (commands : list (Command P)) (statuses : list EventWriteStatus)
    : actor unit :=
  match commands, statuses with
  | command :: commands, status :: statuses =>
      _ ← match status with
          | Inserted =>
              _ ← await (Offer (cm_item command)); respond command (Ok Accepted)
          | DuplicateStatus => respond command (Ok DuplicateOutcome)
          | RejectedStatus => respond command (Err SinkUnavailable)
          end;
      answer_batch commands statuses
  | _, _ => mret tt
  end.
(** [flush_batch] after the store. *)
Definition finish_batch (commands : list (Command P)) (r : option EventStatuses) : actor unit :=
  match r with
  | Some (Ok statuses) =>
      if len statuses =? len commands then answer_batch commands statuses
      else reject_batch commands SinkAmbiguous
  | Some (Err StoreUnavailable) => reject_batch commands SinkUnavailable
  | Some (Err StoreAmbiguous) | None => reject_batch commands SinkAmbiguous
  end.

#[export] Instance event_writer_ops : WriterOps P EventStatuses EventReply := {|
  wo_max_documents := ew_max_documents config;
  wo_size := encoded_len;
  wo_can_push := can_push;
  wo_flushed := finish_batch;
  wo_unavailable := Err SinkUnavailable;
  wo_answers_carry := false |}.

End event_writer.

(** ** The laws *)

Section laws.
Context {P : Type} (encoded_len : P → Z) (config : EventWriterConfig).
Abbreviation Sig := (WriterSig P (list P) EventStatuses EventReply).
Abbreviation history := (list (event Sig)).
Abbreviation inv := (inv (S := EventStatuses) (R := EventReply) id).
#[local] Existing Instance event_writer_ops.
#[local] Instance ops : WriterOps P EventStatuses EventReply := event_writer_ops encoded_len config.
Implicit Types (h : history) (p a d : list (Command P)).

Definition outcome_of (status : EventWriteStatus) : option DurableOutcome :=
  match status with
  | Inserted => Some Accepted | DuplicateStatus => Some DuplicateOutcome
  | RejectedStatus => None
  end.
(** The store gave this status to this document. *)
Definition status_of h (item : P) (status : EventWriteStatus) : Prop :=
  ∃ batch statuses i, store_answered h batch (Some (Ok statuses))
    ∧ batch !! i = Some item ∧ statuses !! i = Some status.
Definition event_told h (item : P) (reply : EventReply) : Prop :=
  ∀ outcome, reply = Ok outcome →
  ∃ status, status_of h item status ∧ outcome_of status = Some outcome.
Definition event_offered h (item : P) : Prop := status_of h item Inserted.
Abbreviation guar := (writer_guar (ew_max_bytes config) event_told event_offered).

Lemma status_of_app h h' item status :
  status_of h item status → status_of (h ++ h') item status.
Proof.
  intros (b & s & i & [H|H] & ? & ?); exists b, s, i;
    (split; [|done]); [left|right]; by apply answered_app.
Qed.
Lemma reject_batch_sat cs error post h p d a :
  inv h (cs ++ p) d a → (∀ h', inv h' p d a → post h' tt) →
  sat guar post h (reject_batch cs error).
Proof.
  apply (reject_all_sat id guar (λ cs, reject_batch cs error) (Err error)).
  - by intros [].
  - intros. by split.
Qed.
Lemma answer_batch_sat cs statuses post h p d a :
  (∀ i c s, cs !! i = Some c → statuses !! i = Some s → status_of h (cm_item c) s) →
  length cs = length statuses →
  inv h (cs ++ p) d a → (∀ h', inv h' p d a → post h' tt) →
  sat guar post h (answer_batch cs statuses).
Proof.
  revert statuses h. induction cs as [|c cs IH]; intros [|s statuses] h Ht Hl Hi Hp; try done;
    [by apply Hp|]. cbn [answer_batch].
  pose proof (Ht 0%nat c s eq_refl eq_refl) as Hs.
  assert (∀ h', inv (h ++ h') (cs ++ p) d a →
    sat guar post (h ++ h') (answer_batch cs statuses)) as Hrest.
  { intros h' Hi'. apply IH; [|by injection Hl|done|done].
    intros i c' s' Hc' Hs'. apply status_of_app. by apply (Ht (S i)). }
  destruct s.
  - apply sat_bind, sat_call; [done|]. intros x.
    assert (inv (h ++ [existT (P := answer Sig) (Offer (cm_item c)) x]) (c :: cs ++ p) d a) as Hi'
      by by apply inv_silent.
    split; [split; [by eapply inv_waits|]|].
    + intros o [= <-]. exists Inserted. split; [by apply status_of_app|done].
    + intros []. cbn. rewrite <- (assoc_L (++)). apply Hrest. rewrite (assoc_L (++)).
      by apply inv_respond.
  - split; [split; [by eapply inv_waits|]|].
    + intros o [= <-]. by exists DuplicateStatus.
    + intros []. cbn. apply Hrest. by apply inv_respond.
  - split; [split; [by eapply inv_waits|done]|]. intros []. cbn. apply Hrest. by apply inv_respond.
Qed.
Lemma finish_batch_sat cs r post h p d a :
  store_answered h (map cm_item cs) r → inv h (cs ++ p) d a →
  (∀ h', inv h' p d a → post h' tt) → sat guar post h (finish_batch cs r).
Proof.
  intros Ht Hi Hp. unfold finish_batch. destruct r as [[statuses|[]]|];
    try (by eapply reject_batch_sat).
  destruct (Z.eqb_spec (len statuses) (len cs)) as [El|]; [|by eapply reject_batch_sat].
  eapply answer_batch_sat; [|unfold len in El; lia|done|done].
  intros i c s Hc Hs. exists (map cm_item cs), statuses, i.
  split_and!; [done|by rewrite list_lookup_fmap, Hc|done].
Qed.

Abbreviation anything := (λ (_ : history) (_ : call Sig), True).
Lemma reject_batch_receives cs error h :
  sat anything (λ h' _, received h' = received h) h (reject_batch cs error).
Proof.
  revert h. induction cs as [|c cs IH]; intros h; [done|]. cbn [reject_batch].
  split; [done|]. intros x. cbn. eapply sat_mono; [done| |apply IH].
  intros h' ? ->. by apply received_silent.
Qed.
Lemma answer_batch_receives cs statuses h :
  sat anything (λ h' _, received h' = received h) h (answer_batch cs statuses).
Proof.
  revert statuses h. induction cs as [|c cs IH]; intros [|s statuses] h; try done.
  cbn [answer_batch]. destruct s; repeat (split; [done|]; intros ?; cbn);
    (eapply sat_mono; [done| |apply IH]); intros h' ? ->;
    by repeat (etrans; [by apply received_silent|]).
Qed.

Lemma event_writer_laws :
  (∀ item, 0 ≤ encoded_len item ≤ U64_MAX) →
  validate_event_writer config = true → ew_max_bytes config < U64_MAX →
  WriterLaws (ew_max_bytes config) event_told event_offered.
Proof.
  intros Hlen Hv Hbytes. unfold validate_event_writer in Hv. bool_prop. split.
  - exact Hlen.
  - cbn. lia.
  - done.
  - intros b command Hne. cbn. unfold can_push. intros Hc. bool_prop.
    assert (is_empty (ba_commands b) = false) as He by (by destruct (ba_commands b)).
    rewrite He in *. cbn [orb] in *. bool_prop. done.
  - by intros h item outcome.
  - intros cs r post h p d a. apply finish_batch_sat.
  - intros cs r h. cbn. unfold finish_batch. destruct r as [[statuses|[]]|];
      try apply reject_batch_receives.
    destruct (_ =? _); [apply answer_batch_receives|apply reject_batch_receives].
Qed.
End laws.

(** ** Theorems *)

(** C10. Whatever the channel, the timer, the store and the shutdown do, the
    event writer answers a command only while it waits for its answer, and as
    written only with the status the store gave its own document; it offers only
    inserted events; every batch it stores has a document, at most
    [max_documents], and more than one only within [max_bytes]; documents are
    stored in the order they were received; and when it ends every command was
    answered, unless the drain deadline interrupted a store. *)
Theorem event_writer_answers_once {P} (encoded_len : P → Z) config fuel :
  (∀ item, 0 ≤ encoded_len item ≤ U64_MAX) →
  validate_event_writer config = true → ew_max_bytes config < U64_MAX →
  let _ := event_writer_ops encoded_len config in
  sat (writer_guar (ew_max_bytes config) event_told event_offered) settled []
    (run_writer (WriterOps0 := event_writer_ops encoded_len config) fuel None).
Proof.
  intros Hlen Hv Hbytes ops.
  pose proof (event_writer_laws encoded_len config Hlen Hv Hbytes) as Hlaws.
  eapply (run_writer_sat (ew_max_bytes config) event_told event_offered) with (d := []).
  apply inv_start.
Qed.
Lemma event_writer_answers_once_witness :
  let _ := event_writer_ops (λ item : bytes, Z.min U64_MAX (len item)) event_writer_default in
  sat (writer_guar (8 * 1024 * 1024) event_told event_offered) settled []
    (run_writer 3 None).
Proof.
  apply (event_writer_answers_once (λ item : bytes, Z.min U64_MAX (len item)) event_writer_default).
  - intros item. pose proof (len_nonneg item). unfold U64_MAX. lia.
  - reflexivity.
  - vm_compute. reflexivity.
Defined.

(** Draining the event writer ends: as many turns as commands are left in
    the channel, and one to see that there is none, always suffice. *)
Theorem event_writer_drain_ends {P} (encoded_len : P → Z) config fuel :
  (∀ item, 0 ≤ encoded_len item ≤ U64_MAX) →
  validate_event_writer config = true → ew_max_bytes config < U64_MAX →
  sat (λ _ _, True) (λ h t, (length (received h) < fuel)%nat → t = Ended) []
    (drain_writer (WriterOps0 := event_writer_ops encoded_len config) fuel None).
Proof.
  intros Hlen Hv Hbytes.
  pose proof (event_writer_laws encoded_len config Hlen Hv Hbytes) as Hlaws.
  eapply drain_ends. exact Hlaws.
Qed.
