(* ===== verification/Signals.v ===== *)
(** * Signal values

    [domain/src/signals.rs]: the identifiers of traces, spans and logs, their
    severities and operation classes with their wire codes, and the records the
    log and span lanes store.  A fixed array of bytes is the list of its bytes. *)
From stdpp Require Import base list numbers strings.
From Stdlib Require Import ZArith Lia.
From S2P Require Import Prelude Primitives Identity.

Inductive SignalPrimitiveError :=
| InvalidTraceId | InvalidSpanId | InvalidSignalTime | InvalidSignalText.

(** ** Identifiers *)

(** [hex::decode_to_slice] into [size] bytes, after the tests of length and
    alphabet. *)
Definition decode_id (size : nat) (value : str) : option bytes :=
  if negb (len value =? 2 * Z.of_nat size) || negb (forallb is_ascii_hexdigit value) then None
  else hex_decode value.
Definition trace_id_parse (value : str) : result SignalPrimitiveError bytes :=
  match decode_id 16 value with
  | Some id => if bool_decide (id = replicate 16 0) then Err InvalidTraceId else Ok id
  | None => Err InvalidTraceId
  end.
Definition span_id_parse (value : str) : result SignalPrimitiveError bytes :=
  match decode_id 8 value with
  | Some id => if bool_decide (id = replicate 8 0) then Err InvalidSpanId else Ok id
  | None => Err InvalidSpanId
  end.
Definition log_id_parse (value : str) : result PrimitiveError bytes :=
  ok_or PInvalidEventId (decode_id 16 value).
(** [Display] of the identifiers. *)
Definition signal_id_to_string (id : bytes) : str := hex_encode id.

Section derived.
Context `{Blake3}.

(** The bytes [LogId::deterministic] and [SpanRecordId::deterministic] hash. *)
Definition log_id_input (project_id : ProjectId) (occurred_at_ns : Z) (payload : bytes) : bytes :=
  lit "structured-log/v1" ++ be_bytes 4 project_id ++ be_bytes 8 occurred_at_ns ++ payload.
Definition log_id_deterministic (project_id : ProjectId) (received_at : Timestamp)
    (occurred_at_ns : Z) (payload : bytes) : bytes :=
  be_bytes 8 received_at ++ take 8 (blake3 (log_id_input project_id occurred_at_ns payload)).
Definition span_record_id_input (project_id : ProjectId) (trace_id span_id : bytes) : bytes :=
  lit "span-record/v1" ++ be_bytes 4 project_id ++ trace_id ++ span_id.
Definition span_record_id_deterministic (project_id : ProjectId) (trace_id span_id : bytes)
    : bytes := take 16 (blake3 (span_record_id_input project_id trace_id span_id)).

End derived.

(** ** Severities and operation classes *)

Inductive LogSeverity := SevTrace | SevDebug | SevInfo | SevWarn | SevError | SevFatal.
Definition severity_from_wire (value : str) : LogSeverity :=
  let value := to_ascii_lowercase value in
  let named s := bool_decide (value = lit s) in
  if named "trace" then SevTrace
  else if named "debug" then SevDebug
  else if named "warn" || named "warning" then SevWarn
  else if named "error" then SevError
  else if named "fatal" then SevFatal
  else SevInfo.
Definition severity_as_str (s : LogSeverity) : str :=
  lit match s with
  | SevTrace => "trace" | SevDebug => "debug" | SevInfo => "info" | SevWarn => "warn"
  | SevError => "error" | SevFatal => "fatal"
  end.
Definition severity_code (s : LogSeverity) : Z :=
  match s with
  | SevTrace => 1 | SevDebug => 2 | SevInfo => 3 | SevWarn => 4 | SevError => 5 | SevFatal => 6
  end.
Definition severity_from_code (value : Z) : result SignalPrimitiveError LogSeverity :=
  match value with
  | 1 => Ok SevTrace | 2 => Ok SevDebug | 3 => Ok SevInfo | 4 => Ok SevWarn | 5 => Ok SevError
  | 6 => Ok SevFatal | _ => Err InvalidSignalText
  end.

Inductive SpanOperationClass :=
| OcOther | OcHttpServer | OcHttpClient | OcDatabase | OcCache | OcQueue | OcFile | OcRpc
| OcFunction | OcTask | OcUi | OcResource.
#[export] Instance SpanOperationClass_eq_dec : EqDecision SpanOperationClass.
Proof. solve_decision. Defined.
Definition operation_from_operation (value : str) : SpanOperationClass :=
  let value := to_ascii_lowercase value in
  let starts s := starts_with (lit s) value in
  if starts "http.server" || starts "server" then OcHttpServer
  else if starts "http" then OcHttpClient
  else if starts "db" || str_contains (lit "database") value then OcDatabase
  else if starts "cache" then OcCache
  else if starts "queue" || starts "messaging" then OcQueue
  else if starts "file" then OcFile
  else if starts "rpc" then OcRpc
  else if starts "function" then OcFunction
  else if starts "task" then OcTask
  else if starts "ui" || starts "navigation" then OcUi
  else if starts "resource" then OcResource
  else OcOther.
Definition operation_code (c : SpanOperationClass) : Z :=
  match c with
  | OcOther => 0 | OcHttpServer => 1 | OcHttpClient => 2 | OcDatabase => 3 | OcCache => 4
  | OcQueue => 5 | OcFile => 6 | OcRpc => 7 | OcFunction => 8 | OcTask => 9 | OcUi => 10
  | OcResource => 11
  end.
Definition operation_from_code (value : Z) : result SignalPrimitiveError SpanOperationClass :=
  match value with
  | 0 => Ok OcOther | 1 => Ok OcHttpServer | 2 => Ok OcHttpClient | 3 => Ok OcDatabase
  | 4 => Ok OcCache | 5 => Ok OcQueue | 6 => Ok OcFile | 7 => Ok OcRpc | 8 => Ok OcFunction
  | 9 => Ok OcTask | 10 => Ok OcUi | 11 => Ok OcResource | _ => Err InvalidSignalText
  end.
Definition operation_as_str (c : SpanOperationClass) : str :=
  lit match c with
  | OcOther => "other" | OcHttpServer => "http.server" | OcHttpClient => "http.client"
  | OcDatabase => "database" | OcCache => "cache" | OcQueue => "queue" | OcFile => "file"
  | OcRpc => "rpc" | OcFunction => "function" | OcTask => "task" | OcUi => "ui"
  | OcResource => "resource"
  end.

(** ** Records *)

Record LogRecord := {
  lr_id : bytes;
  lr_project_id : ProjectId;
  lr_received_at : Timestamp;
  lr_occurred_at_ns : Z;
  lr_severity : LogSeverity;
  lr_message : str;
  lr_trace_id : option bytes;
  lr_span_id : option bytes;
  lr_environment : option str;
  lr_release : option str;
  lr_service : option str;
  lr_body : bytes;
}.
Record SpanRecord := {
  sr_id : bytes;
  sr_project_id : ProjectId;
  sr_received_at : Timestamp;
  sr_started_at_ns : Z;
  sr_duration_ns : Z;
  sr_trace_id : bytes;
  sr_span_id : bytes;
  sr_parent_span_id : option bytes;
  sr_is_segment : bool;
  sr_operation_class : SpanOperationClass;
  sr_operation : str;
  sr_status : str;
  sr_name : str;
  sr_environment : option str;
  sr_release : option str;
  sr_service : option str;
  sr_insight_flags : Z;
  sr_body : bytes;
}.
Record SignalCursor := {
  sc_time_ns : Z;
  sc_id : bytes;
}.
Record SignalPage (T : Type) := {
  sp_items : list T;
  sp_next : option SignalCursor;
}.

(** ** Lemmas *)

(** Induction on a list two elements at a time. *)
Lemma two_step {A} (P : list A → Prop) : P [] → (∀ x, P [x]) →
  (∀ x y l, P l → P (x :: y :: l)) → ∀ l, P l.
Proof.
  intros H0 H1 H2. fix go 1. intros [|x [|y l]]; [done|apply H1|]. apply H2, go.
Qed.
Lemma decode_id_Some size value id : decode_id size value = Some id →
  length id = size ∧ Forall is_byte id.
Proof.
  unfold decode_id. intros E. inv_cases E. bool_prop.
  destruct (hex_decode_total size value) as (bs & Hbs & Hl & Hb).
  - unfold len in *. lia.
  - by apply forallb_true.
  - by simplify_eq.
Qed.
Lemma decode_id_encode size id : length id = size → Forall is_byte id →
  decode_id size (hex_encode id) = Some id.
Proof.
  intros Hl Hb. unfold decode_id, len. rewrite length_hex_encode, Hl.
  replace (Z.of_nat (2 * size) =? 2 * Z.of_nat size) with true by (symmetry; apply Z.eqb_eq; lia).
  cbn [negb orb]. rewrite (proj2 (forallb_true _ _)) by (intros; by eapply hex_encode_hexdigits).
  by apply hex_decode_encode.
Qed.
Lemma decode_id_accepts size value : is_Some (decode_id size value) ↔
  length value = (2 * size)%nat ∧ ∀ b, b ∈ value → is_ascii_hexdigit b = true.
Proof.
  unfold decode_id. rewrite <- forallb_true. split.
  - intros [id E]. inv_cases E. bool_prop. unfold len in *. split; [lia|done].
  - intros [Hl Hh]. rewrite Hh. unfold len. rewrite Hl.
    replace (Z.of_nat (2 * size) =? 2 * Z.of_nat size) with true by (symmetry; apply Z.eqb_eq; lia).
    destruct (hex_decode_total size value) as (bs & -> & _); [lia|by apply forallb_true|].
    by eexists.
Qed.

Lemma hex_digit_of_value b d : digit_value b = Some d → 0 ≤ d < 16 ∧ hex_digit d = ascii_lower b.
Proof.
  unfold digit_value, is_ascii_digit. intros E.
  assert (0 ≤ b < 128) as Hb.
  { destruct (in_range 48 57 b) eqn:E1; [apply in_range_true in E1; lia|].
    destruct (in_range 97 102 b) eqn:E2; [apply in_range_true in E2; lia|].
    destruct (in_range 65 70 b) eqn:E3; [apply in_range_true in E3; lia|done]. }
  assert (forallb (λ b, match digit_value b with
                        | Some d => (0 <=? d) && (d <? 16) && (hex_digit d =? ascii_lower b)
                        | None => true end) (seqZ 0 128) = true) as Hall by done.
  rewrite forallb_forall in Hall.
  specialize (Hall b ltac:(apply list_elem_of_In, elem_of_seqZ; lia)).
  change (digit_value b = Some d) in E. rewrite E in Hall. bool_prop. done.
Qed.
Lemma hex_encode_decode value id : hex_decode value = Some id →
  hex_encode id = to_ascii_lowercase value.
Proof.
  revert id. induction value as [|h|h l value IH] using two_step; intros id E; [by injection E as <-|done|].
  cbn [hex_decode] in E. destruct (digit_value h) as [a|] eqn:Eh; [|done].
  destruct (digit_value l) as [b|] eqn:El; [|done].
  destruct (hex_decode value) as [r|] eqn:Er; [|done]. injection E as <-.
  apply hex_digit_of_value in Eh as [Ha Eh], El as [Hb El]. cbn.
  rewrite (IH r eq_refl). rewrite <- Eh, <- El. unfold to_ascii_lowercase.
  replace ((a * 16 + b) / 16) with a by (Z.to_euclidean_division_equations; lia).
  replace ((a * 16 + b) mod 16) with b by (Z.to_euclidean_division_equations; lia). done.
Qed.
Lemma decode_id_lowercase size value id : decode_id size value = Some id →
  signal_id_to_string id = to_ascii_lowercase value.
Proof. unfold decode_id. intros E. inv_cases E. by apply hex_encode_decode. Qed.

(** ** Theorems *)

Definition signal_id_valid (size : nat) (id : bytes) : Prop :=
  length id = size ∧ Forall is_byte id ∧ id ≠ replicate size 0.

(** Trace and span identifiers round trip with their text, and exactly the
    non-zero identifiers written in hexadecimal digits are accepted; log
    identifiers may also be zero. *)
Theorem signal_ids_roundtrip :
  (∀ id, signal_id_valid 16 id → trace_id_parse (signal_id_to_string id) = Ok id)
  ∧ (∀ id, signal_id_valid 8 id → span_id_parse (signal_id_to_string id) = Ok id)
  ∧ (∀ id, length id = 16%nat → Forall is_byte id → log_id_parse (signal_id_to_string id) = Ok id)
  ∧ (∀ value id, trace_id_parse value = Ok id →
       signal_id_valid 16 id ∧ signal_id_to_string id = to_ascii_lowercase value)
  ∧ (∀ value id, span_id_parse value = Ok id →
       signal_id_valid 8 id ∧ signal_id_to_string id = to_ascii_lowercase value).
Proof.
  split_and!.
  - intros id (Hl & Hb & Hz). unfold trace_id_parse, signal_id_to_string.
    rewrite decode_id_encode by done. by rewrite bool_decide_eq_false_2.
  - intros id (Hl & Hb & Hz). unfold span_id_parse, signal_id_to_string.
    rewrite decode_id_encode by done. by rewrite bool_decide_eq_false_2.
  - intros id Hl Hb. unfold log_id_parse, signal_id_to_string. by rewrite decode_id_encode.
  - intros value id E. unfold trace_id_parse in E. destruct (decode_id 16 value) eqn:Ed; [|done].
    case_bool_decide; [done|]. injection E as ->. split; [|by eapply decode_id_lowercase].
    by apply decode_id_Some in Ed as [??].
  - intros value id E. unfold span_id_parse in E. destruct (decode_id 8 value) eqn:Ed; [|done].
    case_bool_decide; [done|]. injection E as ->. split; [|by eapply decode_id_lowercase].
    by apply decode_id_Some in Ed as [??].
Qed.

(** The codes of the wire and of the stores read back to what they were. *)
Lemma severity_code_roundtrip s :
  severity_from_code (severity_code s) = Ok s ∧ severity_from_wire (severity_as_str s) = s.
Proof. by destruct s. Qed.
Lemma severity_from_code_Ok v s : severity_from_code v = Ok s ↔ v = severity_code s.
Proof.
  split; [|intros ->; apply severity_code_roundtrip]. unfold severity_from_code.
  intros E. inv_cases E; done.
Qed.
Lemma operation_from_code_Ok v c : operation_from_code v = Ok c ↔ v = operation_code c.
Proof.
  split; [|intros ->; by destruct c]. unfold operation_from_code. intros E. inv_cases E; done.
Qed.

(** The hashed bytes of a log or span identifier determine what they were made of. *)
Lemma log_id_input_inj p t d q u e :
  project_id_valid p → project_id_valid q → I64_MIN ≤ t ≤ I64_MAX → I64_MIN ≤ u ≤ I64_MAX →
  log_id_input p t d = log_id_input q u e → p = q ∧ t = u ∧ d = e.
Proof.
  intros Hp Hq Ht Hu E. unfold log_id_input in E. apply app_inv_head in E.
  apply app_inj_1 in E as [Ep E]; [|by rewrite !length_be_bytes].
  apply app_inj_1 in E as [Et Ed]; [|by rewrite !length_be_bytes].
  split_and!; [by apply project_bytes_inj|by apply i64_bytes_inj|done].
Qed.
Lemma span_record_id_input_inj p t s q u v :
  project_id_valid p → project_id_valid q → length t = length u →
  span_record_id_input p t s = span_record_id_input q u v → p = q ∧ t = u ∧ s = v.
Proof.
  intros Hp Hq Hl E. unfold span_record_id_input in E. apply app_inv_head in E.
  apply app_inj_1 in E as [Ep E]; [|by rewrite !length_be_bytes].
  apply app_inj_1 in E as [Et Es]; [|done]. split_and!; [by apply project_bytes_inj|done|done].
Qed.
