(* ===== verification/Metrics.v ===== *)
(** * Application metrics

    [domain/src/metrics.rs]: the aggregates of counters, gauges and
    distributions, and the batch of deltas the metric lane carries: one
    aggregate per series and bucket.  The base-two logarithm of the bins is a
    parameter: the language does not fix its rounding. *)
From stdpp Require Import base list numbers strings sets gmap.
From Stdlib Require Import ZArith Lia SpecFloat.
From S2P Require Import Prelude Float Primitives Identity.

Definition METRIC_SKETCH_BINS : nat := 64.

Inductive MetricKind := Counter | Gauge | Distribution.
#[export] Instance MetricKind_eq_dec : EqDecision MetricKind.
Proof. solve_decision. Defined.
Definition metric_kind_as_str (k : MetricKind) : str :=
  lit match k with
  | Counter => "counter" | Gauge => "gauge" | Distribution => "distribution"
  end.
Definition metric_kind_code (k : MetricKind) : Z :=
  match k with Counter => 1 | Gauge => 2 | Distribution => 3 end.

Record MetricSeries := {
  ms_project_id : ProjectId;
  ms_name : str;
  ms_kind : MetricKind;
  ms_unit : str;
  ms_tags : list (str * str);
}.

(** [f64::min] and [f64::max]: a NaN gives way to the other. *)
Definition f64_is_nan (x : f64) : bool := match x with S754_nan => true | _ => false end.
Definition f64_add : f64 → f64 → f64 := SFadd 53 1024.
Definition f64_min (a b : f64) : f64 :=
  if f64_is_nan a then b else if f64_ltb b a then b else a.
Definition f64_max (a b : f64) : f64 :=
  if f64_is_nan a then b else if f64_ltb a b then b else a.

(** [value.floor().clamp(lo, hi) as i32] with both bounds in the type. *)
Definition f64_floor_clamp (lo hi : Z) (x : f64) : Z :=
  let clamp z := Z.max lo (Z.min hi z) in
  match x with
  | S754_zero _ => clamp 0
  | S754_infinity s => if s then lo else hi
  | S754_nan => 0
  | S754_finite s m e =>
      let z := if s then Z.neg m else Z.pos m in
      clamp (if 0 <=? e then z * 2 ^ e else z / 2 ^ (- e))
  end.
Definition f64_abs : f64 → f64 := SFabs.

(** [f64::log2]. *)
Class Log2 := f64_log2 : f64 → f64.

Section metrics.
Context `{Blake3} `{Log2}.

Definition metric_series_id (s : MetricSeries) : bytes :=
  series_id (ms_project_id s) (ms_name s) (metric_kind_as_str (ms_kind s)) (ms_unit s) (ms_tags s).

Definition sketch_bin (value : f64) : nat :=
  match value with
  | S754_zero _ => 31
  | _ => Z.to_nat (f64_floor_clamp (-30) 31 (f64_log2 (f64_abs value)) + 31)
  end.

(** ** Aggregates *)

Inductive MetricAggregate :=
| ACounter (sum : f64) (count : Z)
| AGauge (last min max sum : f64) (count : Z)
| ADistribution (min max sum : f64) (count : Z) (bins : list Z).
Definition aggregate_kind (a : MetricAggregate) : MetricKind :=
  match a with
  | ACounter _ _ => Counter | AGauge _ _ _ _ _ => Gauge | ADistribution _ _ _ _ _ => Distribution
  end.
Definition aggregate_count (a : MetricAggregate) : Z :=
  match a with ACounter _ n | AGauge _ _ _ _ n | ADistribution _ _ _ n _ => n end.

Definition from_measurement (kind : MetricKind) (value : f64) : MetricAggregate :=
  match kind with
  | Counter => ACounter value 1
  | Gauge => AGauge value value value value 1
  | Distribution =>
      ADistribution value value value 1
        (<[sketch_bin value := 1]> (replicate METRIC_SKETCH_BINS 0))
  end.
(** [MetricAggregate::merge]: [None] where it changes nothing and answers
    [false]. *)
Definition aggregate_merge (self newer : MetricAggregate) : option MetricAggregate :=
  match self, newer with
  | ACounter sum count, ACounter other_sum other_count =>
      Some (ACounter (f64_add sum other_sum) (sat_u64 (count + other_count)))
  | AGauge _ min max sum count, AGauge other_last other_min other_max other_sum other_count =>
      Some (AGauge other_last (f64_min min other_min) (f64_max max other_max)
              (f64_add sum other_sum) (sat_u64 (count + other_count)))
  | ADistribution min max sum count bins,
    ADistribution other_min other_max other_sum other_count other_bins =>
      Some (ADistribution (f64_min min other_min) (f64_max max other_max)
              (f64_add sum other_sum) (sat_u64 (count + other_count))
              (zip_with (λ bin other, sat_u32 (bin + other)) bins other_bins))
  | _, _ => None
  end.

(** ** Deltas *)

Record MetricDelta := {
  md_series : MetricSeries;
  md_bucket_start : Timestamp;
  md_bucket_width_seconds : Z;
  md_received_at : Timestamp;
  md_trace_id : option bytes;
  md_aggregate : MetricAggregate;
}.
Definition bucket_id_input (d : MetricDelta) : bytes :=
  lit "application-metric-bucket/v1" ++ metric_series_id (md_series d)
  ++ be_bytes 8 (md_bucket_start d) ++ be_bytes 4 (md_bucket_width_seconds d).
Definition bucket_id (d : MetricDelta) : bytes := take 16 (blake3 (bucket_id_input d)).

(** What an occupied entry becomes. *)
Definition delta_merge (current delta : MetricDelta) : MetricDelta :=
  match aggregate_merge (md_aggregate current) (md_aggregate delta) with
  | Some aggregate =>
      {| md_series := md_series current; md_bucket_start := md_bucket_start current;
         md_bucket_width_seconds := md_bucket_width_seconds current;
         md_received_at := md_received_at delta;
         md_trace_id := option_or (md_trace_id delta) (md_trace_id current);
         md_aggregate := aggregate |}
  | None => current
  end.

Abbreviation delta_map := (gmap (bytes * Z) MetricDelta).
Record MetricDeltaBatch := {
  mb_deltas : delta_map;
  mb_source_measurements : Z;
  mb_discarded_measurements : Z;
}.
Definition metric_batch_default : MetricDeltaBatch :=
  {| mb_deltas := ∅; mb_source_measurements := 0; mb_discarded_measurements := 0 |}.
Definition metric_batch_len (b : MetricDeltaBatch) : Z := Z.of_nat (size (mb_deltas b)).
Definition metric_batch_is_empty (b : MetricDeltaBatch) : bool := metric_batch_len b =? 0.

Definition delta_key (d : MetricDelta) : bytes * Z :=
  (metric_series_id (md_series d), md_bucket_start d).
Definition push_delta (deltas : delta_map) (delta : MetricDelta) : delta_map :=
  match deltas !! delta_key delta with
  | None => <[delta_key delta := delta]> deltas
  | Some current => <[delta_key delta := delta_merge current delta]> deltas
  end.
Definition metric_batch_push (b : MetricDeltaBatch) (delta : MetricDelta) : MetricDeltaBatch :=
  {| mb_deltas := push_delta (mb_deltas b) delta;
     mb_source_measurements := mb_source_measurements b;
     mb_discarded_measurements := mb_discarded_measurements b |}.
(** The values of [newer] are pushed in the order of its keys; the keys differ,
    so the order does not matter ([push_deltas_lookup]). *)
Definition metric_batch_merge (self newer : MetricDeltaBatch) : MetricDeltaBatch :=
  {| mb_deltas := foldl push_delta (mb_deltas self) (map_to_list (mb_deltas newer)).*2;
     mb_source_measurements :=
       sat_u32 (mb_source_measurements self + mb_source_measurements newer);
     mb_discarded_measurements :=
       sat_u32 (mb_discarded_measurements self + mb_discarded_measurements newer) |}.

(** ** Lemmas *)

Lemma sketch_bin_bounds value : (1 ≤ sketch_bin value ≤ 62)%nat.
Proof.
  unfold sketch_bin. assert (∀ x, -30 ≤ f64_floor_clamp (-30) 31 x ≤ 31) as Hc.
  { intros x. unfold f64_floor_clamp. destruct x as [|[]| |]; lia. }
  specialize (Hc (f64_log2 (f64_abs value))). destruct value; lia.
Qed.

(** Every delta is under its own key. *)
Definition keyed (m : delta_map) : Prop := ∀ k d, m !! k = Some d → delta_key d = k.
Lemma delta_merge_key a b : delta_key (delta_merge a b) = delta_key a.
Proof. unfold delta_merge. by destruct (aggregate_merge _ _). Qed.
Lemma push_delta_lookup m d k :
  push_delta m d !! k
  = if bool_decide (delta_key d = k)
    then Some (match m !! k with Some current => delta_merge current d | None => d end)
    else m !! k.
Proof.
  unfold push_delta. case_bool_decide as E.
  - subst. destruct (m !! delta_key d); by rewrite lookup_insert_eq.
  - destruct (m !! delta_key d); by rewrite lookup_insert_ne.
Qed.
Lemma push_deltas_lookup l : NoDup (map delta_key l) → ∀ m k,
  foldl push_delta m l !! k
  = match List.find (λ d, bool_decide (delta_key d = k)) l, m !! k with
    | Some d, Some current => Some (delta_merge current d)
    | Some d, None => Some d
    | None, o => o
    end.
Proof.
  induction l as [|d l IH]; intros Hn m k; cbn; [done|].
  apply NoDup_cons in Hn as [Hd Hn]. rewrite IH, push_delta_lookup by done.
  case_bool_decide as E; [|done]. subst k.
  destruct (List.find _ l) as [d'|] eqn:Ef; [|by destruct (m !! _)].
  apply find_some in Ef as [Hin Hk]. apply bool_decide_eq_true in Hk.
  destruct Hd. rewrite <- Hk. apply list_elem_of_fmap. exists d'. by rewrite list_elem_of_In.
Qed.
Lemma keyed_values m : keyed m → NoDup (map delta_key (map_to_list m).*2).
Proof.
  intros Hm. assert (map delta_key (map_to_list m).*2 = (map_to_list m).*1) as ->;
    [|apply NoDup_fst_map_to_list].
  assert (∀ kd, kd ∈ map_to_list m → delta_key kd.2 = kd.1) as Hk.
  { intros [k d] Hkd%elem_of_map_to_list. by apply Hm. }
  induction (map_to_list m) as [|kd l IH]; cbn; [done|].
  f_equal; [apply Hk; left|apply IH; intros; apply Hk; by right].
Qed.
Lemma keyed_find m k : keyed m →
  List.find (λ d, bool_decide (delta_key d = k)) (map_to_list m).*2 = m !! k.
Proof.
  intros Hm. destruct (List.find _ _) as [d|] eqn:Ef.
  - apply find_some in Ef as [Hin Hk]. apply bool_decide_eq_true in Hk as <-.
    apply list_elem_of_In, list_elem_of_fmap in Hin as ([k' d'] & -> & Hin).
    apply elem_of_map_to_list in Hin. cbn in *. rewrite (Hm _ _ Hin). by symmetry.
  - destruct (m !! k) as [d|] eqn:E; [|done].
    apply (find_none _ _ ) with (x := d) in Ef.
    + rewrite (Hm _ _ E), bool_decide_eq_true_2 in Ef by done. done.
    + apply list_elem_of_In, list_elem_of_fmap. exists (k, d).
      split; [done|by apply elem_of_map_to_list].
Qed.

(** ** Theorems *)

(** What holds of every aggregate: the count is a [u64]; a distribution has 64
    bins of 32 bits, which add up to the count until it outgrows them. *)
Definition aggregate_ok (a : MetricAggregate) : Prop :=
  0 ≤ aggregate_count a ≤ U64_MAX
  ∧ match a with
    | ADistribution _ _ _ count bins =>
        length bins = METRIC_SKETCH_BINS ∧ Forall (λ b, 0 ≤ b ≤ U32_MAX) bins
        ∧ (count ≤ U32_MAX → sum_map id bins = count)
    | _ => True
    end.

Lemma sum_insert (l : list Z) i x v : l !! i = Some x →
  sum_map id (<[i := v]> l) = sum_map id l - x + v.
Proof.
  revert i. induction l as [|y l IH]; intros [|i] E; try done.
  - injection E as ->. change (<[0%nat := v]> (x :: l)) with (v :: l).
    rewrite !sum_map_cons. change (id v) with v. change (id x) with x. lia.
  - change (<[S i := v]> (y :: l)) with (y :: <[i := v]> l).
    specialize (IH i E). rewrite !sum_map_cons, IH. lia.
Qed.
Lemma sum_replicate_zero n : sum_map id (replicate n 0) = 0.
Proof. induction n as [|n IH]; [done|]. cbn [replicate]. by rewrite sum_map_cons, IH. Qed.
Lemma from_measurement_ok kind value : aggregate_ok (from_measurement kind value).
Proof.
  pose proof (sketch_bin_bounds value) as Hb. destruct kind; (split; [unfold U64_MAX; cbn; lia|]); try done.
  cbn [from_measurement]. split_and!.
  - by rewrite length_insert, length_replicate.
  - apply Forall_insert; [apply Forall_replicate|]; unfold U32_MAX; lia.
  - intros _. rewrite (sum_insert _ _ 0), sum_replicate_zero; [done|].
    apply lookup_replicate_2. unfold METRIC_SKETCH_BINS. lia.
Qed.
Lemma sum_bins_nonneg l : Forall (λ b, 0 ≤ b ≤ U32_MAX) l → 0 ≤ sum_map id l.
Proof. induction 1 as [|b l Hb _ IH]; [done|]. rewrite sum_map_cons. change (id b) with b. lia. Qed.
Lemma zip_bins_ok l1 : ∀ l2, length l1 = length l2 →
  Forall (λ b, 0 ≤ b ≤ U32_MAX) l1 → Forall (λ b, 0 ≤ b ≤ U32_MAX) l2 →
  let l := zip_with (λ bin other, sat_u32 (bin + other)) l1 l2 in
  Forall (λ b, 0 ≤ b ≤ U32_MAX) l
  ∧ (sum_map id l1 + sum_map id l2 ≤ U32_MAX → sum_map id l = sum_map id l1 + sum_map id l2).
Proof.
  induction l1 as [|x l1 IH]; intros [|y l2] Hl H1 H2; try done.
  apply Forall_cons in H1 as [Hx H1], H2 as [Hy H2].
  destruct (IH l2) as [IH1 IH2]; [by injection Hl|done..|]. cbn zeta in *. cbn [zip_with]. split.
  - constructor; [|done]. unfold sat_u32, saturate. lia.
  - pose proof (sum_bins_nonneg _ H1). pose proof (sum_bins_nonneg _ H2).
    rewrite !sum_map_cons. change (id ?z) with z. intros Hs.
    rewrite IH2 by lia. unfold sat_u32, saturate. lia.
Qed.

(** Aggregates stay well formed: a measurement makes one of its kind with
    count one in a bin that exists; two merge exactly when they have the same
    kind, and what results has that kind, the exact or saturated count, and for
    a distribution bins that still add up to the count. *)
Theorem metric_aggregate_invariant :
  (∀ kind value, aggregate_ok (from_measurement kind value)
     ∧ aggregate_kind (from_measurement kind value) = kind
     ∧ aggregate_count (from_measurement kind value) = 1)
  ∧ (∀ a b, is_Some (aggregate_merge a b) ↔ aggregate_kind a = aggregate_kind b)
  ∧ (∀ a b c, aggregate_merge a b = Some c →
       aggregate_kind c = aggregate_kind a
       ∧ aggregate_count c = sat_u64 (aggregate_count a + aggregate_count b)
       ∧ (aggregate_ok a → aggregate_ok b → aggregate_ok c)).
Proof.
  split_and!.
  - intros kind value. split; [apply from_measurement_ok|by destruct kind].
  - intros [] []; cbn; split; try done; by intros [? ?].
  - intros [] []; cbn; intros c [= <-]; (split; [done|]); (split; [done|]);
      intros [Ha Ha'] [Hb Hb']; cbn in *; (split; [cbn; unfold sat_u64, saturate; lia|]); try done.
    destruct Ha' as (Hl1 & Hf1 & Hs1), Hb' as (Hl2 & Hf2 & Hs2).
    destruct (zip_bins_ok bins bins0) as [Hf Hs]; [congruence|done..|].
    split_and!; [|done|].
    + rewrite length_zip_with, Hl1, Hl2. done.
    + unfold sat_u64, saturate, U32_MAX, U64_MAX in *. intros Hc.
      rewrite Hs1, Hs2 in Hs by lia. rewrite Hs by lia. lia.
Qed.

Lemma merge_union a b :
  keyed (mb_deltas a) → keyed (mb_deltas b) →
  mb_deltas (metric_batch_merge a b)
    = union_with (λ x y, Some (delta_merge x y)) (mb_deltas a) (mb_deltas b)
  ∧ keyed (mb_deltas (metric_batch_merge a b))
  ∧ metric_batch_len (metric_batch_merge a b) ≤ metric_batch_len a + metric_batch_len b.
Proof.
  intros Ha Hb.
  assert (mb_deltas (metric_batch_merge a b)
    = union_with (λ x y, Some (delta_merge x y)) (mb_deltas a) (mb_deltas b)) as E.
  { apply map_eq. intros k. cbn. rewrite push_deltas_lookup by by apply keyed_values.
    rewrite keyed_find, lookup_union_with by done.
    by destruct (mb_deltas a !! k), (mb_deltas b !! k). }
  split; [done|]. split.
  - intros k d. rewrite E, lookup_union_with.
    destruct (mb_deltas a !! k) eqn:Ea, (mb_deltas b !! k) eqn:Eb; cbn; intros [= <-];
      rewrite ?delta_merge_key; first [by apply Ha|by apply Hb].
  - unfold metric_batch_len. rewrite E, <- !size_dom.
    assert (dom (union_with (λ x y, Some (delta_merge x y)) (mb_deltas a) (mb_deltas b))
            =@{gset (bytes * Z)} dom (mb_deltas a) ∪ dom (mb_deltas b)) as ->.
    { apply set_eq. intros k. rewrite elem_of_union, !elem_of_dom, lookup_union_with.
      destruct (mb_deltas a !! k), (mb_deltas b !! k); cbn; unfold is_Some; naive_solver. }
    pose proof (size_union_alt (dom (mb_deltas a)) (dom (mb_deltas b) : gset (bytes * Z))) as Hu.
    rewrite Hu.
    assert (size (dom (mb_deltas b) ∖ dom (mb_deltas a) : gset (bytes * Z))
            ≤ size (dom (mb_deltas b) : gset (bytes * Z)))%nat by (apply subseteq_size; set_solver).
    lia.
Qed.
(** A merge of two batches is the union of their maps: an entry of one is
    kept, entries of both are merged, newer into older; the result is again
    keyed by its own deltas, and the counters of measurements add up. *)
Theorem metric_batch_merge_union a b :
  keyed (mb_deltas a) → keyed (mb_deltas b) →
  mb_deltas (metric_batch_merge a b)
    = union_with (λ x y, Some (delta_merge x y)) (mb_deltas a) (mb_deltas b)
  ∧ keyed (mb_deltas (metric_batch_merge a b))
  ∧ metric_batch_len (metric_batch_merge a b) ≤ metric_batch_len a + metric_batch_len b.
Proof. apply merge_union. Qed.
Lemma push_keyed m d : keyed m → keyed (push_delta m d).
Proof.
  intros Hm k d'. rewrite push_delta_lookup. case_bool_decide as E; [|apply Hm].
  intros [= <-]. destruct (m !! k) eqn:Ek; [|done]. rewrite delta_merge_key. by apply Hm.
Qed.
End metrics.

Definition sample_delta (value : Z) : MetricDelta :=
  {| md_series := {| ms_project_id := 1; ms_name := lit "requests"; ms_kind := Distribution;
                     ms_unit := lit "none"; ms_tags := [] |};
     md_bucket_start := 0; md_bucket_width_seconds := 60; md_received_at := value;
     md_trace_id := None;
     md_aggregate := @from_measurement (λ x, x) Distribution (f64_of_i64 value) |}.
Definition sample_batch (value : Z) : MetricDeltaBatch :=
  @metric_batch_push (λ input, take 32 (input ++ replicate 32 0)) metric_batch_default
    (sample_delta value).
Lemma metric_batch_merge_union_witness :
  let digest : Blake3 := λ input, take 32 (input ++ replicate 32 0) in
  metric_batch_len (metric_batch_merge (sample_batch 1) (sample_batch 2)) ≤ 2
  ∧ map (λ kd, aggregate_count (md_aggregate kd.2))
      (map_to_list (mb_deltas (metric_batch_merge (sample_batch 1) (sample_batch 2)))) = [2].
Proof.
  intros digest. split; [|vm_compute; reflexivity].
  assert (∀ value, keyed (mb_deltas (sample_batch value))) as Hk.
  { intros value. unfold sample_batch. cbn [mb_deltas metric_batch_push]. apply push_keyed.
    intros k d E. inversion E. }
  pose proof (@metric_batch_merge_union digest (sample_batch 1) (sample_batch 2) (Hk 1) (Hk 2))
    as (_ & _ & H).
  vm_compute in H. vm_compute. exact H.
Defined.
