(* ===== verification/SignalWriters.v ===== *)
(** * The span and log writers

    [application/src/span_writer.rs] and [log_writer.rs]: the micro-batching
    actor ([Writers]) for the records of the signal lanes, with the estimate of
    a record's size, and the admission in front of it, which takes all the
    records of a request or none. *)
From stdpp Require Import base list numbers strings sets.
From Stdlib Require Import ZArith Lia.
From S2P Require Import Prelude Primitives Effects Writers EventWriter Signals.

Open Scope prog_scope.

Inductive SignalStoreError :=
| SgNotFound | SgConflict | SgInvalidData | SgCapacity | SgUnavailable.
Abbreviation SignalReply := (result SignalStoreError DurableOutcome).
Abbreviation SignalOutcomes := (result SignalStoreError (list DurableOutcome)).

Record SignalWriterConfig := {
  sw_channel_capacity : Z;
  sw_max_wait : duration;
  sw_max_documents : Z;
  sw_max_bytes : Z;
  sw_operation_timeout : duration;
  sw_shutdown_drain : duration;
}.
Definition signal_writer_default : SignalWriterConfig :=
  {| sw_channel_capacity := 512; sw_max_wait := 20 * NANOS_PER_MILLI; sw_max_documents := 250;
     sw_max_bytes := 8 * 1024 * 1024; sw_operation_timeout := 10000 * NANOS_PER_MILLI;
     sw_shutdown_drain := 10000 * NANOS_PER_MILLI |}.
Definition validate_signal_writer (overhead : Z) (c : SignalWriterConfig) : bool :=
  (0 <? sw_channel_capacity c) && in_range 1 500 (sw_max_documents c)
  && (overhead <=? sw_max_bytes c) && negb (sw_max_wait c =? 0)
  && negb (sw_operation_timeout c =? 0) && negb (sw_shutdown_drain c =? 0).

(** ** The sizes of records *)

Definition SPAN_RECORD_OVERHEAD_BYTES : Z := 224.
Definition LOG_RECORD_OVERHEAD_BYTES : Z := 192.
(** [fold(0, usize::saturating_add)]. *)
Definition saturating_sum (sizes : list Z) : Z := foldl (λ acc size, sat_u64 (acc + size)) 0 sizes.
Definition optional_len (s : option str) : Z := match s with Some s => len s | None => 0 end.
Definition estimated_span_bytes (record : SpanRecord) : Z :=
  saturating_sum [len (sr_operation record); len (sr_status record); len (sr_name record);
                  optional_len (sr_environment record); optional_len (sr_release record);
                  optional_len (sr_service record); len (sr_body record);
                  SPAN_RECORD_OVERHEAD_BYTES].
Definition estimated_log_bytes (record : LogRecord) : Z :=
  saturating_sum [len (lr_message record); optional_len (lr_environment record);
                  optional_len (lr_release record); optional_len (lr_service record);
                  len (lr_body record); LOG_RECORD_OVERHEAD_BYTES].

(** ** The sink *)

Inductive RecordSinkCall (P : Type) :=
| SinkIsAccepting | SinkIsShutdown
| TryReserveMany (count : Z)
| SendReserved (record : P) (response : nat)
| AwaitOutcome (response : nat).
Arguments SinkIsAccepting {P}.
Arguments SinkIsShutdown {P}.
Arguments TryReserveMany {P} count.
Arguments SendReserved {P} record response.
Arguments AwaitOutcome {P} response.
Definition record_sink_answer {P} (c : RecordSinkCall P) : Type :=
  match c with
  | SinkIsAccepting | SinkIsShutdown | TryReserveMany _ => bool
  | SendReserved _ _ => unit
  | AwaitOutcome _ => option SignalReply
  end.
Definition RecordSinkSig (P : Type) : signature := Signature (RecordSinkCall P) record_sink_answer.

Section sink.
Context {P : Type} (estimated_bytes : P → Z) (max_batch_bytes : Z).
Abbreviation Sink := (RecordSinkSig P).

Definition sink_is_accepting : prog Sink bool :=
  accepting ← perform (E := Sink) SinkIsAccepting;
  if (accepting : bool) then
    cancelled ← perform (E := Sink) SinkIsShutdown; mret (negb cancelled)
  else mret false.
Fixpoint send_all (records : list P) (response : nat) : prog Sink unit :=
  match records with
  | [] => mret tt
  | record :: records =>
      _ ← perform (E := Sink) (SendReserved record response); send_all records (S response)
  end.
(** The answers in order: the first error is the answer. *)
Fixpoint await_all (count response : nat) (outcomes : list DurableOutcome)
    : prog Sink SignalOutcomes :=
  match count with
  | O => mret (Ok outcomes)
  | S count =>
      received ← perform (E := Sink) (AwaitOutcome response);
      match received with
      | Some (Ok outcome) => await_all count (S response) (outcomes ++ [outcome])
      | Some (Err error) => mret (Err error)
      | None => mret (Err SgUnavailable)
      end
  end.
Definition persist_records (records : list P) : prog Sink SignalOutcomes :=
  if is_empty records then mret (Ok [])
  else
    accepting ← sink_is_accepting;
    if negb accepting then mret (Err SgUnavailable)
    else if existsb (λ record, max_batch_bytes <? estimated_bytes record) records
    then mret (Err SgInvalidData)
    else
      reserved ← perform (E := Sink) (TryReserveMany (len records));
      if negb (reserved : bool) then mret (Err SgCapacity)
      else _ ← send_all records 0; await_all (length records) 0 [].
End sink.
Definition persist_spans (c : SignalWriterConfig) := persist_records estimated_span_bytes (sw_max_bytes c).
Definition persist_logs (c : SignalWriterConfig) := persist_records estimated_log_bytes (sw_max_bytes c).

(** ** The actor *)

Section signal_writer.
Context {P : Type} (estimated_bytes : P → Z) (config : SignalWriterConfig) (answers_carry : bool).
Abbreviation Sig := (WriterSig P (list P) SignalOutcomes SignalReply).
Abbreviation actor := (prog Sig).

Definition signal_can_push (b : Batch P) (command : Command P) : bool :=
  (len (ba_commands b) <? sw_max_documents config)
  && (sat_u64 (ba_bytes b + estimated_bytes (cm_item command)) <=? sw_max_bytes config).
Fixpoint signal_reject (commands : list (Command P)) (error : SignalStoreError) : actor unit :=
  match commands with
  | [] => mret tt
  | command :: commands =>
      _ ← await (Respond command (Err error)); signal_reject commands error
  end.
Fixpoint signal_answer (commands : list (Command P)) (outcomes : list DurableOutcome)
    : actor unit :=
  match commands, outcomes with
  | command :: commands, outcome :: outcomes =>
      _ ← await (Respond command (Ok outcome)); signal_answer commands outcomes
  | _, _ => mret tt
  end.
Definition signal_flushed (commands : list (Command P)) (r : option SignalOutcomes) : actor unit :=
  match r with
  | Some (Ok outcomes) =>
      if len outcomes =? len commands then signal_answer commands outcomes
      else signal_reject commands SgUnavailable
  | Some (Err error) => signal_reject commands error
  | None => signal_reject commands SgUnavailable
  end.
#[export] Instance signal_writer_ops : WriterOps P SignalOutcomes SignalReply := {|
  wo_max_documents := sw_max_documents config;
  wo_size := estimated_bytes;
  wo_can_push := signal_can_push;
  wo_flushed := signal_flushed;
  wo_unavailable := Err SgUnavailable;
  wo_answers_carry := answers_carry |}.
End signal_writer.

(** The span writer answers the command a late drain carries, the log writer
    drops it. *)
Definition span_writer (c : SignalWriterConfig) : WriterOps SpanRecord SignalOutcomes SignalReply :=
  signal_writer_ops estimated_span_bytes c true.
Definition log_writer (c : SignalWriterConfig) : WriterOps LogRecord SignalOutcomes SignalReply :=
  signal_writer_ops estimated_log_bytes c false.
Definition run_span_writer (c : SignalWriterConfig) := run_writer (WriterOps0 := span_writer c).
Definition run_log_writer (c : SignalWriterConfig) := run_writer (WriterOps0 := log_writer c).

(** ** The laws *)

Section laws.
Context {P : Type} (estimated_bytes : P → Z) (config : SignalWriterConfig) (answers_carry : bool).
Abbreviation Sig := (WriterSig P (list P) SignalOutcomes SignalReply).
Abbreviation history := (list (event Sig)).
Abbreviation inv := (inv (S := SignalOutcomes) (R := SignalReply) id).
#[local] Instance ops : WriterOps P SignalOutcomes SignalReply :=
  signal_writer_ops estimated_bytes config answers_carry.
Implicit Types (h : history) (p a d : list (Command P)).

(** A reply is the store's for that record, the store's error, or the error of a
    record that may not be stored. *)
Definition signal_told h (item : P) (reply : SignalReply) : Prop :=
  match reply with
  | Ok outcome => ∃ batch outcomes i, store_answered h batch (Some (Ok outcomes))
                    ∧ batch !! i = Some item ∧ outcomes !! i = Some outcome
  | Err SgUnavailable => True
  | Err error => ∃ batch, store_answered h batch (Some (Err error)) ∧ item ∈ batch
  end.
Definition signal_offered h (item : P) : Prop := False.
Abbreviation guar := (writer_guar (sw_max_bytes config) signal_told signal_offered).

Lemma store_answered_app h h' batch (r : option SignalOutcomes) :
  store_answered h batch r → store_answered (h ++ h') batch r.
Proof. intros [H|H]; [left|right]; by apply answered_app. Qed.
Lemma signal_told_app h h' item reply : signal_told h item reply → signal_told (h ++ h') item reply.
Proof.
  destruct reply as [outcome|[]]; cbn; try done.
  - intros (b & os & i & H & ?). exists b, os, i. by split; [apply store_answered_app|].
  - intros (b & H & ?). exists b. by split; [apply store_answered_app|].
  - intros (b & H & ?). exists b. by split; [apply store_answered_app|].
  - intros (b & H & ?). exists b. by split; [apply store_answered_app|].
  - intros (b & H & ?). exists b. by split; [apply store_answered_app|].
Qed.
Lemma signal_reject_sat cs error post h p d a :
  (∀ c, c ∈ cs → signal_told h (cm_item c) (Err error)) →
  inv h (cs ++ p) d a → (∀ h', inv h' p d a → post h' tt) →
  sat guar post h (signal_reject cs error).
Proof.
  revert h. induction cs as [|c cs IH]; intros h Ht Hi Hp; [by apply Hp|]. cbn [signal_reject].
  apply sat_call; [split; [by eapply inv_waits|apply Ht; left]|]. intros [].
  apply IH; [|by apply inv_respond|done]. intros c' Hc'. apply signal_told_app, Ht. by right.
Qed.
Lemma signal_answer_sat cs outcomes post h p d a :
  (∀ i c o, cs !! i = Some c → outcomes !! i = Some o → signal_told h (cm_item c) (Ok o)) →
  length cs = length outcomes → inv h (cs ++ p) d a → (∀ h', inv h' p d a → post h' tt) →
  sat guar post h (signal_answer cs outcomes).
Proof.
  revert outcomes h. induction cs as [|c cs IH]; intros [|o os] h Ht Hl Hi Hp; try done;
    [by apply Hp|]. cbn [signal_answer].
  apply sat_call; [split; [by eapply inv_waits|by apply (Ht 0%nat)]|]. intros [].
  apply IH; [|by injection Hl|by apply inv_respond|done].
  intros i c' o' Hc' Ho'. apply signal_told_app. by apply (Ht (S i)).
Qed.
Lemma signal_flushed_sat cs r post h p d a :
  store_answered h (map cm_item cs) r → inv h (cs ++ p) d a →
  (∀ h', inv h' p d a → post h' tt) → sat guar post h (signal_flushed cs r).
Proof.
  intros Ht Hi Hp. unfold signal_flushed. destruct r as [[outcomes|error]|].
  - destruct (Z.eqb_spec (len outcomes) (len cs)) as [El|]; [|by eapply signal_reject_sat].
    eapply signal_answer_sat; [|unfold len in El; lia|done|done].
    intros i c o Hc Ho. exists (map cm_item cs), outcomes, i.
    split_and!; [done|by rewrite list_lookup_fmap, Hc|done].
  - eapply signal_reject_sat; [|done|done]. intros c Hc.
    assert (cm_item c ∈ map cm_item cs) by (apply list_elem_of_fmap; eauto).
    destruct error; cbn; try done; by exists (map cm_item cs).
  - by eapply signal_reject_sat.
Qed.

Abbreviation anything := (λ (_ : history) (_ : call Sig), True).
Lemma signal_reject_receives cs error h :
  sat anything (λ h' _, received h' = received h) h (signal_reject cs error).
Proof.
  revert h. induction cs as [|c cs IH]; intros h; [done|]. cbn [signal_reject].
  split; [done|]. intros x. cbn. eapply sat_mono; [done| |apply IH].
  intros h' ? ->. by apply received_silent.
Qed.
Lemma signal_answer_receives cs outcomes h :
  sat anything (λ h' _, received h' = received h) h (signal_answer cs outcomes).
Proof.
  revert outcomes h. induction cs as [|c cs IH]; intros [|o os] h; try done. cbn [signal_answer].
  split; [done|]. intros x. cbn. eapply sat_mono; [done| |apply IH].
  intros h' ? ->. by apply received_silent.
Qed.

Lemma signal_writer_laws overhead :
  (∀ item, 0 ≤ estimated_bytes item ≤ U64_MAX) →
  validate_signal_writer overhead config = true → sw_max_bytes config < U64_MAX →
  WriterLaws (sw_max_bytes config) signal_told signal_offered.
Proof.
  intros Hlen Hv Hbytes. unfold validate_signal_writer in Hv. bool_prop. split.
  - exact Hlen.
  - cbn. lia.
  - done.
  - intros b command Hne. cbn. unfold signal_can_push. intros Hc. by bool_prop.
  - done.
  - intros cs r post h p d a. apply signal_flushed_sat.
  - intros cs r h. cbn. unfold signal_flushed. destruct r as [[outcomes|]|];
      try apply signal_reject_receives.
    destruct (_ =? _); [apply signal_answer_receives|apply signal_reject_receives].
Qed.
End laws.

(** ** Theorems *)

Lemma saturating_sum_bounds sizes : 0 ≤ saturating_sum sizes ≤ U64_MAX.
Proof.
  unfold saturating_sum. assert (∀ acc, 0 ≤ acc ≤ U64_MAX →
    0 ≤ foldl (λ acc size, sat_u64 (acc + size)) acc sizes ≤ U64_MAX) as H; [|apply H; unfold U64_MAX; lia].
  induction sizes as [|s sizes IH]; intros acc Ha; [done|]. cbn. apply IH.
  unfold sat_u64, saturate, U64_MAX in *. lia.
Qed.

Lemma estimated_span_bounds record : 0 ≤ estimated_span_bytes record ≤ U64_MAX.
Proof. unfold estimated_span_bytes. apply saturating_sum_bounds. Qed.
Lemma estimated_log_bounds record : 0 ≤ estimated_log_bytes record ≤ U64_MAX.
Proof. unfold estimated_log_bytes. apply saturating_sum_bounds. Qed.

(** The span and the log writer, whatever the channel, the timer, the store
    and the shutdown do, answer a command only while it waits, with the outcome
    the store gave its own record or the error of its own batch, or with
    unavailability; batches keep their bounds and the order of the channel; and
    when the task ends every command was answered, unless the drain deadline
    interrupted a store. *)
Theorem signal_writers_answer_once config fuel :
  sw_max_bytes config < U64_MAX →
  (validate_signal_writer SPAN_RECORD_OVERHEAD_BYTES config = true →
   let _ := span_writer config in
   sat (writer_guar (sw_max_bytes config) signal_told signal_offered) settled []
     (run_span_writer config fuel None))
  ∧ (validate_signal_writer LOG_RECORD_OVERHEAD_BYTES config = true →
     let _ := log_writer config in
     sat (writer_guar (sw_max_bytes config) signal_told signal_offered) settled []
       (run_log_writer config fuel None)).
Proof.
  intros Hbytes. unfold run_span_writer, run_log_writer, span_writer, log_writer.
  split; intros Hv.
  - pose proof (signal_writer_laws estimated_span_bytes config true _
                  estimated_span_bounds Hv Hbytes) as Hlaws.
    eapply (run_writer_sat (sw_max_bytes config) signal_told signal_offered) with (d := []).
    apply inv_start.
  - pose proof (signal_writer_laws estimated_log_bytes config false _
                  estimated_log_bounds Hv Hbytes) as Hlaws.
    eapply (run_writer_sat (sw_max_bytes config) signal_told signal_offered) with (d := []).
    apply inv_start.
Qed.
Lemma signal_writers_answer_once_witness :
  let _ := span_writer signal_writer_default in
  sat (writer_guar (8 * 1024 * 1024) signal_told signal_offered) settled []
    (run_span_writer signal_writer_default 3 None).
Proof.
  apply (signal_writers_answer_once signal_writer_default 3); [vm_compute; reflexivity|reflexivity].
Defined.

(** ** Admission is all or nothing *)

Section admission.
Context {P : Type} (estimated_bytes : P → Z) (max_batch_bytes : Z).
Abbreviation Sink := (RecordSinkSig P).
Abbreviation history := (list (event Sink)).
Implicit Types (h : history).

(** The records a request gave to the channel. *)
Definition sent_of (e : event Sink) : option P :=
  match projT1 e with SendReserved record _ => Some record | _ => None end.
Definition sent h : list P := omap sent_of h.
Definition admitted h (records : list P) : Prop :=
  answered (E := Sink) SinkIsAccepting true h ∧ answered (E := Sink) SinkIsShutdown false h
  ∧ answered (E := Sink) (TryReserveMany (len records)) true h.
Definition sink_guar (records : list P) h (c : RecordSinkCall P) : Prop :=
  match c with
  | SendReserved record response => admitted h records ∧ records !! response = Some record
  | AwaitOutcome response => sent h = records ∧ (response < length records)%nat
  | _ => True
  end.
Definition sink_post (records : list P) h (r : SignalOutcomes) : Prop :=
  (sent h = [] ∨ sent h = records)
  ∧ ∀ outcomes, r = Ok outcomes → sent h = records ∧ length outcomes = length records
    ∧ ∀ i outcome, outcomes !! i = Some outcome →
        answered (E := Sink) (AwaitOutcome i) (Some (Ok outcome)) h.

Lemma sent_snoc h e :
  sent (h ++ [e]) = sent h ++ match sent_of e with Some r => [r] | None => [] end.
Proof. apply omap_snoc. Qed.
Lemma sent_silent h c x : sent_of (existT (P := answer Sink) c x) = None →
  sent (h ++ [existT (P := answer Sink) c x]) = sent h.
Proof. intros H. etrans; [apply sent_snoc|]. by rewrite H, app_nil_r. Qed.
Lemma await_all_sat records count response outcomes h :
  sent h = records → (count + response = length records)%nat → length outcomes = response →
  (∀ i outcome, outcomes !! i = Some outcome →
     answered (E := Sink) (AwaitOutcome i) (Some (Ok outcome)) h) →
  sat (sink_guar records) (sink_post records) h (await_all count response outcomes).
Proof.
  revert response outcomes h. induction count as [|count IH]; intros response outcomes h Hs Hc Ho Ha;
    cbn [await_all].
  - split; [by right|]. intros os [= <-]. split_and!; [done|lia|done].
  - split; [split; [done|lia]|]. intros x.
    assert (sent (h ++ [existT (P := answer Sink) (AwaitOutcome response) x]) = records) as Hs'
      by (etrans; [by apply sent_silent|done]).
    destruct x as [[outcome|error]|]; cbn.
    + apply IH; [done|lia|rewrite length_app; cbn; lia|].
      intros i o Hi. apply lookup_app_Some in Hi as [Hi|[Hl Hi]]; [by apply answered_app, Ha|].
      apply list_lookup_singleton_Some in Hi as [Hi <-].
      assert (i = response) as -> by lia. apply (answered_last (E := Sink)).
    + split; [by right|done].
    + split; [by right|done].
Qed.
Lemma send_all_sat records todo response post h :
  admitted h records → drop response records = todo → sent h = take response records →
  (∀ h', sent h' = records → post h' tt) →
  sat (sink_guar records) post h (send_all todo response).
Proof.
  revert response h. induction todo as [|record todo IH]; intros response h Ha Hd Hs Hp;
    cbn [send_all].
  - apply Hp. rewrite Hs. rewrite <- (take_drop response records) at 2. by rewrite Hd, app_nil_r.
  - assert (records !! response = Some record) as Hr.
    { rewrite <- (Nat.add_0_r response), <- lookup_drop, Hd. done. }
    split; [by split|]. intros []. cbn. apply IH; [|..|done].
    + destruct Ha as (H1 & H2 & H3). split_and!; by apply answered_app.
    + rewrite <- drop_drop with (i := 1%nat) || idtac.
      rewrite <- Nat.add_1_r, <- drop_drop, Hd. done.
    + etrans; [apply sent_snoc|]. cbn. rewrite Hs. by rewrite (take_S_r _ _ record).
Qed.

(** A request of records is admitted whole or not at all: the channel gets
    no record, or all of them in order, and only after the writer accepted, was
    not shut down and had room for all; a success has one outcome per record,
    each the writer's answer for that record; an empty request stores nothing. *)
Theorem records_admitted_whole records :
  sat (sink_guar records) (sink_post records) []
    (persist_records estimated_bytes max_batch_bytes records).
Proof.
  unfold persist_records. destruct (is_empty records) eqn:Ee.
  { apply is_empty_true in Ee as ->. split; [by left|]. by intros os [= <-]. }
  apply sat_bind. unfold sink_is_accepting.
  split; [done|]. intros []; cbn; [|split; [by left|done]].
  split; [done|]. intros []; cbn; [split; [by left|done]|].
  destruct (existsb _ records); cbn; [split; [by left|done]|].
  split; [done|]. intros []; cbn; [|split; [by left|done]].
  apply sat_bind, send_all_sat; [|done|done|].
  - split_and!; unfold answered; set_solver.
  - intros h' Hs. apply await_all_sat; [done|lia|done|done].
Qed.
End admission.
