(* ===== verification/BatchWriters.v ===== *)
(** * The session and monitor writers

    [application/src/session_writer.rs] and [monitor_writer.rs]: actors whose
    commands are themselves lists of updates.  The updates of the commands are
    stored as one list, and each sender gets the slice of the outcomes that is
    its own.  The calls are those of [Writers]. *)
From stdpp Require Import base list numbers strings sets.
From Stdlib Require Import ZArith Lia.
From S2P Require Import Prelude Primitives Effects Writers EventWriter SignalWriters.

Open Scope prog_scope.

Record BatchWriterConfig := {
  bw_channel_capacity : Z;
  bw_max_wait : duration;
  bw_max_updates : Z;
  bw_operation_timeout : duration;
  bw_shutdown_drain : duration;
}.
Definition session_writer_default : BatchWriterConfig :=
  {| bw_channel_capacity := 512; bw_max_wait := 20 * NANOS_PER_MILLI; bw_max_updates := 250;
     bw_operation_timeout := 10000 * NANOS_PER_MILLI;
     bw_shutdown_drain := 10000 * NANOS_PER_MILLI |}.
Definition monitor_writer_default : BatchWriterConfig :=
  {| bw_channel_capacity := 1024; bw_max_wait := 5 * NANOS_PER_MILLI; bw_max_updates := 200;
     bw_operation_timeout := 5000 * NANOS_PER_MILLI;
     bw_shutdown_drain := 10000 * NANOS_PER_MILLI |}.
(** The test both [start] functions make. *)
Definition validate_batch_writer (c : BatchWriterConfig) : bool :=
  negb ((bw_channel_capacity c =? 0) || (bw_max_updates c =? 0) || (bw_max_wait c =? 0)
        || (bw_operation_timeout c =? 0) || (bw_shutdown_drain c =? 0)).

(** ** The sinks *)

Inductive BatchSinkCall (P : Type) :=
| BatchAccepting | BatchShutdown | TryReserve | SendBatch (updates : P) | AwaitBatch.
Arguments BatchAccepting {P}.
Arguments BatchShutdown {P}.
Arguments TryReserve {P}.
Arguments SendBatch {P} updates.
Arguments AwaitBatch {P}.
Definition batch_sink_answer {P} (R : Type) (c : BatchSinkCall P) : Type :=
  match c with
  | BatchAccepting | BatchShutdown | TryReserve => bool
  | SendBatch _ => unit
  | AwaitBatch => option (result SignalStoreError R)
  end.
Definition BatchSinkSig (P R : Type) : signature :=
  Signature (BatchSinkCall P) (batch_sink_answer R).
(** [persist_sessions], [persist_monitors] and [persist_metrics]: the size of a
    request, its greatest size, and the answer to an empty one. *)
Definition persist_batch {P R} (size maximum : Z) (empty : R) (updates : P)
    : prog (BatchSinkSig P R) (result SignalStoreError R) :=
  if size =? 0 then mret (Ok empty)
  else if maximum <? size then mret (Err SgInvalidData)
  else
    accepting ← perform (E := BatchSinkSig P R) BatchAccepting;
    stopped ← (if (accepting : bool) then perform (E := BatchSinkSig P R) BatchShutdown
               else mret true);
    if (stopped : bool) then mret (Err SgUnavailable)
    else
      reserved ← perform (E := BatchSinkSig P R) TryReserve;
      if negb (reserved : bool) then mret (Err SgCapacity)
      else
        _ ← perform (E := BatchSinkSig P R) (SendBatch updates);
        received ← perform (E := BatchSinkSig P R) AwaitBatch;
        mret match received with Some reply => reply | None => Err SgUnavailable end.

(** ** The actors *)

Section batch_writers.
Context {X : Type} (config : BatchWriterConfig).
Abbreviation Sig := (WriterSig (list X) (list X) SignalOutcomes SignalOutcomes).
Abbreviation actor := (prog Sig).
Abbreviation command := (Command (list X)).

Definition updates_of (commands : list command) : list X := concat (map cm_item commands).
Definition update_count (c : command) : Z := len (cm_item c).

Fixpoint reject_commands (commands : list command) (error : SignalStoreError) : actor unit :=
  match commands with
  | [] => mret tt
  | c :: commands => _ ← await (Respond c (Err error)); reject_commands commands error
  end.
Definition slice (offset count : nat) (outcomes : list DurableOutcome) : list DurableOutcome :=
  take count (drop offset outcomes).
Fixpoint answer_slices (commands : list command) (offset : nat) (outcomes : list DurableOutcome)
    : actor unit :=
  match commands with
  | [] => mret tt
  | c :: commands =>
      _ ← await (Respond c (Ok (slice offset (length (cm_item c)) outcomes)));
      answer_slices commands (offset + length (cm_item c)) outcomes
  end.
(** [flush] of the session writer. *)
Definition session_flush (commands : list command) : actor unit :=
  r ← await (StoreBatch (updates_of commands));
  match r with
  | Some (Ok outcomes) =>
      if len outcomes =? len (updates_of commands) then answer_slices commands 0 outcomes
      else reject_commands commands SgUnavailable
  | Some (Err error) => reject_commands commands error
  | None => reject_commands commands SgUnavailable
  end.
(** [persist] of the monitor writer: a sender whose slice is there gets it. *)
Definition monitor_reply (c : command) (offset : nat) (r : SignalOutcomes) : SignalOutcomes :=
  match r with
  | Ok outcomes =>
      if (offset + length (cm_item c) <=? length outcomes)%nat
      then Ok (slice offset (length (cm_item c)) outcomes)
      else Err SgUnavailable
  | Err error => Err error
  end.
Fixpoint monitor_answers (commands : list command) (offset : nat) (r : SignalOutcomes)
    : actor unit :=
  match commands with
  | [] => mret tt
  | c :: commands =>
      _ ← await (Respond c (monitor_reply c offset r));
      monitor_answers commands (offset + length (cm_item c)) r
  end.
Definition monitor_persist (commands : list command) : actor unit :=
  r ← await (StoreBatch (updates_of commands));
  monitor_answers commands 0 (match r with Some r => r | None => Err SgUnavailable end).

(** A task followed for some turns; a paused one holds commands. *)
Inductive batch_task := BatchEnded | BatchPaused (held : list command).

Fixpoint batch_reject_queued (fuel : nat) : actor batch_task :=
  match fuel with
  | O => mret (BatchPaused [])
  | S fuel =>
      c ← await TryRecv;
      match c with
      | Some c => _ ← await (Respond c (Err SgUnavailable)); batch_reject_queued fuel
      | None => mret BatchEnded
      end
  end.

(** [None]: the turns ran out with the commands in hand. *)
Fixpoint session_collect (fuel : nat) (commands : list command) (updates : Z)
    : actor (list command * bool) :=
  if updates <? bw_max_updates config then
    match fuel with
    | O => mret (commands, false)
    | S fuel =>
        more ← await SelectMore;
        match more with
        | MoreCancelled => _ ← await StopAccepting; mret (commands, true)
        | MoreDeadline | MoreReceived None => mret (commands, true)
        | MoreReceived (Some c) =>
            if updates + update_count c <=? bw_max_updates config
            then session_collect fuel (commands ++ [c]) (updates + update_count c)
            else _ ← session_flush commands; mret ([c], true)
        end
    end
  else mret (commands, true).
Fixpoint session_drain_more (fuel : nat) (commands : list command) (count : Z)
    : actor (list command * bool) :=
  if count <? bw_max_updates config then
    match fuel with
    | O => mret (commands, false)
    | S fuel =>
        c ← await TryRecv;
        match c with
        | None => mret (commands, true)
        | Some c =>
            if bw_max_updates config <? count + update_count c
            then _ ← await (Respond c (Err SgUnavailable)); mret (commands, true)
            else session_drain_more fuel (commands ++ [c]) (count + update_count c)
        end
    end
  else mret (commands, true).
Fixpoint session_drain (fuel : nat) : actor batch_task :=
  match fuel with
  | O => mret (BatchPaused [])
  | S fuel =>
      over ← await DrainOver;
      if (over : bool) then batch_reject_queued fuel
      else
        first ← await TryRecv;
        match first with
        | None => mret BatchEnded
        | Some first =>
            r ← session_drain_more fuel [first] (update_count first);
            if r.2 : bool then _ ← session_flush r.1; session_drain fuel
            else mret (BatchPaused r.1)
        end
  end.
Fixpoint session_run (fuel : nat) : actor batch_task :=
  match fuel with
  | O => mret (BatchPaused [])
  | S fuel =>
      first ← await SelectFirst;
      match first with
      | None => _ ← await StopAccepting; session_drain fuel
      | Some None => mret BatchEnded
      | Some (Some first) =>
          r ← session_collect fuel [first] (update_count first);
          if r.2 : bool then
            _ ← session_flush r.1;
            cancelled ← await IsCancelled;
            if (cancelled : bool) then session_drain fuel else session_run fuel
          else mret (BatchPaused r.1)
      end
  end.

Fixpoint monitor_collect (fuel : nat) (commands : list command) (count : Z)
    : actor (list command * bool) :=
  if count <? bw_max_updates config then
    match fuel with
    | O => mret (commands, false)
    | S fuel =>
        more ← await RecvBefore;
        match more with
        | Some (Some c) =>
            if count + update_count c <=? bw_max_updates config
            then monitor_collect fuel (commands ++ [c]) (count + update_count c)
            else _ ← monitor_persist commands; mret ([c], true)
        | _ => mret (commands, true)
        end
    end
  else mret (commands, true).
Fixpoint monitor_drain_loop (fuel : nat) : actor batch_task :=
  match fuel with
  | O => mret (BatchPaused [])
  | S fuel =>
      c ← await TryRecv;
      match c with
      | None => mret BatchEnded
      | Some c =>
          over ← await DrainOver;
          _ ← (if (over : bool) then await (Respond c (Err SgUnavailable))
               else monitor_persist [c]);
          monitor_drain_loop fuel
      end
  end.
Definition monitor_drain (fuel : nat) : actor batch_task :=
  _ ← await CloseReceiver; monitor_drain_loop fuel.
Fixpoint monitor_run (fuel : nat) : actor batch_task :=
  match fuel with
  | O => mret (BatchPaused [])
  | S fuel =>
      first ← await SelectFirst;
      match first with
      | None => _ ← await StopAccepting; monitor_drain fuel
      | Some None => mret BatchEnded
      | Some (Some first) =>
          r ← monitor_collect fuel [first] (update_count first);
          if r.2 : bool then _ ← monitor_persist r.1; monitor_run fuel
          else mret (BatchPaused r.1)
      end
  end.
End batch_writers.

(** ** The ledger *)

Section theory.
Context {X : Type} (config : BatchWriterConfig).
Abbreviation Sig := (WriterSig (list X) (list X) SignalOutcomes SignalOutcomes).
Abbreviation history := (list (event Sig)).
Abbreviation command := (Command (list X)).
Implicit Types (h : history) (p cs : list command).

(** A success is the slice of the outcomes the store gave for the sender's own
    updates, one outcome per update. *)
Definition slice_told h (item : list X) (reply : SignalOutcomes) : Prop :=
  ∀ os, reply = Ok os →
  ∃ batch outcomes offset,
    answered (E := Sig) (StoreBatch batch) (Some (Ok outcomes)) h
    ∧ take (length item) (drop offset batch) = item
    ∧ os = take (length item) (drop offset outcomes) ∧ length os = length item.
(** The commands the sinks let through: some updates, not too many. *)
Definition sized h : Prop :=
  ∀ c, c ∈ received h → 0 < update_count c ≤ bw_max_updates config.
Definition batch_guar h (c : WriterCall (list X) (list X) SignalOutcomes) : Prop :=
  match c with
  | Respond c reply => waits h c ∧ slice_told h (cm_item c) reply
  | StoreBatch batch =>
      (∃ cs rest, received h ≡ₚ responded h ++ cs ++ rest ∧ batch = updates_of cs)
      ∧ (sized h → 0 < len batch ≤ bw_max_updates config)
  | StoreBefore _ | Offer _ => False
  | _ => True
  end.
Definition batch_held (t : batch_task (X := X)) : list command :=
  match t with BatchEnded => [] | BatchPaused held => held end.
(** Nothing is dropped: every command is answered or in hand. *)
Definition batch_settled h (t : batch_task (X := X)) : Prop := ledger h (batch_held t) [].

Lemma sized_app h h' : sized (h ++ h') → sized h.
Proof.
  intros Hs c Hc. apply Hs. unfold received. rewrite omap_app. set_solver.
Qed.
Lemma slice_told_app h h' item reply : slice_told h item reply → slice_told (h ++ h') item reply.
Proof.
  intros Ht os Hos. destruct (Ht os Hos) as (b & outs & off & Ha & ?).
  exists b, outs, off. split; [by apply answered_app|done].
Qed.
Lemma updates_cons (c : command) cs : updates_of (c :: cs) = cm_item c ++ updates_of cs.
Proof. done. Qed.
Lemma updates_snoc cs (c : command) : updates_of (cs ++ [c]) = updates_of cs ++ cm_item c.
Proof. unfold updates_of. rewrite map_app, concat_app. cbn. by rewrite app_nil_r. Qed.

Lemma reject_commands_sat cs error post h p :
  ledger h (cs ++ p) [] → (∀ h', ledger h' p [] → post h' tt) →
  sat batch_guar post h (reject_commands cs error).
Proof.
  revert h. induction cs as [|c cs IH]; intros h Hl Hp; [by apply Hp|]. cbn [reject_commands].
  apply sat_call; [split; [by eapply ledger_waits|done]|]. intros [].
  apply IH; [by apply ledger_respond|done].
Qed.

(** The answers of a batch: [pre] are the updates of the commands before. *)
Lemma answer_slices_sat cs pre batch outcomes post h p :
  answered (E := Sig) (StoreBatch batch) (Some (Ok outcomes)) h →
  batch = pre ++ updates_of cs → length outcomes = length batch →
  ledger h (cs ++ p) [] → (∀ h', ledger h' p [] → post h' tt) →
  sat batch_guar post h (answer_slices cs (length pre) outcomes).
Proof.
  revert pre h. induction cs as [|c cs IH]; intros pre h Ha Hb Ho Hl Hp; [by apply Hp|].
  cbn [answer_slices]. rewrite updates_cons in Hb.
  apply sat_call; [split; [by eapply ledger_waits|]|].
  - intros os [= <-]. exists batch, outcomes, (length pre). split_and!; [done| |done|].
    + by rewrite Hb, drop_app_length, take_app_length.
    + unfold slice. rewrite length_take, length_drop, Ho, Hb, !length_app. lia.
  - intros []. rewrite <- length_app. apply IH; [by apply answered_app| |done| |done].
    + by rewrite <- (assoc_L (++)).
    + by apply ledger_respond.
Qed.
Lemma monitor_answers_sat cs pre batch r post h p :
  (∀ outcomes, r = Ok outcomes →
     answered (E := Sig) (StoreBatch batch) (Some (Ok outcomes)) h) →
  batch = pre ++ updates_of cs →
  ledger h (cs ++ p) [] → (∀ h', ledger h' p [] → post h' tt) →
  sat batch_guar post h (monitor_answers cs (length pre) r).
Proof.
  revert pre h. induction cs as [|c cs IH]; intros pre h Ha Hb Hl Hp; [by apply Hp|].
  cbn [monitor_answers]. rewrite updates_cons in Hb.
  apply sat_call; [split; [by eapply ledger_waits|]|].
  - intros os Hr. destruct r as [outcomes|]; [|done]. cbn in Hr.
    destruct (Nat.leb_spec (length pre + length (cm_item c)) (length outcomes)); [|done].
    injection Hr as <-. exists batch, outcomes, (length pre). split_and!; [by apply Ha| |done|].
    + by rewrite Hb, drop_app_length, take_app_length.
    + unfold slice. rewrite length_take, length_drop. lia.
  - intros []. rewrite <- length_app. apply IH; [|by rewrite <- (assoc_L (++))| |done].
    + intros outcomes Hr. by apply answered_app, Ha.
    + by apply ledger_respond.
Qed.

(** The commands in hand while a batch is gathered. *)
Definition in_hand h cs (count : Z) : Prop :=
  ledger h cs [] ∧ count = len (updates_of cs)
  ∧ (sized h → 0 < count ≤ bw_max_updates config).
Lemma in_hand_guar h cs p count : ledger h (cs ++ p) [] → count = len (updates_of cs) →
  (sized h → 0 < count ≤ bw_max_updates config) → batch_guar h (StoreBatch (updates_of cs)).
Proof.
  intros Hl -> Hs. split; [|done]. exists cs, p. split; [|done].
  unfold ledger in Hl. by rewrite app_nil_r in Hl.
Qed.
Lemma in_hand_first h e c :
  received_of e = Some c → responded_of e = None → ledger h [] [] →
  in_hand (h ++ [e]) [c] (update_count c).
Proof.
  intros H1 H2 Hl. split_and!.
  - by apply (ledger_received h e c [] []).
  - unfold updates_of. cbn. by rewrite app_nil_r.
  - intros Hs. apply Hs. rewrite received_snoc, H1. set_solver.
Qed.
Lemma in_hand_more h e c cs count :
  received_of e = Some c → responded_of e = None → in_hand h cs count →
  ledger (h ++ [e]) (cs ++ [c]) []
  ∧ (count + update_count c ≤ bw_max_updates config →
     in_hand (h ++ [e]) (cs ++ [c]) (count + update_count c)).
Proof.
  intros H1 H2 (Hl & Hc & Hs). split; [by apply ledger_received|]. intros Hmax.
  split_and!; [by apply ledger_received| |].
  - rewrite updates_snoc, len_app, Hc. done.
  - intros Hs'. pose proof (Hs (sized_app _ _ Hs')).
    assert (0 < update_count c ≤ bw_max_updates config); [|lia].
    apply Hs'. rewrite received_snoc, H1. set_solver.
Qed.
Lemma in_hand_one h c : ledger h [c] [] → in_hand h [c] (update_count c).
Proof.
  intros Hl. split_and!; [done| |].
  - unfold updates_of. cbn. by rewrite app_nil_r.
  - intros Hs. apply Hs. unfold ledger in Hl. rewrite Hl. set_solver.
Qed.
Lemma in_hand_silent h e cs count : received_of e = None → responded_of e = None →
  in_hand h cs count → in_hand (h ++ [e]) cs count.
Proof.
  intros H1 H2 (Hl & Hc & Hs). split_and!; [by apply ledger_silent|done|].
  intros Hs'. by eapply Hs, sized_app.
Qed.

Lemma session_flush_sat cs p count post h :
  ledger h (cs ++ p) [] → count = len (updates_of cs) →
  (sized h → 0 < count ≤ bw_max_updates config) →
  (∀ h', ledger h' p [] → post h' tt) → sat batch_guar post h (session_flush cs).
Proof.
  intros Hl Hc Hs Hp. apply sat_call; [by eapply in_hand_guar|]. intros r.
  assert (ledger (h ++ [existT (P := answer Sig) (StoreBatch (updates_of cs)) r]) (cs ++ p) [])
    as Hl' by by apply ledger_silent.
  destruct r as [[outcomes|error]|]; cbn; [|by eapply reject_commands_sat..].
  destruct (Z.eqb_spec (len outcomes) (len (updates_of cs))) as [El|]; [|by eapply reject_commands_sat].
  apply (answer_slices_sat cs [] (updates_of cs)) with (p := p); try done.
  - apply (answered_last (E := Sig)).
  - unfold len in El. lia.
Qed.
Lemma monitor_persist_sat cs p count post h :
  ledger h (cs ++ p) [] → count = len (updates_of cs) →
  (sized h → 0 < count ≤ bw_max_updates config) →
  (∀ h', ledger h' p [] → post h' tt) → sat batch_guar post h (monitor_persist cs).
Proof.
  intros Hl Hc Hs Hp. apply sat_call; [by eapply in_hand_guar|]. intros r.
  apply (monitor_answers_sat cs [] (updates_of cs)) with (p := p); try done.
  - intros outcomes. destruct r; [|done]. intros ->. apply (answered_last (E := Sig)).
  - by apply ledger_silent.
Qed.
Lemma batch_reject_queued_sat fuel h : ledger h [] [] →
  sat batch_guar batch_settled h (batch_reject_queued fuel).
Proof.
  revert h. induction fuel as [|fuel IH]; intros h Hl; cbn [batch_reject_queued]; [done|].
  apply sat_call; [done|]. intros [c|]; [|by apply ledger_silent].
  apply sat_call; [split; [|done]; by eapply (ledger_waits _ c []),
    (ledger_received h _ c [] [])|].
  intros []. apply IH, ledger_respond. by apply (ledger_received h _ c [] []).
Qed.

(** What a loop that gathers gives back. *)
Definition gathered h (r : list command * bool) : Prop := ∃ count, in_hand h r.1 count.
Lemma session_collect_sat fuel cs count h : in_hand h cs count →
  sat batch_guar gathered h (session_collect config fuel cs count).
Proof.
  revert cs count h. induction fuel as [|fuel IH]; intros cs count h Hh; cbn [session_collect];
    (destruct (count <? bw_max_updates config); [|by exists count]); [by exists count|].
  apply sat_call; [done|]. intros [| |[c|]]; [|exists count; by apply in_hand_silent| |
    exists count; by apply in_hand_silent].
  - apply sat_call; [done|]. intros []. exists count. by do 2 (apply in_hand_silent; [done..|]).
  - edestruct (in_hand_more h (existT (P := answer Sig) SelectMore (MoreReceived (Some c))) c cs)
      as [Hl Hm]; [done..|].
    destruct (Z.leb_spec (count + update_count c) (bw_max_updates config)); [by apply IH, Hm|].
    destruct Hh as (_ & Hc & Hs). apply sat_bind. eapply session_flush_sat; [done|done| |].
    + intros Hs'. by eapply Hs, sized_app.
    + intros h' Hl'. exists (update_count c). by apply in_hand_one.
Qed.
Lemma monitor_collect_sat fuel cs count h : in_hand h cs count →
  sat batch_guar gathered h (monitor_collect config fuel cs count).
Proof.
  revert cs count h. induction fuel as [|fuel IH]; intros cs count h Hh; cbn [monitor_collect];
    (destruct (count <? bw_max_updates config); [|by exists count]); [by exists count|].
  apply sat_call; [done|]. intros [[c|]|]; [|exists count; by apply in_hand_silent..].
  edestruct (in_hand_more h (existT (P := answer Sig) RecvBefore (Some (Some c))) c cs)
    as [Hl Hm]; [done..|].
  destruct (Z.leb_spec (count + update_count c) (bw_max_updates config)); [by apply IH, Hm|].
  destruct Hh as (_ & Hc & Hs). apply sat_bind. eapply monitor_persist_sat; [done|done| |].
  - intros Hs'. by eapply Hs, sized_app.
  - intros h' Hl'. exists (update_count c). by apply in_hand_one.
Qed.
Lemma session_drain_more_sat fuel cs count h : in_hand h cs count →
  sat batch_guar gathered h (session_drain_more config fuel cs count).
Proof.
  revert cs count h. induction fuel as [|fuel IH]; intros cs count h Hh; cbn [session_drain_more];
    (destruct (count <? bw_max_updates config); [|by exists count]); [by exists count|].
  apply sat_call; [done|]. intros [c|]; [|exists count; by apply in_hand_silent].
  edestruct (in_hand_more h (existT (P := answer Sig) TryRecv (Some c)) c cs) as [Hl Hm]; [done..|].
  destruct (Z.ltb_spec (bw_max_updates config) (count + update_count c)); [|by apply IH, Hm].
  assert (ledger (h ++ [existT (P := answer Sig) TryRecv (Some c)]) (c :: cs) []) as Hl'
    by (eapply ledger_perm; [|apply Hl]; by rewrite Permutation_app_comm).
  apply sat_call; [split; [by eapply ledger_waits|done]|]. intros [].
  destruct Hh as (_ & Hc & Hs). exists count. split_and!; [by apply ledger_respond|done|].
  intros Hs'. by eapply Hs, sized_app, sized_app.
Qed.
(** A gathered batch is flushed, or the turns ran out with it in hand. *)
Lemma gathered_flush (flush : list command → prog Sig unit) (k : prog Sig batch_task) h r :
  (∀ cs count post h, ledger h (cs ++ []) [] → count = len (updates_of cs) →
     (sized h → 0 < count ≤ bw_max_updates config) →
     (∀ h', ledger h' [] [] → post h' tt) → sat batch_guar post h (flush cs)) →
  (∀ h', ledger h' [] [] → sat batch_guar batch_settled h' k) →
  gathered h r →
  sat batch_guar batch_settled h
    (if r.2 : bool then _ ← flush r.1; k else mret (BatchPaused r.1)).
Proof.
  intros Hf Hk [count (Hl & Hc & Hs)]. destruct r as [cs [|]]; [|done]. cbn [fst snd] in *.
  apply sat_bind. eapply Hf; [by rewrite app_nil_r|done|done|]. intros h' Hl'. by apply Hk.
Qed.
Lemma session_drain_sat fuel h : ledger h [] [] →
  sat batch_guar batch_settled h (session_drain config fuel).
Proof.
  revert h. induction fuel as [|fuel IH]; intros h Hl; cbn [session_drain]; [done|].
  apply sat_call; [done|]. intros [|]; [by apply batch_reject_queued_sat, ledger_silent|].
  apply sat_call; [done|]. intros [c|]; [|by do 2 (apply ledger_silent; [done..|])].
  apply sat_bind. eapply sat_mono; [done| |apply session_drain_more_sat, in_hand_first;
    [done..|by apply ledger_silent]].
  intros h' r. apply gathered_flush; [|done].
  intros *. apply session_flush_sat.
Qed.
Lemma session_run_sat fuel h : ledger h [] [] →
  sat batch_guar batch_settled h (session_run config fuel).
Proof.
  revert h. induction fuel as [|fuel IH]; intros h Hl; cbn [session_run]; [done|].
  apply sat_call; [done|]. intros [[c|]|]; [|by apply ledger_silent|].
  - apply sat_bind. eapply sat_mono; [done| |apply session_collect_sat; by apply in_hand_first].
    intros h' r. apply gathered_flush; [intros *; apply session_flush_sat|].
    intros h2 Hl2. apply sat_call; [done|]. intros [|];
      [apply session_drain_sat|apply IH]; by apply ledger_silent.
  - apply sat_call; [done|]. intros []. apply session_drain_sat.
    by do 2 (apply ledger_silent; [done..|]).
Qed.
Lemma monitor_drain_sat fuel h : ledger h [] [] →
  sat batch_guar batch_settled h (monitor_drain fuel).
Proof.
  intros Hl. apply sat_call; [done|]. intros [].
  assert (ledger (h ++ [existT (P := answer Sig) CloseReceiver tt]) [] []) as Hl'
    by by apply ledger_silent.
  revert Hl'. generalize (h ++ [existT (P := answer Sig) CloseReceiver tt]). clear h Hl.
  induction fuel as [|fuel IH]; intros h Hl; cbn [monitor_drain_loop]; [done|].
  apply sat_call; [done|]. intros [c|]; [|by apply ledger_silent].
  edestruct (in_hand_first h (existT (P := answer Sig) TryRecv (Some c)) c) as (Hc & Hn & Hs);
    [done..|].
  apply sat_call; [done|]. intros over.
  apply (ledger_silent _ (existT (P := answer Sig) DrainOver over)) in Hc; [|done..].
  apply sat_bind. destruct over.
  - split; [split; [by eapply ledger_waits|done]|]. intros []. by apply IH, ledger_respond.
  - eapply (monitor_persist_sat [c] []); [done|done| |by intros; apply IH].
    intros Hs'. by eapply Hs, sized_app.
Qed.
Lemma monitor_run_sat fuel h : ledger h [] [] →
  sat batch_guar batch_settled h (monitor_run config fuel).
Proof.
  revert h. induction fuel as [|fuel IH]; intros h Hl; cbn [monitor_run]; [done|].
  apply sat_call; [done|]. intros [[c|]|]; [|by apply ledger_silent|].
  - apply sat_bind. eapply sat_mono; [done| |apply monitor_collect_sat; by apply in_hand_first].
    intros h' r. apply gathered_flush; [intros *; apply monitor_persist_sat|done].
  - apply sat_call; [done|]. intros []. apply monitor_drain_sat.
    by do 2 (apply ledger_silent; [done..|]).
Qed.
End theory.

(** Session and check-in writers, for every store, clock and shutdown: a
    sender is answered at most once and never before its command came, a success
    is one outcome for each of the sender's own updates, the ones the store gave
    for them; commands of allowed size are stored in batches of allowed size;
    and when the task ends every command received has been answered. *)
Theorem batch_writers_answer_slices {X : Type} (config : BatchWriterConfig) (fuel : nat) :
  sat (batch_guar (X := X) config) batch_settled [] (session_run config fuel)
  ∧ sat (batch_guar (X := X) config) batch_settled [] (monitor_run config fuel).
Proof. split; [apply session_run_sat|apply monitor_run_sat]; apply ledger_start. Qed.
