(* ===== verification/MetricWriter.v ===== *)
(** * The metric writer

    [application/src/metric_writer.rs]: the actor of the metric lane.  The
    batches of its commands are merged into one ([Metrics]), which is stored
    once; every sender of the batch is told the same.  A command that does not
    fit opens the next batch. *)
From stdpp Require Import base list numbers strings sets gmap.
From Stdlib Require Import ZArith Lia.
From S2P Require Import Prelude Primitives Effects Identity Metrics Writers EventWriter SignalWriters BatchWriters.

Open Scope prog_scope.

Definition metric_writer_default : BatchWriterConfig :=
  {| bw_channel_capacity := 256; bw_max_wait := 20 * NANOS_PER_MILLI; bw_max_updates := 2000;
     bw_operation_timeout := 10000 * NANOS_PER_MILLI;
     bw_shutdown_drain := 10000 * NANOS_PER_MILLI |}.

Abbreviation MetricReply := (result SignalStoreError DurableOutcome).

Section metric_writer.
Context `{Blake3} (config : BatchWriterConfig).
Abbreviation Sig := (WriterSig MetricDeltaBatch MetricDeltaBatch MetricReply MetricReply).
Abbreviation actor := (prog Sig).
Abbreviation command := (Command MetricDeltaBatch).

Definition persist_metrics (batch : MetricDeltaBatch)
    : prog (BatchSinkSig MetricDeltaBatch DurableOutcome) MetricReply :=
  persist_batch (metric_batch_len batch) (bw_max_updates config) Accepted batch.

(** The batch under construction: [batch] and [responses]. *)
Fixpoint answer_all (commands : list command) (r : MetricReply) : actor unit :=
  match commands with
  | [] => mret tt
  | c :: commands => _ ← await (Respond c r); answer_all commands r
  end.
Definition metric_flush (batch : MetricDeltaBatch) (commands : list command) : actor unit :=
  r ← await (StoreBatch batch);
  answer_all commands (match r with Some r => r | None => Err SgUnavailable end).

(** A task ends, perhaps dropping a command, or is followed no further. *)
Inductive metric_task :=
| MetricEnded (dropped : option command) | MetricPaused (held : list command).

Fixpoint metric_reject_remaining (dropped : option command) (fuel : nat) : actor metric_task :=
  match fuel with
  | O => mret (MetricPaused (option_list dropped))
  | S fuel =>
      c ← await TryRecv;
      match c with
      | Some c => _ ← await (Respond c (Err SgUnavailable)); metric_reject_remaining dropped fuel
      | None => mret (MetricEnded dropped)
      end
  end.
Fixpoint metric_drain (fuel : nat) : actor metric_task :=
  match fuel with
  | O => mret (MetricPaused [])
  | S fuel =>
      first ← await TryRecv;
      match first with
      | None => mret (MetricEnded None)
      | Some first =>
          over ← await DrainOver;
          if (over : bool) then metric_reject_remaining (Some first) fuel
          else _ ← metric_flush (cm_item first) [first]; metric_drain fuel
      end
  end.

(** [inl]: the batch is complete, with the command that did not fit; [inr]: the
    turns ran out. *)
Fixpoint metric_collect (fuel : nat) (batch : MetricDeltaBatch) (commands : list command)
    : actor (MetricDeltaBatch * list command * option command + list command) :=
  match fuel with
  | O => mret (inr commands)
  | S fuel =>
      more ← await SelectMore;
      match more with
      | MoreCancelled => _ ← await StopAccepting; mret (inl (batch, commands, None))
      | MoreDeadline | MoreReceived None => mret (inl (batch, commands, None))
      | MoreReceived (Some c) =>
          if sat_u64 (metric_batch_len batch + metric_batch_len (cm_item c))
             <=? bw_max_updates config
          then metric_collect fuel (metric_batch_merge batch (cm_item c)) (commands ++ [c])
          else mret (inl (batch, commands, Some c))
      end
  end.
Definition reject_metric_carry (carry : option command) : actor unit :=
  match carry with Some c => await (Respond c (Err SgUnavailable)) | None => mret tt end.
Fixpoint metric_run (fuel : nat) (carry : option command) : actor metric_task :=
  match fuel with
  | O => mret (MetricPaused (option_list carry))
  | S fuel =>
      let batch first :=
        r ← metric_collect fuel (cm_item first) [first];
        match r with
        | inr commands => mret (MetricPaused commands)
        | inl (batch, commands, carry) =>
            _ ← metric_flush batch commands;
            cancelled ← await IsCancelled;
            if (cancelled : bool) then _ ← reject_metric_carry carry; metric_drain fuel
            else metric_run fuel carry
        end in
      match carry with
      | Some first => batch first
      | None =>
          first ← await SelectFirst;
          match first with
          | None => _ ← await StopAccepting; metric_drain fuel
          | Some None => mret (MetricEnded None)
          | Some (Some first) => batch first
          end
      end
  end.

(** ** The ledger *)

Abbreviation history := (list (event Sig)).
Implicit Types (h : history) (p cs : list command).

(** The batch of a list of commands. *)
Definition merged cs : MetricDeltaBatch :=
  match cs with
  | [] => metric_batch_default
  | c :: cs => foldl metric_batch_merge (cm_item c) (map cm_item cs)
  end.
(** What the sinks let through. *)
Definition metric_sized h : Prop :=
  ∀ c, c ∈ received h → keyed (mb_deltas (cm_item c))
                        ∧ 0 < metric_batch_len (cm_item c) ≤ bw_max_updates config.
(** A sender is told what the store answered to a batch with its deltas. *)
Definition metric_told h (c : command) (reply : MetricReply) : Prop :=
  ∀ outcome, reply = Ok outcome →
  ∃ cs, c ∈ cs ∧ answered (E := Sig) (StoreBatch (merged cs)) (Some (Ok outcome)) h.
Definition metric_guar h (c : WriterCall MetricDeltaBatch MetricDeltaBatch MetricReply) : Prop :=
  match c with
  | Respond c reply => waits h c ∧ metric_told h c reply
  | StoreBatch batch =>
      (∃ cs rest, cs ≠ [] ∧ received h ≡ₚ responded h ++ cs ++ rest ∧ batch = merged cs)
      ∧ (metric_sized h → 0 < metric_batch_len batch ≤ bw_max_updates config)
  | StoreBefore _ | Offer _ => False
  | _ => True
  end.
(** Every command is answered or in hand, but the one a late drain drops. *)
Definition metric_settled h (t : metric_task) : Prop :=
  match t with
  | MetricPaused held => ledger h held []
  | MetricEnded None => ledger h [] []
  | MetricEnded (Some c) =>
      ledger h [] [c] ∧ answered (E := Sig) DrainOver true h
  end.

Lemma metric_sized_app h h' : metric_sized (h ++ h') → metric_sized h.
Proof. intros Hs c Hc. apply Hs. unfold received. rewrite omap_app. set_solver. Qed.
Lemma merged_snoc cs (c : command) : cs ≠ [] →
  merged (cs ++ [c]) = metric_batch_merge (merged cs) (cm_item c).
Proof. destruct cs as [|c0 cs]; [done|]. intros _. cbn. by rewrite map_app, foldl_app. Qed.

Lemma answer_all_sat all cs r post h p :
  (∀ outcome, r = Ok outcome →
     answered (E := Sig) (StoreBatch (merged all)) (Some (Ok outcome)) h) →
  cs ⊆ all → ledger h (cs ++ p) [] → (∀ h', ledger h' p [] → post h' tt) →
  sat metric_guar post h (answer_all cs r).
Proof.
  revert h. induction cs as [|c cs IH]; intros h Ha Hc Hl Hp; [by apply Hp|]. cbn [answer_all].
  apply sat_call; [split; [by eapply ledger_waits|]|].
  - intros o Ho. exists all. split; [set_solver|by apply Ha].
  - intros []. apply IH; [|set_solver|by apply ledger_respond|done].
    intros o Ho. by apply answered_app, Ha.
Qed.

(** The commands in hand while a batch is gathered. *)
Definition metric_hand h cs : Prop :=
  cs ≠ [] ∧ ledger h cs []
  ∧ (metric_sized h → keyed (mb_deltas (merged cs))
                      ∧ 0 < metric_batch_len (merged cs) ≤ bw_max_updates config).
Lemma metric_hand_one h (c : command) : ledger h [c] [] → metric_hand h [c].
Proof.
  intros Hl. split_and!; [done|done|]. intros Hs. apply Hs. unfold ledger in Hl. rewrite Hl.
  set_solver.
Qed.
Lemma metric_hand_silent h e cs : received_of e = None → responded_of e = None →
  metric_hand h cs → metric_hand (h ++ [e]) cs.
Proof.
  intros H1 H2 (Hn & Hl & Hs). split_and!; [done|by apply ledger_silent|].
  intros Hs'. by eapply Hs, metric_sized_app.
Qed.
Lemma metric_hand_more h e (c : command) cs :
  received_of e = Some c → responded_of e = None → metric_hand h cs →
  bw_max_updates config < U64_MAX →
  sat_u64 (metric_batch_len (merged cs) + metric_batch_len (cm_item c)) ≤ bw_max_updates config →
  metric_hand (h ++ [e]) (cs ++ [c]).
Proof.
  intros H1 H2 (Hn & Hl & Hs) Hmax Hle. split_and!; [by destruct cs|by apply ledger_received|].
  intros Hs'. destruct (Hs (metric_sized_app _ _ Hs')) as [Hk Hb].
  destruct (Hs' c) as [Hk' Hb']; [rewrite received_snoc, H1; set_solver|].
  rewrite merged_snoc by done.
  destruct (merge_union (merged cs) (cm_item c) Hk Hk') as (E & Hkm & Hlen).
  split; [done|]. split; [|unfold sat_u64, saturate in Hle; lia].
  unfold metric_batch_len in *. rewrite E.
  destruct (decide (union_with (λ x y, Some (delta_merge x y)) (mb_deltas (merged cs))
                      (mb_deltas (cm_item c)) = ∅)) as [Em|Ne].
  - exfalso. assert (mb_deltas (cm_item c) ≠ ∅) as Hc
      by (intros Hc; rewrite Hc, map_size_empty in Hb'; lia).
    apply map_choose in Hc as (k & d & Hkd).
    assert (union_with (λ x y, Some (delta_merge x y)) (mb_deltas (merged cs))
              (mb_deltas (cm_item c)) !! k = None) as Hu by (rewrite Em; apply lookup_empty).
    rewrite lookup_union_with, Hkd in Hu. by destruct (mb_deltas (merged cs) !! k).
  - apply map_size_non_empty_iff in Ne. lia.
Qed.

Lemma metric_flush_sat cs p post h :
  cs ≠ [] → ledger h (cs ++ p) [] →
  (metric_sized h → 0 < metric_batch_len (merged cs) ≤ bw_max_updates config) →
  (∀ h', ledger h' p [] → post h' tt) → sat metric_guar post h (metric_flush (merged cs) cs).
Proof.
  intros Hn Hl Hs Hp. apply sat_call.
  - split; [|done]. exists cs, p. split_and!; [done| |done].
    unfold ledger in Hl. by rewrite app_nil_r in Hl.
  - intros r. apply (answer_all_sat cs) with (p := p); [|done|by apply ledger_silent|done].
    intros o. destruct r; [|done]. intros ->. apply (answered_last (E := Sig)).
Qed.

Lemma metric_reject_remaining_sat dropped fuel h :
  (match dropped with Some c => ledger h [] [c] ∧ answered (E := Sig) DrainOver true h
   | None => ledger h [] [] end) →
  sat metric_guar metric_settled h (metric_reject_remaining dropped fuel).
Proof.
  revert h. induction fuel as [|fuel IH]; intros h Hl; cbn [metric_reject_remaining].
  - destruct dropped; [|done]. destruct Hl as [Hl _]. cbn. unfold ledger in *. by rewrite Hl.
  - apply sat_call; [done|]. intros [c|].
    + set (e := existT (P := answer Sig) TryRecv (Some c)).
      assert (∀ d, ledger h [] d → ledger (h ++ [e]) [c] d) as Hr
        by (intros d Hd; by apply (ledger_received h e c [] d)).
      apply sat_call.
      * split; [|done]. destruct dropped; [destruct Hl as [Hl _]|];
          eapply (ledger_waits _ c []), Hr, Hl.
      * intros []. apply IH. destruct dropped as [d|]; [destruct Hl as [Hl Ha]|].
        -- split; [by apply ledger_respond, Hr|by do 2 apply answered_app].
        -- by apply ledger_respond, Hr.
    + destruct dropped; [destruct Hl as [Hl Ha]; split|]; [by apply ledger_silent|
        by apply answered_app|by apply ledger_silent].
Qed.
Lemma metric_drain_sat fuel h : ledger h [] [] →
  sat metric_guar metric_settled h (metric_drain fuel).
Proof.
  revert h. induction fuel as [|fuel IH]; intros h Hl; cbn [metric_drain]; [done|].
  apply sat_call; [done|]. intros [c|]; [|by apply ledger_silent].
  set (e := existT (P := answer Sig) TryRecv (Some c)).
  assert (ledger (h ++ [e]) [c] []) as Hl' by by apply (ledger_received h e c [] []).
  apply sat_call; [done|]. intros over. set (e2 := existT (P := answer Sig) DrainOver over).
  assert (metric_hand ((h ++ [e]) ++ [e2]) [c]) as (Hn & Hl2 & Hs)
    by by apply metric_hand_silent, metric_hand_one.
  destruct over.
  - apply metric_reject_remaining_sat. split; [|apply (answered_last (E := Sig))].
    by apply (ledger_drop _ [] [c] []).
  - apply sat_bind. apply (metric_flush_sat [c] []); [done|done| |by intros; apply IH].
    intros Hs'. by apply Hs.
Qed.
Definition metric_gathered h
    (r : MetricDeltaBatch * list command * option command + list command) : Prop :=
  match r with
  | inr commands => ledger h commands []
  | inl (batch, commands, carry) =>
      commands ≠ [] ∧ batch = merged commands ∧ ledger h (commands ++ option_list carry) []
      ∧ (metric_sized h → 0 < metric_batch_len batch ≤ bw_max_updates config)
  end.
Lemma metric_hand_gathered h cs : metric_hand h cs → metric_gathered h (inl (merged cs, cs, None)).
Proof.
  intros (Hn & Hl & Hs). split_and!; [done|done|by rewrite app_nil_r|]. intros Hs'. by apply Hs.
Qed.
Lemma metric_collect_sat fuel cs h : bw_max_updates config < U64_MAX → metric_hand h cs →
  sat metric_guar metric_gathered h (metric_collect fuel (merged cs) cs).
Proof.
  intros Hmax. revert cs h. induction fuel as [|fuel IH]; intros cs h Hh; cbn [metric_collect];
    [apply Hh|].
  apply sat_call; [done|]. intros [| |[c|]]; try by apply metric_hand_gathered, metric_hand_silent.
  - apply sat_call; [done|]. intros []. apply metric_hand_gathered.
    by do 2 (apply metric_hand_silent; [done..|]).
  - set (e := existT (P := answer Sig) SelectMore (MoreReceived (Some c))).
    destruct (Z.leb_spec (sat_u64 (metric_batch_len (merged cs) + metric_batch_len (cm_item c)))
                (bw_max_updates config)) as [Hle|_].
    + rewrite <- merged_snoc by apply Hh. apply IH. by apply metric_hand_more.
    + destruct Hh as (Hn & Hl & Hs). split_and!; [done|done|by apply (ledger_received h e c)|].
      intros Hs'. by eapply Hs, metric_sized_app.
Qed.
Lemma metric_run_sat fuel carry h : bw_max_updates config < U64_MAX →
  ledger h (option_list carry) [] →
  sat metric_guar metric_settled h (metric_run fuel carry).
Proof.
  intros Hmax. revert carry h. induction fuel as [|fuel IH]; intros carry h Hl; cbn [metric_run];
    [done|].
  match goal with |- sat _ _ _ (match carry with Some first => @?b first | None => _ end) =>
    assert (∀ first h, ledger h [first] [] → sat metric_guar metric_settled h (b first)) as Hbatch
  end.
  { clear Hl h. intros first h Hl. cbv beta. apply sat_bind.
    eapply sat_mono; [done| |apply (metric_collect_sat fuel [first]);
      [done|by apply metric_hand_one]].
    intros h1 [[[batch cs] next]|cs]; [|done]. intros (Hn & -> & Hl1 & Hs). cbv beta iota.
    apply sat_bind. apply (metric_flush_sat cs (option_list next)); [done..|].
    intros h2 Hl2. apply sat_call; [done|]. intros cancelled.
    assert (ledger (h2 ++ [existT (P := answer Sig) IsCancelled cancelled])
              (option_list next) []) as Hl3 by by apply ledger_silent.
    destruct cancelled; [|by apply IH]. apply sat_bind.
    destruct next as [c|]; cbn [reject_metric_carry]; [|by apply metric_drain_sat].
    split; [split; [by eapply ledger_waits|done]|]. intros []. by apply metric_drain_sat, ledger_respond. }
  destruct carry as [first|]; [by apply Hbatch|].
  apply sat_call; [done|]. intros [[c|]|]; [|by apply ledger_silent|].
  - apply Hbatch. by apply (ledger_received h _ c [] []).
  - apply sat_call; [done|]. intros []. apply metric_drain_sat.
    by do 2 (apply ledger_silent; [done..|]).
Qed.
End metric_writer.

(** C38. The metric writer, for every store, clock and shutdown: it stores the
    merge of whole commands, of allowed size when they are; a sender is answered
    at most once, and with a success only when the store gave it to a batch
    its deltas were merged into; and no command is left unanswered, but the one
    a drain that is out of time took from the channel. *)
Theorem metric_writer_merges_and_answers `{Blake3} (config : BatchWriterConfig) (fuel : nat) :
  bw_max_updates config < U64_MAX →
  sat (metric_guar config) metric_settled [] (metric_run config fuel None).
Proof. intros Hmax. apply metric_run_sat; [done|apply ledger_start]. Qed.
Lemma metric_writer_merges_and_answers_witness :
  let digest : Blake3 := λ input, take 32 (input ++ replicate 32 0) in
  sat (metric_guar metric_writer_default) metric_settled [] (metric_run metric_writer_default 3 None).
Proof.
  intros digest. apply (metric_writer_merges_and_answers metric_writer_default 3).
  vm_compute. reflexivity.
Defined.
