(* ===== verification/IpAddr.v ===== *)
(** * Internet addresses

    [std::net::IpAddr] as the scrubber uses it ([application/src/ingest.rs]):
    the parser of the standard library, which reads without looking ahead and
    takes no leading zero in a decimal group, and the printer, which elides the
    first longest run of zero groups. *)
From stdpp Require Import base list numbers strings sets.
From Stdlib Require Import ZArith Lia.
From S2P Require Import Prelude Radix.

Inductive IpAddr :=
| V4 (a b c d : Z)
| V6 (segments : list Z).
#[export] Instance IpAddr_eq_dec : EqDecision IpAddr.
Proof. solve_decision. Defined.

(** ** The parser: what was read, and the rest *)

Abbreviation reader A := (bytes → option (A * bytes)).

(** [room] more digits are allowed. *)
Fixpoint read_digits (radix : Z) (room : nat) (acc : Z) (s : bytes) {struct s} : option (Z * bytes) :=
  match s with
  | [] => Some (acc, [])
  | b :: s' =>
      match digit_value b with
      | Some d =>
          if d <? radix then
            match room with
            | O => None
            | S room => read_digits radix room (acc * radix + d) s'
            end
          else Some (acc, s)
      | None => Some (acc, s)
      end
  end.
Definition read_number (radix : Z) (max_digits : nat) (hi : Z) (allow_zero_prefix : bool)
    : reader Z := λ s,
  '(value, rest) ← read_digits radix max_digits 0 s;
  let count := (length s - length rest)%nat in
  if (count =? 0)%nat then None
  else if negb allow_zero_prefix && bool_decide (head s = Some 48) && (1 <? count)%nat then None
  else if value <=? hi then Some (value, rest) else None.
Definition read_char (c : Z) : reader unit := λ s,
  match s with b :: s' => if b =? c then Some (tt, s') else None | [] => None end.
(** [read_separator]: no separator before the first. *)
Definition read_separator {A} (sep : Z) (first : bool) (inner : reader A) : reader A := λ s,
  if first then inner s else '(_, s) ← read_char sep s; inner s.

Definition read_octet (first : bool) : reader Z :=
  read_separator 46 first (read_number 10 3 U8_MAX false).
Definition read_ipv4 : reader (Z * Z * Z * Z) := λ s,
  '(a, s) ← read_octet true s;
  '(b, s) ← read_octet false s;
  '(c, s) ← read_octet false s;
  '(d, s) ← read_octet false s;
  Some ((a, b, c, d), s).

(** At most [limit] groups; the flag says that the last two are an address in
    dotted form. *)
Fixpoint read_groups (limit : nat) (first : bool) (s : bytes) : list Z * bool * bytes :=
  match limit with
  | O => ([], false, s)
  | S limit =>
      match (if (limit =? 0)%nat then None else read_separator 58 first read_ipv4 s) with
      | Some ((a, b, c, d), s) => ([a * 256 + b; c * 256 + d], true, s)
      | None =>
          match read_separator 58 first (read_number 16 4 U16_MAX true) s with
          | Some (group, s) =>
              let '(groups, dotted, s) := read_groups limit false s in
              (group :: groups, dotted, s)
          | None => ([], false, s)
          end
      end
  end.
Definition read_ipv6 : reader (list Z) := λ s,
  let '(head, dotted, s) := read_groups 8 true s in
  if (length head =? 8)%nat then Some (head, s)
  else if dotted then None
  else
    '(_, s) ← read_char 58 s;
    '(_, s) ← read_char 58 s;
    let '(tail, _, s) := read_groups (8 - (length head + 1)) true s in
    Some (head ++ replicate (8 - length head - length tail) 0 ++ tail, s).

(** [str::parse::<IpAddr>]: everything is read. *)
Definition parse_ip (s : str) : option IpAddr :=
  let whole (r : option (IpAddr * bytes)) :=
    '(ip, rest) ← r; if is_empty rest then Some ip else None in
  match read_ipv4 s with
  | Some ((a, b, c, d), rest) => whole (Some (V4 a b c d, rest))
  | None => whole ('(segments, rest) ← read_ipv6 s; Some (V6 segments, rest))
  end.

(** ** The printer *)

Record Span := { sp_start : nat; sp_len : nat }.
Definition span_default : Span := {| sp_start := 0; sp_len := 0 |}.
Fixpoint longest_zeroes (i : nat) (longest current : Span) (segments : list Z) : Span :=
  match segments with
  | [] => longest
  | segment :: segments =>
      if segment =? 0 then
        let current := {| sp_start := if (sp_len current =? 0)%nat then i else sp_start current;
                          sp_len := S (sp_len current) |} in
        longest_zeroes (S i) (if (sp_len longest <? sp_len current)%nat then current else longest)
          current segments
      else longest_zeroes (S i) longest span_default segments
  end.
Definition print_v4 (a b c d : Z) : str := join [46] [to_dec a; to_dec b; to_dec c; to_dec d].
Definition print_subslice (segments : list Z) : str := join [58] (map to_hex segments).
(** [Ipv6Addr::to_ipv4_mapped]. *)
Definition to_ipv4_mapped (segments : list Z) : option (Z * Z) :=
  match segments with
  | [a; b; c; d; e; f; high; low] =>
      if forallb (Z.eqb 0) [a; b; c; d; e] && (f =? 65535) then Some (high, low) else None
  | _ => None
  end.
Definition print_v6 (segments : list Z) : str :=
  match to_ipv4_mapped segments with
  | Some (high, low) =>
      lit "::ffff:" ++ print_v4 (high / 256) (high mod 256) (low / 256) (low mod 256)
  | None =>
      let zeroes := longest_zeroes 0 span_default span_default segments in
      if (1 <? sp_len zeroes)%nat then
        print_subslice (take (sp_start zeroes) segments) ++ [58; 58]
          ++ print_subslice (drop (sp_start zeroes + sp_len zeroes) segments)
      else print_subslice segments
  end.

(** ** [truncate_ip] *)

Definition FILTERED : str := lit "[Filtered]".
(** The host part becomes zero: 8 bits, or 64. *)
Definition mask_ip (ip : IpAddr) : IpAddr :=
  match ip with
  | V4 a b c _ => V4 a b c 0
  | V6 segments => V6 (take 4 segments ++ replicate (length segments - 4) 0)
  end.
Definition print_ip (ip : IpAddr) : str :=
  match ip with V4 a b c d => print_v4 a b c d | V6 segments => print_v6 segments end.
Definition truncate_ip (ip : str) : str :=
  match parse_ip ip with Some address => print_ip (mask_ip address) | None => FILTERED end.

Example truncate_examples :
  map truncate_ip [lit "203.0.113.77"; lit "2001:db8:85a3:8d3:1319:8a2e:370:7348"; lit "::1";
                   lit "::ffff:192.0.2.1"; lit "1:0:0:2::"; lit "01.2.3.4"; lit "host"]
  = [lit "203.0.113.0"; lit "2001:db8:85a3:8d3::"; lit "::"; lit "::"; lit "1:0:0:2::";
     FILTERED; FILTERED].
Proof. vm_compute. reflexivity. Qed.

(** ** Reading what was printed *)

(** What may follow a text of digits. *)
Definition stops (radix : Z) (rest : bytes) : Prop :=
  match rest with
  | [] => True
  | b :: _ => match digit_value b with Some d => radix ≤ d | None => True end
  end.

Lemma read_digits_map radix room acc ds rest :
  radix ≤ 16 → digits radix ds → (length ds ≤ room)%nat → stops radix rest →
  read_digits radix room acc (map hex_digit ds ++ rest) = Some (digits_number radix acc ds, rest).
Proof.
  intros Hr H. revert room acc. induction H as [|d ds Hd _ IH]; intros room acc Hl Hs.
  - cbn. destruct rest as [|b rest]; [done|]. cbn in *. destruct (digit_value b); [|done].
    by replace (z <? radix) with false by lia.
  - cbn. rewrite hex_digit_value by lia. replace (d <? radix) with true by lia.
    destruct room as [|room]; [cbn in Hl; lia|]. apply IH; [cbn in Hl; lia|done].
Qed.
Lemma hex_digit_zero d : 0 ≤ d < 16 → hex_digit d = 48 → d = 0.
Proof. unfold hex_digit. destruct (Z.ltb_spec d 10); lia. Qed.
Lemma read_number_map radix room hi zero ds rest :
  radix ≤ 16 → digits radix ds → (0 < length ds ≤ room)%nat → stops radix rest →
  digits_number radix 0 ds ≤ hi →
  (zero = false → length ds = 1%nat ∨ head ds ≠ Some 0) →
  read_number radix room hi zero (map hex_digit ds ++ rest) = Some (digits_number radix 0 ds, rest).
Proof.
  intros Hr H Hl Hs Hhi Hz. unfold read_number. rewrite read_digits_map by (done || lia).
  cbn [mbind option_bind]. rewrite length_app, length_map.
  destruct (Nat.eqb_spec (length ds + length rest - length rest) 0); [lia|].
  replace (digits_number radix 0 ds <=? hi) with true by lia.
  destruct ds as [|d ds]; [cbn in Hl; lia|]. cbn [map head app].
  destruct zero; [done|]. cbn [negb andb].
  destruct (Nat.ltb_spec 1 (length (d :: ds) + length rest - length rest)); [|by rewrite andb_false_r].
  case_bool_decide as E; [|done]. injection E as E. exfalso.
  destruct Hz as [Hz|Hz]; [done|lia|]. apply Hz. cbn. f_equal.
  apply hex_digit_zero; [|done]. inversion H; subst. lia.
Qed.

(** The digits of the numbers that are printed. *)
Definition dec_digits (n : Z) : list Z :=
  if n <? 10 then [n] else if n <? 100 then [n / 10; n mod 10]
  else [n / 100; n / 10 mod 10; n mod 10].
Definition hex_digits (n : Z) : list Z :=
  if n <? 16 then [n] else if n <? 256 then [n / 16; n mod 16]
  else if n <? 4096 then [n / 256; n / 16 mod 16; n mod 16]
  else [n / 4096; n / 256 mod 16; n / 16 mod 16; n mod 16].
Definition octet (n : Z) : Prop := 0 ≤ n ≤ U8_MAX.
Definition group (n : Z) : Prop := 0 ≤ n ≤ U16_MAX.

Lemma to_dec_octet n : octet n → to_dec n = map hex_digit (dec_digits n).
Proof.
  intros Hn.
  assert (forallb (λ n, bool_decide (to_dec n = map hex_digit (dec_digits n))) (seqZ 0 256) = true)
    as Hall by reflexivity.
  rewrite forallb_forall in Hall. apply (bool_decide_unpack _), Is_true_true, Hall.
  apply list_elem_of_In, elem_of_seqZ. unfold octet, U8_MAX in Hn. lia.
Qed.
Lemma dec_digits_ok n : octet n →
  digits 10 (dec_digits n) ∧ (0 < length (dec_digits n) ≤ 3)%nat
  ∧ digits_number 10 0 (dec_digits n) = n
  ∧ (length (dec_digits n) = 1%nat ∨ head (dec_digits n) ≠ Some 0).
Proof.
  unfold octet, U8_MAX, dec_digits, digits. intros Hn.
  destruct (Z.ltb_spec n 10); [|destruct (Z.ltb_spec n 100)]; cbn;
    (split_and!; [repeat constructor; Z.to_euclidean_division_equations; lia|lia|lia|
      Z.to_euclidean_division_equations; lia|]).
  - by left.
  - right. intros [= ?]. Z.to_euclidean_division_equations; lia.
  - right. intros [= ?]. Z.to_euclidean_division_equations; lia.
Qed.
Lemma to_hex_last f n acc : 0 ≤ n < 16 → to_hex_go (S f) n acc = hex_digit n :: acc.
Proof. intros Hn. cbn. rewrite Z.mod_small by lia. by replace (n <? 16) with true by lia. Qed.
Lemma to_hex_more f n acc : 16 ≤ n →
  to_hex_go (S f) n acc = to_hex_go f (n / 16) (hex_digit (n mod 16) :: acc).
Proof. intros Hn. cbn. by replace (n <? 16) with false by lia. Qed.
Lemma to_hex_group n : group n → to_hex n = map hex_digit (hex_digits n).
Proof.
  unfold group, U16_MAX, to_hex, hex_digits. intros Hn.
  destruct (Z.ltb_spec n 16); [apply to_hex_last; lia|].
  rewrite to_hex_more by done. destruct (Z.ltb_spec n 256).
  { apply to_hex_last. Z.to_euclidean_division_equations; lia. }
  rewrite to_hex_more, Z.div_div by (Z.to_euclidean_division_equations; lia).
  destruct (Z.ltb_spec n 4096).
  { apply to_hex_last. Z.to_euclidean_division_equations; lia. }
  rewrite to_hex_more, Z.div_div by (Z.to_euclidean_division_equations; lia).
  apply to_hex_last. Z.to_euclidean_division_equations; lia.
Qed.
Lemma hex_digits_ok n : group n →
  digits 16 (hex_digits n) ∧ (0 < length (hex_digits n) ≤ 4)%nat
  ∧ digits_number 16 0 (hex_digits n) = n.
Proof.
  unfold group, U16_MAX, hex_digits, digits. intros Hn.
  destruct (Z.ltb_spec n 16); [|destruct (Z.ltb_spec n 256); [|destruct (Z.ltb_spec n 4096)]]; cbn;
    (split_and!; [repeat constructor; Z.to_euclidean_division_equations; lia|lia|lia|
      Z.to_euclidean_division_equations; lia]).
Qed.

Lemma read_octet_printed n rest : octet n → stops 10 rest →
  read_octet true (to_dec n ++ rest) = Some (n, rest)
  ∧ read_octet false (46 :: to_dec n ++ rest) = Some (n, rest).
Proof.
  intros Hn Hs. destruct (dec_digits_ok n Hn) as (Hd & Hl & Hv & Hz).
  assert (read_number 10 3 U8_MAX false (to_dec n ++ rest) = Some (n, rest)) as Hr; [|done].
  rewrite to_dec_octet, <- Hv at 1 by done.
  rewrite read_number_map; rewrite ?Hv; try done. apply Hn.
Qed.
Lemma read_ipv4_printed a b c d rest : octet a → octet b → octet c → octet d → stops 10 rest →
  read_ipv4 (print_v4 a b c d ++ rest) = Some ((a, b, c, d), rest).
Proof.
  intros Ha Hb Hc Hd Hs. unfold print_v4. cbn [join]. rewrite <- !(assoc_L (++)). cbn [app].
  unfold read_ipv4. rewrite (proj1 (read_octet_printed a (46 :: _) Ha I)). cbn [mbind option_bind].
  rewrite (proj2 (read_octet_printed b (46 :: _) Hb I)). cbn [mbind option_bind].
  rewrite (proj2 (read_octet_printed c (46 :: _) Hc I)). cbn [mbind option_bind].
  by rewrite (proj2 (read_octet_printed d _ Hd Hs)).
Qed.

(** A reader leaves a suffix. *)
Lemma read_digits_suffix radix room acc s v rest :
  read_digits radix room acc s = Some (v, rest) → rest `suffix_of` s.
Proof.
  revert room acc. induction s as [|b s IH]; intros room acc; cbn; [intros [= _ <-]; done|].
  destruct (digit_value b) as [d|]; [|by intros [= _ <-]].
  destruct (d <? radix); [|by intros [= _ <-]]. destruct room as [|room]; [done|].
  intros H. by apply suffix_cons_r, (IH room (acc * radix + d)).
Qed.
Lemma read_number_suffix radix room hi zero s v rest :
  read_number radix room hi zero s = Some (v, rest) → rest `suffix_of` s ∧ v ≤ hi.
Proof.
  unfold read_number. destruct (read_digits radix room 0 s) as [[v' r]|] eqn:E; [|done].
  cbn. intros H. repeat (case_match; try done); injection H as <- <-;
    (split; [by eapply read_digits_suffix|lia]).
Qed.
(** No address in dotted form where no dot is. *)
Lemma read_ipv4_no_dot s : 46 ∉ s → read_ipv4 s = None.
Proof.
  intros Hs. unfold read_ipv4, read_octet, read_separator.
  destruct (read_number 10 3 U8_MAX false s) as [[a r]|] eqn:E; [|done]. cbn.
  apply read_number_suffix in E as [Hr _]. destruct r as [|b r]; [done|]. cbn.
  destruct (Z.eqb_spec b 46) as [->|]; [|done]. exfalso. apply Hs.
  destruct Hr as [k ->]. set_solver.
Qed.

(** ** Printing a masked address *)

Lemma read_group_printed n rest : group n → stops 16 rest →
  read_number 16 4 U16_MAX true (to_hex n ++ rest) = Some (n, rest).
Proof.
  intros Hn Hs. destruct (hex_digits_ok n Hn) as (Hd & Hl & Hv).
  rewrite to_hex_group, <- Hv at 1 by done.
  rewrite read_number_map; rewrite ?Hv; try done. apply Hn.
Qed.
Lemma to_hex_no_dot n : group n → 46 ∉ to_hex n.
Proof.
  intros Hn. rewrite to_hex_group by done. destruct (hex_digits_ok n Hn) as (Hd & _ & _).
  rewrite list_elem_of_fmap. intros (d & Hd' & Hin). unfold digits in Hd. rewrite Forall_forall in Hd.
  specialize (Hd d Hin). unfold hex_digit in Hd'. destruct (d <? 10); lia.
Qed.
(** The text of the groups before the elision. *)
Definition groups_text (first : bool) (groups : list Z) (rest : bytes) : bytes :=
  match groups with
  | [] => rest
  | _ => (if first then [] else [58]) ++ print_subslice groups ++ rest
  end.
Lemma groups_no_dot groups : Forall group groups → 46 ∉ print_subslice groups.
Proof.
  unfold print_subslice. induction 1 as [|n groups Hn _ IH]; [set_solver|]. cbn [map join].
  pose proof (to_hex_no_dot n Hn). destruct (map to_hex groups); set_solver.
Qed.
Lemma read_separated_no_dot first s : 46 ∉ s → read_separator 58 first read_ipv4 s = None.
Proof.
  intros Hs. unfold read_separator. destruct first; [by apply read_ipv4_no_dot|].
  destruct s as [|b s]; [done|]. unfold read_char. destruct (b =? 58); [|done].
  apply read_ipv4_no_dot. set_solver.
Qed.
Lemma read_separated_group first n rest : group n → stops 16 rest →
  read_separator 58 first (read_number 16 4 U16_MAX true)
    ((if first then [] else [58]) ++ to_hex n ++ rest) = Some (n, rest).
Proof.
  intros Hn Hs. destruct first; [by apply read_group_printed|].
  change (read_number 16 4 U16_MAX true (to_hex n ++ rest) = Some (n, rest)).
  by apply read_group_printed.
Qed.
Lemma read_number_colon room hi zero s : read_number 16 room hi zero (58 :: s) = None.
Proof. unfold read_number. cbn. by rewrite Nat.sub_diag. Qed.
Lemma read_groups_elided limit first groups tail :
  (length groups < limit)%nat → Forall group groups → 46 ∉ tail →
  read_groups limit first (groups_text first groups (58 :: 58 :: tail))
    = (groups, false, 58 :: 58 :: tail).
Proof.
  intros Hl H Ht. revert limit first Hl.
  induction H as [|n groups Hn Hg IH]; intros limit first Hl; (destruct limit as [|limit]; [cbn in Hl; lia|]).
  - cbn [groups_text read_groups].
    rewrite read_separated_no_dot by set_solver.
    assert (read_separator 58 first (read_number 16 4 U16_MAX true) (58 :: 58 :: tail) = None) as ->
      by (destruct first; apply read_number_colon).
    by destruct (limit =? 0)%nat.
  - assert (groups_text first (n :: groups) (58 :: 58 :: tail)
      = (if first then [] else [58]) ++ to_hex n ++ groups_text false groups (58 :: 58 :: tail)) as ->.
    { cbn [groups_text]. f_equal. unfold print_subslice. destruct groups; cbn; [done|].
      by rewrite <- !(assoc_L (++)). }
    set (rest := groups_text false groups (58 :: 58 :: tail)).
    assert (stops 16 rest) as Hs by (unfold rest; by destruct groups).
    assert (46 ∉ to_hex n ++ rest) as Hdot.
    { rewrite elem_of_app. intros [?|Hin]; [by eapply to_hex_no_dot|].
      unfold rest in Hin. pose proof (groups_no_dot groups Hg). destruct groups; set_solver. }
    cbn [read_groups].
    rewrite read_separated_no_dot, read_separated_group by (done || destruct first; set_solver).
    unfold rest. rewrite IH by (cbn in Hl; lia). by destruct (limit =? 0)%nat.
Qed.

(** The run of zeroes depends only on which groups are zero. *)
Lemma longest_zeroes_flags segments : ∀ i longest current,
  longest_zeroes i longest current segments
    = longest_zeroes i longest current (map (λ g, if g =? 0 then 0 else 1) segments).
Proof.
  induction segments as [|g segments IH]; intros i longest current; [done|]. cbn.
  destruct (g =? 0); apply IH.
Qed.
(** A masked address elides its last groups. *)
Lemma print_masked_v6 a b c d : ∃ groups,
  Forall (λ g, g = a ∨ g = b ∨ g = c ∨ g = d) groups ∧ (length groups ≤ 4)%nat
  ∧ groups ++ replicate (8 - length groups) 0 = [a; b; c; d; 0; 0; 0; 0]
  ∧ print_v6 [a; b; c; d; 0; 0; 0; 0] = print_subslice groups ++ [58; 58].
Proof.
  unfold print_v6.
  replace (to_ipv4_mapped [a; b; c; d; 0; 0; 0; 0]) with (@None (Z * Z))
    by (unfold to_ipv4_mapped; by rewrite andb_false_r).
  rewrite longest_zeroes_flags. cbn [map Z.eqb].
  destruct (Z.eqb_spec d 0) as [->|Hd]; [destruct (Z.eqb_spec c 0) as [->|Hc];
    [destruct (Z.eqb_spec b 0) as [->|Hb]; [destruct (Z.eqb_spec a 0) as [->|Ha]|]|]|].
  - exists []. split_and!; try done. cbn. lia.
  - exists [a]. split_and!; try done; [repeat constructor; tauto|cbn; lia].
  - exists [a; b]. split_and!; try done; [repeat constructor; tauto|cbn; lia|].
    by destruct (a =? 0).
  - exists [a; b; c]. split_and!; try done; [repeat constructor; tauto|cbn; lia|].
    by destruct (a =? 0), (b =? 0).
  - exists [a; b; c; d]. split_and!; try done; [repeat constructor; tauto|].
    by destruct (a =? 0), (b =? 0), (c =? 0).
Qed.

(** ** Theorems *)

Definition ip_valid (ip : IpAddr) : Prop :=
  match ip with
  | V4 a b c d => octet a ∧ octet b ∧ octet c ∧ octet d
  | V6 segments => length segments = 8%nat ∧ Forall group segments
  end.
Lemma parse_printed_mask ip : ip_valid ip → parse_ip (print_ip (mask_ip ip)) = Some (mask_ip ip).
Proof.
  destruct ip as [a b c d|segments]; cbn [ip_valid mask_ip print_ip].
  - intros (Ha & Hb & Hc & _). unfold parse_ip.
    rewrite <- (app_nil_r (print_v4 a b c 0)), read_ipv4_printed by done. done.
  - intros [Hl Hg]. destruct segments as [|a [|b [|c [|d segments]]]]; try done.
    replace (length (a :: b :: c :: d :: segments) - 4)%nat with 4%nat by (cbn in *; lia).
    cbn [take replicate app]. rewrite take_0. cbn [app].
    destruct (print_masked_v6 a b c d) as (groups & Hin & Hlen & Hgroups & ->).
    assert (Forall group groups) as Hgs.
    { rewrite !Forall_cons in Hg. destruct Hg as (? & ? & ? & ? & _).
      eapply Forall_impl; [exact Hin|]. intros x [-> | [-> | [-> | ->]]]; done. }
    assert (print_subslice groups ++ [58; 58] = groups_text true groups [58; 58]) as ->
      by by destruct groups.
    unfold parse_ip. rewrite read_ipv4_no_dot.
    2:{ pose proof (groups_no_dot groups Hgs). destruct groups; set_solver. }
    unfold read_ipv6. rewrite read_groups_elided by (done || lia || set_solver).
    destruct (Nat.eqb_spec (length groups) 8); [lia|]. cbn [read_char Z.eqb Pos.eqb mbind option_bind].
    replace (read_groups (8 - (length groups + 1)) true []) with (@nil Z, false, @nil Z)
      by (destruct (8 - (length groups + 1))%nat as [|[|k]]; done).
    cbn [length app mbind option_bind is_empty]. rewrite app_nil_r, Nat.sub_0_r. by rewrite Hgroups.
Qed.

Lemma digit_value_nonneg b d : digit_value b = Some d → 0 ≤ d.
Proof.
  unfold digit_value, is_ascii_digit, in_range. repeat case_match; intros [= <-]; bool_prop; lia.
Qed.
Lemma read_digits_nonneg radix room acc s v rest : 0 ≤ radix → 0 ≤ acc →
  read_digits radix room acc s = Some (v, rest) → 0 ≤ v.
Proof.
  intros Hr. revert room acc. induction s as [|b s IH]; intros room acc Ha; cbn; [by intros [= <- _]|].
  destruct (digit_value b) as [d|] eqn:E; [|by intros [= <- _]].
  destruct (d <? radix); [|by intros [= <- _]]. destruct room as [|room]; [done|].
  apply IH. apply digit_value_nonneg in E. nia.
Qed.
Lemma read_number_range radix room hi zero s v rest : 0 ≤ radix →
  read_number radix room hi zero s = Some (v, rest) → 0 ≤ v ≤ hi.
Proof.
  intros Hr H. split; [|by eapply read_number_suffix]. revert H. unfold read_number.
  destruct (read_digits radix room 0 s) as [[v' r]|] eqn:E; [|done].
  cbn. intros H. repeat (case_match; try done); injection H as <- <-;
    by eapply read_digits_nonneg in E.
Qed.
Lemma read_separator_some {A} sep first (inner : reader A) s x :
  read_separator sep first inner s = Some x → ∃ s', inner s' = Some x.
Proof.
  unfold read_separator. destruct first; [eauto|]. destruct (read_char sep s) as [[[] s']|]; [|done].
  cbn. eauto.
Qed.
Lemma read_octet_range first s v rest : read_octet first s = Some (v, rest) → octet v.
Proof. intros [s' H]%read_separator_some. by apply read_number_range in H. Qed.
Lemma read_ipv4_range s a b c d rest :
  read_ipv4 s = Some ((a, b, c, d), rest) → octet a ∧ octet b ∧ octet c ∧ octet d.
Proof.
  unfold read_ipv4. intros H.
  destruct (read_octet true s) as [[a' s1]|] eqn:E1; [|done]. cbn [mbind option_bind] in H.
  destruct (read_octet false s1) as [[b' s2]|] eqn:E2; [|done]. cbn [mbind option_bind] in H.
  destruct (read_octet false s2) as [[c' s3]|] eqn:E3; [|done]. cbn [mbind option_bind] in H.
  destruct (read_octet false s3) as [[d' s4]|] eqn:E4; [|done]. cbn [mbind option_bind] in H.
  injection H as -> -> -> -> ->. split_and!; by eapply read_octet_range.
Qed.
Lemma read_groups_range limit first s groups dotted rest :
  read_groups limit first s = (groups, dotted, rest) →
  Forall group groups ∧ (length groups ≤ limit)%nat.
Proof.
  revert first s groups dotted rest. induction limit as [|limit IH]; intros first s groups dotted rest;
    cbn [read_groups]; [by intros [= <- <- <-]|].
  destruct (if (limit =? 0)%nat then None else read_separator 58 first read_ipv4 s)
    as [[[[[a b] c] d] s']|] eqn:E4.
  - destruct (Nat.eqb_spec limit 0); [done|].
    apply read_separator_some in E4 as [s0 (Ha & Hb & Hc & Hd)%read_ipv4_range].
    intros [= <- <- <-]. unfold group, octet, U8_MAX, U16_MAX in *. split; [|cbn; lia].
    repeat constructor; lia.
  - destruct (read_separator 58 first (read_number 16 4 U16_MAX true) s) as [[g s']|] eqn:E6.
    + destruct (read_groups limit false s') as [[gs v4] r] eqn:E. intros [= <- <- <-].
      apply read_separator_some in E6 as [s0 H%read_number_range]; [|done].
      apply IH in E as [H1 H2]. split; [by constructor|cbn; lia].
    + intros [= <- <- <-]. split; [constructor|cbn; lia].
Qed.
Lemma read_ipv6_range s segments rest : read_ipv6 s = Some (segments, rest) →
  length segments = 8%nat ∧ Forall group segments.
Proof.
  unfold read_ipv6. destruct (read_groups 8 true s) as [[head dotted] s1] eqn:E1.
  apply read_groups_range in E1 as [Hh Hl].
  destruct (Nat.eqb_spec (length head) 8); [by intros [= <- <-]|]. destruct dotted; [done|].
  destruct (read_char 58 s1) as [[[] s2]|]; [|done]. cbn [mbind option_bind].
  destruct (read_char 58 s2) as [[[] s3]|]; [|done]. cbn [mbind option_bind].
  destruct (read_groups (8 - (length head + 1)) true s3) as [[tail v4] s4] eqn:E2.
  apply read_groups_range in E2 as [Ht Htl]. intros [= <- <-].
  rewrite !length_app, length_replicate, !Forall_app. split_and!; [lia|done| |done].
  apply Forall_replicate. unfold group, U16_MAX. lia.
Qed.
Lemma parse_ip_valid s ip : parse_ip s = Some ip → ip_valid ip.
Proof.
  unfold parse_ip. destruct (read_ipv4 s) as [[[[[a b] c] d] r]|] eqn:E4; cbn.
  - destruct (is_empty r); [|done]. intros [= <-]. by eapply read_ipv4_range.
  - destruct (read_ipv6 s) as [[segments r]|] eqn:E6; cbn; [|done].
    destruct (is_empty r); [|done]. intros [= <-]. by eapply read_ipv6_range.
Qed.
Lemma mask_idempotent ip : ip_valid ip → mask_ip (mask_ip ip) = mask_ip ip.
Proof.
  destruct ip as [|segments]; [done|]. intros [Hl _]. cbn. f_equal.
  rewrite length_app, length_take, length_replicate.
  rewrite take_app_le, take_take by (rewrite length_take; lia). do 2 f_equal. lia.
Qed.

Lemma truncate_ip_idempotent s : truncate_ip (truncate_ip s) = truncate_ip s.
Proof.
  unfold truncate_ip. destruct (parse_ip s) as [ip|] eqn:E; [|by vm_compute].
  apply parse_ip_valid in E. by rewrite parse_printed_mask, mask_idempotent.
Qed.

(** An address is cut to its network part, and so that it can be read
    again: the text of a truncated address is that of the masked address, which
    reads as itself; what is no address is replaced; truncating twice is
    truncating once. *)
Theorem truncate_ip_masks s :
  match parse_ip s with
  | Some ip => ip_valid ip ∧ parse_ip (truncate_ip s) = Some (mask_ip ip)
  | None => truncate_ip s = FILTERED
  end
  ∧ truncate_ip (truncate_ip s) = truncate_ip s.
Proof.
  split; [|apply truncate_ip_idempotent].
  unfold truncate_ip. destruct (parse_ip s) as [ip|] eqn:E; [|done].
  apply parse_ip_valid in E as Hv. split; [done|by apply parse_printed_mask].
Qed.
