(* ===== verification/DebugIds.v ===== *)
(** * Identities of native debug files

    [domain/src/debug_files.rs]: debug identifiers, code identifiers, the ids
    of stored files, and the codecs between their texts and their stored
    bytes.  [base64] is an interface. *)
From stdpp Require Import base list numbers strings sets.
From Stdlib Require Import ZArith Lia.
From S2P Require Import Prelude Radix External Primitives Identity.

Definition MAX_DEBUG_FILE_NAME_BYTES : Z := 255.

Inductive DebugFileValueError :=
| DeInvalidDebugId | DeInvalidCodeId | DeInvalidFileId | DeInvalidName | DeInvalidManifest.

(** ** Debug identifiers *)

Inductive DebugId :=
| DebugUuid (uuid : bytes) (appendix : Z)
| DebugPdb20 (timestamp age : Z).
#[global] Instance DebugId_eq_dec : EqDecision DebugId.
Proof. solve_decision. Defined.

Definition all_hex (s : str) : bool := forallb is_ascii_hexdigit s.
Definition parse_hex_u32 (s : str) : result DebugFileValueError Z :=
  ok_or DeInvalidDebugId (parse_unsigned 16 U32_MAX s).
Definition strip_dashes (s : str) : str := List.filter (λ b, negb (b =? 45)) s.

(** The first form: eight digits of time, a colon, up to eight digits of age. *)
Definition pdb20_parts (value : str) : option (str * str) :=
  '(timestamp, age) ← split_once 58 value;
  if (len timestamp =? 8) && (len age <=? 8) && all_hex timestamp && all_hex age
  then Some (timestamp, age) else None.
Definition uuid_parts (value : str) : result DebugFileValueError (str * Z) :=
  if 36 <? len value then
    '(uuid, appendix) ← ok_or DeInvalidDebugId (_ ← split_once 45 value; rsplit_once 45 value);
    if negb (len uuid =? 36) || is_empty appendix || (8 <? len appendix) then Err DeInvalidDebugId
    else appendix ← parse_hex_u32 appendix; Ok (uuid, appendix)
  else Ok (value, 0).
Definition debug_id_parse (value : str) : result DebugFileValueError DebugId :=
  match pdb20_parts value with
  | Some (timestamp, age) =>
      timestamp ← parse_hex_u32 timestamp; age ← parse_hex_u32 age; Ok (DebugPdb20 timestamp age)
  | None =>
      '(uuid_text, appendix) ← uuid_parts value;
      let compact := strip_dashes uuid_text in
      if negb (len compact =? 32) || negb (all_hex compact) then Err DeInvalidDebugId
      else uuid ← ok_or DeInvalidDebugId (hex_decode compact); Ok (DebugUuid uuid appendix)
  end.

Definition debug_id_encode (id : DebugId) : bytes :=
  match id with
  | DebugUuid uuid appendix => if appendix =? 0 then uuid else uuid ++ be_bytes 4 appendix
  | DebugPdb20 timestamp age => be_bytes 4 timestamp ++ be_bytes 4 age
  end.
Definition debug_id_decode (bs : bytes) : result DebugFileValueError DebugId :=
  if len bs =? 16 then Ok (DebugUuid bs 0)
  else if len bs =? 20 then
    let appendix := be_val (drop 16 bs) in
    if negb (appendix =? 0) then Ok (DebugUuid (take 16 bs) appendix) else Err DeInvalidDebugId
  else if len bs =? 8 then Ok (DebugPdb20 (be_val (take 4 bs)) (be_val (drop 4 bs)))
  else Err DeInvalidDebugId.

(** [Display]: [{:08x}] pads with zeros. *)
Definition slice (from to : nat) (s : str) : str := take (to - from) (drop from s).
Definition debug_id_to_string (id : DebugId) : str :=
  match id with
  | DebugUuid uuid appendix =>
      let encoded := hex_encode uuid in
      slice 0 8 encoded ++ [45] ++ slice 8 12 encoded ++ [45] ++ slice 12 16 encoded ++ [45]
        ++ slice 16 20 encoded ++ [45] ++ drop 20 encoded
        ++ (if appendix =? 0 then [] else 45 :: to_hex appendix)
  | DebugPdb20 timestamp age => pad_zeros 8 (to_hex timestamp) ++ [58] ++ to_hex age
  end.

(** ** Code identifiers *)

Abbreviation CodeId := str.
Definition code_id_parse (value : str) : result DebugFileValueError CodeId :=
  let normalized := to_ascii_lowercase value in
  if non_empty normalized && (len normalized <=? 128) && all_hex normalized then Ok normalized
  else Err DeInvalidCodeId.
(** The value of a digit that was validated. *)
Definition nibble (byte : Z) : Z := if is_ascii_digit byte then byte - 48 else byte - 97 + 10.
Fixpoint pack (digits : str) : bytes :=
  match digits with
  | [] => []
  | [high] => [Z.lor (Z.shiftl (nibble high) 4) 0]
  | high :: low :: digits => Z.lor (Z.shiftl (nibble high) 4) (nibble low) :: pack digits
  end.
Definition code_id_encode (id : CodeId) : bytes := (len id mod 2) :: pack id.
Fixpoint unpack (odd : bool) (packed : bytes) : str :=
  match packed with
  | [] => []
  | byte :: packed =>
      hex_digit (Z.shiftr byte 4)
        :: (if odd && is_empty packed then [] else [hex_digit (Z.land byte 15)]) ++ unpack odd packed
  end.
Definition code_id_decode (bs : bytes) : result DebugFileValueError CodeId :=
  match bs with
  | [] => Err DeInvalidCodeId
  | flags :: packed =>
      if (1 <? flags) || is_empty packed
         || ((flags =? 1) && negb (Z.land (unwrap_or 0 (last packed)) 15 =? 0))
      then Err DeInvalidCodeId
      else code_id_parse (unpack (flags =? 1) packed)
  end.

(** ** Stored files *)

Section files.
Context `{!Blake3} `{!Base64Api}.

Definition debug_file_id_input (project_id : ProjectId) (checksum : bytes) : bytes :=
  lit "metric/debug-file-id/v1" ++ be_bytes 4 project_id ++ checksum.
Definition debug_file_id_derive (project_id : ProjectId) (checksum : bytes) : bytes :=
  take 16 (blake3 (debug_file_id_input project_id checksum)).
(** [bytes.try_into()] of sixteen bytes. *)
Definition debug_file_id_parse (value : str) : result DebugFileValueError bytes :=
  bs ← ok_or DeInvalidFileId (base64_decode value);
  if len bs =? 16 then Ok bs else Err DeInvalidFileId.
Definition debug_file_id_to_string (id : bytes) : str := base64_encode id.
End files.

Inductive DebugFileType := Elf | MachO | Pe | Pdb | PortablePdb | Breakpad | SourceBundle.
Definition debug_file_type_from_name (name : str) : result DebugFileValueError DebugFileType :=
  let lowercase := to_ascii_lowercase name in
  let ends (suffix : string) := ends_with (lit suffix) lowercase in
  if ends ".src.zip" then Ok SourceBundle
  else if ends ".sym" then Ok Breakpad
  else if ends ".pdb" then Ok Pdb
  else if ends ".dll" || ends ".exe" then Ok Pe
  else if ends ".dylib" || ends ".dsym" then Ok MachO
  else if ends ".so" || negb (str_contains [46] lowercase) then Ok Elf
  else Err DeInvalidName.
Definition symbolicator_name (type : DebugFileType) : string :=
  match type with
  | Elf => "elf" | MachO => "macho" | Pe => "pe" | Pdb => "pdb" | PortablePdb => "portablepdb"
  | Breakpad => "breakpad" | SourceBundle => "sourcebundle"
  end.

Record DebugFile := {
  df_id : bytes;
  df_project_id : ProjectId;
  df_debug_id : option DebugId;
  df_code_id : option CodeId;
  df_file_type : DebugFileType;
  df_checksum : bytes;
  df_sha1 : bytes;
  df_size : Z;
  df_name : str;
  df_uploaded_at : Timestamp;
}.
Record DebugUpload := {
  du_id : bytes;
  du_project_id : ProjectId;
  du_organization_id : Z;
  du_sha1 : bytes;
  du_name : str;
  du_debug_id : option DebugId;
  du_code_id : option CodeId;
  du_chunks : list bytes;
  du_created_at : Timestamp;
  du_updated_at : Timestamp;
}.
Inductive UploadState := UpPending | UpAssembling | UpComplete | UpFailed.

(** [value.rsplit(['/', '\\']).next()]. *)
Definition leaf_name (value : str) : str :=
  unwrap_or [] (last (split_by (λ b, (b =? 47) || (b =? 92)) value)).
Definition validate_debug_name (value : str) : result DebugFileValueError str :=
  let leaf := leaf_name value in
  if non_empty leaf && (len leaf <=? MAX_DEBUG_FILE_NAME_BYTES) && negb (any_control leaf)
  then Ok leaf else Err DeInvalidName.

(** *** Examples *)

Example parse_uuid_appendix :
  debug_id_parse (lit "67e9247c-814e-392b-a027-dbde6748fcbf-a")
  = Ok (DebugUuid [103;233;36;124;129;78;57;43;160;39;219;222;103;72;252;191] 10).
Proof. vm_compute. reflexivity. Qed.
Example parse_pdb20 : debug_id_parse (lit "65a1bc02:3") = Ok (DebugPdb20 1705098242 3).
Proof. vm_compute. reflexivity. Qed.
Example code_id_odd : code_id_encode (lit "abcdef1") = [1; 171; 205; 239; 16].
Proof. vm_compute. reflexivity. Qed.
Example decode_rejects :
  (debug_id_decode [], debug_id_decode (replicate 20 0), code_id_decode [], code_id_decode [2; 0],
   code_id_decode [1; 18])
  = (Err DeInvalidDebugId, Err DeInvalidDebugId, Err DeInvalidCodeId, Err DeInvalidCodeId,
     Err DeInvalidCodeId).
Proof. vm_compute. reflexivity. Qed.

(** ** The codecs *)

Definition u32 (z : Z) : Prop := 0 ≤ z ≤ U32_MAX.
Definition debug_id_valid (id : DebugId) : Prop :=
  match id with
  | DebugUuid uuid appendix => id16_valid uuid ∧ u32 appendix
  | DebugPdb20 timestamp age => u32 timestamp ∧ u32 age
  end.

Lemma be_val_u32 z : u32 z → be_val (be_bytes 4 z) = z.
Proof. unfold u32, U32_MAX. intros. rewrite be_val_be_bytes. apply Z.mod_small. cbn. lia. Qed.
Lemma be_val_u32_range bs : Forall is_byte bs → length bs = 4%nat → u32 (be_val bs).
Proof.
  intros Hb Hl. pose proof (be_val_bound bs Hb) as H. unfold len in H. rewrite Hl in H.
  change (256 ^ Z.of_nat 4) with 4294967296 in H. unfold u32, U32_MAX. lia.
Qed.
Lemma debug_id_decode_encode id : debug_id_valid id → debug_id_decode (debug_id_encode id) = Ok id.
Proof.
  destruct id as [uuid appendix|timestamp age]; intros [H1 H2]; unfold debug_id_decode, len; cbn [debug_id_encode].
  - destruct H1 as [Hl _]. destruct (Z.eqb_spec appendix 0) as [->|Hne]; [by rewrite Hl|].
    rewrite length_app, length_be_bytes, Hl.
    change (Z.of_nat (16 + 4) =? 16) with false. change (Z.of_nat (16 + 4) =? 20) with true. cbv zeta iota.
    rewrite drop_app_length' by done. rewrite take_app_length' by done.
    rewrite be_val_u32 by done. by replace (appendix =? 0) with false by lia.
  - rewrite length_app, !length_be_bytes. change (Z.of_nat (4 + 4) =? 16) with false.
    change (Z.of_nat (4 + 4) =? 20) with false. change (Z.of_nat (4 + 4) =? 8) with true. cbv iota.
    rewrite take_app_length', drop_app_length' by done. by rewrite !be_val_u32.
Qed.
Lemma be_bytes_be_val_at n bs : length bs = n → Forall is_byte bs → be_bytes n (be_val bs) = bs.
Proof. intros <-. apply be_bytes_be_val. Qed.
Lemma debug_id_decode_inv bs id : Forall is_byte bs → debug_id_decode bs = Ok id →
  debug_id_valid id ∧ debug_id_encode id = bs.
Proof.
  intros Hb. unfold debug_id_decode, len.
  destruct (Z.eqb_spec (Z.of_nat (length bs)) 16) as [E|_].
  { intros [= <-]. cbn. unfold id16_valid, u32, U32_MAX. repeat split; try done; lia. }
  destruct (Z.eqb_spec (Z.of_nat (length bs)) 20) as [E|_].
  { destruct (Z.eqb_spec (be_val (drop 16 bs)) 0) as [|Hne]; [done|]. intros [= <-].
    assert (length (drop 16 bs) = 4%nat) as Hd by (rewrite length_drop; lia).
    assert (Forall is_byte (drop 16 bs)) as Hdb by by apply Forall_drop.
    cbn [debug_id_valid debug_id_encode]. replace (_ =? 0) with false by lia. split.
    - repeat split; [rewrite length_take; lia|by apply Forall_take|by apply be_val_u32_range..].
    - rewrite be_bytes_be_val_at by done. apply take_drop. }
  destruct (Z.eqb_spec (Z.of_nat (length bs)) 8) as [E|_]; [|done]. intros [= <-].
  assert (length (take 4 bs) = 4%nat) as Ht by (rewrite length_take; lia).
  assert (length (drop 4 bs) = 4%nat) as Hd by (rewrite length_drop; lia).
  split; [split; apply be_val_u32_range; (done || by apply Forall_take || by apply Forall_drop)|].
  cbn [debug_id_encode].
  rewrite !be_bytes_be_val_at by (done || by apply Forall_take || by apply Forall_drop).
  apply take_drop.
Qed.

(** The texts. *)
Lemma split_once_None c s : split_once c s = None ↔ c ∉ s.
Proof.
  induction s as [|b s IH]; cbn; [set_solver|].
  destruct (Z.eqb_spec b c) as [->|Hne]; [set_solver|].
  destruct (split_once c s) as [[l r]|]; rewrite not_elem_of_cons; naive_solver.
Qed.
Lemma rsplit_once_app c l r : c ∉ r → rsplit_once c (l ++ c :: r) = Some (l, r).
Proof.
  intros Hr. unfold rsplit_once.
  assert (split_once c (reverse (l ++ c :: r)) = Some (reverse r, reverse l)) as ->.
  { apply split_once_Some. rewrite reverse_app, reverse_cons, <- (assoc_L (++)), elem_of_reverse. done. }
  by rewrite !reverse_involutive.
Qed.
Lemma hex_not_mark b : is_ascii_hexdigit b = true → b ≠ 45 ∧ b ≠ 58.
Proof. intros H. split; intros ->; done. Qed.
Lemma to_hex_hexdigits n b : 0 ≤ n < 2 ^ 64 → b ∈ to_hex n → is_ascii_hexdigit b = true.
Proof.
  intros Hn. rewrite to_hex_digits, list_elem_of_fmap by done. intros (d & -> & Hd).
  destruct (number_digits_ok 16 n) as (H & _); [lia..|]. unfold digits in H.
  rewrite Forall_forall in H. by apply hex_digit_lower, H.
Qed.
Lemma u32_u64 z : u32 z → 0 ≤ z < 2 ^ 64.
Proof. unfold u32, U32_MAX. lia. Qed.
Lemma all_hex_true s : all_hex s = true ↔ ∀ b, b ∈ s → is_ascii_hexdigit b = true.
Proof. apply forallb_true. Qed.

Lemma length_to_hex_u32 z : u32 z → (0 < length (to_hex z) ≤ 8)%nat.
Proof.
  intros Hz. rewrite to_hex_digits, length_map by by apply u32_u64. unfold number_digits.
  destruct (Z.eqb_spec z 0) as [->|Hne]; [cbn; lia|]. unfold u32, U32_MAX in Hz.
  apply (length_radix_digits 16 8); [done|cbn; lia].
Qed.

(** The five groups of a UUID. *)
Definition uuid_groups (e : str) : list str :=
  [slice 0 8 e; slice 8 12 e; slice 12 16 e; slice 16 20 e; drop 20 e].
Lemma slice_drop a b (s : str) : (a ≤ b)%nat → slice a b s ++ drop b s = drop a s.
Proof.
  intros Hab. unfold slice. replace b with (a + (b - a))%nat at 2 by lia.
  rewrite <- drop_drop. apply take_drop.
Qed.
Lemma concat_uuid_groups e : concat (uuid_groups e) = e.
Proof. cbn [concat uuid_groups]. by rewrite app_nil_r, !slice_drop by lia. Qed.
Lemma length_uuid_text e : length e = 32%nat → length (join [45] (uuid_groups e)) = 36%nat.
Proof.
  intros He. cbn [join uuid_groups]. unfold slice.
  by rewrite !length_app, !length_take, !length_drop, He.
Qed.
Lemma strip_dashes_join l : 45 ∉ concat l → strip_dashes (join [45] l) = concat l.
Proof.
  assert (∀ w : str, 45 ∉ w → strip_dashes w = w) as Hid.
  { intros w Hw. apply filter_id. intros b Hb. apply negb_true_iff, Z.eqb_neq. by intros ->. }
  induction l as [|w [|v l] IH]; [done|cbn; rewrite app_nil_r; apply Hid|].
  cbn [concat]. rewrite elem_of_app. intros H.
  rewrite join_cons by done. unfold strip_dashes in *. rewrite !List.filter_app, IH by (cbn; set_solver).
  rewrite Hid by set_solver. done.
Qed.
Lemma elem_of_join c b l : b ∈ join [c] l → b = c ∨ b ∈ concat l.
Proof.
  induction l as [|w [|v l] IH]; [set_solver|cbn; rewrite app_nil_r; auto|].
  rewrite join_cons by done. cbn [concat] in *. set_solver.
Qed.
Lemma debug_uuid_to_string uuid appendix :
  debug_id_to_string (DebugUuid uuid appendix)
  = join [45] (uuid_groups (hex_encode uuid)) ++ (if appendix =? 0 then [] else 45 :: to_hex appendix).
Proof.
  cbn [debug_id_to_string uuid_groups join]. rewrite <- !(assoc_L (++)). done.
Qed.
Lemma debug_id_parse_uuid uuid appendix : id16_valid uuid → u32 appendix →
  debug_id_parse (debug_id_to_string (DebugUuid uuid appendix)) = Ok (DebugUuid uuid appendix).
Proof.
  intros [Hl Hb] Ha. rewrite debug_uuid_to_string. set (text := join [45] _).
  assert (∀ b, b ∈ hex_encode uuid → b ≠ 45 ∧ b ≠ 58) as Hm.
  { intros b Hin. apply hex_not_mark. by eapply hex_encode_hexdigits. }
  assert (length (hex_encode uuid) = 32%nat) as He by (rewrite length_hex_encode; lia).
  assert (length text = 36%nat) as Ht by (by apply length_uuid_text).
  assert (strip_dashes text = hex_encode uuid) as Hstrip.
  { unfold text. rewrite strip_dashes_join; rewrite concat_uuid_groups; [done|].
    intros Hin. by destruct (Hm 45). }
  assert (58 ∉ text) as Hcolon.
  { intros [?|Hin]%elem_of_join; [done|]. rewrite concat_uuid_groups in Hin. by destruct (Hm 58). }
  clearbody text.
  assert (∀ b, b ∈ to_hex appendix → b ≠ 45 ∧ b ≠ 58) as Hm'.
  { intros b Hin. apply hex_not_mark. by apply (to_hex_hexdigits _ _ (u32_u64 _ Ha)). }
  assert (uuid_parts (text ++ (if appendix =? 0 then [] else 45 :: to_hex appendix))
          = Ok (text, appendix)) as Hparts.
  { unfold uuid_parts, len. destruct (Z.eqb_spec appendix 0) as [->|Hne].
    - by rewrite app_nil_r, Ht.
    - rewrite length_app, Ht. cbn [length].
      rewrite (proj2 (Z.ltb_lt 36 _)) by (clear; lia).
      destruct (split_once 45 (text ++ 45 :: to_hex appendix)) as [[l r]|] eqn:E;
        [|apply split_once_None in E; set_solver].
      cbn [mbind option_bind]. rewrite rsplit_once_app by (intros Hin; by destruct (Hm' 45)).
      cbn [ok_or mbind result_bind]. rewrite Ht.
      pose proof (length_to_hex_u32 appendix Ha).
      replace (is_empty (to_hex appendix)) with false by (destruct (to_hex appendix); [cbn in *; lia|done]).
      replace (8 <? Z.of_nat (length (to_hex appendix))) with false by lia. cbn [negb orb Z.eqb].
      unfold parse_hex_u32. rewrite parse_hex_to_hex by (unfold u32, U32_MAX in *; lia). done. }
  unfold debug_id_parse, pdb20_parts. destruct (split_once 58 _) as [[l r]|] eqn:E.
  { apply split_once_Some in E as [E _]. exfalso.
    assert (58 ∈ text ++ (if appendix =? 0 then [] else 45 :: to_hex appendix)) as Hin
      by (rewrite E; set_solver).
    apply elem_of_app in Hin as [Hin|Hin]; [done|]. destruct (appendix =? 0); [by apply elem_of_nil in Hin|].
    apply elem_of_cons in Hin as [?|Hin]; [done|by destruct (Hm' 58)]. }
  cbn [mbind option_bind]. rewrite Hparts. cbn [mbind result_bind]. rewrite Hstrip.
  unfold len. rewrite He. replace (all_hex (hex_encode uuid)) with true
    by (symmetry; apply all_hex_true; intros; by eapply hex_encode_hexdigits).
  by rewrite hex_decode_encode.
Qed.
Lemma debug_id_parse_pdb timestamp age : u32 timestamp → u32 age →
  debug_id_parse (debug_id_to_string (DebugPdb20 timestamp age)) = Ok (DebugPdb20 timestamp age).
Proof.
  intros Ht Ha. pose proof (length_to_hex_u32 age Ha) as Hla. pose proof (length_to_hex_u32 timestamp Ht).
  assert (∀ b, b ∈ pad_zeros 8 (to_hex timestamp) → is_ascii_hexdigit b = true) as Hp.
  { intros b. unfold pad_zeros. rewrite elem_of_app. intros [Hb|Hb].
    - apply elem_of_replicate in Hb as [-> _]. done.
    - by apply (to_hex_hexdigits _ _ (u32_u64 _ Ht)). }
  assert (all_hex (to_hex age) = true) as Hh.
  { apply all_hex_true. intros b Hb. by apply (to_hex_hexdigits _ _ (u32_u64 _ Ha)). }
  cbn [debug_id_to_string]. unfold debug_id_parse, pdb20_parts.
  rewrite (proj2 (split_once_Some 58 _ (pad_zeros 8 (to_hex timestamp)) (to_hex age)));
    [|split; [done|intros Hb%Hp; done]].
  cbn [mbind option_bind]. unfold len.
  replace (length (pad_zeros 8 (to_hex timestamp))) with 8%nat
    by (unfold pad_zeros; rewrite length_app, length_replicate; lia).
  replace (Z.of_nat (length (to_hex age)) <=? 8) with true by lia. rewrite Hh.
  rewrite (proj2 (all_hex_true _) Hp). change (Z.of_nat 8 =? 8) with true.
  cbn [andb]. unfold parse_hex_u32. rewrite parse_hex_padded by (unfold u32, U32_MAX in *; lia).
  cbn [ok_or mbind result_bind]. by rewrite parse_hex_to_hex by (unfold u32, U32_MAX in *; lia).
Qed.

(** Debug identifiers are canonical: the stored bytes and the text of an
    identifier are both read as it, only its own bytes are, and what is read
    is an identifier. *)
Theorem debug_id_codec id bs :
  (debug_id_valid id →
   debug_id_decode (debug_id_encode id) = Ok id ∧ debug_id_parse (debug_id_to_string id) = Ok id)
  ∧ (Forall is_byte bs → debug_id_decode bs = Ok id → debug_id_valid id ∧ debug_id_encode id = bs).
Proof.
  split; [|apply debug_id_decode_inv]. intros Hv. split; [by apply debug_id_decode_encode|].
  destruct id as [uuid appendix|timestamp age], Hv.
  - by apply debug_id_parse_uuid.
  - by apply debug_id_parse_pdb.
Qed.

(** ** Code identifiers *)

(** Two digits in a byte. *)
Lemma pack_byte h l : 0 ≤ h < 16 → 0 ≤ l < 16 →
  Z.shiftr (Z.lor (Z.shiftl h 4) l) 4 = h ∧ Z.land (Z.lor (Z.shiftl h 4) l) 15 = l.
Proof.
  intros Hh Hl. change 15 with (Z.ones 4). rewrite Z.land_ones by done.
  rewrite Z.shiftr_div_pow2 by done.
  assert (Z.lor (Z.shiftl h 4) l = h * 16 + l) as ->.
  { rewrite Z.shiftl_mul_pow2 by done.
    assert (Z.land (h * 2 ^ 4) l = 0) as H0; [|pose proof (Z.add_lor_land (h * 2 ^ 4) l); lia].
    apply Z.bits_inj'. intros n Hn. rewrite Z.land_spec, Z.bits_0. apply andb_false_iff.
    destruct (Z.ltb_spec n 4); [left; by apply Z.mul_pow2_bits_low|right].
    rewrite <- (Z.mod_small l (2 ^ 4)) by lia. by apply Z.mod_pow2_bits_high. }
  change (2 ^ 4) with 16. split; Z.to_euclidean_division_equations; lia.
Qed.
Lemma unpack_byte b : is_byte b →
  0 ≤ Z.shiftr b 4 < 16 ∧ 0 ≤ Z.land b 15 < 16 ∧ Z.lor (Z.shiftl (Z.shiftr b 4) 4) (Z.land b 15) = b.
Proof.
  unfold is_byte. intros Hb. assert (b ∈ seqZ 0 256) as Hin by (apply elem_of_seqZ; lia).
  assert (forallb (λ b, (0 <=? Z.shiftr b 4) && (Z.shiftr b 4 <? 16) && (0 <=? Z.land b 15)
    && (Z.land b 15 <? 16) && (Z.lor (Z.shiftl (Z.shiftr b 4) 4) (Z.land b 15) =? b)) (seqZ 0 256) = true)
    as Hall by reflexivity.
  rewrite forallb_forall in Hall. specialize (Hall b). rewrite <- list_elem_of_In in Hall.
  specialize (Hall Hin). bool_prop. lia.
Qed.
(** A digit as it is kept. *)
Definition code_digit (b : Z) : Prop := ∃ d, 0 ≤ d < 16 ∧ b = hex_digit d.
Lemma nibble_digit d : 0 ≤ d < 16 → nibble (hex_digit d) = d.
Proof.
  intros Hd. unfold nibble, hex_digit, is_ascii_digit.
  destruct (Z.ltb_spec d 10).
  - rewrite (proj2 (in_range_true _ _ _)) by lia. lia.
  - rewrite (proj2 (in_range_false _ _ _)) by lia. lia.
Qed.
Lemma debug_lower_hexdigit b : is_ascii_hexdigit (ascii_lower b) = true → code_digit (ascii_lower b).
Proof.
  unfold ascii_lower, is_ascii_hexdigit, is_ascii_uppercase, is_ascii_digit, code_digit, hex_digit.
  rewrite !orb_true_iff, !in_range_true.
  destruct (in_range 65 90 b) eqn:E; [apply in_range_true in E|apply in_range_false in E]; intros H.
  - exists (b - 55). replace (b - 55 <? 10) with false by lia. lia.
  - destruct (decide (48 ≤ b ≤ 57)).
    + exists (b - 48). replace (b - 48 <? 10) with true by lia. lia.
    + exists (b - 87). replace (b - 87 <? 10) with false by lia. lia.
Qed.
Lemma code_digit_lower b : code_digit b → ascii_lower b = b ∧ is_ascii_hexdigit b = true.
Proof.
  intros (d & Hd & ->). split; [|by apply hex_digit_lower].
  unfold ascii_lower, is_ascii_uppercase, hex_digit. destruct (Z.ltb_spec d 10);
    rewrite (proj2 (in_range_false _ _ _)) by lia; done.
Qed.
Definition code_id_valid (id : CodeId) : Prop := Forall code_digit id ∧ id ≠ [] ∧ len id ≤ 128.
Lemma code_id_parse_Ok value id :
  code_id_parse value = Ok id ↔ id = to_ascii_lowercase value ∧ code_id_valid id.
Proof.
  unfold code_id_parse, code_id_valid. set (n := to_ascii_lowercase value).
  assert (all_hex n = true ↔ Forall code_digit n) as Hh.
  { rewrite all_hex_true, Forall_forall. split.
    - intros H b Hb. pose proof (H b Hb) as Hx. unfold n, to_ascii_lowercase in Hb.
      apply list_elem_of_fmap in Hb as (c & -> & _). by apply debug_lower_hexdigit.
    - intros H b Hb. by apply code_digit_lower, H. }
  case_test; bool_prop.
  - split; [intros [= <-]|intros [-> _]; done]. split_and!; [done|tauto|by apply non_empty_true|lia].
  - split; [done|]. intros [-> (H1 & H2%non_empty_true & H3)]. apply Hh in H1.
    rewrite H1, H2 in *. exfalso. unfold len in *. naive_solver lia.
Qed.
Lemma code_id_parse_self id : code_id_valid id → code_id_parse id = Ok id.
Proof.
  intros Hv. apply code_id_parse_Ok. split; [|done]. destruct Hv as [H _]. unfold to_ascii_lowercase.
  induction H as [|b id Hb _ IH]; [done|]. cbn. rewrite <- IH. f_equal. symmetry.
  by apply code_digit_lower.
Qed.

Lemma unpack_pack (odd : bool) id : Forall code_digit id → Z.of_nat (length id) mod 2 = (if odd then 1 else 0) →
  unpack odd (pack id) = id.
Proof.
  remember (length id) as n eqn:Hn. revert id Hn.
  induction n as [n IH] using lt_wf_ind. intros id Hn H Hodd.
  destruct id as [|high [|low id]]; [done| |].
  - inversion H as [|? ? (d & Hd & ->)]; subst. cbn in Hodd. destruct odd; [|done].
    cbn -[hex_digit Z.lor Z.shiftl Z.shiftr Z.land]. rewrite nibble_digit by done.
    by destruct (pack_byte d 0) as [-> _]; [lia..|].
  - inversion H as [|? ? (d & Hd & ->) H']; subst. inversion H' as [|? ? (e & He & ->) H'']; subst.
    cbn -[hex_digit Z.lor Z.shiftl Z.shiftr Z.land length] in *.
    rewrite !nibble_digit by done. destruct (pack_byte d e Hd He) as [-> ->].
    assert (odd && is_empty (pack id) = false) as ->.
    { destruct odd; [|done]. destruct id as [|? [|]]; [|done..]. done. }
    cbn [app]. do 2 f_equal. apply (IH (length id)); [cbn; lia|done..|].
    rewrite <- Hodd. cbn [length]. rewrite !Nat2Z.inj_succ.
    replace (Z.succ (Z.succ (Z.of_nat (length id)))) with (Z.of_nat (length id) + 1 * 2) by lia.
    by rewrite Z.mod_add.
Qed.
Lemma pack_unpack (odd : bool) packed : Forall is_byte packed →
  (odd = true → ∃ b, last packed = Some b ∧ Z.land b 15 = 0) →
  pack (unpack odd packed) = packed ∧ Forall code_digit (unpack odd packed)
  ∧ len (unpack odd packed) = 2 * len packed - (if odd then 1 else 0).
Proof.
  induction 1 as [|b packed Hb Hp IH]; intros Hlast.
  { destruct odd; [by destruct Hlast as (? & ? & _)|done]. }
  destruct (unpack_byte b Hb) as (Hh & Hl & Hx). cbn [unpack].
  assert (code_digit (hex_digit (Z.shiftr b 4))) by (by exists (Z.shiftr b 4)).
  assert (code_digit (hex_digit (Z.land b 15))) by (by exists (Z.land b 15)).
  destruct (odd && is_empty packed) eqn:E.
  - apply andb_true_iff in E as [-> ->%is_empty_true]. destruct Hlast as (c & Hc & Hz); [done|].
    injection Hc as ->. cbn -[hex_digit Z.lor Z.shiftl Z.shiftr Z.land]. rewrite nibble_digit by done.
    rewrite Hz in Hx. rewrite Hx. split_and!; [done|by apply Forall_singleton|done].
  - destruct IH as (IHp & IHd & IHl).
    { intros ->. destruct packed; [done|]. by apply Hlast. }
    cbn -[hex_digit Z.lor Z.shiftl Z.shiftr Z.land len]. rewrite !nibble_digit, IHp, Hx by done.
    split_and!; [done|by rewrite !Forall_cons|]. rewrite !len_cons, IHl. lia.
Qed.

Lemma length_pack id : len (pack id) = (len id + 1) / 2.
Proof.
  remember (length id) as n eqn:Hn. revert id Hn.
  induction n as [n IH] using lt_wf_ind. intros [|high [|low id]] ->; [done..|].
  cbn [pack]. rewrite !len_cons, (IH (length id)) by (done || cbn; lia).
  Z.to_euclidean_division_equations. lia.
Qed.
Lemma last_pack_odd id : Forall code_digit id → len id mod 2 = 1 →
  Z.land (unwrap_or 0 (last (pack id))) 15 = 0.
Proof.
  remember (length id) as n eqn:Hn. revert id Hn.
  induction n as [n IH] using lt_wf_ind. intros [|high [|low id]] -> H Hodd; [done| |].
  - inversion H as [|? ? (d & Hd & ->)]; subst. cbn -[hex_digit Z.lor Z.shiftl Z.land].
    rewrite nibble_digit by done. by apply pack_byte.
  - inversion H as [|? ? _ H']; subst. inversion H' as [|? ? _ H'']; subst.
    rewrite !len_cons in Hodd. replace (1 + (1 + len id)) with (len id + 1 * 2) in Hodd by lia.
    rewrite Z.mod_add in Hodd by done.
    specialize (IH (length id) ltac:(cbn; lia) id eq_refl H'' Hodd).
    cbn [pack last]. destruct (pack id) as [|b bs] eqn:E; [|done].
    destruct id as [|? [|]]; done.
Qed.
Lemma code_id_decode_encode id : code_id_valid id →
  code_id_decode (code_id_encode id) = Ok id ∧ len (code_id_encode id) = 1 + (len id + 1) / 2.
Proof.
  intros Hv. pose proof Hv as (Hd & Hne & Hl). unfold code_id_encode. rewrite len_cons, length_pack.
  split; [|done]. unfold code_id_decode. pose proof (Z.mod_pos_bound (len id) 2 ltac:(lia)).
  replace (1 <? len id mod 2) with false by lia.
  replace (is_empty (pack id)) with false by (destruct id as [|? [|]]; done). cbn [orb].
  destruct (Z.eqb_spec (len id mod 2) 1) as [E|E].
  - rewrite last_pack_odd by done. cbn [andb negb Z.eqb].
    by rewrite unpack_pack, code_id_parse_self.
  - cbn [andb]. rewrite unpack_pack, code_id_parse_self by (done || unfold len in *; lia). done.
Qed.
Lemma code_id_decode_inv bs id : Forall is_byte bs → code_id_decode bs = Ok id → code_id_encode id = bs.
Proof.
  intros Hb. destruct bs as [|flags packed]; [done|]. inversion Hb as [|? ? Hf Hp]; subst.
  unfold code_id_decode. destruct (_ || _ || _) eqn:E0; [done|].
  apply orb_false_iff in E0 as [[E1 E2]%orb_false_iff E3].
  destruct (pack_unpack (flags =? 1) packed Hp) as (Hpack & Hd & Hl).
  { intros E. rewrite E in E3. destruct (last packed) as [b|] eqn:El.
    - exists b. split; [done|]. cbn in E3. bool_prop. lia.
    - apply last_None in El as ->. done. }
  intros Hok. apply code_id_parse_Ok in Hok as [Hid Hv].
  assert (id = unpack (flags =? 1) packed) as ->.
  { rewrite Hid. clear -Hd. unfold to_ascii_lowercase.
    induction Hd as [|b l Hb _ IH]; [done|]. cbn. f_equal; [by apply code_digit_lower|done]. }
  unfold code_id_encode. rewrite Hpack, Hl. f_equal. unfold is_byte in Hf.
  destruct (Z.eqb_spec flags 1); Z.to_euclidean_division_equations; lia.
Qed.

(** Code identifiers are canonical too: what is parsed is lower case
    hexadecimal of at most 128 digits, is kept in half the bytes, and is read
    back from them; no other bytes are read as it. *)
Theorem code_id_codec value id bs :
  (code_id_parse value = Ok id →
   id = to_ascii_lowercase value ∧ code_id_decode (code_id_encode id) = Ok id
   ∧ len (code_id_encode id) = 1 + (len id + 1) / 2)
  ∧ (Forall is_byte bs → code_id_decode bs = Ok id → code_id_encode id = bs).
Proof.
  split.
  - intros [-> Hv]%code_id_parse_Ok. split; [done|]. by apply code_id_decode_encode.
  - intros Hb. by apply code_id_decode_inv.
Qed.
