(* ===== verification/Blobs.v ===== *)
(** * Objects of the blob store

    [domain/src/blob.rs] and the identities of [domain/src/archive.rs] and
    [domain/src/artifacts.rs]: the keys of stored objects, how each kind of
    object is named and read back from its name, names and types of
    attachments. *)
From stdpp Require Import base list numbers strings sets.
From Stdlib Require Import ZArith Lia.
From S2P Require Import Prelude Radix External Primitives Identity DebugIds.

Definition MAX_BLOB_KEY_BYTES : Z := 512.
Definition MAX_ATTACHMENT_FILENAME_BYTES : Z := 128.
Definition MAX_CONTENT_TYPE_BYTES : Z := 128.

Inductive BlobValueError := BInvalidKey | BInvalidFilename | BInvalidContentType.

(** ** Archives *)

Inductive ArchiveKind := AkEvent | AkLog | AkSpan | AkSession | AkMetric.
#[global] Instance ArchiveKind_eq_dec : EqDecision ArchiveKind.
Proof. solve_decision. Defined.
Definition archive_name (kind : ArchiveKind) : string :=
  match kind with
  | AkEvent => "event" | AkLog => "log" | AkSpan => "span" | AkSession => "session"
  | AkMetric => "metric"
  end.
Definition archive_directory (kind : ArchiveKind) : string :=
  match kind with
  | AkEvent => "events" | AkLog => "logs" | AkSpan => "spans" | AkSession => "sessions"
  | AkMetric => "metrics"
  end.
Definition archive_kinds : list ArchiveKind := [AkEvent; AkLog; AkSpan; AkSession; AkMetric].
(** A [match] on the texts of the five kinds. *)
Definition archive_from (text : ArchiveKind → string) (value : str) : option ArchiveKind :=
  list_find (λ kind, value = lit (text kind)) archive_kinds ≫= λ found, Some found.2.
Definition archive_from_name (value : str) : option ArchiveKind := archive_from archive_name value.
Definition archive_from_directory (value : str) : option ArchiveKind :=
  archive_from archive_directory value.

Inductive ArchiveSourceId :=
| SourceEvent (key : bytes)
| SourceLog (id : bytes)
| SourceSpan (id : bytes)
| SourceSession (id : bytes)
| SourceMetric (id : bytes).
Definition source_kind (id : ArchiveSourceId) : ArchiveKind :=
  match id with
  | SourceEvent _ => AkEvent | SourceLog _ => AkLog | SourceSpan _ => AkSpan
  | SourceSession _ => AkSession | SourceMetric _ => AkMetric
  end.
Definition source_bytes (id : ArchiveSourceId) : bytes :=
  match id with
  | SourceEvent v | SourceLog v | SourceSpan v | SourceSession v | SourceMetric v => v
  end.
Definition segment_id_input (kind : ArchiveKind) (project_id : ProjectId)
    (source_ids : list ArchiveSourceId) : bytes :=
  lit "metric-signal-archive-segment/v1" ++ lit (archive_name kind) ++ [0] ++ be_bytes 4 project_id
    ++ concat (map source_bytes source_ids).
Definition segment_id_derive_sources `{!Blake3} kind project_id source_ids : bytes :=
  take 16 (blake3 (segment_id_input kind project_id source_ids)).
Definition segment_id_derive `{!Blake3} (project_id : ProjectId) (event_keys : list bytes) : bytes :=
  segment_id_derive_sources AkEvent project_id (map SourceEvent event_keys).

(** ** Keys *)

Abbreviation BlobKey := str.
Definition valid_segment (segment : str) : bool :=
  non_empty segment && negb (bool_decide (segment = lit ".")) && negb (bool_decide (segment = lit ".."))
  && (len segment <=? 128)
  && forallb (λ b, is_ascii_alphanumeric b || (b =? 45) || (b =? 95) || (b =? 46) || (b =? 64)) segment.
Definition blob_key_new (value : str) : result BlobValueError BlobKey :=
  let valid := non_empty value && (len value <=? MAX_BLOB_KEY_BYTES)
    && negb (starts_with [47] value) && negb (ends_with [47] value) && negb (str_contains [92] value)
    && forallb valid_segment (split_on 47 value) in
  if valid then Ok value else Err BInvalidKey.

(** The loop gives no digit for zero; identifiers are positive. *)
Definition base36 (value : Z) : str := map hex_digit (radix_digits 36 value).

Section keys.
Context `{!Base64Api}.

(** [format!] of segments with slashes between them. *)
Definition key_of (segments : list str) : BlobKey := join [47] segments.
Definition event_owned (project_id : ProjectId) (event_id object_id : bytes) : BlobKey :=
  key_of [lit "projects"; to_dec project_id; lit "events"; id_to_string event_id; id_to_string object_id].
Definition replay_recording (project_id : ProjectId) (replay_id : bytes) (segment_id : Z) : BlobKey :=
  key_of [lit "projects"; to_dec project_id; lit "replays"; id_to_string replay_id;
          to_dec segment_id ++ lit ".rrweb"].
Definition debug_chunk (organization_id : Z) (sha1 : bytes) : BlobKey :=
  key_of [lit "debug-chunks"; to_dec organization_id; hex_encode sha1].
Definition debug_file (project_id : ProjectId) (file_id : bytes) : BlobKey :=
  key_of [lit "d"; base36 project_id; base64_encode file_id].
Definition artifact_bundle (organization_id : Z) (bundle_id : bytes) (generation : Z) : BlobKey :=
  key_of ([lit "a"; base36 organization_id; base64_encode bundle_id]
          ++ (if generation =? 0 then [] else [base36 generation])).
Definition archive_key (kind : ArchiveKind) (project_id : ProjectId) (year month day : Z)
    (segment_id : bytes) : BlobKey :=
  key_of [lit "projects"; to_dec project_id; lit "archives"; lit (archive_directory kind);
          pad_zeros 4 (to_dec year); pad_zeros 2 (to_dec month); pad_zeros 2 (to_dec day);
          id_to_string segment_id ++ lit ".parquet"].
Definition event_archive := archive_key AkEvent.

Definition parse_project (segment : str) : result BlobValueError ProjectId :=
  value ← ok_or BInvalidKey (parse_i32 segment);
  map_err (λ _, BInvalidKey) (project_id_new value).
Definition parse_object_id (value : str) : result BlobValueError bytes :=
  if negb (len value =? 32) || negb (forallb is_ascii_hexdigit value) then Err BInvalidKey
  else ok_or BInvalidKey (hex_decode value).
Definition strip_suffix (suffix s : str) : option str :=
  reverse <$> strip_prefix (reverse suffix) (reverse s).

Definition event_relation (key : BlobKey) : result BlobValueError (ProjectId * bytes * bytes) :=
  match split_on 47 key with
  | [s0; s1; s2; s3; s4] =>
      if negb (bool_decide (s0 = lit "projects")) || negb (bool_decide (s2 = lit "events"))
      then Err BInvalidKey
      else
        project_id ← parse_project s1;
        event_id ← map_err (λ _, BInvalidKey) (event_id_parse s3);
        object_id ← parse_object_id s4;
        Ok (project_id, event_id, object_id)
  | _ => Err BInvalidKey
  end.
Definition replay_relation (key : BlobKey) : result BlobValueError (ProjectId * bytes * Z) :=
  match split_on 47 key with
  | [s0; s1; s2; s3; s4] =>
      if negb (bool_decide (s0 = lit "projects")) || negb (bool_decide (s2 = lit "replays"))
      then Err BInvalidKey
      else
        project_id ← parse_project s1;
        replay_id ← map_err (λ _, BInvalidKey) (event_id_parse s3);
        segment_id ← ok_or BInvalidKey (strip_suffix (lit ".rrweb") s4 ≫= parse_u32);
        Ok (project_id, replay_id, segment_id)
  | _ => Err BInvalidKey
  end.
Definition debug_file_relation (key : BlobKey) : result BlobValueError (ProjectId * bytes) :=
  match split_on 47 key with
  | [s0; s1; s2] =>
      if negb (bool_decide (s0 = lit "d")) then Err BInvalidKey
      else
        project_value ← ok_or BInvalidKey (parse_i32_base36 s1);
        project_id ← map_err (λ _, BInvalidKey) (project_id_new project_value);
        file_id ← map_err (λ _, BInvalidKey) (debug_file_id_parse s2);
        Ok (project_id, file_id)
  | _ => Err BInvalidKey
  end.
Definition archive_relation (key : BlobKey) : result BlobValueError (ProjectId * ArchiveKind) :=
  match split_on 47 key with
  | [s0; s1; s2; s3; _; _; _; s7] =>
      if negb (bool_decide (s0 = lit "projects")) || negb (bool_decide (s2 = lit "archives"))
         || negb (ends_with (lit ".parquet") s7)
      then Err BInvalidKey
      else
        project_id ← parse_project s1;
        kind ← ok_or BInvalidKey (archive_from_directory s3);
        Ok (project_id, kind)
  | _ => Err BInvalidKey
  end.
Definition archive_project (key : BlobKey) : result BlobValueError ProjectId :=
  fst <$> archive_relation key.
End keys.

(** ** Kinds and namespaces *)

Inductive BlobKind :=
| BkEventAttachment | BkMinidump | BkDebugChunk | BkDebugFile | BkArtifactBundle | BkEventArchive
| BkLogArchive | BkSpanArchive | BkSessionArchive | BkMetricArchive | BkReplayRecording.
#[global] Instance BlobKind_eq_dec : EqDecision BlobKind.
Proof. solve_decision. Defined.
Definition blob_kind_name (kind : BlobKind) : string :=
  match kind with
  | BkEventAttachment => "event_attachment" | BkMinidump => "minidump" | BkDebugChunk => "debug_chunk"
  | BkDebugFile => "debug_file" | BkArtifactBundle => "artifact_bundle"
  | BkEventArchive => "event_archive" | BkLogArchive => "log_archive"
  | BkSpanArchive => "span_archive" | BkSessionArchive => "session_archive"
  | BkMetricArchive => "metric_archive" | BkReplayRecording => "replay_recording"
  end.
Definition blob_kind_archive (kind : ArchiveKind) : BlobKind :=
  match kind with
  | AkEvent => BkEventArchive | AkLog => BkLogArchive | AkSpan => BkSpanArchive
  | AkSession => BkSessionArchive | AkMetric => BkMetricArchive
  end.
Inductive BlobNamespace :=
| NsEventOwned | NsDebugChunks | NsDebugFiles | NsArtifactBundles | NsEventArchives | NsLogArchives
| NsSpanArchives | NsSessionArchives | NsMetricArchives | NsReplayRecordings.
Definition namespace_prefix (ns : BlobNamespace) : string :=
  match ns with
  | NsDebugChunks => "debug-chunks/" | NsDebugFiles => "d/" | NsArtifactBundles => "a/"
  | _ => "projects/"
  end.
Definition namespace_archive (kind : ArchiveKind) : BlobNamespace :=
  match kind with
  | AkEvent => NsEventArchives | AkLog => NsLogArchives | AkSpan => NsSpanArchives
  | AkSession => NsSessionArchives | AkMetric => NsMetricArchives
  end.
Definition expect_archive_kind (key : BlobKey) (expected : ArchiveKind) : result BlobValueError unit :=
  '(_, actual) ← archive_relation key;
  if bool_decide (actual = expected) then Ok tt else Err BInvalidKey.
Definition kind_for_key (ns : BlobNamespace) (key : BlobKey) : result BlobValueError BlobKind :=
  if negb (starts_with (lit (namespace_prefix ns)) key) then Err BInvalidKey
  else
    match ns with
    | NsEventOwned => _ ← event_relation key; Ok BkEventAttachment
    | NsDebugChunks => Ok BkDebugChunk
    | NsDebugFiles => Ok BkDebugFile
    | NsArtifactBundles => Ok BkArtifactBundle
    | NsEventArchives => _ ← expect_archive_kind key AkEvent; Ok BkEventArchive
    | NsLogArchives => _ ← expect_archive_kind key AkLog; Ok BkLogArchive
    | NsSpanArchives => _ ← expect_archive_kind key AkSpan; Ok BkSpanArchive
    | NsSessionArchives => _ ← expect_archive_kind key AkSession; Ok BkSessionArchive
    | NsMetricArchives => _ ← expect_archive_kind key AkMetric; Ok BkMetricArchive
    | NsReplayRecordings => _ ← replay_relation key; Ok BkReplayRecording
    end.

(** ** Objects and attachments *)

Record BlobObject := {
  bo_key : BlobKey;
  bo_kind : BlobKind;
  bo_size : Z;
  bo_checksum : bytes;
  bo_created_at : Timestamp;
}.
Definition attachment_filename_sanitized (value : str) : result BlobValueError str :=
  let leaf := concat (List.filter (λ c, negb (is_control c)) (utf8_chunks (leaf_name value))) in
  if non_empty leaf && (len leaf <=? MAX_ATTACHMENT_FILENAME_BYTES) then Ok leaf
  else Err BInvalidFilename.
Definition is_ascii (s : str) : bool := forallb (λ b, b <? 128) s.
Definition blob_content_type_new (value : str) : result BlobValueError str :=
  if non_empty value && (len value <=? MAX_CONTENT_TYPE_BYTES) && is_ascii value
     && negb (any_control value)
  then Ok value else Err BInvalidContentType.
Record EventAttachment := {
  ea_attachment_id : bytes;
  ea_blob : BlobObject;
  ea_filename : str;
  ea_content_type : str;
  ea_attachment_type : str;
}.

(** *** Examples *)

Example traversal_rejected :
  map blob_key_new [lit "../secret"; lit "projects/1/../../secret"; lit "/absolute"; lit "projects\1\secret";
                    lit "projects//secret"]
  = replicate 5 (Err BInvalidKey).
Proof. vm_compute. reflexivity. Qed.
Example leaf_only : attachment_filename_sanitized (lit "../../safe.txt") = Ok (lit "safe.txt").
Proof. vm_compute. reflexivity. Qed.

(** ** Names of objects *)

(** A character of a segment, and one that is no dot. *)
Definition plain_char (b : Z) : bool := is_ascii_alphanumeric b || (b =? 45) || (b =? 95).
Definition segment_char (b : Z) : bool := plain_char b || (b =? 46) || (b =? 64).

Lemma hex_digit_plain d : 0 ≤ d < 36 → plain_char (hex_digit d) = true.
Proof.
  intros Hd. assert (d ∈ seqZ 0 36) as Hin by (apply elem_of_seqZ; lia). cbn in Hin.
  repeat (apply elem_of_cons in Hin as [->|Hin]; [done|]). by apply elem_of_nil in Hin.
Qed.
Lemma digits_plain radix ds : radix ≤ 36 → digits radix ds → forallb plain_char (map hex_digit ds) = true.
Proof.
  intros Hr Hd. apply forallb_true. intros b (d & -> & Hin)%list_elem_of_fmap.
  unfold digits in Hd. rewrite Forall_forall in Hd. apply hex_digit_plain. specialize (Hd d Hin). lia.
Qed.
Lemma to_dec_plain z : 0 ≤ z → forallb plain_char (to_dec z) = true ∧ to_dec z ≠ [].
Proof.
  intros Hz. destruct (number_digits_ok 10 z) as (Hd & Hne & _); [lia..|].
  rewrite to_dec_digits by done. split; [by apply (digits_plain 10)|].
  by destruct (number_digits 10 z).
Qed.
Lemma pad_zeros_plain w s : forallb plain_char s = true → forallb plain_char (pad_zeros w s) = true.
Proof.
  unfold pad_zeros. rewrite forallb_app, andb_true_iff. split; [|done].
  apply forallb_true. intros b [-> _]%elem_of_replicate. done.
Qed.
Lemma base36_plain z : 0 < z → forallb plain_char (base36 z) = true ∧ base36 z ≠ [].
Proof.
  intros Hz. destruct (radix_digits_ok 36 z) as (Hd & _); [lia..|]. split; [by apply (digits_plain 36)|].
  pose proof (radix_digits_not_nil 36 z). unfold base36. destruct (radix_digits 36 z); [naive_solver lia|done].
Qed.
Lemma hex_encode_plain bs : Forall is_byte bs → forallb plain_char (hex_encode bs) = true.
Proof.
  intros Hb. apply forallb_true. intros b Hin. apply hex_encode_hexdigits in Hin; [|done].
  unfold is_ascii_hexdigit in Hin. unfold plain_char, is_ascii_alphanumeric, is_ascii_alphabetic,
    is_ascii_lowercase, is_ascii_uppercase in *.
  destruct (is_ascii_digit b); [by rewrite !orb_true_r|]. cbn in Hin.
  apply orb_true_iff in Hin as [H|H]; apply in_range_true in H;
    [rewrite (proj2 (in_range_true 97 122 b)) by lia|rewrite (proj2 (in_range_true 65 90 b)) by lia];
    by rewrite ?orb_true_r.
Qed.
Lemma plain_segment s : forallb plain_char s = true → forallb segment_char s = true.
Proof. rewrite !forallb_true. intros H y Hy. unfold segment_char. by rewrite (H y Hy). Qed.
(** A segment starts with a plain character. *)
Lemma valid_segment_intro a b : forallb plain_char a = true → a ≠ [] → forallb segment_char b = true →
  len (a ++ b) ≤ 128 → valid_segment (a ++ b) = true.
Proof.
  intros Ha Hne Hb Hl. destruct a as [|x a]; [done|]. pose proof Ha as Hx. cbn in Hx.
  apply andb_true_iff in Hx as [Hx _]. unfold valid_segment. rewrite (proj2 (Z.leb_le _ _) Hl).
  assert (∀ s, x :: s ≠ lit "." ∧ x :: s ≠ lit "..") as Hdot by (intros s; split; intros [= -> _]; done).
  rewrite !bool_decide_false by apply Hdot. cbn [negb andb app non_empty].
  change (forallb segment_char ((x :: a) ++ b) = true). by rewrite forallb_app, plain_segment.
Qed.
Lemma valid_segment_chars s : valid_segment s = true → s ≠ [] ∧ (47 ∉ s) ∧ (92 ∉ s).
Proof.
  unfold valid_segment. rewrite !andb_true_iff, forallb_true, non_empty_true. intros ([[[? _] _] _] & Hc).
  split_and!; [done|by intros Hin%Hc..].
Qed.
Lemma split_key segments : segments ≠ [] → forallb valid_segment segments = true →
  split_on 47 (key_of segments) = segments.
Proof.
  intros Hne H. apply split_by_join; [done..|]. intros w b Hw Hb. rewrite forallb_true in H.
  destruct (valid_segment_chars w (H w Hw)) as (_ & H47 & _). apply Z.eqb_neq. by intros ->.
Qed.
Lemma last_join segments : segments ≠ [] → (∀ w, w ∈ segments → w ≠ []) →
  ∃ w x, w ∈ segments ∧ x ∈ w ∧ last (key_of segments) = Some x.
Proof.
  induction segments as [|w segments IH]; intros Hne H; [done|]. unfold key_of in *.
  destruct (decide (segments = [])) as [->|Hs].
  - cbn. destruct (last w) as [x|] eqn:E; [|by apply last_None in E; destruct (H w); [set_solver|]].
    exists w, x. split_and!; [set_solver| |done]. by apply last_Some_elem_of.
  - rewrite join_cons by done. destruct IH as (v & x & Hv & Hx & Hl); [done|set_solver|].
    exists v, x. split_and!; [set_solver|done|]. rewrite !last_app, Hl. done.
Qed.
Lemma blob_key_new_segments segments : segments ≠ [] → forallb valid_segment segments = true →
  len (key_of segments) ≤ 512 → blob_key_new (key_of segments) = Ok (key_of segments).
Proof.
  intros Hne Hv Hl. unfold blob_key_new. rewrite split_key, Hv by done.
  unfold MAX_BLOB_KEY_BYTES. rewrite (proj2 (Z.leb_le _ _) Hl). rewrite forallb_true in Hv.
  assert (∀ w, w ∈ segments → w ≠ [] ∧ (47 ∉ w) ∧ (92 ∉ w)) as Hw by (intros w Hw; by apply valid_segment_chars, Hv).
  destruct (last_join segments) as (w & x & Hin & Hx & Hlast); [done|intros ? ?; by apply Hw|].
  destruct segments as [|[|y v] segments]; [done|by destruct (Hw []); [set_solver|]|].
  assert (∃ rest, key_of ((y :: v) :: segments) = y :: rest) as [rest Hhead].
  { unfold key_of. destruct segments; [by exists v|]. rewrite join_cons by done. by eexists. }
  replace (non_empty (key_of ((y :: v) :: segments))) with true by (by rewrite Hhead).
  replace (starts_with [47] (key_of ((y :: v) :: segments))) with false.
  2: { symmetry. apply not_true_iff_false. intros [r Hr]%starts_with_true. rewrite Hhead in Hr.
       injection Hr as -> _. destruct (Hw (47 :: v)) as (_ & H47 & _); set_solver. }
  replace (ends_with [47] (key_of ((y :: v) :: segments))) with false.
  2: { symmetry. apply not_true_iff_false. intros [r Hr]%ends_with_true. rewrite Hr, last_snoc in Hlast.
       injection Hlast as <-. by destruct (Hw w) as (_ & H47 & _). }
  replace (str_contains [92] (key_of ((y :: v) :: segments))) with false; [done|].
  symmetry. apply not_true_iff_false. intros (l & r & Hr)%str_contains_true.
  assert (92 ∈ key_of ((y :: v) :: segments)) as Hin92 by (rewrite Hr; set_solver).
  apply elem_of_join in Hin92 as [?|Hin92]; [done|].
  apply list_elem_of_In, in_concat in Hin92 as (u & Hu & H92). apply list_elem_of_In in Hu, H92.
  by destruct (Hw u Hu) as (_ & _ & ?).
Qed.

(** ** The objects of the store *)

Inductive stored :=
| StEvent (project_id : ProjectId) (event_id object_id : bytes)
| StReplay (project_id : ProjectId) (replay_id : bytes) (segment_id : Z)
| StChunk (organization_id : Z) (sha1 : bytes)
| StDebugFile (project_id : ProjectId) (file_id : bytes)
| StBundle (organization_id : Z) (bundle_id : bytes) (generation : Z)
| StArchive (kind : ArchiveKind) (project_id : ProjectId) (year month day : Z) (segment_id : bytes).
Definition stored_valid (o : stored) : Prop :=
  match o with
  | StEvent p e i => project_id_valid p ∧ id16_valid e ∧ id16_valid i
  | StReplay p r s => project_id_valid p ∧ id16_valid r ∧ u32 s
  | StChunk o s => 0 < o ≤ I64_MAX ∧ length s = 20%nat ∧ Forall is_byte s
  | StDebugFile p f => project_id_valid p ∧ id16_valid f
  | StBundle o b g => 0 < o ≤ I64_MAX ∧ id16_valid b ∧ u32 g
  | StArchive _ p y m d s =>
      project_id_valid p ∧ 0 ≤ y ≤ 9999 ∧ 1 ≤ m ≤ 12 ∧ 1 ≤ d ≤ 31 ∧ id16_valid s
  end.
Section stored.
Context `{!Base64Api}.
Definition stored_segments (o : stored) : list str :=
  match o with
  | StEvent p e i => [lit "projects"; to_dec p; lit "events"; id_to_string e; id_to_string i]
  | StReplay p r s =>
      [lit "projects"; to_dec p; lit "replays"; id_to_string r; to_dec s ++ lit ".rrweb"]
  | StChunk o s => [lit "debug-chunks"; to_dec o; hex_encode s]
  | StDebugFile p f => [lit "d"; base36 p; base64_encode f]
  | StBundle o b g =>
      [lit "a"; base36 o; base64_encode b] ++ (if g =? 0 then [] else [base36 g])
  | StArchive k p y m d s =>
      [lit "projects"; to_dec p; lit "archives"; lit (archive_directory k);
       pad_zeros 4 (to_dec y); pad_zeros 2 (to_dec m); pad_zeros 2 (to_dec d);
       id_to_string s ++ lit ".parquet"]
  end.
Definition stored_key (o : stored) : BlobKey :=
  match o with
  | StEvent p e i => event_owned p e i
  | StReplay p r s => replay_recording p r s
  | StChunk o s => debug_chunk o s
  | StDebugFile p f => debug_file p f
  | StBundle o b g => artifact_bundle o b g
  | StArchive k p y m d s => archive_key k p y m d s
  end.
Lemma stored_key_segments o : stored_key o = key_of (stored_segments o).
Proof. by destruct o. Qed.
End stored.

Definition segment_ok (s : str) : Prop := valid_segment s = true ∧ (length s ≤ 40)%nat.
Lemma segment_ok_plain s : forallb plain_char s = true → s ≠ [] → (length s ≤ 40)%nat → segment_ok s.
Proof.
  intros H Hne Hl. split; [|done]. rewrite <- (app_nil_r s).
  apply valid_segment_intro; rewrite ?app_nil_r; [done..|unfold len; lia].
Qed.
Lemma segment_ok_suffix s (suffix : string) : forallb plain_char s = true → s ≠ [] →
  (length s + String.length suffix ≤ 40)%nat → forallb segment_char (lit suffix) = true →
  segment_ok (s ++ lit suffix).
Proof.
  intros H Hne Hl Hs. split; [|rewrite length_app, length_lit; lia].
  apply valid_segment_intro; [done..|]. rewrite len_app. unfold len. rewrite length_lit. lia.
Qed.
Lemma segment_ok_dec k z : (0 < k ≤ 40)%nat → 0 ≤ z < 10 ^ Z.of_nat k → segment_ok (to_dec z).
Proof.
  intros Hk Hz. destruct (to_dec_plain z) as [Hp Hne]; [lia|].
  apply segment_ok_plain; [done..|]. pose proof (length_to_dec k z). lia.
Qed.
Lemma segment_ok_hex bs : Forall is_byte bs → (0 < length bs ≤ 20)%nat → segment_ok (hex_encode bs).
Proof.
  intros Hb Hl. apply segment_ok_plain; [by apply hex_encode_plain| |rewrite length_hex_encode; lia].
  by destruct bs; [cbn in Hl; lia|].
Qed.
Lemma segment_ok_base36 z : 0 < z ≤ I64_MAX → segment_ok (base36 z).
Proof.
  unfold I64_MAX. intros Hz. destruct (base36_plain z) as [Hp Hne]; [lia|].
  apply segment_ok_plain; [done..|]. unfold base36. rewrite length_map.
  pose proof (length_radix_digits 36 13 z). cbn in *. lia.
Qed.
Lemma segment_ok_base64 `{!Base64Api, !Base64Laws} id : id16_valid id → segment_ok (base64_encode id).
Proof.
  intros [Hl Hb]. pose proof (base64_length id Hl) as H22. apply segment_ok_plain; [| |lia].
  - apply forallb_true. intros b Hin. by apply (base64_alphabet id).
  - by destruct (base64_encode id).
Qed.
Lemma segment_ok_pad w k z : (0 < k ≤ 40)%nat → (w ≤ 40)%nat → 0 ≤ z < 10 ^ Z.of_nat k →
  segment_ok (pad_zeros w (to_dec z)).
Proof.
  intros Hk Hw Hz. destruct (to_dec_plain z) as [Hp Hne]; [lia|]. pose proof (length_to_dec k z).
  apply segment_ok_plain; [by apply pad_zeros_plain| |].
  - unfold pad_zeros. destruct (to_dec z); [done|]. by destruct (replicate _ _).
  - unfold pad_zeros. rewrite length_app, length_replicate. lia.
Qed.
Lemma joined_bound l : Forall segment_ok l → (joined l ≤ 41 * length l)%nat.
Proof. induction 1 as [|s l [_ Hs] _ IH]; cbn; lia. Qed.

Lemma id_hex id : id16_valid id →
  forallb plain_char (id_to_string id) = true ∧ id_to_string id ≠ [] ∧ length (id_to_string id) = 32%nat
  ∧ segment_ok (id_to_string id).
Proof.
  intros [Hl Hb]. unfold id_to_string. split_and!; [by apply hex_encode_plain|by destruct id| |].
  - rewrite length_hex_encode. lia.
  - apply segment_ok_hex; [done|lia].
Qed.
Lemma segment_ok_project p : project_id_valid p → segment_ok (to_dec p) ∧ segment_ok (base36 p).
Proof.
  unfold project_id_valid, I32_MAX. intros Hp.
  split; [apply (segment_ok_dec 10); cbn; lia|apply segment_ok_base36; unfold I64_MAX; lia].
Qed.
Lemma segment_ok_lit (text : string) : valid_segment (lit text) = true → (String.length text ≤ 40)%nat →
  segment_ok (lit text).
Proof. intros Hv Hl. split; [done|]. by rewrite length_lit. Qed.
Lemma segment_ok_directory kind : segment_ok (lit (archive_directory kind)).
Proof. destruct kind; by apply segment_ok_lit; [|cbn; lia]. Qed.
(** The segments of an object, one after the other. *)
Ltac segments :=
  repeat match goal with
  | |- Forall _ [] => apply Forall_nil_2
  | |- Forall _ (_ :: _) => apply Forall_cons; split
  | |- segment_ok (lit _) => first [apply segment_ok_directory|apply segment_ok_lit; [done|cbn; lia]]
  | |- segment_ok (to_dec _) => first [by apply segment_ok_project|apply (segment_ok_dec 19); cbn; lia]
  | |- segment_ok (base36 _) => first [by apply segment_ok_project|apply segment_ok_base36; unfold I64_MAX; lia]
  | |- segment_ok (id_to_string _) => by apply id_hex
  | |- segment_ok (base64_encode _) => by apply segment_ok_base64
  | |- segment_ok (pad_zeros _ _) => apply (segment_ok_pad _ 4); cbn; lia
  end.
Lemma stored_segments_ok `{!Base64Api, !Base64Laws} o : stored_valid o →
  Forall segment_ok (stored_segments o) ∧ stored_segments o ≠ [] ∧ (length (stored_segments o) ≤ 8)%nat.
Proof.
  destruct o; cbn [stored_valid stored_segments app]; unfold u32, U32_MAX, I64_MAX; intros Hv;
    (split; [|split; [done|try case_match; cbn; lia]]); destruct_and? Hv; segments.
  - destruct (to_dec_plain segment_id) as [Hp Hne]; [lia|]. pose proof (length_to_dec 10 segment_id).
    apply segment_ok_suffix; [done..|cbn in *; lia|done].
  - apply segment_ok_hex; [done|lia].
  - destruct (Z.eqb_spec generation 0); segments.
  - destruct (id_hex segment_id) as (Hp & Hne & Hl & _); [done|].
    apply segment_ok_suffix; [done..|cbn; lia|done].
Qed.
Lemma stored_key_split `{!Base64Api, !Base64Laws} o : stored_valid o →
  blob_key_new (stored_key o) = Ok (stored_key o) ∧ split_on 47 (stored_key o) = stored_segments o.
Proof.
  intros Hv. rewrite stored_key_segments. destruct (stored_segments_ok o Hv) as (Hs & Hne & Hl).
  assert (forallb valid_segment (stored_segments o) = true) as Hvs.
  { apply forallb_true. rewrite Forall_forall in Hs. intros s Hin. by apply Hs. }
  split; [|by apply split_key]. apply blob_key_new_segments; [done..|].
  unfold key_of, len. rewrite length_join_single. pose proof (joined_bound _ Hs). lia.
Qed.

(** ** Reading names *)

Lemma base36_parse z : 0 < z ≤ I32_MAX → parse_i32_base36 (base36 z) = Some z.
Proof.
  intros Hz. destruct (radix_digits_ok 36 z) as [Hd Hn]; [lia..|]. rewrite <- Hn at 2.
  unfold base36. apply parse_i32_base36_digits; [done|apply radix_digits_not_nil; lia|lia].
Qed.
Lemma base36_inj x y : 0 < x → 0 < y → base36 x = base36 y → x = y.
Proof.
  intros Hx Hy H. destruct (radix_digits_ok 36 x) as [Dx Nx]; [lia..|].
  destruct (radix_digits_ok 36 y) as [Dy Ny]; [lia..|]. apply (f_equal (value36 0)) in H.
  unfold base36 in H. rewrite !value36_map, Nx, Ny in H by done. by injection H.
Qed.
Lemma hex_encode_inj x y : Forall is_byte x → Forall is_byte y → hex_encode x = hex_encode y → x = y.
Proof. intros Hx Hy H. apply (f_equal hex_decode) in H. rewrite !hex_decode_encode in H by done. congruence. Qed.
Lemma base64_encode_inj `{!Base64Api, !Base64Laws} x y : Forall is_byte x → Forall is_byte y →
  base64_encode x = base64_encode y → x = y.
Proof.
  intros Hx Hy E. apply (f_equal base64_decode) in E. rewrite !base64_decode_encode in E by done. congruence.
Qed.
Lemma archive_directory_inj k l : archive_directory k = archive_directory l → k = l.
Proof. by destruct k, l. Qed.
Lemma archive_from_directory_name k : archive_from_directory (lit (archive_directory k)) = Some k.
Proof. by destruct k. Qed.
Lemma archive_from_name_name k : archive_from_name (lit (archive_name k)) = Some k.
Proof. by destruct k. Qed.

Lemma stored_key_inj `{!Base64Api, !Base64Laws} o p : stored_valid o → stored_valid p →
  stored_key o = stored_key p → o = p.
Proof.
  intros Ho Hp Hkey. apply (f_equal (split_on 47)) in Hkey.
  rewrite (proj2 (stored_key_split o Ho)), (proj2 (stored_key_split p Hp)) in Hkey.
  destruct o, p; cbn [stored_segments app] in Hkey; try discriminate Hkey;
    cbn [stored_valid] in Ho, Hp; unfold id16_valid, project_id_valid, u32 in *; destruct_and?;
    try (case_match; case_match); simplify_list_eq.
  - f_equal; [by apply to_dec_inj|by apply hex_encode_inj..].
  - f_equal; [by apply to_dec_inj|by apply hex_encode_inj|by apply to_dec_inj].
  - f_equal; [by apply to_dec_inj|by apply hex_encode_inj].
  - f_equal; [by apply base36_inj|by apply base64_encode_inj].
  - f_equal; [by apply base36_inj|by apply base64_encode_inj|]. bool_prop. lia.
  - f_equal; [by apply base36_inj|by apply base64_encode_inj|]. bool_prop. apply base36_inj; [lia..|done].
  - f_equal; [by apply archive_directory_inj, lit_inj|by apply to_dec_inj
             |by eapply pad_zeros_inj; [lia..|]|by eapply pad_zeros_inj; [lia..|]
             |by eapply pad_zeros_inj; [lia..|]|by apply hex_encode_inj].
Qed.

Lemma parse_project_printed p : project_id_valid p → parse_project (to_dec p) = Ok p.
Proof.
  unfold project_id_valid. intros Hp. unfold parse_project. rewrite parse_i32_to_dec by lia.
  cbn [ok_or mbind result_bind]. rewrite (proj2 (project_id_new_Ok p p)); [done|lia].
Qed.
Lemma parse_object_id_printed id : id16_valid id → parse_object_id (id_to_string id) = Ok id.
Proof.
  intros Hid. pose proof (id_to_string_parse id Hid) as Hp. unfold parse_hex_identifier in Hp.
  unfold parse_object_id. by case_match; [|rewrite Hp].
Qed.
Lemma event_id_printed id : id16_valid id → event_id_parse (id_to_string id) = Ok id.
Proof. intros Hid. unfold event_id_parse. by rewrite id_to_string_parse. Qed.
Lemma strip_suffix_app s p : strip_suffix p (s ++ p) = Some s.
Proof.
  unfold strip_suffix. rewrite reverse_app.
  rewrite (proj2 (strip_prefix_Some _ _ (reverse s))) by done. cbn. by rewrite reverse_involutive.
Qed.
Lemma ends_with_app s p : ends_with p (s ++ p) = true.
Proof. apply ends_with_true. by exists s. Qed.

Section relations.
Context `{!Base64Api, !Base64Laws}.

Lemma event_relation_stored o : stored_valid o →
  event_relation (stored_key o) =
    match o with StEvent p e i => Ok (p, e, i) | _ => Err BInvalidKey end.
Proof.
  intros Hv. unfold event_relation. rewrite (proj2 (stored_key_split o Hv)).
  destruct o; cbn [stored_segments app stored_valid] in *; destruct_and? Hv; try done.
  - rewrite !bool_decide_true by done. cbn [negb orb].
    by rewrite parse_project_printed, event_id_printed, parse_object_id_printed.
  - by destruct (generation =? 0).
Qed.
Lemma replay_relation_stored o : stored_valid o →
  replay_relation (stored_key o) =
    match o with StReplay p r s => Ok (p, r, s) | _ => Err BInvalidKey end.
Proof.
  intros Hv. unfold replay_relation. rewrite (proj2 (stored_key_split o Hv)).
  destruct o; cbn [stored_segments app stored_valid] in *; unfold u32 in *; destruct_and? Hv; try done.
  - rewrite !bool_decide_true by done. cbn [negb orb].
    rewrite parse_project_printed, event_id_printed, strip_suffix_app by done.
    cbn [map_err mbind result_bind option_bind]. by rewrite parse_u32_to_dec.
  - by destruct (generation =? 0).
Qed.
Lemma debug_file_relation_stored o : stored_valid o →
  debug_file_relation (stored_key o) =
    match o with StDebugFile p f => Ok (p, f) | _ => Err BInvalidKey end.
Proof.
  intros Hv. unfold debug_file_relation. rewrite (proj2 (stored_key_split o Hv)).
  destruct o as [| | |p f|o b generation|]; cbn [stored_segments app stored_valid] in *; try done.
  - destruct Hv as [Hp [Hl Hb]]. unfold project_id_valid in Hp.
    rewrite !bool_decide_true, base36_parse by (done || lia).
    cbn [negb ok_or mbind result_bind].
    rewrite (proj2 (project_id_new_Ok p p)) by lia. cbn [map_err mbind result_bind].
    unfold debug_file_id_parse. rewrite base64_decode_encode by done.
    cbn [ok_or mbind result_bind]. unfold len. by rewrite Hl.
  - by destruct (generation =? 0).
Qed.
Lemma archive_relation_stored o : stored_valid o →
  archive_relation (stored_key o) =
    match o with StArchive k p _ _ _ _ => Ok (p, k) | _ => Err BInvalidKey end.
Proof.
  intros Hv. unfold archive_relation. rewrite (proj2 (stored_key_split o Hv)).
  destruct o; cbn [stored_segments app stored_valid] in *; destruct_and? Hv; try done.
  - by destruct (generation =? 0).
  - rewrite !bool_decide_true, ends_with_app by done. cbn [negb orb].
    by rewrite parse_project_printed, archive_from_directory_name.
Qed.

Definition namespace_of (o : stored) : BlobNamespace :=
  match o with
  | StEvent _ _ _ => NsEventOwned | StReplay _ _ _ => NsReplayRecordings
  | StChunk _ _ => NsDebugChunks | StDebugFile _ _ => NsDebugFiles
  | StBundle _ _ _ => NsArtifactBundles | StArchive k _ _ _ _ _ => namespace_archive k
  end.
Definition kind_of (o : stored) : BlobKind :=
  match o with
  | StEvent _ _ _ => BkEventAttachment | StReplay _ _ _ => BkReplayRecording
  | StChunk _ _ => BkDebugChunk | StDebugFile _ _ => BkDebugFile
  | StBundle _ _ _ => BkArtifactBundle | StArchive k _ _ _ _ _ => blob_kind_archive k
  end.
#[global] Instance BlobNamespace_eq_dec : EqDecision BlobNamespace.
Proof. solve_decision. Defined.
(** The first segment of a name and what follows the slash. *)
Lemma stored_key_head o : ∃ first rest, stored_segments o = lit first :: rest
  ∧ stored_key o = lit first ++ 47 :: key_of rest.
Proof.
  rewrite stored_key_segments. destruct o; cbn [stored_segments app];
    eexists _, _; (split; [done|]); unfold key_of; by rewrite join_cons.
Qed.
(** No first segment is a prefix of another one. *)
Lemma prefix_of_first ns o :
  starts_with (lit (namespace_prefix ns)) (stored_key o)
  = bool_decide (namespace_prefix ns = namespace_prefix (namespace_of o)).
Proof.
  destruct (stored_key_head o) as (first & rest & Hs & ->).
  destruct o as [| | | | |k]; cbn [stored_segments] in Hs; injection Hs as Hs _;
    rewrite <- Hs; try (by destruct ns); by destruct ns, k.
Qed.
Lemma kind_for_key_stored ns o : stored_valid o →
  kind_for_key ns (stored_key o)
  = if bool_decide (ns = namespace_of o) then Ok (kind_of o) else Err BInvalidKey.
Proof.
  intros Hv. unfold kind_for_key, expect_archive_kind. rewrite prefix_of_first.
  rewrite event_relation_stored, replay_relation_stored, archive_relation_stored by done.
  destruct o as [| | | | |k]; try (by destruct ns); by destruct k, ns.
Qed.
End relations.

(** C32. The objects of the store are kept apart by their names: every name the
    program makes is a valid key (no empty, [.] or [..] segment, at most 512
    bytes), two objects with one name are the same object, each name is
    read back as the object it was made for and as no other kind of object, and
    lies in the namespace of its own kind only. *)
Theorem blob_keys_identify `{!Base64Api, !Base64Laws} o p :
  stored_valid o → stored_valid p →
  blob_key_new (stored_key o) = Ok (stored_key o)
  ∧ (stored_key o = stored_key p → o = p)
  ∧ event_relation (stored_key o)
    = (match o with StEvent p e i => Ok (p, e, i) | _ => Err BInvalidKey end)
  ∧ replay_relation (stored_key o)
    = (match o with StReplay p r s => Ok (p, r, s) | _ => Err BInvalidKey end)
  ∧ debug_file_relation (stored_key o)
    = (match o with StDebugFile p f => Ok (p, f) | _ => Err BInvalidKey end)
  ∧ archive_relation (stored_key o)
    = (match o with StArchive k p _ _ _ _ => Ok (p, k) | _ => Err BInvalidKey end)
  ∧ ∀ ns, kind_for_key ns (stored_key o)
    = if bool_decide (ns = namespace_of o) then Ok (kind_of o) else Err BInvalidKey.
Proof.
  intros Ho Hp. split_and!.
  - by apply stored_key_split.
  - by apply stored_key_inj.
  - by apply event_relation_stored.
  - by apply replay_relation_stored.
  - by apply debug_file_relation_stored.
  - by apply archive_relation_stored.
  - intros ns. by apply kind_for_key_stored.
Qed.

(** ** The interface can be implemented *)

(** RFC 4648, section 5, without padding: the laws of [Base64Laws] are those of
    this function. *)
Definition b64_char (d : Z) : Z :=
  if d <? 26 then 65 + d else if d <? 52 then 71 + d else if d <? 62 then d - 4
  else if d =? 62 then 45 else 95.
Definition b64_value (b : Z) : option Z :=
  if is_ascii_uppercase b then Some (b - 65) else if is_ascii_lowercase b then Some (b - 71)
  else if is_ascii_digit b then Some (b + 4) else if b =? 45 then Some 62
  else if b =? 95 then Some 63 else None.
Fixpoint b64_encode (bs : bytes) : str :=
  match bs with
  | [] => []
  | [a] => [b64_char (a / 4); b64_char (a mod 4 * 16)]
  | [a; b] => [b64_char (a / 4); b64_char (a mod 4 * 16 + b / 16); b64_char (b mod 16 * 4)]
  | a :: b :: c :: bs =>
      b64_char (a / 4) :: b64_char (a mod 4 * 16 + b / 16) :: b64_char (b mod 16 * 4 + c / 64)
        :: b64_char (c mod 64) :: b64_encode bs
  end.
Fixpoint b64_decode (s : str) : option bytes :=
  match s with
  | [] => Some []
  | [x; y] => x ← b64_value x; y ← b64_value y; Some [x * 4 + y / 16]
  | [x; y; z] =>
      x ← b64_value x; y ← b64_value y; z ← b64_value z;
      Some [x * 4 + y / 16; y mod 16 * 16 + z / 4]
  | x :: y :: z :: w :: s =>
      x ← b64_value x; y ← b64_value y; z ← b64_value z; w ← b64_value w; bs ← b64_decode s;
      Some (x * 4 + y / 16 :: y mod 16 * 16 + z / 4 :: z mod 4 * 64 + w :: bs)
  | _ => None
  end.
#[export] Instance b64 : Base64Api := {| base64_encode := b64_encode; base64_decode := b64_decode |}.
Lemma b64_value_char d : 0 ≤ d < 64 →
  b64_value (b64_char d) = Some d
  ∧ is_ascii_alphanumeric (b64_char d) || (b64_char d =? 45) || (b64_char d =? 95) = true.
Proof.
  intros Hd. assert (d ∈ seqZ 0 64) as Hin by (apply elem_of_seqZ; lia). cbn in Hin.
  repeat (apply elem_of_cons in Hin as [->|Hin]; [done|]). by apply elem_of_nil in Hin.
Qed.
Ltac b64_range := unfold is_byte in *; Z.to_euclidean_division_equations; lia.
Lemma triple_ind (P : bytes → Prop) : P [] → (∀ a, P [a]) → (∀ a b, P [a; b]) →
  (∀ a b c l, P l → P (a :: b :: c :: l)) → ∀ l, P l.
Proof.
  intros H0 H1 H2 H3. fix IH 1. intros [|a [|b [|c l]]]; [done|apply H1|apply H2|apply H3, IH].
Qed.
#[export] Instance b64_laws : Base64Laws.
Proof.
  split.
  - intros bs. change (Forall is_byte bs → b64_decode (b64_encode bs) = Some bs).
    induction bs as [|a|a b|a b c l IH] using triple_ind; intros Hb; [done|..]; rewrite !Forall_cons in Hb;
      destruct_and? Hb; cbn -[b64_value b64_char Z.mul Z.div Z.modulo Z.add].
    + destruct (b64_value_char (a / 4)) as [-> _]; [b64_range|].
      destruct (b64_value_char (a mod 4 * 16)) as [-> _]; [b64_range|].
      cbn -[Z.mul Z.div Z.modulo Z.add]. do 2 f_equal. b64_range.
    + destruct (b64_value_char (a / 4)) as [-> _]; [b64_range|].
      destruct (b64_value_char (a mod 4 * 16 + b / 16)) as [-> _]; [b64_range|].
      destruct (b64_value_char (b mod 16 * 4)) as [-> _]; [b64_range|].
      cbn -[Z.mul Z.div Z.modulo Z.add]. do 2 f_equal; [b64_range|f_equal; b64_range].
    + destruct (b64_value_char (a / 4)) as [-> _]; [b64_range|].
      destruct (b64_value_char (a mod 4 * 16 + b / 16)) as [-> _]; [b64_range|].
      destruct (b64_value_char (b mod 16 * 4 + c / 64)) as [-> _]; [b64_range|].
      destruct (b64_value_char (c mod 64)) as [-> _]; [b64_range|].
      cbn -[Z.mul Z.div Z.modulo Z.add]. rewrite IH by done. cbn -[Z.mul Z.div Z.modulo Z.add].
      do 2 f_equal; [b64_range|]. f_equal; [b64_range|]. f_equal. b64_range.
  - intros bs Hl. do 17 (destruct bs as [|? bs]; try done).
  - intros bs x. change (Forall is_byte bs → x ∈ b64_encode bs → plain_char x = true).
    induction bs as [|a|a b|a b c l IH] using triple_ind; intros Hb; [set_solver|..]; rewrite !Forall_cons in Hb;
      destruct_and? Hb; cbn -[b64_value b64_char Z.mul Z.div Z.modulo Z.add]; rewrite !elem_of_cons;
      intros Hx; destruct_or? Hx; try (by apply elem_of_nil in Hx); try (by apply IH); subst x;
      apply b64_value_char; b64_range.
Qed.

Lemma blob_keys_identify_witness :
  stored_valid (StDebugFile 1295 (replicate 16 255))
  ∧ stored_valid (StArchive AkLog 7 2026 7 26 (replicate 16 3))
  ∧ stored_key (StDebugFile 1295 (replicate 16 255)) = lit "d/zz/_____________________w"
  ∧ kind_for_key NsLogArchives (stored_key (StArchive AkLog 7 2026 7 26 (replicate 16 3)))
    = Ok BkLogArchive.
Proof.
  assert (stored_valid (StDebugFile 1295 (replicate 16 255))) as H1
    by (split; [done|]; split; [done|]; apply Forall_replicate; done).
  assert (stored_valid (StArchive AkLog 7 2026 7 26 (replicate 16 3))) as H2.
  { split; [done|]. split; [done|]. split; [done|]. split; [done|]. split; [done|].
    apply Forall_replicate; done. }
  split; [exact H1|]. split; [exact H2|]. split; [vm_compute; reflexivity|].
  exact (proj2 (proj2 (proj2 (proj2 (proj2 (proj2 (blob_keys_identify _ _ H2 H1)))))) NsLogArchives).
Defined.
