(* ===== verification/IngestSignals.v ===== *)
(** * Logs and spans of a request

    [application/src/ingest.rs], the normalisation of log, span and transaction
    items into the records of [Signals]: what is required, what is cut, what is
    refused, and the insight flags of a trace. *)
From stdpp Require Import base list numbers strings sets gmap.
From Stdlib Require Import ZArith Lia SpecFloat.
From S2P Require Import Prelude External Float Primitives Identity InboundFilter Event Normalizer JsonValue Signals IpAddr Scrub.

Section signals.
Context {N : Type} `{!JsonApi N} `{!JsonPrint N} `{Blake3}.
Context {Url : Type} `{!UrlApi Url} `{HmacApi}.
Abbreviation Value := (JValue N).
Abbreviation fields := (list (str * Value)).

(** ** Texts and numbers *)

Definition attribute_string (attributes : option fields) (key : string) : option str :=
  attributes ← attributes;
  value ← map_get attributes (lit key);
  option_or (get value "value" ≫= as_str) (as_str value).
Definition truncate_text (value : str) (maximum : Z) : str :=
  if len value <=? maximum then value else take (boundary_before value (Z.to_nat maximum)) value.
Definition attribute_boxed (attributes : option fields) (key : string) (maximum : Z)
    : option str := (λ value, truncate_text value maximum) <$> attribute_string attributes key.
Definition optional_bounded (value : option Value) (maximum : Z) : option str :=
  (λ value, truncate_text value maximum) <$> (value ≫= as_str).
Definition normalize_span_name (value : str) : result IngestError str :=
  if any_control value then Err (ingest_invalid "span_name_too_large")
  else Ok (truncate_text value 1024).
Definition bounded_text (value : str) (maximum : Z) (code : string) : result IngestError str :=
  if any_control value || (maximum <? len value) then Err (ingest_invalid code) else Ok value.

Definition required_trace_id (value : option Value) : result IngestError bytes :=
  value ← ok_or (ingest_invalid "missing_trace_id") (value ≫= as_str);
  map_err (λ _, ingest_invalid "invalid_trace_id") (trace_id_parse value).
Definition required_span_id (value : option Value) : result IngestError bytes :=
  value ← ok_or (ingest_invalid "missing_span_id") (value ≫= as_str);
  map_err (λ _, ingest_invalid "invalid_span_id") (span_id_parse value).
(** [map(parse).transpose().map_err(code)]. *)
Definition optional_id (parse : str → result SignalPrimitiveError bytes) (code : string)
    (value : option str) : result IngestError (option bytes) :=
  match value with
  | Some value => Some <$> map_err (λ _, ingest_invalid code) (parse value)
  | None => Ok None
  end.

Definition seconds_to_ns (value : Value) : result IngestError Z :=
  seconds ← ok_or (ingest_invalid "invalid_signal_timestamp")
    (seconds ← option_or (as_f64 value) (as_str value ≫= parse_f64);
     if f64_is_finite seconds then Some seconds else None);
  let nanoseconds := f64_mul seconds (f64_of_i64 1000000000) in
  if f64_ltb nanoseconds (f64_of_i64 I64_MIN) || f64_ltb (f64_of_i64 I64_MAX) nanoseconds
  then Err (ingest_invalid "signal_timestamp_out_of_range")
  else Ok (f64_round_i64 nanoseconds).

(** A loop with [?] over the items of a list. *)
Fixpoint try_map {A B} (f : A → result IngestError B) (l : list A) : result IngestError (list B) :=
  match l with
  | [] => Ok []
  | x :: l => y ← f x; ys ← try_map f l; Ok (y :: ys)
  end.
(** The items of a container, or the container itself. *)
Definition container_items (container : Value) : list Value :=
  unwrap_or [container] (get container "items" ≫= as_array).

(** ** Logs *)

Definition log_from_value (snapshot : ProjectSnapshot) (received_at : Timestamp) (value : Value)
    : result IngestError LogRecord :=
  timestamp ← ok_or (ingest_invalid "missing_log_timestamp") (get value "timestamp");
  occurred_at_ns ← seconds_to_ns timestamp;
  body_text ← ok_or (ingest_invalid "missing_log_body") (get value "body" ≫= as_str);
  message ← bounded_text body_text 8192 "log_body_too_large";
  let level := unwrap_or (lit "info") (get value "level" ≫= as_str) in
  let attributes := get value "attributes" ≫= as_object in
  trace_id ← optional_id trace_id_parse "invalid_log_trace_id" (get value "trace_id" ≫= as_str);
  span_id ← optional_id span_id_parse "invalid_log_span_id"
              (attribute_string attributes "sentry.trace.parent_span_id");
  body ← ok_or (ingest_invalid "invalid_log_json") (json_to_vec value);
  Ok {| lr_id := log_id_deterministic (ps_project_id snapshot) received_at occurred_at_ns body;
        lr_project_id := ps_project_id snapshot;
        lr_received_at := received_at;
        lr_occurred_at_ns := occurred_at_ns;
        lr_severity := severity_from_wire level;
        lr_message := message;
        lr_trace_id := trace_id;
        lr_span_id := span_id;
        lr_environment := attribute_boxed attributes "sentry.environment" 128;
        lr_release := attribute_boxed attributes "sentry.release" 256;
        lr_service := option_or (attribute_boxed attributes "service.name" 256)
                        (attribute_boxed attributes "sentry.service.name" 256);
        lr_body := body |}.
Definition normalize_logs (snapshot : ProjectSnapshot) (received_at : Timestamp) (payload : bytes)
    : result IngestError (list LogRecord) :=
  container ← ok_or (ingest_invalid "invalid_log_json") (json_from_slice payload);
  container ← scrub (ps_scrub_policy snapshot) container;
  let values := container_items container in
  if is_empty values || (100 <? len values) then Err (ingest_invalid "invalid_log_count")
  else try_map (log_from_value snapshot received_at) values.

(** ** Spans *)

Definition span_from_parts (project_id : ProjectId) (received_at : Timestamp) (value : Value)
    (fields : fields) (trace_id span_id : bytes) (is_segment : bool)
    (environment release service : option str) : result IngestError SpanRecord :=
  let field name := map_get fields (lit name) in
  let context := pointer value ["contexts"; "trace"] ≫= as_object in
  let in_context name := context ≫= λ trace, map_get trace (lit name) in
  start ← ok_or (ingest_invalid "missing_span_start")
            (option_or (field "start_timestamp") (get value "start_timestamp"));
  end_ ← ok_or (ingest_invalid "missing_span_end")
            (option_or (field "end_timestamp") (option_or (field "timestamp") (get value "timestamp")));
  started_at_ns ← seconds_to_ns start;
  ended_at_ns ← seconds_to_ns end_;
  duration_ns ← ok_or (ingest_invalid "invalid_span_duration")
    (duration ← checked_i64 (ended_at_ns - started_at_ns);
     if 0 <=? duration then Some duration else None);
  let attributes :=
    option_or (option_or (field "attributes") (field "data") ≫= as_object)
              (in_context "data" ≫= as_object) in
  let operation :=
    unwrap_or (lit "unknown")
      (option_or (field "op" ≫= as_str)
         (option_or (in_context "op" ≫= as_str) (attribute_string attributes "sentry.op"))) in
  let name :=
    unwrap_or (lit "unnamed span")
      (option_or (field "name") (option_or (field "description") (get value "transaction"))
       ≫= as_str) in
  let status :=
    unwrap_or [] (option_or (field "status" ≫= as_str) (in_context "status" ≫= as_str)) in
  parent_span_id ← optional_id span_id_parse "invalid_parent_span_id"
    (option_or (field "parent_span_id") (in_context "parent_span_id") ≫= as_str);
  body ← ok_or (ingest_invalid "invalid_span_json") (json_to_vec value);
  operation_text ← bounded_text operation 128 "span_operation_too_large";
  status ← bounded_text status 64 "span_status_too_large";
  name ← normalize_span_name name;
  Ok {| sr_id := span_record_id_deterministic project_id trace_id span_id;
        sr_project_id := project_id;
        sr_received_at := received_at;
        sr_started_at_ns := started_at_ns;
        sr_duration_ns := duration_ns;
        sr_trace_id := trace_id;
        sr_span_id := span_id;
        sr_parent_span_id := parent_span_id;
        sr_is_segment := is_segment;
        sr_operation_class := operation_from_operation operation;
        sr_operation := operation_text;
        sr_status := status;
        sr_name := name;
        sr_environment := environment;
        sr_release := release;
        sr_service := service;
        sr_insight_flags := 0;
        sr_body := body |}.

(** ** Insights *)

Definition flag_when (test : bool) (flag : Z) : Z := if test then flag else 0.
(** The bits do not overlap: [|=]. *)
Definition insight_flags_for_span (record : SpanRecord) : Z :=
  let class c := bool_decide (sr_operation_class record = c) in
  let flags := flag_when (sr_is_segment record && (1000000000 <=? sr_duration_ns record)) 1 in
  let flags := Z.lor flags
    (flag_when (class OcDatabase && (250000000 <=? sr_duration_ns record)) (Z.shiftl 1 3)) in
  let flags := Z.lor flags
    (flag_when (class OcQueue && (500000000 <=? sr_duration_ns record)) (Z.shiftl 1 5)) in
  let flags := Z.lor flags
    (flag_when (class OcTask && (1000000000 <=? sr_duration_ns record)) (Z.shiftl 1 6)) in
  Z.lor flags
    (flag_when (negb (sr_is_segment record)
                && negb (one_of [""; "ok"; "cancelled"]%string (sr_status record))) (Z.shiftl 1 7)).

(** The names seen so far with their counts; [flags], [databases], [http] and
    [cache] are the variables of the loop. *)
Abbreviation name_counts := (gmap str Z).
Definition count_name (counts : name_counts) (name : str) : name_counts :=
  <[name := unwrap_or 0 (counts !! name) + 1]> counts.
Record InsightScan := {
  in_flags : Z;
  in_databases : name_counts;
  in_http : name_counts;
  in_cache : Z;
}.
Definition insight_step (s : InsightScan) (record : SpanRecord) : InsightScan :=
  {| in_flags := Z.lor (in_flags s) (insight_flags_for_span record);
     in_databases := match sr_operation_class record with
                     | OcDatabase => count_name (in_databases s) (sr_name record)
                     | _ => in_databases s end;
     in_http := match sr_operation_class record with
                | OcHttpClient => count_name (in_http s) (sr_name record)
                | _ => in_http s end;
     in_cache := match sr_operation_class record with
                 | OcCache => in_cache s + 1 | _ => in_cache s end |}.
Definition any_count (bound : Z) (counts : name_counts) : bool :=
  existsb (λ kv, bound <=? kv.2) (map_to_list counts).
Definition set_flags (record : SpanRecord) (flags : Z) : SpanRecord :=
  {| sr_id := sr_id record; sr_project_id := sr_project_id record;
     sr_received_at := sr_received_at record; sr_started_at_ns := sr_started_at_ns record;
     sr_duration_ns := sr_duration_ns record; sr_trace_id := sr_trace_id record;
     sr_span_id := sr_span_id record; sr_parent_span_id := sr_parent_span_id record;
     sr_is_segment := sr_is_segment record; sr_operation_class := sr_operation_class record;
     sr_operation := sr_operation record; sr_status := sr_status record;
     sr_name := sr_name record; sr_environment := sr_environment record;
     sr_release := sr_release record; sr_service := sr_service record;
     sr_insight_flags := flags; sr_body := sr_body record |}.
Definition derive_insights (records : list SpanRecord) : list SpanRecord :=
  match list_find (λ record, sr_is_segment record = true) records with
  | None => map (λ record, set_flags record (insight_flags_for_span record)) records
  | Some (root_index, root) =>
      let scan := foldl insight_step
        {| in_flags := insight_flags_for_span root; in_databases := ∅; in_http := ∅; in_cache := 0 |}
        (List.filter (λ record, negb (sr_is_segment record)) records) in
      let flags := Z.lor (in_flags scan) (flag_when (any_count 5 (in_databases scan)) (Z.shiftl 1 1)) in
      let flags := Z.lor flags (flag_when (any_count 3 (in_http scan)) (Z.shiftl 1 2)) in
      let flags := Z.lor flags (flag_when (5 <=? in_cache scan) (Z.shiftl 1 4)) in
      <[root_index := set_flags root flags]> records
  end.

(** ** Transactions *)

Definition child_span (snapshot : ProjectSnapshot) (received_at : Timestamp) (trace_id : bytes)
    (environment release service : option str) (child : Value) : result IngestError SpanRecord :=
  object ← ok_or (ingest_invalid "invalid_transaction_span") (as_object child);
  child_trace_id ← match map_get object (lit "trace_id") with
                   | Some value => required_trace_id (Some value)
                   | None => Ok trace_id
                   end;
  if negb (bool_decide (child_trace_id = trace_id))
  then Err (ingest_invalid "conflicting_span_trace_id")
  else
    span_id ← required_span_id (map_get object (lit "span_id"));
    span_from_parts (ps_project_id snapshot) received_at child object trace_id span_id false
      environment release service.
Definition normalize_transaction (snapshot : ProjectSnapshot) (received_at : Timestamp)
    (payload : bytes) : result IngestError (list SpanRecord) :=
  value ← ok_or (ingest_invalid "invalid_transaction_json") (json_from_slice payload);
  value ← scrub (ps_scrub_policy snapshot) value;
  trace ← ok_or (ingest_invalid "missing_transaction_trace")
            (pointer value ["contexts"; "trace"] ≫= as_object);
  trace_id ← required_trace_id (map_get trace (lit "trace_id"));
  root_span_id ← required_span_id (map_get trace (lit "span_id"));
  let environment := optional_bounded (get value "environment") 128 in
  let release := optional_bounded (get value "release") 256 in
  let service := attribute_boxed (map_get trace (lit "data") ≫= as_object) "service.name" 256 in
  root ← span_from_parts (ps_project_id snapshot) received_at value trace trace_id root_span_id
           true environment release service;
  let children := unwrap_or [] (get value "spans" ≫= as_array) in
  if 1000 <? len children then Err (ingest_invalid "too_many_transaction_spans")
  else
    records ← try_map (child_span snapshot received_at trace_id environment release service) children;
    Ok (derive_insights (root :: records)).

Definition span_from_value (snapshot : ProjectSnapshot) (received_at : Timestamp) (value : Value)
    : result IngestError SpanRecord :=
  object ← ok_or (ingest_invalid "invalid_span_json") (as_object value);
  trace_id ← required_trace_id (map_get object (lit "trace_id"));
  span_id ← required_span_id (map_get object (lit "span_id"));
  let attributes :=
    option_or (map_get object (lit "attributes")) (map_get object (lit "data")) ≫= as_object in
  span_from_parts (ps_project_id snapshot) received_at value object trace_id span_id
    (unwrap_or false (map_get object (lit "is_segment") ≫= as_bool))
    (attribute_boxed attributes "sentry.environment" 128)
    (attribute_boxed attributes "sentry.release" 256)
    (attribute_boxed attributes "service.name" 256).
Definition normalize_spans (snapshot : ProjectSnapshot) (received_at : Timestamp) (payload : bytes)
    : result IngestError (list SpanRecord) :=
  container ← ok_or (ingest_invalid "invalid_span_json") (json_from_slice payload);
  container ← scrub (ps_scrub_policy snapshot) container;
  let values := container_items container in
  if is_empty values || (1000 <? len values) then Err (ingest_invalid "invalid_span_count")
  else
    records ← try_map (span_from_value snapshot received_at) values;
    Ok (derive_insights records).

Definition span_filter_fields (record : SpanRecord) (signal : InboundFilterSignal)
    : InboundFilterFields :=
  {| f_signal := signal; f_release := sr_release record; f_environment := sr_environment record;
     f_service := sr_service record; f_message := None; f_exception_type := None;
     f_logger := None; f_request_host := None; f_request_path := None; f_severity := None;
     f_name := Some (sr_name record); f_operation := Some (sr_operation record);
     f_status := Some (sr_status record);
     f_duration_ms := Some (Z.quot (sr_duration_ns record) 1000000) |}.
(** The fields of a log, from [persist_signals]. *)
Definition log_filter_fields (record : LogRecord) : InboundFilterFields :=
  {| f_signal := SLog; f_release := lr_release record; f_environment := lr_environment record;
     f_service := lr_service record; f_message := Some (lr_message record);
     f_exception_type := None; f_logger := None; f_request_host := None; f_request_path := None;
     f_severity := Some (severity_as_str (lr_severity record)); f_name := None;
     f_operation := None; f_status := None; f_duration_ms := None |}.
End signals.

(** ** Lemmas *)

Section theory.
Context {N : Type} `{!JsonApi N} `{!JsonPrint N} `{Blake3}.
Context {Url : Type} `{!UrlApi Url} `{HmacApi}.
Abbreviation Value := (JValue N).

Lemma try_map_Forall2 {A B} (f : A → result IngestError B) l ys :
  try_map f l = Ok ys ↔ Forall2 (λ x y, f x = Ok y) l ys.
Proof.
  revert ys. induction l as [|x l IH]; intros ys; cbn.
  - split; [intros [= <-]; constructor|by inversion 1].
  - split.
    + destruct (f x) eqn:E; [|done]. cbn. destruct (try_map f l); [|done]. intros [= <-].
      constructor; [done|by apply IH].
    + inversion 1 as [|? y ? ys' Hy Hys]; subst. rewrite Hy. cbn. by rewrite (proj2 (IH ys') Hys).
Qed.

(** Cut texts are prefixes within the bound. *)
Lemma text_boundary_le s n : (boundary_before s n ≤ n)%nat.
Proof. induction n as [|n IH]; cbn [boundary_before]; destruct (is_char_boundary _ _); lia. Qed.
Lemma truncate_text_len value maximum : 0 ≤ maximum → len (truncate_text value maximum) ≤ maximum.
Proof.
  intros Hm. unfold truncate_text. destruct (Z.leb_spec (len value) maximum); [done|].
  unfold len. rewrite length_take. pose proof (text_boundary_le value (Z.to_nat maximum)). lia.
Qed.
Definition bounded (maximum : Z) (text : option str) : Prop := ∀ s, text = Some s → len s ≤ maximum.
Lemma attribute_boxed_bounded attributes key maximum : 0 ≤ maximum →
  bounded maximum (attribute_boxed (N := N) attributes key maximum).
Proof.
  intros Hm s. unfold attribute_boxed. destruct (attribute_string attributes key); [|done].
  cbn. intros [= <-]. by apply truncate_text_len.
Qed.
Lemma optional_bounded_bounded value maximum : 0 ≤ maximum →
  bounded maximum (optional_bounded (N := N) value maximum).
Proof.
  intros Hm s. unfold optional_bounded. destruct (value ≫= as_str); [|done].
  cbn. intros [= <-]. by apply truncate_text_len.
Qed.
Lemma bounded_text_Ok value maximum code text : bounded_text value maximum code = Ok text →
  text = value ∧ len text ≤ maximum ∧ any_control text = false.
Proof.
  unfold bounded_text. destruct (any_control value) eqn:E; [done|]. cbn.
  destruct (Z.ltb_spec maximum (len value)); [done|]. by intros [= <-].
Qed.
Lemma normalize_span_name_Ok value name : normalize_span_name value = Ok name → len name ≤ 1024.
Proof.
  unfold normalize_span_name. destruct (any_control value); [done|]. intros [= <-].
  by apply truncate_text_len.
Qed.
Lemma optional_id_valid parse code value id size :
  (∀ v b, parse v = Ok b → length b = size) →
  optional_id parse code value = Ok id → ∀ b, id = Some b → length b = size.
Proof.
  intros Hp. unfold optional_id. destruct value as [v|]; [|by intros [= <-]].
  destruct (parse v) as [b|] eqn:E; [|done]. cbn. intros [= <-] b' [= <-]. by eapply Hp.
Qed.
Lemma trace_id_length v b : trace_id_parse v = Ok b → length b = 16%nat.
Proof.
  unfold trace_id_parse. destruct (decode_id 16 v) eqn:E; [|done].
  apply decode_id_Some in E as [? _]. intros Hb. inv_cases Hb. congruence.
Qed.
Lemma span_id_length v b : span_id_parse v = Ok b → length b = 8%nat.
Proof.
  unfold span_id_parse. destruct (decode_id 8 v) eqn:E; [|done].
  apply decode_id_Some in E as [? _]. intros Hb. inv_cases Hb. congruence.
Qed.
Lemma required_trace_id_length value b : required_trace_id (N := N) value = Ok b → length b = 16%nat.
Proof.
  unfold required_trace_id. destruct (value ≫= as_str) as [v|]; [|done]. cbn.
  destruct (trace_id_parse v) eqn:E; [|done]. cbn. intros [= <-]. by eapply trace_id_length.
Qed.
Lemma required_span_id_length value b : required_span_id (N := N) value = Ok b → length b = 8%nat.
Proof.
  unfold required_span_id. destruct (value ≫= as_str) as [v|]; [|done]. cbn.
  destruct (span_id_parse v) eqn:E; [|done]. cbn. intros [= <-]. by eapply span_id_length.
Qed.
Lemma seconds_to_ns_range value ns : seconds_to_ns (N := N) value = Ok ns → I64_MIN ≤ ns ≤ I64_MAX.
Proof.
  unfold seconds_to_ns. rewrite bind_Ok. intros (x & _ & Hx). revert Hx. cbv zeta.
  case_match; [done|]. intros [= <-]. apply f64_round_i64_range.
Qed.

(** What every span record keeps. *)
Record span_ok (snapshot : ProjectSnapshot) (received_at : Timestamp) (r : SpanRecord) : Prop := {
  so_project : sr_project_id r = ps_project_id snapshot;
  so_received : sr_received_at r = received_at;
  so_id : sr_id r
          = span_record_id_deterministic (sr_project_id r) (sr_trace_id r) (sr_span_id r);
  so_start : I64_MIN ≤ sr_started_at_ns r ≤ I64_MAX;
  so_duration : 0 ≤ sr_duration_ns r ≤ I64_MAX;
  so_end : sr_started_at_ns r + sr_duration_ns r ≤ I64_MAX;
  so_trace : length (sr_trace_id r) = 16%nat;
  so_span : length (sr_span_id r) = 8%nat;
  so_parent id : sr_parent_span_id r = Some id → length id = 8%nat;
  so_class : sr_operation_class r = operation_from_operation (sr_operation r);
  so_operation : len (sr_operation r) ≤ 128 ∧ any_control (sr_operation r) = false;
  so_status : len (sr_status r) ≤ 64 ∧ any_control (sr_status r) = false;
  so_name : len (sr_name r) ≤ 1024;
  so_environment : bounded 128 (sr_environment r);
  so_release : bounded 256 (sr_release r);
  so_service : bounded 256 (sr_service r);
}.
Lemma span_from_parts_ok snapshot received_at value fields trace_id span_id is_segment
    environment release service r :
  length trace_id = 16%nat → length span_id = 8%nat →
  bounded 128 environment → bounded 256 release → bounded 256 service →
  span_from_parts (N := N) (ps_project_id snapshot) received_at value fields trace_id span_id
    is_segment environment release service = Ok r →
  span_ok snapshot received_at r ∧ sr_is_segment r = is_segment ∧ sr_trace_id r = trace_id.
Proof.
  intros Ht Hs He Hr Hv. unfold span_from_parts. cbv zeta.
  intros Hx. bind_ok Hx as (start & _ & Hx). bind_ok Hx as (end_ & _ & Hx).
  bind_ok Hx as (s & Es & Hx).
  bind_ok Hx as (e & Ee & Hx).
  bind_ok Hx as (d & Ed & Hx).
  bind_ok Hx as (parent & Ep & Hx).
  bind_ok Hx as (body & _ & Hx).
  bind_ok Hx as (op & Eo & Hx).
  bind_ok Hx as (status & Est & Hx).
  bind_ok Hx as (name & En & Hx). injection Hx as <-.
  apply seconds_to_ns_range in Es, Ee. apply bounded_text_Ok in Eo as (-> & Ho & Ho').
  apply bounded_text_Ok in Est as (-> & Hst & Hst'). apply normalize_span_name_Ok in En.
  assert (0 ≤ d ∧ d = e - s) as [Hd ->].
  { unfold checked_i64, checked in Ed. destruct (in_range _ _ _); [|done]. cbn in Ed.
    destruct (Z.leb_spec 0 (e - s)); [|done]. by injection Ed as <-. }
  assert (e - s ≤ I64_MAX).
  { unfold checked_i64, checked in Ed. destruct (in_range _ _ (e - s)) eqn:Ei; [|done].
    unfold in_range in Ei. bool_prop. done. }
  split; [|done]. split; cbn; try done; try lia.
  intros id Hid. eapply optional_id_valid; [|exact Ep|exact Hid]. intros v b. apply span_id_length.
Qed.

Lemma span_from_parts_flags project_id received_at value fields trace_id span_id is_segment
    environment release service r :
  span_from_parts (N := N) project_id received_at value fields trace_id span_id is_segment
    environment release service = Ok r → sr_insight_flags r = 0.
Proof.
  unfold span_from_parts. cbv zeta. intros Hx.
  do 10 (bind_ok Hx as (? & _ & Hx)). by injection Hx as <-.
Qed.
(** Insights change only the flags. *)
Definition flagged (a b : SpanRecord) : Prop :=
  b = set_flags a (sr_insight_flags b) ∧ 0 ≤ sr_insight_flags b < 256.
Lemma flag_when_range test flag : 0 ≤ flag < 256 → 0 ≤ flag_when test flag < 256.
Proof. destruct test; cbn; lia. Qed.
Lemma lor_flags a b : 0 ≤ a < 256 → 0 ≤ b < 256 → 0 ≤ Z.lor a b < 256.
Proof.
  intros [Ha Ha'] [Hb Hb']. split; [by apply Z.lor_nonneg|].
  destruct (Z.eq_dec (Z.lor a b) 0) as [->|]; [lia|].
  apply (Z.log2_lt_pow2 _ 8); [pose proof (proj2 (Z.lor_nonneg a b) (conj Ha Hb)); lia|].
  rewrite Z.log2_lor by done. apply Z.max_lub_lt.
  - destruct (Z.eq_dec a 0) as [->|]; [done|]. apply Z.log2_lt_pow2; lia.
  - destruct (Z.eq_dec b 0) as [->|]; [done|]. apply Z.log2_lt_pow2; lia.
Qed.
Lemma insight_flags_range r : 0 ≤ insight_flags_for_span r < 256.
Proof. unfold insight_flags_for_span. repeat apply lor_flags; by apply flag_when_range. Qed.
Lemma insight_scan_range records s : 0 ≤ in_flags s < 256 →
  0 ≤ in_flags (foldl insight_step s records) < 256.
Proof.
  revert s. induction records as [|r records IH]; intros s Hs; [done|]. cbn [foldl].
  apply IH. cbn. apply lor_flags; [done|apply insight_flags_range].
Qed.
Lemma derive_insights_flagged records : Forall (λ r, sr_insight_flags r = 0) records →
  Forall2 flagged records (derive_insights records).
Proof.
  intros Hz. assert (∀ r, r ∈ records → flagged r r) as Hsame.
  { intros r Hr. rewrite Forall_forall in Hz. specialize (Hz r Hr). destruct r. cbn in *. by subst. }
  unfold derive_insights. destruct (list_find _ records) as [[i root]|] eqn:E.
  - apply list_find_Some in E as (Hi & _ & _).
    rewrite <- (list_insert_id records i root Hi) at 1.
    apply Forall2_insert; [by apply Forall_Forall2_diag, Forall_forall|].
    split; [done|]. cbn. repeat apply lor_flags; try by apply flag_when_range.
    apply insight_scan_range. cbn. apply insight_flags_range.
  - apply Forall2_fmap_r, Forall_Forall2_diag, Forall_forall. intros r _. split; [done|].
    apply insight_flags_range.
Qed.
Lemma span_ok_flags snapshot received_at a b : flagged a b →
  span_ok snapshot received_at a → span_ok snapshot received_at b.
Proof. intros [-> _] []. by split. Qed.

Definition span_batch_ok (snapshot : ProjectSnapshot) (received_at : Timestamp)
    (records : list SpanRecord) : Prop :=
  Forall (λ r, span_ok snapshot received_at r ∧ 0 ≤ sr_insight_flags r < 256) records
  ∧ 1 ≤ len records ≤ 1001.
Lemma span_batch_flagged snapshot received_at records :
  Forall (λ r, span_ok snapshot received_at r ∧ sr_insight_flags r = 0) records →
  1 ≤ len records ≤ 1001 → span_batch_ok snapshot received_at (derive_insights records).
Proof.
  intros Hall Hl.
  assert (Forall2 flagged records (derive_insights records)) as Hf.
  { apply derive_insights_flagged. eapply Forall_impl; [exact Hall|]. by intros r []. }
  split; [|unfold len in *; by rewrite <- (Forall2_length _ _ _ Hf)].
  clear Hl. revert Hall. induction Hf as [|a b la lb Hab _ IH]; [constructor|].
  rewrite !Forall_cons. intros [[Ha _] Hl]. split; [|by apply IH].
  split; [by eapply span_ok_flags|apply Hab].
Qed.
Lemma span_from_value_ok snapshot received_at value r :
  span_from_value (N := N) snapshot received_at value = Ok r →
  span_ok snapshot received_at r ∧ sr_insight_flags r = 0.
Proof.
  unfold span_from_value. intros Hx. bind_ok Hx as (object & _ & Hx).
  bind_ok Hx as (trace_id & Et & Hx). bind_ok Hx as (span_id & Es & Hx). cbv zeta in Hx.
  split; [|by eapply span_from_parts_flags].
  eapply span_from_parts_ok in Hx as (? & _); [done|by eapply required_trace_id_length|
    by eapply required_span_id_length|by apply attribute_boxed_bounded..].
Qed.
Lemma child_span_ok snapshot received_at trace_id environment release service child r :
  length trace_id = 16%nat →
  bounded 128 environment → bounded 256 release → bounded 256 service →
  child_span (N := N) snapshot received_at trace_id environment release service child = Ok r →
  (span_ok snapshot received_at r ∧ sr_insight_flags r = 0)
  ∧ sr_is_segment r = false ∧ sr_trace_id r = trace_id.
Proof.
  intros Ht He Hr Hs. unfold child_span. intros Hx. bind_ok Hx as (object & _ & Hx).
  bind_ok Hx as (child_trace & _ & Hx). case_match; [done|]. bind_ok Hx as (span_id & Es & Hx).
  apply span_from_parts_flags in Hx as Hf.
  eapply span_from_parts_ok in Hx as (? & ? & ?); try done. by eapply required_span_id_length.
Qed.
Lemma normalize_spans_ok snapshot received_at payload records :
  normalize_spans (N := N) snapshot received_at payload = Ok records →
  span_batch_ok snapshot received_at records.
Proof.
  unfold normalize_spans. intros Hx. bind_ok Hx as (c0 & _ & Hx). bind_ok Hx as (c & _ & Hx).
  set (values := container_items c) in *. cbv zeta in Hx. case_match eqn:Hc; [done|].
  bind_ok Hx as (rs & Ers & Hx). injection Hx as <-. apply try_map_Forall2 in Ers.
  apply span_batch_flagged.
  - eapply Forall2_Forall_r; [exact Ers|]. apply Forall_forall. intros v _ r.
    apply span_from_value_ok.
  - apply Forall2_length in Ers. unfold len in *. bool_prop. rewrite <- Ers.
    destruct values; [done|]. cbn in *. lia.
Qed.
Lemma normalize_transaction_ok snapshot received_at payload records :
  normalize_transaction (N := N) snapshot received_at payload = Ok records →
  span_batch_ok snapshot received_at records
  ∧ ∃ root children, records = root :: children
      ∧ sr_is_segment root = true ∧ Forall (λ r, sr_is_segment r = false) children
      ∧ Forall (λ r, sr_trace_id r = sr_trace_id root) children.
Proof.
  unfold normalize_transaction. intros Hx. bind_ok Hx as (v0 & _ & Hx). bind_ok Hx as (v & _ & Hx).
  bind_ok Hx as (trace & _ & Hx). bind_ok Hx as (trace_id & Et & Hx).
  bind_ok Hx as (root_id & Er & Hx). cbv zeta in Hx. bind_ok Hx as (root & Eroot & Hx).
  set (children := unwrap_or [] (get v "spans" ≫= as_array)) in *.
  case_match eqn:Hc; [done|]. bind_ok Hx as (rs & Ers & Hx). injection Hx as <-.
  apply try_map_Forall2 in Ers.
  assert (length trace_id = 16%nat) as Htl by by eapply required_trace_id_length.
  apply span_from_parts_flags in Eroot as Hf.
  eapply span_from_parts_ok in Eroot as (Hroot & Hseg & Htr);
    [|done|by eapply required_span_id_length|by apply optional_bounded_bounded..|
     by apply attribute_boxed_bounded].
  assert (Forall (λ r, (span_ok snapshot received_at r ∧ sr_insight_flags r = 0)
                       ∧ sr_is_segment r = false ∧ sr_trace_id r = trace_id) rs) as Hrs.
  { eapply Forall2_Forall_r; [exact Ers|]. apply Forall_forall. intros c _ r.
    apply child_span_ok; [done|by apply optional_bounded_bounded..|by apply attribute_boxed_bounded]. }
  split.
  - apply span_batch_flagged.
    + constructor; [done|]. eapply Forall_impl; [exact Hrs|]. by intros r [].
    + apply Forall2_length in Ers. unfold len in *. bool_prop. cbn. rewrite <- Ers. lia.
  - unfold derive_insights. cbn [list_find]. rewrite decide_True by done. cbn.
    eexists _, rs. split; [done|]. cbn. split; [done|]. rewrite Htr.
    split; (eapply Forall_impl; [exact Hrs|]); by intros r (_ & ? & ?).
Qed.
End theory.

(** What the span lane stores: at least one and at most 1001 records, each of
    the project of the key and with the identity of its own trace and span, with
    a duration that is not negative and ends within the range of times, and with
    every text within its bound; and of a transaction, the first record is the
    only segment and all are of one trace. *)
Theorem spans_well_formed {N} `{!JsonApi N, !JsonPrint N, !Blake3} {Url} `{!UrlApi Url, !HmacApi}
    snapshot received_at payload records :
  (normalize_spans (N := N) snapshot received_at payload = Ok records →
   span_batch_ok snapshot received_at records)
  ∧ (normalize_transaction (N := N) snapshot received_at payload = Ok records →
     span_batch_ok snapshot received_at records
     ∧ ∃ root children, records = root :: children
         ∧ sr_is_segment root = true ∧ Forall (λ r, sr_is_segment r = false) children
         ∧ Forall (λ r, sr_trace_id r = sr_trace_id root) children).
Proof.
  split; [apply normalize_spans_ok|apply normalize_transaction_ok].
Qed.

(** ** Insights *)

(** What a span shows by itself. *)
Definition shows (r : SpanRecord) (bit : Z) : Prop :=
  (bit = 0 ∧ sr_is_segment r = true ∧ 1000000000 ≤ sr_duration_ns r)
  ∨ (bit = 3 ∧ sr_operation_class r = OcDatabase ∧ 250000000 ≤ sr_duration_ns r)
  ∨ (bit = 5 ∧ sr_operation_class r = OcQueue ∧ 500000000 ≤ sr_duration_ns r)
  ∨ (bit = 6 ∧ sr_operation_class r = OcTask ∧ 1000000000 ≤ sr_duration_ns r)
  ∨ (bit = 7 ∧ sr_is_segment r = false
     ∧ one_of [""; "ok"; "cancelled"]%string (sr_status r) = false).
(** How often the spans call the same thing. *)
Definition calls (class : SpanOperationClass) (name : str) (rs : list SpanRecord) : Z :=
  len (List.filter (λ r, bool_decide (sr_operation_class r = class) && bool_decide (sr_name r = name)) rs).
Definition class_calls (class : SpanOperationClass) (rs : list SpanRecord) : Z :=
  len (List.filter (λ r, bool_decide (sr_operation_class r = class)) rs).

Lemma flag_when_bit test k bit : 0 ≤ k → 0 ≤ bit →
  Z.testbit (flag_when test (Z.shiftl 1 k)) bit = true ↔ bit = k ∧ test = true.
Proof.
  intros Hk Hb. destruct test; cbn [flag_when]; [|rewrite Z.bits_0; naive_solver].
  rewrite Z.shiftl_1_l, Z.pow2_bits_eqb by done. rewrite Z.eqb_eq. naive_solver.
Qed.
Lemma insight_flags_bit r bit : 0 ≤ bit →
  Z.testbit (insight_flags_for_span r) bit = true ↔ shows r bit.
Proof.
  intros Hb. unfold insight_flags_for_span, shows. cbv zeta.
  change (flag_when (sr_is_segment r && (1000000000 <=? sr_duration_ns r)) 1)
    with (flag_when (sr_is_segment r && (1000000000 <=? sr_duration_ns r)) (Z.shiftl 1 0)).
  rewrite !Z.lor_spec, !orb_true_iff, !flag_when_bit by done.
  rewrite !andb_true_iff, !bool_decide_eq_true, !Z.leb_le, !negb_true_iff. tauto.
Qed.
Lemma count_name_lookup counts name n :
  unwrap_or 0 (count_name counts name !! n)
    = unwrap_or 0 (counts !! n) + (if bool_decide (name = n) then 1 else 0).
Proof.
  unfold count_name. case_bool_decide as E.
  - subst. by rewrite lookup_insert_eq.
  - rewrite lookup_insert_ne by done. lia.
Qed.
Lemma calls_cons class n r rs :
  calls class n (r :: rs)
    = (if bool_decide (sr_operation_class r = class) && bool_decide (sr_name r = n) then 1 else 0)
      + calls class n rs.
Proof. unfold calls. cbn [List.filter]. by case_match; rewrite ?len_cons. Qed.
Lemma class_calls_cons class r rs :
  class_calls class (r :: rs)
    = (if bool_decide (sr_operation_class r = class) then 1 else 0) + class_calls class rs.
Proof. unfold class_calls. cbn [List.filter]. by case_match; rewrite ?len_cons. Qed.
Lemma insight_scan rs s :
  let t := foldl insight_step s rs in
  (∀ bit, 0 ≤ bit → Z.testbit (in_flags t) bit = true ↔
     Z.testbit (in_flags s) bit = true ∨ ∃ r, r ∈ rs ∧ shows r bit)
  ∧ (∀ n, unwrap_or 0 (in_databases t !! n) = unwrap_or 0 (in_databases s !! n) + calls OcDatabase n rs)
  ∧ (∀ n, unwrap_or 0 (in_http t !! n) = unwrap_or 0 (in_http s !! n) + calls OcHttpClient n rs)
  ∧ in_cache t = in_cache s + class_calls OcCache rs.
Proof.
  revert s. induction rs as [|r rs IH]; intros s t.
  - subst t. unfold calls, class_calls, len. cbn [foldl List.filter length].
    split_and!; [|by intros; rewrite Z.add_0_r..|lia].
    intros bit _. split; [by left|]. intros [?|(r & Hr & _)]; [done|]. by apply elem_of_nil in Hr.
  - subst t. cbn [foldl]. destruct (IH (insight_step s r)) as (IHf & IHd & IHh & IHc).
    split_and!.
    + intros bit Hb. rewrite IHf by done. cbn. rewrite Z.lor_spec, orb_true_iff, insight_flags_bit by done.
      setoid_rewrite elem_of_cons. naive_solver.
    + intros n. rewrite IHd, calls_cons. cbn.
      destruct (sr_operation_class r); cbn; rewrite ?count_name_lookup; repeat case_bool_decide;
        cbn [andb]; first [lia|congruence].
    + intros n. rewrite IHh, calls_cons. cbn.
      destruct (sr_operation_class r); cbn; rewrite ?count_name_lookup; repeat case_bool_decide;
        cbn [andb]; first [lia|congruence].
    + rewrite IHc, class_calls_cons. cbn.
      destruct (sr_operation_class r); case_bool_decide; first [lia|congruence].
Qed.
Lemma any_count_iff bound counts : 0 < bound →
  any_count bound counts = true ↔ ∃ n, bound ≤ unwrap_or 0 (counts !! n).
Proof.
  intros Hb. unfold any_count. rewrite existsb_exists. split.
  - intros ([n k] & Hin & Hk). apply list_elem_of_In, elem_of_map_to_list in Hin. cbn in Hk.
    exists n. rewrite Hin. cbn. lia.
  - intros [n Hn]. destruct (counts !! n) as [k|] eqn:E; cbn in Hn; [|lia].
    exists (n, k). split; [by apply list_elem_of_In, elem_of_map_to_list|cbn; lia].
Qed.

(** The insights of a trace are exactly the ones declared: the root gets what
    any of its spans shows, five calls of one database statement, three requests
    to one HTTP endpoint and five cache calls, counted over the spans below it;
    no other record changes.  Without a root each span gets what it shows. *)
Theorem insights_exact records :
  match list_find (λ r, sr_is_segment r = true) records with
  | Some (i, root) =>
      let children := List.filter (λ r, negb (sr_is_segment r)) records in
      ∃ flags, derive_insights records = <[i := set_flags root flags]> records
      ∧ ∀ bit, 0 ≤ bit → Z.testbit flags bit = true ↔
          (bit = 1 ∧ ∃ name, 5 ≤ calls OcDatabase name children)
          ∨ (bit = 2 ∧ ∃ name, 3 ≤ calls OcHttpClient name children)
          ∨ (bit = 4 ∧ 5 ≤ class_calls OcCache children)
          ∨ ∃ r, (r = root ∨ r ∈ children) ∧ shows r bit
  | None =>
      Forall2 (λ r s, ∃ flags, s = set_flags r flags
                 ∧ ∀ bit, 0 ≤ bit → Z.testbit flags bit = true ↔ shows r bit)
        records (derive_insights records)
  end.
Proof.
  unfold derive_insights. destruct (list_find _ records) as [[i root]|].
  - cbv zeta. eexists. split; [done|]. intros bit Hb.
    match goal with |- context [foldl insight_step ?s ?rs] =>
      destruct (insight_scan rs s) as (Hf & Hd & Hh & Hc) end.
    rewrite !Z.lor_spec, !orb_true_iff, !flag_when_bit, !any_count_iff by done.
    rewrite Hf, Hc, Z.leb_le by done. cbn [in_flags in_cache in_databases in_http] in *.
    setoid_rewrite Hd. setoid_rewrite Hh. rewrite insight_flags_bit, Z.add_0_l by done.
    assert (∀ n : str, unwrap_or 0 ((∅ : gmap str Z) !! n) = 0) as He
      by (intros n; by rewrite lookup_empty).
    setoid_rewrite He. setoid_rewrite Z.add_0_l. naive_solver.
  - apply Forall2_fmap_r, Forall_Forall2_diag, Forall_forall. intros r _.
    eexists. split; [done|]. intros bit Hb. by apply insight_flags_bit.
Qed.
