(* ===== verification/IngestChecks.v ===== *)
(** * Sessions and check-ins of a request

    [application/src/ingest.rs]: a session update and a monitor check-in as an
    SDK states them become the updates of [Sessions] and [Monitors].  [uuid],
    the RFC 3339 parser of [time] and HMAC-SHA256 are interfaces. *)
From stdpp Require Import base list numbers strings sets.
From Stdlib Require Import ZArith Lia SpecFloat.
From S2P Require Import Prelude External Float Primitives Identity Releases Sessions InboundFilter Monitors Event Normalizer JsonValue IpAddr Scrub IngestSignals.

Record MonitorIngestConfig := {
  mic_retention_days : Z;
  mic_max_check_ins_per_minute : Z;
  mic_limiter_capacity : Z;
}.
Definition monitor_ingest_default : MonitorIngestConfig :=
  {| mic_retention_days := 90; mic_max_check_ins_per_minute := 10000; mic_limiter_capacity := 10000 |}.

Section checks.
Context {N : Type} `{!JsonApi N} `{!Blake3}.
Context {Url : Type} `{!UrlApi Url, !HmacApi, !UuidApi, !Rfc3339Api, !TimeApi}.
Abbreviation Value := (JValue N).
Abbreviation fields := (list (str * Value)).

(** [i64::MAX as f64 / 1_000.0]. *)
Definition millis_limit (bound : Z) : f64 := f64_div (f64_of_i64 bound) (f64_of_i64 1000).
Definition seconds_to_millis_u64 (seconds : f64) : Z := f64_round_u64 (f64_mul seconds (f64_of_i64 1000)).
(** The duration both items state in seconds; one that is out of range is
    ignored. *)
Definition item_duration (object : fields) : option Z :=
  value ← map_get object (lit "duration") ≫= as_f64;
  if f64_is_finite value && f64_leb f64_zero value && f64_leb value (millis_limit I64_MAX)
  then Some (seconds_to_millis_u64 value) else None.
(** [Uuid::parse_str] of a text that is not the nil UUID. *)
Definition item_uuid (object : fields) (key : string) : option bytes :=
  text ← map_get object (lit key) ≫= as_str;
  id ← uuid_parse text;
  if bool_decide (id = replicate 16 0) then None else Some id.

(** ** Sessions *)

Definition parse_session_timestamp (value : Value) : result IngestError Timestamp :=
  milliseconds ←
    match as_f64 value with
    | Some seconds =>
        if negb (f64_is_finite seconds) || f64_ltb seconds (millis_limit I64_MIN)
           || f64_ltb (millis_limit I64_MAX) seconds
        then Err (ingest_invalid "invalid_session_timestamp")
        else Ok (f64_round_i64 (f64_mul seconds (f64_of_i64 1000)))
    | None =>
        text ← ok_or (ingest_invalid "invalid_session_timestamp") (as_str value);
        nanos ← ok_or (ingest_invalid "invalid_session_timestamp") (rfc3339_nanos text);
        ok_or (ingest_invalid "invalid_session_timestamp") (checked_i64 (Z.quot nanos 1000000))
    end;
  map_err (λ _, ingest_invalid "invalid_session_timestamp") (from_unix_millis milliseconds).

Definition session_status (status : str) : result IngestError SessionState :=
  if one_of ["started"; "ok"]%string status then Ok SOk
  else if one_of ["exited"]%string status then Ok SExited
  else if one_of ["crashed"]%string status then Ok SCrashed
  else if one_of ["abnormal"]%string status then Ok SAbnormal
  else Err (ingest_invalid "invalid_session_status").
(** The [expect] of the source: a key of any length is accepted, so that the
    default is not reached. *)
Definition session_user_digest (hmac_key value : bytes) : bytes :=
  take 16 (unwrap_or [] (hmac_sha256 hmac_key [lit "metric/session-user/v1"; value])).

Definition normalize_session (snapshot : ProjectSnapshot) (received_at : Timestamp)
    (payload : bytes) : result IngestError SessionUpdate :=
  value ← ok_or (ingest_invalid "invalid_session_json") (json_from_slice payload);
  value ← scrub (ps_scrub_policy snapshot) value;
  object ← ok_or (ingest_invalid "invalid_session_json") (as_object value);
  sdk_id ← ok_or (ingest_invalid "invalid_session_id") (item_uuid object "sid");
  let attributes := map_get object (lit "attrs") ≫= as_object in
  release ← ok_or (ingest_invalid "missing_session_release") (attribute_string attributes "release");
  _ ← map_err (λ _, ingest_invalid "invalid_session_release") (validate_version release);
  let environment := unwrap_or (lit "production") (attribute_string attributes "environment") in
  if is_empty environment || (64 <? len environment)
  then Err (ingest_invalid "invalid_session_environment")
  else
    started ← ok_or (ingest_invalid "missing_session_started") (map_get object (lit "started"));
    started_at ← parse_session_timestamp started;
    updated_at ← match map_get object (lit "timestamp") with
                 | Some value => parse_session_timestamp value
                 | None => Ok received_at
                 end;
    state ← session_status (unwrap_or (lit "ok") (map_get object (lit "status") ≫= as_str));
    let user := option_or (map_get object (lit "did") ≫= as_str) (attribute_string attributes "user_id") in
    let update :=
      {| su_id := session_id_derive (ps_project_id snapshot) sdk_id;
         su_project_id := ps_project_id snapshot;
         su_release_id := derive_release_id (ps_organization_id snapshot) release;
         su_environment_id := derive_environment_id (ps_project_id snapshot) environment;
         su_started_at := started_at;
         su_updated_at := updated_at;
         su_state := state;
         su_sequence := map_get object (lit "seq") ≫= as_u64;
         su_duration_ms := item_duration object;
         su_user_digest :=
           value ← user;
           if non_empty value
           then Some (session_user_digest (sp_hmac_key (ps_scrub_policy snapshot)) value)
           else None |} in
    _ ← map_err (λ _, ingest_invalid "invalid_session_lifecycle") (session_update_validate update);
    Ok update.

(** ** Check-ins *)

Definition optional_u32 (object : fields) (key : string) : result IngestError (option Z) :=
  match map_get object (lit key) with
  | Some value => Some <$> ok_or (ingest_invalid "invalid_monitor_config") (as_u32 value)
  | None => Ok None
  end.
Definition checked_mul_u32 (code : string) (x y : Z) : result IngestError Z :=
  ok_or (ingest_invalid code) (checked_u32 (x * y)).
Definition interval_factor (unit : option str) : result IngestError Z :=
  let code := ingest_invalid "invalid_monitor_interval_unit" in
  unit ← ok_or code unit;
  if one_of ["minute"]%string unit then Ok 1
  else if one_of ["hour"]%string unit then Ok 60
  else if one_of ["day"]%string unit then Ok (24 * 60)
  else if one_of ["week"]%string unit then Ok (7 * 24 * 60)
  else Err code.
Definition normalize_schedule (schedule : fields) : result IngestError MonitorSchedule :=
  schedule_type ← ok_or (ingest_invalid "missing_monitor_schedule_type")
                    (map_get schedule (lit "type") ≫= as_str);
  schedule ←
    (if one_of ["crontab"]%string schedule_type then
       value ← ok_or (ingest_invalid "invalid_monitor_schedule")
                 (map_get schedule (lit "value") ≫= as_str);
       Ok (schedule_crontab value)
     else if one_of ["interval"]%string schedule_type then
       value ← ok_or (ingest_invalid "invalid_monitor_interval")
                 (map_get schedule (lit "value") ≫= as_u32);
       factor ← interval_factor (map_get schedule (lit "unit") ≫= as_str);
       minutes ← checked_mul_u32 "invalid_monitor_interval" value factor;
       Ok (schedule_interval minutes)
     else Err (ingest_invalid "unsupported_monitor_schedule"));
  map_err (λ _, ingest_invalid "invalid_monitor_schedule") schedule.

Definition normalize_monitor_definition (snapshot : ProjectSnapshot) (received_at : Timestamp)
    (monitor_id : bytes) (slug environment : str) (value : Value)
    : result IngestError MonitorDefinition :=
  config ← ok_or (ingest_invalid "invalid_monitor_config") (as_object value);
  let timezone := unwrap_or (lit "UTC") (map_get config (lit "timezone") ≫= as_str) in
  if negb (bool_decide (timezone = lit "UTC"))
  then Err (ingest_invalid "unsupported_monitor_timezone")
  else
    schedule ← ok_or (ingest_invalid "missing_monitor_schedule")
                 (map_get config (lit "schedule") ≫= as_object);
    schedule ← normalize_schedule schedule;
    margin ← optional_u32 config "checkin_margin";
    runtime ← optional_u32 config "max_runtime";
    margin_seconds ← checked_mul_u32 "invalid_monitor_margin" (unwrap_or 1 margin) 60;
    runtime_seconds ← checked_mul_u32 "invalid_monitor_runtime" (unwrap_or 30 runtime) 60;
    let monitor_config := {| mc_schedule := schedule; mc_checkin_margin_seconds := margin_seconds;
                             mc_max_runtime_seconds := runtime_seconds |} in
    _ ← map_err (λ _, ingest_invalid "invalid_monitor_config") (config_validate monitor_config);
    next_expected_at ← map_err (λ _, ingest_invalid "invalid_monitor_schedule")
                         (schedule_next_after (mc_schedule monitor_config) received_at);
    let definition :=
      {| md_id := monitor_id; md_project_id := ps_project_id snapshot; md_slug := slug;
         md_name := slug;
         md_environment_id := derive_environment_id (ps_project_id snapshot) environment;
         md_environment := environment; md_enabled := true; md_managed_by_web := false;
         md_revision := 1; md_config := monitor_config; md_uptime := None;
         md_next_expected_at := next_expected_at; md_last_run_id := None; md_last_status := None;
         md_last_check_in_at := None; md_created_at := received_at; md_updated_at := received_at |} in
    _ ← map_err (λ _, ingest_invalid "invalid_monitor_definition") (definition_validate definition);
    Ok definition.

(** When the run of a check-in began. *)
Definition check_in_started_at (received_at : Timestamp) (status : MonitorRunStatus)
    (duration_ms : option Z) : result IngestError Timestamp :=
  if bool_decide (status = InProgress) then Ok received_at
  else map_err (λ _, ingest_invalid "invalid_check_in_duration")
         (from_unix_millis (sat_i64 (received_at - Z.min (unwrap_or 0 duration_ms) I64_MAX))).
Definition check_in_timeout (definition : option MonitorDefinition) (status : MonitorRunStatus)
    (started_at : Timestamp) : result IngestError (option Timestamp) :=
  match definition with
  | Some definition =>
      if bool_decide (status = InProgress)
      then Some <$> map_err (λ _, ingest_invalid "invalid_monitor_runtime")
                      (timeout_at (md_config definition) started_at)
      else Ok None
  | None => Ok None
  end.
Definition check_in_status (object : fields) : result IngestError MonitorRunStatus :=
  status ← ok_or (ingest_invalid "missing_check_in_status") (map_get object (lit "status") ≫= as_str);
  status ← map_err (λ _, ingest_invalid "invalid_check_in_status") (run_status_parse status);
  match status with
  | Timeout | Missed => Err (ingest_invalid "invalid_sdk_check_in_status")
  | _ => Ok status
  end.

Definition normalize_check_in (snapshot : ProjectSnapshot) (received_at : Timestamp)
    (payload : bytes) (ingest : MonitorIngestConfig) : result IngestError MonitorUpdate :=
  value ← ok_or (ingest_invalid "invalid_check_in_json") (json_from_slice payload);
  value ← scrub (ps_scrub_policy snapshot) value;
  object ← ok_or (ingest_invalid "invalid_check_in_json") (as_object value);
  check_in_id ← ok_or (ingest_invalid "invalid_check_in_id") (item_uuid object "check_in_id");
  slug ← ok_or (ingest_invalid "missing_monitor_slug")
           (slug ← map_get object (lit "monitor_slug") ≫= as_str;
            if non_empty slug then Some slug else None);
  let environment := unwrap_or (lit "production") (map_get object (lit "environment") ≫= as_str) in
  let monitor_id := monitor_id_derive (ps_project_id snapshot) slug environment in
  status ← check_in_status object;
  let duration_ms := item_duration object in
  started_at ← check_in_started_at received_at status duration_ms;
  definition ←
    match map_get object (lit "monitor_config") with
    | Some value =>
        Some <$> normalize_monitor_definition snapshot received_at monitor_id slug environment value
    | None => Ok None
    end;
  timeout_at ← check_in_timeout definition status started_at;
  let release_id :=
    release ← map_get object (lit "release") ≫= as_str;
    if is_ok (validate_version release)
    then Some (derive_release_id (ps_organization_id snapshot) release) else None in
  delete_at ← map_err (λ _, ingest_invalid "invalid_monitor_retention")
    (from_unix_millis (sat_i64 (received_at
       + sat_i64 (sat_i64 (mic_retention_days ingest * (24 * 60 * 60)) * 1000))));
  let run :=
    {| mr_id := monitor_run_sdk monitor_id check_in_id;
       mr_project_id := ps_project_id snapshot; mr_monitor_id := monitor_id;
       mr_check_in_id := Some check_in_id; mr_status := status; mr_source := Sdk;
       mr_scheduled_for := None; mr_started_at := started_at;
       mr_finished_at := then_some (is_terminal status) received_at;
       mr_duration_ms := duration_ms; mr_received_at := received_at; mr_release_id := release_id;
       mr_timeout_at := timeout_at; mr_delete_at := Some delete_at; mr_http_status := None;
       mr_uptime_failure := None |} in
  let update := {| mu_definition := definition; mu_run := run |} in
  _ ← map_err (λ _, ingest_invalid "invalid_check_in") (update_validate update);
  Ok update.
End checks.

(** ** What comes out *)

Section theory.
Context {N : Type} `{!JsonApi N} `{B : !Blake3}.
Context {Url : Type} `{!UrlApi Url, !HmacApi, !UuidApi, !Rfc3339Api, !TimeApi}.
Abbreviation Value := (JValue N).

Lemma add_millis_Ok value delta t : add_millis value delta = Ok t → t = value + delta ∧ timestamp_valid t.
Proof.
  unfold add_millis. intros E. bind_ok E as (s & Es & E). apply ok_or_Ok, checked_Some in Es as [-> _].
  apply map_err_Ok, from_unix_millis_Ok in E as [-> E]. done.
Qed.
Lemma schedule_next_later s after t : timestamp_valid after →
  match s with Interval minutes => 1 ≤ minutes | Crontab _ _ => True end →
  schedule_next_after s after = Ok t → after < t ∧ timestamp_valid t.
Proof.
  intros Ha Hs E. destruct s as [minutes|expression compiled]; cbn [schedule_next_after] in E.
  - bind_ok E as (delta & Ed & E). apply ok_or_Ok, checked_Some in Ed as [-> _].
    apply add_millis_Ok in E as [-> Hv]. split; [lia|done].
  - pose proof (cron_next_after_spec compiled after Ha) as Hc. rewrite E in Hc.
    by destruct Hc as (_ & _ & _ & ? & ? & _).
Qed.
Lemma normalize_schedule_Ok (schedule : list (str * Value)) s : normalize_schedule schedule = Ok s →
  match s with Interval minutes => 1 ≤ minutes | Crontab _ _ => True end.
Proof.
  unfold normalize_schedule. intros E. bind_ok E as (kind & _ & E). bind_ok E as (r & Er & E).
  apply map_err_Ok in E. subst r. destruct s as [minutes|]; [|done].
  destruct (one_of _ kind).
  - bind_ok Er as (value & _ & Er). injection Er as Er. apply schedule_crontab_Ok in Er. naive_solver.
  - destruct (one_of _ kind); [|done]. bind_ok Er as (value & _ & Er). bind_ok Er as (factor & _ & Er).
    bind_ok Er as (m & _ & Er). injection Er as Er. unfold schedule_interval in Er.
    destruct (in_range 1 MAX_MONITOR_INTERVAL_MINUTES m) eqn:Em; [|done]. apply in_range_true in Em.
    injection Er as ->. lia.
Qed.

(** A definition that a check-in states. *)
Record stated_definition (snapshot : ProjectSnapshot) (received_at : Timestamp) (monitor_id : bytes)
    (slug environment : str) (d : MonitorDefinition) : Prop := {
  st_id : md_id d = monitor_id;
  st_project : md_project_id d = ps_project_id snapshot;
  st_slug : md_slug d = slug ∧ md_name d = slug;
  st_environment : md_environment d = environment
    ∧ md_environment_id d = derive_environment_id (ps_project_id snapshot) environment;
  st_fresh : md_enabled d = true ∧ md_managed_by_web d = false ∧ md_revision d = 1
    ∧ md_uptime d = None ∧ md_last_run_id d = None;
  st_valid : definition_validate d = Ok tt;
  st_next : received_at < md_next_expected_at d ∧ timestamp_valid (md_next_expected_at d);
}.
Lemma normalize_monitor_definition_Ok snapshot received_at monitor_id slug environment (value : Value) d :
  timestamp_valid received_at →
  normalize_monitor_definition snapshot received_at monitor_id slug environment value = Ok d →
  stated_definition snapshot received_at monitor_id slug environment d.
Proof.
  intros Hr E. unfold normalize_monitor_definition in E. bind_ok E as (config & _ & E). cbv zeta in E.
  case_bool_decide; [|done]. cbn [negb] in E. bind_ok E as (fields & _ & E). bind_ok E as (s & Es & E).
  bind_ok E as (margin & _ & E). bind_ok E as (runtime & _ & E). bind_ok E as (m & _ & E).
  bind_ok E as (r & _ & E). bind_ok E as (u & _ & E). bind_ok E as (next & En & E).
  bind_ok E as (v & Ev & E). injection E as <-. apply map_err_Ok in En, Ev. destruct v.
  apply normalize_schedule_Ok in Es. apply (schedule_next_later _ _ _ Hr) in En; [|done].
  split; cbn; try done.
Qed.

Lemma check_in_started_at_Ok received_at status duration_ms t : timestamp_valid received_at →
  (∀ d, duration_ms = Some d → 0 ≤ d) →
  check_in_started_at received_at status duration_ms = Ok t →
  t = (if bool_decide (status = InProgress) then received_at
       else received_at - Z.min (unwrap_or 0 duration_ms) I64_MAX)
  ∧ t ≤ received_at ∧ timestamp_valid t.
Proof.
  unfold check_in_started_at. intros Hr Hd E. case_bool_decide.
  - injection E as <-. split_and!; [done|lia|done].
  - apply map_err_Ok, from_unix_millis_Ok in E as [-> Hv].
    assert (0 ≤ unwrap_or 0 duration_ms) by (destruct duration_ms as [d|]; cbn; [by apply Hd|done]).
    unfold timestamp_valid, MIN_TIMESTAMP_MILLIS, MAX_TIMESTAMP_MILLIS in Hr, Hv.
    assert (sat_i64 (received_at - Z.min (unwrap_or 0 duration_ms) I64_MAX)
            = received_at - Z.min (unwrap_or 0 duration_ms) I64_MAX) as Heq.
    { unfold sat_i64, saturate, I64_MIN, I64_MAX in *. lia. }
    rewrite Heq in *. split_and!; [done|unfold I64_MAX; lia|].
    unfold timestamp_valid, MIN_TIMESTAMP_MILLIS, MAX_TIMESTAMP_MILLIS. lia.
Qed.
Lemma item_duration_nonneg (object : list (str * Value)) d : item_duration object = Some d → 0 ≤ d.
Proof.
  unfold item_duration. destruct (map_get object (lit "duration") ≫= as_f64) as [x|]; [|done].
  cbn. case_match; [|done]. intros [= <-]. apply f64_round_u64_range.
Qed.
Lemma item_uuid_not_nil (object : list (str * Value)) key id : item_uuid object key = Some id → id ≠ replicate 16 0.
Proof.
  unfold item_uuid. intros E. destruct (map_get object (lit key) ≫= as_str) as [text|]; [|done].
  cbn in E. destruct (uuid_parse text) as [u|]; [|done]. cbn in E. case_bool_decide; [done|]. by injection E as <-.
Qed.
Lemma check_in_status_Ok (object : list (str * Value)) status : check_in_status object = Ok status →
  status = InProgress ∨ status = Success ∨ status = Error.
Proof.
  unfold check_in_status. intros E. bind_ok E as (text & _ & E). bind_ok E as (s & _ & E).
  destruct s; simplify_eq; auto.
Qed.
Lemma check_in_timeout_Ok definition status started_at t :
  check_in_timeout definition status started_at = Ok t →
  t = (if bool_decide (status = InProgress)
       then (λ d, started_at + mc_max_runtime_seconds (md_config d) * 1000) <$> definition else None).
Proof.
  unfold check_in_timeout. destruct definition as [d|]; [|by intros [= <-]; case_bool_decide].
  case_bool_decide; [|by intros [= <-]]. unfold timeout_at.
  destruct (add_millis _ _) as [u|] eqn:E; [|done]. cbn. intros [= <-].
  by apply add_millis_Ok in E as [-> _].
Qed.

(** What a run recorded for a check-in says. *)
Record check_in_run (snapshot : ProjectSnapshot) (received_at : Timestamp) (slug environment : str)
    (check_in_id : bytes) (definition : option MonitorDefinition) (r : MonitorRun) : Prop := {
  ci_monitor : mr_monitor_id r = monitor_id_derive (ps_project_id snapshot) slug environment;
  ci_id : mr_id r = monitor_run_sdk (mr_monitor_id r) check_in_id
    ∧ mr_check_in_id r = Some check_in_id ∧ check_in_id ≠ replicate 16 0;
  ci_project : mr_project_id r = ps_project_id snapshot ∧ mr_source r = Sdk
    ∧ mr_received_at r = received_at;
  ci_status :
    mr_status r = InProgress ∧ mr_started_at r = received_at ∧ mr_finished_at r = None
    ∨ (mr_status r = Success ∨ mr_status r = Error) ∧ mr_finished_at r = Some received_at
      ∧ mr_started_at r = received_at - Z.min (unwrap_or 0 (mr_duration_ms r)) I64_MAX
      ∧ mr_started_at r ≤ received_at;
  ci_timeout : mr_timeout_at r
    = (if bool_decide (mr_status r = InProgress)
       then (λ d, received_at + mc_max_runtime_seconds (md_config d) * 1000) <$> definition else None);
}.

Lemma normalize_check_in_Ok snapshot received_at payload ingest u : timestamp_valid received_at →
  normalize_check_in (N := N) snapshot received_at payload ingest = Ok u →
  update_validate u = Ok tt
  ∧ ∃ slug environment check_in_id, slug ≠ []
    ∧ check_in_run snapshot received_at slug environment check_in_id (mu_definition u) (mu_run u)
    ∧ ∀ d, mu_definition u = Some d →
        stated_definition snapshot received_at (mr_monitor_id (mu_run u)) slug environment d.
Proof.
  intros Hr E. unfold normalize_check_in in E. bind_ok E as (v & _ & E). bind_ok E as (w & _ & E).
  bind_ok E as (object & _ & E). bind_ok E as (check_in_id & Eid & E). bind_ok E as (slug & Eslug & E).
  cbv zeta in E. bind_ok E as (status & Est & E). bind_ok E as (started & Estart & E).
  bind_ok E as (definition & Ed & E). bind_ok E as (timeout & Et & E). bind_ok E as (delete & _ & E).
  bind_ok E as (x & Ev & E). destruct x. injection E as <-. apply map_err_Ok in Ev.
  apply ok_or_Ok, item_uuid_not_nil in Eid. apply check_in_status_Ok in Est.
  apply (check_in_started_at_Ok _ _ _ _ Hr) in Estart as (Hs & Hle & _); [|apply item_duration_nonneg].
  apply check_in_timeout_Ok in Et. split; [done|].
  exists slug, (unwrap_or (lit "production") (map_get object (lit "environment") ≫= as_str)), check_in_id.
  split_and!.
  - apply ok_or_Ok in Eslug. destruct (map_get object (lit "monitor_slug") ≫= as_str) as [s|]; [|done].
    cbn in Eslug. destruct (non_empty s) eqn:Es; [|done]. injection Eslug as <-. by apply non_empty_true.
  - split; cbn; [done|done|done| |].
    + case_bool_decide; [left; by subst|right]. destruct Est as [?|Est]; [done|].
      split_and!; [done| |done|done]. by destruct Est as [-> | ->].
    + rewrite Et. case_bool_decide; [by rewrite Hs|done].
  - cbn. intros d ->. destruct (map_get object (lit "monitor_config")) as [value|]; [|done].
    destruct (normalize_monitor_definition _ _ _ _ _ value) as [d'|] eqn:En; [|done].
    injection Ed as ->. by eapply normalize_monitor_definition_Ok.
Qed.
End theory.

(** A check-in that is accepted becomes a run of the monitor its slug and
    environment name, under the identity of its own id, valid for storage:
    in progress from when it was received, or finished then and begun its
    duration earlier; it can time out only while in progress, by the runtime of
    the definition stated with it; and that definition is valid, new, of the same
    monitor, and expects the next run later than now. *)
Theorem check_in_recorded {N} `{!JsonApi N, !Blake3} {Url}
    `{!UrlApi Url, !HmacApi, !UuidApi, !TimeApi} snapshot received_at payload ingest u :
  timestamp_valid received_at →
  normalize_check_in (N := N) snapshot received_at payload ingest = Ok u →
  update_validate u = Ok tt
  ∧ ∃ slug environment check_in_id, slug ≠ []
    ∧ check_in_run snapshot received_at slug environment check_in_id (mu_definition u) (mu_run u)
    ∧ ∀ d, mu_definition u = Some d →
        stated_definition snapshot received_at (mr_monitor_id (mu_run u)) slug environment d.
Proof. apply normalize_check_in_Ok. Qed.

(** A session that is accepted is one the release-health store takes: its
    times and duration are in order, it is the session of the SDK's id in this
    project, of a release with a valid version and of an environment of 1 to 64
    bytes, and of the user only the first 16 bytes of a keyed digest are kept. *)
Theorem session_recorded {N} `{!JsonApi N, !Blake3} {Url}
    `{!UrlApi Url, !HmacApi, !UuidApi, !Rfc3339Api} snapshot received_at payload u :
  normalize_session (N := N) snapshot received_at payload = Ok u →
  (∃ r, record_from_update u = Ok r)
  ∧ su_project_id u = ps_project_id snapshot
  ∧ (∃ sdk_id, sdk_id ≠ replicate 16 0 ∧ su_id u = session_id_derive (ps_project_id snapshot) sdk_id)
  ∧ (∃ version, validate_version version = Ok tt
      ∧ su_release_id u = derive_release_id (ps_organization_id snapshot) version)
  ∧ (∃ environment, 0 < len environment ≤ 64
      ∧ su_environment_id u = derive_environment_id (ps_project_id snapshot) environment)
  ∧ (∀ digest, su_user_digest u = Some digest → ∃ user, user ≠ []
      ∧ digest = session_user_digest (sp_hmac_key (ps_scrub_policy snapshot)) user).
Proof.
  intros E. unfold normalize_session in E. bind_ok E as (v & _ & E). bind_ok E as (w & _ & E).
  bind_ok E as (object & _ & E). bind_ok E as (sdk_id & Eid & E). cbv zeta in E.
  bind_ok E as (release & _ & E). bind_ok E as (x & Ever & E). apply map_err_Ok in Ever. destruct x.
  set (environment := unwrap_or _ _) in E. clearbody environment. destruct (is_empty environment || _) eqn:Een; [done|].
  bind_ok E as (started & _ & E). bind_ok E as (started_at & _ & E). bind_ok E as (updated_at & _ & E).
  bind_ok E as (state & _ & E). bind_ok E as (x & Eval & E). apply map_err_Ok in Eval. destruct x.
  injection E as <-. apply ok_or_Ok, item_uuid_not_nil in Eid.
  split; [unfold record_from_update; rewrite Eval; by eexists|]. cbn. split_and!.
  - done.
  - by exists sdk_id.
  - by exists release.
  - exists environment. split; [|done]. apply orb_false_iff in Een as [Hne Hl%Z.ltb_ge].
    unfold is_empty in Hne. apply negb_false_iff, non_empty_true in Hne. unfold len in *.
    destruct environment; [done|]. cbn [length] in *. lia.
  - intros digest Ed. destruct (option_or _ _) as [user|]; [|done]. cbn in Ed.
    destruct (non_empty user) eqn:Eu; [|done]. injection Ed as <-. exists user.
    split; [by apply non_empty_true|done].
Qed.

(** *** A check-in *)

Definition sample_check_in : JsonApi Z := {|
  json_from_slice _ := Some (JObject
    [(lit "check_in_id", JString (lit "id")); (lit "duration", JNumber 2);
     (lit "monitor_config", JObject
       [(lit "max_runtime", JNumber 5);
        (lit "schedule", JObject [(lit "type", JString (lit "interval"));
          (lit "unit", JString (lit "hour")); (lit "value", JNumber 1)])]);
     (lit "monitor_slug", JString (lit "backup")); (lit "status", JString (lit "ok"))]);
  number_to_string := to_dec; number_as_f64 z := Some (f64_of_i64 z); number_as_u64 := Some |}.
Definition sample_uuid : UuidApi := λ _, Some (replicate 16 7).
Definition first_64 : Blake3 := λ input, take 32 (input ++ replicate 32 0).
Definition no_hmac : HmacApi := λ _ _, None.
Definition sample_snapshot : ProjectSnapshot := {|
  ps_project_id := 7; ps_organization_id := 1; ps_state := PActive; ps_key_state := KActive;
  ps_scrub_policy := sample_policy;
  ps_items := {| ic_error := true; ic_client_report := true; ic_log := true; ic_transaction := true;
    ic_span := true; ic_feedback := true; ic_check_in := true; ic_metric := true; ic_replay := true |};
  ps_limits := ingest_limits_default; ps_inbound_filters := policy_default; ps_grouping_revision := 1 |}.
#[local] Existing Instances sample_check_in sample_uuid no_url first_64 no_hmac january_1970.
Definition sample_update : result IngestError MonitorUpdate :=
  Eval vm_compute in normalize_check_in sample_snapshot 1700000000000 [] monitor_ingest_default.
Lemma check_in_recorded_witness :
  normalize_check_in sample_snapshot 1700000000000 [] monitor_ingest_default = sample_update
  ∧ ∀ u, sample_update = Ok u →
      mr_started_at (mu_run u) = 1699999998000 ∧ is_some (mu_definition u) = true
      ∧ update_validate u = Ok tt.
Proof.
  assert (normalize_check_in sample_snapshot 1700000000000 [] monitor_ingest_default = sample_update)
    as E by (vm_compute; reflexivity).
  split; [exact E|]. intros u Hu. rewrite Hu in E.
  assert (timestamp_valid 1700000000000) as Hv by (split; discriminate).
  split; [by injection Hu as <-|]. split; [by injection Hu as <-|].
  exact (proj1 (check_in_recorded _ _ _ _ _ Hv E)).
Defined.
