(* ===== verification/IngestMetrics.v ===== *)
(** * Metric measurements of a request

    [application/src/ingest.rs]: a container of trace metrics is read as a
    stream and folded, measurement by measurement, into the batch of deltas of
    [Metrics].  The streaming decoder is the interface [JsonStream]. *)
From stdpp Require Import base list numbers strings sets gmap.
From Stdlib Require Import ZArith Lia SpecFloat.
From S2P Require Import Prelude Float External Primitives Identity InboundFilter Event Normalizer JsonValue Signals Metrics IpAddr Scrub.

Record MetricIngestConfig := {
  mtc_bucket_width_seconds : Z;
  mtc_max_tags : Z;
  mtc_max_name_bytes : Z;
  mtc_max_unit_bytes : Z;
  mtc_max_tag_key_bytes : Z;
  mtc_max_tag_value_bytes : Z;
}.
Definition metric_ingest_default : MetricIngestConfig :=
  {| mtc_bucket_width_seconds := 60; mtc_max_tags := 16; mtc_max_name_bytes := 200;
     mtc_max_unit_bytes := 32; mtc_max_tag_key_bytes := 64; mtc_max_tag_value_bytes := 128 |}.

Definition bounded_metric_text (value : str) (maximum : Z) (allow_empty : bool) : option str :=
  let value := trim value in
  if (negb allow_empty && is_empty value) || (maximum <? len value) || str_contains [0] value
     || any_control value
  then None else Some value.
(** [timestamp.div_euclid(width) * width], as it wraps. *)
Definition metric_bucket_start (timestamp_millis width_millis : Z) : option Timestamp :=
  ok (from_unix_millis (wrap_i64 (timestamp_millis / width_millis * width_millis))).
Definition metric_kind_parse (value : str) : option MetricKind :=
  if one_of ["counter"]%string value then Some Counter
  else if one_of ["gauge"]%string value then Some Gauge
  else if one_of ["distribution"]%string value then Some Distribution
  else None.
(** Attributes the SDK keeps for itself. *)
Definition internal_attribute (key : str) : bool :=
  bool_decide (key = lit "sentry.timestamp.sequence") || starts_with (lit "user.") key
  || starts_with (lit "sentry._internal.") key.
Definition tag_key (key : str) : str := map (λ b, if (b =? 46) || (b =? 36) then 95 else b) key.

Section metrics.
Context {N : Type} `{!JsonApi N, !JsonStream N} `{!Blake3, !Log2}.
Context (snapshot : ProjectSnapshot) (received_at : Timestamp) (config : MetricIngestConfig).
Abbreviation Value := (JValue N).

Definition tag_value (raw : Value) : option str :=
  match raw with
  | JString value => bounded_metric_text value (mtc_max_tag_value_bytes config) true
  | JBool value => Some (lit (if value then "true" else "false"))
  | JNumber value => bounded_metric_text (number_to_string value) (mtc_max_tag_value_bytes config) true
  | _ => None
  end.
(** The loop over the attributes; [tags] is a [BTreeMap]. *)
Fixpoint metric_tags (tags : list (str * str)) (attributes : list (str * Value))
    : option (list (str * str)) :=
  match attributes with
  | [] => Some tags
  | (key, typed) :: attributes =>
      if internal_attribute key then metric_tags tags attributes
      else
        key ← bounded_metric_text key (mtc_max_tag_key_bytes config) false;
        let key := tag_key key in
        typed ← as_object typed;
        raw ← map_get typed (lit "value");
        tag ← tag_value raw;
        let '(tags, known) := btree_insert tags key tag in
        if known : bool then None
        else if mtc_max_tags config <? len tags then None
        else metric_tags tags attributes
  end.
Definition metric_attributes (value : option Value) : option (list (str * str)) :=
  match value with
  | None => Some []
  | Some value =>
      attributes ← as_object value;
      if sat_u64 (mtc_max_tags config * 4) <? len attributes then None
      else metric_tags [] attributes
  end.

Definition normalize_metric_measurement (value : Value) : option MetricDelta :=
  object ← as_object value;
  timestamp ← map_get object (lit "timestamp");
  timestamp_seconds ← as_f64 timestamp;
  if negb (f64_is_finite timestamp_seconds) then None
  else
    let timestamp_millis := f64_round (f64_mul timestamp_seconds (f64_of_i64 1000)) in
    if f64_ltb timestamp_millis (f64_of_i64 I64_MIN) || f64_ltb (f64_of_i64 I64_MAX) timestamp_millis
    then None
    else
      let timestamp_millis := f64_to_i64 timestamp_millis in
      width_millis ← checked_i64 (mtc_bucket_width_seconds config * 1000);
      bucket_start ← metric_bucket_start timestamp_millis width_millis;
      name ← map_get object (lit "name");
      name ← as_str name;
      name ← bounded_metric_text name (mtc_max_name_bytes config) false;
      type ← map_get object (lit "type");
      type ← as_str type;
      kind ← metric_kind_parse type;
      unit ← bounded_metric_text (unwrap_or (lit "none") (map_get object (lit "unit") ≫= as_str))
               (mtc_max_unit_bytes config) true;
      value ← map_get object (lit "value");
      measurement ← as_f64 value;
      if negb (f64_is_finite measurement) then None
      else
        trace_id ← match map_get object (lit "trace_id") ≫= as_str with
                   | None => Some None
                   | Some value =>
                       if is_empty value then Some None else Some <$> ok (trace_id_parse value)
                   end;
        tags ← metric_attributes (map_get object (lit "attributes"));
        Some {| md_series := {| ms_project_id := ps_project_id snapshot; ms_name := name;
                                ms_kind := kind; ms_unit := unit; ms_tags := tags |};
                md_bucket_start := bucket_start;
                md_bucket_width_seconds := mtc_bucket_width_seconds config;
                md_received_at := received_at; md_trace_id := trace_id;
                md_aggregate := from_measurement kind measurement |}.

(** [MetricItemsVisitor::visit_seq]: one element. *)
Definition fold_measurement (batch : MetricDeltaBatch) (value : Value) : MetricDeltaBatch :=
  let batch := {| mb_deltas := mb_deltas batch;
                  mb_source_measurements := sat_u32 (mb_source_measurements batch + 1);
                  mb_discarded_measurements := mb_discarded_measurements batch |} in
  match normalize_metric_measurement value with
  | Some delta => metric_batch_push batch delta
  | None =>
      {| mb_deltas := mb_deltas batch; mb_source_measurements := mb_source_measurements batch;
         mb_discarded_measurements := sat_u32 (mb_discarded_measurements batch + 1) |}
  end.
(** [MetricContainerVisitor::visit_map]: [None] is an error of the decoder. *)
Fixpoint fold_entries (found_items : bool) (batch : MetricDeltaBatch)
    (entries : list (str * option Value)) : option MetricDeltaBatch :=
  match entries with
  | [] => if found_items then Some batch else None
  | (key, value) :: entries =>
      if bool_decide (key = lit "items") then
        if found_items then None
        else
          items ← value ≫= as_array;
          fold_entries true (foldl fold_measurement batch items) entries
      else fold_entries found_items batch entries
  end.

Definition metric_config_valid : bool :=
  negb ((mtc_bucket_width_seconds config =? 0) || (mtc_max_tags config =? 0)
        || (mtc_max_name_bytes config =? 0) || (mtc_max_unit_bytes config =? 0)
        || (mtc_max_tag_key_bytes config =? 0) || (mtc_max_tag_value_bytes config =? 0)).
Definition fold_metric_container (raw_json : bytes) : result IngestError MetricDeltaBatch :=
  if negb metric_config_valid then Err (ingest_invalid "invalid_metric_configuration")
  else
    ok_or (ingest_invalid "invalid_metric_container")
      (entries ← json_entries raw_json; fold_entries false metric_batch_default entries).
End metrics.

(** ** The deltas of a container *)

Section theory.
Context `{B : !Blake3} `{L : !Log2}.

(** The deltas of one key, merged in their order. *)
Definition merged_at (k : bytes * Z) (ds : list MetricDelta) : option MetricDelta :=
  match List.filter (λ d, bool_decide (delta_key d = k)) ds with
  | [] => None
  | d :: ds => Some (foldl delta_merge d ds)
  end.
Lemma fold_push_lookup ds : ∀ m k,
  foldl push_delta m ds !! k
  = match m !! k with
    | Some current => Some (foldl delta_merge current (List.filter (λ d, bool_decide (delta_key d = k)) ds))
    | None => merged_at k ds
    end.
Proof.
  unfold merged_at. induction ds as [|d ds IH]; intros m k; cbn [foldl List.filter].
  - by destruct (m !! k).
  - rewrite IH, push_delta_lookup. case_bool_decide as E; by destruct (m !! k).
Qed.

(** The measurements all deltas stand for. *)
Abbreviation delta_map := (gmap (bytes * Z) MetricDelta).
Definition total (m : delta_map) : Z :=
  sum_map (λ kd, aggregate_count (md_aggregate kd.2)) (map_to_list m).
Lemma sum_map_perm {A} (f : A → Z) l k : l ≡ₚ k → sum_map f l = sum_map f k.
Proof. induction 1 as [|x l k _ IH|x y l|l k j _ IH1 _ IH2]; rewrite ?sum_map_cons; lia. Qed.
Lemma total_fresh (m : delta_map) k d : m !! k = None → total (<[k := d]> m) = aggregate_count (md_aggregate d) + total m.
Proof. intros Hk. unfold total. rewrite (sum_map_perm _ _ _ (map_to_list_insert m k d Hk)). by rewrite sum_map_cons. Qed.
Lemma total_replace (m : delta_map) k c d : m !! k = Some c →
  total (<[k := d]> m) = total m - aggregate_count (md_aggregate c) + aggregate_count (md_aggregate d).
Proof.
  intros Hk. pose proof (total_fresh (delete k m) k) as Hf.
  pose proof (Hf d (lookup_delete_eq m k)) as Hd. pose proof (Hf c (lookup_delete_eq m k)) as Hc.
  rewrite insert_delete_eq in Hd. rewrite insert_delete_id in Hc by done. lia.
Qed.
(** Every delta lies under the identity of its series, which is that of one of
    [ds], and has its kind. *)
Definition kinded (ds : list MetricDelta) (m : delta_map) : Prop := ∀ k d, m !! k = Some d →
  delta_key d = k ∧ aggregate_kind (md_aggregate d) = ms_kind (md_series d)
  ∧ 0 ≤ aggregate_count (md_aggregate d) ∧ ∃ d0, d0 ∈ ds ∧ md_series d0 = md_series d.
(** What the identity of a series is the digest of. *)
Definition series_preimage (s : MetricSeries) : bytes :=
  series_input (ms_project_id s) (ms_name s) (metric_kind_as_str (ms_kind s)) (ms_unit s) (ms_tags s).
(** The digest, cut to sixteen bytes, separates the preimages of these deltas. *)
Definition collision_free (ds : list MetricDelta) : Prop := ∀ d e, d ∈ ds → e ∈ ds →
  metric_series_id (md_series d) = metric_series_id (md_series e) →
  series_preimage (md_series d) = series_preimage (md_series e).
(** Deltas of one identity have one kind. *)
Definition one_kind (ds : list MetricDelta) : Prop := ∀ d e, d ∈ ds → e ∈ ds →
  metric_series_id (md_series d) = metric_series_id (md_series e) → ms_kind (md_series d) = ms_kind (md_series e).
Lemma until_nul (a b r t : bytes) : 0 ∉ a → 0 ∉ b → a ++ 0 :: r = b ++ 0 :: t → a = b ∧ r = t.
Proof.
  revert b. induction a as [|x a IH]; intros [|y b] Ha Hb E; cbn in E.
  - by injection E as ->.
  - injection E as <- _. destruct Hb. left.
  - injection E as -> _. destruct Ha. left.
  - injection E as -> E. apply IH in E as [-> ->]; [done|set_solver..].
Qed.
(** The names and kinds of a project hold no NUL, so that the parts of a preimage,
    which are not framed by their lengths, can be told apart up to the kind. *)
Lemma preimage_kind s t : ms_project_id s = ms_project_id t → 0 ∉ ms_name s → 0 ∉ ms_name t →
  series_preimage s = series_preimage t → ms_kind s = ms_kind t.
Proof.
  intros Hp Hs Ht E. unfold series_preimage, series_input in E. rewrite Hp in E.
  apply app_inv_head in E. apply app_inv_head in E. cbn [app] in E.
  apply until_nul in E as [_ E]; [|done..].
  apply until_nul in E as [E _]; [by destruct (ms_kind s), (ms_kind t)|..].
  - destruct (ms_kind s); vm_compute; set_solver.
  - destruct (ms_kind t); vm_compute; set_solver.
Qed.
Definition measured (d : MetricDelta) : Prop :=
  aggregate_kind (md_aggregate d) = ms_kind (md_series d) ∧ aggregate_count (md_aggregate d) = 1.

Lemma delta_merge_kind a b : aggregate_kind (md_aggregate (delta_merge a b)) = aggregate_kind (md_aggregate a)
  ∧ md_series (delta_merge a b) = md_series a.
Proof. unfold delta_merge. destruct (md_aggregate a) eqn:E, (md_aggregate b); cbn; by rewrite ?E. Qed.
Lemma delta_merge_count a b : aggregate_kind (md_aggregate a) = aggregate_kind (md_aggregate b) →
  aggregate_count (md_aggregate (delta_merge a b))
  = sat_u64 (aggregate_count (md_aggregate a) + aggregate_count (md_aggregate b)).
Proof. unfold delta_merge. by destruct (md_aggregate a), (md_aggregate b). Qed.
Lemma delta_merge_nonneg a b : 0 ≤ aggregate_count (md_aggregate a) →
  0 ≤ aggregate_count (md_aggregate (delta_merge a b)).
Proof.
  unfold delta_merge. intros Ha. destruct (md_aggregate a) eqn:E, (md_aggregate b); cbn in *;
    rewrite ?E; try done; unfold sat_u64, saturate, U64_MAX; lia.
Qed.
Lemma sum_counts_nonneg {A} (f : A → Z) l : (∀ x, x ∈ l → 0 ≤ f x) → 0 ≤ sum_map f l.
Proof.
  induction l as [|x l IH]; intros Hf; [done|]. rewrite sum_map_cons.
  pose proof (Hf x ltac:(left)). specialize (IH ltac:(intros; apply Hf; by right)). lia.
Qed.
Lemma total_bound (ds : list MetricDelta) (m : delta_map) k c : kinded ds m → m !! k = Some c → aggregate_count (md_aggregate c) ≤ total m.
Proof.
  intros Hm Hk. apply elem_of_map_to_list in Hk. unfold total.
  assert (∀ kd, kd ∈ map_to_list m → 0 ≤ aggregate_count (md_aggregate kd.2)) as Hp.
  { intros [k' d] Hin%elem_of_map_to_list. by apply (Hm k' d). }
  induction (map_to_list m) as [|kd l IH]; [by apply elem_of_nil in Hk|]. rewrite sum_map_cons.
  assert (0 ≤ aggregate_count (md_aggregate kd.2)) by (apply Hp; left).
  apply elem_of_cons in Hk as [<-|Hk].
  - pose proof (sum_counts_nonneg (λ kd, aggregate_count (md_aggregate kd.2)) l) as Hs.
    specialize (Hs ltac:(intros; apply Hp; by right)). cbn in *. lia.
  - specialize (IH Hk ltac:(intros; apply Hp; by right)). lia.
Qed.
Lemma push_total ds m d : one_kind ds → d ∈ ds → kinded ds m → measured d → total m < U64_MAX →
  kinded ds (push_delta m d) ∧ total (push_delta m d) = total m + 1.
Proof.
  intros Hc Hd Hm [Hk H1] Ht. unfold push_delta. destruct (m !! delta_key d) as [c|] eqn:E.
  - destruct (Hm _ _ E) as (Hkey & Hkind & Hn & d0 & Hd0 & Hs0). destruct (delta_merge_kind c d) as [Hk' Hs'].
    assert (aggregate_kind (md_aggregate c) = aggregate_kind (md_aggregate d)) as Heq.
    { rewrite Hk, Hkind, <- Hs0. apply Hc; [done..|]. unfold delta_key in Hkey. rewrite Hs0. congruence. }
    split.
    + intros k x. rewrite lookup_insert_Some. intros [[<- <-]|[_ Hx]]; [|by apply Hm].
      rewrite delta_merge_key, Hk', Hs'. split_and!; [done..|by apply delta_merge_nonneg|by exists d0].
    + rewrite (total_replace _ _ _ _ E), delta_merge_count by done.
      pose proof (total_bound _ _ _ _ Hm E). unfold sat_u64, saturate, U64_MAX in *. lia.
  - split.
    + intros k x. rewrite lookup_insert_Some. intros [[<- <-]|[_ Hx]]; [|by apply Hm].
      split_and!; [done..|lia|by exists d].
    + rewrite total_fresh by done. lia.
Qed.
Lemma push_all_total ds0 ds : ∀ m, one_kind ds0 → ds ⊆ ds0 → kinded ds0 m → Forall measured ds →
  total m + len ds ≤ U64_MAX →
  kinded ds0 (foldl push_delta m ds) ∧ total (foldl push_delta m ds) = total m + len ds.
Proof.
  induction ds as [|d ds IH]; intros m Hc Hsub Hm Hd Ht; cbn [foldl].
  - split; [done|]. unfold len. cbn. lia.
  - inversion_clear Hd. rewrite len_cons in *. pose proof (len_nonneg ds).
    destruct (push_total ds0 m d) as [Hk Hp]; [done|apply Hsub; left|done..|lia|].
    destruct (IH (push_delta m d)) as [IH1 IH2]; [done|set_solver|done..|lia|]. split; [done|lia].
Qed.
End theory.

Lemma len_omap {A C} (f : A → option C) l : 0 ≤ len (omap f l) ≤ len l.
Proof.
  split; [apply len_nonneg|]. induction l as [|x l IH]; [done|]. cbn [omap list_omap].
  destruct (f x); rewrite !len_cons; change (list_omap _ _ f l) with (omap f l); lia.
Qed.
Lemma size_push_delta `{!Blake3} m d : (size (push_delta m d) ≤ S (size m))%nat.
Proof.
  unfold push_delta. destruct (m !! delta_key d) as [c|] eqn:E.
  - rewrite map_size_insert_Some by by eexists. lia.
  - by rewrite map_size_insert_None.
Qed.
Lemma size_push_all `{!Blake3} ds : ∀ m, (size (foldl push_delta m ds) ≤ size m + length ds)%nat.
Proof.
  induction ds as [|d ds IH]; intros m; cbn [foldl length]; [lia|].
  specialize (IH (push_delta m d)). pose proof (size_push_delta m d). lia.
Qed.

Section folding.
Context {N : Type} `{!JsonApi N, !JsonStream N} `{B : !Blake3, L : !Log2}.
Context (snapshot : ProjectSnapshot) (received_at : Timestamp) (config : MetricIngestConfig).
Abbreviation Value := (JValue N).

Lemma bounded_metric_text_Some value maximum allow_empty text :
  bounded_metric_text value maximum allow_empty = Some text →
  len text ≤ maximum ∧ any_control text = false ∧ (allow_empty = false → text ≠ []) ∧ 0 ∉ text.
Proof.
  unfold bounded_metric_text. intros E. destruct (_ || _) eqn:Eb in E; [done|]. injection E as <-.
  apply orb_false_iff in Eb as [[[H1 H2]%orb_false_iff H3]%orb_false_iff H4]. apply Z.ltb_ge in H2.
  split_and!; [done..| |].
  - intros ->. cbn in H1. unfold is_empty in H1. by apply non_empty_true, negb_false_iff.
  - intros (l & r & Hlr)%list_elem_of_split. assert (str_contains [0] (trim value) = true); [|congruence].
    apply str_contains_true. by exists l, r.
Qed.
Lemma btree_insert_len {A} (m : list (str * A)) key value : 0 < len (btree_insert m key value).1.
Proof.
  destruct m as [|[k v] m]; cbn; [done|]. case_bool_decide; [cbn; rewrite len_cons; pose proof (len_nonneg m); lia|].
  destruct (str_ltb key k); [cbn; rewrite !len_cons; pose proof (len_nonneg m); lia|].
  destruct (btree_insert m key value) as [m' known]. cbn. rewrite len_cons. pose proof (len_nonneg m'). lia.
Qed.
Lemma metric_tags_Some attributes : ∀ tags tags', key_sorted tags → len tags ≤ mtc_max_tags config →
  metric_tags (N := N) config tags attributes = Some tags' → key_sorted tags' ∧ len tags' ≤ mtc_max_tags config.
Proof.
  induction attributes as [|[key typed] attributes IH]; intros tags tags' Hs Hl E; cbn [metric_tags] in E.
  - by injection E as <-.
  - destruct (internal_attribute key); [by eapply IH|].
    destruct (bounded_metric_text key _ false) as [k|]; [|done]. cbn [mbind option_bind] in E.
    destruct (as_object typed) as [object|]; [|done]. cbn [mbind option_bind] in E.
    destruct (map_get object (lit "value")) as [raw|]; [|done]. cbn [mbind option_bind] in E.
    destruct (tag_value config raw) as [tag|]; [|done]. cbn [mbind option_bind] in E.
    pose proof (btree_insert_sorted tags (tag_key k) tag Hs) as Hs'.
    destruct (btree_insert tags (tag_key k) tag) as [tags1 []]; [done|].
    destruct (Z.ltb_spec (mtc_max_tags config) (len tags1)); [done|]. by eapply IH.
Qed.

(** What a delta of the container is. *)
Record delta_ok (d : MetricDelta) : Prop := {
  do_project : ms_project_id (md_series d) = ps_project_id snapshot;
  do_name : ms_name (md_series d) ≠ [] ∧ len (ms_name (md_series d)) ≤ mtc_max_name_bytes config
    ∧ 0 ∉ ms_name (md_series d);
  do_unit : len (ms_unit (md_series d)) ≤ mtc_max_unit_bytes config;
  do_tags : key_sorted (ms_tags (md_series d)) ∧ len (ms_tags (md_series d)) ≤ mtc_max_tags config;
  do_bucket : md_bucket_start d mod (mtc_bucket_width_seconds config * 1000) = 0
    ∧ timestamp_valid (md_bucket_start d);
  do_measured : measured d;
  do_aggregate : aggregate_ok (md_aggregate d);
}.

Lemma one_kind_of_collision_free ds : Forall delta_ok ds → collision_free ds → one_kind ds.
Proof.
  rewrite Forall_forall. intros Hok Hc d e Hd He E. destruct (Hok d Hd), (Hok e He).
  apply preimage_kind; [congruence|tauto|tauto|by apply Hc].
Qed.
(** Wrapping leaves the range of times, so that a time that is accepted did not
    wrap. *)
Lemma wrap_i64_exact q : I64_MIN ≤ q ≤ I64_MAX → wrap_i64 q = q.
Proof.
  unfold wrap_i64, I64_MIN, I64_MAX. intros Hq. change (2 ^ 64) with 18446744073709551616.
  rewrite Z.mod_small by lia. lia.
Qed.
Lemma wrap_i64_below q : I64_MIN - 2 ^ 63 ≤ q < I64_MIN → MAX_TIMESTAMP_MILLIS - 2 ^ 64 < q →
  ¬ timestamp_valid (wrap_i64 q).
Proof.
  unfold wrap_i64, I64_MIN, timestamp_valid, MAX_TIMESTAMP_MILLIS.
  change (2 ^ 64) with 18446744073709551616. change (2 ^ 63) with 9223372036854775808. intros Hq Hm.
  replace (q - -9223372036854775808)
    with (q + 9223372036854775808 + 18446744073709551616 + -1 * 18446744073709551616) by lia.
  rewrite Z.mod_add, Z.mod_small by lia. lia.
Qed.
Lemma metric_bucket_start_Some t width start : 0 < width ≤ U32_MAX * 1000 → I64_MIN ≤ t ≤ I64_MAX →
  metric_bucket_start t width = Some start → start = t / width * width ∧ timestamp_valid start.
Proof.
  intros Hw Ht. unfold metric_bucket_start. destruct (from_unix_millis _) as [s|] eqn:E; [|done].
  cbn. intros [= <-]. apply from_unix_millis_Ok in E as [-> Hv].
  assert (t - width < t / width * width ≤ t) as Hq.
  { pose proof (Z.div_mod t width ltac:(lia)). pose proof (Z.mod_pos_bound t width ltac:(lia)). lia. }
  revert Hv Hq. generalize (t / width * width) as q. intros q Hv Hq.
  destruct (Z.ltb_spec q I64_MIN) as [Hlt|Hge].
  - destruct (wrap_i64_below q); [| |done]; unfold I64_MIN, MAX_TIMESTAMP_MILLIS, U32_MAX in *; lia.
  - assert (wrap_i64 q = q) as -> by (apply wrap_i64_exact; lia). rewrite wrap_i64_exact in Hv by lia. done.
Qed.
Lemma f64_to_i64_range x : I64_MIN ≤ f64_to_i64 x ≤ I64_MAX.
Proof.
  destruct x as [s|s| |s m e]; cbn [f64_to_i64]; [done|by destruct s|done|].
  apply saturate_bounds. unfold I64_MIN, I64_MAX. lia.
Qed.
Lemma normalize_metric_measurement_ok (value : Value) d :
  0 < mtc_bucket_width_seconds config ≤ U32_MAX → 0 ≤ mtc_max_tags config →
  normalize_metric_measurement snapshot received_at config value = Some d → delta_ok d.
Proof.
  intros Hw Hmax E. unfold normalize_metric_measurement in E.
  destruct (as_object value) as [object|]; [|done]. cbn [mbind option_bind] in E.
  destruct (map_get object (lit "timestamp")) as [timestamp|]; [|done]. cbn [mbind option_bind] in E.
  destruct (as_f64 timestamp) as [seconds|]; [|done]. cbn [mbind option_bind] in E.
  destruct (negb (f64_is_finite seconds)); [done|]. cbv zeta in E.
  destruct (_ || _) in E; [done|]. set (millis := f64_to_i64 _) in E.
  pose proof (f64_to_i64_range (f64_round (f64_mul seconds (f64_of_i64 1000)))) as Hr. fold millis in Hr.
  clearbody millis. unfold checked_i64 in E.
  rewrite checked_exact in E by (unfold I64_MIN, I64_MAX, U32_MAX in *; lia). cbn [mbind option_bind] in E.
  destruct (metric_bucket_start _ _) as [start|] eqn:Estart; [|done]. cbn [mbind option_bind] in E.
  apply metric_bucket_start_Some in Estart as [Hstart Hv]; [|lia|done].
  destruct (map_get object (lit "name")) as [name|]; [|done]. cbn [mbind option_bind] in E.
  destruct (as_str name) as [name'|]; [|done]. cbn [mbind option_bind] in E.
  destruct (bounded_metric_text name' _ false) as [n|] eqn:En; [|done]. cbn [mbind option_bind] in E.
  destruct (map_get object (lit "type")) as [type|]; [|done]. cbn [mbind option_bind] in E.
  destruct (as_str type) as [type'|]; [|done]. cbn [mbind option_bind] in E.
  destruct (metric_kind_parse type') as [kind|]; [|done]. cbn [mbind option_bind] in E.
  destruct (bounded_metric_text _ _ true) as [u|] eqn:Eu; [|done]. cbn [mbind option_bind] in E.
  destruct (map_get object (lit "value")) as [v|]; [|done]. cbn [mbind option_bind] in E.
  destruct (as_f64 v) as [measurement|]; [|done]. cbn [mbind option_bind] in E.
  destruct (negb (f64_is_finite measurement)); [done|].
  set (trace := match _ with None => Some None | Some _ => _ end) in E. destruct trace as [trace_id|]; [|done].
  cbn [mbind option_bind] in E.
  destruct (metric_attributes config _) as [tags|] eqn:Et; [|done]. cbn [mbind option_bind] in E.
  injection E as <-. apply bounded_metric_text_Some in En as (Hn & _ & Hne & Hnul), Eu as (Hu & _ & _ & _).
  assert (key_sorted tags ∧ len tags ≤ mtc_max_tags config) as Htags.
  { unfold metric_attributes in Et. destruct (map_get object (lit "attributes")) as [a|]; cbn in Et.
    - destruct (as_object a) as [attributes|]; [|done]. cbn in Et. destruct (_ <? _) in Et; [done|].
      eapply metric_tags_Some; [..|exact Et]; [constructor|unfold len; cbn; lia].
    - injection Et as <-. split; [constructor|unfold len; cbn; lia]. }
  split; cbn; try done.
  - split_and!; [by apply Hne|done|done].
  - split; [|done]. rewrite Hstart. apply Z.mod_mul. lia.
  - split; [by destruct kind|by destruct kind].
  - apply from_measurement_ok.
Qed.

Abbreviation normalized := (normalize_metric_measurement (N := N) snapshot received_at config).
Abbreviation fold_one := (fold_measurement snapshot received_at config).
Lemma fold_measurements items : ∀ batch,
  0 ≤ mb_source_measurements batch ≤ U32_MAX → 0 ≤ mb_discarded_measurements batch ≤ U32_MAX →
  let folded := foldl fold_one batch items in
  mb_deltas folded = foldl push_delta (mb_deltas batch) (omap normalized items)
  ∧ mb_source_measurements folded = sat_u32 (mb_source_measurements batch + len items)
  ∧ mb_discarded_measurements folded
    = sat_u32 (mb_discarded_measurements batch + (len items - len (omap normalized items))).
Proof.
  induction items as [|value items IH]; intros batch Hs Hd folded; subst folded.
  - cbn. unfold sat_u32, saturate, len. cbn. split_and!; [done|lia..].
  - cbn [foldl]. destruct (IH (fold_one batch value)) as (I1 & I2 & I3).
    + unfold fold_measurement. destruct (normalized value); cbn; unfold sat_u32, saturate, U32_MAX; lia.
    + unfold fold_measurement. destruct (normalized value); cbn; unfold sat_u32, saturate, U32_MAX in *; lia.
    + rewrite I1, I2, I3. unfold fold_measurement. cbn [omap list_omap]. rewrite len_cons.
      destruct (normalized value) as [d|]; cbn [mb_deltas metric_batch_push mb_source_measurements
        mb_discarded_measurements foldl]; rewrite ?len_cons;
        pose proof (len_nonneg items); pose proof (len_omap normalized items);
        split_and!; try done; unfold sat_u32, saturate, U32_MAX in *; lia.
Qed.
Lemma fold_entries_Some found entries : ∀ batch b,
  fold_entries snapshot received_at config found batch entries = Some b →
  if found : bool then b = batch ∧ ∀ v, (lit "items", v) ∉ entries
  else ∃ pre items post, entries = pre ++ (lit "items", Some (JArray items)) :: post
    ∧ (∀ v, (lit "items", v) ∉ pre ++ post) ∧ b = foldl fold_one batch items.
Proof.
  revert found. induction entries as [|[key value] entries IH]; intros found batch b E; cbn [fold_entries] in E.
  - destruct found; [|done]. injection E as ->. split; [done|]. intros v. by apply not_elem_of_nil.
  - case_bool_decide as Ek.
    + subst key. destruct found; [done|]. destruct value as [value|]; [|done]. cbn [mbind option_bind] in E.
      destruct value as [| | | |items|]; try done. cbn [as_array mbind option_bind] in E.
      apply IH in E as [-> Hno]. by exists [], items, entries.
    + apply IH in E. destruct found.
      * destruct E as [-> Hno]. split; [done|]. intros v. rewrite elem_of_cons. intros [[= He _]|Hv]; [done|by apply (Hno v)].
      * destruct E as (pre & items & post & -> & Hno & ->). exists ((key, value) :: pre), items, post.
        split_and!; [done| |done]. intros v. cbn [app]. rewrite elem_of_cons. intros [[= He _]|Hv]; [done|by apply (Hno v)].
Qed.
End folding.

(** C30. A container of measurements is folded into what grouping them would
    give.  It has one list [items]; every delta of the batch is the merge, in
    their order, of the valid measurements of one series and bucket, so there are
    at most as many deltas as measurements; each names the project of the key,
    is bounded in name, unit and tags and starts on a multiple of the bucket
    width; invalid measurements are counted and hide no valid one; and where the
    digest of sixteen bytes separates the series of the container, the
    measurements the deltas stand for and the discarded ones add up to the length
    of the list: no merge is refused for a difference of kind. *)
Theorem metric_container_folded {N} `{!JsonApi N, !JsonStream N, !Blake3, !Log2}
    snapshot received_at config raw_json batch :
  0 ≤ mtc_bucket_width_seconds config ≤ U32_MAX → 0 ≤ mtc_max_tags config →
  fold_metric_container (N := N) snapshot received_at config raw_json = Ok batch →
  ∃ pre items post,
    json_entries raw_json = Some (pre ++ (lit "items", Some (JArray items)) :: post)
    ∧ let deltas := omap (normalize_metric_measurement snapshot received_at config) items in
      (∀ k, mb_deltas batch !! k = merged_at k deltas)
      ∧ Forall (delta_ok snapshot config) deltas
      ∧ metric_batch_len batch ≤ len deltas
      ∧ mb_source_measurements batch = sat_u32 (len items)
      ∧ mb_discarded_measurements batch = sat_u32 (len items - len deltas)
      ∧ (collision_free deltas → len items ≤ U32_MAX →
         total (mb_deltas batch) + mb_discarded_measurements batch = mb_source_measurements batch).
Proof.
  intros Hw Hmax E. unfold fold_metric_container in E.
  destruct (metric_config_valid config) eqn:Hv; [|done]. cbn [negb] in E. apply ok_or_Ok in E.
  destruct (json_entries raw_json) as [entries|] eqn:Ee; [|done]. cbn [mbind option_bind] in E.
  apply fold_entries_Some in E as (pre & items & post & -> & _ & ->).
  destruct (fold_measurements snapshot received_at config items metric_batch_default) as (Hd & Hs & Hdisc);
    [done..|]. exists pre, items, post. split; [done|]. cbv zeta.
  set (deltas := omap _ items) in *. rewrite Hd, Hs, Hdisc. cbn [mb_deltas metric_batch_default
    mb_source_measurements mb_discarded_measurements]. rewrite !Z.add_0_l.
  assert (Forall (delta_ok snapshot config) deltas) as Hok.
  { apply Forall_forall. intros d (value & _ & E)%list_elem_of_omap.
    eapply normalize_metric_measurement_ok; [|done|exact E].
    unfold metric_config_valid in Hv. apply negb_true_iff in Hv. bool_prop. lia. }
  split_and!; [|done| |done|done|].
  - intros k. by rewrite fold_push_lookup, lookup_empty.
  - unfold metric_batch_len, len. rewrite Hd. pose proof (size_push_all deltas ∅) as Hsz.
    rewrite map_size_empty in Hsz. cbn [mb_deltas metric_batch_default]. lia.
  - intros Hc%(one_kind_of_collision_free _ _ _ Hok) Hlen.
    assert (len deltas ≤ len items) as Hom by apply (len_omap (normalize_metric_measurement snapshot received_at config)).
    clearbody deltas. pose proof (len_nonneg deltas) as Hpos.
    destruct (push_all_total deltas deltas ∅) as [_ Ht]; [done|done|by intros k d|..].
    + eapply Forall_impl; [exact Hok|]. by intros d [].
    + change (total ∅) with 0. unfold U64_MAX, U32_MAX in *. lia.
    + rewrite Ht. change (total ∅) with 0. unfold sat_u32, saturate, U32_MAX in *. lia.
Qed.

(** *** A container: one measurement that counts and one that is no number *)

Definition sample_measurement : JValue Z := JObject
  [(lit "attributes", JObject [(lit "authorization", JObject [(lit "value", JString (lit "Bearer abc"))]);
                               (lit "user.id", JString (lit "kept out"))]);
   (lit "name", JString (lit "requests")); (lit "timestamp", JNumber 1700000000);
   (lit "type", JString (lit "counter")); (lit "value", JNumber 3)].
Definition sample_numbers : JsonApi Z := {|
  json_from_slice _ := None; number_to_string := to_dec;
  number_as_f64 z := Some (f64_of_i64 z); number_as_u64 := Some |}.
Definition sample_gauge : JValue Z := JObject
  [(lit "name", JString (lit "requests")); (lit "timestamp", JNumber 1700000000);
   (lit "type", JString (lit "gauge")); (lit "value", JNumber 5)].
Definition sample_stream : JsonStream Z := {|
  json_entries _ := Some [(lit "version", Some (JNumber 2)); (lit "items", Some (JArray [sample_measurement; sample_gauge; JNull]))];
  json_array_len _ := None |}.
Definition last_32 : Blake3 := λ input, take 32 (reverse input ++ replicate 32 0).
Definition no_log2 : Log2 := λ x, x.
Definition metrics_snapshot : ProjectSnapshot := {|
  ps_project_id := 7; ps_organization_id := 1; ps_state := PActive; ps_key_state := KActive;
  ps_scrub_policy := sample_policy;
  ps_items := {| ic_error := true; ic_client_report := true; ic_log := true; ic_transaction := true;
    ic_span := true; ic_feedback := true; ic_check_in := true; ic_metric := true; ic_replay := true |};
  ps_limits := ingest_limits_default; ps_inbound_filters := policy_default; ps_grouping_revision := 1 |}.
#[local] Existing Instances sample_numbers sample_stream last_32 no_log2.
Definition sample_deltas : list MetricDelta :=
  Eval vm_compute in omap (normalize_metric_measurement metrics_snapshot 1700000001000 metric_ingest_default)
    [sample_measurement; sample_gauge; JNull].
Definition sample_batch : MetricDeltaBatch :=
  {| mb_deltas := foldl push_delta ∅ sample_deltas; mb_source_measurements := 3; mb_discarded_measurements := 1 |}.
Lemma sample_collision_free : collision_free sample_deltas.
Proof.
  assert (forallb (λ d, forallb (λ e,
    negb (bool_decide (metric_series_id (md_series d) = metric_series_id (md_series e)))
    || bool_decide (series_preimage (md_series d) = series_preimage (md_series e))) sample_deltas) sample_deltas = true)
    as H by (vm_compute; reflexivity).
  intros d e Hd%list_elem_of_In He%list_elem_of_In E. rewrite forallb_forall in H. specialize (H d Hd).
  rewrite forallb_forall in H. specialize (H e He). apply orb_true_iff in H as [H%negb_true_iff|H].
  - by apply bool_decide_eq_false in H.
  - by apply bool_decide_eq_true in H.
Qed.
Lemma second_array {M} (k k' key : str) (n : M) l pre items post :
  [(k, Some (JNumber n)); (k', Some (JArray l))] = pre ++ (key, Some (JArray items)) :: post → items = l.
Proof.
  destruct pre as [|x [|y pre]]; intros E; [discriminate E|by injection E|].
  injection E as _ _ E. by destruct pre.
Qed.
Lemma metric_container_folded_witness :
  fold_metric_container metrics_snapshot 1700000001000 metric_ingest_default [] = Ok sample_batch
  ∧ metric_batch_len sample_batch = 2
  ∧ total (mb_deltas sample_batch) + mb_discarded_measurements sample_batch = mb_source_measurements sample_batch.
Proof.
  assert (fold_metric_container metrics_snapshot 1700000001000 metric_ingest_default [] = Ok sample_batch)
    as E by (vm_compute; reflexivity).
  split; [exact E|]. split; [vm_compute; reflexivity|].
  destruct (metric_container_folded metrics_snapshot 1700000001000 metric_ingest_default [] sample_batch)
    as (pre & items & post & He & _ & _ & _ & _ & _ & Ht); [split; discriminate|discriminate|exact E|].
  assert (items = [sample_measurement; sample_gauge; JNull]) as ->.
  { change (Some [(lit "version", Some (JNumber 2)); (lit "items", Some (JArray [sample_measurement; sample_gauge; JNull]))]
      = Some (pre ++ (lit "items", Some (JArray items)) :: post)) in He.
    apply (f_equal (unwrap_or [])) in He. by apply second_array in He. }
  apply Ht; [|discriminate]. exact sample_collision_free.
Defined.

(** A tag keeps its text whatever its name: measurements are not scrubbed, while the
    event scrubber replaces the same field. *)
Example metric_tags_not_scrubbed :
  (λ d, ms_tags (md_series d)) <$> normalize_metric_measurement metrics_snapshot 1700000001000
     metric_ingest_default sample_measurement = Some [(lit "authorization", lit "Bearer abc")]
  ∧ is_sensitive_field (lit "authorization") = true.
Proof. split; vm_compute; reflexivity. Qed.

(** The first bucket does not fit: [div_euclid(width) * width] leaves [i64] for the
    earliest timestamps. *)
Example metric_bucket_start_overflows :
  I64_MIN / 60000 * 60000 < I64_MIN
  ∧ metric_bucket_start I64_MIN 60000 = ok (from_unix_millis (I64_MIN / 60000 * 60000 + 2 ^ 64)).
Proof. split; vm_compute; reflexivity. Qed.
