(* ===== verification/IngestReplays.v ===== *)
(** * Session replays of a request

    [domain/src/replays.rs] and the replay part of [application/src/ingest.rs]: a
    replay event and its recording become a submission.  The recording is a
    header line followed by the rrweb events, plain or compressed; [flate2] and
    the streaming decoder are interfaces. *)
From stdpp Require Import base list numbers strings.
From Stdlib Require Import ZArith Lia SpecFloat.
From S2P Require Import Prelude External Float Primitives Identity InboundFilter Event Normalizer JsonValue Signals IpAddr Scrub IngestChecks Blobs.

(** ** Values *)

Definition MAX_REPLAY_SEGMENTS : Z := 100.
Definition MAX_REPLAY_CORRELATIONS : Z := 100.
Definition MAX_REPLAY_TEXT_BYTES : Z := 256.
Definition MAX_REPLAY_DURATION_MILLIS : Z := 24 * 60 * 60 * 1000.
Inductive ReplayValueError := RvInvalid.

Record ReplayMetadata := {
  rm_project_id : Z;
  rm_replay_id : bytes;
  rm_segment_id : Z;
  rm_started_at : Timestamp;
  rm_ended_at : Timestamp;
  rm_received_at : Timestamp;
  rm_environment : option str;
  rm_release : option str;
  rm_url : option str;
  rm_error_ids : list bytes;
  rm_trace_ids : list bytes;
}.
Definition replay_optional_valid (value : option str) : result ReplayValueError unit :=
  guard_err (is_some_and (λ value, is_empty value || (MAX_REPLAY_TEXT_BYTES <? len value)
                                   || any_control value) value) RvInvalid.
Definition metadata_validate (m : ReplayMetadata) : result ReplayValueError unit :=
  duration ← ok_or RvInvalid (checked_i64 (rm_ended_at m - rm_started_at m));
  if (MAX_REPLAY_SEGMENTS <=? rm_segment_id m)
     || negb (in_range 0 MAX_REPLAY_DURATION_MILLIS duration)
     || (MAX_REPLAY_CORRELATIONS <? len (rm_error_ids m))
     || (MAX_REPLAY_CORRELATIONS <? len (rm_trace_ids m))
  then Err RvInvalid
  else
    _ ← replay_optional_valid (rm_environment m);
    _ ← replay_optional_valid (rm_release m);
    replay_optional_valid (rm_url m).
Record ReplaySubmission := {
  rs_metadata : ReplayMetadata;
  rs_recording : bytes;
  rs_decompressed_bytes : Z;
  rs_event_count : Z;
}.
Record ReplaySegment := {
  rg_segment_id : Z;
  rg_object : BlobObject;
  rg_decompressed_bytes : Z;
  rg_event_count : Z;
}.
Record ReplaySegmentCommit := { rc_metadata : ReplayMetadata; rc_segment : ReplaySegment }.
Record ReplayRecord := {
  rr_project_id : Z;
  rr_replay_id : bytes;
  rr_started_at : Timestamp;
  rr_ended_at : Timestamp;
  rr_received_at : Timestamp;
  rr_environment : option str;
  rr_release : option str;
  rr_url : option str;
  rr_error_ids : list bytes;
  rr_trace_ids : list bytes;
  rr_segments : list ReplaySegment;
  rr_expires_at : option Timestamp;
}.

(** ** Normalization *)

Record ReplayIngestConfig := {
  ric_max_decompressed_segment_bytes : Z;
  ric_max_events_per_segment : Z;
}.
Definition replay_ingest_default : ReplayIngestConfig :=
  {| ric_max_decompressed_segment_bytes := 20 * 1024 * 1024; ric_max_events_per_segment := 100000 |}.
Record PendingReplay := { pr_event_json : bytes; pr_recording : bytes }.

Section replays.
Context {N : Type} `{!JsonApi N, !JsonStream N}.
Context {Url : Type} `{!UrlApi Url, !HmacApi, !ZlibApi}.
Abbreviation Value := (JValue N).

Definition parse_replay_timestamp (value : Value) : result IngestError Timestamp :=
  let invalid := ingest_invalid "invalid_replay_timestamp" in
  seconds ← ok_or invalid (as_f64 value);
  if negb (f64_is_finite seconds) then Err invalid
  else if f64_ltb seconds (millis_limit I64_MIN) || f64_ltb (millis_limit I64_MAX) seconds
  then Err invalid
  else map_err (λ _, invalid) (from_unix_millis (f64_round_i64 (f64_mul seconds (f64_of_i64 1000)))).
Definition bounded_replay_text (value : option Value) : result IngestError (option str) :=
  match value with
  | None | Some JNull => Ok None
  | Some value =>
      match as_str value with
      | Some value =>
          if non_empty value && (len value <=? MAX_REPLAY_TEXT_BYTES) && negb (any_control value)
          then Ok (Some value) else Err (ingest_invalid "invalid_replay_text")
      | None => Err (ingest_invalid "invalid_replay_text")
      end
  end.
Definition replay_url (value : option Value) : result IngestError (option str) :=
  let invalid := ingest_invalid "invalid_replay_url" in
  match ((value ≫= as_array) ≫= last) ≫= as_str with
  | None => Ok None
  | Some raw =>
      url ← ok_or invalid (url_parse raw);
      if negb (one_of ["http"; "https"]%string (url_scheme url)) || is_none (url_host_str url)
      then Err invalid
      else
        let url := url_remove_fragment (url_remove_query url) in
        url ← ok_or invalid (url_clear_password url);
        url ← ok_or invalid (url_set_username url []);
        if MAX_REPLAY_TEXT_BYTES <? len (url_to_string url) then Err invalid
        else Ok (Some (url_to_string url))
  end.
Definition replay_id_strings (value : option Value) (parse : str → option bytes) (code : string)
    : result IngestError (list bytes) :=
  match value with
  | None => Ok []
  | Some value =>
      values ← ok_or (ingest_invalid code) (as_array value);
      if MAX_REPLAY_CORRELATIONS <? len values then Err (ingest_invalid code)
      else ok_or (ingest_invalid code) (mapM (λ value, text ← as_str value; parse text) values)
  end.
Definition replay_event_ids (value : option Value) : result IngestError (list bytes) :=
  replay_id_strings value (λ text, ok (event_id_parse text)) "invalid_replay_error_id".
Definition replay_trace_ids (value : option Value) : result IngestError (list bytes) :=
  replay_id_strings value (λ text, ok (trace_id_parse text)) "invalid_replay_trace_id".

Definition count_replay_events (bytes : bytes) (maximum : Z) : result IngestError Z :=
  let invalid := ingest_invalid "invalid_replay_events" in
  elements ← ok_or invalid (json_array_len bytes);
  let count := sat_u32 elements in
  if maximum <? count then Err invalid else Ok count.
(** The events of a payload, decompressed where they are no plain array. *)
Definition replay_events (payload : bytes) (maximum : Z) : result IngestError bytes :=
  first ← ok_or (ingest_invalid "empty_replay_recording")
            (List.find (λ byte, negb (is_ascii_whitespace byte)) payload);
  events ← (if first =? 91 then Ok payload
            else ok_or (ingest_invalid "invalid_replay_compression")
                   (zlib_read payload (sat_u64 (maximum + 1))));
  if maximum <? len events then Err (ingest_invalid "replay_decompressed_too_large") else Ok events.
Definition validate_replay_recording (recording : bytes) (config : ReplayIngestConfig)
    : result IngestError (Z * Z * Z) :=
  let invalid := ingest_invalid "invalid_replay_recording_header" in
  newline ← ok_or invalid (fst <$> list_find (λ byte, byte = 10) (take 257 recording));
  if (newline =? 0)%nat || (256 <? newline)%nat then Err invalid
  else
    header ← ok_or invalid (json_from_slice (take newline recording));
    segment_id ← ok_or invalid (get header "segment_id" ≫= as_u32);
    let payload := drop (S newline) recording in
    if is_empty payload then Err (ingest_invalid "empty_replay_recording")
    else
      events ← replay_events payload (ric_max_decompressed_segment_bytes config);
      event_count ← count_replay_events events (ric_max_events_per_segment config);
      Ok (segment_id, len events, event_count).

Definition replay_sdk_supported (sdk : list (str * Value)) : bool :=
  bool_decide ((map_get sdk (lit "version") ≫= as_str) = Some (lit "10.66.0"))
  && is_some_and (starts_with (lit "sentry.javascript.")) (map_get sdk (lit "name") ≫= as_str).
Definition normalize_replay (snapshot : ProjectSnapshot) (received_at : Timestamp)
    (replay : PendingReplay) (config : ReplayIngestConfig) : result IngestError ReplaySubmission :=
  if (ric_max_decompressed_segment_bytes config =? 0) || (ric_max_events_per_segment config =? 0)
  then Err (ingest_invalid "invalid_replay_configuration")
  else
    event ← ok_or (ingest_invalid "invalid_replay_event") (json_from_slice (pr_event_json replay));
    event ← scrub (ps_scrub_policy snapshot) event;
    object ← ok_or (ingest_invalid "invalid_replay_event") (as_object event);
    replay_id ← ok_or (ingest_invalid "invalid_replay_id")
      (text ← map_get object (lit "replay_id") ≫= as_str; ok (event_id_parse text));
    if is_some_and (λ event_id, negb (bool_decide (event_id = replay_id)))
         (text ← map_get object (lit "event_id") ≫= as_str; ok (event_id_parse text))
    then Err (ingest_invalid "conflicting_replay_id")
    else
      segment_id ← ok_or (ingest_invalid "invalid_replay_segment_id")
        (map_get object (lit "segment_id") ≫= as_u32);
      started ← ok_or (ingest_invalid "missing_replay_start_timestamp")
        (map_get object (lit "replay_start_timestamp"));
      started_at ← parse_replay_timestamp started;
      ended ← ok_or (ingest_invalid "missing_replay_timestamp") (map_get object (lit "timestamp"));
      ended_at ← parse_replay_timestamp ended;
      sdk ← ok_or (ingest_invalid "missing_replay_sdk") (map_get object (lit "sdk") ≫= as_object);
      if negb (replay_sdk_supported sdk) then Err (ingest_invalid "unsupported_replay_sdk")
      else
        '(recording_segment_id, decompressed_bytes, event_count) ←
          validate_replay_recording (pr_recording replay) config;
        if negb (recording_segment_id =? segment_id)
        then Err (ingest_invalid "replay_segment_id_mismatch")
        else
          environment ← bounded_replay_text (map_get object (lit "environment"));
          release ← bounded_replay_text (map_get object (lit "release"));
          url ← replay_url (map_get object (lit "urls"));
          error_ids ← replay_event_ids (map_get object (lit "error_ids"));
          trace_ids ← replay_trace_ids (map_get object (lit "trace_ids"));
          let metadata :=
            {| rm_project_id := ps_project_id snapshot; rm_replay_id := replay_id;
               rm_segment_id := segment_id; rm_started_at := started_at;
               rm_ended_at := ended_at; rm_received_at := received_at;
               rm_environment := environment; rm_release := release; rm_url := url;
               rm_error_ids := error_ids; rm_trace_ids := trace_ids |} in
          _ ← map_err (λ _, ingest_invalid "invalid_replay_metadata") (metadata_validate metadata);
          Ok {| rs_metadata := metadata; rs_recording := pr_recording replay;
                rs_decompressed_bytes := decompressed_bytes; rs_event_count := event_count |}.
End replays.

(** ** What is accepted *)

Section theory.
Context {N : Type} `{HJ : !JsonApi N, HS : !JsonStream N}.
Context {Url : Type} `{HU : !UrlApi Url, HH : !HmacApi, HZ : !ZlibApi}.

(** The events a payload stands for: the payload itself where its first byte after
    white space opens an array, what it decompresses to otherwise. *)
Inductive decoded (maximum : Z) (payload : bytes) : bytes → Prop :=
| decoded_plain spaces rest : payload = spaces ++ 91 :: rest →
    (∀ b, b ∈ spaces → is_ascii_whitespace b = true) → decoded maximum payload payload
| decoded_zlib spaces b rest events : payload = spaces ++ b :: rest →
    (∀ b, b ∈ spaces → is_ascii_whitespace b = true) → is_ascii_whitespace b = false → b ≠ 91 →
    zlib_read payload (sat_u64 (maximum + 1)) = Some events → decoded maximum payload events.

Lemma find_split {A} (p : A → bool) l x : List.find p l = Some x ↔
  ∃ pre post, l = pre ++ x :: post ∧ (∀ y, y ∈ pre → p y = false) ∧ p x = true.
Proof.
  induction l as [|y l IH]; cbn.
  - split; [done|]. by intros ([|] & ? & ? & _).
  - destruct (p y) eqn:Hy.
    + split.
      * intros [= ->]. exists [], l. split_and!; [done| |done]. intros z. by rewrite elem_of_nil.
      * intros ([|z pre] & post & E & Hp & Hx); injection E as -> ->; [done|].
        rewrite (Hp z) in Hy; [done|]. by apply elem_of_cons; left.
    + rewrite IH. split.
      * intros (pre & post & -> & Hp & Hx). exists (y :: pre), post. split_and!; [done| |done].
        intros z [->|Hz]%elem_of_cons; [done|by apply Hp].
      * intros ([|z pre] & post & E & Hp & Hx); injection E as -> ->; [congruence|].
        exists pre, post. split_and!; [done| |done]. intros z0 Hz. apply Hp. apply elem_of_cons. by right.
Qed.

Lemma replay_events_Ok payload maximum events :
  replay_events payload maximum = Ok events ↔ decoded maximum payload events ∧ len events ≤ maximum.
Proof.
  unfold replay_events. rewrite bind_Ok. split.
  - intros (first & (pre & post & E & Hp & Hf)%ok_or_Ok%find_split & Hb).
    apply bind_Ok in Hb as (bs & He & Hb). destruct (Z.ltb_spec maximum (len bs)); [done|].
    injection Hb as ->. split; [|done]. destruct (Z.eqb_spec first 91) as [->|Hn].
    + injection He as <-. eapply decoded_plain; [exact E|]. intros b Hb. apply Hp in Hb. by apply negb_false_iff in Hb.
    + apply ok_or_Ok in He. eapply decoded_zlib; [exact E| |by apply negb_true_iff|done|done].
      intros b Hb. apply Hp in Hb. by apply negb_false_iff in Hb.
  - intros [Hd Hl]. inversion Hd as [spaces rest E Hs|spaces b rest events' E Hs Hb Hn Hz]; subst events.
    + exists 91. split; [|cbn [Z.eqb Pos.eqb mbind result_bind]; by apply Z.ltb_ge in Hl as ->].
      apply ok_or_Ok, find_split. exists spaces, rest. split_and!; [done| |done]. intros y Hy. by rewrite Hs.
    + exists b. split.
      * apply ok_or_Ok, find_split. exists spaces, rest. split_and!; [done| |by rewrite Hb]. intros y Hy. by rewrite Hs.
      * apply Z.eqb_neq in Hn as ->. rewrite Hz. cbn [ok_or mbind result_bind]. by apply Z.ltb_ge in Hl as ->.
Qed.

Lemma newline_position recording n :
  fst <$> list_find (λ byte, byte = 10) (take 257 recording) = Some n ↔
  ∃ header payload, recording = header ++ 10 :: payload ∧ (10 ∉ header) ∧ n = length header ∧ (n <= 256)%nat.
Proof.
  rewrite fmap_Some. split.
  - intros ([i b] & (Hi & -> & Hb)%list_find_Some & ->). cbn.
    apply lookup_take_Some in Hi as [Hi Hl]. exists (take i recording), (drop (S i) recording).
    pose proof (lookup_lt_Some _ _ _ Hi). split_and!.
    + by rewrite take_drop_middle.
    + intros (j & Hj)%list_elem_of_lookup_1. apply lookup_take_Some in Hj as [Hj Hlt].
      eapply Hb; [|exact Hlt|reflexivity]. apply lookup_take_Some. split; [done|lia].
    + rewrite length_take. lia.
    + lia.
  - intros (header & payload & -> & Hh & -> & Hl). exists (length header, 10). split; [|done].
    apply list_find_Some. split_and!; [|done|].
    + apply lookup_take_Some. split; [|lia]. by rewrite lookup_app_r, Nat.sub_diag.
    + intros j y Hj Hlt ->. apply lookup_take_Some in Hj as [Hj _]. rewrite lookup_app_l in Hj by done.
      apply Hh. by apply list_elem_of_lookup_2 in Hj.
Qed.

(** The recordings that are accepted: a header of 1 to 256 bytes that names a
    segment, a line feed and a payload whose events, plain or decompressed, are an
    array within both bounds; what is returned is the segment of the header and
    the exact sizes of the events. *)
Theorem replay_recording_exact recording config segment_id size count :
  validate_replay_recording recording config = Ok (segment_id, size, count) ↔
  ∃ header payload events v elements,
    recording = header ++ 10 :: payload ∧ (10 ∉ header) ∧ 1 ≤ len header ≤ 256
    ∧ json_from_slice header = Some v ∧ (get v "segment_id" ≫= as_u32) = Some segment_id
    ∧ decoded (ric_max_decompressed_segment_bytes config) payload events
    ∧ size = len events ∧ size ≤ ric_max_decompressed_segment_bytes config
    ∧ json_array_len events = Some elements
    ∧ count = sat_u32 elements ∧ count ≤ ric_max_events_per_segment config.
Proof.
  unfold validate_replay_recording. rewrite bind_Ok. setoid_rewrite ok_or_Ok. setoid_rewrite newline_position. split.
  - intros (n & (header & payload & -> & Hh & -> & Hn) & E).
    destruct (Nat.eqb_spec (length header) 0) as [H0|H0]; [done|].
    destruct (Nat.ltb_spec 256 (length header)); [lia|]. cbn [orb] in E.
    bind_ok E as (v & Hv & E). bind_ok E as (seg & Hseg & E). apply ok_or_Ok in Hv, Hseg.
    rewrite take_app_length in Hv. rewrite (cons_middle 10 header payload), app_assoc in E.
    rewrite drop_app_length' in E by (rewrite length_app; cbn; lia).
    destruct (is_empty payload) eqn:He; [done|]. bind_ok E as (events & Hev & E).
    bind_ok E as (c & Hc & E). injection E as -> <- <-. apply replay_events_Ok in Hev as [Hd Hle].
    unfold count_replay_events in Hc. bind_ok Hc as (k & Hk & Hc). apply ok_or_Ok in Hk. cbv zeta in Hc.
    destruct (Z.ltb_spec (ric_max_events_per_segment config) (sat_u32 k)); [done|]. injection Hc as <-.
    exists header, payload, events, v, k. unfold len in *. split_and!; try done; lia.
  - intros (header & payload & events & v & k & -> & Hh & Hlen & Hv & Hseg & Hd & -> & Hle & Hk & -> & Hc).
    exists (length header). unfold len in Hlen. split; [exists header, payload; split_and!; [done..|lia]|].
    destruct (Nat.eqb_spec (length header) 0); [lia|]. destruct (Nat.ltb_spec 256 (length header)); [lia|].
    cbn [orb]. rewrite take_app_length. apply bind_Ok. exists v. split; [by apply ok_or_Ok|].
    apply bind_Ok. exists segment_id. split; [by apply ok_or_Ok|]. cbv zeta.
    rewrite (cons_middle 10 header payload), app_assoc.
    rewrite drop_app_length' by (rewrite length_app; cbn; lia).
    assert (is_empty payload = false) as ->.
    { destruct payload; [|done]. inversion Hd as [[|] ? E|[|] ? ? ? E]; discriminate E. }
    apply bind_Ok. exists events. split; [by apply replay_events_Ok|].
    apply bind_Ok. exists (sat_u32 k). split; [|done]. unfold count_replay_events.
    apply bind_Ok. exists k. split; [by apply ok_or_Ok|]. cbv zeta. by apply Z.ltb_ge in Hc as ->.
Qed.
(** A web address without query, fragment and credentials. *)
Definition stripped_url (raw text : str) : Prop := ∃ u v w,
  url_parse raw = Some u ∧ one_of ["http"; "https"]%string (url_scheme u) = true
  ∧ url_clear_password (url_remove_fragment (url_remove_query u)) = Some v
  ∧ url_set_username v [] = Some w ∧ text = url_to_string w.
Lemma replay_url_Some (value : option (JValue N)) text :
  replay_url (Url := Url) value = Ok (Some text) → ∃ raw, stripped_url raw text.
Proof.
  unfold replay_url. destruct (_ ≫= as_str) as [raw|]; [|done]. intros E. exists raw.
  bind_ok E as (u & Hu & E). apply ok_or_Ok in Hu. destruct (one_of _ _) eqn:Hone; [|done].
  cbn [negb orb] in E. destruct (is_none _); [done|]. bind_ok E as (v & Hv & E). bind_ok E as (w & Hw & E).
  apply ok_or_Ok in Hv, Hw. destruct (_ <? _); [done|]. injection E as <-. by exists u, v, w.
Qed.
Lemma metadata_validate_Ok m : metadata_validate m = Ok tt →
  rm_segment_id m < MAX_REPLAY_SEGMENTS ∧ 0 ≤ rm_ended_at m - rm_started_at m ≤ MAX_REPLAY_DURATION_MILLIS
  ∧ len (rm_error_ids m) ≤ MAX_REPLAY_CORRELATIONS ∧ len (rm_trace_ids m) ≤ MAX_REPLAY_CORRELATIONS.
Proof.
  unfold metadata_validate. intros E. bind_ok E as (d & Hd & E). apply ok_or_Ok, checked_Some in Hd as [-> _].
  destruct (_ || _) eqn:Hb; [done|]. rewrite !orb_false_iff, negb_false_iff, in_range_true, Z.leb_gt, !Z.ltb_ge in Hb.
  destruct Hb as [[[? ?] ?] ?]. split_and!; lia.
Qed.

(** A replay that is accepted: the recording is kept as it came and is one that
    [validate_replay_recording] accepts, under the segment both parts of the item
    name; the segment, the duration and the correlations are bounded; and the URL
    that is kept has lost its query, its fragment and its credentials. *)
Theorem replay_accepted snapshot received_at replay config s :
  normalize_replay (N := N) (Url := Url) snapshot received_at replay config = Ok s →
  let m := rs_metadata s in
  rs_recording s = pr_recording replay
  ∧ validate_replay_recording (pr_recording replay) config
    = Ok (rm_segment_id m, rs_decompressed_bytes s, rs_event_count s)
  ∧ rm_project_id m = ps_project_id snapshot ∧ rm_received_at m = received_at
  ∧ rm_segment_id m < MAX_REPLAY_SEGMENTS
  ∧ 0 ≤ rm_ended_at m - rm_started_at m ≤ MAX_REPLAY_DURATION_MILLIS
  ∧ len (rm_error_ids m) ≤ MAX_REPLAY_CORRELATIONS ∧ len (rm_trace_ids m) ≤ MAX_REPLAY_CORRELATIONS
  ∧ (∀ text, rm_url m = Some text → ∃ raw, stripped_url raw text).
Proof.
  unfold normalize_replay. intros E. destruct (_ || _); [done|].
  bind_ok E as (v & _ & E). bind_ok E as (w & _ & E). bind_ok E as (object & _ & E).
  bind_ok E as (replay_id & _ & E). destruct (is_some_and _ _); [done|].
  bind_ok E as (segment & _ & E). bind_ok E as (started & _ & E). bind_ok E as (started_at & _ & E).
  bind_ok E as (ended & _ & E). bind_ok E as (ended_at & _ & E). bind_ok E as (sdk & _ & E).
  destruct (negb _); [done|]. bind_ok E as ([[rsegment size] count] & Hr & E).
  destruct (Z.eqb_spec rsegment segment) as [->|]; [|done]. cbn [negb] in E.
  bind_ok E as (environment & _ & E). bind_ok E as (release & _ & E). bind_ok E as (url & Hu & E).
  bind_ok E as (errors & _ & E). bind_ok E as (traces & _ & E). cbv zeta in E. bind_ok E as (x & Hm & E).
  apply map_err_Ok in Hm. destruct x. apply metadata_validate_Ok in Hm. injection E as <-. cbn in *.
  split_and!; try done; try apply Hm. intros text ->. by eapply replay_url_Some.
Qed.
End theory.
