(* ===== verification/IngestFeedback.v ===== *)
(** * User feedback of a request

    [domain/src/feedback.rs] and the feedback part of
    [application/src/ingest.rs]: a primary event of the type [feedback] becomes a
    record of its own, with texts within the bounds of the configuration. *)
From stdpp Require Import base list numbers strings.
From Stdlib Require Import ZArith Lia SpecFloat.
From S2P Require Import Prelude External Float Primitives Identity InboundFilter Event Normalizer JsonValue Signals IpAddr Scrub Blobs.

(** ** Values *)

Definition MAX_FEEDBACK_MESSAGE_BYTES : Z := 16 * 1024.
Definition MAX_FEEDBACK_NAME_BYTES : Z := 512.
Definition MAX_FEEDBACK_CONTACT_BYTES : Z := 512.
Definition MAX_FEEDBACK_URL_BYTES : Z := 2 * 1024.
Definition MAX_FEEDBACK_ATTACHMENTS : Z := 10.
Inductive FeedbackValueError := FvInvalid.

Inductive FeedbackStatus := FsOpen | FsResolved | FsSpam.
Definition feedback_status_name (s : FeedbackStatus) : string :=
  match s with FsOpen => "open" | FsResolved => "resolved" | FsSpam => "spam" end.
Definition feedback_status_parse (value : str) : result FeedbackValueError FeedbackStatus :=
  if one_of ["open"]%string value then Ok FsOpen
  else if one_of ["resolved"]%string value then Ok FsResolved
  else if one_of ["spam"]%string value then Ok FsSpam
  else Err FvInvalid.

Record FeedbackRecord := {
  fb_project_id : Z;
  fb_feedback_id : bytes;
  fb_received_at : Timestamp;
  fb_status : FeedbackStatus;
  fb_status_changed_at : Timestamp;
  fb_message : str;
  fb_name : option str;
  fb_contact_email : option str;
  fb_url : option str;
  fb_associated_event_id : option bytes;
  fb_issue_id : option bytes;
  fb_trace_id : option bytes;
  fb_replay_id : option bytes;
  fb_attachments : list EventAttachment;
  fb_expires_at : Timestamp;
}.
Definition validate_required (value : str) (maximum : Z) : result FeedbackValueError unit :=
  guard_err (is_empty (trim value) || (maximum <? len value) || bool_decide (0 ∈ value)) FvInvalid.
Definition feedback_optional_valid (value : option str) (maximum : Z) : result FeedbackValueError unit :=
  match value with Some value => validate_required value maximum | None => Ok tt end.
Definition feedback_validate (r : FeedbackRecord) : result FeedbackValueError unit :=
  _ ← validate_required (fb_message r) MAX_FEEDBACK_MESSAGE_BYTES;
  _ ← feedback_optional_valid (fb_name r) MAX_FEEDBACK_NAME_BYTES;
  _ ← feedback_optional_valid (fb_contact_email r) MAX_FEEDBACK_CONTACT_BYTES;
  _ ← feedback_optional_valid (fb_url r) MAX_FEEDBACK_URL_BYTES;
  guard_err ((MAX_FEEDBACK_ATTACHMENTS <? len (fb_attachments r))
             || (fb_status_changed_at r <? fb_received_at r)
             || (fb_expires_at r <=? fb_received_at r)) FvInvalid.

(** ** Normalization *)

Record FeedbackIngestConfig := {
  fic_retention_days : Z;
  fic_max_message_bytes : Z;
  fic_max_name_bytes : Z;
  fic_max_contact_bytes : Z;
  fic_max_url_bytes : Z;
  fic_max_attachments : Z;
  fic_max_attachment_bytes : Z;
  fic_max_total_attachment_bytes : Z;
  fic_max_submissions_per_minute : Z;
  fic_limiter_capacity : Z;
  fic_allow_png_screenshots : bool;
}.
Definition feedback_ingest_default : FeedbackIngestConfig :=
  {| fic_retention_days := 90; fic_max_message_bytes := 4 * 1024; fic_max_name_bytes := 256;
     fic_max_contact_bytes := 320; fic_max_url_bytes := 2 * 1024; fic_max_attachments := 3;
     fic_max_attachment_bytes := 2 * 1024 * 1024; fic_max_total_attachment_bytes := 5 * 1024 * 1024;
     fic_max_submissions_per_minute := 30; fic_limiter_capacity := 10000;
     fic_allow_png_screenshots := false |}.
Record PrimaryEvent := { pe_header_event_id : option bytes; pe_raw_json : bytes }.
Record PendingAttachment := {
  pa_position : Z;
  pa_filename : str;
  pa_content_type : str;
  pa_attachment_type : str;
  pa_bytes : bytes;
}.

Definition ingest_too_large (code : string) : IngestError := {| ie_kind := IkTooLarge; ie_code := code |}.

(** The sum is a [usize]. *)
Fixpoint attachment_total (total : Z) (attachments : list PendingAttachment)
    (config : FeedbackIngestConfig) : result IngestError Z :=
  match attachments with
  | [] => Ok total
  | attachment :: attachments =>
      if fic_max_attachment_bytes config <? len (pa_bytes attachment)
      then Err (ingest_too_large "feedback_attachment_too_large")
      else
        total ← ok_or (ingest_too_large "feedback_attachments_too_large")
                  (checked_u64 (total + len (pa_bytes attachment)));
        attachment_total total attachments config
  end.
Definition validate_feedback_attachment_limits (attachments : list PendingAttachment)
    (config : FeedbackIngestConfig) : result IngestError unit :=
  if fic_max_attachments config <? len attachments
  then Err (ingest_too_large "feedback_too_many_attachments")
  else
    total ← attachment_total 0 attachments config;
    guard_err (fic_max_total_attachment_bytes config <? total)
      (ingest_too_large "feedback_attachments_too_large").

(** The event ids a request states, in order: all must be the one in the body. *)
Definition conflicting_event_id (stated : list (option bytes)) (event_id : bytes) : bool :=
  existsb (is_some_and (λ id, negb (bool_decide (id = event_id)))) stated.

Section feedback.
Context {N : Type} `{!JsonApi N} {Url : Type} `{!UrlApi Url, !HmacApi}.
Abbreviation Value := (JValue N).

Definition primary_is_feedback (primary : PrimaryEvent) : result IngestError bool :=
  value ← ok_or (ingest_invalid "invalid_event_json") (json_from_slice (pe_raw_json primary));
  Ok (is_some_and (λ kind, bool_decide (kind = lit "feedback")) (get value "type" ≫= as_str)).

Definition feedback_text (value : option Value) (maximum : Z) (required : bool) (code : string)
    : result IngestError (option str) :=
  match value with
  | None => if required then Err (ingest_invalid code) else Ok None
  | Some value =>
      value ← ok_or (ingest_invalid code) (as_str value);
      let value := trim value in
      if is_empty value || (maximum <? len value) || str_contains [0] value
      then Err (ingest_invalid code) else Ok (Some value)
  end.
Definition optional_event_id (value : option Value) (code : string) : result IngestError (option bytes) :=
  match value with
  | None => Ok None
  | Some value =>
      text ← ok_or (ingest_invalid code) (as_str value);
      Some <$> map_err (λ _, ingest_invalid code) (event_id_parse text)
  end.
Definition feedback_trace_id (value : option Value) : result IngestError (option bytes) :=
  let invalid := ingest_invalid "invalid_feedback_trace_id" in
  match value with
  | None => Ok None
  | Some value =>
      text ← ok_or invalid (as_str value);
      Some <$> map_err (λ _, invalid) (trace_id_parse text)
  end.
Definition web_url (value : str) : bool :=
  is_some_and (λ url, one_of ["http"; "https"]%string (url_scheme url)) (url_parse value).
Definition feedback_expiry (received_at : Timestamp) (config : FeedbackIngestConfig)
    : result IngestError Timestamp :=
  let invalid := ingest_invalid "invalid_feedback_retention" in
  retention_millis ← ok_or invalid (checked_i64 (fic_retention_days config * (24 * 60 * 60 * 1000)));
  ok_or invalid (value ← checked_i64 (received_at + retention_millis); ok (from_unix_millis value)).

Definition normalize_feedback (snapshot : ProjectSnapshot) (primary : PrimaryEvent)
    (envelope_event_id : option bytes) (received_at : Timestamp) (config : FeedbackIngestConfig)
    : result IngestError FeedbackRecord :=
  value ← ok_or (ingest_invalid "invalid_feedback_json") (json_from_slice (pe_raw_json primary));
  object ← ok_or (ingest_invalid "feedback_not_object") (as_object value);
  if negb (bool_decide ((map_get object (lit "type") ≫= as_str) = Some (lit "feedback")))
  then Err (ingest_invalid "invalid_feedback_type")
  else
    id ← ok_or (ingest_invalid "missing_feedback_id") (map_get object (lit "event_id") ≫= as_str);
    feedback_id ← map_err (λ _, ingest_invalid "invalid_feedback_id") (event_id_parse id);
    if conflicting_event_id [pe_header_event_id primary; envelope_event_id] feedback_id
    then Err (ingest_invalid "conflicting_event_id")
    else
      value ← scrub (ps_scrub_policy snapshot) (JObject (map_remove object "project"));
      context ← ok_or (ingest_invalid "missing_feedback_context")
        (pointer value ["contexts"; "feedback"]%string ≫= as_object);
      let field key := map_get context (lit key) in
      message ← feedback_text (field "message") (fic_max_message_bytes config) true "invalid_feedback_message";
      message ← ok_or (ingest_invalid "missing_feedback_message") message;
      name ← feedback_text (field "name") (fic_max_name_bytes config) false "invalid_feedback_name";
      contact_email ← feedback_text (option_or (field "contact_email") (field "email"))
                        (fic_max_contact_bytes config) false "invalid_feedback_contact";
      url ← feedback_text (field "url") (fic_max_url_bytes config) false "invalid_feedback_url";
      if is_some_and (λ value, negb (web_url value)) url
      then Err (ingest_invalid "invalid_feedback_url")
      else
        associated_event_id ← optional_event_id (field "associated_event_id") "invalid_associated_event_id";
        replay_id ← optional_event_id (field "replay_id") "invalid_replay_id";
        trace_id ← feedback_trace_id (pointer value ["contexts"; "trace"; "trace_id"]%string);
        expires_at ← feedback_expiry received_at config;
        Ok {| fb_project_id := ps_project_id snapshot; fb_feedback_id := feedback_id;
              fb_received_at := received_at; fb_status := FsOpen; fb_status_changed_at := received_at;
              fb_message := message; fb_name := name; fb_contact_email := contact_email; fb_url := url;
              fb_associated_event_id := associated_event_id; fb_issue_id := None; fb_trace_id := trace_id;
              fb_replay_id := replay_id; fb_attachments := []; fb_expires_at := expires_at |}.
End feedback.

(** ** What is recorded *)

Lemma attachment_total_Ok config attachments : ∀ total t,
  0 ≤ total → attachment_total total attachments config = Ok t ↔
  t = total + sum_map (λ a, len (pa_bytes a)) attachments
  ∧ (∀ a, a ∈ attachments → len (pa_bytes a) ≤ fic_max_attachment_bytes config)
  ∧ (attachments ≠ [] → t ≤ U64_MAX).
Proof.
  induction attachments as [|a attachments IH]; intros total t Ht; cbn [attachment_total].
  - rewrite sum_map_nil. split; [intros [= <-]|by intros (-> & _); rewrite Z.add_0_r].
    split_and!; [lia| |done]. intros a Ha. by apply elem_of_nil in Ha.
  - pose proof (len_nonneg (pa_bytes a)) as Ha. rewrite sum_map_cons.
    assert (0 ≤ sum_map (λ a, len (pa_bytes a)) attachments) as Hs.
    { clear. induction attachments as [|a l IH]; [done|]. rewrite sum_map_cons. pose proof (len_nonneg (pa_bytes a)). lia. }
    destruct (Z.ltb_spec (fic_max_attachment_bytes config) (len (pa_bytes a))).
    { split; [done|]. intros (_ & Hb & _). specialize (Hb a (list_elem_of_here _ _)). lia. }
    rewrite bind_Ok. setoid_rewrite ok_or_Ok. setoid_rewrite checked_Some. split.
    + intros (x & [-> Hx] & E). apply IH in E as (-> & Hb & Hl); [|lia]. split_and!; [lia| |].
      * intros b [->|Hb']%elem_of_cons; [done|by apply Hb].
      * intros _. destruct attachments; [rewrite sum_map_nil; lia|by apply Hl].
    + intros (-> & Hb & Hl). exists (total + len (pa_bytes a)). specialize (Hl ltac:(done)).
      split; [split; [done|lia]|]. apply IH; [lia|]. split_and!; [lia| |lia].
      intros b Hb'. apply Hb, elem_of_cons. by right.
Qed.

(** A text that was trimmed, within its bound and without NUL. *)
Definition feedback_text_ok (maximum : Z) (text : str) : Prop :=
  trim text = text ∧ text ≠ [] ∧ len text ≤ maximum ∧ (0 ∉ text).
Lemma str_contains_single b s : str_contains [b] s = false → b ∉ s.
Proof.
  intros E Hin. apply list_elem_of_split in Hin as (l & r & ->).
  assert (str_contains [b] (l ++ b :: r) = true) by (apply str_contains_true; by exists l, r). congruence.
Qed.
Lemma feedback_text_valid maximum bound text : feedback_text_ok maximum text → maximum ≤ bound →
  validate_required text bound = Ok tt.
Proof.
  intros (Ht & Hn & Hl & Hz) Hb. apply guard_err_Ok. rewrite Ht.
  destruct text; [done|]. cbn [is_empty non_empty negb orb]. apply orb_false_iff. split.
  - apply Z.ltb_ge. lia.
  - by apply bool_decide_eq_false.
Qed.
Lemma conflicting_event_id_false stated id : conflicting_event_id stated id = false ↔
  ∀ i, Some i ∈ stated → i = id.
Proof.
  unfold conflicting_event_id. rewrite existsb_false. split.
  - intros H i Hi. apply H in Hi. cbn in Hi. apply negb_false_iff in Hi. by apply bool_decide_eq_true in Hi.
  - intros H [i|] Hi; [|done]. cbn. apply negb_false_iff, bool_decide_eq_true. by apply H.
Qed.

Section theory.
Context {N : Type} `{HJ : !JsonApi N} {Url : Type} `{HU : !UrlApi Url, HH : !HmacApi}.

Lemma feedback_text_Ok (value : option (JValue N)) maximum required code text :
  feedback_text value maximum required code = Ok text →
  (text = None ∧ value = None ∧ required = false)
  ∨ ∃ t raw, text = Some t ∧ value = Some (JString raw) ∧ t = trim raw ∧ feedback_text_ok maximum t.
Proof.
  unfold feedback_text. destruct value as [v|].
  - intros E. bind_ok E as (raw & Hr & E). apply ok_or_Ok in Hr. destruct v; try done. injection Hr as ->.
    cbv zeta in E. destruct (is_empty (trim raw)) eqn:He; [done|].
    destruct (Z.ltb_spec maximum (len (trim raw))); [done|]. destruct (str_contains [0] (trim raw)) eqn:Hc; [done|].
    injection E as <-. right. exists (trim raw), raw. split_and!; [done..|]. split_and!; [by rewrite trim_trim| |done|].
    + intros Hn. by rewrite Hn in He.
    + by apply str_contains_single.
  - destruct required; intros [= <-]. by left.
Qed.
End theory.

(** The same record with the attachments that were stored for it. *)
Definition with_attachments (r : FeedbackRecord) (attachments : list EventAttachment) : FeedbackRecord :=
  {| fb_project_id := fb_project_id r; fb_feedback_id := fb_feedback_id r;
     fb_received_at := fb_received_at r; fb_status := fb_status r;
     fb_status_changed_at := fb_status_changed_at r; fb_message := fb_message r; fb_name := fb_name r;
     fb_contact_email := fb_contact_email r; fb_url := fb_url r;
     fb_associated_event_id := fb_associated_event_id r; fb_issue_id := fb_issue_id r;
     fb_trace_id := fb_trace_id r; fb_replay_id := fb_replay_id r; fb_attachments := attachments;
     fb_expires_at := fb_expires_at r |}.
(** A configuration whose bounds lie within those of the domain. *)
Definition config_within (c : FeedbackIngestConfig) : Prop :=
  fic_max_message_bytes c ≤ MAX_FEEDBACK_MESSAGE_BYTES ∧ fic_max_name_bytes c ≤ MAX_FEEDBACK_NAME_BYTES
  ∧ fic_max_contact_bytes c ≤ MAX_FEEDBACK_CONTACT_BYTES ∧ fic_max_url_bytes c ≤ MAX_FEEDBACK_URL_BYTES
  ∧ 0 < fic_retention_days c.

Lemma feedback_optional_ok {N} (value : option (JValue N)) maximum bound code text :
  feedback_text value maximum false code = Ok text → maximum ≤ bound →
  feedback_optional_valid text bound = Ok tt ∧ (∀ t, text = Some t → feedback_text_ok maximum t).
Proof.
  intros [(-> & _ & _)|(t & raw & -> & _ & _ & Ht)]%feedback_text_Ok Hb; [by split|].
  split; [by eapply feedback_text_valid|by intros ? [= <-]].
Qed.

Lemma normalize_feedback_received {N} `{!JsonApi N} {Url} `{!UrlApi Url, !HmacApi}
    snapshot primary envelope_event_id received_at config r :
  normalize_feedback (N := N) (Url := Url) snapshot primary envelope_event_id received_at config = Ok r →
  fb_received_at r = received_at ∧ fb_project_id r = ps_project_id snapshot.
Proof.
  unfold normalize_feedback. intros E. bind_ok E as (v & _ & E). bind_ok E as (body & _ & E).
  case_bool_decide; [|done]. cbn [negb] in E. bind_ok E as (id & _ & E). bind_ok E as (fid & _ & E).
  destruct (conflicting_event_id _ _); [done|]. bind_ok E as (clean & _ & E). bind_ok E as (context & _ & E).
  cbv zeta in E. bind_ok E as (m & _ & E). bind_ok E as (message & _ & E). bind_ok E as (name & _ & E).
  bind_ok E as (contact & _ & E). bind_ok E as (url & _ & E). destruct (is_some_and _ url); [done|].
  bind_ok E as (assoc & _ & E). bind_ok E as (replay & _ & E). bind_ok E as (trace & _ & E).
  bind_ok E as (expires & _ & E). by injection E as <-.
Qed.

(** What is recorded of a feedback item: it belongs to the project of the key,
    is open, and its id is the one of the body, which the headers repeat; it
    expires after the retention; its texts are those of the scrubbed body,
    trimmed, not empty and within the bounds, and its URL is a web address; and
    where the configuration lies within the bounds of the domain, no record with
    at most ten attachments is refused afterwards. *)
Theorem feedback_recorded {N} `{!JsonApi N} {Url} `{!UrlApi Url, !HmacApi}
    snapshot primary envelope_event_id received_at config r :
  normalize_feedback (N := N) (Url := Url) snapshot primary envelope_event_id received_at config = Ok r →
  (fb_project_id r = ps_project_id snapshot ∧ fb_status r = FsOpen ∧ fb_attachments r = []
   ∧ fb_received_at r = received_at
   ∧ fb_expires_at r = received_at + fic_retention_days config * 86400000)
  ∧ (∀ i, Some i ∈ [pe_header_event_id primary; envelope_event_id] → i = fb_feedback_id r)
  ∧ (∃ body clean context raw,
       json_from_slice (pe_raw_json primary) = Some (JObject body)
       ∧ (map_get body (lit "type") ≫= as_str) = Some (lit "feedback")
       ∧ ((map_get body (lit "event_id") ≫= as_str) ≫= λ text, ok (event_id_parse text)) = Some (fb_feedback_id r)
       ∧ scrub (ps_scrub_policy snapshot) (JObject (map_remove body "project")) = Ok clean
       ∧ pointer clean ["contexts"; "feedback"]%string = Some (JObject context)
       ∧ map_get context (lit "message") = Some (JString raw) ∧ fb_message r = trim raw)
  ∧ feedback_text_ok (fic_max_message_bytes config) (fb_message r)
  ∧ (∀ t, fb_name r = Some t → feedback_text_ok (fic_max_name_bytes config) t)
  ∧ (∀ t, fb_contact_email r = Some t → feedback_text_ok (fic_max_contact_bytes config) t)
  ∧ (∀ t, fb_url r = Some t → feedback_text_ok (fic_max_url_bytes config) t ∧ web_url (Url := Url) t = true)
  ∧ (config_within config → ∀ attachments, len attachments ≤ MAX_FEEDBACK_ATTACHMENTS →
       feedback_validate (with_attachments r attachments) = Ok tt).
Proof.
  unfold normalize_feedback. intros E. bind_ok E as (v & Hv & E). bind_ok E as (body & Hb & E).
  apply ok_or_Ok in Hv, Hb. destruct v as [| | | | |fields]; try done. injection Hb as ->.
  case_bool_decide as Ht; [|done]. cbn [negb] in E.
  bind_ok E as (id & Hid & E). bind_ok E as (fid & Hfid & E). apply ok_or_Ok in Hid. apply map_err_Ok in Hfid.
  destruct (conflicting_event_id _ _) eqn:Hc; [done|]. rewrite conflicting_event_id_false in Hc.
  bind_ok E as (clean & Hs & E). bind_ok E as (context & Hctx & E). apply ok_or_Ok in Hctx. cbv zeta in E.
  bind_ok E as (m & Hm & E). bind_ok E as (message & Hmm & E). apply ok_or_Ok in Hmm as ->.
  bind_ok E as (name & Hn & E). bind_ok E as (contact & Hco & E). bind_ok E as (url & Hu & E).
  destruct (is_some_and _ url) eqn:Hweb; [done|].
  bind_ok E as (assoc & _ & E). bind_ok E as (replay & _ & E). bind_ok E as (trace & _ & E).
  bind_ok E as (expires & He & E). injection E as <-.
  apply feedback_text_Ok in Hm as [(? & _)|(? & raw & [= <-] & Hraw & -> & Hmok)]; [done|].
  unfold feedback_expiry in He. bind_ok He as (ret & Hret & He). apply ok_or_Ok, checked_Some in Hret as [-> _].
  apply ok_or_Ok in He. destruct (checked_i64 _) as [x|] eqn:Hx; [|done]. apply checked_Some in Hx as [-> _].
  cbn [mbind option_bind] in He. destruct (from_unix_millis _) as [y|] eqn:Hy; [|done]. injection He as ->.
  apply from_unix_millis_Ok in Hy as [-> _].
  change (24 * 60 * 60 * 1000) with 86400000 in *. cbn.
  split_and!; try done.
  - destruct (pointer clean _) as [p|] eqn:Hp; [|done]. cbn [mbind option_bind] in Hctx.
    destruct p; try done. injection Hctx as ->. exists body, clean, context, raw. split_and!; try done.
    transitivity (Some id ≫= λ text, ok (event_id_parse text)); [|cbn; by rewrite Hfid].
    exact (f_equal (λ o, o ≫= λ text, ok (event_id_parse text)) Hid).
  - intros t ->. by eapply feedback_optional_ok.
  - intros t ->. by eapply feedback_optional_ok.
  - intros t ->. split; [by eapply feedback_optional_ok|]. cbn in Hweb. by apply negb_false_iff in Hweb.
  - intros (B1 & B2 & B3 & B4 & B5) attachments Hl. unfold feedback_validate. cbn.
    rewrite (feedback_text_valid _ _ _ Hmok B1). cbn [result_bind].
    rewrite (proj1 (feedback_optional_ok _ _ _ _ _ Hn B2)). cbn [result_bind].
    rewrite (proj1 (feedback_optional_ok _ _ _ _ _ Hco B3)). cbn [result_bind].
    rewrite (proj1 (feedback_optional_ok _ _ _ _ _ Hu B4)). cbn [result_bind].
    apply guard_err_Ok. rewrite !orb_false_iff, Z.ltb_ge, Z.ltb_irrefl, Z.leb_gt. split_and!; [done..|lia].
Qed.

(** *** One item, with a secret in its body *)

Definition sample_feedback : JsonApi Z := {|
  json_from_slice _ := Some (JObject
    [(lit "contexts", JObject [(lit "feedback", JObject
        [(lit "email", JString (lit "ada@example.com")); (lit "message", JString (lit " Bearer abc "));
         (lit "name", JString (lit "Ada "))])]);
     (lit "event_id", JString (lit "0123456789abcdef0123456789abcdef"));
     (lit "type", JString (lit "feedback"))]);
  number_to_string := to_dec; number_as_f64 z := Some (f64_of_i64 z); number_as_u64 := Some |}.
Definition feedback_no_hmac : HmacApi := λ _ _, None.
Definition feedback_snapshot : ProjectSnapshot := {|
  ps_project_id := 7; ps_organization_id := 1; ps_state := PActive; ps_key_state := KActive;
  ps_scrub_policy := sample_policy;
  ps_items := {| ic_error := true; ic_client_report := true; ic_log := true; ic_transaction := true;
    ic_span := true; ic_feedback := true; ic_check_in := true; ic_metric := true; ic_replay := true |};
  ps_limits := ingest_limits_default; ps_inbound_filters := policy_default; ps_grouping_revision := 1 |}.
#[local] Existing Instances sample_feedback no_url feedback_no_hmac.
Definition sample_primary : PrimaryEvent := {| pe_header_event_id := None; pe_raw_json := [] |}.
Definition sample_record : result IngestError FeedbackRecord :=
  Eval vm_compute in normalize_feedback feedback_snapshot sample_primary None 1700000000000 feedback_ingest_default.
Lemma feedback_recorded_witness :
  normalize_feedback feedback_snapshot sample_primary None 1700000000000 feedback_ingest_default = sample_record
  ∧ ∀ r, sample_record = Ok r →
      fb_name r = Some (lit "Ada") ∧ fb_expires_at r = 1707776000000
      ∧ feedback_validate (with_attachments r []) = Ok tt.
Proof.
  assert (normalize_feedback feedback_snapshot sample_primary None 1700000000000 feedback_ingest_default
    = sample_record) as E by (vm_compute; reflexivity).
  split; [exact E|]. intros r Hr. rewrite Hr in E.
  destruct (feedback_recorded _ _ _ _ _ _ E) as (_ & _ & _ & _ & _ & _ & _ & Hvalid).
  split; [by injection Hr as <-|]. split; [by injection Hr as <-|].
  apply Hvalid; [by repeat split|discriminate].
Defined.
Example sample_message : fb_message <$> ok sample_record = Some (lit "Bearer abc").
Proof. reflexivity. Qed.
