(* ===== verification/Ingest.v ===== *)
(** * A request to the ingestion service

    The data of [application/src/ingest.rs] and the parts of the service that
    call no port: authentication and consistency of a request, the fixed-window
    limiters, the admission of a primary event, the attachments that may be kept,
    the identities of stored objects, and the errors of the ports.  The service
    itself is [IngestService]. *)
From stdpp Require Import base list numbers strings sets gmap.
From Stdlib Require Import ZArith Lia SpecFloat.
From S2P Require Import Prelude External Float Primitives Identity InboundFilter Dispatcher EventWriter Signals SignalWriters Event Normalizer JsonValue IpAddr Scrub Blobs IngestChecks IngestReplays IngestFeedback.

(** ** Requests *)

Definition MAX_AUTH_SOURCES : Z := 4.

Inductive DisabledCategory :=
| DcTransaction | DcSession | DcProfile | DcReplay | DcCheckIn | DcSpan | DcStatsd | DcAttachment
| DcOtherKnown.
Definition sentry_name (c : DisabledCategory) : string :=
  match c with
  | DcTransaction => "transaction" | DcSession => "session" | DcProfile => "profile"
  | DcReplay => "replay" | DcCheckIn => "monitor" | DcSpan => "span" | DcStatsd => "metric_bucket"
  | DcAttachment => "attachment" | DcOtherKnown => "default"
  end.
Record DiscardedItem := { di_category : option DisabledCategory; di_reason : string }.

Inductive PendingSignalKind := PkLog | PkTransaction | PkSpan | PkSession.
Record PendingSignal := { pg_kind : PendingSignalKind; pg_raw_json : bytes }.
Record PendingMetricContainer := { pm_item_count : Z; pm_raw_json : bytes }.
Record IngestRequest := {
  ir_path_project_id : Z;
  ir_auth_keys : list bytes;
  ir_dsn_project_id : option Z;
  ir_envelope_event_id : option bytes;
  ir_primary : option PrimaryEvent;
  ir_signals : list PendingSignal;
  ir_metrics : list PendingMetricContainer;
  ir_replays : list PendingReplay;
  ir_check_ins : list bytes;
  ir_attachments : list PendingAttachment;
  ir_discarded : list DiscardedItem;
  ir_client_report_quantity : Z;
}.
Record MinidumpRequest := {
  mi_path_project_id : Z;
  mi_auth_keys : list bytes;
  mi_dsn_project_id : option Z;
  mi_supplied_event_id : option bytes;
}.
Record AttachmentIngestConfig := { aic_enabled : bool; aic_chunk_bytes : Z }.
Definition attachment_ingest_default : AttachmentIngestConfig :=
  {| aic_enabled := true; aic_chunk_bytes := 64 * 1024 |}.
Record MinidumpIngestConfig := {
  nic_enabled : bool;
  nic_max_bytes : Z;
  nic_chunk_bytes : Z;
  nic_retained_header_bytes : Z;
}.
Definition minidump_ingest_default : MinidumpIngestConfig :=
  {| nic_enabled := false; nic_max_bytes := 100 * 1024 * 1024; nic_chunk_bytes := 64 * 1024;
     nic_retained_header_bytes := 64 * 1024 |}.
Record IngestResult := {
  is_event_id : option bytes;
  is_durable : option DurableOutcome;
  is_disabled_categories : list string;
}.

(** ** Errors of the ports *)

Inductive ProjectResolveError := PrUnknownKey | PrUnauthorized | PrUnavailable.
Inductive FeedbackStoreError := FeNotFound | FeConflict | FeInvalidData | FeCapacity | FeUnavailable.
Inductive BlobStoreError := BeTooLarge | BeCapacity | BeNotFound | BeCorrupt | BeInvalid | BeUnavailable.

Definition ingest_unauthorized : IngestError := {| ie_kind := IkUnauthorized; ie_code := "unauthorized" |}.
Definition shutting_down : IngestError := {| ie_kind := IkShuttingDown; ie_code := "shutting_down" |}.
Definition scrub_failed : IngestError := {| ie_kind := IkScrubFailed; ie_code := "scrub_failed" |}.

Definition map_resolve_error (e : ProjectResolveError) : IngestError :=
  match e with
  | PrUnauthorized | PrUnknownKey => ingest_unauthorized
  | PrUnavailable => ingest_unavailable "project_unavailable"
  end.
Definition map_signal_store_error (e : SignalStoreError) : IngestError :=
  match e with
  | SgConflict | SgInvalidData => ingest_invalid "signal_conflict"
  | SgCapacity => ingest_rate_limited "log_lane_capacity"
  | SgNotFound | SgUnavailable => ingest_unavailable "signal_storage_unavailable"
  end.
Definition map_span_sink_error (e : SignalStoreError) : IngestError :=
  match e with
  | SgConflict | SgInvalidData => ingest_invalid "invalid_span"
  | SgCapacity => ingest_rate_limited "span_lane_capacity"
  | SgNotFound | SgUnavailable => ingest_unavailable "span_storage_unavailable"
  end.
Definition map_feedback_store_error (e : FeedbackStoreError) : IngestError :=
  match e with
  | FeConflict | FeInvalidData => ingest_invalid "feedback_conflict"
  | FeCapacity => ingest_rate_limited "feedback_storage_capacity"
  | FeNotFound | FeUnavailable => ingest_unavailable "feedback_storage_unavailable"
  end.
Definition map_sink_error (e : EventSinkError) : IngestError :=
  match e with
  | SinkUnavailable => ingest_unavailable "storage_unavailable"
  | SinkAmbiguous => ingest_unavailable "ambiguous_durable_ack"
  end.
Definition map_blob_error (e : BlobStoreError) : IngestError :=
  match e with
  | BeInvalid => ingest_invalid "invalid_blob_request"
  | BeTooLarge => ingest_too_large "minidump_too_large"
  | BeCapacity => ingest_unavailable "blob_capacity_exhausted"
  | BeNotFound | BeCorrupt | BeUnavailable => ingest_unavailable "blob_storage_unavailable"
  end.

(** ** The key and the project of a request *)

Definition one_auth_key (keys : list bytes) : result IngestError bytes :=
  match keys with
  | [] => Err ingest_unauthorized
  | first :: _ =>
      if MAX_AUTH_SOURCES <? len keys then Err ingest_unauthorized
      else if existsb (λ key, negb (bool_decide (key = first))) keys
      then Err (ingest_invalid "conflicting_auth")
      else Ok first
  end.
Definition validate_project_consistency (path_project_id : Z) (dsn_project_id : option Z)
    (snapshot : ProjectSnapshot) (wire_project_id : Z) : result IngestError unit :=
  guard_err
    (negb (wire_project_id =? path_project_id)
     || negb (bool_decide (ps_state snapshot = PActive))
     || negb (bool_decide (ps_key_state snapshot = KActive))
     || is_some_and (λ project, negb (project =? wire_project_id)) dsn_project_id)
    ingest_unauthorized.

(** ** Fixed windows of submissions, a map behind a lock *)

Record RateWindow := { rw_opened_at : Z; rw_submissions : Z }.
Abbreviation RateWindows := (gmap Z RateWindow).
Definition WINDOW_MILLIS : Z := 60000.

Definition admit_window (windows : RateWindows) (project_id : Z) (received_at : Timestamp)
    (maximum capacity : Z) (rate_code capacity_code : string) : RateWindows * result IngestError unit :=
  match windows !! project_id with
  | Some window =>
      if WINDOW_MILLIS <=? sat_i64 (received_at - rw_opened_at window) then
        (<[project_id := {| rw_opened_at := received_at; rw_submissions := 1 |}]> windows, Ok tt)
      else if maximum <=? rw_submissions window then (windows, Err (ingest_rate_limited rate_code))
      else
        (<[project_id := {| rw_opened_at := rw_opened_at window;
                            rw_submissions := sat_u32 (rw_submissions window + 1) |}]> windows, Ok tt)
  | None =>
      if capacity <=? Z.of_nat (size windows) then (windows, Err (ingest_rate_limited capacity_code))
      else (<[project_id := {| rw_opened_at := received_at; rw_submissions := 1 |}]> windows, Ok tt)
  end.
Definition admit_feedback (config : FeedbackIngestConfig) (windows : RateWindows) (project_id : Z)
    (received_at : Timestamp) : RateWindows * result IngestError unit :=
  admit_window windows project_id received_at (fic_max_submissions_per_minute config)
    (fic_limiter_capacity config) "feedback_rate_limited" "feedback_limiter_capacity".
Definition admit_monitor (config : MonitorIngestConfig) (windows : RateWindows) (project_id : Z)
    (received_at : Timestamp) : RateWindows * result IngestError unit :=
  admit_window windows project_id received_at (mic_max_check_ins_per_minute config)
    (mic_limiter_capacity config) "monitor_rate_limited" "monitor_limiter_capacity".

(** ** The primary event *)

(** [policy.matches(fields)]; the panic of a policy that was not compiled is no
    match here ([compiled_policy_refines_rules]: there is none). *)
Definition filtered_by (policy : CompiledInboundFilterPolicy) (fields : InboundFilterFields)
    : option InboundFilterMatch := matches policy fields ≫= λ matched, matched.

Inductive ValidatedPrimaryEvent :=
| VpAccepted (event_id : bytes) (payload : bytes)
| VpFiltered (event_id : bytes) (matched : InboundFilterMatch).

Section primary.
Context {N : Type} `{!JsonApi N, !JsonPrint N} {Url : Type} `{!UrlApi Url, !HmacApi}.
Abbreviation Value := (JValue N).

Definition first_text (value : Value) (paths : list (list string)) : option str :=
  foldl (λ found path, option_or found (pointer value path ≫= as_str)) None paths.
Definition error_filter_fields (policy : CompiledInboundFilterPolicy) (value : Value)
    : InboundFilterFields :=
  let needs_request_url := has_field policy SError RequestHost || has_field policy SError RequestPath in
  let request_url :=
    if needs_request_url then (pointer value ["request"; "url"]%string ≫= as_str) ≫= url_parse else None in
  {| f_signal := SError;
     f_release := get value "release" ≫= as_str;
     f_environment := get value "environment" ≫= as_str;
     f_service := option_or (get value "server_name" ≫= as_str)
                    (pointer value ["contexts"; "trace"; "data"; "service.name"]%string ≫= as_str);
     f_message := option_or (get value "message" ≫= as_str)
       (first_text value [["message"; "formatted"]; ["message"; "message"]; ["logentry"; "formatted"];
                          ["logentry"; "message"]]%string);
     f_exception_type := pointer value ["exception"; "values"; "0"; "type"]%string ≫= as_str;
     f_logger := get value "logger" ≫= as_str;
     f_request_host := request_url ≫= url_host_str;
     f_request_path := url_path <$> request_url;
     f_severity := None; f_name := None; f_operation := None; f_status := None; f_duration_ms := None |}.

Definition validate_and_scrub_event (primary : PrimaryEvent) (envelope_event_id : option bytes)
    (snapshot : ProjectSnapshot) : result IngestError ValidatedPrimaryEvent :=
  value ← ok_or (ingest_invalid "invalid_event_json") (json_from_slice (pe_raw_json primary));
  object ← ok_or (ingest_invalid "event_not_object") (as_object value);
  if is_some_and (λ kind, bool_decide (kind = lit "transaction")) (map_get object (lit "type") ≫= as_str)
  then Err (ingest_invalid "event_type_not_error")
  else
    body_event_id ← optional_event_id (map_get object (lit "event_id")) "invalid_event_id";
    event_id ← ok_or (ingest_invalid "missing_event_id")
      (option_or (option_or body_event_id (pe_header_event_id primary)) envelope_event_id);
    if conflicting_event_id [body_event_id; pe_header_event_id primary; envelope_event_id] event_id
    then Err (ingest_invalid "conflicting_event_id")
    else
      let object := map_insert object "event_id" (JString (id_to_string event_id)) in
      value ← scrub (ps_scrub_policy snapshot) (JObject (map_remove object "project"));
      let policy := ps_inbound_filters snapshot in
      match (if has_signal policy SError then filtered_by policy (error_filter_fields policy value)
             else None) with
      | Some matched => Ok (VpFiltered event_id matched)
      | None =>
          payload ← ok_or scrub_failed (json_to_vec value);
          Ok (VpAccepted event_id payload)
      end.
End primary.

(** ** Attachments *)

(** [str::from_utf8]: the table of well-formed sequences. *)
Fixpoint utf8_valid (s : bytes) : bool :=
  match s with
  | [] => true
  | a :: s1 =>
      if in_range 0 127 a then utf8_valid s1
      else
        match s1 with
        | [] => false
        | b :: s2 =>
            if in_range 194 223 a then is_cont b && utf8_valid s2
            else
              match s2 with
              | [] => false
              | c :: s3 =>
                  if in_range 224 239 a then
                    in_range (if a =? 224 then 160 else 128) (if a =? 237 then 159 else 191) b
                    && is_cont c && utf8_valid s3
                  else
                    match s3 with
                    | [] => false
                    | d :: s4 =>
                        in_range 240 244 a
                        && in_range (if a =? 240 then 144 else 128) (if a =? 244 then 143 else 191) b
                        && is_cont c && is_cont d && utf8_valid s4
                    end
              end
        end
  end.
Definition PNG_SIGNATURE : bytes := [137; 80; 78; 71; 13; 10; 26; 10].

Section attachments.
Context {N : Type} `{!JsonApi N, !JsonPrint N, !JsonBuild N} {Url : Type} `{!UrlApi Url, !HmacApi}.
Abbreviation Value := (JValue N).

Definition scrub_safe_attachment (attachment : PendingAttachment) (snapshot : ProjectSnapshot)
    (allow_png : bool) : result IngestError (option bytes) :=
  let content_type := pa_content_type attachment in
  let bs := pa_bytes attachment in
  if one_of ["application/json"]%string content_type then
    value ← ok_or (ingest_invalid "invalid_attachment_json") (json_from_slice bs);
    value ← scrub (ps_scrub_policy snapshot) value;
    Some <$> ok_or (ingest_invalid "invalid_attachment_json") (json_to_vec value)
  else if one_of ["text/plain"]%string content_type then
    if negb (utf8_valid bs) then Err (ingest_invalid "invalid_attachment_utf8")
    else
      let lowercase := to_ascii_lowercase bs in
      if str_contains (lit "authorization:") lowercase || str_contains (lit "bearer ") lowercase
         || str_contains (lit "password") lowercase || str_contains (lit "private key") lowercase
      then Ok None else Ok (Some bs)
  else if one_of ["image/png"]%string content_type && allow_png && starts_with PNG_SIGNATURE bs
  then Ok (Some bs)
  else Ok None.

(** [slice.chunks(n)]. *)
Fixpoint chunks (fuel n : nat) (bs : bytes) : list bytes :=
  match fuel, bs with
  | O, _ | _, [] => []
  | S fuel, _ => take n bs :: chunks fuel n (drop n bs)
  end.
Definition slice_chunks (size : Z) (bs : bytes) : list bytes :=
  chunks (length bs) (Z.to_nat (Z.max size 1)) bs.

Definition attachment_type_valid (attachment_type : str) : bool :=
  non_empty attachment_type && (len attachment_type <=? 128) && negb (any_control attachment_type).
(** What the loop does after the blob is stored. *)
Definition stored_attachment (attachment : PendingAttachment) (object_id checksum : bytes)
    (blob : BlobObject) : result IngestError EventAttachment :=
  if negb (bool_decide (bo_checksum blob = checksum)) then Err (ingest_unavailable "blob_checksum_mismatch")
  else
    filename ← map_err (λ _, ingest_invalid "invalid_attachment_filename")
                 (attachment_filename_sanitized (pa_filename attachment));
    content_type ← map_err (λ _, ingest_invalid "invalid_attachment_content_type")
                     (blob_content_type_new (pa_content_type attachment));
    if negb (attachment_type_valid (pa_attachment_type attachment))
    then Err (ingest_invalid "invalid_attachment_type")
    else Ok {| ea_attachment_id := object_id; ea_blob := blob; ea_filename := filename;
               ea_content_type := content_type; ea_attachment_type := pa_attachment_type attachment |}.

Definition attachment_json (a : EventAttachment) : Value :=
  json_object
    [("attachment_id"%string, JString (hex_encode (ea_attachment_id a)));
     ("blob_key"%string, JString (bo_key (ea_blob a)));
     ("filename"%string, JString (ea_filename a));
     ("content_type"%string, JString (ea_content_type a));
     ("attachment_type"%string, JString (ea_attachment_type a));
     ("size"%string, JNumber (number_of_u64 (bo_size (ea_blob a))));
     ("checksum"%string, JString (hex_encode (bo_checksum (ea_blob a))));
     ("created_at"%string, JNumber (number_of_i64 (bo_created_at (ea_blob a))))].
Definition append_attachment_metadata (payload : bytes) (attachments : list EventAttachment)
    : result IngestError bytes :=
  event ← ok_or (ingest_invalid "invalid_event_json") (json_from_slice payload);
  object ← ok_or (ingest_invalid "event_not_object") (as_object event);
  ok_or scrub_failed
    (json_to_vec (JObject (map_insert object "attachments" (JArray (map attachment_json attachments))))).

(** ** Minidumps *)

Definition le_u32 (bs : bytes) : Z := be_val (reverse bs).
Definition validate_minidump_header (header : bytes) (total_size : Z) : result IngestError unit :=
  if (len header <? 32) || negb (starts_with (lit "MDMP") header)
  then Err (ingest_invalid "invalid_minidump")
  else
    let streams := le_u32 (take 4 (drop 8 header)) in
    let directory := le_u32 (take 4 (drop 12 header)) in
    if (streams =? 0) || (4096 <? streams) then Err (ingest_invalid "invalid_minidump_directory")
    else
      directory_end ← ok_or (ingest_invalid "invalid_minidump_directory")
        (checked_u64 (directory + sat_u64 (streams * 12)));
      guard_err ((directory <? 32) || (total_size <? directory_end))
        (ingest_invalid "invalid_minidump_directory").

Definition minidump_payload (event_id object_id : bytes) (received_at : Timestamp) (blob : BlobObject)
    : result IngestError bytes :=
  ok_or (ingest_invalid "invalid_minidump_event") (json_to_vec (json_object
    [("event_id"%string, JString (id_to_string event_id));
     ("platform"%string, JString (lit "native"));
     ("level"%string, JString (lit "fatal"));
     ("timestamp"%string, value_of_f64 (f64_div (f64_of_i64 received_at) (f64_of_i64 1000)));
     ("mechanism"%string, json_object [("type"%string, JString (lit "minidump"))]);
     ("native_crash"%string, json_object
       [("kind"%string, JString (lit "minidump"));
        ("blob_key"%string, JString (bo_key blob));
        ("object_id"%string, JString (hex_encode object_id));
        ("size"%string, JNumber (number_of_u64 (bo_size blob)));
        ("checksum"%string, JString (hex_encode (bo_checksum blob)))])])).
End attachments.

(** The identities are digests of a domain, the project and the content. *)
Definition attachment_object_id `{!Blake3} (project_id : Z) (event_id : bytes) (position : Z)
    (checksum : bytes) : bytes :=
  take 16 (blake3 (lit "metric:event-attachment:v1" ++ be_bytes 4 project_id ++ event_id
                   ++ be_bytes 4 position ++ checksum)).
Definition minidump_event_id `{!Blake3} (project_id : Z) (checksum : bytes) : bytes :=
  take 16 (blake3 (lit "metric:minidump-event:v1" ++ be_bytes 4 project_id ++ checksum)).
Definition minidump_object_id `{!Blake3} (project_id : Z) (event_id checksum : bytes) : bytes :=
  take 16 (blake3 (lit "metric:minidump-object:v1" ++ be_bytes 4 project_id ++ event_id ++ checksum)).

(** ** The key of a request *)

Lemma one_auth_key_Ok keys key : one_auth_key keys = Ok key ↔
  ∃ n, keys = replicate n key ∧ (1 ≤ n ≤ 4)%nat.
Proof.
  unfold one_auth_key, MAX_AUTH_SOURCES, len. destruct keys as [|first keys].
  - split; [done|]. by intros ([|n] & E & ?); [lia|].
  - destruct (Z.ltb_spec 4 (Z.of_nat (length (first :: keys)))) as [Hl|Hl].
    { split; [done|]. intros (n & E & Hn). rewrite E, length_replicate in Hl. lia. }
    destruct (existsb _ _) eqn:E.
    + split; [done|]. intros (n & En & Hn). apply not_false_iff_true in E. destruct E.
      apply existsb_false. intros k Hk. rewrite En in Hk. apply elem_of_replicate in Hk as [-> _].
      destruct n; [lia|]. injection En as -> _. apply negb_false_iff. by apply bool_decide_eq_true.
    + rewrite existsb_false in E. assert (∀ k, k ∈ first :: keys → k = first) as Hk.
      { intros k Hk%E. apply negb_false_iff in Hk. by apply bool_decide_eq_true in Hk. }
      split.
      * intros [= <-]. exists (length (first :: keys)). split; [|cbn in *; lia].
        symmetry. apply replicate_as_elem_of. split; [done|]. intros k. by apply Hk.
      * intros ([|n] & En & Hn); [lia|]. by injection En as -> _.
Qed.

(** ** The limiter *)

Definition sorted_from (t : Z) (calls : list (Z * Timestamp)) : Prop :=
  Sorted.StronglySorted Z.le (t :: map snd calls).
Lemma sorted_from_cons t p u calls : sorted_from t ((p, u) :: calls) ↔ t ≤ u ∧ sorted_from u calls.
Proof.
  unfold sorted_from. cbn. split.
  - intros Hs. inversion_clear Hs as [|? ? Hs' Hf]. split; [by inversion_clear Hf|done].
  - intros [Ht Hs]. constructor; [done|]. inversion_clear Hs as [|? ? Hs' Hf]. constructor; [done|].
    eapply Forall_impl; [exact Hf|]. cbn. lia.
Qed.

Section limiter.
Context (maximum capacity : Z) (rate_code capacity_code : string).
Context (Hmaximum : 0 ≤ maximum ≤ U32_MAX).

(** The calls of a limiter in their order: which were admitted. *)
Fixpoint admissions (windows : RateWindows) (calls : list (Z * Timestamp)) : list bool :=
  match calls with
  | [] => []
  | (project_id, at_) :: calls =>
      let '(windows, r) := admit_window windows project_id at_ maximum capacity rate_code capacity_code in
      is_ok r :: admissions windows calls
  end.
(** How many calls of a project were admitted in a minute that starts at [a]. *)
Definition in_minute (project_id a : Z) (call : (Z * Timestamp) * bool) : bool :=
  call.2 && (call.1.1 =? project_id) && (a <=? call.1.2) && (call.1.2 <? a + WINDOW_MILLIS).
Definition admitted_in (project_id a : Z) (windows : RateWindows) (calls : list (Z * Timestamp)) : Z :=
  len (List.filter (in_minute project_id a) (zip calls (admissions windows calls))).

Let M := Z.max 1 maximum.
Definition counted (windows : RateWindows) : Prop :=
  ∀ p w, windows !! p = Some w → 1 ≤ rw_submissions w ≤ M.
(** What a project may still be admitted in the minute. *)
Definition budget (a : Z) (o : option RateWindow) : Z :=
  match o with
  | Some w => M - rw_submissions w + (if rw_opened_at w <? a then M else 0)
  | None => 2 * M
  end.

Lemma sat_i64_window x : (WINDOW_MILLIS <=? sat_i64 x) = (WINDOW_MILLIS <=? x).
Proof.
  unfold WINDOW_MILLIS, sat_i64, saturate, I64_MIN, I64_MAX.
  destruct (Z.leb_spec 60000 x); [apply Z.leb_le|apply Z.leb_gt]; lia.
Qed.
Lemma admit_window_counted windows p t : counted windows →
  counted (admit_window windows p t maximum capacity rate_code capacity_code).1.
Proof.
  intros Hc. unfold admit_window. destruct (windows !! p) as [w|] eqn:Hp.
  - rewrite sat_i64_window. apply Hc in Hp as Hw. destruct (_ <=? _) eqn:E1.
    + cbn [fst]; intros q v [[_ <-]|[_ Hq]]%lookup_insert_Some; [cbn; lia|by eapply Hc].
    + destruct (Z.leb_spec maximum (rw_submissions w)); [done|].
      cbn [fst]; intros q v [[_ <-]|[_ Hq]]%lookup_insert_Some; [|by eapply Hc].
      cbn. unfold sat_u32, saturate, U32_MAX in *. lia.
  - destruct (_ <=? _); [done|]. cbn [fst]; intros q v [[_ <-]|[_ Hq]]%lookup_insert_Some; [cbn; lia|by eapply Hc].
Qed.
Lemma admit_window_other windows p q t : p ≠ q →
  (admit_window windows p t maximum capacity rate_code capacity_code).1 !! q = windows !! q.
Proof.
  intros Hn. unfold admit_window. destruct (windows !! p) as [w|];
    repeat case_match; cbn; try done; by rewrite lookup_insert_ne.
Qed.

Lemma admitted_in_cons p a windows q t calls :
  admitted_in p a windows ((q, t) :: calls) =
  (let '(w, r) := admit_window windows q t maximum capacity rate_code capacity_code in
   (if is_ok r && (q =? p) && (a <=? t) && (t <? a + WINDOW_MILLIS) then 1 else 0) + admitted_in p a w calls).
Proof.
  unfold admitted_in. cbn [admissions]. destruct (admit_window _ _ _ _ _ _ _) as [w r]. cbn [zip zip_with List.filter].
  unfold in_minute at 1. cbn [fst snd]. destruct (_ && _); [by rewrite len_cons|lia].
Qed.
Lemma admitted_in_late p a calls : ∀ windows t, sorted_from t calls → a + WINDOW_MILLIS ≤ t →
  admitted_in p a windows calls = 0.
Proof.
  induction calls as [|[q u] calls IH]; intros windows t Hs Ht; [done|].
  apply sorted_from_cons in Hs as [Hu Hs]. rewrite admitted_in_cons.
  destruct (admit_window _ _ _ _ _ _ _) as [w r]. rewrite (IH w u) by (done || lia).
  replace (u <? a + WINDOW_MILLIS) with false by (symmetry; apply Z.ltb_ge; lia). by rewrite andb_false_r.
Qed.
Lemma admitted_in_budget p a calls : ∀ windows t, sorted_from t calls → a ≤ t → counted windows →
  admitted_in p a windows calls ≤ budget a (windows !! p).
Proof.
  induction calls as [|[q u] calls IH]; intros windows t Hs Ht Hc.
  - change (admitted_in p a windows []) with 0. assert (1 ≤ M) as HM by (unfold M; lia). unfold budget. destruct (windows !! p) as [w|] eqn:Hp; [|lia].
    apply Hc in Hp. destruct (_ <? _); lia.
  - apply sorted_from_cons in Hs as [Hu Hs]. rewrite admitted_in_cons.
    pose proof (admit_window_counted windows q u Hc) as Hc'.
    pose proof (admit_window_other windows q p u) as Ho.
    destruct (admit_window windows q u _ _ _ _) as [w r] eqn:Ew. cbn [fst] in *.
    specialize (IH w u Hs ltac:(lia) Hc').
    destruct (Z.eqb_spec q p) as [->|Hq]; [|rewrite Ho in IH by done; rewrite andb_false_r; cbn [andb]; lia].
    clear Ho. replace (a <=? u) with true by (symmetry; apply Z.leb_le; lia). rewrite !andb_true_r.
    unfold admit_window in Ew. destruct (windows !! p) as [v|] eqn:Hp.
    + rewrite sat_i64_window in Ew. apply Hc in Hp as Hv.
      destruct (Z.leb_spec WINDOW_MILLIS (u - rw_opened_at v)) as [Hopen|Hopen].
      * injection Ew as <- <-. rewrite lookup_insert_eq in IH. unfold budget in *.
        cbn [rw_opened_at rw_submissions is_ok andb] in *.
        destruct (Z.ltb_spec u a); [lia|]. destruct (Z.ltb_spec (rw_opened_at v) a); [case_match; lia|].
        rewrite (admitted_in_late p a calls _ u) by (done || lia).
        destruct (Z.ltb_spec u (a + WINDOW_MILLIS)); lia.
      * destruct (Z.leb_spec maximum (rw_submissions v)); injection Ew as <- <-; cbn [is_ok andb].
        { by rewrite Hp in IH. }
        rewrite lookup_insert_eq in IH. unfold budget in *. cbn [rw_opened_at rw_submissions] in *.
        assert (sat_u32 (rw_submissions v + 1) = rw_submissions v + 1) as Hsat
          by (unfold sat_u32; apply saturate_exact; lia).
        rewrite Hsat in *. destruct (rw_opened_at v <? a), (u <? a + WINDOW_MILLIS); lia.
    + destruct (_ <=? Z.of_nat _); injection Ew as <- <-; cbn [is_ok andb].
      { by rewrite Hp in IH. }
      rewrite lookup_insert_eq in IH. unfold budget in *. cbn [rw_opened_at rw_submissions] in *.
      destruct (Z.ltb_spec u a); [lia|]. case_match; lia.
Qed.

Lemma admitted_in_double p a calls : ∀ windows t, sorted_from t calls → counted windows →
  admitted_in p a windows calls ≤ 2 * M.
Proof.
  assert (1 ≤ M) as HM by (unfold M; lia).
  induction calls as [|[q u] calls IH]; intros windows t Hs Hc.
  { change (admitted_in p a windows []) with 0. lia. }
  destruct (Z.le_gt_cases a u) as [Ha|Ha].
  - assert (sorted_from u ((q, u) :: calls)) as Hu.
    { apply sorted_from_cons in Hs as [_ Hs]. by apply sorted_from_cons. }
    pose proof (admitted_in_budget p a _ windows u Hu Ha Hc) as Hb.
    unfold budget in Hb. destruct (windows !! p) as [w|] eqn:Hp; [|lia].
    apply Hc in Hp. destruct (_ <? _); lia.
  - apply sorted_from_cons in Hs as [_ Hs]. rewrite admitted_in_cons.
    pose proof (admit_window_counted windows q u Hc) as Hc'.
    destruct (admit_window windows q u _ _ _ _) as [w r]. specialize (IH w u Hs Hc').
    replace (a <=? u) with false by (symmetry; apply Z.leb_gt; lia). rewrite andb_false_r. cbn [andb]. lia.
Qed.
End limiter.

(** What the fixed windows promise: from an empty limiter and with times that
    do not go back, no project has more than twice its maximum admitted within any
    minute, whatever the other projects do. *)
Theorem limiter_bounds_minutes maximum capacity rate_code capacity_code calls p a :
  0 ≤ maximum ≤ U32_MAX → Sorted.StronglySorted Z.le (map snd calls) →
  admitted_in maximum capacity rate_code capacity_code p a ∅ calls ≤ 2 * Z.max 1 maximum.
Proof.
  intros Hm Hs. destruct calls as [|[q t] calls].
  { change (0 ≤ 2 * Z.max 1 maximum). lia. }
  apply admitted_in_double with (t := t); [done| |by intros ? ?].
  apply (proj2 (sorted_from_cons t q t calls)). split; [lia|exact Hs].
Qed.
Lemma limiter_bounds_minutes_witness :
  Sorted.StronglySorted Z.le (map snd [(7, 59999); (7, 60000); (7, 119999)])
  ∧ admissions 1 10 "rate" "capacity" ∅ [(7, 59999); (7, 60000); (7, 119999)] = [true; false; true]
  ∧ admitted_in 1 10 "rate" "capacity" 7 60000 ∅ [(7, 59999); (7, 60000); (7, 119999)] ≤ 2.
Proof.
  assert (Sorted.StronglySorted Z.le (map snd [(7, 59999); (7, 60000); (7, 119999)])) as Hs
    by (repeat constructor; discriminate).
  split; [exact Hs|]. split; [reflexivity|].
  apply (limiter_bounds_minutes 1 10 "rate" "capacity" [(7, 59999); (7, 60000); (7, 119999)] 7 60000);
    [split; discriminate|exact Hs].
Defined.

(** A limiter that is full refuses every project it does not hold yet, however long
    ago the windows it holds were opened: nothing is ever evicted. *)
Theorem full_limiter_never_admits maximum capacity rate_code capacity_code p calls : ∀ windows,
  capacity ≤ Z.of_nat (size windows) → windows !! p = None →
  ∀ at_ admitted, ((p, at_), admitted) ∈ zip calls (admissions maximum capacity rate_code capacity_code windows calls) →
    admitted = false.
Proof.
  induction calls as [|[q u] calls IH]; intros windows Hfull Hp t b Hin.
  { by apply elem_of_nil in Hin. }
  cbn [admissions] in Hin. unfold admit_window in Hin. destruct (windows !! q) as [w|] eqn:Hq.
  - assert (p ≠ q) as Hn by congruence.
    assert (∀ v, capacity ≤ Z.of_nat (size (<[q:=v]> windows)) ∧ <[q:=v]> windows !! p = None) as Hv.
    { intros v. rewrite map_size_insert_Some by (by eexists). by rewrite lookup_insert_ne. }
    destruct (WINDOW_MILLIS <=? _); [|destruct (maximum <=? _)]; cbn in Hin;
      apply elem_of_cons in Hin as [[= -> _ _]|Hin]; try done;
      (eapply IH; [| |exact Hin]); try done; apply Hv.
  - replace (capacity <=? Z.of_nat (size windows)) with true in Hin by (symmetry; by apply Z.leb_le).
    cbn in Hin. apply elem_of_cons in Hin as [[= -> _ ->]|Hin]; [done|by eapply IH].
Qed.

(** ** Chunks, minidumps and attachments *)

Lemma chunks_concat n fuel : ∀ bs, (1 ≤ n)%nat → (length bs ≤ fuel)%nat → concat (chunks fuel n bs) = bs.
Proof.
  induction fuel as [|fuel IH]; intros [|b bs] Hn Hf; cbn in *; try done; [lia|].
  rewrite <- (take_drop n (b :: bs)) at 3. destruct n as [|n]; [lia|]. cbn. f_equal. f_equal.
  apply IH; [lia|]. rewrite length_drop. lia.
Qed.
Lemma slice_chunks_concat size bs : concat (slice_chunks size bs) = bs.
Proof. apply chunks_concat; lia. Qed.

(** The minidump headers that are accepted: at least 32 bytes with the signature,
    and a directory of 1 to 4096 streams that lies behind the header and within
    the file. *)
Theorem minidump_header_exact header total_size :
  Forall is_byte header →
  validate_minidump_header header total_size = Ok tt ↔
  32 ≤ len header ∧ (∃ rest, header = lit "MDMP" ++ rest)
  ∧ let streams := le_u32 (take 4 (drop 8 header)) in
    let directory := le_u32 (take 4 (drop 12 header)) in
    1 ≤ streams ≤ 4096 ∧ 32 ≤ directory ∧ directory + 12 * streams ≤ total_size.
Proof.
  intros Hb. unfold validate_minidump_header. cbv zeta.
  assert (∀ k, 0 ≤ le_u32 (take 4 (drop k header)) < 2 ^ 32) as Hu.
  { intros k. unfold le_u32.
    assert (Forall is_byte (reverse (take 4 (drop k header)))) as Hr
      by (by apply Forall_reverse, Forall_take, Forall_drop).
    pose proof (be_val_bound _ Hr) as Hbd. unfold len in Hbd. rewrite length_reverse, length_take, length_drop in Hbd.
    split; [lia|]. eapply Z.lt_le_trans; [apply Hbd|].
    change (2 ^ 32) with (256 ^ 4). apply Z.pow_le_mono_r; lia. }
  pose proof (Hu 8%nat) as Hstreams. pose proof (Hu 12%nat) as Hdir. clear Hu.
  set (streams := le_u32 _) in *. set (directory := le_u32 (take 4 (drop 12 header))) in *. clearbody streams directory.
  rewrite <- starts_with_true. destruct (Z.ltb_spec (len header) 32).
  { split; [done|]. intros [? _]. lia. }
  destruct (starts_with _ _); [|split; [done|by intros (_ & ? & _)]]. cbn [orb negb].
  destruct (Z.eqb_spec streams 0); [split; [done|lia]|]. destruct (Z.ltb_spec 4096 streams); [split; [done|lia]|].
  cbn [orb]. assert (sat_u64 (streams * 12) = streams * 12) as ->
    by (unfold sat_u64; apply saturate_exact; unfold U64_MAX; lia).
  unfold checked_u64. rewrite checked_exact by (unfold U64_MAX; lia). cbn [ok_or mbind result_bind].
  rewrite guard_err_Ok, orb_false_iff, !Z.ltb_ge. split; [intros [? ?]; split_and!; try done; lia|lia].
Qed.
Definition sample_header : bytes :=
  lit "MDMP" ++ [147; 167; 0; 0; 2; 0; 0; 0; 32; 0; 0; 0] ++ replicate 16 0.
Lemma minidump_header_exact_witness :
  Forall is_byte sample_header ∧ validate_minidump_header sample_header 56 = Ok tt
  ∧ validate_minidump_header sample_header 55 ≠ Ok tt.
Proof.
  assert (Forall is_byte sample_header) as Hb by (repeat constructor; discriminate).
  split; [exact Hb|]. split.
  - apply (minidump_header_exact sample_header 56 Hb). split; [discriminate|]. split; [by eexists|].
    vm_compute. repeat split; discriminate.
  - intros E. apply (minidump_header_exact sample_header 55 Hb) in E as (_ & _ & _ & _ & Hlt).
    by apply Hlt.
Defined.

Section theory.
Context {N : Type} `{HJ : !JsonApi N, HP : !JsonPrint N} {Url : Type} `{HU : !UrlApi Url, HH : !HmacApi}.

(** The fields an event is filtered by, when there is a rule for errors. *)
Definition event_matched (snapshot : ProjectSnapshot) (clean_ : JValue N) : option InboundFilterMatch :=
  let policy := ps_inbound_filters snapshot in
  if has_signal policy SError then filtered_by policy (error_filter_fields policy clean_) else None.

(** What is stored of an event: *)
Definition event_stored (snapshot : ProjectSnapshot) (primary : PrimaryEvent) (envelope : option bytes)
    (event_id payload : bytes) : Prop :=
  ∃ body body_id clean_,
    json_from_slice (pe_raw_json primary) = Some (JObject body)
    ∧ optional_event_id (map_get body (lit "event_id")) "invalid_event_id" = Ok body_id
    ∧ (∀ i, Some i ∈ [body_id; pe_header_event_id primary; envelope] → i = event_id)
    ∧ Some event_id ∈ [body_id; pe_header_event_id primary; envelope]
    ∧ scrub (ps_scrub_policy snapshot)
        (JObject (map_remove (map_insert body "event_id" (JString (id_to_string event_id))) "project"))
      = Ok clean_
    ∧ clean (Url := Url) (ps_scrub_policy snapshot) None clean_
    ∧ event_matched snapshot clean_ = None
    ∧ json_to_vec clean_ = Some payload.

Lemma validate_and_scrub_event_Accepted primary envelope snapshot id payload :
  validate_and_scrub_event (Url := Url) primary envelope snapshot = Ok (VpAccepted id payload) →
  event_stored snapshot primary envelope id payload.
Proof.
  unfold validate_and_scrub_event. intros E. bind_ok E as (v & Hv & E). bind_ok E as (body & Hb & E).
  apply ok_or_Ok in Hv, Hb. destruct v; try done. injection Hb as ->.
  destruct (is_some_and _ _); [done|]. bind_ok E as (body_id & Hid & E). bind_ok E as (i & Hi & E).
  apply ok_or_Ok in Hi. destruct (conflicting_event_id _ _) eqn:Hc; [done|]. rewrite conflicting_event_id_false in Hc.
  cbv zeta in E. bind_ok E as (w & Hw & E). destruct (if has_signal _ _ then _ else None) eqn:Hm; [done|].
  bind_ok E as (p & Hp & E). apply ok_or_Ok in Hp. injection E as <- <-.
  exists body, body_id, w. split_and!; try done; [|by eapply scrub_value_clean].
  destruct body_id as [b|]; [injection Hi as ->; set_solver|].
  destruct (pe_header_event_id primary) as [b|]; [injection Hi as ->; set_solver|]. cbn in Hi. subst. set_solver.
Qed.
End theory.
