(* ===== verification/IngestService.v ===== *)
(** * The ingestion service

    [IngestService] of [application/src/ingest.rs]: [ingest], [ingest_feedback] and
    [ingest_minidump] with all they do, as programs ([Effects]) over the calls of
    the resolver, the sinks, the blob store, the clock, the two limiters behind
    their locks and the storage permits.  [select!] with the shutdown signal is
    one call, answered [None] when the signal came first.  Counters of the
    [metrics] crate are not modelled. *)
From stdpp Require Import base list numbers strings sets gmap sorting.
From Stdlib Require Import ZArith Lia SpecFloat.
From S2P Require Import Prelude External Float Primitives Identity Sessions InboundFilter Monitors Effects Dispatcher EventWriter Signals Metrics SignalWriters Event Normalizer JsonValue IpAddr Scrub Blobs IngestSignals IngestChecks IngestMetrics IngestReplays IngestFeedback Ingest.

Open Scope prog_scope.

Inductive IngestOutcomeKind :=
| OkAccepted | OkDuplicate | OkInvalid | OkTooLarge | OkRateLimited | OkUnsupported
| OkStorageUnavailable | OkFiltered.
Record IngestOutcome := { io_kind : IngestOutcomeKind; io_reason : string; io_quantity : Z }.

(** ** The ports *)

(** A write session of the blob store is named by what [begin] answers. *)
Inductive IngestCall :=
| IsCancelled
| ResolveIngest (key : bytes)
| ResolveOrShutdown (key : bytes)
| RecordOutcome (outcome : IngestOutcome)
| Now
| AdmitMonitor (project_id : Z) (received_at : Timestamp)
| AdmitFeedback (project_id : Z) (received_at : Timestamp)
| PersistLogs (logs : list LogRecord)
| PersistSpans (spans : list SpanRecord)
| PersistSessions (sessions : list SessionUpdate)
| PersistMonitors (updates : list MonitorUpdate)
| PersistMetrics (batch : MetricDeltaBatch)
| PersistReplay (submission : ReplaySubmission)
| AcquirePermit
| ReleasePermit
| PersistEventOrShutdown (accepted : AcceptedEvent)
| PersistEvent (accepted : AcceptedEvent)
| PersistFeedbackOrShutdown (feedback : FeedbackRecord)
| BeginBlob (kind : BlobKind) (created_at : Timestamp)
| WriteChunk (session : Z) (chunk : bytes)
| CommitBlob (session : Z) (key : BlobKey)
| AbortBlob (session : Z)
| NextChunk (maximum : Z).
Definition ingest_answer (c : IngestCall) : Type :=
  match c with
  | IsCancelled => bool
  | ResolveIngest _ => result ProjectResolveError (ProjectSnapshot * Z)
  | ResolveOrShutdown _ => option (result ProjectResolveError (ProjectSnapshot * Z))
  | RecordOutcome _ => unit
  | Now => Timestamp
  | AdmitMonitor _ _ | AdmitFeedback _ _ => result IngestError unit
  | PersistLogs _ | PersistSpans _ | PersistSessions _ | PersistMonitors _ =>
      result SignalStoreError (list DurableOutcome)
  | PersistMetrics _ | PersistReplay _ => result SignalStoreError DurableOutcome
  | AcquirePermit => bool
  | ReleasePermit => unit
  | PersistEventOrShutdown _ => option (result EventSinkError DurableOutcome)
  | PersistEvent _ => result EventSinkError DurableOutcome
  | PersistFeedbackOrShutdown _ => option (result FeedbackStoreError DurableOutcome)
  | BeginBlob _ _ => result BlobStoreError Z
  | WriteChunk _ _ | AbortBlob _ => result BlobStoreError unit
  | CommitBlob _ _ => result BlobStoreError BlobObject
  | NextChunk _ => result BlobStoreError (option bytes)
  end.
Definition IngestSig : signature := Signature IngestCall ingest_answer.
Abbreviation ingesting A := (prog IngestSig (result IngestError A)).

(** The fields of the service: which sinks it has, and their configurations. *)
Record IngestService := {
  sv_blob_store : bool;
  sv_attachment_config : AttachmentIngestConfig;
  sv_minidump_config : MinidumpIngestConfig;
  sv_log_sink : bool;
  sv_span_sink : bool;
  sv_session_sink : bool;
  sv_feedback_sink : bool;
  sv_feedback_config : FeedbackIngestConfig;
  sv_monitor_sink : bool;
  sv_monitor_config : MonitorIngestConfig;
  sv_metric_sink : bool;
  sv_metric_config : MetricIngestConfig;
  sv_replay_sink : bool;
  sv_replay_config : ReplayIngestConfig;
}.
Definition ingest_service_new : IngestService :=
  {| sv_blob_store := false; sv_attachment_config := attachment_ingest_default;
     sv_minidump_config := minidump_ingest_default; sv_log_sink := false; sv_span_sink := false;
     sv_session_sink := false; sv_feedback_sink := false; sv_feedback_config := feedback_ingest_default;
     sv_monitor_sink := false; sv_monitor_config := monitor_ingest_default; sv_metric_sink := false;
     sv_metric_config := metric_ingest_default; sv_replay_sink := false;
     sv_replay_config := replay_ingest_default |}.

Definition record_outcome (kind : IngestOutcomeKind) (reason : string) (quantity : Z)
    : prog IngestSig unit :=
  perform (E := IngestSig) (RecordOutcome {| io_kind := kind; io_reason := reason; io_quantity := quantity |}).
Definition record_durable (durable : DurableOutcome) (reason : string) : prog IngestSig unit :=
  record_outcome (match durable with Accepted => OkAccepted | DuplicateOutcome => OkDuplicate end) reason 1.
Definition record_filtered (matched : InboundFilterMatch) : prog IngestSig unit :=
  record_outcome OkFiltered "inbound_filter" 1.
Definition disabled_feature (quantity : Z) (categories : list string) : ingesting (list string) :=
  _ ← record_outcome OkUnsupported "feature_disabled" quantity;
  Ret (Ok categories).
(** [self.sink.as_ref().ok_or_else(..)?]. *)
Definition require_sink {A} (sink : bool) (code : string) (k : ingesting A) : ingesting A :=
  if sink then k else Ret (Err (ingest_unavailable code)).
(** [storage_permits.try_acquire_owned()]: the permit is released when the method
    returns. *)
Definition with_permit {A} (k : ingesting A) : ingesting A :=
  acquired ← perform (E := IngestSig) AcquirePermit;
  if (acquired : bool) then
    r ← k;
    _ ← perform (E := IngestSig) ReleasePermit;
    Ret r
  else Ret (Err (ingest_unavailable "storage_wait_capacity")).
Definition or_shutdown {X A} (p : prog IngestSig (option (result X A))) (f : X → IngestError)
    : ingesting A :=
  r ← p;
  Ret (match r with None => Err shutting_down | Some r => map_err f r end).

(** [sort_unstable] and [dedup], or a [BTreeSet]. *)
Definition sort_names (names : list string) : list string :=
  dedup (merge_sort (λ a b : string, Is_true (String.leb a b)) names).

Section service.
Context {N : Type} `{!JsonApi N, !JsonPrint N, !JsonStream N, !JsonBuild N} `{!Blake3, !Log2}.
Context {Url : Type} `{!UrlApi Url, !HmacApi, !UuidApi, !Rfc3339Api, !TimeApi, !ZlibApi}.
Context (service : IngestService).

(** ** Signals *)

Record SignalScan := {
  sn_logs : list LogRecord;
  sn_spans : list SpanRecord;
  sn_sessions : list SessionUpdate;
  sn_disabled : list string;
}.
(** The records no inbound filter matches; the others are counted. *)
Fixpoint keep_unfiltered {R} (matched : R → option InboundFilterMatch) (records : list R)
    : prog IngestSig (list R) :=
  match records with
  | [] => Ret []
  | record :: records =>
      match matched record with
      | Some m => _ ← record_filtered m; keep_unfiltered matched records
      | None => kept ← keep_unfiltered matched records; Ret (record :: kept)
      end
  end.
Definition log_matched (snapshot : ProjectSnapshot) (record : LogRecord) : option InboundFilterMatch :=
  filtered_by (ps_inbound_filters snapshot) (log_filter_fields record).
Definition span_matched (snapshot : ProjectSnapshot) (signal : InboundFilterSignal) (record : SpanRecord)
    : option InboundFilterMatch :=
  filtered_by (ps_inbound_filters snapshot) (span_filter_fields record signal).
Definition transaction_matched (snapshot : ProjectSnapshot) (record : SpanRecord)
    : option InboundFilterMatch :=
  span_matched snapshot (if sr_is_segment record then STransaction else SSpan) record.

Definition signal_disabled (scan : SignalScan) (name : string) : ingesting SignalScan :=
  _ ← record_outcome OkUnsupported "feature_disabled" 1;
  Ret (Ok {| sn_logs := sn_logs scan; sn_spans := sn_spans scan; sn_sessions := sn_sessions scan;
             sn_disabled := sn_disabled scan ++ [name] |}).
Definition add_spans (scan : SignalScan) (spans : list SpanRecord) : SignalScan :=
  {| sn_logs := sn_logs scan; sn_spans := sn_spans scan ++ spans; sn_sessions := sn_sessions scan;
     sn_disabled := sn_disabled scan |}.
Definition scan_signal (snapshot : ProjectSnapshot) (received_at : Timestamp) (scan : SignalScan)
    (signal : PendingSignal) : ingesting SignalScan :=
  let items := ps_items snapshot in
  let raw_json := pg_raw_json signal in
  if max_event_bytes (ps_limits snapshot) <? len raw_json
  then Ret (Err (ingest_too_large "project_signal_too_large"))
  else
    match pg_kind signal with
    | PkLog =>
        if ic_log items then
          records ←! normalize_logs snapshot received_at raw_json;
          kept ← keep_unfiltered (log_matched snapshot) records;
          Ret (Ok {| sn_logs := sn_logs scan ++ kept; sn_spans := sn_spans scan;
                     sn_sessions := sn_sessions scan; sn_disabled := sn_disabled scan |})
        else signal_disabled scan "log"
    | PkTransaction =>
        if ic_transaction items then
          records ←! normalize_transaction snapshot received_at raw_json;
          kept ← keep_unfiltered (transaction_matched snapshot) records;
          Ret (Ok (add_spans scan kept))
        else signal_disabled scan "transaction"
    | PkSpan =>
        if ic_span items then
          records ←! normalize_spans snapshot received_at raw_json;
          kept ← keep_unfiltered (span_matched snapshot SSpan) records;
          Ret (Ok (add_spans scan kept))
        else signal_disabled scan "span"
    | PkSession =>
        update ←! normalize_session snapshot received_at raw_json;
        Ret (Ok {| sn_logs := sn_logs scan; sn_spans := sn_spans scan;
                   sn_sessions := sn_sessions scan ++ [update]; sn_disabled := sn_disabled scan |})
    end.
Fixpoint scan_signals (snapshot : ProjectSnapshot) (received_at : Timestamp) (scan : SignalScan)
    (signals : list PendingSignal) : ingesting SignalScan :=
  match signals with
  | [] => Ret (Ok scan)
  | signal :: signals =>
      scan ←? scan_signal snapshot received_at scan signal;
      scan_signals snapshot received_at scan signals
  end.
(** One lane of [persist_signals]: nothing when there is no record. *)
Definition persist_lane {R X} (records : list R) (sink : bool) (code reason : string)
    (f : X → IngestError) (p : list R → prog IngestSig (result X (list DurableOutcome)))
    : ingesting unit :=
  if is_empty records then Ret (Ok tt)
  else
    require_sink sink code
      (_ ←? map_err_p f (p records);
       _ ← record_outcome OkAccepted reason (len records);
       Ret (Ok tt)).
Definition persist_signals (snapshot : ProjectSnapshot) (signals : list PendingSignal)
    : ingesting (list string) :=
  if is_empty signals then Ret (Ok [])
  else
    received_at ← perform (E := IngestSig) Now;
    scan ←? scan_signals snapshot received_at
      {| sn_logs := []; sn_spans := []; sn_sessions := []; sn_disabled := [] |} signals;
    _ ←? persist_lane (sn_logs scan) (sv_log_sink service) "log_storage_unavailable" "log"
           map_signal_store_error (λ logs, perform (E := IngestSig) (PersistLogs logs));
    _ ←? persist_lane (sn_spans scan) (sv_span_sink service) "span_storage_unavailable" "span"
           map_span_sink_error (λ spans, perform (E := IngestSig) (PersistSpans spans));
    _ ←? persist_lane (sn_sessions scan) (sv_session_sink service) "session_storage_unavailable"
           "session" map_signal_store_error
           (λ sessions, perform (E := IngestSig) (PersistSessions sessions));
    Ret (Ok (sort_names (sn_disabled scan))).

(** ** Metrics, replays and check-ins *)

Fixpoint fold_containers (snapshot : ProjectSnapshot) (received_at : Timestamp)
    (batch : MetricDeltaBatch) (containers : list PendingMetricContainer)
    : result IngestError MetricDeltaBatch :=
  match containers with
  | [] => Ok batch
  | container :: containers =>
      if max_event_bytes (ps_limits snapshot) <? len (pm_raw_json container)
      then Err (ingest_too_large "project_metric_container_too_large")
      else
        folded ← fold_metric_container snapshot received_at (sv_metric_config service) (pm_raw_json container);
        if negb (mb_source_measurements folded =? pm_item_count container)
        then Err (ingest_invalid "metric_item_count_mismatch")
        else fold_containers snapshot received_at (metric_batch_merge batch folded) containers
  end.
Definition persist_metrics (snapshot : ProjectSnapshot) (containers : list PendingMetricContainer)
    : ingesting (list string) :=
  if is_empty containers then Ret (Ok [])
  else if negb (ic_metric (ps_items snapshot)) then disabled_feature (len containers) ["metric_bucket"%string]
  else
    received_at ← perform (E := IngestSig) Now;
    batch ←! fold_containers snapshot received_at metric_batch_default containers;
    _ ← (if 0 <? mb_discarded_measurements batch
         then record_outcome OkInvalid "invalid_metric_measurement" (mb_discarded_measurements batch)
         else Ret tt);
    if metric_batch_is_empty batch then Ret (Ok [])
    else
      require_sink (sv_metric_sink service) "metric_storage_unavailable"
        (_ ←? map_err_p map_signal_store_error (perform (E := IngestSig) (PersistMetrics batch));
         _ ← record_outcome OkAccepted "metric" (metric_batch_len batch);
         Ret (Ok [])).

Fixpoint persist_each_replay (snapshot : ProjectSnapshot) (received_at : Timestamp)
    (replays : list PendingReplay) : ingesting unit :=
  match replays with
  | [] => Ret (Ok tt)
  | replay :: replays =>
      submission ←! normalize_replay snapshot received_at replay (sv_replay_config service);
      outcome ←? map_err_p map_signal_store_error (perform (E := IngestSig) (PersistReplay submission));
      _ ← record_durable outcome "replay";
      persist_each_replay snapshot received_at replays
  end.
Definition persist_replays (snapshot : ProjectSnapshot) (replays : list PendingReplay)
    : ingesting (list string) :=
  if is_empty replays then Ret (Ok [])
  else if negb (ic_replay (ps_items snapshot)) then disabled_feature (len replays) ["replay"%string]
  else
    require_sink (sv_replay_sink service) "replay_storage_unavailable"
      (received_at ← perform (E := IngestSig) Now;
       _ ←? persist_each_replay snapshot received_at replays;
       Ret (Ok [])).

Fixpoint collect_check_ins (snapshot : ProjectSnapshot) (received_at : Timestamp)
    (updates : list MonitorUpdate) (check_ins : list bytes) : ingesting (list MonitorUpdate) :=
  match check_ins with
  | [] => Ret (Ok updates)
  | payload :: check_ins =>
      if max_event_bytes (ps_limits snapshot) <? len payload
      then Ret (Err (ingest_too_large "project_check_in_too_large"))
      else
        _ ←? perform (E := IngestSig) (AdmitMonitor (ps_project_id snapshot) received_at);
        update ←! normalize_check_in snapshot received_at payload (sv_monitor_config service);
        collect_check_ins snapshot received_at (updates ++ [update]) check_ins
  end.
Definition is_accepted (outcome : DurableOutcome) : bool :=
  match outcome with Accepted => true | DuplicateOutcome => false end.
Definition persist_check_ins (snapshot : ProjectSnapshot) (check_ins : list bytes)
    : ingesting (list string) :=
  if is_empty check_ins then Ret (Ok [])
  else if negb (ic_check_in (ps_items snapshot)) then disabled_feature (len check_ins) ["monitor"%string]
  else
    received_at ← perform (E := IngestSig) Now;
    updates ←? collect_check_ins snapshot received_at [] check_ins;
    require_sink (sv_monitor_sink service) "monitor_storage_unavailable"
      (outcomes ←? map_err_p map_signal_store_error (perform (E := IngestSig) (PersistMonitors updates));
       let accepted := len (List.filter is_accepted outcomes) in
       let duplicate := len outcomes - accepted in
       _ ← (if 0 <? accepted then record_outcome OkAccepted "monitor" accepted else Ret tt);
       _ ← (if 0 <? duplicate then record_outcome OkDuplicate "monitor" duplicate else Ret tt);
       Ret (Ok [])).
(** ** Attachments *)

Fixpoint write_chunks (session : Z) (chunks : list bytes) : ingesting unit :=
  match chunks with
  | [] => Ret (Ok tt)
  | chunk :: chunks =>
      _ ←? map_err_p map_blob_error (perform (E := IngestSig) (WriteChunk session chunk));
      write_chunks session chunks
  end.
Record PersistedAttachments := { pd_accepted : list EventAttachment; pd_dropped : Z }.
Definition persisted_default : PersistedAttachments := {| pd_accepted := []; pd_dropped := 0 |}.
Definition store_attachment (project_id : Z) (event_id : bytes) (attachment : PendingAttachment)
    (bs : bytes) : ingesting EventAttachment :=
  let checksum := blake3 bs in
  let object_id := attachment_object_id project_id event_id (pa_position attachment) checksum in
  created_at ← perform (E := IngestSig) Now;
  session ←? map_err_p map_blob_error (perform (E := IngestSig) (BeginBlob BkEventAttachment created_at));
  _ ←? write_chunks session (slice_chunks (aic_chunk_bytes (sv_attachment_config service)) bs);
  blob ←? map_err_p map_blob_error
    (perform (E := IngestSig) (CommitBlob session (event_owned project_id event_id object_id)));
  Ret (stored_attachment attachment object_id checksum blob).
Fixpoint persist_each_attachment (project_id : Z) (event_id : bytes) (snapshot : ProjectSnapshot)
    (allow_png : bool) (r : PersistedAttachments) (attachments : list PendingAttachment)
    : ingesting PersistedAttachments :=
  match attachments with
  | [] => Ret (Ok r)
  | attachment :: attachments =>
      safe ←! scrub_safe_attachment attachment snapshot allow_png;
      match safe with
      | None =>
          persist_each_attachment project_id event_id snapshot allow_png
            {| pd_accepted := pd_accepted r; pd_dropped := sat_u64 (pd_dropped r + 1) |} attachments
      | Some bs =>
          stored ←? store_attachment project_id event_id attachment bs;
          persist_each_attachment project_id event_id snapshot allow_png
            {| pd_accepted := pd_accepted r ++ [stored]; pd_dropped := pd_dropped r |} attachments
      end
  end.
Definition persist_attachments (project_id : Z) (event_id : bytes) (snapshot : ProjectSnapshot)
    (attachments : list PendingAttachment) (allow_png : bool) : ingesting PersistedAttachments :=
  if is_empty attachments then Ret (Ok persisted_default)
  else if negb (aic_enabled (sv_attachment_config service))
  then Ret (Ok {| pd_accepted := []; pd_dropped := len attachments |})
  else
    require_sink (sv_blob_store service) "blob_storage_unavailable"
      (persist_each_attachment project_id event_id snapshot allow_png persisted_default attachments).
(** The attachments that were not kept are counted and their category is disabled. *)
Definition record_dropped (reason : string) (persisted : PersistedAttachments) (categories : list string)
    : prog IngestSig (list string) :=
  if 0 <? pd_dropped persisted then
    _ ← record_outcome OkUnsupported reason (pd_dropped persisted);
    Ret (sort_names (categories ++ [sentry_name DcAttachment]))
  else Ret categories.

(** ** Feedback *)

Definition not_stored (event_id : option bytes) (categories : list string) : IngestResult :=
  {| is_event_id := event_id; is_durable := None; is_disabled_categories := categories |}.
Definition ingest_feedback (snapshot : ProjectSnapshot) (primary : PrimaryEvent)
    (envelope_event_id : option bytes) (attachments : list PendingAttachment) (categories : list string)
    : ingesting IngestResult :=
  let config := sv_feedback_config service in
  let project_id := ps_project_id snapshot in
  if negb (ic_feedback (ps_items snapshot)) then
    _ ← record_outcome OkUnsupported "feedback_disabled" 1;
    Ret (Ok (not_stored None categories))
  else
    _ ←! validate_feedback_attachment_limits attachments config;
    received_at ← perform (E := IngestSig) Now;
    feedback ←! normalize_feedback snapshot primary envelope_event_id received_at config;
    _ ←? perform (E := IngestSig) (AdmitFeedback project_id received_at);
    persisted ←? persist_attachments project_id (fb_feedback_id feedback) snapshot attachments
                   (fic_allow_png_screenshots config);
    categories ← record_dropped "feedback_attachment_policy_unsupported" persisted categories;
    let feedback := with_attachments feedback (pd_accepted persisted) in
    _ ←! map_err (λ _, ingest_invalid "invalid_feedback") (feedback_validate feedback);
    require_sink (sv_feedback_sink service) "feedback_storage_unavailable"
      (with_permit
         (durable ←? or_shutdown (perform (E := IngestSig) (PersistFeedbackOrShutdown feedback))
                       map_feedback_store_error;
          _ ← record_durable durable "feedback";
          Ret (Ok {| is_event_id := Some (fb_feedback_id feedback); is_durable := Some durable;
                     is_disabled_categories := categories |}))).

(** ** Events *)

Fixpoint record_discarded (discarded : list DiscardedItem) : prog IngestSig unit :=
  match discarded with
  | [] => Ret tt
  | item :: discarded => _ ← record_outcome OkUnsupported (di_reason item) 1; record_discarded discarded
  end.
Definition discarded_categories (discarded : list DiscardedItem) : list string :=
  sort_names (map sentry_name (omap di_category discarded)).

(** The rest of [ingest] when the request has a primary event that is no feedback. *)
Definition ingest_error (snapshot : ProjectSnapshot) (request : IngestRequest) (primary : PrimaryEvent)
    (categories : list string) : ingesting IngestResult :=
  if negb (ic_error (ps_items snapshot)) then
    _ ← record_outcome OkUnsupported "feature_disabled" 1;
    Ret (Ok (not_stored None categories))
  else
    validated ←! validate_and_scrub_event primary (ir_envelope_event_id request) snapshot;
    match validated with
    | VpFiltered event_id matched =>
        _ ← record_filtered matched;
        Ret (Ok (not_stored (Some event_id) categories))
    | VpAccepted event_id payload =>
        attachments ←? persist_attachments (ps_project_id snapshot) event_id snapshot
                         (ir_attachments request) false;
        categories ← record_dropped "attachment_policy_unsupported" attachments categories;
        payload ←! (if is_empty (pd_accepted attachments) then Ok payload
                    else append_attachment_metadata payload (pd_accepted attachments));
        received_at ← perform (E := IngestSig) Now;
        let accepted := {| ae_project_id := ps_project_id snapshot; ae_event_id := event_id;
                           ae_received_at := received_at;
                           ae_policy_revision := sp_revision (ps_scrub_policy snapshot);
                           ae_payload := payload |} in
        with_permit
          (durable ←? or_shutdown (perform (E := IngestSig) (PersistEventOrShutdown accepted))
                        map_sink_error;
           _ ← record_durable durable "event";
           Ret (Ok {| is_event_id := Some event_id; is_durable := Some durable;
                      is_disabled_categories := categories |}))
    end.
Definition ingest_primary (snapshot : ProjectSnapshot) (request : IngestRequest) (categories : list string)
    : ingesting IngestResult :=
  match ir_primary request with
  | None =>
      _ ← (if non_empty (ir_attachments request)
           then record_outcome OkUnsupported "attachment_without_event" (len (ir_attachments request))
           else Ret tt);
      Ret (Ok (not_stored None categories))
  | Some primary =>
      if max_event_bytes (ps_limits snapshot) <? len (pe_raw_json primary)
      then Ret (Err (ingest_too_large "project_event_too_large"))
      else
        feedback ←! primary_is_feedback primary;
        if (feedback : bool) then
          ingest_feedback snapshot primary (ir_envelope_event_id request) (ir_attachments request) categories
        else ingest_error snapshot request primary categories
  end.
Definition ingest (request : IngestRequest) : ingesting IngestResult :=
  cancelled ← perform (E := IngestSig) IsCancelled;
  if (cancelled : bool) then Ret (Err shutting_down)
  else
    key ←! one_auth_key (ir_auth_keys request);
    resolved ←? or_shutdown (perform (E := IngestSig) (ResolveOrShutdown key)) map_resolve_error;
    let '(snapshot, wire_project_id) := resolved in
    _ ←! validate_project_consistency (ir_path_project_id request) (ir_dsn_project_id request)
           snapshot wire_project_id;
    _ ← record_discarded (ir_discarded request);
    _ ← (if 0 <? ir_client_report_quantity request
         then record_outcome OkUnsupported "sdk_client_report" (ir_client_report_quantity request)
         else Ret tt);
    let categories := discarded_categories (ir_discarded request) in
    signals ←? persist_signals snapshot (ir_signals request);
    metrics ←? persist_metrics snapshot (ir_metrics request);
    replays ←? persist_replays snapshot (ir_replays request);
    check_ins ←? persist_check_ins snapshot (ir_check_ins request);
    ingest_primary snapshot request
      (sort_names (categories ++ signals ++ metrics ++ replays ++ check_ins)).

(** ** Minidumps *)

Record MinidumpScan := { md_header : bytes; md_content : bytes; md_size : Z }.
(** The loop over the chunks of the source; it ends without a result when [fuel]
    runs out.  [md_content] is what the hasher was fed. *)
Fixpoint copy_minidump (fuel : nat) (session : Z) (scan : MinidumpScan)
    : prog IngestSig (option (result IngestError MinidumpScan)) :=
  match fuel with
  | O => Ret None
  | S fuel =>
      let config := sv_minidump_config service in
      next ← perform (E := IngestSig) (NextChunk (nic_chunk_bytes config));
      match next with
      | Err e => Ret (Some (Err (map_blob_error e)))
      | Ok None => Ret (Some (Ok scan))
      | Ok (Some chunk) =>
          match checked_u64 (md_size scan + len chunk) with
          | None => Ret (Some (Err (ingest_too_large "minidump_too_large")))
          | Some size =>
              if nic_max_bytes config <? size then
                aborted ← perform (E := IngestSig) (AbortBlob session);
                Ret (Some (match aborted with
                           | Err e => Err (map_blob_error e)
                           | Ok _ => Err (ingest_too_large "minidump_too_large")
                           end))
              else
                let retained := Z.to_nat (nic_retained_header_bytes config - len (md_header scan)) in
                written ← perform (E := IngestSig) (WriteChunk session chunk);
                match written with
                | Err e => Ret (Some (Err (map_blob_error e)))
                | Ok _ =>
                    copy_minidump fuel session
                      {| md_header := md_header scan ++ take retained chunk;
                         md_content := md_content scan ++ chunk; md_size := size |}
                end
          end
      end
  end.
Definition finish_minidump (snapshot : ProjectSnapshot) (request : MinidumpRequest)
    (received_at : Timestamp) (session : Z) (scan : MinidumpScan) : ingesting IngestResult :=
  let project_id := ps_project_id snapshot in
  _ ←! validate_minidump_header (md_header scan) (md_size scan);
  let checksum := blake3 (md_content scan) in
  let event_id := unwrap_or (minidump_event_id project_id checksum) (mi_supplied_event_id request) in
  let object_id := minidump_object_id project_id event_id checksum in
  blob ←? map_err_p map_blob_error
    (perform (E := IngestSig) (CommitBlob session (event_owned project_id event_id object_id)));
  if negb (bool_decide (bo_checksum blob = checksum))
  then Ret (Err (ingest_unavailable "blob_checksum_mismatch"))
  else
    payload ←! minidump_payload event_id object_id received_at blob;
    let accepted := {| ae_project_id := project_id; ae_event_id := event_id; ae_received_at := received_at;
                       ae_policy_revision := sp_revision (ps_scrub_policy snapshot);
                       ae_payload := payload |} in
    with_permit
      (durable ←? map_err_p map_sink_error (perform (E := IngestSig) (PersistEvent accepted));
       _ ← record_durable durable "minidump";
       Ret (Ok {| is_event_id := Some event_id; is_durable := Some durable; is_disabled_categories := [] |})).
Definition ingest_minidump (fuel : nat) (request : MinidumpRequest)
    : prog IngestSig (option (result IngestError IngestResult)) :=
  let fail e := Ret (Some (Err e)) in
  let disabled := not_stored (mi_supplied_event_id request) ["error"%string] in
  cancelled ← perform (E := IngestSig) IsCancelled;
  if (cancelled : bool) then fail shutting_down
  else
    match one_auth_key (mi_auth_keys request) with
    | Err e => fail e
    | Ok key =>
        resolved ← perform (E := IngestSig) (ResolveIngest key);
        match resolved with
        | Err e => fail (map_resolve_error e)
        | Ok (snapshot, wire_project_id) =>
            match validate_project_consistency (mi_path_project_id request) (mi_dsn_project_id request)
                    snapshot wire_project_id with
            | Err e => fail e
            | Ok _ =>
                if negb (nic_enabled (sv_minidump_config service)) then
                  _ ← record_outcome OkUnsupported "minidump_disabled" 1;
                  Ret (Some (Ok disabled))
                else if negb (ic_error (ps_items snapshot)) then Ret (Some (Ok disabled))
                else if negb (sv_blob_store service) then fail (ingest_unavailable "blob_storage_unavailable")
                else
                  received_at ← perform (E := IngestSig) Now;
                  begun ← perform (E := IngestSig) (BeginBlob BkMinidump received_at);
                  match begun with
                  | Err e => fail (map_blob_error e)
                  | Ok session =>
                      copied ← copy_minidump fuel session {| md_header := []; md_content := []; md_size := 0 |};
                      match copied with
                      | None => Ret None
                      | Some (Err e) => fail e
                      | Some (Ok scan) =>
                          r ← finish_minidump snapshot request received_at session scan;
                          Ret (Some r)
                      end
                  end
            end
        end
    end.
End service.
