(* ===== verification/IngestTheory.v ===== *)
(** * What the ingestion service guarantees

    Theorems about the programs of [IngestService], whatever the ports answer: what
    may reach a sink, for which request, and what the caller is told. *)
From stdpp Require Import base list numbers strings sets gmap sorting.
From Stdlib Require Import ZArith Lia.
From S2P Require Import Prelude External Float Primitives Identity Sessions InboundFilter Monitors Effects Dispatcher EventWriter Signals Metrics SignalWriters Event Normalizer JsonValue IpAddr Scrub Blobs IngestSignals IngestChecks IngestMetrics IngestReplays IngestFeedback Ingest IngestService.

Open Scope prog_scope.

Abbreviation ingest_history := (list (event IngestSig)).

(** ** Rules for methods that fail with [?] *)

(** A postcondition of success. *)
Definition okay {E : signature} {X A} (Q : list (event E) → A → Prop) (h : list (event E))
    (r : result X A) : Prop := match r with Ok a => Q h a | Err _ => True end.
Arguments okay {E X A} Q h r /.

Section rules.
Context {E : signature} (guar : list (event E) → call E → Prop).
Implicit Types h : list (event E).

Lemma sat_port_call {A} (post : list (event E) → A → Prop) c k h :
  guar h c → (∀ x, sat guar post (h ++ [existT c x]) (k x)) → sat guar post h (perform c ≫= k).
Proof. by split. Qed.
Lemma sat_then {A B} (P : list (event E) → A → Prop) (Q : list (event E) → B → Prop) p f h :
  sat guar P h p → (∀ h' a, h `prefix_of` h' → P h' a → sat guar Q h' (f a)) →
  sat guar Q h (p ≫= f).
Proof. intros Hp Hf. apply sat_bind. eapply sat_mono; [done| |by apply sat_suffix]. intros h' a [? ?]. by apply Hf. Qed.
Lemma okay_then {X A B} (P : list (event E) → A → Prop) (Q : list (event E) → B → Prop)
    (p : prog E (result X A)) (f : A → prog E (result X B)) h :
  sat guar (okay P) h p → (∀ h' a, h `prefix_of` h' → P h' a → sat guar (okay Q) h' (f a)) →
  sat guar (okay Q) h (attempt p f).
Proof. intros Hp Hf. unfold attempt. eapply sat_then; [exact Hp|]. intros h' [a|e] Hh H'; [by apply Hf|done]. Qed.
Lemma okay_pure {X A B} (Q : list (event E) → B → Prop) (r : result X A) (f : A → prog E (result X B)) h :
  (∀ a, r = Ok a → sat guar (okay Q) h (f a)) → sat guar (okay Q) h (attempt_pure r f).
Proof. intros Hf. apply sat_attempt_pure; [done|]. by intros. Qed.
(** A call whose error is mapped. *)
Lemma okay_call {X Y A B} (Q : list (event E) → B → Prop)
    (p : prog E (result X A)) (g : X → Y) (f : A → prog E (result Y B)) h :
  sat guar (okay (λ h' a, sat guar (okay Q) h' (f a))) h p → sat guar (okay Q) h (attempt (map_err_p g p) f).
Proof.
  intros Hp. apply sat_attempt, sat_bind. eapply sat_mono; [done| |exact Hp]. by intros h' [a|e].
Qed.
End rules.

Lemma prefix_snoc {A} (h : list A) x : h `prefix_of` h ++ [x].
Proof. by eexists. Qed.
#[export] Hint Resolve prefix_snoc : rust.

(** The histories of a program extend the one it starts from. *)
Lemma sat_from {E : signature} {A} guar (post : list (event E) → A → Prop) h p :
  sat guar post h p → sat (λ h' c, h `prefix_of` h' ∧ guar h' c) (λ h' a, h `prefix_of` h' ∧ post h' a) h p.
Proof.
  intros H. assert (∀ h0, h0 `prefix_of` h →
    sat (λ h' c, h0 `prefix_of` h' ∧ guar h' c) (λ h' a, h0 `prefix_of` h' ∧ post h' a) h p) as G; [|by apply G].
  revert h H. induction p as [a|c k IH]; intros h H h0 Hh; [done|]. destruct H as [Hg H].
  split; [done|]. intros x. apply IH; [done|]. etrans; [exact Hh|]. apply prefix_snoc.
Qed.

(** ** What a request allows *)

Section theory.
Context {N : Type} `{HJ : !JsonApi N, HP : !JsonPrint N, HS : !JsonStream N, HN : !JsonBuild N}.
Context `{HB : !Blake3, HL : !Log2} {Url : Type} `{HU : !UrlApi Url, HH : !HmacApi, HI : !UuidApi}.
Context `{HR : !Rfc3339Api, HT : !TimeApi, HZ : !ZlibApi}.
Context (service : IngestService).

(** The resolver answered the one key of the request with an active project and an
    active key, and the request names that project. *)
Definition authorised (keys : list bytes) (path_project_id : Z) (dsn_project_id : option Z)
    (snapshot : ProjectSnapshot) (h : ingest_history) : Prop :=
  ∃ key wire, one_auth_key keys = Ok key
    ∧ (answered (E := IngestSig) (ResolveOrShutdown key) (Some (Ok (snapshot, wire))) h
       ∨ answered (E := IngestSig) (ResolveIngest key) (Ok (snapshot, wire)) h)
    ∧ validate_project_consistency path_project_id dsn_project_id snapshot wire = Ok tt.
(** The last call acquired the permit. *)
Definition permit_held (h : ingest_history) : Prop :=
  ∃ h', h = h' ++ [existT (AcquirePermit : call IngestSig) true].

Section request.
Context (request : IngestRequest) (snapshot : ProjectSnapshot).
Abbreviation limit := (max_event_bytes (ps_limits snapshot)).
Abbreviation items := (ps_items snapshot).

Definition from_signal {R} (kind : PendingSignalKind)
    (parse : Timestamp → bytes → result IngestError (list R)) (r : R) : Prop :=
  ∃ signal at_ rs, signal ∈ ir_signals request ∧ pg_kind signal = kind
    ∧ len (pg_raw_json signal) ≤ limit ∧ parse at_ (pg_raw_json signal) = Ok rs ∧ r ∈ rs.
Definition log_allowed (r : LogRecord) : Prop :=
  ic_log items = true ∧ log_matched snapshot r = None
  ∧ from_signal PkLog (normalize_logs (N := N) (Url := Url) snapshot) r.
Definition span_allowed (r : SpanRecord) : Prop :=
  (ic_transaction items = true ∧ transaction_matched snapshot r = None
   ∧ from_signal PkTransaction (normalize_transaction (N := N) (Url := Url) snapshot) r)
  ∨ (ic_span items = true ∧ span_matched snapshot SSpan r = None
     ∧ from_signal PkSpan (normalize_spans (N := N) (Url := Url) snapshot) r).
Definition session_allowed (u : SessionUpdate) : Prop :=
  from_signal PkSession (λ at_ raw, (λ u, [u]) <$> normalize_session (N := N) (Url := Url) snapshot at_ raw) u.

(** The session begun last and what was written to it. *)
Definition blob_step (open : option (Z * bytes)) (e : event IngestSig) : option (Z * bytes) :=
  let '(existT call x) := e in
  match call return ingest_answer call → option (Z * bytes) with
  | BeginBlob _ _ => λ x, match x with Ok session => Some (session, []) | Err _ => None end
  | WriteChunk _ chunk => λ _, (λ w : Z * bytes, (w.1, w.2 ++ chunk)) <$> open
  | _ => λ _, open
  end x.
Definition blob_written (h : ingest_history) : option (Z * bytes) := foldl blob_step None h.
(** Screenshots are kept only with feedback, and when it is configured. *)
Definition png_permitted (allow_png : bool) : Prop :=
  allow_png = true → ic_feedback items = true ∧ fic_allow_png_screenshots (sv_feedback_config service) = true.
(** [bs] is what the scrubber leaves of an attachment of the request. *)
Definition safe_attachment (attachment : PendingAttachment) (bs : bytes) : Prop :=
  attachment ∈ ir_attachments request
  ∧ ∃ allow_png, png_permitted allow_png
      ∧ scrub_safe_attachment (N := N) (Url := Url) attachment snapshot allow_png = Ok (Some bs).
Definition attachment_object (event_id : bytes) (attachment : PendingAttachment) (bs : bytes) : bytes :=
  attachment_object_id (ps_project_id snapshot) event_id (pa_position attachment) (blake3 bs).
(** The identity of the primary event, or of the feedback it is. *)
Definition owner_of_attachments (event_id : bytes) : Prop :=
  ∃ primary, ir_primary request = Some primary
    ∧ ((∃ payload, event_stored (N := N) (Url := Url) snapshot primary (ir_envelope_event_id request) event_id payload)
       ∨ ∃ at_ r0, normalize_feedback (N := N) (Url := Url) snapshot primary (ir_envelope_event_id request) at_
                     (sv_feedback_config service) = Ok r0 ∧ fb_feedback_id r0 = event_id).
(** An attachment of an event: scrubbed, committed under its identity, and as the
    store described it. *)
Definition attachment_committed (event_id : bytes) (h : ingest_history) (a : EventAttachment) : Prop :=
  ∃ session attachment bs blob, safe_attachment attachment bs
    ∧ answered (E := IngestSig)
        (CommitBlob session (event_owned (ps_project_id snapshot) event_id (attachment_object event_id attachment bs)))
        (Ok blob) h
    ∧ stored_attachment attachment (attachment_object event_id attachment bs) (blake3 bs) blob = Ok a.
(** How many attachments the scrubber drops. *)
Definition count_dropped (allow_png : bool) (dropped : Z) (attachments : list PendingAttachment) : Z :=
  foldl (λ n a, match scrub_safe_attachment (N := N) (Url := Url) a snapshot allow_png with
                | Ok None => sat_u64 (n + 1) | _ => n end) dropped attachments.
Definition dropped_exactly (allow_png : bool) (dropped : Z) : Prop :=
  (aic_enabled (sv_attachment_config service) = false ∧ dropped = len (ir_attachments request))
  ∨ dropped = count_dropped allow_png 0 (ir_attachments request).

(** The outcomes that may be counted, each with what happened before. *)
Abbreviation outcome kind reason quantity := {| io_kind := kind; io_reason := reason; io_quantity := quantity |}.
Abbreviation said call x h := (answered (E := IngestSig) call x h).
Definition durable_kind (d : DurableOutcome) : IngestOutcomeKind :=
  match d with Accepted => OkAccepted | DuplicateOutcome => OkDuplicate end.
Inductive outcome_allowed (h : ingest_history) : IngestOutcome → Prop :=
| oa_logs logs outcomes : said (PersistLogs logs) (Ok outcomes) h →
    outcome_allowed h (outcome OkAccepted "log" (len logs))
| oa_spans spans outcomes : said (PersistSpans spans) (Ok outcomes) h →
    outcome_allowed h (outcome OkAccepted "span" (len spans))
| oa_sessions sessions outcomes : said (PersistSessions sessions) (Ok outcomes) h →
    outcome_allowed h (outcome OkAccepted "session" (len sessions))
| oa_metrics batch d : said (PersistMetrics batch) (Ok d) h →
    outcome_allowed h (outcome OkAccepted "metric" (metric_batch_len batch))
| oa_replay s d : said (PersistReplay s) (Ok d) h → outcome_allowed h (outcome (durable_kind d) "replay" 1)
| oa_monitors updates outcomes (d : DurableOutcome) quantity : said (PersistMonitors updates) (Ok outcomes) h →
    0 < quantity →
    quantity = match d with Accepted => len (List.filter is_accepted outcomes)
                          | DuplicateOutcome => len outcomes - len (List.filter is_accepted outcomes) end →
    outcome_allowed h (outcome (durable_kind d) "monitor" quantity)
| oa_event e d : said (PersistEventOrShutdown e) (Some (Ok d)) h →
    outcome_allowed h (outcome (durable_kind d) "event" 1)
| oa_feedback r d : said (PersistFeedbackOrShutdown r) (Some (Ok d)) h →
    outcome_allowed h (outcome (durable_kind d) "feedback" 1)
| oa_measurements at_ batch : ic_metric items = true →
    fold_containers (N := N) service snapshot at_ metric_batch_default (ir_metrics request) = Ok batch →
    0 < mb_discarded_measurements batch →
    outcome_allowed h (outcome OkInvalid "invalid_metric_measurement" (mb_discarded_measurements batch))
| oa_filtered_log r m : log_matched snapshot r = Some m →
    from_signal PkLog (normalize_logs (N := N) (Url := Url) snapshot) r →
    outcome_allowed h (outcome OkFiltered "inbound_filter" 1)
| oa_filtered_transaction r m : transaction_matched snapshot r = Some m →
    from_signal PkTransaction (normalize_transaction (N := N) (Url := Url) snapshot) r →
    outcome_allowed h (outcome OkFiltered "inbound_filter" 1)
| oa_filtered_span r m : span_matched snapshot SSpan r = Some m →
    from_signal PkSpan (normalize_spans (N := N) (Url := Url) snapshot) r →
    outcome_allowed h (outcome OkFiltered "inbound_filter" 1)
| oa_filtered_event primary event_id m : ir_primary request = Some primary →
    validate_and_scrub_event (N := N) (Url := Url) primary (ir_envelope_event_id request) snapshot
      = Ok (VpFiltered event_id m) →
    outcome_allowed h (outcome OkFiltered "inbound_filter" 1)
| oa_signal_disabled signal : signal ∈ ir_signals request →
    match pg_kind signal with
    | PkLog => ic_log items | PkTransaction => ic_transaction items | PkSpan => ic_span items | PkSession => true
    end = false →
    outcome_allowed h (outcome OkUnsupported "feature_disabled" 1)
| oa_metrics_disabled : ic_metric items = false →
    outcome_allowed h (outcome OkUnsupported "feature_disabled" (len (ir_metrics request)))
| oa_replays_disabled : ic_replay items = false →
    outcome_allowed h (outcome OkUnsupported "feature_disabled" (len (ir_replays request)))
| oa_check_ins_disabled : ic_check_in items = false →
    outcome_allowed h (outcome OkUnsupported "feature_disabled" (len (ir_check_ins request)))
| oa_error_disabled primary : ir_primary request = Some primary → ic_error items = false →
    outcome_allowed h (outcome OkUnsupported "feature_disabled" 1)
| oa_feedback_disabled primary : ir_primary request = Some primary → ic_feedback items = false →
    outcome_allowed h (outcome OkUnsupported "feedback_disabled" 1)
| oa_event_attachments dropped : 0 < dropped → dropped_exactly false dropped →
    outcome_allowed h (outcome OkUnsupported "attachment_policy_unsupported" dropped)
| oa_feedback_attachments dropped : 0 < dropped →
    dropped_exactly (fic_allow_png_screenshots (sv_feedback_config service)) dropped →
    outcome_allowed h (outcome OkUnsupported "feedback_attachment_policy_unsupported" dropped)
| oa_attachment_without_event : ir_primary request = None → ir_attachments request ≠ [] →
    outcome_allowed h (outcome OkUnsupported "attachment_without_event" (len (ir_attachments request)))
| oa_discarded item : item ∈ ir_discarded request →
    outcome_allowed h (outcome OkUnsupported (di_reason item) 1)
| oa_client_report : 0 < ir_client_report_quantity request →
    outcome_allowed h (outcome OkUnsupported "sdk_client_report" (ir_client_report_quantity request)).
Definition event_allowed (h : ingest_history) (e : AcceptedEvent) : Prop :=
  ∃ primary payload attachments,
    ir_primary request = Some primary ∧ len (pe_raw_json primary) ≤ limit ∧ ic_error items = true
    ∧ ae_project_id e = ps_project_id snapshot
    ∧ ae_policy_revision e = sp_revision (ps_scrub_policy snapshot)
    ∧ answered (E := IngestSig) Now (ae_received_at e) h
    ∧ event_stored (N := N) (Url := Url) snapshot primary (ir_envelope_event_id request) (ae_event_id e) payload
    ∧ Forall (attachment_committed (ae_event_id e) h) attachments
    ∧ (attachments = [] ∧ ae_payload e = payload
       ∨ attachments ≠ [] ∧ append_attachment_metadata (N := N) payload attachments = Ok (ae_payload e)).
Definition feedback_allowed (h : ingest_history) (r : FeedbackRecord) : Prop :=
  ∃ primary r0,
    ir_primary request = Some primary ∧ len (pe_raw_json primary) ≤ limit ∧ ic_feedback items = true
    ∧ normalize_feedback (N := N) (Url := Url) snapshot primary (ir_envelope_event_id request)
        (fb_received_at r) (sv_feedback_config service) = Ok r0
    ∧ r = with_attachments r0 (fb_attachments r)
    ∧ answered (E := IngestSig) (AdmitFeedback (ps_project_id snapshot) (fb_received_at r)) (Ok tt) h
    ∧ Forall (attachment_committed (fb_feedback_id r) h) (fb_attachments r)
    ∧ feedback_validate r = Ok tt.

(** The calls a request may cause, once its project is known. *)
Definition allowed (h : ingest_history) (c : IngestCall) : Prop :=
  match c with
  | PersistLogs logs => Forall log_allowed logs
  | PersistSpans spans => Forall span_allowed spans
  | PersistSessions sessions => Forall session_allowed sessions
  | PersistMetrics batch =>
      ic_metric items = true ∧ ∃ at_, fold_containers (N := N) service snapshot at_ metric_batch_default
                                        (ir_metrics request) = Ok batch
  | PersistReplay s =>
      ic_replay items = true ∧ ∃ replay at_, replay ∈ ir_replays request
        ∧ normalize_replay (N := N) (Url := Url) snapshot at_ replay (sv_replay_config service) = Ok s
  | PersistMonitors updates =>
      ic_check_in items = true ∧ ∃ at_, Forall2 (λ payload u, len payload ≤ limit
        ∧ normalize_check_in (N := N) (Url := Url) snapshot at_ payload (sv_monitor_config service) = Ok u)
        (ir_check_ins request) updates
        ∧ answered (E := IngestSig) (AdmitMonitor (ps_project_id snapshot) at_) (Ok tt) h
  | PersistEventOrShutdown e => permit_held h ∧ event_allowed h e
  | PersistFeedbackOrShutdown r => permit_held h ∧ feedback_allowed h r
  | AdmitMonitor p _ | AdmitFeedback p _ => p = ps_project_id snapshot
  | BeginBlob kind _ => kind = BkEventAttachment
  | WriteChunk session chunk =>
      ∃ attachment bs before, safe_attachment attachment bs
        ∧ blob_written h = Some (session, before) ∧ before ++ chunk `prefix_of` bs
  | CommitBlob session key =>
      ∃ attachment bs event_id, safe_attachment attachment bs ∧ owner_of_attachments event_id
        ∧ blob_written h = Some (session, bs)
        ∧ key = event_owned (ps_project_id snapshot) event_id (attachment_object event_id attachment bs)
  | RecordOutcome o => outcome_allowed h o
  | Now | AcquirePermit | ReleasePermit => True
  | IsCancelled | ResolveIngest _ | ResolveOrShutdown _ | PersistEvent _ | AbortBlob _ | NextChunk _ => False
  end.
Abbreviation ok_sat Q := (sat (E := IngestSig) allowed (okay Q)).
Abbreviation any_sat := (sat (E := IngestSig) allowed (λ _ _, True)).

Lemma record_allowed kind reason quantity h :
  outcome_allowed h (outcome kind reason quantity) → any_sat h (record_outcome kind reason quantity).
Proof. by split. Qed.
Lemma keep_unfiltered_allowed {R} (matched : R → option InboundFilterMatch) records : ∀ h,
  (∀ h' r m, r ∈ records → matched r = Some m → outcome_allowed h' (outcome OkFiltered "inbound_filter" 1)) →
  sat allowed (λ _ kept, ∀ r, r ∈ kept → r ∈ records ∧ matched r = None) h (keep_unfiltered matched records).
Proof.
  induction records as [|r records IH]; intros h Hf; cbn [keep_unfiltered].
  - cbn. intros r Hr. by apply elem_of_nil in Hr.
  - assert (∀ h' r m, r ∈ records → matched r = Some m → outcome_allowed h' (outcome OkFiltered "inbound_filter" 1)) as Hf'
      by (intros h' r' m Hr; apply Hf; by apply elem_of_cons; right).
    specialize (λ h, IH h Hf'). destruct (matched r) eqn:Hm.
    + eapply sat_then; [apply record_allowed; eapply Hf; [by apply elem_of_cons; left|done]|].
      intros h' _ _ _. eapply sat_mono; [done| |apply IH].
      cbn. intros ? ks Hk x Hx. apply Hk in Hx as [? ?]. split; [by apply elem_of_cons; right|done].
    + eapply sat_then; [apply IH|]. intros h' ks _ Hk. cbn. intros x [->|Hx]%elem_of_cons.
      * split; [by apply elem_of_cons; left|done].
      * apply Hk in Hx as [? ?]. split; [by apply elem_of_cons; right|done].
Qed.

(** ** Signals *)

Record scan_allowed (scan : SignalScan) : Prop := {
  scan_logs : Forall log_allowed (sn_logs scan);
  scan_spans : Forall span_allowed (sn_spans scan);
  scan_sessions : Forall session_allowed (sn_sessions scan);
}.
Lemma scan_signal_allowed at_ scan signal h : signal ∈ ir_signals request → scan_allowed scan →
  ok_sat (λ _ scan', scan_allowed scan') h (scan_signal (N := N) (Url := Url) snapshot at_ scan signal).
Proof.
  intros Hin [Hl Hp Hs]. unfold scan_signal. destruct (Z.ltb_spec limit (len (pg_raw_json signal))) as [|Hlen]; [done|].
  assert (∀ name, match pg_kind signal with
    | PkLog => ic_log items | PkTransaction => ic_transaction items | PkSpan => ic_span items | PkSession => true
    end = false → ok_sat (λ _ scan', scan_allowed scan') h (signal_disabled scan name)) as Hdis
    by (intros name Hd; eapply sat_then; [apply record_allowed; by eapply oa_signal_disabled|done]).
  assert (∀ {R} kind parse (rs : list R) r, pg_kind signal = kind → parse at_ (pg_raw_json signal) = Ok rs →
    r ∈ rs → from_signal kind parse r) as Hfrom by (intros R kind parse rs r ? ? ?; by exists signal, at_, rs).
  destruct (pg_kind signal) eqn:Hk.
  - destruct (ic_log items) eqn:Hi; [|by apply Hdis]. apply okay_pure. intros rs Hrs.
    eapply sat_then; [apply keep_unfiltered_allowed; intros h' r m Hr Hm; eapply oa_filtered_log; [exact Hm|by eapply Hfrom]|]. cbn. intros h' ks _ Hks. constructor; cbn; try done.
    apply Forall_app. split; [done|]. apply Forall_forall. intros r [Hr Hm]%Hks. split_and!; try done.
    by eapply Hfrom.
  - destruct (ic_transaction items) eqn:Hi; [|by apply Hdis]. apply okay_pure. intros rs Hrs.
    eapply sat_then; [apply keep_unfiltered_allowed; intros h' r m Hr Hm; eapply oa_filtered_transaction; [exact Hm|by eapply Hfrom]|]. cbn. intros h' ks _ Hks. constructor; cbn; try done.
    apply Forall_app. split; [done|]. apply Forall_forall. intros r [Hr Hm]%Hks. left. split_and!; try done.
    by eapply Hfrom.
  - destruct (ic_span items) eqn:Hi; [|by apply Hdis]. apply okay_pure. intros rs Hrs.
    eapply sat_then; [apply keep_unfiltered_allowed; intros h' r m Hr Hm; eapply oa_filtered_span; [exact Hm|by eapply Hfrom]|]. cbn. intros h' ks _ Hks. constructor; cbn; try done.
    apply Forall_app. split; [done|]. apply Forall_forall. intros r [Hr Hm]%Hks. right. split_and!; try done.
    by eapply Hfrom.
  - apply okay_pure. intros u Hu. constructor; cbn; try done. apply Forall_app. split; [done|].
    constructor; [|done]. eapply Hfrom; [done| |by apply list_elem_of_singleton]. by rewrite Hu.
Qed.
Lemma scan_signals_allowed at_ signals : ∀ scan h, signals ⊆ ir_signals request → scan_allowed scan →
  ok_sat (λ _ scan', scan_allowed scan') h (scan_signals (N := N) (Url := Url) snapshot at_ scan signals).
Proof.
  induction signals as [|signal signals IH]; intros scan h Hsub Hscan; [done|]. cbn [scan_signals].
  eapply okay_then; [apply scan_signal_allowed; [set_solver|done]|]. intros h' scan' _ H'. apply IH; [set_solver|done].
Qed.
Lemma persist_lane_allowed {R X} (records : list R) sink code reason (f : X → IngestError) p h :
  (∀ h', ok_sat (λ h'' _, outcome_allowed h'' (outcome OkAccepted reason (len records))) h' (p records)) →
  ok_sat (λ _ _, True) h (persist_lane records sink code reason f p).
Proof.
  intros Hp. unfold persist_lane, require_sink. destruct (is_empty records); [done|]. destruct sink; [|done].
  apply okay_call. eapply sat_mono; [done| |apply Hp]. intros h' [a|e] Ho; [|done]. cbn [okay].
  eapply sat_then; [by apply record_allowed|done].
Qed.
Lemma persist_signals_allowed h :
  ok_sat (λ _ _, True) h (persist_signals (N := N) (Url := Url) service snapshot (ir_signals request)).
Proof.
  unfold persist_signals. destruct (is_empty _); [done|]. apply sat_port_call; [done|]. intros at_.
  eapply okay_then; [by apply scan_signals_allowed|]. intros h1 scan _ [Hl Hp Hs].
  eapply okay_then; [apply persist_lane_allowed|intros h2 _ _ _].
  { intros h'. split; [exact Hl|]. intros [x|e]; [|done]. apply (oa_logs _ _ x), (answered_last (E := IngestSig)). }
  eapply okay_then; [apply persist_lane_allowed|intros h3 _ _ _].
  { intros h'. split; [exact Hp|]. intros [x|e]; [|done]. apply (oa_spans _ _ x), (answered_last (E := IngestSig)). }
  eapply okay_then; [apply persist_lane_allowed|by intros h4 _ _ _].
  intros h'. split; [exact Hs|]. intros [x|e]; [|done]. apply (oa_sessions _ _ x), (answered_last (E := IngestSig)).
Qed.
(** ** Metrics, replays and check-ins *)

Lemma disabled_feature_allowed quantity categories h :
  outcome_allowed h (outcome OkUnsupported "feature_disabled" quantity) →
  ok_sat (λ _ _, True) h (disabled_feature quantity categories).
Proof. by split. Qed.
Lemma if_record_allowed (b : bool) kind reason quantity h :
  (b = true → outcome_allowed h (outcome kind reason quantity)) →
  any_sat h (if b then record_outcome kind reason quantity else Ret tt).
Proof. destruct b; [|done]. intros Ho. apply record_allowed. by apply Ho. Qed.
Lemma persist_metrics_allowed h :
  ok_sat (λ _ _, True) h (persist_metrics (N := N) service snapshot (ir_metrics request)).
Proof.
  unfold persist_metrics. destruct (is_empty _); [done|].
  destruct (ic_metric items) eqn:Hi; [|by apply disabled_feature_allowed, oa_metrics_disabled]. cbn [negb].
  apply sat_port_call; [done|]. intros at_. apply okay_pure. intros batch Hb.
  eapply sat_then; [apply if_record_allowed; intros Hd%Z.ltb_lt; by eapply oa_measurements|].
  intros h1 _ _ _. destruct (metric_batch_is_empty batch); [done|].
  unfold require_sink. destruct (sv_metric_sink service); [|done]. apply okay_call, sat_port_call.
  - cbn. split; [done|]. by exists at_.
  - intros [d|e]; [|done]. split; [|done]. apply (oa_metrics _ _ d). exact (answered_last (E := IngestSig) (PersistMetrics batch) (Ok d) h1).
Qed.
Lemma persist_each_replay_allowed at_ replays : ∀ h, ic_replay items = true → replays ⊆ ir_replays request →
  ok_sat (λ _ _, True) h (persist_each_replay (N := N) (Url := Url) service snapshot at_ replays).
Proof.
  induction replays as [|replay replays IH]; intros h Hi Hsub; [done|]. cbn [persist_each_replay].
  apply okay_pure. intros s Hs. apply okay_call, sat_port_call.
  - cbn. split; [done|]. exists replay, at_. split; [set_solver|done].
  - intros [d|e]; [|done]. cbn [sat mret prog_ret okay]. eapply sat_then.
    { apply record_allowed. apply (oa_replay _ s d). exact (answered_last (E := IngestSig) (PersistReplay s) (Ok d) h). }
    intros h' _ _ _. apply IH; [done|set_solver].
Qed.
Lemma persist_replays_allowed h :
  ok_sat (λ _ _, True) h (persist_replays (N := N) (Url := Url) service snapshot (ir_replays request)).
Proof.
  unfold persist_replays. destruct (is_empty _); [done|].
  destruct (ic_replay items) eqn:Hi; [|by apply disabled_feature_allowed, oa_replays_disabled]. cbn [negb].
  unfold require_sink. destruct (sv_replay_sink service); [|done]. apply sat_port_call; [done|]. intros at_.
  eapply okay_then; [by apply persist_each_replay_allowed|done].
Qed.

Definition check_in_normalized (at_ : Timestamp) (payload : bytes) (u : MonitorUpdate) : Prop :=
  len payload ≤ limit
  ∧ normalize_check_in (N := N) (Url := Url) snapshot at_ payload (sv_monitor_config service) = Ok u.
Definition admitted_monitor (at_ : Timestamp) (h : ingest_history) : Prop :=
  answered (E := IngestSig) (AdmitMonitor (ps_project_id snapshot) at_) (Ok tt) h.
Lemma collect_check_ins_allowed at_ check_ins : ∀ updates h,
  ok_sat (λ h' us, ∃ new, us = updates ++ new ∧ Forall2 (check_in_normalized at_) check_ins new
                    ∧ (check_ins ≠ [] → admitted_monitor at_ h'))
    h (collect_check_ins (N := N) (Url := Url) service snapshot at_ updates check_ins).
Proof.
  induction check_ins as [|payload check_ins IH]; intros updates h; cbn [collect_check_ins].
  - cbn. exists []. by rewrite app_nil_r.
  - destruct (Z.ltb_spec limit (len payload)) as [|Hlen]; [done|].
    apply sat_port_call; [done|]. intros [[]|e]; [|done]. cbn [attempt mbind prog_bind].
    apply okay_pure. intros u Hu. eapply sat_mono; [done| |apply sat_suffix, IH].
    intros h' [us|e] [Hpre Hus]; [|done]. destruct Hus as (new & -> & Hnew & _). exists (u :: new).
    split; [by rewrite <- app_assoc|]. split; [by constructor|]. intros _.
    eapply answered_prefix; [exact Hpre|apply answered_last].
Qed.
Lemma persist_check_ins_allowed h :
  ok_sat (λ _ _, True) h (persist_check_ins (N := N) (Url := Url) service snapshot (ir_check_ins request)).
Proof.
  unfold persist_check_ins. destruct (is_empty _) eqn:He; [done|].
  destruct (ic_check_in items) eqn:Hi; [|by apply disabled_feature_allowed, oa_check_ins_disabled]. cbn [negb].
  apply sat_port_call; [done|]. intros at_. eapply okay_then; [apply collect_check_ins_allowed|].
  intros h1 us0 _ (us & -> & Hnew & Hadm). cbn [app]. unfold require_sink. destruct (sv_monitor_sink service); [|done].
  apply okay_call, sat_port_call.
  - cbn. split; [done|]. exists at_. split; [exact Hnew|]. apply Hadm. intros E. by rewrite E in He.
  - intros [ds|e]; [|done]. cbn [sat mret prog_ret okay]. cbv zeta.
    assert (said (PersistMonitors us) (Ok ds) (h1 ++ [existT (P := answer IngestSig) (PersistMonitors us) (Ok ds)])) as Hds
      by exact (answered_last (E := IngestSig) (PersistMonitors us) (Ok ds) h1).
    eapply sat_then; [apply if_record_allowed; intros Hq%Z.ltb_lt; by apply (oa_monitors _ us ds Accepted)|]. intros h2 _ Hh2 _.
    eapply sat_then; [apply if_record_allowed; intros Hq%Z.ltb_lt|done].
    apply (oa_monitors _ us ds DuplicateOutcome); [by eapply answered_prefix|done|done].
Qed.

(** ** Attachments *)

Lemma blob_written_snoc h e : blob_written (h ++ [e]) = blob_step (blob_written h) e.
Proof. unfold blob_written. by rewrite foldl_app. Qed.
Lemma write_chunks_allowed attachment bs session cs : safe_attachment attachment bs → ∀ before h,
  blob_written h = Some (session, before) → before ++ concat cs = bs →
  ok_sat (λ h' _, blob_written h' = Some (session, bs)) h (write_chunks session cs).
Proof.
  intros Hsafe. induction cs as [|c cs IH]; intros before h Hb Hc; cbn [write_chunks concat] in *.
  { cbn. by rewrite <- Hc, app_nil_r. }
  apply okay_call, sat_port_call.
  - exists attachment, bs, before. split; [done|]. split; [done|]. exists (concat cs). by rewrite <- Hc, <- app_assoc.
  - intros [u|e]; [|done]. apply (IH (before ++ c)); [|by rewrite <- app_assoc].
    rewrite blob_written_snoc, Hb. done.
Qed.
Lemma store_attachment_allowed event_id attachment bs h : safe_attachment attachment bs → owner_of_attachments event_id →
  ok_sat (attachment_committed event_id) h
    (store_attachment service (ps_project_id snapshot) event_id attachment bs).
Proof.
  intros Hsafe Howner. unfold store_attachment. cbv zeta. apply sat_port_call; [done|]. intros at_.
  apply okay_call, sat_port_call; [done|]. intros [session|e]; [|done]. cbn [sat mret prog_ret okay].
  eapply okay_then; [apply (write_chunks_allowed attachment bs session _ Hsafe [])|].
  { by rewrite blob_written_snoc. }
  { apply slice_chunks_concat. }
  intros h1 u _ Hw. apply okay_call, sat_port_call; [by exists attachment, bs, event_id|].
  intros [blob|e]; [|done]. cbn [sat mret prog_ret okay].
  destruct (stored_attachment _ _ _ _) as [a|e] eqn:E; [|done]. cbn [sat okay].
  exists session, attachment, bs, blob. split; [done|]. split; [|exact E].
  exact (answered_last (E := IngestSig) (CommitBlob session _) (Ok blob) h1).
Qed.
Lemma committed_prefix event_id h h' as_ : h `prefix_of` h' →
  Forall (attachment_committed event_id h) as_ → Forall (attachment_committed event_id h') as_.
Proof.
  intros Hp Has. eapply Forall_impl; [exact Has|]. intros a (session & attachment & bs & blob & Hs & Ha & E).
  exists session, attachment, bs, blob. split; [done|]. split; [by eapply answered_prefix|done].
Qed.
Lemma count_dropped_cons allow_png n a attachments :
  count_dropped allow_png n (a :: attachments)
  = count_dropped allow_png (match scrub_safe_attachment (N := N) (Url := Url) a snapshot allow_png with
                             | Ok None => sat_u64 (n + 1) | _ => n end) attachments.
Proof. done. Qed.
Lemma persist_each_attachment_allowed event_id allow_png attachments : owner_of_attachments event_id →
  png_permitted allow_png → attachments ⊆ ir_attachments request → ∀ r h,
  Forall (attachment_committed event_id h) (pd_accepted r) →
  ok_sat (λ h' r', Forall (attachment_committed event_id h') (pd_accepted r')
                   ∧ pd_dropped r' = count_dropped allow_png (pd_dropped r) attachments) h
    (persist_each_attachment (N := N) (Url := Url) service (ps_project_id snapshot) event_id snapshot allow_png r attachments).
Proof.
  intros Howner Hpng. induction attachments as [|attachment attachments IH]; intros Hsub r h Hr; [done|].
  assert (attachments ⊆ ir_attachments request) as Hsub' by set_solver. specialize (IH Hsub'). cbn [persist_each_attachment].
  rewrite count_dropped_cons. apply okay_pure. intros [bs|] Hsafe; rewrite Hsafe;
    [|by apply (IH {| pd_accepted := pd_accepted r; pd_dropped := sat_u64 (pd_dropped r + 1) |})].
  eapply okay_then; [apply store_attachment_allowed; [|done]|].
  - split; [set_solver|]. by exists allow_png.
  - intros h1 a Hp Ha. apply (IH {| pd_accepted := pd_accepted r ++ [a]; pd_dropped := pd_dropped r |}). cbn. apply Forall_app. split; [by eapply committed_prefix|by constructor].
Qed.
Lemma persist_attachments_allowed event_id allow_png h : owner_of_attachments event_id → png_permitted allow_png →
  ok_sat (λ h' r', Forall (attachment_committed event_id h') (pd_accepted r') ∧ dropped_exactly allow_png (pd_dropped r')) h
    (persist_attachments (N := N) (Url := Url) service (ps_project_id snapshot) event_id snapshot (ir_attachments request) allow_png).
Proof.
  intros Howner Hpng. unfold persist_attachments. destruct (is_empty _) eqn:He.
  { apply is_empty_true in He. split; [by constructor|]. right. by rewrite He. }
  destruct (aic_enabled _) eqn:Hen; [|split; [by constructor|by left]].
  cbn [negb]. unfold require_sink. destruct (sv_blob_store service); [|done].
  eapply sat_mono; [done| |by apply persist_each_attachment_allowed]. intros h' [r|e] Hr; [|done].
  destruct Hr as [Hr Hd]. split; [exact Hr|by right].
Qed.
Lemma record_dropped_allowed reason r categories h :
  (0 < pd_dropped r → outcome_allowed h (outcome OkUnsupported reason (pd_dropped r))) →
  any_sat h (record_dropped reason r categories).
Proof.
  intros Ho. unfold record_dropped. destruct (Z.ltb_spec 0 (pd_dropped r)); [|done].
  eapply sat_then; [apply record_allowed; by apply Ho|done].
Qed.
(** ** The primary event *)

(** What the caller is told was durable is what a sink answered for that identity. *)
Definition told (h : ingest_history) (r : IngestResult) : Prop :=
  ∀ d, is_durable r = Some d → ∃ id, is_event_id r = Some id
    ∧ ((∃ e, ae_event_id e = id ∧ answered (E := IngestSig) (PersistEventOrShutdown e) (Some (Ok d)) h)
       ∨ (∃ f, fb_feedback_id f = id ∧ answered (E := IngestSig) (PersistFeedbackOrShutdown f) (Some (Ok d)) h)).
Lemma told_prefix h h' r : h `prefix_of` h' → told h r → told h' r.
Proof.
  intros Hp Ht d Hd. destruct (Ht d Hd) as (id & Hid & [(e & He & Ha)|(f & Hf & Ha)]);
    exists id; (split; [done|]); [left; exists e|right; exists f]; (split; [done|]); by eapply answered_prefix.
Qed.
Lemma not_stored_told h id categories : told h (not_stored id categories).
Proof. by intros d [=]. Qed.
Lemma with_permit_allowed k h :
  ok_sat told (h ++ [existT (AcquirePermit : call IngestSig) true]) k → ok_sat told h (with_permit k).
Proof.
  intros Hk. apply sat_port_call; [done|]. intros [|]; [|done].
  eapply sat_then; [exact Hk|]. intros h1 r _ Hr. apply sat_port_call; [done|]. intros []. destruct r as [a|e]; [|done].
  cbn [sat okay]. eapply told_prefix; [apply prefix_snoc|exact Hr].
Qed.

Lemma ingest_feedback_allowed primary categories h :
  ir_primary request = Some primary → len (pe_raw_json primary) ≤ limit →
  ok_sat told h (ingest_feedback (N := N) (Url := Url) service snapshot primary
                   (ir_envelope_event_id request) (ir_attachments request) categories).
Proof.
  intros Hprim Hlen. unfold ingest_feedback. destruct (ic_feedback items) eqn:Hi.
  2:{ eapply sat_then; [apply record_allowed; by eapply oa_feedback_disabled|]. intros h' _ _ _. apply not_stored_told. }
  cbn [negb]. cbv zeta. apply okay_pure. intros _ _. apply sat_port_call; [done|]. intros at_.
  apply okay_pure. intros r0 Hr0. apply sat_port_call; [done|]. intros [[]|e]; [|done]. cbn [attempt mbind prog_bind].
  eapply okay_then; [apply persist_attachments_allowed|].
  { exists primary. split; [done|]. right. by exists at_, r0. }
  { by intros Hpng. }
  intros h1 p Hp1 [Hatt Hdrop].
  eapply sat_then; [apply record_dropped_allowed; intros Hpos; by apply oa_feedback_attachments|]. intros h2 cats Hp2 _.
  apply okay_pure. intros [] Hv. apply map_err_Ok in Hv. unfold require_sink. destruct (sv_feedback_sink service); [|done].
  apply with_permit_allowed. unfold or_shutdown. apply sat_attempt, sat_bind.
  assert (∀ x, h1 `prefix_of` h2 ++ [x]) as Hpre by (intros x; etrans; [exact Hp2|apply prefix_snoc]).
  split.
  - split; [by eexists|]. exists primary, r0. destruct (normalize_feedback_received _ _ _ _ _ _ Hr0) as [Hat Hid].
    cbn [fb_received_at with_attachments]. rewrite Hat. split_and!; try done.
    + eapply answered_prefix; [etrans; [exact Hp1|apply Hpre]|apply answered_last].
    + cbn [fb_attachments fb_feedback_id with_attachments]. by eapply committed_prefix; [apply Hpre|].
  - intros [[d|e]|]; [|done..]. cbn [sat mret prog_ret okay map_err].
    eapply sat_then; [apply record_allowed; eapply (oa_feedback _ _ d); exact (answered_last (E := IngestSig) _ _ _)|].
    intros h4 _ Hp4 _. intros d' [= <-]. eexists. split; [done|]. right.
    eexists. split; [|eapply answered_prefix; [exact Hp4|apply answered_last]]. done.
Qed.

Lemma ingest_error_allowed primary categories h :
  ir_primary request = Some primary → len (pe_raw_json primary) ≤ limit →
  ok_sat told h (ingest_error (N := N) (Url := Url) service snapshot request primary categories).
Proof.
  intros Hprim Hlen. unfold ingest_error. destruct (ic_error items) eqn:Hi.
  2:{ eapply sat_then; [apply record_allowed; by eapply oa_error_disabled|]. intros h' _ _ _. apply not_stored_told. }
  cbn [negb]. apply okay_pure. intros [id payload|id m] Hv.
  2:{ eapply sat_then; [apply record_allowed; by eapply oa_filtered_event|]. intros h' _ _ _. apply not_stored_told. }
  apply validate_and_scrub_event_Accepted in Hv.
  eapply okay_then; [apply persist_attachments_allowed; [|done]|].
  { exists primary. split; [done|]. left. by exists payload. }
  intros h1 p Hp1 [Hatt Hdrop].
  eapply sat_then; [apply record_dropped_allowed; intros Hpos; by apply oa_event_attachments|]. intros h2 cats Hp2 _.
  apply okay_pure. intros payload' Hpay. apply sat_port_call; [done|]. intros at_. cbv zeta.
  apply with_permit_allowed. unfold or_shutdown. apply sat_attempt, sat_bind. split.
  - split; [by eexists|]. exists primary, payload, (pd_accepted p). cbn [ae_project_id ae_policy_revision
      ae_received_at ae_event_id ae_payload]. split_and!; try done.
    + eapply answered_prefix; [apply prefix_snoc|apply answered_last].
    + eapply committed_prefix; [|exact Hatt]. etrans; [exact Hp2|]. etrans; apply prefix_snoc.
    + destruct (pd_accepted p) as [|a as_]; cbn in Hpay; [left; by injection Hpay as <-|by right].
  - intros [[d|e]|]; [|done..]. cbn [sat mret prog_ret okay map_err].
    eapply sat_then; [apply record_allowed; eapply (oa_event _ _ d); exact (answered_last (E := IngestSig) _ _ _)|].
    intros h4 _ Hp4 _. intros d' [= <-]. eexists. split; [done|]. left.
    eexists. split; [|eapply answered_prefix; [exact Hp4|apply answered_last]]. done.
Qed.

Lemma ingest_primary_allowed categories h :
  ok_sat told h (ingest_primary (N := N) (Url := Url) service snapshot request categories).
Proof.
  unfold ingest_primary. destruct (ir_primary request) as [primary|] eqn:Hp.
  - destruct (Z.ltb_spec limit (len (pe_raw_json primary))) as [|Hlen]; [done|].
    apply okay_pure. intros [|] _; [by apply ingest_feedback_allowed|by apply ingest_error_allowed].
  - eapply sat_then; [apply if_record_allowed; intros Hne|intros h' _ _ _; apply not_stored_told].
    apply oa_attachment_without_event; [done|]. by destruct (ir_attachments request).
Qed.
Lemma record_discarded_allowed items_ : items_ ⊆ ir_discarded request → ∀ h, any_sat h (record_discarded items_).
Proof.
  induction items_ as [|i items_ IH]; intros Hsub h; [done|]. cbn [record_discarded].
  eapply sat_then; [apply record_allowed, oa_discarded; set_solver|]. intros h' _ _ _. apply IH. set_solver.
Qed.
Lemma after_authorisation_allowed h :
  ok_sat told h
    (_ ← record_discarded (ir_discarded request);
     _ ← (if 0 <? ir_client_report_quantity request
          then record_outcome OkUnsupported "sdk_client_report" (ir_client_report_quantity request)
          else Ret tt);
     signals ←? persist_signals (N := N) (Url := Url) service snapshot (ir_signals request);
     metrics ←? persist_metrics (N := N) service snapshot (ir_metrics request);
     replays ←? persist_replays (N := N) (Url := Url) service snapshot (ir_replays request);
     check_ins ←? persist_check_ins (N := N) (Url := Url) service snapshot (ir_check_ins request);
     ingest_primary (N := N) (Url := Url) service snapshot request
       (sort_names (discarded_categories (ir_discarded request) ++ signals ++ metrics ++ replays ++ check_ins))).
Proof.
  eapply sat_then; [by apply record_discarded_allowed|]. intros h1 _ _ _.
  eapply sat_then; [apply if_record_allowed; intros Hq%Z.ltb_lt; by apply oa_client_report|]. intros h2 _ _ _.
  eapply okay_then; [apply persist_signals_allowed|]. intros h3 signals _ _.
  eapply okay_then; [apply persist_metrics_allowed|]. intros h4 metrics _ _.
  eapply okay_then; [apply persist_replays_allowed|]. intros h5 replays _ _.
  eapply okay_then; [apply persist_check_ins_allowed|]. intros h6 check_ins _ _.
  apply ingest_primary_allowed.
Qed.
End request.

(** The calls of [ingest]: before the project is known, the shutdown signal and the
    resolution of the one key; afterwards only what the request allows. *)
Definition guarded (request : IngestRequest) (h : ingest_history) (c : IngestCall) : Prop :=
  c = IsCancelled
  ∨ (∃ key, c = ResolveOrShutdown key ∧ one_auth_key (ir_auth_keys request) = Ok key)
  ∨ ∃ snapshot, authorised (ir_auth_keys request) (ir_path_project_id request) (ir_dsn_project_id request)
                  snapshot h
      ∧ allowed request snapshot h c.

Lemma authorised_prefix keys path dsn snapshot h h' : h `prefix_of` h' →
  authorised keys path dsn snapshot h → authorised keys path dsn snapshot h'.
Proof.
  intros Hp (key & wire & Hk & [Ha|Ha] & Hc); exists key, wire; (split; [done|]); (split; [|done]);
    [left|right]; by eapply answered_prefix.
Qed.

(** C6. Nothing of a request reaches a sink, the blob store or a counter before the
    resolver has answered the one key all its sources agree on with an active
    project and key that the request names.  Afterwards: logs, spans and sessions
    are records of an item of the request that its project accepts and no filter
    matches; metrics, replays and check-ins are those the normalizers accept; an
    event is the scrubbed body of the primary event, within the limit, with the
    one identity all places state and the attachments committed under it, and is
    persisted under a storage permit; feedback likewise, once the limiter has
    admitted it.  Every chunk written continues, in the session begun last, what
    the scrubber leaves of an attachment of the request, and a commit names the
    owner and the digest of exactly these bytes, all of them written; screenshots
    only with feedback.  Every outcome counted is one of the kinds the request
    caused: accepted or duplicate only as the sink answered, filtered only for a
    record a filter matches, disabled only for a feature that is off, dropped
    attachments as many as the scrubber dropped.  What the caller is told was
    stored is what the sink answered. *)
Theorem ingest_guarded request :
  sat (guarded request) (λ h r, match r with Ok answer => told h answer | Err _ => True end) []
    (ingest (N := N) (Url := Url) service request).
Proof.
  unfold ingest. apply sat_port_call; [by left|]. intros [|]; [done|].
  apply okay_pure. intros key Hkey. unfold or_shutdown. apply sat_attempt, sat_bind.
  split; [right; left; by exists key|]. intros [[[snapshot wire]|e]|]; [|done..].
  cbn [sat mret prog_ret map_err]. apply okay_pure. intros [] Hc.
  eapply sat_mono; [| |apply sat_from, (after_authorisation_allowed request snapshot)].
  - intros h c [Hp Ha]. right. right. exists snapshot. split; [|exact Ha].
    eapply authorised_prefix; [exact Hp|]. exists key, wire. split; [done|]. split; [|done].
    left. apply answered_last.
  - intros h [r|e] [_ Hr]; [exact Hr|done].
Qed.

(** ** Minidumps *)

(** What was written to a session so far. *)
Definition written_by (session : Z) (e : event IngestSig) : bytes :=
  match projT1 e with
  | WriteChunk s chunk => if s =? session then chunk else []
  | _ => []
  end.
Definition written (session : Z) (h : ingest_history) : bytes := concat (map (written_by session) h).
Lemma written_snoc session h e : written session (h ++ [e]) = written session h ++ written_by session e.
Proof. unfold written. rewrite map_app, concat_app. cbn. by rewrite app_nil_r. Qed.

Section minidump.
Context (request : MinidumpRequest).
Abbreviation config := (sv_minidump_config service).
Abbreviation retained := (Z.to_nat (nic_retained_header_bytes config)).

Definition minidump_authorised := authorised (mi_auth_keys request) (mi_path_project_id request)
  (mi_dsn_project_id request).
Definition minidump_event (snapshot : ProjectSnapshot) (h : ingest_history) (e : AcceptedEvent) : Prop :=
  ∃ session blob, let project_id := ps_project_id snapshot in
    let content := written session h in
    let checksum := blake3 content in
    let object_id := minidump_object_id project_id (ae_event_id e) checksum in
    ae_project_id e = project_id
    ∧ ae_event_id e = unwrap_or (minidump_event_id project_id checksum) (mi_supplied_event_id request)
    ∧ len content ≤ Z.max 0 (nic_max_bytes config)
    ∧ validate_minidump_header (take retained content) (len content) = Ok tt
    ∧ answered (E := IngestSig) (CommitBlob session (event_owned project_id (ae_event_id e) object_id)) (Ok blob) h
    ∧ bo_checksum blob = checksum
    ∧ minidump_payload (N := N) (ae_event_id e) object_id (ae_received_at e) blob = Ok (ae_payload e).
Definition minidump_allowed (snapshot : ProjectSnapshot) (h : ingest_history) (c : IngestCall) : Prop :=
  match c with
  | RecordOutcome _ | Now | ReleasePermit => True
  | NextChunk _ | WriteChunk _ _ | CommitBlob _ _ | AbortBlob _ | AcquirePermit | BeginBlob BkMinidump _ =>
      nic_enabled config = true ∧ ic_error (ps_items snapshot) = true
  | PersistEvent e =>
      nic_enabled config = true ∧ ic_error (ps_items snapshot) = true
      ∧ permit_held h ∧ minidump_event snapshot h e
  | _ => False
  end.
Definition minidump_guarded_by (h : ingest_history) (c : IngestCall) : Prop :=
  c = IsCancelled
  ∨ (∃ key, c = ResolveIngest key ∧ one_auth_key (mi_auth_keys request) = Ok key)
  ∨ ∃ snapshot, minidump_authorised snapshot h ∧ minidump_allowed snapshot h c.

(** The state of the loop: all that was read was written, its beginning is kept. *)
Definition scanned (session : Z) (h : ingest_history) (scan : MinidumpScan) : Prop :=
  md_content scan = written session h ∧ md_header scan = take retained (md_content scan)
  ∧ md_size scan = len (md_content scan) ∧ md_size scan ≤ Z.max 0 (nic_max_bytes config).
Definition never_empty (h : ingest_history) : Prop :=
  ∀ n, ¬ answered (E := IngestSig) (NextChunk n) (Ok (Some [])) h.

Lemma take_retained (k : nat) (header content chunk : bytes) (r : Z) : k = Z.to_nat r →
  header = take k content → header ++ take (Z.to_nat (r - len header)) chunk = take k (content ++ chunk).
Proof.
  intros -> ->. rewrite take_app. f_equal. f_equal. unfold len. rewrite length_take. lia.
Qed.
Lemma copy_minidump_scanned snapshot session fuel : nic_enabled config = true →
  ic_error (ps_items snapshot) = true → ∀ scan h,
  scanned session h scan →
  sat (E := IngestSig) (minidump_allowed snapshot) (λ h' r, match r with
      | None => (Z.to_nat (nic_max_bytes config - md_size scan) + 2 <= fuel)%nat → ¬ never_empty h'
      | Some (Ok scan') => scanned session h' scan'
      | Some (Err _) => True
      end) h (copy_minidump service fuel session scan).
Proof.
  intros Hen Hic. induction fuel as [|fuel IH]; intros scan h Hs; cbn [copy_minidump]; [cbn; lia|].
  destruct Hs as (Hc & Hh & Hz & Hm). cbv zeta. apply sat_port_call; [done|]. intros [[chunk|]|e]; [| |done].
  2:{ cbn. unfold scanned. rewrite written_snoc. cbn. by rewrite app_nil_r. }
  destruct (checked_u64 (md_size scan + len chunk)) as [size|] eqn:Hsize; [|done].
  apply checked_Some in Hsize as [-> _]. destruct (Z.ltb_spec (nic_max_bytes config) (md_size scan + len chunk)) as [Hbig|Hbig].
  { apply sat_port_call; [done|]. intros [u|e]; done. }
  apply sat_port_call; [done|]. intros [u|e]; [|done].
  eapply sat_mono; [done| |apply sat_suffix, IH].
  - intros h' [[scan'|e]|] [Hp Hr]; try done. cbn [md_size] in Hr. intros Hf Hne.
    destruct chunk as [|b chunk].
    + apply (Hne (nic_chunk_bytes config)). eapply answered_prefix; [exact Hp|].
      apply answered_app, answered_last.
    + apply Hr; [|exact Hne]. rewrite len_cons in *. pose proof (len_nonneg chunk). lia.
  - pose proof (len_nonneg chunk). split_and!; cbn [md_content md_header md_size].
    + rewrite !written_snoc. unfold written_by at 2. cbn. rewrite Z.eqb_refl, app_nil_r. by rewrite Hc.
    + by apply take_retained.
    + rewrite len_app. lia.
    + lia.
Qed.

Lemma finish_minidump_allowed snapshot at_ session scan h : nic_enabled config = true →
  ic_error (ps_items snapshot) = true → scanned session h scan →
  sat (E := IngestSig) (minidump_allowed snapshot) (okay (λ h' r, ∀ d, is_durable r = Some d →
      ∃ e, is_event_id r = Some (ae_event_id e) ∧ answered (E := IngestSig) (PersistEvent e) (Ok d) h'))
    h (finish_minidump (N := N) snapshot request at_ session scan).
Proof.
  intros Hen Hic (Hc & Hh & Hz & Hm). unfold finish_minidump. cbv zeta. apply okay_pure. intros [] Hv.
  apply okay_call, sat_port_call; [done|]. intros [blob|e]; [|done]. cbn [sat mret prog_ret okay].
  case_bool_decide as Hck; [|done]. cbn [negb]. apply okay_pure. intros payload Hp.
  apply sat_port_call; [done|]. intros [|]; [|done].
  eapply sat_then with (P := okay (λ h' r, ∀ d, is_durable r = Some d →
      ∃ e, is_event_id r = Some (ae_event_id e) ∧ answered (E := IngestSig) (PersistEvent e) (Ok d) h')).
  - apply okay_call, sat_port_call.
    + cbn [minidump_allowed]. split; [done|]. split; [done|]. split; [by eexists|]. exists session, blob.
      rewrite !written_snoc. unfold written_by at 1 2. cbn [projT1]. rewrite !app_nil_r, <- Hc.
      cbv zeta. cbn [ae_project_id ae_event_id ae_received_at ae_payload]. split_and!; try done.
      * by rewrite <- Hz.
      * by rewrite <- Hh, <- Hz.
      * apply answered_app, answered_last.
    + intros [d|e]; [|done]. cbn [sat mret prog_ret okay]. eapply sat_then with (P := λ _ _, True); [by split|].
      intros h' _ Hpre _. intros d' [= <-]. eexists. split; [|eapply answered_prefix; [exact Hpre|apply answered_last]]. done.
  - intros h' [r|e] _ Hr; (apply sat_port_call; [done|]); intros []; [|done]. cbn [sat okay].
    intros d Hd. destruct (Hr d Hd) as (e & He & Ha). exists e. split; [done|]. by apply answered_app.
Qed.

(** A minidump is stored and becomes an event only when the project is resolved
    and accepts errors: the event names the blob that holds exactly the bytes that
    were read, within the limit, whose header is a minidump's; its identities are
    those of the content; it is persisted under a permit; and the answer is the
    sink's.  When the source never answers with an empty chunk, the loop ends
    before it has read more chunks than the limit has bytes. *)
Theorem minidump_guarded fuel :
  sat minidump_guarded_by (λ h r, match r with
      | None => (Z.to_nat (nic_max_bytes config) + 2 <= fuel)%nat → ¬ never_empty h
      | Some (Ok answer) => ∀ d, is_durable answer = Some d → ∃ e,
          is_event_id answer = Some (ae_event_id e) ∧ answered (E := IngestSig) (PersistEvent e) (Ok d) h
      | Some (Err _) => True
      end) [] (ingest_minidump (N := N) service fuel request).
Proof.
  unfold ingest_minidump. cbv zeta. apply sat_port_call; [by left|]. intros [|]; [done|].
  destruct (one_auth_key (mi_auth_keys request)) as [key|e] eqn:Hkey; [|done].
  apply sat_port_call; [right; left; by exists key|]. intros [[snapshot wire]|e]; [|done].
  destruct (validate_project_consistency _ _ _ _) as [[]|e] eqn:Hc; [|done].
  set (h0 := _ ++ _). assert (minidump_authorised snapshot h0) as Hauth.
  { exists key, wire. split; [done|]. split; [|done]. right. apply answered_last. }
  assert (∀ session, written session h0 = []) as Hw0 by done. clearbody h0.
  match goal with |- sat _ ?post _ _ => apply (sat_mono (λ h c, h0 `prefix_of` h ∧ minidump_allowed snapshot h c)
    _ (λ h a, h0 `prefix_of` h ∧ post h a)) end.
  - intros h c [Hp Ha]. right. right. exists snapshot. split; [by eapply authorised_prefix|exact Ha].
  - by intros h a [_ ?].
  - apply sat_from. destruct (nic_enabled config) eqn:Hen; cbn [negb].
    2:{ apply sat_port_call; [done|]. intros []. by intros d [=]. }
    destruct (ic_error (ps_items snapshot)) eqn:Hic; cbn [negb]; [|by intros d [=]].
    destruct (sv_blob_store service); cbn [negb]; [|done].
    apply sat_port_call; [done|]. intros at_. apply sat_port_call; [done|]. intros [session|e]; [|done].
    eapply sat_then; [apply (copy_minidump_scanned snapshot session fuel Hen Hic)|].
    { unfold scanned. rewrite !written_snoc, Hw0. cbn. rewrite take_nil. split_and!; [done..|lia]. }
    intros h' [[scan|e]|] _ Hr; [|done|]; cbv beta iota in Hr.
    + eapply sat_then; [by apply (finish_minidump_allowed snapshot at_ session scan)|]. intros h2 [r|e] _ Hok; [exact Hok|done].
    + cbn [md_size] in Hr. rewrite Z.sub_0_r in Hr. exact Hr.
Qed.
End minidump.
End theory.
