(* ===== verification/Scheduler.v ===== *)
(** * The maintenance scheduler

    [application/src/scheduler.rs]: nine maintenance tasks, each with the time it is
    next due, its failures, its cursor and the flag that it is running, in a map
    behind a lock.  [run_due_once] claims the due tasks under the lock and runs
    them one after another; the loop and administrative callers may run it at the
    same time, so it is split at its await points into the steps of a relation. *)
From stdpp Require Import base list numbers strings sets gmap relations.
From Stdlib Require Import ZArith Lia.
From S2P Require Import Prelude Primitives.

(** ** Tasks *)

Inductive MaintenanceTask :=
| RetryBacklog | EventRetention | HourlyRetention | CounterReconciliation | UploadExpiry
| BlobOrphanRegistration | MonitorTimeouts | MonitorMissed | MonitorRetention.
#[export] Instance maintenance_task_eq_dec : EqDecision MaintenanceTask.
Proof. solve_decision. Defined.
Definition task_name (task : MaintenanceTask) : string :=
  match task with
  | RetryBacklog => "retry_backlog" | EventRetention => "event_retention"
  | HourlyRetention => "hourly_retention" | CounterReconciliation => "counter_reconciliation"
  | UploadExpiry => "upload_expiry" | BlobOrphanRegistration => "blob_orphan_registration"
  | MonitorTimeouts => "monitor_timeouts" | MonitorMissed => "monitor_missed"
  | MonitorRetention => "monitor_retention"
  end.
Definition TASKS : list MaintenanceTask :=
  [RetryBacklog; MonitorRetention; EventRetention; HourlyRetention; CounterReconciliation;
   UploadExpiry; BlobOrphanRegistration; MonitorTimeouts; MonitorMissed].

(** [MaintenanceCursor]: 1 to 32 bytes. *)
Definition cursor_new (bs : bytes) : option bytes :=
  if non_empty bs && (len bs <=? 32) then Some bs else None.
Inductive MaintenanceDisposition := MdCompleted | MdDisabled.
Record MaintenanceResult := {
  mt_scanned : Z;
  mt_changed : Z;
  mt_next_cursor : option bytes;
  mt_disposition : MaintenanceDisposition;
}.
Inductive MaintenanceStoreError := MsInvalidData | MsUnavailable.

Record SchedulerConfig := {
  sc_poll_interval : duration;
  sc_maintenance_interval : duration;
  sc_reconciliation_interval : duration;
  sc_backlog_interval : duration;
  sc_task_timeout : duration;
  sc_retry_base : duration;
  sc_retry_max : duration;
  sc_batch_size : Z;
  sc_event_retention : duration;
  sc_hourly_retention : duration;
  sc_archive_events : bool;
}.
Definition SECOND : duration := 1000 * NANOS_PER_MILLI.
Definition scheduler_default : SchedulerConfig :=
  {| sc_poll_interval := SECOND; sc_maintenance_interval := 60 * SECOND;
     sc_reconciliation_interval := 5 * 60 * SECOND; sc_backlog_interval := 5 * SECOND;
     sc_task_timeout := 10 * SECOND; sc_retry_base := SECOND; sc_retry_max := 60 * SECOND;
     sc_batch_size := 500; sc_event_retention := 30 * 24 * 60 * 60 * SECOND;
     sc_hourly_retention := 400 * 24 * 60 * 60 * SECOND; sc_archive_events := false |}.
Definition validate_config (c : SchedulerConfig) : bool :=
  negb (sc_poll_interval c =? 0) && negb (sc_maintenance_interval c =? 0)
  && negb (sc_reconciliation_interval c =? 0) && negb (sc_backlog_interval c =? 0)
  && negb (sc_task_timeout c =? 0) && negb (sc_retry_base c =? 0)
  && (sc_retry_base c <=? sc_retry_max c) && in_range 1 10000 (sc_batch_size c)
  && negb (sc_event_retention c =? 0) && negb (sc_hourly_retention c =? 0).

Record MaintenanceRequest := {
  mq_task : MaintenanceTask;
  mq_now : Timestamp;
  mq_cursor : option bytes;
  mq_batch_size : Z;
  mq_event_retention : duration;
  mq_hourly_retention : duration;
  mq_archive_events : bool;
}.

(** ** The states of the tasks *)

Record TaskState := {
  ts_next_due : Timestamp;
  ts_failures : Z;
  ts_cursor : option bytes;
  ts_running : bool;
}.
Abbreviation task_states := (gmap string TaskState).
(** [Scheduler::new]: [None] is [InvalidConfiguration]. *)
Definition scheduler_new (c : SchedulerConfig) (now : Timestamp) : option task_states :=
  if validate_config c then
    Some (list_to_map (map (λ task, (task_name task,
      {| ts_next_due := now; ts_failures := 0; ts_cursor := None; ts_running := false |})) TASKS))
  else None.

Record DueTask := { du_task : MaintenanceTask; du_scheduled_at : Timestamp; du_cursor : option bytes }.
(** What [run_due_once] does under the lock; [None] is the [expect]. *)
Fixpoint select_due (states : task_states) (tasks : list MaintenanceTask) (now : Timestamp)
    : option (task_states * list DueTask) :=
  match tasks with
  | [] => Some (states, [])
  | task :: tasks =>
      state ← states !! task_name task;
      if ts_running state || (now <? ts_next_due state) then select_due states tasks now
      else
        let claimed := {| ts_next_due := ts_next_due state; ts_failures := ts_failures state;
                          ts_cursor := ts_cursor state; ts_running := true |} in
        '(states, due) ← select_due (<[task_name task := claimed]> states) tasks now;
        Some (states, {| du_task := task; du_scheduled_at := ts_next_due state;
                         du_cursor := ts_cursor state |} :: due)
  end.

Definition interval_for (c : SchedulerConfig) (task : MaintenanceTask) : duration :=
  match task with
  | RetryBacklog | MonitorTimeouts | MonitorMissed => sc_backlog_interval c
  | CounterReconciliation => sc_reconciliation_interval c
  | EventRetention | MonitorRetention | HourlyRetention | UploadExpiry | BlobOrphanRegistration =>
      sc_maintenance_interval c
  end.
(** [add_duration]: the time itself where the sum is no timestamp. *)
Definition add_duration (timestamp : Timestamp) (d : duration) : Timestamp :=
  let millis := unwrap_or I64_MAX (checked_i64 (as_millis d)) in
  match from_unix_millis (sat_i64 (timestamp + millis)) with Ok t => t | Err _ => timestamp end.

Definition run_request (c : SchedulerConfig) (due : DueTask) (started_at : Timestamp)
    : MaintenanceRequest :=
  {| mq_task := du_task due; mq_now := started_at; mq_cursor := du_cursor due;
     mq_batch_size := sc_batch_size c; mq_event_retention := sc_event_retention c;
     mq_hourly_retention := sc_hourly_retention c; mq_archive_events := sc_archive_events c |}.
(** [1_u32.checked_shl(n).unwrap_or(u32::MAX)] with [n] at most 31. *)
Definition failure_multiplier (failures : Z) : Z := Z.shiftl 1 (Z.min (Z.max (failures - 1) 0) 31).
Definition failure_delay (c : SchedulerConfig) (failures : Z) : duration :=
  Z.min (unwrap_or (sc_retry_max c) (duration_checked_mul (sc_retry_base c) (failure_multiplier failures)))
        (sc_retry_max c).
Definition record_failure (c : SchedulerConfig) (state : TaskState) (now : Timestamp) : TaskState :=
  let failures := sat_u32 (ts_failures state + 1) in
  {| ts_next_due := add_duration now (failure_delay c failures); ts_failures := failures;
     ts_cursor := ts_cursor state; ts_running := false |}.
(** How the call of the store ended. *)
Inductive RunOutcome :=
| Reported (report : MaintenanceResult) | StoreFailed (e : MaintenanceStoreError) | TimedOut | Panicked.
Definition completed_state (c : SchedulerConfig) (task : MaintenanceTask) (state : TaskState)
    (completed_at : Timestamp) (outcome : RunOutcome) : TaskState :=
  match outcome with
  | Reported report =>
      let delay := if is_some (mt_next_cursor report) then sc_poll_interval c else interval_for c task in
      {| ts_next_due := add_duration completed_at delay; ts_failures := 0;
         ts_cursor := mt_next_cursor report; ts_running := false |}
  | StoreFailed _ | TimedOut | Panicked => record_failure c state completed_at
  end.
(** [run_task] after the call: [None] is the [expect]. *)
Definition complete_task (c : SchedulerConfig) (states : task_states) (task : MaintenanceTask)
    (completed_at : Timestamp) (outcome : RunOutcome) : option task_states :=
  state ← states !! task_name task;
  Some (<[task_name task := completed_state c task state completed_at outcome]> states).

(** ** Callers of [run_due_once], interleaved *)

(** One call: the request the store is working on, and the due tasks left. *)
Record Run := { ru_active : option MaintenanceRequest; ru_left : list DueTask }.
Record Scheduler := { sd_states : task_states; sd_runs : list Run }.
Inductive step (c : SchedulerConfig) : Scheduler → Scheduler → Prop :=
| step_select s states now due :
    select_due (sd_states s) TASKS now = Some (states, due) →
    step c s {| sd_states := states; sd_runs := sd_runs s ++ [{| ru_active := None; ru_left := due |}] |}
| step_start s i due left_ started_at :
    sd_runs s !! i = Some {| ru_active := None; ru_left := due :: left_ |} →
    step c s {| sd_states := sd_states s;
                sd_runs := <[i := {| ru_active := Some (run_request c due started_at); ru_left := left_ |}]>
                             (sd_runs s) |}
| step_complete s states i request left_ completed_at outcome :
    sd_runs s !! i = Some {| ru_active := Some request; ru_left := left_ |} →
    complete_task c (sd_states s) (mq_task request) completed_at outcome = Some states →
    step c s {| sd_states := states;
                sd_runs := <[i := {| ru_active := None; ru_left := left_ |}]> (sd_runs s) |}
| step_return s i :
    sd_runs s !! i = Some {| ru_active := None; ru_left := [] |} →
    step c s {| sd_states := sd_states s; sd_runs := delete i (sd_runs s) |}.
Definition reachable (c : SchedulerConfig) (s : Scheduler) : Prop :=
  ∃ now states, scheduler_new c now = Some states
    ∧ rtc (step c) {| sd_states := states; sd_runs := [] |} s.

(** ** What the scheduler guarantees *)

Lemma task_name_inj t u : task_name t = task_name u → t = u.
Proof. by destruct t, u. Qed.
Lemma tasks_all t : t ∈ TASKS.
Proof. apply list_elem_of_In. unfold TASKS. destruct t; cbn; tauto. Qed.
Lemma tasks_nodup : NoDup TASKS.
Proof. apply (bool_decide_unpack _). vm_compute. exact I. Qed.

Definition claim (st : TaskState) : TaskState :=
  {| ts_next_due := ts_next_due st; ts_failures := ts_failures st; ts_cursor := ts_cursor st;
     ts_running := true |}.
Definition is_due (now : Timestamp) (st : TaskState) : Prop := ts_running st = false ∧ ts_next_due st ≤ now.
Lemma select_due_spec now tasks : ∀ states, NoDup tasks → (∀ t, is_Some (states !! task_name t)) →
  ∃ states' due, select_due states tasks now = Some (states', due)
  ∧ NoDup (map du_task due) ∧ (∀ t, is_Some (states' !! task_name t))
  ∧ (∀ t, t ∈ map du_task due ↔ t ∈ tasks ∧ ∃ st, states !! task_name t = Some st ∧ is_due now st)
  ∧ (∀ t, t ∉ map du_task due → states' !! task_name t = states !! task_name t)
  ∧ (∀ t st, t ∈ map du_task due → states !! task_name t = Some st → states' !! task_name t = Some (claim st)).
Proof.
  induction tasks as [|task tasks IH]; intros states Hn Hs; cbn [select_due].
  - exists states, []. cbn [map]. split; [done|]. split; [apply NoDup_nil_2|]. split; [done|].
    setoid_rewrite elem_of_nil. naive_solver.
  - inversion_clear Hn as [|? ? Hnin Hn']. destruct (Hs task) as [st Hst]. rewrite Hst. cbn [mbind option_bind].
    destruct (ts_running st || (now <? ts_next_due st)) eqn:Hb.
    + destruct (IH states Hn' Hs) as (states' & due & E & H1 & H2 & H3 & H4 & H5).
      exists states', due. split_and!; try done. intros t. rewrite H3, elem_of_cons. split.
      * intros [? ?]. split; [by right|done].
      * intros [[->|Ht] Hd]; [|done]. destruct Hd as (st' & Hst' & Hr & Hd).
        rewrite Hst in Hst'. injection Hst' as <-. rewrite Hr in Hb. apply Z.ltb_lt in Hb. lia.
    + apply orb_false_iff in Hb as [Hr Hd%Z.ltb_ge].
      destruct (IH (<[task_name task := claim st]> states) Hn') as (states' & due & E & H1 & H2 & H3 & H4 & H5).
      { intros t. destruct (decide (task_name task = task_name t)) as [->|]; [rewrite lookup_insert_eq; by eexists|].
        by rewrite lookup_insert_ne. }
      unfold claim in E. rewrite E. cbn [mbind option_bind].
      assert (task ∉ map du_task due) as Htd by (intros [Ht _]%H3; done).
      assert (∀ t, t ≠ task → <[task_name task := claim st]> states !! task_name t = states !! task_name t) as Hne.
      { intros t Ht. apply lookup_insert_ne. intros ?%task_name_inj. congruence. }
      eexists states', (_ :: due). split; [done|]. cbn [map du_task].
      split_and!; [by constructor|done|..].
      * intros t. rewrite !elem_of_cons, H3. split.
        -- intros [->|[Ht (st' & Hst' & Hd')]]; [split; [by left|by exists st]|].
           split; [by right|]. exists st'. split; [|done]. rewrite Hne in Hst'; [done|]. by intros ->.
        -- intros [[->|Ht] (st' & Hst' & Hd')]; [by left|]. right. split; [done|]. exists st'.
           split; [|done]. rewrite Hne; [done|]. by intros ->.
      * intros t Ht. apply not_elem_of_cons in Ht as [Ht1 Ht2]. rewrite H4 by done. by apply Hne.
      * intros t st' Ht Hst'. apply elem_of_cons in Ht as [->|Ht].
        -- rewrite Hst in Hst'. injection Hst' as <-. rewrite H4 by done. apply lookup_insert_eq.
        -- apply H5; [done|]. rewrite Hne; [done|]. by intros ->.
Qed.

(** The tasks some caller has claimed and not completed. *)
Definition run_tasks (r : Run) : list MaintenanceTask :=
  option_list (mq_task <$> ru_active r) ++ map du_task (ru_left r).
Definition claimed (s : Scheduler) : list MaintenanceTask := concat (map run_tasks (sd_runs s)).
Record scheduler_ok (s : Scheduler) : Prop := {
  ok_once : NoDup (claimed s);
  ok_states : ∀ t, is_Some (sd_states s !! task_name t);
  ok_running : ∀ t st, sd_states s !! task_name t = Some st → ts_running st = true ↔ t ∈ claimed s;
}.
Lemma claimed_at (runs : list Run) i r : runs !! i = Some r →
  concat (map run_tasks runs) ≡ₚ run_tasks r ++ concat (map run_tasks (delete i runs)).
Proof. intros Hi. rewrite (delete_Permutation runs i r Hi) at 1. done. Qed.
Lemma claimed_insert (runs : list Run) i r r' : runs !! i = Some r →
  concat (map run_tasks (<[i := r']> runs)) ≡ₚ run_tasks r' ++ concat (map run_tasks (delete i runs)).
Proof.
  intros Hi. rewrite (claimed_at _ i r') by (apply list_lookup_insert_eq; by eapply lookup_lt_Some).
  by rewrite !delete_take_drop, take_insert_ge, drop_insert_lt by lia.
Qed.

Lemma scheduler_ok_step c s s' : scheduler_ok s → step c s s' → scheduler_ok s'.
Proof.
  intros [Ho Hs Hr] Hstep. inversion Hstep as [? states now due E|? i due left_ at_ Hi|? states i request left_ at_ outcome Hi E|? i Hi]; subst.
  - destruct (select_due_spec now TASKS (sd_states s) tasks_nodup Hs) as (st' & due' & E' & H1 & H2 & H3 & H4 & H5).
    rewrite E in E'. injection E' as <- <-.
    assert (claimed {| sd_states := states; sd_runs := sd_runs s ++ [{| ru_active := None; ru_left := due |}] |}
      = claimed s ++ map du_task due) as Hcl.
    { unfold claimed. cbn. rewrite map_app, concat_app. cbn. by rewrite app_nil_r. }
    constructor; rewrite ?Hcl; cbn [sd_states]; [|done|].
    + apply NoDup_app. split; [done|]. split; [|done]. intros t Ht Hd. apply H3 in Hd as [_ (st & Hst & Hrun & _)].
      apply (Hr t st Hst) in Ht. congruence.
    + intros t st Hst. rewrite elem_of_app. destruct (decide (t ∈ map du_task due)) as [Hin|Hin].
      * destruct (Hs t) as [st0 Hst0]. rewrite (H5 t st0 Hin Hst0) in Hst. injection Hst as <-. cbn. tauto.
      * rewrite H4 in Hst by done. rewrite (Hr t st Hst). tauto.
  - pose proof (claimed_insert _ i _ {| ru_active := Some (run_request c due at_); ru_left := left_ |} Hi) as Hp.
    rewrite <- (claimed_at _ i {| ru_active := None; ru_left := due :: left_ |} Hi) in Hp.
    constructor; unfold claimed in *; cbn [sd_states sd_runs]; [by rewrite Hp|done|].
    intros t st Hst. rewrite Hp. by apply Hr.
  - unfold complete_task in E. destruct (sd_states s !! task_name (mq_task request)) as [st0|] eqn:Hst0; [|done].
    injection E as <-. pose proof (claimed_insert _ i _ {| ru_active := None; ru_left := left_ |} Hi) as Hp.
    pose proof (claimed_at _ i _ Hi) as Hq. unfold run_tasks at 2 in Hq. cbn in Hq, Hp.
    unfold claimed in *. rewrite Hq in Ho. apply NoDup_cons in Ho as [Hnin Ho].
    constructor; unfold claimed; cbn [sd_states sd_runs].
    + by rewrite Hp.
    + intros t. destruct (decide (task_name (mq_task request) = task_name t)) as [->|Hn];
        [rewrite lookup_insert_eq; by eexists|by rewrite lookup_insert_ne].
    + intros t st Hst. rewrite Hp. destruct (decide (mq_task request = t)) as [<-|Hn].
      * rewrite lookup_insert_eq in Hst. injection Hst as <-.
        assert (ts_running (completed_state c (mq_task request) st0 at_ outcome) = false) as -> by by destruct outcome.
        split; [done|]. done.
      * rewrite lookup_insert_ne in Hst by (intros ?%task_name_inj; congruence).
        rewrite (Hr t st Hst), Hq, elem_of_cons. intuition congruence.
  - pose proof (claimed_at _ i _ Hi) as Hq. cbn in Hq. unfold claimed in *.
    constructor; unfold claimed; cbn [sd_states sd_runs]; [by rewrite <- Hq|done|].
    intros t st Hst. rewrite <- Hq. by apply Hr.
Qed.
Lemma scheduler_new_ok c now states : scheduler_new c now = Some states →
  scheduler_ok {| sd_states := states; sd_runs := [] |}.
Proof.
  unfold scheduler_new. destruct (validate_config c); [|done]. intros [= <-]. constructor; [constructor|..]; cbn [sd_states].
  - intros t. by destruct t; vm_compute; eexists.
  - intros t st Hst. rewrite elem_of_nil. split; [|done]. by destruct t; vm_compute in Hst; injection Hst as <-.
Qed.
Lemma reachable_scheduler_ok c s : reachable c s → scheduler_ok s.
Proof.
  intros (now & states & E & Hs). apply scheduler_new_ok in E. remember {| sd_states := states; sd_runs := [] |} as s0.
  clear Heqs0 states now. induction Hs as [|x y z Hxy Hyz IH]; [done|]. by apply IH; eapply scheduler_ok_step.
Qed.

(** C28. Whatever calls of [run_due_once] are interleaved, a task is claimed at most
    once at a time, its flag says whether it is claimed, the two [expect]s cannot
    fail, and a call claims exactly the tasks that are due and not claimed. *)
Theorem scheduler_runs_exclusively c s : reachable c s →
  NoDup (claimed s)
  ∧ (∀ t st, sd_states s !! task_name t = Some st → ts_running st = true ↔ t ∈ claimed s)
  ∧ (∀ now, ∃ states due, select_due (sd_states s) TASKS now = Some (states, due)
      ∧ NoDup (map du_task due)
      ∧ ∀ t, t ∈ map du_task due ↔
             (t ∉ claimed s) ∧ ∃ st, sd_states s !! task_name t = Some st ∧ ts_next_due st ≤ now)
  ∧ (∀ t completed_at outcome, is_Some (complete_task c (sd_states s) t completed_at outcome)).
Proof.
  intros [Ho Hs Hr]%reachable_scheduler_ok. split_and!; [done..| |].
  - intros now. destruct (select_due_spec now TASKS (sd_states s) tasks_nodup Hs) as (st' & due & E & H1 & _ & H3 & _).
    exists st', due. split; [done|]. split; [done|]. intros t. rewrite H3. split.
    + intros [_ (st & Hst & Hrun & Hd)]. split; [|by exists st]. rewrite <- (Hr t st Hst). congruence.
    + intros [Hn (st & Hst & Hd)]. split; [apply tasks_all|]. exists st. split; [done|]. split; [|done].
      apply not_true_is_false. by rewrite (Hr t st Hst).
  - intros t at_ outcome. unfold complete_task. destruct (Hs t) as [st ->]. by eexists.
Qed.
(** A scheduler of the default configuration whose first call has claimed every task. *)
Definition sample_claims : task_states * list DueTask :=
  unwrap_or (∅, []) (scheduler_new scheduler_default 1000 ≫= λ states, select_due states TASKS 1000).
Definition sample_scheduler : Scheduler :=
  {| sd_states := sample_claims.1; sd_runs := [{| ru_active := None; ru_left := sample_claims.2 |}] |}.
Lemma scheduler_runs_exclusively_witness :
  reachable scheduler_default sample_scheduler ∧ claimed sample_scheduler = TASKS
  ∧ NoDup (claimed sample_scheduler).
Proof.
  assert (reachable scheduler_default sample_scheduler) as Hr.
  { exists 1000, (unwrap_or ∅ (scheduler_new scheduler_default 1000)). split.
    - assert (bool_decide (is_Some (scheduler_new scheduler_default 1000)) = true) as Hs by (vm_compute; reflexivity).
      apply bool_decide_eq_true in Hs as [states ->]. reflexivity.
    - apply rtc_once. by eapply (step_select _ {| sd_states := _; sd_runs := [] |} sample_claims.1 1000). }
  split; [done|]. split; [by vm_compute|]. apply (scheduler_runs_exclusively _ _ Hr).
Defined.

(** *** When a task runs again *)

Lemma failure_multiplier_pow failures : 1 ≤ failures →
  failure_multiplier failures = 2 ^ Z.min (failures - 1) 31.
Proof.
  intros. unfold failure_multiplier. rewrite Z.shiftl_1_l. by rewrite (Z.max_l (failures - 1)) by lia.
Qed.
Lemma failure_delay_value c failures :
  0 ≤ sc_retry_base c → sc_retry_max c ≤ DURATION_MAX → 1 ≤ failures →
  failure_delay c failures = Z.min (sc_retry_base c * 2 ^ Z.min (failures - 1) 31) (sc_retry_max c).
Proof.
  intros Hb Hm Hf. unfold failure_delay, duration_checked_mul. rewrite failure_multiplier_pow by done.
  assert (0 < 2 ^ Z.min (failures - 1) 31) by (apply Z.pow_pos_nonneg; lia).
  unfold checked, in_range. destruct (_ && _) eqn:E; cbn [unwrap_or]; [done|].
  rewrite !andb_false_iff, !Z.leb_gt in E. destruct E; nia.
Qed.

Lemma add_duration_value t d : timestamp_valid t → 0 ≤ d →
  add_duration t d = if t + as_millis d <=? MAX_TIMESTAMP_MILLIS then t + as_millis d else t.
Proof.
  unfold timestamp_valid, add_duration, MIN_TIMESTAMP_MILLIS, MAX_TIMESTAMP_MILLIS. intros Ht Hd.
  assert (0 ≤ as_millis d) as Hm by (unfold as_millis, NANOS_PER_MILLI; apply Z.div_pos; lia).
  unfold from_unix_millis, in_range, MIN_TIMESTAMP_MILLIS, MAX_TIMESTAMP_MILLIS, sat_i64, saturate.
  set (millis := unwrap_or I64_MAX (checked_i64 (as_millis d))).
  assert (millis = as_millis d ∨ millis = I64_MAX ∧ I64_MAX < as_millis d) as Hv.
  { subst millis. unfold checked_i64, checked, in_range.
    destruct (_ && _) eqn:E; cbn [unwrap_or]; [by left|right; split; [done|]].
    apply andb_false_iff in E as [E|E]; apply Z.leb_gt in E; unfold I64_MIN, I64_MAX in *; lia. }
  clearbody millis. unfold I64_MIN, I64_MAX in *.
  destruct (_ && _) eqn:E; [apply andb_true_iff in E as [_ E%Z.leb_le]|].
  - destruct (Z.leb_spec (t + as_millis d) 253402300799999); lia.
  - apply andb_false_iff in E as [E|E]; apply Z.leb_gt in E;
      destruct (Z.leb_spec (t + as_millis d) 253402300799999); lia.
Qed.

(** The intervals as the code's type has them. *)
Definition intervals_typed (c : SchedulerConfig) : Prop :=
  0 ≤ sc_poll_interval c ≤ DURATION_MAX ∧ 0 ≤ sc_maintenance_interval c ≤ DURATION_MAX
  ∧ 0 ≤ sc_reconciliation_interval c ≤ DURATION_MAX ∧ 0 ≤ sc_backlog_interval c ≤ DURATION_MAX
  ∧ 0 ≤ sc_retry_base c ≤ DURATION_MAX ∧ 0 ≤ sc_retry_max c ≤ DURATION_MAX.
Lemma validate_config_positive c : validate_config c = true → intervals_typed c →
  0 < sc_poll_interval c ∧ 0 < sc_maintenance_interval c ∧ 0 < sc_reconciliation_interval c
  ∧ 0 < sc_backlog_interval c ∧ 0 < sc_retry_base c ∧ sc_retry_base c ≤ sc_retry_max c.
Proof.
  unfold validate_config, intervals_typed. rewrite !andb_true_iff, !negb_true_iff, !Z.eqb_neq, !Z.leb_le. lia.
Qed.

(** A report sets the failures back and schedules the task after the poll interval
    while a cursor is left, else after the task's own interval; every kind of
    failure keeps the cursor, counts and delays by the base doubled with every
    failure in a row up to the greatest delay.  A time beyond the greatest
    timestamp is the time of completion itself. *)
Theorem completed_state_exact c task state completed_at outcome :
  validate_config c = true → intervals_typed c → timestamp_valid completed_at → 0 ≤ ts_failures state ≤ U32_MAX →
  let failures := Z.min (ts_failures state + 1) U32_MAX in
  let '(delay, failures, cursor) :=
    match outcome with
    | Reported report =>
        (if is_some (mt_next_cursor report) then sc_poll_interval c else interval_for c task,
         0, mt_next_cursor report)
    | _ => (Z.min (sc_retry_base c * 2 ^ Z.min (ts_failures state) 31) (sc_retry_max c),
            failures, ts_cursor state)
    end in
  completed_state c task state completed_at outcome =
    {| ts_next_due := if completed_at + as_millis delay <=? MAX_TIMESTAMP_MILLIS
                      then completed_at + as_millis delay else completed_at;
       ts_failures := failures; ts_cursor := cursor; ts_running := false |}
  ∧ 0 < delay.
Proof.
  intros Hv Hm Ht Hf failures. destruct (validate_config_positive c Hv Hm) as (Hp & Hi & Hrc & Hb & Hrb & Hbm).
  destruct Hm as (_ & _ & _ & _ & _ & [_ Hm]).
  assert (0 < interval_for c task) by by destruct task.
  assert (sat_u32 (ts_failures state + 1) = failures) as Hs
    by (unfold sat_u32, saturate, failures, U32_MAX in *; lia).
  assert (1 ≤ failures ∧ Z.min (failures - 1) 31 = Z.min (ts_failures state) 31) as [Hf1 Hf2]
    by (unfold failures, U32_MAX in *; lia).
  assert (0 < 2 ^ Z.min (ts_failures state) 31) by (apply Z.pow_pos_nonneg; lia).
  assert (0 < Z.min (sc_retry_base c * 2 ^ Z.min (ts_failures state) 31) (sc_retry_max c)) by nia.
  assert (record_failure c state completed_at =
    {| ts_next_due := if completed_at + as_millis (failure_delay c failures) <=? MAX_TIMESTAMP_MILLIS
                      then completed_at + as_millis (failure_delay c failures) else completed_at;
       ts_failures := failures; ts_cursor := ts_cursor state; ts_running := false |}) as Hrec.
  { unfold record_failure. rewrite Hs, add_duration_value; [done..|]. rewrite failure_delay_value, Hf2; lia. }
  rewrite failure_delay_value, Hf2 in Hrec by lia.
  destruct outcome as [report| | |]; cbn [completed_state]; [|by split..].
  destruct (is_some (mt_next_cursor report)); (split; [|done]); by rewrite add_duration_value by (done || lia).
Qed.
(** The fourth failure in a row of the default configuration is retried after 8 seconds. *)
Lemma completed_state_exact_witness :
  let state := {| ts_next_due := 0; ts_failures := 3; ts_cursor := None; ts_running := true |} in
  completed_state scheduler_default RetryBacklog state 1000 TimedOut =
    {| ts_next_due := 9000; ts_failures := 4; ts_cursor := None; ts_running := false |}.
Proof.
  set (state := {| ts_next_due := 0; ts_failures := 3; ts_cursor := None; ts_running := true |}).
  refine (proj1 (completed_state_exact scheduler_default RetryBacklog state 1000 TimedOut _ _ _ _));
    first [by vm_compute|unfold timestamp_valid, intervals_typed; vm_compute; intuition congruence].
Defined.
