(* ===== verification/Uptime.v ===== *)
(** * The uptime runner

    [application/src/uptime.rs]: a run claims the monitors that are due, orders
    them so that every host gets its turn, checks them with bounded concurrency
    per host and overall, and stores one run per monitor.  The run is a program
    over its ports; the checks in flight are the states of a relation. *)
From stdpp Require Import base list numbers strings sets sorting relations.
From Stdlib Require Import ZArith Lia.
From S2P Require Import Prelude External Primitives Identity Monitors Normalizer Effects SignalWriters IngestTheory.

Open Scope prog_scope.

Record UptimeSchedulerConfig := {
  uc_poll_interval : duration;
  uc_lease : duration;
  uc_batch_size : Z;
  uc_global_concurrency : Z;
  uc_per_host_concurrency : Z;
  uc_retention_days : Z;
}.
Definition uptime_default : UptimeSchedulerConfig :=
  {| uc_poll_interval := 5000 * NANOS_PER_MILLI; uc_lease := 180000 * NANOS_PER_MILLI;
     uc_batch_size := 100; uc_global_concurrency := 16; uc_per_host_concurrency := 2;
     uc_retention_days := 90 |}.
Inductive UptimeSchedulerError := UptimeInvalidConfiguration | UptimeStorage.
(** The test [UptimeScheduler::new] makes. *)
Definition uptime_new (c : UptimeSchedulerConfig) : result UptimeSchedulerError unit :=
  if (uc_poll_interval c =? 0) || (uc_lease c <=? uc_poll_interval c)
     || negb (in_range 1 1000 (uc_batch_size c)) || negb (in_range 1 256 (uc_global_concurrency c))
     || negb (in_range 1 32 (uc_per_host_concurrency c)) || (uc_retention_days c =? 0)
  then Err UptimeInvalidConfiguration else Ok tt.

Record UptimeCheckResult := {
  ur_http_status : option Z;
  ur_failure : option UptimeFailure;
  ur_duration_ms : Z;
}.

Definition uptime_add_duration (timestamp : Timestamp) (d : duration) : Timestamp :=
  let millis := unwrap_or I64_MAX (checked_i64 (as_millis d)) in
  match from_unix_millis (sat_i64 (timestamp + millis)) with Ok t => t | Err _ => timestamp end.
Definition DAY_MILLIS : Z := 86400000.
Definition add_days (value : Timestamp) (days : Z) : option Timestamp :=
  millis ← checked_i64 (days * DAY_MILLIS);
  total ← checked_i64 (value + millis);
  match from_unix_millis total with Ok t => Some t | Err _ => None end.

(** ** Turns *)

(** [BTreeMap::entry(host).or_default().push_back(monitor)], the entries in key order. *)
Fixpoint group_push {A} (groups : list (str * list A)) (host : str) (a : A) : list (str * list A) :=
  match groups with
  | [] => [(host, [a])]
  | (h, queue) :: rest =>
      if bool_decide (h = host) then (h, queue ++ [a]) :: rest
      else if str_ltb host h then (host, [a]) :: groups
      else (h, queue) :: group_push rest host a
  end.
(** One [retain]: the front of each queue, and the queues that are not empty then. *)
Fixpoint take_round {A} (groups : list (str * list A)) : list A * list (str * list A) :=
  match groups with
  | [] => ([], [])
  | (h, queue) :: rest =>
      let '(taken, rest) := take_round rest in
      match queue with
      | [] => (taken, rest)
      | [a] => (a :: taken, rest)
      | a :: queue => (a :: taken, (h, queue) :: rest)
      end
  end.
Fixpoint take_rounds {A} (fuel : nat) (groups : list (str * list A)) : list A :=
  match fuel, groups with
  | O, _ | _, [] => []
  | S fuel, _ => let '(taken, groups) := take_round groups in taken ++ take_rounds fuel groups
  end.

Abbreviation completed_check := (result SignalStoreError (MonitorDefinition * UptimeCheckResult)).

Section uptime.
Context {Url : Type} `{!UrlApi Url} `{!Blake3}.

Definition monitor_host (m : MonitorDefinition) : option str :=
  uptime ← md_uptime m;
  match host_key (Url := Url) (u_endpoint uptime) with Ok host => Some host | Err _ => None end.
Definition host_groups (monitors : list MonitorDefinition) : list (str * list MonitorDefinition) :=
  foldl (λ groups m, match monitor_host m with Some host => group_push groups host m | None => groups end)
    [] monitors.
(** The loop runs until the groups are empty; each round takes one monitor at least. *)
Definition fair_by_host (monitors : list MonitorDefinition) : list MonitorDefinition :=
  take_rounds (length monitors) (host_groups monitors).

(** ** A run *)

Inductive UptimeCall :=
| UClockNow | ClaimDueUptime (now lease_until : Timestamp) (batch_size : Z)
| ExecuteCheck (monitor : MonitorDefinition) | PersistRuns (updates : list MonitorUpdate).
Definition uptime_answer (c : UptimeCall) : Type :=
  match c with
  | UClockNow => Timestamp
  | ClaimDueUptime _ _ _ => result SignalStoreError (list MonitorDefinition)
  | ExecuteCheck _ => result SignalStoreError UptimeCheckResult
  | PersistRuns _ => result SignalStoreError unit
  end.
Definition UptimeSig : signature := Signature UptimeCall uptime_answer.
Abbreviation uptime_run A := (prog UptimeSig (result UptimeSchedulerError A)).

(** The checks one after another, in the order in which they complete. *)
Fixpoint execute_all (monitors : list MonitorDefinition) : prog UptimeSig (list completed_check) :=
  match monitors with
  | [] => mret []
  | m :: monitors =>
      r ← perform (E := UptimeSig) (ExecuteCheck m);
      completed ← execute_all monitors;
      mret (match (r : result SignalStoreError UptimeCheckResult) with Ok r => Ok (m, r) | Err e => Err e end :: completed)
  end.
Definition check_status (r : UptimeCheckResult) : MonitorRunStatus :=
  if is_none (ur_failure r) then Success
  else if bool_decide (ur_failure r = Some FTimeout) then Timeout else Error.
Definition check_update (m : MonitorDefinition) (r : UptimeCheckResult) (now finished_at delete_at : Timestamp)
    : MonitorUpdate :=
  {| mu_definition := None;
     mu_run := {| mr_id := monitor_run_uptime (md_id m) (md_next_expected_at m);
                  mr_project_id := md_project_id m; mr_monitor_id := md_id m; mr_check_in_id := None;
                  mr_status := check_status r; mr_source := Scheduler;
                  mr_scheduled_for := Some (md_next_expected_at m); mr_started_at := now;
                  mr_finished_at := Some finished_at; mr_duration_ms := Some (ur_duration_ms r);
                  mr_received_at := finished_at; mr_release_id := None; mr_timeout_at := None;
                  mr_delete_at := Some delete_at; mr_http_status := ur_http_status r;
                  mr_uptime_failure := ur_failure r |} |}.
Fixpoint check_updates (completed : list completed_check) (now finished_at delete_at : Timestamp)
    : result UptimeSchedulerError (list MonitorUpdate) :=
  match completed with
  | [] => Ok []
  | Err _ :: _ => Err UptimeStorage
  | Ok (m, r) :: completed =>
      updates ← check_updates completed now finished_at delete_at;
      Ok (check_update m r now finished_at delete_at :: updates)
  end.
(** [order] is the order in which the checks complete. *)
Definition run_once (c : UptimeSchedulerConfig) (order : list MonitorDefinition → list MonitorDefinition)
    : uptime_run Z :=
  now ← perform (E := UptimeSig) UClockNow;
  let lease_until := uptime_add_duration now (uc_lease c) in
  claimed ←? map_err_p (λ _, UptimeStorage)
               (perform (E := UptimeSig) (ClaimDueUptime now lease_until (uc_batch_size c)));
  if is_empty claimed then mret (Ok 0)
  else
    let claimed := fair_by_host claimed in
    if existsb (λ m, is_none (monitor_host m)) claimed then mret (Err UptimeStorage)
    else
      completed ← execute_all (order claimed);
      finished_at ← perform (E := UptimeSig) UClockNow;
      delete_at ←! ok_or UptimeStorage (add_days finished_at (uc_retention_days c));
      updates ←! check_updates completed now finished_at delete_at;
      _ ←? map_err_p (λ _, UptimeStorage) (perform (E := UptimeSig) (PersistRuns updates));
      mret (Ok (len updates)).

(** ** The checks in flight *)

(** [buffer_unordered] polls at most [global_concurrency] futures; each waits for a
    permit of its host, executes, and its result is collected. *)
Record Checks := {
  ck_queue : list MonitorDefinition;
  ck_waiting : list MonitorDefinition;
  ck_running : list MonitorDefinition;
  ck_completed : list MonitorDefinition;
}.
Definition host_running (s : Checks) (m : MonitorDefinition) : list MonitorDefinition :=
  filter (λ m', monitor_host m' = monitor_host m) (ck_running s).
Inductive check_step (c : UptimeSchedulerConfig) : Checks → Checks → Prop :=
| check_poll m queue waiting running completed :
    len waiting + len running < uc_global_concurrency c →
    check_step c {| ck_queue := m :: queue; ck_waiting := waiting; ck_running := running; ck_completed := completed |}
                 {| ck_queue := queue; ck_waiting := waiting ++ [m]; ck_running := running; ck_completed := completed |}
| check_acquire m queue before after running completed :
    len (filter (λ m', monitor_host m' = monitor_host m) running) < uc_per_host_concurrency c →
    check_step c {| ck_queue := queue; ck_waiting := before ++ m :: after; ck_running := running; ck_completed := completed |}
                 {| ck_queue := queue; ck_waiting := before ++ after; ck_running := running ++ [m]; ck_completed := completed |}
| check_complete m queue waiting before after completed :
    check_step c {| ck_queue := queue; ck_waiting := waiting; ck_running := before ++ m :: after; ck_completed := completed |}
                 {| ck_queue := queue; ck_waiting := waiting; ck_running := before ++ after; ck_completed := completed ++ [m] |}.
Definition checks_start (monitors : list MonitorDefinition) : Checks :=
  {| ck_queue := monitors; ck_waiting := []; ck_running := []; ck_completed := [] |}.
End uptime.

(** ** Turns are fair *)

Ltac decs := repeat match goal with |- context [bool_decide ?P] =>
  first [rewrite (bool_decide_eq_true_2 P) by congruence | rewrite (bool_decide_eq_false_2 P) by congruence] end.

Section turns.
Context {A : Type}.
Implicit Types groups : list (str * list A).

(** The queue of a host, and what the [k]-th round takes. *)
Fixpoint queue_of groups (host : str) : list A :=
  match groups with
  | [] => []
  | (h, queue) :: groups => if bool_decide (h = host) then queue else queue_of groups host
  end.
Definition round groups (k : nat) : list A := omap (λ g : str * list A, g.2 !! k) groups.

Lemma group_push_host groups host a g : g ∈ group_push groups host a → g.1 = host ∨ ∃ g', g' ∈ groups ∧ g.1 = g'.1.
Proof.
  induction groups as [|[h queue] groups IH]; cbn; [set_solver|].
  case_bool_decide; [set_solver|]. destruct (str_ltb host h); set_solver.
Qed.
Lemma group_push_sorted groups host a : key_sorted groups → key_sorted (group_push groups host a).
Proof.
  unfold key_sorted. induction groups as [|[h queue] groups IH]; cbn; [by repeat constructor|].
  intros [Hs Hh]%StronglySorted_inv. case_bool_decide as E; [subst; by constructor|].
  destruct (str_ltb host h) eqn:El.
  - constructor; [by constructor|]. constructor; [done|]. eapply Forall_impl; [done|]. intros x Hx. by eapply str_ltb_trans.
  - constructor; [by apply IH|]. apply Forall_forall. intros g [Hg|(g' & Hg' & Hg)]%group_push_host; cbn.
    + rewrite Hg. by apply str_ltb_total.
    + rewrite Hg. rewrite Forall_forall in Hh. by apply Hh.
Qed.
Lemma str_ltb_irrefl s : str_ltb s s = false.
Proof. induction s as [|x s IH]; [done|]. cbn. by rewrite Z.ltb_irrefl, IH, andb_false_r. Qed.
Lemma queue_of_nil groups host : Forall (λ g : str * list A, str_ltb host g.1 = true) groups → queue_of groups host = [].
Proof.
  induction 1 as [|[h queue] groups Hh _ IH]; [done|]. cbn in *. case_bool_decide as E; [|done].
  subst. by rewrite str_ltb_irrefl in Hh.
Qed.
Lemma queue_of_push groups host a h : key_sorted groups →
  queue_of (group_push groups host a) h = if bool_decide (h = host) then queue_of groups host ++ [a] else queue_of groups h.
Proof.
  unfold key_sorted. induction groups as [|[h' queue] groups IH]; cbn; intros Hs.
  - repeat case_bool_decide; congruence.
  - apply StronglySorted_inv in Hs as [Hs Hh]. specialize (IH Hs).
    destruct (decide (h' = host)) as [->|Hn]; decs; cbn; [destruct (decide (h = host)) as [->|]; by decs|].
    destruct (str_ltb host h') eqn:El; cbn; destruct (decide (h = host)) as [->|Hh']; decs; [|done| |].
    + rewrite queue_of_nil; [done|]. eapply Forall_impl; [done|]. intros g Hg. by eapply str_ltb_trans.
    + rewrite IH. by decs.
    + rewrite IH. destruct (decide (h' = h)); by decs.
Qed.
Lemma group_push_hosts groups host a h :
  h ∈ map fst (group_push groups host a) ↔ h = host ∨ h ∈ map fst groups.
Proof.
  induction groups as [|[h' queue] groups IH]; cbn; [set_solver|].
  case_bool_decide; [set_solver|]. destruct (str_ltb host h'); set_solver.
Qed.
Lemma group_push_Permutation groups host a :
  concat (map snd (group_push groups host a)) ≡ₚ a :: concat (map snd groups).
Proof.
  induction groups as [|[h queue] groups IH]; cbn; [done|]. case_bool_decide; cbn.
  - rewrite <- app_assoc. cbn. by rewrite Permutation_middle.
  - destruct (str_ltb host h); cbn; [done|]. rewrite IH. by rewrite Permutation_middle.
Qed.

Lemma sorted_queues groups : key_sorted groups → groups = map (λ h, (h, queue_of groups h)) (map fst groups).
Proof.
  unfold key_sorted. induction groups as [|[h queue] groups IH]; [done|]. intros [Hs Hh]%StronglySorted_inv. cbn.
  rewrite bool_decide_eq_true_2 by done. f_equal. rewrite IH at 1 by done. apply List.map_ext_in. intros h' Hh'%list_elem_of_In. revert Hh'.
  intros (g & -> & Hg)%list_elem_of_fmap. rewrite Forall_forall in Hh. specialize (Hh g Hg).
  rewrite bool_decide_eq_false_2; [done|]. intros ->. cbn in Hh. by rewrite str_ltb_irrefl in Hh.
Qed.

Lemma take_round_spec groups :
  (take_round groups).1 = round groups 0
  ∧ (∀ k, round (take_round groups).2 k = round groups (S k))
  ∧ concat (map snd groups) ≡ₚ (take_round groups).1 ++ concat (map snd (take_round groups).2)
  ∧ (∀ n, Forall (λ g : str * list A, length g.2 ≤ S n)%nat groups →
          Forall (λ g : str * list A, length g.2 ≤ n)%nat (take_round groups).2).
Proof.
  induction groups as [|[h queue] groups (IH1 & IH2 & IH3 & IH4)]; [by split_and!|].
  unfold round in *. cbn. destruct (take_round groups) as [taken rest]. cbn in *.
  destruct queue as [|a [|b queue]]; cbn; (split_and!; [by rewrite IH1|..]).
  - intros k. by rewrite IH2.
  - by rewrite IH3.
  - intros n [? ?]%Forall_cons. by apply IH4.
  - intros k. by rewrite IH2.
  - by rewrite IH3.
  - intros n [? ?]%Forall_cons. by apply IH4.
  - intros k. by rewrite IH2.
  - rewrite IH3. cbn. apply Permutation_skip. rewrite <- (Permutation_middle taken). apply Permutation_skip.
    rewrite !(assoc_L (++)). by rewrite (Permutation_app_comm queue taken).
  - intros n [Hn ?]%Forall_cons. cbn in *. constructor; [cbn; lia|by apply IH4].
Qed.
Lemma take_rounds_spec n : ∀ groups, take_rounds n groups = concat (map (round groups) (seq 0 n)).
Proof.
  induction n as [|n IH]; intros groups; [done|]. destruct groups as [|g groups].
  - change (take_rounds (S n) []) with (@nil A). symmetry. generalize (seq 0 (S n)). by induction l.
  - cbn [take_rounds seq map concat]. destruct (take_round_spec (g :: groups)) as (H1 & H2 & _).
    destruct (take_round (g :: groups)) as [taken rest]. cbn [fst snd] in *. rewrite IH, H1. f_equal. f_equal.
    rewrite <- seq_shift, map_map. apply map_ext. intros k. by rewrite H2.
Qed.
Lemma take_rounds_all n : ∀ groups, Forall (λ g : str * list A, length g.2 ≤ n)%nat groups →
  take_rounds n groups ≡ₚ concat (map snd groups).
Proof.
  induction n as [|n IH]; intros groups Hn.
  - cbn. induction Hn as [|[h queue] groups Hq _ IHn]; [done|]. cbn in *. destruct queue; [done|cbn in Hq; lia].
  - destruct groups as [|g groups]; [done|]. cbn [take_rounds].
    destruct (take_round_spec (g :: groups)) as (_ & _ & H3 & H4). specialize (H4 n Hn).
    destruct (take_round (g :: groups)) as [taken rest]. cbn [fst snd] in *. by rewrite H3, IH.
Qed.
End turns.

Section run.
Context {Url : Type} `{!UrlApi Url} `{!Blake3}.
Abbreviation has_host := (λ m, is_Some (monitor_host (Url := Url) m)).
Abbreviation on_host h := (λ m, monitor_host (Url := Url) m = Some h).

Lemma host_groups_spec (ms : list MonitorDefinition) :
  let groups := host_groups (Url := Url) ms in
  key_sorted groups
  ∧ (∀ h, queue_of groups h = filter (on_host h) ms)
  ∧ (∀ h, h ∈ map fst groups ↔ ∃ m, m ∈ ms ∧ monitor_host (Url := Url) m = Some h)
  ∧ concat (map snd groups) ≡ₚ filter has_host ms.
Proof.
  induction ms as [|m ms (Hs & Hq & Hh & Hp)] using rev_ind; [split_and!; [constructor|done|set_solver|done]|].
  unfold host_groups in *. rewrite foldl_app. cbn. destruct (monitor_host m) as [host|] eqn:Em.
  - split_and!.
    + by apply group_push_sorted.
    + intros h. rewrite queue_of_push, filter_app, filter_cons, filter_nil, Em by done. rewrite !Hq.
      case_bool_decide as E; [subst; by rewrite decide_True|].
      rewrite decide_False by congruence. by rewrite app_nil_r.
    + intros h. rewrite group_push_hosts, Hh. set_solver.
    + rewrite group_push_Permutation, Hp, filter_app, filter_cons, filter_nil, Em.
      rewrite decide_True by by eexists. by rewrite Permutation_app_comm.
  - split_and!; [done|..].
    + intros h. rewrite Hq, filter_app, filter_cons, filter_nil, Em. by rewrite decide_False, app_nil_r.
    + intros h. rewrite Hh. set_solver.
    + rewrite Hp, filter_app, filter_cons, filter_nil, Em. rewrite decide_False, app_nil_r; [done|]. by intros [? ?].
Qed.
Lemma queue_length (ms : list MonitorDefinition) :
  Forall (λ g : str * list MonitorDefinition, length g.2 ≤ length ms)%nat (host_groups (Url := Url) ms).
Proof.
  destruct (host_groups_spec ms) as (Hs & Hq & _). rewrite (sorted_queues _ Hs). apply Forall_map, Forall_forall.
  intros h _. cbn. rewrite Hq. apply length_filter.
Qed.

(** The monitors are checked in turns: the first of each host in the order of the
    hosts, then the second of each, and so on; a host with many monitors delays
    the others by one check per turn.  Nothing is lost but monitors without a host. *)
Theorem fair_by_host_turns (ms : list MonitorDefinition) : ∃ hosts : list str,
  StronglySorted (λ a b, str_ltb a b = true) hosts
  ∧ (∀ h, h ∈ hosts ↔ ∃ m, m ∈ ms ∧ monitor_host (Url := Url) m = Some h)
  ∧ fair_by_host (Url := Url) ms
    = concat (map (λ k, omap (λ h, filter (on_host h) ms !! k) hosts) (seq 0 (length ms)))
  ∧ fair_by_host (Url := Url) ms ≡ₚ filter has_host ms.
Proof.
  destruct (host_groups_spec ms) as (Hs & Hq & Hh & Hp). exists (map fst (host_groups (Url := Url) ms)). split_and!.
  - unfold key_sorted in Hs. clear -Hs. induction Hs as [|g groups _ IH Hg]; [constructor|]. cbn. constructor; [done|].
    by apply Forall_map.
  - exact Hh.
  - unfold fair_by_host. rewrite take_rounds_spec. f_equal. apply map_ext. intros k. unfold round.
    rewrite (sorted_queues _ Hs) at 1. generalize (map fst (host_groups (Url := Url) ms)). intros hosts.
    induction hosts as [|h hosts IH]; [done|]. cbn. rewrite Hq. destruct (filter _ ms !! k); [f_equal|]; apply IH.
  - unfold fair_by_host. rewrite take_rounds_all by apply queue_length. exact Hp.
Qed.

(** *** The checks in flight *)

Definition checks_ok (c : UptimeSchedulerConfig) (claimed : list MonitorDefinition) (s : Checks) : Prop :=
  len (ck_waiting s) + len (ck_running s) ≤ uc_global_concurrency c
  ∧ (∀ m, len (host_running (Url := Url) s m) ≤ uc_per_host_concurrency c)
  ∧ ck_queue s ++ ck_waiting s ++ ck_running s ++ ck_completed s ≡ₚ claimed.
Definition checks_left (s : Checks) : nat :=
  3 * length (ck_queue s) + 2 * length (ck_waiting s) + length (ck_running s).
Lemma check_step_ok c claimed s s' : checks_ok c claimed s → check_step (Url := Url) c s s' → checks_ok c claimed s'.
Proof.
  unfold checks_ok, host_running. intros (Hg & Hh & Hp) Hstep. destruct Hstep as [m ???? Hlen|m ????? Hlen|m ?????]; cbn in *.
  - rewrite len_app, len_cons, len_nil. split; [lia|]. split; [done|]. rewrite <- Hp.
    rewrite <- !(assoc_L (++)). cbn. by rewrite <- !Permutation_middle.
  - rewrite !len_app, len_cons, len_nil in *. split; [lia|]. split.
    + intros m'. rewrite filter_app, len_app. specialize (Hh m'). rewrite filter_cons, filter_nil.
      case_decide as E; [|rewrite len_nil; lia]. rewrite len_cons, len_nil, <- E. lia.
    + rewrite <- Hp, <- !(assoc_L (++)). cbn. by rewrite <- !Permutation_middle.
  - rewrite !len_app, len_cons in *. split; [lia|]. split.
    + intros m'. specialize (Hh m'). revert Hh. rewrite !filter_app, !len_app, filter_cons.
      case_decide; [rewrite len_cons|]; lia.
    + rewrite <- Hp, <- !(assoc_L (++)). cbn. do 3 f_equiv. rewrite (assoc_L (++)). by rewrite <- Permutation_cons_append.
Qed.
Lemma checks_reachable c claimed s : 0 ≤ uc_global_concurrency c → 0 ≤ uc_per_host_concurrency c →
  rtc (check_step (Url := Url) c) (checks_start claimed) s → checks_ok c claimed s.
Proof.
  intros Hg Hh Hs. assert (checks_ok c claimed (checks_start claimed)) as H0.
  { split; [done|]. split; [done|]. cbn. by rewrite app_nil_r. }
  revert H0. generalize (checks_start claimed) Hs. clear Hs. intros s0 Hs.
  induction Hs as [|x y z Hxy _ IH]; [done|]. intros Hok. apply IH. by eapply check_step_ok.
Qed.

(** C27. At most the configured number of checks is in flight and at most the configured
    number of one host executes, every claimed monitor is in one place; a step is
    possible until all are completed, and each brings the end nearer. *)
Theorem checks_bounded_and_complete c claimed s : uptime_new c = Ok tt →
  rtc (check_step (Url := Url) c) (checks_start claimed) s →
  len (ck_waiting s) + len (ck_running s) ≤ uc_global_concurrency c
  ∧ (∀ m, len (host_running (Url := Url) s m) ≤ uc_per_host_concurrency c)
  ∧ ck_queue s ++ ck_waiting s ++ ck_running s ++ ck_completed s ≡ₚ claimed
  ∧ (¬ (ck_completed s ≡ₚ claimed) → ∃ s', check_step (Url := Url) c s s')
  ∧ (∀ s', check_step (Url := Url) c s s' → checks_left s' < checks_left s)%nat.
Proof.
  intros Hc Hs. assert (1 ≤ uc_global_concurrency c ∧ 1 ≤ uc_per_host_concurrency c) as [Hg Hh].
  { unfold uptime_new, in_range in Hc. destruct (_ || _) eqn:E; [done|].
    rewrite !orb_false_iff, !negb_false_iff, !andb_true_iff, !Z.leb_le in E. lia. }
  destruct (checks_reachable c claimed s) as (H1 & H2 & H3); [lia..|done|]. split_and!; [done..| |].
  - intros Hn. destruct s as [queue waiting running completed]. cbn in *.
    destruct running as [|m running]; [|eexists; by apply (check_complete _ m _ _ [])].
    destruct waiting as [|m waiting].
    + destruct queue as [|m queue]; [done|]. eexists. apply check_poll. unfold len. cbn. lia.
    + eexists. apply (check_acquire _ m _ []). unfold len. cbn. lia.
  - intros s' Hstep. unfold checks_left. destruct Hstep; cbn; rewrite ?length_app; cbn; lia.
Qed.

(** *** What a run stores *)

Section contract.
Context (c : UptimeSchedulerConfig).

(** A completed check, as its port answered it. *)
Definition checked_in (h : list (event UptimeSig)) (check : MonitorDefinition * UptimeCheckResult) : Prop :=
  answered (E := UptimeSig) (ExecuteCheck check.1) (Ok check.2) h.
Definition claimed_in (h : list (event UptimeSig)) (now : Timestamp) (claimed : list MonitorDefinition) : Prop :=
  answered (E := UptimeSig) UClockNow now h
  ∧ answered (E := UptimeSig) (ClaimDueUptime now (uptime_add_duration now (uc_lease c)) (uc_batch_size c)) (Ok claimed) h.
Definition uptime_guar (h : list (event UptimeSig)) (call : UptimeCall) : Prop :=
  match call with
  | UClockNow => True
  | ClaimDueUptime now lease_until batch_size =>
      answered (E := UptimeSig) UClockNow now h ∧ lease_until = uptime_add_duration now (uc_lease c)
      ∧ batch_size = uc_batch_size c
  | ExecuteCheck m => ∃ now claimed, claimed_in h now claimed ∧ m ∈ claimed ∧ has_host m
  | PersistRuns updates => ∃ now claimed checks finished_at delete_at,
      claimed_in h now claimed ∧ map fst checks ≡ₚ filter has_host claimed
      ∧ Forall (checked_in h) checks
      ∧ answered (E := UptimeSig) UClockNow finished_at h
      ∧ add_days finished_at (uc_retention_days c) = Some delete_at
      ∧ updates = map (λ check, check_update check.1 check.2 now finished_at delete_at) checks
  end.
Abbreviation completed_in h := (λ m (r : completed_check), match r with
  | Ok check => check.1 = m ∧ checked_in h check | Err _ => True end).

Lemma execute_all_sat now claimed ms : ∀ h, claimed_in h now claimed → Forall (λ m, m ∈ claimed ∧ has_host m) ms →
  sat uptime_guar (λ h' rs, Forall2 (completed_in h') ms rs) h (execute_all ms).
Proof.
  induction ms as [|m ms IH]; intros h Hc Hm; [by constructor|]. apply Forall_cons in Hm as [Hm Hms].
  cbn [execute_all]. apply sat_port_call; [by exists now, claimed|]. intros r.
  eapply sat_then; [apply IH; [destruct Hc; split; by apply answered_app|done]|].
  intros h' rs Hpre Hrs. constructor; [|done]. destruct r as [r|e]; [|done]. split; [done|].
  eapply answered_prefix; [exact Hpre|apply answered_last].
Qed.
Lemma check_updates_ok (rs : list completed_check) now finished_at delete_at updates :
  check_updates rs now finished_at delete_at = Ok updates →
  ∃ checks, rs = map Ok checks
    ∧ updates = map (λ check, check_update check.1 check.2 now finished_at delete_at) checks.
Proof.
  revert updates. induction rs as [|[[m r]|e] rs IH]; intros updates; cbn; [intros [= <-]; by exists []| |done].
  intros (us & Hus & [= <-])%bind_Ok. destruct (IH us Hus) as (checks & -> & ->). by exists ((m, r) :: checks).
Qed.
Lemma completed_checks h ms checks : Forall2 (completed_in h) ms (map Ok checks) →
  map fst checks = ms ∧ Forall (checked_in h) checks.
Proof.
  revert ms. induction checks as [|check checks IH]; intros ms; [by intros ->%Forall2_nil_inv_r|].
  intros (m & ms' & [Hm Hc] & Hms & ->)%Forall2_cons_inv_r. destruct (IH _ Hms) as [<- ?]. cbn. split; [by rewrite Hm|by constructor].
Qed.

(** Whatever the clock, the store and the checks answer and in whatever order the
    checks complete: only claimed monitors with a host are checked, and the runs
    stored are one per claimed monitor with a host, each with the status, failure
    and duration its own check answered.  One failing check stores nothing, and a
    run that succeeds has stored as many runs as it says. *)
Theorem uptime_run_stores_checked (order : list MonitorDefinition → list MonitorDefinition) :
  (∀ ms, order ms ≡ₚ ms) →
  sat uptime_guar
    (okay (λ h n, (n = 0 ∧ ∃ now, claimed_in h now [])
       ∨ ∃ updates, answered (E := UptimeSig) (PersistRuns updates) (Ok tt) h ∧ n = len updates))
    [] (run_once (Url := Url) c order).
Proof.
  intros Horder. unfold run_once. apply sat_port_call; [done|]. intros now.
  apply okay_call, sat_port_call; [by split_and!; [apply answered_last|..]|]. intros [claimed|e]; [|done].
  cbn [sat mret prog_ret okay].
  match goal with |- sat _ _ ?h0 _ => assert (claimed_in h0 now claimed) as Hc end.
  { split; [apply answered_app, (answered_last _ _ [])|apply answered_last]. }
  revert Hc. match goal with |- context [claimed_in ?h0 now claimed] => generalize h0 end.
  intros h Hc. destruct (is_empty claimed) eqn:Ee.
  { left. split; [done|]. exists now. destruct claimed; [exact Hc|discriminate]. }
  destruct (existsb _ _); [done|].
  destruct (fair_by_host_turns claimed) as (_ & _ & _ & _ & Hfair).
  eapply sat_then; [eapply execute_all_sat; [exact Hc|]|].
  { apply Forall_forall. intros m. rewrite (Horder _), Hfair, list_elem_of_filter. tauto. }
  intros h1 rs Hpre Hrs. apply sat_port_call; [done|]. intros finished_at. apply okay_pure. intros delete_at Hd.
  apply okay_pure. intros updates (checks & -> & ->)%check_updates_ok.
  apply completed_checks in Hrs as [Hfst Hin]. apply okay_call, sat_port_call.
  - exists now, claimed, checks, finished_at, delete_at. split_and!.
    + destruct Hc. split; (apply answered_app; eapply answered_prefix; [exact Hpre|done]).
    + by rewrite Hfst, Horder.
    + eapply Forall_impl; [exact Hin|]. intros check. apply answered_app.
    + apply answered_last.
    + by destruct (add_days _ _) eqn:E; cbn in Hd; [injection Hd as <-|].
    + done.
  - intros [[]|e]; [|done]. right. eexists. split; [apply answered_last|done].
Qed.
End contract.
End run.

(** The run of a check is one the monitor store accepts, when the clock has not gone
    back and the executor reports a status and a duration of the types it should. *)
Lemma check_update_valid `{!Blake3} m r now finished_at delete_at :
  now ≤ finished_at → 0 ≤ ur_duration_ms r ≤ I64_MAX →
  (∀ status, ur_http_status r = Some status → 100 ≤ status ≤ 599) →
  update_validate (check_update m r now finished_at delete_at) = Ok tt.
Proof.
  intros Hn Hd Hs. unfold update_validate, run_validate. cbn.
  assert (is_terminal (check_status r) = true) as ->.
  { unfold check_status. destruct (ur_failure r) as [[]|]; done. }
  destruct (Z.ltb_spec finished_at now); [lia|]. destruct (Z.ltb_spec I64_MAX (ur_duration_ms r)); [lia|].
  assert (is_some_and (λ status, negb (in_range 100 599 status)) (ur_http_status r) = false) as ->.
  { destruct (ur_http_status r) as [status|]; [|done]. specialize (Hs status eq_refl). cbn. unfold in_range.
    apply negb_false_iff, andb_true_iff. rewrite !Z.leb_le. lia. }
  cbn. by rewrite andb_false_r.
Qed.

(** Two monitors of one host and one of another, checked in reverse. *)
#[local] Instance sample_hosts : UrlApi str :=
  {| url_parse := Some; url_scheme := λ _, lit "https"; url_host_str := Some;
     url_username := λ _, []; url_password := λ _, None; url_query := λ _, None;
     url_fragment := λ _, None; url_port_or_known_default := λ _, Some 443;
     url_path := λ _, []; url_path_segments := λ _, None; url_query_pairs := λ _, []; url_clear_query := λ u, u;
     url_append_pair := λ u _ _, u; url_clear_password := Some;
     url_set_username := λ u _, Some u; url_to_string := λ u, u; url_remove_query := λ u, u;
     url_remove_fragment := λ u, u |}.
#[local] Instance sample_digest : Blake3 := λ input, take 32 (input ++ replicate 32 0).
Definition sample_monitor (id : Z) (host : str) : MonitorDefinition :=
  {| md_id := [id]; md_project_id := 7; md_slug := lit "m"; md_name := lit "m"; md_environment_id := [];
     md_environment := lit "production"; md_enabled := true; md_managed_by_web := true; md_revision := 1;
     md_config := {| mc_schedule := Interval 1; mc_checkin_margin_seconds := 0; mc_max_runtime_seconds := 10 |};
     md_uptime := Some {| u_endpoint := host; u_method := Get; u_expected_status_min := 200;
       u_expected_status_max := 399; u_timeout_seconds := 10; u_max_redirects := 3; u_headers := [] |};
     md_next_expected_at := 0; md_last_run_id := None; md_last_status := None; md_last_check_in_at := None;
     md_created_at := 0; md_updated_at := 0 |}.
Definition sample_monitors : list MonitorDefinition :=
  [sample_monitor 1 (lit "a"); sample_monitor 2 (lit "a"); sample_monitor 3 (lit "b")].
Example fair_by_host_sample : map md_id (fair_by_host (Url := str) sample_monitors) = [[1]; [3]; [2]].
Proof. vm_compute. reflexivity. Qed.
Definition sample_oracle : oracle UptimeSig := λ call,
  match call with
  | UClockNow => 1000
  | ClaimDueUptime _ _ _ => Ok sample_monitors
  | ExecuteCheck _ => Ok {| ur_http_status := Some 200; ur_failure := None; ur_duration_ms := 12 |}
  | PersistRuns _ => Ok tt
  end.
Lemma uptime_run_stores_checked_witness :
  consult sample_oracle (run_once (Url := str) uptime_default reverse) = Ok 3
  ∧ (∀ ms : list MonitorDefinition, reverse ms ≡ₚ ms)
  ∧ sat (uptime_guar (Url := str) uptime_default) (λ _ _, True) [] (run_once (Url := str) uptime_default reverse).
Proof.
  assert (∀ ms : list MonitorDefinition, reverse ms ≡ₚ ms) as Hrev by apply reverse_Permutation.
  split; [vm_compute; reflexivity|]. split; [exact Hrev|].
  eapply sat_mono; [done| |exact (uptime_run_stores_checked (Url := str) uptime_default reverse Hrev)]. done.
Defined.
Lemma checks_bounded_and_complete_witness :
  uptime_new uptime_default = Ok tt
  ∧ ∃ s', check_step (Url := str) uptime_default (checks_start sample_monitors) s'.
Proof.
  split; [reflexivity|].
  apply (checks_bounded_and_complete (Url := str) uptime_default sample_monitors (checks_start sample_monitors) eq_refl (rtc_refl _ _)).
  intros Hp%Permutation_nil_l. done.
Defined.
