(* ===== verification/ProjectCache.v ===== *)
(** * The authorization cache of the project service

    [application/src/projects.rs]: a bounded cache of lookups by ingest key with
    an approximate order of use, single flight for lookups of one key, and a
    generation that every command advances before it removes the keys it
    changed.  The operations under the lock are functions; lookups, commands
    and dropped futures interleave as the steps of a relation. *)
From stdpp Require Import base list numbers strings sets gmap relations.
From Stdlib Require Import ZArith Lia.
From S2P Require Import Prelude Primitives.

Record ProjectCacheConfig := {
  cc_capacity : Z;
  cc_max_inflight : Z;
  cc_positive_ttl : duration;
  cc_negative_ttl : duration;
}.
Inductive ProjectResolveError := RUnknownKey | RUnauthorized | RUnavailable.
#[export] Instance resolve_error_eq_dec : EqDecision ProjectResolveError.
Proof. solve_decision. Defined.

(** ** The cache under its lock *)

Section cache.
Context {T : Type}.
Abbreviation lookup_result := (result ProjectResolveError T).

Record CacheEntry := {
  ce_value : lookup_result;
  ce_expires_at : Z;
  ce_generation : Z;
}.
(** [inflight] maps a key to the identity of the shared cell. *)
Record CacheState := {
  cs_entries : gmap bytes CacheEntry;
  cs_order : list (bytes * Z);
  cs_inflight : gmap bytes nat;
  cs_next_generation : Z;
  cs_capacity : Z;
}.
Definition cache_state_new (capacity : Z) : CacheState :=
  {| cs_entries := ∅; cs_order := []; cs_inflight := ∅; cs_next_generation := 1; cs_capacity := capacity |}.
Definition with_entries (s : CacheState) entries order next : CacheState :=
  {| cs_entries := entries; cs_order := order; cs_inflight := cs_inflight s;
     cs_next_generation := next; cs_capacity := cs_capacity s |}.
Definition with_inflight (s : CacheState) inflight : CacheState :=
  {| cs_entries := cs_entries s; cs_order := cs_order s; cs_inflight := inflight;
     cs_next_generation := cs_next_generation s; cs_capacity := cs_capacity s |}.

(** [wrapping_add(1).max(1)] of a [u64]. *)
Definition generation_after (generation : Z) : Z := Z.max 1 ((generation + 1) mod 2 ^ 64).
Definition cache_evict_oldest (s : CacheState) : CacheState :=
  match cs_order s with
  | [] => s
  | (key, generation) :: order =>
      with_entries s
        (if is_some_and (λ e, ce_generation e =? generation) (cs_entries s !! key)
         then delete key (cs_entries s) else cs_entries s)
        order (cs_next_generation s)
  end.
(** [while test { self.evict_oldest() }]; [None]: the fuel was not enough. *)
Fixpoint cache_evict_while (fuel : nat) (test : CacheState → bool) (s : CacheState) : option CacheState :=
  if test s then
    match fuel with O => None | S fuel => cache_evict_while fuel test (cache_evict_oldest s) end
  else Some s.
Definition cache_trim_order (s : CacheState) : option CacheState :=
  cache_evict_while (length (cs_order s)) (λ s, sat_u64 (cs_capacity s * 2) <? len (cs_order s)) s.
Definition cached_len (s : CacheState) : Z := Z.of_nat (size (cs_entries s)).

Definition cache_get (s : CacheState) (key : bytes) (now : Z) : option (CacheState * option lookup_result) :=
  match cs_entries s !! key with
  | None => Some (s, None)
  | Some entry =>
      if ce_expires_at entry <=? now then
        Some (with_entries s (delete key (cs_entries s)) (cs_order s) (cs_next_generation s), None)
      else
        let generation := cs_next_generation s in
        let entry' := {| ce_value := ce_value entry; ce_expires_at := ce_expires_at entry;
                         ce_generation := generation |} in
        s ← cache_trim_order (with_entries s (<[key := entry']> (cs_entries s))
               (cs_order s ++ [(key, generation)]) (generation_after generation));
        Some (s, Some (ce_value entry))
  end.
Definition cache_insert (s : CacheState) (key : bytes) (value : lookup_result) (expires_at : Z)
    : option CacheState :=
  let generation := cs_next_generation s in
  let entry := {| ce_value := value; ce_expires_at := expires_at; ce_generation := generation |} in
  let s := with_entries s (<[key := entry]> (cs_entries s)) (cs_order s ++ [(key, generation)])
             (generation_after generation) in
  s ← cache_evict_while (length (cs_order s)) (λ s, cs_capacity s <? cached_len s) s;
  cache_trim_order s.
Definition cache_invalidate (s : CacheState) (key : bytes) : CacheState :=
  with_entries s (delete key (cs_entries s)) (cs_order s) (cs_next_generation s).
Definition cache_invalidate_all (s : CacheState) (keys : list bytes) : CacheState :=
  foldl cache_invalidate s keys.

(** ** Lookups *)

(** [expires_at]. *)
Definition expires_at (now_millis : Z) (ttl : duration) : Z :=
  sat_i64 (now_millis + unwrap_or I64_MAX (checked_i64 (as_millis ttl))).
Definition ttl_of (config : ProjectCacheConfig) (r : lookup_result) : duration :=
  match r with
  | Ok _ => cc_positive_ttl config
  | Err (RUnauthorized | RUnknownKey) => cc_negative_ttl config
  | Err RUnavailable => 0
  end.
(** The first part of [cached] under the lock: the cell to wait for, joined or new. *)
Inductive Joined := JCoalesced (cell : nat) | JMiss | JRejected.
Definition cache_join (config : ProjectCacheConfig) (s : CacheState) (key : bytes) : Joined :=
  match cs_inflight s !! key with
  | Some cell => JCoalesced cell
  | None => if cc_max_inflight config <=? Z.of_nat (size (cs_inflight s)) then JRejected else JMiss
  end.
(** The last part of [cached] under the lock; [current] says whether the
    generation is still the one the lookup read. *)
Definition cache_finish (config : ProjectCacheConfig) (s : CacheState) (key : bytes) (now : Z)
    (cell : nat) (current : bool) (r : lookup_result) : option CacheState :=
  s ← (let ttl := ttl_of config r in
       if current && negb (ttl =? 0) then cache_insert s key r (expires_at now ttl) else Some s);
  Some (if bool_decide (cs_inflight s !! key = Some cell)
        then with_inflight s (delete key (cs_inflight s)) else s).
End cache.
Arguments CacheEntry : clear implicits.
Arguments CacheState : clear implicits.

(** ** The cache keeps its bounds and its loops end *)

Section bounds.
Context {T : Type}.
Implicit Types s : CacheState T.

(** Every entry has its pair in the queue, so evicting makes room. *)
Definition paired s : Prop := ∀ key e, cs_entries s !! key = Some e → (key, ce_generation e) ∈ cs_order s.
Record cache_ok (config : ProjectCacheConfig) s : Prop := {
  cok_paired : paired s;
  cok_capacity : cs_capacity s = cc_capacity config;
  cok_entries : cached_len s ≤ cc_capacity config;
  cok_order : len (cs_order s) ≤ sat_u64 (cc_capacity config * 2);
  cok_inflight : Z.of_nat (size (cs_inflight s)) ≤ cc_max_inflight config;
}.
(** What eviction keeps. *)
Definition evicts s s' : Prop :=
  paired s' ∧ cs_entries s' ⊆ cs_entries s ∧ cs_inflight s' = cs_inflight s
  ∧ cs_capacity s' = cs_capacity s ∧ len (cs_order s') ≤ len (cs_order s).

Lemma evict_oldest_evicts s : paired s →
  evicts s (cache_evict_oldest s) ∧ cs_order (cache_evict_oldest s) = tail (cs_order s).
Proof.
  intros Hp. unfold cache_evict_oldest, evicts. destruct (cs_order s) as [|[key g] order] eqn:Eo.
  - rewrite Eo. split; [|done]. by split_and!.
  - cbn. split; [|done]. split_and!; [| |done|done|rewrite len_cons; lia].
    + intros k e. cbn. intros He. assert (cs_entries s !! k = Some e) as He'.
      { destruct (is_some_and _ _); [by apply lookup_delete_Some in He as [_ ?]|done]. }
      pose proof (Hp k e He') as Hin. rewrite Eo in Hin. apply elem_of_cons in Hin as [Hin|]; [|done].
      injection Hin as -> Hg. rewrite He' in He. cbn in He. rewrite Hg, Z.eqb_refl in He.
      by rewrite lookup_delete_eq in He.
    + destruct (is_some_and _ _); [apply delete_subseteq|done].
Qed.
Lemma evicts_trans s1 s2 s3 : evicts s1 s2 → evicts s2 s3 → evicts s1 s3.
Proof.
  intros (H1 & H2 & H3 & H4 & H5) (G1 & G2 & G3 & G4 & G5). split_and!; [done|by etrans|congruence|congruence|lia].
Qed.
Lemma cache_evict_while_ends fuel test : ∀ s, paired s → (length (cs_order s) ≤ fuel)%nat →
  (∀ s', paired s' → cs_capacity s' = cs_capacity s → cs_order s' = [] → test s' = false) →
  ∃ s', cache_evict_while fuel test s = Some s' ∧ evicts s s' ∧ test s' = false.
Proof.
  induction fuel as [|fuel IH]; intros s Hp Hf Ht; cbn [cache_evict_while].
  - assert (cs_order s = []) as Ho by (destruct (cs_order s); [done|cbn in Hf; lia]).
    rewrite Ht by done. exists s. split; [done|]. split; [by split_and!|by apply Ht].
  - destruct (test s) eqn:Et; [|exists s; split; [done|]; split; [by split_and!|done]].
    destruct (evict_oldest_evicts s Hp) as [He Ho].
    destruct (IH (cache_evict_oldest s)) as (s' & Hs' & He' & Ht').
    + apply He.
    + rewrite Ho. destruct (cs_order s); cbn in *; lia.
    + destruct He as (_ & _ & _ & Hc & _). rewrite Hc. exact Ht.
    + exists s'. split; [done|]. split; [by eapply evicts_trans|done].
Qed.

Lemma trim_order_ends s : paired s → 0 < cs_capacity s →
  ∃ s', cache_trim_order s = Some s' ∧ evicts s s' ∧ len (cs_order s') ≤ sat_u64 (cs_capacity s * 2).
Proof.
  intros Hp Hc. unfold cache_trim_order.
  destruct (cache_evict_while_ends (length (cs_order s)) (λ s, sat_u64 (cs_capacity s * 2) <? len (cs_order s)) s Hp)
    as (s' & Hs' & He & Ht); [lia| |].
  { intros s' _ -> ->. apply Z.ltb_ge. unfold sat_u64, saturate, U64_MAX, len. cbn [length Z.of_nat]. lia. }
  exists s'. split; [done|]. split; [done|]. apply Z.ltb_ge in Ht. destruct He as (_ & _ & _ & E & _). by rewrite E in Ht.
Qed.
Lemma paired_push s key value expires_at : paired s →
  paired (with_entries s (<[key := {| ce_value := value; ce_expires_at := expires_at; ce_generation := cs_next_generation s |}]> (cs_entries s))
    (cs_order s ++ [(key, cs_next_generation s)]) (generation_after (cs_next_generation s))).
Proof.
  intros Hp k e. cbn. rewrite elem_of_app. intros [[-> <-]|[Hne He]]%lookup_insert_Some; [right|left; by apply Hp].
  by apply list_elem_of_singleton.
Qed.
Lemma paired_empty s : paired s → cs_order s = [] → cached_len s = 0.
Proof.
  intros Hp Ho. unfold cached_len. replace (cs_entries s) with (∅ : gmap bytes (CacheEntry T)); [done|].
  symmetry. apply map_empty. intros k. destruct (cs_entries s !! k) as [e|] eqn:E; [|done].
  apply Hp in E. rewrite Ho in E. by apply elem_of_nil in E.
Qed.

Lemma cached_len_mono s s' : cs_entries s' ⊆ cs_entries s → cached_len s' ≤ cached_len s.
Proof. intros H. unfold cached_len. apply map_subseteq_size in H. lia. Qed.

Section ops.
Context (config : ProjectCacheConfig) (Hcap : 0 < cc_capacity config).

(** The value of every entry afterwards was there before, or is the new one. *)
Definition values_from s (extra : bytes → result ProjectResolveError T → Prop) s' : Prop :=
  ∀ k e, cs_entries s' !! k = Some e →
    extra k (ce_value e) ∨ ∃ e', cs_entries s !! k = Some e' ∧ ce_value e' = ce_value e.

Lemma cache_get_spec s key now : cache_ok config s →
  ∃ s' r, cache_get s key now = Some (s', r) ∧ cache_ok config s' ∧ cs_inflight s' = cs_inflight s
    ∧ values_from s (λ _ _, False) s'
    ∧ (∀ v, r = Some v ↔ ∃ e, cs_entries s !! key = Some e ∧ now < ce_expires_at e ∧ v = ce_value e).
Proof.
  intros [Hp Hc He Ho Hi]. unfold cache_get. destruct (cs_entries s !! key) as [entry|] eqn:Ek.
  - destruct (Z.leb_spec (ce_expires_at entry) now) as [Hx|Hx].
    + eexists _, None. split; [done|]. split; [|split; [done|]; split].
      * split; [|done|etrans; [|exact He]|done|done].
        -- intros k e. cbn. intros [_ Hk]%lookup_delete_Some. by apply Hp.
        -- apply cached_len_mono. cbn. apply delete_subseteq.
      * intros k e. cbn. intros [_ Hk]%lookup_delete_Some. right. by exists e.
      * intros v. split; [done|]. intros (e & [= <-] & ? & _). lia.
    + destruct (trim_order_ends _ (paired_push s key (ce_value entry) (ce_expires_at entry) Hp)) as (s' & Hs' & Hev & Hl);
        [cbn; lia|]. rewrite Hs'. cbn. destruct Hev as (Hp' & Hsub & Hif & Hc' & _). cbn in *.
      eexists s', _. split; [done|]. split; [|split; [done|]; split].
      * split; [done|congruence| |by rewrite <- Hc|by rewrite Hif].
        pose proof (map_subseteq_size _ _ Hsub) as Hsz. rewrite map_size_insert_Some in Hsz by by eexists.
        unfold cached_len in *. lia.
      * intros k e Hk. pose proof (lookup_weaken _ _ _ _ Hk Hsub) as Hw. right.
        apply lookup_insert_Some in Hw as [[<- <-]|[_ Hw]]; [by exists entry|by exists e].
      * intros v. split; [intros [= <-]; by exists entry|]. by intros (e & [= <-] & _ & ->).
  - exists s, None. split; [done|]. split; [done|]. split; [done|]. split.
    + intros k e Hk. right. by exists e.
    + intros v. split; [done|]. by intros (e & ? & _).
Qed.
Lemma cache_insert_spec s key value at_ : cache_ok config s →
  ∃ s', cache_insert s key value at_ = Some s' ∧ cache_ok config s' ∧ cs_inflight s' = cs_inflight s
    ∧ values_from s (λ k v, k = key ∧ v = value) s'.
Proof.
  intros [Hp Hc He Ho Hi]. unfold cache_insert. pose proof (paired_push s key value at_ Hp) as Hp1.
  destruct (cache_evict_while_ends _ (λ s, cs_capacity s <? cached_len s) _ Hp1 (le_n _)) as (s1 & -> & Hev1 & Ht1).
  { intros s' Hp' Hc' Ho'. apply Z.ltb_ge. rewrite (paired_empty s' Hp' Ho'), Hc'. cbn. lia. }
  cbn [mbind option_bind]. apply Z.ltb_ge in Ht1. destruct Hev1 as (Hp1' & Hsub1 & Hif1 & Hc1 & _). cbn in Hsub1, Hif1, Hc1.
  destruct (trim_order_ends s1 Hp1') as (s2 & -> & (Hp2 & Hsub2 & Hif2 & Hc2 & _) & Hl); [lia|].
  exists s2. split; [done|]. split; [|split; [congruence|]].
  - split; [done|congruence| |by rewrite <- Hc, <- Hc1|by rewrite Hif2, Hif1].
    etrans; [by apply cached_len_mono|]. lia.
  - intros k e Hk. pose proof (lookup_weaken _ _ _ _ (lookup_weaken _ _ _ _ Hk Hsub2) Hsub1) as Hw.
    apply lookup_insert_Some in Hw as [[<- <-]|[_ Hw]]; [by left|]. right. by exists e.
Qed.
Lemma cache_invalidate_all_spec keys : ∀ s, cache_ok config s →
  let s' := cache_invalidate_all s keys in
  cache_ok config s' ∧ cs_inflight s' = cs_inflight s
  ∧ ∀ k e, cs_entries s' !! k = Some e → (k ∉ keys) ∧ cs_entries s !! k = Some e.
Proof.
  induction keys as [|key keys IH]; intros s Hs; cbn [cache_invalidate_all foldl].
  - split; [done|]. split; [done|]. intros k e Hk. split; [apply not_elem_of_nil|done].
  - destruct (IH (cache_invalidate s key)) as (H1 & H2 & H3).
    { destruct Hs as [Hp Hc He Ho Hi]. split; cbn; [|done|etrans; [|exact He]|done|done].
      - intros k e. cbn. intros [_ Hk]%lookup_delete_Some. by apply Hp.
      - apply cached_len_mono. cbn. apply delete_subseteq. }
    split; [done|]. split; [done|]. intros k e [Hk He]%H3. cbn in He. apply lookup_delete_Some in He as [Hne He].
    split; [|done]. apply not_elem_of_cons. by split.
Qed.
Lemma cache_finish_spec s key now cell current r : cache_ok config s →
  ∃ s', cache_finish config s key now cell current r = Some s' ∧ cache_ok config s'
    ∧ values_from s (λ k v, k = key ∧ v = r ∧ current = true ∧ ttl_of config r ≠ 0) s'
    ∧ cs_inflight s' = (if bool_decide (cs_inflight s !! key = Some cell) then delete key (cs_inflight s) else cs_inflight s).
Proof.
  intros Hs. unfold cache_finish.
  assert (∃ s1, (if current && negb (ttl_of config r =? 0) then cache_insert s key r (expires_at now (ttl_of config r)) else Some s) = Some s1
    ∧ cache_ok config s1 ∧ cs_inflight s1 = cs_inflight s
    ∧ values_from s (λ k v, k = key ∧ v = r ∧ current = true ∧ ttl_of config r ≠ 0) s1) as (s1 & E & Hs1 & Hi1 & Hv1).
  { destruct (current && negb (ttl_of config r =? 0)) eqn:Ec.
    - apply andb_true_iff in Ec as [Ec En%negb_true_iff%Z.eqb_neq].
      destruct (cache_insert_spec s key r (expires_at now (ttl_of config r)) Hs) as (s1 & E & H1 & H2 & H3).
      exists s1. split_and!; try done. intros k e He. destruct (H3 k e He) as [[-> ->]|?]; [by left|by right].
    - exists s. split_and!; try done. intros k e He. right. by exists e. }
  cbv zeta. rewrite E. cbn [mbind option_bind]. rewrite Hi1. eexists. split; [done|]. destruct Hs1 as [Hp Hc He Ho Hi].
  case_bool_decide; cbn.
  - split; [split; cbn; try done|by split].
    etrans; [|exact Hi]. rewrite Hi1. apply inj_le, map_subseteq_size, delete_subseteq.
  - by split_and!.
Qed.
End ops.
End bounds.

(** ** Lookups, commands and dropped futures, interleaved *)

Section system.
Context {T : Type}.
Abbreviation lookup_result := (result ProjectResolveError T).

(** The shared cell of a key: [Arc<OnceCell>].  [cl_started] is the generation its
    creator had read, which the code does not keep. *)
Inductive CellValue := CvEmpty | CvLoading (loader : nat) (answer : option lookup_result) | CvReady (r : lookup_result).
Record Cell := { cl_key : bytes; cl_started : Z; cl_value : CellValue }.
Definition with_value (c : Cell) (v : CellValue) : Cell :=
  {| cl_key := cl_key c; cl_started := cl_started c; cl_value := v |}.
(** A call of [cached]: after the miss, after it has read the generation, and while
    it waits for the cell. *)
Inductive Lookup :=
| LMissed (key : bytes) (now : Z)
| LFenced (key : bytes) (now generation : Z)
| LWaiting (key : bytes) (now generation : Z) (cell : nat)
| LGone.
(** A command: it has changed the store, has advanced the generation, is done. *)
Inductive Command := CChanged (keys : list bytes) | CBumped (keys : list bytes) | CDone.
(** [sy_truth] is what a load of the key answers now, without failures.
    [sy_generation] counts the advances; the [u64] of the code is its residue. *)
Record System := {
  sy_cache : CacheState T;
  sy_truth : bytes → lookup_result;
  sy_generation : Z;
  sy_cells : list Cell;
  sy_lookups : list Lookup;
  sy_commands : list Command;
}.
Definition system_start (config : ProjectCacheConfig) (truth : bytes → lookup_result) : System :=
  {| sy_cache := cache_state_new (cc_capacity config); sy_truth := truth; sy_generation := 0;
     sy_cells := []; sy_lookups := []; sy_commands := [] |}.
Definition set_lookups (s : System) cache cells lookups : System :=
  {| sy_cache := cache; sy_truth := sy_truth s; sy_generation := sy_generation s; sy_cells := cells;
     sy_lookups := lookups; sy_commands := sy_commands s |}.
Definition set_commands (s : System) cache truth generation commands : System :=
  {| sy_cache := cache; sy_truth := truth; sy_generation := generation; sy_cells := sy_cells s;
     sy_lookups := sy_lookups s; sy_commands := commands |}.
(** [AtomicU64] equality of two generations. *)
Definition same_generation (a b : Z) : bool := a mod 2 ^ 64 =? b mod 2 ^ 64.
Definition drop_loader (i : nat) (c : Cell) : Cell :=
  match cl_value c with
  | CvLoading loader _ => if bool_decide (loader = i) then with_value c CvEmpty else c
  | _ => c
  end.

Section steps.
(** [joins started generation]: a lookup that read [generation] may join a cell
    whose creator read [started]; the code joins every cell. *)
Context (joins : Z → Z → Prop) (config : ProjectCacheConfig).
Inductive system_step (s : System) : option (bytes * lookup_result) → System → Prop :=
| st_hit key now cache r :
    cache_get (sy_cache s) key now = Some (cache, Some r) →
    system_step s (Some (key, r)) (set_lookups s cache (sy_cells s) (sy_lookups s))
| st_miss key now cache :
    cache_get (sy_cache s) key now = Some (cache, None) →
    system_step s None (set_lookups s cache (sy_cells s) (sy_lookups s ++ [LMissed key now]))
| st_fence i key now :
    sy_lookups s !! i = Some (LMissed key now) →
    system_step s None (set_lookups s (sy_cache s) (sy_cells s)
      (<[i := LFenced key now (sy_generation s)]> (sy_lookups s)))
| st_join i key now generation cell c :
    sy_lookups s !! i = Some (LFenced key now generation) →
    cache_join config (sy_cache s) key = JCoalesced cell →
    sy_cells s !! cell = Some c → joins (cl_started c) generation →
    system_step s None (set_lookups s (sy_cache s) (sy_cells s)
      (<[i := LWaiting key now generation cell]> (sy_lookups s)))
| st_create i key now generation :
    sy_lookups s !! i = Some (LFenced key now generation) →
    cache_join config (sy_cache s) key = JMiss →
    system_step s None (set_lookups s
      (with_inflight (sy_cache s) (<[key := length (sy_cells s)]> (cs_inflight (sy_cache s))))
      (sy_cells s ++ [{| cl_key := key; cl_started := generation; cl_value := CvEmpty |}])
      (<[i := LWaiting key now generation (length (sy_cells s))]> (sy_lookups s)))
| st_reject i key now generation :
    sy_lookups s !! i = Some (LFenced key now generation) →
    cache_join config (sy_cache s) key = JRejected →
    system_step s (Some (key, Err RUnavailable))
      (set_lookups s (sy_cache s) (sy_cells s) (<[i := LGone]> (sy_lookups s)))
| st_load i key now generation cell c :
    sy_lookups s !! i = Some (LWaiting key now generation cell) →
    sy_cells s !! cell = Some c → cl_value c = CvEmpty →
    system_step s None (set_lookups s (sy_cache s)
      (<[cell := with_value c (CvLoading i None)]> (sy_cells s)) (sy_lookups s))
| st_read i cell c r :
    sy_cells s !! cell = Some c → cl_value c = CvLoading i None →
    r = sy_truth s (cl_key c) ∨ r = Err RUnavailable →
    system_step s None (set_lookups s (sy_cache s)
      (<[cell := with_value c (CvLoading i (Some r))]> (sy_cells s)) (sy_lookups s))
| st_ready i cell c r :
    sy_cells s !! cell = Some c → cl_value c = CvLoading i (Some r) →
    system_step s None (set_lookups s (sy_cache s)
      (<[cell := with_value c (CvReady r)]> (sy_cells s)) (sy_lookups s))
| st_finish i key now generation cell c r cache :
    sy_lookups s !! i = Some (LWaiting key now generation cell) →
    sy_cells s !! cell = Some c → cl_value c = CvReady r →
    cache_finish config (sy_cache s) key now cell (same_generation generation (sy_generation s)) r = Some cache →
    system_step s (Some (key, r)) (set_lookups s cache (sy_cells s) (<[i := LGone]> (sy_lookups s)))
| st_drop i lookup :
    sy_lookups s !! i = Some lookup →
    system_step s None (set_lookups s (sy_cache s) (map (drop_loader i) (sy_cells s))
      (<[i := LGone]> (sy_lookups s)))
| st_change keys truth :
    (∀ key, key ∉ keys → truth key = sy_truth s key) →
    system_step s None (set_commands s (sy_cache s) truth (sy_generation s)
      (sy_commands s ++ [CChanged keys]))
| st_bump j keys :
    sy_commands s !! j = Some (CChanged keys) →
    system_step s None (set_commands s (sy_cache s) (sy_truth s) (sy_generation s + 1)
      (<[j := CBumped keys]> (sy_commands s)))
| st_remove j keys :
    sy_commands s !! j = Some (CBumped keys) →
    system_step s None (set_commands s (cache_invalidate_all (sy_cache s) keys) (sy_truth s)
      (sy_generation s) (<[j := CDone]> (sy_commands s))).
Inductive reachable_system (truth : bytes → lookup_result) : System → Prop :=
| reach_start : reachable_system truth (system_start config truth)
| reach_step s label s' :
    reachable_system truth s → system_step s label s' → reachable_system truth s'.
End steps.
(** The program: every cell of the key is joined. *)
Definition any_cell : Z → Z → Prop := λ _ _, True.
End system.
Arguments System : clear implicits.

(** ** What is cached is current *)

Section fresh.
Context {T : Type} (config : ProjectCacheConfig) (Hcap : 0 < cc_capacity config).
Implicit Types s : System T.

Definition unbumped s key : Prop := ∃ j keys, sy_commands s !! j = Some (CChanged keys) ∧ key ∈ keys.
Definition unremoved s key : Prop := ∃ j keys, sy_commands s !! j = Some (CBumped keys) ∧ key ∈ keys.
Definition cell_answer (v : CellValue) : option (result ProjectResolveError T) :=
  match v with CvLoading _ (Some r) | CvReady r => Some r | _ => None end.
Record system_ok s : Prop := {
  sok_generation : 0 ≤ sy_generation s;
  sok_cache : cache_ok config (sy_cache s);
  sok_inflight : ∀ key cell, cs_inflight (sy_cache s) !! key = Some cell →
    ∃ c, sy_cells s !! cell = Some c ∧ cl_key c = key;
  sok_cells : ∀ cell c r, sy_cells s !! cell = Some c → cl_started c = sy_generation s →
    cell_answer (cl_value c) = Some r →
    r = sy_truth s (cl_key c) ∨ r = Err RUnavailable ∨ unbumped s (cl_key c);
  sok_started : ∀ cell c, sy_cells s !! cell = Some c → 0 ≤ cl_started c ≤ sy_generation s;
  sok_fenced : ∀ i key now generation, sy_lookups s !! i = Some (LFenced key now generation) →
    0 ≤ generation ≤ sy_generation s;
  sok_waiting : ∀ i key now generation cell, sy_lookups s !! i = Some (LWaiting key now generation cell) →
    ∃ c, sy_cells s !! cell = Some c ∧ cl_key c = key ∧ cl_started c = generation;
  sok_entries : ∀ key e, cs_entries (sy_cache s) !! key = Some e →
    ce_value e = sy_truth s key ∨ unbumped s key ∨ unremoved s key;
}.

(** A step on the cells and lookups alone keeps what is known of the commands. *)
Lemma insert_lookup_Some {A} (l : list A) i j x y : <[i := x]> l !! j = Some y → y = x ∨ l !! j = Some y.
Proof. intros [(-> & -> & ?)|[? ?]]%list_lookup_insert_Some; auto. Qed.
Lemma snoc_lookup_Some {A} (l : list A) j x y : (l ++ [x]) !! j = Some y → y = x ∨ l !! j = Some y.
Proof.
  intros [?|[_ Hj]]%lookup_app_Some; [by right|]. apply list_lookup_singleton_Some in Hj as [_ ->]. by left.
Qed.
Lemma insert_lookup_cell (l : list (Cell (T := T))) i c v cell : l !! i = Some c →
  ∀ c', l !! cell = Some c' → ∃ c'', <[i := with_value c v]> l !! cell = Some c''
    ∧ cl_key c'' = cl_key c' ∧ cl_started c'' = cl_started c'.
Proof.
  intros Hi c' Hc. destruct (decide (i = cell)) as [->|Hne].
  - rewrite Hc in Hi. injection Hi as ->. exists (with_value c v). split; [|done].
    apply list_lookup_insert_eq. by eapply lookup_lt_Some.
  - exists c'. by rewrite list_lookup_insert_ne.
Qed.
Lemma same_generation_eq a b : 0 ≤ a ≤ b → b < 2 ^ 64 → same_generation a b = true → a = b.
Proof. intros Ha Hb. unfold same_generation. rewrite !Z.mod_small by lia. by intros ?%Z.eqb_eq. Qed.

Lemma system_start_ok truth : 0 ≤ cc_max_inflight config → system_ok (system_start config truth).
Proof.
  intros Hi. split; cbn; [done|..].
  - split; cbn.
    + intros k e. cbn. by rewrite lookup_empty.
    + done.
    + unfold cached_len. cbn. rewrite map_size_empty. lia.
    + unfold sat_u64, saturate, U64_MAX, len. cbn [length Z.of_nat]. lia.
    + by rewrite map_size_empty.
  - intros key cell. by rewrite lookup_empty.
  - done.
  - done.
  - done.
  - done.
  - intros key e. by rewrite lookup_empty.
Qed.

(** Steps of a lookup: the commands stay, the generation stays. *)
Lemma lookup_step_ok s cache cells lookups :
  system_ok s → cache_ok config cache →
  (∀ key cell, cs_inflight cache !! key = Some cell → ∃ c, cells !! cell = Some c ∧ cl_key c = key) →
  (∀ cell c, cells !! cell = Some c → 0 ≤ cl_started c ≤ sy_generation s
     ∧ ∀ r, cl_started c = sy_generation s → cell_answer (cl_value c) = Some r →
       r = sy_truth s (cl_key c) ∨ r = Err RUnavailable ∨ unbumped s (cl_key c)) →
  (∀ i key now generation, lookups !! i = Some (LFenced key now generation) → 0 ≤ generation ≤ sy_generation s) →
  (∀ i key now generation cell, lookups !! i = Some (LWaiting key now generation cell) →
     ∃ c, cells !! cell = Some c ∧ cl_key c = key ∧ cl_started c = generation) →
  (∀ key e, cs_entries cache !! key = Some e →
     ce_value e = sy_truth s key ∨ unbumped s key ∨ unremoved s key) →
  system_ok (set_lookups s cache cells lookups).
Proof. intros [H0 _ _ _ _ _ _ _] H1 H2 H3 H4 H5 H6. split; cbn; try done; intros; by eapply H3. Qed.
(** Steps that change one lookup only. *)
Lemma lookup_set_ok s i l :
  system_ok s →
  (∀ key now generation, l = LFenced key now generation → 0 ≤ generation ≤ sy_generation s) →
  (∀ key now generation cell, l = LWaiting key now generation cell →
     ∃ c, sy_cells s !! cell = Some c ∧ cl_key c = key ∧ cl_started c = generation) →
  system_ok (set_lookups s (sy_cache s) (sy_cells s) (<[i := l]> (sy_lookups s))).
Proof.
  intros [H0 H1 H2 H3 H4 H5 H6 H7] Hf Hw. split; cbn; try done.
  - intros j key now generation [?|?]%insert_lookup_Some; [by eapply Hf|by eapply H5].
  - intros j key now generation cell [?|?]%insert_lookup_Some; [by eapply Hw|by eapply H6].
Qed.
(** Steps that change the value of one cell only. *)
Lemma cell_set_ok s cell c v :
  system_ok s → sy_cells s !! cell = Some c →
  (∀ r, cl_started c = sy_generation s → cell_answer v = Some r →
     r = sy_truth s (cl_key c) ∨ r = Err RUnavailable ∨ unbumped s (cl_key c)) →
  system_ok (set_lookups s (sy_cache s) (<[cell := with_value c v]> (sy_cells s)) (sy_lookups s)).
Proof.
  intros [H0 H1 H2 H3 H4 H5 H6 H7] Hc Hv. split; cbn; try done.
  - intros key i [c' [Hc' Hk]]%H2. destruct (insert_lookup_cell _ _ _ v _ Hc _ Hc') as (c'' & ? & ? & ?).
    exists c''. split; [done|congruence].
  - intros i c' r [->|?]%insert_lookup_Some; [by apply Hv|by eapply H3].
  - intros i c' [->|?]%insert_lookup_Some; [by eapply (H4 _ c)|by eapply H4].
  - intros j key now generation i (c' & Hc' & Hk & Hg)%H6.
    destruct (insert_lookup_cell _ _ _ v _ Hc _ Hc') as (c'' & ? & ? & ?). exists c''. split_and!; congruence.
Qed.
Lemma cached_values s cache extra :
  values_from (sy_cache s) extra cache →
  (∀ key e, cs_entries (sy_cache s) !! key = Some e →
     ce_value e = sy_truth s key ∨ unbumped s key ∨ unremoved s key) →
  (∀ key v, extra key v → v = sy_truth s key ∨ unbumped s key ∨ unremoved s key) →
  ∀ key e, cs_entries cache !! key = Some e →
    ce_value e = sy_truth s key ∨ unbumped s key ∨ unremoved s key.
Proof.
  intros Hv He Hx key e Hk. destruct (Hv key e Hk) as [?|(e' & Hk' & <-)]; [by apply Hx|by apply He].
Qed.
(** Steps of a command. *)
Lemma command_step_ok s cache truth generation commands :
  system_ok s → cache_ok config cache → cs_inflight cache = cs_inflight (sy_cache s) →
  sy_generation s ≤ generation →
  (∀ cell c r, sy_cells s !! cell = Some c → cl_started c = generation → cell_answer (cl_value c) = Some r →
     r = truth (cl_key c) ∨ r = Err RUnavailable
     ∨ unbumped (set_commands s cache truth generation commands) (cl_key c)) →
  (∀ key e, cs_entries cache !! key = Some e →
     ce_value e = truth key ∨ unbumped (set_commands s cache truth generation commands) key
     ∨ unremoved (set_commands s cache truth generation commands) key) →
  system_ok (set_commands s cache truth generation commands).
Proof.
  intros [H0 H1 H2 H3 H4 H5 H6 H7] Hc Hi Hg Hcells Hent. split; cbn; try done.
  - lia.
  - by rewrite Hi.
  - intros cell c Hcell. specialize (H4 cell c Hcell). lia.
  - intros i key now g Hl. specialize (H5 _ _ _ _ Hl). lia.
Qed.

Lemma drop_loader_lookup i cells cell (c : Cell (T := T)) : cells !! cell = Some c →
  map (drop_loader i) cells !! cell = Some (drop_loader i c).
Proof. intros Hc. by rewrite list_lookup_fmap, Hc. Qed.
Lemma drop_loader_same i (c : Cell (T := T)) :
  cl_key (drop_loader i c) = cl_key c ∧ cl_started (drop_loader i c) = cl_started c
  ∧ ∀ r, cell_answer (cl_value (drop_loader i c)) = Some r → cell_answer (cl_value c) = Some r.
Proof.
  unfold drop_loader. destruct (cl_value c) as [|loader answer|r] eqn:E; rewrite ?E; [done| |done].
  case_bool_decide; cbn; [done|]. by rewrite E.
Qed.
Lemma unbumped_set s cache truth generation commands key :
  unbumped (set_commands s cache truth generation commands) key ↔
  ∃ j keys, commands !! j = Some (CChanged keys) ∧ key ∈ keys.
Proof. done. Qed.
Lemma pending_bump (commands : list Command) j keys key :
  commands !! j = Some (CChanged keys) →
  (∃ i ks, commands !! i = Some (CChanged ks) ∧ key ∈ ks) ∨ (∃ i ks, commands !! i = Some (CBumped ks) ∧ key ∈ ks) →
  (∃ i ks, <[j := CBumped keys]> commands !! i = Some (CChanged ks) ∧ key ∈ ks)
  ∨ (∃ i ks, <[j := CBumped keys]> commands !! i = Some (CBumped ks) ∧ key ∈ ks).
Proof.
  intros Hj [(i & ks & Hi & Hk)|(i & ks & Hi & Hk)].
  - destruct (decide (j = i)) as [->|Hne].
    + right. exists i, keys. split; [apply list_lookup_insert_eq; by eapply lookup_lt_Some|].
      rewrite Hj in Hi. by injection Hi as ->.
    + left. exists i, ks. by rewrite list_lookup_insert_ne.
  - right. exists i, ks. cbn. rewrite list_lookup_insert_ne; [done|]. intros ->. congruence.
Qed.

Lemma cells_ok s : system_ok s → ∀ cell c, sy_cells s !! cell = Some c → 0 ≤ cl_started c ≤ sy_generation s
  ∧ ∀ r, cl_started c = sy_generation s → cell_answer (cl_value c) = Some r →
    r = sy_truth s (cl_key c) ∨ r = Err RUnavailable ∨ unbumped s (cl_key c).
Proof. intros [_ _ _ H3 H4 _ _ _] cell c Hc. split; [by eapply H4|]. intros r. by eapply H3. Qed.

Lemma system_step_ok s label s' : system_ok s → system_step eq config s label s' →
  sy_generation s' < 2 ^ 64 → system_ok s'.
Proof.
  intros Hok Hstep Hgen. pose proof (cells_ok s Hok) as Hcells. pose proof Hok as [H0 H1 H2 H3 H4 H5 H6 H7].
  destruct Hstep as [key now cache r Hget|key now cache Hget|i key now Hl|i key now g cell c Hl Hj Hc Hjoin
    |i key now g Hl Hj|i key now g Hl Hj|i key now g cell c Hl Hc Hv|i cell c r Hc Hv Hr|i cell c r Hc Hv
    |i key now g cell c r cache Hl Hc Hv Hfin|i lookup Hl|keys truth Ht|j keys Hj|j keys Hj].
  - destruct (cache_get_spec config Hcap _ key now H1) as (s1 & r1 & E & Hs1 & Hi1 & Hv1 & _).
    rewrite Hget in E. injection E as <- <-. apply lookup_step_ok; try done; [by rewrite Hi1|].
    by eapply cached_values.
  - destruct (cache_get_spec config Hcap _ key now H1) as (s1 & r1 & E & Hs1 & Hi1 & Hv1 & _).
    rewrite Hget in E. injection E as <- <-. apply lookup_step_ok; try done; [by rewrite Hi1|..].
    + intros i k n g [?|?]%snoc_lookup_Some; [done|by eapply H5].
    + intros i k n g cell [?|?]%snoc_lookup_Some; [done|by eapply H6].
    + by eapply cached_values.
  - apply lookup_set_ok; [done| |done]. intros k n g [= <- <- <-]. lia.
  - apply lookup_set_ok; [done..|]. intros k n g' cell' [= <- <- <- <-]. exists c. split; [done|]. split; [|done].
    unfold cache_join in Hj. destruct (cs_inflight (sy_cache s) !! key) as [cell'|] eqn:Ei; [|by case_match].
    injection Hj as ->. destruct (H2 _ _ Ei) as (c' & Hc' & <-). congruence.
  - unfold cache_join in Hj. destruct (cs_inflight (sy_cache s) !! key) as [|] eqn:Ei; [done|].
    destruct (Z.leb_spec (cc_max_inflight config) (Z.of_nat (size (cs_inflight (sy_cache s))))) as [|Hlt]; [done|].
    apply lookup_step_ok; try done; cbn.
    + destruct H1 as [Hp Hc He Ho Hi]. split; try done. cbn. rewrite map_size_insert_None by done. lia.
    + intros k cell [[<- <-]|[Hne Hk]]%lookup_insert_Some.
      * eexists. split; [by apply list_lookup_middle|done].
      * destruct (H2 _ _ Hk) as (c & Hc & Hck). exists c. split; [|done]. by apply lookup_app_l_Some.
    + intros cell c [->|Hc]%snoc_lookup_Some; [|by eapply Hcells]. cbn. split; [by eapply H5|done].
    + intros i' k n g' [?|?]%insert_lookup_Some; [done|by eapply H5].
    + intros i' k n g' cell [E|Hw]%insert_lookup_Some.
      * injection E as -> -> -> ->. eexists. split; [by apply list_lookup_middle|done].
      * destruct (H6 _ _ _ _ _ Hw) as (c & Hc & ?). exists c. split; [|done]. by apply lookup_app_l_Some.
  - by apply lookup_set_ok.
  - by eapply cell_set_ok.
  - eapply cell_set_ok; [done..|]. intros r' _ [= <-]. destruct Hr; auto.
  - eapply cell_set_ok; [done..|]. intros r' Hs [= <-]. eapply Hcells; [done..|]. by rewrite Hv.
  - destruct (cache_finish_spec config Hcap (sy_cache s) key now cell (same_generation g (sy_generation s)) r H1)
      as (s1 & E & Hs1 & Hv1 & Hi1). rewrite Hfin in E. injection E as <-.
    apply lookup_step_ok; try done.
    + intros k cell' Hk. apply H2. rewrite Hi1 in Hk. case_bool_decide; [|done]. by apply lookup_delete_Some in Hk as [_ ?].
    + intros i' k n g' [?|?]%insert_lookup_Some; [done|by eapply H5].
    + intros i' k n g' cell' [?|?]%insert_lookup_Some; [done|by eapply H6].
    + eapply cached_values; [done..|]. intros k v (-> & -> & Hcur & Httl).
      destruct (H6 _ _ _ _ _ Hl) as (c' & Hc' & <- & <-). rewrite Hc in Hc'. injection Hc' as <-.
      destruct (Hcells _ _ Hc) as [Hb Hans].
      apply same_generation_eq in Hcur; [|lia|cbn in Hgen; lia].
      destruct (Hans r Hcur) as [?|[->|?]]; [by rewrite Hv|by left|done|by right; left].
  - apply lookup_step_ok; try done.
    + intros k cell Hk. destruct (H2 _ _ Hk) as (c & Hc & <-). exists (drop_loader i c).
      split; [by apply drop_loader_lookup|apply drop_loader_same].
    + intros cell c' Hc'. rewrite list_lookup_fmap in Hc'. apply fmap_Some in Hc' as (c & Hc & ->).
      destruct (drop_loader_same i c) as (-> & -> & Ha). destruct (Hcells _ _ Hc) as [? Hans].
      split; [done|]. intros r Hs Hr. apply Hans; auto.
    + intros i' k n g' [?|?]%insert_lookup_Some; [done|by eapply H5].
    + intros i' k n g' cell [?|Hw]%insert_lookup_Some; [done|].
      destruct (H6 _ _ _ _ _ Hw) as (c & Hc & <- & <-). exists (drop_loader i c).
      destruct (drop_loader_same i c) as (-> & -> & _). split; [by apply drop_loader_lookup|done].
  - apply command_step_ok; try done.
    + intros cell c r Hc Hs Hr. destruct (proj2 (Hcells _ _ Hc) r Hs Hr) as [->|[->|(j & ks & Hj & Hk)]].
      * destruct (decide (cl_key c ∈ keys)) as [Hin|Hnin]; [|by left; rewrite Ht].
        right. right. apply unbumped_set. exists (length (sy_commands s)), keys.
        split; [by apply list_lookup_middle|done].
      * by right; left.
      * right. right. exists j, ks. split; [by apply lookup_app_l_Some|done].
    + intros k e He. destruct (H7 k e He) as [->|[(j & ks & Hj & Hk)|(j & ks & Hj & Hk)]].
      * destruct (decide (k ∈ keys)) as [Hin|Hnin]; [|by left; rewrite Ht].
        right. left. exists (length (sy_commands s)), keys. split; [by apply list_lookup_middle|done].
      * right. left. exists j, ks. split; [by apply lookup_app_l_Some|done].
      * right. right. exists j, ks. split; [by apply lookup_app_l_Some|done].
  - apply command_step_ok; try done; [lia|..].
    + intros cell c r Hc Hs. destruct (Hcells _ _ Hc) as [? _]. lia.
    + intros k e He. destruct (H7 k e He) as [->|Hp]; [by left|]. right. by apply pending_bump.
  - destruct (cache_invalidate_all_spec config keys (sy_cache s) H1) as (Hs1 & Hi1 & He1).
    apply command_step_ok; try done.
    + intros cell c r Hc Hs Hr. destruct (proj2 (Hcells _ _ Hc) r Hs Hr) as [->|[->|(i & ks & Hi & Hk)]];
        [by left|by right; left|]. right. right. exists i, ks. cbn. rewrite list_lookup_insert_ne; [done|].
      intros ->. congruence.
    + intros k e He. apply He1 in He as [Hnin He].
      destruct (H7 k e He) as [->|[(i & ks & Hi & Hk)|(i & ks & Hi & Hk)]]; [by left| |].
      * right. left. exists i, ks. cbn. rewrite list_lookup_insert_ne; [done|]. intros ->. congruence.
      * right. right. exists i, ks. cbn. rewrite list_lookup_insert_ne; [done|]. intros ->.
        rewrite Hj in Hi. injection Hi as ->. done.
Qed.
Lemma generation_grows joins s label s' : system_step joins config s label s' → sy_generation s ≤ sy_generation s'.
Proof. destruct 1; cbn; lia. Qed.
Lemma reachable_ok truth s : 0 ≤ cc_max_inflight config → reachable_system eq config truth s →
  sy_generation s < 2 ^ 64 → system_ok s.
Proof.
  intros Hi Hs. induction Hs as [|s label s' Hs IH Hstep]; intros Hg; [by apply system_start_ok|].
  eapply system_step_ok; [|done..]. apply IH. pose proof (generation_grows _ _ _ _ Hstep). lia.
Qed.
End fresh.

(** ** What holds of every execution, and what does not *)

Section executions.
Context {T : Type}.
Implicit Types s : System T.

Lemma bounded_step joins config s label s' : 0 < cc_capacity config →
  cache_ok config (sy_cache s) → system_step joins config s label s' → cache_ok config (sy_cache s').
Proof.
  intros Hcap Hok Hstep. destruct Hstep as [key now cache r Hget|key now cache Hget|i key now Hl|i key now g cell c Hl Hj Hc Hjoin
    |i key now g Hl Hj|i key now g Hl Hj|i key now g cell c Hl Hc Hv|i cell c r Hc Hv Hr|i cell c r Hc Hv
    |i key now g cell c r cache Hl Hc Hv Hfin|i lookup Hl|keys truth Ht|j keys Hj|j keys Hj]; cbn; try done.
  1,2: destruct (cache_get_spec config Hcap _ key now Hok) as (s1 & r1 & E & Hs1 & _);
    rewrite Hget in E; by injection E as <- <-.
  - unfold cache_join in Hj. destruct (cs_inflight (sy_cache s) !! key) eqn:Ei; [done|].
    destruct (Z.leb_spec (cc_max_inflight config) (Z.of_nat (size (cs_inflight (sy_cache s))))); [done|].
    destruct Hok as [Hp Hc He Ho Hi]. split; try done. cbn. rewrite map_size_insert_None by done. lia.
  - destruct (cache_finish_spec config Hcap (sy_cache s) key now cell (same_generation g (sy_generation s)) r Hok)
      as (s1 & E & Hs1 & _). rewrite Hfin in E. by injection E as <-.
  - by destruct (cache_invalidate_all_spec config keys (sy_cache s) Hok).
Qed.
Lemma reachable_bounded joins config truth s : 0 < cc_capacity config → 0 ≤ cc_max_inflight config →
  reachable_system joins config truth s → cache_ok config (sy_cache s).
Proof.
  intros Hcap Hi Hs. induction Hs as [|s label s' _ IH Hstep]; [|by eapply bounded_step].
  by apply (sok_cache config _ (system_start_ok config Hcap truth Hi)).
Qed.

(** However lookups, commands and dropped futures interleave, the cache never holds
    more entries than its capacity, the queue never more than twice as many pairs,
    the lookups in flight are bounded, and the loops that evict end: no operation
    under the lock is ever stuck. *)
Theorem project_cache_bounded joins config truth s :
  0 < cc_capacity config → 0 ≤ cc_max_inflight config → reachable_system joins config truth s →
  cached_len (sy_cache s) ≤ cc_capacity config
  ∧ len (cs_order (sy_cache s)) ≤ sat_u64 (cc_capacity config * 2)
  ∧ Z.of_nat (size (cs_inflight (sy_cache s))) ≤ cc_max_inflight config
  ∧ (∀ key now, is_Some (cache_get (sy_cache s) key now))
  ∧ (∀ key now cell current r, is_Some (cache_finish config (sy_cache s) key now cell current r)).
Proof.
  intros Hcap Hi Hs. pose proof (reachable_bounded joins config truth s Hcap Hi Hs) as Hok.
  split_and!; [apply Hok..| |].
  - intros key now. destruct (cache_get_spec config Hcap _ key now Hok) as (s' & r & -> & _). by eexists.
  - intros key now cell current r.
    destruct (cache_finish_spec config Hcap _ key now cell current r Hok) as (s' & -> & _). by eexists.
Qed.

(** C7. In every execution in which a lookup joins only loads that began under the
    generation it has itself read, what is cached for a key is what a load would
    answer now, or a command on that key has not returned yet: once the command
    that disables a key has returned, no hit authorises it. *)
Theorem project_cache_current config truth s :
  0 < cc_capacity config → 0 ≤ cc_max_inflight config →
  reachable_system eq config truth s → sy_generation s < 2 ^ 64 →
  (∀ key e, cs_entries (sy_cache s) !! key = Some e →
     ce_value e = sy_truth s key ∨ unbumped s key ∨ unremoved s key)
  ∧ (∀ key now cache r, cache_get (sy_cache s) key now = Some (cache, Some r) →
     Forall (λ command, command = CDone) (sy_commands s) → r = sy_truth s key).
Proof.
  intros Hcap Hi Hs Hg. pose proof (reachable_ok config Hcap truth s Hi Hs Hg) as Hok.
  pose proof (sok_entries _ _ Hok) as He. split; [exact He|]. intros key now cache r Hget Hdone.
  destruct (cache_get_spec config Hcap _ key now (sok_cache _ _ Hok)) as (s' & r' & E & _ & _ & _ & Hv).
  rewrite Hget in E. injection E as <- <-. destruct (proj1 (Hv r) eq_refl) as (e & Hk & _ & ->).
  rewrite Forall_forall in Hdone.
  destruct (He key e Hk) as [?|[(j & ks & Hj & _)|(j & ks & Hj & _)]]; [done|..];
    by apply list_elem_of_lookup_2, Hdone in Hj.
Qed.
End executions.

(** C40. A cache for the executions below. *)
Definition sample_cache_config : ProjectCacheConfig :=
  {| cc_capacity := 4; cc_max_inflight := 4; cc_positive_ttl := 60000 * NANOS_PER_MILLI;
     cc_negative_ttl := 5000 * NANOS_PER_MILLI |}.
Definition sample_key : bytes := [1].
Definition enabled_key (key : bytes) : result ProjectResolveError unit := Ok tt.
Definition disabled_key (key : bytes) : result ProjectResolveError unit :=
  match key with [1] => Err RUnauthorized | _ => Ok tt end.
Tactic Notation "take_step" hyp(R) uconstr(rule) :=
  eapply reach_step in R; [|eapply rule; solve [reflexivity | vm_compute; reflexivity | left; reflexivity | done]];
  vm_compute in R.

Theorem stale_lookup_is_cached : ∃ s cache,
  reachable_system any_cell sample_cache_config enabled_key s
  ∧ sy_commands s = [CDone] ∧ sy_lookups s = [LGone; LGone]
  ∧ sy_truth s sample_key = Err RUnauthorized
  ∧ cache_get (sy_cache s) sample_key 59999 = Some (cache, Some (Ok tt)).
Proof.
  assert (reachable_system any_cell sample_cache_config enabled_key (system_start sample_cache_config enabled_key)) as R
    by constructor.
  take_step R (st_miss _ _ _ sample_key 0).
  take_step R (st_fence _ _ _ 0%nat sample_key 0).
  take_step R (st_create _ _ _ 0%nat sample_key 0).
  take_step R (st_load _ _ _ 0%nat sample_key 0 _ 0%nat).
  take_step R (st_read _ _ _ 0%nat 0%nat _ (Ok tt)).
  eapply reach_step in R; [|apply (st_change _ _ _ [sample_key] disabled_key)].
  2: { intros key Hk. unfold disabled_key. destruct key as [|[|[]|] []]; set_solver. }
  take_step R (st_bump _ _ _ 0%nat [sample_key]).
  take_step R (st_remove _ _ _ 0%nat [sample_key]).
  take_step R (st_miss _ _ _ sample_key 0).
  take_step R (st_fence _ _ _ 1%nat sample_key 0).
  take_step R (st_join _ _ _ 1%nat sample_key 0 1 0%nat).
  take_step R (st_ready _ _ _ 0%nat 0%nat _ (Ok tt)).
  take_step R (st_finish _ _ _ 1%nat sample_key 0 1 0%nat _ (Ok tt)).
  take_step R (st_finish _ _ _ 0%nat sample_key 0 0 0%nat _ (Ok tt)).
  eexists _, _. split; [exact R|]. split; [reflexivity|]. split; [reflexivity|]. split; [reflexivity|].
  vm_compute. reflexivity.
Qed.

Section leak.
Context {T : Type} (config : ProjectCacheConfig) (truth : bytes → result ProjectResolveError T).

(** A lookup that is dropped while it waits leaves its key in flight. *)
Lemma dropped_lookup (s : System T) key :
  reachable_system any_cell config truth s → cs_entries (sy_cache s) = ∅ →
  cs_inflight (sy_cache s) !! key = None →
  Z.of_nat (size (cs_inflight (sy_cache s))) < cc_max_inflight config →
  Forall (λ l, l = LGone) (sy_lookups s) →
  ∃ s', reachable_system any_cell config truth s' ∧ cs_entries (sy_cache s') = ∅
    ∧ cs_inflight (sy_cache s') = <[key := length (sy_cells s)]> (cs_inflight (sy_cache s))
    ∧ Forall (λ l, l = LGone) (sy_lookups s').
Proof.
  intros R He Hi Hs Hl. set (i := length (sy_lookups s)).
  assert (∀ A (l : list A) x y, <[length l := y]> (l ++ [x]) = l ++ [y]) as Hset.
  { intros A l x y. by rewrite insert_app_r_alt, Nat.sub_diag by lia. }
  eapply reach_step in R; [|apply (st_miss _ _ _ key 0 (sy_cache s)); unfold cache_get; by rewrite He, lookup_empty].
  eapply reach_step in R; [|apply (st_fence _ _ _ i key 0); by apply list_lookup_middle].
  eapply reach_step in R; [|apply (st_create _ _ _ i key 0 (sy_generation s))].
  2: { unfold i. cbn. rewrite (Hset Lookup). by apply list_lookup_middle. }
  2: { unfold cache_join. cbn. rewrite Hi. by destruct (Z.leb_spec (cc_max_inflight config) (Z.of_nat (size (cs_inflight (sy_cache s))))); [lia|]. }
  eapply reach_step in R; [|eapply (st_drop _ _ _ i)].
  2: { unfold i. cbn. rewrite !(Hset Lookup). by apply list_lookup_middle. }
  eexists. split; [exact R|]. cbn. split; [done|]. split; [done|]. unfold i.
  rewrite !(Hset Lookup). apply Forall_app. split; [done|by repeat constructor].
Qed.
Lemma dropped_lookups n : 0 ≤ cc_max_inflight config → Z.of_nat n ≤ cc_max_inflight config →
  ∃ s : System T, reachable_system any_cell config truth s ∧ cs_entries (sy_cache s) = ∅
    ∧ size (cs_inflight (sy_cache s)) = n ∧ (∀ i, (n ≤ i)%nat → cs_inflight (sy_cache s) !! [Z.of_nat i] = None)
    ∧ Forall (λ l, l = LGone) (sy_lookups s).
Proof.
  intros H0. induction n as [|n IH]; intros Hn.
  - exists (system_start config truth). split_and!; [constructor|done| |done|done]. cbn. apply map_size_empty.
  - destruct IH as (s & R & He & Hsz & Hi & Hl); [lia|].
    destruct (dropped_lookup s [Z.of_nat n] R He) as (s' & R' & He' & Hi' & Hl'); [by apply Hi|lia|done|].
    exists s'. split_and!; [done|done| | |done]; rewrite Hi'.
    + rewrite map_size_insert_None by by apply Hi. by rewrite Hsz.
    + intros i Hin. rewrite lookup_insert_ne; [apply Hi; lia|]. intros [= ?]. lia.
Qed.

(** Lookups whose futures are dropped while they load can fill the bound on lookups
    in flight although none is left: every other key is refused as unavailable from
    then on, until a lookup of one of the abandoned keys completes. *)
Theorem dropped_lookups_exhaust : 0 ≤ cc_max_inflight config →
  ∃ s : System T, reachable_system any_cell config truth s
    ∧ Forall (λ l, l = LGone) (sy_lookups s)
    ∧ Z.of_nat (size (cs_inflight (sy_cache s))) = cc_max_inflight config
    ∧ ∀ key, cs_inflight (sy_cache s) !! key = None →
        (∀ now, cache_get (sy_cache s) key now = Some (sy_cache s, None))
        ∧ cache_join config (sy_cache s) key = JRejected.
Proof.
  intros H0. destruct (dropped_lookups (Z.to_nat (cc_max_inflight config))) as (s & R & He & Hsz & _ & Hl); [lia..|].
  exists s. split_and!; [done|done|lia|]. intros key Hk. split.
  - intros now. unfold cache_get. by rewrite He, lookup_empty.
  - unfold cache_join. rewrite Hk. destruct (Z.leb_spec (cc_max_inflight config) (Z.of_nat (size (cs_inflight (sy_cache s))))); [done|lia].
Qed.
End leak.

(** One lookup has cached the answer of its key. *)
Lemma cached_once joins : ∃ s : System unit, reachable_system joins sample_cache_config enabled_key s
  ∧ sy_generation s = 0 ∧ sy_commands s = [] ∧ ∃ cache, cache_get (sy_cache s) sample_key 59999 = Some (cache, Some (Ok tt)).
Proof.
  assert (reachable_system joins sample_cache_config enabled_key (system_start sample_cache_config enabled_key)) as R
    by constructor.
  take_step R (st_miss _ _ _ sample_key 0).
  take_step R (st_fence _ _ _ 0%nat sample_key 0).
  take_step R (st_create _ _ _ 0%nat sample_key 0).
  take_step R (st_load _ _ _ 0%nat sample_key 0 _ 0%nat).
  take_step R (st_read _ _ _ 0%nat 0%nat _ (Ok tt)).
  take_step R (st_ready _ _ _ 0%nat 0%nat _ (Ok tt)).
  take_step R (st_finish _ _ _ 0%nat sample_key 0 0 0%nat _ (Ok tt)).
  eexists. split; [exact R|]. split; [reflexivity|]. split; [reflexivity|]. eexists. vm_compute. reflexivity.
Qed.
Lemma project_cache_bounded_witness : ∃ s : System unit,
  reachable_system any_cell sample_cache_config enabled_key s ∧ cached_len (sy_cache s) ≤ 4.
Proof.
  destruct (cached_once any_cell) as (s & R & _). exists s. split; [exact R|].
  apply (project_cache_bounded any_cell sample_cache_config enabled_key s); [reflexivity|done|exact R].
Defined.
Lemma project_cache_current_witness : ∃ (s : System unit) cache,
  reachable_system eq sample_cache_config enabled_key s
  ∧ cache_get (sy_cache s) sample_key 59999 = Some (cache, Some (Ok tt)) ∧ Ok tt = sy_truth s sample_key.
Proof.
  destruct (cached_once eq) as (s & R & Hg & Hc & cache & Hget). exists s, cache. split; [exact R|]. split; [exact Hget|].
  refine (proj2 (project_cache_current sample_cache_config enabled_key s _ _ R _) sample_key 59999 cache (Ok tt) Hget _);
    [reflexivity|done|by rewrite Hg|by rewrite Hc].
Defined.
Lemma dropped_lookups_exhaust_witness : ∃ s : System unit,
  reachable_system any_cell sample_cache_config enabled_key s ∧ Z.of_nat (size (cs_inflight (sy_cache s))) = 4.
Proof.
  destruct (dropped_lookups_exhaust sample_cache_config enabled_key) as (s & R & _ & Hs & _); [done|].
  by exists s.
Defined.
