(* ===== verification/Projects.v ===== *)
(** * Projects, keys and their commands

    [domain/src/lib.rs] (existing DSNs, identities), [domain/src/api.rs] (project
    views) and the commands of [ProjectService] in
    [application/src/projects.rs] as programs over the store, the clock, the
    random source and the cache of [ProjectCache]. *)
From stdpp Require Import base list numbers strings sets.
From Stdlib Require Import ZArith Lia.
From S2P Require Import Prelude External Primitives InboundFilter Effects Auth IdentityService Scrub IngestTheory ProjectCache.

Open Scope prog_scope.

(** ** Values *)

Record ExistingDsn := { xd_key : bytes; xd_project_id : Z; xd_public_dsn : str }.
Record DsnMapping := { dm_source : ExistingDsn; dm_target_key : bytes }.
Section existing.
Context {Url : Type} `{!UrlApi Url}.
(** [ExistingDsn::parse]. *)
Definition existing_dsn_parse (value : str) : result PrimitiveError ExistingDsn :=
  if 2048 <? len value then Err PInvalidDsnKey
  else
    url ← ok_or PInvalidDsnKey (url_parse value);
    if negb (bool_decide (url_scheme url = lit "http") || bool_decide (url_scheme url = lit "https"))
       || is_none (url_host_str url) || is_some (url_query url) || is_some (url_fragment url)
    then Err PInvalidDsnKey
    else
      key ← dsn_key_parse (url_username url);
      project ← ok_or PInvalidProjectId (url_path_segments url ≫= last);
      project_id ← parse_ingest_project_id project;
      url ← ok_or PInvalidDsnKey (url_clear_password url);
      url ← ok_or PInvalidDsnKey (url_set_username url (id_to_string key));
      Ok {| xd_key := key; xd_project_id := project_id; xd_public_dsn := url_to_string url |}.
End existing.

Record ProjectIdentity := {
  pi_id : ProjectId;
  pi_organization_id : OrganizationId;
  pi_slug : str;
  pi_display_name : str;
  pi_state : ProjectAcceptanceState;
  pi_policy_revision : Z;
  pi_ip_policy : IpScrubPolicy;
  pi_items : ItemCapabilities;
  pi_limits : ProjectIngestLimits;
  pi_grouping_revision : Z;
  pi_created_at : Timestamp;
}.
Record ProjectKeyIdentity := {
  pk_key : bytes;
  pk_project_id : ProjectId;
  pk_state : ProjectKeyState;
  pk_label : str;
  pk_created_at : Timestamp;
}.
Record ProjectView := {
  pv_id : ProjectId;
  pv_organization_id : OrganizationId;
  pv_slug : str;
  pv_display_name : str;
  pv_state : ProjectAcceptanceState;
  pv_policy_revision : Z;
  pv_ip_policy : IpScrubPolicy;
  pv_items : ItemCapabilities;
  pv_limits : ProjectIngestLimits;
  pv_inbound_filters : list InboundFilterRule;
  pv_grouping_revision : Z;
  pv_created_at : Timestamp;
}.
Record ProjectKeyView := {
  kv_existing_dsn : option str;
  kv_key : bytes;
  kv_project_id : ProjectId;
  kv_state : ProjectKeyState;
  kv_label : str;
  kv_created_at : Timestamp;
}.
Record ProjectPolicyUpdate := {
  pu_expected_revision : Z;
  pu_ip_policy : IpScrubPolicy;
  pu_items : ItemCapabilities;
  pu_limits : ProjectIngestLimits;
  pu_inbound_filters : list InboundFilterRule;
}.
Record CreateProject := {
  cp_organization_id : OrganizationId;
  cp_slug : str;
  cp_display_name : str;
  cp_ip_policy : IpScrubPolicy;
  cp_items : ItemCapabilities;
  cp_limits : ProjectIngestLimits;
}.
Record CreateOrganization := { co_slug : str; co_display_name : str }.
Record CreatedProject := { cr_project_id : ProjectId; cr_dsn_key : bytes }.

(** ** Errors *)

Inductive ProjectStoreError :=
| PsUnknownKey | PsIdentityCollision | PsKeyCollision | PsOrganizationSlugExists | PsProjectSlugExists
| PsNotFound | PsRevisionConflict | PsTooManyKeys | PsInvalidData | PsUnavailable.
Inductive ProjectServiceError :=
| PxInvalidConfiguration | PxAlreadyExists | PxNotFound | PxCollisionExhausted | PxRandomUnavailable
| PxUnavailable | PxInvalidStateTransition.
Definition project_error_code (e : ProjectServiceError) : str :=
  lit match e with
      | PxInvalidConfiguration => "invalid_project_configuration"
      | PxAlreadyExists => "project_identity_exists"
      | PxNotFound => "project_identity_not_found"
      | PxCollisionExhausted => "identity_collision_exhausted"
      | PxRandomUnavailable => "random_unavailable"
      | PxUnavailable => "project_storage_unavailable"
      | PxInvalidStateTransition => "invalid_project_state_transition"
      end.
Definition map_command_store_error (e : ProjectStoreError) : ProjectServiceError :=
  match e with
  | PsOrganizationSlugExists | PsProjectSlugExists | PsRevisionConflict => PxAlreadyExists
  | PsNotFound | PsUnknownKey => PxNotFound
  | PsIdentityCollision | PsKeyCollision => PxCollisionExhausted
  | PsTooManyKeys | PsInvalidData | PsUnavailable => PxUnavailable
  end.
(** The test [ProjectService::new] makes. *)
Definition project_service_new (collision_retries : Z) (c : ProjectCacheConfig) : result ProjectServiceError unit :=
  let valid := (0 <? collision_retries) && (0 <? cc_capacity c) && (0 <? cc_max_inflight c)
               && negb (cc_positive_ttl c =? 0) && negb (cc_negative_ttl c =? 0) in
  if valid then Ok tt else Err PxInvalidConfiguration.

(** ** What a load answers the cache *)

Definition snapshot_is_active (s : ProjectSnapshot) : bool :=
  bool_decide (ps_state s = PActive) && bool_decide (ps_key_state s = KActive).
Definition load_project_answer (r : result ProjectStoreError ProjectSnapshot) : result ProjectResolveError ProjectSnapshot :=
  match r with
  | Ok snapshot => if snapshot_is_active snapshot then Ok snapshot else Err RUnauthorized
  | Err PsUnknownKey => Err RUnknownKey
  | Err PsNotFound => Err RUnauthorized
  | Err _ => Err RUnavailable
  end.
Definition load_mapping_answer (r : result ProjectStoreError DsnMapping) : result ProjectResolveError DsnMapping :=
  map_err (λ e, match e with PsNotFound => RUnknownKey | _ => RUnavailable end) r.

(** ** Calls *)

(** The store, the clock, the random source; [Invalidate] advances the generation
    and removes the keys from the cache of projects, [InvalidateMapping] from that
    of mappings; [Cached] and [CachedMapping] are [cached] with the two loads. *)
Inductive ProjectCall :=
| PClockNow | PFillBytes (n : nat)
| InsertOrganization (organization : OrganizationIdentity)
| InsertProject (project : ProjectIdentity)
| InsertProjectKey (key : ProjectKeyIdentity)
| LoadProject (key : bytes) | LoadDsnMapping (key : bytes)
| InsertDsnMapping (project_id : ProjectId) (mapping : DsnMapping)
| SetKeyState (key : bytes) (state : ProjectKeyState)
| SetProjectKeyState (project_id : ProjectId) (key : bytes) (state : ProjectKeyState)
| SetProjectAcceptance (project_id : ProjectId) (state : ProjectAcceptanceState)
| ListProjects (organization_id : OrganizationId) (limit : Z)
| LoadProjectById (project_id : ProjectId)
| ListProjectKeys (project_id : ProjectId)
| UpdateProjectPolicy (project_id : ProjectId) (update : ProjectPolicyUpdate)
| Invalidate (keys : list bytes) | InvalidateMapping (key : bytes)
| Cached (key : bytes) | CachedMapping (key : bytes).
Abbreviation stored A := (result ProjectStoreError A).
Definition project_answer (c : ProjectCall) : Type :=
  match c with
  | PClockNow => Timestamp
  | PFillBytes _ => option bytes
  | InsertOrganization _ | InsertProject _ | InsertProjectKey _ | InsertDsnMapping _ _
  | SetProjectKeyState _ _ _ => stored unit
  | LoadProject _ => stored ProjectSnapshot
  | LoadDsnMapping _ => stored DsnMapping
  | SetKeyState _ _ => stored ProjectId
  | SetProjectAcceptance _ _ => stored (list bytes)
  | ListProjects _ _ => stored (list ProjectView)
  | LoadProjectById _ => stored ProjectView
  | ListProjectKeys _ => stored (list ProjectKeyView)
  | UpdateProjectPolicy _ _ => stored (ProjectView * list bytes)
  | Invalidate _ | InvalidateMapping _ => unit
  | Cached _ => result ProjectResolveError ProjectSnapshot
  | CachedMapping _ => result ProjectResolveError DsnMapping
  end.
Definition ProjectSig : signature := Signature ProjectCall project_answer.
Abbreviation project A := (prog ProjectSig (result ProjectServiceError A)).
Abbreviation ask c := (perform (E := ProjectSig) c).
Abbreviation command c := (map_err_p map_command_store_error (perform (E := ProjectSig) c)).

(** ** Generated identities *)

Definition project_random (n : nat) : project bytes :=
  ask (PFillBytes n) ≫= λ r, mret (ok_or PxRandomUnavailable r).
Definition random_organization_id : project (option OrganizationId) :=
  bytes ←? project_random 8;
  mret (Ok (ok (organization_id_new (Z.land (be_val bytes) I64_MAX)))).
Definition random_project_id : project (option ProjectId) :=
  bytes ←? project_random 4;
  mret (Ok (ok (project_id_new (Z.land (be_signed 4 bytes) I32_MAX)))).
Definition random_dsn_key : project bytes := project_random 16.

(** [for _ in 0..retries] whose body returns, or goes on with [None]. *)
Fixpoint collision_loop {A} (retries : nat) (body : project (option A)) : project A :=
  match retries with
  | O => mret (Err PxCollisionExhausted)
  | S retries =>
      r ←? body;
      match (r : option A) with Some a => mret (Ok a) | None => collision_loop retries body end
  end.

Section service.
Context (collision_retries : nat).

Definition create_organization (c : CreateOrganization) : project OrganizationId :=
  collision_loop collision_retries
    (id ←? random_organization_id;
     match (id : option OrganizationId) with
     | None => mret (Ok None)
     | Some id =>
         now ← ask PClockNow;
         r ← ask (InsertOrganization {| og_id := id; og_slug := co_slug c; og_display_name := co_display_name c;
                                        og_created_at := now |});
         mret match (r : stored unit) with
              | Ok _ => Ok (Some id)
              | Err PsIdentityCollision => Ok None
              | Err PsOrganizationSlugExists => Err PxAlreadyExists
              | Err e => Err (map_command_store_error e)
              end
     end).
Definition insert_generated_project (c : CreateProject) : project ProjectId :=
  collision_loop collision_retries
    (id ←? random_project_id;
     match (id : option ProjectId) with
     | None => mret (Ok None)
     | Some id =>
         now ← ask PClockNow;
         r ← ask (InsertProject {| pi_id := id; pi_organization_id := cp_organization_id c; pi_slug := cp_slug c;
                                   pi_display_name := cp_display_name c; pi_state := PActive;
                                   pi_policy_revision := 1; pi_ip_policy := cp_ip_policy c; pi_items := cp_items c;
                                   pi_limits := cp_limits c; pi_grouping_revision := 1; pi_created_at := now |});
         mret match (r : stored unit) with
              | Ok _ => Ok (Some id)
              | Err PsIdentityCollision => Ok None
              | Err PsProjectSlugExists => Err PxAlreadyExists
              | Err e => Err (map_command_store_error e)
              end
     end).
(** The loop both [create_project] and [create_project_key] end with. *)
Definition create_project_key (project_id : ProjectId) (label : str) : project bytes :=
  collision_loop collision_retries
    (dsn_key ←? random_dsn_key;
     now ← ask PClockNow;
     r ← ask (InsertProjectKey {| pk_key := dsn_key; pk_project_id := project_id; pk_state := KActive;
                                  pk_label := label; pk_created_at := now |});
     match (r : stored unit) with
     | Ok _ => _ ← ask (Invalidate [dsn_key]); mret (Ok (Some (dsn_key : bytes)))
     | Err PsKeyCollision => mret (Ok None)
     | Err e => mret (Err (map_command_store_error e))
     end).
Definition create_project (c : CreateProject) : project CreatedProject :=
  project_id ←? insert_generated_project c;
  dsn_key ←? create_project_key project_id (lit "default");
  mret (Ok {| cr_project_id := project_id; cr_dsn_key := dsn_key |}).

(** ** Changes *)

Definition set_key_state (key : bytes) (state : ProjectKeyState) : project ProjectId :=
  project_id ←? command (SetKeyState key state);
  _ ← ask (Invalidate [key]);
  mret (Ok (project_id : ProjectId)).
Definition set_project_key_state (project_id : ProjectId) (key : bytes) (state : ProjectKeyState) : project unit :=
  _ ←? command (SetProjectKeyState project_id key state);
  _ ← ask (Invalidate [key]);
  mret (Ok tt).
Definition set_project_acceptance (project_id : ProjectId) (state : ProjectAcceptanceState) : project unit :=
  if bool_decide (state = PPurging) || bool_decide (state = PDeleted) then mret (Err PxInvalidStateTransition)
  else
    keys ←? command (SetProjectAcceptance project_id state);
    _ ← ask (Invalidate keys);
    mret (Ok tt).
Definition update_project_policy (project_id : ProjectId) (update : ProjectPolicyUpdate) : project ProjectView :=
  '(view, keys) ←? command (UpdateProjectPolicy project_id update);
  _ ← ask (Invalidate keys);
  mret (Ok view).
Definition import_project_key (project_id : ProjectId) (label : str) (source : ExistingDsn) : project bytes :=
  native ← ask (LoadProject (xd_key source));
  match (native : stored ProjectSnapshot) with
  | Ok _ | Err PsNotFound => mret (Err PxAlreadyExists)
  | Err PsUnknownKey =>
      known ← ask (LoadDsnMapping (xd_key source));
      match (known : stored DsnMapping) with
      | Ok _ => mret (Err PxAlreadyExists)
      | Err PsNotFound =>
          target_key ←? create_project_key project_id label;
          inserted ← ask (InsertDsnMapping project_id {| dm_source := source; dm_target_key := target_key |});
          match (inserted : stored unit) with
          | Err error =>
              _ ←? set_project_key_state project_id target_key KDisabled;
              mret (Err match error with PsKeyCollision => PxAlreadyExists | e => map_command_store_error e end)
          | Ok _ =>
              _ ← ask (InvalidateMapping (xd_key source));
              mret (Ok (target_key : bytes))
          end
      | Err e => mret (Err (map_command_store_error e))
      end
  | Err e => mret (Err (map_command_store_error e))
  end.

(** ** Reads *)

Definition list_projects (organization_id : OrganizationId) (limit : Z) : project (list ProjectView) :=
  command (ListProjects organization_id limit).
Definition load_project_view (project_id : ProjectId) : project ProjectView :=
  command (LoadProjectById project_id).
Definition list_project_keys (project_id : ProjectId) : project (list ProjectKeyView) :=
  command (ListProjectKeys project_id).
Definition resolve_cached (key : bytes) : prog ProjectSig (result ProjectResolveError ProjectSnapshot) :=
  ask (Cached key).
(** The snapshot, and the project number the SDK put in its request. *)
Definition resolve_ingest (key : bytes) : prog ProjectSig (result ProjectResolveError (ProjectSnapshot * Z)) :=
  r ← resolve_cached key;
  match (r : result ProjectResolveError ProjectSnapshot) with
  | Ok snapshot => mret (Ok (snapshot, ps_project_id snapshot))
  | Err RUnknownKey =>
      mapping ←? ask (CachedMapping key);
      snapshot ←? resolve_cached (dm_target_key mapping);
      mret (Ok (snapshot, xd_project_id (dm_source mapping)))
  | Err e => mret (Err e)
  end.
End service.

(** ** Every change is followed by its invalidation *)

(** The keys whose cached snapshot a successful call makes stale. *)
Definition changed_keys (e : event ProjectSig) : option (list bytes) :=
  match e with
  | existT c x =>
      match c return answer ProjectSig c → option (list bytes) with
      | InsertProjectKey key => λ r, match r with Ok _ => Some [pk_key key] | Err _ => None end
      | SetKeyState key _ | SetProjectKeyState _ key _ => λ r, if is_ok r then Some [key] else None
      | SetProjectAcceptance _ _ => λ r, match r with Ok keys => Some keys | Err _ => None end
      | UpdateProjectPolicy _ _ => λ r, match r with Ok (_, keys) => Some keys | Err _ => None end
      | _ => λ _, None
      end x
  end.
Definition changed_mapping (e : event ProjectSig) : option bytes :=
  match e with
  | existT c x =>
      match c return answer ProjectSig c → option bytes with
      | InsertDsnMapping _ mapping => λ r, if is_ok r then Some (xd_key (dm_source mapping)) else None
      | _ => λ _, None
      end x
  end.
Definition settled (h : list (event ProjectSig)) : Prop :=
  ∀ h1 e h2, h = h1 ++ e :: h2 →
    (∀ keys, changed_keys e = Some keys → existT (Invalidate keys : call ProjectSig) tt ∈ h2)
    ∧ (∀ key, changed_mapping e = Some key → existT (InvalidateMapping key : call ProjectSig) tt ∈ h2).

Lemma settled_nil : settled [].
Proof. by intros [|? ?] ? ?. Qed.
Lemma settled_call h e : settled h → changed_keys e = None → changed_mapping e = None → settled (h ++ [e]).
Proof.
  intros Hh Hk Hm h1 e' h2 Heq. destruct h2 as [|e2 h2 _] using rev_ind.
  - apply app_inj_tail in Heq as [-> ->]. by split; intros ?; rewrite ?Hk, ?Hm.
  - rewrite app_comm_cons, app_assoc in Heq. apply app_inj_tail in Heq as [-> ->].
    destruct (Hh h1 e' h2 eq_refl) as [H1 H2]. split; intros x Hx; rewrite elem_of_app; left; auto.
Qed.
(** A change and then its invalidation. *)
Lemma settled_change h e i : settled h →
  (∀ keys, changed_keys e = Some keys → i = existT (Invalidate keys : call ProjectSig) tt) →
  (∀ key, changed_mapping e = Some key → i = existT (InvalidateMapping key : call ProjectSig) tt) →
  changed_keys i = None → changed_mapping i = None → settled ((h ++ [e]) ++ [i]).
Proof.
  intros Hh Hk Hm Hik Him h1 e' h2 Heq. destruct h2 as [|i' h2 _] using rev_ind.
  - apply app_inj_tail in Heq as [? ?]; subst. by split; intros ?; rewrite ?Hik, ?Him.
  - rewrite app_comm_cons, app_assoc in Heq. apply app_inj_tail in Heq as [Heq ->].
    destruct h2 as [|e2 h2 _] using rev_ind.
    + apply app_inj_tail in Heq as [? ?]; subst.
      split; intros x Hx; [apply Hk in Hx as ->|apply Hm in Hx as ->]; cbn; by apply list_elem_of_singleton.
    + rewrite app_comm_cons, app_assoc in Heq. apply app_inj_tail in Heq as [? ?]; subst.
      destruct (Hh h1 e' h2 eq_refl) as [H1 H2]. split; intros x Hx; rewrite !elem_of_app; left; left; auto.
Qed.

Definition settles {A} (p : prog ProjectSig A) : Prop :=
  ∀ h, settled h → sat (λ _ _, True) (λ h _, settled h) h p.

Section settles.
Context (retries : nat).
Implicit Types h : list (event ProjectSig).

Lemma settles_ret {A} (a : A) : settles (mret a : prog ProjectSig A).
Proof. by intros h Hh. Qed.
Lemma settles_call {A} (c : call ProjectSig) (k : answer ProjectSig c → prog ProjectSig A) :
  (∀ x, changed_keys (existT c x) = None) → (∀ x, changed_mapping (existT c x) = None) →
  (∀ x, settles (k x)) → settles (perform c ≫= k).
Proof. intros Hc Hm Hk h Hh. apply sat_port_call; [done|]. intros x. apply Hk, settled_call; auto. Qed.
Lemma settles_attempt {X A B} (p : prog ProjectSig (result X A)) (f : A → prog ProjectSig (result X B)) :
  settles p → (∀ a, settles (f a)) → settles (attempt p f).
Proof.
  intros Hp Hf h Hh. apply sat_attempt. eapply sat_mono; [done| |by apply Hp]. intros h' [a|e] Hh'; [by apply Hf|done].
Qed.
Lemma settles_loop {A} (body : project (option A)) n : settles body → settles (collision_loop n body).
Proof.
  intros Hb. induction n as [|n IH]; [by apply settles_ret|]. cbn [collision_loop].
  apply settles_attempt; [done|]. intros [a|]; [by apply settles_ret|done].
Qed.
Lemma settles_random n : settles (project_random n).
Proof. unfold project_random. apply settles_call; [done..|]. intros x. apply settles_ret. Qed.
Lemma settles_create_project_key project_id label : settles (create_project_key retries project_id label).
Proof.
  apply settles_loop, settles_attempt; [apply settles_random|]. intros key.
  apply settles_call; [done..|]. intros now h Hh. apply sat_port_call; [done|]. intros [[]|e].
  - apply sat_port_call; [done|]. intros []. apply settled_change; [done| |done..]. by intros keys [= <-].
  - assert (settled (h ++ [existT (InsertProjectKey {| pk_key := key; pk_project_id := project_id; pk_state := KActive;
      pk_label := label; pk_created_at := now |} : call ProjectSig) (Err e)])) by by apply settled_call.
    by destruct e.
Qed.
Ltac settles_change := intros h Hh; split; [done|]; intros [x|e]; cbn; [|by apply settled_call];
  repeat (case_match; try done); split; [done|]; intros []; (apply settled_change; [done| |done..]); by intros ? [= <-].
Lemma settles_set_key_state key state : settles (set_key_state key state).
Proof. settles_change. Qed.
Lemma settles_set_project_key_state project_id key state : settles (set_project_key_state project_id key state).
Proof. settles_change. Qed.
Lemma settles_set_project_acceptance project_id state : settles (set_project_acceptance project_id state).
Proof. unfold set_project_acceptance. case_match; [by apply settles_ret|]. settles_change. Qed.
Lemma settles_update_project_policy project_id update : settles (update_project_policy project_id update).
Proof. settles_change. Qed.
Lemma settles_import project_id label source : settles (import_project_key retries project_id label source).
Proof.
  apply settles_call; [done..|]. intros [snapshot|[]]; try by apply settles_ret.
  apply settles_call; [done..|]. intros [mapping|[]]; try by apply settles_ret.
  apply settles_attempt; [apply settles_create_project_key|]. intros target h Hh.
  split; [done|]. intros [[]|e].
  - split; [done|]. intros []. apply settled_change; [done|done| |done..]. by intros key [= <-].
  - apply (settles_attempt (set_project_key_state project_id target KDisabled)); [apply settles_set_project_key_state| |by apply settled_call].
    intros []. apply settles_ret.
Qed.
Lemma settles_create_organization c : settles (create_organization retries c).
Proof.
  apply settles_loop, settles_attempt.
  - apply settles_attempt; [apply settles_random|]. intros a. apply settles_ret.
  - intros [id|]; [|by apply settles_ret]. apply settles_call; [done..|]. intros now.
    apply settles_call; [done..|]. intros r. apply settles_ret.
Qed.
Lemma settles_insert_generated_project c : settles (insert_generated_project retries c).
Proof.
  apply settles_loop, settles_attempt.
  - apply settles_attempt; [apply settles_random|]. intros a. apply settles_ret.
  - intros [id|]; [|by apply settles_ret]. apply settles_call; [done..|]. intros now.
    apply settles_call; [done..|]. intros r. apply settles_ret.
Qed.

(** C8. Whatever the store answers, when a command of the service returns, every
    change it made to a key has been followed by the invalidation of the cached
    snapshots of exactly the keys it changed, and every imported mapping by the
    invalidation of its source key. *)
Theorem commands_invalidate :
  (∀ c, settles (create_organization retries c)) ∧ (∀ c, settles (create_project retries c))
  ∧ (∀ project_id label, settles (create_project_key retries project_id label))
  ∧ (∀ project_id label source, settles (import_project_key retries project_id label source))
  ∧ (∀ key state, settles (set_key_state key state))
  ∧ (∀ project_id key state, settles (set_project_key_state project_id key state))
  ∧ (∀ project_id state, settles (set_project_acceptance project_id state))
  ∧ (∀ project_id update, settles (update_project_policy project_id update)).
Proof.
  split_and!; [apply settles_create_organization| |apply settles_create_project_key|apply settles_import
    |apply settles_set_key_state|apply settles_set_project_key_state|apply settles_set_project_acceptance
    |apply settles_update_project_policy].
  intros c. apply settles_attempt; [apply settles_insert_generated_project|]. intros id.
  apply settles_attempt; [apply settles_create_project_key|]. intros key. apply settles_ret.
Qed.
End settles.

(** ** Imports fail closed *)

Section import.
Context (retries : nat) (project_id : ProjectId) (label : str) (source : ExistingDsn).

Definition inserts_mapping (e : event ProjectSig) : bool :=
  match projT1 e with InsertDsnMapping _ _ => true | _ => false end.
Definition no_mapping (h : list (event ProjectSig)) : Prop := Forall (λ e, inserts_mapping e = false) h.
Definition import_guar (h : list (event ProjectSig)) (c : call ProjectSig) : Prop :=
  match c with
  | InsertDsnMapping p m =>
      p = project_id ∧ dm_source m = source ∧ no_mapping h
      ∧ answered (E := ProjectSig) (LoadProject (xd_key source)) (Err PsUnknownKey) h
      ∧ answered (E := ProjectSig) (LoadDsnMapping (xd_key source)) (Err PsNotFound) h
      ∧ ∃ now, answered (E := ProjectSig) (InsertProjectKey {| pk_key := dm_target_key m; pk_project_id := project_id;
                                             pk_state := KActive; pk_label := label; pk_created_at := now |}) (Ok tt) h
  | _ => True
  end.
Definition import_post (h : list (event ProjectSig)) (r : result ProjectServiceError bytes) : Prop :=
  match r with
  | Ok target => answered (E := ProjectSig) (InsertDsnMapping project_id {| dm_source := source; dm_target_key := target |}) (Ok tt) h
  | Err _ => no_mapping h ∨ ∃ target e x,
      answered (E := ProjectSig) (InsertDsnMapping project_id {| dm_source := source; dm_target_key := target |}) (Err e) h
      ∧ answered (E := ProjectSig) (SetProjectKeyState project_id target KDisabled) x h
  end.

Lemma no_mapping_snoc h e : no_mapping h → inserts_mapping e = false → no_mapping (h ++ [e]).
Proof. intros Hh He. apply Forall_app. split; [done|by repeat constructor]. Qed.
Lemma key_loop_quiet n h : no_mapping h →
  sat import_guar
    (λ h' r, no_mapping h' ∧ ∀ key, r = Ok key → ∃ now, answered (E := ProjectSig) (InsertProjectKey
       {| pk_key := key; pk_project_id := project_id; pk_state := KActive; pk_label := label; pk_created_at := now |}) (Ok tt) h')
    h (create_project_key n project_id label).
Proof.
  revert h. unfold create_project_key. induction n as [|n IH]; intros h Hh; [by split|]. cbn [collision_loop].
  split; [done|]. intros [key|]; cbn; [|split; [by apply no_mapping_snoc|done]].
  split; [done|]. intros now. split; [done|].
  assert (∀ x, no_mapping (((h ++ [existT (PFillBytes 16 : call ProjectSig) (Some key)]) ++ [existT (PClockNow : call ProjectSig) now])
    ++ [existT (InsertProjectKey {| pk_key := key; pk_project_id := project_id; pk_state := KActive; pk_label := label;
                                    pk_created_at := now |} : call ProjectSig) x])) as Hq.
  { intros x. by repeat apply no_mapping_snoc. }
  intros [[]|e]; cbn.
  - split; [done|]. intros []. split; [by apply no_mapping_snoc|]. intros k [= <-]. exists now.
    apply answered_app, (answered_last (E := ProjectSig)).
  - destruct e; first [by apply IH|by split].
Qed.

(** A mapping is stored only for a source that is neither a native key nor mapped,
    to a key this import has itself created; whenever storing it does not succeed,
    certainly or not, the created key has been ordered disabled. *)
Theorem import_fails_closed : sat import_guar import_post [] (import_project_key retries project_id label source).
Proof.
  unfold import_project_key. apply sat_port_call; [done|]. intros native.
  assert (no_mapping [existT (LoadProject (xd_key source) : call ProjectSig) native]) as H1 by by repeat constructor.
  destruct native as [snapshot|[]]; try by left.
  apply sat_port_call; [done|]. intros known.
  match goal with |- sat _ _ ?h _ => assert (no_mapping h) as H2 by by repeat constructor end.
  destruct known as [mapping|[]]; try by left.
  match goal with |- sat _ _ ?h _ => assert (answered (E := ProjectSig) (LoadProject (xd_key source)) (Err PsUnknownKey) h
    ∧ answered (E := ProjectSig) (LoadDsnMapping (xd_key source)) (Err PsNotFound) h) as Ha end.
  { split; [apply answered_app, (answered_last (E := ProjectSig) _ _ [])|apply (answered_last (E := ProjectSig))]. }
  revert H2 Ha. match goal with |- no_mapping ?h → _ => generalize h end. clear H1. intros h H2 [Hn Hk].
  apply sat_attempt. eapply sat_mono; [done| |apply sat_suffix, key_loop_quiet, H2].
  intros h' [target|e] [Hpre [Hq Hkey]]; [|by left]. destruct (Hkey target eq_refl) as [now Hins].
  split; [|intros [[]|e]; cbn].
  - split_and!; [done..| | |by exists now]; by eapply answered_prefix.
  - split; [done|]. intros []. apply answered_app, (answered_last (E := ProjectSig)).
  - split; [done|]. intros [[]|e']; cbn.
    + split; [done|]. intros []. right. exists target, e, (Ok tt). split; [apply answered_app, answered_app, (answered_last (E := ProjectSig))|].
      apply answered_app, (answered_last (E := ProjectSig)).
    + right. exists target, e, (Err e'). split; [apply answered_app, (answered_last (E := ProjectSig))|apply (answered_last (E := ProjectSig))].
Qed.
End import.

(** ** What a request is resolved to *)

Ltac here := repeat first [apply list_elem_of_here | apply list_elem_of_further].

(** The snapshot of the native key, or, for a key that is unknown, of the target of
    its mapping: one alias and no chain, and nothing else is looked up. *)
Theorem resolve_ingest_one_alias key :
  sat (λ (h : list (event ProjectSig)) (c : call ProjectSig), c = Cached key
         ∨ c = CachedMapping key ∧ answered (E := ProjectSig) (Cached key) (Err RUnknownKey) h
         ∨ ∃ m, c = Cached (dm_target_key m) ∧ answered (E := ProjectSig) (CachedMapping key) (Ok m) h)
    (okay (λ h '(snapshot, wire_id),
       answered (E := ProjectSig) (Cached key) (Ok snapshot) h ∧ wire_id = ps_project_id snapshot
       ∨ ∃ m, answered (E := ProjectSig) (Cached key) (Err RUnknownKey) h
           ∧ answered (E := ProjectSig) (CachedMapping key) (Ok m) h
           ∧ answered (E := ProjectSig) (Cached (dm_target_key m)) (Ok snapshot) h
           ∧ wire_id = xd_project_id (dm_source m)))
    [] (resolve_ingest key).
Proof.
  unfold resolve_ingest, resolve_cached. apply sat_port_call; [by left|]. unfold answered.
  intros [snapshot|[]]; [left; split; [cbn; here|done]| |done..].
  split; [right; left; split; [done|cbn; here]|]. intros [m|e]; cbn; [|done].
  split; [right; right; exists m; split; [done|here]|]. intros [snapshot|e]; cbn; [|done].
  right. exists m. split_and!; [here..|done].
Qed.

(** A load authorises exactly a snapshot whose project and key are active. *)
Lemma load_project_answer_Ok r s :
  load_project_answer r = Ok s ↔ r = Ok s ∧ ps_state s = PActive ∧ ps_key_state s = KActive.
Proof.
  unfold load_project_answer, snapshot_is_active. destruct r as [s'|[]]; try naive_solver.
  repeat case_bool_decide; cbn; naive_solver.
Qed.
