(* ===== verification/Deletion.v ===== *)
(** * Project deletion

    [domain/src/deletion.rs] and [application/src/deletion.rs]: the service over
    its store, and the registry of the work in progress per project: deletion
    fences a project, so that no new work enters, and waits, for a bounded time,
    until the work inside has left. *)
From stdpp Require Import base list numbers strings sets gmap relations.
From Stdlib Require Import ZArith Lia.
From S2P Require Import Prelude Primitives Dispatcher Auth Effects Writers EventWriter IngestTheory Projects.

Open Scope prog_scope.

(** ** Values *)

Inductive ProjectDeletionPhase := DpPendingGrace | DpPurging | DpDeleted | DpCancelled.
Record ProjectDeletionStatus := {
  ds_operation_id : bytes;
  ds_project_id : ProjectId;
  ds_organization_id : OrganizationId;
  ds_phase : ProjectDeletionPhase;
  ds_dataset_code : Z;
  ds_reconciliation_pass : bool;
  ds_requested_at : Timestamp;
  ds_purge_after : Timestamp;
  ds_completed_at : option Timestamp;
  ds_next_attempt_at : Timestamp;
  ds_attempts : Z;
  ds_last_error : option str;
}.
Record ProjectDeletionRequest := {
  dr_operation_id : bytes;
  dr_project_id : ProjectId;
  dr_organization_id : OrganizationId;
  dr_requested_by : Z;
  dr_requested_at : Timestamp;
  dr_purge_after : Timestamp;
}.
Record ProjectDeletionChange := { dc_status : ProjectDeletionStatus; dc_affected_keys : list bytes }.

Record ProjectDeletionConfig := {
  df_grace_period : duration;
  df_delete_batch_documents : Z;
  df_completed_job_retention : duration;
  df_slug_reservation : duration;
  df_poll_interval : duration;
  df_operation_timeout : duration;
  df_drain_timeout : duration;
  df_retry_base : duration;
  df_retry_max : duration;
}.
Definition DSECOND : duration := 1000 * NANOS_PER_MILLI.
Definition deletion_default : ProjectDeletionConfig :=
  {| df_grace_period := 24 * 60 * 60 * DSECOND; df_delete_batch_documents := 5000;
     df_completed_job_retention := 30 * 24 * 60 * 60 * DSECOND; df_slug_reservation := 30 * 24 * 60 * 60 * DSECOND;
     df_poll_interval := DSECOND; df_operation_timeout := 10 * DSECOND; df_drain_timeout := 10 * DSECOND;
     df_retry_base := DSECOND; df_retry_max := 60 * DSECOND |}.
Inductive ProjectDeletionError :=
| DeInvalidConfiguration | DeConfirmationMismatch | DeConflict | DeNotFound | DeNotCancellable | DeUnavailable.
Inductive ProjectDeletionStoreError := DsConflict | DsNotFound | DsNotCancellable | DsInvalidData | DsUnavailable.
Definition map_deletion_store (e : ProjectDeletionStoreError) : ProjectDeletionError :=
  match e with
  | DsConflict => DeConflict | DsNotFound => DeNotFound | DsNotCancellable => DeNotCancellable
  | DsInvalidData | DsUnavailable => DeUnavailable
  end.
Definition deletion_validate (c : ProjectDeletionConfig) : result ProjectDeletionError unit :=
  let valid := negb (df_grace_period c =? 0) && in_range 1 10000 (df_delete_batch_documents c)
    && negb (df_completed_job_retention c =? 0) && negb (df_slug_reservation c =? 0)
    && negb (df_poll_interval c =? 0) && negb (df_operation_timeout c =? 0) && negb (df_drain_timeout c =? 0)
    && negb (df_retry_base c =? 0) && (df_retry_base c <=? df_retry_max c) in
  if valid then Ok tt else Err DeInvalidConfiguration.
Record ProjectPurgeRequest := {
  pr_now : Timestamp;
  pr_batch_size : Z;
  pr_retry_base : duration;
  pr_retry_max : duration;
  pr_completed_retention : duration;
  pr_slug_reservation : duration;
}.
(** The request of one tick of the worker. *)
Definition purge_request (c : ProjectDeletionConfig) (now : Timestamp) : ProjectPurgeRequest :=
  {| pr_now := now; pr_batch_size := df_delete_batch_documents c; pr_retry_base := df_retry_base c;
     pr_retry_max := df_retry_max c; pr_completed_retention := df_completed_job_retention c;
     pr_slug_reservation := df_slug_reservation c |}.
Definition deletion_add_duration (timestamp : Timestamp) (d : duration) : Timestamp :=
  let millis := unwrap_or I64_MAX (checked_i64 (as_millis d)) in
  match from_unix_millis (sat_i64 (timestamp + millis)) with Ok t => t | Err _ => timestamp end.

(** ** The service *)

(** A store call answers [None] when it takes longer than the operation timeout. *)
Inductive DeletionCall :=
| DClockNow
| DLoadProjectView (project_id : ProjectId)
| RequestDeletion (request : ProjectDeletionRequest)
| CancelDeletion (project_id : ProjectId) (operation_id : bytes) (now : Timestamp) (completed_retention : duration)
| DeletionStatus (project_id : ProjectId)
| DInvalidateKeys (keys : list bytes)
| FenceAndDrain (project_id : ProjectId) (maximum : duration)
| Unfence (project_id : ProjectId).
Definition deletion_answer (c : DeletionCall) : Type :=
  match c with
  | DClockNow => Timestamp
  | DLoadProjectView _ => result ProjectServiceError ProjectView
  | RequestDeletion _ | CancelDeletion _ _ _ _ => option (result ProjectDeletionStoreError ProjectDeletionChange)
  | DeletionStatus _ => option (result ProjectDeletionStoreError ProjectDeletionStatus)
  | DInvalidateKeys _ | FenceAndDrain _ _ | Unfence _ => unit
  end.
Definition DeletionSig : signature := Signature DeletionCall deletion_answer.
Abbreviation deletion A := (prog DeletionSig (result ProjectDeletionError A)).
Abbreviation dcall c := (perform (E := DeletionSig) c).
(** [.map_err(|_| Unavailable)?.map_err(map_store)?] of a call under a timeout. *)
Definition timed {A} (r : option (result ProjectDeletionStoreError A)) : result ProjectDeletionError A :=
  match r with None => Err DeUnavailable | Some r => map_err map_deletion_store r end.

Definition request (c : ProjectDeletionConfig) (project_id : ProjectId) (organization_id : OrganizationId)
    (requested_by : Z) (operation_id : bytes) (confirmation : str) : deletion ProjectDeletionStatus :=
  project ←? map_err_p (λ e, match e with PxNotFound => DeNotFound | _ => DeUnavailable end)
               (dcall (DLoadProjectView project_id));
  if negb (pv_organization_id project =? organization_id) then mret (Err DeNotFound)
  else if negb (bool_decide (confirmation = pv_slug project)) then mret (Err DeConfirmationMismatch)
  else
    now ← dcall DClockNow;
    let purge_after := deletion_add_duration now (df_grace_period c) in
    r ← dcall (RequestDeletion {| dr_operation_id := operation_id; dr_project_id := project_id;
                 dr_organization_id := organization_id; dr_requested_by := requested_by; dr_requested_at := now;
                 dr_purge_after := purge_after |});
    change ←! timed r;
    _ ← dcall (DInvalidateKeys (dc_affected_keys change));
    _ ← dcall (FenceAndDrain project_id (df_drain_timeout c));
    mret (Ok (dc_status change)).
Definition cancel (c : ProjectDeletionConfig) (project_id : ProjectId) (operation_id : bytes)
    : deletion ProjectDeletionStatus :=
  now ← dcall DClockNow;
  r ← dcall (CancelDeletion project_id operation_id now (df_completed_job_retention c));
  change ←! timed r;
  _ ← dcall (DInvalidateKeys (dc_affected_keys change));
  _ ← dcall (Unfence project_id);
  mret (Ok (dc_status change)).
Definition status (project_id : ProjectId) : deletion ProjectDeletionStatus :=
  r ← dcall (DeletionStatus project_id);
  mret (timed r).

(** ** The registry of work *)

Record WorkState := { wk_fenced : bool; wk_active : Z }.
Definition work_default : WorkState := {| wk_fenced := false; wk_active := 0 |}.
Abbreviation work_states := (gmap Z WorkState).
(** [state.entry(project_id).or_default()]. *)
Definition work_entry (s : work_states) (project_id : ProjectId) : WorkState := unwrap_or work_default (s !! project_id).
Definition try_enter (s : work_states) (project_id : ProjectId) : work_states * bool :=
  let entry := work_entry s project_id in
  if wk_fenced entry then (<[project_id := entry]> s, false)
  else (<[project_id := {| wk_fenced := false; wk_active := sat_u64 (wk_active entry + 1) |}]> s, true).
(** [Drop] of the guard, up to [notify_waiters]. *)
Definition leave (s : work_states) (project_id : ProjectId) : work_states :=
  match s !! project_id with
  | Some entry => <[project_id := {| wk_fenced := wk_fenced entry; wk_active := sat_u64 (wk_active entry - 1) |}]> s
  | None => s
  end.
Definition fence (s : work_states) (project_id : ProjectId) : work_states :=
  <[project_id := {| wk_fenced := true; wk_active := wk_active (work_entry s project_id) |}]> s.
Definition unfence (s : work_states) (project_id : ProjectId) : work_states :=
  match s !! project_id with
  | Some entry => <[project_id := {| wk_fenced := false; wk_active := wk_active entry |}]> s
  | None => s
  end.
(** The test of the loop of [fence_and_drain]. *)
Definition drained (s : work_states) (project_id : ProjectId) : bool :=
  match s !! project_id with None => true | Some entry => wk_active entry =? 0 end.

(** *** Guards, drains and wake-ups, interleaved *)

(** A call of [fence_and_drain] after it has set the fence: about to test, having
    seen work before it listens, listening, returned, given up. *)
Inductive Drain := DrChecking (p : Z) | DrSeen (p : Z) | DrWaiting (p : Z) | DrEnded (p : Z) | DrTimedOut (p : Z).
(** [rg_guards]: the projects of the guards alive; [rg_notices]: the calls of
    [notify_waiters] that are due. *)
Record Registry := {
  rg_states : work_states;
  rg_guards : list Z;
  rg_drains : list Drain;
  rg_notices : nat;
}.
Definition registry_start : Registry := {| rg_states := ∅; rg_guards := []; rg_drains := []; rg_notices := 0 |}.
Definition wake (d : Drain) : Drain := match d with DrWaiting p => DrChecking p | _ => d end.
Definition set_registry (s : Registry) states guards drains notices : Registry :=
  {| rg_states := states; rg_guards := guards; rg_drains := drains; rg_notices := notices |}.
(** The label is the project a step takes the fence from.  A guard occupies memory,
    so there are fewer than a [usize] counts. *)
Inductive registry_step (s : Registry) : option Z → Registry → Prop :=
| rs_enter p states :
    len (rg_guards s) < U64_MAX → try_enter (rg_states s) p = (states, true) →
    registry_step s None (set_registry s states (p :: rg_guards s) (rg_drains s) (rg_notices s))
| rs_refuse p states :
    try_enter (rg_states s) p = (states, false) →
    registry_step s None (set_registry s states (rg_guards s) (rg_drains s) (rg_notices s))
| rs_leave i p :
    rg_guards s !! i = Some p →
    registry_step s None (set_registry s (leave (rg_states s) p) (delete i (rg_guards s)) (rg_drains s) (S (rg_notices s)))
| rs_notify n :
    rg_notices s = S n →
    registry_step s None (set_registry s (rg_states s) (rg_guards s) (map wake (rg_drains s)) n)
| rs_fence p :
    registry_step s None (set_registry s (fence (rg_states s) p) (rg_guards s) (rg_drains s ++ [DrChecking p]) (rg_notices s))
| rs_check i p :
    rg_drains s !! i = Some (DrChecking p) →
    registry_step s None (set_registry s (rg_states s) (rg_guards s)
      (<[i := if drained (rg_states s) p then DrEnded p else DrSeen p]> (rg_drains s)) (rg_notices s))
| rs_listen i p :
    rg_drains s !! i = Some (DrSeen p) →
    registry_step s None (set_registry s (rg_states s) (rg_guards s) (<[i := DrWaiting p]> (rg_drains s)) (rg_notices s))
| rs_timeout i p :
    rg_drains s !! i = Some (DrWaiting p) →
    registry_step s None (set_registry s (rg_states s) (rg_guards s) (<[i := DrTimedOut p]> (rg_drains s)) (rg_notices s))
| rs_unfence p :
    registry_step s (Some p) (set_registry s (unfence (rg_states s) p) (rg_guards s) (rg_drains s) (S (rg_notices s))).
(** Reached without taking the fence from the projects of [except]. *)
Inductive registry_reach (except : Z → Prop) : Registry → Prop :=
| rr_start : registry_reach except registry_start
| rr_step s label s' :
    registry_reach except s → (∀ p, label = Some p → ¬ except p) → registry_step s label s' →
    registry_reach except s'.

(** ** The fence holds *)

Definition guards_of (s : Registry) (p : Z) : list Z := filter (λ q, q = p) (rg_guards s).
Definition fenced (s : work_states) (p : Z) : bool := wk_fenced (work_entry s p).
Definition drain_project (d : Drain) : Z :=
  match d with DrChecking p | DrSeen p | DrWaiting p | DrEnded p | DrTimedOut p => p end.
Record registry_ok (except : Z → Prop) (s : Registry) : Prop := {
  rok_active : ∀ p, wk_active (work_entry (rg_states s) p) = len (guards_of s p);
  rok_total : len (rg_guards s) ≤ U64_MAX;
  rok_fenced : ∀ p d, except p → d ∈ rg_drains s → drain_project d = p → fenced (rg_states s) p = true;
  rok_ended : ∀ p, except p → DrEnded p ∈ rg_drains s → guards_of s p = [];
}.

Lemma work_entry_insert s p q e : work_entry (<[p := e]> s) q = if decide (p = q) then e else work_entry s q.
Proof. unfold work_entry. case_decide as E; [subst; by rewrite lookup_insert_eq|by rewrite lookup_insert_ne]. Qed.
Lemma drained_entry s p : drained s p = (wk_active (work_entry s p) =? 0).
Proof. unfold drained, work_entry. by destruct (s !! p). Qed.
Lemma leave_entry s p q : 0 < wk_active (work_entry s p) ≤ U64_MAX →
  work_entry (leave s p) q = if decide (p = q) then {| wk_fenced := wk_fenced (work_entry s p); wk_active := wk_active (work_entry s p) - 1 |}
    else work_entry s q.
Proof.
  intros Ha. unfold leave. destruct (s !! p) as [e|] eqn:E.
  - assert (work_entry s p = e) as He by (unfold work_entry; by rewrite E). rewrite He in *.
    rewrite work_entry_insert. case_decide; [|done]. unfold sat_u64. by rewrite saturate_exact by lia.
  - unfold work_entry in Ha. rewrite E in Ha. cbn in Ha. lia.
Qed.
Lemma unfence_entry s p q : work_entry (unfence s p) q =
  if decide (p = q) then {| wk_fenced := false; wk_active := wk_active (work_entry s p) |} else work_entry s q.
Proof.
  unfold unfence. destruct (s !! p) as [e|] eqn:E.
  - rewrite work_entry_insert. case_decide; [|done]. unfold work_entry. by rewrite E.
  - case_decide; [subst|done]. unfold work_entry. by rewrite E.
Qed.
Lemma filter_delete_count (l : list Z) i p q : l !! i = Some p →
  len (filter (λ x, x = q) l) = len (filter (λ x, x = q) (delete i l)) + (if decide (p = q) then 1 else 0).
Proof.
  intros Hi. unfold len. rewrite (delete_Permutation l i p Hi) at 1.
  rewrite filter_cons. case_decide; cbn; lia.
Qed.

Lemma guards_of_le s p : len (guards_of s p) ≤ len (rg_guards s).
Proof. unfold guards_of, len. pose proof (length_filter (λ q, q = p) (rg_guards s)). lia. Qed.
Tactic Notation "rcbn" := cbn [set_registry rg_states rg_guards rg_drains rg_notices wk_active wk_fenced drain_project].
Tactic Notation "rcbn" "in" hyp(H) :=
  cbn [set_registry rg_states rg_guards rg_drains rg_notices wk_active wk_fenced drain_project] in H.

Lemma drains_set except s drains :
  registry_ok except s →
  (∀ d, d ∈ drains → (∃ d', d' ∈ rg_drains s ∧ drain_project d' = drain_project d)
     ∧ ∀ p, d = DrEnded p → DrEnded p ∈ rg_drains s ∨ drained (rg_states s) p = true) →
  ∀ notices, registry_ok except (set_registry s (rg_states s) (rg_guards s) drains notices).
Proof.
  intros [Ha Ht Hf He] Hd notices. split; rcbn; try done.
  - intros p d Hp (Hd' & _)%Hd Heq. destruct Hd' as (d' & Hin & Heq'). eapply Hf; [done|exact Hin|congruence].
  - intros p Hp Hin. destruct (proj2 (Hd _ Hin) p eq_refl) as [?|Hdr]; [by apply He|].
    rewrite drained_entry, Ha in Hdr. apply Z.eqb_eq in Hdr. unfold guards_of, len in *. rcbn.
    destruct (filter _ _); [done|cbn in Hdr; lia].
Qed.
Lemma insert_elem {A} (l : list A) i x y : y ∈ <[i := x]> l → y = x ∨ y ∈ l.
Proof.
  intros (j & Hj)%list_elem_of_lookup_1. apply list_lookup_insert_Some in Hj as [(_ & -> & _)|[_ Hj]]; [by left|].
  right. by eapply list_elem_of_lookup_2.
Qed.
Lemma registry_step_ok except s label s' :
  registry_ok except s → (∀ p, label = Some p → ¬ except p) → registry_step s label s' → registry_ok except s'.
Proof.
  intros Hok Hlabel Hstep. pose proof Hok as [Ha Ht Hf He].
  destruct Hstep as [p states Hlt Hent|p states Hent|i p Hi|n Hn|p|i p Hi|i p Hi|i p Hi|p].
  - unfold try_enter in Hent. destruct (wk_fenced (work_entry (rg_states s) p)) eqn:Hfe; [done|]. injection Hent as <-.
    pose proof (guards_of_le s p) as Hle. pose proof (len_nonneg (guards_of s p)).
    split; rcbn.
    + intros q. rewrite work_entry_insert. unfold guards_of. rcbn. rewrite filter_cons.
      repeat case_decide; subst; try done; rcbn.
      rewrite len_cons, Ha. unfold sat_u64. rewrite saturate_exact by lia. unfold guards_of. lia.
    + rewrite len_cons. lia.
    + intros q d Hq Hin <-. specialize (Hf _ d Hq Hin eq_refl). unfold fenced in *. rewrite work_entry_insert.
      case_decide; [subst; congruence|done].
    + intros q Hq Hin. specialize (Hf q _ Hq Hin eq_refl). unfold guards_of. rcbn. rewrite filter_cons, decide_False; [by apply He|].
      intros ->. unfold fenced in Hf. congruence.
  - unfold try_enter in Hent. destruct (wk_fenced (work_entry (rg_states s) p)) eqn:Hfe; [|done]. injection Hent as <-.
    assert (∀ q, work_entry (<[p := work_entry (rg_states s) p]> (rg_states s)) q = work_entry (rg_states s) q) as Hw.
    { intros q. rewrite work_entry_insert. by case_decide; subst. }
    split; rcbn; try done; [by intros q; rewrite Hw|]. intros q d Hq Hin Hd. unfold fenced. rewrite Hw. by eapply Hf.
  - assert (0 < wk_active (work_entry (rg_states s) p) ≤ U64_MAX) as Hpos.
    { rewrite Ha. pose proof (guards_of_le s p). split; [|lia]. unfold guards_of.
      pose proof (filter_delete_count _ i p p Hi) as E. rewrite decide_True in E by done.
      pose proof (len_nonneg (filter (λ q, q = p) (delete i (rg_guards s)))). lia. }
    split; rcbn.
    + intros q. rewrite leave_entry by done. pose proof (filter_delete_count _ i p q Hi) as E. unfold guards_of in *. rcbn.
      case_decide; rcbn; rewrite Ha; unfold guards_of; subst; lia.
    + unfold len in *. rewrite length_delete by by eexists. lia.
    + intros q d Hq Hin Hd. unfold fenced. rewrite leave_entry by done. specialize (Hf q d Hq Hin Hd). unfold fenced in Hf.
      by case_decide; subst.
    + intros q Hq Hin. specialize (He q Hq Hin). unfold guards_of in *. rcbn.
      pose proof (filter_delete_count _ i p q Hi) as E. rewrite He, len_nil in E.
      pose proof (len_nonneg (filter (λ x, x = q) (delete i (rg_guards s)))).
      apply length_zero_iff_nil. unfold len in *. case_decide; lia.
  - apply (drains_set except s); [done|]. intros d (d' & -> & Hin)%list_elem_of_fmap.
    split; [exists d'; split; [done|by destruct d']|]. intros p. destruct d' as [| |q| |]; cbn; try done. by intros [= ->]; left.
  - split; rcbn.
    + intros q. unfold fence. rewrite work_entry_insert. case_decide; subst; rcbn; apply Ha.
    + done.
    + intros q d Hq Hin Hd. unfold fenced, fence. rewrite work_entry_insert. case_decide as E; [done|].
      apply elem_of_app in Hin as [Hin|Hin%list_elem_of_singleton]; [by eapply Hf|]. subst d. cbn in Hd. congruence.
    + intros q Hq [Hin|Hin%list_elem_of_singleton]%elem_of_app; [by apply He|done].
  - apply (drains_set except s); [done|]. intros d [->|Hin]%insert_elem; [|split; [by exists d|by intros q ->; left]].
    split; [eexists; split; [by eapply list_elem_of_lookup_2|by destruct (drained _ _)]|].
    intros q. destruct (drained (rg_states s) p) eqn:E; [|done]. intros [= <-]. by right.
  - apply (drains_set except s); [done|]. intros d [->|Hin]%insert_elem; [|split; [by exists d|by intros q ->; left]].
    split; [|done]. eexists. split; [by eapply list_elem_of_lookup_2|done].
  - apply (drains_set except s); [done|]. intros d [->|Hin]%insert_elem; [|split; [by exists d|by intros q ->; left]].
    split; [|done]. eexists. split; [by eapply list_elem_of_lookup_2|done].
  - specialize (Hlabel p eq_refl). split; rcbn; try done.
    + intros q. rewrite unfence_entry. case_decide; subst; rcbn; apply Ha.
    + intros q d Hq Hin Hd. unfold fenced. rewrite unfence_entry. case_decide; [by subst|]. by eapply Hf.
Qed.
Lemma registry_reach_ok except s : registry_reach except s → registry_ok except s.
Proof.
  induction 1 as [|s label s' _ IH Hl Hstep]; [|by eapply registry_step_ok].
  split; rcbn; [|done|..].
  - intros p. unfold work_entry. cbn [registry_start rg_states]. by rewrite lookup_empty.
  - intros p d _ Hd. by apply elem_of_nil in Hd.
  - intros p _ Hd. by apply elem_of_nil in Hd.
Qed.

(** C4. Until the fence of a project is taken away: its counter is the number of its
    guards, no work enters once a drain has begun, the loop of a drain ends only
    when none is left, and from then on there is none. *)
Theorem fence_excludes_work (p : Z) (s : Registry) : registry_reach (λ q, q = p) s →
  (∀ q, wk_active (work_entry (rg_states s) q) = len (guards_of s q))
  ∧ (drained (rg_states s) p = true ↔ guards_of s p = [])
  ∧ ((∃ d, d ∈ rg_drains s ∧ drain_project d = p) → (try_enter (rg_states s) p).2 = false)
  ∧ (DrEnded p ∈ rg_drains s → guards_of s p = []).
Proof.
  intros [Ha _ Hf He]%registry_reach_ok. split_and!; [done| | |by apply He].
  - rewrite drained_entry, Ha, Z.eqb_eq. unfold len. rewrite <- length_zero_iff_nil. lia.
  - intros (d & Hd & Hp). unfold try_enter. specialize (Hf p d eq_refl Hd Hp). unfold fenced in Hf. by rewrite Hf.
Qed.

Lemma rr_quiet except s s' : registry_reach except s → registry_step s None s' → registry_reach except s'.
Proof. intros Hs Hstep. by apply (rr_step _ s None s' Hs). Qed.

(** A guard that is dropped between the test of a drain and the moment it listens
    wakes nobody: the project has no work left, no notification is due, and the
    drain still waits, so that it lasts until its timeout. *)
Theorem drain_misses_wake_up (p : Z) : ∃ s,
  registry_reach (λ q, q = p) s ∧ rg_drains s = [DrWaiting p] ∧ rg_guards s = [] ∧ rg_notices s = 0%nat
  ∧ drained (rg_states s) p = true.
Proof.
  assert (work_entry ∅ p = work_default) as Hw by (unfold work_entry; by rewrite lookup_empty).
  pose (entered := (<[p := {| wk_fenced := false; wk_active := 1 |}]> ∅ : work_states)).
  assert (work_entry (fence entered p) p = {| wk_fenced := true; wk_active := 1 |}) as Hf.
  { unfold fence, entered. by rewrite !work_entry_insert, !decide_True. }
  pose (at_ := λ states guards drains notices, registry_reach (λ q, q = p)
    {| rg_states := states; rg_guards := guards; rg_drains := drains; rg_notices := notices |}).
  assert (at_ entered [p] [] 0%nat) as R1.
  { apply (rr_quiet _ _ _ (rr_start _)). apply (rs_enter registry_start p entered); [done|]. unfold try_enter. cbn. by rewrite Hw. }
  assert (at_ (fence entered p) [p] [DrChecking p] 0%nat) as R2
    by exact (rr_quiet _ _ _ R1 (rs_fence {| rg_states := entered; rg_guards := [p]; rg_drains := []; rg_notices := 0 |} p)).
  assert (at_ (fence entered p) [p] [DrSeen p] 0%nat) as R3.
  { pose proof (rs_check {| rg_states := fence entered p; rg_guards := [p]; rg_drains := [DrChecking p];
      rg_notices := 0 |} 0%nat p eq_refl) as Hs.
    rewrite drained_entry in Hs. cbn [rg_states] in Hs. rewrite Hf in Hs. exact (rr_quiet _ _ _ R2 Hs). }
  assert (at_ (leave (fence entered p) p) [] [DrSeen p] 1%nat) as R4
    by exact (rr_quiet _ _ _ R3 (rs_leave {| rg_states := fence entered p; rg_guards := [p];
      rg_drains := [DrSeen p]; rg_notices := 0 |} 0%nat p eq_refl)).
  assert (at_ (leave (fence entered p) p) [] [DrSeen p] 0%nat) as R5
    by exact (rr_quiet _ _ _ R4 (rs_notify {| rg_states := leave (fence entered p) p; rg_guards := [];
      rg_drains := [DrSeen p]; rg_notices := 1 |} 0%nat eq_refl)).
  eexists. split; [exact (rr_quiet _ _ _ R5 (rs_listen {| rg_states := leave (fence entered p) p; rg_guards := [];
    rg_drains := [DrSeen p]; rg_notices := 0 |} 0%nat p eq_refl))|]. split_and!; [done..|].
  rcbn. rewrite drained_entry, leave_entry; rewrite Hf; [by rewrite decide_True|done].
Qed.
Lemma fence_excludes_work_witness : ∃ s,
  registry_reach (λ q, q = 7) s ∧ rg_drains s = [DrWaiting 7] ∧ (try_enter (rg_states s) 7).2 = false.
Proof.
  destruct (drain_misses_wake_up 7) as (s & R & Hd & _). exists s. split; [exact R|]. split; [exact Hd|].
  apply (fence_excludes_work 7 s R). exists (DrWaiting 7). rewrite Hd. split; [apply list_elem_of_here|reflexivity].
Defined.

(** ** What the service does, in which order *)

Section service.
Context (c : ProjectDeletionConfig) (project_id : ProjectId) (organization_id : OrganizationId)
  (requested_by : Z) (operation_id : bytes) (confirmation : str).
Implicit Types h : list (event DeletionSig).

Definition deletion_guar h (call : call DeletionSig) : Prop :=
  match call with
  | RequestDeletion r =>
      ∃ project now, answered (E := DeletionSig) (DLoadProjectView project_id) (Ok project) h
        ∧ pv_organization_id project = organization_id ∧ confirmation = pv_slug project
        ∧ answered (E := DeletionSig) DClockNow now h
        ∧ r = {| dr_operation_id := operation_id; dr_project_id := project_id; dr_organization_id := organization_id;
                 dr_requested_by := requested_by; dr_requested_at := now;
                 dr_purge_after := deletion_add_duration now (df_grace_period c) |}
  | DInvalidateKeys keys => ∃ r change, answered (E := DeletionSig) (RequestDeletion r) (Some (Ok change)) h
      ∧ keys = dc_affected_keys change
  | FenceAndDrain p maximum => p = project_id ∧ maximum = df_drain_timeout c
      ∧ ∃ r change, answered (E := DeletionSig) (RequestDeletion r) (Some (Ok change)) h
      ∧ answered (E := DeletionSig) (DInvalidateKeys (dc_affected_keys change)) tt h
  | DLoadProjectView p => p = project_id
  | DClockNow => True
  | CancelDeletion _ _ _ _ | DeletionStatus _ | Unfence _ => False
  end.
(** A deletion is asked of the store only for a project of the organization whose
    slug the user has typed; keys are invalidated and the project is fenced only
    after the store has said yes, in this order, and a success means both happened. *)
Theorem deletion_confirmed_and_fenced :
  sat deletion_guar
    (okay (λ h status, ∃ r change, answered (E := DeletionSig) (RequestDeletion r) (Some (Ok change)) h
       ∧ status = dc_status change
       ∧ answered (E := DeletionSig) (DInvalidateKeys (dc_affected_keys change)) tt h
       ∧ answered (E := DeletionSig) (FenceAndDrain project_id (df_drain_timeout c)) tt h))
    [] (request c project_id organization_id requested_by operation_id confirmation).
Proof.
  unfold request. apply okay_call, sat_port_call; [done|]. intros [project|e]; [|done].
  cbn [sat mret prog_ret okay].
  destruct (Z.eqb_spec (pv_organization_id project) organization_id) as [Ho|]; [|done]. cbn [negb].
  case_bool_decide as Hc; [|done]. cbn [negb]. apply sat_port_call; [done|]. intros now.
  apply sat_port_call.
  { exists project, now. unfold answered. cbn. split_and!; try done; here. }
  intros r. apply okay_pure. intros change Hr. destruct r as [[change'|]|]; [|done..]. injection Hr as ->.
  match goal with |- context [existT (RequestDeletion ?r) _] => set (req := r) end.
  apply sat_port_call. { exists req, change. split; [unfold answered; cbn; here|done]. }
  intros []. apply sat_port_call.
  { split; [done|]. split; [done|]. exists req, change. unfold answered. cbn. split; here. }
  intros []. cbn [sat mret prog_ret okay]. exists req, change. unfold answered. cbn. split_and!; [here|done|here..].
Qed.

(** The fence is taken away only after the store has cancelled the deletion and the
    keys it gave back are invalidated. *)
Theorem cancel_unfences_last :
  sat (λ h call, match call with
       | Unfence p => p = project_id ∧ ∃ now change,
           answered (E := DeletionSig) (CancelDeletion project_id operation_id now (df_completed_job_retention c)) (Some (Ok change)) h
           ∧ answered (E := DeletionSig) (DInvalidateKeys (dc_affected_keys change)) tt h
       | DClockNow | CancelDeletion _ _ _ _ | DInvalidateKeys _ => True
       | _ => False end)
    (okay (λ h _, answered (E := DeletionSig) (Unfence project_id) tt h))
    [] (cancel c project_id operation_id).
Proof.
  unfold cancel. apply sat_port_call; [done|]. intros now. apply sat_port_call; [done|]. intros r.
  apply okay_pure. intros change Hr. destruct r as [[change'|]|]; [|done..]. injection Hr as ->.
  apply sat_port_call; [done|]. intros []. apply sat_port_call.
  { split; [done|]. exists now, change. unfold answered. cbn. split; here. }
  intros []. cbn [sat mret prog_ret okay]. apply (answered_last (E := DeletionSig)).
Qed.
End service.

(** ** The fenced event sink *)

(** [ProjectFencedEventSink::persist]; the guard is dropped after the inner sink has
    answered, or with the future. *)
Inductive FencedCall := TryEnter (project_id : ProjectId) | InnerPersist (event : AcceptedEvent) | LeaveGuard (project_id : ProjectId).
Definition fenced_answer (c : FencedCall) : Type :=
  match c with TryEnter _ => bool | InnerPersist _ => EventReply | LeaveGuard _ => unit end.
Definition FencedSig : signature := Signature FencedCall fenced_answer.
Definition fenced_persist (event : AcceptedEvent) : prog FencedSig EventReply :=
  entered ← perform (E := FencedSig) (TryEnter (ae_project_id event));
  if (entered : bool) then
    r ← perform (E := FencedSig) (InnerPersist event);
    _ ← perform (E := FencedSig) (LeaveGuard (ae_project_id event));
    mret (r : EventReply)
  else mret (Err SinkUnavailable).
(** The inner sink is asked only inside the fence, and its answer is the answer. *)
Lemma fenced_persist_inside (event : AcceptedEvent) :
  sat (E := FencedSig) (λ h c, match (c : FencedCall) with
       | InnerPersist e => e = event ∧ answered (E := FencedSig) (TryEnter (ae_project_id event)) true h
       | LeaveGuard p => p = ae_project_id event ∧ ∃ r, answered (E := FencedSig) (InnerPersist event) r h
       | TryEnter p => p = ae_project_id event end)
    (λ h r, answered (E := FencedSig) (InnerPersist event) r h ∨ r = Err SinkUnavailable) [] (fenced_persist event).
Proof.
  apply sat_port_call; [done|]. intros [|]; [|by right].
  apply sat_port_call; [split; [done|apply (answered_last (E := FencedSig) _ _ [])]|]. intros r.
  apply sat_port_call; [split; [done|]; exists r; unfold answered; cbn; here|]. intros []. left. unfold answered. cbn. here.
Qed.
