(* ===== verification/NotificationRules.v ===== *)
(** * Notification values

    [domain/src/notifications.rs]: destinations, alert rules, payloads and
    deliveries with their validation. *)
From stdpp Require Import base list numbers strings.
From Stdlib Require Import ZArith Lia.
From S2P Require Import Prelude External Primitives Monitors Explore.

Definition MAX_RULE_NAME_BYTES : Z := 200.
Definition MAX_RULE_DESTINATIONS : Z := 32.
Definition MAX_ENDPOINT_BYTES : Z := 2048.
Definition MAX_SEALED_SECRET_BYTES : Z := 8192.
Definition MAX_NOTIFICATION_PAYLOAD_BYTES : Z := 16 * 1024.
Definition MAX_EMAIL_RECIPIENTS : Z := 16.
Definition MAX_TELEGRAM_API_BASE_BYTES : Z := 2048.
Definition MAX_TELEGRAM_USERNAME_BYTES : Z := 64.
Definition MAX_TELEGRAM_DISPLAY_NAME_BYTES : Z := 512.

Inductive NotificationValueError := NvEmpty | NvTooLarge | NvControlCharacter | NvEmptyRule.
Definition notification_text (value : str) (maximum : Z) : result NotificationValueError str :=
  if is_empty value then Err NvEmpty
  else if maximum <? len value then Err NvTooLarge
  else if any_control value then Err NvControlCharacter
  else Ok value.
Definition rule_name (value : str) : result NotificationValueError str := notification_text value MAX_RULE_NAME_BYTES.
Definition webhook_endpoint (value : str) : result NotificationValueError str := notification_text value MAX_ENDPOINT_BYTES.
(** [SealedWebhookSecret::new] and [NotificationPayload::new]. *)
Definition bounded_bytes (maximum : Z) (value : bytes) : result NotificationValueError bytes :=
  if is_empty value then Err NvEmpty else if maximum <? len value then Err NvTooLarge else Ok value.
Definition sealed_webhook_secret := bounded_bytes MAX_SEALED_SECRET_BYTES.
Definition notification_payload_new := bounded_bytes MAX_NOTIFICATION_PAYLOAD_BYTES.

(** ** Destinations *)

Inductive NotificationDestinationKind := KWebhook | KTelegram | KSmtpEmail.
Inductive SmtpSecurity := StartTls | Tls.
Record SmtpDestination := {
  sm_port : Z;
  sm_security : SmtpSecurity;
  sm_username : str;
  sm_from : str;
  sm_recipients : list str;
}.
Definition looks_like_email (value : str) : bool :=
  match rsplit_once 64 value with
  | None => false
  | Some (local, domain) =>
      non_empty local && non_empty domain && existsb (Z.eqb 46) domain
      && negb (existsb is_whitespace (utf8_chunks value))
  end.
Definition smtp_validate (d : SmtpDestination) : result NotificationValueError unit :=
  if (sm_port d =? 0) || is_empty (sm_recipients d) || (MAX_EMAIL_RECIPIENTS <? len (sm_recipients d))
     || negb (looks_like_email (sm_from d)) || existsb (λ r, negb (looks_like_email r)) (sm_recipients d)
  then Err NvEmpty else Ok tt.

Section telegram.
Context {Url : Type} `{!UrlApi Url, !UrlBaseApi Url}.
(** [TelegramApiBase::new]. *)
Definition telegram_api_base (value : str) : result NotificationValueError str :=
  _ ← notification_text value MAX_TELEGRAM_API_BASE_BYTES;
  parsed ← ok_or NvEmpty (url_parse value);
  if negb (bool_decide (url_scheme parsed = lit "http") || bool_decide (url_scheme parsed = lit "https"))
     || url_cannot_be_a_base parsed || is_none (url_host_str parsed) || non_empty (url_username parsed)
     || is_some (url_password parsed) || is_some (url_query parsed) || is_some (url_fragment parsed)
  then Err NvEmpty
  else
    let normalized := reverse (drop_while (Z.eqb 47) (reverse (url_to_string parsed))) in
    if is_empty normalized then Err NvEmpty else Ok normalized.
End telegram.
Inductive TelegramChatKind := TgPrivate | TgGroup | TgSupergroup | TgChannel.
Record TelegramDestination := {
  tg_api_base : str;
  tg_message_thread_id : option Z;
  tg_bot_id : option Z;
  tg_bot_username : option str;
  tg_bot_display_name : option str;
  tg_chat_kind : option TelegramChatKind;
  tg_chat_username : option str;
  tg_chat_display_name : option str;
}.
Definition valid_telegram_username (value : str) : bool :=
  in_range 1 MAX_TELEGRAM_USERNAME_BYTES (len value)
  && forallb (λ b, is_ascii_alphanumeric b || (b =? 95)) value.
Definition telegram_validate (d : TelegramDestination) : result NotificationValueError unit :=
  let bot_metadata := is_some (tg_bot_username d) || is_some (tg_bot_display_name d) in
  let chat_metadata := is_some (tg_chat_username d) || is_some (tg_chat_display_name d) in
  if is_some_and (λ value, value <=? 0) (tg_message_thread_id d)
     || is_some_and (λ value, value <=? 0) (tg_bot_id d)
     || (bot_metadata && is_none (tg_bot_id d)) || (chat_metadata && is_none (tg_chat_kind d))
     || is_some_and (λ value, negb (valid_telegram_username value)) (tg_bot_username d)
     || is_some_and (λ value, negb (valid_telegram_username value)) (tg_chat_username d)
     || is_some_and (λ value, MAX_TELEGRAM_DISPLAY_NAME_BYTES <? len value) (tg_bot_display_name d)
     || is_some_and (λ value, MAX_TELEGRAM_DISPLAY_NAME_BYTES <? len value) (tg_chat_display_name d)
  then Err NvEmpty else Ok tt.

Record NotificationDestination := {
  nd_id : bytes;
  nd_project_id : ProjectId;
  nd_kind : NotificationDestinationKind;
  nd_endpoint : str;
  nd_sealed_secret : bytes;
  nd_telegram : option TelegramDestination;
  nd_smtp : option SmtpDestination;
  nd_enabled : bool;
  nd_created_at : Timestamp;
  nd_updated_at : Timestamp;
}.
Definition destination_validate (d : NotificationDestination) : result NotificationValueError unit :=
  match nd_kind d with
  | KWebhook => if is_none (nd_telegram d) && is_none (nd_smtp d) then Ok tt else Err NvEmpty
  | KTelegram =>
      if is_none (nd_smtp d) then telegram ← ok_or NvEmpty (nd_telegram d); telegram_validate telegram
      else Err NvEmpty
  | KSmtpEmail =>
      smtp ← ok_or NvEmpty (nd_smtp d);
      _ ← smtp_validate smtp;
      if is_none (nd_telegram d) then Ok tt else Err NvEmpty
  end.

(** ** Rules *)

Inductive IssueNotificationKind := NewIssue | Regression | Resolved.
#[export] Instance issue_notification_kind_eq_dec : EqDecision IssueNotificationKind.
Proof. solve_decision. Defined.
Record MonitorAlert := {
  ma_monitor_id : bytes;
  ma_outcomes : list MonitorRunStatus;
  ma_notify_resolved : bool;
}.
Definition monitor_alert_validate (m : MonitorAlert) : result NotificationValueError unit :=
  if is_empty (ma_outcomes m) || (3 <? len (ma_outcomes m))
     || existsb (λ o, match o with Error | Timeout | Missed => false | _ => true end) (ma_outcomes m)
  then Err NvEmptyRule else Ok tt.
Record AggregateAlert := {
  ag_dataset : ExploreDataset;
  ag_lookback_minutes : Z;
  ag_evaluation_interval_minutes : Z;
  ag_threshold : Z;
  ag_environment : option str;
  ag_release : option str;
  ag_notify_resolved : bool;
}.
Definition aggregate_validate (a : AggregateAlert) : result NotificationValueError unit :=
  if negb (in_range 1 (30 * 24 * 60) (ag_lookback_minutes a))
     || negb (in_range 1 (24 * 60) (ag_evaluation_interval_minutes a))
     || (ag_threshold a =? 0)
     || (match ag_dataset a with Errors | Metrics => true | _ => false end
         && (is_some (ag_environment a) || is_some (ag_release a)))
  then Err NvTooLarge else Ok tt.
Record AlertRule := {
  al_id : bytes;
  al_project_id : ProjectId;
  al_name : str;
  al_enabled : bool;
  al_triggers : list IssueNotificationKind;
  al_aggregate : option AggregateAlert;
  al_monitor : option MonitorAlert;
  al_destination_ids : list bytes;
  al_cooldown_minutes : Z;
  al_storm_limit_per_hour : Z;
  al_next_evaluation_at : option Timestamp;
  al_last_triggered_at : option Timestamp;
  al_storm_window_started_at : option Timestamp;
  al_storm_count : Z;
  al_threshold_met : bool;
  al_created_at : Timestamp;
  al_updated_at : Timestamp;
}.
Definition rule_validate (r : AlertRule) : result NotificationValueError unit :=
  let kinds := Z.b2z (non_empty (al_triggers r)) + Z.b2z (is_some (al_aggregate r)) + Z.b2z (is_some (al_monitor r)) in
  if negb (kinds =? 1) || is_empty (al_destination_ids r) then Err NvEmptyRule
  else if MAX_RULE_DESTINATIONS <? len (al_destination_ids r) then Err NvTooLarge
  else if (30 * 24 * 60 <? al_cooldown_minutes r) || (al_storm_limit_per_hour r =? 0)
          || (10000 <? al_storm_limit_per_hour r)
          || is_some_and (λ a, is_err (aggregate_validate a)) (al_aggregate r)
          || is_some_and (λ m, is_err (monitor_alert_validate m)) (al_monitor r)
  then Err NvTooLarge else Ok tt.

(** ** Deliveries *)

Record IssueNotificationTransition := {
  nt_transition_id : bytes;
  nt_project_id : ProjectId;
  nt_issue_id : bytes;
  nt_kind : IssueNotificationKind;
  nt_event_id : bytes;
  nt_created_at : Timestamp;
  nt_title : str;
}.
Inductive NotificationDeliveryStatus := NPending | NDelivered | NDead.
Record NotificationDelivery := {
  dl_id : bytes;
  dl_project_id : ProjectId;
  dl_issue_id : bytes;
  dl_transition_id : bytes;
  dl_rule_id : bytes;
  dl_action_id : bytes;
  dl_destination_id : bytes;
  dl_payload : bytes;
  dl_status : NotificationDeliveryStatus;
  dl_attempts : Z;
  dl_next_attempt_at : Timestamp;
  dl_last_error : option str;
  dl_created_at : Timestamp;
  dl_delivered_at : option Timestamp;
  dl_delete_at : option Timestamp;
}.
Record ClaimedNotificationDelivery := {
  cd_delivery : NotificationDelivery;
  cd_destination : NotificationDestination;
  cd_attempt : Z;
  cd_attempted_at : Timestamp;
}.

(** ** Accepted rules *)

(** A rule is accepted exactly when it has one kind of trigger, destinations and
    limits within their bounds. *)
Lemma rule_validate_iff r : rule_validate r = Ok tt ↔
  ((al_triggers r ≠ [] ∧ al_aggregate r = None ∧ al_monitor r = None)
   ∨ (al_triggers r = [] ∧ (∃ a, al_aggregate r = Some a ∧ aggregate_validate a = Ok tt) ∧ al_monitor r = None)
   ∨ (al_triggers r = [] ∧ al_aggregate r = None ∧ ∃ m, al_monitor r = Some m ∧ monitor_alert_validate m = Ok tt))
  ∧ al_destination_ids r ≠ [] ∧ len (al_destination_ids r) ≤ MAX_RULE_DESTINATIONS
  ∧ al_cooldown_minutes r ≤ 30 * 24 * 60 ∧ al_storm_limit_per_hour r ≠ 0 ∧ al_storm_limit_per_hour r ≤ 10000.
Proof.
  unfold rule_validate, MAX_RULE_DESTINATIONS. generalize (len (al_destination_ids r)). intros n.
  destruct (Z.ltb_spec 32 n), (Z.ltb_spec (30 * 24 * 60) (al_cooldown_minutes r)), (Z.eqb_spec (al_storm_limit_per_hour r) 0),
    (Z.ltb_spec 10000 (al_storm_limit_per_hour r));
  destruct (al_triggers r) as [|t ts], (al_aggregate r) as [a|], (al_monitor r) as [m|], (al_destination_ids r) as [|d ds];
    cbn; try (split; [done|intros (Hk & Hd & Hn & Hc & Hz & Hs); exfalso; first [lia | congruence | naive_solver]]).
  - change (0 + 1 + 0 =? 1) with true. destruct (aggregate_validate a) as [[]|] eqn:E; cbn; split; try done; intros Hr.
    + split; [|done]. right. left. split; [done|]. split; [by exists a|done].
    + destruct Hr as ([(? & _)|[(_ & (? & [= <-] & ?) & _)|(_ & ? & _)]] & _); congruence.
  - change (0 + 0 + 1 =? 1) with true. destruct (monitor_alert_validate m) as [[]|] eqn:E; cbn; split; try done; intros Hr.
    + split; [|done]. right. right. split; [done|]. split; [done|by exists m].
    + destruct Hr as ([(? & _)|[(_ & (? & ? & ?) & _)|(_ & _ & (? & [= <-] & ?))]] & _); congruence.
  - change (1 + 0 + 0 =? 1) with true. cbn. split; [|done]. intros _. split; [by left|done].
Qed.
