(* ===== verification/NotificationDelivery.v ===== *)
(** * Expansion of transitions and delivery of notifications

    [application/src/notifications.rs]: the configuration, the errors and the
    [NotificationDispatcher].  A transition is expanded to one delivery per
    rule and destination; a claimed delivery is attempted once and settled with one call
    of the store.  The methods are programs over the store, the adapter and the
    clock. *)
From stdpp Require Import base list numbers strings sets sorting.
From Stdlib Require Import ZArith Lia.
From S2P Require Import Prelude External Primitives Identity Event Normalizer JsonValue Monitors Explore Effects Auth IdentityService IngestTheory Scheduler NotificationRules.

Open Scope prog_scope.

Definition EXPANSION_RULE_LIMIT : Z := 256.

Record NotificationConfig := {
  no_queue_capacity : Z;
  no_worker_concurrency : Z;
  no_transition_batch_size : Z;
  no_due_scan_limit : Z;
  no_poll_interval : duration;
  no_attempt_timeout : duration;
  no_attempt_lease : duration;
  no_max_attempts : Z;
  no_initial_delay : duration;
  no_max_delay : duration;
  no_delivered_retention : duration;
  no_dead_retention : duration;
}.
Definition notification_default : NotificationConfig :=
  {| no_queue_capacity := 1000; no_worker_concurrency := 8; no_transition_batch_size := 100;
     no_due_scan_limit := 100; no_poll_interval := 250 * NANOS_PER_MILLI;
     no_attempt_timeout := 10 * SECOND; no_attempt_lease := 30 * SECOND; no_max_attempts := 8;
     no_initial_delay := 5 * SECOND; no_max_delay := 60 * 60 * SECOND;
     no_delivered_retention := 30 * 24 * 60 * 60 * SECOND;
     no_dead_retention := 90 * 24 * 60 * 60 * SECOND |}.

Inductive NotificationError :=
| NInvalidConfiguration | NStorageUnavailable | NInvalidData | NForbidden | NProjectDisabled
| NProjectDeletionPending | NProjectPurging | NProjectDeleted.
Definition notification_error_code (e : NotificationError) : str :=
  lit match e with
      | NInvalidConfiguration => "notification_invalid_configuration"
      | NStorageUnavailable => "notification_temporarily_unavailable"
      | NInvalidData => "notification_invalid_data"
      | NForbidden => "notification_forbidden"
      | NProjectDisabled => "project_disabled"
      | NProjectDeletionPending => "project_deletion_pending"
      | NProjectPurging => "project_purging"
      | NProjectDeleted => "project_deleted"
      end.
Inductive NotificationStoreError := NsInvalidData | NsUnavailable.
Definition notification_store_error (e : NotificationStoreError) : NotificationError :=
  match e with NsInvalidData => NInvalidData | NsUnavailable => NStorageUnavailable end.

(** The test [NotificationDispatcher::new] makes. *)
Definition notification_new (c : NotificationConfig) : result NotificationError unit :=
  if (no_queue_capacity c =? 0) || (no_worker_concurrency c =? 0)
     || (no_queue_capacity c <? no_worker_concurrency c) || (no_transition_batch_size c =? 0)
     || (no_due_scan_limit c =? 0) || (no_poll_interval c =? 0) || (no_attempt_timeout c =? 0)
     || (no_attempt_lease c <=? no_attempt_timeout c) || (no_max_attempts c =? 0)
     || (no_initial_delay c =? 0) || (no_max_delay c <? no_initial_delay c)
     || (no_delivered_retention c =? 0) || (no_dead_retention c <? no_delivered_retention c)
  then Err NInvalidConfiguration else Ok tt.

Definition notification_add_duration (timestamp : Timestamp) (d : duration) : result NotificationError Timestamp :=
  millis ← ok_or NInvalidData (checked_i64 (as_millis d));
  map_err (λ _, NInvalidData) (from_unix_millis (sat_i64 (timestamp + millis))).

(** ** What a provider answered *)

Inductive NotificationDeliveryError :=
| DeRejected | DeRetryable | DeTimeout | DeResponseTooLarge | DeInvalidSecret.
Record NotificationDeliveryReceipt := { rc_status : Z; rc_retry_after : option duration }.
Inductive DeliveryDisposition :=
| DispDelivered
| DispRetryable (code : string) (retry_after : option duration)
| DispPermanent (code : string).
Definition classify_result (r : result NotificationDeliveryError NotificationDeliveryReceipt)
    : DeliveryDisposition :=
  match r with
  | Ok receipt =>
      if (200 <=? rc_status receipt) && (rc_status receipt <? 300) then DispDelivered
      else if (rc_status receipt =? 408) || (rc_status receipt =? 429) || (500 <=? rc_status receipt)
      then DispRetryable "http_retryable" (rc_retry_after receipt)
      else DispPermanent "http_rejected"
  | Err DeRetryable => DispRetryable "network_error" None
  | Err DeTimeout => DispRetryable "timeout" None
  | Err DeResponseTooLarge => DispRetryable "response_too_large" None
  | Err DeRejected => DispPermanent "provider_rejected"
  | Err DeInvalidSecret => DispPermanent "invalid_secret"
  end.

(** ** The ports *)

Inductive DeliveryCall :=
| DClockNow
| PendingTransitions (limit : Z)
| MatchingRules (project_id : ProjectId) (kind : IssueNotificationKind) (limit : Z)
| ExpandTransition (transition : IssueNotificationTransition) (deliveries : list NotificationDelivery)
| ClaimDue (now lease_until : Timestamp) (scan_limit : Z)
| MarkDelivered (id : bytes) (delivered_at delete_at : Timestamp)
| ScheduleRetry (id : bytes) (next_attempt_at : Timestamp) (code : string)
| MarkDead (id : bytes) (dead_at delete_at : Timestamp) (code : string)
| Deliver (timeout : duration) (claim : ClaimedNotificationDelivery).
Definition delivery_answer (c : DeliveryCall) : Type :=
  match c with
  | DClockNow => Timestamp
  | PendingTransitions _ => result NotificationStoreError (list IssueNotificationTransition)
  | MatchingRules _ _ _ => result NotificationStoreError (list AlertRule)
  | ClaimDue _ _ _ => result NotificationStoreError (option ClaimedNotificationDelivery)
  | Deliver _ _ => option (result NotificationDeliveryError NotificationDeliveryReceipt)
  | _ => result NotificationStoreError unit
  end.
(** [Deliver] is answered with [None] when its timeout elapsed first. *)
Definition DeliverySig : signature := Signature DeliveryCall delivery_answer.
Abbreviation delivering A := (prog DeliverySig (result NotificationError A)).
Abbreviation delivery_history := (list (event DeliverySig)).
Definition delivery_store {A} (p : prog DeliverySig (result NotificationStoreError A)) : delivering A :=
  map_err_p notification_store_error p.
Definition delivery_call (c : DeliveryCall) : prog DeliverySig (delivery_answer c) := perform (E := DeliverySig) c.

Section dispatcher.
Context {N : Type} `{!JsonApi N, !JsonPrint N, !JsonBuild N, !Blake3}.
Implicit Types c : NotificationConfig.

(** ** Expansion *)

Definition issue_kind_as_str (kind : IssueNotificationKind) : str :=
  lit match kind with NewIssue => "new_issue" | Regression => "regression" | Resolved => "resolved" end.
(** [serde_json::to_vec] and [NotificationPayload::new]. *)
Definition payload_of (fields : list (string * JValue N)) : result NotificationError bytes :=
  bs ← ok_or NInvalidData (json_to_vec (json_object fields));
  map_err (λ _, NInvalidData) (notification_payload_new bs).
Definition json_str (s : str) : JValue N := JString s.
Definition json_int (z : Z) : JValue N := JNumber (number_of_i64 z).
Definition notification_payload (t : IssueNotificationTransition) (rule_id destination_id : bytes)
    : result NotificationError bytes :=
  payload_of
    [("version"%string, json_int 1);
     ("type"%string, json_str (issue_kind_as_str (nt_kind t)));
     ("transition_id"%string, json_str (hex_encode (nt_transition_id t)));
     ("project_id"%string, json_int (nt_project_id t));
     ("issue_id"%string, json_str (hex_encode (nt_issue_id t)));
     ("event_id"%string, json_str (id_to_string (nt_event_id t)));
     ("title"%string, json_str (nt_title t));
     ("occurred_at_ms"%string, json_int (nt_created_at t));
     ("rule_id"%string, json_str (hex_encode rule_id));
     ("destination_id"%string, json_str (hex_encode destination_id))].
Definition pending_delivery (id : bytes) (project_id : ProjectId) (issue_id transition_id rule_id destination_id : bytes)
    (payload : bytes) (at_ : Timestamp) : NotificationDelivery :=
  {| dl_id := id; dl_project_id := project_id; dl_issue_id := issue_id;
     dl_transition_id := transition_id; dl_rule_id := rule_id; dl_action_id := destination_id;
     dl_destination_id := destination_id; dl_payload := payload; dl_status := NPending;
     dl_attempts := 0; dl_next_attempt_at := at_; dl_last_error := None; dl_created_at := at_;
     dl_delivered_at := None; dl_delete_at := None |}.
(** The inner loop of [expand_transition]; the deliveries made so far with the
    identities seen. *)
Fixpoint expand_destinations (t : IssueNotificationTransition) (rule_id : bytes) (destinations : list bytes)
    (made : list NotificationDelivery) (identities : list bytes)
    : result NotificationError (list NotificationDelivery * list bytes) :=
  match destinations with
  | [] => Ok (made, identities)
  | destination_id :: destinations =>
      let id := notification_delivery_id (nt_transition_id t) rule_id destination_id in
      if bool_decide (id ∈ identities) then expand_destinations t rule_id destinations made identities
      else
        payload ← notification_payload t rule_id destination_id;
        let delivery := pending_delivery id (nt_project_id t) (nt_issue_id t) (nt_transition_id t) rule_id
                          destination_id payload (nt_created_at t) in
        expand_destinations t rule_id destinations (made ++ [delivery]) (id :: identities)
  end.
Fixpoint expand_rules (t : IssueNotificationTransition) (rules : list AlertRule)
    (made : list NotificationDelivery) (identities : list bytes)
    : result NotificationError (list NotificationDelivery) :=
  match rules with
  | [] => Ok made
  | rule :: rules =>
      _ ← map_err (λ _, NInvalidData) (rule_validate rule);
      '(made, identities) ← expand_destinations t (al_id rule) (al_destination_ids rule) made identities;
      expand_rules t rules made identities
  end.
Definition expand_transition (t : IssueNotificationTransition) : delivering unit :=
  rules ←? delivery_store (delivery_call (MatchingRules (nt_project_id t) (nt_kind t) EXPANSION_RULE_LIMIT));
  deliveries ←! expand_rules t rules [] [];
  delivery_store (delivery_call (ExpandTransition t deliveries)).
Fixpoint expand_transitions (ts : list IssueNotificationTransition) : delivering unit :=
  match ts with
  | [] => Ret (Ok tt)
  | t :: ts => _ ←? expand_transition t; expand_transitions ts
  end.
Definition expand_once c : delivering Z :=
  transitions ←? delivery_store (delivery_call (PendingTransitions (no_transition_batch_size c)));
  _ ←? expand_transitions transitions;
  Ret (Ok (len transitions)).

(** ** Delivery *)

Definition claim_once c : delivering (option ClaimedNotificationDelivery) :=
  now ← delivery_call DClockNow;
  lease_until ←! notification_add_duration now (no_attempt_lease c);
  delivery_store (delivery_call (ClaimDue now lease_until (no_due_scan_limit c))).

Definition retry_multiplier (attempt : Z) : Z :=
  if attempt <=? 1 then 1
  else if attempt =? 2 then 6
  else if attempt =? 3 then 24
  else if attempt =? 4 then 120
  else if attempt =? 5 then 360
  else 720.
Definition retry_base c (attempt : Z) : duration :=
  Z.min (unwrap_or (no_max_delay c) (duration_checked_mul (no_initial_delay c) (retry_multiplier attempt)))
        (no_max_delay c).
Definition U128_MAX : Z := 2 ^ 128 - 1.
(** The first two bytes of the digest of the delivery and the attempt. *)
Definition retry_jitter (id : bytes) (attempt : Z) : Z := be_val (take 2 (blake3 (id ++ be_bytes 4 attempt))).
Definition retry_factor (jitter : Z) : Z := 800 + jitter * 400 / U16_MAX.
Definition jittered (base : duration) (jitter : Z) : duration :=
  let product := saturate 0 U128_MAX (as_millis base * retry_factor jitter) in
  unwrap_or U64_MAX (checked_u64 (product / 1000)) * NANOS_PER_MILLI.
Definition retry_delay (claim : ClaimedNotificationDelivery) c : duration :=
  Z.min (jittered (retry_base c (cd_attempt claim)) (retry_jitter (dl_id (cd_delivery claim)) (cd_attempt claim)))
        (no_max_delay c).
Definition retry_backoff (claim : ClaimedNotificationDelivery) c (retry_after : option duration) : duration :=
  let default_backoff := retry_delay claim c in
  match retry_after with
  | Some value => Z.max (Z.min value (no_max_delay c)) default_backoff
  | None => default_backoff
  end.

Definition bury (id : bytes) (now : Timestamp) c (code : string) : delivering unit :=
  delete_at ←! notification_add_duration now (no_dead_retention c);
  delivery_store (delivery_call (MarkDead id now delete_at code)).
Definition deliver_claim c (claim : ClaimedNotificationDelivery) : delivering unit :=
  let id := dl_id (cd_delivery claim) in
  let attempt := cd_attempt claim in
  if negb (nd_enabled (cd_destination claim)) then
    now ← delivery_call DClockNow;
    bury id now c "destination_disabled"
  else if no_max_attempts c <? attempt then
    now ← delivery_call DClockNow;
    bury id now c "attempts_exhausted"
  else
    r ← delivery_call (Deliver (no_attempt_timeout c) claim);
    now ← delivery_call DClockNow;
    match classify_result (unwrap_or (Err DeTimeout) r) with
    | DispDelivered =>
        delete_at ←! notification_add_duration now (no_delivered_retention c);
        delivery_store (delivery_call (MarkDelivered id now delete_at))
    | DispPermanent code => bury id now c code
    | DispRetryable code retry_after =>
        if no_max_attempts c <=? attempt then bury id now c "attempts_exhausted"
        else
          next_attempt_at ←! notification_add_duration now (retry_backoff claim c retry_after);
          delivery_store (delivery_call (ScheduleRetry id next_attempt_at code))
    end.
End dispatcher.

(** ** The delay of a retry *)

Section delays.
Context `{!Blake3}.
Implicit Types c : NotificationConfig.

Lemma retry_multiplier_range attempt : 1 ≤ retry_multiplier attempt ≤ 720.
Proof. unfold retry_multiplier. repeat case_match; lia. Qed.
Lemma retry_base_le c attempt : retry_base c attempt ≤ no_max_delay c.
Proof. unfold retry_base. lia. Qed.
Lemma retry_base_nonneg c attempt : 0 ≤ no_initial_delay c → 0 ≤ no_max_delay c → 0 ≤ retry_base c attempt.
Proof.
  intros. pose proof (retry_multiplier_range attempt). unfold retry_base, duration_checked_mul, checked.
  destruct (in_range _ _ _) eqn:E; cbn; [|lia]. apply Z.min_glb; [nia|done].
Qed.
Lemma retry_factor_range jitter : 0 ≤ jitter ≤ U16_MAX → 800 ≤ retry_factor jitter ≤ 1200.
Proof.
  unfold retry_factor, U16_MAX. intros Hj. assert (0 ≤ jitter * 400 / 65535 ≤ 400); [|lia].
  split; [apply Z.div_pos; lia|]. apply Z.div_le_upper_bound; lia.
Qed.
Lemma be_val_two bs : Forall is_byte bs → 0 ≤ be_val (take 2 bs) ≤ U16_MAX.
Proof.
  intros Hb. assert (∀ a, a ∈ bs → 0 ≤ a < 256) as Ha by (intros a Hin; by apply (Forall_forall is_byte bs)).
  unfold be_val, U16_MAX. destruct bs as [|a [|b bs]]; cbn [take be_val_go]; [lia| |].
  - specialize (Ha a (list_elem_of_here _ _)). lia.
  - pose proof (Ha a (list_elem_of_here _ _)). specialize (Ha b (list_elem_of_further _ _ _ (list_elem_of_here _ _))). rewrite take_0. cbn [be_val_go]. lia.
Qed.
(** The millisecond part of a base is scaled by 0.8 to 1.2, rounded down. *)
Lemma jittered_millis base jitter : 0 ≤ base → as_millis base ≤ U64_MAX → 0 ≤ jitter ≤ U16_MAX →
  as_millis base * 800 / 1000 * NANOS_PER_MILLI ≤ jittered base jitter
  ∧ jittered base jitter ≤ as_millis base * 1200 / 1000 * NANOS_PER_MILLI.
Proof.
  intros Hb Hm Hj. destruct (retry_factor_range jitter Hj) as [F1 F2]. unfold jittered.
  assert (0 ≤ as_millis base) as H0 by (apply Z.div_pos; [done|by vm_compute]).
  set (m := as_millis base) in *. set (f := retry_factor jitter) in *.
  assert (saturate 0 U128_MAX (m * f) = m * f) as ->.
  { unfold saturate. assert (0 ≤ m * f ≤ U128_MAX); [|lia]. split; [nia|].
    etrans; [apply (Z.mul_le_mono_nonneg m U64_MAX f 1200); lia|by vm_compute]. }
  assert (m * 800 / 1000 ≤ m * f / 1000) as L1 by (apply Z.div_le_mono; nia).
  assert (m * f / 1000 ≤ m * 1200 / 1000) as L2 by (apply Z.div_le_mono; nia).
  assert (0 ≤ m * 800 / 1000) by (apply Z.div_pos; lia).
  assert (m * 800 / 1000 ≤ U64_MAX) by (etrans; [|exact Hm]; apply Z.div_le_upper_bound; lia).
  unfold NANOS_PER_MILLI, checked_u64, checked. destruct (in_range 0 U64_MAX (m * f / 1000)) eqn:E; cbn.
  - nia.
  - apply in_range_false in E. split; [nia|]. assert (U64_MAX < m * f / 1000); [lia|nia].
Qed.

(** The delay of a retry is the backoff of the attempt within a fifth, and never
    more than the maximum. *)
Theorem delivery_retry_bounds c claim :
  Forall is_byte (blake3 (dl_id (cd_delivery claim) ++ be_bytes 4 (cd_attempt claim))) →
  0 < no_initial_delay c ≤ no_max_delay c → as_millis (no_max_delay c) ≤ U64_MAX →
  let base := retry_base c (cd_attempt claim) in
  retry_delay claim c ≤ no_max_delay c
  ∧ as_millis base * 800 / 1000 * NANOS_PER_MILLI ≤ retry_delay claim c
  ∧ retry_delay claim c ≤ as_millis base * 1200 / 1000 * NANOS_PER_MILLI.
Proof.
  intros Hd Hi Hm. cbn. pose proof (retry_base_le c (cd_attempt claim)) as Hle.
  pose proof (retry_base_nonneg c (cd_attempt claim)) as Hp.
  assert (as_millis (retry_base c (cd_attempt claim)) ≤ as_millis (no_max_delay c)) as Hle'
    by (apply Z.div_le_mono; [by vm_compute|done]).
  destruct (jittered_millis (retry_base c (cd_attempt claim)) (retry_jitter (dl_id (cd_delivery claim)) (cd_attempt claim)))
    as [L1 L2]; [lia|lia|by apply be_val_two|].
  unfold retry_delay. split_and!; [lia| |lia]. apply Z.min_glb; [done|].
  set (b := retry_base c (cd_attempt claim)) in *. unfold as_millis, NANOS_PER_MILLI in *.
  assert (b / 1000000 * 800 / 1000 ≤ b / 1000000).
  { apply Z.div_le_upper_bound; [done|]. assert (0 ≤ b / 1000000) by (apply Z.div_pos; lia). lia. }
  pose proof (Z.mul_div_le b 1000000). lia.
Qed.
End delays.

(** ** A claim is settled once *)

Definition settles (k : DeliveryCall) : bool :=
  match k with MarkDelivered _ _ _ | ScheduleRetry _ _ _ | MarkDead _ _ _ _ => true | _ => false end.
Definition is_attempt (k : DeliveryCall) : bool := match k with Deliver _ _ => true | _ => false end.
(** The calls of a history that satisfy a test. *)
Definition calls_of (p : DeliveryCall → bool) (h : delivery_history) : list DeliveryCall :=
  List.filter p (map (λ e, projT1 e) h).

Section claims.
Context `{!Blake3}.
Implicit Types (c : NotificationConfig) (h : delivery_history).

(** What the provider answered to the one attempt, if it was made. *)
Definition attempted c (claim : ClaimedNotificationDelivery) (d : DeliveryDisposition) h : Prop :=
  ∃ r, answered (E := DeliverySig) (Deliver (no_attempt_timeout c) claim) r h
       ∧ classify_result (unwrap_or (Err DeTimeout) r) = d.
Definition call_justified c (claim : ClaimedNotificationDelivery) h (k : DeliveryCall) : Prop :=
  let id := dl_id (cd_delivery claim) in
  let attempt := cd_attempt claim in
  let enabled := nd_enabled (cd_destination claim) in
  (settles k = true → calls_of settles h = []) ∧
  match k with
  | DClockNow => True
  | Deliver t claimed => h = [] ∧ claimed = claim ∧ t = no_attempt_timeout c ∧ enabled = true
                         ∧ attempt ≤ no_max_attempts c
  | MarkDelivered i now delete_at =>
      i = id ∧ attempted c claim DispDelivered h
      ∧ notification_add_duration now (no_delivered_retention c) = Ok delete_at
  | ScheduleRetry i next_attempt_at code =>
      i = id ∧ attempt < no_max_attempts c ∧ ∃ retry_after now, attempted c claim (DispRetryable code retry_after) h
      ∧ answered (E := DeliverySig) DClockNow now h
      ∧ notification_add_duration now (retry_backoff claim c retry_after) = Ok next_attempt_at
  | MarkDead i now delete_at code =>
      i = id ∧ notification_add_duration now (no_dead_retention c) = Ok delete_at
      ∧ ((enabled = false ∧ code = "destination_disabled"%string)
         ∨ (no_max_attempts c < attempt ∧ code = "attempts_exhausted"%string)
         ∨ attempted c claim (DispPermanent code) h
         ∨ (∃ code' retry_after, attempted c claim (DispRetryable code' retry_after) h
            ∧ no_max_attempts c ≤ attempt ∧ code = "attempts_exhausted"%string))
  | _ => False
  end.
Definition settled_last h : Prop := ∃ h' k x, h = h' ++ [existT k x] ∧ settles k = true.

Lemma bury_justified c claim h now code :
  calls_of settles h = [] →
  (∀ delete_at, notification_add_duration now (no_dead_retention c) = Ok delete_at →
     call_justified c claim h (MarkDead (dl_id (cd_delivery claim)) now delete_at code)) →
  sat (call_justified c claim) (okay (λ h _, settled_last h)) h (bury (dl_id (cd_delivery claim)) now c code).
Proof.
  intros Hs Hj. apply okay_pure. intros delete_at Hd. split; [by apply Hj|].
  intros [u|e]; cbn; [|done]. by exists h, (MarkDead (dl_id (cd_delivery claim)) now delete_at code), (Ok u).
Qed.


(** One claim makes one attempt at most, and none past the limit. *)
Lemma attempts_of_claim c claim tr r : exec (deliver_claim c claim) tr r →
  len (calls_of is_attempt tr) ≤ if cd_attempt claim <=? no_max_attempts c then 1 else 0.
Proof.
  intros He. assert (sat (λ _ _, True) (λ h (_ : result NotificationError unit),
    len (calls_of is_attempt h) ≤ if cd_attempt claim <=? no_max_attempts c then 1 else 0) [] (deliver_claim c claim)) as Hs.
  2:{ by apply (sat_exec _ _ _ _ _ _ Hs He). }
  assert (∀ h (n : Z) now code, len (calls_of is_attempt h) ≤ n →
    sat (λ _ _, True) (λ h (_ : result NotificationError unit), len (calls_of is_attempt h) ≤ n) h
      (bury (dl_id (cd_delivery claim)) now c code)) as Hb.
  { intros h n now code Hn. apply sat_attempt_pure; [|done]. intros at_ _. split; [done|]. intros x. cbn.
    unfold calls_of. by rewrite map_app, List.filter_app, app_nil_r. }
  unfold deliver_claim. destruct (nd_enabled (cd_destination claim)); cbn [negb].
  2:{ split; [done|]. intros now. apply Hb. by case_match. }
  destruct (Z.ltb_spec (no_max_attempts c) (cd_attempt claim)) as [Hx|Hx].
  { split; [done|]. intros now. apply Hb. by case_match. }
  rewrite (proj2 (Z.leb_le _ _) Hx). split; [done|]. intros x. split; [done|]. intros now. cbn [app].
  destruct (classify_result _) as [|code retry_after|code]; [| |by apply Hb].
  - apply sat_attempt_pure; [|done]. intros at_ _. split; [done|]. by intros.
  - case_match; [by apply Hb|]. apply sat_attempt_pure; [|done]. intros at_ _. split; [done|]. by intros.
Qed.

(** Increasing attempts, from [lo] on. *)
Lemma attempts_of_claims c : ∀ claims traces lo,
  Forall2 (λ claim tr, ∃ r, exec (deliver_claim c claim) tr r) claims traces →
  StronglySorted (λ a b, cd_attempt a < cd_attempt b) claims → (∀ claim, claim ∈ claims → lo ≤ cd_attempt claim) →
  sum_map (λ tr, len (calls_of is_attempt tr)) traces ≤ Z.max 0 (no_max_attempts c + 1 - lo).
Proof.
  intros claims traces lo Hex. revert lo. induction Hex as [|claim tr claims traces [r He] _ IH]; intros lo Hs Hlo; cbn.
  { lia. }
  apply StronglySorted_inv in Hs as [Hs Hlt]. pose proof (attempts_of_claim _ _ _ _ He) as Hone.
  specialize (Hlo claim (list_elem_of_here _ _)) as Hc.
  specialize (IH (cd_attempt claim + 1) Hs). destruct (Z.leb_spec (cd_attempt claim) (no_max_attempts c)).
  - etrans; [apply Z.add_le_mono; [exact Hone|apply IH]|lia]. intros x Hx. rewrite Forall_forall in Hlt. specialize (Hlt x Hx). cbn in Hlt. lia.
  - etrans; [apply Z.add_le_mono; [exact Hone|apply IH]|lia]. intros x Hx. rewrite Forall_forall in Hlt. specialize (Hlt x Hx). cbn in Hlt. lia.
Qed.

(** However often a delivery is claimed, with rising attempt numbers, it is
    attempted no more than the configured number of times. *)
Theorem attempts_bounded c claims traces :
  Forall2 (λ claim tr, ∃ r, exec (deliver_claim c claim) tr r) claims traces →
  StronglySorted (λ a b, cd_attempt a < cd_attempt b) claims → (∀ claim, claim ∈ claims → 1 ≤ cd_attempt claim) →
  0 ≤ no_max_attempts c →
  sum_map (λ tr, len (calls_of is_attempt tr)) traces ≤ no_max_attempts c.
Proof. intros Hex Hs Hlo Hm. etrans; [by apply (attempts_of_claims c claims traces 1)|lia]. Qed.
End claims.

(** ** Expansion makes each delivery once *)

Section expansion.
Context {N : Type} `{!JsonApi N, !JsonPrint N, !JsonBuild N, !Blake3}.
Implicit Types t : IssueNotificationTransition.

Definition rule_delivery_ids t (rule_id : bytes) (destinations : list bytes) : list bytes :=
  map (notification_delivery_id (nt_transition_id t) rule_id) destinations.
(** The deliveries made so far have the identities seen, each once. *)
Definition expanded (made : list NotificationDelivery) (identities : list bytes) : Prop :=
  NoDup (map dl_id made) ∧ (∀ id, id ∈ identities ↔ id ∈ map dl_id made).
Definition delivery_of t (rules : list AlertRule) (d : NotificationDelivery) : Prop :=
  ∃ rule destination, rule ∈ rules ∧ destination ∈ al_destination_ids rule
    ∧ notification_payload t (al_id rule) destination = Ok (dl_payload d)
    ∧ d = pending_delivery (notification_delivery_id (nt_transition_id t) (al_id rule) destination)
            (nt_project_id t) (nt_issue_id t) (nt_transition_id t) (al_id rule) destination (dl_payload d) (nt_created_at t).

Lemma expand_destinations_Ok t rules rule : rule ∈ rules → ∀ destinations made identities made' identities',
  destinations ⊆ al_destination_ids rule →
  expand_destinations t (al_id rule) destinations made identities = Ok (made', identities') →
  expanded made identities → (∀ d, d ∈ made → delivery_of t rules d) →
  expanded made' identities' ∧ (∀ d, d ∈ made' → delivery_of t rules d)
  ∧ ∀ id, id ∈ map dl_id made' ↔ id ∈ map dl_id made ∨ id ∈ rule_delivery_ids t (al_id rule) destinations.
Proof.
  intros Hrule. induction destinations as [|destination ds IH]; intros made identities made' identities' Hsub; cbn [expand_destinations].
  - intros [= <- <-] ? ?. split_and!; [done|done|]. intros id. cbn. rewrite elem_of_nil. tauto.
  - intros Hex Hexp Hd. set (id0 := notification_delivery_id _ _ _) in *.
    assert (∀ id, id ∈ rule_delivery_ids t (al_id rule) (destination :: ds) ↔
                  id = id0 ∨ id ∈ rule_delivery_ids t (al_id rule) ds) as Hids.
    { intros id. unfold rule_delivery_ids. cbn [map]. by rewrite elem_of_cons. }
    assert (ds ⊆ al_destination_ids rule) as Hsub' by (intros x ?; apply Hsub; by apply elem_of_cons; right).
    destruct (bool_decide_reflect (id0 ∈ identities)) as [Hin|Hin].
    + destruct (IH _ _ _ _ Hsub' Hex Hexp Hd) as (H1 & H2 & H3). split_and!; [done|done|].
      intros id. rewrite H3, Hids. destruct Hexp as [_ Hexp]. apply Hexp in Hin. split; [tauto|]. intros [?|[->|?]]; tauto.
    + destruct (notification_payload _ _ _) as [payload|] eqn:Ep; [|done]. cbn in Hex.
      destruct Hexp as [Hnd Hexp]. set (d := pending_delivery _ _ _ _ _ _ _ _) in *.
      apply IH in Hex as (H1 & H2 & H3); [|done| |].
      * split_and!; [done|done|]. intros id. rewrite H3, Hids, map_app, elem_of_app. cbn [map]. rewrite list_elem_of_singleton.
        tauto.
      * split.
        -- rewrite map_app. apply NoDup_app. split_and!; [done| |apply NoDup_singleton].
           intros id Hid. cbn. rewrite list_elem_of_singleton. intros ->. by apply Hin, Hexp.
        -- intros id. rewrite elem_of_cons, map_app, elem_of_app, Hexp. cbn [map]. rewrite list_elem_of_singleton. cbn. tauto.
      * intros x [Hx| ->%list_elem_of_singleton]%elem_of_app; [by apply Hd|].
        exists rule, destination. split_and!; [done|apply Hsub; by apply elem_of_cons; left|done|done].
Qed.

Lemma expand_rules_Ok t all : ∀ rules made identities deliveries, rules ⊆ all →
  expand_rules t rules made identities = Ok deliveries →
  expanded made identities → (∀ d, d ∈ made → delivery_of t all d) →
  Forall (λ rule, rule_validate rule = Ok tt) rules ∧ NoDup (map dl_id deliveries)
  ∧ (∀ d, d ∈ deliveries → delivery_of t all d)
  ∧ ∀ id, id ∈ map dl_id deliveries ↔ id ∈ map dl_id made
      ∨ ∃ rule, rule ∈ rules ∧ id ∈ rule_delivery_ids t (al_id rule) (al_destination_ids rule).
Proof.
  induction rules as [|rule rules IH]; intros made identities deliveries Hsub; cbn [expand_rules].
  - intros [= <-] [? ?] ?. split_and!; [done|done|done|]. intros id. split; [by left|]. intros [?|(? & []%elem_of_nil & ?)]; done.
  - destruct (rule_validate rule) as [[]|] eqn:Ev; [|done]. cbn.
    destruct (expand_destinations _ _ _ _ _) as [[made' identities']|] eqn:Ed; [|done]. cbn.
    intros Hex Hexp Hd. destruct (expand_destinations_Ok t all rule (Hsub _ (list_elem_of_here _ _)) _ _ _ _ _ (reflexivity _) Ed Hexp Hd)
      as (H1 & H2 & H3).
    destruct (IH _ _ _ (λ x Hx, Hsub _ (list_elem_of_further _ _ _ Hx)) Hex H1 H2) as (F1 & F2 & F3 & F4).
    split_and!; [by constructor|done|done|]. intros id. rewrite F4, H3. split.
    + intros [[?|?]|(r & ? & ?)]; [by left| |]; right.
      * exists rule. split; [apply list_elem_of_here|done].
      * exists r. split; [by apply list_elem_of_further|done].
    + intros [?|(r & [-> | ?]%elem_of_cons & ?)]; [by left; left|by left; right|right; by exists r].
Qed.

(** An expansion that succeeds has valid rules only, makes each delivery once,
    makes no other, and makes one for every destination of every rule. *)
Theorem expansion_exact t rules deliveries :
  expand_rules t rules [] [] = Ok deliveries →
  Forall (λ rule, rule_validate rule = Ok tt) rules
  ∧ NoDup (map dl_id deliveries)
  ∧ (∀ d, d ∈ deliveries → delivery_of t rules d)
  ∧ (∀ rule destination, rule ∈ rules → destination ∈ al_destination_ids rule →
       ∃ d, d ∈ deliveries ∧ dl_id d = notification_delivery_id (nt_transition_id t) (al_id rule) destination).
Proof.
  intros Hex. destruct (expand_rules_Ok t rules _ _ _ _ (reflexivity _) Hex) as (F1 & F2 & F3 & F4).
  { split; [constructor|done]. } { by intros ? ?%elem_of_nil. }
  split_and!; [done|done|done|]. intros rule destination Hr Hd.
  assert (notification_delivery_id (nt_transition_id t) (al_id rule) destination ∈ map dl_id deliveries) as Hin.
  { apply F4. right. exists rule. split; [done|]. by apply list_elem_of_fmap_2. }
  apply list_elem_of_fmap in Hin as (d & Hid & Hin). by exists d.
Qed.
End expansion.

(** ** Witnesses *)

#[local] Instance notification_digest : Blake3 := λ input, take 32 (reverse input ++ replicate 32 0).
#[local] Instance notification_print : JsonPrint Z := λ _, Some [123; 125].
#[local] Instance notification_build : JsonBuild Z :=
  {| number_of_u64 := λ z, z; number_of_i64 := λ z, z; value_of_f64 := λ _, JNull |}.
Definition sample_notification_rule : AlertRule :=
  {| al_id := replicate 16 1; al_project_id := 1; al_name := lit "errors"; al_enabled := true;
     al_triggers := [NewIssue]; al_aggregate := None; al_monitor := None;
     al_destination_ids := [replicate 16 2; replicate 16 3; replicate 16 2]; al_cooldown_minutes := 0;
     al_storm_limit_per_hour := 10; al_next_evaluation_at := None; al_last_triggered_at := None;
     al_storm_window_started_at := None; al_storm_count := 0; al_threshold_met := false;
     al_created_at := 0; al_updated_at := 0 |}.
Definition sample_transition : IssueNotificationTransition :=
  {| nt_transition_id := replicate 16 5; nt_project_id := 1; nt_issue_id := replicate 16 6; nt_kind := NewIssue;
     nt_event_id := replicate 16 7; nt_created_at := 1000; nt_title := lit "boom" |}.
Definition sample_destination : NotificationDestination :=
  {| nd_id := replicate 16 2; nd_project_id := 1; nd_kind := KWebhook; nd_endpoint := lit "https://a"; nd_sealed_secret := [];
     nd_telegram := None; nd_smtp := None; nd_enabled := true; nd_created_at := 0; nd_updated_at := 0 |}.
Definition sample_claim (attempt : Z) : ClaimedNotificationDelivery :=
  {| cd_delivery := pending_delivery (replicate 16 9) 1 (replicate 16 6) (replicate 16 5) (replicate 16 1)
                      (replicate 16 2) [123; 125] 1000;
     cd_destination := sample_destination; cd_attempt := attempt; cd_attempted_at := 1000 |}.
(** A provider that is always busy, and a store that always answers. *)
Definition busy_provider : handler DeliverySig unit := λ k s,
  (s, match k return delivery_answer k with
      | DClockNow => 1000
      | Deliver _ _ => Some (Ok {| rc_status := 503; rc_retry_after := None |})
      | PendingTransitions _ => Ok [] | MatchingRules _ _ _ => Ok [] | ClaimDue _ _ _ => Ok None
      | MarkDelivered _ _ _ | ScheduleRetry _ _ _ | MarkDead _ _ _ _ | ExpandTransition _ _ => Ok tt
      end).
Definition sample_trace (attempt : Z) : delivery_history :=
  (run busy_provider (deliver_claim notification_default (sample_claim attempt)) tt).1.2.

Lemma delivery_retry_bounds_witness :
  retry_base notification_default 2 = 30 * SECOND
  ∧ 24 * SECOND ≤ retry_delay (sample_claim 2) notification_default ≤ 36 * SECOND.
Proof.
  split; [by vm_compute|]. destruct (delivery_retry_bounds notification_default (sample_claim 2)) as (_ & Hl & Hu).
  - apply Forall_forall. intros b Hb%list_elem_of_In.
    assert (forallb (in_range 0 255) (blake3 (dl_id (cd_delivery (sample_claim 2)) ++ be_bytes 4 2)) = true) as Hf by (by vm_compute).
    rewrite forallb_forall in Hf. specialize (Hf b Hb). apply in_range_true in Hf. unfold is_byte. lia.
  - by vm_compute.
  - by vm_compute.
  - split; [exact Hl|exact Hu].
Defined.

Lemma attempts_bounded_witness :
  sum_map (λ tr, len (calls_of is_attempt tr)) [sample_trace 1; sample_trace 2; sample_trace 8; sample_trace 9] = 3
  ∧ sum_map (λ tr, len (calls_of is_attempt tr)) [sample_trace 1; sample_trace 2; sample_trace 8; sample_trace 9] ≤ 8.
Proof.
  assert (∀ n, ∃ r, exec (deliver_claim notification_default (sample_claim n)) (sample_trace n) r) as He.
  { intros n. pose proof (run_exec busy_provider (deliver_claim notification_default (sample_claim n)) tt) as Hr.
    unfold sample_trace. destruct (run _ _ _) as [[s tr] r]. by exists r. }
  split; [by vm_compute|].
  apply (attempts_bounded notification_default [sample_claim 1; sample_claim 2; sample_claim 8; sample_claim 9]).
  - by repeat constructor.
  - by repeat constructor.
  - intros claim Hc. rewrite !elem_of_cons, elem_of_nil in Hc. by destruct_or!; subst.
  - done.
Defined.

Lemma expansion_exact_witness :
  ∃ deliveries, expand_rules sample_transition [sample_notification_rule] [] [] = Ok deliveries
  ∧ length deliveries = 2%nat ∧ NoDup (map dl_id deliveries).
Proof.
  eexists. split; [vm_compute; reflexivity|]. split; [reflexivity|].
  apply (expansion_exact sample_transition [sample_notification_rule]). by vm_compute.
Defined.
