(* ===== verification/NotificationAlerts.v ===== *)
(** * Alert rules: monitors and aggregates

    [application/src/notifications.rs]: [MonitorAlertEvaluator] turns runs of monitors
    into deliveries, [AggregateAlertEvaluator] counts with a query of Explore and
    compares with a threshold.  Both are limited by a cooldown and by the storm
    limit of an hour.  The decision of an aggregate rule is a function of the
    rule, the count and the time. *)
From stdpp Require Import base list numbers strings sets sorting.
From Stdlib Require Import ZArith Lia SpecFloat.
From S2P Require Import Prelude Float External Primitives Identity Event Normalizer JsonValue Monitors Explore Query Effects Dispatcher EventWriter SignalWriters IngestTheory Scheduler NotificationRules NotificationDelivery.

Open Scope prog_scope.

Definition map_monitor_store_error (e : SignalStoreError) : NotificationError :=
  match e with SgUnavailable | SgCapacity => NStorageUnavailable | _ => NInvalidData end.
(** The tests [MonitorAlertEvaluator::new] and [AggregateAlertEvaluator::new] make. *)
Definition monitor_evaluator_new (poll_interval : duration) (batch_size : Z) : result NotificationError unit :=
  if (poll_interval =? 0) || (batch_size =? 0) || (1000 <? batch_size) then Err NInvalidConfiguration else Ok tt.
Definition aggregate_evaluator_new (poll_interval lease : duration) (limit : Z) : result NotificationError unit :=
  if (poll_interval =? 0) || (lease <=? poll_interval) || (limit =? 0) || (1000 <? limit)
  then Err NInvalidConfiguration else Ok tt.

(** ** The limits of a rule *)

Definition STORM_WINDOW_MILLIS : Z := 3600000.
Definition window_expired (rule : AlertRule) (now : Timestamp) : bool :=
  is_none_or (λ started, STORM_WINDOW_MILLIS <=? sat_i64 (now - started)) (al_storm_window_started_at rule).
Definition cooldown_elapsed (rule : AlertRule) (now : Timestamp) : bool :=
  is_none_or (λ last, al_cooldown_minutes rule * 60000 <=? sat_i64 (now - last)) (al_last_triggered_at rule).
Definition storm_count_at (rule : AlertRule) (now : Timestamp) : Z :=
  if window_expired rule now then 0 else al_storm_count rule.

(** ** Decisions *)

Record AggregateDecision := {
  ad_threshold_met : bool;
  ad_last_triggered_at : option Timestamp;
  ad_storm_window_started_at : option Timestamp;
  ad_storm_count : Z;
  ad_action : option string;
}.
Definition aggregate_decision (rule : AlertRule) (a : AggregateAlert) (count : Z) (now : Timestamp)
    : AggregateDecision :=
  let threshold_met := ag_threshold a <=? count in
  let window := if window_expired rule now then Some now else al_storm_window_started_at rule in
  let storm_count := storm_count_at rule now in
  let firing := threshold_met && cooldown_elapsed rule now && (storm_count <? al_storm_limit_per_hour rule) in
  let resolving := negb threshold_met && al_threshold_met rule && ag_notify_resolved a in
  let action := if firing then Some "aggregate_threshold"%string
                else if resolving && (storm_count <? al_storm_limit_per_hour rule)
                then Some "aggregate_resolved"%string else None in
  {| ad_threshold_met := threshold_met;
     ad_last_triggered_at := if is_some action then Some now else al_last_triggered_at rule;
     ad_storm_window_started_at := window;
     ad_storm_count := if is_some action then sat_u32 (storm_count + 1) else storm_count;
     ad_action := action |}.

(** [f64 as u64]: towards zero, saturating. *)
Definition f64_to_u64 (x : f64) : Z :=
  match x with
  | S754_finite s m e =>
      let magnitude := if 0 <=? e then Z.pos m * 2 ^ e else Z.pos m / 2 ^ (- e) in
      sat_u64 (if s then - magnitude else magnitude)
  | S754_infinity s => if s then 0 else U64_MAX
  | _ => 0
  end.
Record ExploreResult := { xr_rows : list (list (str * ExploreValue)); xr_next : option ExploreCursor }.
Definition AGGREGATE_ALIAS : str := lit "count".
Definition row_get (row : list (str * ExploreValue)) (alias : str) : option ExploreValue :=
  snd <$> find (λ kv, bool_decide (kv.1 = alias)) row.
Definition aggregate_count (r : ExploreResult) : Z :=
  unwrap_or 0
    (row ← head (xr_rows r);
     value ← row_get row AGGREGATE_ALIAS;
     match value with
     | XInteger value => checked_u64 value
     | XNumber value => if f64_is_finite value && f64_leb f64_zero value then Some (f64_to_u64 value) else None
     | _ => None
     end).

(** ** The filter of an aggregate rule *)

(** [str::replace] of one byte. *)
Definition replace_byte (from : Z) (to : str) (s : str) : str :=
  concat (map (λ b, if b =? from then to else [b]) s).
Definition quote_query_value (value : str) : str :=
  [34] ++ replace_byte 34 [92; 34] (replace_byte 92 [92; 92] value) ++ [34].
Definition query_source (d : ExploreDataset) : QuerySource :=
  match d with Errors => QErrors | Logs => QLogs | Spans => QTraces | Metrics => QMetrics end.
Definition alert_query_text (a : AggregateAlert) : str :=
  join (lit " ")
    (match ag_environment a with Some value => [lit "env:" ++ quote_query_value value] | None => [] end
     ++ match ag_release a with Some value => [lit "rel:" ++ quote_query_value value] | None => [] end).

(** ** The ports *)

Inductive AlertCall :=
| AClockNow
| PendingMonitorAlerts (limit : Z)
| ListRules (project_id : ProjectId) (limit : Z)
| MarkMonitorAlertEvaluated (run : bytes) (now : Timestamp)
| CompleteMonitorAlert (rule : bytes) (now window_started : Timestamp) (storm_count : Z) (threshold_met : bool)
    (deliveries : list NotificationDelivery)
| ClaimDueAggregateRule (now claimed_until : Timestamp)
| ExecutePlan (plan : ExplorePlan)
| CompleteAggregateRule (rule : bytes) (claimed_until next : Timestamp) (threshold_met : bool)
    (last_triggered_at storm_window_started_at : option Timestamp) (storm_count : Z)
    (deliveries : list NotificationDelivery).
Definition alert_answer (c : AlertCall) : Type :=
  match c with
  | AClockNow => Timestamp
  | PendingMonitorAlerts _ => result SignalStoreError (list MonitorRun)
  | ListRules _ _ => result NotificationStoreError (list AlertRule)
  | MarkMonitorAlertEvaluated _ _ => result SignalStoreError unit
  | ClaimDueAggregateRule _ _ => result NotificationStoreError (option AlertRule)
  | ExecutePlan _ => result ExploreError ExploreResult
  | CompleteMonitorAlert _ _ _ _ _ _ | CompleteAggregateRule _ _ _ _ _ _ _ _ => result NotificationStoreError unit
  end.
Definition AlertSig : signature := Signature AlertCall alert_answer.
Abbreviation alerting A := (prog AlertSig (result NotificationError A)).
Abbreviation alert_history := (list (event AlertSig)).
Definition alert_call (c : AlertCall) : prog AlertSig (alert_answer c) := perform (E := AlertSig) c.
Definition alert_store {A} (p : prog AlertSig (result NotificationStoreError A)) : alerting A :=
  map_err_p notification_store_error p.
Definition monitor_store {A} (p : prog AlertSig (result SignalStoreError A)) : alerting A :=
  map_err_p map_monitor_store_error p.

Section evaluators.
Context {N : Type} `{!JsonPrint N, !JsonBuild N, !Blake3, !Rfc3339Api}.
Context (f64_display : f64 → str) (explore : ExploreConfig).

(** ** Monitors *)

Definition json_option {A} (f : A → JValue N) (o : option A) : JValue N :=
  match o with Some a => f a | None => JNull end.
Definition json_u64 (z : Z) : JValue N := JNumber (number_of_u64 z).
Definition monitor_payload (rule : AlertRule) (run : MonitorRun) (now : Timestamp) (resolving : bool)
    : result NotificationError bytes :=
  payload_of (N := N)
    [("schema"%string, json_int 1);
     ("kind"%string, json_str (lit (if is_some (mr_http_status run) || is_some (mr_uptime_failure run)
                                    then "uptime_monitor" else "cron_monitor")));
     ("state"%string, json_str (lit (if resolving then "resolved" else "firing")));
     ("rule"%string, json_str (al_name rule));
     ("monitor_id"%string, json_str (hex_encode (mr_monitor_id run)));
     ("run_id"%string, json_str (hex_encode (mr_id run)));
     ("status"%string, json_str (run_status_as_str (mr_status run)));
     ("http_status"%string, json_option json_u64 (mr_http_status run));
     ("failure"%string, json_option (λ f, json_str (uptime_failure_as_str f)) (mr_uptime_failure run));
     ("started_at"%string, json_int (mr_started_at run));
     ("detected_at"%string, json_int now)].
(** One delivery per destination, in order, or the first error. *)
Fixpoint alert_deliveries (rule : AlertRule) (project_id : ProjectId) (issue_id transition_id : bytes)
    (payload : bytes → result NotificationError bytes) (now : Timestamp) (destinations : list bytes)
    : result NotificationError (list NotificationDelivery) :=
  match destinations with
  | [] => Ok []
  | destination_id :: destinations =>
      text ← payload destination_id;
      deliveries ← alert_deliveries rule project_id issue_id transition_id payload now destinations;
      Ok (pending_delivery (notification_delivery_id transition_id (al_id rule) destination_id) project_id
            issue_id transition_id (al_id rule) destination_id text now :: deliveries)
  end.
Definition rule_matches_run (run : MonitorRun) (rule : AlertRule) : bool :=
  al_enabled rule
  && is_some_and (λ m, bool_decide (ma_monitor_id m = mr_monitor_id run)
                       && (bool_decide (mr_status run ∈ ma_outcomes m)
                           || (bool_decide (mr_status run = Success) && is_some (mr_http_status run)
                               && al_threshold_met rule && ma_notify_resolved m)))
       (al_monitor rule).
Definition expand_monitor_rule (rule : AlertRule) (run : MonitorRun) (now : Timestamp) (resolving : bool)
    : alerting unit :=
  let window_started := if window_expired rule now then now
                        else unwrap_or now (al_storm_window_started_at rule) in
  let storm_count := storm_count_at rule now in
  if negb resolving && (negb (cooldown_elapsed rule now) || (al_storm_limit_per_hour rule <=? storm_count))
  then Ret (Ok tt)
  else
    let storm_count := if resolving then storm_count else sat_u32 (storm_count + 1) in
    deliveries ←! alert_deliveries rule (mr_project_id run) (mr_monitor_id run) (mr_id run)
                    (λ _, monitor_payload rule run now resolving) now (al_destination_ids rule);
    alert_store (alert_call (CompleteMonitorAlert (al_id rule) now window_started storm_count (negb resolving) deliveries)).
Fixpoint expand_monitor_rules (rules : list AlertRule) (run : MonitorRun) (now : Timestamp) : alerting unit :=
  match rules with
  | [] => Ret (Ok tt)
  | rule :: rules =>
      _ ←? (if rule_matches_run run rule
            then expand_monitor_rule rule run now (bool_decide (mr_status run = Success))
            else Ret (Ok tt));
      expand_monitor_rules rules run now
  end.
Fixpoint evaluate_runs (runs : list MonitorRun) (now : Timestamp) : alerting unit :=
  match runs with
  | [] => Ret (Ok tt)
  | run :: runs =>
      rules ←? alert_store (alert_call (ListRules (mr_project_id run) EXPANSION_RULE_LIMIT));
      _ ←? expand_monitor_rules rules run now;
      _ ←? monitor_store (alert_call (MarkMonitorAlertEvaluated (mr_id run) now));
      evaluate_runs runs now
  end.
Definition evaluate_monitors_once (batch_size : Z) : alerting Z :=
  runs ←? monitor_store (alert_call (PendingMonitorAlerts batch_size));
  now ← alert_call AClockNow;
  _ ←? evaluate_runs runs now;
  Ret (Ok (len runs)).

(** ** Aggregates *)

Definition add_duration_signed (timestamp : Timestamp) (millis : Z) : result NotificationError Timestamp :=
  map_err (λ _, NInvalidData) (from_unix_millis (sat_i64 (timestamp + millis))).
(** The parser always answers ([query_parse_iff_grammar]). *)
Definition alert_expression (d : ExploreDataset) (text : str) : result NotificationError (option ExploreExpression) :=
  match query_parse rfc3339_nanos (query_source d) text with
  | Some parsed => map_err (λ _, NInvalidData) (query ← parsed; explore_expression rfc3339_nanos query)
  | None => Err NInvalidData
  end.
Definition alert_query (a : AggregateAlert) (from until : Timestamp) (expression : option ExploreExpression)
    : ExploreQuery :=
  {| eq_dataset := ag_dataset a; eq_from := from; eq_until := until; eq_predicates := [];
     eq_expression := expression;
     eq_aggregates := [{| ea_kind := Count; ea_field := None; ea_alias := AGGREGATE_ALIAS |}];
     eq_group_by := []; eq_interval := None; eq_cursor := None; eq_limit := 1 |}.
Definition aggregate_transition_id (rule_id : bytes) (now : Timestamp) (action : string) : bytes :=
  take 16 (blake3 (lit "metric/aggregate-alert/v1" ++ rule_id ++ be_bytes 8 now ++ lit action)).
Definition aggregate_payload (rule : AlertRule) (action : string) (count : Z) (now : Timestamp)
    (destination_id : bytes) : result NotificationError bytes :=
  a ← ok_or NInvalidData (al_aggregate rule);
  payload_of (N := N)
    [("version"%string, json_int 1);
     ("type"%string, json_str (lit action));
     ("project_id"%string, json_int (al_project_id rule));
     ("title"%string, json_str (al_name rule));
     ("dataset"%string, json_str (dataset_as_str (ag_dataset a)));
     ("count"%string, json_u64 count);
     ("threshold"%string, json_u64 (ag_threshold a));
     ("occurred_at_ms"%string, json_int now);
     ("rule_id"%string, json_str (hex_encode (al_id rule)));
     ("destination_id"%string, json_str (hex_encode destination_id))].
Definition aggregate_deliveries (rule : AlertRule) (d : AggregateDecision) (count : Z) (now : Timestamp)
    : result NotificationError (list NotificationDelivery) :=
  match ad_action d with
  | None => Ok []
  | Some action =>
      let transition_id := aggregate_transition_id (al_id rule) (unwrap_or now (al_next_evaluation_at rule)) action in
      alert_deliveries rule (al_project_id rule) transition_id transition_id
        (aggregate_payload rule action count now) now (al_destination_ids rule)
  end.
Definition alert_plan (rule : AlertRule) (a : AggregateAlert) (now : Timestamp) : result NotificationError ExplorePlan :=
  from ← add_duration_signed now (- (ag_lookback_minutes a) * 60000);
  expression ← alert_expression (ag_dataset a) (alert_query_text a);
  map_err (λ _, NInvalidData) (plan f64_display explore (al_project_id rule) (alert_query a from now expression)).
Definition evaluate_rule (rule : AlertRule) (now claimed_until : Timestamp) : alerting unit :=
  a ←! ok_or NInvalidData (al_aggregate rule);
  p ←! alert_plan rule a now;
  r ←? map_err_p (λ _ : ExploreError, NStorageUnavailable) (alert_call (ExecutePlan p));
  let count := aggregate_count r in
  let d := aggregate_decision rule a count now in
  deliveries ←! aggregate_deliveries rule d count now;
  next ←! notification_add_duration now (ag_evaluation_interval_minutes a * 60 * SECOND);
  alert_store (alert_call (CompleteAggregateRule (al_id rule) claimed_until next (ad_threshold_met d)
    (ad_last_triggered_at d) (ad_storm_window_started_at d) (ad_storm_count d) deliveries)).
(** [limit] rules at most. *)
Fixpoint evaluate_due (limit : nat) (lease : duration) (completed : Z) : alerting Z :=
  match limit with
  | O => Ret (Ok completed)
  | S limit =>
      now ← alert_call AClockNow;
      claimed_until ←! notification_add_duration now lease;
      rule ←? alert_store (alert_call (ClaimDueAggregateRule now claimed_until));
      match rule with
      | None => Ret (Ok completed)
      | Some rule => _ ←? evaluate_rule rule now claimed_until; evaluate_due limit lease (completed + 1)
      end
  end.
Definition evaluate_aggregates_once (limit : Z) (lease : duration) : alerting Z :=
  evaluate_due (Z.to_nat limit) lease 0.
End evaluators.

(** ** Storms *)

(** The rule as [complete_aggregate_rule] leaves it. *)
Definition rule_after (rule : AlertRule) (d : AggregateDecision) : AlertRule :=
  {| al_id := al_id rule; al_project_id := al_project_id rule; al_name := al_name rule;
     al_enabled := al_enabled rule; al_triggers := al_triggers rule; al_aggregate := al_aggregate rule;
     al_monitor := al_monitor rule; al_destination_ids := al_destination_ids rule;
     al_cooldown_minutes := al_cooldown_minutes rule; al_storm_limit_per_hour := al_storm_limit_per_hour rule;
     al_next_evaluation_at := al_next_evaluation_at rule; al_last_triggered_at := ad_last_triggered_at d;
     al_storm_window_started_at := ad_storm_window_started_at d; al_storm_count := ad_storm_count d;
     al_threshold_met := ad_threshold_met d; al_created_at := al_created_at rule;
     al_updated_at := al_updated_at rule |}.
(** The notifications of a rule evaluated again and again: when, and what. *)
Fixpoint notifications (a : AggregateAlert) (rule : AlertRule) (evaluations : list (Timestamp * Z))
    : list (Timestamp * string) :=
  match evaluations with
  | [] => []
  | (now, count) :: evaluations =>
      let d := aggregate_decision rule a count now in
      match ad_action d with Some action => [(now, action)] | None => [] end
      ++ notifications a (rule_after rule d) evaluations
  end.

Section storms.
Context (a : AggregateAlert).
Implicit Types rule : AlertRule.

Lemma sat_i64_ge x k : I64_MIN < k ≤ I64_MAX → k ≤ sat_i64 x ↔ k ≤ x.
Proof. intros. unfold sat_i64, saturate. lia. Qed.
Lemma window_expired_iff rule now : window_expired rule now = true ↔
  ∀ w, al_storm_window_started_at rule = Some w → w + STORM_WINDOW_MILLIS ≤ now.
Proof.
  unfold window_expired. destruct (al_storm_window_started_at rule) as [w|]; cbn.
  - rewrite Z.leb_le, sat_i64_ge by done. split; [intros ? ? [= <-]; lia|]. intros Hw. specialize (Hw w eq_refl). lia.
  - split; [done|done].
Qed.
Lemma decision_action rule count now action :
  ad_action (aggregate_decision rule a count now) = Some action → storm_count_at rule now < al_storm_limit_per_hour rule.
Proof.
  cbn. destruct (Z.ltb_spec (storm_count_at rule now) (al_storm_limit_per_hour rule)); [done|].
  by rewrite !andb_false_r.
Qed.
Lemma decision_count rule count now : 0 ≤ al_storm_count rule → al_storm_limit_per_hour rule ≤ U32_MAX →
  let d := aggregate_decision rule a count now in
  ad_storm_count d = storm_count_at rule now + match ad_action d with Some _ => 1 | None => 0 end.
Proof.
  intros Hc Hl. pose proof (decision_action rule count now) as Ha. cbn zeta.
  unfold aggregate_decision in *. cbn [ad_storm_count ad_action] in *. revert Ha. match goal with |- context [is_some ?o] => destruct o end; cbn [is_some]; intros Ha; [|lia].
  specialize (Ha _ eq_refl). unfold sat_u32. apply saturate_exact.
  assert (0 ≤ storm_count_at rule now) by (unfold storm_count_at; case_match; lia). lia.
Qed.
Lemma decision_window rule count now :
  ad_storm_window_started_at (aggregate_decision rule a count now)
  = if window_expired rule now then Some now else al_storm_window_started_at rule.
Proof. done. Qed.
Lemma rule_after_count_nonneg rule count now : 0 ≤ al_storm_count rule → al_storm_limit_per_hour rule ≤ U32_MAX →
  0 ≤ al_storm_count (rule_after rule (aggregate_decision rule a count now)).
Proof.
  intros Hc Hl. cbn [rule_after al_storm_count]. rewrite decision_count by done.
  assert (0 ≤ storm_count_at rule now) by (unfold storm_count_at; case_match; lia). case_match; lia.
Qed.

(** While a window lasts, the notifications are the limit less the count at most. *)
Lemma notifications_in_window evaluations : ∀ rule w, 0 ≤ al_storm_count rule → al_storm_limit_per_hour rule ≤ U32_MAX →
  al_storm_window_started_at rule = Some w →
  Forall (λ e, e.1 < w + STORM_WINDOW_MILLIS) evaluations →
  len (notifications a rule evaluations) ≤ Z.max 0 (al_storm_limit_per_hour rule - al_storm_count rule).
Proof.
  induction evaluations as [|[now count] es IH]; intros rule w Hc Hl Hw Hall; cbn [notifications]; [rewrite len_nil; lia|].
  apply Forall_cons in Hall as [Hn Hall]. cbn in Hn.
  assert (window_expired rule now = false) as Hx.
  { apply not_true_iff_false. rewrite window_expired_iff. intros Hx. specialize (Hx w Hw). lia. }
  assert (storm_count_at rule now = al_storm_count rule) as Hs by (unfold storm_count_at; by rewrite Hx).
  assert (al_storm_window_started_at (rule_after rule (aggregate_decision rule a count now)) = Some w) as Hw'.
  { cbn [rule_after al_storm_window_started_at]. by rewrite decision_window, Hx. }
  specialize (IH _ w (rule_after_count_nonneg rule count now Hc Hl) Hl Hw' Hall).
  pose proof (decision_count rule count now Hc Hl) as Hd. pose proof (decision_action rule count now) as Ha.
  cbn zeta in Hd. cbn [rule_after al_storm_limit_per_hour al_storm_count] in IH. rewrite len_app.
  destruct (ad_action _) as [action|]; [specialize (Ha _ eq_refl)|];
    change (len [(now, action)]) with 1 || change (len (@nil (Timestamp * string))) with 0; lia.
Qed.
(** In an hour, what the window leaves and one window more. *)
Lemma notifications_in_hour evaluations : ∀ rule t, 0 ≤ al_storm_count rule →
  0 ≤ al_storm_limit_per_hour rule ≤ U32_MAX →
  StronglySorted (λ x y : Timestamp * Z, x.1 ≤ y.1) evaluations → Forall (λ e, t ≤ e.1 < t + STORM_WINDOW_MILLIS) evaluations →
  len (notifications a rule evaluations)
    ≤ Z.max 0 (al_storm_limit_per_hour rule - al_storm_count rule) + al_storm_limit_per_hour rule.
Proof.
  induction evaluations as [|[now count] es IH]; intros rule t Hc Hl Hs Hall; cbn [notifications]; [rewrite len_nil; lia|].
  apply StronglySorted_inv in Hs as [Hs _]. apply Forall_cons in Hall as [Hn Hall]. cbn in Hn.
  pose proof (rule_after_count_nonneg rule count now Hc (proj2 Hl)) as Hc'.
  pose proof (decision_count rule count now Hc (proj2 Hl)) as Hd. pose proof (decision_action rule count now) as Ha.
  cbn zeta in Hd. rewrite len_app. destruct (window_expired rule now) eqn:Hx.
  - assert (al_storm_window_started_at (rule_after rule (aggregate_decision rule a count now)) = Some now) as Hnow.
    { cbn [rule_after al_storm_window_started_at]. by rewrite decision_window, Hx. }
    assert (Forall (λ e : Timestamp * Z, e.1 < now + STORM_WINDOW_MILLIS) es) as Hes.
    { eapply Forall_impl; [exact Hall|]. intros e [??]. lia. }
    pose proof (notifications_in_window es _ now Hc' (proj2 Hl) Hnow Hes) as Hw.
    assert (storm_count_at rule now = 0) as Hz by (unfold storm_count_at; by rewrite Hx).
    cbn [rule_after al_storm_limit_per_hour al_storm_count] in Hw.
    destruct (ad_action _) as [action|]; [specialize (Ha _ eq_refl)|];
      change (len [(now, action)]) with 1 || change (len (@nil (Timestamp * string))) with 0; lia.
  - specialize (IH (rule_after rule (aggregate_decision rule a count now)) t Hc' Hl Hs Hall).
    assert (storm_count_at rule now = al_storm_count rule) as Hz by (unfold storm_count_at; by rewrite Hx).
    cbn [rule_after al_storm_limit_per_hour al_storm_count] in IH.
    destruct (ad_action _) as [action|]; [specialize (Ha _ eq_refl)|];
      change (len [(now, action)]) with 1 || change (len (@nil (Timestamp * string))) with 0; lia.
Qed.
Lemma notifications_spaced evaluations : ∀ rule last, al_last_triggered_at rule = Some last →
  al_cooldown_minutes rule * 60000 ≤ I64_MAX → 0 ≤ al_cooldown_minutes rule →
  StronglySorted (λ x y : Timestamp * Z, x.1 ≤ y.1) evaluations → Forall (λ e, last ≤ e.1) evaluations →
  Forall (λ n : Timestamp * string, n.2 = "aggregate_threshold"%string → last + al_cooldown_minutes rule * 60000 ≤ n.1) (notifications a rule evaluations).
Proof.
  induction evaluations as [|[now count] es IH]; intros rule last Hlast Hm Hp Hs Hall; cbn [notifications]; [constructor|].
  apply StronglySorted_inv in Hs as [Hs Hle]. apply Forall_cons in Hall as [Hn Hall]. cbn in Hn.
  apply Forall_app. split.
  - destruct (ad_action _) as [action|] eqn:Ha; [|constructor]. apply Forall_singleton. cbn. intros ->.
    cbn in Ha. destruct (_ <=? count), (cooldown_elapsed rule now) eqn:Hcd; cbn in Ha; try (by repeat case_match).
    unfold cooldown_elapsed in Hcd. rewrite Hlast in Hcd. cbn in Hcd. apply Z.leb_le in Hcd.
    rewrite sat_i64_ge in Hcd; [lia|unfold I64_MIN; lia].
  - destruct (ad_action (aggregate_decision rule a count now)) as [action|] eqn:Ha.
    + assert (al_last_triggered_at (rule_after rule (aggregate_decision rule a count now)) = Some now) as Hl.
      { cbn in Ha |- *. by rewrite Ha. }
      eapply Forall_impl; [apply (IH _ now Hl Hm Hp Hs Hle)|]. intros n Hx Hn2. specialize (Hx Hn2). cbn in Hx. lia.
    + apply (IH (rule_after rule (aggregate_decision rule a count now)) last); try done.
      cbn in Ha |- *. by rewrite Ha.
Qed.
End storms.

(** C24. Within any hour an aggregate rule notifies at most twice its storm limit,
    whatever the counts are. *)
Theorem storm_limited a rule t evaluations :
  0 ≤ al_storm_count rule → 0 ≤ al_storm_limit_per_hour rule ≤ U32_MAX →
  StronglySorted (λ x y : Timestamp * Z, x.1 ≤ y.1) evaluations → Forall (λ e, t ≤ e.1 < t + STORM_WINDOW_MILLIS) evaluations →
  len (notifications a rule evaluations) ≤ 2 * al_storm_limit_per_hour rule.
Proof.
  intros Hc Hl Hs Hall. etrans; [by apply (notifications_in_hour a evaluations rule t)|]. lia.
Qed.

(** A threshold alert of a rule is followed by nothing of the same rule before its
    cooldown is over. *)
Theorem cooldown_kept a rule evaluations : al_cooldown_minutes rule * 60000 ≤ I64_MAX → 0 ≤ al_cooldown_minutes rule →
  StronglySorted (λ x y : Timestamp * Z, x.1 ≤ y.1) evaluations →
  StronglySorted (λ x y : Timestamp * string, y.2 = "aggregate_threshold"%string → x.1 + al_cooldown_minutes rule * 60000 ≤ y.1)
    (notifications a rule evaluations).
Proof.
  intros Hm Hp. revert rule Hm Hp. induction evaluations as [|[now count] es IH]; intros rule Hm Hp Hs; cbn [notifications]; [constructor|].
  apply StronglySorted_inv in Hs as [Hs Hle].
  specialize (IH (rule_after rule (aggregate_decision rule a count now)) Hm Hp Hs). cbn [rule_after al_cooldown_minutes] in IH.
  destruct (ad_action (aggregate_decision rule a count now)) as [action|] eqn:Ha; [|exact IH]. cbn [app].
  constructor; [exact IH|].
  assert (al_last_triggered_at (rule_after rule (aggregate_decision rule a count now)) = Some now) as Hl.
  { cbn in Ha |- *. by rewrite Ha. }
  apply (notifications_spaced a es _ now Hl Hm Hp Hs Hle).
Qed.

(** ** What the filter of a rule means *)

Lemma replace_byte_app c to s1 s2 : replace_byte c to (s1 ++ s2) = replace_byte c to s1 ++ replace_byte c to s2.
Proof. unfold replace_byte. by rewrite map_app, concat_app. Qed.
(** The two replacements are the escapes of the query language. *)
Lemma quote_escaped v : quote_query_value v = escaped v.
Proof.
  unfold quote_query_value, escaped. do 2 f_equal. induction v as [|b v IH]; [done|].
  change (replace_byte 92 [92; 92] (b :: v)) with ((if b =? 92 then [92; 92] else [b]) ++ replace_byte 92 [92; 92] v).
  rewrite replace_byte_app, IH. cbn [map concat]. f_equal. unfold escape_byte.
  destruct (Z.eqb_spec b 92) as [->|H92]; [done|]. destruct (Z.eqb_spec b 34) as [->|H34]; [done|].
  unfold replace_byte. cbn [map concat]. by rewrite (proj2 (Z.eqb_neq b 34) H34).
Qed.
Lemma len_escaped v : len (escaped v) ≤ 2 * len v + 2.
Proof.
  unfold escaped. rewrite !len_app. change (len [34]) with 1.
  enough (len (concat (map escape_byte v)) ≤ 2 * len v) by lia.
  induction v as [|b v IH]; [done|]. cbn [map concat]. rewrite len_app, len_cons.
  assert (len (escape_byte b) ≤ 2) by (unfold escape_byte; by case_match). lia.
Qed.

Lemma utf8_go_snoc s z : is_cont z = false →
  utf8_go (s ++ [z]) = let '(pre, cs) := utf8_go s in (pre, cs ++ [[z]]).
Proof.
  intros Hz. induction s as [|b s IH]; cbn; [by rewrite Hz|]. rewrite IH. destruct (utf8_go s) as [pre cs].
  by destruct (is_cont b).
Qed.
(** A text that starts and ends with printable ASCII is not trimmed. *)
Lemma trim_text (a b z : Z) s : is_cont a = false → is_cont b = false → is_cont z = false →
  is_whitespace [a] = false → is_whitespace [z] = false → trim (a :: b :: s ++ [z]) = a :: b :: s ++ [z].
Proof.
  intros Ha Hb Hz Hwa Hwz. assert (∃ m, utf8_chunks (a :: b :: s ++ [z]) = [a] :: m ++ [[z]]) as [m Hm].
  { unfold utf8_chunks. cbn. rewrite utf8_go_snoc by done. destruct (utf8_go s) as [pre cs]. rewrite Ha, Hb.
    by exists ((b :: pre) :: cs). }
  pose proof (utf8_chunks_concat (a :: b :: s ++ [z])) as Hc. unfold trim. rewrite Hm in Hc |- *.
  unfold trim_by. cbn [drop_while]. rewrite Hwa.
  replace (reverse ([a] :: m ++ [[z]])) with ([z] :: reverse ([a] :: m)).
  2:{ by rewrite app_comm_cons, reverse_app. }
  cbn [drop_while]. rewrite Hwz, reverse_cons, reverse_involutive. exact Hc.
Qed.

Section filter.
Context `{!Rfc3339Api}.

Definition word_ok (word : str) : Prop := word ≠ [] ∧ head word ≠ Some 34 ∧ ∀ b, b ∈ word → word_byte b = true.
Lemma read_field_token word v s : word_ok word → printable_value v →
  ∃ b w, word ++ 58 :: escaped v ++ s = b :: w ∧ is_ascii_whitespace b = false
    ∧ read_token b (word ++ 58 :: escaped v ++ s) = Ok (TPredicate word v, s).
Proof.
  intros (Hne & Hh & Hw) Hv. destruct word as [|b word]; [done|]. exists b, (word ++ 58 :: escaped v ++ s).
  split; [done|]. split; [apply word_byte_plain, Hw, list_elem_of_here|].
  rewrite read_token_word; [|done|cbn in Hh; congruence|done|by intros x s' [= <- _]].
  cbn [head tail]. rewrite bool_decide_eq_true_2 by done. unfold read_value.
  rewrite bool_decide_eq_true_2 by done. by rewrite read_quoted_escaped.
Qed.
Definition filter_tokens (words : list (str * str)) : list Token := map (λ wv, TPredicate wv.1 wv.2) words.
Definition filter_text (words : list (str * str)) : str :=
  join (lit " ") (map (λ wv, wv.1 ++ 58 :: escaped wv.2) words).
Lemma tokenize_filter words : Forall (λ wv, word_ok wv.1 ∧ printable_value wv.2) words → ∀ fuel output,
  words ≠ [] → (length (filter_text words) ≤ fuel)%nat →
  tokenize_loop fuel output (filter_text words) = Some (Ok (output ++ filter_tokens words)).
Proof.
  induction 1 as [|[word v] words [Hw Hv] _ IH]; intros fuel output Hne Hl; [done|]. clear Hne. cbn [fst snd] in *.
  destruct (decide (words = [])) as [->|Hwords].
  - unfold filter_text, filter_tokens in *. cbn [map join fst snd] in *.
    destruct (read_field_token word v [] Hw Hv) as (b & w & Hb & Hs & Hr). rewrite app_nil_r in *. rewrite Hb in *.
    cbn [length] in Hl. destruct fuel as [|fuel]; [lia|]. cbn [tokenize_loop]. rewrite Hs, Hr.
    destruct fuel; cbn; by destruct output.
  - assert (filter_text ((word, v) :: words) = word ++ 58 :: escaped v ++ 32 :: filter_text words) as Ht.
    { unfold filter_text. cbn [map fst snd]. rewrite join_cons by (by destruct words). by rewrite <- !app_assoc. }
    rewrite Ht in Hl |- *. destruct (read_field_token word v (32 :: filter_text words) Hw Hv) as (b & w & Hb & Hs & Hr).
    rewrite Hb in *. assert (length (b :: w) = length word + S (length (escaped v) + S (length (filter_text words))))%nat as Hlen.
    { rewrite <- Hb, length_app. cbn. by rewrite length_app. }
    assert (0 < length word)%nat by (destruct Hw as [Hw _]; destruct word; [done|cbn; lia]).
    destruct fuel as [|[|fuel]]; [lia|lia|]. cbn [tokenize_loop]. rewrite Hs, Hr.
    change (is_ascii_whitespace 32) with true. cbn iota. rewrite IH; [by rewrite <- app_assoc|done|lia].
Qed.

Definition alert_filters (a : AggregateAlert) : list (ExploreField * str) :=
  match ag_environment a with Some value => [(FEnvironment, value)] | None => [] end
  ++ match ag_release a with Some value => [(FRelease, value)] | None => [] end.
Definition filter_word (f : ExploreField) : str := match f with FEnvironment => lit "env" | _ => lit "rel" end.
Definition filter_field (f : ExploreField) : QueryField := match f with FEnvironment => QEnvironment | _ => QRelease end.
Definition alert_words (a : AggregateAlert) : list (str * str) := map (λ fv, (filter_word fv.1, fv.2)) (alert_filters a).
Lemma alert_text_filter a : alert_query_text a = filter_text (alert_words a).
Proof.
  unfold alert_query_text, filter_text, alert_words, alert_filters. f_equal.
  destruct (ag_environment a), (ag_release a); cbn [map app fst snd filter_word]; rewrite ?quote_escaped; reflexivity.
Qed.
(** What a value is read as: an operator in front of it is taken off. *)
Definition reads_equal (v : str) : bool :=
  bool_decide ((split_operator v).1 = QEqual) && non_empty (split_operator v).2.
Definition read_predicate (f : ExploreField) (v : str) : result QueryError QueryPredicate :=
  if reads_equal v
  then Ok {| qp_field := filter_field f; qp_operator := QEqual; qp_value := (split_operator v).2 |}
  else Err QSyntax.
Lemma strip_prefix_len p v r : strip_prefix p v = Some r → len r ≤ len v.
Proof.
  revert v. induction p as [|x p IH]; intros [|y v]; cbn; [by intros [= <-]|by intros [= <-]|done|].
  rewrite len_cons. case_match; [|done]. intros Hr%IH. lia.
Qed.
Lemma split_operator_len v : len (split_operator v).2 ≤ len v.
Proof.
  unfold split_operator. repeat (match goal with |- context [strip_prefix ?p v] => destruct (strip_prefix p v) eqn:? end;
    [cbn; by eapply strip_prefix_len|]). done.
Qed.
Lemma parse_filter source f v : source = QLogs ∨ source = QTraces → f = FEnvironment ∨ f = FRelease → len v ≤ 200 →
  parse_predicate rfc3339_nanos source (filter_word f) v = read_predicate f v.
Proof.
  intros Hs Hf Hl. pose proof (split_operator_len v) as Hr. unfold parse_predicate, read_predicate, reads_equal.
  assert (∃ q, resolve_field (filter_word f) = Some q ∧ q = filter_field f ∧ query_field_accepted source q = true
    ∧ (∀ o, operator_accepted q o = bool_decide (o = QEqual))
    ∧ (∀ w, value_ok rfc3339_nanos source q w = (len w <=? 16 * 1024))) as (q & -> & -> & Ha & Ho & Hv).
  { destruct Hs as [-> | ->], Hf as [-> | ->]; eexists; (split; [vm_compute; reflexivity|]);
      (split; [done|]); (split; [by vm_compute|]); (split; [by intros []|done]). }
  cbn [ok_or mbind result_bind]. rewrite Ha. cbn [negb]. destruct (split_operator v) as [o w]. cbn [fst snd] in *.
  rewrite Ho. rewrite (proj2 (Z.ltb_ge (16 * 1024) (len w))) by lia. rewrite orb_false_r.
  destruct (bool_decide_reflect (o = QEqual)) as [->|]; cbn [negb andb]; [|by rewrite orb_true_r].
  unfold is_empty. destruct (non_empty w); cbn [negb orb]; [|done].
  unfold validate_value. rewrite bool_decide_eq_false_2 by done. rewrite Hv, (proj2 (Z.leb_le (len w) _)) by lia. done.
Qed.

Definition filter_expression (ps : list QueryPredicate) : option QueryExpression :=
  match ps with [] => None | [p] => Some (QPredicate p) | ps => Some (QAnd (map QPredicate ps)) end.
(** The parser on predicates alone: [unary] reads one of them. *)
Definition reads_predicates (source : QuerySource) (unary : Parser → option (result QueryError (QueryExpression * Parser))) : Prop :=
  ∀ p w v ts, ps_tokens p = TPredicate w v :: ts →
    unary p = Some (value ← parse_predicate rfc3339_nanos source w v; predicate (advance p) value).
Lemma unary_reads d source : reads_predicates source (parse_unary rfc3339_nanos (S d) source 0).
Proof. intros p w v ts Hp. cbn [parse_unary]. by rewrite Hp. Qed.
Lemma parse_one source d w v : parse_tokens rfc3339_nanos (S d) source [TPredicate w v]
  = Some (QPredicate <$> parse_predicate rfc3339_nanos source w v).
Proof.
  unfold parse_tokens. pose proof (unary_reads d source) as HU. set (unary := parse_unary _ _ _ _) in *. clearbody unary.
  unfold parse_or, parse_and. cbn [parser_new ps_tokens length and_loop]. erewrite HU by done.
  destruct (parse_predicate _ _ _ _); reflexivity.
Qed.
Lemma parse_two source d w v w' v' : parse_tokens rfc3339_nanos (S d) source [TPredicate w v; TPredicate w' v']
  = Some (p ← parse_predicate rfc3339_nanos source w v; p' ← parse_predicate rfc3339_nanos source w' v';
          Ok (QAnd [QPredicate p; QPredicate p'])).
Proof.
  unfold parse_tokens. pose proof (unary_reads d source) as HU. set (unary := parse_unary _ _ _ _) in *. clearbody unary.
  unfold parse_or, parse_and. cbn [parser_new ps_tokens length and_loop]. erewrite HU by done.
  destruct (parse_predicate _ _ w v) as [p|e]; [|reflexivity]. cbn [mbind result_bind].
  change (predicate _ p) with (Ok (E := QueryError) (QPredicate p, {| ps_tokens := [TPredicate w' v']; ps_predicates := 1;
    ps_nodes := 1; ps_or_alternatives := 0 |})).
  cbn [then_ ps_tokens]. erewrite HU by done.
  destruct (parse_predicate _ _ w' v') as [p'|e]; reflexivity.
Qed.

Definition exact_predicate (fv : ExploreField * str) : ExplorePredicate :=
  {| ep_field := fv.1; ep_op := Exact; ep_value := Some (XString (split_operator fv.2).2); ep_upper := None |}.
Definition conjunction (ps : list ExplorePredicate) : option ExploreExpression :=
  match ps with [] => None | [p] => Some (EPredicate p) | ps => Some (EAnd (map EPredicate ps)) end.
Definition filter_ok (fv : ExploreField * str) : Prop := printable_value fv.2 ∧ len fv.2 ≤ 200.

Lemma filter_text_trim words : Forall (λ wv, wv.1 = lit "env" ∨ wv.1 = lit "rel") words →
  trim (filter_text words) = filter_text words.
Proof.
  intros Hw. destruct words as [|[w v] words]; [by vm_compute|].
  assert (∃ a b s, filter_text ((w, v) :: words) = a :: b :: s ++ [34] ∧ is_cont a = false ∧ is_cont b = false
    ∧ is_whitespace [a] = false) as (a & b & s & -> & Ha & Hb & Hs).
  2:{ by apply trim_text. }
  assert (∀ ws : list (str * str), ws ≠ [] → ∃ s, filter_text ws = s ++ [34]) as Hlast.
  { induction ws as [|[w1 v1] ws IH]; [done|]. intros _. unfold filter_text in *. cbn [map fst snd].
    destruct (decide (ws = [])) as [->|Hn].
    - exists (w1 ++ 58 :: 34 :: concat (map escape_byte v1)). cbn [map join]. unfold escaped. by rewrite <- !app_assoc.
    - rewrite join_cons by (by destruct ws). destruct (IH Hn) as [s ->].
      exists ((w1 ++ 58 :: escaped v1) ++ lit " " ++ s). by rewrite <- !app_assoc. }
  apply Forall_cons in Hw as [Hw _]. cbn in Hw. unfold filter_text. cbn [map fst snd].
  destruct (decide (words = [])) as [->|Hn].
  - cbn [map join]. unfold escaped. destruct Hw as [-> | ->].
    + exists 101, 110, ([118; 58; 34] ++ concat (map escape_byte v)). split; [by rewrite <- !app_assoc|done].
    + exists 114, 101, ([108; 58; 34] ++ concat (map escape_byte v)). split; [by rewrite <- !app_assoc|done].
  - rewrite join_cons by (by destruct words). destruct (Hlast words Hn) as [s Hl]. unfold filter_text in Hl. rewrite Hl.
    destruct Hw as [-> | ->].
    + exists 101, 110, (118 :: 58 :: escaped v ++ lit " " ++ s). split; [cbn; by rewrite <- !app_assoc|done].
    + exists 114, 101, (108 :: 58 :: escaped v ++ lit " " ++ s). split; [cbn; by rewrite <- !app_assoc|done].
Qed.
Lemma alert_filters_cases a : (ag_environment a = None ∧ ag_release a = None ∧ alert_filters a = [])
  ∨ (∃ f v, (f = FEnvironment ∨ f = FRelease) ∧ alert_filters a = [(f, v)])
  ∨ (∃ v v', alert_filters a = [(FEnvironment, v); (FRelease, v')]).
Proof. unfold alert_filters. destruct (ag_environment a), (ag_release a); cbn; eauto 10. Qed.
Lemma alert_words_len a : Forall filter_ok (alert_filters a) → len (filter_text (alert_words a)) ≤ MAX_QUERY_BYTES.
Proof.
  unfold alert_words, MAX_QUERY_BYTES, filter_text. intros Hf.
  destruct (alert_filters_cases a) as [(_ & _ & ->)|[(f & v & Hfield & Ha)|(v & v' & Ha)]]; [done|..]; rewrite Ha in *;
    rewrite ?Forall_cons in Hf; unfold filter_ok in Hf; cbn [fst snd] in Hf; cbn [map join fst snd].
  - pose proof (len_escaped v). rewrite len_app, len_cons.
    destruct Hfield as [-> | ->]; [change (len (filter_word FEnvironment)) with 3|change (len (filter_word FRelease)) with 3];
      lia.
  - pose proof (len_escaped v). pose proof (len_escaped v'). rewrite !len_app, !len_cons.
    change (len (filter_word FEnvironment)) with 3. change (len (filter_word FRelease)) with 3. change (len (lit " ")) with 1. lia.
Qed.
Lemma filter_word_ok f : f = FEnvironment ∨ f = FRelease → word_ok (filter_word f).
Proof.
  intros [-> | ->]; (split; [done|]); (split; [done|]); intros b Hb; cbn in Hb;
    repeat (apply elem_of_cons in Hb as [-> |Hb]; [done|]); by apply not_elem_of_nil in Hb.
Qed.
Lemma alert_tokens a : Forall filter_ok (alert_filters a) → alert_filters a ≠ [] →
  tokenize (filter_text (alert_words a)) = Some (Ok (filter_tokens (alert_words a))).
Proof.
  intros Hf Hn. unfold tokenize. rewrite tokenize_filter; [done| | |done].
  - assert (∀ fv, fv ∈ alert_filters a → word_ok (filter_word fv.1)) as Hw.
    { intros fv Hin. apply filter_word_ok. destruct (alert_filters_cases a) as [(_ & _ & Ha)|[(f & v & Hc & Ha)|(v & v' & Ha)]];
        rewrite Ha in Hin; [by apply not_elem_of_nil in Hin|..].
      - by apply list_elem_of_singleton in Hin as ->.
      - apply elem_of_cons in Hin as [-> |Hin]; [by left|]. apply list_elem_of_singleton in Hin as ->. by right. }
    unfold alert_words. apply Forall_map, Forall_forall. intros fv Hin. split; [by apply Hw|].
    rewrite Forall_forall in Hf. by apply Hf.
  - unfold alert_words. by destruct (alert_filters a).
Qed.

Lemma parse_alert_text a source : Forall filter_ok (alert_filters a) →
  query_parse rfc3339_nanos source (alert_query_text a)
  = if is_empty (alert_filters a)
    then Some (Ok {| pq_source := source; pq_expression := None; pq_normalized := normalized_query source None |})
    else match parse_tokens rfc3339_nanos (S (length (filter_tokens (alert_words a)))) source (filter_tokens (alert_words a)) with
         | None => None
         | Some r => Some ((λ e, {| pq_source := source; pq_expression := Some e;
                                    pq_normalized := normalized_query source (Some e) |}) <$> r)
         end.
Proof.
  intros Hf. unfold query_parse. rewrite alert_text_filter, filter_text_trim.
  2:{ unfold alert_words. apply Forall_map, Forall_forall. intros fv _. cbn [fst]. destruct fv.1; (by left) || (by right). }
  rewrite (proj2 (Z.ltb_ge MAX_QUERY_BYTES _) (alert_words_len a Hf)).
  destruct (decide (alert_filters a = [])) as [Hn|Hn].
  { unfold alert_words. by rewrite Hn. }
  rewrite alert_tokens by done.
  assert (is_empty (filter_text (alert_words a)) = false) as ->.
  { pose proof (alert_tokens a Hf Hn) as Ht. by destruct (filter_text (alert_words a)). }
  by destruct (alert_filters a).
Qed.
Lemma lower_predicate d f v : d = Logs ∨ d = Spans → f = FEnvironment ∨ f = FRelease → reads_equal v = true →
  to_explore_predicate rfc3339_nanos d {| qp_field := filter_field f; qp_operator := QEqual; qp_value := (split_operator v).2 |}
  = Ok (exact_predicate (f, v)).
Proof. by intros [-> | ->] [-> | ->] _. Qed.
Lemma validated_dataset a : aggregate_validate a = Ok tt → alert_filters a ≠ [] → ag_dataset a = Logs ∨ ag_dataset a = Spans.
Proof.
  unfold aggregate_validate, alert_filters. intros Hv Hn. destruct (ag_dataset a); auto;
    destruct (ag_environment a), (ag_release a); cbn in *; try done; by rewrite orb_true_r in Hv.
Qed.
End filter.

(** C23. The filter of a validated aggregate rule becomes the exact predicates on
    environment and release, each value less an operator in front of it, and a
    value that starts with an order operator makes the rule an error. *)
Theorem alert_filter_meaning `{!Rfc3339Api} a : aggregate_validate a = Ok tt → Forall filter_ok (alert_filters a) →
  alert_expression (ag_dataset a) (alert_query_text a)
  = if forallb (λ fv, reads_equal fv.2) (alert_filters a)
    then Ok (conjunction (map exact_predicate (alert_filters a))) else Err NInvalidData.
Proof.
  intros Hv Hf. unfold alert_expression. rewrite parse_alert_text by done.
  destruct (decide (alert_filters a = [])) as [Hn|Hn].
  { rewrite Hn. cbn [is_empty non_empty negb]. by destruct (ag_dataset a). }
  pose proof (validated_dataset a Hv Hn) as Hd.
  assert (query_source (ag_dataset a) = QLogs ∨ query_source (ag_dataset a) = QTraces) as Hs by (destruct Hd as [-> | ->]; auto).
  assert (explore_dataset (query_source (ag_dataset a)) = Some (ag_dataset a)) as Hx by (by destruct Hd as [-> | ->]).
  set (source := query_source (ag_dataset a)) in *. unfold alert_words, filter_tokens.
  destruct (alert_filters_cases a) as [(_ & _ & Ha)|[(f & v & Hfield & Ha)|(v & v' & Ha)]]; [done|..]; rewrite Ha in *;
    rewrite ?Forall_cons in Hf; unfold filter_ok in Hf; cbn [fst snd] in Hf; cbn [map fst snd is_empty non_empty negb length forallb].
  - rewrite parse_one, parse_filter by tauto. unfold read_predicate. rewrite andb_true_r.
    destruct (reads_equal v) eqn:Hr; [|done].
    cbn [mbind result_bind fmap result_fmap andb map_err]. unfold explore_expression. cbn [pq_source pq_expression]. rewrite Hx.
    cbn [ok_or mbind result_bind to_explore_expression fmap result_fmap].
    by rewrite (lower_predicate _ f v).
  - rewrite parse_two, (parse_filter source FEnvironment), (parse_filter source FRelease) by tauto. unfold read_predicate.
    rewrite andb_true_r. destruct (reads_equal v) eqn:Hr; [|done]. destruct (reads_equal v') eqn:Hr'; [|done].
    cbn [mbind result_bind fmap result_fmap andb map_err]. unfold explore_expression. cbn [pq_source pq_expression]. rewrite Hx.
    cbn [ok_or mbind result_bind to_explore_expression fmap result_fmap map collect foldr].
    rewrite (lower_predicate _ FEnvironment v), (lower_predicate _ FRelease v') by auto. done.
Qed.

(** ** Witnesses *)

Definition sample_aggregate (environment : str) : AggregateAlert :=
  {| ag_dataset := Logs; ag_lookback_minutes := 5; ag_evaluation_interval_minutes := 5; ag_threshold := 10;
     ag_environment := Some environment; ag_release := Some (lit "1.0"); ag_notify_resolved := true |}.
Definition sample_alert_rule : AlertRule :=
  {| al_id := replicate 16 1; al_project_id := 1; al_name := lit "logs"; al_enabled := true; al_triggers := [];
     al_aggregate := Some (sample_aggregate (lit "prod")); al_monitor := None; al_destination_ids := [replicate 16 2];
     al_cooldown_minutes := 10; al_storm_limit_per_hour := 1; al_next_evaluation_at := None;
     al_last_triggered_at := None; al_storm_window_started_at := Some 0; al_storm_count := 0;
     al_threshold_met := false; al_created_at := 0; al_updated_at := 0 |}.
(** At 59 minutes the old window is still open; at 61 the next one opens. *)
Definition sample_evaluations : list (Timestamp * Z) :=
  [(3540000, 20); (3550000, 20); (3660000, 20); (4200000, 20); (4300000, 0)].

Lemma storm_limited_witness :
  notifications (sample_aggregate (lit "prod")) sample_alert_rule sample_evaluations
  = [(3540000, "aggregate_threshold"%string); (4200000, "aggregate_threshold"%string)]
  ∧ len (notifications (sample_aggregate (lit "prod")) sample_alert_rule sample_evaluations) ≤ 2.
Proof.
  split; [vm_compute; reflexivity|].
  apply (storm_limited (sample_aggregate (lit "prod")) sample_alert_rule 3540000 sample_evaluations).
  - done.
  - done.
  - by repeat constructor.
  - unfold sample_evaluations, STORM_WINDOW_MILLIS. repeat (constructor; [cbn; lia|]). constructor.
Defined.
Lemma cooldown_kept_witness :
  StronglySorted (λ x y : Timestamp * string, y.2 = "aggregate_threshold"%string → x.1 + 600000 ≤ y.1)
    (notifications (sample_aggregate (lit "prod")) sample_alert_rule sample_evaluations).
Proof.
  apply (cooldown_kept (sample_aggregate (lit "prod")) sample_alert_rule sample_evaluations).
  - by vm_compute.
  - done.
  - by repeat constructor.
Defined.

#[local] Instance no_rfc3339 : Rfc3339Api := λ _, None.
Lemma alert_filter_meaning_witness :
  alert_expression Logs (alert_query_text (sample_aggregate (lit "=prod")))
  = Ok (Some (EAnd [EPredicate {| ep_field := FEnvironment; ep_op := Exact; ep_value := Some (XString (lit "prod")); ep_upper := None |};
                    EPredicate {| ep_field := FRelease; ep_op := Exact; ep_value := Some (XString (lit "1.0")); ep_upper := None |}]))
  ∧ alert_expression Logs (alert_query_text (sample_aggregate (lit ">prod"))) = Err NInvalidData.
Proof.
  assert (∀ v, printable_value v → len v ≤ 200 → Forall filter_ok (alert_filters (sample_aggregate v))) as Hf.
  { intros v Hp Hl. constructor; [by split|]. constructor; [|constructor]. split; [|done]. split; [done|].
    intros b Hb. cbn in Hb. repeat (apply elem_of_cons in Hb as [-> |Hb]; [done|]). by apply not_elem_of_nil in Hb. }
  assert (∀ v, forallb (λ b, negb (is_ascii_control b)) v = true → non_empty v = true → printable_value v) as Hp.
  { intros v Hv Hn. split; [by destruct v|]. intros b Hb. rewrite forallb_forall in Hv.
    apply list_elem_of_In, Hv in Hb. by destruct (is_ascii_control b). }
  split; etrans; [apply (alert_filter_meaning (sample_aggregate (lit "=prod"))); [done|apply Hf; [by apply Hp|done]]|by vm_compute
    |apply (alert_filter_meaning (sample_aggregate (lit ">prod"))); [done|apply Hf; [by apply Hp|done]]|by vm_compute].
Defined.
