(* ===== verification/NotificationAdmin.v ===== *)
(** * Administration of notifications

    [application/src/notifications.rs], [NotificationAdminService]: the methods on
    destinations, rules and deliveries.  [Authorize] and [Audit] are
    [authorize_project_mutation] and [record_notification_audit] of
    [IdentityService]; the other calls are of the store. *)
From stdpp Require Import base list numbers strings sets.
From Stdlib Require Import ZArith Lia.
From S2P Require Import Prelude External Primitives Identity Event Normalizer JsonValue Monitors Explore Effects Auth IdentityService IngestTheory NotificationRules NotificationDelivery.

Open Scope prog_scope.

Definition map_auth_error (e : AuthError) : NotificationError :=
  match e with
  | Forbidden | InvalidCredentials | InvalidCredential => NForbidden
  | ProjectDisabled => NProjectDisabled
  | ProjectDeletionPending => NProjectDeletionPending
  | ProjectPurging => NProjectPurging
  | ProjectDeletedError => NProjectDeleted
  | _ => NStorageUnavailable
  end.

Inductive AdminCall :=
| Authorize (context : AuthContext) (project_id : ProjectId)
| Audit (context : AuthContext) (request_id : str) (project_id : ProjectId) (action : AuditAction) (target_id : str)
| UpsertDestination (destination : NotificationDestination)
| UpsertRule (rule : AlertRule)
| DeleteDestination (project_id : ProjectId) (id : bytes)
| DeleteRule (project_id : ProjectId) (id : bytes)
| ListDestinations (project_id : ProjectId) (limit : Z)
| AdminListRules (project_id : ProjectId) (limit : Z)
| ListDeliveryHistory (project_id : ProjectId) (limit : Z)
| EnqueueDelivery (delivery : NotificationDelivery).
Definition admin_answer (c : AdminCall) : Type :=
  match c with
  | Authorize _ _ | Audit _ _ _ _ _ => result AuthError unit
  | ListDestinations _ _ => result NotificationStoreError (list NotificationDestination)
  | AdminListRules _ _ => result NotificationStoreError (list AlertRule)
  | ListDeliveryHistory _ _ => result NotificationStoreError (list NotificationDelivery)
  | _ => result NotificationStoreError unit
  end.
Definition AdminSig : signature := Signature AdminCall admin_answer.
Abbreviation administering A := (prog AdminSig (result NotificationError A)).
Definition admin_store {A} (p : prog AdminSig (result NotificationStoreError A)) : administering A :=
  map_err_p notification_store_error p.
Definition admin_call (c : AdminCall) : prog AdminSig (admin_answer c) := perform (E := AdminSig) c.
Definition authorize (context : AuthContext) (project_id : ProjectId) : administering unit :=
  map_err_p map_auth_error (admin_call (Authorize context project_id)).
Definition notification_audit (context : AuthContext) (request_id : str) (project_id : ProjectId) (action : AuditAction)
    (target_id : str) : administering unit :=
  map_err_p map_auth_error (admin_call (Audit context request_id project_id action target_id)).

Section admin.
Context {N : Type} `{!JsonPrint N, !JsonBuild N, !Blake3}.
Context (context : AuthContext) (request_id : str).

Definition put_destination (d : NotificationDestination) : administering unit :=
  _ ←? authorize context (nd_project_id d);
  _ ←? admin_store (admin_call (UpsertDestination d));
  notification_audit context request_id (nd_project_id d) NotificationDestinationUpserted (hex_encode (nd_id d)).
Definition put_rule (rule : AlertRule) : administering unit :=
  _ ←! map_err (λ _, NInvalidData) (rule_validate rule);
  _ ←? authorize context (al_project_id rule);
  _ ←? admin_store (admin_call (UpsertRule rule));
  notification_audit context request_id (al_project_id rule) AlertRuleUpserted (hex_encode (al_id rule)).
Definition delete_rule (project_id : ProjectId) (id : bytes) : administering unit :=
  _ ←? authorize context project_id;
  _ ←? admin_store (admin_call (DeleteRule project_id id));
  notification_audit context request_id project_id AlertRuleDeleted (hex_encode id).
Definition without_destination (rule : AlertRule) (id : bytes) : AlertRule :=
  {| al_id := al_id rule; al_project_id := al_project_id rule; al_name := al_name rule;
     al_enabled := al_enabled rule; al_triggers := al_triggers rule; al_aggregate := al_aggregate rule;
     al_monitor := al_monitor rule;
     al_destination_ids := List.filter (λ value, negb (bool_decide (value = id))) (al_destination_ids rule);
     al_cooldown_minutes := al_cooldown_minutes rule; al_storm_limit_per_hour := al_storm_limit_per_hour rule;
     al_next_evaluation_at := al_next_evaluation_at rule; al_last_triggered_at := al_last_triggered_at rule;
     al_storm_window_started_at := al_storm_window_started_at rule; al_storm_count := al_storm_count rule;
     al_threshold_met := al_threshold_met rule; al_created_at := al_created_at rule;
     al_updated_at := al_updated_at rule |}.
(** The loop of [delete_destination] over the rules. *)
Fixpoint detach_destination (project_id : ProjectId) (id : bytes) (rules : list AlertRule) : administering unit :=
  match rules with
  | [] => Ret (Ok tt)
  | rule :: rules =>
      if bool_decide (id ∈ al_destination_ids rule) then
        let rule := without_destination rule id in
        _ ←? (if is_empty (al_destination_ids rule)
              then admin_store (admin_call (DeleteRule project_id (al_id rule)))
              else admin_store (admin_call (UpsertRule rule)));
        detach_destination project_id id rules
      else detach_destination project_id id rules
  end.
Definition delete_destination (project_id : ProjectId) (id : bytes) : administering unit :=
  _ ←? authorize context project_id;
  rules ←? admin_store (admin_call (AdminListRules project_id EXPANSION_RULE_LIMIT));
  _ ←? detach_destination project_id id rules;
  _ ←? admin_store (admin_call (DeleteDestination project_id id));
  notification_audit context request_id project_id NotificationDestinationDeleted (hex_encode id).
Definition destinations (project_id : ProjectId) : administering (list NotificationDestination) :=
  _ ←? authorize context project_id;
  admin_store (admin_call (ListDestinations project_id EXPANSION_RULE_LIMIT)).
Definition rules (project_id : ProjectId) : administering (list AlertRule) :=
  _ ←? authorize context project_id;
  admin_store (admin_call (AdminListRules project_id EXPANSION_RULE_LIMIT)).
Definition delivery_history (project_id : ProjectId) : administering (list NotificationDelivery) :=
  _ ←? authorize context project_id;
  admin_store (admin_call (ListDeliveryHistory project_id 100)).

(** The first half of the digest is the transition and the rule of a test. *)
Definition test_transition_id (project_id : ProjectId) (destination_id : bytes) : bytes :=
  take 16 (blake3 (lit "metric/notification-test/v1" ++ be_bytes 4 project_id ++ destination_id ++ request_id)).
Definition enqueue_test (project_id : ProjectId) (destination_id : bytes) (now : Timestamp)
    : administering NotificationDelivery :=
  _ ←? authorize context project_id;
  found ←? admin_store (admin_call (ListDestinations project_id EXPANSION_RULE_LIMIT));
  if negb (existsb (λ d, bool_decide (nd_id d = destination_id) && nd_enabled d) (found : list NotificationDestination))
  then Ret (Err NInvalidData)
  else
    let transition_id := test_transition_id project_id destination_id in
    payload ←! payload_of (N := N)
      [("version"%string, json_int 1); ("type"%string, json_str (lit "test"));
       ("project_id"%string, json_int project_id); ("title"%string, json_str (lit "Metric test notification"));
       ("occurred_at_ms"%string, json_int now); ("rule_id"%string, json_str (hex_encode transition_id));
       ("destination_id"%string, json_str (hex_encode destination_id))];
    let delivery := pending_delivery (notification_delivery_id transition_id transition_id destination_id) project_id
                      transition_id transition_id transition_id destination_id payload now in
    _ ←? admin_store (admin_call (EnqueueDelivery delivery));
    Ret (Ok delivery).

(** ** Nothing happens before the authorization *)

(** The operations of the service, with the project they are about. *)
Inductive AdminOperation :=
| OpPutDestination (d : NotificationDestination) | OpPutRule (rule : AlertRule)
| OpDeleteRule (project_id : ProjectId) (id : bytes) | OpDeleteDestination (project_id : ProjectId) (id : bytes)
| OpDestinations (project_id : ProjectId) | OpRules (project_id : ProjectId) | OpHistory (project_id : ProjectId)
| OpTest (project_id : ProjectId) (id : bytes) (now : Timestamp).
Definition operation_project (op : AdminOperation) : ProjectId :=
  match op with
  | OpPutDestination d => nd_project_id d
  | OpPutRule rule => al_project_id rule
  | OpDeleteRule project_id _ | OpDeleteDestination project_id _ | OpDestinations project_id | OpRules project_id
  | OpHistory project_id | OpTest project_id _ _ => project_id
  end.
Definition run_operation (op : AdminOperation) : administering unit :=
  let quiet {A} (p : administering A) : administering unit := p ≫= λ r, Ret (match r with Ok _ => Ok tt | Err e => Err e end) in
  match op with
  | OpPutDestination d => put_destination d
  | OpPutRule rule => put_rule rule
  | OpDeleteRule project_id id => delete_rule project_id id
  | OpDeleteDestination project_id id => delete_destination project_id id
  | OpDestinations project_id => quiet (destinations project_id)
  | OpRules project_id => quiet (rules project_id)
  | OpHistory project_id => quiet (delivery_history project_id)
  | OpTest project_id id now => quiet (enqueue_test project_id id now)
  end.
(** The project whose data a call reads or changes. *)
Definition call_project (c : AdminCall) : ProjectId :=
  match c with
  | Authorize _ p | Audit _ _ p _ _ | DeleteDestination p _ | DeleteRule p _ | ListDestinations p _ | AdminListRules p _
  | ListDeliveryHistory p _ => p
  | UpsertDestination d => nd_project_id d
  | UpsertRule rule => al_project_id rule
  | EnqueueDelivery d => dl_project_id d
  end.
Definition authorized (p : ProjectId) (h : list (event AdminSig)) : Prop :=
  answered (E := AdminSig) (Authorize context p) (Ok tt) h.
Definition admin_allowed (p : ProjectId) (h : list (event AdminSig)) (c : AdminCall) : Prop :=
  match c with
  | Authorize _ _ => call_project c = p
  | UpsertRule rule => authorized p h ∧ ((∃ rules limit, answered (E := AdminSig) (AdminListRules p limit) (Ok rules) h
      ∧ ∃ rule0 id, rule0 ∈ rules ∧ rule = without_destination rule0 id) ∨ (call_project c = p ∧ rule_validate rule = Ok tt))
  | _ => authorized p h ∧ call_project c = p
  end.

Lemma authorize_allowed {A} (guar : list (event AdminSig) → AdminCall → Prop) (post : list (event AdminSig) → result NotificationError A → Prop)
    p (k : unit → administering A) :
  guar [] (Authorize context p) → (∀ e, post [existT (Authorize context p) (Err e)] (Err (map_auth_error e))) →
  sat guar post [existT (Authorize context p) (Ok tt)] (k tt) →
  sat guar post [] (attempt (authorize context p) k).
Proof. intros Hg He Hk. split; [done|]. intros [[]|e]; cbn; [done|apply He]. Qed.
Definition done_authorized (p : ProjectId) (h : list (event AdminSig)) (r : result NotificationError unit) : Prop :=
  match r with Ok _ => authorized p h | Err _ => True end.

Lemma authorized_snoc p h e : authorized p h → authorized p (h ++ [e]).
Proof. intros Ha. apply elem_of_app. by left. Qed.
Lemma listed_snoc p h e limit rules : answered (E := AdminSig) (AdminListRules p limit) (Ok rules) h →
  answered (E := AdminSig) (AdminListRules p limit) (Ok rules) (h ++ [e]).
Proof. intros Ha. apply elem_of_app. by left. Qed.
Lemma detach_allowed p id listed limit rules : rules ⊆ listed → ∀ h, authorized p h →
  answered (E := AdminSig) (AdminListRules p limit) (Ok listed) h →
  sat (admin_allowed p) (λ h' _, authorized p h') h (detach_destination p id rules).
Proof.
  intros Hsub h. revert h. induction rules as [|rule rules IH]; intros h Ha Hl; cbn [detach_destination]; [done|].
  assert (rules ⊆ listed) as Hsub' by (intros x ?; apply Hsub; by apply list_elem_of_further).
  case_bool_decide; [|by apply IH]. unfold attempt. apply sat_bind.
  destruct (is_empty (al_destination_ids (without_destination rule id))).
  - split; [by split|]. intros [u|e]; cbn; [|by apply authorized_snoc].
    apply IH; [done|by apply authorized_snoc|by apply listed_snoc].
  - split.
    + split; [done|]. left. exists listed, limit. split; [done|]. exists rule, id. split; [apply Hsub, list_elem_of_here|done].
    + intros [u|e]; cbn; [|by apply authorized_snoc]. apply IH; [done|by apply authorized_snoc|by apply listed_snoc].
Qed.
End admin.

Ltac here := repeat first [apply list_elem_of_here | apply list_elem_of_further].
Ltac admin_guard := first [done | split; [solve [here]|done] | split; [solve [here]|by right] | solve [here]].
(** One call: its guard, then its two answers. *)
Ltac admin_step := cbn; first [done | solve [here] | split; [solve [admin_guard]|intros [?|?]; repeat match goal with u : () |- _ => destruct u end]].

(** Whatever the stores answer, an operation of the administration reaches the
    stores of notifications only after its project was found and the caller
    authorized, and an operation that is done was authorized. *)
Theorem admin_authorized_first {N : Type} `{!JsonPrint N, !JsonBuild N, !Blake3} context request_id op :
  sat (admin_allowed context (operation_project op)) (done_authorized context (operation_project op)) []
    (run_operation (N := N) context request_id op).
Proof.
  destruct op as [d|rule|p id|p id|p|p|p|p id now]; cbn [run_operation operation_project].
  - repeat admin_step.
  - unfold put_rule. destruct (rule_validate rule) as [[]|] eqn:Hv; [|done]. repeat admin_step.
  - repeat admin_step.
  - apply authorize_allowed; [done|done|]. split; [admin_guard|]. intros [listed|e]; cbn; [|done].
    apply sat_attempt. eapply sat_mono; [done| |eapply (detach_allowed context p id listed); [done|here|here]].
    intros h [[]|e] Ha; [|done]. split; [by split|]. intros [u|e]; cbn; [|done].
    split; [split; [by apply authorized_snoc|done]|]. intros [[]|e]; cbn; [by do 2 apply authorized_snoc|done].
  - repeat admin_step.
  - repeat admin_step.
  - repeat admin_step.
  - admin_step. 2:{ done. } admin_step; [|done]. cbn. destruct (existsb _ _); cbn; [|done].
    destruct (payload_of _); cbn; [|done]. repeat admin_step.
Qed.
