(* ===== verification/Search.v ===== *)
(** * Search over events

    [application/src/search.rs]: a query of the text language over the errors of a project.
    The store is asked for the candidates of a few branches, each with an anchor
    that the events it is to find satisfy; the expression is tested on each
    candidate and a page is cut.  Cursors are texts bound to the project, the query
    and the kind of page. *)
From stdpp Require Import base list numbers strings sets sorting.
From Stdlib Require Import ZArith Lia.
From S2P Require Import Prelude External Primitives Identity Event Normalizer JsonValue Finalizer Explore Query Signals Effects IngestTheory.

Open Scope prog_scope.

(** ** Values *)

Inductive SearchStorageAnchor :=
| ProjectTimeline | AnchorEvent (key : bytes) | AnchorIssue (id : bytes) | AnchorToken (token : Z).
Record SearchStorageBranch := { sb_anchor : SearchStorageAnchor; sb_from : Timestamp; sb_until : Timestamp }.
Record EventAnchor := { ea_occurred_at : Timestamp; ea_event_key : bytes }.
Record SearchStorageQuery := {
  sq_branches : list SearchStorageBranch;
  sq_before : option EventAnchor;
  sq_candidate_limit : Z;
}.
Record EventView := {
  ev_key : bytes;
  ev_issue_id : bytes;
  ev_received_at : Timestamp;
  ev_occurred_at : Timestamp;
  ev_level : EventLevel;
  ev_platform : EventPlatform;
  ev_payload : bytes;
}.
Record EventPage := { ep_items : list EventView; ep_next : option EventAnchor; ep_candidates_examined : Z }.

Definition MAX_CANDIDATES : Z := 10000.
Definition SEARCH_DAY_MILLIS : Z := 86400000.
Definition DEFAULT_RANGE_MILLIS : Z := SEARCH_DAY_MILLIS.
Definition SEARCH_MAX_RANGE_MILLIS : Z := 30 * SEARCH_DAY_MILLIS.
Definition DEFAULT_QUERY_ROWS : Z := 50.
Definition MAX_QUERY_ROWS : Z := 500.
Record SearchConfig := { sh_timeout : duration; sh_max_candidates : Z }.
Definition search_default : SearchConfig :=
  {| sh_timeout := 2000 * NANOS_PER_MILLI; sh_max_candidates := MAX_CANDIDATES |}.
Inductive SearchError :=
| SeSyntax | SeFieldNotIndexed | SeLimitExceeded | SePositiveAnchorRequired | SeInvalidCursor | SeTooBroad
| SeNotFoundError | SeUnavailableError | SeInvalidDataError.
Definition search_error_code (e : SearchError) : str :=
  lit match e with
      | SeSyntax => "query_syntax_invalid"
      | SeFieldNotIndexed => "query_capability_unavailable"
      | SeLimitExceeded => "query_limit_exceeded"
      | SePositiveAnchorRequired => "query_requires_positive_anchor"
      | SeInvalidCursor => "invalid_cursor"
      | SeTooBroad => "query_too_broad"
      | SeNotFoundError => "not_found"
      | SeUnavailableError | SeInvalidDataError => "query_unavailable"
      end.
Inductive InvestigationStoreError := IsNotFound | IsInvalidData | IsUnavailable.
Definition search_store_error (e : InvestigationStoreError) : SearchError :=
  match e with
  | IsNotFound => SeNotFoundError | IsInvalidData => SeInvalidDataError | IsUnavailable => SeUnavailableError
  end.
Definition search_new (c : SearchConfig) : result SearchError unit :=
  if (sh_timeout c =? 0) || negb (in_range 1 MAX_CANDIDATES (sh_max_candidates c)) then Err SeLimitExceeded else Ok tt.
Record SearchResultPage := {
  sp_items : list EventView;
  sp_next_cursor : option str;
  sp_candidates_examined : Z;
}.

Definition timestamp_saturating_add (t : Timestamp) (millis : Z) : Timestamp :=
  match from_unix_millis (sat_i64 (t + millis)) with Ok t' => t' | Err _ => t end.
Definition timestamp_saturating_sub (t : Timestamp) (millis : Z) : Timestamp :=
  match from_unix_millis (sat_i64 (t - millis)) with Ok t' => t' | Err _ => t end.
Definition error_time_range (now : Timestamp) (from until : option Timestamp) : result SearchError (Timestamp * Timestamp) :=
  let until := unwrap_or (timestamp_saturating_add now 1) until in
  let from := unwrap_or (timestamp_saturating_sub until DEFAULT_RANGE_MILLIS) from in
  if (until <=? from) || (SEARCH_MAX_RANGE_MILLIS <? sat_i64 (until - from)) then Err SeLimitExceeded
  else Ok (from, until).

(** ** Cursors *)

Inductive CursorKind := CIssue | CEvent | CActivity | CRelease | CEnvironment | CFeedback | CMonitorRun | CReplay.
Definition cursor_kind_byte (kind : CursorKind) : Z :=
  match kind with
  | CIssue => 1 | CEvent => 2 | CActivity => 3 | CRelease => 4 | CEnvironment => 5 | CFeedback => 6
  | CMonitorRun => 7 | CReplay => 8
  end.
(** [None] is the [expect] on the length of the identifier. *)
Definition encode_cursor (kind : CursorKind) (timestamp : Timestamp) (id digest : bytes) : option str :=
  n ← checked 0 U8_MAX (len id);
  Some (hex_encode ([1; cursor_kind_byte kind] ++ be_bytes 8 timestamp ++ [n] ++ id ++ digest)).
Definition decode_cursor (encoded : str) (kind : CursorKind) (id_len : nat) (digest : bytes)
    : result SearchError (Timestamp * bytes) :=
  if 128 <? len encoded then Err SeInvalidCursor
  else
    value ← ok_or SeInvalidCursor (hex_decode encoded);
    if negb (length value =? 27 + id_len)%nat || negb (bool_decide (value !! 0%nat = Some 1))
       || negb (bool_decide (value !! 1%nat = Some (cursor_kind_byte kind)))
       || negb (bool_decide (value !! 10%nat = Some (Z.of_nat id_len)))
       || negb (bool_decide (drop (11 + id_len) value = digest))
    then Err SeInvalidCursor
    else
      timestamp ← map_err (λ _, SeInvalidCursor) (from_unix_millis (be_signed 8 (take 8 (drop 2 value))));
      Ok (timestamp, take id_len (drop 11 value)).
Definition decode_event_cursor (encoded : str) (digest : bytes) : result SearchError EventAnchor :=
  '(occurred_at, id) ← decode_cursor encoded CEvent 20 digest;
  key ← map_err (λ _, SeInvalidCursor) (event_key_from_bytes id);
  Ok {| ea_occurred_at := occurred_at; ea_event_key := key |}.

Section digest.
Context `{!Blake3}.
Definition cursor_input (project_id : ProjectId) (normalized : str) (kind : CursorKind) : bytes :=
  lit "metric/api-cursor/v1" ++ [cursor_kind_byte kind] ++ be_bytes 4 project_id ++ be_bytes 8 (len normalized) ++ normalized.
Definition cursor_digest (project_id : ProjectId) (normalized : str) (kind : CursorKind) : bytes :=
  take 16 (blake3 (cursor_input project_id normalized kind)).
End digest.

(** ** Branches *)

Definition parse_hex_16 (value : str) : option bytes :=
  if negb (len value =? 32) || negb (forallb is_ascii_hexdigit value) then None else hex_decode value.

Section search.
Context {N : Type} `{!JsonApi N, !Blake3, !Rfc3339Api}.
Abbreviation Value := (JValue N).

Fixpoint guaranteed_anchor (project_id : ProjectId) (e : QueryExpression) : option SearchStorageAnchor :=
  match e with
  | QPredicate p =>
      if bool_decide (qp_operator p = QEqual) then
        match qp_field p with
        | QEventId =>
            match event_id_parse (qp_value p) with
            | Ok value => Some (AnchorEvent (event_key_new project_id value)) | Err _ => None
            end
        | QIssueId => AnchorIssue <$> parse_hex_16 (qp_value p)
        | QEnvironment => Some (AnchorToken (token_environment (qp_value p)))
        | QRelease => Some (AnchorToken (token_release (qp_value p)))
        | QUserId => Some (AnchorToken (token_user_id (qp_value p)))
        | _ => None
        end
      else None
  | QAnd values =>
      (fix find_map (values : list QueryExpression) :=
         match values with
         | [] => None
         | value :: values =>
             match guaranteed_anchor project_id value with Some anchor => Some anchor | None => find_map values end
         end) values
  | QNot _ | QOr _ => None
  end.
Definition branch_expressions (e : option QueryExpression) : list QueryExpression :=
  match e with Some (QOr values) => values | Some value => [value] | None => [] end.
Definition storage_branches (project_id : ProjectId) (e : option QueryExpression) (from until : Timestamp)
    : list SearchStorageBranch :=
  let expressions := branch_expressions e in
  if is_empty expressions then [{| sb_anchor := ProjectTimeline; sb_from := from; sb_until := until |}]
  else map (λ value, {| sb_anchor := unwrap_or ProjectTimeline (guaranteed_anchor project_id value);
                        sb_from := from; sb_until := until |}) expressions.

(** ** The test of a candidate *)

Definition search_parse_timestamp (value : str) : option Z :=
  option_or (parse_i64 value) (nanos ← rfc3339_nanos value; checked_i64 (nanos / 1000000)).
Definition compare_i64 (left right : Z) (o : QueryOperator) : bool :=
  match o with
  | QEqual => left =? right | QGreater => right <? left | QGreaterOrEqual => right <=? left
  | QLess => left <? right | QLessOrEqual => left <=? right | QContains => false
  end.
Definition as_str (v : Value) : option str := match v with JString s => Some s | _ => None end.
Definition payload_text (payload : Value) (key : string) : str := unwrap_or [] (v ← get payload key; as_str v).
Definition payload_user_id (payload : Value) : str :=
  match user ← get payload "user"; get user "id" with
  | Some (JString value) => value
  | Some (JNumber value) => number_to_string value
  | _ => []
  end.
(** What the predicate's value is compared with, or the answer at once. *)
Definition predicate_candidate (p : QueryPredicate) (event : EventView) (payload : Value) : bool + str :=
  match qp_field p with
  | QEventId => inr (id_to_string (event_key_event_id (ev_key event)))
  | QIssueId => inr (id_to_string (ev_issue_id event))
  | QTimestamp =>
      inl (is_some_and (λ value, compare_i64 (ev_occurred_at event) value (qp_operator p))
             (search_parse_timestamp (qp_value p)))
  | QLevel => inr (level_as_str (ev_level event))
  | QPlatform => inr (platform_as_str (ev_platform event))
  | QEnvironment => inr (payload_text payload "environment")
  | QRelease => inr (payload_text payload "release")
  | QUserId => inr (payload_user_id payload)
  | _ => inl false
  end.
Definition matches_predicate (p : QueryPredicate) (event : EventView) (payload : Value) : bool :=
  match predicate_candidate p event payload with
  | inl answer => answer
  | inr candidate => bool_decide (qp_operator p = QEqual) && bool_decide (candidate = qp_value p)
  end.
Fixpoint matches_expression (e : QueryExpression) (event : EventView) (payload : Value) : bool :=
  match e with
  | QPredicate p => matches_predicate p event payload
  | QNot value => negb (matches_expression value event payload)
  | QAnd values => forallb (λ value, matches_expression value event payload) values
  | QOr values => existsb (λ value, matches_expression value event payload) values
  end.
Definition matches_event (e : option QueryExpression) (event : EventView) : result SearchError bool :=
  match e with
  | None => Ok true
  | Some e =>
      payload ← ok_or SeInvalidDataError (json_from_slice (ev_payload event));
      Ok (matches_expression e event payload)
  end.

(** ** The search *)

Inductive SearchCall := ShClockNow | SearchCandidates (timeout : duration) (project_id : ProjectId) (q : SearchStorageQuery).
(** [None]: the timeout elapsed. *)
Definition search_answer (c : SearchCall) : Type :=
  match c with
  | ShClockNow => Timestamp
  | SearchCandidates _ _ _ => option (result InvestigationStoreError EventPage)
  end.
Definition SearchSig : signature := Signature SearchCall search_answer.
Abbreviation searching A := (prog SearchSig (result SearchError A)).

(** The loop over the candidates: it stops with one match more than the page has. *)
Fixpoint collect_matches (e : option QueryExpression) (page_size : Z) (matches : list EventView) (items : list EventView)
    : result SearchError (list EventView) :=
  match items with
  | [] => Ok matches
  | event :: items =>
      matched ← matches_event e event;
      if matched : bool then
        let matches := matches ++ [event] in
        if page_size <? len matches then Ok matches else collect_matches e page_size matches items
      else collect_matches e page_size matches items
  end.
Definition range_text (normalized : str) (from until : Timestamp) : str :=
  normalized ++ lit "|from:" ++ to_dec from ++ lit "|until:" ++ to_dec until.
Definition result_page (c : SearchConfig) (e : option QueryExpression) (page_size : Z) (digest : bytes)
    (candidates : EventPage) : result SearchError SearchResultPage :=
  matches ← collect_matches e page_size [] (ep_items candidates);
  if (len matches <=? page_size) && (sh_max_candidates c <=? ep_candidates_examined candidates) then Err SeTooBroad
  else
    let has_more := page_size <? len matches in
    let matches := take (Z.to_nat page_size) matches in
    Ok {| sp_items := matches;
          sp_next_cursor := (if has_more then event ← last matches;
                                              encode_cursor CEvent (ev_occurred_at event) (ev_key event) digest
                             else None);
          sp_candidates_examined := ep_candidates_examined candidates |}.
Definition search (c : SearchConfig) (project_id : ProjectId) (parsed : ParsedQuery) (from until : option Timestamp)
    (cursor : option str) (limit : option Z) : searching SearchResultPage :=
  if negb (bool_decide (pq_source parsed = QErrors)) then Ret (Err SeFieldNotIndexed)
  else
    let page_size := unwrap_or DEFAULT_QUERY_ROWS limit in
    if negb (in_range 1 MAX_QUERY_ROWS page_size) then Ret (Err SeLimitExceeded)
    else
      now ← perform (E := SearchSig) ShClockNow;
      range ←! error_time_range now from until;
      let from := range.1 in
      let until := range.2 in
      let digest := cursor_digest project_id (range_text (pq_normalized parsed) from until) CEvent in
      before ←! match cursor with
                | Some value => Some <$> decode_event_cursor value digest
                | None => Ok None
                end;
      let branches := storage_branches project_id (pq_expression parsed) from until in
      let query := {| sq_branches := branches; sq_before := before; sq_candidate_limit := sh_max_candidates c |} in
      answer ← perform (E := SearchSig) (SearchCandidates (sh_timeout c) project_id query);
      candidates ←! match (answer : option (result InvestigationStoreError EventPage)) with
                    | Some r => map_err search_store_error r
                    | None => Err SeTooBroad
                    end;
      Ret (result_page c (pq_expression parsed) page_size digest candidates).
End search.

(** ** Cursors are read back *)

Section cursors.
Context (kind : CursorKind) (digest : bytes).

Lemma cursor_kind_is_byte : is_byte (cursor_kind_byte kind).
Proof. by destruct kind. Qed.
Lemma be_signed_timestamp t : timestamp_valid t → be_signed 8 (be_bytes 8 t) = t.
Proof.
  unfold timestamp_valid, MIN_TIMESTAMP_MILLIS, MAX_TIMESTAMP_MILLIS. intros Ht. apply be_signed_be_bytes; [lia|].
  change (256 ^ Z.of_nat 8 / 2) with 9223372036854775808. lia.
Qed.
Lemma hex_decode_is_byte s : ∀ bs, hex_decode s = Some bs → Forall is_byte bs.
Proof.
  induction s as [|h|h l s IH] using two_step; intros bs E; [by injection E as <-|done|].
  cbn [hex_decode] in E. destruct (digit_value h) as [a|] eqn:Eh; [|done].
  destruct (digit_value l) as [b|] eqn:El; [|done].
  destruct (hex_decode s) as [r|] eqn:Er; [|done]. injection E as <-.
  apply hex_digit_of_value in Eh as [Ha _], El as [Hb _]. constructor; [unfold is_byte; lia|by apply IH].
Qed.
Definition cursor_bytes (t : Timestamp) (id : bytes) : bytes :=
  [1; cursor_kind_byte kind] ++ be_bytes 8 t ++ [len id] ++ id ++ digest.
Lemma cursor_bytes_shape t id : length digest = 16%nat →
  length (cursor_bytes t id) = (27 + length id)%nat ∧ take 8 (drop 2 (cursor_bytes t id)) = be_bytes 8 t
  ∧ cursor_bytes t id !! 10%nat = Some (len id) ∧ take (length id) (drop 11 (cursor_bytes t id)) = id
  ∧ drop (11 + length id) (cursor_bytes t id) = digest.
Proof.
  intros digest_length. unfold cursor_bytes. cbn [be_bytes]. cbn [app]. split_and!; try done.
  - cbn [length]. rewrite length_app, digest_length. lia.
  - cbn [drop]. apply take_app_length.
  - cbn [Nat.add drop]. apply drop_app_length.
Qed.
(** What the tests of [decode_cursor] say of the bytes. *)
Lemma cursor_bytes_unique value id_len : length value = (27 + id_len)%nat → Forall is_byte value →
  value !! 0%nat = Some 1 → value !! 1%nat = Some (cursor_kind_byte kind) → value !! 10%nat = Some (Z.of_nat id_len) →
  drop (11 + id_len) value = digest →
  length (take id_len (drop 11 value)) = id_len
  ∧ value = cursor_bytes (be_signed 8 (take 8 (drop 2 value))) (take id_len (drop 11 value)).
Proof.
  intros Hl Hb H0 H1 H10 Hd. assert (length (take id_len (drop 11 value)) = id_len) as Hid.
  { rewrite length_take, length_drop. lia. }
  split; [done|]. unfold cursor_bytes. unfold len. rewrite Hid.
  rewrite (be_signed_id 8); [|lia|rewrite length_take, length_drop; lia|by apply Forall_take, Forall_drop].
  do 11 (destruct value as [|? value]; [cbn in Hl; lia|]). cbn in H0, H1, H10. cbn [Nat.add drop] in Hd. simplify_eq. cbn [take drop app].
  by rewrite drop_0, take_drop.
Qed.
Lemma encode_cursor_bytes t (id : bytes) : (length id ≤ 37)%nat →
  encode_cursor kind t id digest = Some (hex_encode (cursor_bytes t id)).
Proof. intros. unfold encode_cursor. rewrite checked_exact by (unfold len, U8_MAX; lia). done. Qed.
End cursors.

Lemma decode_encoded_cursor kind digest id_len t id encoded :
  length digest = 16%nat → Forall is_byte digest → length id = id_len → (id_len ≤ 37)%nat →
  Forall is_byte id → timestamp_valid t → encode_cursor kind t id digest = Some encoded →
  decode_cursor encoded kind id_len digest = Ok (t, id).
Proof.
  intros Hdl Hdb Hid Hmax Hb Hv. rewrite encode_cursor_bytes by lia.
  destruct (cursor_bytes_shape kind digest t id Hdl) as (Hlen & Ht & Hn & Hi & Hd).
  intros He. assert (encoded = hex_encode (cursor_bytes kind digest t id)) as -> by congruence.
  clear He. unfold decode_cursor.
  assert (Forall is_byte (cursor_bytes kind digest t id)) as Hall.
  { unfold cursor_bytes. rewrite !Forall_app. split_and!; [|apply be_bytes_is_byte| |done|done].
    - constructor; [done|]. constructor; [apply cursor_kind_is_byte|constructor].
    - apply Forall_singleton. unfold is_byte, len. lia. }
  assert ((128 <? len (hex_encode (cursor_bytes kind digest t id))) = false) as ->
    by (apply Z.ltb_ge; unfold len; rewrite length_hex_encode; lia).
  rewrite hex_decode_encode by done. cbn [ok_or mbind result_bind]. subst id_len.
  rewrite Hlen, Hn, Hd, Hi, Ht, Nat.eqb_refl. rewrite !bool_decide_eq_true_2 by done. cbn [negb orb].
  rewrite be_signed_timestamp, from_unix_millis_valid by done. done.
Qed.

(** ** What a store answers, and what a search is to find *)

Definition older (a : EventAnchor) (ev : EventView) : bool :=
  (ev_occurred_at ev <? ea_occurred_at a)
  || ((ev_occurred_at ev =? ea_occurred_at a) && str_ltb (ev_key ev) (ea_event_key a)).
Definition anchor_of (ev : EventView) : EventAnchor := {| ea_occurred_at := ev_occurred_at ev; ea_event_key := ev_key ev |}.
Definition older_than (before : option EventAnchor) (ev : EventView) : bool := is_none_or (λ a, older a ev) before.
Definition newest_first (events : list EventView) : Prop := StronglySorted (λ x y, older (anchor_of x) y = true) events.

Lemma key_ltb_irrefl s : str_ltb s s = false.
Proof. induction s as [|b s IH]; [done|]. cbn. by rewrite Z.ltb_irrefl, Z.eqb_refl, IH. Qed.
Lemma older_trans a x y : older a x = true → older (anchor_of x) y = true → older a y = true.
Proof.
  unfold older, anchor_of. cbn [ea_occurred_at ea_event_key]. rewrite !orb_true_iff, !andb_true_iff, !Z.ltb_lt, !Z.eqb_eq.
  intros [H1|[H1 K1]] [H2|[H2 K2]]; try (left; lia). right. split; [lia|]. by eapply str_ltb_trans.
Qed.
Lemma older_asym x y : older (anchor_of x) y = true → older (anchor_of y) x = false.
Proof.
  intros Hxy. apply not_true_iff_false. intros Hyx. pose proof (older_trans _ _ _ Hxy Hyx) as H. unfold older in H. cbn in H.
  rewrite Z.ltb_irrefl, key_ltb_irrefl, andb_false_r in H. done.
Qed.
Lemma newest_first_filter p events : newest_first events → newest_first (List.filter p events).
Proof.
  unfold newest_first. induction 1 as [|x l Hl IH Hx]; [constructor|]. cbn. destruct (p x); [|done]. constructor; [done|].
  rewrite Forall_forall in Hx |- *. intros y Hy. apply list_elem_of_In, filter_In in Hy as [Hy _]. by apply Hx, list_elem_of_In.
Qed.
(** What is older than an element of the list is what follows it. *)
Lemma older_drops l k x : newest_first l → l !! k = Some x → List.filter (older (anchor_of x)) l = drop (S k) l.
Proof.
  revert k. induction l as [|y l IH]; intros [|k] Hs Hk; [done|done|..]; apply StronglySorted_inv in Hs as [Hs Hy]; cbn in Hk.
  - injection Hk as <-. cbn [List.filter drop]. rewrite drop_0.
    assert (older (anchor_of y) y = false) as -> by (unfold older; cbn; by rewrite Z.ltb_irrefl, key_ltb_irrefl, andb_false_r).
    rewrite Forall_forall in Hy. clear -Hy. induction l as [|z l IH]; [done|]. cbn. rewrite Hy by apply list_elem_of_here.
    f_equal. apply IH. intros w Hw. apply Hy. by apply list_elem_of_further.
  - cbn [List.filter drop]. rewrite Forall_forall in Hy. rewrite (older_asym y x); [by apply IH|].
    apply Hy. by eapply list_elem_of_lookup_2.
Qed.
Lemma filter_take_prefix {A} (p : A → bool) n l : List.filter p (take n l) `prefix_of` List.filter p l.
Proof.
  exists (List.filter p (drop n l)). by rewrite <- List.filter_app, take_drop.
Qed.

Section exact.
Context {N : Type} `{!JsonApi N, !Blake3, !Rfc3339Api}.
Context (tokens : EventView → list Z) (project_id : ProjectId).

Definition anchor_holds (anchor : SearchStorageAnchor) (ev : EventView) : bool :=
  match anchor with
  | ProjectTimeline => true
  | AnchorEvent key => bool_decide (ev_key ev = key)
  | AnchorIssue id => bool_decide (ev_issue_id ev = id)
  | AnchorToken token => bool_decide (token ∈ tokens ev)
  end.
Definition in_branch (ev : EventView) (b : SearchStorageBranch) : bool :=
  (sb_from b <=? ev_occurred_at ev) && (ev_occurred_at ev <? sb_until b) && anchor_holds (sb_anchor b) ev.
(** The events of the project are stored newest first; the store answers with the
    first of those in some branch that are older than the cursor. *)
Definition store_page (events : list EventView) (q : SearchStorageQuery) : EventPage :=
  let items := take (Z.to_nat (sq_candidate_limit q))
    (List.filter (λ ev, older_than (sq_before q) ev && existsb (in_branch ev) (sq_branches q)) events) in
  {| ep_items := items; ep_next := None; ep_candidates_examined := len items |}.
(** An event as the finalizer stores it: its payload is read, and its tokens are
    those of what the payload says ([Finalizer.search_tokens]). *)
Definition indexed (ev : EventView) : Prop :=
  event_key_valid (ev_key ev) ∧ event_key_project_id (ev_key ev) = Some project_id ∧ id16_valid (ev_issue_id ev)
  ∧ ∃ payload : JValue N, json_from_slice (ev_payload ev) = Some payload
    ∧ (payload_text payload "environment" ≠ [] → token_environment (payload_text payload "environment") ∈ tokens ev)
    ∧ (payload_text payload "release" ≠ [] → token_release (payload_text payload "release") ∈ tokens ev)
    ∧ (payload_user_id payload ≠ [] → token_user_id (payload_user_id payload) ∈ tokens ev).
Definition values_present (e : QueryExpression) : Prop := Forall (λ p, qp_value p ≠ []) (collect_predicates e).
Definition event_matches (e : option QueryExpression) (ev : EventView) : bool :=
  match matches_event e ev with Ok b => b | Err _ => false end.
(** What a search is to find: the events of the range that are older than the
    cursor and match. *)
Definition found (events : list EventView) (e : option QueryExpression) (from until : Timestamp)
    (before : option EventAnchor) : list EventView :=
  List.filter (λ ev, (from <=? ev_occurred_at ev) && (ev_occurred_at ev <? until) && older_than before ev && event_matches e ev) events.

Lemma hex_parsed_id (id value v : bytes) : id16_valid id → parse_hex_identifier value = Some v → hex_encode id = value → v = id.
Proof.
  intros [Hl Hb] Hp <-. unfold parse_hex_identifier in Hp. destruct (_ || _); [done|].
  rewrite hex_decode_encode in Hp by done. by injection Hp.
Qed.
(** An event that matches an expression satisfies its anchor. *)
Lemma anchor_sound e ev payload anchor : indexed ev → json_from_slice (ev_payload ev) = Some payload → values_present e →
  guaranteed_anchor project_id e = Some anchor → matches_expression (N := N) e ev payload = true → anchor_holds anchor ev = true.
Proof.
  intros (Hk & Hp & Hi & payload' & Hj & He & Hr & Hu) Hj' . rewrite Hj in Hj'. injection Hj' as ->.
  induction e as [p|e IH|es IH|es IH] using query_expression_ind; cbn [guaranteed_anchor matches_expression]; intros Hv; try done.
  - unfold values_present in Hv. cbn [collect_predicates] in Hv. rewrite Forall_singleton in Hv. case_bool_decide as Ho; [|done]. unfold matches_predicate, predicate_candidate.
    intros Ha Hm. destruct (qp_field p); try done; apply andb_true_iff in Hm as [_ Hm%bool_decide_eq_true].
    + unfold event_id_parse in Ha. destruct (parse_hex_identifier (qp_value p)) as [v|] eqn:Ev; [|done]. injection Ha as <-.
      cbn [anchor_holds]. apply bool_decide_eq_true. destruct event_key_roundtrip as [_ Hkey]. destruct (Hkey _ Hk) as (q & Hq & Hnew).
      rewrite Hp in Hq. injection Hq as <-. rewrite <- Hnew at 1. apply (f_equal (event_key_new project_id)). symmetry. eapply hex_parsed_id; [|exact Ev|exact Hm].
      destruct Hk as (Hl & Hb & _). split; [unfold event_key_event_id; rewrite length_drop; lia|by apply Forall_drop].
    + destruct (parse_hex_16 (qp_value p)) as [v|] eqn:Ev; [|done]. injection Ha as <-. cbn. apply bool_decide_eq_true. symmetry.
      by eapply hex_parsed_id.
    + injection Ha as <-. cbn. rewrite <- Hm in *. apply bool_decide_eq_true. auto.
    + injection Ha as <-. cbn. rewrite <- Hm in *. apply bool_decide_eq_true. auto.
    + injection Ha as <-. cbn. rewrite <- Hm in *. apply bool_decide_eq_true. auto.
  - unfold values_present in Hv. cbn [collect_predicates] in Hv. revert Hv. induction IH as [|e es He1 _ IHes]; [done|].
    cbn [map concat]. rewrite Forall_app. intros [Hv1 Hv2] Ha. cbn [forallb]. intros [Hm1 Hm2]%andb_true_iff.
    destruct (guaranteed_anchor project_id e) as [a|]; [injection Ha as ->; by apply He1|]. by apply IHes.
Qed.

Lemma collect_matches_spec e page_size items : ∀ matches,
  Forall (λ ev, matches_event e ev = Ok (event_matches e ev)) items → len matches ≤ page_size →
  collect_matches e page_size matches items
  = Ok (take (S (Z.to_nat page_size)) (matches ++ List.filter (event_matches e) items)).
Proof.
  induction items as [|ev items IH]; intros matches Hall Hl; cbn [collect_matches List.filter].
  { rewrite app_nil_r, take_ge; [done|]. unfold len in Hl. lia. }
  apply Forall_cons in Hall as [-> Hall]. cbn [mbind result_bind]. destruct (event_matches e ev); [|by apply IH].
  destruct (Z.ltb_spec page_size (len (matches ++ [ev]))) as [Hp|Hp].
  - rewrite len_app in Hp. change (len [ev]) with 1 in Hp. rewrite (cons_middle ev matches (List.filter _ items)), (app_assoc matches [ev]).
    rewrite take_app_le by (rewrite length_app; cbn; unfold len in *; lia).
    rewrite take_ge by (rewrite length_app; cbn; unfold len in *; lia). done.
  - rewrite IH by done. by rewrite <- app_assoc.
Qed.
Lemma prefix_take {A} (l1 l2 : list A) n : l1 `prefix_of` l2 → (n ≤ length l1)%nat → take n l1 = take n l2.
Proof. intros [k ->] Hn. by rewrite take_app_le. Qed.
Definition search_query (c : SearchConfig) (e : option QueryExpression) (from until : Timestamp)
    (before : option EventAnchor) : SearchStorageQuery :=
  {| sq_branches := storage_branches project_id e from until; sq_before := before;
     sq_candidate_limit := sh_max_candidates c |}.

Lemma branches_range e from until b : b ∈ storage_branches project_id e from until → sb_from b = from ∧ sb_until b = until.
Proof.
  unfold storage_branches. destruct (is_empty _); [by intros ->%list_elem_of_singleton|].
  intros (value & -> & _)%list_elem_of_fmap. done.
Qed.
Lemma indexed_decodes e ev : indexed ev → matches_event e ev = Ok (event_matches e ev).
Proof.
  intros (_ & _ & _ & payload & Hj & _). unfold event_matches, matches_event. destruct e; [|done]. by rewrite Hj.
Qed.
(** Among the events that match, the branches select exactly the range. *)
Lemma branches_cover e from until ev : indexed ev → (∀ x, e = Some x → values_present x) → event_matches e ev = true →
  existsb (in_branch ev) (storage_branches project_id e from until) = (from <=? ev_occurred_at ev) && (ev_occurred_at ev <? until).
Proof.
  intros Hi Hv Hm. apply eq_true_iff_eq. split.
  - intros (b & Hb & Hin)%existsb_exists. apply list_elem_of_In in Hb. apply branches_range in Hb as [<- <-].
    unfold in_branch in Hin. by apply andb_true_iff in Hin as [? _].
  - intros Hr. apply existsb_exists.
    assert (∀ value, value ∈ branch_expressions e → (∃ payload : JValue N, json_from_slice (ev_payload ev) = Some payload
      ∧ matches_expression value ev payload = true ∧ values_present value) →
      ∃ b, List.In b (storage_branches project_id e from until) ∧ in_branch ev b = true) as Hone.
    { intros value Hin (payload & Hj & Hmv & Hpv). unfold storage_branches.
      destruct (is_empty (branch_expressions e)) eqn:Em; [by destruct (branch_expressions e); [apply elem_of_nil in Hin|]|].
      eexists. split; [apply in_map; by apply list_elem_of_In|]. unfold in_branch. cbn [sb_from sb_until sb_anchor].
      rewrite Hr. cbn [andb]. destruct (guaranteed_anchor project_id value) as [a|] eqn:Ea; [|done].
      by apply (anchor_sound value ev payload a). }
    unfold event_matches, matches_event in Hm. destruct e as [e|].
    2:{ exists {| sb_anchor := ProjectTimeline; sb_from := from; sb_until := until |}. split; [by left|].
        unfold in_branch. cbn. by rewrite Hr. }
    destruct (json_from_slice (ev_payload ev)) as [payload|] eqn:Hj; [|done]. cbn in Hm. specialize (Hv e eq_refl).
    destruct e as [q|e'|es|es]; [apply (Hone (QPredicate q))|apply (Hone (QNot e'))|apply (Hone (QAnd es))|];
      try (by apply list_elem_of_here); try (by exists payload).
    cbn in Hm. apply existsb_exists in Hm as (value & Hin%list_elem_of_In & Hmv). apply (Hone value); [done|].
    exists payload. split; [done|]. split; [done|]. unfold values_present in *. cbn [collect_predicates] in Hv.
    rewrite Forall_forall in Hv |- *. intros q Hq. apply Hv. apply list_elem_of_In, in_concat. exists (collect_predicates value).
    split; [by apply in_map, list_elem_of_In|by apply list_elem_of_In].
Qed.
Lemma covered_matches events e from until before : Forall indexed events → (∀ x, e = Some x → values_present x) →
  List.filter (event_matches e)
    (List.filter (λ ev, older_than before ev && existsb (in_branch ev) (storage_branches project_id e from until)) events)
  = found events e from until before.
Proof.
  intros Hi Hv. rewrite filter_filter_and. apply filter_ext_elem. intros ev Hin. rewrite Forall_forall in Hi.
  destruct (event_matches e ev) eqn:Hm; [|by rewrite !andb_false_r]. rewrite branches_cover by auto.
  by rewrite !andb_true_r, andb_comm.
Qed.

Lemma found_older events e from until before ev : newest_first events → ev ∈ found events e from until before →
  found events e from until (Some (anchor_of ev)) = List.filter (older (anchor_of ev)) (found events e from until before).
Proof.
  intros Hs Hin. unfold found. rewrite filter_filter_and. apply filter_ext_elem. intros x _.
  apply list_elem_of_In, filter_In in Hin as [_ Hin]. rewrite !andb_true_iff in Hin. destruct Hin as [[_ Hb] _].
  assert (older (anchor_of ev) x = true → older_than before x = true) as Ho.
  { destruct before as [a|]; [|done]. cbn in Hb |- *. by apply older_trans. }
  change (older_than (Some (anchor_of ev)) x) with (older (anchor_of ev) x).
  destruct (older (anchor_of ev) x); [rewrite Ho by done|]; by rewrite ?andb_true_r, ?andb_false_r.
Qed.
Lemma event_cursor_read_back t key digest cursor : length digest = 16%nat → Forall is_byte digest → event_key_valid key →
  timestamp_valid t → encode_cursor CEvent t key digest = Some cursor →
  decode_event_cursor cursor digest = Ok {| ea_occurred_at := t; ea_event_key := key |}.
Proof.
  intros Hl Hb (Hk & Hkb & Hok) Ht He. unfold decode_event_cursor.
  rewrite (decode_encoded_cursor CEvent digest 20 t key cursor) by first [done | lia]. cbn [mbind result_bind].
  unfold event_key_from_bytes in *. destruct (project_id_new _); [done|done].
Qed.
(** A page that is full ends with a cursor to what follows it. *)
Lemma next_cursor_exact events e from until before page_size digest :
  Forall indexed events → Forall (λ ev, timestamp_valid (ev_occurred_at ev)) events → newest_first events →
  length digest = 16%nat → Forall is_byte digest → 1 ≤ page_size < len (found events e from until before) →
  ∃ cursor anchor,
    (event ← last (take (Z.to_nat page_size) (found events e from until before));
     encode_cursor CEvent (ev_occurred_at event) (ev_key event) digest) = Some cursor
    ∧ decode_event_cursor cursor digest = Ok anchor
    ∧ found events e from until (Some anchor) = drop (Z.to_nat page_size) (found events e from until before).
Proof.
  intros Hi Ht Hs Hdl Hdb [Hp Hf]. set (found_ := found events e from until before) in *.
  assert (is_Some (found_ !! pred (Z.to_nat page_size))) as [ev Hev] by (apply lookup_lt_is_Some; unfold len in Hf; lia).
  assert (last (take (Z.to_nat page_size) found_) = Some ev) as ->.
  { rewrite last_lookup, length_take, Nat.min_l by (unfold len in Hf; lia). rewrite lookup_take_lt by lia. exact Hev. }
  assert (ev ∈ found_) as Hin by (by eapply list_elem_of_lookup_2).
  assert (ev ∈ events) as Hine by (subst found_; by apply list_elem_of_In, filter_In in Hin as [Hin%list_elem_of_In _]).
  rewrite Forall_forall in Hi, Ht. destruct (Hi ev Hine) as (Hk & _). specialize (Ht ev Hine).
  cbn [mbind option_bind]. pose proof Hk as (Hkl & _). rewrite encode_cursor_bytes by lia.
  eexists _, (anchor_of ev). split; [done|]. split.
  - apply event_cursor_read_back; [done..|]. by rewrite encode_cursor_bytes by lia.
  - subst found_. rewrite (found_older _ _ _ _ before) by done.
    rewrite (older_drops _ (pred (Z.to_nat page_size)) ev); [f_equal; lia|by apply newest_first_filter|done].
Qed.
End exact.

(** C33. A cursor is read back as the time and identity it was made of, and only
    for the kind and the query it was made for; an accepted cursor is one that
    encoding makes, up to the case of its hexadecimal digits. *)
Theorem cursor_roundtrip kind digest id_len t id encoded :
  length digest = 16%nat → Forall is_byte digest → length id = id_len → (id_len ≤ 37)%nat →
  (Forall is_byte id → timestamp_valid t → encode_cursor kind t id digest = Some encoded →
     decode_cursor encoded kind id_len digest = Ok (t, id))
  ∧ (decode_cursor encoded kind id_len digest = Ok (t, id) →
     timestamp_valid t ∧ Forall is_byte id ∧ encode_cursor kind t id digest = Some (to_ascii_lowercase encoded)).
Proof.
  intros Hdl Hdb Hid Hmax. rewrite encode_cursor_bytes by lia.
  split.
  - intros Hb Hv He. apply (decode_encoded_cursor kind digest); try done. rewrite encode_cursor_bytes by lia. exact He.
  - unfold decode_cursor. destruct (128 <? len encoded); [done|]. destruct (hex_decode encoded) as [value|] eqn:Hx; [|done].
    cbn [ok_or mbind result_bind]. destruct (_ || _) eqn:E; [done|]. bool_prop.
    destruct (from_unix_millis _) as [t0|] eqn:Et; [|done]. cbn [map_err mbind result_bind]. intros He. injection He as <- <-.
    pose proof (hex_decode_is_byte _ _ Hx) as Hb.
    destruct (cursor_bytes_unique kind digest value id_len) as [Hi' Hv]; [by apply Nat.eqb_eq|done..|].
    apply from_unix_millis_Ok in Et as [-> Htv]. split; [done|]. split; [by apply Forall_take, Forall_drop|].
    rewrite <- Hv. f_equal. by apply hex_encode_decode.
Qed.

(** C17. Over a store that answers with the newest events of the branches, a page
    of a search is exactly the first matching events of the range after the
    cursor, its cursor leads to exactly the rest, and the only refusal is of a
    search whose candidates were exhausted. *)
Theorem search_page_exact {N : Type} `{!JsonApi N, !Blake3, !Rfc3339Api} tokens project_id c e events from until before page_size digest :
  Forall (indexed (N := N) tokens project_id) events → Forall (λ ev, timestamp_valid (ev_occurred_at ev)) events →
  newest_first events → (∀ x, e = Some x → values_present x) →
  1 ≤ page_size → 0 ≤ sh_max_candidates c → length digest = 16%nat → Forall is_byte digest →
  let matching := found (N := N) events e from until in
  let candidates := store_page tokens events (search_query project_id c e from until before) in
  match result_page (N := N) c e page_size digest candidates with
  | Ok page =>
      sp_items page = take (Z.to_nat page_size) (matching before)
      ∧ (sp_next_cursor page = None ↔ len (matching before) ≤ page_size)
      ∧ ∀ cursor, sp_next_cursor page = Some cursor → ∃ anchor, decode_event_cursor cursor digest = Ok anchor
          ∧ matching (Some anchor) = drop (Z.to_nat page_size) (matching before)
  | Err error => error = SeTooBroad ∧ len (ep_items candidates) = sh_max_candidates c
  end.
Proof.
  intros Hi Ht Hs Hv Hp Hc Hdl Hdb. cbn zeta. unfold result_page, store_page, search_query.
  cbn [sq_candidate_limit sq_before sq_branches ep_items ep_candidates_examined]. set (F := List.filter _ events).
  pose proof (covered_matches (N := N) tokens project_id events e from until before Hi Hv) as HF. fold F in HF.
  assert (Forall (λ ev, matches_event (N := N) e ev = Ok (event_matches (N := N) e ev)) (take (Z.to_nat (sh_max_candidates c)) F)) as Hm.
  { apply Forall_take, Forall_forall. intros ev [Hin _]%list_elem_of_In%filter_In. rewrite Forall_forall in Hi.
    eapply indexed_decodes. by apply Hi, list_elem_of_In. }
  rewrite collect_matches_spec by (done || (change (len []) with 0; lia)). cbn [app mbind result_bind].
  set (M := List.filter _ (take _ F)). set (found_ := found events e from until before) in *.
  assert (M `prefix_of` found_) as Hpre by (subst M; rewrite <- HF; apply filter_take_prefix).
  assert (len (take (S (Z.to_nat page_size)) M) ≤ page_size ↔ len M ≤ page_size) as Hlen.
  { unfold len. rewrite length_take. lia. }
  rewrite take_take, Nat.min_l by lia.
  destruct (Z.leb_spec (len (take (S (Z.to_nat page_size)) M)) page_size) as [Hfew|Hmany].
  - rewrite Hlen in Hfew. destruct (Z.leb_spec (sh_max_candidates c) (len (take (Z.to_nat (sh_max_candidates c)) F))) as [Hx|Hx]; cbn [andb].
    { split; [done|]. unfold len in *. rewrite length_take in *. lia. }
    assert (M = found_) as EM.
    { subst M. rewrite take_ge; [done|]. unfold len in Hx. rewrite length_take in Hx. lia. }
    rewrite EM in *. cbn [sp_items sp_next_cursor].
    assert ((page_size <? len (take (S (Z.to_nat page_size)) found_)) = false) as -> by (apply Z.ltb_ge; by rewrite Hlen).
    split_and!; [done|by split|done].
  - cbn [andb sp_items sp_next_cursor]. rewrite (proj2 (Z.ltb_lt _ _) Hmany).
    assert (page_size < len M) as HM by lia.
    assert (take (Z.to_nat page_size) M = take (Z.to_nat page_size) found_) as -> by (apply prefix_take; [done|unfold len in HM; lia]).
    assert (page_size < len found_) as Hf by (destruct Hpre as [k ->]; rewrite len_app; pose proof (len_nonneg k); lia).
    destruct (next_cursor_exact (N := N) tokens project_id events e from until before page_size digest)
      as (cursor & anchor & Hcur & Hdec & Hrest); [done..|]. fold found_ in Hcur, Hrest. rewrite Hcur.
    split_and!; [done|split; [done|lia]|]. intros cursor' [= <-]. by exists anchor.
Qed.

(** ** Queries that are accepted and cannot be answered *)

Definition level_predicate : QueryPredicate := {| qp_field := QLevel; qp_operator := QEqual; qp_value := lit "warn" |}.
Definition event_id_predicate (value : str) : QueryPredicate :=
  {| qp_field := QEventId; qp_operator := QEqual; qp_value := value |}.
(** The parser takes [level:warn] and identifiers in capitals, and the test of an
    event compares them with texts that are never written so: they match nothing. *)
Theorem accepted_values_match_nothing {N : Type} `{!JsonApi N, !Rfc3339Api} :
  parse_predicate rfc3339_nanos QErrors (lit "level") (lit "warn") = Ok level_predicate
  ∧ (∀ ev (payload : JValue N), matches_predicate level_predicate ev payload = false)
  ∧ ∀ value, value_ok rfc3339_nanos QErrors QEventId value = true → to_ascii_lowercase value ≠ value →
      parse_predicate rfc3339_nanos QErrors (lit "event_id") value = Ok (event_id_predicate value)
      ∧ ∀ ev (payload : JValue N), Forall is_byte (ev_key ev) → matches_predicate (event_id_predicate value) ev payload = false.
Proof.
  split_and!; [by vm_compute|by intros ev payload; destruct ev as [? ? ? ? []]|]. intros value Hv Hl. split.
  - assert (value_ok rfc3339_nanos QErrors QEventId value = true) as Hok by exact Hv.
    cbn in Hv. unfold valid_hex in Hv. apply andb_true_iff in Hv as [Hlen Hhex].
    assert (len value = 32) as Hlen' by (by apply Z.eqb_eq in Hlen).
    assert (split_operator value = (QEqual, value)) as Hs.
    { unfold split_operator. destruct value as [|b value]; [done|]. cbn in Hhex. apply andb_true_iff in Hhex as [Hb _].
      change (lit ">=") with [62; 61]. change (lit "<=") with [60; 61]. change (lit ">") with [62]. change (lit "<") with [60].
      change (lit "=") with [61]. cbn [strip_prefix].
      destruct (Z.eqb_spec 62 b) as [<-|]; [by vm_compute in Hb|]. destruct (Z.eqb_spec 60 b) as [<-|]; [by vm_compute in Hb|].
      by destruct (Z.eqb_spec 61 b) as [<-|]; [vm_compute in Hb|]. }
    unfold parse_predicate. change (resolve_field (lit "event_id")) with (Some QEventId).
    cbn [ok_or mbind result_bind query_field_accepted negb]. rewrite Hs. unfold validate_value. rewrite Hok.
    assert (is_empty value = false) as -> by (by destruct value).
    rewrite (proj2 (Z.ltb_ge (16 * 1024) (len value))) by lia. done.
  - intros ev payload Hb. unfold matches_predicate. cbn. apply bool_decide_eq_false. intros He. apply Hl. rewrite <- He.
    unfold id_to_string. symmetry.
    apply hex_encode_decode, hex_decode_encode. unfold event_key_event_id. by apply Forall_drop.
Qed.

(** Nine alternatives, one more than the store takes branches. *)
Definition wide_query : str := join (lit " OR ") (map (λ n, lit "env:" ++ to_dec n) [1; 2; 3; 4; 5; 6; 7; 8; 9]).
(** The adapters answer a query of more than eight branches with invalid data. *)
Definition refuses_wide (o : oracle SearchSig) : Prop :=
  ∀ timeout project_id q, (8 < length (sq_branches q))%nat →
    o (SearchCandidates timeout project_id q) = Some (Err IsInvalidData).
Theorem wide_search_fails {N : Type} `{!JsonApi N, !Blake3, !Rfc3339Api} c project_id from until limit (o : oracle SearchSig) :
  refuses_wide o →
  ∃ q, query_parse no_dates QErrors wide_query = Some (Ok q)
    ∧ is_ok (consult o (search (N := N) c project_id q from until None limit)) = false.
Proof.
  intros Ho. eexists. split; [vm_compute; reflexivity|]. unfold search. cbn [pq_source pq_expression].
  rewrite bool_decide_eq_true_2 by done. cbn [negb]. destruct (in_range 1 MAX_QUERY_ROWS _); cbn [negb]; [|done].
  rewrite consult_bind. destruct (error_time_range _ _ _) as [range|]; [|done]. cbn [attempt_pure fmap result_fmap].
  rewrite consult_bind. cbn [consult perform]. rewrite Ho by (unfold storage_branches; cbn [sq_branches branch_expressions is_empty non_empty negb];
    rewrite length_map; cbn [length]; lia). done.
Qed.

(** ** Witnesses *)

#[local] Instance search_json : JsonApi Z :=
  {| json_from_slice := λ bs, Some (JObject [(lit "environment", JString bs)]);
     number_to_string := to_dec; number_as_f64 := λ _, None; number_as_u64 := λ z, Some z |}.
#[local] Instance search_digest : Blake3 := λ input, take 32 (reverse input ++ replicate 32 0).
#[local] Instance search_rfc3339 : Rfc3339Api := λ _, None.
Definition sample_event (n : Z) (environment : string) : EventView :=
  {| ev_key := event_key_new 1 (replicate 16 n); ev_issue_id := replicate 16 7; ev_received_at := 1000 + n;
     ev_occurred_at := 1000 + n; ev_level := LError; ev_platform := PJavaScript; ev_payload := lit environment |}.
Definition sample_events : list EventView :=
  [sample_event 5 "prod"; sample_event 4 "dev"; sample_event 3 "prod"; sample_event 2 "prod"; sample_event 1 "prod"].
Definition sample_expression : option QueryExpression :=
  Some (QPredicate {| qp_field := QEnvironment; qp_operator := QEqual; qp_value := lit "prod" |}).
Definition sample_tokens (ev : EventView) : list Z := [token_environment (ev_payload ev)].
Definition sample_cursor_digest : bytes := cursor_digest 1 (lit "query") CEvent.

Lemma cursor_roundtrip_witness :
  ∃ encoded, encode_cursor CEvent 1005 (event_key_new 1 (replicate 16 5)) sample_cursor_digest = Some encoded
  ∧ decode_cursor encoded CEvent 20 sample_cursor_digest = Ok (1005, event_key_new 1 (replicate 16 5)).
Proof.
  eexists. split; [vm_compute; reflexivity|].
  eapply (cursor_roundtrip CEvent sample_cursor_digest 20 1005 (event_key_new 1 (replicate 16 5))); try done; try lia.
  - apply Forall_forall. intros b Hb%list_elem_of_In.
    assert (forallb (in_range 0 255) sample_cursor_digest = true) as Hf by (by vm_compute).
    rewrite forallb_forall in Hf. specialize (Hf b Hb). apply in_range_true in Hf. unfold is_byte. lia.
  - apply Forall_forall. intros b Hb%list_elem_of_In.
    assert (forallb (in_range 0 255) (event_key_new 1 (replicate 16 5)) = true) as Hf by (by vm_compute).
    rewrite forallb_forall in Hf. specialize (Hf b Hb). apply in_range_true in Hf. unfold is_byte. lia.
Defined.
Lemma search_page_exact_witness :
  let candidates := store_page sample_tokens sample_events (search_query 1 search_default sample_expression 0 2000 None) in
  ∃ page, result_page search_default sample_expression 2 sample_cursor_digest candidates = Ok page
  ∧ map ev_occurred_at (sp_items page) = [1005; 1003]
  ∧ sp_items page = take 2 (found sample_events sample_expression 0 2000 None).
Proof.
  assert (∀ bs, forallb (in_range 0 255) bs = true → Forall is_byte bs) as Hbytes.
  { intros bs Hf. apply Forall_forall. intros b Hb%list_elem_of_In. rewrite forallb_forall in Hf.
    specialize (Hf b Hb). apply in_range_true in Hf. unfold is_byte. lia. }
  cbn zeta. destruct (result_page _ _ _ _ _) as [page|error] eqn:E; [|vm_compute in E; discriminate E].
  exists page. split; [done|]. split; [vm_compute in E; by injection E as <-|].
  pose proof (search_page_exact sample_tokens 1 search_default sample_expression sample_events 0 2000 None 2 sample_cursor_digest) as H.
  cbn zeta in H. rewrite E in H.
  match type of H with _ → _ → _ → _ → _ → _ → _ → _ → ?G => assert G as Hg; [apply H|] end.
  - unfold sample_events. repeat (constructor; [split_and!; [split_and!; [done|apply Hbytes; by vm_compute|by vm_compute]|by vm_compute
      |split; [done|apply Hbytes; by vm_compute]|eexists; split; [reflexivity|]; split_and!; intros Hn]|]); try constructor;
      try (by destruct Hn).
  - unfold sample_events. repeat (constructor; [by vm_compute|]). constructor.
  - unfold sample_events, newest_first. repeat (constructor; [|repeat (constructor; [by vm_compute|]); constructor]). constructor.
  - intros x [= <-]. by repeat constructor.
  - lia.
  - done.
  - done.
  - apply Hbytes. by vm_compute.
  - apply Hg.
Defined.
