(* ===== verification/ReplayWriter.v ===== *)
(** * The replay writer

    [application/src/replay_writer.rs]: one task stores the recording of a replay
    segment as an object and then commits its metadata, and removes the objects
    of commits that never came.  What [persist_one] and [cleanup_orphans] ask of
    the two stores are programs over the ports; [within] is the timeout the
    writer gives to the first, the second has none. *)
From stdpp Require Import base list numbers strings sets.
From Stdlib Require Import ZArith Lia.
From S2P Require Import Prelude External Primitives Identity Event Blobs IngestReplays Effects Writers EventWriter SignalWriters Ingest.

Open Scope prog_scope.

Record ReplayWriterConfig := {
  rw_channel_capacity : Z;
  rw_max_queued_bytes : Z;
  rw_max_segment_bytes : Z;
  rw_operation_timeout : duration;
  rw_shutdown_drain : duration;
  rw_orphan_grace : duration;
  rw_cleanup_interval : duration;
  rw_cleanup_batch_size : Z;
}.
Definition replay_writer_default : ReplayWriterConfig :=
  {| rw_channel_capacity := 32; rw_max_queued_bytes := 32 * 1024 * 1024; rw_max_segment_bytes := 5 * 1024 * 1024;
     rw_operation_timeout := 15000 * NANOS_PER_MILLI; rw_shutdown_drain := 15000 * NANOS_PER_MILLI;
     rw_orphan_grace := 3600000 * NANOS_PER_MILLI; rw_cleanup_interval := 300000 * NANOS_PER_MILLI;
     rw_cleanup_batch_size := 100 |}.
Inductive ReplayWriterStartError := RwInvalidConfiguration.
(** The test [ReplayWriter::start] makes. *)
Definition replay_writer_start (c : ReplayWriterConfig) : result ReplayWriterStartError unit :=
  if (rw_channel_capacity c =? 0) || (rw_max_queued_bytes c =? 0) || (rw_max_segment_bytes c =? 0)
     || (rw_operation_timeout c =? 0) || (rw_shutdown_drain c =? 0) || (rw_orphan_grace c =? 0)
     || (rw_cleanup_interval c =? 0) || (rw_cleanup_batch_size c =? 0) || (10000 <? rw_cleanup_batch_size c)
  then Err RwInvalidConfiguration else Ok tt.

(** ** The sink *)

Inductive ReplaySinkCall :=
| RkAccepting | RkShutdown
| RkAcquireBytes (bytes : Z) | RkReserve
| RkSend (submission : ReplaySubmission) | RkAwait.
Definition replay_sink_answer (c : ReplaySinkCall) : Type :=
  match c with
  | RkAccepting | RkShutdown | RkAcquireBytes _ | RkReserve => bool
  | RkSend _ => unit
  | RkAwait => option SignalReply
  end.
Definition ReplaySinkSig : signature := Signature ReplaySinkCall replay_sink_answer.
Definition rk (c : ReplaySinkCall) : prog ReplaySinkSig (replay_sink_answer c) := perform (E := ReplaySinkSig) c.
Definition persist_replay (max_segment_bytes : Z) (submission : ReplaySubmission) : prog ReplaySinkSig SignalReply :=
  let size := len (rs_recording submission) in
  if is_empty (rs_recording submission) || (max_segment_bytes <? size) then mret (Err SgCapacity)
  else
    accepting ← rk RkAccepting;
    stopped ← (if (accepting : bool) then rk RkShutdown else mret true);
    if (stopped : bool) then mret (Err SgCapacity)
    else
      match checked 0 U32_MAX size with
      | None => mret (Err SgCapacity)
      | Some bytes =>
          acquired ← rk (RkAcquireBytes bytes);
          if negb (acquired : bool) then mret (Err SgCapacity)
          else
            reserved ← rk RkReserve;
            if negb (reserved : bool) then mret (Err SgCapacity)
            else
              _ ← rk (RkSend submission);
              received ← rk RkAwait;
              mret match (received : option SignalReply) with Some reply => reply | None => Err SgUnavailable end
      end.

(** ** What is asked of the stores *)

Record BlobScanRequest := {
  bs_namespace : BlobNamespace;
  bs_older_than : Timestamp;
  bs_cursor : option str;
  bs_limit : Z;
}.
Record BlobScanPage := { bp_objects : list BlobObject; bp_next_cursor : option str }.

Inductive ReplayPort :=
| LoadReplay (project_id : Z) (replay_id : bytes)
| PersistSegment (commit : ReplaySegmentCommit)
| ReferencesReplayBlob (key : BlobKey)
| BlobBegin (kind : BlobKind) (created_at : Timestamp)
| BlobWriteChunk (chunk : bytes)
| BlobCommit (key : BlobKey)
| BlobScan (request : BlobScanRequest)
| BlobDelete (key : BlobKey).
Definition replay_port_answer (c : ReplayPort) : Type :=
  match c with
  | LoadReplay _ _ => result SignalStoreError ReplayRecord
  | PersistSegment _ => SignalReply
  | ReferencesReplayBlob _ => result SignalStoreError bool
  | BlobBegin _ _ | BlobWriteChunk _ | BlobDelete _ => result BlobStoreError unit
  | BlobCommit _ => result BlobStoreError BlobObject
  | BlobScan _ => result BlobStoreError BlobScanPage
  end.
Definition ReplayPortSig : signature := Signature ReplayPort replay_port_answer.
Abbreviation storing A := (prog ReplayPortSig (result SignalStoreError A)).
Definition port (c : ReplayPort) : prog ReplayPortSig (replay_port_answer c) := perform (E := ReplayPortSig) c.
Definition map_blob (e : BlobStoreError) : SignalStoreError :=
  match e with
  | BeTooLarge | BeCapacity => SgCapacity
  | BeNotFound => SgNotFound
  | BeCorrupt | BeInvalid => SgInvalidData
  | BeUnavailable => SgUnavailable
  end.

Section stores.
Context `{!Blake3}.

Definition recording_key (s : ReplaySubmission) : BlobKey :=
  replay_recording (rm_project_id (rs_metadata s)) (rm_replay_id (rs_metadata s)) (rm_segment_id (rs_metadata s)).
Definition find_segment (record : ReplayRecord) (segment_id : Z) : option ReplaySegment :=
  List.find (λ segment, rg_segment_id segment =? segment_id) (rr_segments record).
Definition same_recording (s : ReplaySubmission) (segment : ReplaySegment) : bool :=
  (bo_size (rg_object segment) =? len (rs_recording s))
  && bool_decide (bo_checksum (rg_object segment) = blake3 (rs_recording s)).
Definition segment_commit (s : ReplaySubmission) (object : BlobObject) (segment_id : Z) : ReplaySegmentCommit :=
  {| rc_metadata := rs_metadata s;
     rc_segment := {| rg_segment_id := segment_id; rg_object := object;
                      rg_decompressed_bytes := rs_decompressed_bytes s; rg_event_count := rs_event_count s |} |}.
Definition store_recording (s : ReplaySubmission) : storing DurableOutcome :=
  _ ←? map_err_p map_blob (port (BlobBegin BkReplayRecording (rm_received_at (rs_metadata s))));
  _ ←? map_err_p map_blob (port (BlobWriteChunk (rs_recording s)));
  object ←? map_err_p map_blob (port (BlobCommit (recording_key s)));
  relation ←! map_err (λ _, SgInvalidData) (replay_relation (bo_key object));
  port (PersistSegment (segment_commit s object relation.2)).
Definition persist_one (s : ReplaySubmission) : storing DurableOutcome :=
  loaded ← port (LoadReplay (rm_project_id (rs_metadata s)) (rm_replay_id (rs_metadata s)));
  match (match (loaded : result SignalStoreError ReplayRecord) with
         | Ok existing => find_segment existing (rm_segment_id (rs_metadata s))
         | Err _ => None
         end) with
  | Some segment => mret (if same_recording s segment then Ok DuplicateOutcome else Err SgConflict)
  | None => store_recording s
  end.

Fixpoint delete_orphans (objects : list BlobObject) : storing unit :=
  match objects with
  | [] => mret (Ok tt)
  | object :: objects =>
      referenced ←? port (ReferencesReplayBlob (bo_key object));
      if (referenced : bool) then delete_orphans objects
      else _ ←? map_err_p map_blob (port (BlobDelete (bo_key object))); delete_orphans objects
  end.
Definition cleanup_orphans (now : Timestamp) (orphan_grace : duration) (limit : Z) : storing unit :=
  let grace := unwrap_or I64_MAX (checked_i64 (as_millis orphan_grace)) in
  cutoff ←! map_err (λ _, SgInvalidData) (from_unix_millis (sat_i64 (now - grace)));
  page ←? map_err_p map_blob (port (BlobScan {| bs_namespace := NsReplayRecordings; bs_older_than := cutoff;
                                                bs_cursor := None; bs_limit := limit |}));
  delete_orphans (bp_objects page).
End stores.

(** ** The task *)

Abbreviation command := (Command ReplaySubmission).
Inductive select_answer := RsCancelled | RsReceived (c : option command) | RsTick.
Inductive ReplayWriterCall :=
| RwSelect                       (** the biased [select!] of the loop *)
| RwTryRecv
| RwStopAccepting                (** [accepting.store(false)] *)
| RwRemaining                    (** what is left of the time to drain *)
| RwClockNow
| RwWithin (limit : duration) (c : ReplayPort)   (** a call under [timeout] *)
| RwPort (c : ReplayPort)
| RwRespond (c : command) (reply : SignalReply).
(** [None] of a call under a timeout: the time ran out while it was made. *)
Definition replay_writer_answer (c : ReplayWriterCall) : Type :=
  match c with
  | RwSelect => select_answer
  | RwTryRecv => option command
  | RwStopAccepting | RwRespond _ _ => unit
  | RwRemaining => duration
  | RwClockNow => Timestamp
  | RwWithin _ c => option (replay_port_answer c)
  | RwPort c => replay_port_answer c
  end.
Definition ReplayWriterSig : signature := Signature ReplayWriterCall replay_writer_answer.
Definition rw (c : ReplayWriterCall) : prog ReplayWriterSig (replay_writer_answer c) := perform (E := ReplayWriterSig) c.
(** [timeout(limit, p)]: [None] when the time ran out, and [p] was dropped. *)
Fixpoint within {A} (limit : duration) (p : prog ReplayPortSig A) : prog ReplayWriterSig (option A) :=
  match p with
  | Ret a => Ret (Some a)
  | Vis c k =>
      Vis (E := ReplayWriterSig) (RwWithin limit c) (λ x, match x with Some x => within limit (k x) | None => Ret None end)
  end.
Fixpoint untimed {A} (p : prog ReplayPortSig A) : prog ReplayWriterSig A :=
  match p with
  | Ret a => Ret a
  | Vis c k => Vis (E := ReplayWriterSig) (RwPort c) (λ x, untimed (k x))
  end.

Section task.
Context `{!Blake3} (config : ReplayWriterConfig).

Definition replay_flush (c : command) (operation_timeout : duration) : prog ReplayWriterSig unit :=
  answered ← within operation_timeout (persist_one (cm_item c));
  rw (RwRespond c (match answered with Some reply => reply | None => Err SgUnavailable end)).
(** [true]: the task has ended; [false]: its turns have run out. *)
Fixpoint reject_remaining (fuel : nat) : prog ReplayWriterSig bool :=
  match fuel with
  | O => mret false
  | S fuel =>
      c ← rw RwTryRecv;
      match (c : option command) with
      | Some c => _ ← rw (RwRespond c (Err SgUnavailable)); reject_remaining fuel
      | None => mret true
      end
  end.
Fixpoint replay_drain (fuel : nat) : prog ReplayWriterSig bool :=
  match fuel with
  | O => mret false
  | S fuel =>
      c ← rw RwTryRecv;
      match (c : option command) with
      | None => mret true
      | Some c =>
          remaining ← rw RwRemaining;
          if (remaining : duration) =? 0 then _ ← rw (RwRespond c (Err SgUnavailable)); reject_remaining fuel
          else _ ← replay_flush c (Z.min remaining (rw_operation_timeout config)); replay_drain fuel
      end
  end.
Fixpoint run_replay_writer (fuel : nat) : prog ReplayWriterSig bool :=
  match fuel with
  | O => mret false
  | S fuel =>
      selected ← rw RwSelect;
      match (selected : select_answer) with
      | RsCancelled => _ ← rw RwStopAccepting; replay_drain fuel
      | RsReceived (Some c) => _ ← replay_flush c (rw_operation_timeout config); run_replay_writer fuel
      | RsReceived None => mret true
      | RsTick =>
          now ← rw RwClockNow;
          _ ← untimed (cleanup_orphans now (rw_orphan_grace config) (rw_cleanup_batch_size config));
          run_replay_writer fuel
      end
  end.
End task.

(** ** Programs follow themselves *)

(** [next p mid c]: after the events [mid], the program calls [c]. *)
Fixpoint next {E A} (p : prog E A) (mid : list (event E)) (c : call E) : Prop :=
  match p with
  | Ret _ => False
  | Vis c' k => (mid = [] ∧ c = c') ∨ ∃ x mid', mid = existT c' x :: mid' ∧ next (k x) mid' c
  end.
Lemma sat_self {E A} (p : prog E A) h :
  sat (λ h' c, ∃ mid, h' = h ++ mid ∧ next p mid c) (λ h' a, ∃ mid, h' = h ++ mid ∧ exec p mid a) h p.
Proof.
  revert h. induction p as [a|c k IH]; intros h; cbn [sat].
  - exists []. by rewrite app_nil_r.
  - split; [exists []; rewrite app_nil_r; by split; [|left]|]. intros x. eapply sat_mono, IH; cbn.
    + intros h' c' (mid & -> & Hn). exists (existT c x :: mid). rewrite <- app_assoc. split; [done|]. right. by exists x, mid.
    + intros h' a (mid & -> & He). exists (existT c x :: mid). rewrite <- app_assoc. split; [done|]. by exists x, mid.
Qed.

Definition timed (limit : duration) (e : event ReplayPortSig) : event ReplayWriterSig :=
  existT (P := answer ReplayWriterSig) (RwWithin limit (projT1 e)) (Some (projT2 e)).
Definition plain (e : event ReplayPortSig) : event ReplayWriterSig :=
  existT (P := answer ReplayWriterSig) (RwPort (projT1 e)) (projT2 e).
Lemma within_sat {A} limit (p : prog ReplayPortSig A) h :
  sat (λ h' c, ∃ mid c', h' = h ++ map (timed limit) mid ∧ c = RwWithin limit c' ∧ next p mid c')
      (λ h' r, (∃ mid a, h' = h ++ map (timed limit) mid ∧ r = Some a ∧ exec p mid a)
               ∨ r = None ∧ ∃ mid c', h' = h ++ map (timed limit) mid ++ [existT (P := answer ReplayWriterSig) (RwWithin limit c') None])
      h (within limit p).
Proof.
  revert h. induction p as [a|c k IH]; intros h; cbn [sat within].
  - left. exists [], a. by rewrite app_nil_r.
  - split; [exists [], c; rewrite app_nil_r; split_and!; [done..|by left]|]. intros [x|]; [|right; split; [done|by exists [], c]].
    eapply sat_mono, IH; cbn.
    + intros h' c' (mid & d & -> & -> & Hn). exists (existT c x :: mid), d. rewrite <- app_assoc. split_and!; [done..|].
      right. by exists x, mid.
    + intros h' r [(mid & a & -> & -> & He)|(-> & mid & d & ->)].
      * left. exists (existT c x :: mid), a. rewrite <- app_assoc. split_and!; [done..|]. by exists x, mid.
      * right. split; [done|]. exists (existT c x :: mid), d. by rewrite <- app_assoc.
Qed.
Lemma untimed_sat {A} (p : prog ReplayPortSig A) h :
  sat (λ h' c, ∃ mid c', h' = h ++ map plain mid ∧ c = RwPort c' ∧ next p mid c')
      (λ h' a, ∃ mid, h' = h ++ map plain mid ∧ exec p mid a) h (untimed p).
Proof.
  revert h. induction p as [a|c k IH]; intros h; cbn [sat untimed].
  - exists []. by rewrite app_nil_r.
  - split; [exists [], c; rewrite app_nil_r; split_and!; [done..|by left]|]. intros x. eapply sat_mono, IH; cbn.
    + intros h' c' (mid & d & -> & -> & Hn). exists (existT c x :: mid), d. rewrite <- app_assoc. split_and!; [done..|].
      right. by exists x, mid.
    + intros h' a (mid & -> & He). exists (existT c x :: mid). rewrite <- app_assoc. split; [done|]. by exists x, mid.
Qed.

(** ** Every command is answered once, with its own outcome *)

Section ledger.
Context `{!Blake3} (config : ReplayWriterConfig).
Abbreviation history := (list (event ReplayWriterSig)).

Definition replay_received_of (e : event ReplayWriterSig) : option command :=
  let '(existT c x) := e in
  match c return replay_writer_answer c → option command with
  | RwSelect => λ x, match x with RsReceived o => o | _ => None end
  | RwTryRecv => λ x, x
  | _ => λ _, None
  end x.
Definition replay_responded_of (e : event ReplayWriterSig) : option command :=
  match projT1 e with RwRespond c _ => Some c | _ => None end.
(** The commands that are received and not answered. *)
Definition in_hand (h : history) (cs : list command) : Prop :=
  omap replay_received_of h ≡ₚ omap replay_responded_of h ++ cs.
(** The command in hand, and what was done since it was received (and since the
    time to drain was read). *)
Definition current (h : history) (c : command) (mid : history) : Prop := ∃ h0, h = h0 ++ mid ∧ in_hand h0 [c].
Definition replay_guar (h : history) (call : ReplayWriterCall) : Prop :=
  match call with
  | RwRespond c reply =>
      in_hand h [c]
      ∧ (reply = Err SgUnavailable
         ∨ ∃ limit mid, current h c (map (timed limit) mid) ∧ limit ≤ rw_operation_timeout config
             ∧ exec (persist_one (cm_item c)) mid reply)
  | RwWithin limit call =>
      limit ≤ rw_operation_timeout config
      ∧ ∃ c mid, current h c (map (timed limit) mid) ∧ next (persist_one (cm_item c)) mid call
  | RwPort call =>
      in_hand h []
      ∧ ∃ h0 now mid, h = h0 ++ existT (P := answer ReplayWriterSig) RwClockNow now :: map plain mid
          ∧ next (cleanup_orphans now (rw_orphan_grace config) (rw_cleanup_batch_size config)) mid call
  | _ => True
  end.

Lemma hand_silent h h' cs : Forall (λ e, replay_received_of e = None ∧ replay_responded_of e = None) h' →
  in_hand h cs → in_hand (h ++ h') cs.
Proof.
  unfold in_hand. intros Hs Hh. rewrite !omap_app.
  assert (omap replay_received_of h' = [] ∧ omap replay_responded_of h' = []) as [-> ->].
  { induction Hs as [|e h' [H1 H2] _ [IH1 IH2]]; [done|]. cbn. by rewrite H1, H2. }
  by rewrite !app_nil_r.
Qed.
Lemma timed_silent limit mid : Forall (λ e, replay_received_of e = None ∧ replay_responded_of e = None) (map (timed limit) mid).
Proof. rewrite Forall_forall. by intros e ([c x] & -> & _)%list_elem_of_fmap. Qed.
Lemma plain_silent mid : Forall (λ e, replay_received_of e = None ∧ replay_responded_of e = None) (map plain mid).
Proof. rewrite Forall_forall. by intros e ([c x] & -> & _)%list_elem_of_fmap. Qed.
Lemma in_hand_received h e c : replay_received_of e = Some c → replay_responded_of e = None → in_hand h [] → in_hand (h ++ [e]) [c].
Proof. unfold in_hand. intros H1 H2 Hh. rewrite !omap_app. cbn. by rewrite H1, H2, Hh, !app_nil_r. Qed.
Lemma in_hand_responded h c reply :
  in_hand h [c] → in_hand (h ++ [existT (P := answer ReplayWriterSig) (RwRespond c reply) tt]) [].
Proof. unfold in_hand. intros Hh. rewrite !omap_app. cbn. by rewrite Hh, !app_nil_r. Qed.

(** A command in hand leaves it answered. *)
Lemma respond_sat h c reply {A} (f : unit → prog ReplayWriterSig A) post :
  replay_guar h (RwRespond c reply) → (∀ h', in_hand h' [] → sat replay_guar post h' (f tt)) →
  sat replay_guar post h (rw (RwRespond c reply) ≫= f).
Proof. intros Hg Hf. cbn. split; [done|]. intros []. apply Hf, in_hand_responded, Hg. Qed.
Lemma replay_flush_sat h c limit {A} (f : unit → prog ReplayWriterSig A) post :
  in_hand h [c] → limit ≤ rw_operation_timeout config → (∀ h', in_hand h' [] → sat replay_guar post h' (f tt)) →
  sat replay_guar post h (replay_flush c limit ≫= f).
Proof.
  intros Hh Hl Hf. unfold replay_flush. rewrite !sat_bind. eapply sat_mono, within_sat; cbn beta.
  - intros h' call (mid & c' & -> & -> & Hn). split; [done|]. exists c, mid. split; [by exists h|done].
  - intros h' r Hr. assert (in_hand h' [c]) as Hc.
    { destruct Hr as [(mid & a & -> & _)|(_ & mid & c' & ->)]; apply hand_silent; try done; [apply timed_silent|].
      apply Forall_app. split; [apply timed_silent|by constructor]. }
    rewrite <- sat_bind. apply respond_sat; [|done]. split; [done|].
    destruct Hr as [(mid & a & -> & -> & He)|(-> & _)]; [right|by left]. exists limit, mid. split; [by exists h|done].
Qed.
Lemma replay_reject_sat fuel h : in_hand h [] → sat replay_guar (λ h _, in_hand h []) h (reject_remaining fuel).
Proof.
  revert h. induction fuel as [|fuel IH]; intros h Hh; [done|]. cbn [reject_remaining]. split; [done|]. intros [c|].
  - apply respond_sat; [|done]. split; [by eapply in_hand_received|by left].
  - apply hand_silent; [by repeat constructor|done].
Qed.
Lemma replay_drain_sat fuel h : in_hand h [] → sat replay_guar (λ h _, in_hand h []) h (replay_drain config fuel).
Proof.
  revert h. induction fuel as [|fuel IH]; intros h Hh; [done|]. cbn [replay_drain]. split; [done|]. intros [c|].
  2:{ apply hand_silent; [by repeat constructor|done]. }
  cbn. split; [done|]. intros remaining. set (h' := (h ++ _) ++ _).
  assert (in_hand h' [c]) as Hc by (apply hand_silent; [by repeat constructor|by eapply in_hand_received]).
  destruct (remaining =? 0).
  - apply respond_sat; [split; [done|by left]|]. apply replay_reject_sat.
  - apply replay_flush_sat; [done|lia|]. apply IH.
Qed.
End ledger.

(** ** What an outcome means *)

Section outcomes.
Context `{!Blake3}.
Abbreviation pe c x := (existT (P := answer ReplayPortSig) c x).

Definition load_event (s : ReplaySubmission) (loaded : result SignalStoreError ReplayRecord) : event ReplayPortSig :=
  pe (LoadReplay (rm_project_id (rs_metadata s)) (rm_replay_id (rs_metadata s))) loaded.
Definition known_segment (s : ReplaySubmission) (loaded : result SignalStoreError ReplayRecord) : option ReplaySegment :=
  match loaded with Ok existing => find_segment existing (rm_segment_id (rs_metadata s)) | Err _ => None end.
(** The recording is stored as [object]. *)
Definition object_events (s : ReplaySubmission) (object : BlobObject) : list (event ReplayPortSig) :=
  [pe (BlobBegin BkReplayRecording (rm_received_at (rs_metadata s))) (Ok tt); pe (BlobWriteChunk (rs_recording s)) (Ok tt);
   pe (BlobCommit (recording_key s)) (Ok object)].
(** How an execution of [store_recording] ends: the metadata is committed after
    the object, or never. *)
Inductive stored_as (s : ReplaySubmission) : list (event ReplayPortSig) → SignalReply → Prop :=
| stored_committed object relation reply :
    replay_relation (bo_key object) = Ok relation →
    stored_as s (object_events s object ++ [pe (PersistSegment (segment_commit s object relation.2)) reply]) reply
| stored_nowhere tr error :
    (∀ commit answer, pe (PersistSegment commit) answer ∉ tr) → stored_as s tr (Err error).

Lemma store_recording_exec s tr reply : exec (store_recording s) tr reply → stored_as s tr reply.
Proof.
  cbn. intros ([[]|e1] & tr1 & -> & H1); cbn in H1; [|destruct H1 as [-> ->]; apply stored_nowhere; set_solver].
  destruct H1 as ([[]|e2] & tr2 & -> & H2); cbn in H2; [|destruct H2 as [-> ->]; apply stored_nowhere; set_solver].
  destruct H2 as ([object|e3] & tr3 & -> & H3); cbn in H3; [|destruct H3 as [-> ->]; apply stored_nowhere; set_solver].
  destruct (replay_relation (bo_key object)) as [relation|] eqn:Er; cbn in H3;
    [|destruct H3 as [-> ->]; apply stored_nowhere; set_solver].
  destruct H3 as (answer & tr4 & -> & -> & ->). by apply (stored_committed s object relation).
Qed.
Lemma persist_one_exec s tr reply : exec (persist_one s) tr reply → ∃ loaded rest, tr = load_event s loaded :: rest
  ∧ match known_segment s loaded with
    | Some segment => rest = [] ∧ reply = (if same_recording s segment then Ok DuplicateOutcome else Err SgConflict)
    | None => stored_as s rest reply
    end.
Proof.
  intros (loaded & rest & -> & He). exists loaded, rest. split; [done|]. unfold known_segment. cbn beta zeta in He.
  fold (prog_bind (E := ReplayPortSig)) in He. cbn in He.
  destruct loaded as [existing|e]; [destruct (find_segment existing _) as [segment|]|].
  - destruct He as [-> ->]. done.
  - by apply store_recording_exec.
  - by apply store_recording_exec.
Qed.

(** The objects a page of the scan names, in order, with what was asked of each. *)
Inductive swept : list BlobObject → list (event ReplayPortSig) → Prop :=
| swept_end objects : swept objects []
| swept_kept object objects tr answer :
    answer ≠ Ok false → swept objects tr → swept (object :: objects) (pe (ReferencesReplayBlob (bo_key object)) answer :: tr)
| swept_deleted object objects tr answer :
    swept objects tr →
    swept (object :: objects) (pe (ReferencesReplayBlob (bo_key object)) (Ok false) :: pe (BlobDelete (bo_key object)) answer :: tr).
Lemma delete_orphans_exec objects tr r : exec (delete_orphans objects) tr r → swept objects tr.
Proof.
  revert tr. induction objects as [|object objects IH]; intros tr; [intros [-> _]; constructor|].
  intros ([[]|e] & rest & -> & He); cbn in He.
  - apply swept_kept; [done|]. by apply IH.
  - destruct He as ([[]|e] & rest' & -> & He); cbn in He; apply swept_deleted; [by apply IH|]. destruct He as [-> _]. constructor.
  - destruct He as [-> _]. apply swept_kept; [done|constructor].
Qed.
Definition scan_event (request : BlobScanRequest) answer : event ReplayPortSig := pe (BlobScan request) answer.
Lemma cleanup_orphans_exec now grace limit tr r : exec (cleanup_orphans now grace limit) tr r →
  tr = [] ∨ ∃ cutoff answer rest,
    tr = scan_event {| bs_namespace := NsReplayRecordings; bs_older_than := cutoff; bs_cursor := None; bs_limit := limit |} answer :: rest
    ∧ match answer with Ok page => swept (bp_objects page) rest | Err _ => rest = [] end.
Proof.
  unfold cleanup_orphans. destruct (from_unix_millis _) as [cutoff|]; [|intros [-> _]; by left].
  intros ([page|e] & rest & -> & He); cbn in He; right; exists cutoff; eexists _, rest; (split; [done|]).
  - by eapply delete_orphans_exec.
  - by destruct He.
Qed.
End outcomes.

(** C11. Whatever the stores, the timer and the shutdown do, the replay writer
    answers each command once, with the outcome of the complete run of the calls
    for its own recording or as unavailable, makes no other call for it, and
    sweeps only between commands. *)
Theorem replay_writer_answers_once `{!Blake3} config fuel :
  sat (replay_guar config) (λ h _, in_hand h []) [] (run_replay_writer config fuel).
Proof.
  assert (∀ h, in_hand h [] → sat (replay_guar config) (λ h _, in_hand h []) h (run_replay_writer config fuel)) as Hrun;
    [|by apply Hrun, perm_nil].
  induction fuel as [|fuel IH]; intros h Hh; [done|]. cbn [run_replay_writer]. split; [done|]. intros [|[c|]|].
  - cbn. split; [done|]. intros []. apply replay_drain_sat. do 2 (apply hand_silent; [by repeat constructor|]). done.
  - apply replay_flush_sat; [by eapply in_hand_received|done|apply IH].
  - apply hand_silent; [by repeat constructor|done].
  - cbn. split; [done|]. intros now. set (h' := (h ++ _) ++ _).
    assert (in_hand h' []) as Hh' by (do 2 (apply hand_silent; [by repeat constructor|]); done).
    rewrite sat_bind. eapply sat_mono, untimed_sat; cbn beta.
    + intros h2 call (mid & c' & -> & -> & Hn). split; [apply hand_silent; [apply plain_silent|done]|].
      exists (h ++ [existT (P := answer ReplayWriterSig) RwSelect RsTick]), now, mid. split; [|done].
      subst h'. by rewrite <- !app_assoc.
    + intros h2 r (mid & -> & _). apply IH. apply hand_silent; [apply plain_silent|done].
Qed.

(** The object store answers a commit with the object it stored. *)
Definition honest_commits `{!Blake3} (s : ReplaySubmission) (tr : list (event ReplayPortSig)) : Prop :=
  ∀ object, existT (P := answer ReplayPortSig) (BlobCommit (recording_key s)) (Ok object) ∈ tr →
  bo_key object = recording_key s ∧ bo_size object = len (rs_recording s) ∧ bo_checksum object = blake3 (rs_recording s).
Definition submission_valid (s : ReplaySubmission) : Prop :=
  project_id_valid (rm_project_id (rs_metadata s)) ∧ id16_valid (rm_replay_id (rs_metadata s)) ∧ (0 ≤ rm_segment_id (rs_metadata s) ≤ U32_MAX).
Definition same_segment (s s' : ReplaySubmission) : Prop :=
  rm_project_id (rs_metadata s') = rm_project_id (rs_metadata s) ∧ rm_replay_id (rs_metadata s') = rm_replay_id (rs_metadata s)
  ∧ rm_segment_id (rs_metadata s') = rm_segment_id (rs_metadata s).

(** A recording that was accepted is recognised when it is sent again: the same
    bytes are a duplicate, other bytes for the segment a conflict. *)
Theorem accepted_recording_recognised `{!Blake3} s tr :
  submission_valid s → honest_commits s tr → exec (persist_one s) tr (Ok Accepted) →
  ∃ commit,
    existT (P := answer ReplayPortSig) (PersistSegment commit) (Ok Accepted) ∈ tr
    ∧ rc_metadata commit = rs_metadata s ∧ rg_segment_id (rc_segment commit) = rm_segment_id (rs_metadata s)
    ∧ ∀ s' record, same_segment s s' → find_segment record (rm_segment_id (rs_metadata s)) = Some (rc_segment commit) →
        (blake3 (rs_recording s') = blake3 (rs_recording s) → rs_recording s' = rs_recording s) →
        exec (persist_one s') [load_event s' (Ok record)]
          (if bool_decide (rs_recording s' = rs_recording s) then Ok DuplicateOutcome else Err SgConflict).
Proof.
  intros (Hp & Hr & Hs) Hhonest He. apply persist_one_exec in He as (loaded & rest & -> & He).
  destruct (known_segment s loaded) as [segment|]; [by destruct He as [_ He]; destruct (same_recording s segment)|].
  inversion He as [object relation reply Hrel|]; subst. eexists. split_and!; [do 4 apply list_elem_of_further; apply list_elem_of_here|done| |].
  - destruct (Hhonest object) as [Hk _]; [do 3 apply list_elem_of_further; apply list_elem_of_here|]. rewrite Hk in Hrel.
    pose proof (replay_relation_stored (StReplay _ _ _) (conj Hp (conj Hr Hs))) as Hst. unfold recording_key in Hrel.
    cbn [stored_key] in Hst. rewrite Hst in Hrel. by injection Hrel as <-.
  - intros s' record (E1 & E2 & E3) Hf Hinj. exists (Ok record), []. split; [by unfold load_event|].
    destruct (Hhonest object) as (_ & Hsize & Hsum); [do 3 apply list_elem_of_further; apply list_elem_of_here|].
    cbn. rewrite E3, Hf. cbn. split; [done|]. unfold same_recording. cbn [rg_object segment_commit rc_segment]. rewrite Hsize, Hsum.
    case_bool_decide as Hb.
    + rewrite Hb, Z.eqb_refl. by rewrite bool_decide_eq_true_2.
    + rewrite bool_decide_eq_false_2, andb_false_r by (intros Hx; by apply Hb, Hinj). done.
Qed.

(** *** The sweep *)

(** What [cleanup_orphans] is run against: the recordings in the order of the
    scan, each with whether a segment names it. *)
Record Sweep := { sw_objects : list (BlobObject * bool) }.
Definition scan_page (request : BlobScanRequest) (world : Sweep) : list (BlobObject * bool) :=
  take (Z.to_nat (bs_limit request)) (List.filter (λ o, bo_created_at o.1 <? bs_older_than request) (sw_objects world)).
Definition sweep_handler : handler ReplayPortSig Sweep := λ c world,
  match c return Sweep * replay_port_answer c with
  | BlobScan request => (world, Ok {| bp_objects := map fst (scan_page request world); bp_next_cursor := None |})
  | ReferencesReplayBlob key =>
      (world, Ok (existsb (λ o, bool_decide (bo_key o.1 = key) && o.2) (sw_objects world)))
  | BlobDelete key => ({| sw_objects := List.filter (λ o, negb (bool_decide (bo_key o.1 = key))) (sw_objects world) |}, Ok tt)
  | LoadReplay _ _ | PersistSegment _ => (world, Err SgUnavailable)
  | BlobBegin _ _ | BlobWriteChunk _ | BlobCommit _ => (world, Err BeUnavailable)
  end.
Definition cleanup_cutoff (now : Timestamp) (grace : duration) : result PrimitiveError Timestamp :=
  from_unix_millis (sat_i64 (now - unwrap_or I64_MAX (checked_i64 (as_millis grace)))).

(** Objects with the same key are one object. *)
Definition consistent (world : list (BlobObject * bool)) : Prop :=
  ∀ o o', o ∈ world → o' ∈ world → bo_key o.1 = bo_key o'.1 → o.2 = o'.2.
(** What is left when the unreferenced objects among [objects] are gone. *)
Definition without_orphans (objects : list BlobObject) (world : list (BlobObject * bool)) : list (BlobObject * bool) :=
  List.filter (λ o, o.2 || negb (bool_decide (bo_key o.1 ∈ map bo_key objects))) world.

Lemma consistent_filter p world : consistent world → consistent (List.filter p world).
Proof.
  intros Hc o o' Ho Ho'. apply list_elem_of_In, filter_In in Ho as [Ho _]. apply list_elem_of_In, filter_In in Ho' as [Ho' _].
  apply Hc; by apply list_elem_of_In.
Qed.
(** What the store says of a key is what every object of the key says. *)
Lemma referenced_by_key world o : consistent world → o ∈ world →
  existsb (λ o', bool_decide (bo_key o'.1 = bo_key o.1) && o'.2) world = o.2.
Proof.
  intros Hc Ho. apply eq_true_iff_eq. rewrite existsb_exists. split.
  - intros (o' & Ho'%list_elem_of_In & [Hk%bool_decide_eq_true Hf]%andb_true_iff). by rewrite (Hc o o').
  - intros Hf. exists o. split; [by apply list_elem_of_In|]. by rewrite Hf, bool_decide_eq_true_2.
Qed.
Lemma delete_orphans_run objects world : consistent (sw_objects world) →
  (run sweep_handler (delete_orphans objects) world).1.1 = {| sw_objects := without_orphans objects (sw_objects world) |}.
Proof.
  revert world. induction objects as [|object objects IH]; intros [world] Hc; cbn [sw_objects] in Hc.
  { cbn. f_equal. unfold without_orphans. cbn. rewrite (filter_ext_elem _ (λ _, true)) by (intros; by rewrite orb_true_r).
    induction world as [|o world IHw]; [done|]. cbn. f_equal. apply IHw. intros o1 o2 H1 H2. apply Hc; by apply list_elem_of_further. }
  cbn [delete_orphans]. unfold attempt, map_err_p, port, perform. cbn.
  destruct (existsb _ world) eqn:He; cbn.
  - specialize (IH {| sw_objects := world |} Hc). destruct (run sweep_handler (delete_orphans objects) _) as [[w tr] a].
    cbn in IH |- *. rewrite IH. f_equal. apply filter_ext_elem. intros o Ho. destruct (decide (bo_key o.1 = bo_key object)) as [Hk|Hk].
    + pose proof (referenced_by_key world o Hc Ho) as Hr. rewrite Hk, He in Hr. by rewrite <- Hr.
    + f_equal. f_equal. apply bool_decide_ext. cbn [map]. rewrite elem_of_cons. naive_solver.
  - specialize (IH {| sw_objects := List.filter (λ o, negb (bool_decide (bo_key o.1 = bo_key object))) world |}
      (consistent_filter _ _ Hc)). destruct (run sweep_handler (delete_orphans objects) _) as [[w tr] a].
    cbn in IH |- *. rewrite IH. f_equal. unfold without_orphans. cbn [sw_objects]. rewrite filter_filter_and. apply filter_ext_elem. intros o Ho.
    cbn [map]. rewrite (bool_decide_ext (bo_key o.1 ∈ bo_key object :: map bo_key objects)
      (bo_key o.1 = bo_key object ∨ bo_key o.1 ∈ map bo_key objects)) by apply elem_of_cons.
    rewrite bool_decide_or. destruct (decide (bo_key o.1 = bo_key object)) as [Hk|Hk].
    + pose proof (referenced_by_key world o Hc Ho) as Hr. rewrite Hk, He in Hr. rewrite <- Hr. by rewrite !(bool_decide_eq_true_2 _ Hk).
    + rewrite !(bool_decide_eq_false_2 _ Hk). cbn. apply andb_true_l.
Qed.

(** A sweep removes the orphans of the first page of the scan and nothing else;
    when that page has no orphan it removes nothing, whatever lies behind it. *)
Theorem sweep_removes_first_orphans now grace limit cutoff world :
  consistent (sw_objects world) → cleanup_cutoff now grace = Ok cutoff →
  let page := scan_page {| bs_namespace := NsReplayRecordings; bs_older_than := cutoff; bs_cursor := None; bs_limit := limit |} world in
  (run sweep_handler (cleanup_orphans now grace limit) world).1.1
  = {| sw_objects := without_orphans (map fst page) (sw_objects world) |}
  ∧ (Forall (λ o, o.2 = true) page → (run sweep_handler (cleanup_orphans now grace limit) world).1.1 = world).
Proof.
  intros Hc Hcut page.
  assert ((run sweep_handler (cleanup_orphans now grace limit) world).1.1
          = {| sw_objects := without_orphans (map fst page) (sw_objects world) |}) as Hrun.
  { unfold cleanup_orphans, cleanup_cutoff in *. cbv zeta. rewrite Hcut. unfold attempt, map_err_p, port, perform. cbn.
    pose proof (delete_orphans_run (map fst page) world Hc) as Hd. subst page.
    destruct (run sweep_handler (delete_orphans _) world) as [[w tr] a]. cbn in Hd |- *. exact Hd. }
  split; [done|]. intros Hkept. rewrite Hrun. destruct world as [world]. cbn [sw_objects] in *. f_equal. unfold without_orphans.
  rewrite (filter_ext_elem _ (λ _, true)).
  - clear. induction world as [|o world IH]; [done|]. cbn. by rewrite IH.
  - intros o Ho. apply orb_true_iff. destruct o.2 eqn:Ef; [by left|right]. apply negb_true_iff, bool_decide_eq_false_2.
    intros Hin. rewrite map_map in Hin. apply list_elem_of_fmap in Hin as (o' & Hk & Ho'). rewrite Forall_forall in Hkept.
    assert (o' ∈ world) as Hw.
    { subst page. unfold scan_page in Ho'. apply list_elem_of_lookup in Ho' as [k Hlk]. apply lookup_take_Some in Hlk as [Hlk _].
      apply list_elem_of_lookup_2, list_elem_of_In, filter_In in Hlk as [Hlk _]. by apply list_elem_of_In. }
    specialize (Hkept o' Ho'). rewrite (Hc o o') in Ef by done. congruence.
Qed.

(** ** Witnesses *)

#[local] Instance replay_digest : Blake3 := λ input, take 32 (reverse input ++ replicate 32 0).
Definition sample_submission : ReplaySubmission :=
  {| rs_metadata := {| rm_project_id := 42; rm_replay_id := replicate 16 3; rm_segment_id := 7; rm_started_at := 1000; rm_ended_at := 2000;
                       rm_received_at := 3000; rm_environment := None; rm_release := None; rm_url := None; rm_error_ids := [];
                       rm_trace_ids := [] |};
     rs_recording := lit "{}[]"; rs_decompressed_bytes := 2; rs_event_count := 0 |}.
Definition sample_object : BlobObject :=
  {| bo_key := recording_key sample_submission; bo_kind := BkReplayRecording; bo_size := 4;
     bo_checksum := blake3 (lit "{}[]"); bo_created_at := 3000 |}.
Definition sample_trace : list (event ReplayPortSig) :=
  load_event sample_submission (Err SgNotFound) :: object_events sample_submission sample_object
  ++ [existT (P := answer ReplayPortSig) (PersistSegment (segment_commit sample_submission sample_object 7)) (Ok Accepted)].
Definition committed_object (e : event ReplayPortSig) : option BlobObject :=
  let '(existT c x) := e in
  match c return replay_port_answer c → option BlobObject with
  | BlobCommit _ => λ x, match x with Ok object => Some object | Err _ => None end
  | _ => λ _, None
  end x.
Lemma accepted_recording_recognised_witness :
  submission_valid sample_submission ∧ exec (persist_one sample_submission) sample_trace (Ok Accepted)
  ∧ ∃ commit, existT (P := answer ReplayPortSig) (PersistSegment commit) (Ok Accepted) ∈ sample_trace
      ∧ rg_segment_id (rc_segment commit) = 7.
Proof.
  assert (submission_valid sample_submission) as Hv.
  { split; [done|]. split; [|done]. split; [done|]. by apply Forall_replicate. }
  assert (exec (persist_one sample_submission) sample_trace (Ok Accepted)) as He.
  { exists (Err SgNotFound). eexists. split; [reflexivity|]. do 3 (eexists; eexists; split; [reflexivity|]).
    assert (replay_relation (bo_key sample_object) = Ok (42, replicate 16 3, 7)) as Hr by (vm_compute; reflexivity).
    cbn [mbind prog_bind]. cbn -[replay_relation sample_object]. rewrite Hr. eexists; eexists; split; [reflexivity|]. done. }
  split; [done|]. split; [done|].
  destruct (accepted_recording_recognised sample_submission sample_trace) as (commit & Hc & _ & Hi & _); [done| |done|by exists commit].
  intros object Ho. unfold sample_trace, object_events, load_event in Ho. cbn [app] in Ho.
  repeat (apply elem_of_cons in Ho as [Ho|Ho]; [try discriminate Ho|]); [|by apply elem_of_nil in Ho].
  apply (f_equal committed_object) in Ho. cbn in Ho. by injection Ho as ->.
Defined.

(** Two segments that are stored and an object no segment names. *)
Definition sample_sweep : Sweep :=
  {| sw_objects := [(sample_object, true);
       ({| bo_key := lit "b"; bo_kind := BkReplayRecording; bo_size := 1; bo_checksum := []; bo_created_at := 3000 |}, true);
       ({| bo_key := lit "c"; bo_kind := BkReplayRecording; bo_size := 1; bo_checksum := []; bo_created_at := 3000 |}, false)] |}.
Lemma sweep_removes_first_orphans_witness :
  consistent (sw_objects sample_sweep)
  ∧ (run sweep_handler (cleanup_orphans 4000000 (1000 * NANOS_PER_MILLI) 2) sample_sweep).1.1 = sample_sweep
  ∧ len (sw_objects (run sweep_handler (cleanup_orphans 4000000 (1000 * NANOS_PER_MILLI) 3) sample_sweep).1.1) = 2.
Proof.
  assert (consistent (sw_objects sample_sweep)) as Hc.
  { intros o o' Ho Ho' Hk. cbn [sw_objects sample_sweep] in Ho, Ho'. rewrite !elem_of_cons, elem_of_nil in Ho, Ho'.
    destruct Ho as [-> | [-> | [-> | []]]], Ho' as [-> | [-> | [-> | []]]]; try done; by vm_compute in Hk. }
  split; [done|]. split.
  - apply (sweep_removes_first_orphans 4000000 (1000 * NANOS_PER_MILLI) 2 3999000 sample_sweep Hc); [by vm_compute|].
    cbn. by repeat constructor.
  - pose proof (sweep_removes_first_orphans 4000000 (1000 * NANOS_PER_MILLI) 3 3999000 sample_sweep Hc) as H. cbv zeta in H.
    destruct H as [-> _]; [by vm_compute|]. by vm_compute.
Defined.
