(* ===== verification/ReleaseService.v ===== *)
(** * The release service

    [application/src/releases.rs]: releases and deploys for an authenticated
    caller.  Every method is a program over the store and the clock; the
    permission comes first and every call names the organization of the caller. *)
From stdpp Require Import base list numbers strings sets.
From Stdlib Require Import ZArith Lia.
From S2P Require Import Prelude Primitives Identity Releases Effects Auth Issues.

Open Scope prog_scope.

Inductive ReleaseError :=
| ReleaseInvalidRequest | ReleaseForbidden | ReleaseNotFound | ReleaseConflict | ReleaseUnavailable.
Inductive ReleaseStoreError := RlNotFound | RlConflict | RlInvalidData | RlUnavailable.
Inductive ReleaseIssueKind := RikNew | RikRegressed.
Record ReleaseIssueSummary := {
  ri_issue_id : bytes;
  ri_title : str;
  ri_first_seen : Timestamp;
  ri_last_seen : Timestamp;
  ri_first_release : option str;
  ri_last_release : option str;
}.
Record CreateDeployRequest := {
  dr_operation_id : bytes;
  dr_environment : str;
  dr_name : option str;
  dr_url : option str;
  dr_started_at : option Timestamp;
  dr_finished_at : option Timestamp;
}.
Definition map_store (e : ReleaseStoreError) : ReleaseError :=
  match e with
  | RlNotFound => ReleaseNotFound
  | RlConflict => ReleaseConflict
  | RlInvalidData => ReleaseInvalidRequest
  | RlUnavailable => ReleaseUnavailable
  end.
(** [require] of the service: the permission alone. *)
Definition require_permission (context : AuthContext) (p : Permission) : result ReleaseError unit :=
  if permission_set_contains (cx_permissions context) p then Ok tt else Err ReleaseForbidden.

Inductive ReleaseCall :=
| RlClockNow
| ResolveProjects (organization_slug : str) (project_slugs : list str)
| CallCreateRelease (command : CreateRelease)
| CallFinalizeRelease (command : FinalizeRelease)
| LoadRelease (organization_id : Z) (release_id : bytes)
| CallCreateDeploy (command : CreateDeploy)
| CallFinishDeploy (organization_id : Z) (deploy_id : bytes) (finished_at : Timestamp)
| ListDeploys (organization_id : Z) (project_id : ProjectId) (release_id : bytes) (before : option (Timestamp * bytes)) (limit : Z)
| ListReleaseIssues (project_id : ProjectId) (release : str) (kind : ReleaseIssueKind)
    (before : option (Timestamp * bytes)) (limit : Z).
Definition release_answer (c : ReleaseCall) : Type :=
  match c with
  | RlClockNow => Timestamp
  | ResolveProjects _ _ => result ReleaseStoreError (Z * list ProjectId)
  | CallCreateRelease _ | CallFinalizeRelease _ | LoadRelease _ _ => result ReleaseStoreError ReleaseRecord
  | CallCreateDeploy _ | CallFinishDeploy _ _ _ => result ReleaseStoreError DeployRecord
  | ListDeploys _ _ _ _ _ => result ReleaseStoreError (list DeployRecord)
  | ListReleaseIssues _ _ _ _ _ => result ReleaseStoreError (list ReleaseIssueSummary)
  end.
Definition ReleaseSig : signature := Signature ReleaseCall release_answer.
Abbreviation releasing A := (prog ReleaseSig (result ReleaseError A)).
Definition rl (c : ReleaseCall) : prog ReleaseSig (release_answer c) := perform (E := ReleaseSig) c.
(** [value.unwrap_or_else(|| self.clock.now())]. *)
Definition or_now (value : option Timestamp) : prog ReleaseSig Timestamp :=
  match value with Some t => mret t | None => rl RlClockNow end.

Section service.
Context `{!Blake3} (context : AuthContext).

Definition resolve_cli_projects (organization_slug : str) (project_slugs : list str) : releasing (Z * list ProjectId) :=
  _ ←! require_permission context ReleaseWrite;
  resolved ←? map_err_p map_store (rl (ResolveProjects organization_slug project_slugs));
  if negb (bool_decide (resolved.1 = cx_organization_id context)) then Ret (Err ReleaseNotFound) else Ret (Ok resolved).
Definition release_create (project_ids : list ProjectId) (version : str) (url reference : option str)
    (repositories : list RepositoryReference) : releasing ReleaseRecord :=
  _ ←! require_permission context ReleaseWrite;
  now ← rl RlClockNow;
  map_err_p map_store (rl (CallCreateRelease
    {| cr_organization_id := cx_organization_id context; cr_project_ids := project_ids; cr_version := version; cr_url := url;
       cr_reference := reference; cr_repositories := repositories; cr_created_at := now |})).
Definition release_finalize (release_id : bytes) (released_at : option Timestamp) : releasing ReleaseRecord :=
  _ ←! require_permission context ReleaseWrite;
  released_at ← or_now released_at;
  map_err_p map_store (rl (CallFinalizeRelease
    {| fr_organization_id := cx_organization_id context; fr_release_id := release_id; fr_released_at := released_at |})).
Definition release_load (release_id : bytes) : releasing ReleaseRecord :=
  _ ←! require_permission context ReleaseRead;
  map_err_p map_store (rl (LoadRelease (cx_organization_id context) release_id)).
Definition load_version (version : str) : releasing ReleaseRecord :=
  _ ←! map_err (λ _, ReleaseInvalidRequest) (validate_version version);
  release_load (derive_release_id (cx_organization_id context) version).
Definition deploy_command (release_id : bytes) (project_ids : list ProjectId) (request : CreateDeployRequest) (now : Timestamp)
    : CreateDeploy :=
  {| cd_deploy_id := derive_deploy_id (cx_organization_id context) release_id (dr_operation_id request);
     cd_organization_id := cx_organization_id context; cd_release_id := release_id; cd_project_ids := project_ids;
     cd_environment := dr_environment request; cd_name := dr_name request; cd_url := dr_url request;
     cd_started_at := unwrap_or now (dr_started_at request); cd_finished_at := dr_finished_at request; cd_created_at := now |}.
Definition release_create_deploy (release_id : bytes) (project_ids : list ProjectId) (request : CreateDeployRequest)
    : releasing DeployRecord :=
  _ ←! require_permission context ReleaseWrite;
  now ← rl RlClockNow;
  map_err_p map_store (rl (CallCreateDeploy (deploy_command release_id project_ids request now))).
Definition release_finish_deploy (deploy_id : bytes) (finished_at : option Timestamp) : releasing DeployRecord :=
  _ ←! require_permission context ReleaseWrite;
  finished_at ← or_now finished_at;
  map_err_p map_store (rl (CallFinishDeploy (cx_organization_id context) deploy_id finished_at)).
Definition release_deploys (project_id : ProjectId) (release_id : bytes) (limit : Z) : releasing (list DeployRecord) :=
  _ ←! require_permission context ReleaseRead;
  map_err_p map_store (rl (ListDeploys (cx_organization_id context) project_id release_id None limit)).
Definition release_issues (project_id : ProjectId) (release : str) (kind : ReleaseIssueKind) (limit : Z)
    : releasing (list ReleaseIssueSummary) :=
  _ ←! require_permission context ReleaseRead;
  map_err_p map_store (rl (ListReleaseIssues project_id release kind None limit)).

(** ** What a caller may reach *)

Inductive ReleaseOperation :=
| OpResolve (organization_slug : str) (project_slugs : list str)
| OpCreate (project_ids : list ProjectId) (version : str) (url reference : option str) (repositories : list RepositoryReference)
| OpFinalize (release_id : bytes) (released_at : option Timestamp)
| OpLoad (release_id : bytes) | OpLoadVersion (version : str)
| OpCreateDeploy (release_id : bytes) (project_ids : list ProjectId) (request : CreateDeployRequest)
| OpFinishDeploy (deploy_id : bytes) (finished_at : option Timestamp)
| OpDeploys (project_id : ProjectId) (release_id : bytes) (limit : Z)
| OpIssues (project_id : ProjectId) (release : str) (kind : ReleaseIssueKind) (limit : Z).
Definition quiet {A} (p : releasing A) : releasing unit :=
  p ≫= λ r, Ret (match r with Ok _ => Ok tt | Err e => Err e end).
Definition release_operation (op : ReleaseOperation) : releasing unit :=
  match op with
  | OpResolve o p => quiet (resolve_cli_projects o p)
  | OpCreate p v u r repositories => quiet (release_create p v u r repositories)
  | OpFinalize id at_ => quiet (release_finalize id at_)
  | OpLoad id => quiet (release_load id)
  | OpLoadVersion v => quiet (load_version v)
  | OpCreateDeploy id p request => quiet (release_create_deploy id p request)
  | OpFinishDeploy id at_ => quiet (release_finish_deploy id at_)
  | OpDeploys p id limit => quiet (release_deploys p id limit)
  | OpIssues p release kind limit => quiet (release_issues p release kind limit)
  end.
Definition call_permission (c : ReleaseCall) : Permission :=
  match c with
  | LoadRelease _ _ | ListDeploys _ _ _ _ _ | ListReleaseIssues _ _ _ _ _ => ReleaseRead
  | _ => ReleaseWrite
  end.
(** The call is one the caller may make, in its own organization, with the times
    of the clock where the request names none. *)
Definition release_allowed (h : list (event ReleaseSig)) (c : ReleaseCall) : Prop :=
  permission_set_contains (cx_permissions context) (call_permission c) = true
  ∧ match c with
    | CallCreateRelease command =>
        cr_organization_id command = cx_organization_id context ∧ answered (E := ReleaseSig) RlClockNow (cr_created_at command) h
    | CallFinalizeRelease command => fr_organization_id command = cx_organization_id context
    | CallCreateDeploy command =>
        cd_organization_id command = cx_organization_id context ∧ answered (E := ReleaseSig) RlClockNow (cd_created_at command) h
        ∧ ∃ operation_id, cd_deploy_id command = derive_deploy_id (cx_organization_id context) (cd_release_id command) operation_id
    | LoadRelease organization_id _ | CallFinishDeploy organization_id _ _ | ListDeploys organization_id _ _ _ _ =>
        organization_id = cx_organization_id context
    | ListReleaseIssues _ _ _ _ _ | ResolveProjects _ _ | RlClockNow => True
    end.
(** The store answered the call with a value. *)
Definition store_accepted (e : event ReleaseSig) : bool :=
  let '(existT c x) := e in
  match c return release_answer c → bool with
  | RlClockNow => λ _, false
  | ResolveProjects _ _ | CallCreateRelease _ | CallFinalizeRelease _ | LoadRelease _ _ | CallCreateDeploy _
  | CallFinishDeploy _ _ _ | ListDeploys _ _ _ _ _ | ListReleaseIssues _ _ _ _ _ => λ x, is_ok x
  end x.
(** A success is the answer of the store; what it resolved is of the caller. *)
Definition release_told (op : ReleaseOperation) (h : list (event ReleaseSig)) (r : result ReleaseError unit) : Prop :=
  match r, op with
  | Err _, _ => True
  | Ok _, OpResolve o p => ∃ projects, answered (E := ReleaseSig) (ResolveProjects o p) (Ok (cx_organization_id context, projects)) h
  | Ok _, OpLoadVersion v =>
      validate_version v = Ok tt
      ∧ ∃ record, answered (E := ReleaseSig) (LoadRelease (cx_organization_id context) (derive_release_id (cx_organization_id context) v))
                    (Ok record) h
  | Ok _, _ => ∃ e, e ∈ h ∧ store_accepted e = true
  end.
End service.

Lemma require_permission_true context p u : require_permission context p = Ok u →
  permission_set_contains (cx_permissions context) p = true.
Proof. unfold require_permission. by destruct (permission_set_contains _ p). Qed.

Section calls.
Context `{!Blake3} (context : AuthContext).
Abbreviation ends_with_call op h p :=
  (sat (release_allowed context) (λ h r, sat (release_allowed context) (release_told context op) h
     (Ret (match r with Ok _ => Ok tt | Err e => Err e end))) h p).

(** A method ends with one call, whose answer is its own. *)
Lemma store_call_sat h c {A} (as_result : release_answer c → result ReleaseStoreError A) op :
  release_allowed context h c →
  (∀ x a, as_result x = Ok a → release_told context op (h ++ [existT (P := answer ReleaseSig) c x]) (Ok tt)) →
  ends_with_call op h (map_err_p map_store (rl c ≫= λ x, Ret (as_result x))).
Proof.
  intros Hc Hok. split; [done|]. intros x. cbn. destruct (as_result x) as [a|e] eqn:E; cbn; [by eapply Hok|done].
Qed.
(** The time that is not given is read first. *)
Lemma or_now_sat h value op {A} (k : Timestamp → releasing A) :
  (value = None → release_allowed context h RlClockNow) →
  (∀ now h', (h' = h ∨ h' = h ++ [existT (P := answer ReleaseSig) RlClockNow now]) → ends_with_call op h' (k now)) →
  ends_with_call op h (or_now value ≫= k).
Proof.
  intros Hn Hk. destruct value as [t|]; [by apply (Hk t h); left|]. split; [by apply Hn|]. intros now. by apply Hk; right.
Qed.
End calls.

(** The last event is the answer of the store. *)
Ltac store_told last :=
  let Hx := fresh in intros ? ? Hx; eexists; split; [apply last|]; cbn in Hx |- *; by rewrite Hx.

(** Whatever the store answers, an operation on releases reaches it only with the
    permission it needs and only in the organization of the caller, and answers
    what the store told. *)
Theorem release_service_authorized `{!Blake3} context op :
  sat (release_allowed context) (release_told context op) [] (release_operation context op).
Proof.
  assert (∀ (h : list (event ReleaseSig)) e, e ∈ h ++ [e]) as Hlast by (intros h e; apply elem_of_app; right; apply list_elem_of_here).
  destruct op; cbn [release_operation]; unfold quiet, load_version, resolve_cli_projects, release_create, release_finalize,
    release_load, release_create_deploy, release_finish_deploy, release_deploys, release_issues; rewrite sat_bind;
    repeat (apply sat_attempt_pure; [|done]; intros ?; first [intros Hp%require_permission_true|intros Hv]).
  - split; [done|]. intros [[organization projects]|e]; cbn; [|done]. case_bool_decide as Ho; cbn; [|done]. subst.
    exists projects. apply list_elem_of_here.
  - split; [done|]. intros now. apply (store_call_sat context _ (CallCreateRelease _) id); [by repeat split; try apply Hlast|].
    store_told Hlast.
  - apply or_now_sat; [done|]. intros now h _. apply (store_call_sat context _ (CallFinalizeRelease _) id); [done|].
    store_told Hlast.
  - apply (store_call_sat context _ (LoadRelease _ _) id); [done|].
    store_told Hlast.
  - apply (store_call_sat context _ (LoadRelease _ _) id); [done|]. intros x record Hx. cbn in Hx. subst x.
    split; [by destruct (validate_version version) as [[]|]|]. exists record. apply Hlast.
  - split; [done|]. intros now. apply (store_call_sat context _ (CallCreateDeploy _) id).
    { split; [done|]. split; [done|]. split; [apply Hlast|by eexists]. }
    store_told Hlast.
  - apply or_now_sat; [done|]. intros now h _. apply (store_call_sat context _ (CallFinishDeploy _ _ _) id); [done|].
    store_told Hlast.
  - apply (store_call_sat context _ (ListDeploys _ _ _ _ _) id); [done|].
    store_told Hlast.
  - apply (store_call_sat context _ (ListReleaseIssues _ _ _ _ _) id); [done|].
    store_told Hlast.
Qed.
