(* ===== verification/BlobCleanup.v ===== *)
(** * Cleanup of event-owned objects

    [application/src/blob_cleanup.rs]: a run scans the objects of events that
    are old enough, page by page, and deletes those no event refers to.  The run
    is a program over the clock and the two stores; over a store that scans in
    the order of the keys it is proved to remove exactly the orphans among the
    first pages. *)
From stdpp Require Import base list numbers strings sets sorting.
From Stdlib Require Import ZArith Lia.
From S2P Require Import Prelude External Primitives Event Normalizer Blobs Effects Ingest Uptime ReplayWriter.

Open Scope prog_scope.

Record BlobCleanupConfig := {
  bc_orphan_grace : duration;
  bc_interval : duration;
  bc_batch_size : Z;
  bc_max_pages_per_run : Z;
}.
Definition blob_cleanup_default : BlobCleanupConfig :=
  {| bc_orphan_grace := 86400000 * NANOS_PER_MILLI; bc_interval := 900000 * NANOS_PER_MILLI;
     bc_batch_size := 256; bc_max_pages_per_run := 16 |}.
Record BlobCleanupReport := { br_scanned : Z; br_referenced : Z; br_deleted : Z }.
Definition empty_report : BlobCleanupReport := {| br_scanned := 0; br_referenced := 0; br_deleted := 0 |}.
Inductive BlobCleanupError := BcInvalidConfiguration | BcStorage.
(** The test [BlobCleanupService::new] makes. *)
Definition blob_cleanup_new (c : BlobCleanupConfig) : result BlobCleanupError unit :=
  if (bc_orphan_grace c =? 0) || (bc_interval c =? 0) || (bc_batch_size c =? 0) || (10000 <? bc_batch_size c)
     || (bc_max_pages_per_run c =? 0) || (1024 <? bc_max_pages_per_run c)
  then Err BcInvalidConfiguration else Ok tt.

Record BlobReference := { bf_project_id : ProjectId; bf_event_id : bytes; bf_object_id : bytes }.
Inductive CleanupCall :=
| CuClockNow
| CuScan (request : BlobScanRequest)
| CuIsReferenced (reference : BlobReference)
| CuDelete (key : BlobKey).
Definition cleanup_answer (c : CleanupCall) : Type :=
  match c with
  | CuClockNow => Timestamp
  | CuScan _ => result BlobStoreError BlobScanPage
  | CuIsReferenced _ => result BlobStoreError bool
  | CuDelete _ => result BlobStoreError unit
  end.
Definition CleanupSig : signature := Signature CleanupCall cleanup_answer.
Abbreviation cleaning A := (prog CleanupSig (result BlobCleanupError A)).
Definition cu (c : CleanupCall) : prog CleanupSig (cleanup_answer c) := perform (E := CleanupSig) c.
Definition map_storage (e : BlobStoreError) : BlobCleanupError := BcStorage.

Definition count_scanned (r : BlobCleanupReport) : BlobCleanupReport :=
  {| br_scanned := sat_u64 (br_scanned r + 1); br_referenced := br_referenced r; br_deleted := br_deleted r |}.
Definition count_referenced (r : BlobCleanupReport) : BlobCleanupReport :=
  {| br_scanned := br_scanned r; br_referenced := sat_u64 (br_referenced r + 1); br_deleted := br_deleted r |}.
Definition count_deleted (r : BlobCleanupReport) : BlobCleanupReport :=
  {| br_scanned := br_scanned r; br_referenced := br_referenced r; br_deleted := sat_u64 (br_deleted r + 1) |}.
Definition relation_reference (r : ProjectId * bytes * bytes) : BlobReference :=
  {| bf_project_id := r.1.1; bf_event_id := r.1.2; bf_object_id := r.2 |}.

Fixpoint cleanup_objects (objects : list BlobObject) (report : BlobCleanupReport) : cleaning BlobCleanupReport :=
  match objects with
  | [] => Ret (Ok report)
  | object :: objects =>
      let report := count_scanned report in
      relation ←! map_err (λ _, BcStorage) (event_relation (bo_key object));
      referenced ←? map_err_p map_storage (cu (CuIsReferenced (relation_reference relation)));
      if (referenced : bool) then cleanup_objects objects (count_referenced report)
      else
        _ ←? map_err_p map_storage (cu (CuDelete (bo_key object)));
        cleanup_objects objects (count_deleted report)
  end.
Fixpoint cleanup_pages (c : BlobCleanupConfig) (cutoff : Timestamp) (pages : nat) (cursor : option str)
    (report : BlobCleanupReport) : cleaning BlobCleanupReport :=
  match pages with
  | O => Ret (Ok report)
  | S pages =>
      page ←? map_err_p map_storage (cu (CuScan {| bs_namespace := NsEventOwned; bs_older_than := cutoff; bs_cursor := cursor;
                                                   bs_limit := bc_batch_size c |}));
      report ←? cleanup_objects (bp_objects page) report;
      match bp_next_cursor page with
      | None => Ret (Ok report)
      | Some next => cleanup_pages c cutoff pages (Some next) report
      end
  end.
Definition orphan_cutoff (c : BlobCleanupConfig) (now : Timestamp) : result BlobCleanupError Timestamp :=
  grace ← ok_or BcInvalidConfiguration (checked_i64 (as_millis (bc_orphan_grace c)));
  cutoff ← ok_or BcInvalidConfiguration (checked_i64 (now - grace));
  map_err (λ _, BcInvalidConfiguration) (from_unix_millis cutoff).
(** The duration is converted before the clock is read; the order does not show. *)
Definition blob_cleanup_run_once (c : BlobCleanupConfig) : cleaning BlobCleanupReport :=
  match checked_i64 (as_millis (bc_orphan_grace c)) with
  | None => Ret (Err BcInvalidConfiguration)
  | Some _ =>
      now ← cu CuClockNow;
      cutoff ←! orphan_cutoff c now;
      cleanup_pages c cutoff (Z.to_nat (bc_max_pages_per_run c)) None empty_report
  end.

(** ** A store that scans in the order of the keys *)

(** The stores of [blob/src]: the local one leaves out young objects before it
    counts a page, the S3 one after; a page of S3 has at most a thousand keys.
    An object exactly at the cutoff is old in both. *)
Record ScanStore := { ss_age_first : bool; ss_page_limit : Z }.
Definition local_store : ScanStore := {| ss_age_first := true; ss_page_limit := 10000 |}.
Definition s3_store : ScanStore := {| ss_age_first := false; ss_page_limit := 1000 |}.

(** The objects, each with whether an event refers to it. *)
Abbreviation held := (list (BlobObject * bool)).
Definition after_cursor (cursor : option str) (o : BlobObject * bool) : bool :=
  is_none_or (λ key, str_ltb key (bo_key o.1)) cursor.
Definition old (cutoff : Timestamp) (o : BlobObject * bool) : bool := bo_created_at o.1 <=? cutoff.
Definition counted_old (st : ScanStore) (cutoff : Timestamp) (o : BlobObject * bool) : bool := negb (ss_age_first st) || old cutoff o.
Definition to_scan (st : ScanStore) (request : BlobScanRequest) (world : held) : held :=
  List.filter (λ o, counted_old st (bs_older_than request) o && after_cursor (bs_cursor request) o) world.
Definition page_length (st : ScanStore) (request : BlobScanRequest) : Z := Z.min (bs_limit request) (ss_page_limit st).
Definition key_page (st : ScanStore) (request : BlobScanRequest) (world : held) : BlobScanPage :=
  let rest := to_scan st request world in
  let page := take (Z.to_nat (page_length st request)) rest in
  {| bp_objects := map fst (List.filter (old (bs_older_than request)) page);
     bp_next_cursor := if page_length st request <? len rest then (λ o, bo_key o.1) <$> last page else None |}.
Record CleanupWorld := { cw_now : Timestamp; cw_held : held }.
Definition refers (reference : BlobReference) (o : BlobObject * bool) : bool :=
  match event_relation (bo_key o.1) with
  | Ok r => bool_decide (r.1.1 = bf_project_id reference) && bool_decide (r.1.2 = bf_event_id reference)
            && bool_decide (r.2 = bf_object_id reference) && o.2
  | Err _ => false
  end.
Definition without_key (key : BlobKey) (world : held) : held := List.filter (λ o, negb (bool_decide (bo_key o.1 = key))) world.
Definition cleanup_handler (st : ScanStore) : handler CleanupSig CleanupWorld := λ c world,
  match c return CleanupWorld * cleanup_answer c with
  | CuClockNow => (world, cw_now world)
  | CuScan request => (world, Ok (key_page st request (cw_held world)))
  | CuIsReferenced reference => (world, Ok (existsb (refers reference) (cw_held world)))
  | CuDelete key => ({| cw_now := cw_now world; cw_held := without_key key (cw_held world) |}, Ok tt)
  end.

Definition key_of_held (o : BlobObject * bool) : BlobKey := bo_key o.1.
Definition key_before (x y : BlobObject * bool) : Prop := str_ltb (key_of_held x) (key_of_held y) = true.
(** What a run leaves when [seen] were the objects of its pages. *)
Definition unlinked (seen world : held) : held :=
  List.filter (λ o, o.2 || negb (bool_decide (key_of_held o ∈ map key_of_held seen))) world.
Definition count_object (r : BlobCleanupReport) (o : BlobObject * bool) : BlobCleanupReport :=
  (if o.2 then count_referenced else count_deleted) (count_scanned r).
(** Keys are in order and name events, and what one object says of its event's
    reference every object says. *)
Record world_ok (world : held) : Prop := {
  wo_sorted : StronglySorted key_before world;
  wo_related : Forall (λ o, ∃ r, event_relation (key_of_held o) = Ok r) world;
  wo_agree : ∀ o o', o ∈ world → o' ∈ world → event_relation (key_of_held o) = event_relation (key_of_held o') → o.2 = o'.2;
}.

Lemma key_before_irrefl x : ¬ key_before x x.
Proof. unfold key_before. by rewrite str_ltb_irrefl. Qed.
Lemma sorted_filter {A} (R : A → A → Prop) p l : StronglySorted R l → StronglySorted R (List.filter p l).
Proof.
  induction 1 as [|x l Hl IH Hx]; [constructor|]. cbn. destruct (p x); [|done]. constructor; [done|].
  rewrite Forall_forall in Hx |- *. intros y Hy. apply list_elem_of_In, filter_In in Hy as [Hy _]. by apply Hx, list_elem_of_In.
Qed.
Lemma elem_of_lfilter {A} (p : A → bool) l x : x ∈ List.filter p l ↔ x ∈ l ∧ p x = true.
Proof. by rewrite !list_elem_of_In, filter_In. Qed.
Lemma world_ok_filter p world : world_ok world → world_ok (List.filter p world).
Proof.
  intros [Hs Hr Ha]. split.
  - by apply sorted_filter.
  - rewrite Forall_forall in Hr |- *. by intros o [Ho _]%elem_of_lfilter; apply Hr.
  - intros o o' [Ho _]%elem_of_lfilter [Ho' _]%elem_of_lfilter. by apply Ha.
Qed.
Lemma sorted_key_inj world x y : StronglySorted key_before world → x ∈ world → y ∈ world →
  key_of_held x = key_of_held y → x = y.
Proof.
  induction 1 as [|z l Hl IH Hz]; intros Hx Hy Hk; [by apply elem_of_nil in Hx|]. rewrite Forall_forall in Hz.
  apply elem_of_cons in Hx as [->|Hx], Hy as [->|Hy]; try done.
  - specialize (Hz y Hy). unfold key_before in Hz. by rewrite Hk, str_ltb_irrefl in Hz.
  - specialize (Hz x Hx). unfold key_before in Hz. by rewrite <- Hk, str_ltb_irrefl in Hz.
  - by apply IH.
Qed.
Lemma refers_own world o r : world_ok world → o ∈ world → event_relation (key_of_held o) = Ok r →
  existsb (refers (relation_reference r)) world = o.2.
Proof.
  intros Hw Ho Hr. apply eq_true_iff_eq. rewrite existsb_exists. unfold refers. split.
  - intros (o' & Ho'%list_elem_of_In & He). fold (key_of_held o') in He. destruct (event_relation (key_of_held o')) as [r'|] eqn:Hr'; [|done].
    rewrite !andb_true_iff, !bool_decide_eq_true in He. cbn in He. destruct He as [[[E1 E2] E3] Hf].
    rewrite (wo_agree world Hw o o' Ho Ho'); [done|]. rewrite Hr, Hr'. destruct r as [[? ?] ?], r' as [[? ?] ?]. cbn in *. by subst.
  - intros Hf. exists o. split; [by apply list_elem_of_In|]. fold (key_of_held o). rewrite Hr.
    by rewrite !bool_decide_eq_true_2, Hf.
Qed.
(** In the order of the keys, what follows an element is the rest of the list. *)
Lemma after_drops l k x : StronglySorted key_before l → l !! k = Some x →
  List.filter (after_cursor (Some (key_of_held x))) l = drop (S k) l.
Proof.
  assert (∀ y l', Forall (key_before y) l' → List.filter (after_cursor (Some (key_of_held y))) l' = l') as Hall.
  { intros y l'. induction 1 as [|z l' Hz _ IH]; [done|]. cbn [List.filter after_cursor is_none_or].
    unfold key_before, key_of_held in *. by rewrite Hz, IH. }
  intros Hs. revert k. induction Hs as [|y l Hs IH Hy]; intros [|k] Hk; [done|done|..]; cbn in Hk.
  - injection Hk as ->. cbn [List.filter after_cursor is_none_or drop]. rewrite drop_0. fold (key_of_held x).
    rewrite str_ltb_irrefl. by apply Hall.
  - cbn [List.filter drop after_cursor is_none_or]. assert (key_before y x) as Hyx.
    { rewrite Forall_forall in Hy. apply Hy. by eapply list_elem_of_lookup_2. }
    fold (key_of_held y). destruct (str_ltb (key_of_held x) (key_of_held y)) eqn:E; [|by apply IH].
    pose proof (str_ltb_trans _ _ _ Hyx E) as Hc. by rewrite str_ltb_irrefl in Hc.
Qed.
Lemma before_NoDup l : StronglySorted key_before l → NoDup l.
Proof.
  induction 1 as [|x l Hl IH Hx]; constructor; [|done]. intros Hin. rewrite Forall_forall in Hx.
  by eapply key_before_irrefl, Hx.
Qed.
Lemma before_lookup l i j x y : StronglySorted key_before l → l !! i = Some x → l !! j = Some y → (i < j)%nat → key_before x y.
Proof.
  intros Hs. revert i j. induction Hs as [|z l Hl IH Hz]; intros [|i] [|j] Hx Hy Hij; try done; try lia; cbn in Hx, Hy.
  - injection Hx as ->. rewrite Forall_forall in Hz. apply Hz. by eapply list_elem_of_lookup_2.
  - eapply IH; [done..|lia].
Qed.
Lemma unlinked_app seen seen' world : unlinked seen' (unlinked seen world) = unlinked (seen ++ seen') world.
Proof.
  unfold unlinked. rewrite filter_filter_and. apply filter_ext_elem. intros o _. rewrite map_app.
  rewrite (bool_decide_ext (key_of_held o ∈ map key_of_held seen ++ map key_of_held seen')
             (key_of_held o ∈ map key_of_held seen ∨ key_of_held o ∈ map key_of_held seen')) by apply elem_of_app.
  rewrite bool_decide_or. by destruct o.2, (bool_decide _), (bool_decide _).
Qed.
Lemma unlinked_nil world : unlinked [] world = world.
Proof.
  unfold unlinked. rewrite (filter_ext_elem _ (λ _, true)) by (intros; cbn; by rewrite orb_true_r).
  induction world as [|o world IH]; [done|]. cbn. by rewrite IH.
Qed.
(** One object: deleted unless it is referred to. *)
Lemma unlinked_one world o : StronglySorted key_before world → o ∈ world →
  unlinked [o] world = if o.2 then world else without_key (key_of_held o) world.
Proof.
  intros Hs Ho. rewrite <- (unlinked_nil world) at 2. unfold unlinked, without_key.
  destruct o.2 eqn:Ef; apply filter_ext_elem; intros o' Ho'; cbn [map].
  all: rewrite (bool_decide_ext (key_of_held o' ∈ [key_of_held o]) (key_of_held o' = key_of_held o)) by apply list_elem_of_singleton.
  all: destruct (decide (key_of_held o' = key_of_held o)) as [Hk|Hk].
  - assert (o' = o) as -> by (by eapply sorted_key_inj). by rewrite Ef.
  - by rewrite (bool_decide_eq_false_2 _ Hk), !orb_true_r.
  - assert (o' = o) as -> by (by eapply sorted_key_inj). by rewrite Ef.
  - rewrite (bool_decide_eq_false_2 _ Hk). unfold key_of_held in Hk. rewrite (bool_decide_eq_false_2 _ Hk). by rewrite orb_true_r.
Qed.

(** ** The run *)

Section run.
Context (st : ScanStore).
(** [p] leaves the state [s'] and answers [a]. *)
Definition leaves {A} (w : CleanupWorld) (p : prog CleanupSig A) (w' : CleanupWorld) (a : A) : Prop :=
  ∃ tr, run (cleanup_handler st) p w = (w', tr, a).
Lemma leaves_bind {A B} w (p : prog CleanupSig A) w1 a (f : A → prog CleanupSig B) w2 b :
  leaves w p w1 a → leaves w1 (f a) w2 b → leaves w (p ≫= f) w2 b.
Proof.
  revert w. induction p as [a'|c k IH]; intros w [tr Hp] [tr' Hf]; cbn in Hp.
  - injection Hp as <- <- <-. by exists tr'.
  - destruct ((cleanup_handler st) c w) as [w0 x] eqn:Eh. destruct (run (cleanup_handler st) (k x) w0) as [[w' tr0] a'] eqn:Er.
    injection Hp as <- <- <-. destruct (IH x w0) as [tr2 H2]; [by exists tr0|by exists tr'|].
    unfold leaves. cbn [mbind prog_bind run]. rewrite Eh. cbn in H2. rewrite H2. by eexists.
Qed.
Lemma leaves_ret {A} w (a : A) : leaves w (Ret a) w a.
Proof. by exists []. Qed.
Lemma leaves_call w c w' x : (cleanup_handler st) c w = (w', x) → leaves w (cu c) w' x.
Proof. intros Hc. unfold leaves. cbn [cu perform run]. rewrite Hc. by eexists. Qed.
Lemma leaves_try {A B} w c w1 (v : A) (as_result : cleanup_answer c → result BlobStoreError A)
    (k : A → cleaning B) w2 b : ∀ x,
  (cleanup_handler st) c w = (w1, x) → as_result x = Ok v → leaves w1 (k v) w2 b →
  leaves w (attempt (map_err_p map_storage (cu c ≫= λ x, Ret (as_result x))) k) w2 b.
Proof.
  intros x Hc Hx [tr Hk]. unfold leaves. cbn. rewrite Hc. cbn. rewrite Hx. cbn. cbn in Hk. rewrite Hk. by eexists.
Qed.

Definition with_held (w : CleanupWorld) (world : held) : CleanupWorld := {| cw_now := cw_now w; cw_held := world |}.
Lemma cleanup_objects_leaves page : ∀ w report, world_ok (cw_held w) → (∀ o, o ∈ page → o ∈ cw_held w) → NoDup page →
  leaves w (cleanup_objects (map fst page) report) (with_held w (unlinked page (cw_held w)))
    (Ok (foldl count_object report page)).
Proof.
  induction page as [|o page IH]; intros [now world] report Hw Hin Hnd.
  { cbn [map cleanup_objects foldl]. unfold with_held. rewrite unlinked_nil. apply leaves_ret. }
  cbn [cw_held] in *. apply NoDup_cons in Hnd as [Ho Hnd]. pose proof (Hin o (list_elem_of_here _ _)) as How.
  cbn [map cleanup_objects foldl]. destruct (proj1 (Forall_forall _ _) (wo_related _ Hw) o How) as [r Hr].
  unfold key_of_held in Hr. rewrite Hr. cbn [map_err attempt_pure].
  apply (leaves_try _ (CuIsReferenced _) {| cw_now := now; cw_held := world |} o.2 id _ _ _ (Ok o.2)); [|done|].
  { cbn. by rewrite (refers_own world o r). }
  rewrite (cons_middle o [] page : o :: page = [o] ++ page), <- unlinked_app, unlinked_one by (by apply wo_sorted || done).
  unfold count_object at 2. destruct o.2 eqn:Ef.
  - apply (IH {| cw_now := now; cw_held := world |}); [done| |done]. intros o' Ho'. apply Hin. by apply list_elem_of_further.
  - apply (leaves_try _ (CuDelete _) {| cw_now := now; cw_held := without_key (bo_key o.1) world |} tt id _ _ _ (Ok tt)); [done|done|].
    apply (IH {| cw_now := now; cw_held := without_key (bo_key o.1) world |}); [by apply world_ok_filter| |done].
    intros o' Ho'. cbn [cw_held]. apply elem_of_lfilter. assert (o' ∈ world) as Hw' by (by apply Hin, list_elem_of_further).
    split; [done|]. apply negb_true_iff, bool_decide_eq_false_2. intros Hk.
    assert (o' = o) as -> by (by eapply (sorted_key_inj world); [apply wo_sorted| | |exact Hk]). done.
Qed.

Section pages.
Context (c : BlobCleanupConfig) (cutoff : Timestamp).
Definition page_request (cursor : option str) : BlobScanRequest :=
  {| bs_namespace := NsEventOwned; bs_older_than := cutoff; bs_cursor := cursor; bs_limit := bc_batch_size c |}.
Definition batch : nat := Z.to_nat (Z.min (bc_batch_size c) (ss_page_limit st)).
Abbreviation scanned cursor := (to_scan st (page_request cursor)).

(** The page after a cursor is what follows the last page. *)
Lemma next_page cursor world last_ : world_ok world →
  let rest := scanned cursor world in
  last (take batch rest) = Some last_ → (batch ≤ length rest)%nat →
  scanned (Some (key_of_held last_)) (unlinked (List.filter (old cutoff) (take batch rest)) world) = drop batch rest.
Proof.
  intros Hw rest Hlast Hlen. assert (StronglySorted key_before rest) as Hs by (apply sorted_filter, wo_sorted, Hw).
  assert (rest !! pred batch = Some last_) as Hlk.
  { rewrite last_lookup, length_take, Nat.min_l in Hlast by done. apply lookup_take_Some in Hlast as [? _]. done. }
  assert (0 < batch)%nat as Hb by (destruct batch; [by rewrite take_0 in Hlast|lia]).
  transitivity (List.filter (after_cursor (Some (key_of_held last_))) rest).
  2:{ rewrite (after_drops rest (pred batch)) by done. f_equal. lia. }
  transitivity (List.filter (after_cursor (Some (key_of_held last_)))
    (List.filter (λ o, counted_old st cutoff o && after_cursor cursor o) world)); [|done].
  unfold to_scan at 1, unlinked. rewrite !filter_filter_and.
  apply filter_ext_elem. intros o Ho. cbn [page_request bs_older_than bs_cursor].
  destruct (counted_old st cutoff o) eqn:Eo; cbn [andb]; [|by rewrite andb_false_r].
  destruct (after_cursor (Some (key_of_held last_)) o) eqn:Ea; [|by rewrite !andb_false_r].
  assert (after_cursor cursor o = true) as ->.
  { destruct cursor as [k|]; [|done]. cbn in Ea |- *. eapply str_ltb_trans; [|exact Ea].
    apply list_elem_of_lookup_2 in Hlk. apply elem_of_lfilter in Hlk as [_ [_ Hk]%andb_true_iff]. exact Hk. }
  rewrite !andb_true_r. apply orb_true_iff. right. apply negb_true_iff, bool_decide_eq_false_2. intros Hin.
  apply list_elem_of_fmap in Hin as (o' & Hk & [Ho' _]%elem_of_lfilter). cbn in Ea. fold (key_of_held o) in Ea. rewrite Hk in Ea.
  apply list_elem_of_lookup in Ho' as [i Hi]. apply lookup_take_Some in Hi as [Hi Hlt].
  destruct (decide (i = pred batch)) as [->|Hne]; [replace o' with last_ in Ea by congruence; by rewrite str_ltb_irrefl in Ea|].
  assert (key_before o' last_) as Hb' by (by eapply (before_lookup rest i (pred batch)); [done..|lia]).
  unfold key_before in Hb'. pose proof (str_ltb_trans _ _ _ Ea Hb') as Hc. by rewrite str_ltb_irrefl in Hc.
Qed.

Lemma cleanup_pages_leaves pages : ∀ w cursor report, world_ok (cw_held w) → (0 < batch)%nat →
  let seen := List.filter (old cutoff) (take (pages * batch) (scanned cursor (cw_held w))) in
  leaves w (cleanup_pages c cutoff pages cursor report) (with_held w (unlinked seen (cw_held w)))
    (Ok (foldl count_object report seen)).
Proof.
  induction pages as [|pages IH]; intros [now world] cursor report Hw Hb seen; cbn [cw_held] in *.
  { subst seen. cbn [cleanup_pages Nat.mul]. rewrite take_0. cbn [List.filter]. rewrite unlinked_nil. apply leaves_ret. }
  cbn [cleanup_pages]. set (rest := scanned cursor world) in *.
  apply (leaves_try _ (CuScan _) {| cw_now := now; cw_held := world |} (key_page st (page_request cursor) world) id _ _ _
    (Ok (key_page st (page_request cursor) world))); [done..|].
  assert (seen = List.filter (old cutoff) (take batch rest) ++ List.filter (old cutoff) (take (pages * batch) (drop batch rest))) as ->
    by (subst seen; rewrite <- List.filter_app, take_take_drop; f_equal; f_equal; lia).
  set (page := List.filter (old cutoff) (take batch rest)) in *.
  assert (∀ o, o ∈ page → o ∈ rest) as Hpage.
  { intros o [Ho _]%elem_of_lfilter. apply elem_of_take in Ho as (i & Hi & _). by apply list_elem_of_lookup_2 in Hi. }
  assert (NoDup page) as Hnd.
  { apply before_NoDup, sorted_filter. assert (StronglySorted key_before rest) as Hs by (apply sorted_filter, wo_sorted, Hw).
    clear -Hs. revert Hs. generalize batch. induction rest as [|x l IH]; intros [|n] Hs; cbn; try constructor;
      apply StronglySorted_inv in Hs as [Hs Hx]; [by apply IH|]. rewrite Forall_forall in Hx |- *.
    intros y (i & Hi & _)%elem_of_take. apply Hx. by apply list_elem_of_lookup_2 in Hi. }
  eapply leaves_bind; [apply (cleanup_objects_leaves page); cbn [cw_held]; [done| |done]|].
  { intros o Ho%Hpage. by apply elem_of_lfilter in Ho as [? _]. }
  cbn [key_page bp_next_cursor cw_held with_held cw_now]. unfold page_length. cbn [page_request bs_limit]. fold rest batch.
  destruct (Z.ltb_spec (Z.min (bc_batch_size c) (ss_page_limit st)) (len rest)) as [Hmore|Hend].
  - assert (batch ≤ length rest)%nat as Hlen by (unfold batch, len in *; lia).
    destruct (last (take batch rest)) as [last_|] eqn:Hlast.
    2:{ apply last_None in Hlast. apply (f_equal length) in Hlast. rewrite length_take in Hlast. cbn in Hlast. lia. }
    cbn [fmap option_fmap option_map]. fold (key_of_held last_).
    pose proof (next_page cursor world last_ Hw Hlast Hlen) as Hnext. fold rest page in Hnext.
    specialize (IH {| cw_now := now; cw_held := unlinked page world |} (Some (key_of_held last_))
      (foldl count_object report page) (world_ok_filter _ _ Hw) Hb).
    cbn [cw_held cw_now with_held] in IH. rewrite Hnext, unlinked_app in IH. by rewrite foldl_app.
  - rewrite (drop_ge rest batch) by (unfold batch, len in *; lia). rewrite take_nil. cbn [List.filter]. rewrite app_nil_r. apply leaves_ret.
Qed.
End pages.
End run.

(** The objects a run looks at: the old ones among those its pages count. *)
Definition within_reach (st : ScanStore) (c : BlobCleanupConfig) (cutoff : Timestamp) (world : held) : held :=
  List.filter (old cutoff) (take (Z.to_nat (bc_max_pages_per_run c) * batch st c) (List.filter (counted_old st cutoff) world)).
Definition report_of (seen : held) : BlobCleanupReport :=
  {| br_scanned := len seen; br_referenced := len (List.filter snd seen);
     br_deleted := len (List.filter (λ o, negb o.2) seen) |}.

Lemma count_objects seen : ∀ r, 0 ≤ br_scanned r → 0 ≤ br_referenced r → 0 ≤ br_deleted r →
  br_referenced r + br_deleted r = br_scanned r → br_scanned r + len seen ≤ U64_MAX →
  foldl count_object r seen
  = {| br_scanned := br_scanned r + len seen; br_referenced := br_referenced r + len (List.filter snd seen);
       br_deleted := br_deleted r + len (List.filter (λ o, negb o.2) seen) |}.
Proof.
  induction seen as [|[o b] seen IH]; intros [s f d]; cbn [br_scanned br_referenced br_deleted]; intros Hs Hf Hd Hsum Hmax.
  { cbn. by rewrite !Z.add_0_r. }
  rewrite len_cons in Hmax. pose proof (len_nonneg seen). cbn [foldl].
  assert (∀ x, 0 ≤ x ≤ s → sat_u64 (x + 1) = x + 1) as Hsat by (intros; apply saturate_exact; lia).
  unfold count_object at 2, count_scanned, count_referenced, count_deleted. cbn [snd br_scanned br_referenced br_deleted].
  destruct b; cbn [snd br_scanned br_referenced br_deleted List.filter negb]; rewrite !Hsat by lia;
    (rewrite IH; cbn [br_scanned br_referenced br_deleted]; [rewrite !len_cons; f_equal; lia|lia..]).
Qed.

(** C18. Over a store that scans in key order and leaves out young objects before
    or after it counts a page, a run deletes exactly the objects of its pages that
    are at least as old as the grace and that no event refers to, reports their
    exact counts, and keeps everything else; every run counts the same pages from
    the start, so that when what they hold is referred to, nothing is deleted. *)
Theorem blob_cleanup_exact st c now world cutoff :
  world_ok world → blob_cleanup_new c = Ok tt → 0 ≤ bc_batch_size c → 0 < ss_page_limit st →
  orphan_cutoff c now = Ok cutoff → len world ≤ U64_MAX →
  let seen := within_reach st c cutoff world in
  let '(w, _, answer) := run (cleanup_handler st) (blob_cleanup_run_once c) {| cw_now := now; cw_held := world |} in
  cw_held w = unlinked seen world
  ∧ answer = Ok (report_of seen)
  ∧ (Forall (λ o, o.2 = true) seen → cw_held w = world)
  ∧ ∀ o, o ∈ world → o.2 = true ∨ cutoff < bo_created_at o.1 → o ∈ cw_held w.
Proof.
  intros Hw Hc Hpos Hlim Hcut Hmax seen.
  assert (0 < batch st c)%nat as Hb.
  { unfold blob_cleanup_new in Hc. destruct (Z.eqb_spec (bc_batch_size c) 0); [by rewrite !orb_true_r in Hc|unfold batch; lia]. }
  assert (∀ o, o ∈ seen → o ∈ world ∧ old cutoff o = true) as Hseen.
  { intros o [Ho Hold]%elem_of_lfilter. split; [|done]. apply elem_of_take in Ho as (i & Hi & _).
    apply list_elem_of_lookup_2 in Hi. by apply elem_of_lfilter in Hi as [? _]. }
  destruct (cleanup_pages_leaves st c cutoff (Z.to_nat (bc_max_pages_per_run c)) {| cw_now := now; cw_held := world |} None
              empty_report Hw Hb) as [tr Hrun]. cbn [cw_held] in Hrun.
  assert (to_scan st (page_request c cutoff None) world = List.filter (counted_old st cutoff) world) as Hscan.
  { apply filter_ext_elem. intros o _. apply andb_true_r. }
  rewrite Hscan in Hrun. fold (within_reach st c cutoff world) in Hrun. fold seen in Hrun.
  unfold blob_cleanup_run_once. destruct (checked_i64 (as_millis (bc_orphan_grace c))) as [g|] eqn:Eg;
    [|by unfold orphan_cutoff in Hcut; rewrite Eg in Hcut].
  cbn. rewrite Hcut. cbn. cbn in Hrun. rewrite Hrun. cbn [with_held cw_held]. split_and!.
  - done.
  - rewrite count_objects; [done|done..|]. cbn [br_scanned empty_report].
    unfold seen, within_reach, len in *.
    pose proof (List.filter_length_le (old cutoff) (take (Z.to_nat (bc_max_pages_per_run c) * batch st c) (List.filter (counted_old st cutoff) world))).
    rewrite length_take in *. pose proof (List.filter_length_le (counted_old st cutoff) world). lia.
  - intros Hall. transitivity (unlinked [] world); [|apply unlinked_nil]. apply filter_ext_elem. intros o Ho. cbn [map].
    destruct o.2 eqn:Ef; [done|]. f_equal. f_equal. apply bool_decide_ext. split; [|by intros ?%elem_of_nil].
    intros (o' & Hk & Ho')%list_elem_of_fmap. exfalso.
    rewrite Forall_forall in Hall. specialize (Hall o' Ho'). assert (o = o') as ->; [|congruence].
    eapply (sorted_key_inj world); [apply wo_sorted, Hw|done|by apply Hseen|done].
  - intros o Ho Hf. apply elem_of_lfilter. split; [done|]. destruct Hf as [->|Hyoung]; [done|]. apply orb_true_iff. right.
    apply negb_true_iff, bool_decide_eq_false_2. intros (o' & Hk & [Ho' Hold]%Hseen)%list_elem_of_fmap.
    assert (o = o') as <- by (by eapply (sorted_key_inj world); [apply wo_sorted, Hw|..]).
    unfold old in Hold. lia.
Qed.

(** ** A witness *)

Definition sample_blob (event : Z) (created : Timestamp) : BlobObject :=
  {| bo_key := event_owned 7 (replicate 16 event) (replicate 16 1); bo_kind := BkEventAttachment; bo_size := 1; bo_checksum := [];
     bo_created_at := created |}.
(** Three old objects, two of them exactly at the cutoff, and a new one; two events are gone. *)
Definition sample_held : held :=
  [(sample_blob 1 1000, true); (sample_blob 2 13600000, false); (sample_blob 3 13600000, true); (sample_blob 4 90000000, false)].
Lemma blob_cleanup_exact_witness :
  world_ok sample_held
  ∧ ∀ st, st = local_store ∨ st = s3_store →
    cw_held (run (cleanup_handler st) (blob_cleanup_run_once blob_cleanup_default) {| cw_now := 100000000; cw_held := sample_held |}).1.1
    = [(sample_blob 1 1000, true); (sample_blob 3 13600000, true); (sample_blob 4 90000000, false)].
Proof.
  assert (world_ok sample_held) as Hw.
  { split.
    - unfold sample_held, key_before. repeat (constructor; [|repeat (constructor; [by vm_compute|]); constructor]). constructor.
    - unfold sample_held. repeat (constructor; [eexists; vm_compute; reflexivity|]). constructor.
    - intros o o' Ho Ho' He. unfold sample_held in Ho, Ho'. rewrite !elem_of_cons, elem_of_nil in Ho, Ho'.
      destruct Ho as [-> | [-> | [-> | [-> | []]]]], Ho' as [-> | [-> | [-> | [-> | []]]]]; try done; by vm_compute in He. }
  split; [done|]. intros st Hst.
  pose proof (blob_cleanup_exact st blob_cleanup_default 100000000 sample_held 13600000 Hw eq_refl) as H. cbv zeta in H.
  destruct (run (cleanup_handler st) (blob_cleanup_run_once blob_cleanup_default) _) as [[w tr] a].
  destruct H as [H _]; [by vm_compute|by destruct Hst as [-> | ->]|by vm_compute|by vm_compute|]. cbn [fst]. rewrite H.
  destruct Hst as [-> | ->]; by vm_compute.
Defined.
