(* ===== verification/Artifacts.v ===== *)
(** * Artifact bundles

    [domain/src/artifacts.rs] and the checks of [application/src/artifacts.rs]:
    identities and bindings of bundles, the configuration of the service and the
    validation of an uploaded source bundle.  The [zip] crate and the derived
    decoder of the manifest are interfaces. *)
From stdpp Require Import base list numbers strings sets gmap sorting.
From Stdlib Require Import ZArith Lia.
From S2P Require Import Prelude External Primitives Identity Event Normalizer Blobs DebugIds Auth Ingest.

Definition MAX_ARTIFACT_BINDINGS : Z := 512.
Definition MAX_ARTIFACT_DEBUG_IDS : Z := 20000.
Definition MAX_ARTIFACT_CHUNKS : Z := 64.
Definition MAX_ARTIFACT_DIST_BYTES : Z := 64.
Definition MAX_RELEASE_BYTES : Z := 200.

Inductive ArtifactValueError := AvInvalidBundleId | AvInvalidBinding | AvInvalidManifest | AvInvalidRetentionMode.

(** ** Identities *)

Section identities.
Context `{!Blake3} `{!Base64Api}.

Definition bundle_id_input (organization_id : Z) (checksum : bytes) : bytes :=
  lit "artifact-bundle-id-v1" ++ be_bytes 8 organization_id ++ checksum.
Definition bundle_id_derive (organization_id : Z) (checksum : bytes) : bytes :=
  take 16 (blake3 (bundle_id_input organization_id checksum)).
(** [bytes.try_into()] of sixteen bytes. *)
Definition bundle_id_parse (value : str) : result ArtifactValueError bytes :=
  bs ← ok_or AvInvalidBundleId (base64_decode value);
  if len bs =? 16 then Ok bs else Err AvInvalidBundleId.
Definition bundle_id_to_string (id : bytes) : str := base64_encode id.
Definition debug_token_input (organization_id : Z) (id : DebugId) : bytes :=
  lit "js-artifact-debug-id-v1" ++ be_bytes 8 organization_id ++ debug_id_encode id.
Definition debug_token_derive (organization_id : Z) (id : DebugId) : Z :=
  be_signed 8 (take 8 (blake3 (debug_token_input organization_id id))).
Definition upload_id_input (organization_id : Z) (sha1 : bytes) : bytes :=
  lit "artifact-upload-id-v1" ++ be_bytes 8 organization_id ++ sha1.
Definition upload_id (organization_id : Z) (sha1 : bytes) : bytes := take 16 (blake3 (upload_id_input organization_id sha1)).
End identities.

Record ArtifactBinding := {
  ab_project_id : ProjectId;
  ab_release_id : option bytes;
  ab_dist : option str;
}.
#[global] Instance ArtifactBinding_eq_dec : EqDecision ArtifactBinding.
Proof. solve_decision. Defined.
Definition artifact_binding_new (project_id : ProjectId) (release_id : option bytes) (dist : option str)
    : result ArtifactValueError ArtifactBinding :=
  if is_some_and (λ value, negb (is_some release_id) || is_empty value || (MAX_ARTIFACT_DIST_BYTES <? len value)
                           || any_control value) dist
  then Err AvInvalidBinding
  else Ok {| ab_project_id := project_id; ab_release_id := release_id; ab_dist := dist |}.

Record ArtifactBundle := {
  at_id : bytes;
  at_organization_id : Z;
  at_bindings : list ArtifactBinding;
  at_bundle_debug_id : DebugId;
  at_debug_id_tokens : list Z;
  at_checksum : bytes;
  at_sha1 : bytes;
  at_size : Z;
  at_uploaded_at : Timestamp;
  at_generation : Z;
}.
Record ArtifactUpload := {
  au_id : bytes;
  au_organization_id : Z;
  au_sha1 : bytes;
  au_chunks : list bytes;
  au_bindings : list ArtifactBinding;
  au_created_at : Timestamp;
  au_updated_at : Timestamp;
}.
Inductive ArtifactUploadState := AuPending | AuAssembling | AuComplete | AuFailed.
#[global] Instance ArtifactUploadState_eq_dec : EqDecision ArtifactUploadState.
Proof. solve_decision. Defined.
Record ArtifactUploadRecord := {
  ar_upload : ArtifactUpload;
  ar_state : ArtifactUploadState;
  ar_attempts : Z;
  ar_final_id : option bytes;
  ar_error_code : option Z;
}.
Record ArtifactLookup := {
  lk_project_id : ProjectId;
  lk_organization_id : Z;
  lk_debug_ids : list DebugId;
  lk_release_id : option bytes;
  lk_dist : option str;
  lk_limit : Z;
}.
Inductive ArtifactResolution := ResolvedDebugId | ResolvedRelease.
Record ArtifactCandidate := { ac_bundle : ArtifactBundle; ac_resolved_with : ArtifactResolution }.
Record ArtifactGcClaim := { gc_bundle : ArtifactBundle; gc_claim : bytes; gc_lease_until : Timestamp }.
Inductive ArtifactRetentionMode := RetentionOff | RetentionReport | RetentionEnforce.
#[global] Instance ArtifactRetentionMode_eq_dec : EqDecision ArtifactRetentionMode.
Proof. solve_decision. Defined.
Definition retention_mode_as_str (mode : ArtifactRetentionMode) : string :=
  match mode with RetentionOff => "off" | RetentionReport => "report" | RetentionEnforce => "enforce" end.
Definition retention_mode_from_str (value : str) : result ArtifactValueError ArtifactRetentionMode :=
  if bool_decide (value = lit "off") then Ok RetentionOff
  else if bool_decide (value = lit "report") then Ok RetentionReport
  else if bool_decide (value = lit "enforce") then Ok RetentionEnforce
  else Err AvInvalidRetentionMode.

(** ** The configuration *)

Inductive ArtifactError :=
| AfInvalidRequest | AfForbidden | AfNotFound | AfMalformedBundle | AfArchiveLimit | AfUnsupportedCompression
| AfQuota | AfConflict | AfBusy | AfUnavailable.
#[global] Instance ArtifactError_eq_dec : EqDecision ArtifactError.
Proof. solve_decision. Defined.
Definition artifact_error_code (e : ArtifactError) : Z :=
  match e with
  | AfInvalidRequest => 1 | AfForbidden => 2 | AfNotFound => 3 | AfMalformedBundle => 10 | AfArchiveLimit => 11
  | AfUnsupportedCompression => 12 | AfQuota => 20 | AfConflict => 21 | AfBusy => 22 | AfUnavailable => 30
  end.
Record ArtifactConfig := {
  ag_maximum_bundle_bytes : Z;
  ag_stream_chunk_bytes : Z;
  ag_maximum_logical_bytes : Z;
  ag_maximum_entries : Z;
  ag_maximum_entry_bytes : Z;
  ag_maximum_manifest_bytes : Z;
  ag_maximum_path_bytes : Z;
  ag_maximum_url_bytes : Z;
  ag_maximum_metadata_fields : Z;
  ag_maximum_compression_ratio : Z;
  ag_maximum_concurrent_assemblies : Z;
  ag_parse_timeout : duration;
  ag_orphan_grace : duration;
  ag_claim_lease : duration;
  ag_blob_operation_timeout : duration;
  ag_tombstone_retention : duration;
  ag_gc_batch_size : Z;
  ag_gc_max_concurrency : Z;
}.
Definition MEBIBYTE : Z := 1024 * 1024.
Definition SECOND : duration := 1000 * NANOS_PER_MILLI.
Definition artifact_default : ArtifactConfig :=
  {| ag_maximum_bundle_bytes := 64 * MEBIBYTE; ag_stream_chunk_bytes := 64 * 1024; ag_maximum_logical_bytes := 512 * MEBIBYTE;
     ag_maximum_entries := 10000; ag_maximum_entry_bytes := 16 * MEBIBYTE; ag_maximum_manifest_bytes := 4 * MEBIBYTE;
     ag_maximum_path_bytes := 1024; ag_maximum_url_bytes := 4096; ag_maximum_metadata_fields := 64;
     ag_maximum_compression_ratio := 100; ag_maximum_concurrent_assemblies := 2; ag_parse_timeout := 30 * SECOND;
     ag_orphan_grace := 86400 * SECOND; ag_claim_lease := 300 * SECOND; ag_blob_operation_timeout := 30 * SECOND;
     ag_tombstone_retention := 86400 * SECOND; ag_gc_batch_size := 100; ag_gc_max_concurrency := 4 |}.
Definition artifact_config_valid (c : ArtifactConfig) : bool :=
  (0 <? ag_maximum_bundle_bytes c) && (ag_maximum_bundle_bytes c <=? 512 * MEBIBYTE)
  && in_range (4 * 1024) MEBIBYTE (ag_stream_chunk_bytes c)
  && (ag_maximum_bundle_bytes c <=? ag_maximum_logical_bytes c) && (ag_maximum_logical_bytes c <=? 4 * 1024 * MEBIBYTE)
  && in_range 1 100000 (ag_maximum_entries c)
  && (0 <? ag_maximum_entry_bytes c) && (ag_maximum_entry_bytes c <=? ag_maximum_logical_bytes c)
  && (0 <? ag_maximum_manifest_bytes c) && (ag_maximum_manifest_bytes c <=? ag_maximum_entry_bytes c)
  && in_range 64 8192 (ag_maximum_path_bytes c) && in_range 64 16384 (ag_maximum_url_bytes c)
  && in_range 1 1024 (ag_maximum_metadata_fields c) && in_range 1 1000 (ag_maximum_compression_ratio c)
  && in_range 1 64 (ag_maximum_concurrent_assemblies c)
  && negb (ag_parse_timeout c =? 0) && (ag_parse_timeout c <=? 120 * SECOND)
  && negb (ag_orphan_grace c =? 0) && negb (ag_claim_lease c =? 0) && negb (ag_blob_operation_timeout c =? 0)
  && (ag_blob_operation_timeout c <? ag_claim_lease c) && (ag_claim_lease c <? ag_tombstone_retention c)
  && in_range 1 100 (ag_gc_batch_size c) && in_range 1 4 (ag_gc_max_concurrency c).
Definition artifact_config_validate (c : ArtifactConfig) : result ArtifactError ArtifactConfig :=
  if artifact_config_valid c then Ok c else Err AfInvalidRequest.

(** ** The validation of a source bundle *)

Inductive CompressionMethod := CmStored | CmDeflated | CmOther.
Record ZipEntry := {
  ze_name : str;
  ze_is_dir : bool;
  (** [enclosed_name().is_some()]: the name stays inside the archive. *)
  ze_enclosed : bool;
  ze_unix_mode : option Z;
  ze_compression : CompressionMethod;
  ze_size : Z;
  ze_compressed_size : Z;
}.
(** [zip::ZipArchive]: [new] with the entries by index, and the first bytes of an
    entry by name ([None]: no such entry, or it does not decompress). *)
Class ZipApi := {
  zip_archive : bytes → option (list (option ZipEntry));
  zip_read : bytes → str → Z → option bytes;
}.
Record SourceFileInfo := {
  sf_type : option str;
  sf_path : str;
  sf_url : str;
  sf_headers : list (str * str);
}.
Record SourceBundleManifest (V : Type) := { mf_files : list (str * SourceFileInfo); mf_attributes : list (str * V) }.
Arguments Build_SourceBundleManifest {V} mf_files mf_attributes.
Arguments mf_files {V} s : rename.
Arguments mf_attributes {V} s : rename.
(** [serde_json::from_slice] with the derived decoder: maps in the order of their keys. *)
Class ManifestApi (N : Type) := manifest_from_slice : bytes → option (SourceBundleManifest (JValue N)).

Record ValidatedBundle := {
  vb_bytes : bytes;
  vb_bundle_debug_id : option DebugId;
  vb_debug_ids : list DebugId;
}.
Record EntryScan := { es_names : list str; es_logical : Z; es_compressed : Z }.
Abbreviation artifact A := (result ArtifactError A).

Section validation.
Context {N : Type} `{!JsonApi N, !ManifestApi N, !ZipApi} (c : ArtifactConfig).
(** Whether the deadline has passed at the n-th time it is tested. *)
Context (expired : nat → bool).
Definition MANIFEST : str := lit "manifest.json".

Definition check_deadline (n : nat) : artifact unit := guard_err (expired n) AfArchiveLimit.
Definition read_entry (archive : bytes) (name : str) (maximum : Z) : artifact bytes :=
  bs ← ok_or AfMalformedBundle (zip_read archive name (sat_u64 (maximum + 1)));
  if maximum <? len bs then Err AfArchiveLimit else Ok bs.
Definition entry_name_invalid (entry : ZipEntry) (names : list str) : bool :=
  let name := ze_name entry in
  ze_is_dir entry || is_empty name || (ag_maximum_path_bytes c <? len name) || any_control name
  || str_contains [92] name || negb (ze_enclosed entry)
  || is_some_and (λ mode, Z.land mode 61440 =? 40960) (ze_unix_mode entry) || bool_decide (name ∈ names).
Definition scan_entry (entry : ZipEntry) (s : EntryScan) : artifact EntryScan :=
  if entry_name_invalid entry (es_names s) then Err AfMalformedBundle
  else
    match ze_compression entry with
    | CmOther => Err AfUnsupportedCompression
    | _ =>
        let limit := if bool_decide (ze_name entry = MANIFEST) then ag_maximum_manifest_bytes c else ag_maximum_entry_bytes c in
        if limit <? ze_size entry then Err AfArchiveLimit
        else
          logical ← ok_or AfArchiveLimit (checked_u64 (es_logical s + ze_size entry));
          if ag_maximum_logical_bytes c <? logical then Err AfArchiveLimit
          else
            compressed ← ok_or AfArchiveLimit (checked_u64 (es_compressed s + ze_compressed_size entry));
            if (0 <? ze_size entry)
               && ((ze_compressed_size entry =? 0)
                   || (sat_u64 (ze_compressed_size entry * ag_maximum_compression_ratio c) <? ze_size entry))
            then Err AfArchiveLimit
            else Ok {| es_names := es_names s ++ [ze_name entry]; es_logical := logical; es_compressed := compressed |}
    end.
Fixpoint scan_entries (checks : nat) (entries : list (option ZipEntry)) (s : EntryScan) : artifact EntryScan :=
  match entries with
  | [] => Ok s
  | entry :: entries =>
      _ ← check_deadline checks;
      entry ← ok_or AfMalformedBundle entry;
      s ← scan_entry entry s;
      scan_entries (S checks) entries s
  end.
Definition manifest_debug_id (attributes : list (str * JValue N)) : artifact (option DebugId) :=
  match snd <$> List.find (λ field, bool_decide (field.1 = lit "debug_id")) attributes with
  | None => Ok None
  | Some (JString value) => Some <$> map_err (λ _, AfMalformedBundle) (debug_id_parse value)
  | Some _ => Err AfMalformedBundle
  end.
Fixpoint check_attributes (attributes : list (str * JValue N)) : artifact unit :=
  match attributes with
  | [] => Ok tt
  | (_, JString value) :: attributes =>
      if (ag_maximum_url_bytes c <? len value) || any_control value then Err AfArchiveLimit else check_attributes attributes
  | _ => Err AfMalformedBundle
  end.
Definition header_invalid (header : str * str) : bool :=
  is_empty header.1 || (128 <? len header.1) || (ag_maximum_url_bytes c <? len header.2) || any_control header.1
  || any_control header.2.
Definition file_invalid (path : str) (info : SourceFileInfo) : bool :=
  is_empty path || (ag_maximum_path_bytes c <? len path) || str_contains [92] path || starts_with [47] path
  || existsb (λ part, bool_decide (part = lit ".") || bool_decide (part = lit "..")) (split_on 47 path)
  || (ag_maximum_path_bytes c <? len (sf_path info)) || (ag_maximum_url_bytes c <? len (sf_url info))
  || (ag_maximum_metadata_fields c <? len (sf_headers info)) || existsb header_invalid (sf_headers info).
Definition eq_ignore_ascii_case (a b : str) : bool := bool_decide (to_ascii_lowercase a = to_ascii_lowercase b).
Definition file_debug_id (info : SourceFileInfo) : artifact (option DebugId) :=
  match List.find (λ header, eq_ignore_ascii_case header.1 (lit "debug-id")) (sf_headers info) with
  | Some header => Some <$> map_err (λ _, AfMalformedBundle) (debug_id_parse header.2)
  | None => Ok None
  end.
Definition BUNDLE_TYPES : list str := [lit "source"; lit "minified_source"; lit "source_map"; lit "indexed_ram_bundle"].
Definition check_file (archive : bytes) (path : str) (info : SourceFileInfo) : artifact (option DebugId) :=
  if file_invalid path info then Err AfArchiveLimit
  else
    let ty := unwrap_or (lit "source") (sf_type info) in
    if negb (bool_decide (ty ∈ BUNDLE_TYPES)) then Err AfMalformedBundle
    else
      debug_id ← file_debug_id info;
      entry_bytes ← read_entry archive path (ag_maximum_entry_bytes c);
      if negb (bool_decide (ty = lit "indexed_ram_bundle")) && negb (utf8_valid entry_bytes) then Err AfMalformedBundle
      else
        _ ← (if bool_decide (ty = lit "source_map") then
               match (json_from_slice entry_bytes : option (JValue N)) with Some (JObject _) => Ok tt | _ => Err AfMalformedBundle end
             else Ok tt);
        if ends_with (lit ".zip") (to_ascii_lowercase path) || starts_with (lit "SYSB") entry_bytes then Err AfMalformedBundle
        else Ok debug_id.
Fixpoint check_files (archive : bytes) (checks : nat) (files : list (str * SourceFileInfo)) (debug_ids : list DebugId)
    : artifact (list DebugId) :=
  match files with
  | [] => Ok debug_ids
  | (path, info) :: files =>
      _ ← check_deadline checks;
      debug_id ← check_file archive path info;
      check_files archive (S checks) files (debug_ids ++ match debug_id with Some id => [id] | None => [] end)
  end.
(** [sort_by_key(ToString::to_string)]: a stable insertion. *)
Fixpoint insert_debug_id (id : DebugId) (l : list DebugId) : list DebugId :=
  match l with
  | [] => [id]
  | x :: l' => if str_ltb (debug_id_to_string x) (debug_id_to_string id) then x :: insert_debug_id id l' else id :: l
  end.
Definition sort_debug_ids (l : list DebugId) : list DebugId := foldr insert_debug_id [] l.
Definition bundle_version (bs : bytes) : Z := le_u32 (take 4 (drop 4 bs)).
Definition validate_source_bundle (bs : bytes) : artifact ValidatedBundle :=
  if (len bs <? 8) || negb (bool_decide (take 4 bs = lit "SYSB")) then Err AfMalformedBundle
  else if negb (in_range 1 2 (bundle_version bs)) then Err AfMalformedBundle
  else
    entries ← ok_or AfMalformedBundle (zip_archive bs);
    if is_empty entries || (ag_maximum_entries c + 1 <? len entries) then Err AfArchiveLimit
    else
      scan ← scan_entries 0 entries {| es_names := []; es_logical := 0; es_compressed := 0 |};
      if (0 <? es_logical scan)
         && ((es_compressed scan =? 0) || (sat_u64 (es_compressed scan * ag_maximum_compression_ratio c) <? es_logical scan))
      then Err AfArchiveLimit
      else
        manifest_bytes ← read_entry bs MANIFEST (ag_maximum_manifest_bytes c);
        manifest ← ok_or AfMalformedBundle (manifest_from_slice (N := N) manifest_bytes);
        if is_empty (mf_files manifest) || (ag_maximum_entries c <? len (mf_files manifest))
           || (ag_maximum_metadata_fields c <? len (mf_attributes manifest))
        then Err AfArchiveLimit
        else
          bundle_debug_id ← manifest_debug_id (mf_attributes manifest);
          _ ← check_attributes (mf_attributes manifest);
          let expected : gset str := list_to_set (map fst (mf_files manifest)) in
          let actual : gset str := list_to_set (List.filter (λ name, negb (bool_decide (name = MANIFEST))) (es_names scan)) in
          if negb (bool_decide (actual = expected)) then Err AfMalformedBundle
          else
            debug_ids ← check_files bs (length entries) (mf_files manifest) [];
            let debug_ids := dedup (sort_debug_ids debug_ids) in
            if MAX_ARTIFACT_DEBUG_IDS <? len debug_ids then Err AfArchiveLimit
            else Ok {| vb_bytes := bs; vb_bundle_debug_id := bundle_debug_id; vb_debug_ids := debug_ids |}.
End validation.
(** A bundle without a debug identifier gets one of its content. *)
Definition derived_bundle_debug_id (checksum : bytes) : DebugId := DebugUuid (take 16 checksum) 0.

(** ** What an accepted bundle is *)

Section accepted.
Context {N : Type} `{!JsonApi N, !ManifestApi N, !ZipApi} (c : ArtifactConfig) (expired : nat → bool).

Record entry_safe (e : ZipEntry) : Prop := {
  ef_file : ze_is_dir e = false;
  ef_name : ze_name e ≠ [] ∧ len (ze_name e) ≤ ag_maximum_path_bytes c ∧ any_control (ze_name e) = false;
  ef_enclosed : ze_enclosed e = true ∧ str_contains [92] (ze_name e) = false;
  ef_no_link : ∀ mode, ze_unix_mode e = Some mode → Z.land mode 61440 ≠ 40960;
  ef_method : ze_compression e ≠ CmOther;
  ef_size : ze_size e ≤ if bool_decide (ze_name e = MANIFEST) then ag_maximum_manifest_bytes c else ag_maximum_entry_bytes c;
}.
Record scan_invariant (names : list ZipEntry) (s : EntryScan) : Prop := {
  si_safe : Forall entry_safe names;
  si_names : es_names s = map ze_name names;
  si_distinct : NoDup (es_names s);
  si_logical : es_logical s = sum_map ze_size names ∧ es_logical s ≤ ag_maximum_logical_bytes c;
  si_compressed : es_compressed s = sum_map ze_compressed_size names ∧ 0 ≤ es_compressed s;
}.
Lemma scan_entry_Ok entry l s s' : scan_invariant l s → scan_entry c entry s = Ok s' → scan_invariant (l ++ [entry]) s'.
Proof.
  intros [Hs Hn Hd [Hl1 Hl2] [Hc1 Hc2]] He. unfold scan_entry in He. destruct (entry_name_invalid c entry (es_names s)) eqn:Ei; [done|].
  unfold entry_name_invalid in Ei. bool_prop.
  assert (ze_compression entry ≠ CmOther) as Hm by (intros Hm; by rewrite Hm in He).
  assert (ze_compression entry = CmStored ∨ ze_compression entry = CmDeflated) as Hm' by (destruct (ze_compression entry); auto; done).
  set (limit := if bool_decide (ze_name entry = MANIFEST) then _ else _) in He.
  assert ((if limit <? ze_size entry then Err AfArchiveLimit
           else logical ← ok_or AfArchiveLimit (checked_u64 (es_logical s + ze_size entry));
             if ag_maximum_logical_bytes c <? logical then Err AfArchiveLimit
             else compressed ← ok_or AfArchiveLimit (checked_u64 (es_compressed s + ze_compressed_size entry));
               if (0 <? ze_size entry) && ((ze_compressed_size entry =? 0)
                   || (sat_u64 (ze_compressed_size entry * ag_maximum_compression_ratio c) <? ze_size entry))
               then Err AfArchiveLimit
               else Ok {| es_names := es_names s ++ [ze_name entry]; es_logical := logical; es_compressed := compressed |}) = Ok s') as He'
    by (destruct Hm' as [Hm' | Hm']; by rewrite Hm' in He).
  clear He. destruct (Z.ltb_spec limit (ze_size entry)); [done|].
  destruct (checked_u64 (es_logical s + ze_size entry)) as [lg|] eqn:El; [|done]. cbn [ok_or mbind result_bind] in He'.
  destruct (Z.ltb_spec (ag_maximum_logical_bytes c) lg); [done|].
  destruct (checked_u64 (es_compressed s + ze_compressed_size entry)) as [cp|] eqn:Ec; [|done]. cbn [ok_or mbind result_bind] in He'.
  destruct ((0 <? ze_size entry) && _); [done|]. injection He' as <-.
  apply checked_Some in El as [-> ?], Ec as [-> ?].
  split; cbn [es_names es_logical es_compressed].
  - apply Forall_app. split; [done|]. apply Forall_singleton. split; try done.
    + split; [|split; [lia|done]]. intros Hnil. by rewrite Hnil in *.
    + intros mode Hmode. rewrite Hmode in *. cbn in *. by bool_prop.
  - by rewrite Hn, map_app.
  - apply NoDup_app. split; [done|]. split; [by intros x Hx ->%list_elem_of_singleton|]. apply NoDup_singleton.
  - rewrite sum_map_app, sum_map_cons, sum_map_nil. lia.
  - rewrite sum_map_app, sum_map_cons, sum_map_nil. lia.
Qed.
Lemma scan_entries_Ok entries : ∀ checks l s s', scan_invariant l s → scan_entries c expired checks entries s = Ok s' →
  ∃ es, entries = map Some es ∧ scan_invariant (l ++ es) s'.
Proof.
  induction entries as [|[entry|] entries IH]; intros checks l s s' Hi He; cbn [scan_entries] in He.
  - injection He as <-. exists []. by rewrite app_nil_r.
  - destruct (check_deadline expired checks); [|done]. cbn [mbind result_bind ok_or] in He.
    destruct (scan_entry c entry s) as [s1|] eqn:E1; [|done]. cbn in He.
    destruct (IH _ _ _ _ (scan_entry_Ok _ _ _ _ Hi E1) He) as (es & -> & Hi'). exists (entry :: es). split; [done|].
    by rewrite <- app_assoc in Hi'.
  - destruct (check_deadline expired checks); done.
Qed.

(** A file of the manifest: its path stays inside the bundle, its content is
    bounded, and text where its type says so. *)
Record file_accepted (archive : bytes) (file : str * SourceFileInfo) : Prop := {
  fa_path : file_invalid c file.1 file.2 = false;
  fa_type : unwrap_or (lit "source") (sf_type file.2) ∈ BUNDLE_TYPES;
  fa_content : ∃ content, zip_read archive file.1 (sat_u64 (ag_maximum_entry_bytes c + 1)) = Some content
    ∧ len content ≤ ag_maximum_entry_bytes c ∧ starts_with (lit "SYSB") content = false
    ∧ (unwrap_or (lit "source") (sf_type file.2) ≠ lit "indexed_ram_bundle" → utf8_valid content = true);
}.
Lemma read_entry_Ok archive name maximum bs : read_entry archive name maximum = Ok bs →
  zip_read archive name (sat_u64 (maximum + 1)) = Some bs ∧ len bs ≤ maximum.
Proof.
  unfold read_entry. destruct (zip_read _ _ _) as [bs'|]; [|done]. cbn. destruct (Z.ltb_spec maximum (len bs')); [done|].
  by intros [= <-].
Qed.
Lemma check_file_Ok archive path info id : check_file (N := N) c archive path info = Ok id → file_accepted archive (path, info).
Proof.
  unfold check_file. destruct (file_invalid c path info) eqn:Ef; [done|]. set (ty := unwrap_or (lit "source") (sf_type info)).
  destruct (decide (ty ∈ BUNDLE_TYPES)) as [Ht|]; [rewrite bool_decide_eq_true_2 by done|by rewrite bool_decide_eq_false_2].
  destruct (file_debug_id info); [|done]. cbn [negb mbind result_bind].
  destruct (read_entry archive path _) as [content|] eqn:Er; [|done]. apply read_entry_Ok in Er as [Hr Hl]. cbn [mbind result_bind].
  destruct (negb (bool_decide (ty = lit "indexed_ram_bundle")) && negb (utf8_valid content)) eqn:Eu; [done|].
  match goal with |- context [if bool_decide (ty = lit "source_map") then ?a else ?b] => destruct (if bool_decide (ty = lit "source_map") then a else b) end;
    [|done]. cbn [mbind result_bind]. destruct (_ || _) eqn:Ez; [done|]. bool_prop. intros _. split; [done|done|].
  exists content. split_and!; [done..|]. intros Hne. destruct (utf8_valid content); [done|].
  rewrite bool_decide_eq_false_2 in Eu by done. done.
Qed.
Lemma check_files_Ok archive files : ∀ checks ids ids', check_files (N := N) c expired archive checks files ids = Ok ids' →
  Forall (file_accepted archive) files.
Proof.
  induction files as [|[path info] files IH]; intros checks ids ids'; cbn [check_files]; [constructor|].
  destruct (check_deadline expired checks); [|done]. cbn [mbind result_bind].
  destruct (check_file c archive path info) as [id|] eqn:Ec; [|done]. cbn. intros He. constructor; [by eapply check_file_Ok|by eapply IH].
Qed.
End accepted.

(** An accepted source bundle has safe entries of distinct names within every
    limit on count, size and compression, its manifest lists exactly its entries,
    each file of it was checked, and the content validated is the whole upload. *)
Theorem validated_bundle_bounded {N : Type} `{!JsonApi N, !ManifestApi N, !ZipApi} c expired bs v :
  artifact_config_valid c = true → validate_source_bundle (N := N) c expired bs = Ok v →
  ∃ entries manifest_bytes manifest,
    zip_archive bs = Some (map Some entries) ∧ 0 < len entries ≤ ag_maximum_entries c + 1
    ∧ Forall (entry_safe c) entries ∧ NoDup (map ze_name entries)
    ∧ sum_map ze_size entries ≤ ag_maximum_logical_bytes c
    ∧ sum_map ze_size entries ≤ sum_map ze_compressed_size entries * ag_maximum_compression_ratio c
    ∧ zip_read bs MANIFEST (sat_u64 (ag_maximum_manifest_bytes c + 1)) = Some manifest_bytes
    ∧ manifest_from_slice (N := N) manifest_bytes = Some manifest
    ∧ (∀ name, name ∈ map fst (mf_files manifest) ↔ name ∈ map ze_name entries ∧ name ≠ MANIFEST)
    ∧ Forall (file_accepted c bs) (mf_files manifest)
    ∧ vb_bytes v = bs ∧ len (vb_debug_ids v) ≤ MAX_ARTIFACT_DEBUG_IDS.
Proof.
  intros Hc. assert (0 ≤ ag_maximum_logical_bytes c ∧ 0 ≤ ag_maximum_compression_ratio c) as [Hlog Hratio].
  { unfold artifact_config_valid, in_range in Hc. bool_prop. lia. }
  unfold validate_source_bundle. destruct (_ || _); [done|]. destruct (negb (in_range _ _ _)); [done|].
  destruct (zip_archive bs) as [entries|]; [|done]. cbn [ok_or mbind result_bind].
  destruct (is_empty entries || _) eqn:El; [done|]. bool_prop.
  destruct (scan_entries c expired 0 entries _) as [scan|] eqn:Es; [|done]. cbn [mbind result_bind].
  destruct (scan_entries_Ok c expired entries 0 [] {| es_names := []; es_logical := 0; es_compressed := 0 |} scan) as (es & -> & [Hsafe Hnames Hnd [Hl Hlmax] [Hcp Hcp0]]); [by repeat constructor|exact Es|].
  destruct ((0 <? es_logical scan) && _) eqn:Er; [done|].
  destruct (read_entry bs MANIFEST _) as [mb|] eqn:Em; [|done]. apply read_entry_Ok in Em as [Hmb _]. cbn [mbind result_bind].
  destruct (manifest_from_slice mb) as [manifest|] eqn:Emf; [|done]. cbn [ok_or mbind result_bind].
  destruct (_ || _ || _); [done|]. destruct (manifest_debug_id _) as [did|]; [|done]. cbn [mbind result_bind].
  destruct (check_attributes _ _); [|done]. cbn [mbind result_bind]. cbv zeta.
  destruct (decide ((list_to_set (List.filter (λ name, negb (bool_decide (name = MANIFEST))) (es_names scan)) : gset str)
    = list_to_set (map fst (mf_files manifest)))) as [Hset|]; [|by rewrite bool_decide_eq_false_2].
  rewrite bool_decide_eq_true_2 by done. cbn [negb].
  destruct (check_files c expired bs _ _ []) as [ids|] eqn:Ef; [|done]. cbn [mbind result_bind].
  destruct (Z.ltb_spec MAX_ARTIFACT_DEBUG_IDS (len (dedup (sort_debug_ids ids)))) as [|Hids]; [done|]. intros [= <-].
  exists es, mb, manifest. cbn [app] in *.
  assert (len (map Some es) = len es) as Hles by (unfold len; by rewrite length_map). rewrite Hles in *. split_and!; try done.
  - unfold is_empty in *. destruct es; [done|]. rewrite len_cons. pose proof (len_nonneg es). lia.
  - by rewrite <- Hnames.
  - by rewrite <- Hl.
  - rewrite <- Hl, <- Hcp. apply andb_false_iff in Er as [Er|Er]; bool_prop; [nia|].
    unfold sat_u64, saturate in *. nia.
  - intros name. rewrite set_eq in Hset. specialize (Hset name). rewrite !elem_of_list_to_set in Hset. rewrite <- Hset, <- Hnames.
    rewrite !list_elem_of_In, filter_In, negb_true_iff, bool_decide_eq_false. done.
  - by eapply check_files_Ok.
Qed.

(** ** A witness: a manifest and one minified source *)

#[local] Instance bundle_json : JsonApi Z :=
  {| json_from_slice := λ _, None; number_to_string := to_dec; number_as_f64 := λ _, None; number_as_u64 := λ z, Some z |}.
Definition bundle_entry (name : string) (size : Z) : ZipEntry :=
  {| ze_name := lit name; ze_is_dir := false; ze_enclosed := true; ze_unix_mode := Some 33188; ze_compression := CmDeflated;
     ze_size := size; ze_compressed_size := size |}.
#[local] Instance bundle_zip : ZipApi :=
  {| zip_archive := λ _, Some [Some (bundle_entry "manifest.json" 2); Some (bundle_entry "files/app.js" 4)];
     zip_read := λ _ name maximum, Some (take (Z.to_nat maximum) (if bool_decide (name = MANIFEST) then lit "{}" else lit "f();")) |}.
#[local] Instance bundle_manifest : ManifestApi Z :=
  λ _, Some {| mf_files := [(lit "files/app.js", {| sf_type := Some (lit "minified_source"); sf_path := []; sf_url := lit "~/app.js";
                                                    sf_headers := [(lit "Debug-Id", lit "67e9247c-814e-392b-a027-dbde6748fcbf")] |})];
               mf_attributes := [(lit "org", JString (lit "shop"))] |}.
Definition sample_bundle : bytes := lit "SYSB" ++ [2; 0; 0; 0].
Definition sample_validated : ValidatedBundle :=
  {| vb_bytes := sample_bundle; vb_bundle_debug_id := None;
     vb_debug_ids := [DebugUuid [103;233;36;124;129;78;57;43;160;39;219;222;103;72;252;191] 0] |}.
Lemma validated_bundle_bounded_witness :
  artifact_config_valid artifact_default = true
  ∧ validate_source_bundle (N := Z) artifact_default (λ _, false) sample_bundle = Ok sample_validated
  ∧ ∃ entries, zip_archive sample_bundle = Some (map Some entries) ∧ sum_map ze_size entries ≤ 512 * MEBIBYTE.
Proof.
  assert (artifact_config_valid artifact_default = true) as Hc by (vm_compute; reflexivity).
  assert (validate_source_bundle (N := Z) artifact_default (λ _, false) sample_bundle = Ok sample_validated) as Hv
    by (vm_compute; reflexivity).
  split; [done|]. split; [done|].
  destruct (validated_bundle_bounded artifact_default (λ _, false) sample_bundle sample_validated Hc Hv)
    as (entries & mb & manifest & He & _ & _ & _ & Hs & _). by exists entries.
Defined.
