(* ===== verification/ArtifactService.v ===== *)
(** * The artifact service

    [application/src/artifacts.rs]: assembly of an uploaded bundle from its
    chunks, lookups, the removal of bindings and the garbage collection of
    bundles nothing binds, as programs over the metadata store, the object store,
    the clock and the random source.  The validation of the bytes is
    [Artifacts.validate_source_bundle]; [Sha1] is an interface. *)
From stdpp Require Import base list numbers strings sets gmap sorting relations.
From Stdlib Require Import ZArith Lia.
From S2P Require Import Prelude External Primitives Identity Event Normalizer Blobs DebugIds Effects Auth Ingest IngestTheory Projects Artifacts.

Open Scope prog_scope.

(** [sha1::Sha1]; feeding it in pieces hashes their concatenation. *)
Class Sha1Api := sha1_digest : bytes → bytes.

Inductive ArtifactStoreError := AsNotFound | AsConflict | AsQuota | AsBusy | AsInvalidData | AsUnavailable.
Definition artifact_map_store (e : ArtifactStoreError) : ArtifactError :=
  match e with
  | AsNotFound => AfNotFound | AsConflict => AfConflict | AsQuota => AfQuota | AsBusy => AfBusy
  | AsInvalidData | AsUnavailable => AfUnavailable
  end.
Definition artifact_map_blob (e : BlobStoreError) : ArtifactError :=
  match e with
  | BeTooLarge | BeCapacity => AfArchiveLimit
  | BeNotFound => AfNotFound
  | BeInvalid => AfInvalidRequest
  | BeCorrupt | BeUnavailable => AfUnavailable
  end.
Definition artifact_add_duration (value : Timestamp) (d : duration) : result ArtifactError Timestamp :=
  millis ← ok_or AfInvalidRequest (checked_i64 (as_millis d));
  total ← ok_or AfInvalidRequest (checked_i64 (value + millis));
  map_err (λ _, AfInvalidRequest) (from_unix_millis total).

Record AssembleArtifact := {
  aa_sha1 : bytes;
  aa_chunks : list bytes;
  aa_project_slugs : list str;
  aa_release : option str;
  aa_dist : option str;
}.
Inductive AssembleArtifactState := AsmMissing (chunks : list bytes) | AsmOk (bundle : ArtifactBundle) | AsmError (code : Z).

Inductive ArtifactCall :=
| ArClockNow
| ArFillBytes
| ArAcquire                                (** a permit for one assembly *)
| ArResolveProjects (organization_slug : str) (project_slugs : list str)
| ArProjectOrganization (project_id : ProjectId)
| ArLoadBySha1 (organization_id : Z) (sha1 : bytes)
| ArUpsertUpload (upload : ArtifactUpload)
| ArSetUploadState (upload_id : bytes) (state : ArtifactUploadState) (now : Timestamp) (final_id : option bytes)
    (error_code : option Z)
| ArPublicationGeneration (organization_id : Z) (sha1 upload_id : bytes) (reservation_until : Timestamp)
| ArPublishBundle (upload_id : bytes) (bundle : ArtifactBundle)
| ArLookup (request : ArtifactLookup)
| ArLoadForProject (project_id : ProjectId) (bundle_id : bytes)
| ArRemoveBinding (organization_id : Z) (bundle_id : bytes) (binding : ArtifactBinding) (orphan_at : Timestamp)
    (uploaded_at : option Timestamp)
| ArRecoverableUploads (limit : Z)
| ArClaimGc (now lease_until : Timestamp) (claim : bytes) (limit : Z)
| ArValidateGcClaim (bundle_id : bytes) (generation : Z) (claim : bytes) (minimum_lease_until : Timestamp)
| ArFinishGc (bundle_id : bytes) (generation : Z) (claim : bytes) (tombstone_until : Timestamp)
| ArOpen (key : BlobKey)
| ArReadChunk (key : BlobKey) (maximum : Z)  (** of the object that was opened *)
| ArBegin (kind : BlobKind) (created_at : Timestamp)
| ArWriteChunk (chunk : bytes)
| ArCommit (key : BlobKey)
| ArDeleteWithin (limit : duration) (key : BlobKey)
| ArSpawnBlocking.                         (** the validation on a blocking thread *)
(** [ArFillBytes]: sixteen random bytes.  [ArDeleteWithin]: [None] when the time
    ran out.  [ArSpawnBlocking]: [None] when the thread was lost, else whether the
    deadline had passed at each test of it. *)
Definition artifact_answer (c : ArtifactCall) : Type :=
  match c with
  | ArClockNow => Timestamp
  | ArFillBytes => option bytes
  | ArAcquire => bool
  | ArResolveProjects _ _ => result ArtifactStoreError (Z * list ProjectView)
  | ArProjectOrganization _ => result ArtifactStoreError Z
  | ArLoadBySha1 _ _ => result ArtifactStoreError (option ArtifactBundle)
  | ArUpsertUpload _ => result ArtifactStoreError ArtifactUploadRecord
  | ArSetUploadState _ _ _ _ _ => result ArtifactStoreError unit
  | ArPublicationGeneration _ _ _ _ => result ArtifactStoreError Z
  | ArPublishBundle _ _ => result ArtifactStoreError (list (ProjectId * Z))
  | ArLookup _ => result ArtifactStoreError (list ArtifactCandidate)
  | ArLoadForProject _ _ => result ArtifactStoreError ArtifactBundle
  | ArRemoveBinding _ _ _ _ _ => result ArtifactStoreError (option Z)
  | ArRecoverableUploads _ => result ArtifactStoreError (list ArtifactUploadRecord)
  | ArClaimGc _ _ _ _ => result ArtifactStoreError (list ArtifactGcClaim)
  | ArValidateGcClaim _ _ _ _ | ArFinishGc _ _ _ _ => result ArtifactStoreError bool
  | ArOpen _ | ArBegin _ _ | ArWriteChunk _ => result BlobStoreError unit
  | ArReadChunk _ _ => result BlobStoreError (option bytes)
  | ArCommit _ => result BlobStoreError BlobObject
  | ArDeleteWithin _ _ => option (result BlobStoreError unit)
  | ArSpawnBlocking => option (nat → bool)
  end.
Definition ArtifactSig : signature := Signature ArtifactCall artifact_answer.
Abbreviation handling A := (prog ArtifactSig (result ArtifactError A)).
Definition ar (c : ArtifactCall) : prog ArtifactSig (artifact_answer c) := perform (E := ArtifactSig) c.
Definition ar_store {A} (p : prog ArtifactSig (result ArtifactStoreError A)) : handling A := map_err_p artifact_map_store p.
Definition ar_blob {A} (p : prog ArtifactSig (result BlobStoreError A)) : handling A := map_err_p artifact_map_blob p.
Definition artifact_require (context : AuthContext) (p : Permission) : result ArtifactError unit :=
  if permission_set_contains (cx_permissions context) p then Ok tt else Err AfForbidden.

Section service.
Context {N : Type} `{!JsonApi N, !ManifestApi N, !ZipApi, !Sha1Api, !Blake3, !Base64Api} (c : ArtifactConfig).

(** ** Assembly *)

(** [slice.chunks(n)]. *)
Fixpoint chunks_of (fuel n : nat) (bs : bytes) : list bytes :=
  match fuel with
  | O => []
  | S fuel => if is_empty bs then [] else take n bs :: chunks_of fuel n (drop n bs)
  end.
Fixpoint write_parts (parts : list bytes) : handling unit :=
  match parts with
  | [] => Ret (Ok tt)
  | part :: parts => _ ←? ar_blob (ar (ArWriteChunk part)); write_parts parts
  end.
(** The loop over one object; [None]: the fuel ran out. *)
Fixpoint read_object (fuel : nat) (key : BlobKey) (bs : bytes) : prog ArtifactSig (option (result ArtifactError bytes)) :=
  match fuel with
  | O => Ret None
  | S fuel =>
      part ← ar (ArReadChunk key (ag_stream_chunk_bytes c));
      match (part : result BlobStoreError (option bytes)) with
      | Err e => Ret (Some (Err (artifact_map_blob e)))
      | Ok None => Ret (Some (Ok bs))
      | Ok (Some part) =>
          if ag_maximum_bundle_bytes c <? len bs + len part then Ret (Some (Err AfArchiveLimit))
          else read_object fuel key (bs ++ part)
      end
  end.
Fixpoint read_chunks (fuel : nat) (organization_id : Z) (chunks : list bytes) (bs : bytes)
    : prog ArtifactSig (option (result ArtifactError bytes)) :=
  match chunks with
  | [] => Ret (Some (Ok bs))
  | chunk :: chunks =>
      let key := debug_chunk organization_id chunk in
      opened ← ar_blob (ar (ArOpen key));
      match opened with
      | Err e => Ret (Some (Err e))
      | Ok _ =>
          read ← read_object fuel key bs;
          match read with
          | Some (Ok bs) => read_chunks fuel organization_id chunks bs
          | r => Ret r
          end
      end
  end.
(** [sort] and [dedup] of the tokens. *)
Definition sorted_tokens (organization_id : Z) (ids : list DebugId) : list Z :=
  dedup (merge_sort Z.le (map (debug_token_derive organization_id) ids)).
Definition publish_content (upload : ArtifactUpload) (content : bytes) (validated : ValidatedBundle) : handling ArtifactBundle :=
  if is_empty (vb_debug_ids validated) && forallb (λ b, negb (is_some (ab_release_id b))) (au_bindings upload)
  then Ret (Err AfInvalidRequest)
  else
    let organization_id := au_organization_id upload in
    let checksum := blake3 content in
    now ← ar ArClockNow;
    reservation ←! artifact_add_duration now (ag_claim_lease c);
    generation ←? ar_store (ar (ArPublicationGeneration organization_id (au_sha1 upload) (au_id upload) reservation));
    let id := bundle_id_derive organization_id checksum in
    begun_at ← ar ArClockNow;
    _ ←? ar_blob (ar (ArBegin BkArtifactBundle begun_at));
    _ ←? write_parts (chunks_of (length (vb_bytes validated)) (Z.to_nat (ag_stream_chunk_bytes c)) (vb_bytes validated));
    _ ←? ar_blob (ar (ArCommit (artifact_bundle organization_id id generation)));
    uploaded_at ← ar ArClockNow;
    let bundle :=
      {| at_id := id; at_organization_id := organization_id; at_bindings := au_bindings upload;
         at_bundle_debug_id := unwrap_or (derived_bundle_debug_id checksum) (vb_bundle_debug_id validated);
         at_debug_id_tokens := sorted_tokens organization_id (vb_debug_ids validated); at_checksum := checksum;
         at_sha1 := au_sha1 upload; at_size := len (vb_bytes validated); at_uploaded_at := uploaded_at;
         at_generation := generation |} in
    _ ←? ar_store (ar (ArPublishBundle (au_id upload) bundle));
    Ret (Ok bundle).
Definition validate_content (upload : ArtifactUpload) (content : bytes) : handling ArtifactBundle :=
  if negb (bool_decide (sha1_digest content = au_sha1 upload)) || is_empty content then Ret (Err AfInvalidRequest)
  else
    joined ← ar ArSpawnBlocking;
    match (joined : option (nat → bool)) with
    | None => Ret (Err AfUnavailable)
    | Some expired =>
        validated ←! validate_source_bundle (N := N) c expired content;
        publish_content upload content validated
    end.
Definition assemble_bytes (fuel : nat) (upload : ArtifactUpload) : prog ArtifactSig (option (result ArtifactError ArtifactBundle)) :=
  content ← read_chunks fuel (au_organization_id upload) (au_chunks upload) [];
  match content with
  | None => Ret None
  | Some (Err e) => Ret (Some (Err e))
  | Some (Ok content) => r ← validate_content upload content; Ret (Some r)
  end.
Definition permanent (e : ArtifactError) : bool :=
  match e with
  | AfInvalidRequest | AfMalformedBundle | AfArchiveLimit | AfUnsupportedCompression | AfQuota | AfConflict => true
  | AfForbidden | AfNotFound | AfBusy | AfUnavailable => false
  end.
(** The bundle that is there is published again for the upload. *)
Definition republish (record : ArtifactUploadRecord) (bundle : ArtifactBundle) : handling AssembleArtifactState :=
  now ← ar ArClockNow;
  let bundle :=
    {| at_id := at_id bundle; at_organization_id := at_organization_id bundle; at_bindings := au_bindings (ar_upload record);
       at_bundle_debug_id := at_bundle_debug_id bundle; at_debug_id_tokens := at_debug_id_tokens bundle;
       at_checksum := at_checksum bundle; at_sha1 := at_sha1 bundle; at_size := at_size bundle; at_uploaded_at := now;
       at_generation := at_generation bundle |} in
  _ ←? ar_store (ar (ArPublishBundle (au_id (ar_upload record)) bundle));
  Ret (Ok (AsmOk bundle)).
Definition settle_failure (upload : ArtifactUpload) (e : ArtifactError) : handling AssembleArtifactState :=
  now ← ar ArClockNow;
  _ ← ar (ArSetUploadState (au_id upload) (if permanent e then AuFailed else AuPending) now None
            (if permanent e then Some (artifact_error_code e) else None));
  Ret (if permanent e then Ok (AsmError (artifact_error_code e)) else Err e).
Definition assemble_afresh (fuel : nat) (upload : ArtifactUpload)
    : prog ArtifactSig (option (result ArtifactError AssembleArtifactState)) :=
  acquired ← ar ArAcquire;
  if negb (acquired : bool) then Ret (Some (Err AfUnavailable))
  else
    now ← ar ArClockNow;
    set ← ar_store (ar (ArSetUploadState (au_id upload) AuAssembling now None None));
    match set with
    | Err e => Ret (Some (Err e))
    | Ok _ =>
        assembled ← assemble_bytes fuel upload;
        match assembled with
        | None => Ret None
        | Some (Ok bundle) => Ret (Some (Ok (AsmOk bundle)))
        | Some (Err e) => r ← settle_failure upload e; Ret (Some r)
        end
    end.
Definition assemble_record (fuel : nat) (record : ArtifactUploadRecord)
    : prog ArtifactSig (option (result ArtifactError AssembleArtifactState)) :=
  let upload := ar_upload record in
  if bool_decide (ar_state record = AuComplete) then
    loaded ← ar_store (ar (ArLoadBySha1 (au_organization_id upload) (au_sha1 upload)));
    match loaded with
    | Err e => Ret (Some (Err e))
    | Ok (Some bundle) => r ← republish record bundle; Ret (Some r)
    | Ok None => assemble_afresh fuel upload
    end
  else assemble_afresh fuel upload.

(** ** Requests *)

Definition assemble_request_invalid (request : AssembleArtifact) : bool :=
  is_empty (aa_chunks request) || (MAX_ARTIFACT_CHUNKS <? len (aa_chunks request))
  || is_empty (aa_project_slugs request) || (MAX_ARTIFACT_BINDINGS <? len (aa_project_slugs request))
  || is_some_and (λ value, is_empty value || (MAX_RELEASE_BYTES <? len value) || any_control value) (aa_release request)
  || (is_some (aa_dist request) && negb (is_some (aa_release request))).
Fixpoint collect_bindings (projects : list ProjectView) (release_id : option bytes) (dist : option str)
    : result ArtifactError (list ArtifactBinding) :=
  match projects with
  | [] => Ok []
  | project :: projects =>
      binding ← map_err (λ _, AfInvalidRequest) (artifact_binding_new (pv_id project) release_id dist);
      bindings ← collect_bindings projects release_id dist;
      Ok (binding :: bindings)
  end.
Fixpoint missing_chunks (organization_id : Z) (chunks : list bytes) : handling (list bytes) :=
  match chunks with
  | [] => Ret (Ok [])
  | chunk :: chunks =>
      opened ← ar (ArOpen (debug_chunk organization_id chunk));
      match (opened : result BlobStoreError unit) with
      | Ok _ => missing_chunks organization_id chunks
      | Err BeNotFound => missing ←? missing_chunks organization_id chunks; Ret (Ok (chunk :: missing))
      | Err e => Ret (Err (artifact_map_blob e))
      end
  end.
(** [slugs.sort(); slugs.dedup()]. *)
Fixpoint insert_slug (slug : str) (l : list str) : list str :=
  match l with
  | [] => [slug]
  | x :: l' => if str_ltb x slug then x :: insert_slug slug l' else slug :: l
  end.
Definition sorted_slugs (slugs : list str) : list str := dedup (foldr insert_slug [] slugs).
Definition resolve_bindings (context : AuthContext) (organization_slug : str) (request : AssembleArtifact)
    : handling (list ArtifactBinding) :=
  resolved ←? ar_store (ar (ArResolveProjects organization_slug (sorted_slugs (aa_project_slugs request))));
  if negb (bool_decide (resolved.1 = cx_organization_id context)) then Ret (Err AfNotFound)
  else
    Ret (collect_bindings resolved.2 (derive_release_id (cx_organization_id context) <$> aa_release request) (aa_dist request)).
Definition assemble_upload (context : AuthContext) (organization_slug : str) (request : AssembleArtifact)
    : handling (list bytes + ArtifactUploadRecord) :=
  _ ←! artifact_require context ArtifactWrite;
  if assemble_request_invalid request then Ret (Err AfInvalidRequest)
  else
    bindings ←? resolve_bindings context organization_slug request;
    let organization_id := cx_organization_id context in
    missing ←? missing_chunks organization_id (aa_chunks request);
    if negb (is_empty missing) then Ret (Ok (inl missing))
    else
      now ← ar ArClockNow;
      record ←? ar_store (ar (ArUpsertUpload
        {| au_id := upload_id organization_id (aa_sha1 request); au_organization_id := organization_id; au_sha1 := aa_sha1 request;
           au_chunks := aa_chunks request; au_bindings := bindings; au_created_at := now; au_updated_at := now |}));
      Ret (Ok (inr record)).
Definition assemble (fuel : nat) (context : AuthContext) (organization_slug : str) (request : AssembleArtifact)
    : prog ArtifactSig (option (result ArtifactError AssembleArtifactState)) :=
  upload ← assemble_upload context organization_slug request;
  match upload with
  | Err e => Ret (Some (Err e))
  | Ok (inl missing) => Ret (Some (Ok (AsmMissing missing)))
  | Ok (inr record) => assemble_record fuel record
  end.
(** The loop of [recover]; [None]: the fuel ran out in a record. *)
Fixpoint recover_records (fuel : nat) (records : list ArtifactUploadRecord) (completed : Z) : prog ArtifactSig (option Z) :=
  match records with
  | [] => Ret (Some completed)
  | record :: records =>
      r ← assemble_record fuel record;
      match r with
      | None => Ret None
      | Some (Ok (AsmOk _)) => recover_records fuel records (sat_u64 (completed + 1))
      | Some _ => recover_records fuel records completed
      end
  end.
Definition recover (fuel : nat) (limit : Z) : prog ArtifactSig (option (result ArtifactError Z)) :=
  records ← ar_store (ar (ArRecoverableUploads limit));
  match (records : result ArtifactError (list ArtifactUploadRecord)) with
  | Err e => Ret (Some (Err e))
  | Ok records => completed ← recover_records fuel records 0; Ret (Ok <$> (completed : option Z))
  end.
Definition lookup_invalid (debug_ids : list DebugId) (release : option str) (dist : option str) : bool :=
  (MAX_ARTIFACT_DEBUG_IDS <? len debug_ids)
  || is_some_and (λ value, is_empty value || (MAX_RELEASE_BYTES <? len value)) release
  || (is_some dist && negb (is_some release)).
Definition artifact_lookup (project_id : ProjectId) (debug_ids : list DebugId) (release dist : option str)
    : handling (list ArtifactCandidate) :=
  if lookup_invalid debug_ids release dist then Ret (Err AfInvalidRequest)
  else
    organization_id ←? ar_store (ar (ArProjectOrganization project_id));
    ar_store (ar (ArLookup
      {| lk_project_id := project_id; lk_organization_id := organization_id; lk_debug_ids := debug_ids;
         lk_release_id := derive_release_id organization_id <$> release; lk_dist := dist; lk_limit := 20 |})).
(** The reader is the object that was opened. *)
Definition artifact_open (project_id : ProjectId) (bundle_id : bytes) : handling ArtifactBundle :=
  bundle ←? ar_store (ar (ArLoadForProject project_id bundle_id));
  _ ←? ar_blob (ar (ArOpen (artifact_bundle (at_organization_id bundle) (at_id bundle) (at_generation bundle))));
  Ret (Ok bundle).
Definition artifact_remove_binding (context : AuthContext) (bundle_id : bytes) (binding : ArtifactBinding) : handling bool :=
  _ ←! artifact_require context ArtifactDelete;
  organization_id ←? ar_store (ar (ArProjectOrganization (ab_project_id binding)));
  if negb (bool_decide (organization_id = cx_organization_id context)) then Ret (Err AfNotFound)
  else
    now ← ar ArClockNow;
    orphan_at ←! artifact_add_duration now (ag_orphan_grace c);
    revision ←? ar_store (ar (ArRemoveBinding organization_id bundle_id binding orphan_at None));
    Ret (Ok (is_some revision)).

(** ** Garbage collection *)

Definition gc_key (claimed : ArtifactGcClaim) : BlobKey :=
  artifact_bundle (at_organization_id (gc_bundle claimed)) (at_id (gc_bundle claimed)) (at_generation (gc_bundle claimed)).
Definition gc_finish (claimed : ArtifactGcClaim) : handling bool :=
  now ← ar ArClockNow;
  tombstone_until ←! artifact_add_duration now (ag_tombstone_retention c);
  ar_store (ar (ArFinishGc (at_id (gc_bundle claimed)) (at_generation (gc_bundle claimed)) (gc_claim claimed) tombstone_until)).
Definition gc_claimed (claimed : ArtifactGcClaim) : handling bool :=
  now ← ar ArClockNow;
  minimum_lease_until ←! artifact_add_duration now (ag_blob_operation_timeout c);
  valid ←? ar_store (ar (ArValidateGcClaim (at_id (gc_bundle claimed)) (at_generation (gc_bundle claimed)) (gc_claim claimed)
                           minimum_lease_until));
  if negb (valid : bool) then Ret (Ok false)
  else
    deleted ← ar (ArDeleteWithin (ag_blob_operation_timeout c) (gc_key claimed));
    match (deleted : option (result BlobStoreError unit)) with
    | None => Ret (Err AfUnavailable)
    | Some (Ok _) | Some (Err BeNotFound) => gc_finish claimed
    | Some (Err e) => Ret (Err (artifact_map_blob e))
    end.
(** What [gc_once] does before the claimed bundles are handled. *)
Definition gc_claims : handling (list ArtifactGcClaim) :=
  now ← ar ArClockNow;
  lease_until ←! artifact_add_duration now (ag_claim_lease c);
  claim ← ar ArFillBytes;
  match (claim : option bytes) with
  | None => Ret (Err AfUnavailable)
  | Some claim => ar_store (ar (ArClaimGc now lease_until claim (ag_gc_batch_size c)))
  end.
End service.

(** [buffer_unordered(n)] and [try_fold]: the claims that wait, those in flight,
    and how many deleted bundles are counted; an error ends the stream and drops
    what is in flight. *)
Inductive GcState :=
| GcRunning (waiting in_flight : list ArtifactGcClaim) (completed : Z)
| GcFailed (error : ArtifactError).
Section collection.
Context `{!Base64Api} (c : ArtifactConfig).
Inductive gc_step : GcState → GcState → Prop :=
| gc_start claimed waiting in_flight completed :
    len in_flight < ag_gc_max_concurrency c →
    gc_step (GcRunning (claimed :: waiting) in_flight completed) (GcRunning waiting (in_flight ++ [claimed]) completed)
| gc_end waiting before claimed after completed tr deleted :
    exec (gc_claimed c claimed) tr (Ok deleted) →
    gc_step (GcRunning waiting (before ++ claimed :: after) completed)
      (GcRunning waiting (before ++ after) (completed + (if (deleted : bool) then 1 else 0)))
| gc_error waiting before claimed after completed tr error :
    exec (gc_claimed c claimed) tr (Err error) →
    gc_step (GcRunning waiting (before ++ claimed :: after) completed) (GcFailed error).
Definition gc_initial (claims : list ArtifactGcClaim) : GcState := GcRunning claims [] 0.
End collection.

(** ** Objects read one after the other *)

(** The objects opened so far, the last one first, each with whether its end was
    read. *)
Inductive ReadEvent := OpenedObject (key : BlobKey) | EndedObject | OtherEvent.
Definition read_step (objects : list (BlobKey * bool)) (e : ReadEvent) : list (BlobKey * bool) :=
  match e, objects with
  | OpenedObject key, _ => (key, false) :: objects
  | EndedObject, (key, _) :: objects => (key, true) :: objects
  | _, _ => objects
  end.
Definition objects_read {E : signature} (classify : event E → ReadEvent) (h : list (event E)) : list (BlobKey * bool) :=
  foldl (λ objects e, read_step objects (classify e)) [] h.
Definition all_read (keys : list BlobKey) : list (BlobKey * bool) := reverse (map (λ key, (key, true)) keys).
Lemma objects_read_snoc {E : signature} (classify : event E → ReadEvent) h e :
  objects_read classify (h ++ [e]) = read_step (objects_read classify h) (classify e).
Proof. unfold objects_read. by rewrite foldl_app. Qed.
Lemma all_read_snoc keys key : all_read (keys ++ [key]) = (key, true) :: all_read keys.
Proof. unfold all_read. by rewrite map_app, reverse_app. Qed.

(** ** What an assembly may do *)

(** The calls of a method are made one by one. *)
Ltac art_step := cbn [attempt attempt_pure map_err_p ar_blob ar_store ar perform mbind prog_bind map_err].

Section assembly.
Context {N : Type} `{!JsonApi N, !ManifestApi N, !ZipApi, !Sha1Api, !Blake3, !Base64Api} (c : ArtifactConfig) (upload : ArtifactUpload).
Abbreviation history := (list (event ArtifactSig)).
Abbreviation organization := (au_organization_id upload).

Definition part_of (e : event ArtifactSig) : option bytes :=
  let '(existT call x) := e in
  match call return artifact_answer call → option bytes with
  | ArReadChunk _ _ => λ x, match x with Ok part => part | Err _ => None end
  | _ => λ _, None
  end x.
Definition piece_of (e : event ArtifactSig) : option bytes :=
  match projT1 e with ArWriteChunk piece => Some piece | _ => None end.
Definition artifact_read (e : event ArtifactSig) : ReadEvent :=
  let '(existT call x) := e in
  match call return artifact_answer call → ReadEvent with
  | ArOpen key => λ x, match x with Ok _ => OpenedObject key | Err _ => OtherEvent end
  | ArReadChunk _ _ => λ x, match x with Ok None => EndedObject | _ => OtherEvent end
  | _ => λ _, OtherEvent
  end x.
(** The objects of these chunks, and no others, were opened, in this order, and
    each was read to its end before the next. *)
Definition chunks_read (h : history) (chunks : list bytes) : Prop :=
  objects_read artifact_read h = all_read (map (debug_chunk organization) chunks).
(** What was read of the chunks and what was written of the object. *)
Definition content_read (h : history) : bytes := concat (omap part_of h).
Definition content_written (h : history) : bytes := concat (omap piece_of h).
Definition same_content (b b0 : ArtifactBundle) : Prop :=
  at_id b = at_id b0 ∧ at_organization_id b = at_organization_id b0 ∧ at_generation b = at_generation b0
  ∧ at_checksum b = at_checksum b0 ∧ at_sha1 b = at_sha1 b0 ∧ at_size b = at_size b0.
(** The bundle is the validated content of the chunks, and is stored. *)
Definition assembled_as (h : history) (b : ArtifactBundle) : Prop :=
  chunks_read h (au_chunks upload) ∧ sha1_digest (content_read h) = au_sha1 upload ∧ content_read h ≠ [] ∧ len (content_read h) ≤ ag_maximum_bundle_bytes c
  ∧ (∃ expired v, validate_source_bundle (N := N) c expired (content_read h) = Ok v
       ∧ at_debug_id_tokens b = sorted_tokens organization (vb_debug_ids v))
  ∧ content_written h = content_read h
  ∧ at_checksum b = blake3 (content_read h) ∧ at_id b = bundle_id_derive organization (at_checksum b)
  ∧ at_organization_id b = organization ∧ at_sha1 b = au_sha1 upload ∧ at_size b = len (content_read h)
  ∧ (∃ object, answered (E := ArtifactSig) (ArCommit (artifact_bundle organization (at_id b) (at_generation b))) (Ok object) h)
  ∧ ∃ until, answered (E := ArtifactSig) (ArPublicationGeneration organization (au_sha1 upload) (au_id upload) until)
               (Ok (at_generation b)) h.
Definition assembly_allowed (h : history) (call : ArtifactCall) : Prop :=
  match call with
  | ArPublishBundle id b =>
      id = au_id upload ∧ at_bindings b = au_bindings upload
      ∧ ((∃ b0, answered (E := ArtifactSig) (ArLoadBySha1 organization (au_sha1 upload)) (Ok (Some b0)) h ∧ same_content b b0)
         ∨ assembled_as h b)
  | ArOpen key =>
      ∃ before chunk after, au_chunks upload = before ++ chunk :: after ∧ key = debug_chunk organization chunk ∧ chunks_read h before
  | ArReadChunk key _ =>
      ∃ before chunk after, au_chunks upload = before ++ chunk :: after ∧ key = debug_chunk organization chunk
        ∧ objects_read artifact_read h = (key, false) :: all_read (map (debug_chunk organization) before)
  | ArSetUploadState id _ _ final_id _ => id = au_id upload ∧ final_id = None
  | ArLoadBySha1 o sha1 | ArPublicationGeneration o sha1 _ _ => o = organization ∧ sha1 = au_sha1 upload
  | ArCommit key =>
      chunks_read h (au_chunks upload) ∧ content_written h = content_read h ∧ sha1_digest (content_read h) = au_sha1 upload
      ∧ ∃ generation, key = artifact_bundle organization (bundle_id_derive organization (blake3 (content_read h))) generation
  | ArClockNow | ArAcquire | ArSpawnBlocking | ArBegin _ _ | ArWriteChunk _ => True
  | _ => False
  end.
(** A read that answered with an empty part. *)
Definition empty_part (h : history) : Prop := ∃ key maximum, answered (E := ArtifactSig) (ArReadChunk key maximum) (Ok (Some [])) h.

Lemma content_read_snoc h e : content_read (h ++ [e]) = content_read h ++ match part_of e with Some p => p | None => [] end.
Proof. unfold content_read. rewrite omap_app, concat_app. cbn. destruct (part_of e); cbn; by rewrite ?app_nil_r. Qed.
Lemma content_written_snoc h e : content_written (h ++ [e]) = content_written h ++ match piece_of e with Some p => p | None => [] end.
Proof. unfold content_written. rewrite omap_app, concat_app. cbn. destruct (piece_of e); cbn; by rewrite ?app_nil_r. Qed.

Lemma artifact_read_snoc (h : history) (e : event ArtifactSig) :
  objects_read artifact_read (h ++ [e]) = read_step (objects_read artifact_read h) (artifact_read e).
Proof. apply objects_read_snoc. Qed.
(** The end of a read of these chunks. *)
Definition read_so_far (fuel : nat) (chunks : list bytes) (h : history) (r : option (result ArtifactError bytes)) : Prop :=
  match r with
  | Some (Ok bs) => chunks_read h chunks ∧ content_read h = bs ∧ content_written h = [] ∧ len bs ≤ ag_maximum_bundle_bytes c
  | Some (Err _) => True
  | None => (fuel ≤ Z.to_nat (ag_maximum_bundle_bytes c) + 1)%nat ∨ empty_part h
  end.
Lemma chunks_read_end h e before chunk :
  objects_read artifact_read h = (debug_chunk organization chunk, false) :: all_read (map (debug_chunk organization) before) →
  artifact_read e = EndedObject → chunks_read (h ++ [e]) (before ++ [chunk]).
Proof. intros Ho He. unfold chunks_read. rewrite artifact_read_snoc, He, Ho, map_app. symmetry. apply all_read_snoc. Qed.
Lemma read_object_sat before chunk after : au_chunks upload = before ++ chunk :: after → ∀ fuel0 fuel bs h,
  objects_read artifact_read h = (debug_chunk organization chunk, false) :: all_read (map (debug_chunk organization) before) →
  content_read h = bs → content_written h = [] → len bs ≤ ag_maximum_bundle_bytes c →
  ((fuel0 ≤ fuel + length bs)%nat ∨ empty_part h) →
  sat assembly_allowed (read_so_far fuel0 (before ++ [chunk])) h (read_object c fuel (debug_chunk organization chunk) bs).
Proof.
  intros Hin fuel0. induction fuel as [|fuel IH]; intros bs h Ho Hr Hw Hl Hf; cbn [read_object].
  - destruct Hf as [Hf|Hf]; [left|by right]. unfold len in Hl. lia.
  - split; [by exists before, chunk, after|]. intros [[part|]|e]; [| |done].
    + art_step.
      destruct (Z.ltb_spec (ag_maximum_bundle_bytes c) (len bs + len part)); [done|]. apply IH.
      * by rewrite artifact_read_snoc, Ho.
      * by rewrite content_read_snoc, Hr.
      * by rewrite content_written_snoc, Hw.
      * rewrite len_app. lia.
      * destruct part as [|b part].
        -- right. exists (debug_chunk organization chunk), (ag_stream_chunk_bytes c). apply answered_last.
        -- destruct Hf as [Hf|(key & m & Hf)]; [left; rewrite length_app; cbn; lia|].
           right. exists key, m. by apply answered_app.
    + split; [by apply chunks_read_end|]. rewrite content_read_snoc, content_written_snoc. cbn. by rewrite !app_nil_r.
Qed.
Lemma read_chunks_sat fuel chunks : ∀ before bs h, au_chunks upload = before ++ chunks → chunks_read h before →
  content_read h = bs → content_written h = [] → len bs ≤ ag_maximum_bundle_bytes c →
  sat assembly_allowed (read_so_far fuel (au_chunks upload)) h (read_chunks c fuel organization chunks bs).
Proof.
  induction chunks as [|chunk chunks IH]; intros before bs h Hin Ho Hr Hw Hl; cbn [read_chunks].
  { rewrite app_nil_r in Hin. by rewrite Hin. }
  split; [by exists before, chunk, chunks|]. intros [[]|e]; [|done]. art_step.
  eapply sat_then.
  - apply (read_object_sat before chunk chunks Hin fuel fuel bs); [| | |done|left; lia].
    + rewrite artifact_read_snoc. by rewrite Ho.
    + by rewrite content_read_snoc, app_nil_r.
    + by rewrite content_written_snoc, app_nil_r.
  - intros h' [[bs'|e]|] _ Hp; [|exact Hp|exact Hp]. destruct Hp as (Ho' & Hr' & Hw' & Hl').
    apply (IH (before ++ [chunk])); try done. by rewrite <- app_assoc.
Qed.

Lemma concat_chunks_of n fuel bs : (0 < n)%nat → (length bs ≤ fuel)%nat → concat (chunks_of fuel n bs) = bs.
Proof.
  intros Hn. revert bs. induction fuel as [|fuel IH]; intros bs Hl; [by destruct bs; [|cbn in Hl; lia]|].
  cbn [chunks_of]. destruct bs as [|b bs]; [done|]. cbn [is_empty non_empty negb concat].
  rewrite IH by (rewrite length_drop; cbn [length] in *; lia). apply take_drop.
Qed.
Lemma art_answered_snoc call x h e : answered (E := ArtifactSig) call x h → answered (E := ArtifactSig) call x (h ++ [e]).
Proof. apply answered_app. Qed.
Lemma write_parts_sat parts {B} (k : unit → handling B) (post : history → result ArtifactError B → Prop) : ∀ h,
  (∀ h' e, post h' (Err e)) →
  (∀ h', h `prefix_of` h' → objects_read artifact_read h' = objects_read artifact_read h →
     content_read h' = content_read h → content_written h' = content_written h ++ concat parts →
     sat assembly_allowed post h' (k tt)) →
  sat assembly_allowed post h (attempt (write_parts parts) k).
Proof.
  intros h He. revert h. induction parts as [|part parts IH]; intros h Hk; cbn [write_parts].
  - apply Hk; [done|done|done|]. by rewrite app_nil_r.
  - split; [done|]. intros [[]|e]; art_step; [|apply He]. apply IH. intros h' Hp Ho Hr Hw. apply Hk.
    + etrans; [apply prefix_snoc|exact Hp].
    + by rewrite Ho, artifact_read_snoc.
    + rewrite Hr, content_read_snoc. apply app_nil_r.
    + rewrite Hw, content_written_snoc. cbn. by rewrite <- app_assoc.
Qed.
(** The bundle returned was published. *)
Definition published (h : history) (b : ArtifactBundle) : Prop :=
  ∃ revisions, answered (E := ArtifactSig) (ArPublishBundle (au_id upload) b) (Ok revisions) h.
Definition bundle_told (h : history) (r : result ArtifactError ArtifactBundle) : Prop :=
  match r with Ok b => published h b | Err _ => True end.

Lemma validated_bytes expired bs v : validate_source_bundle (N := N) c expired bs = Ok v → vb_bytes v = bs.
Proof.
  unfold validate_source_bundle. intros Hv.
  repeat match type of Hv with
  | (if ?b then _ else _) = _ => destruct b; [done|]
  | (?r ≫= _) = _ => let E := fresh in destruct r eqn:E; [|done]; cbn [mbind result_bind] in Hv
  end. by injection Hv as <-.
Qed.
Lemma validate_content_sat content h : (0 < Z.to_nat (ag_stream_chunk_bytes c))%nat →
  chunks_read h (au_chunks upload) → content_read h = content → content_written h = [] →
  len content ≤ ag_maximum_bundle_bytes c → sat assembly_allowed bundle_told h (validate_content (N := N) c upload content).
Proof.
  intros Hn Ho Hr Hw Hl. unfold validate_content. destruct (_ || _) eqn:Esha; [done|]. apply orb_false_iff in Esha as [Hsha Hne].
  apply negb_false_iff, bool_decide_eq_true in Hsha. split; [done|]. intros [expired|]; art_step; [|done].
  destruct (validate_source_bundle c expired content) as [v|] eqn:Hv; [|done]. art_step. unfold publish_content.
  destruct (is_empty (vb_debug_ids v) && _); [done|]. cbv zeta. split; [done|]. intros now. art_step.
  destruct (artifact_add_duration now _) as [until|]; [|done]. art_step.
  split; [done|]. intros [generation|e]; art_step; [|done].
  split; [done|]. intros begun. art_step. split; [done|]. intros [[]|e]; art_step; [|done].
  match goal with |- sat _ _ ?h' _ => set (h1 := h') end.
  assert (chunks_read h1 (au_chunks upload) ∧ content_read h1 = content ∧ content_written h1 = [] ∧ answered (E := ArtifactSig)
    (ArPublicationGeneration organization (au_sha1 upload) (au_id upload) until) (Ok generation) h1) as (Ho1 & Hr1 & Hw1 & Hg1).
  { subst h1. split; [unfold chunks_read; by rewrite !artifact_read_snoc|]. rewrite !content_read_snoc, !content_written_snoc. cbn [part_of piece_of projT1]. rewrite !app_nil_r.
    split; [done|]. split; [done|]. do 2 apply art_answered_snoc. apply answered_last. }
  clearbody h1. apply write_parts_sat; [done|]. intros h2 Hp Ho2 Hr2 Hw2.
  assert (chunks_read h2 (au_chunks upload)) as Hchunks by (unfold chunks_read; by rewrite Ho2).
  assert (content_read h2 = content) as Hread by (by rewrite Hr2).
  assert (content_written h2 = content) as Hwritten.
  { rewrite Hw2, Hw1, (validated_bytes _ _ _ Hv). by apply concat_chunks_of. }
  art_step. split. { split; [done|]. split; [by rewrite Hread|]. split; [by rewrite Hread|]. exists generation. by rewrite Hread. }
  intros [object|e]; art_step; [|done]. split; [done|]. intros uploaded. art_step.
  set (h3 := (h2 ++ _) ++ _). assert (content_read h3 = content) as Hread3
    by (subst h3; rewrite !content_read_snoc; cbn; by rewrite !app_nil_r).
  split.
  - split; [done|]. split; [done|]. right. unfold assembled_as. rewrite Hread3. cbn.
    split_and!; try done.
    + subst h3. unfold chunks_read. by rewrite !artifact_read_snoc.
    + intros ->. by destruct (is_empty []) eqn:E.
    + by exists expired, v.
    + subst h3. rewrite !content_written_snoc. cbn. by rewrite !app_nil_r.
    + by rewrite (validated_bytes _ _ _ Hv).
    + exists object. subst h3. apply art_answered_snoc, answered_last.
    + exists until. subst h3. do 2 apply art_answered_snoc. by eapply answered_prefix.
  - intros [revisions|e]; art_step; [|done]. exists revisions. apply answered_last.
Qed.

Definition record_told (fuel : nat) (h : history) (r : option (result ArtifactError AssembleArtifactState)) : Prop :=
  match r with
  | Some (Ok (AsmOk b)) => published h b
  | Some (Ok (AsmError code)) => ∃ e now x, permanent e = true ∧ code = artifact_error_code e
      ∧ answered (E := ArtifactSig) (ArSetUploadState (au_id upload) AuFailed now None (Some code)) x h
  | Some (Ok (AsmMissing _)) => False
  | Some (Err _) => True
  | None => (fuel ≤ Z.to_nat (ag_maximum_bundle_bytes c) + 1)%nat ∨ empty_part h
  end.
Lemma settle_failure_sat fuel e h :
  sat assembly_allowed (record_told fuel) h (r ← settle_failure upload e; Ret (Some r)).
Proof.
  unfold settle_failure. split; [done|]. intros now. art_step. split; [done|]. intros x. art_step.
  destruct (permanent e) eqn:Ep; [|done]. exists e, now, x. split; [done|]. split; [done|]. apply answered_last.
Qed.
Lemma assemble_afresh_sat fuel h : artifact_config_valid c = true → chunks_read h [] →
  content_read h = [] → content_written h = [] →
  sat assembly_allowed (record_told fuel) h (assemble_afresh (N := N) c fuel upload).
Proof.
  intros Hc Ho Hr Hw. assert (0 ≤ ag_maximum_bundle_bytes c ∧ (0 < Z.to_nat (ag_stream_chunk_bytes c))%nat) as [Hmax Hn].
  { unfold artifact_config_valid, in_range, MEBIBYTE in Hc. bool_prop. lia. }
  unfold assemble_afresh. split; [done|]. intros [|]; art_step; [|done]. split; [done|]. intros now. art_step.
  split; [done|]. intros [[]|e]; art_step; [|done]. match goal with |- sat _ _ ?h' _ => set (h1 := h') end.
  assert (chunks_read h1 [] ∧ content_read h1 = [] ∧ content_written h1 = []) as (Ho1 & Hr1 & Hw1).
  { subst h1. split; [unfold chunks_read in *; by rewrite !artifact_read_snoc|]. rewrite !content_read_snoc, !content_written_snoc, Hr, Hw. done. }
  clearbody h1. unfold assemble_bytes. rewrite sat_bind, sat_bind. eapply sat_mono; [done| |by apply (read_chunks_sat fuel _ [])].
  intros h2 [[content|e]|] Hp; [|apply settle_failure_sat|exact Hp]. destruct Hp as (Ho2 & Hr2 & Hw2 & Hl2).
  rewrite sat_bind. eapply sat_mono; [done| |by apply (validate_content_sat content)].
  intros h3 [b|e] Hb; [exact Hb|apply settle_failure_sat].
Qed.
End assembly.

(** C12. Whatever the stores answer, an assembly publishes only the bundle already
    stored or one whose content is all that was read of the objects of its chunks,
    these and no others opened, in order, each read to its end before the next; the
    content has the requested digest, is within the limit and validated, and was
    written to the object committed under the published identity and generation.
    A bundle is told only as the store published it; a permanent failure is told
    only after it was handed to the store as the state of the upload, whatever the
    store answered to that.  Fuel beyond the limit on bundles ends the reads unless
    an object answers a read with an empty part, on which the loop of the code makes
    no progress. *)
Theorem assembly_publishes_content {N : Type} `{!JsonApi N, !ManifestApi N, !ZipApi, !Sha1Api, !Blake3, !Base64Api} c fuel record :
  artifact_config_valid c = true →
  sat (assembly_allowed (N := N) c (ar_upload record)) (record_told c (ar_upload record) fuel) []
    (assemble_record (N := N) c fuel record).
Proof.
  intros Hc. unfold assemble_record. case_bool_decide as Hs; [|by apply assemble_afresh_sat].
  split; [done|]. intros [[b0|]|e]; art_step; [| |done].
  - unfold republish. split; [done|]. intros now. art_step. split.
    + split; [done|]. split; [done|]. left. exists b0. split; [apply art_answered_snoc, answered_last|done].
    + intros [revisions|e]; art_step; [|done]. exists revisions. apply answered_last.
  - by apply assemble_afresh_sat.
Qed.

(** ** What garbage collection deletes *)

Section gc.
Context `{!Base64Api} (c : ArtifactConfig) (claimed : ArtifactGcClaim).
Abbreviation ev call x := (existT (P := answer ArtifactSig) call x).
Abbreviation bundle := (gc_bundle claimed).

(** How a claimed bundle is handled: the object of its generation is deleted only
    under a lease that lasts beyond the deletion, and the collection is finished
    only when the object is gone. *)
Inductive gc_handled : list (event ArtifactSig) → result ArtifactError bool → Prop :=
| gc_refused now e : artifact_add_duration now (ag_blob_operation_timeout c) = Err e →
    gc_handled [ev ArClockNow now] (Err e)
| gc_invalid now until answer r :
    artifact_add_duration now (ag_blob_operation_timeout c) = Ok until → answer ≠ Ok true →
    r = (match answer with Ok _ => Ok false | Err e => Err (artifact_map_store e) end) →
    gc_handled [ev ArClockNow now; ev (ArValidateGcClaim (at_id bundle) (at_generation bundle) (gc_claim claimed) until) answer] r
| gc_kept now until answer e :
    artifact_add_duration now (ag_blob_operation_timeout c) = Ok until → answer ≠ Some (Ok tt) → answer ≠ Some (Err BeNotFound) →
    gc_handled [ev ArClockNow now; ev (ArValidateGcClaim (at_id bundle) (at_generation bundle) (gc_claim claimed) until) (Ok true);
                ev (ArDeleteWithin (ag_blob_operation_timeout c) (gc_key claimed)) answer] (Err e)
| gc_gone now until answer later rest r :
    artifact_add_duration now (ag_blob_operation_timeout c) = Ok until → answer = Some (Ok tt) ∨ answer = Some (Err BeNotFound) →
    (rest = [] ∧ is_ok r = false
     ∨ ∃ tombstone x, artifact_add_duration later (ag_tombstone_retention c) = Ok tombstone ∧ r = map_err artifact_map_store x
         ∧ rest = [ev (ArFinishGc (at_id bundle) (at_generation bundle) (gc_claim claimed) tombstone) x]) →
    gc_handled ([ev ArClockNow now; ev (ArValidateGcClaim (at_id bundle) (at_generation bundle) (gc_claim claimed) until) (Ok true);
                 ev (ArDeleteWithin (ag_blob_operation_timeout c) (gc_key claimed)) answer; ev ArClockNow later] ++ rest) r.

Lemma gc_finish_exec tr r : exec (gc_finish c claimed) tr r → ∃ later rest, tr = ev ArClockNow later :: rest
  ∧ (rest = [] ∧ is_ok r = false
     ∨ ∃ tombstone x, artifact_add_duration later (ag_tombstone_retention c) = Ok tombstone ∧ r = map_err artifact_map_store x
         ∧ rest = [ev (ArFinishGc (at_id bundle) (at_generation bundle) (gc_claim claimed) tombstone) x]).
Proof.
  intros (later & rest & -> & He). exists later, rest. split; [done|]. unfold attempt_pure in He. cbn beta in He.
  fold (prog_bind (E := ArtifactSig)) in He. cbn in He.
  destruct (artifact_add_duration later (ag_tombstone_retention c)) as [tombstone|e].
  - destruct He as (x & tr & -> & -> & ->). right. by exists tombstone, x.
  - destruct He as [-> ->]. by left.
Qed.
Lemma gc_claimed_exec tr r : exec (gc_claimed c claimed) tr r → gc_handled tr r.
Proof.
  intros (now & tr1 & -> & He). cbn in He. destruct (artifact_add_duration now _) as [until|e] eqn:Eu.
  2:{ destruct He as [-> ->]. by apply gc_refused. }
  destruct He as (valid & tr2 & -> & He). destruct valid as [[|]|e]; cbn in He.
  - destruct He as (deleted & tr3 & -> & He). destruct deleted as [[[]|e]|]; cbn in He.
    + destruct (gc_finish_exec _ _ He) as (later & rest & -> & Hr). by eapply (gc_gone now until _ later rest); [|left|].
    + destruct e; try (destruct He as [-> ->]; by eapply gc_kept).
      destruct (gc_finish_exec _ _ He) as (later & rest & -> & Hr). by eapply (gc_gone now until _ later rest); [|right|].
    + destruct He as [-> ->]. by eapply gc_kept.
  - destruct He as [-> ->]. by eapply gc_invalid.
  - destruct He as [-> ->]. by eapply gc_invalid.
Qed.
End gc.

(** A claimed bundle is handled in one of four ways: refused without a call, left
    when the claim is no longer valid, kept when its object cannot be deleted, or
    its object is deleted under a lease that lasts beyond the deletion and only
    then the collection is finished. *)
Theorem gc_deletes_under_lease `{!Base64Api} c claimed tr r :
  exec (gc_claimed c claimed) tr r → gc_handled c claimed tr r.
Proof. apply gc_claimed_exec. Qed.

Definition gc_measure (s : GcState) : nat :=
  match s with GcRunning waiting in_flight _ => 2 * length waiting + length in_flight + 1 | GcFailed _ => 0 end.
Lemma gc_step_measure `{!Base64Api} c s s' : gc_step c s s' → (gc_measure s' < gc_measure s)%nat.
Proof. destruct 1; cbn [gc_measure]; rewrite ?length_app; cbn [length]; lia. Qed.
(** A collection keeps its concurrency, handles each claim once, counts no more
    than it handled, and ends. *)
Theorem gc_collection_bounded `{!Base64Api} c claims s :
  0 ≤ ag_gc_max_concurrency c → rtc (gc_step c) (gc_initial claims) s →
  (match s with
   | GcRunning waiting in_flight completed =>
       len in_flight ≤ ag_gc_max_concurrency c
       ∧ ∃ handled, waiting ++ in_flight ++ handled ≡ₚ claims ∧ 0 ≤ completed ≤ len handled
   | GcFailed _ => True
   end) ∧ ∀ s', gc_step c s s' → (gc_measure s' < gc_measure s)%nat.
Proof.
  intros Hc Hr. split; [|intros s'; apply gc_step_measure]. revert s Hr. apply rtc_ind_r.
  - split; [done|]. exists []. by rewrite !app_nil_r.
  - intros s s' _ Hs IH. destruct Hs; [| |done]; destruct IH as (Hn & handled & Hp & Hd).
    + rewrite len_app. split; [change (len [claimed]) with 1; lia|]. exists handled. split; [|done]. rewrite <- Hp. cbn.
      rewrite <- app_assoc. cbn. rewrite (app_assoc waiting in_flight), <- Permutation_middle. by rewrite <- app_assoc.
    + rewrite len_app in *. rewrite len_cons in Hn. split; [lia|]. exists (claimed :: handled). split.
      * rewrite <- Hp, <- !app_assoc. cbn. by rewrite <- !Permutation_middle.
      * rewrite len_cons. destruct deleted; lia.
Qed.

(** ** A witness *)

#[local] Existing Instance bundle_json.
#[local] Existing Instance bundle_zip.
#[local] Existing Instance bundle_manifest.
#[local] Instance service_digest : Blake3 := λ input, take 32 (reverse input ++ replicate 32 0).
#[local] Instance service_sha1 : Sha1Api := λ input, take 20 (input ++ replicate 20 0).
Definition sample_upload : ArtifactUploadRecord :=
  {| ar_upload := {| au_id := replicate 16 1; au_organization_id := 1; au_sha1 := replicate 20 2; au_chunks := [replicate 20 3];
                     au_bindings := []; au_created_at := 1000; au_updated_at := 1000 |};
     ar_state := AuPending; ar_attempts := 0; ar_final_id := None; ar_error_code := None |}.
Lemma assembly_publishes_content_witness :
  artifact_config_valid artifact_default = true
  ∧ sat (assembly_allowed (N := Z) artifact_default (ar_upload sample_upload))
      (record_told artifact_default (ar_upload sample_upload) 3) [] (assemble_record (N := Z) artifact_default 3 sample_upload).
Proof.
  assert (artifact_config_valid artifact_default = true) as Hc by (vm_compute; reflexivity).
  split; [done|]. by apply (assembly_publishes_content artifact_default 3 sample_upload).
Defined.
Definition sample_claim : ArtifactGcClaim :=
  {| gc_bundle := {| at_id := replicate 16 1; at_organization_id := 1; at_bindings := []; at_bundle_debug_id := DebugUuid [] 0;
                     at_debug_id_tokens := []; at_checksum := []; at_sha1 := []; at_size := 0; at_uploaded_at := 0; at_generation := 0 |};
     gc_claim := replicate 16 9; gc_lease_until := 1000 |}.
Lemma gc_deletes_under_lease_witness :
  let tr := [existT (P := answer ArtifactSig) ArClockNow 1000;
             existT (P := answer ArtifactSig) (ArValidateGcClaim (replicate 16 1) 0 (replicate 16 9) 31000) (Ok false)] in
  exec (gc_claimed artifact_default sample_claim) tr (Ok false) ∧ gc_handled artifact_default sample_claim tr (Ok false).
Proof.
  intros tr. assert (exec (gc_claimed artifact_default sample_claim) tr (Ok false)) as He.
  { exists 1000. eexists. split; [reflexivity|]. exists (Ok false), []. split; [reflexivity|]. done. }
  split; [done|]. by apply (gc_deletes_under_lease artifact_default sample_claim tr (Ok false)).
Defined.
