(* ===== verification/ArtifactRetention.v ===== *)
(** * Retention of artifact bundles

    [application/src/artifact_retention.rs]: a pass over the bundles each project
    binds.  A binding is removed when the bundle is not among the newest of the
    project, was uploaded before the cutoff, and no release that saw an event
    since then is bound.  The pass is a program over the two stores and the
    clock. *)
From stdpp Require Import base list numbers strings sets gmap.
From Stdlib Require Import ZArith Lia.
From S2P Require Import Prelude External Primitives Identity Blobs DebugIds Effects Releases ReleaseService Ingest IngestTheory Artifacts ArtifactService.

Open Scope prog_scope.

Definition PAGE_SIZE : Z := 100.
Definition MAX_KEEP_LATEST : Z := 10000.

Record ArtifactRetentionConfig := {
  rt_mode : ArtifactRetentionMode;
  rt_max_age : duration;
  rt_keep_latest : Z;
  rt_interval : duration;
  rt_orphan_grace : duration;
}.
(** The test [ArtifactRetention::new] makes. *)
Definition artifact_retention_new (c : ArtifactRetentionConfig) : result ArtifactError unit :=
  if (rt_max_age c =? 0) || (MAX_KEEP_LATEST <? rt_keep_latest c) || (rt_interval c =? 0) || (rt_orphan_grace c =? 0)
  then Err AfInvalidRequest else Ok tt.
Record ArtifactRetentionReport := {
  rp_bundles : Z;
  rp_bytes : Z;
  rp_stale_bundles : Z;
  rp_stale_bytes : Z;
  rp_stale_bindings : Z;
  rp_removed_bindings : Z;
}.
Definition empty_retention_report : ArtifactRetentionReport :=
  {| rp_bundles := 0; rp_bytes := 0; rp_stale_bundles := 0; rp_stale_bytes := 0; rp_stale_bindings := 0; rp_removed_bindings := 0 |}.
Definition count_bundle (r : ArtifactRetentionReport) (size : Z) : ArtifactRetentionReport :=
  {| rp_bundles := rp_bundles r + 1; rp_bytes := sat_u64 (rp_bytes r + size); rp_stale_bundles := rp_stale_bundles r;
     rp_stale_bytes := rp_stale_bytes r; rp_stale_bindings := rp_stale_bindings r; rp_removed_bindings := rp_removed_bindings r |}.
Definition count_stale (r : ArtifactRetentionReport) (size bindings : Z) : ArtifactRetentionReport :=
  {| rp_bundles := rp_bundles r; rp_bytes := rp_bytes r; rp_stale_bundles := rp_stale_bundles r + 1;
     rp_stale_bytes := sat_u64 (rp_stale_bytes r + size); rp_stale_bindings := rp_stale_bindings r + bindings;
     rp_removed_bindings := rp_removed_bindings r |}.
Definition count_removed (r : ArtifactRetentionReport) : ArtifactRetentionReport :=
  {| rp_bundles := rp_bundles r; rp_bytes := rp_bytes r; rp_stale_bundles := rp_stale_bundles r;
     rp_stale_bytes := rp_stale_bytes r; rp_stale_bindings := rp_stale_bindings r;
     rp_removed_bindings := rp_removed_bindings r + 1 |}.

Record ReleaseSeen := { rs_last_seen : option Timestamp; rs_version : str }.
(** The releases of one page; [None] marks one that does not exist. *)
Abbreviation PageReleases := (gmap bytes (option ReleaseSeen)).

Inductive RetentionCall :=
| RtClockNow
| RtBoundProjects
| RtProjectBundles (organization_id : Z) (project_id : ProjectId) (before : option (Timestamp * bytes)) (limit : Z)
| RtLoadRelease (organization_id : Z) (release_id : bytes)
| RtRemoveBinding (organization_id : Z) (bundle_id : bytes) (binding : ArtifactBinding) (orphan_at : Timestamp)
    (uploaded_at : option Timestamp).
Definition retention_answer (c : RetentionCall) : Type :=
  match c with
  | RtClockNow => Timestamp
  | RtBoundProjects => result ArtifactStoreError (list (Z * ProjectId))
  | RtProjectBundles _ _ _ _ => result ArtifactStoreError (list ArtifactBundle)
  | RtLoadRelease _ _ => result ReleaseStoreError ReleaseRecord
  | RtRemoveBinding _ _ _ _ _ => result ArtifactStoreError (option Z)
  end.
Definition RetentionSig : signature := Signature RetentionCall retention_answer.
Abbreviation retaining A := (prog RetentionSig (result ArtifactError A)).
Definition rt (c : RetentionCall) : prog RetentionSig (retention_answer c) := perform (E := RetentionSig) c.
Definition rt_store {A} (p : prog RetentionSig (result ArtifactStoreError A)) : retaining A := map_err_p artifact_map_store p.

Section pass.
Context (c : ArtifactRetentionConfig) (cutoff : Timestamp).

(** [release]: each release of a page is loaded once. *)
Definition load_seen (organization_id : Z) (release_id : bytes) (releases : PageReleases)
    : retaining (option ReleaseSeen * PageReleases) :=
  match releases !! release_id with
  | Some seen => Ret (Ok (seen, releases))
  | None =>
      loaded ← rt (RtLoadRelease organization_id release_id);
      match (loaded : result ReleaseStoreError ReleaseRecord) with
      | Ok release =>
          let seen := Some {| rs_last_seen := rel_last_seen release; rs_version := rel_version release |} in
          Ret (Ok (seen, <[release_id := seen]> releases))
      | Err RlNotFound => Ret (Ok (None, <[release_id := None]> releases))
      | Err _ => Ret (Err AfUnavailable)
      end
  end.
Definition recently_seen (seen : option ReleaseSeen) : bool :=
  is_some_and (λ at_, cutoff <=? at_) (seen ≫= rs_last_seen).
(** The bindings of the project that no recent release keeps. *)
Fixpoint stale_bindings (organization_id : Z) (project_id : ProjectId) (bindings : list ArtifactBinding) (releases : PageReleases)
    : retaining (list ArtifactBinding * PageReleases) :=
  match bindings with
  | [] => Ret (Ok ([], releases))
  | binding :: bindings =>
      if negb (ab_project_id binding =? project_id) then stale_bindings organization_id project_id bindings releases
      else
        loaded ←? match ab_release_id binding with
                  | Some release_id => load_seen organization_id release_id releases
                  | None => Ret (Ok (None, releases))
                  end;
        rest ←? stale_bindings organization_id project_id bindings loaded.2;
        Ret (Ok (if recently_seen loaded.1 then rest else (binding :: rest.1, rest.2)))
  end.

(** The report of the pass is shared: what was counted stays counted when a
    method fails. *)
Abbreviation passing A := (prog RetentionSig (ArtifactRetentionReport * result ArtifactError A)).
Definition pass_then {A B} (p : passing A) (k : ArtifactRetentionReport → A → passing B) : passing B :=
  p ≫= λ r, match r.2 with Ok a => k r.1 a | Err e => Ret (r.1, Err e) end.
Definition counted {A} (report : ArtifactRetentionReport) (p : retaining A) : passing A := p ≫= λ r, Ret (report, r).

Fixpoint remove_stale (organization_id : Z) (bundle : ArtifactBundle) (stale : list ArtifactBinding)
    (report : ArtifactRetentionReport) : passing unit :=
  match stale with
  | [] => Ret (report, Ok tt)
  | binding :: stale =>
      now ← rt RtClockNow;
      match artifact_add_duration now (rt_orphan_grace c) with
      | Err e => Ret (report, Err e)
      | Ok orphan_at =>
          revision ← rt_store (rt (RtRemoveBinding organization_id (at_id bundle) binding orphan_at (Some (at_uploaded_at bundle))));
          match (revision : result ArtifactError (option Z)) with
          | Err e => Ret (report, Err e)
          | Ok revision => remove_stale organization_id bundle stale (if is_some revision then count_removed report else report)
          end
      end
  end.
(** [retain_bundle]: the bindings are examined before any is removed. *)
Definition retain_bundle (organization_id : Z) (project_id : ProjectId) (bundle : ArtifactBundle)
    (report : ArtifactRetentionReport) (releases : PageReleases) : passing PageReleases :=
  pass_then (counted report (stale_bindings organization_id project_id (at_bindings bundle) releases)) (λ report found,
    if is_empty found.1 then Ret (report, Ok found.2)
    else
      let report := count_stale report (at_size bundle) (len found.1) in
      if negb (bool_decide (rt_mode c = RetentionEnforce)) then Ret (report, Ok found.2)
      else pass_then (remove_stale organization_id bundle found.1 report) (λ report _, Ret (report, Ok found.2))).
Fixpoint retain_page (organization_id : Z) (project_id : ProjectId) (page : list ArtifactBundle) (rank : Z)
    (report : ArtifactRetentionReport) (releases : PageReleases) : passing unit :=
  match page with
  | [] => Ret (report, Ok tt)
  | bundle :: page =>
      let rank := rank + 1 in
      let report := count_bundle report (at_size bundle) in
      if (rt_keep_latest c <? rank) && (at_uploaded_at bundle <? cutoff) then
        pass_then (retain_bundle organization_id project_id bundle report releases)
          (λ report releases, retain_page organization_id project_id page rank report releases)
      else retain_page organization_id project_id page rank report releases
  end.
(** The loop over the pages of a project; [None]: the fuel ran out. *)
Fixpoint retain_project (fuel : nat) (organization_id : Z) (project_id : ProjectId) (rank : Z)
    (before : option (Timestamp * bytes)) (report : ArtifactRetentionReport)
    : prog RetentionSig (option (ArtifactRetentionReport * result ArtifactError unit)) :=
  match fuel with
  | O => Ret None
  | S fuel =>
      answered ← rt_store (rt (RtProjectBundles organization_id project_id before PAGE_SIZE));
      match answered with
      | Err e => Ret (Some (report, Err e))
      | Ok page =>
          retained ← retain_page organization_id project_id page rank report ∅;
          match retained with
          | (report, Err e) => Ret (Some (report, Err e))
          | (report, Ok _) =>
              match last page with
              | Some last_ =>
                  if len page =? PAGE_SIZE
                  then retain_project fuel organization_id project_id (rank + len page)
                         (Some (at_uploaded_at last_, at_id last_)) report
                  else Ret (Some (report, Ok tt))
              | None => Ret (Some (report, Ok tt))
              end
          end
      end
  end.
(** A project that entered deletion during the pass is left to the deletion. *)
Fixpoint retain_projects (fuel : nat) (projects : list (Z * ProjectId)) (report : ArtifactRetentionReport)
    : prog RetentionSig (option (result ArtifactError ArtifactRetentionReport)) :=
  match projects with
  | [] => Ret (Some (Ok report))
  | (organization_id, project_id) :: projects =>
      retained ← retain_project fuel organization_id project_id 0 None report;
      match retained with
      | None => Ret None
      | Some (report, Ok _) | Some (report, Err AfNotFound) => retain_projects fuel projects report
      | Some (_, Err e) => Ret (Some (Err e))
      end
  end.
End pass.
Definition retention_cutoff (c : ArtifactRetentionConfig) (now : Timestamp) : result ArtifactError Timestamp :=
  max_age ← ok_or AfInvalidRequest (checked_i64 (as_millis (rt_max_age c)));
  map_err (λ _, AfInvalidRequest) (from_unix_millis (sat_i64 (now - max_age))).
Definition retention_run_once (c : ArtifactRetentionConfig) (fuel : nat)
    : prog RetentionSig (option (result ArtifactError ArtifactRetentionReport)) :=
  if bool_decide (rt_mode c = RetentionOff) then Ret (Some (Ok empty_retention_report))
  else
    now ← rt RtClockNow;
    match retention_cutoff c now with
    | Err e => Ret (Some (Err e))
    | Ok cutoff =>
        projects ← rt_store (rt RtBoundProjects);
        match projects with
        | Err e => Ret (Some (Err e))
        | Ok projects => retain_projects c cutoff fuel projects empty_retention_report
        end
    end.

(** ** What a pass may remove *)

Section kept.
Context (c : ArtifactRetentionConfig).
Abbreviation history := (list (event RetentionSig)).
Abbreviation asked := (answered (E := RetentionSig)).

Definition page_of (organization_id : Z) (project_id : ProjectId) (e : event RetentionSig) : option (list ArtifactBundle) :=
  let '(existT call x) := e in
  match call return retention_answer call → option (list ArtifactBundle) with
  | RtProjectBundles o p _ _ => λ x, if bool_decide (o = organization_id ∧ p = project_id) then ok x else None
  | _ => λ _, None
  end x.
(** The bundles the store listed for a project, newest first. *)
Definition listing (organization_id : Z) (project_id : ProjectId) (h : history) : list ArtifactBundle :=
  concat (omap (page_of organization_id project_id) h).
(** No event was seen on the release of the binding since the cutoff. *)
Definition release_idle (cutoff : Timestamp) (organization_id : Z) (h : history) (binding : ArtifactBinding) : Prop :=
  ∀ release_id, ab_release_id binding = Some release_id →
    asked (RtLoadRelease organization_id release_id) (Err RlNotFound) h
    ∨ ∃ release, asked (RtLoadRelease organization_id release_id) (Ok release) h
        ∧ is_some_and (λ at_, cutoff <=? at_) (rel_last_seen release) = false.
Definition past_retention (cutoff : Timestamp) (organization_id : Z) (project_id : ProjectId) (h : history) (bundle : ArtifactBundle) : Prop :=
  at_uploaded_at bundle < cutoff
  ∧ ∃ i, listing organization_id project_id h !! i = Some bundle ∧ rt_keep_latest c ≤ Z.of_nat i.
Definition retention_allowed (h : history) (call : RetentionCall) : Prop :=
  match call with
  | RtRemoveBinding organization_id bundle_id binding orphan_at uploaded_at =>
      rt_mode c = RetentionEnforce
      ∧ ∃ now cutoff bundle removed_at,
          head h = Some (existT (P := answer RetentionSig) RtClockNow now) ∧ retention_cutoff c now = Ok cutoff
          ∧ at_id bundle = bundle_id ∧ uploaded_at = Some (at_uploaded_at bundle)
          ∧ past_retention cutoff organization_id (ab_project_id binding) h bundle
          ∧ binding ∈ at_bindings bundle ∧ release_idle cutoff organization_id h binding
          ∧ asked RtClockNow removed_at h ∧ artifact_add_duration removed_at (rt_orphan_grace c) = Ok orphan_at
  | _ => rt_mode c ≠ RetentionOff
  end.

Lemma listing_prefix o p h h' : h `prefix_of` h' → listing o p h `prefix_of` listing o p h'.
Proof. intros [k ->]. unfold listing. rewrite omap_app, concat_app. by eexists. Qed.
Lemma listing_snoc o p h e : listing o p (h ++ [e]) = listing o p h ++ match page_of o p e with Some page => page | None => [] end.
Proof. unfold listing. rewrite omap_app, concat_app. cbn. destruct (page_of o p e); cbn; by rewrite ?app_nil_r. Qed.
Lemma release_idle_prefix cutoff o h h' binding : h `prefix_of` h' → release_idle cutoff o h binding → release_idle cutoff o h' binding.
Proof.
  intros Hp Hi r Hr. destruct (Hi r Hr) as [Ha|(release & Ha & Hs)]; [left|right; exists release; split; [|done]];
    by eapply answered_prefix.
Qed.
Lemma past_retention_prefix cutoff o p h h' bundle : h `prefix_of` h' → past_retention cutoff o p h bundle → past_retention cutoff o p h' bundle.
Proof.
  intros Hp [Hu (i & Hi & Hk)]. split; [done|]. exists i. split; [|done]. eapply prefix_lookup_Some; [exact Hi|by apply listing_prefix].
Qed.
Lemma head_prefix {A} (h h' : list A) x : h `prefix_of` h' → head h = Some x → head h' = Some x.
Proof. intros [k ->]. by destruct h. Qed.

Section cutoff.
Context (now cutoff : Timestamp) (Hcutoff : retention_cutoff c now = Ok cutoff) (Hon : rt_mode c ≠ RetentionOff).
Definition started (h : history) : Prop := head h = Some (existT (P := answer RetentionSig) RtClockNow now).
Definition cached (o : Z) (h : history) (releases : PageReleases) : Prop :=
  ∀ r seen, releases !! r = Some seen →
    (seen = None ∧ asked (RtLoadRelease o r) (Err RlNotFound) h)
    ∨ ∃ release, asked (RtLoadRelease o r) (Ok release) h ∧ seen ≫= rs_last_seen = rel_last_seen release.
Lemma cached_prefix o h h' releases : h `prefix_of` h' → cached o h releases → cached o h' releases.
Proof.
  intros Hp Hc r seen Hr. destruct (Hc r seen Hr) as [[? Ha]|(release & Ha & ?)]; [left|right; exists release];
    (split; [try done|]); try done; by eapply answered_prefix.
Qed.
(** What is answered of a binding's release, and the releases that are known then. *)
Definition seen_ok (o : Z) (binding : ArtifactBinding) (h : history) (loaded : option ReleaseSeen * PageReleases) : Prop :=
  cached o h loaded.2 ∧ (recently_seen cutoff loaded.1 = false → release_idle cutoff o h binding).
Lemma load_seen_sat o r releases binding h : ab_release_id binding = Some r → cached o h releases →
  sat retention_allowed (okay (seen_ok o binding)) h (load_seen o r releases).
Proof.
  intros Hb Hc. unfold load_seen. destruct (releases !! r) as [seen|] eqn:Hr.
  - split; [done|]. cbn. intros Hs r' Hr'. rewrite Hb in Hr'. injection Hr' as <-.
    destruct (Hc r seen Hr) as [[_ Ha]|(release & Ha & He)]; [by left|right; exists release]. split; [done|].
    unfold recently_seen in Hs. by rewrite He in Hs.
  - split; [done|]. intros x. cbn.
    assert (∀ seen : option ReleaseSeen, (seen = None ∧ x = Err RlNotFound) ∨ (∃ release, x = Ok release ∧ seen ≫= rs_last_seen = rel_last_seen release) →
      seen_ok o binding (h ++ [existT (P := answer RetentionSig) (RtLoadRelease o r) x]) (seen, <[r := seen]> releases)) as Hok.
    { intros seen Hx. split; cbn [fst snd].
      - intros r' seen' Hr'. destruct (decide (r' = r)) as [->|Hne].
        + rewrite lookup_insert_eq in Hr'. injection Hr' as <-.
          destruct Hx as [[-> ->]|(release & -> & He)]; [left; split; [done|apply answered_last]|right; exists release; split; [apply answered_last|done]].
        + rewrite lookup_insert_ne in Hr' by done. by apply (cached_prefix o h _ releases (prefix_snoc _ _) Hc r').
      - intros Hs r' Hr'. rewrite Hb in Hr'. injection Hr' as <-.
        destruct Hx as [[-> ->]|(release & -> & He)]; [left; apply answered_last|right; exists release; split; [apply answered_last|]].
        unfold recently_seen in Hs. by rewrite He in Hs. }
    destruct x as [release|[]]; cbn; try done.
    + apply Hok. right. by exists release.
    + apply Hok. by left.
Qed.
Definition stale_ok (o : Z) (p : ProjectId) (bindings : list ArtifactBinding) (h : history) (found : list ArtifactBinding * PageReleases) : Prop :=
  cached o h found.2
  ∧ Forall (λ b, b ∈ bindings ∧ ab_project_id b = p ∧ release_idle cutoff o h b) found.1.
Lemma stale_bindings_sat o p bindings : ∀ releases h, cached o h releases →
  sat retention_allowed (okay (stale_ok o p bindings)) h (stale_bindings cutoff o p bindings releases).
Proof.
  induction bindings as [|binding bindings IH]; intros releases h Hc; [by split|]. cbn [stale_bindings].
  assert (∀ h' found, stale_ok o p bindings h' found → stale_ok o p (binding :: bindings) h' found) as Hmore.
  { intros h' found [Hf Hs]. split; [done|]. eapply Forall_impl; [exact Hs|]. intros b (Hb & ?). split; [by apply list_elem_of_further|done]. }
  destruct (Z.eqb_spec (ab_project_id binding) p) as [Hp|Hp]; cbn [negb].
  2:{ eapply sat_mono; [done| |by apply IH]. intros h' [found|e]; [apply Hmore|done]. }
  eapply okay_then.
  - destruct (ab_release_id binding) as [r|] eqn:Hb; [by apply (load_seen_sat o r releases binding)|]. split; [exact Hc|].
    intros _ r Hr. by rewrite Hb in Hr.
  - intros h1 loaded Hp1 [Hc1 Hs1]. eapply okay_then; [by apply IH|]. intros h2 found Hp2 Hf. cbn.
    destruct (recently_seen cutoff loaded.1) eqn:Er; [by apply Hmore|]. destruct (Hmore _ _ Hf) as [Hc2 Hs2]. split; [done|].
    cbn. constructor; [|done]. split; [apply list_elem_of_here|]. split; [done|]. eapply release_idle_prefix; [exact Hp2|]. by apply Hs1.
Qed.
Lemma remove_stale_sat o p bundle stale : rt_mode c = RetentionEnforce → ∀ report h, started h → past_retention cutoff o p h bundle →
  Forall (λ b, b ∈ at_bindings bundle ∧ ab_project_id b = p ∧ release_idle cutoff o h b) stale →
  sat retention_allowed (λ _ _, True) h (remove_stale c o bundle stale report).
Proof.
  intros Hm. induction stale as [|binding stale IH]; intros report h Hs Hp Hall; [done|]. cbn [remove_stale].
  apply Forall_cons in Hall as [(Hb & Hbp & Hi) Hall]. split; [done|]. intros removed_at. cbn.
  destruct (artifact_add_duration removed_at (rt_orphan_grace c)) as [orphan_at|] eqn:Ea; [|done].
  set (h1 := h ++ _). assert (h `prefix_of` h1) as Hh by apply prefix_snoc.
  split.
  - split; [done|]. exists now, cutoff, bundle, removed_at. split_and!; try done.
    + by eapply head_prefix.
    + rewrite Hbp. by eapply past_retention_prefix.
    + by eapply release_idle_prefix.
    + exact (answered_last (E := RetentionSig) RtClockNow removed_at h).
  - intros [revision|e]; cbn; [|done]. assert (h `prefix_of` h1 ++ [existT (P := answer RetentionSig)
      (RtRemoveBinding o (at_id bundle) binding orphan_at (Some (at_uploaded_at bundle))) (Ok revision)]) as Hh2
      by (etrans; [exact Hh|apply prefix_snoc]).
    apply IH; [by eapply head_prefix|by eapply past_retention_prefix|]. eapply Forall_impl; [exact Hall|].
    intros b (? & ? & ?). split_and!; [done..|]. by eapply release_idle_prefix.
Qed.

(** A page whose bundles are those of the listing from [rank] on, at least. *)
Definition page_listed (o : Z) (p : ProjectId) (rank : Z) (h : history) (page : list ArtifactBundle) : Prop :=
  ∃ i, rank ≤ Z.of_nat i ∧ ∀ k bundle, page !! k = Some bundle → listing o p h !! (i + k)%nat = Some bundle.
Lemma page_listed_prefix o p rank h h' page : h `prefix_of` h' → page_listed o p rank h page → page_listed o p rank h' page.
Proof.
  intros Hp (i & Hi & Hk). exists i. split; [done|]. intros k bundle Hb. eapply prefix_lookup_Some; [by apply Hk|by apply listing_prefix].
Qed.
Lemma page_listed_cons o p rank h bundle page : page_listed o p rank h (bundle :: page) →
  (∃ i, rank ≤ Z.of_nat i ∧ listing o p h !! i = Some bundle) ∧ page_listed o p (rank + 1) h page.
Proof.
  intros (i & Hi & Hk). split.
  - exists i. split; [done|]. rewrite <- (Nat.add_0_r i) at 1. by apply Hk.
  - exists (S i). split; [lia|]. intros k b Hb. replace (S i + k)%nat with (i + S k)%nat by lia. by apply Hk.
Qed.
Lemma passed_sat {A B} (P : history → A → Prop) (Q : history → ArtifactRetentionReport * result ArtifactError B → Prop)
    (p : prog RetentionSig (ArtifactRetentionReport * result ArtifactError A))
    (k : ArtifactRetentionReport → A → prog RetentionSig (ArtifactRetentionReport * result ArtifactError B)) h :
  sat retention_allowed (λ h' r, okay P h' r.2) h p → (∀ h' report e, Q h' (report, Err e)) →
  (∀ h' report a, h `prefix_of` h' → P h' a → sat retention_allowed Q h' (k report a)) →
  sat retention_allowed Q h (pass_then p k).
Proof.
  intros Hp He Hk. unfold pass_then. eapply sat_then; [exact Hp|]. intros h' [report [a|e]] Hh Ha; [by apply Hk|apply He].
Qed.
Lemma retain_bundle_sat o p bundle releases report h : started h → past_retention cutoff o p h bundle → cached o h releases →
  sat retention_allowed (λ h' r, okay (cached o) h' r.2) h (retain_bundle c cutoff o p bundle report releases).
Proof.
  intros Hs Hp Hc. unfold retain_bundle. apply (passed_sat (stale_ok o p (at_bindings bundle))); [|done|].
  - unfold counted. rewrite sat_bind. eapply sat_mono; [done| |by apply stale_bindings_sat]. by intros h' [found|e].
  - intros h1 report1 found Hh1 [Hc1 Hall]. destruct (is_empty found.1); [done|]. cbv zeta.
    destruct (bool_decide (rt_mode c = RetentionEnforce)) eqn:Em; cbn [negb]; [|done]. apply bool_decide_eq_true in Em.
    apply (passed_sat (λ h' _, h1 `prefix_of` h')); [|done|].
    + pose proof (remove_stale_sat o p bundle found.1 Em (count_stale report1 (at_size bundle) (len found.1)) h1
        ltac:(by eapply head_prefix) ltac:(by eapply past_retention_prefix) Hall) as Hremove.
      eapply sat_mono; [| |exact (sat_from _ _ _ _ Hremove)]; cbn beta; [by intros h' call [_ Hg]|].
      intros h' [report' [u|e]] [Hpre _]; [exact Hpre|done].
    + intros h2 report2 _ _ Hh2. cbn. by eapply cached_prefix.
Qed.
Lemma retain_page_sat o p page : ∀ rank report releases h, started h → page_listed o p rank h page → cached o h releases →
  sat retention_allowed (λ _ _, True) h (retain_page c cutoff o p page rank report releases).
Proof.
  induction page as [|bundle page IH]; intros rank report releases h Hs Hl Hc; [done|]. cbn [retain_page]. cbv zeta.
  apply page_listed_cons in Hl as [(i & Hi & Hb) Hl]. destruct (_ && _) eqn:E; [|by apply IH].
  apply andb_true_iff in E as [Hr%Z.ltb_lt Hu%Z.ltb_lt].
  assert (past_retention cutoff o p h bundle) as Hpast by (split; [done|]; exists i; split; [done|lia]).
  apply (passed_sat (cached o)); [by apply retain_bundle_sat|done|]. intros h' report' releases' Hh Hc'.
  apply IH; [by eapply head_prefix|by eapply page_listed_prefix|done].
Qed.
(** A project whose pages never end: as many full pages as there was fuel. *)
Definition endless (fuel : nat) (o : Z) (p : ProjectId) (h : history) (r : option (ArtifactRetentionReport * result ArtifactError unit)) : Prop :=
  r = None → Z.of_nat fuel * PAGE_SIZE ≤ len (listing o p h).
Lemma retain_project_sat fuel o p : ∀ rank before report h, started h → rank ≤ len (listing o p h) →
  ∀ spent, Z.of_nat spent * PAGE_SIZE ≤ len (listing o p h) →
  sat retention_allowed (endless (spent + fuel) o p) h (retain_project c cutoff fuel o p rank before report).
Proof.
  induction fuel as [|fuel IH]; intros rank before report h Hs Hr spent Hsp; [intros _; by rewrite Nat.add_0_r|].
  cbn [retain_project]. split; [done|].
  intros [page|e]; [|done]. cbn. set (h1 := h ++ _). assert (listing o p h1 = listing o p h ++ page) as Hl.
  { subst h1. rewrite listing_snoc. cbn. by rewrite bool_decide_eq_true_2. }
  assert (started h1) as Hs1 by (eapply head_prefix; [apply prefix_snoc|done]). clearbody h1.
  eapply sat_then.
  - apply (retain_page_sat o p page rank report ∅); [done| |by intros r seen Hx].
    exists (length (listing o p h)). split; [done|]. intros k bundle Hk. by rewrite Hl, lookup_app_r, Nat.add_comm, Nat.add_sub by lia.
  - intros h2 [report2 [u|e]] Hh2 _; [|done]. destruct (last page); [|done]. destruct (Z.eqb_spec (len page) PAGE_SIZE) as [Hfull|]; [|done].
    destruct (listing_prefix o p h1 h2 Hh2) as [more Hmore]. pose proof (len_nonneg more).
    replace (spent + S fuel)%nat with (S spent + fuel)%nat by lia.
    apply IH; [by eapply head_prefix|rewrite Hmore, Hl, !len_app; lia|]. rewrite Hmore, Hl, !len_app. unfold PAGE_SIZE in *. lia.
Qed.
Definition pass_told (fuel : nat) (h : history) (r : option (result ArtifactError ArtifactRetentionReport)) : Prop :=
  r = None → ∃ o p, Z.of_nat fuel * PAGE_SIZE ≤ len (listing o p h).
Lemma retain_projects_sat fuel projects : ∀ report h, started h →
  sat retention_allowed (pass_told fuel) h (retain_projects c cutoff fuel projects report).
Proof.
  induction projects as [|[o p] projects IH]; intros report h Hs; [done|]. cbn [retain_projects]. eapply sat_then.
  - apply (retain_project_sat fuel o p 0 None report h Hs (len_nonneg _) 0). apply len_nonneg.
  - intros h' [[report' [u|e]]|] Hh He; [|destruct e; try done|intros _; exists o, p; by apply He]; apply IH; by eapply head_prefix.
Qed.
End cutoff.
End kept.

(** C14. A retention pass removes a binding only in enforce mode, of a bundle
    older than the cutoff and not among the newest the store listed for the
    project, whose release has no event since the cutoff, at the upload time
    listed and with the grace counted from the removal; the pass ends when
    listings end. *)
Theorem retention_keeps c fuel :
  sat (retention_allowed c) (pass_told fuel) [] (retention_run_once c fuel).
Proof.
  unfold retention_run_once. case_bool_decide as Hoff; [done|]. split; [done|]. intros now. cbn.
  destruct (retention_cutoff c now) as [cutoff|] eqn:Hc; [|done]. split; [done|]. intros [projects|e]; cbn; [|done].
  by apply (retain_projects_sat c now cutoff).
Qed.
