(* ===== verification/DebugFiles.v ===== *)
(** * The debug file service

    [application/src/debug_files.rs]: chunks, the assembly of native debug files
    from them, lookups, deletion and the cleanup of expired chunks and orphans, as
    programs over the metadata store, the object store and the clock; the locks
    that keep a deletion apart from a publication of the same file. *)
From stdpp Require Import base list numbers strings sets gmap relations.
From Stdlib Require Import ZArith Lia.
From S2P Require Import Prelude External Primitives Identity Blobs DebugIds Effects Auth Ingest IngestTheory Projects ReplayWriter ArtifactService.

Open Scope prog_scope.

Definition SENTRY_CLI_CHUNK_BYTES : Z := 8 * 1024 * 1024.
Definition SENTRY_CLI_MAX_REQUEST_BYTES : Z := 32 * 1024 * 1024.
Definition SENTRY_CLI_MAX_FILE_BYTES : Z := 2 * 1024 * 1024 * 1024.
Definition SENTRY_CLI_CHUNKS_PER_REQUEST : Z := 64.

Record AssembleDebugFile := {
  ad_sha1 : bytes;
  ad_name : str;
  ad_debug_id : option DebugId;
  ad_code_id : option CodeId;
  ad_chunks : list bytes;
}.
Inductive DebugAssembleState := DasMissing (chunks : list bytes) | DasOk (file : DebugFile) (revision : Z) | DasError (code : string).
Record DebugFileConfig := {
  dc_max_file_bytes : Z;
  dc_stream_chunk_bytes : Z;
  dc_max_concurrent_assemblies : Z;
  dc_chunk_expiry : duration;
  dc_orphan_grace : duration;
  dc_cleanup_batch_size : Z;
}.
Definition debug_file_default : DebugFileConfig :=
  {| dc_max_file_bytes := SENTRY_CLI_MAX_FILE_BYTES; dc_stream_chunk_bytes := 64 * 1024; dc_max_concurrent_assemblies := 2;
     dc_chunk_expiry := 86400000 * NANOS_PER_MILLI; dc_orphan_grace := 86400000 * NANOS_PER_MILLI; dc_cleanup_batch_size := 256 |}.
Inductive DebugFileError := DfInvalidRequest | DfForbidden | DfNotFound | DfQuota | DfConflict | DfUnavailable.
(** The test [DebugFileService::new] makes. *)
Definition debug_file_service_new (c : DebugFileConfig) : result DebugFileError unit :=
  if (dc_max_file_bytes c =? 0) || negb (in_range (4 * 1024) (1024 * 1024) (dc_stream_chunk_bytes c))
     || (dc_max_concurrent_assemblies c =? 0) || (64 <? dc_max_concurrent_assemblies c) || (dc_chunk_expiry c =? 0)
     || (dc_orphan_grace c =? 0) || negb (in_range 1 10000 (dc_cleanup_batch_size c))
  then Err DfInvalidRequest else Ok tt.
Inductive DebugFileStoreError := DsNotFound | DsConflict | DsQuota | DsInvalidData | DsUnavailable.
Definition debug_map_store (e : DebugFileStoreError) : DebugFileError :=
  match e with
  | DsNotFound => DfNotFound | DsConflict => DfConflict | DsQuota => DfQuota
  | DsInvalidData | DsUnavailable => DfUnavailable
  end.
Definition debug_map_blob (e : BlobStoreError) : DebugFileError :=
  match e with
  | BeTooLarge | BeInvalid => DfInvalidRequest
  | BeCapacity => DfQuota
  | BeNotFound => DfNotFound
  | BeCorrupt | BeUnavailable => DfUnavailable
  end.
Definition debug_error_code (e : DebugFileError) : string :=
  match e with
  | DfInvalidRequest => "invalid_debug_file" | DfForbidden => "forbidden" | DfNotFound => "missing_chunk"
  | DfQuota => "quota_exceeded" | DfConflict => "conflict" | DfUnavailable => "storage_unavailable"
  end.
Definition debug_subtract (now : Timestamp) (d : duration) : result DebugFileError Timestamp :=
  millis ← ok_or DfInvalidRequest (checked_i64 (as_millis d));
  cutoff ← ok_or DfInvalidRequest (checked_i64 (now - millis));
  map_err (λ _, DfInvalidRequest) (from_unix_millis cutoff).
Definition debug_require (context : AuthContext) (p : Permission) : result DebugFileError unit :=
  if permission_set_contains (cx_permissions context) p then Ok tt else Err DfForbidden.
Definition debug_upload_id_input (project_id : ProjectId) (sha1 : bytes) : bytes :=
  lit "metric/debug-upload-id/v1" ++ be_bytes 4 project_id ++ sha1.
Definition debug_upload_id `{!Blake3} (project_id : ProjectId) (sha1 : bytes) : bytes :=
  take 16 (blake3 (debug_upload_id_input project_id sha1)).
#[global] Instance DebugFileType_eq_dec : EqDecision DebugFileType.
Proof. solve_decision. Defined.
Definition detect_file_type (name : str) (header : bytes) : result DebugFileError DebugFileType :=
  file_type ← (if starts_with (lit "SYSB") header then Ok SourceBundle
               else map_err (λ _, DfInvalidRequest) (debug_file_type_from_name name));
  if bool_decide (file_type = Breakpad) && negb (starts_with (lit "MODULE ") header) then Err DfInvalidRequest
  else if bool_decide (file_type = SourceBundle)
          && negb ((8 <=? len header) && starts_with (lit "SYSB") header && in_range 1 2 (le_u32 (take 4 (drop 4 header))))
  then Err DfInvalidRequest
  else Ok file_type.

Record DebugUploadRecord := {
  ud_upload : DebugUpload;
  ud_state : UploadState;
  ud_attempts : Z;
  ud_error_code : option str;
}.
#[global] Instance UploadState_eq_dec : EqDecision UploadState.
Proof. solve_decision. Defined.

Inductive DebugCall :=
| DbClockNow
| DbAcquire
| DbLock (id : bytes) | DbUnlock (id : bytes)
| DbProjectOrganization (project_id : ProjectId)
| DbResolveProjectSlugs (organization_slug project_slug : str)
| DbLoadBySha1 (project_id : ProjectId) (sha1 : bytes)
| DbUpsertUpload (upload : DebugUpload)
| DbSetUploadState (upload_id : bytes) (state : UploadState) (now : Timestamp) (error_code : option string)
| DbPublish (upload_id : bytes) (file : DebugFile)
| DbFind (project_id : ProjectId) (debug_id : option DebugId) (code_id : option CodeId) (limit : Z)
| DbLoad (project_id : ProjectId) (file_id : bytes)
| DbDelete (project_id : ProjectId) (file_id : bytes)
| DbRecoverableUploads (limit : Z)
| DbBegin (kind : BlobKind) (created_at : Timestamp)
| DbWriteChunk (chunk : bytes) | DbCommit (key : BlobKey) | DbAbort
| DbOpen (key : BlobKey) | DbReadChunk (key : BlobKey) (maximum : Z)
| DbDeleteObject (key : BlobKey)
| DbScan (request : BlobScanRequest).
Definition debug_answer (c : DebugCall) : Type :=
  match c with
  | DbClockNow => Timestamp
  | DbAcquire => bool
  | DbLock _ | DbUnlock _ => unit
  | DbProjectOrganization _ => result DebugFileStoreError Z
  | DbResolveProjectSlugs _ _ => result DebugFileStoreError (Z * ProjectView)
  | DbLoadBySha1 _ _ => result DebugFileStoreError (option DebugFile)
  | DbUpsertUpload _ => result DebugFileStoreError DebugUploadRecord
  | DbSetUploadState _ _ _ _ => result DebugFileStoreError unit
  | DbPublish _ _ => result DebugFileStoreError Z
  | DbFind _ _ _ _ => result DebugFileStoreError (list DebugFile)
  | DbLoad _ _ => result DebugFileStoreError DebugFile
  | DbDelete _ _ => result DebugFileStoreError (option (DebugFile * Z))
  | DbRecoverableUploads _ => result DebugFileStoreError (list DebugUploadRecord)
  | DbBegin _ _ | DbWriteChunk _ | DbAbort | DbOpen _ | DbDeleteObject _ => result BlobStoreError unit
  | DbCommit _ => result BlobStoreError BlobObject
  | DbReadChunk _ _ => result BlobStoreError (option bytes)
  | DbScan _ => result BlobStoreError BlobScanPage
  end.
Definition DebugSig : signature := Signature DebugCall debug_answer.
Abbreviation serving A := (prog DebugSig (result DebugFileError A)).
Definition db (c : DebugCall) : prog DebugSig (debug_answer c) := perform (E := DebugSig) c.
Definition db_store {A} (p : prog DebugSig (result DebugFileStoreError A)) : serving A := map_err_p debug_map_store p.
Definition db_blob {A} (p : prog DebugSig (result BlobStoreError A)) : serving A := map_err_p debug_map_blob p.

(** [let _guard = lock.lock().await]: the lock is free again when the method ends. *)
Definition with_lock {A} (id : bytes) (p : prog DebugSig A) : prog DebugSig A :=
  _ ← db (DbLock id); a ← p; _ ← db (DbUnlock id); Ret a.

Section service.
Context `{!Sha1Api, !Blake3, !Base64Api} (c : DebugFileConfig).

Definition resolve_project (context : AuthContext) (organization_slug project_slug : str) (p : Permission)
    : serving (Z * ProjectView) :=
  _ ←! debug_require context p;
  resolved ←? db_store (db (DbResolveProjectSlugs organization_slug project_slug));
  if negb (bool_decide (resolved.1 = cx_organization_id context)) then Ret (Err DfNotFound) else Ret (Ok resolved).
Definition upload_chunk (context : AuthContext) (organization_id : Z) (sha1 bs : bytes) : serving BlobObject :=
  _ ←! (if permission_set_contains (cx_permissions context) DebugFileWrite then Ok tt else debug_require context ArtifactWrite);
  if negb (bool_decide (cx_organization_id context = organization_id)) || (SENTRY_CLI_CHUNK_BYTES <? len bs)
  then Ret (Err DfInvalidRequest)
  else if negb (bool_decide (sha1_digest bs = sha1)) then Ret (Err DfInvalidRequest)
  else
    now ← db DbClockNow;
    _ ←? db_blob (db (DbBegin BkDebugChunk now));
    _ ←? db_blob (db (DbWriteChunk bs));
    db_blob (db (DbCommit (debug_chunk organization_id sha1))).

(** ** Assembly *)

Record DebugScan := { dg_size : Z; dg_header : bytes; dg_content : bytes }.
Fixpoint copy_object (fuel : nat) (key : BlobKey) (s : DebugScan) : prog DebugSig (option (result DebugFileError DebugScan)) :=
  match fuel with
  | O => Ret None
  | S fuel =>
      part ← db (DbReadChunk key (dc_stream_chunk_bytes c));
      match (part : result BlobStoreError (option bytes)) with
      | Err e => Ret (Some (Err (debug_map_blob e)))
      | Ok None => Ret (Some (Ok s))
      | Ok (Some part) =>
          match checked_u64 (dg_size s + len part) with
          | None => Ret (Some (Err DfInvalidRequest))
          | Some size =>
              if dc_max_file_bytes c <? size then Ret (Some (Err DfInvalidRequest))
              else
                written ← db_blob (db (DbWriteChunk part));
                match (written : result DebugFileError unit) with
                | Err e => Ret (Some (Err e))
                | Ok _ =>
                    copy_object fuel key
                      {| dg_size := size; dg_header := dg_header s ++ take (Z.to_nat (4096 - len (dg_header s))) part;
                         dg_content := dg_content s ++ part |}
                end
          end
      end
  end.
Fixpoint copy_chunks (fuel : nat) (organization_id : Z) (chunks : list bytes) (s : DebugScan)
    : prog DebugSig (option (result DebugFileError DebugScan)) :=
  match chunks with
  | [] => Ret (Some (Ok s))
  | chunk :: chunks =>
      let key := debug_chunk organization_id chunk in
      opened ← db_blob (db (DbOpen key));
      match (opened : result DebugFileError unit) with
      | Err e => Ret (Some (Err e))
      | Ok _ =>
          copied ← copy_object fuel key s;
          match copied with
          | Some (Ok s) => copy_chunks fuel organization_id chunks s
          | r => Ret r
          end
      end
  end.
Fixpoint delete_chunks (organization_id : Z) (chunks : list bytes) : prog DebugSig unit :=
  match chunks with
  | [] => Ret tt
  | chunk :: chunks => _ ← db (DbDeleteObject (debug_chunk organization_id chunk)); delete_chunks organization_id chunks
  end.
(** What is done under the lock of the file. *)
Definition publish_file (upload : DebugUpload) (s : DebugScan) (file_type : DebugFileType) : serving (DebugFile * Z) :=
  let checksum := blake3 (dg_content s) in
  let id := debug_file_id_derive (du_project_id upload) checksum in
  _ ←? db_blob (db (DbCommit (debug_file (du_project_id upload) id)));
  now ← db DbClockNow;
  let file :=
    {| df_id := id; df_project_id := du_project_id upload; df_debug_id := du_debug_id upload; df_code_id := du_code_id upload;
       df_file_type := file_type; df_checksum := checksum; df_sha1 := du_sha1 upload; df_size := dg_size s;
       df_name := du_name upload; df_uploaded_at := now |} in
  revision ←? db_store (db (DbPublish (du_id upload) file));
  _ ← delete_chunks (du_organization_id upload) (du_chunks upload);
  Ret (Ok (file, revision)).
Definition finish_stream (upload : DebugUpload) (s : DebugScan) : serving (DebugFile * Z) :=
  if negb (bool_decide (sha1_digest (dg_content s) = du_sha1 upload)) || (dg_size s =? 0)
  then _ ← db DbAbort; Ret (Err DfInvalidRequest)
  else
    match detect_file_type (du_name upload) (dg_header s) with
    | Err e => _ ← db DbAbort; Ret (Err e)
    | Ok file_type =>
        with_lock (debug_file_id_derive (du_project_id upload) (blake3 (dg_content s))) (publish_file upload s file_type)
    end.
Definition assemble_stream (fuel : nat) (upload : DebugUpload) : prog DebugSig (option (result DebugFileError (DebugFile * Z))) :=
  now ← db DbClockNow;
  begun ← db_blob (db (DbBegin BkDebugFile now));
  match (begun : result DebugFileError unit) with
  | Err e => Ret (Some (Err e))
  | Ok _ =>
      copied ← copy_chunks fuel (du_organization_id upload) (du_chunks upload) {| dg_size := 0; dg_header := []; dg_content := [] |};
      match copied with
      | None => Ret None
      | Some (Err e) => Ret (Some (Err e))
      | Some (Ok s) => r ← finish_stream upload s; Ret (Some r)
      end
  end.
Definition terminal (e : DebugFileError) : bool :=
  match e with DfInvalidRequest | DfConflict | DfQuota => true | DfForbidden | DfNotFound | DfUnavailable => false end.
Definition settle_debug_failure (upload : DebugUpload) (e : DebugFileError) : serving DebugAssembleState :=
  now ← db DbClockNow;
  _ ← db (DbSetUploadState (du_id upload) (if terminal e then UpFailed else UpPending) now (Some (debug_error_code e)));
  Ret (if terminal e then Ok (DasError (debug_error_code e)) else Err e).
Definition debug_assemble_afresh (fuel : nat) (upload : DebugUpload) : prog DebugSig (option (result DebugFileError DebugAssembleState)) :=
  acquired ← db DbAcquire;
  if negb (acquired : bool) then Ret (Some (Err DfUnavailable))
  else
    now ← db DbClockNow;
    set ← db_store (db (DbSetUploadState (du_id upload) UpAssembling now None));
    match (set : result DebugFileError unit) with
    | Err e => Ret (Some (Err e))
    | Ok _ =>
        assembled ← assemble_stream fuel upload;
        match assembled with
        | None => Ret None
        | Some (Ok (file, revision)) => Ret (Some (Ok (DasOk file revision)))
        | Some (Err e) => r ← settle_debug_failure upload e; Ret (Some r)
        end
    end.
Definition debug_assemble_record (fuel : nat) (record : DebugUploadRecord)
    : prog DebugSig (option (result DebugFileError DebugAssembleState)) :=
  let upload := ud_upload record in
  if bool_decide (ud_state record = UpComplete) then
    loaded ← db_store (db (DbLoadBySha1 (du_project_id upload) (du_sha1 upload)));
    match (loaded : result DebugFileError (option DebugFile)) with
    | Err e => Ret (Some (Err e))
    | Ok (Some file) => Ret (Some (Ok (DasOk file 0)))
    | Ok None => debug_assemble_afresh fuel upload
    end
  else debug_assemble_afresh fuel upload.

(** ** Requests *)

Definition debug_request_invalid (context : AuthContext) (organization_id : Z) (request : AssembleDebugFile) : bool :=
  negb (bool_decide (cx_organization_id context = organization_id)) || is_empty (ad_chunks request)
  || (SENTRY_CLI_CHUNKS_PER_REQUEST <? len (ad_chunks request))
  || (negb (is_some (ad_debug_id request)) && negb (is_some (ad_code_id request))).
Fixpoint debug_missing (organization_id : Z) (chunks : list bytes) : serving (list bytes) :=
  match chunks with
  | [] => Ret (Ok [])
  | chunk :: chunks =>
      opened ← db (DbOpen (debug_chunk organization_id chunk));
      match (opened : result BlobStoreError unit) with
      | Ok _ => debug_missing organization_id chunks
      | Err BeNotFound => missing ←? debug_missing organization_id chunks; Ret (Ok (chunk :: missing))
      | Err e => Ret (Err (debug_map_blob e))
      end
  end.
(** A request is answered at once, or leaves an upload to assemble. *)
Definition debug_request (context : AuthContext) (organization_id : Z) (project_id : ProjectId) (request : AssembleDebugFile)
    : serving (DebugAssembleState + DebugUploadRecord) :=
  _ ←! debug_require context DebugFileWrite;
  if debug_request_invalid context organization_id request then Ret (Err DfInvalidRequest)
  else
    name ←! map_err (λ _, DfInvalidRequest) (validate_debug_name (ad_name request));
    loaded ←? db_store (db (DbLoadBySha1 project_id (ad_sha1 request)));
    match (loaded : option DebugFile) with
    | Some file => Ret (Ok (inl (DasOk file 0)))
    | None =>
        missing ←? debug_missing organization_id (ad_chunks request);
        if negb (is_empty missing) then Ret (Ok (inl (DasMissing missing)))
        else
          now ← db DbClockNow;
          record ←? db_store (db (DbUpsertUpload
            {| du_id := debug_upload_id project_id (ad_sha1 request); du_project_id := project_id;
               du_organization_id := organization_id; du_sha1 := ad_sha1 request; du_name := name;
               du_debug_id := ad_debug_id request; du_code_id := ad_code_id request; du_chunks := ad_chunks request;
               du_created_at := now; du_updated_at := now |}));
          Ret (Ok (inr record))
    end.
Definition debug_assemble (fuel : nat) (context : AuthContext) (organization_id : Z) (project_id : ProjectId)
    (request : AssembleDebugFile) : prog DebugSig (option (result DebugFileError DebugAssembleState)) :=
  answer ← debug_request context organization_id project_id request;
  match answer with
  | Err e => Ret (Some (Err e))
  | Ok (inl state) => Ret (Some (Ok state))
  | Ok (inr record) => debug_assemble_record fuel record
  end.
(** The loop of [recover]; [None]: the fuel ran out in a record. *)
Fixpoint debug_recover_records (fuel : nat) (records : list DebugUploadRecord) (completed : Z) : prog DebugSig (option Z) :=
  match records with
  | [] => Ret (Some completed)
  | record :: records =>
      r ← debug_assemble_record fuel record;
      match r with
      | None => Ret None
      | Some (Ok (DasOk _ _)) => debug_recover_records fuel records (sat_u64 (completed + 1))
      | Some _ => debug_recover_records fuel records completed
      end
  end.
Definition debug_recover (fuel : nat) (limit : Z) : prog DebugSig (option (result DebugFileError Z)) :=
  records ← db_store (db (DbRecoverableUploads limit));
  match (records : result DebugFileError (list DebugUploadRecord)) with
  | Err e => Ret (Some (Err e))
  | Ok records => completed ← debug_recover_records fuel records 0; Ret (Ok <$> (completed : option Z))
  end.
Definition debug_find (project_id : ProjectId) (debug_id : option DebugId) (code_id : option CodeId) : serving (list DebugFile) :=
  db_store (db (DbFind project_id debug_id code_id 20)).
(** The reader is the object that was opened. *)
Definition debug_open (project_id : ProjectId) (file_id : bytes) : serving DebugFile :=
  file ←? db_store (db (DbLoad project_id file_id));
  _ ←? db_blob (db (DbOpen (debug_file project_id file_id)));
  Ret (Ok file).
Definition delete_locked (project_id : ProjectId) (file_id : bytes) : serving bool :=
  deleted ←? db_store (db (DbDelete project_id file_id));
  match (deleted : option (DebugFile * Z)) with
  | None => Ret (Ok false)
  | Some (file, _) => _ ← db (DbDeleteObject (debug_file (df_project_id file) (df_id file))); Ret (Ok true)
  end.
Definition debug_delete (context : AuthContext) (project_id : ProjectId) (file_id : bytes) : serving bool :=
  _ ←! debug_require context DebugFileDelete;
  organization_id ←? db_store (db (DbProjectOrganization project_id));
  if negb (bool_decide (organization_id = cx_organization_id context)) then Ret (Err DfNotFound)
  else with_lock file_id (delete_locked project_id file_id).

(** ** Cleanup *)

(** Whether the object goes: every old chunk, and a file the metadata does not have. *)
Definition object_orphan (delete_all : bool) (object : BlobObject) : serving bool :=
  if delete_all then Ret (Ok true)
  else
    relation ←! map_err (λ _, DfUnavailable) (debug_file_relation (bo_key object));
    loaded ← db (DbLoad relation.1 relation.2);
    Ret (Ok (match (loaded : result DebugFileStoreError DebugFile) with Err DsNotFound => true | _ => false end)).
Fixpoint clean_objects (delete_all : bool) (objects : list BlobObject) (deleted : Z) : serving Z :=
  match objects with
  | [] => Ret (Ok deleted)
  | object :: objects =>
      orphan ←? object_orphan delete_all object;
      if (orphan : bool) then
        _ ←? db_blob (db (DbDeleteObject (bo_key object)));
        clean_objects delete_all objects (sat_u64 (deleted + 1))
      else clean_objects delete_all objects deleted
  end.
(** The loop over the pages; [None]: the fuel ran out. *)
Fixpoint cleanup_namespace (fuel : nat) (namespace : BlobNamespace) (cutoff : Timestamp) (delete_all : bool)
    (cursor : option str) (deleted : Z) : prog DebugSig (option (result DebugFileError Z)) :=
  match fuel with
  | O => Ret None
  | S fuel =>
      scanned ← db_blob (db (DbScan {| bs_namespace := namespace; bs_older_than := cutoff; bs_cursor := cursor;
                                       bs_limit := dc_cleanup_batch_size c |}));
      match (scanned : result DebugFileError BlobScanPage) with
      | Err e => Ret (Some (Err e))
      | Ok page =>
          cleaned ← clean_objects delete_all (bp_objects page) deleted;
          match cleaned with
          | Err e => Ret (Some (Err e))
          | Ok deleted =>
              match bp_next_cursor page with
              | None => Ret (Some (Ok deleted))
              | Some next => cleanup_namespace fuel namespace cutoff delete_all (Some next) deleted
              end
          end
      end
  end.
Definition debug_cleanup_once (fuel : nat) : prog DebugSig (option (result DebugFileError (Z * Z))) :=
  now ← db DbClockNow;
  match (chunk_cutoff ← debug_subtract now (dc_chunk_expiry c); orphan_cutoff ← debug_subtract now (dc_orphan_grace c);
         Ok (chunk_cutoff, orphan_cutoff)) with
  | Err e => Ret (Some (Err e))
  | Ok (chunk_cutoff, orphan_cutoff) =>
      chunks ← cleanup_namespace fuel NsDebugChunks chunk_cutoff true None 0;
      match chunks with
      | None => Ret None
      | Some (Err e) => Ret (Some (Err e))
      | Some (Ok chunks) =>
          orphans ← cleanup_namespace fuel NsDebugFiles orphan_cutoff false None 0;
          match orphans with
          | None => Ret None
          | Some (Err e) => Ret (Some (Err e))
          | Some (Ok orphans) => Ret (Some (Ok (chunks, orphans)))
          end
      end
  end.
End service.

(** [lock_for] keeps a weak reference per file in a map: the locks that are still
    held by somebody ([strong_count > 0]) survive the [retain], and a caller shares
    the lock of its file when there is one.  [live] is the map after [retain], with
    the identity of each lock; a new lock gets a fresh one. *)
Record LockRegistry := { lk_locks : gmap bytes Z; lk_next : Z }.
Definition lock_for (counts : Z → Z) (id : bytes) (r : LockRegistry) : LockRegistry * Z :=
  let live := filter (λ kv, 0 < counts kv.2) (lk_locks r) in
  match live !! id with
  | Some lock => ({| lk_locks := live; lk_next := lk_next r |}, lock)
  | None => ({| lk_locks := <[id := lk_next r]> live; lk_next := lk_next r + 1 |}, lk_next r)
  end.
(** A lock somebody holds is the lock of one file, and the file's next caller gets it. *)
Definition registry_ok (r : LockRegistry) : Prop :=
  (∀ id lock, lk_locks r !! id = Some lock → lock < lk_next r)
  ∧ ∀ id id' lock, lk_locks r !! id = Some lock → lk_locks r !! id' = Some lock → id = id'.
Lemma lock_for_ok counts id r : registry_ok r →
  registry_ok (lock_for counts id r).1
  ∧ lk_locks (lock_for counts id r).1 !! id = Some (lock_for counts id r).2
  ∧ (∀ id' lock, lk_locks r !! id' = Some lock → 0 < counts lock →
       lk_locks (lock_for counts id r).1 !! id' = Some lock ∧ (id' = id ↔ (lock_for counts id r).2 = lock)).
Proof.
  intros [Hn Hi]. unfold lock_for. cbv zeta. set (live := filter _ _).
  assert (∀ i l, live !! i = Some l ↔ lk_locks r !! i = Some l ∧ 0 < counts l) as Hlive
    by (intros i l; unfold live; by rewrite map_lookup_filter_Some).
  clearbody live.
  destruct (live !! id) as [lock|] eqn:E; cbn [fst snd lk_locks lk_next].
  - apply Hlive in E as Hl. split.
    + split; cbn [lk_locks lk_next]; [intros i l [? _]%Hlive; by eapply Hn|]. intros i i' l [? _]%Hlive [? _]%Hlive. by eapply Hi.
    + split; [done|]. intros i l Hl' Hc. split; [by apply Hlive|]. split; [intros ->|intros ->]; [destruct Hl; congruence|].
      destruct Hl. by eapply Hi.
  - assert (∀ i l, live !! i = Some l → l < lk_next r) as Hlt by (intros i l [? _]%Hlive; by eapply Hn). split.
    + split; cbn [lk_locks lk_next].
      * intros i l [[_ <-]|[_ Hl]]%lookup_insert_Some; [lia|]. apply Hlt in Hl. lia.
      * intros i i' l [[<- <-]|[? Hl]]%lookup_insert_Some [[<- Hl']|[? Hl']]%lookup_insert_Some; try done.
        -- apply Hlt in Hl'. lia.
        -- subst. apply Hlt in Hl. lia.
        -- apply Hlive in Hl as [Hl _], Hl' as [Hl' _]. by eapply Hi.
    + split; [apply lookup_insert_eq|]. intros i l Hl Hc. assert (live !! i = Some l) as Hl' by by apply Hlive.
      assert (i ≠ id) by (intros ->; congruence). split; [by rewrite lookup_insert_ne|]. split; [done|].
      intros <-. apply Hlt in Hl'. lia.
Qed.

(** ** What an assembly may do *)

(** The calls of a method are made one by one. *)
Ltac db_step := cbn [attempt attempt_pure map_err_p db_blob db_store db perform mbind prog_bind map_err].

(** Whether the lock of a file is held after the history. *)
Definition lock_event (id : bytes) (held : bool) (e : event DebugSig) : bool :=
  match projT1 e with
  | DbLock k => bool_decide (k = id) || held
  | DbUnlock k => negb (bool_decide (k = id)) && held
  | _ => held
  end.
Definition lock_held (id : bytes) (h : list (event DebugSig)) : bool := foldl (lock_event id) false h.
Lemma lock_held_snoc id h e : lock_held id (h ++ [e]) = lock_event id (lock_held id h) e.
Proof. unfold lock_held. by rewrite foldl_app. Qed.

Definition debug_part_of (e : event DebugSig) : option bytes :=
  let '(existT call x) := e in
  match call return debug_answer call → option bytes with
  | DbReadChunk _ _ => λ x, match x with Ok part => part | Err _ => None end
  | _ => λ _, None
  end x.
Definition debug_piece_of (e : event DebugSig) : option bytes :=
  match projT1 e with DbWriteChunk piece => Some piece | _ => None end.
Definition debug_read_event (e : event DebugSig) : ReadEvent :=
  let '(existT call x) := e in
  match call return debug_answer call → ReadEvent with
  | DbOpen key => λ x, match x with Ok _ => OpenedObject key | Err _ => OtherEvent end
  | DbReadChunk _ _ => λ x, match x with Ok None => EndedObject | _ => OtherEvent end
  | _ => λ _, OtherEvent
  end x.
Definition debug_objects (h : list (event DebugSig)) : list (BlobKey * bool) := objects_read debug_read_event h.
Lemma debug_objects_snoc (h : list (event DebugSig)) (e : event DebugSig) :
  debug_objects (h ++ [e]) = read_step (debug_objects h) (debug_read_event e).
Proof. apply objects_read_snoc. Qed.
(** What was read of the chunks and what was written of the object. *)
Definition debug_read (h : list (event DebugSig)) : bytes := concat (omap debug_part_of h).
Definition debug_written (h : list (event DebugSig)) : bytes := concat (omap debug_piece_of h).
Lemma debug_read_snoc h e : debug_read (h ++ [e]) = debug_read h ++ match debug_part_of e with Some p => p | None => [] end.
Proof. unfold debug_read. rewrite omap_app, concat_app. cbn. destruct (debug_part_of e); cbn; by rewrite ?app_nil_r. Qed.
Lemma debug_written_snoc h e :
  debug_written (h ++ [e]) = debug_written h ++ match debug_piece_of e with Some p => p | None => [] end.
Proof. unfold debug_written. rewrite omap_app, concat_app. cbn. destruct (debug_piece_of e); cbn; by rewrite ?app_nil_r. Qed.
Definition debug_empty_part (h : list (event DebugSig)) : Prop :=
  ∃ key maximum, answered (E := DebugSig) (DbReadChunk key maximum) (Ok (Some [])) h.

Section assembly.
Context `{!Sha1Api, !Blake3, !Base64Api} (c : DebugFileConfig) (upload : DebugUpload).
Abbreviation history := (list (event DebugSig)).
Abbreviation organization := (du_organization_id upload).
Abbreviation project := (du_project_id upload).
Abbreviation file_key h := (debug_file_id_derive project (blake3 (debug_read h))).

Abbreviation chunk_keys chunks := (map (debug_chunk organization) chunks).

(** The objects of these chunks, and no others, were opened, in this order, and
    each was read to its end before the next. *)
Definition debug_chunks_read (h : history) (chunks : list bytes) : Prop := debug_objects h = all_read (chunk_keys chunks).
(** The file is the content of the chunks, of the type its head has, and is stored. *)
Definition debug_assembled (h : history) (file : DebugFile) : Prop :=
  debug_chunks_read h (du_chunks upload) ∧ sha1_digest (debug_read h) = du_sha1 upload ∧ 0 < len (debug_read h) ≤ dc_max_file_bytes c
  ∧ debug_written h = debug_read h
  ∧ df_checksum file = blake3 (debug_read h) ∧ df_id file = file_key h ∧ df_size file = len (debug_read h)
  ∧ detect_file_type (du_name upload) (take 4096 (debug_read h)) = Ok (df_file_type file)
  ∧ df_project_id file = project ∧ df_sha1 file = du_sha1 upload ∧ df_name file = du_name upload
  ∧ df_debug_id file = du_debug_id upload ∧ df_code_id file = du_code_id upload
  ∧ ∃ object, answered (E := DebugSig) (DbCommit (debug_file project (df_id file))) (Ok object) h.
Definition debug_published (h : history) (file : DebugFile) (revision : Z) : Prop :=
  answered (E := DebugSig) (DbPublish (du_id upload) file) (Ok revision) h.
Definition debug_loaded (h : history) (file : DebugFile) : Prop :=
  answered (E := DebugSig) (DbLoadBySha1 project (du_sha1 upload)) (Ok (Some file)) h.
(** The object of the file is written and the file published under its lock; a
    chunk is deleted only when the file is published. *)
Definition debug_allowed (h : history) (call : DebugCall) : Prop :=
  match call with
  | DbCommit key =>
      key = debug_file project (file_key h) ∧ lock_held (file_key h) h = true
      ∧ debug_chunks_read h (du_chunks upload) ∧ debug_written h = debug_read h ∧ sha1_digest (debug_read h) = du_sha1 upload
  | DbPublish id file => id = du_id upload ∧ debug_assembled h file ∧ lock_held (df_id file) h = true
  | DbOpen key =>
      ∃ before chunk after, du_chunks upload = before ++ chunk :: after ∧ key = debug_chunk organization chunk ∧ debug_chunks_read h before
  | DbReadChunk key _ =>
      ∃ before chunk after, du_chunks upload = before ++ chunk :: after ∧ key = debug_chunk organization chunk
        ∧ debug_objects h = (key, false) :: all_read (chunk_keys before)
  | DbDeleteObject key =>
      (∃ chunk, chunk ∈ du_chunks upload ∧ key = debug_chunk organization chunk) ∧ ∃ file revision, debug_published h file revision
  | DbSetUploadState id _ _ _ => id = du_id upload
  | DbLoadBySha1 p sha1 => p = project ∧ sha1 = du_sha1 upload
  | DbLock id => id = file_key h
  | DbBegin kind _ => kind = BkDebugFile
  | DbClockNow | DbAcquire | DbWriteChunk _ | DbAbort | DbUnlock _ => True
  | _ => False
  end.

Definition scan_ok (h : history) (s : DebugScan) : Prop :=
  dg_content s = debug_read h ∧ debug_written h = debug_read h ∧ dg_size s = len (debug_read h)
  ∧ dg_header s = take 4096 (debug_read h) ∧ len (debug_read h) ≤ dc_max_file_bytes c.
Definition copied_so_far (fuel : nat) (chunks : list bytes) (h : history) (r : option (result DebugFileError DebugScan)) : Prop :=
  match r with
  | Some (Ok s) => debug_chunks_read h chunks ∧ scan_ok h s
  | Some (Err _) => True
  | None => (fuel ≤ Z.to_nat (dc_max_file_bytes c) + 1)%nat ∨ debug_empty_part h
  end.
Lemma head_grows (content part : bytes) :
  take 4096 content ++ take (Z.to_nat (4096 - len (take 4096 content))) part = take 4096 (content ++ part).
Proof.
  rewrite take_app. f_equal. f_equal. unfold len. rewrite length_take. lia.
Qed.
Lemma copy_object_sat before chunk after : du_chunks upload = before ++ chunk :: after → ∀ fuel0 fuel s h,
  debug_objects h = (debug_chunk organization chunk, false) :: all_read (chunk_keys before) →
  scan_ok h s → ((fuel0 ≤ fuel + length (debug_read h))%nat ∨ debug_empty_part h) →
  sat debug_allowed (copied_so_far fuel0 (before ++ [chunk])) h (copy_object c fuel (debug_chunk organization chunk) s).
Proof.
  intros Hin fuel0. induction fuel as [|fuel IH]; intros s h Ho (Hc & Hw & Hz & Hh & Hl) Hf; cbn [copy_object].
  - destruct Hf as [Hf|Hf]; [left|by right]. unfold len in Hl. lia.
  - split; [by exists before, chunk, after|]. intros [[part|]|e]; [| |done].
    + db_step. destruct (checked_u64 (dg_size s + len part)) as [size|] eqn:Es; [|done].
      apply checked_Some in Es as [-> _].
      destruct (Z.ltb_spec (dc_max_file_bytes c) (dg_size s + len part)); [done|]. split; [done|].
      intros [[]|e]; db_step; [|done]. apply IH.
      * by rewrite !debug_objects_snoc, Ho.
      * unfold scan_ok. cbn [dg_content dg_size dg_header]. rewrite !debug_read_snoc, !debug_written_snoc.
        cbn [debug_part_of debug_piece_of projT1]. rewrite !app_nil_r, Hc, Hw, Hh, head_grows, len_app. split_and!; try done; lia.
      * destruct part as [|b part].
        -- right. exists (debug_chunk organization chunk), (dc_stream_chunk_bytes c). apply answered_app, answered_last.
        -- rewrite !debug_read_snoc. cbn [debug_part_of]. rewrite app_nil_r, length_app. cbn [length].
           destruct Hf as [Hf|(key & m & Hf)]; [left; lia|]. right. exists key, m. by do 2 apply answered_app.
    + split.
      * unfold debug_chunks_read. rewrite debug_objects_snoc, Ho, map_app. symmetry. apply all_read_snoc.
      * unfold scan_ok in *. cbn. rewrite debug_read_snoc, debug_written_snoc. cbn. by rewrite !app_nil_r.
Qed.
Lemma copy_chunks_sat fuel chunks : ∀ before s h, du_chunks upload = before ++ chunks → debug_chunks_read h before →
  scan_ok h s → sat debug_allowed (copied_so_far fuel (du_chunks upload)) h (copy_chunks c fuel organization chunks s).
Proof.
  induction chunks as [|chunk chunks IH]; intros before s h Hin Ho Hs; cbn [copy_chunks].
  { rewrite app_nil_r in Hin. by rewrite Hin. }
  split; [by exists before, chunk, chunks|]. intros [[]|e]; [|done]. db_step.
  eapply sat_then.
  - apply (copy_object_sat before chunk chunks Hin fuel fuel s); [| |left; lia].
    + by rewrite debug_objects_snoc, Ho.
    + unfold scan_ok in *. rewrite debug_read_snoc, debug_written_snoc. cbn [debug_part_of debug_piece_of projT1]. by rewrite !app_nil_r.
  - intros h' [[s'|e]|] _ Hp; [|exact Hp|exact Hp]. destruct Hp as [Ho' Hs']. apply (IH (before ++ [chunk])); [|done|done].
    by rewrite <- app_assoc.
Qed.
Lemma delete_chunks_sat post chunks file revision : (∀ chunk, chunk ∈ chunks → chunk ∈ du_chunks upload) → ∀ h,
  debug_published h file revision → (∀ h', debug_published h' file revision → post h' tt) →
  sat debug_allowed post h (delete_chunks organization chunks).
Proof.
  induction chunks as [|chunk chunks IH]; intros Hin h Hd Hp; [by apply Hp|]. cbn [delete_chunks]. split.
  - split; [exists chunk; split; [by apply Hin, list_elem_of_here|done]|]. by exists file, revision.
  - intros x. db_step. apply IH; [|by apply answered_app|done]. intros k Hk. by apply Hin, list_elem_of_further.
Qed.
(** [with_lock] hands the lock to its program and takes it back. *)
Lemma with_lock_sat {A} (p : prog DebugSig A) id post h : id = file_key h →
  (∀ h', debug_objects h' = debug_objects h → debug_read h' = debug_read h → debug_written h' = debug_written h → lock_held id h' = true →
     sat debug_allowed (λ h'' a, ∀ e, post (h'' ++ [e]) a) h' p) →
  sat debug_allowed post h (with_lock id p).
Proof.
  intros Hid Hp. unfold with_lock. split; [done|]. intros []. db_step. rewrite sat_bind.
  eapply sat_mono; [done| |apply Hp].
  - intros h' a Ha. cbn beta. split; [done|]. intros x. db_step. apply Ha.
  - by rewrite debug_objects_snoc.
  - rewrite debug_read_snoc. apply app_nil_r.
  - rewrite debug_written_snoc. apply app_nil_r.
  - rewrite lock_held_snoc. unfold lock_event. cbn. by rewrite bool_decide_true.
Qed.

Definition stream_told (h : history) (r : result DebugFileError (DebugFile * Z)) : Prop :=
  match r with Ok (file, revision) => debug_published h file revision | Err _ => True end.
Lemma publish_file_sat s file_type h : debug_chunks_read h (du_chunks upload) → scan_ok h s → sha1_digest (debug_read h) = du_sha1 upload → 0 < len (debug_read h) →
  detect_file_type (du_name upload) (dg_header s) = Ok file_type → lock_held (file_key h) h = true →
  sat debug_allowed (λ h' r, ∀ e, stream_told (h' ++ [e]) r) h (publish_file upload s file_type).
Proof.
  intros Ho (Hc & Hw & Hz & Hh & Hl) Hsha Hpos Ht Hk. unfold publish_file. rewrite Hc. cbv zeta.
  split; [done|]. intros [object|e]; db_step; [|done].
  split; [done|]. intros now. db_step. match goal with |- sat _ _ ?h' _ => set (h2 := h') end.
  assert (debug_read h2 = debug_read h) as Hr2 by (subst h2; rewrite !debug_read_snoc; cbn; by rewrite !app_nil_r). split.
  - split; [done|]. split.
    + unfold debug_assembled. rewrite Hr2. cbn [df_checksum df_id df_size df_file_type df_project_id df_sha1 df_name df_debug_id df_code_id].
      rewrite <- Hh, Ht. split_and!; try done.
      * subst h2. unfold debug_chunks_read. by rewrite !debug_objects_snoc.
      * subst h2. rewrite !debug_written_snoc. cbn. by rewrite !app_nil_r.
      * exists object. subst h2. apply answered_app. exact (answered_last (E := DebugSig) (DbCommit _) (Ok object) h).
    + subst h2. rewrite !lock_held_snoc. exact Hk.
  - intros [revision|e]; db_step; [|done]. fold (prog_bind (E := DebugSig)).
    match goal with |- sat _ _ (_ ++ [existT (DbPublish _ ?f) _]) _ => set (file := f) end.
    apply sat_bind. apply (delete_chunks_sat _ _ file revision); [done|apply answered_last|].
    intros h' Hp e. cbn. by apply answered_app.
Qed.
Lemma finish_stream_sat s h : debug_chunks_read h (du_chunks upload) → scan_ok h s → sat debug_allowed stream_told h (finish_stream upload s).
Proof.
  intros Ho Hs. pose proof Hs as (Hc & Hw & Hz & Hh & Hl). unfold finish_stream. rewrite Hc.
  destruct (_ || _) eqn:Et; [split; [done|]; intros x; done|]. apply orb_false_iff in Et as [Hsha Hne].
  apply negb_false_iff, bool_decide_eq_true in Hsha. apply Z.eqb_neq in Hne. rewrite Hz in Hne.
  assert (0 < len (debug_read h)) by (unfold len in *; lia).
  destruct (detect_file_type _ _) as [file_type|e] eqn:Et; [|split; [done|]; intros x; done].
  apply with_lock_sat; [done|]. intros h' Ho' Hr Hw' Hk. apply publish_file_sat; rewrite ?Hr; try done.
  - unfold debug_chunks_read. by rewrite Ho'.
  - unfold scan_ok. by rewrite Hr, Hw'.
Qed.

Definition debug_told (fuel : nat) (h : history) (r : option (result DebugFileError DebugAssembleState)) : Prop :=
  match r with
  | Some (Ok (DasOk file revision)) => debug_published h file revision ∨ (debug_loaded h file ∧ revision = 0)
  | Some (Ok (DasError code)) => ∃ e now x, terminal e = true ∧ code = debug_error_code e
      ∧ answered (E := DebugSig) (DbSetUploadState (du_id upload) UpFailed now (Some code)) x h
  | Some (Ok (DasMissing _)) => False
  | Some (Err _) => True
  | None => (fuel ≤ Z.to_nat (dc_max_file_bytes c) + 1)%nat ∨ debug_empty_part h
  end.
Lemma settle_debug_failure_sat fuel e h :
  sat debug_allowed (debug_told fuel) h (r ← settle_debug_failure upload e; Ret (Some r)).
Proof.
  unfold settle_debug_failure. split; [done|]. intros now. db_step. split; [done|]. intros x. db_step.
  destruct (terminal e) eqn:Ep; [|done]. exists e, now, x. split; [done|]. split; [done|]. apply answered_last.
Qed.
Lemma assemble_stream_sat fuel h : 0 < dc_max_file_bytes c → debug_objects h = [] → debug_read h = [] → debug_written h = [] →
  sat debug_allowed (λ h r, match r with Some r => stream_told h r | None => copied_so_far fuel (du_chunks upload) h None end) h
    (assemble_stream c fuel upload).
Proof.
  intros Hm Ho Hr Hw. unfold assemble_stream. split; [done|]. intros now. db_step. split; [done|].
  intros [[]|e]; db_step; [|done]. eapply sat_then; [apply (copy_chunks_sat fuel _ []); [done| |]|].
  - unfold debug_chunks_read. by rewrite !debug_objects_snoc, Ho.
  - unfold scan_ok. rewrite !debug_read_snoc, !debug_written_snoc, Hr, Hw. split_and!; try done. unfold len. cbn [app length debug_part_of]. lia.
  - intros h2 [[s|e]|] _ Hp; [|done|exact Hp]. destruct Hp as [Ho2 Hp].
    rewrite sat_bind. eapply sat_mono; [done| |by apply finish_stream_sat]. done.
Qed.
Lemma debug_afresh_sat fuel h : 0 < dc_max_file_bytes c → debug_objects h = [] → debug_read h = [] → debug_written h = [] →
  sat debug_allowed (debug_told fuel) h (debug_assemble_afresh c fuel upload).
Proof.
  intros Hm Ho Hr Hw. unfold debug_assemble_afresh. split; [done|]. intros [|]; db_step; [|done]. split; [done|]. intros now. db_step.
  split; [done|]. intros [[]|e]; db_step; [|done]. match goal with |- sat _ _ ?h' _ => set (h1 := h') end.
  assert (debug_objects h1 = [] ∧ debug_read h1 = [] ∧ debug_written h1 = []) as (Ho1 & Hr1 & Hw1).
  { subst h1. split; [by rewrite !debug_objects_snoc, Ho|]. rewrite !debug_read_snoc, !debug_written_snoc, Hr, Hw. done. }
  clearbody h1. rewrite sat_bind. eapply sat_mono; [done| |by apply assemble_stream_sat].
  intros h2 [[[file revision]|e]|] Hp; [left; exact Hp|apply settle_debug_failure_sat|exact Hp].
Qed.
End assembly.

(** C13. Whatever the stores answer, the object of a debug file is committed and
    the file published only under the lock of the file, with, as content, all that
    was read of the objects of its chunks, these and no others opened, in order,
    each read to its end before the next; the content has the requested digest, is
    within the size limit and of the type its head has.  Chunks are deleted only
    after the publication.  Fuel beyond the size limit ends the reads unless an
    object answers a read with an empty part, on which the loop of the code makes
    no progress. *)
Theorem debug_assembly_publishes_content `{!Sha1Api, !Blake3, !Base64Api} c fuel record :
  0 < dc_max_file_bytes c →
  sat (debug_allowed c (ud_upload record)) (debug_told c (ud_upload record) fuel) [] (debug_assemble_record c fuel record).
Proof.
  intros Hm.
  unfold debug_assemble_record. case_bool_decide as Hs; [|by apply debug_afresh_sat].
  split; [done|]. intros [[file|]|e]; db_step; [|by apply debug_afresh_sat|done].
  right. split; [apply answered_last|done].
Qed.

(** ** What a cleanup deletes *)

Section cleanup.
Context `{!Base64Api} (c : DebugFileConfig).
(** An object is deleted when a scan found it: among the chunks of before the
    cutoff, or among the files of before theirs when the metadata had no such file. *)
Definition cleanup_allowed (h : list (event DebugSig)) (call : DebugCall) : Prop :=
  match call with
  | DbDeleteObject key =>
      ∃ now request page object,
        answered (E := DebugSig) DbClockNow now h ∧ answered (E := DebugSig) (DbScan request) (Ok page) h
        ∧ object ∈ bp_objects page ∧ bo_key object = key
        ∧ ((bs_namespace request = NsDebugChunks ∧ debug_subtract now (dc_chunk_expiry c) = Ok (bs_older_than request))
           ∨ (bs_namespace request = NsDebugFiles ∧ debug_subtract now (dc_orphan_grace c) = Ok (bs_older_than request)
              ∧ ∃ p f, debug_file_relation key = Ok (p, f) ∧ answered (E := DebugSig) (DbLoad p f) (Err DsNotFound) h))
  | DbScan request => bs_limit request = dc_cleanup_batch_size c
  | DbClockNow | DbLoad _ _ => True
  | _ => False
  end.
Lemma clean_objects_sat (all : bool) now cutoff request page objects : ∀ deleted h,
  answered (E := DebugSig) DbClockNow now h → answered (E := DebugSig) (DbScan request) (Ok page) h →
  (∀ o, o ∈ objects → o ∈ bp_objects page) → bs_older_than request = cutoff →
  (if all then bs_namespace request = NsDebugChunks ∧ debug_subtract now (dc_chunk_expiry c) = Ok cutoff
   else bs_namespace request = NsDebugFiles ∧ debug_subtract now (dc_orphan_grace c) = Ok cutoff) →
  sat cleanup_allowed (λ h' _, answered (E := DebugSig) DbClockNow now h') h (clean_objects all objects deleted).
Proof.
  induction objects as [|object objects IH]; intros deleted h Hn Hs Hin <- Hk; [done|]. cbn [clean_objects].
  assert (∀ o, o ∈ objects → o ∈ bp_objects page) as Hin' by (intros o Ho; by apply Hin, list_elem_of_further).
  assert (object ∈ bp_objects page) as Ho by apply Hin, list_elem_of_here. unfold object_orphan.
  destruct all.
  - db_step. split.
    + exists now, request, page, object. split_and!; try done. by left.
    + intros [[]|e]; db_step; [|by apply answered_app]. by apply IH; try apply answered_app.
  - destruct (debug_file_relation (bo_key object)) as [[p f]|e] eqn:Er; db_step; [|done].
    split; [done|]. intros x. db_step. cbn [fst snd].
    destruct (match x with Err DsNotFound => true | _ => false end) eqn:Ex; [|by apply IH; try apply answered_app].
    assert (x = Err DsNotFound) as -> by (by destruct x as [|[]]). split.
    + exists now, request, page, object. split_and!; try (by apply answered_app); try done. right.
      destruct Hk as [Hk1 Hk2]. split_and!; try done. exists p, f. split; [done|].
      exact (answered_last (E := DebugSig) (DbLoad p f) (Err DsNotFound) h).
    + intros [[]|e]; db_step; [|by do 2 apply answered_app]. by apply IH; try (do 2 apply answered_app).
Qed.
Lemma cleanup_namespace_sat (all : bool) now cutoff fuel : ∀ cursor deleted h,
  answered (E := DebugSig) DbClockNow now h →
  debug_subtract now (if all then dc_chunk_expiry c else dc_orphan_grace c) = Ok cutoff →
  sat cleanup_allowed (λ h' _, answered (E := DebugSig) DbClockNow now h') h
    (cleanup_namespace c fuel (if all then NsDebugChunks else NsDebugFiles) cutoff all cursor deleted).
Proof.
  induction fuel as [|fuel IH]; intros cursor deleted h Hn Hk; [done|]. cbn [cleanup_namespace]. split; [done|].
  intros [page|e]; db_step; [|by apply answered_app]. eapply sat_then.
  - eapply (clean_objects_sat all now cutoff).
    + by apply answered_app.
    + exact (answered_last (E := DebugSig) (DbScan _) (Ok page) h).
    + done.
    + done.
    + by destruct all.
  - intros h' [deleted'|e] _ Hp; [|exact Hp]. destruct (bp_next_cursor page); [|exact Hp]. by apply IH.
Qed.
End cleanup.

(** Whatever the stores answer, a cleanup deletes only objects a scan of before
    the cutoff found: chunks, and files the metadata was just asked for and did
    not have. *)
Theorem debug_cleanup_deletes_orphans `{!Base64Api} c fuel :
  sat (cleanup_allowed c) (λ _ _, True) [] (debug_cleanup_once c fuel).
Proof.
  unfold debug_cleanup_once. split; [done|]. intros now. db_step.
  destruct (debug_subtract now (dc_chunk_expiry c)) as [chunk_cutoff|e] eqn:Ec; [|done].
  cbn [mbind result_bind]. destruct (debug_subtract now (dc_orphan_grace c)) as [orphan_cutoff|e] eqn:Eo; [|done].
  cbn [mbind result_bind].
  eapply sat_then; [apply (cleanup_namespace_sat c true now chunk_cutoff fuel); [apply answered_last|done]|].
  intros h [[chunks|e]|] _ Hn; [|done|done].
  eapply sat_then; [by apply (cleanup_namespace_sat c false now orphan_cutoff fuel)|].
  by intros h' [[orphans|e]|] _ _.
Qed.

(** ** A witness *)

#[local] Existing Instance service_digest.
#[local] Existing Instance service_sha1.
#[local] Instance debug_base64 : Base64Api := {| base64_encode := λ x, x; base64_decode := Some |}.
Definition sample_debug_upload : DebugUploadRecord :=
  {| ud_upload := {| du_id := replicate 16 1; du_project_id := 1; du_organization_id := 1; du_sha1 := replicate 20 2;
                     du_name := lit "app.sym"; du_debug_id := None; du_code_id := None; du_chunks := [replicate 20 3];
                     du_created_at := 1000; du_updated_at := 1000 |};
     ud_state := UpPending; ud_attempts := 0; ud_error_code := None |}.
Lemma debug_assembly_publishes_content_witness :
  0 < dc_max_file_bytes debug_file_default
  ∧ sat (debug_allowed debug_file_default (ud_upload sample_debug_upload))
      (debug_told debug_file_default (ud_upload sample_debug_upload) 3) [] (debug_assemble_record debug_file_default 3 sample_debug_upload).
Proof.
  assert (0 < dc_max_file_bytes debug_file_default) as Hm by (vm_compute; reflexivity).
  split; [done|]. by apply (debug_assembly_publishes_content debug_file_default 3 sample_debug_upload).
Defined.
